(* ===== verification/_CoqProject ===== *)
-Q . S2P
Prelude.v
Bits.v
Fast.v
Cser.v
Inter.v
Instances.v
TxSer.v
EventSer.v
Heap.v
Store.v
Rules.v
Pos.v
Shuffle.v
Piecefunc.v
Emitter.v
EvmState.v
GasPower.v
EventCheck.v
EmitterTxs.v
CheckQueue.v
Vecmt.v
EvmChain.v
BlockProc.v
EvmBlock.v
Driver.v
BlockCallbacks.v
TxList.v
Service.v
Emission.v
ServiceWorld.v
TxPool.v
PoolInv.v
PoolOps.v
PoolReorg.v
PoolLimits.v
PoolRun.v
PoolSched.v
PoolProps.v
Topics.v
LogFilter.v
GasPrice.v
Genesis.v
Peer.v
Handler.v
EthApi.v
FilterSystem.v
GenesisStore.v
SfcApi.v
ApiBackend.v
