(* ===== verification/Prelude.v ===== *)
(** * go-zilionixx: a verification library

    go-zilionixx is a node of a proof-of-stake network whose consensus orders a DAG of
    events.  Validators emit events with transactions; the checkers under eventcheck/
    validate them; the consensus library (outside the repository) groups them into
    blocks; the callbacks under gossip/ execute the blocks on an EVM, talk to a driver
    contract and seal epochs.  This library models the parts that decide what the
    network agrees on, and proves what makes them correct.

    ** Conventions

    Machine integers are [Z] with their wrap-around written out ([u8] ... [u64], [i64]);
    big integers are [Z].  Bytes are [Z] between 0 and 255.  Code that can fail returns
    [res A]: [Ok a], [Err e] or [Panic]; the serializers thread their streams through
    the state monad [GoM].
    State is passed explicitly and pointers to shared states are modelled by the order
    in which the code writes to them.  Definitions are executable, so the witnesses run
    them on concrete events, blocks and transactions.  Code outside the repository is a
    class of operations with a class of laws that states its documented behaviour; each
    such pair has an instance on which the theorems' witnesses run.

    ** Files, and the source they model

    - Prelude: integers, the panic monad, indexing and dereferencing, shared lemmas.
    - Bits (utils/bits), Fast (utils/fast): bit and byte streams; reading is splitting
      and writing is appending of a list of bits.
    - Cser (utils/cser): the compact serialization.  The predicate [codec] is the
      contract of an encoder with its decoder; codecs compose, and [adapter_roundtrip]
      carries them to the binary container.
    - Inter (inter/): times, gas power, events, transactions, blocks; Instances gives
      concrete event identifiers.
    - TxSer (inter/transaction_serializer.go), EventSer (inter/event_serializer.go and
      the hashing of inter/event.go): the event round trip, the totality of encoding
      and the injectivity of the hashed part.
    - Heap: what the code uses of container/heap and of iteration over maps.
    - Store (gossip/store_event.go, store_block.go, store_heads.go, store_last_events.go):
      tables behind caches refine maps; the sets of an epoch survive a reload.
    - Rules (zilionixx/rules.go): the network's parameters and their RLP form.
    - Pos: the interface of validator groups.
    - Shuffle (utils/weighted_shuffle.go, the turns of gossip/emitter/txs.go): weighted
      permutations, and whose turn it is to originate a transaction.
    - Piecefunc (utils/piecefunc): piecewise linear functions at 64 bits.
    - Emitter (gossip/emitter: config.go, piecefuncs.go, control.go, validators.go):
      intervals, metrics and the decision to emit.
    - GasPower (eventcheck/gaspowercheck): the machine computation is exact, capped, and
      bounds a validator's spending by its stake and the elapsed time.
    - EventCheck (eventcheck/basiccheck, epochcheck, parentscheck, heavycheck, all.go):
      what acceptance guarantees, absence of panics, exactness of the gas charged.
    - EmitterTxs (gossip/emitter: txs.go, hooks.go, originatedtxs): pending transactions,
      and the transactions that an event takes.
    - CheckQueue (the queues of eventcheck/heavycheck and parentlesscheck): caller,
      channel and workers as a step relation; safety by rule induction, and a measure
      that every step decreases for termination.
    - Vecmt (vecmt/): time vectors, their merging, the weighted median time.
    - EvmState (evmcore/gaspool.go, state_transition.go): one message: gas bought, used
      and refunded.
    - EvmChain (evmcore/dummy_block.go, evmcore/evm.go, gossip/evm_state_reader.go):
      headers, the BLOCKHASH closure with its cache, blocks rebuilt from the store.
    - BlockProc (gossip/blockproc: decided_state.go, sealmodule, eventmodule): block and
      epoch states, confirmed events, the sealing of an epoch.
    - EvmBlock (evmcore/state_processor.go, gossip/blockproc/evmmodule): the execution
      of a block's transactions and their receipts.
    - Driver (gossip/blockproc/drivermodule, zilionixx/marshal.go): internal
      transactions to the driver contract and the logs it emits.
    - BlockCallbacks (gossip/c_block_callbacks.go and the tables it writes): the whole
      pipeline [BeginBlock], [ApplyEvent], [EndBlock], [blockFn], composed from the
      modules above as the code composes them.
    - Genesis (gossip/apply_genesis.go, evmcore/apply_genesis.go, the genesis transactions
      of drivermodule): the store that a genesis leaves, and the chain that the pipeline
      extends from it.
    - GenesisStore (zilionixx/genesisstore, utils/iodb, utils/ioread, integration/assembly.go):
      the file of a genesis, the store that it is read into, and the hashes that are compared
      before a node starts on it.
    - TxList (evmcore/tx_list.go, tx_noncer.go, the lookup of tx_pool.go): the nonce
      maps, account lists and price heap of the transaction pool.
    - TxPool (evmcore/tx_pool.go): the pool's state and operations: validation, admission,
      removal, promotion, demotion, truncation, reset and reorganisation.  PoolInv ties the
      maps, the lookup table and the price heap to two functions from accounts to sorted
      lists; PoolOps, PoolReorg, PoolLimits and PoolRun prove the operations against it.
      PoolSched is the state of the goroutines ([scheduleReorgLoop], [loop] and callers) with
      one step per critical section; PoolProps has the theorems.
    - Topics (topicsdb/): the index of logs: keys, records, pushing and the lazy search,
      over a class of key-value stores with ordered iterators.
    - LogFilter (gossip/filters/filter.go): filters over blocks and ranges of blocks.
    - FilterSystem (gossip/filters/filter_system.go, api.go): subscriptions and polled
      filters: the event loop, a goroutine for each subscription, their channels and the
      mutex of the filters are the steps of one machine.
    - GasPrice (gossip/gasprice, gossip/gpo_backend.go): the gas price oracle, and the gas
      power left in the service below.
    - Service (gossip/c_event_callbacks.go, checker_helpers.go): [buildEvent] and
      [processEvent], in a monad whose failures keep the state; the vector clock, the
      engine and the emitter are classes.
    - Emission (gossip/emitter: emitter.go, parents.go, sync.go, hooks.go): the emitter
      against the class [EmitterWorld] of what the node promises it.
    - ServiceWorld (gossip/emitter_world.go): the service as that class; its laws are proved
      from [buildEvent] and [processEvent].
    - Peer (gossip/peer.go, protocol.go): peers, what they are known to have, their queue
      with the goroutines around it, the handshake and the set of peers.
    - Handler (gossip/handler.go, sync.go): the protocol manager.  Peers are objects in a
      heap that the set, the handlers and the broadcasts share; each goroutine's round is a
      step of the node, and calls to the components beside it are recorded.
    - EthApi (ethapi/api.go, ethapi/addrlock.go): calls, gas estimates, access lists, and
      transactions filled in, signed and sent under a lock on the sender's nonces.
    - SfcApi (gossip/sfcapi): the tables of stakers, delegations and claimed rewards that
      follow the logs of the staking contract.  Block processing hands every log to them;
      here they take the logs as a sequence of their own.
    - ApiBackend (gossip/ethapi_backend.go): what the node answers about blocks,
      transactions, receipts, events, epochs and stakers, from the store of BlockCallbacks
      and the tables of SfcApi.

    ** What the theorems show

    Data: events, transactions and rules survive their encoding, and what is signed
    determines the event.  Admission: an accepted event respects every rule, the checks
    neither panic nor depend on the interleaving of workers, and a validator cannot
    spend gas power faster than its stake allows, also when median times go back.  Time: the
    median time lies between the times of validators whenever the others weigh less than half,
    rounded down.  Execution: messages pay for exactly the gas
    they use, receipts match the block's transactions and the skipped list the others, BLOCKHASH answers
    with the stored hashes.  Chain: a step of the pipeline appends one block or none, so
    that from the genesis on the stored blocks are one chain without gaps, with different
    Atropoi while consensus confirms no event twice; the genesis comes
    from a file that gives back the store it was written from, whose hash is checked; the block
    can be read back as it was executed, epochs are sealed exactly when due, fees go to
    the creators of the first events with the transactions, cheaters are reported once, and logs of the driver contract cannot
    break the next epoch.  Pool: the nonce map refines a sorted list, filtering and
    replacing are exact, eviction takes the cheapest transactions; in every interleaving in
    which the chain serves the resets the pool stays well-formed and within its limits after a
    reorganisation, pending transactions are executable runs while the chain moves on, and no
    new head is skipped; what happens when the state of the head or the block of a new head is
    missing is part of the theorem.  Logs: the index answers
    a search with exactly the logs that a scan of the chain selects, and filters agree on
    both ways; suggested gas prices keep their bounds.  Clients of subscriptions get
    what matches, once and in order, and the one way in which the event loop can stop is
    exhibited.  A gas estimate is one that succeeds and could not be lower, and requests
    that leave the nonce to the node do not share one.  After a block its transactions, the
    block and its state are found by every way of asking for them, and the staking tables
    are the sums over the contract's logs.  Events: a refused
    event leaves no trace, a connected one updates heads, last events and, at the end of
    an epoch, every part that depends on it; the stores answer as maps do.  Emission: the
    event that a node builds passes the gas checks with any transactions it adds,
    transactions have one originator per turn, and a validator that runs on one node never
    forks itself.  Network: no
    message and no interleaving blocks the node or takes a peer beyond its limits, a refused
    message changes nothing, the writer of a peer's queue leaves only once the peer is closed,
    and a broadcast reaches exactly the interested peers, once.

    ** Fuel and bounds

    Loops over lists are structural.  Fuel appears where the code loops on a condition:
    the recursion of the bit streams gets more units than bits to move, the compact
    integers one per byte of 64 bits, the walk of BLOCKHASH one per block below the
    executed one, the loops of the pool the length of the heap they pop or of the list they
    shorten, the walk of a reset one per block below the head, the weighted tree its depth,
    the choice of transactions one more than the queue holds, the scan of a filter one per
    block of its range, the search for a gas limit 63 calls, a read of n bytes n + 1
    calls of the reader, a genesis file one per byte, the batches of transactions one per transaction, and the sets that
    forget their elements one per element.  The theorems
    about them start from this fuel and give a result, so it is enough.
    Theorems about 64-bit sums state the ranges under which they do not wrap; where the
    code relies on no such range the wrap-around is a theorem of its own
    ([EventCheck.gas_power_used_wraps], [Driver.decode_data_bytes_panics]).

    ** What is not modelled

    The consensus library, the EVM, the state database, cryptography, RLP, ABI and JSON
    codecs: they are outside the repository and appear as interfaces.  Getters and
    marshalling of the RPC interfaces, the launcher, key store, metrics and generated
    contract bindings are input and output around libraries.  Of the protocol manager the
    start and stop of its goroutines are left out, and the start of a connection's handler
    is one step.  Of the pool the
    journal file, the cache of recovered senders and the metrics are left out, and the
    goroutines read the head and the lookup table in the same step as the critical section
    that follows.  Iteration over whole stores, the migrations and the tables in which the
    vector clock is kept are left out: their code moves data between the databases of the
    base library, whose behaviour is all there is to state about them. *)

From Stdlib Require Export ZArith Lia.
From stdpp Require Export prelude list gmap strings.

Declare Scope go_scope.
Delimit Scope go_scope with go.

Global Open Scope Z_scope.

(** ** Machine integers

    A Go integer of a fixed width is a [Z]; the conversions below are the
    wrap-around that Go's conversions and arithmetic perform. *)

Definition u8 (z : Z) : Z := z mod 2 ^ 8.
Definition u16 (z : Z) : Z := z mod 2 ^ 16.
Definition u32 (z : Z) : Z := z mod 2 ^ 32.
Definition u64 (z : Z) : Z := z mod 2 ^ 64.
Definition i64 (z : Z) : Z := (z + 2 ^ 63) mod 2 ^ 64 - 2 ^ 63.

Definition is_u8 (z : Z) : Prop := 0 <= z < 2 ^ 8.
Definition is_u16 (z : Z) : Prop := 0 <= z < 2 ^ 16.
Definition is_u32 (z : Z) : Prop := 0 <= z < 2 ^ 32.
Definition is_u64 (z : Z) : Prop := 0 <= z < 2 ^ 64.
Definition is_i64 (z : Z) : Prop := - 2 ^ 63 <= z < 2 ^ 63.

Definition bytes_ok (l : list Z) : Prop := Forall is_u8 l.

(** [len l] is Go's [len], an [int]. *)
Definition len {A} (l : list A) : Z := Z.of_nat (length l).

#[global] Instance is_u8_dec z : Decision (is_u8 z).
Proof. unfold is_u8. apply _. Defined.
#[global] Instance is_u16_dec z : Decision (is_u16 z).
Proof. unfold is_u16. apply _. Defined.
#[global] Instance is_u32_dec z : Decision (is_u32 z).
Proof. unfold is_u32. apply _. Defined.
#[global] Instance is_u64_dec z : Decision (is_u64 z).
Proof. unfold is_u64. apply _. Defined.
#[global] Instance is_i64_dec z : Decision (is_i64 z).
Proof. unfold is_i64. apply _. Defined.
#[global] Instance bytes_ok_dec l : Decision (bytes_ok l).
Proof. unfold bytes_ok. apply _. Defined.

(** ** Results

    A Go function with an [error] result returns [Ok] or [Err]; a function that
    panics (an index out of range, an explicit [panic]) gives [Panic].  Error
    variables are compared by identity in Go; each has its own name here. *)

Inductive error := NewError (name : string).

#[global] Instance error_eq_dec : EqDecision error.
Proof. solve_decision. Defined.

Inductive res (A : Type) :=
  | Ok (a : A)
  | Err (e : error)
  | Panic.
Arguments Ok {A} _.
Arguments Err {A} _.
Arguments Panic {A}.

#[global] Instance res_eq_dec {A} `{EqDecision A} : EqDecision (res A).
Proof. solve_decision. Defined.

#[global] Instance res_ret : MRet res := λ A a, Ok a.
#[global] Instance res_bind : MBind res := λ A B f m,
  match m with Ok a => f a | Err e => Err e | Panic => Panic end.
#[global] Instance res_fmap : FMap res := λ A B f m,
  match m with Ok a => Ok (f a) | Err e => Err e | Panic => Panic end.

(** [recover] inside a deferred function turns a panic into an error. *)
Definition recover_with {A} (e : error) (m : res A) : res A :=
  match m with Panic => Err e | _ => m end.

(** ** Stateful fallible code: a method with a pointer receiver. *)

Definition GoM (S A : Type) : Type := S → res (A * S).

#[global] Instance GoM_ret {S} : MRet (GoM S) := λ A a s, Ok (a, s).
#[global] Instance GoM_bind {S} : MBind (GoM S) := λ A B f m s,
  match m s with Ok (a, s') => f a s' | Err e => Err e | Panic => Panic end.

(** The same with the state kept when the code returns an error: a method whose
    caller sees the fields already written. *)
Definition Eff (S A : Type) : Type := S → res A * S.

#[global] Instance Eff_ret {S} : MRet (Eff S) := λ A a s, (Ok a, s).
#[global] Instance Eff_bind {S} : MBind (Eff S) := λ A B f m s,
  match m s with
  | (Ok a, s') => f a s'
  | (Err e, s') => (Err e, s')
  | (Panic, s') => (Panic, s')
  end.

Definition eff_get {S A} (f : S → A) : Eff S A := λ s, (Ok (f s), s).
Definition eff_set {S} (f : S → S) : Eff S unit := λ s, (Ok tt, f s).
Definition eff_err {S A} (e : error) : Eff S A := λ s, (Err e, s).
Definition eff_panic {S A} : Eff S A := λ s, (Panic, s).
Definition eff_if {S A} (b : bool) (m k : Eff S A) : Eff S A := if b then m else k.

Definition throw {S A} (e : error) : GoM S A := λ _, Err e.
Definition panic {S A} : GoM S A := λ _, Panic.

(** [for _, x := range l { f x }] *)
Fixpoint range_do {S A} (f : A → GoM S unit) (l : list A) : GoM S unit :=
  match l with
  | [] => mret tt
  | x :: l' => _ ← f x; range_do f l'
  end.

(** [for i := 0; i < n; i++ { res = append(res, f()) }] *)
Fixpoint repeat_read {S A} (n : nat) (f : GoM S A) : GoM S (list A) :=
  match n with
  | O => mret []
  | Datatypes.S n' => x ← f; l ← repeat_read n' f; mret (x :: l)
  end.

(** [for _, x := range l { if err := f(x); err != nil { return err } }] *)
Fixpoint check_all {A} (f : A → res unit) (l : list A) : res unit :=
  match l with
  | [] => Ok tt
  | x :: l' => match f x with Ok _ => check_all f l' | Err e => Err e | Panic => Panic end
  end.

Lemma check_all_Ok {A} (f : A → res unit) l :
  check_all f l = Ok tt ↔ Forall (λ x, f x = Ok tt) l.
Proof.
  induction l as [|x l IH]; cbn; [done|]. rewrite Forall_cons.
  destruct (f x) as [[]| |]; naive_solver.
Qed.

Lemma check_all_no_panic {A} (f : A → res unit) l : (∀ x, f x ≠ Panic) → check_all f l ≠ Panic.
Proof.
  intros Hf. induction l as [|x l IH]; cbn; [done|]. specialize (Hf x). by destruct (f x).
Qed.

(** [if err := m; err != nil { return err }; k] *)
Lemma res_bind_Ok {A B} (m : res A) (f : A → res B) b :
  (x ← m; f x) = Ok b ↔ ∃ a, m = Ok a ∧ f a = Ok b.
Proof. destruct m; cbn; naive_solver. Qed.

Lemma res_bind_no_panic {A B} (m : res A) (f : A → res B) :
  m ≠ Panic → (∀ a, m = Ok a → f a ≠ Panic) → (x ← m; f x) ≠ Panic.
Proof. destruct m; cbn; naive_solver. Qed.

(** The value of a result, or a default: to name the outcome of a concrete run. *)
Definition ok_or {A} (d : A) (m : res A) : A := match m with Ok a => a | _ => d end.
Definition is_Ok {A} (m : res A) : bool := match m with Ok _ => true | _ => false end.

Lemma ok_or_eq {A} (d : A) (m : res A) : is_Ok m = true → m = Ok (ok_or d m).
Proof. by destruct m. Qed.

Lemma res_seq_Ok {B} (m : res unit) (k : res B) b :
  (_ ← m; k) = Ok b ↔ m = Ok tt ∧ k = Ok b.
Proof. destruct m as [[]| |]; cbn; naive_solver. Qed.

(** [if c { return err }; k] *)
Lemma guard_Ok {A} (c : bool) e (k : res A) a :
  (if c then Err e else k) = Ok a ↔ c = false ∧ k = Ok a.
Proof. destruct c; naive_solver. Qed.

Lemma guard_no_panic {A} (c : bool) e (k : res A) :
  (c = false → k ≠ Panic) → (if c then Err e else k) ≠ Panic.
Proof. destruct c; naive_solver. Qed.

Section monad_laws.
Context {S A B C : Type}.

Lemma GoM_left_id (a : A) (f : A → GoM S B) s : (x ← mret a; f x) s = f a s.
Proof. done. Qed.

Lemma GoM_assoc (m : GoM S A) (f : A → GoM S B) (g : B → GoM S C) s :
  (y ← (x ← m; f x); g y) s = (x ← m; y ← f x; g y) s.
Proof. cbv [mbind GoM_bind]. by destruct (m s) as [[]| |]. Qed.

Lemma GoM_bind_Ok (m : GoM S A) (f : A → GoM S B) s a s' :
  m s = Ok (a, s') → (x ← m; f x) s = f a s'.
Proof. cbv [mbind GoM_bind]. by intros ->. Qed.

Lemma GoM_bind_inv (m : GoM S A) (f : A → GoM S B) s b s' :
  (x ← m; f x) s = Ok (b, s') → ∃ a s1, m s = Ok (a, s1) ∧ f a s1 = Ok (b, s').
Proof. cbv [mbind GoM_bind]. destruct (m s) as [[]| |]; naive_solver. Qed.

Lemma Eff_bind_step (m : Eff S A) (f : A → Eff S B) s a s' :
  m s = (Ok a, s') → (x ← m; f x) s = f a s'.
Proof. cbv [mbind Eff_bind]. by intros ->. Qed.

Lemma Eff_bind_err (m : Eff S A) (f : A → Eff S B) s e s' :
  m s = (Err e, s') → (x ← m; f x) s = (Err e, s').
Proof. cbv [mbind Eff_bind]. by intros ->. Qed.

Lemma Eff_bind_inv (m : Eff S A) (f : A → Eff S B) s b s' :
  (x ← m; f x) s = (Ok b, s') → ∃ a s1, m s = (Ok a, s1) ∧ f a s1 = (Ok b, s').
Proof. cbv [mbind Eff_bind]. destruct (m s) as [[]]; naive_solver. Qed.
End monad_laws.

Lemma filter_all {A} (P : A → Prop) `{∀ x, Decision (P x)} l : Forall P l → filter P l = l.
Proof.
  induction 1 as [|x l Hx Hl IH]; [done|]. rewrite filter_cons_True by done. by rewrite IH.
Qed.

Lemma filter_none {A} (P : A → Prop) `{∀ x, Decision (P x)} l : Forall (λ x, ¬ P x) l → filter P l = [].
Proof. induction 1 as [|x l Hx Hl IH]; [done|]. by rewrite filter_cons_False. Qed.

(** ** Automation *)

Create HintDb go discriminated.

(** Unfold the machine-integer vocabulary and decide by arithmetic. *)
Ltac unfold_go :=
  unfold bytes_ok, is_u8, is_u16, is_u32, is_u64, is_i64, u8, u16, u32, u64, i64, len in *.
Ltac go_lia := unfold_go; Z.div_mod_to_equations; lia.

Ltac invert_bind H :=
  let a := fresh "a" in let s := fresh "s" in let Hm := fresh "Hm" in
  apply GoM_bind_inv in H as (a & s & Hm & H).

Ltac invert_eff H :=
  let a := fresh "a" in let s := fresh "s" in let Hm := fresh "Hm" in
  apply Eff_bind_inv in H as (a & s & Hm & H).

(** Boolean comparisons of the code as propositions. *)
Ltac go_bool :=
  repeat match goal with
  | H : (_ && _) = true |- _ => apply andb_true_iff in H as [? ?]
  | H : (_ || _) = false |- _ => apply orb_false_iff in H as [? ?]
  | H : negb _ = true |- _ => apply negb_true_iff in H
  | H : negb _ = false |- _ => apply negb_false_iff in H
  | H : bool_decide _ = true |- _ => apply bool_decide_eq_true in H
  | H : bool_decide _ = false |- _ => apply bool_decide_eq_false in H
  | H : (_ =? _) = true |- _ => apply Z.eqb_eq in H
  | H : (_ =? _) = false |- _ => apply Z.eqb_neq in H
  | H : (_ <? _) = true |- _ => apply Z.ltb_lt in H
  | H : (_ <? _) = false |- _ => apply Z.ltb_ge in H
  | H : (_ <=? _) = true |- _ => apply Z.leb_le in H
  | H : (_ <=? _) = false |- _ => apply Z.leb_gt in H
  end.

(** ** Machine-integer lemmas *)

Lemma u8_id z : is_u8 z → u8 z = z.
Proof. intros. by apply Z.mod_small. Qed.
Lemma u32_id z : is_u32 z → u32 z = z.
Proof. intros. by apply Z.mod_small. Qed.
Lemma u64_id z : is_u64 z → u64 z = z.
Proof. intros. by apply Z.mod_small. Qed.
Lemma i64_id z : is_i64 z → i64 z = z.
Proof. unfold i64, is_i64. intros. rewrite Z.mod_small; lia. Qed.
Lemma u8_range z : is_u8 (u8 z).
Proof. by apply Z.mod_pos_bound. Qed.
Lemma u32_range z : is_u32 (u32 z).
Proof. by apply Z.mod_pos_bound. Qed.
Lemma u64_add_l a b : u64 (u64 a + b) = u64 (a + b).
Proof. unfold u64. apply Zplus_mod_idemp_l. Qed.

Lemma u64_range z : is_u64 (u64 z).
Proof. by apply Z.mod_pos_bound. Qed.
Lemma i64_range z : is_i64 (i64 z).
Proof. unfold i64, is_i64. pose proof (Z.mod_pos_bound (z + 2^63) (2^64) eq_refl). lia. Qed.

(** Two's complement: converting to [int64] and back loses nothing. *)
Lemma u64_i64 z : u64 (i64 z) = u64 z.
Proof.
  unfold u64, i64.
  rewrite Zminus_mod_idemp_l. f_equal. lia.
Qed.
Lemma i64_u64 z : i64 (u64 z) = i64 z.
Proof. unfold i64, u64. by rewrite Zplus_mod_idemp_l. Qed.

#[export] Hint Resolve u8_range u32_range u64_range i64_range : go.

Lemma len_nonneg {A} (l : list A) : 0 <= len l.
Proof. unfold len. lia. Qed.
#[global] Instance len_Permutation {A} : Proper ((≡ₚ) ==> (=)) (@len A).
Proof. intros l k Hp. unfold len. by rewrite Hp. Qed.

Lemma len_app {A} (l k : list A) : len (l ++ k) = len l + len k.
Proof. unfold len. rewrite length_app. lia. Qed.

Lemma len_fmap {A B} (f : A → B) (l : list A) : len (f <$> l) = len l.
Proof. unfold len. by rewrite length_fmap. Qed.

(** ** Little-endian bit lists *)

Definition bits_of_Z (k : nat) (v : Z) : list bool :=
  (λ i, Z.testbit v (Z.of_nat i)) <$> seq 0 k.

Fixpoint Z_of_bits (l : list bool) : Z :=
  match l with
  | [] => 0
  | b :: l' => Z.b2z b + 2 * Z_of_bits l'
  end.

Definition bytes_bits (l : list Z) : list bool := l ≫= bits_of_Z 8.

Lemma length_bits_of_Z k v : length (bits_of_Z k v) = k.
Proof. unfold bits_of_Z. by rewrite length_fmap, length_seq. Qed.

Lemma lookup_bits_of_Z k v i :
  (i < k)%nat → bits_of_Z k v !! i = Some (Z.testbit v (Z.of_nat i)).
Proof.
  intros. unfold bits_of_Z. rewrite list_lookup_fmap, lookup_seq_lt by done. done.
Qed.

Lemma bits_of_Z_ext k v v' :
  (∀ i, (i < k)%nat → Z.testbit v (Z.of_nat i) = Z.testbit v' (Z.of_nat i)) →
  bits_of_Z k v = bits_of_Z k v'.
Proof.
  intros Hi. apply list_eq_same_length with k; rewrite ?length_bits_of_Z; [done..|].
  intros i x y Hlt. rewrite !lookup_bits_of_Z by done. rewrite Hi by done. congruence.
Qed.

Lemma bits_of_Z_app a b v :
  bits_of_Z (a + b) v = bits_of_Z a v ++ bits_of_Z b (Z.shiftr v (Z.of_nat a)).
Proof.
  unfold bits_of_Z. rewrite seq_app, fmap_app. f_equal. simpl.
  replace (seq a b) with (Nat.add a <$> seq 0 b) by (rewrite fmap_add_seq; f_equal; lia).
  rewrite <- list_fmap_compose. apply list_fmap_ext.
  intros _ i _. simpl. rewrite Z.shiftr_spec by lia. f_equal. lia.
Qed.

Lemma bits_of_Z_S k v : bits_of_Z (S k) v = Z.odd v :: bits_of_Z k (Z.div2 v).
Proof.
  change (S k) with (1 + k)%nat. rewrite (bits_of_Z_app 1 k v).
  change (bits_of_Z 1 v) with [Z.testbit v 0]. change (Z.of_nat 1) with 1.
  by rewrite Z.bit0_odd, <- Z.div2_spec.
Qed.

Lemma bits_of_Z_0 k : bits_of_Z k 0 = replicate k false.
Proof.
  induction k as [|k IH]; [done|]. rewrite bits_of_Z_S. simpl. by rewrite IH.
Qed.

Lemma Z_of_bits_of_Z k v : Z_of_bits (bits_of_Z k v) = v mod 2 ^ Z.of_nat k.
Proof.
  revert v. induction k as [|k IH]; intros v; [by rewrite Z.mod_1_r|].
  rewrite bits_of_Z_S. cbn [Z_of_bits]. rewrite IH, Nat2Z.inj_succ, Z.pow_succ_r by lia.
  rewrite Z.div2_div. rewrite Z.rem_mul_r by (try lia; apply Z.pow_nonzero; lia).
  rewrite Zmod_odd. by destruct (Z.odd v).
Qed.

Lemma Z_of_bits_id k v : 0 <= v < 2 ^ Z.of_nat k → Z_of_bits (bits_of_Z k v) = v.
Proof. intros. rewrite Z_of_bits_of_Z. by apply Z.mod_small. Qed.

Lemma Z_of_bits_range l : 0 <= Z_of_bits l < 2 ^ Z.of_nat (length l).
Proof.
  induction l as [|b l IH]; cbn [Z_of_bits length]; [lia|].
  rewrite Nat2Z.inj_succ, Z.pow_succ_r by lia. destruct b; simpl; lia.
Qed.

Lemma bits_of_Z_of_bits l : bits_of_Z (length l) (Z_of_bits l) = l.
Proof.
  induction l as [|b l IH]; [done|]. cbn [length Z_of_bits]. rewrite bits_of_Z_S.
  f_equal.
  - rewrite Z.odd_add_mul_2. by destruct b.
  - replace (Z.div2 _) with (Z_of_bits l); [done|].
    rewrite Z.div2_div. destruct b; simpl Z.b2z; go_lia.
Qed.

Lemma Z_of_bits_app l k :
  Z_of_bits (l ++ k) = Z_of_bits l + 2 ^ Z.of_nat (length l) * Z_of_bits k.
Proof.
  induction l as [|b l IH]; cbn [Z_of_bits app length]; [lia|].
  rewrite IH, Nat2Z.inj_succ, Z.pow_succ_r by lia. lia.
Qed.

Lemma Z_of_bits_0 l : Z_of_bits l = 0 ↔ l = replicate (length l) false.
Proof.
  split; intros H.
  - rewrite <- (bits_of_Z_of_bits l) at 1. rewrite H. by rewrite bits_of_Z_0.
  - rewrite H, <- bits_of_Z_0, Z_of_bits_of_Z. apply Z.mod_0_l, Z.pow_nonzero; lia.
Qed.

Lemma bytes_bits_app l k : bytes_bits (l ++ k) = bytes_bits l ++ bytes_bits k.
Proof. unfold bytes_bits. by rewrite bind_app. Qed.

Lemma length_bytes_bits l : length (bytes_bits l) = (8 * length l)%nat.
Proof.
  induction l as [|b l IH]; [done|]. unfold bytes_bits in *. cbn [mbind list_bind length].
  rewrite length_app, length_bits_of_Z. lia.
Qed.

Lemma bytes_bits_single b : bytes_bits [b] = bits_of_Z 8 b.
Proof. unfold bytes_bits. simpl. by rewrite ?app_nil_r. Qed.

Lemma drop_bytes_bits l n : drop (8 * n) (bytes_bits l) = bytes_bits (drop n l).
Proof.
  revert n. induction l as [|b l IH]; intros [|n]; [done..|].
  change (b :: l) with ([b] ++ l). rewrite bytes_bits_app, bytes_bits_single.
  rewrite drop_app_ge by (rewrite length_bits_of_Z; lia).
  rewrite length_bits_of_Z. replace (8 * S n - 8)%nat with (8 * n)%nat by lia.
  by rewrite IH.
Qed.

(** The bits of a byte into which a value was OR-ed above its low part. *)
Lemma bits_of_lor_shiftl a b lo v :
  0 <= lo < 2 ^ Z.of_nat a →
  bits_of_Z (a + b) (Z.lor lo (Z.shiftl v (Z.of_nat a))) = bits_of_Z a lo ++ bits_of_Z b v.
Proof.
  intros Hlo. rewrite bits_of_Z_app. f_equal.
  - apply bits_of_Z_ext. intros i Hi.
    rewrite Z.lor_spec, Z.shiftl_spec_low by lia. by rewrite orb_false_r.
  - apply bits_of_Z_ext. intros i Hi.
    rewrite Z.shiftr_spec, Z.lor_spec, Z.shiftl_spec by lia.
    rewrite <- (Z.mod_small lo (2 ^ Z.of_nat a)) by done.
    rewrite Z.mod_pow2_bits_high by lia. simpl. f_equal. lia.
Qed.

(** Bits above the bound of a number are zero. *)
Lemma bits_of_Z_pad a b v :
  0 <= v < 2 ^ Z.of_nat a → bits_of_Z (a + b) v = bits_of_Z a v ++ replicate b false.
Proof.
  intros Hv. rewrite bits_of_Z_app, Z.shiftr_div_pow2, Z.div_small by lia.
  by rewrite bits_of_Z_0.
Qed.

Lemma lor_shiftl_add lo v k :
  0 <= k → 0 <= lo < 2 ^ k → Z.lor lo (Z.shiftl v k) = lo + v * 2 ^ k.
Proof.
  intros Hk Hlo. rewrite Z.shiftl_mul_pow2 by done. symmetry.
  apply Z.add_nocarry_lor. apply Z.bits_inj'. intros i Hi.
  rewrite Z.land_spec, Z.bits_0, <- Z.shiftl_mul_pow2 by done.
  destruct (decide (i < k)).
  - rewrite Z.shiftl_spec_low by done. by rewrite andb_false_r.
  - rewrite <- (Z.mod_small lo (2 ^ k)) by done.
    by rewrite Z.mod_pow2_bits_high by lia.
Qed.

Lemma pow2_pos n : 0 <= n → 0 < 2 ^ n.
Proof. intros. by apply Z.pow_pos_nonneg. Qed.
#[export] Hint Resolve pow2_pos len_nonneg : go.

(** ** Slices and pointers *)

(** An index of an array or a slice: out of range is a panic. *)
Definition index {A} (l : list A) (i : Z) : res A :=
  if i <? 0 then Panic else match l !! Z.to_nat i with Some x => Ok x | None => Panic end.

(** A method call on a nil interface is a panic. *)
Definition deref {A} (o : option A) : res A := match o with Some x => Ok x | None => Panic end.

Lemma index_Ok {A} (l : list A) i : 0 <= i < len l → ∃ x, index l i = Ok x ∧ l !! Z.to_nat i = Some x.
Proof.
  intros Hi. unfold index. rewrite (proj2 (Z.ltb_ge _ _)) by lia.
  destruct (lookup_lt_is_Some_2 l (Z.to_nat i)) as [x Hx]; [unfold len in *; lia|].
  rewrite Hx. by exists x.
Qed.

Lemma index_no_panic {A} (l : list A) i : 0 <= i < len l → index l i ≠ Panic.
Proof. intros Hi. by destruct (index_Ok l i Hi) as (x & -> & _). Qed.

Lemma index_lookup {A} (l : list A) (i : nat) x : l !! i = Some x → index l (Z.of_nat i) = Ok x.
Proof.
  intros E. destruct (index_Ok l (Z.of_nat i)) as (y & -> & Ey).
  - apply lookup_lt_Some in E. unfold len. lia.
  - rewrite Nat2Z.id in Ey. congruence.
Qed.

Lemma index_0 {A} (l : list A) x : l !! 0%nat = Some x → index l 0 = Ok x.
Proof. by destruct l; intros [= ->]. Qed.

Lemma index_app_mid {A} (l : list A) x k : index (l ++ x :: k) (len l) = Ok x.
Proof.
  unfold index, len. rewrite (proj2 (Z.ltb_ge _ 0)) by lia. by rewrite Nat2Z.id, list_lookup_middle.
Qed.
