(* ===== verification/Bits.v ===== *)
(** * Bit arrays (utils/bits/bits.go)

    [Writer] packs numbers of a few bits each into a byte array, least
    significant bit first; [Reader] reads them back.  The abstraction of both is
    a list of bits: [wbits] is what was written, [rbits] is what is left to read.
    The two main lemmas, [Write_spec] and [Read_spec], say that the shifting and
    masking over bytes is append and split on those lists. *)

From S2P Require Import Prelude.

(** ** Data *)

Record Array := mkArray { Bytes : list Z }.

Record Writer := mkWriter { WArray : Array; wBitOffset : Z }.

Record Reader := mkReader { RArray : Array; byteOffset : Z; rBitOffset : Z }.

Definition NewWriter (arr : Array) : Writer := mkWriter arr 0.

Definition NewReader (arr : Array) : Reader := mkReader arr 0 0.

(** ** Writing *)

Definition Writer_byteBitsFree (a : Writer) : Z := 8 - wBitOffset a.

(** [a.Bytes[len(a.Bytes)-1] |= byte(v << a.bitOffset)] *)
Definition writeIntoLastByte (v : Z) : GoM Writer unit := λ a,
  match reverse (Bytes (WArray a)) with
  | [] => Panic
  | b :: front =>
      Ok (tt, mkWriter
        (mkArray (reverse front ++ [Z.lor b (u8 (u64 (Z.shiftl v (wBitOffset a))))]))
        (wBitOffset a))
  end.

Definition zeroTopByteBits (v bits : Z) : Z :=
  let mask := Z.shiftr 255 bits in
  Z.land v mask.

Definition setBitOffset (o : Z) : GoM Writer unit := λ a,
  Ok (tt, mkWriter (WArray a) o).

(** [Write] calls itself on the bits that do not fit the last byte; the fuel
    bounds the depth of those calls ([Write_spec]: [S bits] is enough). *)
Fixpoint Write_rec (fuel : nat) (bits v : Z) : GoM Writer unit := λ a,
  match fuel with
  | O => Panic
  | S fuel' =>
      let a := if wBitOffset a =? 0
               then mkWriter (mkArray (Bytes (WArray a) ++ [0])) (wBitOffset a)
               else a in
      let free := Writer_byteBitsFree a in
      if bits <=? free then
        let toWrite := bits in
        (_ ← writeIntoLastByte v;
         if toWrite =? free then setBitOffset 0
         else setBitOffset (wBitOffset a + toWrite)) a
      else
        let toWrite := free in
        let clear := wBitOffset a in
        (_ ← writeIntoLastByte (zeroTopByteBits v clear);
         _ ← setBitOffset 0;
         Write_rec fuel' (bits - toWrite) (Z.shiftr v toWrite)) a
  end.

Definition Write (bits v : Z) : GoM Writer unit := Write_rec (S (Z.to_nat bits)) bits v.

(** ** Reading *)

Definition Reader_byteBitsFree (a : Reader) : Z := 8 - rBitOffset a.

(** [a.Bytes[a.byteOffset]] *)
Definition Reader_byte (a : Reader) : option Z :=
  if 0 <=? byteOffset a then Bytes (RArray a) !! Z.to_nat (byteOffset a) else None.

Fixpoint Read_rec (fuel : nat) (bits : Z) : GoM Reader Z := λ a,
  match fuel with
  | O => Panic
  | S fuel' =>
      if bits =? 0 then Ok (0, a) else
      let free := Reader_byteBitsFree a in
      match Reader_byte a with
      | None => Panic
      | Some b =>
          if bits <=? free then
            let toRead := bits in
            let clear := 8 - (rBitOffset a + toRead) in
            let v := Z.shiftr (zeroTopByteBits b clear) (rBitOffset a) in
            if toRead =? free
            then Ok (v, mkReader (RArray a) (byteOffset a + 1) 0)
            else Ok (v, mkReader (RArray a) (byteOffset a) (rBitOffset a + toRead))
          else
            let toRead := free in
            let v := Z.shiftr b (rBitOffset a) in
            let a := mkReader (RArray a) (byteOffset a + 1) 0 in
            (rest ← Read_rec fuel' (bits - toRead);
             mret (Z.lor v (u64 (Z.shiftl rest toRead)))) a
      end
  end.

Definition Read (bits : Z) : GoM Reader Z := Read_rec (S (Z.to_nat bits)) bits.

(** [View] reads from a copy of the reader. *)
Definition View (bits : Z) : GoM Reader Z := λ a,
  match Read bits a with
  | Ok (v, _) => Ok (v, a)
  | Err e => Err e
  | Panic => Panic
  end.

Definition NonReadBytes (a : Reader) : Z := len (Bytes (RArray a)) - byteOffset a.

Definition NonReadBits (a : Reader) : Z := NonReadBytes a * 8 - rBitOffset a.

(** ** Abstraction and invariants *)

Definition wlen (a : Writer) : nat :=
  if wBitOffset a =? 0 then 8 * length (Bytes (WArray a))
  else 8 * (length (Bytes (WArray a)) - 1) + Z.to_nat (wBitOffset a).

Definition wbits (a : Writer) : list bool := take (wlen a) (bytes_bits (Bytes (WArray a))).

(** The writer's invariant: the bytes are bytes, and the bits of the last byte
    that have not been written yet are zero. *)
Definition Writer_ok (a : Writer) : Prop :=
  0 <= wBitOffset a < 8 ∧ bytes_ok (Bytes (WArray a)) ∧
  (wBitOffset a ≠ 0 →
     ∃ front b, Bytes (WArray a) = front ++ [b] ∧ 0 <= b < 2 ^ wBitOffset a).

Definition rbits (a : Reader) : list bool :=
  drop (8 * Z.to_nat (byteOffset a) + Z.to_nat (rBitOffset a)) (bytes_bits (Bytes (RArray a))).

Definition Reader_ok (a : Reader) : Prop :=
  0 <= rBitOffset a < 8 ∧ bytes_ok (Bytes (RArray a)) ∧
  0 <= byteOffset a <= len (Bytes (RArray a)) ∧
  (byteOffset a = len (Bytes (RArray a)) → rBitOffset a = 0).

(** ** Lemmas *)

Lemma writeIntoLastByte_app front b o v :
  writeIntoLastByte v (mkWriter (mkArray (front ++ [b])) o) =
  Ok (tt, mkWriter (mkArray (front ++ [Z.lor b (u8 (u64 (Z.shiftl v o)))])) o).
Proof.
  unfold writeIntoLastByte. simpl. rewrite reverse_app. simpl. by rewrite reverse_involutive.
Qed.

Lemma u8_u64 z : u8 (u64 z) = u8 z.
Proof.
  unfold u8, u64. rewrite <- !Z.land_ones by lia.
  rewrite <- Z.land_assoc. f_equal.
Qed.

(** OR-ing a value of [n] bits into a byte with [o] bits used. *)
Lemma merged_byte o n b v :
  0 <= o → 0 <= n → o + n <= 8 → 0 <= b < 2 ^ o → 0 <= v < 2 ^ n →
  let b' := Z.lor b (u8 (u64 (Z.shiftl v o))) in
  0 <= b' < 2 ^ (o + n) ∧
  bits_of_Z (Z.to_nat (o + n)) b' = bits_of_Z (Z.to_nat o) b ++ bits_of_Z (Z.to_nat n) v.
Proof.
  intros Ho Hn Hon Hb Hv b'. subst b'.
  assert (Hs : u8 (u64 (Z.shiftl v o)) = Z.shiftl v o).
  { rewrite u8_u64. apply u8_id. rewrite Z.shiftl_mul_pow2 by done. split; [nia|].
    apply Z.lt_le_trans with (2 ^ n * 2 ^ o); [apply Z.mul_lt_mono_pos_r; [by apply pow2_pos|lia]|].
    rewrite <- Z.pow_add_r by lia. apply Z.pow_le_mono_r; lia. }
  rewrite Hs. split.
  - rewrite lor_shiftl_add by lia. rewrite Z.pow_add_r by lia. nia.
  - rewrite Z2Nat.inj_add by lia. rewrite <- (bits_of_lor_shiftl _ _ b v) by (rewrite Z2Nat.id; lia).
    by rewrite Z2Nat.id by lia.
Qed.

Lemma wbits_full bs : wbits (mkWriter (mkArray bs) 0) = bytes_bits bs.
Proof. unfold wbits, wlen. simpl. apply take_ge. rewrite length_bytes_bits. lia. Qed.

Lemma wbits_partial front b o :
  0 < o < 8 →
  wbits (mkWriter (mkArray (front ++ [b])) o) = bytes_bits front ++ bits_of_Z (Z.to_nat o) b.
Proof.
  intros Ho. unfold wbits, wlen. cbn [wBitOffset WArray Bytes].
  destruct (Z.eqb_spec o 0); [lia|].
  rewrite length_app. simpl. replace (length front + 1 - 1)%nat with (length front) by lia.
  rewrite bytes_bits_app, bytes_bits_single.
  rewrite take_app_ge by (rewrite length_bytes_bits; lia). rewrite length_bytes_bits.
  f_equal. replace (8 * length front + Z.to_nat o - 8 * length front)%nat
    with (Z.to_nat o) by lia.
  replace 8%nat with (Z.to_nat o + (8 - Z.to_nat o))%nat by lia.
  rewrite bits_of_Z_app, take_app_le by (rewrite length_bits_of_Z; lia).
  by rewrite take_ge by (rewrite length_bits_of_Z; lia).
Qed.

(** A writer state seen as its complete bytes and its partial last byte. *)
Lemma Writer_ok_split a :
  Writer_ok a →
  let a' := if wBitOffset a =? 0
            then mkWriter (mkArray (Bytes (WArray a) ++ [0])) (wBitOffset a) else a in
  ∃ front b, a' = mkWriter (mkArray (front ++ [b])) (wBitOffset a) ∧
    bytes_ok front ∧ 0 <= b < 2 ^ wBitOffset a ∧
    wbits a = bytes_bits front ++ bits_of_Z (Z.to_nat (wBitOffset a)) b.
Proof.
  destruct a as [[bs] o]. intros (Ho & Hbs & Hlast). cbn [wBitOffset WArray Bytes] in *.
  destruct (Z.eqb_spec o 0) as [->|Hne].
  - exists bs, 0. split_and!; [done..|].
    rewrite wbits_full. unfold bits_of_Z. simpl. by rewrite app_nil_r.
  - destruct (Hlast Hne) as (front & b & -> & Hb). exists front, b.
    apply Forall_app in Hbs as [Hf _]. split_and!; [done..|lia|lia|].
    apply wbits_partial. lia.
Qed.

Lemma zeroTopByteBits_mod v c :
  0 <= c <= 8 → zeroTopByteBits v c = v mod 2 ^ (8 - c).
Proof.
  intros Hc. unfold zeroTopByteBits. change 255 with (Z.ones 8).
  rewrite Z.shiftr_div_pow2, Z.ones_div_pow2 by lia. apply Z.land_ones. lia.
Qed.

Lemma bytes_ok_snoc front b o :
  bytes_ok front → o <= 8 → 0 <= b < 2 ^ o → bytes_ok (front ++ [b]).
Proof.
  intros Hf Ho Hb. apply Forall_app. split; [done|]. repeat constructor; [lia|].
  eapply Z.lt_le_trans; [apply Hb|]. apply Z.pow_le_mono_r; lia.
Qed.

Lemma bits_of_Z_mod k n v :
  (k <= n)%nat → bits_of_Z k (v mod 2 ^ Z.of_nat n) = bits_of_Z k v.
Proof. intros. apply bits_of_Z_ext. intros i Hi. apply Z.mod_pow2_bits_low. lia. Qed.

Lemma bits_of_Z_split m n v :
  0 <= m <= n →
  bits_of_Z (Z.to_nat m) (v mod 2 ^ m) ++ bits_of_Z (Z.to_nat (n - m)) (Z.shiftr v m) =
  bits_of_Z (Z.to_nat n) v.
Proof.
  intros. replace n with (m + (n - m)) at 2 by lia.
  rewrite Z2Nat.inj_add, bits_of_Z_app by lia. rewrite Z2Nat.id by lia. f_equal.
  rewrite <- (Z2Nat.id m) at 2 by lia. by apply bits_of_Z_mod.
Qed.

Lemma Write_rec_spec fuel bits v a :
  Writer_ok a → 0 < bits → (Z.to_nat bits < fuel)%nat → 0 <= v < 2 ^ bits →
  ∃ a', Write_rec fuel bits v a = Ok (tt, a') ∧ Writer_ok a' ∧
        wbits a' = wbits a ++ bits_of_Z (Z.to_nat bits) v.
Proof.
  revert bits v a. induction fuel as [|fuel IH]; intros bits v a Hok Hbits Hfuel Hv; [lia|].
  destruct (Writer_ok_split a Hok) as (front & b & Ha & Hf & Hb & Hw).
  destruct Hok as (Ho & _ & _). cbn [Write_rec].
  rewrite Ha. unfold Writer_byteBitsFree. cbn [wBitOffset].
  set (o := wBitOffset a) in *. clearbody o.
  destruct (Z.leb_spec bits (8 - o)) as [Hle|Hgt].
  - rewrite (GoM_bind_Ok _ _ _ _ _ (writeIntoLastByte_app _ _ _ _)).
    destruct (merged_byte o bits b v) as [Hr Hm]; [lia..|].
    set (b' := Z.lor _ _) in *.
    destruct (Z.eqb_spec bits (8 - o)) as [He|Hne]; unfold setBitOffset; cbn [WArray].
    + eexists. split; [done|]. replace (o + bits) with 8 in * by lia. split.
      * split_and!; cbn; [lia..| |lia]. by apply (bytes_ok_snoc _ _ 8).
      * rewrite wbits_full, Hw, bytes_bits_app, bytes_bits_single, <- app_assoc. f_equal.
        exact Hm.
    + eexists. split; [done|]. split.
      * split_and!; cbn; [lia..| |]; [apply (bytes_ok_snoc _ _ (o + bits)); [done|lia|done]|]. eauto.
      * rewrite wbits_partial, Hw, <- app_assoc by lia. f_equal. exact Hm.
  - rewrite (GoM_bind_Ok _ _ _ _ _ (writeIntoLastByte_app _ _ _ _)).
    rewrite zeroTopByteBits_mod by lia.
    destruct (merged_byte o (8 - o) b (v mod 2 ^ (8 - o))) as [Hr Hm]; [lia..| |].
    { apply Z.mod_pos_bound, pow2_pos. lia. }
    set (b' := Z.lor _ _) in *. replace (o + (8 - o)) with 8 in * by lia.
    unfold setBitOffset. rewrite GoM_bind_Ok with (a := tt)
      (s' := mkWriter (mkArray (front ++ [b'])) 0) by done.
    destruct (IH (bits - (8 - o)) (Z.shiftr v (8 - o)) (mkWriter (mkArray (front ++ [b'])) 0))
      as (a' & Hrun & Hok' & Hbits'); [|lia..| |].
    { split_and!; cbn; [lia..| |lia]. by apply (bytes_ok_snoc _ _ 8). }
    { rewrite Z.shiftr_div_pow2 by lia. split; [apply Z.div_pos; [lia|apply pow2_pos; lia]|].
      apply Z.div_lt_upper_bound; [apply pow2_pos; lia|]. rewrite <- Z.pow_add_r by lia.
      replace (8 - o + (bits - (8 - o))) with bits by lia. lia. }
    exists a'. split_and!; [done..|]. rewrite Hbits', wbits_full, Hw.
    rewrite bytes_bits_app, bytes_bits_single, <- !app_assoc. f_equal.
    change 8%nat with (Z.to_nat 8) at 1. rewrite Hm, <- app_assoc. f_equal.
    apply bits_of_Z_split. lia.
Qed.

(** Writing [v] in [bits] bits appends exactly those bits. *)
Lemma Write_spec bits v a :
  Writer_ok a → 0 < bits → 0 <= v < 2 ^ bits →
  ∃ a', Write bits v a = Ok (tt, a') ∧ Writer_ok a' ∧
        wbits a' = wbits a ++ bits_of_Z (Z.to_nat bits) v.
Proof. intros. apply Write_rec_spec; [done..|lia|done]. Qed.

(** ** Reading: the abstraction splits *)

Lemma rbits_byte a b :
  Reader_ok a → Reader_byte a = Some b →
  is_u8 b ∧
  rbits a = drop (Z.to_nat (rBitOffset a)) (bits_of_Z 8 b) ++
            bytes_bits (drop (S (Z.to_nat (byteOffset a))) (Bytes (RArray a))).
Proof.
  intros (Hb & Hbs & Ho & _) Hbyte. unfold Reader_byte in Hbyte.
  rewrite (proj2 (Z.leb_le _ _) (proj1 Ho)) in Hbyte. split.
  - by eapply Forall_lookup_1 in Hbyte.
  - unfold rbits. rewrite <- drop_drop, drop_bytes_bits.
    rewrite (drop_S _ _ _ Hbyte). change (b :: ?l) with ([b] ++ l).
    rewrite bytes_bits_app, bytes_bits_single, drop_app_le by (rewrite length_bits_of_Z; lia).
    done.
Qed.

Lemma rbits_end a : Reader_ok a → Reader_byte a = None → rbits a = [].
Proof.
  intros (Hb & _ & Ho & Hend) Hbyte. unfold Reader_byte in Hbyte.
  rewrite (proj2 (Z.leb_le _ _) (proj1 Ho)) in Hbyte. apply lookup_ge_None in Hbyte.
  unfold rbits. apply drop_ge. rewrite length_bytes_bits. lia.
Qed.

Lemma drop_bits_of_Z o b :
  (o <= 8)%nat → drop o (bits_of_Z 8 b) = bits_of_Z (8 - o) (Z.shiftr b (Z.of_nat o)).
Proof.
  intros. replace 8%nat with (o + (8 - o))%nat at 1 by lia. rewrite bits_of_Z_app.
  by rewrite drop_app_length' by (by rewrite length_bits_of_Z).
Qed.

Lemma take_bits_of_Z n m v : (n <= m)%nat → take n (bits_of_Z m v) = bits_of_Z n v.
Proof.
  intros. replace m with (n + (m - n))%nat by lia. rewrite bits_of_Z_app.
  by rewrite take_app_length' by (by rewrite length_bits_of_Z).
Qed.

(** The value of the [n] bits at offset [o] of a byte, as the code masks it. *)
Lemma masked_byte b o n :
  is_u8 b → 0 <= o → 0 <= n → o + n <= 8 →
  Z.shiftr (zeroTopByteBits b (8 - (o + n))) o =
  Z_of_bits (take (Z.to_nat n) (drop (Z.to_nat o) (bits_of_Z 8 b))).
Proof.
  intros Hb Ho Hn Hon. rewrite zeroTopByteBits_mod by lia.
  rewrite drop_bits_of_Z, take_bits_of_Z, Z_of_bits_of_Z by lia.
  rewrite !Z2Nat.id by lia. replace (8 - (8 - (o + n))) with (o + n) by lia.
  rewrite !Z.shiftr_div_pow2 by lia. rewrite Z.pow_add_r by lia.
  rewrite Z.rem_mul_r by (try apply pow2_pos; try apply Z.pow_nonzero; lia).
  rewrite Z.mul_comm, Z.div_add by (apply Z.pow_nonzero; lia).
  rewrite Z.div_small; [lia|]. apply Z.mod_pos_bound, pow2_pos. lia.
Qed.

(** The value of a read that spans two bytes, as the code joins its parts. *)
Lemma joined_value b o bits tl :
  is_u8 b → 0 <= o < 8 → 8 - o < bits <= 64 →
  (Z.to_nat (bits - (8 - o)) <= length tl)%nat →
  Z.lor (Z.shiftr b o)
    (u64 (Z.shiftl (Z_of_bits (take (Z.to_nat (bits - (8 - o))) tl)) (8 - o))) =
  Z_of_bits (take (Z.to_nat bits) (drop (Z.to_nat o) (bits_of_Z 8 b) ++ tl)).
Proof.
  intros Hb Ho Hbits Htl.
  rewrite drop_bits_of_Z, take_app_ge by (rewrite ?length_bits_of_Z; lia).
  rewrite Z_of_bits_app, length_bits_of_Z, Z2Nat.id by lia.
  replace (Z.to_nat bits - (8 - Z.to_nat o))%nat with (Z.to_nat (bits - (8 - o))) by lia.
  replace (Z.of_nat (8 - Z.to_nat o)) with (8 - o) by lia.
  pose proof (Z_of_bits_range (take (Z.to_nat (bits - (8 - o))) tl)) as Hr.
  rewrite length_take, Nat.min_l, Z2Nat.id in Hr by lia.
  set (x := Z_of_bits (take _ tl)) in *.
  assert (Hs : 0 <= Z.shiftr b o < 2 ^ (8 - o)).
  { rewrite Z.shiftr_div_pow2 by lia.
    split; [apply Z.div_pos; [apply Hb|apply pow2_pos; lia]|].
    apply Z.div_lt_upper_bound; [apply pow2_pos; lia|]. rewrite <- Z.pow_add_r by lia.
    replace (o + (8 - o)) with 8 by lia. apply Hb. }
  rewrite Z_of_bits_id by (replace (Z.of_nat (8 - Z.to_nat o)) with (8 - o) by lia; done).
  rewrite u64_id.
  - rewrite lor_shiftl_add by lia. lia.
  - rewrite Z.shiftl_mul_pow2 by lia. split; [apply Z.mul_nonneg_nonneg; [lia|apply Z.pow_nonneg; lia]|].
    apply Z.lt_le_trans with (2 ^ (bits - (8 - o)) * 2 ^ (8 - o)).
    + apply Z.mul_lt_mono_pos_r; [apply pow2_pos|]; lia.
    + rewrite <- Z.pow_add_r by lia. apply Z.pow_le_mono_r; lia.
Qed.

Lemma Reader_byte_lt a b :
  Reader_ok a → Reader_byte a = Some b → byteOffset a < len (Bytes (RArray a)).
Proof.
  intros (_ & _ & Ho & _) Hb. unfold Reader_byte in Hb.
  rewrite (proj2 (Z.leb_le _ _) (proj1 Ho)) in Hb. apply lookup_lt_Some in Hb.
  unfold len. lia.
Qed.

Lemma Reader_ok_next a b :
  Reader_ok a → Reader_byte a = Some b → Reader_ok (mkReader (RArray a) (byteOffset a + 1) 0).
Proof.
  intros Hok Hb. pose proof (Reader_byte_lt _ _ Hok Hb). destruct Hok as (? & ? & ? & ?).
  split_and!; cbn; try done; lia.
Qed.

Lemma rbits_step a n b :
  Reader_ok a → Reader_byte a = Some b → 0 <= n → n < 8 - rBitOffset a →
  rbits (mkReader (RArray a) (byteOffset a) (rBitOffset a + n)) = drop (Z.to_nat n) (rbits a).
Proof.
  intros (Ho & _) _ Hn _. unfold rbits. cbn [byteOffset rBitOffset RArray].
  rewrite drop_drop. f_equal. lia.
Qed.

(** Reading [bits] bits returns the value of the next [bits] bits and leaves the
    rest; it panics exactly when fewer bits are left. *)
Lemma Read_rec_spec fuel bits a :
  Reader_ok a → 0 <= bits <= 64 → (Z.to_nat bits < fuel)%nat →
  if decide (Z.to_nat bits <= length (rbits a))%nat then
    ∃ a', Read_rec fuel bits a = Ok (Z_of_bits (take (Z.to_nat bits) (rbits a)), a') ∧
          Reader_ok a' ∧ RArray a' = RArray a ∧ rbits a' = drop (Z.to_nat bits) (rbits a)
  else Read_rec fuel bits a = Panic.
Proof.
  revert bits a. induction fuel as [|fuel IH]; intros bits a Hok Hbits Hfuel; [lia|].
  cbn [Read_rec]. destruct (Z.eqb_spec bits 0) as [->|Hb0].
  { rewrite decide_True by (simpl; lia). by exists a. }
  destruct (Reader_byte a) as [b|] eqn:Hbyte; last first.
  { rewrite (rbits_end a) by done. rewrite decide_False by (simpl; lia). done. }
  destruct (rbits_byte a b Hok Hbyte) as [Hu8 Hrb].
  pose proof (Reader_byte_lt _ _ Hok Hbyte) as Hlt.
  pose proof (Reader_ok_next _ _ Hok Hbyte) as Hnext.
  assert (Hn : rbits (mkReader (RArray a) (byteOffset a + 1) 0) =
               bytes_bits (drop (S (Z.to_nat (byteOffset a))) (Bytes (RArray a)))).
  { unfold rbits. cbn [byteOffset rBitOffset RArray]. destruct Hok as (_ & _ & ? & _).
    rewrite Nat.add_0_r, drop_bytes_bits. by rewrite Z2Nat.inj_add, Nat.add_1_r by lia. }
  pose proof Hok as (Ho & Hbs & Hbo & Hend).
  unfold Reader_byteBitsFree. destruct (Z.leb_spec bits (8 - rBitOffset a)) as [Hle|Hgt].
  - assert (Hlen : (Z.to_nat bits <= length (drop (Z.to_nat (rBitOffset a)) (bits_of_Z 8 b)))%nat).
    { rewrite length_drop, length_bits_of_Z. lia. }
    rewrite decide_True by (rewrite Hrb, length_app; lia).
    rewrite masked_byte by (done || lia).
    destruct (Z.eqb_spec bits (8 - rBitOffset a)) as [He|Hne].
    + eexists. split; [|split; [exact Hnext|split; [done|]]].
      * by rewrite Hrb, take_app_le.
      * rewrite Hn, Hrb. rewrite drop_app_length'; [done|].
        rewrite length_drop, length_bits_of_Z. lia.
    + exists (mkReader (RArray a) (byteOffset a) (rBitOffset a + bits)).
      split; [|split; [|split; [done|]]].
      * by rewrite Hrb, take_app_le.
      * split_and!; cbn; try done; lia.
      * apply (rbits_step a bits b); [done..|lia|lia].
  - specialize (IH (bits - (8 - rBitOffset a)) _ Hnext ltac:(lia) ltac:(lia)).
    rewrite Hn in IH. cbn [RArray] in IH.
    set (o := rBitOffset a) in *. set (tl := bytes_bits _) in *.
    assert (Hlen : length (rbits a) = (Z.to_nat (8 - o) + length tl)%nat).
    { rewrite Hrb, length_app, length_drop, length_bits_of_Z. lia. }
    rewrite Hlen. destruct (decide (Z.to_nat (bits - (8 - o)) <= length tl)%nat) as [Hd|Hd].
    + destruct IH as (a' & Hrun & Hok' & Harr & Hrest). rewrite decide_True by lia.
      exists a'. split_and!; [|done..|].
      * rewrite (GoM_bind_Ok _ _ _ _ _ Hrun). cbv [mret GoM_ret]. do 2 f_equal.
        rewrite Hrb. apply joined_value; (done || lia).
      * rewrite Hrest, Hrb, drop_app_ge by (rewrite length_drop, length_bits_of_Z; lia).
        f_equal. rewrite length_drop, length_bits_of_Z. lia.
    + rewrite decide_False by lia. cbv [mbind GoM_bind]. by rewrite IH.
Qed.

Lemma Read_spec bits a :
  Reader_ok a → 0 <= bits <= 64 → (Z.to_nat bits <= length (rbits a))%nat →
  ∃ a', Read bits a = Ok (Z_of_bits (take (Z.to_nat bits) (rbits a)), a') ∧
        Reader_ok a' ∧ RArray a' = RArray a ∧ rbits a' = drop (Z.to_nat bits) (rbits a).
Proof.
  intros Hok Hb Hl. pose proof (Read_rec_spec (S (Z.to_nat bits)) bits a Hok Hb ltac:(lia)) as H.
  by rewrite decide_True in H.
Qed.

Lemma Read_panics bits a :
  Reader_ok a → 0 <= bits <= 64 → (length (rbits a) < Z.to_nat bits)%nat →
  Read bits a = Panic.
Proof.
  intros Hok Hb Hl. pose proof (Read_rec_spec (S (Z.to_nat bits)) bits a Hok Hb ltac:(lia)) as H.
  by rewrite decide_False in H by lia.
Qed.

Lemma NonReadBits_length a : Reader_ok a → NonReadBits a = Z.of_nat (length (rbits a)).
Proof.
  intros (Ho & _ & Hb & He). unfold NonReadBits, NonReadBytes, rbits.
  rewrite length_drop, length_bytes_bits. unfold len in *. lia.
Qed.

Lemma NewReader_ok bs : bytes_ok bs → Reader_ok (NewReader (mkArray bs)).
Proof. intros. pose proof (len_nonneg bs). split_and!; cbn; try done; lia. Qed.

Lemma rbits_NewReader bs : rbits (NewReader (mkArray bs)) = bytes_bits bs.
Proof. done. Qed.

Lemma NewWriter_ok : Writer_ok (NewWriter (mkArray [])).
Proof. split_and!; cbn; try done; [constructor]. Qed.

(** The bytes of a writer hold its bits, padded with zeros to a whole byte. *)
Lemma Writer_bytes_bits a :
  Writer_ok a →
  ∃ pad, (pad < 8)%nat ∧ bytes_bits (Bytes (WArray a)) = wbits a ++ replicate pad false.
Proof.
  intros Hok. pose proof Hok as (Ho & Hbs & Hlast).
  destruct a as [[bs] o]. cbn [wBitOffset WArray Bytes] in *.
  destruct (decide (o = 0)) as [->|Hne].
  - exists 0%nat. rewrite wbits_full. simpl. split; [lia|]. by rewrite app_nil_r.
  - destruct (Hlast Hne) as (front & b & -> & Hb). exists (8 - Z.to_nat o)%nat. split; [lia|].
    rewrite wbits_partial, bytes_bits_app, bytes_bits_single, <- app_assoc by lia. f_equal.
    replace 8%nat with (Z.to_nat o + (8 - Z.to_nat o))%nat at 1 by lia.
    apply bits_of_Z_pad. rewrite Z2Nat.id; lia.
Qed.
