(* ===== verification/Fast.v ===== *)
(** * Byte buffers (utils/fast/buffer.go)

    A writer appends to a slice; a reader moves a cursor over one.  A Go slice
    expression [buf[i:j]] is checked against the capacity of [buf], not its
    length, so the reader's slice carries the bytes of its backing array that lie
    beyond its length ([spare]). *)

From S2P Require Import Prelude.

Record Reader := mkReader { buf : list Z; spare : list Z; offset : Z }.

Record Writer := mkWriter { wbuf : list Z }.

Definition NewReader (bb tail : list Z) : Reader := mkReader bb tail 0.

Definition NewWriter (bb : list Z) : Writer := mkWriter bb.

Definition Writer_WriteByte (v : Z) : GoM Writer unit := λ b,
  Ok (tt, mkWriter (wbuf b ++ [v])).

Definition Writer_Write (v : list Z) : GoM Writer unit := λ b,
  Ok (tt, mkWriter (wbuf b ++ v)).

(** [b.buf[b.offset : b.offset+n]]: panics beyond the capacity. *)
Definition Reader_Read (n : Z) : GoM Reader (list Z) := λ b,
  if (0 <=? offset b) && (0 <=? n) && (offset b + n <=? len (buf b ++ spare b))
  then Ok (take (Z.to_nat n) (drop (Z.to_nat (offset b)) (buf b ++ spare b)),
           mkReader (buf b) (spare b) (offset b + n))
  else Panic.

(** [b.buf[b.offset]]: panics beyond the length. *)
Definition Reader_ReadByte : GoM Reader Z := λ b,
  match (if 0 <=? offset b then buf b !! Z.to_nat (offset b) else None) with
  | Some res => Ok (res, mkReader (buf b) (spare b) (offset b + 1))
  | None => Panic
  end.

Definition Reader_Position (b : Reader) : Z := offset b.

Definition Reader_Bytes (b : Reader) : list Z := buf b.

Definition Writer_Bytes (b : Writer) : list Z := wbuf b.

Definition Reader_Empty (b : Reader) : bool := len (buf b) =? offset b.

(** ** Abstraction: the bytes left to read *)

Definition rbytes (b : Reader) : list Z := drop (Z.to_nat (offset b)) (buf b).

Definition Reader_ok (b : Reader) : Prop :=
  bytes_ok (buf b) ∧ 0 <= offset b <= len (buf b).

Lemma Read_within n ys k b :
  Reader_ok b → rbytes b = ys ++ k → n = len ys →
  ∃ b', Reader_Read n b = Ok (ys, b') ∧ Reader_ok b' ∧ buf b' = buf b ∧ rbytes b' = k.
Proof.
  intros [Hb Ho] Hr ->. unfold rbytes, Reader_Read in *.
  assert (Hl : offset b + len ys <= len (buf b)).
  { apply (f_equal length) in Hr. rewrite length_drop, length_app in Hr. unfold len in *. lia. }
  rewrite len_app. pose proof (len_nonneg (spare b)). pose proof (len_nonneg ys).
  rewrite !(proj2 (Z.leb_le _ _)) by lia. simpl.
  rewrite drop_app_le by (unfold len in *; lia). rewrite Hr, <- app_assoc.
  rewrite take_app_length' by (unfold len; lia).
  eexists. split; [done|]. split_and!; [split; [done|cbn; lia]|done|]. cbn.
  rewrite Z2Nat.inj_add, <- drop_drop, Hr by lia. apply drop_app_length'. unfold len. lia.
Qed.

Lemma ReadByte_cons y k b :
  Reader_ok b → rbytes b = y :: k →
  ∃ b', Reader_ReadByte b = Ok (y, b') ∧ Reader_ok b' ∧ buf b' = buf b ∧ rbytes b' = k ∧
        offset b' = offset b + 1.
Proof.
  intros [Hb Ho] Hr. unfold rbytes, Reader_ReadByte in *.
  assert (Hy : buf b !! Z.to_nat (offset b) = Some y).
  { rewrite <- (Nat.add_0_r (Z.to_nat _)), <- lookup_drop, Hr. done. }
  rewrite (proj2 (Z.leb_le _ _)), Hy by lia. eexists. split; [done|].
  apply lookup_lt_Some in Hy as ?.
  split_and!; [split; [done|unfold len; cbn; lia]|done| |done]. cbn.
  rewrite (drop_S _ _ _ Hy) in Hr. rewrite Z2Nat.inj_add, Nat.add_1_r by lia. by injection Hr.
Qed.

Lemma ReadByte_end b : Reader_ok b → rbytes b = [] → Reader_ReadByte b = Panic.
Proof.
  intros [Hb Ho] Hr. unfold rbytes, Reader_ReadByte in *.
  rewrite (proj2 (Z.leb_le _ _)) by lia.
  apply (f_equal length) in Hr. rewrite length_drop in Hr. simpl in Hr.
  rewrite lookup_ge_None_2 by lia. done.
Qed.
