(* ===== verification/Cser.v ===== *)
(** * Compact serialization (utils/cser/read_writer.go, utils/cser/binary.go)

    A [Writer] keeps two streams: a bit stream for flags and sizes and a byte
    stream for contents.  [MarshalBinaryAdapter] packs the two into one slice,
    [UnmarshalBinaryAdapter] unpacks them, runs a decoder and checks that
    everything was consumed.

    The contract between an encoder and its decoder is [codec]: the encoder
    appends some bits and bytes, and the decoder, on a stream that starts with
    them, returns the value and leaves the rest.  Codecs compose ([codec_bind]),
    and [adapter_roundtrip] turns one into a round trip through the binary form. *)

From S2P Require Import Prelude Bits Fast.

Definition ErrNonCanonicalEncoding : error := NewError "cser.ErrNonCanonicalEncoding".
Definition ErrMalformedEncoding : error := NewError "cser.ErrMalformedEncoding".

Record Writer := mkWriter { BitsW : Bits.Writer; BytesW : Fast.Writer }.

Record Reader := mkReader { BitsR : Bits.Reader; BytesR : Fast.Reader }.

Definition NewWriter : Writer :=
  mkWriter (Bits.NewWriter (mkArray [])) (Fast.NewWriter []).

(** Method calls on the fields [w.BitsW], [w.BytesW], [r.BitsR], [r.BytesR]. *)
Definition on_BitsW {A} (m : GoM Bits.Writer A) : GoM Writer A := λ w,
  match m (BitsW w) with
  | Ok (a, b) => Ok (a, mkWriter b (BytesW w)) | Err e => Err e | Panic => Panic
  end.
Definition on_BytesW {A} (m : GoM Fast.Writer A) : GoM Writer A := λ w,
  match m (BytesW w) with
  | Ok (a, b) => Ok (a, mkWriter (BitsW w) b) | Err e => Err e | Panic => Panic
  end.
Definition on_BitsR {A} (m : GoM Bits.Reader A) : GoM Reader A := λ r,
  match m (BitsR r) with
  | Ok (a, b) => Ok (a, mkReader b (BytesR r)) | Err e => Err e | Panic => Panic
  end.
Definition on_BytesR {A} (m : GoM Fast.Reader A) : GoM Reader A := λ r,
  match m (BytesR r) with
  | Ok (a, b) => Ok (a, mkReader (BitsR r) b) | Err e => Err e | Panic => Panic
  end.

(** ** Variable-size integers over bytes *)

(** The loop of [writeUint64Compact]: seven bits a byte, the last one flagged. *)
Fixpoint writeUint64Compact_loop (fuel : nat) (v : Z) : GoM Fast.Writer unit :=
  match fuel with
  | O => panic
  | S fuel' =>
      let chunk := Z.land v 127 in
      let v := Z.shiftr v 7 in
      let chunk := if v =? 0 then Z.lor chunk 128 else chunk in
      _ ← Writer_WriteByte (u8 chunk);
      if v =? 0 then mret tt else writeUint64Compact_loop fuel' v
  end.

(** A [uint64] has at most ten groups of seven bits. *)
Definition writeUint64Compact (v : Z) : GoM Fast.Writer unit :=
  writeUint64Compact_loop 10 v.

Fixpoint readUint64Compact_loop (fuel : nat) (i v : Z) : GoM Fast.Reader Z :=
  match fuel with
  | O => panic
  | S fuel' =>
      chunk ← Reader_ReadByte;
      let stop := negb (Z.land chunk 128 =? 0) in
      let word := Z.land chunk 127 in
      let v := Z.lor v (u64 (Z.shiftl word (i * 7))) in
      if (0 <? i) && stop && (word =? 0) then panic
      else if stop then mret v else readUint64Compact_loop fuel' (i + 1) v
  end.

(** Every iteration consumes a byte, so the bytes left bound the iterations. *)
Definition readUint64Compact : GoM Fast.Reader Z := λ r,
  readUint64Compact_loop (S (length (Fast.rbytes r))) 0 0 r.

Fixpoint writeUint64BitCompact_loop (fuel : nat) (size minSize v : Z) : GoM Fast.Writer Z :=
  if (size <? minSize) || negb (v =? 0) then
    match fuel with
    | O => panic
    | S fuel' =>
        _ ← Writer_WriteByte (u8 v);
        writeUint64BitCompact_loop fuel' (size + 1) minSize (Z.shiftr v 8)
    end
  else mret size.

(** At most eight bytes hold a [uint64]; [minSize] is 0 or 1 in the callers. *)
Definition writeUint64BitCompact (v minSize : Z) : GoM Fast.Writer Z :=
  writeUint64BitCompact_loop (8 + Z.to_nat minSize) 0 minSize v.

(** [for i, b := range buf { v |= uint64(b) << uint(8*i); last = b }] *)
Fixpoint readUint64BitCompact_loop (i v last : Z) (buf : list Z) : Z * Z :=
  match buf with
  | [] => (v, last)
  | b :: buf' =>
      readUint64BitCompact_loop (i + 1) (Z.lor v (u64 (Z.shiftl b (8 * i)))) b buf'
  end.

Definition readUint64BitCompact (size : Z) : GoM Fast.Reader Z :=
  buf ← Reader_Read size;
  let '(v, last) := readUint64BitCompact_loop 0 0 0 buf in
  if (1 <? size) && (last =? 0) then panic else mret v.

(** ** Methods of Reader and Writer *)

Definition Reader_U8 : GoM Reader Z := on_BytesR Reader_ReadByte.

Definition Writer_U8 (v : Z) : GoM Writer unit := on_BytesW (Writer_WriteByte v).

Definition readU64_bits (minSize bitsForSize : Z) : GoM Reader Z :=
  size ← on_BitsR (Read bitsForSize);
  let size := u64 (size + minSize) in
  on_BytesR (readUint64BitCompact (i64 size)).

Definition writeU64_bits (minSize bitsForSize v : Z) : GoM Writer unit :=
  size ← on_BytesW (writeUint64BitCompact v minSize);
  on_BitsW (Write bitsForSize (u64 (size - minSize))).

Definition Reader_U16 : GoM Reader Z := v64 ← readU64_bits 1 1; mret (u16 v64).
Definition Writer_U16 (v : Z) : GoM Writer unit := writeU64_bits 1 1 v.
Definition Reader_U32 : GoM Reader Z := v64 ← readU64_bits 1 2; mret (u32 v64).
Definition Writer_U32 (v : Z) : GoM Writer unit := writeU64_bits 1 2 v.
Definition Reader_U64 : GoM Reader Z := readU64_bits 1 3.
Definition Writer_U64 (v : Z) : GoM Writer unit := writeU64_bits 1 3 v.
Definition Reader_VarUint : GoM Reader Z := readU64_bits 1 3.
Definition Writer_VarUint (v : Z) : GoM Writer unit := writeU64_bits 1 3 v.

Definition Reader_Bool : GoM Reader bool :=
  u8 ← on_BitsR (Read 1);
  mret (negb (u8 =? 0)).

Definition Writer_Bool (v : bool) : GoM Writer unit :=
  let u8 := if v then 1 else 0 in
  on_BitsW (Write 1 u8).

Definition Reader_I64 : GoM Reader Z :=
  neg ← Reader_Bool;
  abs ← Reader_U64;
  if neg && (abs =? 0) then panic
  else if (neg : bool) then mret (i64 (- i64 abs)) else mret (i64 abs).

Definition Writer_I64 (v : Z) : GoM Writer unit :=
  _ ← Writer_Bool (v <? 0);
  if v <? 0 then Writer_U64 (u64 (i64 (- v))) else Writer_U64 (u64 v).

Definition Reader_U56 : GoM Reader Z := readU64_bits 0 3.

Definition Writer_U56 (v : Z) : GoM Writer unit :=
  let max := 2 ^ (8 * 7) - 1 in
  if max <? v then panic else writeU64_bits 0 3 v.

(** The destination slice of [FixedBytes] is filled entirely: its length is the
    argument and its contents the result. *)
Definition Reader_FixedBytes (n : Z) : GoM Reader (list Z) := on_BytesR (Reader_Read n).

Definition Writer_FixedBytes (v : list Z) : GoM Writer unit := on_BytesW (Writer_Write v).

Definition Reader_SliceBytes : GoM Reader (list Z) :=
  size ← Reader_U56;
  Reader_FixedBytes size.

Definition Writer_SliceBytes (v : list Z) : GoM Writer unit :=
  _ ← Writer_U56 (u64 (len v));
  Writer_FixedBytes v.

Definition PaddedBytes (b : list Z) (n : Z) : list Z :=
  if n <=? len b then b else replicate (Z.to_nat (n - len b)) 0 ++ b.

(** ** Go's [big.Int] byte representation: big-endian, absolute value, minimal. *)

Fixpoint le_digits (fuel : nat) (z : Z) : list Z :=
  match fuel with
  | O => []
  | S fuel' => if z =? 0 then [] else z mod 256 :: le_digits fuel' (z / 256)
  end.

Definition big_Bytes (z : Z) : list Z :=
  reverse (le_digits (S (Z.to_nat (Z.log2 (Z.abs z)))) (Z.abs z)).

Definition big_SetBytes (buf : list Z) : Z := foldl (λ acc b, acc * 256 + b) 0 buf.

Definition Writer_BigInt (v : Z) : GoM Writer unit :=
  let bigBytes := if Z.sgn v =? 0 then [] else big_Bytes v in
  Writer_SliceBytes bigBytes.

Definition Reader_BigInt : GoM Reader Z :=
  buf ← Reader_SliceBytes;
  if len buf =? 0 then mret 0 else mret (big_SetBytes buf).

(** ** The binary form *)

Definition tail (b : list Z) (cap : Z) : list Z :=
  if cap <? len b then drop (Z.to_nat (len b - cap)) b else b.

Definition reversed (b : list Z) : list Z := reverse b.

Definition binaryFromCSER (bbits : Array) (bbytes : list Z) : res (list Z) :=
  '(_, bodyBytes) ← Writer_Write (Bytes bbits) (Fast.NewWriter bbytes);
  '(_, sizeWriter) ← writeUint64Compact (u64 (len (Bytes bbits))) (Fast.NewWriter []);
  '(_, bodyBytes) ← Writer_Write (reversed (Writer_Bytes sizeWriter)) bodyBytes;
  Ok (Writer_Bytes bodyBytes).

Definition MarshalBinaryAdapter (marshalCser : GoM Writer unit) : res (list Z) :=
  '(_, w) ← marshalCser NewWriter;
  binaryFromCSER (WArray (BitsW w)) (Writer_Bytes (BytesW w)).

(** The byte body is a prefix of [raw], so reslicing it beyond its length reaches
    the rest of [raw] (and [spare], the capacity of [raw] itself). *)
Definition binaryToCSER (raw spare : list Z) : res (Array * Fast.Reader) :=
  let bitsSizeBuf := reversed (tail raw 9) in
  '(bitsSize, bitsSizeReader) ← readUint64Compact (Fast.NewReader bitsSizeBuf []);
  let size := len raw - Reader_Position bitsSizeReader in
  let body := take (Z.to_nat size) raw in
  if u64 (len body) <? bitsSize then Err ErrMalformedEncoding
  else
    let cut := Z.to_nat (len body - bitsSize) in
    Ok (mkArray (drop cut body), Fast.NewReader (take cut body) (drop cut raw ++ spare)).

(** The part of [UnmarshalBinaryAdapter] under the deferred [recover]; a decoder
    that succeeds returns the decoded value. *)
Definition unmarshalBody {A} (raw spare : list Z) (unmarshalCser : GoM Reader A) : res A :=
  '(bbits, bytesR) ← binaryToCSER raw spare;
  let bodyReader := mkReader (Bits.NewReader bbits) bytesR in
  '(a, bodyReader) ← unmarshalCser bodyReader;
  if 1 <? NonReadBytes (BitsR bodyReader) then Err ErrNonCanonicalEncoding else
  '(tail, bitsR) ← Read (NonReadBits (BitsR bodyReader)) (BitsR bodyReader);
  if negb (tail =? 0) then Err ErrNonCanonicalEncoding else
  if negb (Reader_Empty (BytesR bodyReader)) then Err ErrNonCanonicalEncoding else
  Ok a.

Definition UnmarshalBinaryAdapter {A} (raw spare : list Z) (unmarshalCser : GoM Reader A) : res A :=
  recover_with ErrMalformedEncoding (unmarshalBody raw spare unmarshalCser).

(** ** Abstract streams *)

Definition Writer_ok (w : Writer) : Prop :=
  Bits.Writer_ok (BitsW w) ∧ bytes_ok (wbuf (BytesW w)).

Definition Reader_ok (r : Reader) : Prop :=
  Bits.Reader_ok (BitsR r) ∧ Fast.Reader_ok (BytesR r).

(** [m] appends the bits [bs] and the bytes [ys]. *)
Definition writes (m : GoM Writer unit) (bs : list bool) (ys : list Z) : Prop :=
  ∀ w, Writer_ok w →
    ∃ w', m w = Ok (tt, w') ∧ Writer_ok w' ∧
      wbits (BitsW w') = wbits (BitsW w) ++ bs ∧
      wbuf (BytesW w') = wbuf (BytesW w) ++ ys.

(** [m], on streams that start with [bs] and [ys], returns [a] and leaves the rest. *)
Definition reads {A} (m : GoM Reader A) (bs : list bool) (ys : list Z) (a : A) : Prop :=
  ∀ r kb ky, Reader_ok r → rbits (BitsR r) = bs ++ kb → rbytes (BytesR r) = ys ++ ky →
    ∃ r', m r = Ok (a, r') ∧ Reader_ok r' ∧
      rbits (BitsR r') = kb ∧ rbytes (BytesR r') = ky ∧ buf (BytesR r') = buf (BytesR r).

(** The contract between an encoder and a decoder of one value. *)
Definition codec {A} (wr : GoM Writer unit) (rd : GoM Reader A) (a : A) : Prop :=
  ∃ bs ys, writes wr bs ys ∧ reads rd bs ys a.

Lemma writes_bind {m1 : GoM Writer unit} {m2 : GoM Writer unit} {b1 y1 b2 y2} :
  writes m1 b1 y1 → writes m2 b2 y2 → writes (_ ← m1; m2) (b1 ++ b2) (y1 ++ y2).
Proof.
  intros H1 H2 w Hw. destruct (H1 w Hw) as (w1 & E1 & Hw1 & Hb1 & Hy1).
  destruct (H2 w1 Hw1) as (w2 & E2 & Hw2 & Hb2 & Hy2). exists w2.
  rewrite (GoM_bind_Ok _ _ _ _ _ E1). split_and!; [done..| |].
  - by rewrite Hb2, Hb1, app_assoc.
  - by rewrite Hy2, Hy1, app_assoc.
Qed.

Lemma writes_ret : writes (mret tt) [] [].
Proof. intros w Hw. exists w. by rewrite !app_nil_r. Qed.

Lemma reads_bind {A B} {m : GoM Reader A} {f : A → GoM Reader B} {b1 y1 b2 y2 a b} :
  reads m b1 y1 a → reads (f a) b2 y2 b → reads (x ← m; f x) (b1 ++ b2) (y1 ++ y2) b.
Proof.
  intros H1 H2 r kb ky Hr Hb Hy. rewrite <- app_assoc in Hb, Hy.
  destruct (H1 r _ _ Hr Hb Hy) as (r1 & E1 & Hr1 & Hb1 & Hy1 & Hbuf1).
  destruct (H2 r1 _ _ Hr1 Hb1 Hy1) as (r2 & E2 & Hr2 & Hb2 & Hy2 & Hbuf2). exists r2.
  rewrite (GoM_bind_Ok _ _ _ _ _ E1). split_and!; [done..|congruence].
Qed.

Lemma reads_ret {A} (a : A) : reads (mret a) [] [] a.
Proof. intros r kb ky Hr Hb Hy. by exists r. Qed.

Lemma codec_bind {A B} wr1 wr2 (rd : GoM Reader A) (k : A → GoM Reader B) a b :
  codec wr1 rd a → codec wr2 (k a) b → codec (_ ← wr1; wr2) (x ← rd; k x) b.
Proof.
  intros (bs1 & ys1 & W1 & R1) (bs2 & ys2 & W2 & R2). eexists _, _.
  split; [by apply (writes_bind W1 W2)|by apply (reads_bind R1 R2)].
Qed.

Lemma codec_ret {A} (a : A) : codec (mret tt) (mret a) a.
Proof. exists [], []. split; [apply writes_ret|apply reads_ret]. Qed.

(** The decoder post-processes what it read. *)
Lemma codec_map {A B} wr (rd : GoM Reader A) (k : A → GoM Reader B) a b :
  codec wr rd a → k a = mret b → codec wr (x ← rd; k x) b.
Proof.
  intros (bs & ys & W & R) Hk. exists bs, ys. split; [done|].
  rewrite <- (app_nil_r bs), <- (app_nil_r ys). apply (reads_bind R). rewrite Hk. apply reads_ret.
Qed.

(** ** The primitives satisfy the contract *)

Definition le_val (l : list Z) : Z := foldr (λ b acc, b + 256 * acc) 0 l.

Lemma le_val_range l : bytes_ok l → 0 <= le_val l < 2 ^ (8 * len l).
Proof.
  induction 1 as [|b l Hb _ IH]; [done|]. cbn [le_val foldr]. fold (le_val l).
  unfold len in *. cbn [length]. rewrite Nat2Z.inj_succ.
  replace (8 * Z.succ (Z.of_nat (length l))) with (8 + 8 * Z.of_nat (length l)) by lia.
  rewrite Z.pow_add_r by lia. unfold is_u8 in *. lia.
Qed.

Lemma writes_bits n v :
  0 < n → 0 <= v < 2 ^ n → writes (on_BitsW (Write n v)) (bits_of_Z (Z.to_nat n) v) [].
Proof.
  intros Hn Hv [wb wy] [Hok Hy]. destruct (Write_spec n v wb Hok Hn Hv) as (wb' & E & Hok' & Hb).
  unfold on_BitsW. cbn [BitsW BytesW]. rewrite E. eexists. split_and!; [done|done|done|].
  cbn. by rewrite app_nil_r.
Qed.

Lemma reads_bits n v :
  0 <= n <= 64 → 0 <= v < 2 ^ n → reads (on_BitsR (Read n)) (bits_of_Z (Z.to_nat n) v) [] v.
Proof.
  intros Hn Hv [rb ry] kb ky [Hok Hy] Hb Hyy. cbn [BitsR BytesR] in *.
  destruct (Read_spec n rb Hok Hn) as (rb' & E & Hok' & _ & Hrest).
  { rewrite Hb, length_app, length_bits_of_Z. lia. }
  unfold on_BitsR. cbn [BitsR BytesR]. rewrite E. eexists. split.
  { do 2 f_equal. rewrite Hb, take_app_length' by (by rewrite length_bits_of_Z).
    apply Z_of_bits_id. by rewrite Z2Nat.id by lia. }
  split_and!; [done| |done|done]. cbn [BitsR]. rewrite Hrest, Hb.
  apply drop_app_length'. by rewrite length_bits_of_Z.
Qed.

Lemma writes_bytes ys : bytes_ok ys → writes (on_BytesW (Writer_Write ys)) [] ys.
Proof.
  intros Hys [wb [wy]] [Hok Hy]. eexists. split_and!; [done| |by cbn; rewrite app_nil_r|done].
  split; [done|]. cbn in *. by apply Forall_app.
Qed.

Lemma reads_bytes n ys : n = len ys → reads (on_BytesR (Reader_Read n)) [] ys ys.
Proof.
  intros -> [rb ry] kb ky [Hok Hy] Hb Hyy. cbn [BitsR BytesR] in *.
  destruct (Read_within (len ys) ys ky ry Hy Hyy eq_refl) as (ry' & E & ? & ? & ?).
  unfold on_BytesR. cbn [BitsR BytesR]. rewrite E. eexists. by split_and!.
Qed.

Lemma codec_FixedBytes n ys :
  bytes_ok ys → n = len ys → codec (Writer_FixedBytes ys) (Reader_FixedBytes n) ys.
Proof. intros. exists [], ys. split; [by apply writes_bytes|by apply reads_bytes]. Qed.

Lemma codec_U8 v : is_u8 v → codec (Writer_U8 v) Reader_U8 v.
Proof.
  intros Hv. exists [], [v]. split.
  - apply (writes_bytes [v]). by apply Forall_singleton.
  - intros [rb ry] kb ky [Hok Hy] Hb Hyy. cbn [BitsR BytesR] in *.
    destruct (ReadByte_cons v ky ry Hy Hyy) as (ry' & E & ? & ? & ? & ?).
    unfold Reader_U8, on_BytesR. cbn [BitsR BytesR]. rewrite E. eexists. by split_and!.
Qed.

Lemma codec_Bool v : codec (Writer_Bool v) Reader_Bool v.
Proof.
  unfold Writer_Bool, Reader_Bool. set (n := if v then 1 else 0).
  eapply codec_map with n.
  - eexists _, _. split; [apply writes_bits|apply reads_bits]; destruct v; subst n; lia.
  - by destruct v.
Qed.

(** The output of [writeUint64BitCompact]: the little-endian digits of [v], no
    more of them than needed above [minSize]. *)
Lemma writeUint64BitCompact_loop_spec fuel size minSize v k :
  0 <= v < 2 ^ (8 * Z.of_nat k) → 0 <= size → (k + Z.to_nat (minSize - size) <= fuel)%nat →
  ∃ ys, (∀ w, writeUint64BitCompact_loop fuel size minSize v w =
                Ok (size + len ys, Fast.mkWriter (wbuf w ++ ys))) ∧
        bytes_ok ys ∧ le_val ys = v ∧ minSize <= size + len ys ∧
        (minSize < size + len ys → ys ≠ [] → default 0 (last ys) ≠ 0) ∧
        len ys <= Z.max (Z.of_nat k) (minSize - size).
Proof.
  revert size v k. induction fuel as [|fuel IH]; intros size v k Hv Hsize Hfuel;
    cbn [writeUint64BitCompact_loop].
  - assert (k = 0%nat) as -> by lia. simpl in Hv. assert (v = 0) as -> by lia.
    rewrite (proj2 (Z.ltb_ge _ _)) by lia. exists []. rewrite Z.add_0_r.
    split_and!; cbn; [by intros []; rewrite app_nil_r|by apply Forall_nil|done|lia|done|unfold len; simpl; lia].
  - destruct ((size <? minSize) || negb (v =? 0)) eqn:Hc; last first.
    { go_bool. subst v. exists []. rewrite Z.add_0_r.
      split_and!; cbn; [by intros []; rewrite app_nil_r|by apply Forall_nil|done|lia|done|unfold len; simpl; lia]. }
    destruct (IH (size + 1) (Z.shiftr v 8) (pred k))
      as (ys & E & Hys & Hval & Hmin & Hlast & Hlen).
    { rewrite Z.shiftr_div_pow2 by lia. destruct k as [|k].
      - simpl in Hv. assert (v = 0) as -> by lia. done.
      - rewrite Nat2Z.inj_succ in Hv.
        replace (8 * Z.succ (Z.of_nat k)) with (8 + 8 * Z.of_nat k) in Hv by lia.
        rewrite Z.pow_add_r in Hv by lia. simpl pred.
        split; [apply Z.div_pos; lia|apply Z.div_lt_upper_bound; lia]. }
    { lia. }
    { destruct k; simpl in *; [|lia]. apply orb_true_iff in Hc as [?|Hc]; go_bool; [lia|].
      exfalso. lia. }
    exists (u8 v :: ys). unfold len in *. cbn [length]. split_and!.
    + intros w. unfold Writer_WriteByte. rewrite GoM_bind_Ok with (a := tt)
        (s' := Fast.mkWriter (wbuf w ++ [u8 v])) by done.
      rewrite E. do 2 f_equal; [lia|]. cbn. by rewrite <- app_assoc.
    + constructor; [apply u8_range|done].
    + cbn [le_val foldr]. fold (le_val ys). rewrite Hval, Z.shiftr_div_pow2 by lia.
      unfold u8. change (2 ^ 8) with 256. go_lia.
    + lia.
    + intros Hlt _. destruct ys as [|y ys].
      * simpl. cbn in Hval. symmetry in Hval. rewrite Z.shiftr_div_pow2 in Hval by lia.
        apply orb_true_iff in Hc as [Hc|Hc]; go_bool; [simpl in Hlt; lia|].
        unfold u8. go_lia.
      * rewrite last_cons_cons. apply Hlast; [lia|done].
    + destruct k; [|lia]. apply orb_true_iff in Hc as [?|Hc]; go_bool; simpl in *; lia.
Qed.

Lemma readUint64BitCompact_loop_spec i v l ys :
  bytes_ok ys → 0 <= i → i + len ys <= 8 → 0 <= v < 2 ^ (8 * i) →
  readUint64BitCompact_loop i v l ys = (v + 2 ^ (8 * i) * le_val ys, default l (last ys)).
Proof.
  intros Hys. revert i v l. induction Hys as [|b ys Hb Hys IH]; intros i v l Hi Hl Hv;
    cbn [readUint64BitCompact_loop].
  { cbn. f_equal. lia. }
  unfold len in *. cbn [length] in Hl. rewrite Nat2Z.inj_succ in Hl.
  assert (Hs : u64 (Z.shiftl b (8 * i)) = Z.shiftl b (8 * i)).
  { apply u64_id. rewrite Z.shiftl_mul_pow2 by lia. unfold is_u8 in Hb.
    split; [apply Z.mul_nonneg_nonneg; [lia|apply Z.pow_nonneg; lia]|].
    apply Z.lt_le_trans with (2 ^ 8 * 2 ^ (8 * i)).
    - apply Z.mul_lt_mono_pos_r; [apply pow2_pos|]; lia.
    - rewrite <- Z.pow_add_r by lia. apply Z.pow_le_mono_r; lia. }
  rewrite Hs, lor_shiftl_add by lia. rewrite IH.
  - f_equal.
    + cbn [le_val foldr]. fold (le_val ys).
      replace (8 * (i + 1)) with (8 * i + 8) by lia. rewrite Z.pow_add_r by lia. lia.
    + destruct ys as [|y ys]; [done|]. rewrite last_cons_cons.
      by destruct (last (y :: ys)) eqn:E; [|apply last_None in E].
  - lia.
  - lia.
  - replace (8 * (i + 1)) with (8 + 8 * i) by lia. rewrite Z.pow_add_r by lia.
    unfold is_u8 in Hb. nia.
Qed.

Lemma codec_U64_bits m n v k :
  0 <= m <= 1 → 0 < n <= 3 → m <= k <= m + 2 ^ n - 1 → k <= 8 → 0 <= v < 2 ^ (8 * k) →
  ∃ size ys, m <= size <= k ∧ (2 ^ 8 <= v → 1 < size) ∧
    writes (writeU64_bits m n v) (bits_of_Z (Z.to_nat n) (size - m)) ys ∧
    reads (readU64_bits m n) (bits_of_Z (Z.to_nat n) (size - m)) ys v.
Proof.
  intros Hm Hn Hk Hk8 Hv.
  destruct (writeUint64BitCompact_loop_spec (8 + Z.to_nat m) 0 m v (Z.to_nat k))
    as (ys & E & Hys & Hval & Hmin & Hlast & Hlen); [rewrite Z2Nat.id by lia; done|lia|lia|].
  exists (len ys), ys. rewrite Z2Nat.id, Z.sub_0_r in Hlen by lia.
  rewrite Z.add_0_l in Hmin, Hlast. split; [lia|].
  assert (Hn2 : 2 ^ n <= 8) by (change 8 with (2 ^ 3); apply Z.pow_le_mono_r; lia).
  assert (Hsz : 0 <= len ys - m < 2 ^ n) by lia. split_and!.
  - intros Hbig. pose proof (le_val_range ys Hys) as Hr. rewrite Hval in Hr.
    destruct (decide (len ys <= 1)); [|lia]. exfalso.
    assert (2 ^ (8 * len ys) <= 2 ^ 8) by (apply Z.pow_le_mono_r; lia). lia.
  - intros [wb wy] [Hok Hy]. unfold writeU64_bits.
    rewrite GoM_bind_Ok with (a := len ys) (s' := mkWriter wb (Fast.mkWriter (wbuf wy ++ ys))).
    2:{ unfold on_BytesW, writeUint64BitCompact. cbn [BytesW]. by rewrite E, Z.add_0_l. }
    rewrite u64_id by (unfold is_u64; lia).
    destruct (writes_bits n (len ys - m) ltac:(lia) Hsz (mkWriter wb (Fast.mkWriter (wbuf wy ++ ys))))
      as (w' & E' & Hok' & Hb' & Hy').
    { split; [done|]. cbn in *. by apply Forall_app. }
    exists w'. split_and!; [done..|]. rewrite Hy', app_nil_r. done.
  - unfold readU64_bits. rewrite <- (app_nil_r (bits_of_Z _ _)).
    eapply (reads_bind (y1 := []) (y2 := ys)); [apply reads_bits; [lia|exact Hsz]|].
    replace (len ys - m + m) with (len ys) by lia.
    rewrite u64_id by (unfold is_u64; lia). rewrite i64_id by (unfold is_i64; lia).
    intros [rb ry] kb ky [Hok Hy] Hb Hyy. cbn [BitsR BytesR] in *.
    destruct (Read_within (len ys) ys ky ry Hy Hyy eq_refl) as (ry' & E' & ? & ? & ?).
    unfold on_BytesR, readUint64BitCompact. cbn [BitsR BytesR].
    rewrite (GoM_bind_Ok _ _ _ _ _ E').
    rewrite readUint64BitCompact_loop_spec by (done || lia).
    rewrite Z.add_0_l, Z.mul_1_l, Hval.
    destruct ((1 <? len ys) && (default 0 (last ys) =? 0)) eqn:Hc.
    + go_bool. exfalso. apply Hlast; [lia| |done]. intros ->. done.
    + eexists. by split_and!.
Qed.

Lemma codec_u64_bits m n v k :
  0 <= m <= 1 → 0 < n <= 3 → m <= k <= m + 2 ^ n - 1 → k <= 8 → 0 <= v < 2 ^ (8 * k) →
  codec (writeU64_bits m n v) (readU64_bits m n) v.
Proof.
  intros. destruct (codec_U64_bits m n v k) as (size & ys & _ & _ & W & R); [done..|].
  by exists (bits_of_Z (Z.to_nat n) (size - m)), ys.
Qed.

Lemma codec_U16 v : is_u16 v → codec (Writer_U16 v) Reader_U16 v.
Proof.
  intros Hv. apply codec_map with v; [by apply (codec_u64_bits 1 1 v 2)|].
  unfold u16. by rewrite Z.mod_small.
Qed.

Lemma codec_U32 v : is_u32 v → codec (Writer_U32 v) Reader_U32 v.
Proof.
  intros Hv. apply codec_map with v; [by apply (codec_u64_bits 1 2 v 4)|].
  by rewrite u32_id.
Qed.

Lemma codec_U64 v : is_u64 v → codec (Writer_U64 v) Reader_U64 v.
Proof. intros Hv. by apply (codec_u64_bits 1 3 v 8). Qed.

Lemma codec_VarUint v : is_u64 v → codec (Writer_VarUint v) Reader_VarUint v.
Proof. intros Hv. by apply (codec_u64_bits 1 3 v 8). Qed.

Lemma codec_U56 v : 0 <= v < 2 ^ 56 → codec (Writer_U56 v) Reader_U56 v.
Proof.
  intros Hv. unfold Writer_U56. change (8 * 7) with 56.
  rewrite (proj2 (Z.ltb_ge _ _)) by lia. by apply (codec_u64_bits 0 3 v 7).
Qed.

Lemma codec_I64 v : is_i64 v → codec (Writer_I64 v) Reader_I64 v.
Proof.
  intros Hv. unfold is_i64 in Hv. unfold Writer_I64, Reader_I64.
  apply codec_bind with (v <? 0); [apply codec_Bool|].
  destruct (Z.ltb_spec v 0) as [Hneg|Hpos]; cbn [andb].
  - apply codec_map with (u64 (i64 (- v))); [apply codec_U64, u64_range|].
    rewrite u64_i64. unfold u64. rewrite Z.mod_small by lia.
    rewrite (proj2 (Z.eqb_neq _ _)) by lia. do 2 f_equal.
    destruct (decide (v = - 2 ^ 63)) as [->|]; [done|].
    rewrite (i64_id (- v)) by (unfold is_i64; lia). rewrite i64_id by (unfold is_i64; lia). lia.
  - apply codec_map with (u64 v); [apply codec_U64, u64_range|].
    f_equal. rewrite i64_u64. by apply i64_id.
Qed.

Lemma codec_SliceBytes v :
  bytes_ok v → len v < 2 ^ 56 → codec (Writer_SliceBytes v) Reader_SliceBytes v.
Proof.
  intros Hv Hl. pose proof (len_nonneg v). unfold Writer_SliceBytes.
  rewrite u64_id by (unfold is_u64; lia).
  apply codec_bind with (len v); [apply codec_U56; lia|by apply codec_FixedBytes].
Qed.

(** ** big.Int *)

Lemma le_digits_val fuel z :
  0 <= z < 2 ^ (8 * Z.of_nat fuel) → bytes_ok (le_digits fuel z) ∧ le_val (le_digits fuel z) = z.
Proof.
  revert z. induction fuel as [|fuel IH]; intros z Hz; cbn [le_digits].
  { simpl in Hz. split; [by apply Forall_nil|cbn; lia]. }
  destruct (Z.eqb_spec z 0) as [->|Hne]; [split; [by apply Forall_nil|done]|].
  rewrite Nat2Z.inj_succ in Hz.
  replace (8 * Z.succ (Z.of_nat fuel)) with (8 + 8 * Z.of_nat fuel) in Hz by lia.
  rewrite Z.pow_add_r in Hz by lia.
  destruct (IH (z / 256)) as [Hb Hv]; [go_lia|].
  split; [constructor; [unfold is_u8; go_lia|done]|].
  cbn [le_val foldr]. fold (le_val (le_digits fuel (z / 256))). rewrite Hv. go_lia.
Qed.

Lemma big_SetBytes_reverse l : big_SetBytes (reverse l) = le_val l.
Proof.
  unfold big_SetBytes, le_val. induction l as [|b l IH]; [done|].
  rewrite reverse_cons, foldl_app, IH. cbn [foldl foldr]. lia.
Qed.

Lemma big_Bytes_spec z :
  0 <= z → bytes_ok (big_Bytes z) ∧ big_SetBytes (big_Bytes z) = z.
Proof.
  intros Hz. unfold big_Bytes. rewrite Z.abs_eq by done.
  destruct (le_digits_val (S (Z.to_nat (Z.log2 z))) z) as [Hb Hv].
  { split; [done|]. destruct (decide (z = 0)) as [->|]; [by apply pow2_pos|].
    eapply Z.lt_le_trans; [apply (Z.log2_spec z); lia|].
    pose proof (Z.log2_nonneg z). apply Z.pow_le_mono_r; lia. }
  split; [by apply Forall_reverse|]. by rewrite big_SetBytes_reverse.
Qed.

Lemma big_Bytes_0 : big_Bytes 0 = [].
Proof. done. Qed.

Lemma le_digits_length fuel z k :
  0 <= z < 2 ^ (8 * Z.of_nat k) → (length (le_digits fuel z) <= k)%nat.
Proof.
  revert z k. induction fuel as [|fuel IH]; intros z k Hz; cbn [le_digits]; [simpl; lia|].
  destruct (Z.eqb_spec z 0) as [->|Hne]; [simpl; lia|].
  destruct k as [|k]; [simpl in Hz; lia|]. cbn [length]. apply le_n_S, IH.
  rewrite Nat2Z.inj_succ in Hz.
  replace (8 * Z.succ (Z.of_nat k)) with (8 + 8 * Z.of_nat k) in Hz by lia.
  rewrite Z.pow_add_r in Hz by lia. go_lia.
Qed.

Lemma big_Bytes_length z k :
  0 <= z < 2 ^ (8 * Z.of_nat k) → (length (big_Bytes z) <= k)%nat.
Proof.
  intros. unfold big_Bytes. rewrite length_reverse. apply le_digits_length.
  by rewrite Z.abs_eq by lia.
Qed.

Lemma codec_BigInt v :
  0 <= v → len (big_Bytes v) < 2 ^ 56 → codec (Writer_BigInt v) Reader_BigInt v.
Proof.
  intros Hv Hl. destruct (big_Bytes_spec v Hv) as [Hb Hval]. unfold Writer_BigInt, Reader_BigInt.
  apply codec_map with (big_Bytes v).
  - destruct (Z.eqb_spec (Z.sgn v) 0) as [Hs|Hs]; [|by apply codec_SliceBytes].
    apply Z.sgn_null_iff in Hs as ->. rewrite big_Bytes_0 in *. by apply codec_SliceBytes.
  - destruct (Z.eqb_spec (len (big_Bytes v)) 0) as [Hz|Hz]; [|by rewrite Hval].
    f_equal. unfold len in Hz. assert (Hn : big_Bytes v = []) by (apply nil_length_inv; lia).
    rewrite <- Hval, Hn. done.
Qed.

#[export] Hint Resolve codec_U8 codec_Bool codec_U16 codec_U32 codec_U64 codec_I64 codec_U56
  codec_SliceBytes codec_BigInt codec_FixedBytes : go.

(** ** Compact sizes *)

Definition chunk_facts (c : Z) : bool :=
  (Z.land (Z.lor c 128) 128 =? 128) && (Z.land (Z.lor c 128) 127 =? c) &&
  (Z.land c 128 =? 0) && (Z.land c 127 =? c) &&
  (u8 (Z.lor c 128) =? Z.lor c 128) && (u8 c =? c).

Lemma chunk_facts_all c : 0 <= c < 128 → chunk_facts c = true.
Proof.
  intros Hc. assert (H : forallb chunk_facts (seqZ 0 128) = true) by (vm_compute; done).
  rewrite forallb_forall in H. apply H. apply list_elem_of_In, elem_of_seqZ. lia.
Qed.

Lemma chunk_spec c :
  0 <= c < 128 →
  Z.land (Z.lor c 128) 128 = 128 ∧ Z.land (Z.lor c 128) 127 = c ∧
  Z.land c 128 = 0 ∧ Z.land c 127 = c ∧ u8 (Z.lor c 128) = Z.lor c 128 ∧ u8 c = c.
Proof.
  intros Hc. pose proof (chunk_facts_all c Hc) as Hf. unfold chunk_facts in Hf.
  go_bool. by split_and!.
Qed.

(** What reading the groups of [v] from group [i] on, with [acc] read so far, does. *)
Definition compact_reads (cs : list Z) (v : Z) : Prop :=
  ∀ fuel i acc r k, 0 <= i → i + len cs <= 9 → 0 <= acc < 2 ^ (i * 7) → (0 < i → v ≠ 0) →
    (length cs <= fuel)%nat → Fast.Reader_ok r → rbytes r = cs ++ k →
    ∃ r', readUint64Compact_loop fuel i acc r = Ok (acc + v * 2 ^ (i * 7), r') ∧
          Fast.Reader_ok r' ∧ rbytes r' = k ∧ offset r' = offset r + len cs.

Lemma shiftl_word_u64 w i :
  0 <= w < 128 → 0 <= i <= 8 → u64 (Z.shiftl w (i * 7)) = Z.shiftl w (i * 7).
Proof.
  intros Hw Hi. apply u64_id. rewrite Z.shiftl_mul_pow2 by lia.
  split; [apply Z.mul_nonneg_nonneg; [lia|apply Z.pow_nonneg; lia]|].
  apply Z.lt_le_trans with (2 ^ 7 * 2 ^ (i * 7)).
  - apply Z.mul_lt_mono_pos_r; [apply pow2_pos|]; lia.
  - rewrite <- Z.pow_add_r by lia. apply Z.pow_le_mono_r; lia.
Qed.

Lemma compact_reads_last v : 0 <= v < 128 → compact_reads [Z.lor v 128] v.
Proof.
  intros Hv fuel i acc r k Hi Hl Hacc Hne Hfuel Hok Hr. unfold len in *. cbn [length] in *.
  destruct (chunk_spec v Hv) as (F1 & F2 & _). destruct fuel as [|fuel]; [lia|]. cbn [readUint64Compact_loop].
  destruct (ReadByte_cons _ _ _ Hok Hr) as (r' & E & Hok' & _ & Hk & Hoff).
  rewrite (GoM_bind_Ok _ _ _ _ _ E). cbv zeta.
  rewrite F1, F2. change (128 =? 0) with false. cbn [negb].
  rewrite andb_true_r. destruct ((0 <? i) && (v =? 0)) eqn:Hc; [go_bool; subst; lia|].
  rewrite shiftl_word_u64, lor_shiftl_add by lia. by exists r'.
Qed.

Lemma compact_reads_step v cs :
  0 <= v → 128 <= v → compact_reads cs (v / 128) → compact_reads (v mod 128 :: cs) v.
Proof.
  intros Hv Hbig IH fuel i acc r k Hi Hl Hacc Hne Hfuel Hok Hr.
  unfold len in *. cbn [length] in *. rewrite Nat2Z.inj_succ in Hl |- *.
  assert (Hm : 0 <= v mod 128 < 128) by go_lia.
  destruct (chunk_spec _ Hm) as (_ & _ & F3 & F4 & _).
  destruct fuel as [|fuel]; [lia|]. cbn [readUint64Compact_loop].
  destruct (ReadByte_cons _ _ _ Hok Hr) as (r1 & E & Hok1 & _ & Hk1 & Hoff1).
  rewrite (GoM_bind_Ok _ _ _ _ _ E). cbv zeta.
  rewrite F3, F4. change (0 =? 0) with true. cbn [negb]. rewrite andb_false_r. cbn [andb].
  rewrite shiftl_word_u64, lor_shiftl_add by lia.
  assert (Hp : 2 ^ ((i + 1) * 7) = 128 * 2 ^ (i * 7)).
  { replace ((i + 1) * 7) with (7 + i * 7) by lia. by rewrite Z.pow_add_r by lia. }
  destruct (IH fuel (i + 1) (acc + v mod 128 * 2 ^ (i * 7)) r1 k)
    as (r' & E' & Hok' & Hk' & Hoff'); [lia|unfold len; lia| | |lia|done|done|].
  { rewrite Hp. nia. }
  { intros _. go_lia. }
  exists r'. rewrite E', Hp. split_and!; [|done..|unfold len in *; lia].
  do 2 f_equal. rewrite (Z.div_mod v 128) at 3 by lia. lia.
Qed.

Lemma writeUint64Compact_loop_spec fuel k v :
  (1 <= k <= fuel)%nat → 0 <= v < 2 ^ (Z.of_nat k * 7) →
  ∃ cs, (∀ w, writeUint64Compact_loop fuel v w = Ok (tt, Fast.mkWriter (wbuf w ++ cs))) ∧
        (1 <= length cs <= k)%nat ∧ bytes_ok cs ∧ compact_reads cs v.
Proof.
  revert k v. induction fuel as [|fuel IH]; intros k v Hk Hv; [lia|].
  cbn [writeUint64Compact_loop].
  assert (Hland : Z.land v 127 = v mod 128) by (apply (Z.land_ones v 7); lia).
  assert (Hm : 0 <= v mod 128 < 128) by go_lia.
  assert (Hsh : Z.shiftr v 7 = v / 128) by (by rewrite Z.shiftr_div_pow2 by lia).
  rewrite Hland, Hsh. destruct (chunk_spec _ Hm) as (_ & _ & _ & _ & F5 & F6).
  destruct (Z.eqb_spec (v / 128) 0) as [Hz|Hnz].
  - exists [Z.lor (v mod 128) 128]. assert (Hsmall : v mod 128 = v) by go_lia. split_and!.
    + intros w. rewrite GoM_bind_Ok with (a := tt)
        (s' := Fast.mkWriter (wbuf w ++ [Z.lor (v mod 128) 128])); [done|].
      unfold Writer_WriteByte. by rewrite F5.
    + simpl. lia.
    + simpl. lia.
    + apply Forall_singleton. rewrite <- F5. apply u8_range.
    + rewrite Hsmall. apply compact_reads_last. lia.
  - destruct k as [|[|k]]; [lia|simpl in Hv; go_lia|].
    destruct (IH (S k) (v / 128)) as (cs & E & Hl & Hb & Hr); [lia| |].
    { rewrite !Nat2Z.inj_succ in *.
      replace (Z.succ (Z.succ (Z.of_nat k)) * 7) with (7 + Z.succ (Z.of_nat k) * 7) in Hv by lia.
      rewrite Z.pow_add_r in Hv by lia. go_lia. }
    exists (v mod 128 :: cs). split_and!.
    + intros w. rewrite GoM_bind_Ok with (a := tt) (s' := Fast.mkWriter (wbuf w ++ [v mod 128])).
      * rewrite E. cbn. by rewrite <- app_assoc.
      * unfold Writer_WriteByte. by rewrite F6.
    + simpl. lia.
    + simpl. lia.
    + constructor; [unfold is_u8; lia|done].
    + apply compact_reads_step; [lia|go_lia|done].
Qed.

(** ** Round trip through the binary form *)

Lemma tail_reversed raw n : 0 <= n → reversed (tail raw n) = take (Z.to_nat n) (reverse raw).
Proof.
  intros Hn. unfold reversed, tail. destruct (Z.ltb_spec n (len raw)) as [Hlt|Hge].
  - unfold len in *. set (k := (length raw - Z.to_nat n)%nat).
    assert (Hr : reverse raw = reverse (drop k raw) ++ reverse (take k raw)).
    { by rewrite <- reverse_app, take_drop. }
    rewrite Hr. subst k.
    replace (Z.to_nat (Z.of_nat (length raw) - n)) with (length raw - Z.to_nat n)%nat by lia.
    by rewrite take_app_length' by (rewrite length_reverse, length_drop; lia).
  - unfold len in Hge. by rewrite take_ge by (rewrite length_reverse; lia).
Qed.

Lemma binaryFromCSER_total bb ys :
  ∃ cs, binaryFromCSER (mkArray bb) ys = Ok (ys ++ bb ++ reverse cs) ∧
        bytes_ok cs ∧ (1 <= length cs)%nat ∧
        (len bb < 2 ^ 63 → (length cs <= 9)%nat ∧ compact_reads cs (len bb)).
Proof.
  pose proof (len_nonneg bb). destruct (u64_range (len bb)) as [? ?].
  set (k := if decide (len bb < 2 ^ 63) then 9%nat else 10%nat).
  assert (Hu : len bb < 2 ^ 63 → u64 (len bb) = len bb).
  { intros. apply u64_id. unfold is_u64. lia. }
  destruct (writeUint64Compact_loop_spec 10 k (u64 (len bb))) as (cs & E & Hlen & Hok & Hr).
  { subst k. case_decide; lia. }
  { subst k. case_decide; [rewrite Hu by done|]; simpl Z.of_nat; simpl; lia. }
  exists cs. split_and!; [|done|lia|].
  - unfold binaryFromCSER, writeUint64Compact, Writer_Write.
    cbn [mbind res_bind Bytes wbuf Fast.NewWriter]. rewrite E.
    cbn [mbind res_bind wbuf app]. unfold Writer_Bytes. cbn [wbuf]. by rewrite <- app_assoc.
  - intros Hl. subst k. rewrite decide_True, Hu in * by done. split; [lia|done].
Qed.

Lemma binaryToCSER_ok bb ys cs spare :
  bytes_ok ys → bytes_ok bb → bytes_ok cs → (1 <= length cs <= 9)%nat →
  compact_reads cs (len bb) → len (ys ++ bb ++ reverse cs) < 2 ^ 63 →
  binaryToCSER (ys ++ bb ++ reverse cs) spare =
    Ok (mkArray bb, Fast.NewReader ys (bb ++ reverse cs ++ spare)).
Proof.
  intros Hys Hbb Hcs Hlen Hread Hl. unfold binaryToCSER.
  set (raw := ys ++ bb ++ reverse cs) in *. rewrite tail_reversed by lia.
  assert (Hrev : take (Z.to_nat 9) (reverse raw) =
                 cs ++ take (9 - length cs) (reverse bb ++ reverse ys)).
  { subst raw. rewrite !reverse_app, reverse_involutive, <- !app_assoc.
    rewrite take_app_ge by lia. done. }
  rewrite Hrev. set (more := take _ (_ ++ _)).
  assert (Hmore : bytes_ok more).
  { apply Forall_take, Forall_app. split; by apply Forall_reverse. }
  unfold readUint64Compact.
  destruct (Hread (S (length (rbytes (Fast.NewReader (cs ++ more) [])))) 0 0
    (Fast.NewReader (cs ++ more) []) more) as (r' & E & _ & _ & Hoff).
  { lia. } { unfold len; lia. } { lia. } { lia. }
  { unfold rbytes. cbn [Fast.NewReader offset buf]. change (Z.to_nat 0) with 0%nat.
    rewrite drop_0, length_app. lia. }
  { split; [by apply Forall_app|]. cbn. split; [lia|apply len_nonneg]. }
  { done. }
  rewrite E. cbn [mbind res_bind]. rewrite Z.add_0_l, Z.mul_1_r.
  unfold Reader_Position. rewrite Hoff. cbn [Fast.NewReader offset]. rewrite Z.add_0_l.
  assert (Hraw : len raw = len ys + len bb + len cs).
  { subst raw. rewrite !len_app. unfold len. rewrite length_reverse. lia. }
  assert (Hbody : take (Z.to_nat (len raw - len cs)) raw = ys ++ bb).
  { rewrite Hraw. subst raw. rewrite app_assoc. apply take_app_length'.
    rewrite length_app. unfold len. lia. }
  rewrite Hbody, len_app. pose proof (len_nonneg ys). pose proof (len_nonneg bb).
  pose proof (len_nonneg cs). rewrite u64_id by (unfold is_u64; lia).
  rewrite (proj2 (Z.ltb_ge _ _)) by lia.
  replace (Z.to_nat (len ys + len bb - len bb)) with (length ys) by (unfold len; lia).
  rewrite drop_app_length, take_app_length. subst raw.
  by rewrite drop_app_length, <- app_assoc.
Qed.

(** What the adapter produces: the byte stream, the bit array, its size. *)
Lemma MarshalBinaryAdapter_shape wr bs ys :
  writes wr bs ys →
  ∃ bb cs pad, MarshalBinaryAdapter wr = Ok (ys ++ bb ++ reverse cs) ∧
    bytes_ok ys ∧ bytes_ok bb ∧ bytes_ok cs ∧ (1 <= length cs)%nat ∧ (pad < 8)%nat ∧
    bytes_bits bb = bs ++ replicate pad false ∧
    (len bb < 2 ^ 63 → (length cs <= 9)%nat ∧ compact_reads cs (len bb)).
Proof.
  intros W. destruct (W NewWriter) as ([wb [wy]] & E & [Hok Hyok] & Hb & Hy).
  { split; [apply NewWriter_ok|by apply Forall_nil]. }
  cbn [BitsW BytesW wbuf NewWriter Fast.NewWriter app] in *. subst wy.
  change (wbits (Bits.NewWriter (mkArray []))) with (@nil bool) in Hb. cbn [app] in Hb.
  destruct (Writer_bytes_bits wb Hok) as (pad & Hpad & Hbb). rewrite Hb in Hbb.
  pose proof Hok as (_ & Hbbok & _). destruct wb as [[bb] o]. cbn [WArray Bytes] in *.
  destruct (binaryFromCSER_total bb ys) as (cs & Ebin & Hcsok & Hcs1 & Hread).
  exists bb, cs, pad. split_and!; try done.
  unfold MarshalBinaryAdapter. rewrite E. exact Ebin.
Qed.

(** After a complete decoding only padding is left, and the checks pass. *)
Lemma final_checks {A} (a : A) rb ry pad :
  Bits.Reader_ok rb → Fast.Reader_ok ry → (pad < 8)%nat →
  rbits rb = replicate pad false → rbytes ry = [] →
  (if 1 <? NonReadBytes rb then Err ErrNonCanonicalEncoding else
   '(tail, bitsR) ← Read (NonReadBits rb) rb;
   if negb (tail =? 0) then Err ErrNonCanonicalEncoding else
   if negb (Reader_Empty ry) then Err ErrNonCanonicalEncoding else Ok a) = Ok a.
Proof.
  intros Hrb Hry Hpad Hkb Hky.
  pose proof (NonReadBits_length rb Hrb) as Hnr. rewrite Hkb, length_replicate in Hnr.
  assert (Hn1 : NonReadBytes rb <= 1).
  { unfold NonReadBits in Hnr. destruct Hrb as ((? & ?) & _). lia. }
  rewrite (proj2 (Z.ltb_ge _ _)) by lia.
  destruct (Read_spec (NonReadBits rb) rb Hrb) as (rb' & Erd & _).
  { rewrite Hnr. lia. } { rewrite Hnr, Hkb, length_replicate. lia. }
  rewrite Erd, Hkb, Hnr, Nat2Z.id, take_ge by (by rewrite length_replicate).
  rewrite (proj2 (Z_of_bits_0 (replicate pad false))) by (by rewrite length_replicate).
  cbn [mbind res_bind]. change (0 =? 0) with true. cbn [negb].
  unfold Reader_Empty. destruct Hry as [_ Ho]. unfold rbytes in Hky.
  apply (f_equal length) in Hky. rewrite length_drop in Hky. cbn in Hky.
  rewrite (proj2 (Z.eqb_eq _ _)) by (unfold len in *; lia). done.
Qed.

Lemma adapter_total {A} wr (rd : GoM Reader A) a :
  codec wr rd a → ∃ raw, MarshalBinaryAdapter wr = Ok raw.
Proof.
  intros (bs & ys & W & _). destruct (MarshalBinaryAdapter_shape _ _ _ W) as (bb & cs & pad & E & _).
  by eexists.
Qed.

Lemma adapter_roundtrip {A} wr (rd : GoM Reader A) a raw spare :
  codec wr rd a → MarshalBinaryAdapter wr = Ok raw → len raw < 2 ^ 63 →
  UnmarshalBinaryAdapter raw spare rd = Ok a.
Proof.
  intros (bs & ys & W & R) Hraw Hl.
  destruct (MarshalBinaryAdapter_shape _ _ _ W)
    as (bb & cs & pad & E & Hys & Hbb & Hcs & Hcs1 & Hpad & Hbits & Hread).
  rewrite E in Hraw. injection Hraw as <-.
  assert (Hlbb : len bb < 2 ^ 63).
  { rewrite !len_app in Hl. pose proof (len_nonneg ys). pose proof (len_nonneg (reverse cs)). lia. }
  destruct (Hread Hlbb) as [Hcs9 Hcr].
  unfold UnmarshalBinaryAdapter, unmarshalBody.
  rewrite binaryToCSER_ok by (done || lia). cbn [mbind res_bind].
  destruct (R (mkReader (Bits.NewReader (mkArray bb)) (Fast.NewReader ys (bb ++ reverse cs ++ spare)))
    (replicate pad false) []) as ([rb ry] & Er & [Hrb Hry] & Hkb & Hky & _).
  { split; [by apply NewReader_ok|]. split; [done|]. cbn. split; [lia|apply len_nonneg]. }
  { exact Hbits. }
  { cbn. by rewrite app_nil_r. }
  rewrite Er. transitivity (recover_with ErrMalformedEncoding (Ok a)); [|done]. f_equal.
  by apply (final_checks a rb ry pad).
Qed.

(** The container is not canonical: an empty body is accepted with no byte of bits,
    as it is written, and with a byte of zero bits. *)
Example zero_bits_byte_accepted :
  MarshalBinaryAdapter (mret ()) = Ok [128] ∧
  UnmarshalBinaryAdapter [128] [] (mret ()) = Ok () ∧
  UnmarshalBinaryAdapter [0; 129] [] (mret ()) = Ok ().
Proof. vm_compute. done. Qed.
