(* ===== verification/Inter.v ===== *)
(** * Data of the event DAG and of blocks (inter/)

    Timestamps, gas power, signatures, public keys, transactions, events and
    blocks.  The event identifiers, [dag.BaseEvent] and the transaction type come
    from libraries outside the repository; what the code uses of identifiers is
    the interface [EventIDs] below, and events and transactions are records of
    what their accessors return. *)

From S2P Require Import Prelude Cser.

(** ** inter/time.go *)

Definition Second : Z := 1000000000.

Definition FromUnix (t : Z) : Z := u64 (i64 (t * Second)).

(** Go's integer division truncates towards zero. *)
Definition Timestamp_Unix (t : Z) : Z := Z.quot (i64 t) Second.

Definition MaxTimestamp (x y : Z) : Z := if y <? x then x else y.

(** ** inter/gas_power_left.go *)

Definition ShortTermGas : Z := 0.
Definition LongTermGas : Z := 1.
Definition GasPowerConfigs : nat := 2.

(** [Gas [GasPowerConfigs]uint64] *)
Record GasPowerLeft := mkGasPowerLeft { Gas : list Z }.

(** An array index out of range panics. *)
Definition Gas_at (g : GasPowerLeft) (i : Z) : option Z :=
  if 0 <=? i then Gas g !! Z.to_nat i else None.

Definition GasPowerLeft_zero : GasPowerLeft := mkGasPowerLeft [0; 0].

(** The receiver is a value: the loop updates a copy, and the caller keeps [g]. *)
Definition GasPowerLeft_Add (g : GasPowerLeft) (diff : Z) : GasPowerLeft :=
  let copy := mkGasPowerLeft ((λ x, u64 (x + diff)) <$> Gas g) in
  g.

Definition GasPowerLeft_Min (g : GasPowerLeft) : Z :=
  foldl (λ min gas, if gas <? min then gas else min) (default 0 (Gas g !! 0%nat)) (Gas g).

Definition GasPowerLeft_Max (g : GasPowerLeft) : Z :=
  foldl (λ max gas, if max <? gas then gas else max) (default 0 (Gas g !! 0%nat)) (Gas g).

Definition GasPowerLeft_Sub (g : GasPowerLeft) (diff : Z) : GasPowerLeft :=
  mkGasPowerLeft ((λ x, u64 (x - diff)) <$> Gas g).

Definition GasPowerLeft_ok (g : GasPowerLeft) : Prop :=
  length (Gas g) = GasPowerConfigs ∧ Forall is_u64 (Gas g).

(** ** inter/signature.go *)

Definition SigSize : Z := 64.

Definition BytesToSignature (b : list Z) : res (list Z) :=
  if negb (len b =? SigSize) then Panic else Ok b.

(** ** inter/validatorpk/pubkey.go *)

Record PubKey := mkPubKey { pk_Type : Z; pk_Raw : list Z }.

Definition Types_Secp256k1 : Z := 192.

Definition PubKey_Empty (pk : PubKey) : bool := (len (pk_Raw pk) =? 0) && (pk_Type pk =? 0).

Definition PubKey_Bytes (pk : PubKey) : list Z := pk_Type pk :: pk_Raw pk.

Definition errEmptyPubkey : error := NewError "validatorpk: empty pubkey".

Definition PubKey_FromBytes (b : list Z) : res PubKey :=
  match b with
  | [] => Err errEmptyPubkey
  | t :: raw => Ok (mkPubKey t raw)
  end.

(** ** Transactions: the accessors of [types.Transaction] that the code calls *)

Definition LegacyTxType : Z := 0.
Definition AccessListTxType : Z := 1.

Record AccessTuple := mkAccessTuple { at_Address : list Z; at_StorageKeys : list (list Z) }.

Record Transaction := mkTransaction {
  tx_Type : Z;
  tx_Nonce : Z;
  tx_Gas : Z;
  tx_GasPrice : Z;
  tx_Value : Z;
  tx_To : option (list Z);
  tx_Data : list Z;
  tx_V : Z; tx_R : Z; tx_S : Z;
  tx_ChainId : Z;
  tx_AccessList : list AccessTuple;
}.

#[global] Instance AccessTuple_eq_dec : EqDecision AccessTuple.
Proof. solve_decision. Defined.
#[global] Instance Transaction_eq_dec : EqDecision Transaction.
Proof. solve_decision. Defined.

(** ** Event identifiers: the part of [hash.Event] and of [dag.MutableBaseEvent]
    that the repository relies on.  [mk_ID epoch lamport h] is what [SetEpoch],
    [SetLamport] and [SetID] build. *)

Class EventIDs (EventID : Type) := {
  EventID_eq_dec :: EqDecision EventID;
  id_Epoch : EventID → Z;
  id_Lamport : EventID → Z;
  id_Bytes : EventID → list Z;
  mk_ID : Z → Z → list Z → EventID;
  zero_ID : EventID;
}.

(** The documented behaviour of identifiers: 32 bytes, of which the last 24 are
    the hash, determined by the epoch, the Lamport time and the hash. *)
Class EventIDsLaws (EventID : Type) `{EventIDs EventID} := {
  id_Bytes_ok : ∀ id, bytes_ok (id_Bytes id);
  id_Bytes_len : ∀ id, len (id_Bytes id) = 32;
  id_Epoch_range : ∀ id, is_u32 (id_Epoch id);
  id_Lamport_range : ∀ id, is_u32 (id_Lamport id);
  mk_ID_eta : ∀ id, mk_ID (id_Epoch id) (id_Lamport id) (drop 8 (id_Bytes id)) = id;
}.

(** ** inter/event.go *)

Section events.
Context {EventID : Type} `{EventIDs EventID}.

Record baseEvent := mkBaseEvent {
  Epoch : Z;
  Seq : Z;
  Frame : Z;
  Creator : Z;
  Lamport : Z;
  Parents : list EventID;
  ID : EventID;
}.

Record extEventData := mkExtEventData {
  creationTime : Z;
  medianTime : Z;
  prevEpochHash : option (list Z);
  txHash : list Z;
  gasPowerLeft : GasPowerLeft;
  gasPowerUsed : Z;
  extra : list Z;
}.

Record Event := mkEvent {
  ev_base : baseEvent;
  ev_ext : extEventData;
  ev_hash : list Z;
}.

Record EventPayload := mkEventPayload {
  ep_event : Event;
  ep_sig : list Z;
  ep_txs : list Transaction;
  ep_size : Z;
}.

Record MutableEventPayload := mkMutableEventPayload {
  me_base : baseEvent;
  me_ext : extEventData;
  me_sig : list Z;
  me_txs : list Transaction;
}.

(** Whether an event has no transactions is read off its transactions hash. *)
Definition NoTxs (EmptyTxHash : list Z) (e : extEventData) : bool :=
  bool_decide (txHash e = EmptyTxHash).

Definition calcEventID (h : list Z) : list Z := take 24 h.

(** [me.MutableBaseEvent.Build(calcEventID(h))] and the rest of [build]. *)
Definition build (me : MutableEventPayload) (h : list Z) (size : Z) : EventPayload :=
  let b := me_base me in
  mkEventPayload
    (mkEvent
      (mkBaseEvent (Epoch b) (Seq b) (Frame b) (Creator b) (Lamport b) (Parents b)
        (mk_ID (Epoch b) (Lamport b) (calcEventID h)))
      (me_ext me) h)
    (me_sig me) (me_txs me) size.

Definition immutable (me : MutableEventPayload) : EventPayload :=
  build me (replicate 32 0) 0.
End events.
Arguments baseEvent : clear implicits.
Arguments Event : clear implicits.
Arguments EventPayload : clear implicits.
Arguments MutableEventPayload : clear implicits.

(** ** inter/block.go *)

Section filter.
Context {A : Type}.

(** [for i, tx := range txs]: [skipCount] runs over the skipped indexes. *)
Fixpoint FilterSkipped_loop (i : Z) (skipCount : nat) (skippedTxs : list Z) (txs : list A)
  : list A :=
  match txs with
  | [] => []
  | tx :: txs' =>
      if match skippedTxs !! skipCount with
         | Some s => s =? u32 i
         | None => false
         end
      then FilterSkipped_loop (i + 1) (S skipCount) skippedTxs txs'
      else tx :: FilterSkipped_loop (i + 1) skipCount skippedTxs txs'
  end.

Definition FilterSkippedTxs (txs : list A) (skippedTxs : list Z) : list A :=
  if len skippedTxs =? 0 then txs else FilterSkipped_loop 0 0 skippedTxs txs.
End filter.

Record Block (EventID : Type) := mkBlock {
  bl_Time : Z;
  bl_Atropos : EventID;
  bl_Events : list EventID;
  bl_Txs : list (list Z);
  bl_InternalTxs : list (list Z);
  bl_SkippedTxs : list Z;
  bl_GasUsed : Z;
  bl_Root : list Z;
}.
Arguments mkBlock {_} _ _ _ _ _ _ _ _.
Arguments bl_Time {_}. Arguments bl_Atropos {_}. Arguments bl_Events {_}.
Arguments bl_Txs {_}. Arguments bl_InternalTxs {_}. Arguments bl_SkippedTxs {_}.
Arguments bl_GasUsed {_}. Arguments bl_Root {_}.

Definition EstimateSize {E} (b : Block E) : Z :=
  (len (bl_Events b) + len (bl_InternalTxs b) + len (bl_Txs b) + 1 + 1) * 32
  + len (bl_SkippedTxs b) * 4 + 8 + 8.

Definition NotSkippedTxs {E} (b : Block E) : list (list Z) :=
  let txs := bl_InternalTxs b ++ bl_Txs b in
  FilterSkippedTxs txs (bl_SkippedTxs b).
