(* ===== verification/Instances.v ===== *)
(** * A concrete instance of event identifiers

    Identifiers of 32 bytes: the epoch and the Lamport time in four big-endian
    bytes each, then 24 bytes of the hash.  The instance shows that the laws
    of [EventIDsLaws] can hold, and gives the witnesses something to run on. *)

From S2P Require Import Prelude Cser Inter.

Definition be32 (z : Z) : list Z :=
  [u8 (Z.shiftr z 24); u8 (Z.shiftr z 16); u8 (Z.shiftr z 8); u8 z].

Definition be_val (l : list Z) : Z := foldl (λ acc b, acc * 256 + b) 0 l.

Definition hash_ok (l : list Z) : Prop := bytes_ok l ∧ length l = 32%nat.
#[global] Instance hash_ok_dec l : Decision (hash_ok l).
Proof. unfold hash_ok. apply _. Defined.

Definition Hash : Type := dsig hash_ok.

Definition zero_Hash : Hash := dexist (replicate 32 0) (bool_decide_unpack (hash_ok (replicate 32 0)) I).

Definition to_Hash (l : list Z) : Hash :=
  match decide (hash_ok l) with left Hl => dexist l Hl | right _ => zero_Hash end.

#[global] Instance Hash_IDs : EventIDs Hash := {
  id_Epoch h := be_val (take 4 (`h));
  id_Lamport h := be_val (take 4 (drop 4 (`h)));
  id_Bytes h := `h;
  mk_ID e l h := to_Hash (be32 e ++ be32 l ++ h);
  zero_ID := zero_Hash;
}.

Lemma be32_val a b c d :
  is_u8 a → is_u8 b → is_u8 c → is_u8 d →
  is_u32 (be_val [a; b; c; d]) ∧ be32 (be_val [a; b; c; d]) = [a; b; c; d].
Proof.
  unfold be32, be_val. simpl. intros Ha Hb Hc Hd.
  rewrite !Z.shiftr_div_pow2 by lia. split; [go_lia|]. repeat f_equal; go_lia.
Qed.

Lemma to_Hash_eta (h : Hash) : to_Hash (`h) = h.
Proof.
  unfold to_Hash. destruct (decide _) as [Hl|Hn].
  - by apply dsig_eq.
  - destruct Hn. by apply (proj2_dsig h).
Qed.

#[global] Instance Hash_IDsLaws : EventIDsLaws Hash.
Proof.
  assert (Hsplit : ∀ h : Hash, ∃ a b c d e f g i t, `h = a :: b :: c :: d :: e :: f :: g :: i :: t ∧
    is_u8 a ∧ is_u8 b ∧ is_u8 c ∧ is_u8 d ∧ is_u8 e ∧ is_u8 f ∧ is_u8 g ∧ is_u8 i).
  { intros h. destruct (proj2_dsig h) as [Hb Hl]. destruct (`h) as [|a [|b [|c [|d [|e [|f [|g [|i t]]]]]]]];
      try discriminate. exists a, b, c, d, e, f, g, i, t.
    repeat (apply Forall_cons in Hb as [? Hb]). done. }
  split; intros h.
  - by apply (proj2_dsig h).
  - destruct (proj2_dsig h) as [_ Hl]. cbn. unfold len. by rewrite Hl.
  - destruct (Hsplit h) as (a & b & c & d & e & f & g & i & t & E & ? & ? & ? & ? & _).
    cbn [id_Epoch Hash_IDs]. rewrite E. by apply be32_val.
  - destruct (Hsplit h) as (a & b & c & d & e & f & g & i & t & E & _ & _ & _ & _ & ? & ? & ? & ?).
    cbn [id_Lamport Hash_IDs]. rewrite E. by apply be32_val.
  - destruct (Hsplit h) as (a & b & c & d & e & f & g & i & t & E & ? & ? & ? & ? & ? & ? & ? & ?).
    cbn [id_Epoch id_Lamport id_Bytes mk_ID Hash_IDs]. rewrite E. cbn [firstn skipn]. rewrite take_0, drop_0.
    rewrite (proj2 (be32_val a b c d ltac:(done) ltac:(done) ltac:(done) ltac:(done))), (proj2 (be32_val e f g i ltac:(done) ltac:(done) ltac:(done) ltac:(done))). cbn [app]. rewrite <- E. apply to_Hash_eta.
Qed.

(** Maps and sets of identifiers. *)
#[global] Instance Hash_countable : @Countable Hash EventID_eq_dec :=
  inj_countable' (λ h : Hash, `h) to_Hash to_Hash_eta.
