(* ===== verification/TxSer.v ===== *)
(** * Transaction serialization (inter/transaction_serializer.go)

    The main result is [codec_Transaction]: encoding a well-formed transaction
    and decoding it gives the transaction back.  The legacy format has no type
    marker: the decoder recognises it because the six bits of the nonce and gas
    sizes are not all zero, which the encoder ensures by refusing a legacy
    transaction whose gas fits one byte. *)

From S2P Require Import Prelude Bits Fast Cser Inter.

Definition ErrUnknownTxType : error := NewError "inter.ErrUnknownTxType".
Definition errSmallGasLimit : error :=
  NewError "cannot serialize legacy tx with gasLimit <= 256".

Definition encodeSig (r s : Z) : list Z :=
  take 32 (PaddedBytes (big_Bytes r) 32) ++ take 32 (PaddedBytes (big_Bytes s) 32).

Definition decodeSig (sig : list Z) : Z * Z :=
  (big_SetBytes (take 32 sig), big_SetBytes (take 32 (drop 32 sig))).

(** The inner loops over the access list. *)
Definition writeAccessTuple (tuple : AccessTuple) : GoM Writer unit :=
  _ ← Writer_FixedBytes (at_Address tuple);
  _ ← Writer_U32 (u32 (len (at_StorageKeys tuple)));
  range_do Writer_FixedBytes (at_StorageKeys tuple).

Definition readAccessTuple : GoM Reader AccessTuple :=
  addr ← Reader_FixedBytes 20;
  keysLen ← Reader_U32;
  keys ← repeat_read (Z.to_nat keysLen) (Reader_FixedBytes 32);
  mret (mkAccessTuple addr keys).

Definition TransactionMarshalCSER (tx : Transaction) : GoM Writer unit :=
  _ ← (if negb (tx_Type tx =? LegacyTxType) then
         _ ← on_BitsW (Write 6 0);
         Writer_U8 (tx_Type tx)
       else if tx_Gas tx <=? 255 then throw errSmallGasLimit
       else mret tt);
  _ ← Writer_U64 (tx_Nonce tx);
  _ ← Writer_U64 (tx_Gas tx);
  _ ← Writer_BigInt (tx_GasPrice tx);
  _ ← Writer_BigInt (tx_Value tx);
  _ ← Writer_Bool (bool_decide (is_Some (tx_To tx)));
  _ ← match tx_To tx with Some to => Writer_FixedBytes to | None => mret tt end;
  _ ← Writer_SliceBytes (tx_Data tx);
  _ ← Writer_BigInt (tx_V tx);
  let sig := encodeSig (tx_R tx) (tx_S tx) in
  _ ← Writer_FixedBytes sig;
  if tx_Type tx =? LegacyTxType then mret tt
  else if tx_Type tx =? AccessListTxType then
    _ ← Writer_BigInt (tx_ChainId tx);
    _ ← Writer_U32 (u32 (len (tx_AccessList tx)));
    range_do writeAccessTuple (tx_AccessList tx)
  else throw ErrUnknownTxType.

Section decode.
(** [types.LegacyTx] has no chain id of its own: [tx.ChainId()] derives it from V. *)
Variable deriveChainId : Z → Z.

Definition NewLegacyTx (nonce gas gasPrice value : Z) (to : option (list Z)) (data : list Z)
    (v r s : Z) : Transaction :=
  mkTransaction LegacyTxType nonce gas gasPrice value to data v r s (deriveChainId v) [].

Definition TransactionUnmarshalCSER : GoM Reader Transaction :=
  marker ← on_BitsR (View 6);
  txType ← (if marker =? 0 then _ ← on_BitsR (Read 6); Reader_U8 else mret LegacyTxType);
  nonce ← Reader_U64;
  gasLimit ← Reader_U64;
  gasPrice ← Reader_BigInt;
  amount ← Reader_BigInt;
  toExists ← Reader_Bool;
  to ← (if toExists : bool then _to ← Reader_FixedBytes 20; mret (Some _to) else mret None);
  data ← Reader_SliceBytes;
  v ← Reader_BigInt;
  sig ← Reader_FixedBytes 64;
  let '(_r, s) := decodeSig sig in
  if txType =? LegacyTxType then
    mret (NewLegacyTx nonce gasLimit gasPrice amount to data v _r s)
  else if txType =? AccessListTxType then
    chainID ← Reader_BigInt;
    accessListLen ← Reader_U32;
    accessList ← repeat_read (Z.to_nat accessListLen) readAccessTuple;
    mret (mkTransaction AccessListTxType nonce gasLimit gasPrice amount to data v _r s
            chainID accessList)
  else throw ErrUnknownTxType.
End decode.

(** ** Well-formed transactions *)

(** A number that a [big.Int] field can hold and the format can carry. *)
Definition big_ok (z : Z) : Prop := 0 <= z ∧ len (big_Bytes z) < 2 ^ 56.

Definition AccessTuple_ok (t : AccessTuple) : Prop :=
  bytes_ok (at_Address t) ∧ len (at_Address t) = 20 ∧ len (at_StorageKeys t) < 2 ^ 32 ∧
  Forall (λ k, bytes_ok k ∧ len k = 32) (at_StorageKeys t).

Definition Transaction_ok (deriveChainId : Z → Z) (tx : Transaction) : Prop :=
  is_u64 (tx_Nonce tx) ∧ is_u64 (tx_Gas tx) ∧ big_ok (tx_GasPrice tx) ∧ big_ok (tx_Value tx) ∧
  (∀ to, tx_To tx = Some to → bytes_ok to ∧ len to = 20) ∧
  bytes_ok (tx_Data tx) ∧ len (tx_Data tx) < 2 ^ 56 ∧ big_ok (tx_V tx) ∧
  0 <= tx_R tx < 2 ^ 256 ∧ 0 <= tx_S tx < 2 ^ 256 ∧
  ((tx_Type tx = LegacyTxType ∧ 255 < tx_Gas tx ∧
    tx_ChainId tx = deriveChainId (tx_V tx) ∧ tx_AccessList tx = []) ∨
   (tx_Type tx = AccessListTxType ∧ big_ok (tx_ChainId tx) ∧
    len (tx_AccessList tx) < 2 ^ 32 ∧ Forall AccessTuple_ok (tx_AccessList tx))).

(** ** Signatures *)

Lemma PaddedBytes_32 z :
  0 <= z < 2 ^ 256 →
  bytes_ok (PaddedBytes (big_Bytes z) 32) ∧ length (PaddedBytes (big_Bytes z) 32) = 32%nat ∧
  big_SetBytes (PaddedBytes (big_Bytes z) 32) = z.
Proof.
  intros Hz. destruct (big_Bytes_spec z ltac:(lia)) as [Hb Hv].
  pose proof (big_Bytes_length z 32 Hz) as Hl. unfold PaddedBytes.
  destruct (Z.leb_spec 32 (len (big_Bytes z))) as [Hge|Hlt]; unfold len in *.
  - split_and!; [done|lia|done].
  - split_and!.
    + apply Forall_app. split; [|done]. by apply Forall_replicate.
    + rewrite length_app, length_replicate. lia.
    + unfold big_SetBytes in *. rewrite foldl_app.
      replace (foldl _ 0 (replicate _ 0)) with 0; [done|].
      generalize (Z.to_nat (32 - Z.of_nat (length (big_Bytes z)))) as n.
      induction n; [done|]. simpl. done.
Qed.

Lemma encodeSig_spec r s :
  0 <= r < 2 ^ 256 → 0 <= s < 2 ^ 256 →
  bytes_ok (encodeSig r s) ∧ len (encodeSig r s) = 64 ∧ decodeSig (encodeSig r s) = (r, s).
Proof.
  intros Hr Hs. destruct (PaddedBytes_32 r Hr) as (Br & Lr & Vr).
  destruct (PaddedBytes_32 s Hs) as (Bs & Ls & Vs). unfold encodeSig, decodeSig.
  rewrite !(take_ge (PaddedBytes _ 32)) by lia. split_and!.
  - by apply Forall_app.
  - unfold len. rewrite length_app. lia.
  - rewrite take_app_length', drop_app_length' by lia. rewrite take_ge by lia. by rewrite Vr, Vs.
Qed.

(** ** Lists *)

Lemma codec_range {A} (wr : A → GoM Writer unit) (rd : GoM Reader A) (l : list A) :
  Forall (λ a, codec (wr a) rd a) l → codec (range_do wr l) (repeat_read (length l) rd) l.
Proof.
  induction 1 as [|a l Ha _ IH]; cbn [range_do repeat_read length]; [apply codec_ret|].
  apply codec_bind with a; [done|]. by apply codec_map with l.
Qed.

Lemma codec_range_len {A} (wr : A → GoM Writer unit) (rd : GoM Reader A) (l : list A) n :
  Forall (λ a, codec (wr a) rd a) l → n = len l →
  codec (range_do wr l) (repeat_read (Z.to_nat n) rd) l.
Proof. intros Hl ->. unfold len. rewrite Nat2Z.id. by apply codec_range. Qed.

Lemma codec_len {A} (l : list A) :
  len l < 2 ^ 32 → codec (Writer_U32 (u32 (len l))) Reader_U32 (len l).
Proof.
  intros. pose proof (len_nonneg l). rewrite u32_id by (unfold is_u32; lia).
  apply codec_U32. unfold is_u32. lia.
Qed.

Lemma codec_AccessTuple t : AccessTuple_ok t → codec (writeAccessTuple t) readAccessTuple t.
Proof.
  destruct t as [addr keys]. intros (Ha & Hla & Hn & Hk). cbn [at_Address at_StorageKeys] in *.
  unfold writeAccessTuple, readAccessTuple. cbn [at_Address at_StorageKeys].
  apply codec_bind with addr; [by apply codec_FixedBytes|].
  apply codec_bind with (len keys); [by apply codec_len|].
  apply codec_map with keys; [|done]. apply codec_range_len; [|done].
  eapply Forall_impl; [exact Hk|]. intros k [? ?]. by apply codec_FixedBytes.
Qed.

Lemma codec_big v : big_ok v → codec (Writer_BigInt v) Reader_BigInt v.
Proof. intros [? ?]. by apply codec_BigInt. Qed.
#[local] Hint Resolve codec_big codec_len : go.

Lemma codec_To (to : option (list Z)) :
  (∀ a, to = Some a → bytes_ok a ∧ len a = 20) →
  codec (match to with Some a => Writer_FixedBytes a | None => mret tt end)
        (if bool_decide (is_Some to) then _to ← Reader_FixedBytes 20; mret (Some _to)
         else mret None) to.
Proof.
  intros Hto. destruct to as [a|].
  - rewrite bool_decide_true by done. destruct (Hto a eq_refl).
    apply codec_map with a; [by apply codec_FixedBytes|done].
  - rewrite bool_decide_false by (by intros []). apply codec_ret.
Qed.

(** ** The fields after the type *)

Definition marshalFields (tx : Transaction) : GoM Writer unit :=
  _ ← Writer_BigInt (tx_GasPrice tx);
  _ ← Writer_BigInt (tx_Value tx);
  _ ← Writer_Bool (bool_decide (is_Some (tx_To tx)));
  _ ← match tx_To tx with Some to => Writer_FixedBytes to | None => mret tt end;
  _ ← Writer_SliceBytes (tx_Data tx);
  _ ← Writer_BigInt (tx_V tx);
  let sig := encodeSig (tx_R tx) (tx_S tx) in
  _ ← Writer_FixedBytes sig;
  if tx_Type tx =? LegacyTxType then mret tt
  else if tx_Type tx =? AccessListTxType then
    _ ← Writer_BigInt (tx_ChainId tx);
    _ ← Writer_U32 (u32 (len (tx_AccessList tx)));
    range_do writeAccessTuple (tx_AccessList tx)
  else throw ErrUnknownTxType.

Definition unmarshalFields (deriveChainId : Z → Z) (txType nonce gasLimit : Z)
  : GoM Reader Transaction :=
  gasPrice ← Reader_BigInt;
  amount ← Reader_BigInt;
  toExists ← Reader_Bool;
  to ← (if toExists : bool then _to ← Reader_FixedBytes 20; mret (Some _to) else mret None);
  data ← Reader_SliceBytes;
  v ← Reader_BigInt;
  sig ← Reader_FixedBytes 64;
  let '(_r, s) := decodeSig sig in
  if txType =? LegacyTxType then
    mret (NewLegacyTx deriveChainId nonce gasLimit gasPrice amount to data v _r s)
  else if txType =? AccessListTxType then
    chainID ← Reader_BigInt;
    accessListLen ← Reader_U32;
    accessList ← repeat_read (Z.to_nat accessListLen) readAccessTuple;
    mret (mkTransaction AccessListTxType nonce gasLimit gasPrice amount to data v _r s
            chainID accessList)
  else throw ErrUnknownTxType.

Lemma codec_fields dci tx :
  Transaction_ok dci tx →
  codec (marshalFields tx) (unmarshalFields dci (tx_Type tx) (tx_Nonce tx) (tx_Gas tx)) tx.
Proof.
  intros (_ & _ & Hgp & Hval & Hto & Hdata & Hdl & Hv & Hr & Hs & Htype).
  destruct (encodeSig_spec _ _ Hr Hs) as (Hsig & Hsl & Hdec).
  unfold marshalFields, unmarshalFields.
  apply codec_bind with (tx_GasPrice tx); [auto with go|].
  apply codec_bind with (tx_Value tx); [auto with go|].
  apply codec_bind with (bool_decide (is_Some (tx_To tx))); [auto with go|].
  apply codec_bind with (tx_To tx); [by apply codec_To|].
  apply codec_bind with (tx_Data tx); [auto with go|].
  apply codec_bind with (tx_V tx); [auto with go|].
  apply codec_bind with (encodeSig (tx_R tx) (tx_S tx)); [by apply codec_FixedBytes|].
  rewrite Hdec. destruct tx as [ty n g gp va to d v r s ci al]; cbn in *.
  destruct Htype as [(-> & _ & -> & ->)|(-> & Hci & Hal & Hall)]; [apply codec_ret|].
  change (AccessListTxType =? LegacyTxType) with false.
  change (AccessListTxType =? AccessListTxType) with true. cbn iota.
  apply codec_bind with ci; [auto with go|].
  apply codec_bind with (len al); [auto with go|].
  apply codec_map with al; [|done]. apply codec_range_len; [|done].
  eapply Forall_impl; [exact Hall|]. apply codec_AccessTuple.
Qed.

(** Looking at the first six bits does not consume them. *)
Lemma reads_view {A} (k : Z → GoM Reader A) pre rest ys a :
  length pre = 6%nat → reads (k (Z_of_bits pre)) (pre ++ rest) ys a →
  reads (x ← on_BitsR (View 6); k x) (pre ++ rest) ys a.
Proof.
  intros Hpre Hk [rb ry] kb ky [Hrb Hry] Hb Hy. cbn [BitsR BytesR] in *.
  destruct (Read_spec 6 rb Hrb) as (rb' & E & _); [lia| |].
  { rewrite Hb, !length_app. lia. }
  rewrite GoM_bind_Ok with (a := Z_of_bits pre) (s' := Cser.mkReader rb ry).
  - by apply (Hk (Cser.mkReader rb ry) kb ky).
  - unfold on_BitsR, View. cbn [BitsR BytesR]. rewrite E. do 3 f_equal.
    rewrite Hb, <- app_assoc. by apply take_app_length'.
Qed.

(** The two functions as a header and the common fields. *)
Definition marshalHeader (tx : Transaction) : GoM Writer unit :=
  if negb (tx_Type tx =? LegacyTxType) then
    _ ← on_BitsW (Write 6 0);
    Writer_U8 (tx_Type tx)
  else if tx_Gas tx <=? 255 then throw errSmallGasLimit
  else mret tt.

Definition marshalRest (tx : Transaction) : GoM Writer unit :=
  _ ← Writer_U64 (tx_Nonce tx); _ ← Writer_U64 (tx_Gas tx); marshalFields tx.

Definition unmarshalRest (dci : Z → Z) (txType : Z) : GoM Reader Transaction :=
  nonce ← Reader_U64; gasLimit ← Reader_U64; unmarshalFields dci txType nonce gasLimit.

Lemma TransactionMarshalCSER_split tx :
  TransactionMarshalCSER tx = (_ ← marshalHeader tx; marshalRest tx).
Proof. reflexivity. Qed.

Lemma TransactionUnmarshalCSER_split dci :
  TransactionUnmarshalCSER dci =
  (marker ← on_BitsR (View 6);
   txType ← (if marker =? 0 then _ ← on_BitsR (Read 6); Reader_U8 else mret LegacyTxType);
   unmarshalRest dci txType).
Proof. reflexivity. Qed.

Section roundtrip.
Variable dci : Z → Z.

(** A typed transaction: six zero bits, the type, the fields. *)
Lemma codec_typed tx :
  Transaction_ok dci tx → tx_Type tx = AccessListTxType →
  codec (TransactionMarshalCSER tx) (TransactionUnmarshalCSER dci) tx.
Proof.
  intros Hok Hty. pose proof (codec_fields dci tx Hok) as Hfields.
  destruct Hok as (Hn & Hg & _).
  destruct (codec_U8 AccessListTxType) as (b1 & y1 & W1 & R1); [done|].
  assert (Hrest : codec (marshalRest tx) (unmarshalRest dci AccessListTxType) tx).
  { apply codec_bind with (tx_Nonce tx); [by apply codec_U64|].
    apply codec_bind with (tx_Gas tx); [by apply codec_U64|]. by rewrite <- Hty. }
  destruct Hrest as (b2 & y2 & W2 & R2).
  exists (bits_of_Z 6 0 ++ (b1 ++ b2)), ([] ++ (y1 ++ y2)).
  rewrite TransactionMarshalCSER_split, TransactionUnmarshalCSER_split. split.
  - rewrite !app_assoc. eapply writes_bind; [|exact W2].
    unfold marshalHeader. rewrite Hty.
    change (negb (AccessListTxType =? LegacyTxType)) with true. cbn iota.
    by eapply writes_bind; [apply (writes_bits 6 0)|exact W1].
  - apply reads_view; [done|].
    change (Z_of_bits (bits_of_Z 6 0) =? 0) with true. cbn iota.
    rewrite !app_assoc. eapply reads_bind; [|exact R2].
    by eapply reads_bind; [apply (reads_bits 6 0)|exact R1].
Qed.

(** A legacy transaction: its first six bits are the two sizes, not all zero. *)
Lemma codec_legacy tx :
  Transaction_ok dci tx → tx_Type tx = LegacyTxType →
  codec (TransactionMarshalCSER tx) (TransactionUnmarshalCSER dci) tx.
Proof.
  intros Hok Hty. pose proof (codec_fields dci tx Hok) as (b3 & y3 & W3 & R3).
  pose proof Hok as (Hn & Hg & _ & _ & _ & _ & _ & _ & _ & _ & Ht).
  assert (Hgas : 255 < tx_Gas tx).
  { destruct Ht as [(_ & ? & _)|(Ht & _)]; [done|]. by rewrite Hty in Ht. }
  destruct (codec_U64_bits 1 3 (tx_Nonce tx) 8) as (s1 & y1 & Hs1 & _ & W1 & R1); [done..|].
  destruct (codec_U64_bits 1 3 (tx_Gas tx) 8) as (s2 & y2 & Hs2 & Hbig & W2 & R2); [done..|].
  specialize (Hbig ltac:(lia)). change (Z.to_nat 3) with 3%nat in *.
  assert (W : writes (marshalRest tx)
    (bits_of_Z 3 (s1 - 1) ++ bits_of_Z 3 (s2 - 1) ++ b3) (y1 ++ y2 ++ y3)).
  { apply (writes_bind W1). apply (writes_bind W2 W3). }
  assert (R : reads (unmarshalRest dci (tx_Type tx))
    (bits_of_Z 3 (s1 - 1) ++ bits_of_Z 3 (s2 - 1) ++ b3) (y1 ++ y2 ++ y3) tx).
  { apply (reads_bind R1). apply (reads_bind R2 R3). }
  rewrite Hty in R. rewrite app_assoc in W, R.
  eexists ([] ++ _), ([] ++ _). rewrite TransactionMarshalCSER_split, TransactionUnmarshalCSER_split.
  split.
  - eapply writes_bind; [|exact W]. unfold marshalHeader. rewrite Hty.
    rewrite (proj2 (Z.leb_gt _ _)) by done. apply writes_ret.
  - cbn [app]. apply reads_view; [by rewrite length_app, !length_bits_of_Z|].
    rewrite Z_of_bits_app, length_bits_of_Z, !Z_of_bits_id by (simpl; lia).
    change (2 ^ Z.of_nat 3) with 8. rewrite (proj2 (Z.eqb_neq _ _)) by lia.
    eapply (reads_bind (b1 := []) (y1 := [])); [apply reads_ret|exact R].
Qed.

Lemma codec_Transaction tx :
  Transaction_ok dci tx → codec (TransactionMarshalCSER tx) (TransactionUnmarshalCSER dci) tx.
Proof.
  intros Hok. pose proof Hok as (_ & _ & _ & _ & _ & _ & _ & _ & _ & _ & [(Ht & _)|(Ht & _)]).
  - by apply codec_legacy.
  - by apply codec_typed.
Qed.
End roundtrip.
