(* ===== verification/EventSer.v ===== *)
(** * Event serialization (inter/event_serializer.go, the hashing part of inter/event.go)

    [EventPayload_UnmarshalBinary] applied to the output of
    [EventPayload_MarshalBinary] gives the event back, with its identifier, hash
    and size recomputed ([event_binary_roundtrip]).  The parameters are the hash
    function, the hash of the empty transaction list and the derivation of a
    legacy transaction's chain id, all computed by code outside the repository. *)

From S2P Require Import Prelude Bits Fast Cser Inter Instances TxSer.

Definition ErrSerMalformedEvent : error := NewError "inter.ErrSerMalformedEvent".

(** The median time is stored as a difference that may wrap around. *)
Lemma medianTime_diff ct mt :
  is_u64 mt → u64 (i64 (i64 ct - i64 (i64 ct - i64 mt))) = mt.
Proof. intros. go_lia. Qed.

Section serializer.
Context {EventID : Type} `{EventIDs EventID}.
Variable sha256 : list Z → list Z.
Variable EmptyTxHash : list Z.
Variable deriveChainId : Z → Z.

(** ** Encoding *)

(** The loop over the parents: a Lamport difference and the last 24 bytes. *)
Definition writeParent (lamport : Z) (p : EventID) : GoM Writer unit :=
  if lamport <? id_Lamport p then throw ErrSerMalformedEvent
  else
    _ ← Writer_U32 (u32 (lamport - id_Lamport p));
    Writer_FixedBytes (drop 8 (id_Bytes p)).

Definition Event_MarshalCSER (e : Event EventID) : GoM Writer unit :=
  let b := ev_base e in
  let x := ev_ext e in
  _ ← Writer_U32 (Epoch b);
  _ ← Writer_U32 (Lamport b);
  _ ← Writer_U32 (Creator b);
  _ ← Writer_U32 (Seq b);
  _ ← Writer_U32 (Frame b);
  _ ← Writer_U64 (creationTime x);
  let medianTimeDiff := i64 (i64 (creationTime x) - i64 (medianTime x)) in
  _ ← Writer_I64 medianTimeDiff;
  _ ← Writer_U64 (gasPowerUsed x);
  _ ← Writer_U64 (default 0 (Gas_at (gasPowerLeft x) 0));
  _ ← Writer_U64 (default 0 (Gas_at (gasPowerLeft x) 1));
  _ ← Writer_U32 (u32 (len (Parents b)));
  _ ← range_do (writeParent (Lamport b)) (Parents b);
  _ ← Writer_Bool (bool_decide (is_Some (prevEpochHash x)));
  _ ← match prevEpochHash x with Some h => Writer_FixedBytes h | None => mret tt end;
  _ ← Writer_Bool (negb (NoTxs EmptyTxHash x));
  _ ← (if negb (NoTxs EmptyTxHash x) then Writer_FixedBytes (txHash x) else mret tt);
  Writer_SliceBytes (extra x).

Definition Event_MarshalBinary (e : Event EventID) : res (list Z) :=
  MarshalBinaryAdapter (Event_MarshalCSER e).

(** ** Decoding *)

Definition readParent (epoch lamport : Z) : GoM Reader EventID :=
  lamportDiff ← Reader_U32;
  h ← Reader_FixedBytes 24;
  mret (mk_ID epoch (u32 (lamport - lamportDiff)) h).

(** The setters of [MutableEventPayload] write every field but the signature,
    the transactions and the identifier. *)
Definition eventUnmarshalCSER (e : MutableEventPayload EventID)
  : GoM Reader (MutableEventPayload EventID) :=
  epoch ← Reader_U32;
  lamport ← Reader_U32;
  creator ← Reader_U32;
  seq ← Reader_U32;
  frame ← Reader_U32;
  creationTime ← Reader_U64;
  medianTimeDiff ← Reader_I64;
  gasPowerUsed ← Reader_U64;
  gasPowerLeft0 ← Reader_U64;
  gasPowerLeft1 ← Reader_U64;
  parentsNum ← Reader_U32;
  parents ← repeat_read (Z.to_nat parentsNum) (readParent epoch lamport);
  prevEpochHashExists ← Reader_Bool;
  prevEpochHash ← (if prevEpochHashExists : bool
                   then h ← Reader_FixedBytes 32; mret (Some h) else mret None);
  txHashExists ← Reader_Bool;
  txHash ← (if txHashExists : bool then
              h ← Reader_FixedBytes 32;
              if bool_decide (h = EmptyTxHash) then throw ErrNonCanonicalEncoding else mret h
            else mret EmptyTxHash);
  extra ← Reader_SliceBytes;
  mret (mkMutableEventPayload
    (mkBaseEvent epoch seq frame creator lamport parents (ID (me_base e)))
    (mkExtEventData creationTime (u64 (i64 (i64 creationTime - medianTimeDiff)))
      prevEpochHash txHash (mkGasPowerLeft [gasPowerLeft0; gasPowerLeft1]) gasPowerUsed extra)
    (me_sig e) (me_txs e)).

(** ** Payload *)

Definition EventPayload_MarshalCSER (e : EventPayload EventID) : GoM Writer unit :=
  let noTxs := NoTxs EmptyTxHash (ev_ext (ep_event e)) in
  if negb (Bool.eqb noTxs (len (ep_txs e) =? 0)) then throw ErrSerMalformedEvent
  else
    _ ← Event_MarshalCSER (ep_event e);
    _ ← Writer_FixedBytes (ep_sig e);
    if negb noTxs then
      _ ← Writer_U56 (u64 (len (ep_txs e)));
      range_do TransactionMarshalCSER (ep_txs e)
    else mret tt.

Definition MutableEventPayload_UnmarshalCSER (e : MutableEventPayload EventID)
  : GoM Reader (MutableEventPayload EventID) :=
  e ← eventUnmarshalCSER e;
  sig ← Reader_FixedBytes 64;
  txs ← (if negb (NoTxs EmptyTxHash (me_ext e)) then
           size ← Reader_U56;
           repeat_read (Z.to_nat size) (TransactionUnmarshalCSER deriveChainId)
         else mret []);
  mret (mkMutableEventPayload (me_base e) (me_ext e) sig txs).

Definition EventPayload_MarshalBinary (e : EventPayload EventID) : res (list Z) :=
  MarshalBinaryAdapter (EventPayload_MarshalCSER e).

Definition MutableEventPayload_UnmarshalBinary (e : MutableEventPayload EventID)
    (raw spare : list Z) : res (MutableEventPayload EventID) :=
  UnmarshalBinaryAdapter raw spare (MutableEventPayload_UnmarshalCSER e).

(** ** Hashing and building (inter/event.go) *)

Definition eventHash (eventSer : list Z) : list Z := sha256 eventSer.

(** A value whose error is ignored: [eventSer, _ := ...] gives nil on an error. *)
Definition ignore_err (r : res (list Z)) : res (list Z) :=
  match r with Err _ => Ok [] | _ => r end.

Definition MutableEventPayload_hashToSign (e : MutableEventPayload EventID) : res (list Z) :=
  match Event_MarshalBinary (ep_event (immutable e)) with
  | Ok b => Ok (eventHash b)
  | _ => Panic
  end.

Definition MutableEventPayload_size (e : MutableEventPayload EventID) : res Z :=
  match EventPayload_MarshalBinary (immutable e) with
  | Ok b => Ok (len b)
  | _ => Panic
  end.

Definition MutableEventPayload_Build (e : MutableEventPayload EventID)
  : res (EventPayload EventID) :=
  let x := me_ext e in
  let e := if len (me_txs e) <? 1
           then mkMutableEventPayload (me_base e)
                  (mkExtEventData (creationTime x) (medianTime x) (prevEpochHash x) EmptyTxHash
                    (gasPowerLeft x) (gasPowerUsed x) (extra x)) (me_sig e) (me_txs e)
           else e in
  eventSer ← ignore_err (Event_MarshalBinary (ep_event (immutable e)));
  let h := eventHash eventSer in
  payloadSer ← ignore_err (EventPayload_MarshalBinary (immutable e));
  Ok (build e h (len payloadSer)).

(** The zero value [MutableEventPayload{}]. *)
Definition zeroMutable : MutableEventPayload EventID :=
  mkMutableEventPayload (mkBaseEvent 0 0 0 0 0 [] zero_ID)
    (mkExtEventData 0 0 None (replicate 32 0) GasPowerLeft_zero 0 []) (replicate 64 0) [].

Definition EventPayload_UnmarshalBinary (raw spare : list Z) : res (EventPayload EventID) :=
  mutE ← MutableEventPayload_UnmarshalBinary zeroMutable raw spare;
  eventSer ← ignore_err (Event_MarshalBinary (ep_event (immutable mutE)));
  let h := eventHash eventSer in
  Ok (build mutE h (len raw)).

(** ** Well-formed events *)

Definition Event_ok (b : baseEvent EventID) (x : extEventData) : Prop :=
  is_u32 (Epoch b) ∧ is_u32 (Lamport b) ∧ is_u32 (Creator b) ∧ is_u32 (Seq b) ∧
  is_u32 (Frame b) ∧ is_u64 (creationTime x) ∧ is_u64 (medianTime x) ∧
  is_u64 (gasPowerUsed x) ∧ GasPowerLeft_ok (gasPowerLeft x) ∧
  len (Parents b) < 2 ^ 32 ∧
  Forall (λ p, id_Epoch p = Epoch b ∧ id_Lamport p <= Lamport b) (Parents b) ∧
  (∀ h, prevEpochHash x = Some h → bytes_ok h ∧ len h = 32) ∧
  bytes_ok (txHash x) ∧ len (txHash x) = 32 ∧
  bytes_ok (extra x) ∧ len (extra x) < 2 ^ 56.

Definition Payload_ok (b : baseEvent EventID) (x : extEventData) (sig : list Z)
    (txs : list Transaction) : Prop :=
  Event_ok b x ∧ bytes_ok sig ∧ len sig = SigSize ∧
  (NoTxs EmptyTxHash x = true ↔ txs = []) ∧
  len txs < 2 ^ 56 ∧ Forall (Transaction_ok deriveChainId) txs.

(** ** The codec of an event *)

Context `{!EventIDsLaws EventID}.

Lemma codec_Parent epoch lamport p :
  is_u32 lamport → id_Epoch p = epoch → id_Lamport p <= lamport →
  codec (writeParent lamport p) (readParent epoch lamport) p.
Proof.
  intros Hl <- Hle. pose proof (id_Lamport_range p) as Hp. unfold writeParent, readParent.
  rewrite (proj2 (Z.ltb_ge _ _)) by lia.
  apply codec_bind with (lamport - id_Lamport p).
  { rewrite u32_id by (unfold is_u32 in *; lia). apply codec_U32. unfold is_u32 in *. lia. }
  apply codec_map with (drop 8 (id_Bytes p)).
  - apply codec_FixedBytes; [by apply Forall_drop, id_Bytes_ok|].
    pose proof (id_Bytes_len p). unfold len in *. rewrite length_drop. lia.
  - rewrite u32_id by (unfold is_u32 in *; lia).
    replace (lamport - (lamport - id_Lamport p)) with (id_Lamport p) by lia.
    by rewrite mk_ID_eta.
Qed.

Lemma codec_prevEpochHash (h : option (list Z)) :
  (∀ h', h = Some h' → bytes_ok h' ∧ len h' = 32) →
  codec (match h with Some h => Writer_FixedBytes h | None => mret tt end)
    (if bool_decide (is_Some h) then h ← Reader_FixedBytes 32; mret (Some h) else mret None) h.
Proof.
  intros Hh. destruct h as [h|]; [rewrite bool_decide_true by done|].
  - destruct (Hh h eq_refl). apply codec_map with h; [by apply codec_FixedBytes|done].
  - rewrite bool_decide_false by (by intros []). apply codec_ret.
Qed.

Lemma codec_txHash (x : extEventData) :
  bytes_ok (txHash x) → len (txHash x) = 32 →
  codec (if negb (NoTxs EmptyTxHash x) then Writer_FixedBytes (txHash x) else mret tt)
    (if negb (NoTxs EmptyTxHash x) then
       h ← Reader_FixedBytes 32;
       if bool_decide (h = EmptyTxHash) then throw ErrNonCanonicalEncoding else mret h
     else mret EmptyTxHash) (txHash x).
Proof.
  intros Hb Hl. unfold NoTxs. case_bool_decide as Hx; cbn [negb].
  - rewrite Hx. apply codec_ret.
  - apply codec_map with (txHash x); [by apply codec_FixedBytes|].
    by rewrite bool_decide_false.
Qed.

(** What decoding an event into [e0] gives: everything but the identifier, the
    signature and the transactions. *)
Definition decoded (e0 : MutableEventPayload EventID) (e : Event EventID) :=
  let b := ev_base e in
  mkMutableEventPayload
    (mkBaseEvent (Epoch b) (Seq b) (Frame b) (Creator b) (Lamport b) (Parents b)
      (ID (me_base e0)))
    (ev_ext e) (me_sig e0) (me_txs e0).

Lemma codec_Event e0 e :
  Event_ok (ev_base e) (ev_ext e) →
  codec (Event_MarshalCSER e) (eventUnmarshalCSER e0) (decoded e0 e).
Proof.
  clear sha256 deriveChainId.
  destruct e as [[ep sq fr cr la ps id] [ct mt peh th gpl gpu ex] hh]. unfold decoded.
  intros (? & ? & ? & ? & ? & ? & ? & ? & [Hg2 Hg] & ? & Hps & ? & ? & ? & ? & ?).
  destruct gpl as [[|g0 [|g1 []]]]; try discriminate. cbn in *.
  apply Forall_cons in Hg as [? Hg]. apply Forall_cons in Hg as [? _].
  unfold Event_MarshalCSER, eventUnmarshalCSER. cbn.
  do 6 (eapply codec_bind; [by auto with go|]).
  eapply codec_bind; [apply codec_I64, i64_range|].
  do 3 (eapply codec_bind; [by auto with go|]).
  apply codec_bind with (len ps); [by apply codec_len|].
  apply codec_bind with ps.
  { apply codec_range_len; [|done]. eapply Forall_impl; [exact Hps|].
    intros p [? ?]. by apply codec_Parent. }
  eapply codec_bind; [apply codec_Bool|].
  eapply codec_bind; [by apply codec_prevEpochHash|].
  eapply codec_bind; [apply codec_Bool|].
  eapply codec_bind; [by apply codec_txHash|]. cbn.
  eapply codec_map; [by apply codec_SliceBytes|].
  by rewrite medianTime_diff.
Qed.

(** ** The codec of a payload *)

Definition EventPayload_ok (e : EventPayload EventID) : Prop :=
  Payload_ok (ev_base (ep_event e)) (ev_ext (ep_event e)) (ep_sig e) (ep_txs e).

Definition decodedPayload (e0 : MutableEventPayload EventID) (e : EventPayload EventID) :=
  mkMutableEventPayload (me_base (decoded e0 (ep_event e))) (ev_ext (ep_event e))
    (ep_sig e) (ep_txs e).

Lemma codec_EventPayload e0 e :
  EventPayload_ok e →
  codec (EventPayload_MarshalCSER e) (MutableEventPayload_UnmarshalCSER e0)
    (decodedPayload e0 e).
Proof.
  intros (Hev & Hsig & Hsl & Htx & Htl & Htxs). pose proof (len_nonneg (ep_txs e)).
  unfold EventPayload_MarshalCSER, MutableEventPayload_UnmarshalCSER.
  replace (Bool.eqb _ _) with true; cbn [negb].
  2: { symmetry. apply Bool.eqb_true_iff. destruct (NoTxs EmptyTxHash _).
       - by rewrite (proj1 Htx eq_refl).
       - symmetry. apply Z.eqb_neq. intros Hz. unfold len in Hz.
         assert (false = true) by (apply Htx, nil_length_inv; lia). done. }
  apply codec_bind with (decoded e0 (ep_event e)); [by apply codec_Event|].
  apply codec_bind with (ep_sig e); [by apply codec_FixedBytes|].
  eapply codec_map with (ep_txs e); [|done]. unfold decoded. cbn [me_ext].
  destruct (NoTxs EmptyTxHash _); cbn [negb].
  - rewrite (proj1 Htx eq_refl). apply codec_ret.
  - rewrite u64_id by (unfold is_u64; lia).
    apply codec_bind with (len (ep_txs e)); [apply codec_U56; lia|].
    apply codec_range_len; [|done]. eapply Forall_impl; [exact Htxs|].
    apply codec_Transaction.
Qed.

(** Neither the identifier nor the hash nor the size is encoded. *)
Lemma Event_MarshalBinary_decoded e0 e h n :
  Event_MarshalBinary (ep_event (build (decodedPayload e0 e) h n)) =
  Event_MarshalBinary (ep_event e).
Proof. by destruct e as [[[] []] ? ? ?]. Qed.

Lemma EventPayload_MarshalBinary_total e :
  EventPayload_ok e → ∃ raw, EventPayload_MarshalBinary e = Ok raw.
Proof. intros. by eapply adapter_total, (codec_EventPayload zeroMutable). Qed.

Lemma Event_MarshalBinary_total e :
  Event_ok (ev_base e) (ev_ext e) → ∃ ser, Event_MarshalBinary e = Ok ser.
Proof. intros. by eapply adapter_total, (codec_Event zeroMutable). Qed.

(** Decoding an encoded event recomputes its identifier, hash and size. *)
Lemma EventPayload_UnmarshalBinary_spec e raw spare :
  EventPayload_ok e → EventPayload_MarshalBinary e = Ok raw → len raw < 2 ^ 63 →
  ∃ ser, Event_MarshalBinary (ep_event e) = Ok ser ∧
    EventPayload_UnmarshalBinary raw spare =
    Ok (build (decodedPayload zeroMutable e) (eventHash ser) (len raw)).
Proof.
  intros Hok Hm Hl. destruct (Event_MarshalBinary_total (ep_event e)) as [ser Hser].
  { apply Hok. }
  exists ser. split; [done|]. unfold EventPayload_UnmarshalBinary.
  unfold MutableEventPayload_UnmarshalBinary.
  rewrite (adapter_roundtrip _ _ _ _ _ (codec_EventPayload zeroMutable e Hok) Hm Hl).
  cbn [mbind res_bind]. unfold immutable. rewrite Event_MarshalBinary_decoded, Hser. done.
Qed.

(** An event as [Build] makes it: identifier, hash and size are what the
    encoding determines. *)
Definition built (e : EventPayload EventID) : Prop :=
  ∃ ser raw, Event_MarshalBinary (ep_event e) = Ok ser ∧
    EventPayload_MarshalBinary e = Ok raw ∧
    ev_hash (ep_event e) = eventHash ser ∧ ep_size e = len raw ∧
    ID (ev_base (ep_event e)) =
      mk_ID (Epoch (ev_base (ep_event e))) (Lamport (ev_base (ep_event e)))
        (calcEventID (eventHash ser)).

Lemma Build_built me e :
  MutableEventPayload_Build me = Ok e → EventPayload_ok e → built e.
Proof.
  unfold MutableEventPayload_Build. intros HB Hok.
  destruct (Event_MarshalBinary_total (ep_event e)) as [ser Hser]; [apply Hok|].
  destruct (EventPayload_MarshalBinary_total e Hok) as [raw Hraw].
  exists ser, raw.
  set (me' := if len (me_txs me) <? 1 then _ else me) in HB.
  cbv zeta in HB.
  destruct (ignore_err (Event_MarshalBinary _)) as [es| |] eqn:E1; try discriminate.
  cbn [mbind res_bind] in HB.
  destruct (ignore_err (EventPayload_MarshalBinary _)) as [ps| |] eqn:E2; try discriminate.
  cbn [mbind res_bind] in HB. injection HB as <-.
  change (Event_MarshalBinary (ep_event (immutable me'))) with
    (Event_MarshalBinary (ep_event (build me' (eventHash es) (len ps)))) in E1.
  change (EventPayload_MarshalBinary (immutable me')) with
    (EventPayload_MarshalBinary (build me' (eventHash es) (len ps))) in E2.
  rewrite Hser in E1. rewrite Hraw in E2. cbn in E1, E2. simplify_eq. done.
Qed.

Lemma built_roundtrip e raw spare :
  EventPayload_ok e → built e → EventPayload_MarshalBinary e = Ok raw → len raw < 2 ^ 63 →
  EventPayload_UnmarshalBinary raw spare = Ok e.
Proof.
  intros Hok (ser & raw' & Hser & Hraw' & Hh & Hs & Hid) Hraw Hl.
  destruct (EventPayload_UnmarshalBinary_spec e raw spare Hok Hraw Hl) as (ser' & Hser' & ->).
  rewrite Hser in Hser'. rewrite Hraw in Hraw'. simplify_eq.
  destruct e as [[[] []] ? ? ?]; cbn in *. by subst.
Qed.

Lemma writeParents_lamport lamport ps w w' :
  range_do (writeParent lamport) ps w = Ok (tt, w') →
  Forall (λ p, id_Lamport p <= lamport) ps.
Proof.
  revert w. induction ps as [|p ps IH]; intros w E; [constructor|].
  cbn [range_do] in E. invert_bind E. constructor; [|by eapply IH].
  unfold writeParent in Hm. destruct (Z.ltb_spec lamport (id_Lamport p)); [done|lia].
Qed.

(** ** The theorems *)

(** C1: an event made by [Build], encoded and decoded, is the same event: every
    field, the transactions, and the recomputed identifier, hash and size. *)
Theorem event_binary_roundtrip me e raw spare :
  MutableEventPayload_Build me = Ok e → EventPayload_ok e →
  EventPayload_MarshalBinary e = Ok raw → len raw < 2 ^ 63 →
  EventPayload_UnmarshalBinary raw spare = Ok e.
Proof. intros HB Hok. apply built_roundtrip; [done|]. by eapply Build_built. Qed.

(** Every well-formed payload is encoded without an error. *)
Theorem event_marshal_total e :
  EventPayload_ok e → ∃ raw, EventPayload_MarshalBinary e = Ok raw.
Proof. apply EventPayload_MarshalBinary_total. Qed.

(** the part of an event that is hashed and signed determines the event:
    well-formed events with one encoding have the same fields. *)
Theorem event_hash_preimage_injective e1 e2 ser :
  Event_ok (ev_base e1) (ev_ext e1) → Event_ok (ev_base e2) (ev_ext e2) →
  Event_MarshalBinary e1 = Ok ser → Event_MarshalBinary e2 = Ok ser → len ser < 2 ^ 63 →
  decoded zeroMutable e1 = decoded zeroMutable e2.
Proof.
  intros H1 H2 M1 M2 Hl.
  pose proof (adapter_roundtrip _ _ _ _ [] (codec_Event zeroMutable e1 H1) M1 Hl) as E1.
  pose proof (adapter_roundtrip _ _ _ _ [] (codec_Event zeroMutable e2 H2) M2 Hl) as E2.
  congruence.
Qed.

(** The encoder refuses an event whose parent has a higher Lamport time than
    its own, whatever the other fields hold. *)
Theorem event_marshal_parents_lamport e raw :
  Event_MarshalBinary e = Ok raw →
  Forall (λ p, id_Lamport p <= Lamport (ev_base e)) (Parents (ev_base e)).
Proof.
  unfold Event_MarshalBinary, MarshalBinaryAdapter. intros HM.
  destruct (Event_MarshalCSER e _) as [[[] w]| |] eqn:E; try discriminate. clear HM.
  unfold Event_MarshalCSER in E. do 11 (invert_bind E). cbv zeta in E.
  invert_bind E. destruct a10. by eapply writeParents_lamport.
Qed.
End serializer.

(** ** Concrete inputs

    A hash that truncates its input, an empty-list hash of sevens, and an event
    with one parent and one legacy transaction. *)

Definition demo_sha256 (l : list Z) : list Z := take 32 (l ++ replicate 32 0).
Definition demo_EmptyTxHash : list Z := replicate 32 7.
Definition demo_deriveChainId (v : Z) : Z := (v - 35) / 2.

Definition demo_tx : Transaction :=
  mkTransaction LegacyTxType 5 21000 1000000000 7 (Some (replicate 20 1)) [1; 2; 3]
    4039 11 12 (demo_deriveChainId 4039) [].

Definition demo_parent : Hash := mk_ID 3 9 (replicate 24 5).

Definition demo_mutable : MutableEventPayload Hash :=
  mkMutableEventPayload (mkBaseEvent 3 2 4 1 10 [demo_parent] zero_ID)
    (mkExtEventData 1000 1003 (Some (replicate 32 2)) (replicate 32 8)
      (mkGasPowerLeft [70000; 80000]) 21000 [9; 9])
    (replicate 64 4) [demo_tx].

Definition demo_ser : list Z :=
  match Event_MarshalBinary demo_EmptyTxHash (ep_event (immutable demo_mutable)) with
  | Ok raw => raw
  | _ => []
  end.

Definition demo_raw : list Z :=
  match EventPayload_MarshalBinary demo_EmptyTxHash (immutable demo_mutable) with
  | Ok raw => raw
  | _ => []
  end.

Definition demo_event : EventPayload Hash :=
  build demo_mutable (eventHash demo_sha256 demo_ser) (len demo_raw).

Ltac by_computation := solve [apply (bool_decide_unpack _); vm_compute; exact I | done].

Lemma demo_tx_ok : Transaction_ok demo_deriveChainId demo_tx.
Proof.
  unfold Transaction_ok. split_and!; try by_computation.
  intros to [= <-]. split; by_computation.
Qed.

Lemma demo_ok h n :
  EventPayload_ok demo_EmptyTxHash demo_deriveChainId (build demo_mutable h n).
Proof.
  unfold EventPayload_ok, Payload_ok, Event_ok, GasPowerLeft_ok.
  cbn [ep_event ep_sig ep_txs build ev_base ev_ext demo_mutable me_base me_ext me_sig me_txs
    Epoch Seq Frame Creator Lamport Parents creationTime medianTime prevEpochHash txHash
    gasPowerLeft gasPowerUsed extra].
  split_and!; try by_computation.
  - intros h' [= <-]. split; by_computation.
  - apply Forall_singleton, demo_tx_ok.
Qed.

Lemma event_binary_roundtrip_witness :
  EventPayload_UnmarshalBinary demo_sha256 demo_EmptyTxHash demo_deriveChainId demo_raw [] =
  Ok demo_event.
Proof.
  apply (event_binary_roundtrip _ _ _ demo_mutable demo_event demo_raw []).
  - vm_compute. reflexivity.
  - apply demo_ok.
  - vm_compute. reflexivity.
  - vm_compute. reflexivity.
Defined.

Lemma event_marshal_total_witness :
  ∃ raw, EventPayload_MarshalBinary demo_EmptyTxHash demo_event = Ok raw.
Proof. apply (event_marshal_total _ demo_deriveChainId demo_event), demo_ok. Defined.

Lemma event_hash_preimage_injective_witness :
  decoded zeroMutable (ep_event demo_event) = decoded zeroMutable (ep_event (immutable demo_mutable)).
Proof.
  apply (event_hash_preimage_injective demo_EmptyTxHash (ep_event demo_event)
           (ep_event (immutable demo_mutable)) demo_ser).
  - apply demo_ok.
  - apply demo_ok.
  - vm_compute. reflexivity.
  - vm_compute. reflexivity.
  - vm_compute. reflexivity.
Defined.

Lemma event_marshal_parents_lamport_witness :
  Event_MarshalBinary demo_EmptyTxHash (ep_event demo_event) = Ok demo_ser ∧
  Forall (λ p, id_Lamport p <= Lamport (ev_base (ep_event demo_event)))
    (Parents (ev_base (ep_event demo_event))).
Proof.
  assert (E : Event_MarshalBinary demo_EmptyTxHash (ep_event demo_event) = Ok demo_ser)
    by (vm_compute; reflexivity).
  split; [exact E|].
  exact (event_marshal_parents_lamport demo_EmptyTxHash (ep_event demo_event) demo_ser E).
Defined.
