(* ===== verification/Heap.v ===== *)
(** * Priority queues and map iteration: what the pool uses of Go's library

    [container/heap] keeps a slice in heap order: its documented contract is that
    the first element is a minimum, that [Push], [Pop], [Remove] and [Init] keep
    the order, and that they insert, extract and rearrange elements and nothing
    else.  Iteration over a Go map visits every entry once in an unspecified order.
    Both are interfaces here; sorted lists and [map_to_list] are instances. *)

From stdpp Require Import sorting.
From S2P Require Import Prelude.

Class GoHeap {A : Type} (less : A → A → bool) := {
  is_heap : list A → Prop;
  heap_Push : list A → A → list A;
  heap_Pop : list A → res (A * list A);
  heap_Init : list A → list A;
  heap_Remove : list A → Z → res (A * list A);
}.

Class GoHeapLaws {A : Type} (less : A → A → bool) `{GoHeap A less} := {
  heap_nil : is_heap [];
  heap_min : ∀ x h y, is_heap (x :: h) → y ∈ h → less y x = false;
  heap_Push_spec : ∀ h x, is_heap h → is_heap (heap_Push h x) ∧ heap_Push h x ≡ₚ x :: h;
  heap_Pop_spec : ∀ x h, is_heap (x :: h) →
    ∃ h', heap_Pop (x :: h) = Ok (x, h') ∧ is_heap h' ∧ h' ≡ₚ h;
  heap_Init_spec : ∀ h, is_heap (heap_Init h) ∧ heap_Init h ≡ₚ h;
  heap_Remove_spec : ∀ h i x, is_heap h → h !! i = Some x →
    ∃ h', heap_Remove h (Z.of_nat i) = Ok (x, h') ∧ is_heap h' ∧ x :: h' ≡ₚ h;
}.

(** [for k, v := range m] *)
Class MapRange := { range_of : ∀ {K A : Type} `{Countable K}, gmap K A → list (K * A) }.
Class MapRangeLaws `{MapRange} := {
  range_of_perm : ∀ {K A : Type} `{Countable K} (m : gmap K A), range_of m ≡ₚ map_to_list m;
}.

#[global] Instance range_in_order : MapRange := { range_of K A _ _ m := map_to_list m }.
#[global] Instance range_in_order_laws : MapRangeLaws.
Proof. done. Qed.

(** ** Sorted lists as heaps *)

Section sorted.
Context {A : Type} (less : A → A → bool).

(** [less] is a strict weak order: its complement is total and transitive. *)
Class WeakOrder := {
  less_total : ∀ x y, less x y = true → less y x = false;
  less_trans : ∀ x y z, less y x = false → less z y = false → less z x = false;
}.
Context {HW : WeakOrder}.

Definition not_after (x y : A) : Prop := less y x = false.

Fixpoint insert_sorted (x : A) (l : list A) : list A :=
  match l with
  | [] => [x]
  | y :: l' => if less y x then y :: insert_sorted x l' else x :: l
  end.

Definition insertion_sort (l : list A) : list A := foldr insert_sorted [] l.

Lemma insert_sorted_perm x l : insert_sorted x l ≡ₚ x :: l.
Proof.
  induction l as [|y l IH]; [done|]. cbn. destruct (less y x); [|done]. rewrite IH. apply Permutation_swap.
Qed.

Lemma insert_sorted_ok x l :
  StronglySorted not_after l → StronglySorted not_after (insert_sorted x l).
Proof using HW.
  induction 1 as [|y l Hs IH Hy]; cbn; [repeat constructor|].
  destruct (less y x) eqn:E.
  - constructor; [done|]. rewrite insert_sorted_perm. constructor; [|done]. by apply less_total.
  - constructor; [by constructor|]. constructor; [done|]. eapply Forall_impl; [exact Hy|].
    intros z Hz. by eapply less_trans.
Qed.

Lemma insertion_sort_spec l :
  StronglySorted not_after (insertion_sort l) ∧ insertion_sort l ≡ₚ l.
Proof using HW.
  induction l as [|x l [IH1 IH2]]; [repeat constructor|]. cbn. split.
  - by apply insert_sorted_ok.
  - by rewrite insert_sorted_perm, IH2.
Qed.

Definition list_Remove (h : list A) (i : Z) : res (A * list A) :=
  match h !! Z.to_nat i with
  | Some x => Ok (x, delete (Z.to_nat i) h)
  | None => Panic
  end.

Definition sorted_heap : GoHeap less := {|
  is_heap := StronglySorted not_after;
  heap_Push h x := insert_sorted x h;
  heap_Pop h := match h with x :: h' => Ok (x, h') | [] => Panic end;
  heap_Init := insertion_sort;
  heap_Remove := list_Remove;
|}.

Lemma StronglySorted_delete {R : A → A → Prop} (l : list A) i :
  StronglySorted R l → StronglySorted R (delete i l).
Proof.
  intros Hs. revert i. induction Hs as [|x l Hs IH Hx]; intros [|i]; cbn; try constructor; try done.
  by apply Forall_delete.
Qed.

Lemma sorted_heap_laws : @GoHeapLaws A less sorted_heap.
Proof using HW.
  split; cbn.
  - constructor.
  - intros x h y Hs Hy. apply StronglySorted_inv in Hs as [_ Hx]. rewrite Forall_forall in Hx. by apply Hx.
  - intros h x Hs. split; [by apply insert_sorted_ok|apply insert_sorted_perm].
  - intros x h Hs. apply StronglySorted_inv in Hs as [Hs _]. by exists h.
  - intros h. apply insertion_sort_spec.
  - intros h i x Hs Hi. exists (delete i h). unfold list_Remove. rewrite Nat2Z.id, Hi.
    split; [done|]. split; [by apply StronglySorted_delete|]. by rewrite <- (delete_Permutation h i x Hi).
Qed.
End sorted.
