(* ===== verification/Store.v ===== *)
(** * Stores: tables, caches and what they promise (gossip/store_event.go, store_block.go,
      store_heads.go, store_last_events.go, utils/rlpstore)

    A table is a map from bytes to bytes and a cache of the library may forget entries
    at any time.  Reading through a cache, with values encoded in the table, refines a
    plain map; the sets of an epoch survive being written and read back. *)

From stdpp Require Import sorting.
From S2P Require Import Prelude Cser Inter Instances TxSer EventSer Heap.

(** ** Weighted LRU caches *)

Class Wlru (K V L : Type) `{Countable K} := {
  wl_Get : K → L → option V * L;
  wl_Add : K → V → Z → L → L;
  wl_Remove : K → L → L;
}.

(** Looking up changes the order of eviction only, and adding may evict. *)
Class WlruLaws (K V L : Type) `{Wlru K V L} := {
  wl_contents : L → gmap K V;
  wl_Get_spec : ∀ k l, (wl_Get k l).1 = wl_contents l !! k ∧ wl_contents (wl_Get k l).2 = wl_contents l;
  wl_Add_spec : ∀ k v w l, wl_contents (wl_Add k v w l) ⊆ <[k := v]> (wl_contents l);
  wl_Remove_spec : ∀ k l, wl_contents (wl_Remove k l) = delete k (wl_contents l);
}.

Notation Table := (gmap (list Z) (list Z)).

(** [Log.Crit] ends the process. *)
Definition crit {A} (r : res A) : res A := match r with Err _ => Panic | _ => r end.

(** ** rlpstore: values encoded in a table *)

Section rlpstore.
Context {V : Type} (enc : V → res (list Z)) (dec : list Z → res V).

Definition rlp_Set (key : list Z) (val : V) (t : Table) : res Table :=
  buf ← crit (enc val); Ok (<[key := buf]> t).

Definition rlp_Get (key : list Z) (t : Table) : res (option V) :=
  match t !! key with
  | None => Ok None
  | Some buf => v ← crit (dec buf); Ok (Some v)
  end.

(** The table holds the encodings of a map. *)
Section encodes.
Context {K : Type} `{Countable K} (key : K → list Z) `{!Inj (=) (=) key}.

Definition encodes (m : gmap K V) (t : Table) : Prop :=
  ∀ k, match m !! k with
       | Some v => ∃ b, t !! key k = Some b ∧ dec b = Ok v
       | None => t !! key k = None
       end.

Lemma rlp_Get_encodes m t k : encodes m t → rlp_Get (key k) t = Ok (m !! k).
Proof.
  intros Ht. specialize (Ht k). unfold rlp_Get. destruct (m !! k) as [v|].
  - destruct Ht as (b & -> & E). by rewrite E.
  - by rewrite Ht.
Qed.

Lemma encodes_insert m t k v b : encodes m t → dec b = Ok v → encodes (<[k := v]> m) (<[key k := b]> t).
Proof.
  intros Ht Hb k'. destruct (decide (k = k')) as [->|Hne].
  - rewrite lookup_insert_eq. exists b. by rewrite lookup_insert_eq.
  - rewrite !lookup_insert_ne by (done || by intros ?%(inj key)). apply Ht.
Qed.

Lemma rlp_Set_encodes m t k v b :
  encodes m t → enc v = Ok b → dec b = Ok v →
  ∃ t', rlp_Set (key k) v t = Ok t' ∧ encodes (<[k := v]> m) t'.
Proof. intros Ht He Hd. unfold rlp_Set. rewrite He. eexists. split; [done|]. by apply encodes_insert. Qed.

Lemma encodes_delete m t k : encodes m t → encodes (delete k m) (delete (key k) t).
Proof.
  intros Ht k'. destruct (decide (k = k')) as [->|Hne].
  - by rewrite !lookup_delete_eq.
  - rewrite !lookup_delete_ne by (done || by intros ?%(inj key)). apply Ht.
Qed.
End encodes.
End rlpstore.

(** ** A cache in front of a map *)

Section coherent.
Context {K V W L : Type} `{Countable K} `{!Wlru K W L} `{!WlruLaws K W L} (f : V → W).

(** Every cached entry is that of the map. *)
Definition coherent (m : gmap K V) (l : L) : Prop := ∀ k w, wl_contents l !! k = Some w → f <$> m !! k = Some w.

Lemma coherent_Get m l k : coherent m l → coherent m (wl_Get k l).2.
Proof. intros Hc k' w. rewrite (proj2 (wl_Get_spec k l)). apply Hc. Qed.

Lemma coherent_hit m l k w : coherent m l → (wl_Get k l).1 = Some w → f <$> m !! k = Some w.
Proof. intros Hc E. rewrite (proj1 (wl_Get_spec k l)) in E. by apply Hc. Qed.

Lemma coherent_insert m l k v wt : coherent m l → coherent (<[k := v]> m) (wl_Add k (f v) wt l).
Proof.
  intros Hc k' w E. pose proof (lookup_weaken _ _ _ _ E (wl_Add_spec k (f v) wt l)) as E'.
  destruct (decide (k = k')) as [->|Hne].
  - rewrite lookup_insert_eq in E'. rewrite lookup_insert_eq. exact E'.
  - rewrite lookup_insert_ne in E' by done. rewrite lookup_insert_ne by done. by apply Hc.
Qed.

Lemma coherent_Add m l k v wt : coherent m l → m !! k = Some v → coherent m (wl_Add k (f v) wt l).
Proof. intros Hc E. rewrite <- (insert_id m k v E). by apply coherent_insert. Qed.

Lemma coherent_Remove m l k : coherent m l → coherent (delete k m) (wl_Remove k l).
Proof.
  intros Hc k' w. rewrite wl_Remove_spec. destruct (decide (k = k')) as [->|Hne].
  - by rewrite lookup_delete_eq.
  - rewrite !lookup_delete_ne by done. apply Hc.
Qed.
End coherent.

(** ** store_event.go *)

Class EventBytes (EventID : Type) `{EventIDs EventID} := { BytesToEvent : list Z → EventID }.
Class EventBytesLaws (EventID : Type) `{EventBytes EventID} := {
  BytesToEvent_Bytes : ∀ id, BytesToEvent (id_Bytes id) = id;
}.

#[global] Instance id_Bytes_inj {EventID} `{EventBytesLaws EventID} : Inj (=) (=) (id_Bytes (EventID := EventID)).
Proof. intros a b E. by rewrite <- (BytesToEvent_Bytes a), E, BytesToEvent_Bytes. Qed.

(** RLP of a byte string *)
Class RlpBytes := { rlp_bytes : list Z → list Z; rlp_Bytes : list Z → res (list Z) }.
Class RlpBytesLaws `{RlpBytes} := { rlp_Bytes_spec : ∀ b, rlp_Bytes (rlp_bytes b) = Ok b }.

(** The two historic events of store_migration.go with a corrected transaction hash. *)
Definition fixTxEvent1 : list Z :=
  [0; 0; 23; 24; 0; 0; 3; 212; 211; 149; 91; 245; 146; 225; 47; 184;
   10; 96; 87; 79; 164; 177; 139; 213; 128; 91; 76; 1; 13; 117; 232; 109].
Definition fixTxEventPos1 : Z := 2.
Definition fixTxEvent2 : list Z :=
  [0; 0; 23; 158; 0; 0; 12; 70; 77; 117; 106; 118; 20; 208; 202; 6;
   127; 203; 55; 238; 68; 82; 0; 75; 243; 8; 201; 223; 86; 30; 133; 232].
Definition fixTxEventPos2 : Z := 0.

Section events.
Context {EventID : Type} `{EventIDs EventID} `{!Countable EventID} `{!EventBytes EventID} `{RlpBytes}.
Context {CE CH : Type} `{!Wlru EventID (EventPayload EventID) CE} `{!Wlru EventID (Event EventID) CH}.
Variable sha256 : list Z → list Z.
Variable EmptyTxHash : list Z.
Variable deriveChainId : Z → Z.
Notation Ev := (EventPayload EventID).

(** The memoized hash of a transaction, which is set here, is not a field of the
    model; what is left is the access to the transaction. *)
Definition fixEventTxHashes (e : Ev) : res Ev :=
  let fix_at (id : list Z) (pos : Z) : res unit :=
    if bool_decide (id_Bytes (ID (ev_base (ep_event e))) = id) then _ ← index (ep_txs e) pos; Ok tt else Ok tt in
  _ ← fix_at fixTxEvent1 fixTxEventPos1;
  _ ← fix_at fixTxEvent2 fixTxEventPos2;
  Ok e.

Definition EventPayload_EncodeRLP (e : Ev) : res (list Z) :=
  bytes ← EventPayload_MarshalBinary EmptyTxHash e; Ok (rlp_bytes bytes).

Definition EventPayload_DecodeRLP (src : list Z) : res Ev :=
  bytes ← rlp_Bytes src; EventPayload_UnmarshalBinary sha256 EmptyTxHash deriveChainId bytes [].

Record EventStore := mkEventStore {
  st_Events : Table;
  st_cEvents : CE;
  st_cEventsHeaders : CH;
}.

Definition nominalSize : Z := 1.

Definition DelEvent (id : EventID) (s : EventStore) : EventStore :=
  mkEventStore (delete (id_Bytes id) (st_Events s)) (wl_Remove id (st_cEvents s)) (wl_Remove id (st_cEventsHeaders s)).

(** Both caches get the event. *)
Definition cache_event (id : EventID) (e : Ev) (s : EventStore) : EventStore :=
  mkEventStore (st_Events s) (wl_Add id e (ep_size e) (st_cEvents s))
    (wl_Add id (ep_event e) nominalSize (st_cEventsHeaders s)).

Definition SetEvent (e : Ev) (s : EventStore) : res EventStore :=
  let id := ID (ev_base (ep_event e)) in
  t ← rlp_Set EventPayload_EncodeRLP (id_Bytes id) e (st_Events s);
  Ok (cache_event id e (mkEventStore t (st_cEvents s) (st_cEventsHeaders s))).

Definition GetEventPayload (id : EventID) (s : EventStore) : res (option Ev * EventStore) :=
  match wl_Get id (st_cEvents s) with
  | (Some e, c) => Ok (Some e, mkEventStore (st_Events s) c (st_cEventsHeaders s))
  | (None, c) =>
      let s := mkEventStore (st_Events s) c (st_cEventsHeaders s) in
      w ← rlp_Get EventPayload_DecodeRLP (id_Bytes id) (st_Events s);
      match w with
      | Some w => w ← fixEventTxHashes w; Ok (Some w, cache_event id w s)
      | None => Ok (None, s)
      end
  end.

Definition GetEvent (id : EventID) (s : EventStore) : res (option (Event EventID) * EventStore) :=
  match wl_Get id (st_cEventsHeaders s) with
  | (Some e, c) => Ok (Some e, mkEventStore (st_Events s) (st_cEvents s) c)
  | (None, c) =>
      let s := mkEventStore (st_Events s) (st_cEvents s) c in
      w ← rlp_Get EventPayload_DecodeRLP (id_Bytes id) (st_Events s);
      match w with
      | Some w => w ← fixEventTxHashes w; Ok (Some (ep_event w), cache_event id w s)
      | None => Ok (None, s)
      end
  end.

Definition HasEvent (id : EventID) (s : EventStore) : bool :=
  bool_decide (is_Some (st_Events s !! id_Bytes id)).
End events.
Arguments EventStore : clear implicits.

(** *** The store refines a map *)

Section refines.
Context {EventID : Type} `{EventIDsLaws EventID} `{!Countable EventID} `{!EventBytes EventID}
  `{!EventBytesLaws EventID} `{RlpBytesLaws}.
Context {CE CH : Type} `{!Wlru EventID (EventPayload EventID) CE} `{!Wlru EventID (Event EventID) CH}.
Context `{!WlruLaws EventID (EventPayload EventID) CE} `{!WlruLaws EventID (Event EventID) CH}.
Variable sha256 : list Z → list Z.
Variable EmptyTxHash : list Z.
Variable deriveChainId : Z → Z.
Notation Ev := (EventPayload EventID).
Notation St := (EventStore CE CH).

Notation dec := (EventPayload_DecodeRLP sha256 EmptyTxHash deriveChainId).
Notation enc := (EventPayload_EncodeRLP EmptyTxHash).

(** An event that can be stored: well-formed, made by [Build], of a size that memory
    holds, and none of the historic events without the transaction in question. *)
Record storable (e : Ev) : Prop := {
  so_ok : EventPayload_ok EmptyTxHash deriveChainId e;
  so_built : built sha256 EmptyTxHash e;
  so_size : ep_size e < 2 ^ 63;
  so_fix : fixEventTxHashes e = Ok e;
}.

Lemma storable_codec e : storable e → ∃ b, enc e = Ok b ∧ dec b = Ok e.
Proof.
  intros [Hok Hb Hs _]. destruct Hb as (ser & raw & Hser & Hraw & Hh & Hsz & Hid).
  exists (rlp_bytes raw). unfold EventPayload_EncodeRLP, EventPayload_DecodeRLP. rewrite Hraw. split; [done|].
  rewrite rlp_Bytes_spec. cbn [mbind res_bind].
  apply (built_roundtrip sha256 EmptyTxHash deriveChainId e raw []); [done| |done|by rewrite <- Hsz].
  by exists ser, raw.
Qed.

(** What the store holds. *)
Record stored (m : gmap EventID Ev) (s : St) : Prop := {
  sd_table : encodes dec id_Bytes m (st_Events s);
  sd_events : coherent (λ e, e) m (st_cEvents s);
  sd_headers : coherent ep_event m (st_cEventsHeaders s);
  sd_ok : ∀ id e, m !! id = Some e → storable e;
}.

Lemma stored_cache m s id e : stored m s → m !! id = Some e → stored m (cache_event id e s).
Proof.
  intros [Ht Hc Hh Hok] E. split; [done| | |done]; unfold cache_event; cbn [st_cEvents st_cEventsHeaders].
  - by apply (coherent_Add (λ e : Ev, e)).
  - by apply (coherent_Add ep_event).
Qed.

Lemma SetEvent_stored m s e :
  stored m s → storable e →
  ∃ s', SetEvent EmptyTxHash e s = Ok s' ∧ stored (<[ID (ev_base (ep_event e)) := e]> m) s'.
Proof.
  intros [Ht Hc Hh Hok] He. destruct (storable_codec e He) as (b & Eb & Db). unfold SetEvent.
  destruct (rlp_Set_encodes enc dec id_Bytes m (st_Events s) (ID (ev_base (ep_event e))) e b Ht Eb Db) as (t' & -> & Ht').
  eexists. split; [done|]. split; unfold cache_event; cbn [st_Events st_cEvents st_cEventsHeaders].
  - done.
  - by apply (coherent_insert (λ e : Ev, e)).
  - by apply (coherent_insert ep_event).
  - intros id e' [[_ <-]|[_ ?]]%lookup_insert_Some; eauto.
Qed.

Lemma DelEvent_stored m s id : stored m s → stored (delete id m) (DelEvent id s).
Proof.
  intros [Ht Hc Hh Hok]. split; cbn [DelEvent st_Events st_cEvents st_cEventsHeaders].
  - by apply encodes_delete; [apply _|].
  - by apply coherent_Remove.
  - by apply coherent_Remove.
  - intros id' e' [_ ?]%lookup_delete_Some. eauto.
Qed.

Lemma GetEventPayload_stored m s id :
  stored m s → ∃ s', GetEventPayload sha256 EmptyTxHash deriveChainId id s = Ok (m !! id, s') ∧ stored m s'.
Proof.
  intros [Ht Hc Hh Hok]. unfold GetEventPayload.
  pose proof (coherent_Get (λ e : Ev, e) m _ id Hc) as Hc'. pose proof (coherent_hit (λ e : Ev, e) m (st_cEvents s) id) as Hhit.
  destruct (wl_Get id (st_cEvents s)) as [[e|] c] eqn:Eg; cbn [fst snd] in *.
  - specialize (Hhit e Hc eq_refl). rewrite option_fmap_id in Hhit. rewrite Hhit.
    eexists. split; [done|]. by split.
  - cbn [st_Events]. rewrite (rlp_Get_encodes dec id_Bytes m _ id Ht). cbn [mbind res_bind].
    destruct (m !! id) as [e|] eqn:E.
    + rewrite (so_fix e (Hok id e E)). cbn [mbind res_bind]. eexists. split; [done|]. by apply stored_cache; [split|].
    + eexists. split; [done|]. by split.
Qed.

Lemma GetEvent_stored m s id :
  stored m s → ∃ s', GetEvent sha256 EmptyTxHash deriveChainId id s = Ok (ep_event <$> m !! id, s') ∧ stored m s'.
Proof.
  intros [Ht Hc Hh Hok]. unfold GetEvent.
  pose proof (coherent_Get ep_event m _ id Hh) as Hh'. pose proof (coherent_hit ep_event m (st_cEventsHeaders s) id) as Hhit.
  destruct (wl_Get id (st_cEventsHeaders s)) as [[e|] c] eqn:Eg; cbn [fst snd] in *.
  - rewrite (Hhit e Hh eq_refl). eexists. split; [done|]. by split.
  - cbn [st_Events]. rewrite (rlp_Get_encodes dec id_Bytes m _ id Ht). cbn [mbind res_bind].
    destruct (m !! id) as [e|] eqn:E.
    + rewrite (so_fix e (Hok id e E)). cbn [mbind res_bind]. eexists. split; [done|]. by apply stored_cache; [split|].
    + eexists. split; [done|]. by split.
Qed.

Lemma HasEvent_stored m s id : stored m s → HasEvent id s = bool_decide (is_Some (m !! id)).
Proof.
  intros [Ht _ _ _]. specialize (Ht id). unfold HasEvent. apply bool_decide_ext.
  destruct (m !! id); [destruct Ht as (b & -> & _)|rewrite Ht]; naive_solver.
Qed.

(** The operations of the store, and those of a map. *)
Inductive store_op := OSet (e : Ev) | ODel (id : EventID) | OGetPayload (id : EventID) | OGet (id : EventID) | OHas (id : EventID).
Inductive store_ans := ADone | APayload (e : option Ev) | AHeader (e : option (Event EventID)) | AHas (b : bool).

Definition run_store_op (op : store_op) (s : St) : res (store_ans * St) :=
  match op with
  | OSet e => s ← SetEvent EmptyTxHash e s; Ok (ADone, s)
  | ODel id => Ok (ADone, DelEvent id s)
  | OGetPayload id => '(e, s) ← GetEventPayload sha256 EmptyTxHash deriveChainId id s; Ok (APayload e, s)
  | OGet id => '(e, s) ← GetEvent sha256 EmptyTxHash deriveChainId id s; Ok (AHeader e, s)
  | OHas id => Ok (AHas (HasEvent id s), s)
  end.

Definition spec_store_op (op : store_op) (m : gmap EventID Ev) : store_ans * gmap EventID Ev :=
  match op with
  | OSet e => (ADone, <[ID (ev_base (ep_event e)) := e]> m)
  | ODel id => (ADone, delete id m)
  | OGetPayload id => (APayload (m !! id), m)
  | OGet id => (AHeader (ep_event <$> m !! id), m)
  | OHas id => (AHas (bool_decide (is_Some (m !! id))), m)
  end.

Definition op_storable (op : store_op) : Prop := match op with OSet e => storable e | _ => True end.

Fixpoint run_store_ops (ops : list store_op) (s : St) : res (list store_ans * St) :=
  match ops with
  | [] => Ok ([], s)
  | op :: ops => '(a, s) ← run_store_op op s; '(l, s) ← run_store_ops ops s; Ok (a :: l, s)
  end.

Fixpoint spec_store_ops (ops : list store_op) (m : gmap EventID Ev) : list store_ans * gmap EventID Ev :=
  match ops with
  | [] => ([], m)
  | op :: ops => let '(a, m) := spec_store_op op m in let '(l, m) := spec_store_ops ops m in (a :: l, m)
  end.

Lemma run_store_op_spec op m s :
  stored m s → op_storable op →
  ∃ s', run_store_op op s = Ok ((spec_store_op op m).1, s') ∧ stored (spec_store_op op m).2 s'.
Proof.
  intros Hs Hop. destruct op as [e|id|id|id|id]; cbn [run_store_op spec_store_op fst snd].
  - destruct (SetEvent_stored m s e Hs Hop) as (s' & -> & Hs'). by exists s'.
  - eexists. split; [done|]. by apply DelEvent_stored.
  - destruct (GetEventPayload_stored m s id Hs) as (s' & -> & Hs'). by exists s'.
  - destruct (GetEvent_stored m s id Hs) as (s' & -> & Hs'). by exists s'.
  - rewrite (HasEvent_stored m s id Hs). by exists s.
Qed.

(** C32: the event store, which encodes events into a table and reads through two caches
    that may evict at any time, answers every sequence of writes, deletions and reads
    as a plain map from identifiers to events does, without failing. *)
Theorem event_store_refines ops m s :
  stored m s → Forall op_storable ops →
  ∃ s', run_store_ops ops s = Ok ((spec_store_ops ops m).1, s') ∧ stored (spec_store_ops ops m).2 s'.
Proof.
  intros Hs Hops. revert m s Hs. induction Hops as [|op ops Hop _ IH]; intros m s Hs; cbn [run_store_ops spec_store_ops].
  { by exists s. }
  destruct (run_store_op_spec op m s Hs Hop) as (s1 & -> & Hs1). cbn [mbind res_bind].
  destruct (spec_store_op op m) as [a m1]. cbn [fst snd] in *.
  destruct (IH m1 s1 Hs1) as (s2 & -> & Hs2). cbn [mbind res_bind].
  destruct (spec_store_ops ops m1) as [l m2]. by exists s2.
Qed.
End refines.

(** ** Sorting of byte strings: [bytes.Compare] and [sort.Slice] *)

Fixpoint bytes_Compare (a b : list Z) : comparison :=
  match a, b with
  | [], [] => Eq
  | [], _ => Lt
  | _, [] => Gt
  | x :: a, y :: b => match x ?= y with Eq => bytes_Compare a b | c => c end
  end.

Definition bytes_le (a b : list Z) : Prop := bytes_Compare a b ≠ Gt.
#[global] Instance bytes_le_dec a b : Decision (bytes_le a b).
Proof. unfold bytes_le. apply _. Defined.

Lemma bytes_Compare_Eq a b : bytes_Compare a b = Eq → a = b.
Proof.
  revert b. induction a as [|x a IH]; intros [|y b]; cbn; try done.
  destruct (Z.compare_spec x y) as [->| |]; try done. intros ?. f_equal. auto.
Qed.
Lemma bytes_Compare_swap a b : bytes_Compare b a = CompOpp (bytes_Compare a b).
Proof.
  revert b. induction a as [|x a IH]; intros [|y b]; cbn; try done.
  rewrite (Z.compare_antisym x y). by destruct (x ?= y); cbn.
Qed.
#[global] Instance bytes_le_total : Total bytes_le.
Proof. intros a b. unfold bytes_le. rewrite (bytes_Compare_swap a b). destruct (bytes_Compare a b); cbn; auto. Qed.
#[global] Instance bytes_le_antisymm : AntiSymm (=) bytes_le.
Proof.
  intros a b. unfold bytes_le. rewrite (bytes_Compare_swap a b). intros Hab Hba. apply bytes_Compare_Eq.
  by destruct (bytes_Compare a b).
Qed.
#[global] Instance bytes_le_trans : Transitive bytes_le.
Proof.
  unfold bytes_le. intros a. induction a as [|x a IH]; intros [|y b] [|z c]; cbn; try done.
  destruct (Z.compare_spec x y), (Z.compare_spec y z), (Z.compare_spec x z); subst; try done; try lia. apply IH.
Qed.

Definition sort_bytes (l : list (list Z)) : list (list Z) := merge_sort bytes_le l.

(** The order of the input does not matter. *)
#[global] Instance sort_bytes_proper : Proper ((≡ₚ) ==> (=)) sort_bytes.
Proof.
  intros l k Hp. unfold sort_bytes. apply (Sorted_unique bytes_le); try apply Sorted_merge_sort; try apply _.
  by rewrite !merge_sort_Permutation.
Qed.

(** ** Records of a fixed size in one value *)

(** [for i := 0; i < len(b); i += n] over [b[i:i+n]] *)
Fixpoint load_records (fuel n : nat) (b : list Z) : res (list (list Z)) :=
  match fuel, b with
  | _, [] => Ok []
  | O, _ => Panic
  | S fuel, _ =>
      if (length b <? n)%nat then Panic
      else l ← load_records fuel n (drop n b); Ok (take n b :: l)
  end.

Lemma load_records_concat fuel n (l : list (list Z)) :
  (0 < n)%nat → (length l <= fuel)%nat → Forall (λ r, length r = n) l → load_records fuel n (concat l) = Ok l.
Proof.
  intros Hn Hf Hl. revert fuel Hf. induction Hl as [|r l Hr _ IH]; intros fuel Hf; [by destruct fuel|].
  destruct fuel as [|fuel]; [cbn in Hf; lia|]. cbn [concat]. destruct r as [|x r]; [cbn in Hr; lia|].
  cbn [load_records app]. rewrite app_comm_cons, (proj2 (Nat.ltb_ge _ _)) by (rewrite length_app; lia).
  rewrite take_app_length', drop_app_length' by done. rewrite IH by (cbn in Hf; lia). done.
Qed.

Lemma concat_records_length n (l : list (list Z)) : (0 < n)%nat → Forall (λ r, length r = n) l → (length l <= length (concat l))%nat.
Proof. intros Hn Hl. induction Hl as [|r l Hr _ IH]; [done|]. cbn. rewrite length_app. lia. Qed.

(** ** store_heads.go, store_last_events.go: what an epoch knows *)

(** [idx.ValidatorID.Bytes] *)
Class IdxBytes := { ValidatorID_Bytes : Z → list Z; BytesToValidatorID : list Z → Z }.
Class IdxBytesLaws `{IdxBytes} := {
  ValidatorID_Bytes_len : ∀ v, length (ValidatorID_Bytes v) = 4%nat;
  BytesToValidatorID_Bytes : ∀ v, is_u32 v → BytesToValidatorID (ValidatorID_Bytes v) = v;
}.

Section epochstore.
Context {EventID : Type} `{EventIDs EventID} `{!Countable EventID} `{!EventBytes EventID} `{IdxBytes} `{MapRange}.

Record epochStore := mkEpochStore {
  eps_epoch : Z;
  eps_LastEvents : option (list Z);
  eps_Heads : option (list Z);
  eps_cHeads : option (gset EventID);
  eps_cLastEvents : option (gmap Z EventID);
}.

Definition loadHeads (es : epochStore) : res (gset EventID) :=
  match eps_Heads es with
  | None => Ok ∅
  | Some b => l ← load_records (length b) 32 b; Ok (list_to_set (BytesToEvent <$> l))
  end.

Definition SetHeads (ids : gset EventID) (es : epochStore) : epochStore :=
  mkEpochStore (eps_epoch es) (eps_LastEvents es) (eps_Heads es) (Some ids) (eps_cLastEvents es).

Definition GetHeads (es : epochStore) : res (gset EventID * epochStore) :=
  match eps_cHeads es with
  | Some heads => Ok (heads, es)
  | None => heads ← loadHeads es; Ok (heads, SetHeads heads es)
  end.

Definition FlushHeads (es : epochStore) : epochStore :=
  match eps_cHeads es with
  | None => es
  | Some ids =>
      let sortedHeads := sort_bytes ((λ p, id_Bytes p.1) <$> range_of (gset_to_gmap tt ids)) in
      mkEpochStore (eps_epoch es) (eps_LastEvents es) (Some (concat sortedHeads)) (eps_cHeads es) (eps_cLastEvents es)
  end.

Definition loadLastEvents (es : epochStore) : res (gmap Z EventID) :=
  match eps_LastEvents es with
  | None => Ok ∅
  | Some b =>
      l ← load_records (length b) 36 b;
      Ok (foldl (λ m r, <[BytesToValidatorID (take 4 r) := BytesToEvent (drop 4 r)]> m) ∅ l)
  end.

Definition SetLastEvents (ids : gmap Z EventID) (es : epochStore) : epochStore :=
  mkEpochStore (eps_epoch es) (eps_LastEvents es) (eps_Heads es) (eps_cHeads es) (Some ids).

Definition GetLastEvents (es : epochStore) : res (gmap Z EventID * epochStore) :=
  match eps_cLastEvents es with
  | Some lasts => Ok (lasts, es)
  | None => lasts ← loadLastEvents es; Ok (lasts, SetLastEvents lasts es)
  end.

Definition FlushLastEvents (es : epochStore) : epochStore :=
  match eps_cLastEvents es with
  | None => es
  | Some lasts =>
      let sortedLastEvents := sort_bytes ((λ p, ValidatorID_Bytes p.1 ++ id_Bytes p.2) <$> range_of lasts) in
      mkEpochStore (eps_epoch es) (Some (concat sortedLastEvents)) (eps_Heads es) (eps_cHeads es) (eps_cLastEvents es)
  end.

(** A store opened over the tables of an epoch loads its caches. *)
Definition newEpochStore (epoch : Z) (lastEvents heads : option (list Z)) : res epochStore :=
  '(_, es) ← GetHeads (mkEpochStore epoch lastEvents heads None None);
  '(_, es) ← GetLastEvents es;
  Ok es.
End epochstore.
Arguments epochStore EventID {_ _}.

Section reload.
Context {EventID : Type} `{EventIDsLaws EventID} `{!Countable EventID} `{!EventBytes EventID}
  `{!EventBytesLaws EventID} `{IdxBytesLaws}.

Lemma id_Bytes_length (id : EventID) : length (id_Bytes id) = 32%nat.
Proof. pose proof (id_Bytes_len id) as Hl. unfold len in Hl. lia. Qed.

(** Records of one size, sorted, written and loaded, are the same up to their order. *)
Lemma load_sorted_records (n : nat) (l : list (list Z)) :
  (0 < n)%nat → Forall (λ r, length r = n) l →
  let b := concat (sort_bytes l) in load_records (length b) n b = Ok (sort_bytes l) ∧ sort_bytes l ≡ₚ l.
Proof.
  intros Hn Hl b. assert (Hp : sort_bytes l ≡ₚ l) by apply merge_sort_Permutation. split; [|done].
  assert (Hl' : Forall (λ r, length r = n) (sort_bytes l)) by by rewrite Hp.
  apply load_records_concat; [done| |done]. by apply (concat_records_length n).
Qed.

Lemma load_flushed_heads `{MapRangeLaws} (es : epochStore EventID) heads :
  eps_cHeads es = Some heads → loadHeads (FlushHeads es) = Ok heads.
Proof.
  intros E. unfold FlushHeads, loadHeads. rewrite E. cbn [eps_Heads].
  set (l := (λ p : EventID * (), id_Bytes p.1) <$> range_of (gset_to_gmap () heads)).
  destruct (load_sorted_records 32 l) as [-> Hp]; [lia| |].
  { apply Forall_fmap, Forall_true. intros p. apply id_Bytes_length. }
  cbn [mbind res_bind]. f_equal. apply set_eq. intros id.
  rewrite elem_of_list_to_set, Hp. unfold l. rewrite <- list_fmap_compose, list_elem_of_fmap. cbn. setoid_rewrite BytesToEvent_Bytes.
  setoid_rewrite range_of_perm. split.
  - intros ([id' []] & -> & Hin%elem_of_map_to_list). cbn. by apply lookup_gset_to_gmap_Some in Hin as [? _].
  - intros Hin. exists (id, ()). split; [done|]. apply elem_of_map_to_list. by apply lookup_gset_to_gmap_Some.
Qed.

(** Writing the entries of a map into an empty one, in any order. *)
Lemma foldl_insert_entries {R} (f : R → Z * EventID) (l : list R) (m : gmap Z EventID) :
  f <$> l ≡ₚ map_to_list m → foldl (λ acc r, <[(f r).1 := (f r).2]> acc) ∅ l = m.
Proof.
  intros Hp. assert (Hnd : NoDup (f <$> l).*1).
  { rewrite Hp. apply NoDup_fst_map_to_list. }
  rewrite <- (list_to_map_to_list m), <- (list_to_map_proper _ _ Hnd Hp). clear Hp m.
  assert (Hgen : ∀ acc : gmap Z EventID, foldl (λ acc r, <[(f r).1 := (f r).2]> acc) acc l = list_to_map (f <$> l) ∪ acc).
  { induction l as [|r l IH]; intros acc; [by rewrite fmap_nil, list_to_map_nil, map_empty_union|].
    rewrite !fmap_cons in Hnd. apply NoDup_cons in Hnd as [Hni Hnd]. cbn [foldl]. rewrite IH by done.
    rewrite fmap_cons. destruct (f r) as [k v]. cbn [fst snd] in *. rewrite list_to_map_cons, <- insert_union_l.
    symmetry. by apply insert_union_r, not_elem_of_list_to_map. }
  by rewrite Hgen, map_union_empty.
Qed.

Lemma load_flushed_lasts `{MapRangeLaws} (es : epochStore EventID) lasts :
  eps_cLastEvents es = Some lasts → map_Forall (λ v _, is_u32 v) lasts → loadLastEvents (FlushLastEvents es) = Ok lasts.
Proof.
  intros E Hv. unfold FlushLastEvents, loadLastEvents. rewrite E. cbn [eps_LastEvents].
  set (l := (λ p : Z * EventID, ValidatorID_Bytes p.1 ++ id_Bytes p.2) <$> range_of lasts).
  destruct (load_sorted_records 36 l) as [-> Hp]; [lia| |].
  { apply Forall_fmap, Forall_true. intros [v id]. cbn. rewrite length_app, ValidatorID_Bytes_len, id_Bytes_length. done. }
  cbn [mbind res_bind]. f_equal.
  apply (foldl_insert_entries (λ r, (BytesToValidatorID (take 4 r), BytesToEvent (drop 4 r)))).
  rewrite Hp, <- range_of_perm. unfold l. rewrite <- list_fmap_compose.
  rewrite <- (list_fmap_id (range_of lasts)) at 2. apply reflexive_eq, list_fmap_ext.
  intros i [v id] Hi%list_elem_of_lookup_2. rewrite range_of_perm in Hi. apply elem_of_map_to_list in Hi.
  cbn. rewrite take_app_length', drop_app_length' by by rewrite ValidatorID_Bytes_len.
  by rewrite BytesToEvent_Bytes, BytesToValidatorID_Bytes by exact (Hv v id Hi).
Qed.

(** Two orders of iteration over the maps, as in two runs of the node. *)
Lemma FlushHeads_order {r1 r2 : MapRange} `{!@MapRangeLaws r1} `{!@MapRangeLaws r2} (es : epochStore EventID) :
  FlushHeads (H1 := r1) es = FlushHeads (H1 := r2) es.
Proof.
  unfold FlushHeads. destruct (eps_cHeads es) as [ids|]; [|done]. do 3 f_equal.
  apply sort_bytes_proper, fmap_Permutation. by rewrite (@range_of_perm r1), (@range_of_perm r2).
Qed.
Lemma FlushLastEvents_order {r1 r2 : MapRange} `{!@MapRangeLaws r1} `{!@MapRangeLaws r2} (es : epochStore EventID) :
  FlushLastEvents (H1 := r1) es = FlushLastEvents (H1 := r2) es.
Proof.
  unfold FlushLastEvents. destruct (eps_cLastEvents es) as [lasts|]; [|done]. do 3 f_equal.
  apply sort_bytes_proper, fmap_Permutation. by rewrite (@range_of_perm r1), (@range_of_perm r2).
Qed.

(** the heads and last events of an epoch, written to the database and loaded by a
    store opened over it, are the ones that were written, and the bytes written do not
    depend on the order in which the maps are iterated. *)
Theorem epoch_store_reload {r1 r2 : MapRange} `{!@MapRangeLaws r1} `{!@MapRangeLaws r2} (es : epochStore EventID) heads lasts :
  eps_cHeads es = Some heads → eps_cLastEvents es = Some lasts → map_Forall (λ v _, is_u32 v) lasts →
  let flush r := FlushLastEvents (H1 := r) (FlushHeads (H1 := r) es) in
  flush r1 = flush r2 ∧
  ∃ es', newEpochStore (eps_epoch es) (eps_LastEvents (flush r1)) (eps_Heads (flush r1)) = Ok es' ∧
    eps_cHeads es' = Some heads ∧ eps_cLastEvents es' = Some lasts ∧
    eps_Heads es' = eps_Heads (flush r1) ∧ eps_LastEvents es' = eps_LastEvents (flush r1).
Proof.
  intros Eh El Hv flush. split.
  { unfold flush. rewrite (FlushHeads_order (r1 := r1) (r2 := r2)). apply FlushLastEvents_order. }
  assert (El' : eps_cLastEvents (FlushHeads (H1 := r1) es) = Some lasts).
  { unfold FlushHeads. by rewrite Eh. }
  pose proof (load_flushed_heads (H3 := r1) es heads Eh) as Lh.
  pose proof (load_flushed_lasts (H3 := r1) _ lasts El' Hv) as Ll.
  assert (Eq : eps_Heads (flush r1) = eps_Heads (FlushHeads (H1 := r1) es)).
  { unfold flush, FlushLastEvents. by rewrite El'. }
  unfold loadHeads in Lh. rewrite <- Eq in Lh. unfold loadLastEvents in Ll. fold (flush r1) in Ll.
  unfold newEpochStore, GetHeads, loadHeads. cbn [eps_cHeads eps_Heads]. rewrite Lh. cbn [mbind res_bind].
  unfold GetLastEvents, loadLastEvents. cbn [SetHeads eps_cLastEvents eps_LastEvents]. rewrite Ll.
  eexists. split; [done|]. by cbn.
Qed.
End reload.

(** ** store_block.go *)

Class BlockBytes (EventID : Type) := {
  Block_Bytes : Z → list Z;
  BytesToBlock : list Z → Z;
  block_enc : Block EventID → list Z;
  block_dec : list Z → res (Block EventID);
}.
Class BlockBytesLaws (EventID : Type) `{BlockBytes EventID} := {
  BytesToBlock_Bytes : ∀ n, is_u64 n → BytesToBlock (Block_Bytes n) = n;
  block_dec_enc : ∀ b, block_dec (block_enc b) = Ok b;
}.

Section blocks.
Context {EventID : Type} `{EventIDs EventID} `{!Countable EventID} `{!BlockBytes EventID}.
Context {CB CI : Type} `{!Wlru Z (Block EventID) CB} `{!Wlru EventID Z CI}.

Record BlockStore := mkBlockStore {
  bk_Blocks : Table;
  bk_BlockHashes : Table;
  bk_Genesis : Table;
  bk_cBlocks : CB;
  bk_cBlockHashes : CI;
}.

Definition SetBlock (n : Z) (b : Block EventID) (s : BlockStore) : res BlockStore :=
  t ← rlp_Set (λ b, Ok (block_enc b)) (Block_Bytes n) b (bk_Blocks s);
  Ok (mkBlockStore t (bk_BlockHashes s) (bk_Genesis s) (wl_Add n b (EstimateSize b) (bk_cBlocks s)) (bk_cBlockHashes s)).

Definition GetBlock (n : Z) (s : BlockStore) : res (option (Block EventID) * BlockStore) :=
  let with_cache c := mkBlockStore (bk_Blocks s) (bk_BlockHashes s) (bk_Genesis s) c (bk_cBlockHashes s) in
  match wl_Get n (bk_cBlocks s) with
  | (Some b, c) => Ok (Some b, with_cache c)
  | (None, c) =>
      block ← rlp_Get block_dec (Block_Bytes n) (bk_Blocks s);
      Ok (block, with_cache (match block with Some b => wl_Add n b (EstimateSize b) c | None => c end))
  end.

Definition SetBlockIndex (id : EventID) (n : Z) (s : BlockStore) : BlockStore :=
  mkBlockStore (bk_Blocks s) (<[id_Bytes id := Block_Bytes n]> (bk_BlockHashes s)) (bk_Genesis s) (bk_cBlocks s)
    (wl_Add id n nominalSize (bk_cBlockHashes s)).

Definition GetBlockIndex (id : EventID) (s : BlockStore) : option Z * BlockStore :=
  let with_cache c := mkBlockStore (bk_Blocks s) (bk_BlockHashes s) (bk_Genesis s) (bk_cBlocks s) c in
  match wl_Get id (bk_cBlockHashes s) with
  | (Some n, c) => (Some n, with_cache c)
  | (None, c) =>
      match bk_BlockHashes s !! id_Bytes id with
      | None => (None, with_cache c)
      | Some buf => (Some (BytesToBlock buf), with_cache (wl_Add id (BytesToBlock buf) nominalSize c))
      end
  end.

(** The key is the byte of the letter i. *)
Definition SetGenesisBlockIndex (n : Z) (s : BlockStore) : BlockStore :=
  mkBlockStore (bk_Blocks s) (bk_BlockHashes s) (<[[105] := Block_Bytes n]> (bk_Genesis s)) (bk_cBlocks s) (bk_cBlockHashes s).
Definition GetGenesisBlockIndex (s : BlockStore) : option Z := BytesToBlock <$> bk_Genesis s !! [105].

Definition GetGenesisTime (s : BlockStore) : res (Z * BlockStore) :=
  match GetGenesisBlockIndex s with
  | None => Ok (0, s)
  | Some n => '(block, s) ← GetBlock n s; Ok (match block with Some b => bl_Time b | None => 0 end, s)
  end.
End blocks.
Arguments BlockStore : clear implicits.

Section blocks_refine.
Context {EventID : Type} `{EventIDs EventID} `{!Countable EventID} `{!EventBytes EventID} `{!EventBytesLaws EventID}
  `{!BlockBytes EventID} `{!BlockBytesLaws EventID}.
Context {CB CI : Type} `{!Wlru Z (Block EventID) CB} `{!Wlru EventID Z CI}.
Context `{!WlruLaws Z (Block EventID) CB} `{!WlruLaws EventID Z CI}.
Notation Bs := (BlockStore CB CI).


(** The blocks and the index of blocks by their atropos that a store holds. *)
Record blocks_stored (m : gmap Z (Block EventID)) (ix : gmap EventID Z) (s : Bs) : Prop := {
  bd_blocks : ∀ n, is_u64 n → rlp_Get block_dec (Block_Bytes n) (bk_Blocks s) = Ok (m !! n);
  bd_cache : coherent (λ b, b) m (bk_cBlocks s);
  bd_index : ∀ id, BytesToBlock <$> bk_BlockHashes s !! id_Bytes id = ix !! id;
  bd_icache : coherent (λ n, n) ix (bk_cBlockHashes s);
}.

Lemma Block_Bytes_inj n k : is_u64 n → is_u64 k → Block_Bytes n = Block_Bytes k → n = k.
Proof. intros Hn Hk E. by rewrite <- (BytesToBlock_Bytes n), E, BytesToBlock_Bytes. Qed.

Lemma SetBlock_stored m ix s n b :
  blocks_stored m ix s → is_u64 n → ∃ s', SetBlock n b s = Ok s' ∧ blocks_stored (<[n := b]> m) ix s'.
Proof.
  intros [Hb Hc Hi Hic] Hn. eexists. split; [done|]. split; cbn [bk_Blocks bk_cBlocks bk_BlockHashes bk_cBlockHashes]; try done.
  - intros k Hk. destruct (decide (n = k)) as [->|Hne].
    + unfold rlp_Get. rewrite !lookup_insert_eq, block_dec_enc. done.
    + rewrite lookup_insert_ne by done. rewrite <- (Hb k Hk). unfold rlp_Get.
      by rewrite lookup_insert_ne by (intros ?%Block_Bytes_inj; done).
  - by apply (coherent_insert (λ b : Block EventID, b)).
Qed.

Lemma GetBlock_stored m ix s n :
  blocks_stored m ix s → is_u64 n → ∃ s', GetBlock n s = Ok (m !! n, s') ∧ blocks_stored m ix s'.
Proof.
  intros [Hb Hc Hi Hic] Hn. unfold GetBlock.
  pose proof (coherent_Get (λ b : Block EventID, b) m _ n Hc) as Hc'.
  pose proof (coherent_hit (λ b : Block EventID, b) m (bk_cBlocks s) n) as Hhit.
  destruct (wl_Get n (bk_cBlocks s)) as [[b|] c] eqn:Eg; cbn [fst snd] in *.
  - specialize (Hhit b Hc eq_refl). rewrite option_fmap_id in Hhit. rewrite Hhit. eexists. split; [done|]. by split.
  - rewrite (Hb n Hn). cbn [mbind res_bind]. eexists. split; [done|]. split; cbn; try done.
    destruct (m !! n) as [b|] eqn:E; [|done]. by apply (coherent_Add (λ b : Block EventID, b)).
Qed.

Lemma SetBlockIndex_stored m ix s id n :
  blocks_stored m ix s → is_u64 n → blocks_stored m (<[id := n]> ix) (SetBlockIndex id n s).
Proof.
  intros [Hb Hc Hi Hic] Hn. split; cbn [SetBlockIndex bk_Blocks bk_cBlocks bk_BlockHashes bk_cBlockHashes]; try done.
  - intros id'. destruct (decide (id = id')) as [->|Hne].
    + rewrite !lookup_insert_eq. cbn. by rewrite BytesToBlock_Bytes.
    + rewrite !lookup_insert_ne by (done || by intros ?%(inj id_Bytes)). apply Hi.
  - by apply (coherent_insert (λ n : Z, n)).
Qed.

Lemma GetBlockIndex_stored m ix s id :
  blocks_stored m ix s → (GetBlockIndex id s).1 = ix !! id ∧ blocks_stored m ix (GetBlockIndex id s).2.
Proof.
  intros [Hb Hc Hi Hic]. unfold GetBlockIndex.
  pose proof (coherent_Get (λ n : Z, n) ix _ id Hic) as Hc'. pose proof (coherent_hit (λ n : Z, n) ix (bk_cBlockHashes s) id) as Hhit.
  destruct (wl_Get id (bk_cBlockHashes s)) as [[n|] c] eqn:Eg; cbn [fst snd] in *.
  - specialize (Hhit n Hic eq_refl). rewrite option_fmap_id in Hhit. rewrite Hhit. split; [done|]. by split.
  - specialize (Hi id) as Hid. destruct (bk_BlockHashes s !! id_Bytes id) as [buf|]; cbn [fst snd fmap option_fmap option_map] in *.
    + split; [done|]. split; cbn; try done. by apply (coherent_Add (λ n : Z, n)).
    + split; [done|]. by split.
Qed.

(** A block that is stored with its index is found by its atropos, whatever is cached. *)
Theorem block_by_atropos m ix s n b :
  blocks_stored m ix s → is_u64 n →
  ∃ s1 s2, SetBlock n b (SetBlockIndex (bl_Atropos b) n s) = Ok s1 ∧
    (GetBlockIndex (bl_Atropos b) s1).1 = Some n ∧ GetBlock n (GetBlockIndex (bl_Atropos b) s1).2 = Ok (Some b, s2) ∧
    blocks_stored (<[n := b]> m) (<[bl_Atropos b := n]> ix) s2.
Proof.
  intros Hs Hn. destruct (SetBlock_stored m _ _ n b (SetBlockIndex_stored m ix s (bl_Atropos b) n Hs Hn) Hn) as (s1 & E1 & H1).
  destruct (GetBlockIndex_stored _ _ s1 (bl_Atropos b) H1) as [Ei H2].
  destruct (GetBlock_stored _ _ _ n H2 Hn) as (s2 & E2 & H3). rewrite !lookup_insert_eq in *.
  by exists s1, s2.
Qed.
End blocks_refine.

(** ** Concrete stores *)

(** A cache of one entry. *)
#[global] Instance last_cache {K V} `{Countable K} : Wlru K V (gmap K V) := {
  wl_Get k l := (l !! k, l);
  wl_Add k v _ _ := {[k := v]};
  wl_Remove k l := delete k l;
}.
#[global] Instance last_cache_laws {K V} `{Countable K} : WlruLaws K V (gmap K V).
Proof.
  refine {| wl_contents := (λ l : gmap K V, l) |}; try done. intros k v w l. cbn.
  rewrite <- insert_empty. apply insert_mono, map_empty_subseteq.
Defined.

#[global] Instance demo_EventBytes : EventBytes Hash := { BytesToEvent := to_Hash }.
#[global] Instance demo_EventBytesLaws : EventBytesLaws Hash.
Proof. split. intros id. apply to_Hash_eta. Qed.
#[global] Instance demo_RlpBytes : RlpBytes := { rlp_bytes b := b; rlp_Bytes b := Ok b }.
#[global] Instance demo_RlpBytesLaws : RlpBytesLaws.
Proof. done. Qed.
#[global] Instance demo_IdxBytes : IdxBytes := { ValidatorID_Bytes := be32; BytesToValidatorID := be_val }.
#[global] Instance demo_IdxBytesLaws : IdxBytesLaws.
Proof.
  split; [done|]. intros v Hv. unfold be32, be_val. cbn [BytesToValidatorID ValidatorID_Bytes demo_IdxBytes]. unfold be_val, be32. cbn [foldl].
  rewrite !Z.shiftr_div_pow2 by lia. go_lia.
Qed.

Definition demo_store : EventStore (gmap Hash (EventPayload Hash)) (gmap Hash (Event Hash)) := mkEventStore ∅ ∅ ∅.

Lemma demo_store_empty : stored demo_sha256 demo_EmptyTxHash demo_deriveChainId ∅ demo_store.
Proof. by split. Qed.

Lemma demo_event_storable : storable demo_sha256 demo_EmptyTxHash demo_deriveChainId demo_event.
Proof.
  split.
  - apply demo_ok.
  - eapply (Build_built demo_sha256 demo_EmptyTxHash demo_deriveChainId demo_mutable); [vm_compute; reflexivity|apply demo_ok].
  - vm_compute. reflexivity.
  - unfold fixEventTxHashes. rewrite !bool_decide_false by (vm_compute; congruence). reflexivity.
Qed.

(** An event is written, read with its header, deleted and read again. *)
Definition demo_store_ops : list store_op :=
  [OSet demo_event; OGetPayload (ID (ev_base (ep_event demo_event))); OGet (ID (ev_base (ep_event demo_event)));
   ODel (ID (ev_base (ep_event demo_event))); OGet (ID (ev_base (ep_event demo_event)))].

Lemma event_store_refines_witness :
  ∃ s', run_store_ops demo_sha256 demo_EmptyTxHash demo_deriveChainId demo_store_ops demo_store
    = Ok ([ADone; APayload (Some demo_event); AHeader (Some (ep_event demo_event)); ADone; AHeader None], s').
Proof.
  destruct (event_store_refines demo_sha256 demo_EmptyTxHash demo_deriveChainId demo_store_ops ∅ demo_store)
    as (s' & E & _).
  - apply demo_store_empty.
  - apply Forall_cons. split; [apply demo_event_storable|]. by repeat constructor.
  - exists s'. rewrite E. unfold demo_store_ops. cbn [spec_store_ops spec_store_op fst].
    by rewrite !lookup_insert_eq, lookup_delete_eq.
Defined.

Definition demo_epoch_store : epochStore Hash :=
  mkEpochStore 3 None None (Some {[demo_parent; zero_ID]}) (Some {[1 := demo_parent; 258 := zero_ID]}).

Lemma epoch_store_reload_witness :
  ∃ es', newEpochStore 3 (eps_LastEvents (FlushLastEvents (FlushHeads demo_epoch_store)))
      (eps_Heads (FlushLastEvents (FlushHeads demo_epoch_store))) = Ok es' ∧
    eps_cHeads es' = Some {[demo_parent; zero_ID]}.
Proof.
  destruct (epoch_store_reload (r1 := range_in_order) (r2 := range_in_order) demo_epoch_store
    {[demo_parent; zero_ID]} {[1 := demo_parent; 258 := zero_ID]}) as (_ & es' & E & Eh & _).
  - reflexivity.
  - reflexivity.
  - apply map_Forall_insert_2; [by_computation|]. apply map_Forall_singleton. by_computation.
  - exists es'. split; [exact E|exact Eh].
Defined.
