(* ===== verification/Rules.v ===== *)
(** * Network rules (zilionixx/rules.go)

    The rules of the main, test and fake networks, and their serialization.
    The RLP library is outside the repository: [RulesRLP_codec] is what
    [EncodeRLP] and [DecodeRLP] use of it, and [RulesRLP_laws] what they rely on. *)

From S2P Require Import Prelude Inter.

Definition MainNetworkID : Z := 90.
Definition TestNetworkID : Z := 93.
Definition FakeNetworkID : Z := 99.
Definition DefaultEventGas : Z := 28000.

(** Durations of Go's [time] package, in nanoseconds. *)
Definition Minute : Z := 60 * Second.
Definition Hour : Z := 60 * Minute.

Record GasPowerRules := mkGasPowerRules {
  AllocPerSec : Z;
  MaxAllocPeriod : Z;
  StartupAllocPeriod : Z;
  MinStartupGas : Z;
}.

Record GasRules := mkGasRules {
  MaxEventGas : Z;
  EventGas : Z;
  ParentGas : Z;
  ExtraDataGas : Z;
}.

Record EpochsRules := mkEpochsRules {
  MaxEpochGas : Z;
  MaxEpochDuration : Z;
}.

Record DagRules := mkDagRules {
  MaxParents : Z;
  MaxFreeParents : Z;
  MaxExtraData : Z;
}.

Record BlocksMissed := mkBlocksMissed { BlocksNum : Z; Period : Z }.

Record EconomyRules := mkEconomyRules {
  BlockMissedSlack : Z;
  GasR : GasRules;
  MinGasPrice : Z;
  ShortGasPower : GasPowerRules;
  LongGasPower : GasPowerRules;
}.

Record BlocksRules := mkBlocksRules {
  MaxBlockGas : Z;
  MaxEmptyBlockSkipPeriod : Z;
}.

Record Upgrades := mkUpgrades { Berlin : bool }.

#[global] Instance Upgrades_eq_dec : EqDecision Upgrades.
Proof. solve_decision. Defined.

Record Rules := mkRules {
  Name : string;
  NetworkID : Z;
  Dag : DagRules;
  Epochs : EpochsRules;
  Blocks : BlocksRules;
  Economy : EconomyRules;
  Upgr : Upgrades;
}.

Definition Upgrades_zero : Upgrades := mkUpgrades false.

(** ** The networks *)

Definition DefaulLongGasPowerRules : GasPowerRules :=
  mkGasPowerRules (100 * DefaultEventGas) (60 * Minute) (5 * Second) (DefaultEventGas * 20).

Definition DefaultShortGasPowerRules : GasPowerRules :=
  let cfg := DefaulLongGasPowerRules in
  mkGasPowerRules (u64 (AllocPerSec cfg * 2)) (MaxAllocPeriod cfg / (2 * 6))
    (StartupAllocPeriod cfg / 2) (MinStartupGas cfg).

Definition FakeLongGasPowerRules : GasPowerRules :=
  let config := DefaulLongGasPowerRules in
  mkGasPowerRules (u64 (AllocPerSec config * 1000)) (MaxAllocPeriod config)
    (StartupAllocPeriod config) (MinStartupGas config).

Definition FakeShortGasPowerRules : GasPowerRules :=
  let config := DefaultShortGasPowerRules in
  mkGasPowerRules (u64 (AllocPerSec config * 1000)) (MaxAllocPeriod config)
    (StartupAllocPeriod config) (MinStartupGas config).

Definition DefaultGasRules : GasRules :=
  mkGasRules (10000000 + DefaultEventGas) DefaultEventGas 2400 25.

Definition DefaultDagRules : DagRules := mkDagRules 10 3 128.

Definition DefaultEpochsRules : EpochsRules := mkEpochsRules 1500000000 (4 * Hour).

Definition FakeNetEpochsRules : EpochsRules :=
  let cfg := DefaultEpochsRules in
  mkEpochsRules (MaxEpochGas cfg / 5) (10 * Minute).

Definition DefaultEconomyRules : EconomyRules :=
  mkEconomyRules 50 DefaultGasRules 1000000000 DefaultShortGasPowerRules DefaulLongGasPowerRules.

Definition FakeEconomyRules : EconomyRules :=
  let cfg := DefaultEconomyRules in
  mkEconomyRules (BlockMissedSlack cfg) (GasR cfg) (MinGasPrice cfg)
    FakeShortGasPowerRules FakeLongGasPowerRules.

Definition MainNetRules : Rules :=
  mkRules "main" MainNetworkID DefaultDagRules DefaultEpochsRules
    (mkBlocksRules 20500000 (1 * Minute)) DefaultEconomyRules Upgrades_zero.

Definition TestNetRules : Rules :=
  mkRules "test" TestNetworkID DefaultDagRules DefaultEpochsRules
    (mkBlocksRules 20500000 (1 * Minute)) DefaultEconomyRules Upgrades_zero.

Definition FakeNetRules : Rules :=
  mkRules "fake" FakeNetworkID DefaultDagRules FakeNetEpochsRules
    (mkBlocksRules 20500000 (3 * Second)) FakeEconomyRules Upgrades_zero.

(** ** RLP

    [EncodeRLP] writes a type byte only when an upgrade is on, so that the rules
    of networks without upgrades keep the original format. *)

Inductive Kind := Byte | String | List.

#[global] Instance Kind_eq_dec : EqDecision Kind.
Proof. solve_decision. Defined.

Definition errEmptyTyped : error := NewError "empty typed".
Definition errUnknownType : error := NewError "unknown type".

(** What the code uses of the RLP library.  [rlp_body r] is [rlp.Encode] of
    [RulesRLP(r)], whose [Upgrades] field is skipped by its tag. *)
Class RulesRLP_codec := {
  rlp_body : Rules → list Z;
  rlp_upgrades : Upgrades → list Z;
  rlp_Kind : list Z → res Kind;
  rlp_Bytes : list Z → res (list Z * list Z);
  rlp_Decode_body : list Z → res (Rules * list Z);
  rlp_Decode_upgrades : list Z → res (Upgrades * list Z);
}.

Section rlp.
Context `{RulesRLP_codec}.

Definition EncodeRLP (r : Rules) : list Z :=
  let rType := if bool_decide (Upgr r = Upgrades_zero) then 0 else 1 in
  (if rType =? 0 then [] else [rType])
  ++ rlp_body r
  ++ (if 0 <? rType then rlp_upgrades (Upgr r) else []).

Definition with_Upgrades (r : Rules) (u : Upgrades) : Rules :=
  mkRules (Name r) (NetworkID r) (Dag r) (Epochs r) (Blocks r) (Economy r) u.

Definition DecodeRLP (s : list Z) : res (Rules * list Z) :=
  kind ← rlp_Kind s;
  '(rType, s) ← (if bool_decide (kind = Byte) then
      '(b, s) ← rlp_Bytes s;
      match b with
      | [] => Err errEmptyTyped
      | rType :: _ => if (rType =? 0) || (1 <? rType) then Err errUnknownType
                      else Ok (rType, s)
      end
    else Ok (0, s));
  '(r, s) ← rlp_Decode_body s;
  if 1 <=? rType then
    '(u, s) ← rlp_Decode_upgrades s;
    Ok (with_Upgrades r u, s)
  else Ok (r, s).
End rlp.

(** The documented behaviour of the library: a struct is encoded as a list, a
    byte below 128 as itself, and decoding an encoding gives the value back,
    skipped fields being left at their zero value. *)
Class RulesRLP_laws `{RulesRLP_codec} := {
  Kind_byte : ∀ b s, 0 <= b < 128 → rlp_Kind (b :: s) = Ok Byte;
  Kind_body : ∀ r s, rlp_Kind (rlp_body r ++ s) = Ok List;
  Bytes_byte : ∀ b s, 0 <= b < 128 → rlp_Bytes (b :: s) = Ok ([b], s);
  Decode_body : ∀ r s,
    rlp_Decode_body (rlp_body r ++ s) = Ok (with_Upgrades r Upgrades_zero, s);
  Decode_upgrades : ∀ u s, rlp_Decode_upgrades (rlp_upgrades u ++ s) = Ok (u, s);
}.

Section rlp_laws.
Context `{RulesRLP_laws}.

(** Rules written with [EncodeRLP] and read with [DecodeRLP] are the same
    rules, with or without upgrades, and the rest of the stream is left alone. *)
Theorem rules_rlp_roundtrip r s : DecodeRLP (EncodeRLP r ++ s) = Ok (r, s).
Proof.
  unfold EncodeRLP, DecodeRLP. case_bool_decide as Hu; cbn [Z.eqb Z.ltb Z.compare app].
  - rewrite app_nil_r, Kind_body. cbn [mbind res_bind].
    rewrite bool_decide_false by done. cbn [mbind res_bind]. rewrite Decode_body.
    destruct r; cbn in *. by subst.
  - rewrite Kind_byte by lia. cbn [mbind res_bind]. rewrite bool_decide_true by done.
    rewrite Bytes_byte by lia. cbn [mbind res_bind].
    change ((1 =? 0) || (1 <? 1)) with false. cbn [mbind res_bind].
    rewrite <- app_assoc, Decode_body. change (1 <=? 1) with true. cbn [mbind res_bind].
    rewrite Decode_upgrades. by destruct r.
Qed.
End rlp_laws.

(** ** Sanity of the networks' rules *)

(** Values that the gas power computations multiply stay far from [2^64]. *)
Definition GasPowerRules_ok (g : GasPowerRules) : Prop :=
  0 < AllocPerSec g ∧ 0 <= MaxAllocPeriod g ∧ 0 <= StartupAllocPeriod g ∧ 0 <= MinStartupGas g ∧
  AllocPerSec g * (MaxAllocPeriod g / Second) < 2 ^ 63 ∧
  AllocPerSec g * (StartupAllocPeriod g / Second) < 2 ^ 63 ∧ MinStartupGas g < 2 ^ 63.

#[global] Instance GasPowerRules_ok_dec g : Decision (GasPowerRules_ok g).
Proof. unfold GasPowerRules_ok. apply _. Defined.

Definition Rules_ok (r : Rules) : Prop :=
  GasPowerRules_ok (ShortGasPower (Economy r)) ∧ GasPowerRules_ok (LongGasPower (Economy r)) ∧
  MaxFreeParents (Dag r) <= MaxParents (Dag r) ∧
  EventGas (GasR (Economy r)) <= MaxEventGas (GasR (Economy r)) ∧
  MaxEventGas (GasR (Economy r)) <= MaxBlockGas (Blocks r) ∧
  MaxBlockGas (Blocks r) <= MaxEpochGas (Epochs r).

#[global] Instance Rules_ok_dec r : Decision (Rules_ok r).
Proof. unfold Rules_ok. apply _. Defined.

(** In every network, an event fits a block, a block fits an epoch, an event
    without transactions fits the event limit, and the gas power computations of
    both windows stay below [2^63]. *)
Theorem networks_rules_ok : Forall Rules_ok [MainNetRules; TestNetRules; FakeNetRules].
Proof. apply (bool_decide_unpack _). vm_compute. exact I. Qed.

(** ** A concrete codec

    Every field is one cell of the stream, the name its length and its
    characters: enough to show that the laws can hold. *)

Definition demo_name (s : string) : list Z :=
  len (String.list_ascii_of_string s)
  :: (Z.of_nat ∘ Ascii.nat_of_ascii <$> String.list_ascii_of_string s).

Definition demo_fields (r : Rules) : list Z :=
  let g := GasR (Economy r) in
  let sg := ShortGasPower (Economy r) in
  let lg := LongGasPower (Economy r) in
  [NetworkID r; MaxParents (Dag r); MaxFreeParents (Dag r); MaxExtraData (Dag r);
   MaxEpochGas (Epochs r); MaxEpochDuration (Epochs r);
   MaxBlockGas (Blocks r); MaxEmptyBlockSkipPeriod (Blocks r);
   BlockMissedSlack (Economy r); MaxEventGas g; EventGas g; ParentGas g; ExtraDataGas g;
   MinGasPrice (Economy r);
   AllocPerSec sg; MaxAllocPeriod sg; StartupAllocPeriod sg; MinStartupGas sg;
   AllocPerSec lg; MaxAllocPeriod lg; StartupAllocPeriod lg; MinStartupGas lg].

Definition demo_read (s : list Z) : res (Rules * list Z) :=
  match s with
  | _ :: n :: s =>
      let name := String.string_of_list_ascii (Ascii.ascii_of_nat ∘ Z.to_nat <$> take (Z.to_nat n) s) in
      match drop (Z.to_nat n) s with
      | a :: b :: c :: d :: e :: f :: g :: h :: i :: j :: k :: l :: m :: o
        :: p :: q :: r :: t :: u :: v :: w :: x :: rest =>
          Ok (mkRules name a (mkDagRules b c d) (mkEpochsRules e f) (mkBlocksRules g h)
               (mkEconomyRules i (mkGasRules j k l m) o (mkGasPowerRules p q r t)
                 (mkGasPowerRules u v w x)) Upgrades_zero, rest)
      | _ => Err errUnknownType
      end
  | _ => Err errUnknownType
  end.

#[global] Instance demo_codec : RulesRLP_codec := {
  rlp_body r := 192 :: demo_name (Name r) ++ demo_fields r;
  rlp_upgrades u := [193; if Berlin u then 1 else 0];
  rlp_Kind s := match s with
                | [] => Err errEmptyTyped
                | b :: _ => Ok (if b <? 128 then Byte else if b <? 192 then String else List)
                end;
  rlp_Bytes s := match s with [] => Err errEmptyTyped | b :: s' => Ok ([b], s') end;
  rlp_Decode_body := demo_read;
  rlp_Decode_upgrades s := match s with
                           | _ :: b :: s' => Ok (mkUpgrades (b =? 1), s')
                           | _ => Err errUnknownType
                           end;
}.

Lemma demo_name_inv s rest :
  String.string_of_list_ascii (Ascii.ascii_of_nat ∘ Z.to_nat <$>
    take (Z.to_nat (len (String.list_ascii_of_string s)))
      ((Z.of_nat ∘ Ascii.nat_of_ascii <$> String.list_ascii_of_string s) ++ rest)) = s.
Proof.
  unfold len. rewrite Nat2Z.id, take_app_length' by (by rewrite length_fmap).
  rewrite <- list_fmap_compose.
  rewrite (list_fmap_ext _ id); [rewrite list_fmap_id; apply String.string_of_list_ascii_of_string|].
  intros _ a _. cbn. by rewrite Nat2Z.id, Ascii.ascii_nat_embedding.
Qed.

#[global] Instance demo_laws : RulesRLP_laws.
Proof.
  split; cbn [rlp_Kind rlp_Bytes rlp_body rlp_upgrades rlp_Decode_body rlp_Decode_upgrades demo_codec].
  - intros b s Hb. by rewrite (proj2 (Z.ltb_lt _ _)) by lia.
  - done.
  - done.
  - intros r s. unfold demo_name. cbn [app demo_read]. rewrite <- app_assoc, demo_name_inv.
    unfold len. rewrite Nat2Z.id, drop_app_length' by (by rewrite length_fmap).
    by destruct r as [? ? [] [] [] [? [] ? [] []] ?].
  - intros [[]] s; done.
Qed.

Lemma rules_rlp_roundtrip_witness :
  DecodeRLP (EncodeRLP (with_Upgrades FakeNetRules (mkUpgrades true)) ++ [7]) =
  Ok (with_Upgrades FakeNetRules (mkUpgrades true), [7]).
Proof. apply (rules_rlp_roundtrip (with_Upgrades FakeNetRules (mkUpgrades true)) [7]). Defined.
