(* ===== verification/Pos.v ===== *)
(** * Validator groups: the interface of [pos.Validators]

    The consensus library that defines validator groups is outside the
    repository.  The class states what the code uses of it; [PosLaws] its
    documented behaviour.  A group of (identifier, weight) pairs is an instance. *)

From S2P Require Import Prelude.

(** [Get] of an unknown identifier is zero, as a Go map's lookup is; [GetIdx] of
    an unknown identifier is zero as well. *)
Class Pos (V : Type) := {
  vv_IDs : V → list Z;
  vv_Get : V → Z → Z;
  vv_GetIdx : V → Z → Z;
  vv_TotalWeight : V → Z;
  vv_GetWeightByIdx : V → Z → Z;
}.

Definition vv_Exists {V} `{Pos V} (vv : V) (id : Z) : bool := bool_decide (id ∈ vv_IDs vv).
Definition vv_Len {V} `{Pos V} (vv : V) : Z := len (vv_IDs vv).

Definition sum_Z (l : list Z) : Z := foldr Z.add 0 l.

Class PosLaws (V : Type) `{Pos V} := {
  vv_NoDup : ∀ vv, NoDup (vv_IDs vv);
  vv_Get_in : ∀ vv id, id ∈ vv_IDs vv → 0 < vv_Get vv id < 2 ^ 32;
  vv_Get_out : ∀ vv id, id ∉ vv_IDs vv → vv_Get vv id = 0;
  vv_GetIdx_in : ∀ vv id, id ∈ vv_IDs vv →
    0 <= vv_GetIdx vv id ∧ vv_IDs vv !! Z.to_nat (vv_GetIdx vv id) = Some id;
  vv_TotalWeight_sum : ∀ vv, vv_TotalWeight vv = sum_Z (vv_Get vv <$> vv_IDs vv);
  vv_TotalWeight_range : ∀ vv, 0 <= vv_TotalWeight vv < 2 ^ 32;
  vv_GetWeightByIdx_spec : ∀ vv (i : nat) id, vv_IDs vv !! i = Some id →
    vv_GetWeightByIdx vv (Z.of_nat i) = vv_Get vv id;
}.

Lemma sum_Z_app l k : sum_Z (l ++ k) = sum_Z l + sum_Z k.
Proof. induction l as [|x l IH]; cbn; [done|]. unfold sum_Z in *. cbn. lia. Qed.

Lemma sum_Z_nonneg l : Forall (λ x, 0 <= x) l → 0 <= sum_Z l.
Proof. unfold sum_Z. induction 1; cbn; lia. Qed.

Lemma sum_Z_perm l k : l ≡ₚ k → sum_Z l = sum_Z k.
Proof. unfold sum_Z. induction 1; cbn; lia. Qed.

Lemma sum_Z_elem x l : Forall (λ x, 0 <= x) l → x ∈ l → x <= sum_Z l.
Proof.
  intros Hl Hx. apply list_elem_of_split in Hx as (a & b & ->). rewrite sum_Z_app.
  apply Forall_app in Hl as [Ha Hb]. apply Forall_cons in Hb as [_ Hb].
  apply sum_Z_nonneg in Ha, Hb. unfold sum_Z in *. cbn. lia.
Qed.

Lemma sum_Z_submseteq l k : Forall (λ x, 0 <= x) k → l ⊆+ k → sum_Z l <= sum_Z k.
Proof.
  intros Hk Hs. apply submseteq_Permutation in Hs as [r Hp]. rewrite (sum_Z_perm _ _ Hp), sum_Z_app.
  rewrite Hp in Hk. apply Forall_app in Hk as [_ Hr]. apply sum_Z_nonneg in Hr. lia.
Qed.

Section laws.
Context {V : Type} `{PosLaws V}.

Lemma vv_Get_nonneg vv id : 0 <= vv_Get vv id < 2 ^ 32.
Proof.
  destruct (decide (id ∈ vv_IDs vv)) as [Hi|Hi].
  - pose proof (vv_Get_in vv id Hi). lia.
  - rewrite vv_Get_out by done. lia.
Qed.

Lemma vv_Get_zero vv id : vv_Get vv id = 0 ↔ id ∉ vv_IDs vv.
Proof.
  split; [|apply vv_Get_out]. intros Hz Hi. pose proof (vv_Get_in vv id Hi). lia.
Qed.

Lemma vv_Get_TotalWeight vv id : vv_Get vv id <= vv_TotalWeight vv.
Proof.
  rewrite vv_TotalWeight_sum. destruct (decide (id ∈ vv_IDs vv)) as [Hi|Hi].
  - apply sum_Z_elem; [|by apply list_elem_of_fmap_2].
    apply Forall_fmap, Forall_true. intros x. apply vv_Get_nonneg.
  - rewrite vv_Get_out by done. apply sum_Z_nonneg, Forall_fmap, Forall_true.
    intros x. apply vv_Get_nonneg.
Qed.

Lemma vv_GetIdx_lt vv id : id ∈ vv_IDs vv → (Z.to_nat (vv_GetIdx vv id) < length (vv_IDs vv))%nat.
Proof. intros Hi. eapply lookup_lt_Some, vv_GetIdx_in, Hi. Qed.

Lemma vv_GetIdx_inj vv a b :
  a ∈ vv_IDs vv → b ∈ vv_IDs vv → vv_GetIdx vv a = vv_GetIdx vv b → a = b.
Proof.
  intros Ha Hb E. destruct (vv_GetIdx_in vv a Ha) as [_ La].
  destruct (vv_GetIdx_in vv b Hb) as [_ Lb]. rewrite E in La. congruence.
Qed.
End laws.

(** ** An instance: identifiers and weights in order *)

Definition pairs_ok (l : list (Z * Z)) : Prop :=
  NoDup l.*1 ∧ Forall (λ p, 0 < p.2 < 2 ^ 32) l ∧ sum_Z l.*2 < 2 ^ 32.
#[global] Instance pairs_ok_dec l : Decision (pairs_ok l).
Proof. unfold pairs_ok. apply _. Defined.

Definition Group : Type := dsig pairs_ok.

Fixpoint pairs_get (l : list (Z * Z)) (id : Z) : Z :=
  match l with
  | [] => 0
  | (i, w) :: l' => if decide (i = id) then w else pairs_get l' id
  end.

Fixpoint pairs_idx (l : list (Z * Z)) (id : Z) : option nat :=
  match l with
  | [] => None
  | (i, w) :: l' => if decide (i = id) then Some O else S <$> pairs_idx l' id
  end.

#[global] Instance Group_Pos : Pos Group := {
  vv_IDs g := (`g).*1;
  vv_Get g := pairs_get (`g);
  vv_GetIdx g id := Z.of_nat (default O (pairs_idx (`g) id));
  vv_TotalWeight g := sum_Z (`g).*2;
  vv_GetWeightByIdx g i := default 0 ((`g).*2 !! Z.to_nat i);
}.

Lemma pairs_get_in l id : pairs_ok l → id ∈ l.*1 → 0 < pairs_get l id < 2 ^ 32.
Proof.
  intros (_ & Hw & _). induction Hw as [|[i w] l Hp _ IH]; cbn; [by rewrite elem_of_nil|].
  case_decide; [done|]. rewrite elem_of_cons. intros [->|?]; [done|by apply IH].
Qed.

Lemma pairs_get_out l id : id ∉ l.*1 → pairs_get l id = 0.
Proof.
  induction l as [|[i w] l IH]; cbn; [done|]. rewrite not_elem_of_cons. intros [? ?].
  by rewrite decide_False, IH.
Qed.

Lemma pairs_idx_is_Some l id : id ∈ l.*1 → is_Some (pairs_idx l id).
Proof.
  induction l as [|[i w] l IH]; cbn; [by rewrite elem_of_nil|].
  case_decide; [done|]. rewrite elem_of_cons. intros [->|Hin]; [done|].
  destruct (IH Hin) as [n ->]. done.
Qed.

Lemma pairs_idx_in l id : id ∈ l.*1 → l.*1 !! default O (pairs_idx l id) = Some id.
Proof.
  induction l as [|[i w] l IH]; cbn; [by rewrite elem_of_nil|].
  case_decide as Hi; [by subst|]. rewrite elem_of_cons. intros [->|Hin]; [done|].
  specialize (IH Hin). destruct (pairs_idx_is_Some l id Hin) as [n E].
  rewrite E in *. done.
Qed.

Lemma pairs_sum l : NoDup l.*1 → sum_Z l.*2 = sum_Z (pairs_get l <$> l.*1).
Proof.
  induction l as [|[i w] l IH]; cbn; [done|]. rewrite NoDup_cons. intros [Hi Hn].
  rewrite decide_True by done. unfold sum_Z in *. cbn. rewrite IH by done. f_equal. f_equal.
  apply list_fmap_ext. intros n x Hx. cbn. rewrite decide_False; [done|].
  intros <-. apply Hi. by eapply list_elem_of_lookup_2.
Qed.

Lemma pairs_get_idx l i id :
  NoDup l.*1 → l.*1 !! i = Some id → default 0 (l.*2 !! i) = pairs_get l id.
Proof.
  revert i. induction l as [|[j w] l IH]; intros i Hn Hi; [done|]. cbn in *.
  apply NoDup_cons in Hn as [Hj Hn]. destruct i as [|i]; cbn in *.
  - injection Hi as ->. by rewrite decide_True.
  - rewrite decide_False; [by apply IH|]. intros ->. apply Hj. by eapply list_elem_of_lookup_2.
Qed.

#[global] Instance Group_laws : PosLaws Group.
Proof.
  split; intros g; cbn [vv_IDs vv_Get vv_GetIdx vv_TotalWeight vv_GetWeightByIdx Group_Pos];
    pose proof (proj2_dsig g) as (Hn & Hw & Hs); cbn in *.
  - done.
  - intros id. by apply pairs_get_in.
  - intros id. apply pairs_get_out.
  - intros id Hid. split; [lia|]. rewrite Nat2Z.id. by apply pairs_idx_in.
  - by apply pairs_sum.
  - split; [|done]. apply sum_Z_nonneg, Forall_fmap. eapply Forall_impl; [exact Hw|].
    intros [? ?] ?. cbn in *. lia.
  - intros i id Hi. rewrite Nat2Z.id. by apply pairs_get_idx.
Qed.

Definition demo_group : Group :=
  dexist [(1, 60); (2, 30); (3, 10)] (bool_decide_unpack (pairs_ok [(1, 60); (2, 30); (3, 10)]) I).
