(* ===== verification/Shuffle.v ===== *)
(** * Weighted permutations and the turns of validators
    (utils/weighted_shuffle.go, the turns of gossip/emitter/txs.go)

    [WeightedPermutation] draws positions without replacement, with probability
    proportional to the weights, from a binary tree of partial sums and a stream of
    hashes.  Validators use it to agree, without messages, on who originates a
    transaction first ([isMyTxTurn]).

    The tree of an array is described by [Idx], the positions below a node; the
    invariant says that a node holds the weights that are left below it. *)

From S2P Require Import Prelude Pos.

(** SHA-256 and the little-endian decoding of the consensus library. *)
Class ShuffleLib := {
  sha256 : list Z → list Z;
  BytesToUint32 : list Z → Z;
}.
Class ShuffleLibLaws `{ShuffleLib} := {
  sha256_len : ∀ b, length (sha256 b) = 32%nat;
  BytesToUint32_range : ∀ b, is_u32 (BytesToUint32 b);
}.

Record weightedShuffleNode := mkNode { thisWeight : Z; leftWeight : Z; rightWeight : Z }.

(** Positions, Go's [int]s, are natural numbers here: none is negative. *)
Record weightedShuffleTree := mkTree {
  ws_seed : list Z;
  ws_seedIndex : nat;
  ws_weights : list Z;
  ws_nodes : list weightedShuffleNode;
}.

Section shuffle.
Context `{ShuffleLib}.

Definition leftIndex (i : nat) : nat := i * 2 + 1.
Definition rightIndex (i : nat) : nat := i * 2 + 2.

Definition set_nodes (nodes : list weightedShuffleNode) (t : weightedShuffleTree) : weightedShuffleTree :=
  mkTree (ws_seed t) (ws_seedIndex t) (ws_weights t) nodes.

Fixpoint build (fuel : nat) (i : nat) (t : weightedShuffleTree) : res (Z * weightedShuffleTree) :=
  if (length (ws_weights t) <=? i)%nat then Ok (0, t)
  else match fuel with
  | O => Panic
  | S fuel' =>
      thisW ← deref (ws_weights t !! i);
      '(leftW, t) ← build fuel' (leftIndex i) t;
      '(rightW, t) ← build fuel' (rightIndex i) t;
      if thisW <=? 0 then Panic
      else
        t ← (if (i <? length (ws_nodes t))%nat
             then Ok (set_nodes (<[i := mkNode thisW leftW rightW]> (ws_nodes t)) t) else Panic);
        Ok (u32 (u32 (thisW + leftW) + rightW), t)
  end.

Definition rand32 (t : weightedShuffleTree) : res (Z * weightedShuffleTree) :=
  let t := if (ws_seedIndex t =? 32)%nat
           then mkTree (sha256 (ws_seed t)) 0 (ws_weights t) (ws_nodes t) else t in
  if (ws_seedIndex t + 4 <=? length (ws_seed t))%nat
  then Ok (BytesToUint32 (take 4 (drop (ws_seedIndex t) (ws_seed t))),
           mkTree (ws_seed t) (ws_seedIndex t + 4) (ws_weights t) (ws_nodes t))
  else Panic.

Definition set_this (w : Z) (n : weightedShuffleNode) := mkNode w (leftWeight n) (rightWeight n).
Definition sub_left (w : Z) (n : weightedShuffleNode) :=
  mkNode (thisWeight n) (u32 (leftWeight n - w)) (rightWeight n).
Definition sub_right (w : Z) (n : weightedShuffleNode) :=
  mkNode (thisWeight n) (leftWeight n) (u32 (rightWeight n - w)).

Fixpoint retrieve (fuel : nat) (i : nat) (t : weightedShuffleTree) : res (nat * weightedShuffleTree) :=
  match fuel with
  | O => Panic
  | S fuel' =>
      node ← deref (ws_nodes t !! i);
      let total := u32 (u32 (rightWeight node + leftWeight node) + thisWeight node) in
      '(rnd, t) ← rand32 t;
      r ← (if total =? 0 then Panic else Ok (rnd mod total));
      if r <? thisWeight node then Ok (i, set_nodes (alter (set_this 0) i (ws_nodes t)) t)
      else if r <? u32 (thisWeight node + leftWeight node) then
        '(chosen, t) ← retrieve fuel' (leftIndex i) t;
        w ← deref (ws_weights t !! chosen);
        Ok (chosen, set_nodes (alter (sub_left w) i (ws_nodes t)) t)
      else
        '(chosen, t) ← retrieve fuel' (rightIndex i) t;
        w ← deref (ws_weights t !! chosen);
        Ok (chosen, set_nodes (alter (sub_right w) i (ws_nodes t)) t)
  end.

(** [for i := 0; i < size; i++ { permutation[i] = tree.retrieve(0) }] *)
Fixpoint retrieves (size : nat) (t : weightedShuffleTree) : res (list nat) :=
  match size with
  | O => Ok []
  | S size' =>
      '(c, t) ← retrieve (length (ws_weights t)) 0 t;
      cs ← retrieves size' t;
      Ok (c :: cs)
  end.

Definition WeightedPermutation (size : nat) (weights : list Z) (seed : list Z) : res (list nat) :=
  if (length weights <? size)%nat then Panic
  else if (length weights =? 0)%nat then Ok []
  else
    '(_, tree) ← build (length weights) 0
                   (mkTree seed 0 weights (replicate (length weights) (mkNode 0 0 0)));
    retrieves size tree.
End shuffle.

(** ** The positions below a node *)

Section tree.
Variable n : nat.

Fixpoint idx (k i : nat) : list nat :=
  match k with
  | O => []
  | S k' => if (n <=? i)%nat then [] else i :: idx k' (leftIndex i) ++ idx k' (rightIndex i)
  end.
Definition Idx (i : nat) : list nat := idx n i.

Lemma idx_fuel k k' i : (n <= i + k)%nat → (n <= i + k')%nat → idx k i = idx k' i.
Proof.
  revert k' i. induction k as [|k IH]; intros [|k'] i Hk Hk'; cbn [idx]; [done|..].
  - by rewrite (proj2 (Nat.leb_le n i)) by lia.
  - by rewrite (proj2 (Nat.leb_le n i)) by lia.
  - destruct (Nat.leb_spec n i); [done|]. unfold leftIndex, rightIndex.
    by rewrite (IH k' (i * 2 + 1)%nat), (IH k' (i * 2 + 2)%nat) by lia.
Qed.

Lemma Idx_out i : (n <= i)%nat → Idx i = [].
Proof. intros Hi. unfold Idx. rewrite (idx_fuel n 0 i) by lia. done. Qed.

Lemma Idx_in i : (i < n)%nat → Idx i = i :: Idx (leftIndex i) ++ Idx (rightIndex i).
Proof.
  intros Hi. unfold Idx. rewrite (idx_fuel n (S n) i) by lia. cbn [idx].
  by rewrite (proj2 (Nat.leb_gt n i)) by lia.
Qed.

(** [c] lies below [i] when halving [c + 1] reaches [i + 1]. *)
Definition below (i c : nat) : Prop := ∃ d, ((c + 1) / 2 ^ d)%nat = (i + 1)%nat.

Lemma below_child (b i c : nat) : (b < 2)%nat → below (i * 2 + 1 + b) c → below i c.
Proof.
  intros Hb [d Hd]. exists (S d). rewrite Nat.pow_succ_r', Nat.mul_comm, <- Nat.Div0.div_div, Hd.
  replace (i * 2 + 1 + b + 1)%nat with (b + (i + 1) * 2)%nat by lia.
  rewrite Nat.div_add, Nat.div_small by lia. lia.
Qed.

Lemma below_le i c : below i c → (i <= c)%nat.
Proof. intros [d Hd]. pose proof (Nat.Div0.div_le_upper_bound (c + 1) (2 ^ d) (c + 1)).
  assert (1 <= 2 ^ d)%nat by (apply Nat.le_succ_l, Nat.neq_0_lt_0, Nat.pow_nonzero; lia). nia.
Qed.

Lemma below_halves (m x d e : nat) :
  (x / 2 ^ d = 2 * m)%nat → (x / 2 ^ e = 2 * m + 1)%nat → (d < e)%nat → (1 <= m)%nat → False.
Proof.
  intros Hd He Hlt Hm. replace e with (d + (e - d))%nat in He by lia.
  rewrite Nat.pow_add_r, <- Nat.Div0.div_div, Hd in He.
  assert (2 * m / 2 ^ (e - d) <= 2 * m)%nat; [|lia].
  apply Nat.Div0.div_le_upper_bound.
  assert (1 <= 2 ^ (e - d))%nat by (apply Nat.le_succ_l, Nat.neq_0_lt_0, Nat.pow_nonzero; lia). nia.
Qed.

Lemma below_halves' (m x d e : nat) :
  (x / 2 ^ d = 2 * m)%nat → (x / 2 ^ e = 2 * m + 1)%nat → (e < d)%nat → (1 <= m)%nat → False.
Proof.
  intros Hd He Hlt Hm. replace d with (e + (d - e))%nat in Hd by lia.
  rewrite Nat.pow_add_r, <- Nat.Div0.div_div, He in Hd.
  assert ((2 * m + 1) / 2 ^ (d - e) <= m)%nat; [|lia].
  assert (2 <= 2 ^ (d - e))%nat.
  { replace (d - e)%nat with (S (d - e - 1)) by lia. rewrite Nat.pow_succ_r'.
    assert (2 ^ (d - e - 1) ≠ 0)%nat by (apply Nat.pow_nonzero; lia). lia. }
  transitivity ((2 * m + 1) / 2)%nat; [apply Nat.div_le_compat_l; lia|].
  rewrite Nat.mul_comm, Nat.add_comm, Nat.div_add by lia. cbn. lia.
Qed.

Lemma below_disjoint i c : below (leftIndex i) c → below (rightIndex i) c → False.
Proof.
  unfold leftIndex, rightIndex. intros [d Hd] [e He].
  replace (i * 2 + 1 + 1)%nat with (2 * (i + 1))%nat in Hd by lia.
  replace (i * 2 + 2 + 1)%nat with (2 * (i + 1) + 1)%nat in He by lia.
  destruct (Nat.lt_trichotomy d e) as [Hlt|[->|Hlt]]; [by eapply below_halves; eauto; lia|lia|].
  by eapply below_halves'; eauto; lia.
Qed.

Lemma idx_below k i c : c ∈ idx k i → below i c ∧ (c < n)%nat.
Proof.
  revert i. induction k as [|k IH]; intros i; cbn [idx]; [by intros ?%not_elem_of_nil|].
  destruct (Nat.leb_spec n i); [by intros ?%not_elem_of_nil|].
  intros [->|[Hc|Hc]%elem_of_app]%elem_of_cons.
  - split; [exists 0%nat; by rewrite Nat.pow_0_r, Nat.div_1_r|done].
  - destruct (IH _ Hc) as [Hb Hn]. split; [|done]. apply (below_child 0); [lia|].
    unfold leftIndex in Hb. by rewrite Nat.add_0_r.
  - destruct (IH _ Hc) as [Hb Hn]. split; [|done]. apply (below_child 1); [lia|].
    unfold rightIndex in Hb. by replace (i * 2 + 1 + 1)%nat with (i * 2 + 2)%nat by lia.
Qed.

Lemma Idx_lt i c : c ∈ Idx i → (c < n)%nat.
Proof. apply idx_below. Qed.

(** The three parts of a subtree are disjoint. *)
Lemma Idx_parts i c :
  (c ∈ Idx (leftIndex i) → c ∉ Idx (rightIndex i) ∧ c ≠ i) ∧ (c ∈ Idx (rightIndex i) → c ≠ i).
Proof.
  split; intros Hc; pose proof (idx_below _ _ _ Hc) as [Hb _].
  - split; [|apply below_le in Hb; unfold leftIndex in Hb; lia].
    intros [Hb' _]%idx_below. by eapply below_disjoint.
  - apply below_le in Hb. unfold rightIndex in Hb. lia.
Qed.

Lemma Idx_NoDup i : NoDup (Idx i).
Proof.
  assert (Hgen : ∀ k i, (n <= i + k)%nat → NoDup (Idx i)); [|apply (Hgen n); lia].
  clear i. induction k as [|k IH]; intros i Hk.
  { rewrite Idx_out by lia. constructor. }
  destruct (decide (n <= i)%nat) as [Hi|Hi]; [rewrite Idx_out by lia; constructor|].
  rewrite Idx_in by lia. constructor.
  - rewrite elem_of_app. intros [Hc|Hc]; by apply (Idx_parts i) in Hc as [].
  - apply NoDup_app. split; [apply IH; unfold leftIndex; lia|]. split; [|apply IH; unfold rightIndex; lia].
    intros c Hc. by apply (Idx_parts i) in Hc as [].
Qed.

Lemma below_Idx c i : below i c → (c < n)%nat → c ∈ Idx i.
Proof.
  intros [d Hd] Hc. revert i Hd. induction d as [|d IH]; intros i Hd.
  { rewrite Nat.pow_0_r, Nat.div_1_r in Hd. assert (c = i) as -> by lia. rewrite Idx_in by done. by left. }
  assert (Hi : (i < n)%nat) by (pose proof (below_le i c (ex_intro _ _ Hd)); lia).
  rewrite Idx_in by done. rewrite Nat.pow_succ_r', Nat.mul_comm, <- Nat.Div0.div_div in Hd.
  pose proof (Nat.div_mod ((c + 1) / 2 ^ d) 2) as Hdm. rewrite Hd in Hdm.
  pose proof (Nat.mod_upper_bound ((c + 1) / 2 ^ d) 2).
  right. apply elem_of_app. unfold leftIndex, rightIndex.
  destruct (decide (((c + 1) / 2 ^ d) mod 2 = 0)%nat); [left|right]; apply IH; lia.
Qed.

Lemma Idx_root c : c ∈ Idx 0 ↔ (c < n)%nat.
Proof.
  split; [apply Idx_lt|]. intros Hc. apply below_Idx; [|done]. exists (Nat.log2 (c + 1)).
  destruct (Nat.log2_spec (c + 1)) as [H1 H2]; [lia|]. rewrite Nat.pow_succ_r' in H2.
  symmetry. apply (Nat.div_unique _ _ 1 (c + 1 - 2 ^ Nat.log2 (c + 1))); lia.
Qed.
End tree.

(** ** The stream of random numbers *)

Section seeds.
Context `{ShuffleLibLaws}.

Definition seed_ok (t : weightedShuffleTree) : Prop :=
  length (ws_seed t) = 32%nat ∧ (ws_seedIndex t <= 32)%nat ∧ (ws_seedIndex t mod 4 = 0)%nat.

Lemma rand32_spec t :
  seed_ok t → ∃ r seed' index', rand32 t = Ok (r, mkTree seed' index' (ws_weights t) (ws_nodes t)) ∧ is_u32 r ∧
    seed_ok (mkTree seed' index' (ws_weights t) (ws_nodes t)).
Proof.
  intros (Hl & Hi & Hm). unfold rand32.
  destruct (Nat.eqb_spec (ws_seedIndex t) 32) as [E|E]; cbn [ws_seedIndex ws_seed ws_weights ws_nodes].
  - rewrite sha256_len. eexists _, _, _. split; [done|]. split; [apply BytesToUint32_range|].
    split; [apply sha256_len|cbn; lia].
  - pose proof (Nat.div_mod (ws_seedIndex t) 4). rewrite (proj2 (Nat.leb_le _ _)) by lia.
    eexists _, _, _. split; [done|]. split; [apply BytesToUint32_range|]. split; [done|].
    cbn [ws_seedIndex]. split; [lia|]. rewrite <- Nat.Div0.add_mod_idemp_l, Hm. done.
Qed.
End seeds.

(** ** Weights left below a node *)

Section weights.
Variable W : list Z.
Let n := length W.
Notation Idx := (Idx n).

(** The positions in [used] were drawn already. *)
Definition own (used : list nat) (j : nat) : Z := if decide (j ∈ used) then 0 else default 0 (W !! j).
Definition Rem (used : list nat) (i : nat) : Z := sum_Z (own used <$> Idx i).
Definition node_for (used : list nat) (j : nat) : weightedShuffleNode :=
  mkNode (own used j) (Rem used (leftIndex j)) (Rem used (rightIndex j)).

Lemma Rem_out used i : (n <= i)%nat → Rem used i = 0.
Proof using Type. intros Hi. unfold Rem. by rewrite Idx_out. Qed.

Lemma Rem_in used i : (i < n)%nat → Rem used i = own used i + Rem used (leftIndex i) + Rem used (rightIndex i).
Proof using Type.
  intros Hi. unfold Rem. rewrite Idx_in, fmap_cons, fmap_app by done.
  change (own used i + sum_Z ((own used <$> Idx (leftIndex i)) ++ (own used <$> Idx (rightIndex i))) =
    own used i + sum_Z (own used <$> Idx (leftIndex i)) + sum_Z (own used <$> Idx (rightIndex i))).
  rewrite sum_Z_app. lia.
Qed.

Lemma own_cons_ne c used j : j ≠ c → own (c :: used) j = own used j.
Proof using Type.
  intros Hj. unfold own. destruct (decide (j ∈ used)), (decide (j ∈ c :: used)) as [[]%elem_of_cons|Hn];
    try done. destruct Hn. by right.
Qed.

Lemma Rem_other c used i : c ∉ Idx i → Rem (c :: used) i = Rem used i.
Proof using Type.
  intros Hc. unfold Rem. f_equal. apply list_fmap_ext. intros k j Hj%list_elem_of_lookup_2.
  apply own_cons_ne. by intros ->.
Qed.

Lemma Rem_drawn c used i : c ∈ Idx i → c ∉ used → Rem (c :: used) i = Rem used i - default 0 (W !! c).
Proof using Type.
  intros Hc Hu. unfold Rem. destruct (list_elem_of_split _ _ Hc) as (a & b & E).
  pose proof (Idx_NoDup n i) as Hnd. rewrite E in Hnd |- *.
  apply NoDup_app in Hnd as (_ & Ha & [Hb _]%NoDup_cons).
  rewrite !fmap_app, !fmap_cons, !sum_Z_app.
  assert (Hsame : ∀ l : list nat, c ∉ l → own (c :: used) <$> l = own used <$> l).
  { intros l Hl. apply list_fmap_ext. intros k j Hj%list_elem_of_lookup_2. apply own_cons_ne. by intros ->. }
  rewrite (Hsame a), (Hsame b); [|done|intros Hca; apply (Ha c Hca); by left].
  unfold sum_Z. cbn [foldr]. fold (sum_Z (own used <$> b)).
  replace (own (c :: used) c) with 0 by (unfold own; by rewrite decide_True by (by left)).
  replace (own used c) with (default 0 (W !! c)) by (unfold own; by rewrite decide_False). lia.
Qed.

(** ** Ranges *)

Hypothesis Wpos : Forall (λ w, 0 < w) W.
Hypothesis Wsum : sum_Z W < 2 ^ 32.

Lemma own_nonneg used j : 0 <= own used j <= default 0 (W !! j).
Proof using Wpos.
  unfold own. destruct (W !! j) as [w|] eqn:E; cbn; [|destruct (decide _); lia].
  apply (Forall_lookup_1 _ _ _ _ Wpos) in E. destruct (decide _); lia.
Qed.

Lemma own_pos used j : (j < n)%nat → j ∉ used → 0 < own used j.
Proof using Wpos.
  intros Hj Hu. unfold own. rewrite decide_False by done. destruct (lookup_lt_is_Some_2 W j Hj) as [w E].
  rewrite E. by apply (Forall_lookup_1 _ _ _ _ Wpos) in E.
Qed.

Lemma weights_seq : (λ j, default 0 (W !! j)) <$> seq 0 n = W.
Proof using Type.
  apply list_eq. intros i. rewrite list_lookup_fmap. destruct (decide (i < n)%nat) as [Hi|Hi].
  - rewrite lookup_seq_lt by done. cbn. by destruct (lookup_lt_is_Some_2 W i Hi) as [w ->].
  - rewrite lookup_seq_ge by lia. cbn. symmetry. apply lookup_ge_None. unfold n in Hi. lia.
Qed.

Lemma Rem_range used i : 0 <= Rem used i < 2 ^ 32.
Proof using Wpos Wsum.
  assert (Hle : ∀ l, sum_Z (own used <$> l) <= sum_Z ((λ j, default 0 (W !! j)) <$> l)).
  { intros l. unfold sum_Z. induction l as [|j l IH]; cbn; [done|]. pose proof (own_nonneg used j). lia. }
  split; [apply sum_Z_nonneg, Forall_fmap, Forall_forall; intros j _; apply own_nonneg|].
  unfold Rem. eapply Z.le_lt_trans; [apply Hle|]. eapply Z.le_lt_trans; [|exact Wsum].
  transitivity (sum_Z ((λ j, default 0 (W !! j)) <$> seq 0 n)); [|by rewrite weights_seq].
  apply sum_Z_submseteq.
  - apply Forall_fmap, Forall_forall. intros j _. cbn. pose proof (own_nonneg used j). lia.
  - apply fmap_submseteq, NoDup_submseteq; [apply Idx_NoDup|]. intros j Hj%Idx_lt. apply elem_of_seq. lia.
Qed.

Lemma Rem_pos used i j : j ∈ Idx i → j ∉ used → 0 < Rem used i.
Proof using Wpos Wsum.
  intros Hj Hu. unfold Rem. eapply Z.lt_le_trans; [apply (own_pos used j); [by eapply Idx_lt|done]|].
  apply sum_Z_elem; [apply Forall_fmap, Forall_forall; intros k _; apply own_nonneg|].
  by apply list_elem_of_fmap_2.
Qed.

(** ** Building the tree *)

Context `{ShuffleLibLaws}.

(** The nodes below [i] hold the weights left, the others are as before. *)
Definition filled (used : list nat) (i : nat) (nodes nodes' : list weightedShuffleNode) : Prop :=
  length nodes' = length nodes ∧
  ∀ j, nodes' !! j = if decide (j ∈ Idx i) then Some (node_for used j) else nodes !! j.

Lemma filled_parts used i nodes nodes1 nodes2 nodes3 :
  (i < n)%nat → length nodes = n →
  filled used (leftIndex i) nodes nodes1 → filled used (rightIndex i) nodes1 nodes2 →
  nodes3 = <[i := node_for used i]> nodes2 → filled used i nodes nodes3.
Proof using Type.
  intros Hi Hn [Hl1 H1] [Hl2 H2] ->. split; [rewrite length_insert; lia|]. intros j.
  rewrite (Idx_in n i) by done. destruct (decide (j = i)) as [->|Hj].
  { rewrite list_lookup_insert_eq by lia. by rewrite decide_True by (by left). }
  rewrite list_lookup_insert_ne, H2, H1 by done.
  destruct (decide (j ∈ i :: Idx (leftIndex i) ++ Idx (rightIndex i))) as [Hin|Hin].
  - apply elem_of_cons in Hin as [?|Hin]; [done|]. apply elem_of_app in Hin.
    destruct (decide (j ∈ Idx (rightIndex i))); [done|]. by rewrite decide_True by tauto.
  - rewrite !decide_False; [done|..]; intros ?; apply Hin; right; apply elem_of_app; tauto.
Qed.

Lemma build_spec k i t :
  ws_weights t = W → length (ws_nodes t) = n → (n <= i + k)%nat →
  ∃ nodes', build k i t = Ok (Rem [] i, set_nodes nodes' t) ∧ filled [] i (ws_nodes t) nodes'.
Proof using Wpos Wsum.
  revert i t. induction k as [|k IH]; intros i t HW Hn Hk; cbn [build]; rewrite HW; fold n.
  all: destruct (Nat.leb_spec n i) as [Hi|Hi]; [|try lia].
  1,2: exists (ws_nodes t); rewrite (Rem_out [] i Hi); (split; [by destruct t|]); (split; [done|]);
    intros j; by rewrite Idx_out.
  destruct (lookup_lt_is_Some_2 W i Hi) as [w Ew]. rewrite Ew. cbn [deref mbind res_bind].
  destruct (IH (leftIndex i) t HW Hn) as (n1 & -> & H1); [unfold leftIndex; lia|]. cbn [mbind res_bind].
  destruct (IH (rightIndex i) (set_nodes n1 t) HW) as (n2 & -> & H2);
    [cbn; destruct H1 as [-> _]; done|unfold rightIndex; lia|]. cbn [mbind res_bind].
  pose proof (proj1 (Forall_lookup _ _) Wpos i w Ew) as Hw. cbn in Hw.
  rewrite (proj2 (Z.leb_gt w 0)) by lia.
  assert (Hl : length n2 = n) by (destruct H1, H2; cbn in *; congruence).
  cbn [ws_nodes set_nodes]. rewrite (proj2 (Nat.ltb_lt _ _)) by lia. cbn [mbind res_bind].
  assert (Hown : own [] i = w).
  { unfold own. rewrite decide_False, Ew by (apply not_elem_of_nil). done. }
  assert (Hr : Rem [] i = w + Rem [] (leftIndex i) + Rem [] (rightIndex i)) by (rewrite <- Hown; by apply Rem_in).
  pose proof (Rem_range [] i). pose proof (Rem_range [] (leftIndex i)). pose proof (Rem_range [] (rightIndex i)).
  rewrite (u32_id (w + _)), u32_id, <- Hr by (unfold is_u32; lia). eexists. split; [done|].
  eapply filled_parts; [done|done|exact H1|exact H2|]. unfold node_for. by rewrite Hown.
Qed.

(** ** Drawing *)

(** A draw below [i]: a position that was not drawn yet, and the nodes below [i]. *)
Definition drawn (used : list nat) (i : nat) (nodes : list weightedShuffleNode) (c : nat)
    (t' : weightedShuffleTree) : Prop :=
  c ∈ Idx i ∧ c ∉ used ∧ seed_ok t' ∧ ws_weights t' = W ∧ filled (c :: used) i nodes (ws_nodes t').

Definition holds (used : list nat) (i : nat) (nodes : list weightedShuffleNode) : Prop :=
  ∀ j, j ∈ Idx i → nodes !! j = Some (node_for used j).

Lemma holds_parts used i nodes :
  (i < n)%nat → holds used i nodes → nodes !! i = Some (node_for used i) ∧
    holds used (leftIndex i) nodes ∧ holds used (rightIndex i) nodes.
Proof using Type.
  intros Hi Hh. unfold holds in *. rewrite (Idx_in n i) in Hh by done.
  split; [apply Hh; by left|]. split; intros j Hj; apply Hh; right; apply elem_of_app; tauto.
Qed.

(** A node whose subtree does not contain the drawn position is unchanged. *)
Lemma node_for_other c used j :
  (j < n)%nat → c ∉ Idx j → node_for (c :: used) j = node_for used j.
Proof using Type.
  intros Hj Hc. rewrite (Idx_in n j) in Hc by done. apply not_elem_of_cons in Hc as [Hne Hc].
  apply not_elem_of_app in Hc as [Hl Hr]. unfold node_for. by rewrite own_cons_ne, !Rem_other.
Qed.

Lemma Idx_trans i j c : j ∈ Idx i → c ∈ Idx j → c ∈ Idx i.
Proof using Type.
  intros [Hij _]%idx_below [Hjc Hc]%idx_below. apply below_Idx; [|done].
  destruct Hij as [d Hd], Hjc as [e He]. exists (e + d)%nat.
  by rewrite Nat.pow_add_r, <- Nat.Div0.div_div, He.
Qed.

(** Only the part of a subtree that contains the drawn position changes: the nodes
    outside of [part], a child of [i], keep what they hold. *)
Lemma filled_up used i part c f nodes nodes1 :
  (i < n)%nat → holds used i nodes → c ∉ used →
  (part = leftIndex i ∨ part = rightIndex i) → c ∈ Idx part →
  filled (c :: used) part nodes nodes1 → f (node_for used i) = node_for (c :: used) i →
  filled (c :: used) i nodes (alter f i nodes1).
Proof using Type.
  intros Hi Hh Hu Hpart Hc [Hl Hf] Hfi.
  assert (Hsub : ∀ j, j ∈ Idx part → j ∈ Idx i ∧ j ≠ i).
  { intros j Hj. rewrite (Idx_in n i) by done.
    destruct Hpart as [-> | ->]; (split; [right; apply elem_of_app; tauto|]).
    - by apply (proj1 (Idx_parts n i j)) in Hj as [].
    - by apply (proj2 (Idx_parts n i j)) in Hj. }
  split; [by rewrite length_alter|]. intros j. destruct (decide (j = i)) as [->|Hj].
  - assert (Hii : i ∈ Idx i) by (rewrite Idx_in by done; by left).
    rewrite list_lookup_alter_eq, Hf, decide_False, (Hh i Hii), decide_True by (done || (intros Hx; by apply Hsub in Hx as [])).
    cbn [fmap option_fmap option_map]. by rewrite Hfi.
  - rewrite list_lookup_alter_ne, Hf by done. destruct (decide (j ∈ Idx part)) as [Hjp|Hjp].
    { by rewrite decide_True by (by apply Hsub). }
    destruct (decide (j ∈ Idx i)) as [Hin|Hin]; [|done].
    rewrite (Hh j Hin), node_for_other; [done|by eapply Idx_lt|]. intros Hcj.
    rewrite (Idx_in n i) in Hin by done. apply elem_of_cons in Hin as [?|Hin]; [done|]. apply elem_of_app in Hin.
    destruct Hpart as [-> | ->], Hin as [Hin|Hin]; try done; pose proof (Idx_trans _ _ _ Hin Hcj) as Hc';
      [apply (Idx_parts n i) in Hc as [Hc _]|apply (Idx_parts n i) in Hc' as [Hc' _]]; done.
Qed.

Lemma sub_left_spec used i c :
  (i < n)%nat → c ∈ Idx (leftIndex i) → c ∉ used →
  sub_left (default 0 (W !! c)) (node_for used i) = node_for (c :: used) i.
Proof using Wpos Wsum.
  intros Hi Hc Hu. pose proof (proj1 (Idx_parts n i c) Hc) as [Hcr Hci].
  pose proof (Rem_range (c :: used) (leftIndex i)) as Hr. rewrite Rem_drawn in Hr by done.
  unfold sub_left, node_for. cbn [thisWeight leftWeight rightWeight].
  by rewrite own_cons_ne, (Rem_other c used (rightIndex i)), Rem_drawn, u32_id by done.
Qed.

Lemma sub_right_spec used i c :
  (i < n)%nat → c ∈ Idx (rightIndex i) → c ∉ used →
  sub_right (default 0 (W !! c)) (node_for used i) = node_for (c :: used) i.
Proof using Wpos Wsum.
  intros Hi Hc Hu. pose proof (proj2 (Idx_parts n i c) Hc) as Hci.
  assert (Hcl : c ∉ Idx (leftIndex i)) by (intros Hl; by apply (Idx_parts n i) in Hl as []).
  pose proof (Rem_range (c :: used) (rightIndex i)) as Hr. rewrite Rem_drawn in Hr by done.
  unfold sub_right, node_for. cbn [thisWeight leftWeight rightWeight].
  by rewrite own_cons_ne, (Rem_other c used (leftIndex i)), Rem_drawn, u32_id by done.
Qed.

Lemma weight_lookup i c : c ∈ Idx i → W !! c = Some (default 0 (W !! c)).
Proof using Type. intros Hc%Idx_lt. destruct (lookup_lt_is_Some_2 W c Hc) as [w E]. by rewrite E. Qed.

(** The draw ends at the node itself. *)
Lemma drawn_here used i t :
  (i < n)%nat → ws_weights t = W → seed_ok t → holds used i (ws_nodes t) → i ∉ used →
  drawn used i (ws_nodes t) i (set_nodes (alter (set_this 0) i (ws_nodes t)) t).
Proof using Type.
  intros Hi HW Hs Hh Hu. assert (Hii : i ∈ Idx i) by (rewrite Idx_in by done; by left).
  split; [done|]. split; [done|]. split; [done|]. split; [done|]. cbn [ws_nodes set_nodes].
  split; [by rewrite length_alter|]. intros j. destruct (decide (j = i)) as [->|Hj].
  - rewrite list_lookup_alter_eq, (Hh i Hii), decide_True by done. cbn. f_equal. unfold set_this, node_for.
    cbn [leftWeight rightWeight]. f_equal.
    + unfold own. by rewrite decide_True by (by left).
    + symmetry. apply Rem_other. intros Hx. by apply (Idx_parts n i i) in Hx as [].
    + symmetry. apply Rem_other. intros Hx. by apply (proj2 (Idx_parts n i i)) in Hx.
  - rewrite list_lookup_alter_ne by done. destruct (decide (j ∈ Idx i)) as [Hin|Hin]; [|done].
    rewrite (Hh j Hin), node_for_other; [done|by eapply Idx_lt|]. intros Hx.
    apply idx_below in Hin as [Hb1%below_le _], Hx as [Hb2%below_le _]. lia.
Qed.

(** The draw comes from a child. *)
Lemma drawn_up used i part f nodes c t' :
  (i < n)%nat → holds used i nodes → (part = leftIndex i ∨ part = rightIndex i) →
  drawn used part nodes c t' → f (node_for used i) = node_for (c :: used) i →
  drawn used i nodes c (set_nodes (alter f i (ws_nodes t')) t').
Proof using Type.
  intros Hi Hh Hpart (Hc & Hu & Hs & HW & Hf) Hfi. split.
  { rewrite (Idx_in n i) by done. destruct Hpart as [-> | ->]; right; apply elem_of_app; tauto. }
  split; [done|]. split; [done|]. split; [done|]. by eapply filled_up.
Qed.

Lemma retrieve_spec k used i t :
  (i < n)%nat → (n <= i + k)%nat → ws_weights t = W → length (ws_nodes t) = n → seed_ok t →
  holds used i (ws_nodes t) → 0 < Rem used i →
  ∃ c t', retrieve k i t = Ok (c, t') ∧ drawn used i (ws_nodes t) c t'.
Proof using Type*.
  revert i t. induction k as [|k IH]; intros i t Hi Hk HW Hn Hs Hh Hpos; [lia|].
  destruct (holds_parts _ _ _ Hi Hh) as (Hnode & Hhl & Hhr). cbn [retrieve]. rewrite Hnode. cbn [deref mbind res_bind].
  destruct (rand32_spec t Hs) as (rnd & sd & ix & -> & Hrnd & Hs'). cbn [mbind res_bind].
  set (t1 := mkTree sd ix (ws_weights t) (ws_nodes t)) in *.
  unfold node_for. cbn [thisWeight leftWeight rightWeight].
  pose proof (Rem_in used i Hi) as HRem. pose proof (own_nonneg used i) as [Hown _].
  pose proof (Rem_range used i) as Hri. pose proof (Rem_range used (leftIndex i)) as Hrl.
  pose proof (Rem_range used (rightIndex i)) as Hrr.
  rewrite (u32_id (Rem used (rightIndex i) + _)), (u32_id (_ + own used i)) by (unfold is_u32; lia).
  replace (Rem used (rightIndex i) + Rem used (leftIndex i) + own used i) with (Rem used i) by lia.
  rewrite (proj2 (Z.eqb_neq (Rem used i) 0)) by lia. cbn [mbind res_bind].
  pose proof (Z.mod_pos_bound rnd (Rem used i) Hpos) as Hr. set (r := rnd mod Rem used i) in *. clearbody r.
  rewrite (u32_id (own used i + _)) by (unfold is_u32; lia).
  destruct (Z.ltb_spec r (own used i)) as [Hthis|Hthis].
  { eexists _, _. split; [done|]. apply (drawn_here used i t1); [done..|]. intros Hu. unfold own in Hthis.
    rewrite decide_True in Hthis by done. lia. }
  destruct (Z.ltb_spec r (own used i + Rem used (leftIndex i))) as [Hleft|Hright].
  - assert (Hil : (leftIndex i < n)%nat).
    { destruct (decide (leftIndex i < n)%nat); [done|]. rewrite (Rem_out used (leftIndex i)) in Hleft by lia. lia. }
    destruct (IH (leftIndex i) t1 Hil) as (c & t' & -> & Hd); [unfold leftIndex; lia|done..|lia|].
    cbn [mbind res_bind]. pose proof Hd as (Hc & Hu & Hs2 & HW2 & Hf).
    rewrite HW2, (weight_lookup _ _ Hc). cbn [deref mbind res_bind]. eexists _, _. split; [done|].
    apply (drawn_up used i (leftIndex i) _ (ws_nodes t)); [done|done|by left|done|by apply sub_left_spec].
  - assert (Hir : (rightIndex i < n)%nat).
    { destruct (decide (rightIndex i < n)%nat); [done|]. rewrite (Rem_out used (rightIndex i)) in HRem by lia. lia. }
    destruct (IH (rightIndex i) t1 Hir) as (c & t' & -> & Hd); [unfold rightIndex; lia|done..|lia|].
    cbn [mbind res_bind]. pose proof Hd as (Hc & Hu & Hs2 & HW2 & Hf).
    rewrite HW2, (weight_lookup _ _ Hc). cbn [deref mbind res_bind]. eexists _, _. split; [done|].
    apply (drawn_up used i (rightIndex i) _ (ws_nodes t)); [done|done|by right|done|by apply sub_right_spec].
Qed.
End weights.

(** ** The permutation *)

Section permutation.
Context `{ShuffleLibLaws}.

Lemma not_all_drawn n used :
  (length used < n)%nat → ∃ j, (j < n)%nat ∧ j ∉ used.
Proof.
  intros Hlen. destruct (decide (Exists (λ j, j ∉ used) (seq 0 n))) as [He|Hne].
  - apply Exists_exists in He as (j & Hj & Hu). apply elem_of_seq in Hj. exists j. split; [lia|done].
  - exfalso. assert (Hsub : seq 0 n ⊆+ used).
    { apply NoDup_submseteq; [apply NoDup_seq|]. intros j Hj. destruct (decide (j ∈ used)); [done|].
      destruct Hne. apply Exists_exists. by exists j. }
    apply submseteq_length in Hsub. rewrite length_seq in Hsub. lia.
Qed.

Lemma retrieves_spec W size used t :
  Forall (λ w, 0 < w) W → sum_Z W < 2 ^ 32 → (length used + size <= length W)%nat →
  ws_weights t = W → length (ws_nodes t) = length W → seed_ok t → holds W used 0 (ws_nodes t) →
  NoDup used → ∃ cs, retrieves size t = Ok cs ∧ length cs = size ∧ NoDup (cs ++ used) ∧
    Forall (λ c, c < length W)%nat cs.
Proof.
  intros Hpos Hsum. revert used t. induction size as [|size IH]; intros used t Hlen HW Hn Hs Hh Hnd; cbn [retrieves].
  { by exists []. }
  destruct (not_all_drawn (length W) used) as (j & Hj & Hju); [lia|].
  rewrite HW.
  destruct (retrieve_spec W Hpos Hsum (length W) used 0 t) as (c & t' & -> & Hc & Hu & Hs' & HW' & Hl' & Hf);
    [lia|lia|done|done|done|done|by eapply (Rem_pos W Hpos Hsum used 0 j), Hju; apply Idx_root|].
  cbn [mbind res_bind].
  destruct (IH (c :: used) t') as (cs & -> & Hlen' & Hnd' & Hlt); [cbn; lia|done|congruence|done| |by constructor|].
  { intros k Hk. rewrite Hf. by rewrite decide_True. }
  cbn [mbind res_bind]. exists (c :: cs). split; [done|]. split; [cbn; lia|]. split.
  - cbn. by rewrite Permutation_middle.
  - constructor; [by eapply Idx_lt|done].
Qed.

Lemma retrieves_prefix a b t cs :
  retrieves (a + b) t = Ok cs → retrieves a t = Ok (take a cs).
Proof.
  revert t cs. induction a as [|a IH]; intros t cs E; cbn [retrieves Nat.add] in *; [done|].
  destruct (retrieve _ 0 t) as [[c t']| |]; cbn [mbind res_bind] in *; try done.
  destruct (retrieves (a + b) t') as [cs'| |] eqn:E'; cbn [mbind res_bind] in *; try done.
  injection E as <-. by rewrite (IH _ _ E').
Qed.

Lemma WeightedPermutation_spec size W seed :
  Forall (λ w, 0 < w) W → sum_Z W < 2 ^ 32 → (size <= length W)%nat → length seed = 32%nat →
  ∃ p, WeightedPermutation size W seed = Ok p ∧ length p = size ∧ NoDup p ∧
    Forall (λ c, c < length W)%nat p ∧
    ∀ size', (size' <= size)%nat → WeightedPermutation size' W seed = Ok (take size' p).
Proof.
  intros Hpos Hsum Hsize Hseed. unfold WeightedPermutation.
  rewrite (proj2 (Nat.ltb_ge (length W) size)) by done.
  destruct (Nat.eqb_spec (length W) 0) as [Hz|Hz].
  { assert (size = 0%nat) as -> by lia. exists []. rewrite Hz. split_and!; try done; [constructor|].
    intros [|size'] Hs'; [done|lia]. }
  set (t0 := mkTree seed 0 W (replicate (length W) (mkNode 0 0 0))).
  destruct (build_spec W Hpos Hsum (length W) 0 t0) as (nodes & -> & Hl & Hf);
    [done|apply length_replicate|lia|]. cbn [mbind res_bind].
  destruct (retrieves_spec W size [] (set_nodes nodes t0)) as (p & E & Hlen & Hnd & Hlt);
    [done|done|cbn; lia|done| | | |constructor|].
  - cbn [ws_nodes set_nodes]. rewrite Hl. apply length_replicate.
  - split; [done|]. cbn. split; [lia|done].
  - intros j Hj. cbn [ws_nodes set_nodes]. by rewrite Hf, decide_True.
  - rewrite app_nil_r in Hnd. exists p. split_and!; try done. intros size' Hs'.
    rewrite (proj2 (Nat.ltb_ge (length W) size')) by lia.
    apply (retrieves_prefix size' (size - size')). by replace (size' + (size - size'))%nat with size by lia.
Qed.

(** C35: the weighted permutation never fails on positive weights whose sum fits 32 bits,
    as those of validators do; it returns distinct positions of the weights, as many as
    asked for, and asking for fewer gives a prefix: the sums kept in the tree never
    underflow and the modulus is never zero. *)
Theorem weighted_permutation_correct size W seed :
  Forall (λ w, 0 < w) W → sum_Z W < 2 ^ 32 → (size <= length W)%nat → length seed = 32%nat →
  ∃ p, WeightedPermutation size W seed = Ok p ∧ length p = size ∧ NoDup p ∧
    Forall (λ c, c < length W)%nat p ∧
    ∀ size', (size' <= size)%nat → WeightedPermutation size' W seed = Ok (take size' p).
Proof. apply WeightedPermutation_spec. Qed.
End permutation.

(** ** Turns of the validators (gossip/emitter/txs.go)

    Times are in nanoseconds. *)

Definition TxTurnPeriod : Z := 8 * 10 ^ 9.
Definition TxTurnPeriodLatency : Z := 10 ^ 9.
Definition TxTurnNonces : Z := 32.

(** [time.Time.Sub] saturates. *)
Definition time_Sub (a b : Z) : Z := Z.max (- 2 ^ 63) (Z.min (2 ^ 63 - 1) (a - b)).

Definition getTxRoundIndex (now txTime validatorsNum : Z) : res Z :=
  let passed := time_Sub now txTime in
  let passed := if passed <? 0 then 0 else passed in
  if validatorsNum =? 0 then Panic else Ok ((passed / TxTurnPeriod) mod validatorsNum).

(** Hashing and the byte forms of the library. *)
Class TurnLib := {
  hash_Of : list (list Z) → list Z;
  Uint64ToBytes : Z → list Z;
  epoch_Bytes : Z → list Z;
}.
Class TurnLibLaws `{TurnLib} := { hash_Of_len : ∀ bs, length (hash_Of bs) = 32%nat }.

Section turns.
Context `{ShuffleLib} `{TurnLib} {V : Type} `{Pos V}.

(** [SortedWeights] are the weights in the order of the identifiers. *)
Definition vv_SortedWeights (validators : V) : list Z := vv_Get validators <$> vv_IDs validators.

(** [isMyTxTurn] for a transaction first seen at [txTime]. *)
Definition isMyTxTurn_at (txTime : Z) (sender : list Z) (accountNonce now : Z) (validators : V)
    (me epoch : Z) : res bool :=
  roundIndex ← getTxRoundIndex now txTime (vv_Len validators);
  nextIndex ← getTxRoundIndex (now + TxTurnPeriodLatency) txTime (vv_Len validators);
  if negb (roundIndex =? nextIndex) then Ok false
  else
    let roundsHash := hash_Of [sender; Uint64ToBytes (accountNonce / TxTurnNonces); epoch_Bytes epoch] in
    rounds ← WeightedPermutation (Z.to_nat roundIndex + 1) (vv_SortedWeights validators) roundsHash;
    chosen ← deref (rounds !! Z.to_nat roundIndex);
    id ← deref (vv_IDs validators !! chosen);
    Ok (id =? me).

(** The order of turns: the identifiers in the order of the whole permutation. *)
Definition turn_order (p : list nat) (validators : V) : list Z :=
  (λ c, default 0 (vv_IDs validators !! c)) <$> p.
End turns.

Section turn_laws.
Context `{ShuffleLibLaws} `{TurnLibLaws} {V : Type} `{PosLaws V}.

Lemma getTxRoundIndex_spec now txTime k :
  0 < k → ∃ r, getTxRoundIndex now txTime k = Ok r ∧ 0 <= r < k.
Proof.
  intros Hk. unfold getTxRoundIndex. rewrite (proj2 (Z.eqb_neq k 0)) by lia.
  eexists. split; [done|]. apply Z.mod_pos_bound. lia.
Qed.

Lemma sorted_weights_ok vv :
  Forall (λ w, 0 < w) (vv_SortedWeights vv) ∧ sum_Z (vv_SortedWeights vv) < 2 ^ 32.
Proof.
  split.
  - apply Forall_fmap, Forall_forall. intros id Hid. cbn. by apply vv_Get_in.
  - unfold vv_SortedWeights. rewrite <- vv_TotalWeight_sum. apply vv_TotalWeight_range.
Qed.

Lemma turn_order_perm vv p :
  length p = length (vv_IDs vv) → NoDup p → Forall (λ c, c < length (vv_IDs vv))%nat p →
  turn_order p vv ≡ₚ vv_IDs vv.
Proof.
  intros Hlen Hnd Hlt. assert (Hp : p ≡ₚ seq 0 (length (vv_IDs vv))).
  { apply submseteq_length_Permutation; [|by rewrite length_seq, Hlen].
    apply NoDup_submseteq; [done|]. intros c Hc. rewrite Forall_forall in Hlt. apply elem_of_seq.
    specialize (Hlt c Hc). lia. }
  unfold turn_order. rewrite Hp. clear. apply reflexive_eq, list_eq. intros i. rewrite list_lookup_fmap.
  destruct (decide (i < length (vv_IDs vv))%nat) as [Hi|Hi].
  - rewrite lookup_seq_lt by done. cbn. by destruct (lookup_lt_is_Some_2 _ _ Hi) as [x ->].
  - rewrite lookup_seq_ge by lia. cbn. symmetry. apply lookup_ge_None. lia.
Qed.

(** Whether the round stays the same for the latency period. *)
Definition round_stable (now txTime k : Z) : bool :=
  bool_decide (getTxRoundIndex now txTime k = getTxRoundIndex (now + TxTurnPeriodLatency) txTime k).

Lemma isMyTxTurn_spec sender nonce (vv : V) epoch :
  vv_IDs vv ≠ [] →
  ∃ order, order ≡ₚ vv_IDs vv ∧
    ∀ now txTime me, ∃ r, getTxRoundIndex now txTime (vv_Len vv) = Ok r ∧
      isMyTxTurn_at txTime sender nonce now vv me epoch =
        Ok (round_stable now txTime (vv_Len vv) && bool_decide (order !! Z.to_nat r = Some me)).
Proof.
  intros Hne. destruct (sorted_weights_ok vv) as [Hpos Hsum].
  assert (Hlw : length (vv_SortedWeights vv) = length (vv_IDs vv)) by apply length_fmap.
  set (h := hash_Of [sender; Uint64ToBytes (nonce / TxTurnNonces); epoch_Bytes epoch]).
  destruct (WeightedPermutation_spec (length (vv_IDs vv)) (vv_SortedWeights vv) h)
    as (p & _ & Hlen & Hnd & Hlt & Hprefix); [done|done|lia|apply hash_Of_len|]. rewrite Hlw in Hlt.
  exists (turn_order p vv). split; [by apply turn_order_perm|]. intros now txTime me.
  assert (Hk : 0 < vv_Len vv) by (unfold vv_Len, len; destruct (vv_IDs vv); [done|cbn; lia]).
  destruct (getTxRoundIndex_spec now txTime _ Hk) as (r & Er & Hr).
  destruct (getTxRoundIndex_spec (now + TxTurnPeriodLatency) txTime _ Hk) as (r' & Er' & Hr').
  exists r. split; [done|]. unfold isMyTxTurn_at, round_stable. rewrite Er, Er'. cbn [mbind res_bind].
  destruct (Z.eqb_spec r r') as [<-|Hrr]; cbn [negb].
  2: { rewrite bool_decide_false by congruence. done. }
  rewrite bool_decide_true by done. cbn [andb]. fold h. unfold vv_Len, len in Hr.
  rewrite Hprefix by lia. cbn [mbind res_bind]. rewrite lookup_take_lt by lia.
  destruct (lookup_lt_is_Some_2 p (Z.to_nat r)) as [c Ec]; [lia|]. rewrite Ec. cbn [deref mbind res_bind].
  pose proof (proj1 (Forall_lookup _ _) Hlt _ _ Ec) as Hc. cbn in Hc.
  destruct (lookup_lt_is_Some_2 _ _ Hc) as [id Eid]. rewrite Eid. cbn [deref mbind res_bind].
  unfold turn_order. rewrite list_lookup_fmap, Ec. cbn [fmap option_fmap option_map]. rewrite Eid. cbn.
  f_equal. destruct (Z.eqb_spec id me) as [->|Hne']; [by rewrite bool_decide_true|].
  rewrite bool_decide_false; congruence.
Qed.

(** Without messages the validators agree on a cyclic order of turns for the
    transactions of a sender: the order is a permutation of all the validators, it is
    the same for every transaction of a range of nonces, and [isMyTxTurn] never fails
    and is true exactly for the validator of the current round, unless the round is
    about to change. *)
Theorem tx_turns_fair sender nonce (vv : V) epoch :
  vv_IDs vv ≠ [] →
  ∃ order, order ≡ₚ vv_IDs vv ∧
    ∀ now txTime me, ∃ r, getTxRoundIndex now txTime (vv_Len vv) = Ok r ∧
      isMyTxTurn_at txTime sender nonce now vv me epoch =
        Ok (round_stable now txTime (vv_Len vv) && bool_decide (order !! Z.to_nat r = Some me)).
Proof. apply isMyTxTurn_spec. Qed.

(** The age of a transaction, as [getTxRoundIndex] sees it. *)
Definition age (now txTime : Z) : Z := Z.max 0 (time_Sub now txTime).

Lemma getTxRoundIndex_age now txTime k :
  0 < k → getTxRoundIndex now txTime k = Ok ((age now txTime / TxTurnPeriod) mod k).
Proof.
  intros Hk. unfold getTxRoundIndex, age. rewrite (proj2 (Z.eqb_neq k 0)) by lia.
  destruct (Z.ltb_spec (time_Sub now txTime) 0); repeat f_equal; lia.
Qed.

(** A stable round covers every age up to the latency period later. *)
Lemma stable_covers now txTime a k :
  0 < k → round_stable now txTime k = true →
  age now txTime <= a <= age (now + TxTurnPeriodLatency) txTime →
  (a / TxTurnPeriod) mod k = (age now txTime / TxTurnPeriod) mod k.
Proof.
  intros Hk Hst%bool_decide_eq_true Ha. rewrite !getTxRoundIndex_age in Hst by done. injection Hst as Hst.
  assert (Hb : age (now + TxTurnPeriodLatency) txTime <= age now txTime + TxTurnPeriodLatency)
    by (unfold age, time_Sub, TxTurnPeriodLatency; lia).
  assert (H0' : 0 <= age now txTime) by (unfold age; lia).
  revert Ha Hb H0' Hst. generalize (age now txTime) (age (now + TxTurnPeriodLatency) txTime).
  unfold TxTurnPeriod, TxTurnPeriodLatency. intros b c Ha Hb Hc Hst.
  assert (Hq : b / (8 * 10 ^ 9) <= a / (8 * 10 ^ 9) <= c / (8 * 10 ^ 9)) by (split; apply Z.div_le_mono; lia).
  assert (Hq' : c / (8 * 10 ^ 9) <= b / (8 * 10 ^ 9) + 1).
  { rewrite <- Z.div_add by lia. apply Z.div_le_mono; lia. }
  destruct (decide (a / (8 * 10 ^ 9) = b / (8 * 10 ^ 9))) as [->|Hne]; [done|].
  assert (Ea : a / (8 * 10 ^ 9) = b / (8 * 10 ^ 9) + 1) by lia.
  assert (Ec : c / (8 * 10 ^ 9) = b / (8 * 10 ^ 9) + 1) by lia. by rewrite Ea, Hst, Ec.
Qed.

(** Two validators never both hold the turn for a transaction when they see it at
    ages that differ by at most the latency period, even across a change of rounds:
    such validators do not originate the same transaction twice. *)
Theorem tx_turn_exclusive sender nonce (vv : V) epoch now1 txTime1 now2 txTime2 me1 me2 :
  vv_IDs vv ≠ [] →
  isMyTxTurn_at txTime1 sender nonce now1 vv me1 epoch = Ok true →
  isMyTxTurn_at txTime2 sender nonce now2 vv me2 epoch = Ok true →
  age now1 txTime1 <= age now2 txTime2 <= age (now1 + TxTurnPeriodLatency) txTime1 →
  me1 = me2.
Proof.
  intros Hne E1 E2 Hage. destruct (isMyTxTurn_spec sender nonce vv epoch Hne) as (order & _ & Hturn).
  assert (Hk : 0 < vv_Len vv) by (unfold vv_Len, len; destruct (vv_IDs vv); [done|cbn; lia]).
  destruct (Hturn now1 txTime1 me1) as (r1 & Er1 & Ei1), (Hturn now2 txTime2 me2) as (r2 & Er2 & Ei2).
  rewrite E1 in Ei1. rewrite E2 in Ei2. injection Ei1 as Ei1. injection Ei2 as Ei2.
  symmetry in Ei1, Ei2. apply andb_true_iff in Ei1 as [Hst1 Ho1%bool_decide_eq_true].
  apply andb_true_iff in Ei2 as [_ Ho2%bool_decide_eq_true].
  rewrite getTxRoundIndex_age in Er1, Er2 by done. injection Er1 as <-. injection Er2 as <-.
  rewrite (stable_covers _ _ _ _ Hk Hst1 Hage) in Ho2. congruence.
Qed.
End turn_laws.

(** ** Concrete turns *)

#[global] Instance demo_shuffle_lib : ShuffleLib := {
  sha256 b := take 32 (((λ x, (x + 97) mod 256) <$> b) ++ replicate 32 7);
  BytesToUint32 b := u32 (foldr (λ x acc, x + 256 * acc) 0 b);
}.
#[global] Instance demo_shuffle_laws : ShuffleLibLaws.
Proof.
  split; [|intros b; apply u32_range]. intros b. unfold sha256, demo_shuffle_lib. rewrite length_take, length_app, length_replicate. lia.
Qed.

#[global] Instance demo_turn_lib : TurnLib := {
  hash_Of bs := take 32 (concat bs ++ replicate 32 113);
  Uint64ToBytes n := [n mod 256];
  epoch_Bytes e := [e mod 256];
}.
#[global] Instance demo_turn_laws : TurnLibLaws.
Proof. split. intros bs. unfold hash_Of, demo_turn_lib. rewrite length_take, length_app, length_replicate. lia. Qed.

Lemma weighted_permutation_correct_witness :
  WeightedPermutation 4 [60; 30; 10; 5] (replicate 32 77) = Ok [2%nat; 0%nat; 1%nat; 3%nat] ∧
  ∃ p, WeightedPermutation 4 [60; 30; 10; 5] (replicate 32 77) = Ok p ∧ length p = 4%nat ∧ NoDup p ∧
    Forall (λ c, c < length [60; 30; 10; 5])%nat p ∧
    ∀ size', (size' <= 4)%nat → WeightedPermutation size' [60; 30; 10; 5] (replicate 32 77) = Ok (take size' p).
Proof.
  split; [vm_compute; reflexivity|]. apply (weighted_permutation_correct 4 [60; 30; 10; 5] (replicate 32 77)).
  - repeat constructor; lia.
  - cbn. lia.
  - cbn. lia.
  - reflexivity.
Defined.

Lemma tx_turns_fair_witness :
  ∃ order, order ≡ₚ vv_IDs demo_group ∧
    ∀ now txTime me, ∃ r, getTxRoundIndex now txTime (vv_Len demo_group) = Ok r ∧
      isMyTxTurn_at txTime [9; 9] 5 now demo_group me 3 =
        Ok (round_stable now txTime (vv_Len demo_group) && bool_decide (order !! Z.to_nat r = Some me)).
Proof. apply (tx_turns_fair [9; 9] 5 demo_group 3). vm_compute. discriminate. Defined.

(** Half a second apart, before the first round ends. *)
Lemma tx_turn_exclusive_witness :
  ∃ me, isMyTxTurn_at 0 [9; 9] 5 (6 * 10 ^ 9) demo_group me 3 = Ok true ∧
    ∀ me', isMyTxTurn_at 0 [9; 9] 5 (6 * 10 ^ 9 + 5 * 10 ^ 8) demo_group me' 3 = Ok true → me = me'.
Proof.
  exists 2. split; [vm_compute; reflexivity|]. intros me' Hme'.
  apply (tx_turn_exclusive [9; 9] 5 demo_group 3 (6 * 10 ^ 9) 0 (6 * 10 ^ 9 + 5 * 10 ^ 8) 0 2 me').
  - vm_compute. discriminate.
  - vm_compute. reflexivity.
  - exact Hme'.
  - vm_compute. split; discriminate.
Defined.
