(* ===== verification/Piecefunc.v ===== *)
(** * Piecewise linear functions (utils/piecefunc/piecefunc.go)

    A function is given by dots with increasing abscissas; [Get] interpolates between
    the two dots around its argument with ratios of six decimals, in 64-bit arithmetic.
    Between the first and the last dot the result lies between the ordinates of the
    piece and differs from the exact value by the rounding of the ratio and of the two
    products only. *)

From S2P Require Import Prelude.

Definition DecimalUnit : Z := 10 ^ 6.

Record Dot := mkDot { X : Z; Y : Z }.

(** [prevX] of the loop; [None] before the first dot. *)
Fixpoint check_dots (prevX : option Z) (dots : list Dot) : res unit :=
  match dots with
  | [] => Ok tt
  | dot :: dots' =>
      if match prevX with Some x => X dot <=? x | None => false end then Panic
      else check_dots (Some (X dot)) dots'
  end.

Definition NewFunc (dots : list Dot) : res (list Dot) :=
  if len dots <? 2 then Panic else _ ← check_dots None dots; Ok dots.

Definition Mul (a b : Z) : Z := u64 (a * b) / DecimalUnit.
Definition Div (a b : Z) : res Z := if b =? 0 then Panic else Ok (u64 (a * DecimalUnit) / b).

(** The loop of [Get]: [i] is the position of the first of [dots]. *)
Fixpoint find_piece (i n : Z) (x : Z) (dots : list Dot) : Z :=
  match dots with
  | [] => n - 2
  | piece :: dots' =>
      if (1 <=? i) && (i <? n - 1) && (x <? X piece) then i - 1 else find_piece (i + 1) n x dots'
  end.

Definition Get (dots : list Dot) (x : Z) : res Z :=
  let p0 := find_piece 0 (len dots) x dots in
  let p1 := p0 + 1 in
  d0 ← index dots p0;
  d1 ← index dots p1;
  ratio ← Div (u64 (x - X d0)) (u64 (X d1 - X d0));
  Ok (u64 (Mul (Y d0) (u64 (DecimalUnit - ratio)) + Mul (Y d1) ratio)).

(** ** Linear interpolation *)

Definition increasing (dots : list Dot) : Prop :=
  ∀ i a b, dots !! i = Some a → dots !! S i = Some b → X a < X b.

(** No product overflows on the dots and on the arguments up to [x]. *)
Definition dots_ok (dots : list Dot) : Prop :=
  increasing dots ∧ (2 <= length dots)%nat ∧
  Forall (λ d, is_u64 (X d) ∧ 0 <= Y d ∧ Y d * DecimalUnit < 2 ^ 64) dots.

Lemma check_dots_increasing prevX dots :
  check_dots prevX dots = Ok tt →
  increasing dots ∧ ∀ x d, prevX = Some x → head dots = Some d → x < X d.
Proof.
  revert prevX. induction dots as [|d dots IH]; intros prevX; cbn; [done|].
  destruct (match prevX with Some x => X d <=? x | None => false end) eqn:E; [done|].
  intros [Hinc Hd]%IH. split.
  - intros [|i] a b; cbn; [|apply Hinc]. intros [= <-] Hb. apply (Hd (X d) b); [done|].
    by destruct dots.
  - intros x d' -> [= <-]. by apply Z.leb_gt in E.
Qed.

Lemma NewFunc_ok dots f :
  NewFunc dots = Ok f → f = dots ∧ increasing dots ∧ (2 <= length dots)%nat.
Proof.
  unfold NewFunc. destruct (Z.ltb_spec (len dots) 2) as [|Hlen]; [done|].
  destruct (check_dots None dots) as [[]| |] eqn:E; cbn; try done. intros [= <-].
  split; [done|]. split; [by eapply check_dots_increasing|]. unfold len in Hlen. lia.
Qed.

(** The piece found: its left dot is at or before [x] unless it is the first, its right
    dot is after [x] unless it is the last. *)
Lemma find_piece_spec i n x dots :
  (2 <= n)%nat → (i + length dots = n)%nat →
  ∃ p, find_piece (Z.of_nat i) (Z.of_nat n) x dots = Z.of_nat p ∧ (p + 1 < n)%nat ∧
    ((p + 2 < n)%nat → (i <= p + 1)%nat ∧ ∃ d, dots !! (p + 1 - i)%nat = Some d ∧ x < X d) ∧
    (∀ k d, dots !! k = Some d → (1 <= i + k)%nat → (i + k <= p)%nat → X d <= x).
Proof.
  intros Hn. revert i. induction dots as [|d dots IH]; intros i Hi; cbn [find_piece]; cbn [length] in Hi.
  { exists (n - 2)%nat. split; [lia|]. split; [lia|]. split; [lia|]. intros k d. by rewrite lookup_nil. }
  destruct ((1 <=? Z.of_nat i) && (Z.of_nat i <? Z.of_nat n - 1) && (x <? X d)) eqn:E.
  - apply andb_true_iff in E as [[H1%Z.leb_le H2%Z.ltb_lt]%andb_true_iff H3%Z.ltb_lt].
    exists (i - 1)%nat. split; [lia|]. split; [lia|]. split.
    + intros _. split; [lia|]. exists d. replace (i - 1 + 1 - i)%nat with 0%nat by lia. done.
    + intros k d' _ H4 H5. lia.
  - destruct (IH (S i)) as (p & E' & Hp & Hright & Hleft); [lia|].
    replace (Z.of_nat i + 1) with (Z.of_nat (S i)) by lia. exists p. split; [done|]. split; [done|]. split.
    + intros Hlt. destruct (Hright Hlt) as (Hip & d' & Hd' & Hx). split; [lia|]. exists d'. split; [|done].
      destruct (p + 1 - i)%nat as [|m] eqn:Em; [lia|]. cbn. replace m with (p + 1 - S i)%nat by lia. done.
    + intros [|k] d' Hd' Hk1 Hk2; cbn in Hd'; [|apply (Hleft k d'); [done|lia|lia]].
      injection Hd' as <-. apply andb_false_iff in E as [E|E%Z.ltb_ge]; [|done].
      apply andb_false_iff in E as [E%Z.leb_gt|E%Z.ltb_ge]; lia.
Qed.

Lemma increasing_le dots i j a b :
  increasing dots → dots !! i = Some a → dots !! j = Some b → (i <= j)%nat → X a <= X b.
Proof.
  intros Hinc Ha Hb Hle. revert b Hb. induction Hle as [|j Hle IH]; intros b Hb; [assert (a = b) by congruence; by subst|].
  destruct (lookup_lt_is_Some_2 dots j) as [c Hc]; [apply lookup_lt_Some in Hb; lia|].
  specialize (IH c Hc). specialize (Hinc j c b Hc Hb). lia.
Qed.

(** The two products of an interpolation with ratio [r / D]. *)
Lemma interpolate_bounds D y0 y1 r :
  0 < D → 0 <= y0 → 0 <= y1 → 0 <= r <= D →
  Z.min y0 y1 - 1 <= y0 * (D - r) / D + y1 * r / D <= Z.max y0 y1.
Proof.
  intros HD H0 H1 Hr. pose proof (Z.div_mod (y0 * (D - r)) D). pose proof (Z.div_mod (y1 * r) D).
  pose proof (Z.mod_pos_bound (y0 * (D - r)) D). pose proof (Z.mod_pos_bound (y1 * r) D).
  assert (Hlo : Z.min y0 y1 * D <= y0 * (D - r) + y1 * r).
  { assert (Z.min y0 y1 * (D - r) <= y0 * (D - r)) by (apply Z.mul_le_mono_nonneg_r; lia).
    assert (Z.min y0 y1 * r <= y1 * r) by (apply Z.mul_le_mono_nonneg_r; lia). lia. }
  assert (Hhi : y0 * (D - r) + y1 * r <= Z.max y0 y1 * D).
  { assert (y0 * (D - r) <= Z.max y0 y1 * (D - r)) by (apply Z.mul_le_mono_nonneg_r; lia).
    assert (y1 * r <= Z.max y0 y1 * r) by (apply Z.mul_le_mono_nonneg_r; lia). lia. }
  revert Hlo Hhi. generalize (Z.min y0 y1) (Z.max y0 y1). intros lo hi Hlo Hhi. nia.
Qed.

(** Against the exact value, scaled by the length [dx] of the piece. *)
Lemma interpolate_error D y0 y1 dx t :
  0 < D → 0 <= y0 → 0 <= y1 → 0 < dx → 0 <= t <= dx →
  let r := t * D / dx in
  let v := y0 * (D - r) / D + y1 * r / D in
  Z.abs (D * (dx * v - (y0 * (dx - t) + y1 * t))) <= dx * (2 * D + Z.abs (y1 - y0)).
Proof.
  intros HD H0 H1 Hdx Ht r v. subst v.
  pose proof (Z.div_mod (t * D) dx) as Hr. pose proof (Z.mod_pos_bound (t * D) dx Hdx) as Hm. fold r in Hr.
  pose proof (Z.div_mod (y0 * (D - r)) D) as Ha. pose proof (Z.mod_pos_bound (y0 * (D - r)) D HD) as Hma.
  pose proof (Z.div_mod (y1 * r) D) as Hb. pose proof (Z.mod_pos_bound (y1 * r) D HD) as Hmb.
  set (a := y0 * (D - r) / D) in *. set (b := y1 * r / D) in *.
  set (ma := (y0 * (D - r)) mod D) in *. set (mb := (y1 * r) mod D) in *. set (m := (t * D) mod dx) in *.
  assert (E : D * (dx * (a + b) - (y0 * (dx - t) + y1 * t)) = m * (y0 - y1) - dx * (ma + mb)).
  { assert (D * a = y0 * (D - r) - ma) by lia. assert (D * b = y1 * r - mb) by lia.
    assert (dx * r = t * D - m) by lia. nia. }
  rewrite E. clear E Ha Hb Hr. clearbody a b ma mb m r.
  assert (Hmy : Z.abs (m * (y0 - y1)) <= dx * Z.abs (y1 - y0)).
  { rewrite Z.abs_mul. rewrite (Z.abs_eq m) by lia. replace (Z.abs (y0 - y1)) with (Z.abs (y1 - y0)) by lia.
    apply Z.mul_le_mono_nonneg_r; lia. }
  assert (0 <= dx * (ma + mb) <= dx * (2 * D)) by (split; [|apply Z.mul_le_mono_nonneg_l]; nia).
  rewrite Z.mul_add_distr_l. lia.
Qed.

(** One piece, in 64-bit arithmetic. *)
Lemma piece_value a b x :
  is_u64 (X a) → is_u64 (X b) → X a < X b → X a <= x <= X b → (x - X a) * DecimalUnit < 2 ^ 64 →
  0 <= Y a → 0 <= Y b → Y a * DecimalUnit < 2 ^ 64 → Y b * DecimalUnit < 2 ^ 64 →
  let r := (x - X a) * DecimalUnit / (X b - X a) in
  0 <= r <= DecimalUnit ∧
  (ratio ← Div (u64 (x - X a)) (u64 (X b - X a));
   Ok (u64 (Mul (Y a) (u64 (DecimalUnit - ratio)) + Mul (Y b) ratio)))
  = Ok (Y a * (DecimalUnit - r) / DecimalUnit + Y b * r / DecimalUnit).
Proof.
  intros HXa HXb Hlt Hx Hov Hya Hyb Hova Hovb r. unfold is_u64 in HXa, HXb.
  assert (HD : DecimalUnit = 10 ^ 6) by done.
  assert (Hr : 0 <= r <= DecimalUnit).
  { split; [apply Z.div_pos; lia|]. apply Z.div_le_upper_bound; [lia|]. nia. }
  split; [done|]. unfold Div, Mul. rewrite !(u64_id (_ - _)) by (unfold is_u64; lia).
  rewrite (proj2 (Z.eqb_neq _ 0)) by lia. cbn [mbind res_bind].
  rewrite (u64_id ((x - X a) * DecimalUnit)) by (unfold is_u64; lia). fold r.
  rewrite (u64_id (DecimalUnit - r)), (u64_id (Y a * _)), (u64_id (Y b * _)) by (unfold is_u64; nia).
  pose proof (interpolate_bounds DecimalUnit (Y a) (Y b) r ltac:(lia) Hya Hyb Hr) as Hbnd.
  assert (0 <= Y a * (DecimalUnit - r) / DecimalUnit) by (apply Z.div_pos; nia).
  assert (0 <= Y b * r / DecimalUnit) by (apply Z.div_pos; nia).
  rewrite u64_id; [done|]. unfold is_u64. nia.
Qed.

(** The piece that [Get] uses contains its argument. *)
Lemma Get_piece dots x first lst :
  increasing dots → (2 <= length dots)%nat → head dots = Some first → last dots = Some lst →
  X first <= x <= X lst →
  ∃ i a b, find_piece 0 (len dots) x dots = Z.of_nat i ∧ dots !! i = Some a ∧ dots !! S i = Some b ∧
    X a < X b ∧ X a <= x <= X b.
Proof.
  intros Hinc Hlen Hf Hl Hx.
  destruct (find_piece_spec 0 (length dots) x dots Hlen ltac:(lia)) as (p & E & Hp & Hright & Hleft).
  destruct (lookup_lt_is_Some_2 dots p ltac:(lia)) as [a Ha].
  destruct (lookup_lt_is_Some_2 dots (S p) ltac:(lia)) as [b Hb].
  exists p, a, b. split; [done|]. split; [done|]. split; [done|]. split; [by eapply Hinc|]. split.
  - destruct (decide (1 <= p)%nat) as [H1|H1]; [apply (Hleft p a); [done|lia|lia]|].
    assert (p = 0%nat) as -> by lia. rewrite <- head_lookup in Ha. assert (a = first) as -> by congruence. lia.
  - destruct (decide (p + 2 < length dots)%nat) as [H2|H2].
    + destruct (Hright H2) as (_ & d & Hd & Hlt). rewrite Nat.sub_0_r, Nat.add_1_r in Hd.
      assert (b = d) as -> by congruence. lia.
    + rewrite last_lookup in Hl. replace (pred (length dots)) with (S p) in Hl by lia.
      assert (b = lst) as -> by congruence. lia.
Qed.

Lemma Get_spec dots x first lst :
  dots_ok dots → head dots = Some first → last dots = Some lst → X first <= x <= X lst →
  (∀ i a b, dots !! i = Some a → dots !! S i = Some b → X a <= x <= X b →
     (x - X a) * DecimalUnit < 2 ^ 64) →
  ∃ i a b v, dots !! i = Some a ∧ dots !! S i = Some b ∧ X a <= x <= X b ∧ Get dots x = Ok v ∧
    Z.min (Y a) (Y b) - 1 <= v <= Z.max (Y a) (Y b) ∧
    (x = X a → v = Y a) ∧ (x = X b → v = Y b) ∧
    let dx := X b - X a in
    Z.abs (DecimalUnit * (dx * v - (Y a * (X b - x) + Y b * (x - X a))))
      <= dx * (2 * DecimalUnit + Z.abs (Y b - Y a)).
Proof.
  intros (Hinc & Hlen & Hall) Hf Hl Hx Hov.
  destruct (Get_piece dots x first lst Hinc Hlen Hf Hl Hx) as (i & a & b & E & Ha & Hb & Hlt & Hxab).
  destruct (proj1 (Forall_lookup _ _) Hall i a Ha) as (HXa & HYa & HYa').
  destruct (proj1 (Forall_lookup _ _) Hall (S i) b Hb) as (HXb & HYb & HYb').
  destruct (piece_value a b x HXa HXb Hlt Hxab (Hov i a b Ha Hb Hxab) HYa HYb HYa' HYb') as [Hr Ev].
  set (r := (x - X a) * DecimalUnit / (X b - X a)) in *.
  exists i, a, b, (Y a * (DecimalUnit - r) / DecimalUnit + Y b * r / DecimalUnit).
  assert (HD : 0 < DecimalUnit) by done.
  split; [done|]. split; [done|]. split; [done|]. split.
  { unfold Get. rewrite E. rewrite (index_lookup dots i a Ha). cbn [mbind res_bind].
    replace (Z.of_nat i + 1) with (Z.of_nat (S i)) by lia. rewrite (index_lookup dots (S i) b Hb). exact Ev. }
  split; [by apply interpolate_bounds|]. split; [|split].
  - intros ->. assert (r = 0) as -> by (unfold r; rewrite Z.sub_diag; by apply Z.div_0_l; lia).
    rewrite Z.sub_0_r, Z.mul_0_r, Z.div_mul, Z.div_0_l by lia. lia.
  - intros ->. assert (r = DecimalUnit) as -> by (unfold r; rewrite Z.mul_comm, Z.div_mul; lia).
    rewrite Z.sub_diag, Z.mul_0_r, Z.div_mul, Z.div_0_l by lia. lia.
  - cbn zeta. pose proof (interpolate_error DecimalUnit (Y a) (Y b) (X b - X a) (x - X a) HD HYa HYb) as He.
    cbn zeta in He. fold r in He. replace (X b - X a - (x - X a)) with (X b - x) in He by lia. apply He; lia.
Qed.

(** Between its first and last dot a piecewise function is computed without failing
    or overflowing: the value lies between the ordinates of the piece (up to one unit
    of rounding), is exact at the dots, and differs from the exact interpolation by at
    most the rounding of the ratio and two units. *)
Theorem piecefunc_interpolates dots x first lst :
  dots_ok dots → head dots = Some first → last dots = Some lst → X first <= x <= X lst →
  (∀ i a b, dots !! i = Some a → dots !! S i = Some b → X a <= x <= X b →
     (x - X a) * DecimalUnit < 2 ^ 64) →
  ∃ i a b v, dots !! i = Some a ∧ dots !! S i = Some b ∧ X a <= x <= X b ∧ Get dots x = Ok v ∧
    Z.min (Y a) (Y b) - 1 <= v <= Z.max (Y a) (Y b) ∧
    (x = X a → v = Y a) ∧ (x = X b → v = Y b) ∧
    let dx := X b - X a in
    Z.abs (DecimalUnit * (dx * v - (Y a * (X b - x) + Y b * (x - X a))))
      <= dx * (2 * DecimalUnit + Z.abs (Y b - Y a)).
Proof. apply Get_spec. Qed.

Definition demo_dots : list Dot := [mkDot 0 0; mkDot (10 * DecimalUnit) (10 * DecimalUnit); mkDot (20 * DecimalUnit) 7].

Lemma demo_dots_ok : dots_ok demo_dots.
Proof.
  split; [|split; [cbn; lia|]].
  - intros [|[|[|i]]] a b; cbn; intros [= <-]; try done; intros [= <-]; cbn; unfold DecimalUnit; lia.
  - repeat constructor; cbn; unfold DecimalUnit; lia.
Qed.

Lemma piecefunc_interpolates_witness :
  Get demo_dots (3 * DecimalUnit + 5) = Ok 3000000 ∧
  ∃ i a b v, demo_dots !! i = Some a ∧ demo_dots !! S i = Some b ∧ X a <= 3 * DecimalUnit + 5 <= X b ∧
    Get demo_dots (3 * DecimalUnit + 5) = Ok v ∧
    Z.min (Y a) (Y b) - 1 <= v <= Z.max (Y a) (Y b) ∧
    (3 * DecimalUnit + 5 = X a → v = Y a) ∧ (3 * DecimalUnit + 5 = X b → v = Y b) ∧
    let dx := X b - X a in
    Z.abs (DecimalUnit * (dx * v - (Y a * (X b - (3 * DecimalUnit + 5)) + Y b * (3 * DecimalUnit + 5 - X a))))
      <= dx * (2 * DecimalUnit + Z.abs (Y b - Y a)).
Proof.
  split; [vm_compute; reflexivity|].
  apply (piecefunc_interpolates demo_dots (3 * DecimalUnit + 5) (mkDot 0 0) (mkDot (20 * DecimalUnit) 7)).
  - apply demo_dots_ok.
  - reflexivity.
  - reflexivity.
  - vm_compute. split; discriminate.
  - intros [|[|[|i]]] a b; cbn; intros [= <-]; try done; intros [= <-] _; vm_compute; reflexivity.
Defined.
