(* ===== verification/Emitter.v ===== *)
(** * The emitter: when to emit (gossip/emitter: config.go, piecefuncs.go, control.go,
    validators.go, sync.go)

    The intervals between events, the metric of how much an event advances the
    consensus, the estimation of which validators are offline, and the decision
    [isAllowedToEmit].  Times and durations are in nanoseconds; what the code reads
    from the clock or from the outside is an argument. *)

From Stdlib Require Import SpecFloat.
From S2P Require Import Prelude Cser Inter Rules Pos Piecefunc Shuffle.

(** ** config.go *)

Definition Millisecond : Z := 10 ^ 6.

Record EmitIntervals := mkEmitIntervals {
  int_Min : Z;
  int_Max : Z;
  int_Confirming : Z;
  int_ParallelInstanceProtection : Z;
  int_DoublesignProtection : Z;
}.

(** The version to publish and the file of the previous event are left out. *)
Record EmitterConfig := mkEmitterConfig {
  ec_ID : Z;
  ec_PubKey : PubKey;
  ec_EmitIntervals : EmitIntervals;
  ec_MaxTxsPerAddress : Z;
  ec_MaxParents : Z;
  ec_LimitedTpsThreshold : Z;
  ec_NoTxsThreshold : Z;
  ec_EmergencyThreshold : Z;
  ec_TxsCacheInvalidation : Z;
}.

Definition DefaultEmitterConfig (id : Z) (pk : PubKey) : EmitterConfig :=
  mkEmitterConfig id pk
    (mkEmitIntervals (110 * Millisecond) (10 * Minute) (120 * Millisecond) (1 * Minute) (27 * Minute))
    TxTurnNonces 0 (DefaultEventGas * 120) (DefaultEventGas * 30) (DefaultEventGas * 5) (200 * Millisecond).

(** [r.Int63n]: [rnd n] is below [n]; a bound that is not positive panics. *)
Definition Int63n (rnd : Z → Z) (n : Z) : res Z := if n <=? 0 then Panic else Ok (rnd n).

Definition RandomizeEmitTime (rnd : Z → Z) (cfg : EmitIntervals) : res EmitIntervals :=
  max ← (if 10 <? int_Max cfg
         then r ← Int63n rnd (Z.quot (int_Max cfg) 10); Ok (i64 (int_Max cfg - Z.quot (int_Max cfg) 10 + r))
         else Ok (int_Max cfg));
  doublesign ← (if 3 <? int_DoublesignProtection cfg
                then r ← Int63n rnd (Z.quot (int_DoublesignProtection cfg) 3);
                     Ok (i64 (int_DoublesignProtection cfg + r))
                else Ok (int_DoublesignProtection cfg));
  Ok (mkEmitIntervals (int_Min cfg) max (int_Confirming cfg) (int_ParallelInstanceProtection cfg) doublesign).

Definition FakeEmitterConfig (num : Z) (id : Z) (pk : PubKey) : EmitterConfig :=
  let cfg := DefaultEmitterConfig id pk in
  let i := ec_EmitIntervals cfg in
  let max := 10 * Second in
  let doublesign := if num <=? 1 then 0 else Z.quot max 2 in
  mkEmitterConfig id pk
    (mkEmitIntervals (int_Min i) max (int_Confirming i) (int_ParallelInstanceProtection i) doublesign)
    (ec_MaxTxsPerAddress cfg) (ec_MaxParents cfg) (ec_LimitedTpsThreshold cfg) (ec_NoTxsThreshold cfg)
    (ec_EmergencyThreshold cfg) (ec_TxsCacheInvalidation cfg).

(** ** piecefuncs.go *)

Definition MaxUint32 : Z := 2 ^ 32 - 1.

Definition confirmingEmitIntervalF : list Dot :=
  [mkDot 0 1000000; mkDot 340000 1050000; mkDot 670000 1200000; mkDot 800000 10000000;
   mkDot 810000 50000000; mkDot 1000000 60000000].

Definition scalarUpdMetricF : list Dot :=
  [mkDot 0 0; mkDot 1000000 660000; mkDot 2000000 800000; mkDot 8000000 990000;
   mkDot 100000000 999000; mkDot (MaxUint32 * DecimalUnit) 999900].

Definition eventMetricF : list Dot :=
  [mkDot 0 5000; mkDot 10000 30000; mkDot 200000 50000; mkDot 300000 220000; mkDot 400000 450000;
   mkDot 1000000 1000000; mkDot (MaxUint32 * DecimalUnit) 1000000].

Definition validatorsToOverheadF : list Dot :=
  [mkDot 0 0; mkDot 25 50000; mkDot 50 200000; mkDot 100 700000; mkDot 200 900000; mkDot MaxUint32 1000000].

Definition overheadF (validatorsNum busyRate : Z) : res Z :=
  let busyRate := if DecimalUnit <? busyRate then DecimalUnit else busyRate in
  v ← Get validatorsToOverheadF validatorsNum;
  Ok (u64 (v * busyRate) / DecimalUnit).

Definition overheadAdjustedEventMetricF (validatorsNum busyRate eventMetric : Z) : res Z :=
  o ← overheadF validatorsNum busyRate;
  Ok (u64 (u64 (DecimalUnit - o) * eventMetric) / DecimalUnit).

(** ** control.go: metrics *)

Section control.
Context {V : Type} `{Pos V}.

Definition scalarUpdMetric (diff weight totalWeight : Z) : res Z :=
  m ← Get scalarUpdMetricF (u64 (diff * DecimalUnit));
  if totalWeight =? 0 then Panic else Ok (u64 (m * weight) / totalWeight).

(** Sequence numbers have 32 bits. *)
Definition updMetric (median cur upd validatorIdx : Z) (validators : V) : res Z :=
  if (upd <=? median) || (upd <=? cur) then Ok 0
  else
    let weight := vv_GetWeightByIdx validators validatorIdx in
    if median <? cur then
      a ← scalarUpdMetric (u32 (upd - median)) weight (vv_TotalWeight validators);
      b ← scalarUpdMetric (u32 (cur - median)) weight (vv_TotalWeight validators);
      Ok (u64 (a - b))
    else scalarUpdMetric (u32 (upd - median)) weight (vv_TotalWeight validators).

Definition eventMetric (orig seq : Z) : res Z :=
  metric ← Get eventMetricF orig;
  let metric := if (seq <=? 2) && (metric <? 900000) then u64 (metric + 100000) else metric in
  let metric := if (seq <=? 1) && (metric <=? 800000) then u64 (metric + 200000) else metric in
  Ok metric.

(** ** The state of the emitter that control.go, validators.go and sync.go use *)

Record syncStatus (EventID : Type) := mkSyncStatus {
  ss_startup : Z;
  ss_lastConnected : Z;
  ss_p2pSynced : Z;
  ss_prevLocalEmittedID : EventID;
  ss_externalSelfEventCreated : Z;
  ss_externalSelfEventDetected : Z;
  ss_becameValidator : Z;
}.
End control.
Arguments mkSyncStatus {EventID}. Arguments ss_startup {EventID}. Arguments ss_lastConnected {EventID}.
Arguments ss_p2pSynced {EventID}. Arguments ss_prevLocalEmittedID {EventID}.
Arguments ss_externalSelfEventCreated {EventID}. Arguments ss_externalSelfEventDetected {EventID}.
Arguments ss_becameValidator {EventID}.

Record Control := mkControl {
  cl_prevIdleTime : Z;
  cl_prevEmittedAtTime : Z;
  cl_prevEmittedAtBlock : Z;
  cl_challenges : gmap Z Z;
  cl_offlineValidators : gset Z;
  cl_expectedEmitIntervals : gmap Z Z;
  cl_stakeRatio : gmap Z Z;
  cl_prevRecheckedChallenges : Z;
  cl_intervals : EmitIntervals;
}.

(** ** Floating-point numbers: IEEE 754 with 64 bits *)

Definition f64 (z : Z) : spec_float := binary_normalize 53 1024 z 0 false.

(** A conversion to an integer drops the fraction. *)
Definition f64_trunc (f : spec_float) : Z :=
  match f with
  | S754_finite s m e =>
      let a := if 0 <=? e then Z.pos m * 2 ^ e else Z.pos m / 2 ^ (- e) in
      if s then - a else a
  | _ => 0
  end.

(** [maxT - (maxT-minT)*factor] with [factor = power / threshold] *)
Definition slowEmitInterval (minT maxT power threshold : Z) : Z :=
  let factor := SFdiv 53 1024 (f64 power) (f64 threshold) in
  f64_trunc (SFsub 53 1024 (f64 maxT)
    (SFmul 53 1024 (SFsub 53 1024 (f64 maxT) (f64 minT)) factor)).

(** ** isAllowedToEmit *)

(** The most blocks that may pass without an event. *)
Definition maxBlocks (slack : Z) : Z :=
  let m := u64 (slack / 2 + 1) in
  if (m <? slack) && (m <? u64 (slack - 5)) then u64 (slack - 5) else m.

(** [power] is the least gas power left of the event and [spPower] that of its
    self-parent, [latestBlock] and [rules] come from the store. *)
Definition isAllowedToEmit (cfg : EmitterConfig) (st : Control) (rules : Rules) (latestBlock : Z) (idle : bool)
    (creator creationTime power : Z) (eTxs : bool) (metric : Z) (spPower : option Z) : bool :=
  let passedTime := time_Sub creationTime (cl_prevEmittedAtTime st) in
  let passedTimeIdle := time_Sub creationTime (cl_prevIdleTime st) in
  let ratio := default 0 (cl_stakeRatio st !! creator) in
  let passedTimeIdle :=
    if ratio <? 350000 then passedTime
    else if ratio <? 700000 then Z.quot (i64 (passedTimeIdle + passedTime)) 2
    else passedTimeIdle in
  let passedTimeIdle := if passedTime <? passedTimeIdle then passedTime else passedTimeIdle in
  let adjustedPassedTime := i64 (u64 (u64 (Z.quot passedTime DecimalUnit) * metric)) in
  let adjustedPassedIdleTime := i64 (u64 (u64 (Z.quot passedTimeIdle DecimalUnit) * metric)) in
  let passedBlocks := u64 (latestBlock - cl_prevEmittedAtBlock st) in
  let intervals := cl_intervals st in
  if (power <=? ec_EmergencyThreshold cfg) && match spPower with Some sp => power <? sp | None => false end
  then false
  else
    let maxB := maxBlocks (BlockMissedSlack (Economy rules)) in
    if (int_Max intervals <=? passedTime)
       || ((u64 (maxB * 4) / 5 <=? passedBlocks) && (DecimalUnit / 2 <=? metric))
       || (maxB <=? passedBlocks)
    then true
    else
      let threshold := u64 (ec_NoTxsThreshold cfg + ec_EmergencyThreshold cfg) / 2 in
      if (power <=? threshold)
         && (passedTime <? slowEmitInterval (int_Min intervals) (int_Max intervals) power threshold)
      then false
      else if (passedTime <? int_Max intervals) && idle && negb eTxs then false
      else if passedTime <? int_Min intervals then false
      else if (adjustedPassedTime <? int_Min intervals) && negb idle then false
      else if (adjustedPassedIdleTime <? int_Confirming intervals) && negb idle && negb eTxs then false
      else true.

(** The caller holds the world's lock. *)
Definition recheckIdleTime (now : Z) (idle : bool) (st : Control) : Control :=
  if idle then mkControl now (cl_prevEmittedAtTime st) (cl_prevEmittedAtBlock st) (cl_challenges st)
                 (cl_offlineValidators st) (cl_expectedEmitIntervals st) (cl_stakeRatio st)
                 (cl_prevRecheckedChallenges st) (cl_intervals st)
  else st.

(** ** validators.go *)

Definition validatorChallenge : Z := 4 * Second.
Definition networkStartPeriod : Z := 3 * Hour.

Section validators.
Context {V : Type} `{Pos V}.

(** One turn of the loop: the stake before the validator, and its entries. *)
Definition recount_one (cfg : EmitterConfig) (offline : gset Z) (validators : V)
    (acc : res (Z * gmap Z Z * gmap Z Z)) (p : Z * Z) : res (Z * gmap Z Z * gmap Z Z) :=
  '(totalStakeBefore, ratios, expected) ← acc;
  let '(vid, stake) := p in
  stakeRatio ← (if vv_TotalWeight validators =? 0 then Panic
                else Ok (u64 (totalStakeBefore * DecimalUnit) / vv_TotalWeight validators));
  let totalStakeBefore :=
    if bool_decide (vid ∈ offline) then totalStakeBefore else u32 (totalStakeBefore + stake) in
  ratio ← Get confirmingEmitIntervalF stakeRatio;
  Ok (totalStakeBefore, <[vid := stakeRatio]> ratios,
      <[vid := i64 (Mul (u64 (int_Confirming (ec_EmitIntervals cfg))) ratio)]> expected).

(** [sinceGenesis] is the time since the genesis. *)
Definition recountValidators (cfg : EmitterConfig) (sinceGenesis : Z) (validators : V) (st : Control) : res Control :=
  '(_, ratios, expected) ←
    foldl (recount_one cfg (cl_offlineValidators st) validators)
      (Ok (0, cl_stakeRatio st, cl_expectedEmitIntervals st))
      (zip (vv_IDs validators) (vv_SortedWeights validators));
  let confirming := default 0 (expected !! ec_ID cfg) in
  let max := int_Max (ec_EmitIntervals cfg) in
  let i := cl_intervals st in
  let '(max, doublesign) :=
    if sinceGenesis <? networkStartPeriod
    then (Z.quot max 6, Z.quot (int_DoublesignProtection i) 6)
    else (max, int_DoublesignProtection i) in
  Ok (mkControl (cl_prevIdleTime st) (cl_prevEmittedAtTime st) (cl_prevEmittedAtBlock st) (cl_challenges st)
        (cl_offlineValidators st) expected ratios (cl_prevRecheckedChallenges st)
        (mkEmitIntervals (int_Min i) max confirming (int_ParallelInstanceProtection i) doublesign)).

(** The challenges of the validators that have none yet. *)
Definition give_challenges (now : Z) (st : Control) (validators : V) : gmap Z Z :=
  foldl (λ ch vid,
    if bool_decide (vid ∈ cl_offlineValidators st) then ch
    else match ch !! vid with
         | Some _ => ch
         | None => <[vid := now + i64 (validatorChallenge
                              + i64 (default 0 (cl_expectedEmitIntervals st !! vid) * 4))]> ch
         end)
    (cl_challenges st) (vv_IDs validators).

Definition recheckChallenges (cfg : EmitterConfig) (now sinceGenesis : Z) (idle : bool) (validators : V)
    (st : Control) : res Control :=
  if time_Sub now (cl_prevRecheckedChallenges st) <? Z.quot validatorChallenge 10 then Ok st
  else
    let challenges := if negb idle then give_challenges now st validators else ∅ in
    let late := filter (λ p, p.2 < now) challenges in
    let offline := cl_offlineValidators st ∪ dom late in
    let st := mkControl (cl_prevIdleTime st) (cl_prevEmittedAtTime st) (cl_prevEmittedAtBlock st) challenges
                offline (cl_expectedEmitIntervals st) (cl_stakeRatio st) (cl_prevRecheckedChallenges st)
                (cl_intervals st) in
    st ← (if bool_decide (late ≠ ∅) then recountValidators cfg sinceGenesis validators st else Ok st);
    Ok (mkControl (cl_prevIdleTime st) (cl_prevEmittedAtTime st) (cl_prevEmittedAtBlock st) (cl_challenges st)
          (cl_offlineValidators st) (cl_expectedEmitIntervals st) (cl_stakeRatio st) now (cl_intervals st)).
End validators.

(** ** The functions of the emitter are well formed *)

Ltac solve_dots :=
  split; [|split; [cbn; lia|repeat constructor; cbn; unfold is_u64, MaxUint32, DecimalUnit; lia]];
  intros i a b Ha Hb;
  repeat (destruct i as [|i]; [injection Ha as <-; injection Hb as <-; cbn; unfold MaxUint32, DecimalUnit; lia|]);
  discriminate.

Lemma confirming_dots_ok : dots_ok confirmingEmitIntervalF.
Proof. solve_dots. Qed.
Lemma eventMetric_dots_ok : dots_ok eventMetricF.
Proof. solve_dots. Qed.
Lemma scalarUpdMetric_dots_ok : dots_ok scalarUpdMetricF.
Proof. solve_dots. Qed.
Lemma overhead_dots_ok : dots_ok validatorsToOverheadF.
Proof. solve_dots. Qed.

(** Bounds of a function from bounds of its ordinates, where no ratio overflows. *)
Lemma Get_bounds dots x lo hi first lst :
  dots_ok dots → head dots = Some first → last dots = Some lst → X first <= x <= X lst →
  Forall (λ d, lo <= Y d <= hi) dots → (x - X first) * DecimalUnit < 2 ^ 64 →
  ∃ v, Get dots x = Ok v ∧ lo - 1 <= v <= hi.
Proof.
  intros Hok Hf Hl Hx Hall Hov.
  destruct (Get_spec dots x first lst Hok Hf Hl Hx) as (i & a & b & v & Ha & Hb & _ & E & Hv & _).
  - intros i a b Ha Hb Hxab. destruct Hok as (Hinc & _ & _).
    assert (X first <= X a); [|unfold DecimalUnit in *; lia].
    apply (increasing_le dots 0 i); [done|by rewrite <- head_lookup|done|lia].
  - exists v. split; [done|]. pose proof (proj1 (Forall_lookup _ _) Hall i a Ha).
    pose proof (proj1 (Forall_lookup _ _) Hall (S i) b Hb). cbn in *. lia.
Qed.

Lemma confirming_bounds x :
  0 <= x <= DecimalUnit → ∃ v, Get confirmingEmitIntervalF x = Ok v ∧ DecimalUnit - 1 <= v <= 60 * DecimalUnit.
Proof.
  intros Hx. apply (Get_bounds _ x DecimalUnit (60 * DecimalUnit) (mkDot 0 1000000) (mkDot 1000000 60000000));
    [apply confirming_dots_ok|done|done|done| |cbn; unfold DecimalUnit in *; lia].
  repeat constructor; cbn; unfold DecimalUnit; lia.
Qed.

(** ** The intervals of the validators *)

Section recount.
Context {V : Type} `{PosLaws V}.

Definition interval_ok (cfg : EmitterConfig) (i : Z) : Prop :=
  let c := int_Confirming (ec_EmitIntervals cfg) in
  c * (DecimalUnit - 1) / DecimalUnit <= i <= 60 * c.

(** The state of the loop after some validators: their entries are in range. *)
Record recounted (cfg : EmitterConfig) (before bound : Z) (ids : list Z) (ratios expected : gmap Z Z) : Prop := {
  rc_before : 0 <= before <= bound;
  rc_ratios : ∀ id, id ∈ ids → ∃ r, ratios !! id = Some r ∧ 0 <= r <= DecimalUnit;
  rc_expected : ∀ id, id ∈ ids → ∃ i, expected !! id = Some i ∧ interval_ok cfg i;
}.

Lemma recount_one_spec cfg offline (vv : V) before bound ids ratios expected vid stake :
  0 <= int_Confirming (ec_EmitIntervals cfg) < 2 ^ 32 → 0 <= stake → bound + stake <= vv_TotalWeight vv →
  0 < vv_TotalWeight vv →
  recounted cfg before bound ids ratios expected →
  ∃ before' ratios' expected',
    recount_one cfg offline vv (Ok (before, ratios, expected)) (vid, stake) = Ok (before', ratios', expected') ∧
    recounted cfg before' (bound + stake) (ids ++ [vid]) ratios' expected'.
Proof.
  intros Hc Hst Hbound Htot [Hb Hr He]. pose proof (vv_TotalWeight_range vv) as Ht.
  unfold recount_one. cbn [mbind res_bind]. rewrite (proj2 (Z.eqb_neq _ 0)) by lia. cbn [mbind res_bind].
  rewrite (u64_id (before * _)) by (unfold is_u64, DecimalUnit; lia).
  assert (Hratio : 0 <= before * DecimalUnit / vv_TotalWeight vv <= DecimalUnit).
  { split; [apply Z.div_pos; unfold DecimalUnit; lia|]. apply Z.div_le_upper_bound; unfold DecimalUnit; lia. }
  destruct (confirming_bounds _ Hratio) as (v & -> & Hv). cbn [mbind res_bind].
  eexists _, _, _. split; [done|].
  assert (Hi : interval_ok cfg (i64 (Mul (u64 (int_Confirming (ec_EmitIntervals cfg))) v))).
  { unfold interval_ok, Mul. set (c := int_Confirming (ec_EmitIntervals cfg)) in *.
    unfold DecimalUnit in *. rewrite (u64_id c) by (unfold is_u64; lia).
    rewrite (u64_id (c * v)) by (unfold is_u64; nia).
    assert (Hup : c * v / 10 ^ 6 <= 60 * c) by (apply Z.div_le_upper_bound; [lia|nia]).
    assert (Hlow : c * (10 ^ 6 - 1) / 10 ^ 6 <= c * v / 10 ^ 6) by (apply Z.div_le_mono; [lia|nia]).
    assert (0 <= c * v / 10 ^ 6) by (apply Z.div_pos; nia).
    rewrite i64_id by (unfold is_i64; lia). lia. }
  split.
  - destruct (bool_decide _); [lia|]. rewrite u32_id by (unfold is_u32; lia). lia.
  - intros id Hid. destruct (decide (id = vid)) as [->|Hne]; [rewrite lookup_insert_eq; eauto|].
    rewrite lookup_insert_ne by done. apply Hr. set_solver.
  - intros id Hid. destruct (decide (id = vid)) as [->|Hne]; [rewrite lookup_insert_eq; eauto|].
    rewrite lookup_insert_ne by done. apply He. set_solver.
Qed.

Lemma recount_loop_spec cfg offline (vv : V) todo before bound done_ids ratios expected :
  0 <= int_Confirming (ec_EmitIntervals cfg) < 2 ^ 32 → 0 < vv_TotalWeight vv →
  Forall (λ p : Z * Z, 0 <= p.2) todo → bound + sum_Z todo.*2 <= vv_TotalWeight vv →
  recounted cfg before bound done_ids ratios expected →
  ∃ before' bound' ratios' expected',
    foldl (recount_one cfg offline vv) (Ok (before, ratios, expected)) todo = Ok (before', ratios', expected') ∧
    recounted cfg before' bound' (done_ids ++ todo.*1) ratios' expected'.
Proof.
  intros Hc Htot. revert before bound done_ids ratios expected.
  induction todo as [|[vid stake] todo IH]; intros before bound ids ratios expected Hall Hsum Hrc.
  { rewrite app_nil_r. by eexists _, _, _, _. }
  apply Forall_cons in Hall as [Hst Hall]. cbn [snd fmap list_fmap] in *.
  change (sum_Z (stake :: todo.*2)) with (stake + sum_Z todo.*2) in Hsum.
  assert (0 <= sum_Z todo.*2) by (apply sum_Z_nonneg, Forall_fmap; exact Hall).
  destruct (recount_one_spec cfg offline vv before bound ids ratios expected vid stake Hc Hst ltac:(lia) Htot Hrc)
    as (b' & r' & e' & E & Hrc'). cbn [foldl]. rewrite E.
  destruct (IH b' (bound + stake) (ids ++ [vid]) r' e' Hall ltac:(lia) Hrc') as (b2 & bd2 & r2 & e2 & E2 & Hrc2).
  exists b2, bd2, r2, e2. split; [done|]. by rewrite <- app_assoc in Hrc2.
Qed.

Lemma recountValidators_spec cfg since (vv : V) st :
  vv_IDs vv ≠ [] → 0 <= int_Confirming (ec_EmitIntervals cfg) < 2 ^ 32 →
  ∃ ratios expected, recountValidators cfg since vv st =
    Ok (mkControl (cl_prevIdleTime st) (cl_prevEmittedAtTime st) (cl_prevEmittedAtBlock st) (cl_challenges st)
          (cl_offlineValidators st) expected ratios (cl_prevRecheckedChallenges st)
          (mkEmitIntervals (int_Min (cl_intervals st))
             (if since <? networkStartPeriod then Z.quot (int_Max (ec_EmitIntervals cfg)) 6
              else int_Max (ec_EmitIntervals cfg))
             (default 0 (expected !! ec_ID cfg)) (int_ParallelInstanceProtection (cl_intervals st))
             (if since <? networkStartPeriod then Z.quot (int_DoublesignProtection (cl_intervals st)) 6
              else int_DoublesignProtection (cl_intervals st)))) ∧
    ∃ before bound, recounted cfg before bound (vv_IDs vv) ratios expected.
Proof.
  intros Hne Hc.
  assert (Hlen : length (vv_SortedWeights vv) = length (vv_IDs vv)) by apply length_fmap.
  assert (Htot : 0 < vv_TotalWeight vv).
  { destruct (vv_IDs vv) as [|id ids] eqn:E; [done|].
    assert (Hid : id ∈ vv_IDs vv) by (rewrite E; by left).
    pose proof (vv_Get_in vv id Hid). pose proof (vv_Get_TotalWeight vv id). lia. }
  destruct (recount_loop_spec cfg (cl_offlineValidators st) vv (zip (vv_IDs vv) (vv_SortedWeights vv)) 0 0 []
    (cl_stakeRatio st) (cl_expectedEmitIntervals st) Hc Htot) as (b & bd & ratios & expected & E & Hrc).
  - apply Forall_forall. intros [id w] Hin. apply elem_of_zip_r in Hin.
    apply list_elem_of_fmap in Hin as (id' & -> & _). cbn. apply vv_Get_nonneg.
  - rewrite snd_zip by lia. unfold vv_SortedWeights. rewrite <- vv_TotalWeight_sum. lia.
  - split; [lia|..]; by intros id ?%not_elem_of_nil.
  - rewrite fst_zip in Hrc by lia. exists ratios, expected. unfold recountValidators. rewrite E. cbn [mbind res_bind].
    split; [by destruct (since <? networkStartPeriod)|eauto].
Qed.

(** recounting the validators never fails on a non-empty group and gives every
    validator an emission interval between the configured one (up to rounding) and
    sixty times it, with a stake ratio of at most one; nothing else changes except the
    emitter's own intervals. *)
Theorem recount_intervals cfg since (vv : V) st :
  vv_IDs vv ≠ [] → 0 <= int_Confirming (ec_EmitIntervals cfg) < 2 ^ 32 →
  ∃ st', recountValidators cfg since vv st = Ok st' ∧
    (∀ id, id ∈ vv_IDs vv → ∃ r i, cl_stakeRatio st' !! id = Some r ∧ 0 <= r <= DecimalUnit ∧
       cl_expectedEmitIntervals st' !! id = Some i ∧ interval_ok cfg i) ∧
    (ec_ID cfg ∈ vv_IDs vv → interval_ok cfg (int_Confirming (cl_intervals st'))) ∧
    cl_challenges st' = cl_challenges st ∧ cl_offlineValidators st' = cl_offlineValidators st ∧
    cl_prevEmittedAtTime st' = cl_prevEmittedAtTime st ∧ int_Min (cl_intervals st') = int_Min (cl_intervals st).
Proof.
  intros Hne Hc. destruct (recountValidators_spec cfg since vv st Hne Hc)
    as (ratios & expected & -> & before & bound & [_ Hr He]).
  eexists. split; [done|]. cbn. split_and!; try done.
  - intros id Hid. destruct (Hr id Hid) as (r & ? & ?), (He id Hid) as (i & ? & ?). by exists r, i.
  - intros Hid. destruct (He _ Hid) as (i & -> & ?). done.
Qed.

(** In the first hours of a network every recount divides the protection against double
    signing by six again, whereas the other intervals start from the configuration. *)
Fixpoint recounts (n : nat) (cfg : EmitterConfig) (since : Z) (vv : V) (st : Control) : res Control :=
  match n with
  | O => Ok st
  | S n' => st ← recountValidators cfg since vv st; recounts n' cfg since vv st
  end.

Theorem doublesign_protection_decays n cfg since (vv : V) st :
  vv_IDs vv ≠ [] → 0 <= int_Confirming (ec_EmitIntervals cfg) < 2 ^ 32 → since < networkStartPeriod →
  ∃ st', recounts n cfg since vv st = Ok st' ∧
    int_DoublesignProtection (cl_intervals st') = Z.quot (int_DoublesignProtection (cl_intervals st)) (6 ^ Z.of_nat n).
Proof.
  intros Hne Hc Hs. revert st. induction n as [|n IH]; intros st; cbn [recounts].
  { exists st. by rewrite Z.quot_1_r. }
  destruct (recountValidators_spec cfg since vv st Hne Hc) as (ratios & expected & -> & _). cbn [mbind res_bind].
  destruct (IH (mkControl (cl_prevIdleTime st) (cl_prevEmittedAtTime st) (cl_prevEmittedAtBlock st)
    (cl_challenges st) (cl_offlineValidators st) expected ratios (cl_prevRecheckedChallenges st)
    (mkEmitIntervals (int_Min (cl_intervals st))
       (if since <? networkStartPeriod then Z.quot (int_Max (ec_EmitIntervals cfg)) 6
        else int_Max (ec_EmitIntervals cfg))
       (default 0 (expected !! ec_ID cfg)) (int_ParallelInstanceProtection (cl_intervals st))
       (if since <? networkStartPeriod then Z.quot (int_DoublesignProtection (cl_intervals st)) 6
        else int_DoublesignProtection (cl_intervals st))))) as (st' & E & Hd).
  exists st'. split; [exact E|]. rewrite Hd. cbn [cl_intervals int_DoublesignProtection].
  rewrite (proj2 (Z.ltb_lt since _)) by done. rewrite Z.quot_quot by lia. f_equal.
  rewrite Nat2Z.inj_succ, Z.pow_succ_r by lia. done.
Qed.
End recount.

(** ** What control decides *)

(** For a slack of at least five blocks the emitter is forced in time. *)
Lemma maxBlocks_spec slack :
  5 <= slack < 2 ^ 64 → maxBlocks slack = Z.max (slack / 2 + 1) (slack - 5) ∧ 0 < maxBlocks slack < slack.
Proof.
  intros Hs. unfold maxBlocks. assert (0 <= slack / 2 <= slack - 3) by (Z.div_mod_to_equations; lia).
  rewrite !u64_id by (unfold is_u64; lia).
  destruct (Z.ltb_spec (slack / 2 + 1) slack), (Z.ltb_spec (slack / 2 + 1) (slack - 5)); cbn [andb];
    Z.div_mod_to_equations; lia.
Qed.

(** With a slack of three or four the subtraction wraps and nothing is forced. *)
Example maxBlocks_wraps : maxBlocks 4 = 2 ^ 64 - 1 ∧ maxBlocks 3 = 2 ^ 64 - 2.
Proof. by vm_compute. Qed.

(** when the emitter may emit, with times that do not overflow.  It never does while
    its gas power is low and still decreasing.  Otherwise it must, once the maximum
    interval or the allowed number of blocks, which is below the slack after which
    validators are punished, has passed.  Before that it emits only after the minimum
    interval, and then only for transactions to originate or to confirm, at a pace
    scaled by the metric. *)
Theorem emission_control cfg st rules latest idle creator time power eTxs metric sp :
  let passed := time - cl_prevEmittedAtTime st in
  let passedBlocks := latest - cl_prevEmittedAtBlock st in
  let slack := BlockMissedSlack (Economy rules) in
  let allowed := isAllowedToEmit cfg st rules latest idle creator time power eTxs metric sp in
  0 <= passed < 2 ^ 62 → 0 <= metric <= DecimalUnit → 5 <= slack < 2 ^ 60 → 0 <= passedBlocks < 2 ^ 64 →
  (power <= ec_EmergencyThreshold cfg → (∃ p, sp = Some p ∧ power < p) → allowed = false) ∧
  (ec_EmergencyThreshold cfg < power ∨ sp = None →
   int_Max (cl_intervals st) <= passed ∨ slack - 1 <= passedBlocks → allowed = true) ∧
  (allowed = true → passed < int_Max (cl_intervals st) → passedBlocks < maxBlocks slack * 4 / 5 →
   int_Min (cl_intervals st) <= passed ∧
   (idle = true → eTxs = true) ∧
   (idle = false → int_Min (cl_intervals st) <= passed / DecimalUnit * metric)).
Proof.
  intros passed passedBlocks slack allowed Hp Hm Hs Hb.
  destruct (maxBlocks_spec slack ltac:(lia)) as [_ HmB].
  assert (Ep : time_Sub time (cl_prevEmittedAtTime st) = passed) by (unfold time_Sub; fold passed; lia).
  assert (Hq : 0 <= passed / DecimalUnit <= passed / 10 ^ 6) by (unfold DecimalUnit; split; [apply Z.div_pos|]; lia).
  assert (Hq' : passed / 10 ^ 6 < 2 ^ 43) by (apply Z.div_lt_upper_bound; lia).
  assert (Ea : i64 (u64 (u64 (Z.quot passed DecimalUnit) * metric)) = passed / DecimalUnit * metric).
  { rewrite Z.quot_div_nonneg by (unfold DecimalUnit; lia).
    unfold DecimalUnit in *. assert (0 <= passed / 10 ^ 6 * metric < 2 ^ 63) by nia.
    rewrite (u64_id (passed / _)), u64_id, i64_id by (unfold is_u64, is_i64; lia). done. }
  unfold allowed, isAllowedToEmit. fold slack. rewrite Ep, Ea, (u64_id (latest - _)) by done. fold passedBlocks.
  rewrite (u64_id (maxBlocks slack * 4)) by (unfold is_u64; lia). clear Hq Hq' Ep Ea Hp Hm.
  assert (Hm45 : maxBlocks slack * 4 / 5 <= maxBlocks slack) by (apply Z.div_le_upper_bound; lia).
  split; [|split].
  - intros Hlow (p & -> & Hdec). by rewrite (proj2 (Z.leb_le power _)), (proj2 (Z.ltb_lt power p)) by lia.
  - intros Hpow Hforce. destruct (_ && _) eqn:E.
    { apply andb_true_iff in E as [E1%Z.leb_le E2]. destruct Hpow as [?| ->]; [lia|done]. }
    destruct Hforce as [HM|HB].
    + by rewrite (proj2 (Z.leb_le (int_Max _) passed)).
    + rewrite (proj2 (Z.leb_le (maxBlocks slack) passedBlocks)) by lia. by rewrite orb_true_r.
  - intros Hal HM HB. rewrite (proj2 (Z.leb_gt (int_Max _) passed)), (proj2 (Z.leb_gt (_ / 5) passedBlocks)),
      (proj2 (Z.leb_gt (maxBlocks slack) passedBlocks)), (proj2 (Z.ltb_lt passed (int_Max _))) in Hal by lia.
    cbn [orb andb] in Hal. repeat match type of Hal with (if ?c then false else _) = true =>
      let E := fresh "E" in destruct c eqn:E; [discriminate|] end.
    split_and!.
    + by apply Z.ltb_ge.
    + intros ->. by destruct eTxs.
    + intros ->. rewrite andb_true_r in *. by apply Z.ltb_ge.
Qed.

(** ** Metrics *)

Lemma Get_u64 dots x v : Get dots x = Ok v → is_u64 v.
Proof.
  unfold Get. intros (a & _ & (b & _ & (r & _ & E)%res_bind_Ok)%res_bind_Ok)%res_bind_Ok. injection E as <-.
  apply u64_range.
Qed.

Lemma overheadF_range validatorsNum busyRate :
  0 <= validatorsNum <= MaxUint32 → 0 <= busyRate → ∃ o, overheadF validatorsNum busyRate = Ok o ∧ 0 <= o <= DecimalUnit.
Proof.
  intros Hn Hb. unfold overheadF.
  destruct (Get_bounds validatorsToOverheadF validatorsNum 0 DecimalUnit (mkDot 0 0) (mkDot MaxUint32 1000000))
    as (v & E & Hv); [apply overhead_dots_ok|done|done|done| |cbn; unfold MaxUint32, DecimalUnit in *; lia|].
  { repeat constructor; cbn; unfold DecimalUnit; lia. }
  rewrite E. cbn [mbind res_bind]. eexists. split; [done|]. apply Get_u64 in E. unfold is_u64 in E.
  set (busy := if DecimalUnit <? busyRate then DecimalUnit else busyRate).
  assert (0 <= busy <= DecimalUnit) by (unfold busy, DecimalUnit; destruct (Z.ltb_spec (10 ^ 6) busyRate); lia).
  unfold DecimalUnit in *. rewrite u64_id by (unfold is_u64; nia).
  split; [apply Z.div_pos; nia|apply Z.div_le_upper_bound; nia].
Qed.

(** The metric of an event lies in (0, 1], and the overhead of a large network only
    lowers it. *)
Theorem event_metric_range orig seq validatorsNum busyRate :
  0 <= orig <= DecimalUnit → 0 <= validatorsNum <= MaxUint32 → 0 <= busyRate →
  ∃ m m', eventMetric orig seq = Ok m ∧ 0 < m <= DecimalUnit ∧
    overheadAdjustedEventMetricF validatorsNum busyRate m = Ok m' ∧ 0 <= m' <= m.
Proof.
  intros Ho Hn Hb. unfold eventMetric.
  destruct (Get_bounds eventMetricF orig 5000 DecimalUnit (mkDot 0 5000) (mkDot (MaxUint32 * DecimalUnit) 1000000))
    as (v & -> & Hv); [apply eventMetric_dots_ok|done|done| | |cbn; unfold DecimalUnit in *; lia|].
  { cbn. unfold MaxUint32, DecimalUnit in *. lia. }
  { repeat constructor; cbn; unfold DecimalUnit; lia. }
  cbn [mbind res_bind]. unfold DecimalUnit in *.
  set (m1 := if (seq <=? 2) && (v <? 900000) then u64 (v + 100000) else v).
  assert (Hm1 : 0 < m1 <= 10 ^ 6).
  { unfold m1. destruct (seq <=? 2), (Z.ltb_spec v 900000); cbn [andb]; try lia.
    rewrite u64_id by (unfold is_u64; lia). lia. }
  set (m2 := if (seq <=? 1) && (m1 <=? 800000) then u64 (m1 + 200000) else m1).
  assert (Hm2 : 0 < m2 <= 10 ^ 6).
  { unfold m2. destruct (seq <=? 1), (Z.leb_spec m1 800000); cbn [andb]; try lia.
    rewrite u64_id by (unfold is_u64; lia). lia. }
  destruct (overheadF_range validatorsNum busyRate Hn Hb) as (o & Eo & Hor). unfold DecimalUnit in Hor.
  eexists _, _. split; [done|]. split; [done|]. unfold overheadAdjustedEventMetricF. rewrite Eo. cbn [mbind res_bind].
  split; [done|]. unfold DecimalUnit. rewrite (u64_id (10 ^ 6 - o)), u64_id by (unfold is_u64; nia).
  split; [apply Z.div_pos; nia|apply Z.div_le_upper_bound; nia].
Qed.

(** The interpolation of [scalarUpdMetricF] is not monotonic: it loses one unit at the
    first step of its last piece, and the difference of two metrics then wraps. *)
Example upd_metric_wraps : updMetric 0 4394 4395 0 demo_group = Ok (2 ^ 64 - 1).
Proof. vm_compute. reflexivity. Qed.

(** ** Concrete intervals *)

Definition demo_emitter_cfg : EmitterConfig := DefaultEmitterConfig 2 (mkPubKey Types_Secp256k1 []).
Definition demo_control : Control :=
  mkControl 0 (100 * Second) 40 ∅ ∅ ∅ ∅ 0 (ec_EmitIntervals demo_emitter_cfg).

(** After sixteen recounts in the first hours the protection is off. *)
Example doublesign_protection_vanishes :
  int_DoublesignProtection (cl_intervals demo_control) = 27 * Minute ∧
  ∃ st, recounts 16 demo_emitter_cfg Hour demo_group demo_control = Ok st ∧
    int_DoublesignProtection (cl_intervals st) = 0.
Proof.
  split; [reflexivity|].
  destruct (doublesign_protection_decays 16 demo_emitter_cfg Hour demo_group demo_control) as (st & E & Hd);
    [vm_compute; discriminate|vm_compute; split; congruence|reflexivity|].
  exists st. split; [exact E|]. rewrite Hd. reflexivity.
Qed.

Lemma recount_intervals_witness :
  ∃ st', recountValidators demo_emitter_cfg Hour demo_group demo_control = Ok st' ∧
    (∀ id, id ∈ vv_IDs demo_group → ∃ r i, cl_stakeRatio st' !! id = Some r ∧ 0 <= r <= DecimalUnit ∧
       cl_expectedEmitIntervals st' !! id = Some i ∧ interval_ok demo_emitter_cfg i) ∧
    (ec_ID demo_emitter_cfg ∈ vv_IDs demo_group →
     interval_ok demo_emitter_cfg (int_Confirming (cl_intervals st'))) ∧
    cl_challenges st' = cl_challenges demo_control ∧
    cl_offlineValidators st' = cl_offlineValidators demo_control ∧
    cl_prevEmittedAtTime st' = cl_prevEmittedAtTime demo_control ∧
    int_Min (cl_intervals st') = int_Min (cl_intervals demo_control).
Proof.
  apply (recount_intervals demo_emitter_cfg Hour demo_group demo_control).
  - vm_compute. discriminate.
  - vm_compute. split; congruence.
Defined.

(** Eleven minutes after the last event. *)
Lemma emission_control_witness :
  isAllowedToEmit demo_emitter_cfg demo_control MainNetRules 41 true 2 (760 * Second) 1000000 false 1000 None = true ∧
  isAllowedToEmit demo_emitter_cfg demo_control MainNetRules 41 true 2 (160 * Second) 1000000 false 1000 None = false ∧
  (ec_EmergencyThreshold demo_emitter_cfg < 1000000 ∨ @None Z = None →
   int_Max (cl_intervals demo_control) <= 660 * Second ∨ 50 - 1 <= 41 - 40 →
   isAllowedToEmit demo_emitter_cfg demo_control MainNetRules 41 true 2 (760 * Second) 1000000 false 1000 None = true).
Proof.
  split; [vm_compute; reflexivity|]. split; [vm_compute; reflexivity|].
  pose proof (emission_control demo_emitter_cfg demo_control MainNetRules 41 true 2 (760 * Second) 1000000 false 1000
    None) as Hc. cbn zeta in Hc.
  apply Hc.
  - vm_compute. split; congruence.
  - vm_compute. split; congruence.
  - vm_compute. split; congruence.
  - vm_compute. split; congruence.
Defined.
