(* ===== verification/EvmState.v ===== *)
(** * Message execution (evmcore/gaspool.go, evmcore/state_transition.go)

    The gas pool of a block, the intrinsic gas of a transaction and the
    transition of one message: buying gas, running the EVM, refunding.  The
    state database, the EVM and the gas prices of the protocol are outside the
    repository: they are the classes [StateDB], [EVM] and [GasTable]. *)

From S2P Require Import Prelude Cser Inter.

Definition ErrGasLimitReached : error := NewError "evmcore.ErrGasLimitReached".
Definition ErrNonceTooHigh : error := NewError "evmcore.ErrNonceTooHigh".
Definition ErrNonceTooLow : error := NewError "evmcore.ErrNonceTooLow".
Definition ErrInsufficientFunds : error := NewError "evmcore.ErrInsufficientFunds".
Definition ErrIntrinsicGas : error := NewError "evmcore.ErrIntrinsicGas".
Definition ErrGasUintOverflow : error := NewError "evmcore.ErrGasUintOverflow".
(** [vm.ErrOutOfGas] of the EVM library. *)
Definition ErrOutOfGas : error := NewError "vm.ErrOutOfGas".

Definition MaxUint64 : Z := 2 ^ 64 - 1.

(** ** evmcore/gaspool.go *)

Definition GasPool : Type := Z.

Definition AddGas (gp : GasPool) (amount : Z) : res GasPool :=
  if MaxUint64 - amount <? gp then Panic else Ok (u64 (gp + amount)).

Definition SubGas (gp : GasPool) (amount : Z) : res GasPool :=
  if gp <? amount then Err ErrGasLimitReached else Ok (u64 (gp - amount)).

(** ** Intrinsic gas *)

(** The constants of [params] that the code uses, and [AccessList.StorageKeys]. *)
Class GasTable := {
  TxGas : Z;
  TxGasContractCreation : Z;
  TxDataNonZeroGas : Z;
  TxDataZeroGas : Z;
  TxAccessListAddressGas : Z;
  TxAccessListStorageKeyGas : Z;
  AccessList_StorageKeys : list AccessTuple → Z;
}.

Class GasTable_ok `{GasTable} := {
  TxGas_range : is_u64 TxGas;
  TxGasContractCreation_range : is_u64 TxGasContractCreation;
  TxDataNonZeroGas_pos : 0 < TxDataNonZeroGas < 2 ^ 64;
  TxDataZeroGas_pos : 0 < TxDataZeroGas < 2 ^ 64;
  TxAccessListAddressGas_range : is_u64 TxAccessListAddressGas;
  TxAccessListStorageKeyGas_range : is_u64 TxAccessListStorageKeyGas;
  StorageKeys_nonneg : ∀ al, 0 <= AccessList_StorageKeys al;
}.

Section gas.
Context `{GasTable}.

Definition count_nz (data : list Z) : Z :=
  foldl (λ nz byt, if negb (byt =? 0) then u64 (nz + 1) else nz) 0 data.

Definition IntrinsicGas (data : list Z) (accessList : list AccessTuple)
    (isContractCreation : bool) : res Z :=
  let gas := if isContractCreation then TxGasContractCreation else TxGas in
  gas ← (if 0 <? len data then
           let nz := count_nz data in
           if (MaxUint64 - gas) / TxDataNonZeroGas <? nz then Err ErrOutOfGas
           else
             let gas := u64 (gas + nz * TxDataNonZeroGas) in
             let z := u64 (len data - nz) in
             if (MaxUint64 - gas) / TxDataZeroGas <? z then Err ErrGasUintOverflow
             else Ok (u64 (gas + z * TxDataZeroGas))
         else Ok gas);
  let gas := u64 (gas + len accessList * TxAccessListAddressGas) in
  Ok (u64 (gas + AccessList_StorageKeys accessList * TxAccessListStorageKeyGas)).

(** The mathematical value. *)
Definition intrinsic (data : list Z) (accessList : list AccessTuple)
    (isContractCreation : bool) : Z :=
  (if isContractCreation then TxGasContractCreation else TxGas)
  + len (filter (λ b, b ≠ 0) data) * TxDataNonZeroGas
  + len (filter (λ b, b = 0) data) * TxDataZeroGas
  + len accessList * TxAccessListAddressGas
  + AccessList_StorageKeys accessList * TxAccessListStorageKeyGas.

Lemma count_nz_acc data acc :
  0 <= acc → acc + len data < 2 ^ 64 →
  foldl (λ nz byt, if negb (byt =? 0) then u64 (nz + 1) else nz) acc data =
  acc + len (filter (λ b, b ≠ 0) data).
Proof.
  revert acc. induction data as [|b data IH]; intros acc Ha Hl; cbn [foldl].
  { unfold len. cbn. lia. }
  rewrite filter_cons. unfold len in *. cbn [length] in Hl.
  destruct (Z.eqb_spec b 0) as [->|Hb]; cbn [negb].
  - rewrite decide_False by (by intros []). apply IH; lia.
  - rewrite decide_True by done. rewrite u64_id by (unfold is_u64; lia).
    rewrite IH by lia. cbn [length]. lia.
Qed.

Lemma filter_zero_len data :
  len (filter (λ b, b ≠ 0) data) + len (filter (λ b, b = 0) data) = len data.
Proof.
  unfold len. induction data as [|b data IH]; [done|].
  rewrite !filter_cons. destruct (decide (b = 0)) as [->|].
  - rewrite decide_False by (by intros []). cbn. lia.
  - rewrite decide_True by done. cbn. lia.
Qed.

(** [(max - gas) / price < n] is exactly the overflow of [gas + n * price]. *)
Lemma div_overflow gas price n :
  0 <= gas <= MaxUint64 → 0 < price →
  ((MaxUint64 - gas) / price <? n) = (MaxUint64 <? gas + n * price).
Proof.
  intros Hg Hp. destruct (Z.ltb_spec MaxUint64 (gas + n * price)) as [Ho|Ho].
  - apply Z.ltb_lt. apply Z.div_lt_upper_bound; nia.
  - apply Z.ltb_ge. apply Z.div_le_lower_bound; nia.
Qed.

Lemma IntrinsicGas_spec `{!GasTable_ok} data al cc :
  len data < 2 ^ 64 → intrinsic data al cc < 2 ^ 64 →
  IntrinsicGas data al cc = Ok (intrinsic data al cc).
Proof.
  intros Hl Hi. pose proof (StorageKeys_nonneg al) as Hk. unfold IntrinsicGas, intrinsic in *. rewrite <- (filter_zero_len data) in Hl.
  set (g := if cc then TxGasContractCreation else TxGas) in *.
  assert (Hg : is_u64 g) by (destruct cc; [apply TxGasContractCreation_range|apply TxGas_range]).
  pose proof TxDataNonZeroGas_pos. pose proof TxDataZeroGas_pos.
  pose proof TxAccessListAddressGas_range as Ha. pose proof TxAccessListStorageKeyGas_range as Hs.
  pose proof (len_nonneg al). pose proof (len_nonneg (filter (λ b, b ≠ 0) data)).
  pose proof (len_nonneg (filter (λ b, b = 0) data)).
  unfold is_u64 in Hg, Ha, Hs.
  assert (Hnz : count_nz data = len (filter (λ b, b ≠ 0) data)).
  { unfold count_nz. rewrite count_nz_acc; [lia|lia|]. rewrite <- filter_zero_len. lia. }
  rewrite Hnz. set (nz := len (filter (λ b, b ≠ 0) data)) in *.
  replace (len data - nz) with (len (filter (λ b, b = 0) data))
    by (rewrite <- (filter_zero_len data); subst nz; lia).
  set (z := len (filter (λ b, b = 0) data)) in *.
  assert (0 <= nz * TxDataNonZeroGas) by nia. assert (0 <= z * TxDataZeroGas) by nia.
  assert (0 <= len al * TxAccessListAddressGas) by nia.
  assert (0 <= AccessList_StorageKeys al * TxAccessListStorageKeyGas) by nia.
  assert (Hd : (if 0 <? len data then
    if (MaxUint64 - g) / TxDataNonZeroGas <? nz then Err ErrOutOfGas
    else if (MaxUint64 - u64 (g + nz * TxDataNonZeroGas)) / TxDataZeroGas <? u64 z
      then Err ErrGasUintOverflow
      else Ok (u64 (u64 (g + nz * TxDataNonZeroGas) + u64 z * TxDataZeroGas))
    else Ok g) = Ok (g + nz * TxDataNonZeroGas + z * TxDataZeroGas)).
  { destruct (Z.ltb_spec 0 (len data)) as [Hpos|Hpos].
    - rewrite (u64_id (g + _)), (u64_id z) by (unfold is_u64; lia).
      rewrite !div_overflow by (unfold MaxUint64; lia).
      rewrite !(proj2 (Z.ltb_ge _ _)) by (unfold MaxUint64; lia).
      by rewrite u64_id by (unfold is_u64; lia).
    - rewrite <- filter_zero_len in Hpos. fold nz z in Hpos.
      replace nz with 0 by lia. replace z with 0 by lia. f_equal. lia. }
  cbv zeta. rewrite Hd. cbn [mbind res_bind].
  rewrite !u64_id by (rewrite ?u64_id; unfold is_u64; lia). done.
Qed.
End gas.

(** ** evmcore/state_transition.go *)

Definition Address : Type := list Z.
Definition zeroAddr : Address := replicate 20 0.

Record Message := mkMessage {
  msg_From : Address;
  msg_To : option Address;
  msg_GasPrice : Z;
  msg_Gas : Z;
  msg_Value : Z;
  msg_Nonce : Z;
  msg_CheckNonce : bool;
  msg_Data : list Z;
  msg_AccessList : list AccessTuple;
}.

Record ExecutionResult := mkExecutionResult {
  UsedGas : Z;
  ResErr : option error;
  ReturnData : list Z;
}.

Class StateDB (W : Type) := {
  GetBalance : W → Address → Z;
  SubBalance : Address → Z → W → W;
  AddBalance : Address → Z → W → W;
  GetNonce : W → Address → Z;
  SetNonce : Address → Z → W → W;
  GetRefund : W → Z;
}.

(** The virtual machine: return data, leftover gas and error of a run. *)
Class EVM (W : Type) := {
  IsBerlin : bool;
  PrepareAccessList : Address → option Address → list AccessTuple → W → W;
  evm_Create : Address → list Z → Z → Z → W → (list Z * Z * option error) * W;
  evm_Call : Address → Address → list Z → Z → Z → W → (list Z * Z * option error) * W;
}.

Record StateTransition (W : Type) := mkST {
  st_gp : GasPool;
  st_gas : Z;
  st_initialGas : Z;
  st_state : W;
}.
Arguments mkST {W}. Arguments st_gp {W}. Arguments st_gas {W}.
Arguments st_initialGas {W}. Arguments st_state {W}.

Section transition.
Context `{GasTable} {W : Type} `{StateDB W} `{EVM W}.
Variable msg : Message.

Definition NewStateTransition (w : W) (gp : GasPool) : StateTransition W := mkST gp 0 0 w.

Definition to : Address := default zeroAddr (msg_To msg).

Definition gasUsed (st : StateTransition W) : Z := u64 (st_initialGas st - st_gas st).

Definition internal : bool := bool_decide (msg_From msg = zeroAddr).

Definition on_state (f : W → W) : Eff (StateTransition W) unit :=
  eff_set (λ st, mkST (st_gp st) (st_gas st) (st_initialGas st) (f (st_state st))).

Definition set_gas (f : Z → Z) : Eff (StateTransition W) unit :=
  eff_set (λ st, mkST (st_gp st) (f (st_gas st)) (st_initialGas st) (st_state st)).

(** A method of the gas pool: the pool is unchanged when it fails. *)
Definition on_pool (f : GasPool → res GasPool) : Eff (StateTransition W) unit :=
  λ st, match f (st_gp st) with
        | Ok gp => (Ok tt, mkST gp (st_gas st) (st_initialGas st) (st_state st))
        | Err e => (Err e, st)
        | Panic => (Panic, st)
        end.

Definition buyGas : Eff (StateTransition W) unit :=
  let mgval := msg_Gas msg * msg_GasPrice msg in
  have ← eff_get (λ st, GetBalance (st_state st) (msg_From msg));
  if have <? mgval then eff_err ErrInsufficientFunds
  else
    _ ← on_pool (λ gp, SubGas gp (msg_Gas msg));
    _ ← eff_set (λ st, mkST (st_gp st) (u64 (st_gas st + msg_Gas msg)) (msg_Gas msg) (st_state st));
    on_state (SubBalance (msg_From msg) mgval).

Definition preCheck : Eff (StateTransition W) unit :=
  if msg_CheckNonce msg then
    stNonce ← eff_get (λ st, GetNonce (st_state st) (msg_From msg));
    if stNonce <? msg_Nonce msg then eff_err ErrNonceTooHigh
    else if msg_Nonce msg <? stNonce then eff_err ErrNonceTooLow
    else buyGas
  else buyGas.

Definition refundGas : Eff (StateTransition W) unit :=
  refund ← eff_get (λ st,
    let refund := gasUsed st / 2 in
    if GetRefund (st_state st) <? refund then GetRefund (st_state st) else refund);
  _ ← set_gas (λ g, u64 (g + refund));
  remaining ← eff_get (λ st, st_gas st * msg_GasPrice msg);
  _ ← on_state (AddBalance (msg_From msg) remaining);
  gas ← eff_get st_gas;
  on_pool (λ gp, AddGas gp gas).

(** The call of the virtual machine replaces the gas by what is left. *)
Definition call_evm (contractCreation : bool) : Eff (StateTransition W) (list Z * option error) :=
  λ st,
    let '(ret, gas, vmerr, w) :=
      (if contractCreation
       then evm_Create (msg_From msg) (msg_Data msg) (st_gas st) (msg_Value msg) (st_state st)
       else evm_Call (msg_From msg) to (msg_Data msg) (st_gas st) (msg_Value msg) (st_state st)) in
    (Ok (ret, vmerr), mkST (st_gp st) gas (st_initialGas st) w).

Definition run_evm (contractCreation : bool) : Eff (StateTransition W) (list Z * option error) :=
  _ ← (if contractCreation then mret tt
       else on_state (λ w, SetNonce (msg_From msg) (u64 (GetNonce w (msg_From msg) + 1)) w));
  call_evm contractCreation.

(** A pure computation that may fail. *)
Definition lift_res {A} (r : res A) : Eff (StateTransition W) A := λ st, (r, st).

Definition TransitionDb : Eff (StateTransition W) ExecutionResult :=
  _ ← preCheck;
  let contractCreation := bool_decide (msg_To msg = None) in
  gas ← lift_res (IntrinsicGas (msg_Data msg) (msg_AccessList msg) contractCreation);
  have ← eff_get st_gas;
  if have <? gas then eff_err ErrIntrinsicGas
  else
    _ ← set_gas (λ g, u64 (g - gas));
    _ ← (if IsBerlin (W := W)
         then on_state (PrepareAccessList (msg_From msg) (msg_To msg) (msg_AccessList msg))
         else mret tt);
    '(ret, vmerr) ← run_evm contractCreation;
    _ ← (if negb internal then set_gas (λ g, u64 (g - g / 10)) else mret tt);
    _ ← refundGas;
    used ← eff_get gasUsed;
    mret (mkExecutionResult used vmerr ret).

Definition ApplyMessage (w : W) (gp : GasPool) : res ExecutionResult * StateTransition W :=
  TransitionDb (NewStateTransition w gp).

(** ** What a transition does *)

(** What the code relies on of the virtual machine and of the state: a run does
    not create gas, and the refund counter is a [uint64]. *)
Class EVM_ok := {
  Create_gas : ∀ a d g v (w : W), 0 <= (evm_Create a d g v w).1.1.2 <= g ∨ g < 0;
  Call_gas : ∀ a b d g v (w : W), 0 <= (evm_Call a b d g v w).1.1.2 <= g ∨ g < 0;
  Refund_range : ∀ w : W, is_u64 (GetRefund w);
  AddBalance_spec : ∀ a v (w : W), GetBalance (AddBalance a v w) a = GetBalance w a + v;
  SubBalance_spec : ∀ a v (w : W), GetBalance (SubBalance a v w) a = GetBalance w a - v;
  SetNonce_balance : ∀ a n (w : W) b, GetBalance (SetNonce a n w) b = GetBalance w b;
  PrepareAccessList_balance : ∀ a t l (w : W) b,
    GetBalance (PrepareAccessList a t l w) b = GetBalance w b;
}.

Definition creation : bool := bool_decide (msg_To msg = None).

(** The state the virtual machine starts from, and what it returns. *)
Definition before_evm (w : W) : W :=
  let w := SubBalance (msg_From msg) (msg_Gas msg * msg_GasPrice msg) w in
  let w := if IsBerlin (W := W)
           then PrepareAccessList (msg_From msg) (msg_To msg) (msg_AccessList msg) w else w in
  if creation then w else SetNonce (msg_From msg) (u64 (GetNonce w (msg_From msg) + 1)) w.

Definition evm_run (w : W) (ig : Z) : (list Z * Z * option error) * W :=
  if creation
  then evm_Create (msg_From msg) (msg_Data msg) (msg_Gas msg - ig) (msg_Value msg) (before_evm w)
  else evm_Call (msg_From msg) to (msg_Data msg) (msg_Gas msg - ig) (msg_Value msg) (before_evm w).

(** A tenth of the leftover gas of an external message is burnt. *)
Definition after_burn (leftover : Z) : Z := if internal then leftover else leftover - leftover / 10.

Definition refund (leftover : Z) (w : W) : Z := Z.min ((msg_Gas msg - after_burn leftover) / 2) (GetRefund w).

Definition spec_UsedGas (leftover : Z) (w : W) : Z := msg_Gas msg - after_burn leftover - refund leftover w.

Context `{!EVM_ok}.

Lemma evm_run_gas w ig : ig <= msg_Gas msg → 0 <= (evm_run w ig).1.1.2 <= msg_Gas msg - ig.
Proof.
  intros. unfold evm_run. destruct creation.
  - destruct (Create_gas (msg_From msg) (msg_Data msg) (msg_Gas msg - ig) (msg_Value msg)
      (before_evm w)); lia.
  - destruct (Call_gas (msg_From msg) to (msg_Data msg) (msg_Gas msg - ig) (msg_Value msg)
      (before_evm w)); lia.
Qed.

Lemma after_burn_range leftover : 0 <= leftover → 0 <= after_burn leftover <= leftover.
Proof. unfold after_burn. destruct internal; go_lia. Qed.

Lemma UsedGas_range leftover w :
  0 <= leftover <= msg_Gas msg →
  0 <= refund leftover w ∧ 0 <= after_burn leftover + refund leftover w <= msg_Gas msg.
Proof.
  intros Hl. pose proof (after_burn_range leftover ltac:(lia)). pose proof (Refund_range w) as Hr.
  unfold refund, is_u64 in *. go_lia.
Qed.

Lemma buyGas_Ok w gp :
  is_u64 gp → is_u64 (msg_Gas msg) → msg_Gas msg * msg_GasPrice msg <= GetBalance w (msg_From msg) →
  msg_Gas msg <= gp →
  buyGas (NewStateTransition w gp) =
  (Ok tt, mkST (gp - msg_Gas msg) (msg_Gas msg) (msg_Gas msg)
            (SubBalance (msg_From msg) (msg_Gas msg * msg_GasPrice msg) w)).
Proof.
  intros Hgp Hg Hb Hle. unfold buyGas, NewStateTransition, on_pool, SubGas.
  cbv [mbind Eff_bind eff_get eff_set on_state]. cbn.
  rewrite (proj2 (Z.ltb_ge _ _)) by done. cbn. rewrite (proj2 (Z.ltb_ge gp _)) by done. cbn.
  rewrite !u64_id by (unfold is_u64 in *; lia). done.
Qed.

(** A message can be executed in this state and block. *)
Definition executable (w : W) (gp : GasPool) (ig : Z) : Prop :=
  (msg_CheckNonce msg = true → GetNonce w (msg_From msg) = msg_Nonce msg) ∧
  msg_Gas msg * msg_GasPrice msg <= GetBalance w (msg_From msg) ∧
  msg_Gas msg <= gp ∧
  IntrinsicGas (msg_Data msg) (msg_AccessList msg) creation = Ok ig ∧ 0 <= ig <= msg_Gas msg.

Lemma preCheck_Ok w gp ig :
  is_u64 gp → is_u64 (msg_Gas msg) → executable w gp ig →
  preCheck (NewStateTransition w gp) =
  (Ok tt, mkST (gp - msg_Gas msg) (msg_Gas msg) (msg_Gas msg)
            (SubBalance (msg_From msg) (msg_Gas msg * msg_GasPrice msg) w)).
Proof.
  intros Hgp Hg (Hn & Hb & Hle & _). unfold preCheck. destruct (msg_CheckNonce msg).
  - cbv [mbind Eff_bind eff_get]. cbn. rewrite (Hn eq_refl), Z.ltb_irrefl. by apply buyGas_Ok.
  - by apply buyGas_Ok.
Qed.

Lemma refundGas_Ok w gp leftover :
  is_u64 gp → is_u64 (msg_Gas msg) → msg_Gas msg <= gp → 0 <= leftover <= msg_Gas msg →
  let rest := after_burn leftover + refund leftover w in
  refundGas (mkST (gp - msg_Gas msg) (after_burn leftover) (msg_Gas msg) w) =
  (Ok tt, mkST (gp - spec_UsedGas leftover w) rest (msg_Gas msg)
            (AddBalance (msg_From msg) (rest * msg_GasPrice msg) w)).
Proof.
  intros Hgp Hg Hle Hl rest. destruct (UsedGas_range leftover w Hl) as [Hr0 Hr].
  pose proof (after_burn_range leftover ltac:(lia)).
  unfold refundGas, gasUsed, set_gas, on_state, on_pool, AddGas.
  cbv [mbind Eff_bind eff_get eff_set]. cbn.
  rewrite (u64_id (msg_Gas msg - _)) by (unfold is_u64 in *; lia).
  replace (if GetRefund w <? _ then _ else _) with (refund leftover w).
  2: { unfold refund. destruct (Z.ltb_spec (GetRefund w) ((msg_Gas msg - after_burn leftover) / 2)); lia. }
  rewrite (u64_id (after_burn leftover + _)) by (unfold is_u64 in *; lia). fold rest.
  rewrite (proj2 (Z.ltb_ge _ _)) by (unfold is_u64, MaxUint64 in *; lia).
  rewrite u64_id by (unfold is_u64 in *; lia).
  unfold spec_UsedGas. replace (gp - msg_Gas msg + rest) with
    (gp - (msg_Gas msg - after_burn leftover - refund leftover w)) by (subst rest; lia). done.
Qed.

(** From the purchase of gas to the end of the virtual machine's run. *)
Lemma run_phase w gp ig ret leftover vmerr w' (k : list Z * option error → Eff (StateTransition W) ExecutionResult) :
  evm_run w ig = (ret, leftover, vmerr, w') →
  (_ ← (if IsBerlin (W := W)
        then on_state (PrepareAccessList (msg_From msg) (msg_To msg) (msg_AccessList msg))
        else mret tt); x ← run_evm creation; k x)
    (mkST (gp - msg_Gas msg) (msg_Gas msg - ig) (msg_Gas msg)
      (SubBalance (msg_From msg) (msg_Gas msg * msg_GasPrice msg) w)) =
  k (ret, vmerr) (mkST (gp - msg_Gas msg) leftover (msg_Gas msg) w').
Proof.
  intros E. unfold run_evm, call_evm, evm_run, before_evm in *.
  cbv [mbind Eff_bind on_state eff_set mret Eff_ret].
  destruct IsBerlin, creation; cbn in *; by rewrite E.
Qed.

Lemma burn_phase w gp leftover :
  is_u64 (msg_Gas msg) → 0 <= leftover <= msg_Gas msg →
  (if negb internal then set_gas (λ g, u64 (g - g / 10)) else mret tt)
    (mkST (gp - msg_Gas msg) leftover (msg_Gas msg) w) =
  (Ok tt, mkST (gp - msg_Gas msg) (after_burn leftover) (msg_Gas msg) w).
Proof.
  intros Hg Hl. pose proof (after_burn_range leftover ltac:(lia)) as Hab. revert Hab.
  unfold after_burn. destruct internal; [done|]. intros. unfold set_gas, eff_set. cbn.
  by rewrite u64_id by (unfold is_u64 in *; lia).
Qed.

Lemma ApplyMessage_executable w gp ig :
  is_u64 gp → is_u64 (msg_Gas msg) → executable w gp ig →
  let '(ret, leftover, vmerr, w') := evm_run w ig in
  let rest := after_burn leftover + refund leftover w' in
  ApplyMessage w gp =
  (Ok (mkExecutionResult (spec_UsedGas leftover w') vmerr ret),
   mkST (gp - spec_UsedGas leftover w') rest (msg_Gas msg)
     (AddBalance (msg_From msg) (rest * msg_GasPrice msg) w')).
Proof.
  intros Hgp Hg Hex. pose proof Hex as (_ & _ & Hle & Hig & Hir).
  pose proof (evm_run_gas w ig ltac:(lia)) as Hgas.
  destruct (evm_run w ig) as [[[ret leftover] vmerr] w'] eqn:E. cbn [fst snd] in Hgas. cbv zeta.
  unfold ApplyMessage, TransitionDb.
  rewrite (Eff_bind_step _ _ _ _ _ (preCheck_Ok w gp ig Hgp Hg Hex)). fold creation.
  unfold lift_res. rewrite Hig.
  rewrite (Eff_bind_step _ _ _ ig (mkST (gp - msg_Gas msg) (msg_Gas msg) (msg_Gas msg)
    (SubBalance (msg_From msg) (msg_Gas msg * msg_GasPrice msg) w))) by done.
  erewrite Eff_bind_step by (unfold eff_get; reflexivity). cbn [st_gas].
  rewrite (proj2 (Z.ltb_ge _ _)) by lia.
  erewrite Eff_bind_step by (unfold set_gas, eff_set; reflexivity).
  cbn [st_gas st_gp st_initialGas st_state]. rewrite (u64_id (_ - ig)) by (unfold is_u64 in *; lia).
  rewrite (run_phase w gp ig _ _ _ _ _ E).
  rewrite (Eff_bind_step _ _ _ _ _ (burn_phase w' gp leftover Hg ltac:(lia))).
  rewrite (Eff_bind_step _ _ _ _ _ (refundGas_Ok w' gp leftover Hgp Hg Hle ltac:(lia))).
  destruct (UsedGas_range leftover w' ltac:(lia)).
  unfold eff_get, gasUsed, mret, Eff_ret, mbind, Eff_bind. cbn.
  rewrite u64_id by (unfold is_u64, spec_UsedGas in *; lia). unfold spec_UsedGas.
  do 3 f_equal. lia.
Qed.

Lemma before_evm_balance w :
  GetBalance (before_evm w) (msg_From msg) =
  GetBalance w (msg_From msg) - msg_Gas msg * msg_GasPrice msg.
Proof.
  unfold before_evm. destruct creation, IsBerlin;
    rewrite ?SetNonce_balance, ?PrepareAccessList_balance; apply SubBalance_spec.
Qed.

Lemma IntrinsicGas_cases data al cc :
  (∃ ig, IntrinsicGas data al cc = Ok ig ∧ 0 <= ig) ∨
  (∃ e, IntrinsicGas data al cc = Err e ∧ e ∈ [ErrOutOfGas; ErrGasUintOverflow]).
Proof.
  unfold IntrinsicGas. cbv zeta.
  destruct (0 <? len data); [destruct (_ <? count_nz data); [|destruct (_ <? u64 _)]|];
    cbn [mbind res_bind]; first [right; eexists; split; [reflexivity|set_solver]
      | left; eexists; split; [reflexivity|apply u64_range]].
Qed.

(** The two ways a message can fail, and the state each leaves. *)
Definition rejected (w : W) (gp : GasPool) : Prop :=
  ∃ e, ApplyMessage w gp = (Err e, NewStateTransition w gp) ∧
    e ∈ [ErrNonceTooHigh; ErrNonceTooLow; ErrInsufficientFunds; ErrGasLimitReached].

Definition gas_bought (w : W) (gp : GasPool) : StateTransition W :=
  mkST (gp - msg_Gas msg) (msg_Gas msg) (msg_Gas msg)
    (SubBalance (msg_From msg) (msg_Gas msg * msg_GasPrice msg) w).

Definition aborted (w : W) (gp : GasPool) : Prop :=
  ∃ e, ApplyMessage w gp = (Err e, gas_bought w gp) ∧
    e ∈ [ErrIntrinsicGas; ErrOutOfGas; ErrGasUintOverflow].

Lemma rejected_intro w gp e :
  preCheck (NewStateTransition w gp) = (Err e, NewStateTransition w gp) →
  e ∈ [ErrNonceTooHigh; ErrNonceTooLow; ErrInsufficientFunds; ErrGasLimitReached] →
  rejected w gp.
Proof.
  intros E He. exists e. split; [|done]. unfold ApplyMessage, TransitionDb.
  by rewrite (Eff_bind_err _ _ _ _ _ E).
Qed.

Lemma buyGas_cases w gp :
  is_u64 gp → is_u64 (msg_Gas msg) →
  (msg_Gas msg * msg_GasPrice msg <= GetBalance w (msg_From msg) ∧ msg_Gas msg <= gp ∧
   buyGas (NewStateTransition w gp) = (Ok tt, gas_bought w gp)) ∨
  (∃ e, buyGas (NewStateTransition w gp) = (Err e, NewStateTransition w gp) ∧
     e ∈ [ErrInsufficientFunds; ErrGasLimitReached]).
Proof.
  intros Hgp Hg.
  destruct (decide (msg_Gas msg * msg_GasPrice msg <= GetBalance w (msg_From msg))) as [Hb|Hb].
  - destruct (decide (msg_Gas msg <= gp)) as [Hle|Hle].
    + left. split_and!; [done..|]. by apply buyGas_Ok.
    + right. exists ErrGasLimitReached. split; [|set_solver].
      unfold buyGas, on_pool, SubGas, NewStateTransition.
      cbv [mbind Eff_bind eff_get]. cbn. rewrite (proj2 (Z.ltb_ge _ _)) by lia. cbn.
      by rewrite (proj2 (Z.ltb_lt _ _)) by lia.
  - right. exists ErrInsufficientFunds. split; [|set_solver].
    unfold buyGas. cbv [mbind Eff_bind eff_get]. cbn. by rewrite (proj2 (Z.ltb_lt _ _)) by lia.
Qed.

Lemma preCheck_unfold w gp :
  let st0 := NewStateTransition w gp in
  preCheck st0 =
  if msg_CheckNonce msg && (GetNonce w (msg_From msg) <? msg_Nonce msg)
  then (Err ErrNonceTooHigh, st0)
  else if msg_CheckNonce msg && (msg_Nonce msg <? GetNonce w (msg_From msg))
  then (Err ErrNonceTooLow, st0)
  else buyGas st0.
Proof.
  cbv zeta. unfold preCheck. destruct (msg_CheckNonce msg); [|done].
  cbv [mbind Eff_bind eff_get]. cbn [st_state NewStateTransition andb].
  destruct (GetNonce w (msg_From msg) <? msg_Nonce msg); [done|].
  by destruct (msg_Nonce msg <? GetNonce w (msg_From msg)).
Qed.

Lemma preCheck_cases w gp :
  is_u64 gp → is_u64 (msg_Gas msg) →
  ((msg_CheckNonce msg = true → GetNonce w (msg_From msg) = msg_Nonce msg) ∧
   msg_Gas msg * msg_GasPrice msg <= GetBalance w (msg_From msg) ∧ msg_Gas msg <= gp ∧
   preCheck (NewStateTransition w gp) = (Ok tt, gas_bought w gp)) ∨
  rejected w gp.
Proof.
  intros Hgp Hg. pose proof (preCheck_unfold w gp) as Hp. cbv zeta in Hp.
  destruct (msg_CheckNonce msg && _) eqn:H1'.
  { right. apply (rejected_intro _ _ _ Hp). set_solver. }
  destruct (msg_CheckNonce msg && (msg_Nonce msg <? _)) eqn:H2'.
  { right. apply (rejected_intro _ _ _ Hp). set_solver. }
  destruct (buyGas_cases w gp Hgp Hg) as [(Hb & Hle & E)|(e & E & He)]; rewrite E in Hp.
  - left. split_and!; [|done..]. intros Hc. rewrite Hc in H1', H2'. cbn in *. go_bool. lia.
  - right. apply (rejected_intro _ _ _ Hp). clear -He. set_solver.
Qed.

(** ** The theorems *)

(** C10: a message that passes the nonce, balance, pool and intrinsic-gas checks
    is executed; it uses no more gas than it bought, the block's pool loses
    exactly the gas used, and the sender pays exactly the gas used at its price,
    next to what the virtual machine did to its balance. *)
Theorem message_gas_accounting w gp ig :
  is_u64 gp → is_u64 (msg_Gas msg) → executable w gp ig →
  ∃ r st, ApplyMessage w gp = (Ok r, st) ∧ 0 <= UsedGas r <= msg_Gas msg ∧
    st_gp st = gp - UsedGas r ∧
    GetBalance (st_state st) (msg_From msg) =
      GetBalance w (msg_From msg) - UsedGas r * msg_GasPrice msg
      + (GetBalance (evm_run w ig).2 (msg_From msg) - GetBalance (before_evm w) (msg_From msg)).
Proof.
  intros Hgp Hg Hex. pose proof (ApplyMessage_executable w gp ig Hgp Hg Hex) as HA.
  destruct Hex as (_ & _ & _ & _ & Hig). pose proof (evm_run_gas w ig ltac:(lia)) as Hgas.
  destruct (evm_run w ig) as [[[ret leftover] vmerr] w'] eqn:E. cbn [fst snd] in *.
  destruct (UsedGas_range leftover w' ltac:(lia)) as [? ?].
  eexists _, _. split; [exact HA|]. cbn. unfold spec_UsedGas.
  rewrite AddBalance_spec, before_evm_balance. split_and!; lia.
Qed.

(** every message is either executed, or refused before anything changed, or
    aborted for its intrinsic gas; in the last case the gas stays bought: the
    block's pool and the sender's balance are not given back by this function. *)
Theorem message_outcomes w gp :
  is_u64 gp → is_u64 (msg_Gas msg) →
  (∃ ig, executable w gp ig) ∨ rejected w gp ∨ aborted w gp.
Proof.
  intros Hgp Hg. destruct (preCheck_cases w gp Hgp Hg) as [(Hn & Hb & Hle & E)|]; [|auto].
  destruct (IntrinsicGas_cases (msg_Data msg) (msg_AccessList msg) creation)
    as [(ig & Hig & Hpos)|(e & Hig & He)].
  - destruct (decide (ig <= msg_Gas msg)) as [Hl|Hl].
    { left. exists ig. by split_and!. }
    right; right. exists ErrIntrinsicGas. split; [|set_solver].
    unfold ApplyMessage, TransitionDb. rewrite (Eff_bind_step _ _ _ _ _ E). fold creation.
    unfold lift_res. rewrite Hig. cbv [mbind Eff_bind eff_get]. cbn.
    by rewrite (proj2 (Z.ltb_lt _ _)) by lia.
  - right; right. exists e. split; [|set_solver].
    unfold ApplyMessage, TransitionDb. rewrite (Eff_bind_step _ _ _ _ _ E). fold creation.
    unfold lift_res. rewrite Hig. done.
Qed.
End transition.

(** ** A concrete machine

    Balances and nonces as association lists, a virtual machine that spends a third of
    its gas, and the gas prices of the Berlin hard fork. *)

#[global] Instance demo_gas : GasTable := {
  TxGas := 21000; TxGasContractCreation := 53000; TxDataNonZeroGas := 16; TxDataZeroGas := 4;
  TxAccessListAddressGas := 2400; TxAccessListStorageKeyGas := 1900;
  AccessList_StorageKeys al := len (al ≫= at_StorageKeys);
}.

#[global] Instance demo_gas_ok : GasTable_ok.
Proof. by split; try (intros; apply len_nonneg). Qed.

Record DemoWorld := mkDemo { dw_balance : list (Address * Z); dw_nonce : list (Address * Z) }.

(** The latest entry of an address, or a value all addresses start with. *)
Fixpoint latest (l : list (Address * Z)) (a : Address) (d : Z) : Z :=
  match l with
  | [] => d
  | (b, v) :: l' => if decide (b = a) then v else latest l' a d
  end.

#[global] Instance demo_db : StateDB DemoWorld := {
  GetBalance w a := latest (dw_balance w) a 1000000;
  SubBalance a v w := mkDemo ((a, latest (dw_balance w) a 1000000 - v) :: dw_balance w) (dw_nonce w);
  AddBalance a v w := mkDemo ((a, latest (dw_balance w) a 1000000 + v) :: dw_balance w) (dw_nonce w);
  GetNonce w a := latest (dw_nonce w) a 7;
  SetNonce a n w := mkDemo (dw_balance w) ((a, n) :: dw_nonce w);
  GetRefund _ := 100;
}.

#[global] Instance demo_evm : EVM DemoWorld := {
  IsBerlin := true;
  PrepareAccessList _ _ _ w := w;
  evm_Create _ _ g _ w := ([], g - g / 3, None, w);
  evm_Call _ _ _ g _ w := ([1], g - g / 3, None, w);
}.

#[global] Instance demo_evm_ok : EVM_ok (W := DemoWorld).
Proof.
  split; intros; cbn; try done; try (rewrite decide_True by done; done); go_lia.
Qed.

Definition demo_world : DemoWorld := mkDemo [] [].
Definition demo_msg : Message :=
  mkMessage (replicate 20 1) (Some (replicate 20 2)) 3 100000 5 7 true [1; 0; 2] [].

Lemma demo_executable : executable demo_msg demo_world 500000 21036.
Proof. unfold executable. split_and!; try done; by intros _. Qed.

Lemma message_gas_accounting_witness :
  ∃ r st, ApplyMessage demo_msg demo_world 500000 = (Ok r, st) ∧
    0 <= UsedGas r <= 100000 ∧ st_gp st = 500000 - UsedGas r.
Proof.
  destruct (message_gas_accounting demo_msg demo_world 500000 21036) as (r & st & E & Hu & Hp & _).
  - done.
  - done.
  - exact demo_executable.
  - exists r, st. split; [exact E|]. split; [exact Hu|exact Hp].
Defined.

Definition demo_small_msg : Message :=
  mkMessage (replicate 20 1) (Some (replicate 20 2)) 3 100 5 7 true [1; 0; 2] [].

Lemma message_outcomes_witness :
  ((∃ ig, executable demo_small_msg demo_world 500000 ig) ∨
   rejected demo_small_msg demo_world 500000 ∨ aborted demo_small_msg demo_world 500000) ∧
  (ApplyMessage demo_small_msg demo_world 500000).1 = Err ErrIntrinsicGas.
Proof.
  split; [|vm_compute; reflexivity].
  apply (message_outcomes demo_small_msg demo_world 500000); done.
Defined.
