(* ===== verification/GasPower.v ===== *)
(** * Gas power (eventcheck/gaspowercheck)

    A validator's gas power grows with time in proportion to its stake, is capped,
    and pays for the events it emits; there is a short-term and a long-term
    window.  The main results: the machine computation equals its mathematical
    value ([CalcValidatorGasPower_spec]), and a chain of accepted events cannot
    spend more than the initial gas power plus the rate times the elapsed time
    ([gas_power_rate_limit]). *)

From S2P Require Import Prelude Cser Inter Instances Pos.

Definition ErrWrongGasPowerLeft : error := NewError "gaspowercheck.ErrWrongGasPowerLeft".
(** [epochcheck.ErrNotRelevant] of the consensus library. *)
Definition ErrNotRelevant : error := NewError "epochcheck.ErrNotRelevant".

(** What the code uses of [dag.Event] beside its fields. *)
Class DagEvents (EventID : Type) := {
  SelfParent : baseEvent EventID → option EventID;
  IsSelfParent : baseEvent EventID → EventID → bool;
}.

Record Config := mkConfig {
  cfg_Idx : Z;
  cfg_AllocPerSec : Z;
  cfg_MaxAllocPeriod : Z;
  cfg_MinEnsuredAlloc : Z;
  cfg_StartupAllocPeriod : Z;
  cfg_MinStartupGas : Z;
}.

Record ValidatorState (EventID : Type) := mkValidatorState {
  PrevEpochEvent : option (Event EventID);
  GasRefund : Z;
}.
Arguments mkValidatorState {EventID}.
Arguments PrevEpochEvent {EventID}.
Arguments GasRefund {EventID}.

Record ValidationContext (V EventID : Type) := mkValidationContext {
  ctx_Epoch : Z;
  ctx_Configs : list Config;
  ctx_EpochStart : Z;
  ctx_Validators : V;
  ctx_ValidatorStates : list (ValidatorState EventID);
}.
Arguments mkValidationContext {V EventID}.
Arguments ctx_Epoch {V EventID}. Arguments ctx_Configs {V EventID}.
Arguments ctx_EpochStart {V EventID}. Arguments ctx_Validators {V EventID}.
Arguments ctx_ValidatorStates {V EventID}.

(** [big.Int.Div] of non-negative numbers, and [big.Int.Mul]. *)
Definition mul (a b : Z) : Z := a * b.
Definition div (a b : Z) : res Z := if b =? 0 then Panic else Ok (a / b).

Section gaspower.
Context {EventID : Type} `{EventIDs EventID} `{DagEvents EventID} {V : Type} `{Pos V}.

Definition calcValidatorGasPowerPerSec (validator : Z) (validators : V) (config : Config)
  : res (Z * Z * Z) :=
  let stake := vv_Get validators validator in
  if stake =? 0 then Ok (0, 0, 0)
  else
    bn ← div (mul (cfg_AllocPerSec config) stake) (vv_TotalWeight validators);
    let perSec := u64 bn in
    let maxGasPower := u64 (perSec * (cfg_MaxAllocPeriod config / Second)) in
    let maxGasPower := if maxGasPower <? cfg_MinEnsuredAlloc config
                       then cfg_MinEnsuredAlloc config else maxGasPower in
    let startup := u64 (perSec * (cfg_StartupAllocPeriod config / Second)) in
    let startup := if startup <? cfg_MinStartupGas config
                   then cfg_MinStartupGas config else startup in
    Ok (perSec, maxGasPower, startup).

Definition CalcValidatorGasPower (e : Event EventID) (eTime prevTime prevGasPowerLeft : Z)
    (validators : V) (config : Config) : res Z :=
  '(gasPowerPerSec, maxGasPower, startup) ←
    calcValidatorGasPowerPerSec (Creator (ev_base e)) validators config;
  let prevGasPowerLeft :=
    if bool_decide (SelfParent (ev_base e) = None) && (prevGasPowerLeft <? startup)
    then startup else prevGasPowerLeft in
  let prevTime := if eTime <? prevTime then eTime else prevTime in
  gasPowerAllocatedBn ← div (mul (u64 (eTime - prevTime)) gasPowerPerSec) Second;
  let gasPower := u64 (u64 gasPowerAllocatedBn + prevGasPowerLeft) in
  Ok (if maxGasPower <? gasPower then maxGasPower else gasPower).

(** The gas power and the time of the previous event of the creator. *)
Definition prevGasPower (e : Event EventID) (selfParent : option (Event EventID))
    (ctx : ValidationContext V EventID) (config : Config) : res (Z * Z) :=
  if bool_decide (SelfParent (ev_base e) = None) then
    validatorState ← index (ctx_ValidatorStates ctx)
                       (vv_GetIdx (ctx_Validators ctx) (Creator (ev_base e)));
    '(prevGasPowerLeft, prevTime) ← match PrevEpochEvent validatorState with
      | Some pe => g ← index (Gas (gasPowerLeft (ev_ext pe))) (cfg_Idx config);
                   Ok (g, medianTime (ev_ext pe))
      | None => Ok (0, ctx_EpochStart ctx)
      end;
    Ok (u64 (prevGasPowerLeft + GasRefund validatorState), prevTime)
  else
    sp ← deref selfParent;
    g ← index (Gas (gasPowerLeft (ev_ext sp))) (cfg_Idx config);
    Ok (g, medianTime (ev_ext sp)).

Definition calcGasPower (e : Event EventID) (selfParent : option (Event EventID))
    (ctx : ValidationContext V EventID) (config : Config) : res Z :=
  '(prevGasPowerLeft, prevTime) ← prevGasPower e selfParent ctx config;
  CalcValidatorGasPower e (medianTime (ev_ext e)) prevTime prevGasPowerLeft
    (ctx_Validators ctx) config.

(** [for i := range ctx.Configs { res.Gas[i] = ... }] *)
Fixpoint calcGasPowers (e : Event EventID) (selfParent : option (Event EventID))
    (ctx : ValidationContext V EventID) (configs : list Config) : res (list Z) :=
  match configs with
  | [] => Ok []
  | c :: configs' =>
      g ← calcGasPower e selfParent ctx c;
      gs ← calcGasPowers e selfParent ctx configs';
      Ok (g :: gs)
  end.

Definition CalcGasPower (ctx : ValidationContext V EventID) (e : Event EventID)
    (selfParent : option (Event EventID)) : res GasPowerLeft :=
  if negb (ctx_Epoch ctx =? Epoch (ev_base e)) then Err ErrNotRelevant
  else mkGasPowerLeft <$> calcGasPowers e selfParent ctx (ctx_Configs ctx).

(** [for i := range gasPowers.Gas] *)
Fixpoint checkGasPowers (lefts : list Z) (used : Z) (gasPowers : list Z) : res unit :=
  match gasPowers with
  | [] => Ok tt
  | g :: gs =>
      match lefts with
      | [] => Panic
      | l :: ls => if negb (u64 (l + used) =? g) then Err ErrWrongGasPowerLeft
                   else checkGasPowers ls used gs
      end
  end.

Definition Validate (ctx : ValidationContext V EventID) (e : Event EventID)
    (selfParent : option (Event EventID)) : res unit :=
  gasPowers ← CalcGasPower ctx e selfParent;
  checkGasPowers (Gas (gasPowerLeft (ev_ext e))) (gasPowerUsed (ev_ext e)) (Gas gasPowers).

(** ** The mathematical value *)

Definition spec_perSec (validator : Z) (validators : V) (config : Config) : Z :=
  cfg_AllocPerSec config * vv_Get validators validator / vv_TotalWeight validators.

Definition spec_max (validator : Z) (validators : V) (config : Config) : Z :=
  Z.max (cfg_MinEnsuredAlloc config)
    (spec_perSec validator validators config * (cfg_MaxAllocPeriod config / Second)).

Definition spec_startup (validator : Z) (validators : V) (config : Config) : Z :=
  Z.max (cfg_MinStartupGas config)
    (spec_perSec validator validators config * (cfg_StartupAllocPeriod config / Second)).

(** What is allocated between two moments; nothing when time goes back. *)
Definition spec_alloc (validator : Z) (validators : V) (config : Config) (prevTime eTime : Z) : Z :=
  Z.max 0 (eTime - prevTime) * spec_perSec validator validators config / Second.

(** Configurations for which no product overflows, as in the networks' rules. *)
Definition Config_ok (c : Config) : Prop :=
  is_u64 (cfg_AllocPerSec c) ∧ is_u64 (cfg_MaxAllocPeriod c) ∧ is_u64 (cfg_StartupAllocPeriod c) ∧
  is_u64 (cfg_MinEnsuredAlloc c) ∧ is_u64 (cfg_MinStartupGas c) ∧
  cfg_AllocPerSec c * (cfg_MaxAllocPeriod c / Second) < 2 ^ 64 ∧
  cfg_AllocPerSec c * (cfg_StartupAllocPeriod c / Second) < 2 ^ 64.

Context `{!PosLaws V}.

Lemma spec_perSec_range validator validators config :
  is_u64 (cfg_AllocPerSec config) →
  0 <= spec_perSec validator validators config <= cfg_AllocPerSec config.
Proof.
  unfold is_u64, spec_perSec. intros Ha. pose proof (vv_Get_nonneg validators validator).
  pose proof (vv_Get_TotalWeight validators validator).
  destruct (decide (vv_TotalWeight validators = 0)) as [->|Ht]; [rewrite Z.div_0_r; lia|].
  pose proof (vv_TotalWeight_range validators). split.
  - apply Z.div_pos; nia.
  - apply Z.div_le_upper_bound; nia.
Qed.

(** The three quantities of a validator of the group, computed without overflow. *)
Lemma calcValidatorGasPowerPerSec_spec validator validators config :
  Config_ok config → validator ∈ vv_IDs validators →
  calcValidatorGasPowerPerSec validator validators config =
  Ok (spec_perSec validator validators config, spec_max validator validators config,
      spec_startup validator validators config).
Proof.
  intros (Ha & Hm & Hs & He & Hms & Hov1 & Hov2) Hin.
  pose proof (spec_perSec_range validator validators config Ha) as Hp.
  pose proof (vv_Get_in validators validator Hin).
  pose proof (vv_Get_TotalWeight validators validator).
  unfold calcValidatorGasPowerPerSec, div, mul. rewrite !(proj2 (Z.eqb_neq _ _)) by lia.
  cbn [mbind res_bind]. fold (spec_perSec validator validators config).
  unfold is_u64 in *.
  assert (0 <= cfg_MaxAllocPeriod config / Second) by (apply Z.div_pos; unfold Second; lia).
  assert (0 <= cfg_StartupAllocPeriod config / Second) by (apply Z.div_pos; unfold Second; lia).
  rewrite (u64_id (spec_perSec _ _ _)) by (unfold is_u64; lia).
  rewrite !u64_id by (unfold is_u64; nia). unfold spec_max, spec_startup.
  do 2 f_equal; [f_equal|];
    match goal with |- (if ?a <? ?b then _ else _) = _ => destruct (Z.ltb_spec a b); lia end.
Qed.

Lemma CalcValidatorGasPower_spec e eTime prevTime prev validators config :
  Config_ok config → Creator (ev_base e) ∈ vv_IDs validators →
  is_u64 eTime → is_u64 prevTime →
  let v := Creator (ev_base e) in
  let prev' := if bool_decide (SelfParent (ev_base e) = None)
               then Z.max prev (spec_startup v validators config) else prev in
  0 <= prev' → spec_alloc v validators config prevTime eTime + prev' < 2 ^ 64 →
  CalcValidatorGasPower e eTime prevTime prev validators config =
  Ok (Z.min (spec_max v validators config)
        (spec_alloc v validators config prevTime eTime + prev')).
Proof.
  intros Hc Hin Ht Hp v prev' Hprev Hov. unfold CalcValidatorGasPower. fold v.
  unfold v at 1. rewrite calcValidatorGasPowerPerSec_spec by done. fold v.
  cbn [mbind res_bind]. unfold div, mul. change (Second =? 0) with false. cbn [mbind res_bind].
  replace (if _ && _ then _ else _) with prev'.
  2: { subst prev'. destruct (bool_decide _); cbn [andb]; [|done].
       destruct (Z.ltb_spec prev (spec_startup v validators config)); lia. }
  replace (u64 (eTime - _)) with (Z.max 0 (eTime - prevTime)).
  2: { destruct (Z.ltb_spec eTime prevTime); [rewrite Z.sub_diag, Z.max_l by lia; done|].
       rewrite u64_id by (unfold is_u64 in *; lia). lia. }
  fold (spec_alloc v validators config prevTime eTime).
  destruct Hc as (Ha & _). pose proof (spec_perSec_range v validators config Ha).
  assert (0 <= spec_alloc v validators config prevTime eTime)
    by (unfold spec_alloc, Second; apply Z.div_pos; nia).
  rewrite (u64_id (spec_alloc _ _ _ _ _)) by (unfold is_u64; lia).
  rewrite u64_id by (unfold is_u64; lia).
  match goal with |- Ok (if ?a <? ?b then _ else _) = _ => destruct (Z.ltb_spec a b) end;
    f_equal; lia.
Qed.

(** ** Upper bounds, with or without overflow *)

Lemma u64_le z : 0 <= z → u64 z <= z.
Proof. intros. unfold u64. by apply Z.mod_le. Qed.

Lemma CalcValidatorGasPower_le e eTime prevTime prev validators config g :
  is_u64 (cfg_AllocPerSec config) → is_u64 eTime → is_u64 prevTime → 0 <= prev →
  SelfParent (ev_base e) ≠ None →
  CalcValidatorGasPower e eTime prevTime prev validators config = Ok g →
  g <= spec_alloc (Creator (ev_base e)) validators config prevTime eTime + prev.
Proof.
  intros Ha Ht Hp Hprev Hsp. set (v := Creator (ev_base e)).
  pose proof (spec_perSec_range v validators config Ha) as Hps.
  assert (0 <= spec_alloc v validators config prevTime eTime)
    by (unfold spec_alloc, Second; apply Z.div_pos; nia).
  unfold CalcValidatorGasPower. rewrite bool_decide_false by done. cbn [andb]. fold v.
  replace (u64 (eTime - _)) with (Z.max 0 (eTime - prevTime)).
  2: { destruct (Z.ltb_spec eTime prevTime); [rewrite Z.sub_diag, Z.max_l by lia; done|].
       rewrite u64_id by (unfold is_u64 in *; lia). lia. }
  unfold calcValidatorGasPowerPerSec, div, mul. change (Second =? 0) with false.
  destruct (vv_Get validators v =? 0).
  - cbn [mbind res_bind]. rewrite Z.mul_0_r. change (0 / Second) with 0. rewrite Z.add_0_l.
    pose proof (u64_range prev) as Hr. unfold is_u64 in Hr.
    destruct (Z.ltb_spec 0 (u64 prev)); intros [= <-]; lia.
  - destruct (vv_TotalWeight validators =? 0); [done|]. cbn [mbind res_bind].
    fold (spec_perSec v validators config).
    rewrite (u64_id (spec_perSec _ _ _)) by (unfold is_u64 in *; lia).
    fold (spec_alloc v validators config prevTime eTime).
    set (al := spec_alloc v validators config prevTime eTime) in *.
    pose proof (u64_le al ltac:(done)). pose proof (u64_range al) as Hr. unfold is_u64 in Hr.
    pose proof (u64_le (u64 al + prev) ltac:(lia)).
    match goal with |- Ok (if ?a <? ?b then _ else _) = _ → _ =>
      destruct (Z.ltb_spec a b) end; intros [= <-]; lia.
Qed.

(** ** What an accepted event satisfies, per window *)

Lemma calcGasPowers_lookup e sp ctx cs gs i c :
  calcGasPowers e sp ctx cs = Ok gs → cs !! i = Some c →
  ∃ g, gs !! i = Some g ∧ calcGasPower e sp ctx c = Ok g.
Proof.
  revert gs i. induction cs as [|c' cs IH]; intros gs i E Hi; [done|]. cbn in E.
  destruct (calcGasPower e sp ctx c') as [g| |] eqn:Eg; try discriminate. cbn in E.
  destruct (calcGasPowers e sp ctx cs) as [gs'| |] eqn:Egs; try discriminate. cbn in E.
  injection E as <-. destruct i as [|i]; cbn in *; [|by eauto].
  injection Hi as ->. by exists g.
Qed.

Lemma checkGasPowers_lookup lefts used gs i g :
  checkGasPowers lefts used gs = Ok tt → gs !! i = Some g →
  ∃ l, lefts !! i = Some l ∧ u64 (l + used) = g.
Proof.
  revert lefts i. induction gs as [|g' gs IH]; intros lefts i E Hi; [done|].
  destruct lefts as [|l lefts]; [done|]. cbn in E.
  destruct (negb (u64 (l + used) =? g')) eqn:Eq; [done|]. go_bool.
  destruct i as [|i]; cbn in *; [injection Hi as <-; by exists l|by eauto].
Qed.

Lemma Validate_window ctx e sp i c :
  Validate ctx e sp = Ok tt → ctx_Configs ctx !! i = Some c →
  ∃ l, Gas (gasPowerLeft (ev_ext e)) !! i = Some l ∧
    calcGasPower e sp ctx c = Ok (u64 (l + gasPowerUsed (ev_ext e))).
Proof.
  unfold Validate, CalcGasPower. destruct (negb _); [done|].
  destruct (calcGasPowers _ _ _ _) as [gs| |] eqn:Egs; try done. cbn [fmap res_fmap mbind res_bind].
  intros E Hi. destruct (calcGasPowers_lookup _ _ _ _ _ _ _ Egs Hi) as (g & Hg & Ec).
  destruct (checkGasPowers_lookup _ _ _ _ _ E Hg) as (l & Hl & <-). by exists l.
Qed.

(** ** Chains of self-parents *)

Definition left_at (e : Event EventID) (i : nat) : Z :=
  default 0 (Gas (gasPowerLeft (ev_ext e)) !! i).

(** What the basic check ensures of an event's gas and time fields. *)
Definition gas_in_range (e : Event EventID) : Prop :=
  0 <= gasPowerUsed (ev_ext e) < 2 ^ 63 ∧ Forall (λ g, 0 <= g < 2 ^ 63) (Gas (gasPowerLeft (ev_ext e))) ∧
  is_u64 (medianTime (ev_ext e)).

(** Events of one creator, each accepted with the previous one as its self-parent.
    Their median times may go back: the check then allocates nothing. *)
Fixpoint accepted_chain (ctx : ValidationContext V EventID) (sp : Event EventID)
    (es : list (Event EventID)) : Prop :=
  match es with
  | [] => True
  | e :: es' =>
      Validate ctx e (Some sp) = Ok tt ∧ SelfParent (ev_base e) ≠ None ∧
      Creator (ev_base e) = Creator (ev_base sp) ∧
      gas_in_range e ∧ accepted_chain ctx e es'
  end.

Fixpoint last_event (sp : Event EventID) (es : list (Event EventID)) : Event EventID :=
  match es with [] => sp | e :: es' => last_event e es' end.

(** The time that passes along a chain, where going back counts for nothing. *)
Fixpoint forward_time (sp : Event EventID) (es : list (Event EventID)) : Z :=
  match es with
  | [] => 0
  | e :: es' => Z.max 0 (medianTime (ev_ext e) - medianTime (ev_ext sp)) + forward_time e es'
  end.

Fixpoint times_ascend (sp : Event EventID) (es : list (Event EventID)) : Prop :=
  match es with
  | [] => True
  | e :: es' => medianTime (ev_ext sp) <= medianTime (ev_ext e) ∧ times_ascend e es'
  end.

Definition total_used (es : list (Event EventID)) : Z :=
  sum_Z ((λ e, gasPowerUsed (ev_ext e)) <$> es).

Lemma left_at_lookup (e : Event EventID) i l :
  Gas (gasPowerLeft (ev_ext e)) !! i = Some l → left_at e i = l.
Proof. unfold left_at. by intros ->. Qed.

Lemma left_at_range e i : gas_in_range e → 0 <= left_at e i < 2 ^ 63.
Proof.
  intros (_ & Hl & _). unfold left_at.
  destruct (Gas (gasPowerLeft (ev_ext e)) !! i) as [l|] eqn:E; cbn; [|lia].
  by apply (Forall_lookup_1 _ _ _ _ Hl E).
Qed.

Lemma accepted_step ctx sp e i c :
  ctx_Configs ctx !! i = Some c → cfg_Idx c = Z.of_nat i → is_u64 (cfg_AllocPerSec c) →
  Validate ctx e (Some sp) = Ok tt → SelfParent (ev_base e) ≠ None →
  gas_in_range sp → gas_in_range e →
  gasPowerUsed (ev_ext e) + left_at e i <=
  left_at sp i + spec_alloc (Creator (ev_base e)) (ctx_Validators ctx) c
                   (medianTime (ev_ext sp)) (medianTime (ev_ext e)).
Proof.
  intros Hc Hidx Ha HV Hsp Hrs Hre.
  destruct (Validate_window _ _ _ _ _ HV Hc) as (l & Hl & Hcalc).
  pose proof (left_at_range e i Hre) as Hle. rewrite (left_at_lookup _ _ _ Hl) in *.
  pose proof (left_at_range sp i Hrs) as Hls.
  unfold calcGasPower, prevGasPower in Hcalc. rewrite bool_decide_false in Hcalc by done.
  unfold deref, index in Hcalc. cbn [mbind res_bind] in Hcalc. rewrite Hidx in Hcalc.
  rewrite (proj2 (Z.ltb_ge _ _)), Nat2Z.id in Hcalc by lia.
  destruct (Gas (gasPowerLeft (ev_ext sp)) !! i) as [ls|] eqn:Els; [|done].
  cbn [mbind res_bind] in Hcalc. rewrite (left_at_lookup _ _ _ Els) in *.
  destruct Hrs as (_ & _ & Hts). destruct Hre as (Hu & _ & Hte).
  apply CalcValidatorGasPower_le in Hcalc; [|done..|lia|done].
  rewrite u64_id in Hcalc by (unfold is_u64; lia). lia.
Qed.

Lemma forward_time_ascending sp es :
  times_ascend sp es →
  forward_time sp es = medianTime (ev_ext (last_event sp es)) - medianTime (ev_ext sp).
Proof.
  revert sp. induction es as [|e es IH]; intros sp; cbn; [lia|]. intros [Ht Hs].
  rewrite (IH e Hs). lia.
Qed.

(** Rounding down twice gives at most rounding the sum. *)
Lemma div_Second_add a b : a / Second + b / Second <= (a + b) / Second.
Proof.
  apply Z.div_le_lower_bound; [done|].
  pose proof (Z.mul_div_le a Second eq_refl). pose proof (Z.mul_div_le b Second eq_refl). lia.
Qed.

Lemma accepted_chain_bound ctx i c sp es :
  ctx_Configs ctx !! i = Some c → cfg_Idx c = Z.of_nat i → is_u64 (cfg_AllocPerSec c) →
  gas_in_range sp → accepted_chain ctx sp es →
  total_used es + left_at (last_event sp es) i <=
  left_at sp i +
    forward_time sp es * spec_perSec (Creator (ev_base sp)) (ctx_Validators ctx) c / Second.
Proof.
  intros Hc Hidx Ha. revert sp. induction es as [|e es IH]; intros sp Hr Hch.
  { cbn [last_event forward_time]. rewrite Z.mul_0_l. change (0 / Second) with 0.
    change (total_used []) with 0. lia. }
  destruct Hch as (HV & Hsp & Hcr & Hre & Hch). specialize (IH e Hre Hch).
  pose proof (accepted_step _ _ _ _ _ Hc Hidx Ha HV Hsp Hr Hre) as Hstep.
  unfold spec_alloc in Hstep. rewrite Hcr in *.
  set (rate := spec_perSec _ _ _) in *.
  pose proof (div_Second_add (Z.max 0 (medianTime (ev_ext e) - medianTime (ev_ext sp)) * rate)
    (forward_time e es * rate)) as Hadd.
  rewrite <- Z.mul_add_distr_r in Hadd.
  unfold total_used, sum_Z in *. cbn [fmap list_fmap foldr last_event forward_time]. lia.
Qed.

Lemma CalcValidatorGasPower_max e eTime prevTime prev validators config g :
  Config_ok config → Creator (ev_base e) ∈ vv_IDs validators →
  CalcValidatorGasPower e eTime prevTime prev validators config = Ok g →
  g <= spec_max (Creator (ev_base e)) validators config.
Proof.
  intros Hc Hin. unfold CalcValidatorGasPower.
  rewrite calcValidatorGasPowerPerSec_spec by done. cbn [mbind res_bind].
  unfold div. change (Second =? 0) with false. cbn [mbind res_bind].
  match goal with |- Ok (if ?a <? ?b then _ else _) = _ → _ => destruct (Z.ltb_spec a b) end;
    intros [= <-]; lia.
Qed.

Lemma checkGasPowers_Sub gs used :
  Forall (λ g, is_u64 g ∧ used <= g) gs → 0 <= used →
  checkGasPowers ((λ x, u64 (x - used)) <$> gs) used gs = Ok tt.
Proof.
  intros Hgs Hu. induction Hgs as [|g gs [Hg Hle] _ IH]; [done|]. cbn.
  rewrite (u64_id (g - used)) by (unfold is_u64 in *; lia).
  rewrite Z.sub_add, u64_id, Z.eqb_refl by done. done.
Qed.

(** ** Absence of panics *)

Definition gas_len_ok (e : Event EventID) : Prop :=
  length (Gas (gasPowerLeft (ev_ext e))) = GasPowerConfigs.

Definition ctx_ok (ctx : ValidationContext V EventID) : Prop :=
  length (ctx_Configs ctx) = GasPowerConfigs ∧
  Forall (λ c, 0 <= cfg_Idx c < 2) (ctx_Configs ctx) ∧
  length (ctx_ValidatorStates ctx) = length (vv_IDs (ctx_Validators ctx)) ∧
  Forall (λ s, ∀ pe, PrevEpochEvent s = Some pe → gas_len_ok pe) (ctx_ValidatorStates ctx).

Lemma CalcValidatorGasPower_no_panic e t pt prev validators c :
  CalcValidatorGasPower e t pt prev validators c ≠ Panic.
Proof.
  unfold CalcValidatorGasPower, calcValidatorGasPowerPerSec, div.
  pose proof (vv_Get_nonneg validators (Creator (ev_base e))).
  pose proof (vv_Get_TotalWeight validators (Creator (ev_base e))).
  destruct (Z.eqb_spec (vv_Get validators (Creator (ev_base e))) 0); [done|].
  by rewrite (proj2 (Z.eqb_neq (vv_TotalWeight validators) 0)) by lia.
Qed.

Lemma prevGasPower_no_panic e sp ctx c :
  ctx_ok ctx → 0 <= cfg_Idx c < 2 → Creator (ev_base e) ∈ vv_IDs (ctx_Validators ctx) →
  (SelfParent (ev_base e) ≠ None → ∃ p, sp = Some p ∧ gas_len_ok p) →
  prevGasPower e sp ctx c ≠ Panic.
Proof.
  intros (_ & _ & Hlen & Hprev) Hidx Hin Hsp. unfold prevGasPower. case_bool_decide as Hs.
  - destruct (vv_GetIdx_in _ _ Hin) as [Hpos _]. pose proof (vv_GetIdx_lt _ _ Hin).
    destruct (index_Ok (ctx_ValidatorStates ctx)
      (vv_GetIdx (ctx_Validators ctx) (Creator (ev_base e)))) as (vs & -> & Hvs).
    { unfold len. lia. }
    cbn [mbind res_bind]. destruct (PrevEpochEvent vs) as [pe|] eqn:Ep; [|done].
    pose proof (Forall_lookup_1 _ _ _ _ Hprev Hvs pe Ep) as Hl.
    destruct (index_Ok (Gas (gasPowerLeft (ev_ext pe))) (cfg_Idx c)) as (x & -> & _); [|done].
    unfold len. rewrite Hl. unfold GasPowerConfigs. lia.
  - destruct (Hsp Hs) as (p & -> & Hl). cbn [deref mbind res_bind].
    destruct (index_Ok (Gas (gasPowerLeft (ev_ext p))) (cfg_Idx c)) as (x & -> & _); [|done].
    unfold len. rewrite Hl. unfold GasPowerConfigs. lia.
Qed.

Lemma calcGasPowers_no_panic e sp ctx cs :
  ctx_ok ctx → Forall (λ c, 0 <= cfg_Idx c < 2) cs →
  Creator (ev_base e) ∈ vv_IDs (ctx_Validators ctx) →
  (SelfParent (ev_base e) ≠ None → ∃ p, sp = Some p ∧ gas_len_ok p) →
  calcGasPowers e sp ctx cs ≠ Panic ∧
  ∀ gs, calcGasPowers e sp ctx cs = Ok gs → length gs = length cs.
Proof.
  intros Hctx Hcs Hin Hsp. induction Hcs as [|c cs Hc _ [IH IHl]]; cbn [calcGasPowers].
  { split; [done|]. by intros gs [= <-]. }
  split.
  - apply res_bind_no_panic.
    + unfold calcGasPower. apply res_bind_no_panic; [by apply prevGasPower_no_panic|].
      intros [pg pt] _. apply CalcValidatorGasPower_no_panic.
    + intros g _. apply res_bind_no_panic; [done|]. done.
  - intros gs. rewrite res_bind_Ok. intros (g & _ & Hgs). apply res_bind_Ok in Hgs as (gs' & E & Hgs).
    injection Hgs as <-. cbn. by rewrite (IHl _ E).
Qed.

Lemma checkGasPowers_no_panic lefts used gs :
  length lefts = length gs → checkGasPowers lefts used gs ≠ Panic.
Proof.
  revert lefts. induction gs as [|g gs IH]; intros [|l lefts] Hl; try done. cbn in *.
  destruct (negb _); [done|]. apply IH. lia.
Qed.

Lemma Validate_no_panic ctx e sp :
  ctx_ok ctx → gas_len_ok e → Creator (ev_base e) ∈ vv_IDs (ctx_Validators ctx) →
  (SelfParent (ev_base e) ≠ None → ∃ p, sp = Some p ∧ gas_len_ok p) →
  Validate ctx e sp ≠ Panic.
Proof.
  intros Hctx He Hin Hsp. pose proof Hctx as (Hlen & Hidx & _).
  destruct (calcGasPowers_no_panic e sp ctx _ Hctx Hidx Hin Hsp) as [Hnp Hl].
  unfold Validate, CalcGasPower. destruct (negb _); [done|].
  destruct (calcGasPowers _ _ _ _) as [gs| |]; try done.
  apply checkGasPowers_no_panic. unfold gas_len_ok in He. cbn [Gas].
  by rewrite He, (Hl gs eq_refl), Hlen.
Qed.

(** ** The theorems *)

(** C9: along a chain of events that the gas power check accepts, each the
    self-parent of the next, the gas power used and what is left at the end never
    exceed the gas power left at the start plus the validator's rate times the median
    time that passed: the spending rate of a validator is bounded by its stake. Median
    times may go back along the chain: the time that passed adds up the steps forward
    and a step back counts for nothing; when no step goes back it is the time from the
    first event to the last. Gas amounts are below 2^63 (what the basic check lets
    through), times and the configured rate are 64-bit numbers. *)
Theorem gas_power_rate_limit ctx i c e0 es :
  ctx_Configs ctx !! i = Some c → cfg_Idx c = Z.of_nat i → is_u64 (cfg_AllocPerSec c) →
  gas_in_range e0 → accepted_chain ctx e0 es →
  let en := last_event e0 es in
  let rate := cfg_AllocPerSec c * vv_Get (ctx_Validators ctx) (Creator (ev_base e0))
              / vv_TotalWeight (ctx_Validators ctx) in
  total_used es + left_at en i <= left_at e0 i + forward_time e0 es * rate / Second ∧
  (times_ascend e0 es →
   forward_time e0 es = medianTime (ev_ext en) - medianTime (ev_ext e0)).
Proof.
  intros Hc Hidx Ha Hr Hch en rate. split.
  - exact (accepted_chain_bound _ _ _ _ _ Hc Hidx Ha Hr Hch).
  - apply forward_time_ascending.
Qed.

(** An accepted event never has more gas power, used and left together, than
    the cap of its creator's window. *)
Theorem gas_power_cap ctx i c e sp :
  ctx_Configs ctx !! i = Some c → Config_ok c →
  Creator (ev_base e) ∈ vv_IDs (ctx_Validators ctx) → gas_in_range e →
  Validate ctx e sp = Ok tt →
  gasPowerUsed (ev_ext e) + left_at e i <=
  spec_max (Creator (ev_base e)) (ctx_Validators ctx) c.
Proof.
  intros Hc Hok Hin Hr HV. destruct (Validate_window _ _ _ _ _ HV Hc) as (l & Hl & Hcalc).
  pose proof (left_at_range e i Hr) as Hle. rewrite (left_at_lookup _ _ _ Hl) in *.
  unfold calcGasPower in Hcalc. destruct (prevGasPower _ _ _ _) as [[pg pt]| |]; try done.
  cbn [mbind res_bind] in Hcalc. apply CalcValidatorGasPower_max in Hcalc; [|done..].
  destruct Hr as (Hu & _). rewrite u64_id in Hcalc by (unfold is_u64; lia). lia.
Qed.

(** The gas power of a validator of the group is computed without overflow
    and equals its mathematical value: the previous gas power, at least the
    startup gas for the first event of an epoch, plus the rate times the elapsed
    time, capped. *)
Theorem gas_power_exact e eTime prevTime prev validators config :
  Config_ok config → Creator (ev_base e) ∈ vv_IDs validators →
  is_u64 eTime → is_u64 prevTime → 0 <= prev →
  let v := Creator (ev_base e) in
  let prev' := if bool_decide (SelfParent (ev_base e) = None)
               then Z.max prev (spec_startup v validators config) else prev in
  spec_alloc v validators config prevTime eTime + prev' < 2 ^ 64 →
  CalcValidatorGasPower e eTime prevTime prev validators config =
  Ok (Z.min (spec_max v validators config)
        (spec_alloc v validators config prevTime eTime + prev')).
Proof.
  intros Hc Hin Ht Hp Hprev v prev' Hov. apply CalcValidatorGasPower_spec; try done.
  destruct (bool_decide _); lia.
Qed.

(** an event whose gas power left is the available gas power minus what it
    uses, as the emitter sets it, is accepted. *)
Theorem gas_power_accepts ctx e sp gp :
  CalcGasPower ctx e sp = Ok gp → Forall is_u64 (Gas gp) →
  Forall (λ g, gasPowerUsed (ev_ext e) <= g) (Gas gp) → 0 <= gasPowerUsed (ev_ext e) →
  gasPowerLeft (ev_ext e) = GasPowerLeft_Sub gp (gasPowerUsed (ev_ext e)) →
  Validate ctx e sp = Ok tt.
Proof.
  intros Hcalc Hr Hle Hu Hl. unfold Validate. rewrite Hcalc. cbn [mbind res_bind]. rewrite Hl.
  apply checkGasPowers_Sub; [|done]. by apply Forall_and.
Qed.
End gaspower.

(** ** Concrete inputs: three validators, two windows, two events *)

#[global] Instance demo_dag : DagEvents Hash := {
  SelfParent b := if Seq b <=? 1 then None else head (Parents b);
  IsSelfParent b id := bool_decide ((if Seq b <=? 1 then None else head (Parents b)) = Some id);
}.

Definition demo_configs : list Config :=
  [mkConfig 0 1000000 (10 * Second) 5000 (2 * Second) 3000;
   mkConfig 1 500000 (100 * Second) 5000 (2 * Second) 3000].

Definition demo_ctx : ValidationContext Group Hash :=
  mkValidationContext 7 demo_configs (100 * Second) demo_group
    (replicate 3 (mkValidatorState None 40)).

Definition demo_ev (seq t used : Z) (lefts : list Z) (parents : list Hash) : Event Hash :=
  mkEvent (mkBaseEvent 7 seq 1 1 seq parents zero_ID)
    (mkExtEventData t t None [] (mkGasPowerLeft lefts) used []) [].

(** Startup gas at 60% of the stake is 1200000 and 600000. *)
Definition demo_e1 : Event Hash := demo_ev 1 (100 * Second) 21000 [1179000; 579000] [].
Definition demo_e2 : Event Hash := demo_ev 2 (101 * Second) 30000 [1749000; 849000] [zero_ID].

Lemma demo_e1_in_range : gas_in_range demo_e1.
Proof. split_and!; try done. repeat constructor; done. Qed.

(** Its median time is earlier than that of its self-parent. *)
Definition demo_e3 : Event Hash := demo_ev 3 (99 * Second) 9000 [1740000; 840000] [zero_ID].

Lemma demo_chain : accepted_chain demo_ctx demo_e1 [demo_e2; demo_e3].
Proof.
  split_and!; try done; repeat constructor; done.
Qed.

Lemma gas_power_rate_limit_witness :
  total_used [demo_e2; demo_e3] + left_at demo_e3 0 <=
  left_at demo_e1 0
  + (101 * Second - 100 * Second + 0)
    * (1000000 * vv_Get demo_group 1 / vv_TotalWeight demo_group) / Second.
Proof.
  apply (gas_power_rate_limit demo_ctx 0 (mkConfig 0 1000000 (10 * Second) 5000 (2 * Second) 3000)
    demo_e1 [demo_e2; demo_e3]).
  - reflexivity.
  - reflexivity.
  - done.
  - exact demo_e1_in_range.
  - exact demo_chain.
Defined.

Lemma gas_power_cap_witness :
  21000 + left_at demo_e1 0 <=
  spec_max 1 demo_group (mkConfig 0 1000000 (10 * Second) 5000 (2 * Second) 3000).
Proof.
  apply (gas_power_cap demo_ctx 0 (mkConfig 0 1000000 (10 * Second) 5000 (2 * Second) 3000)
    demo_e1 None).
  - reflexivity.
  - done.
  - apply (bool_decide_unpack _). vm_compute. exact I.
  - exact demo_e1_in_range.
  - vm_compute. reflexivity.
Defined.

Lemma gas_power_exact_witness :
  CalcValidatorGasPower demo_e2 (101 * Second) (100 * Second) 1179000 demo_group
    (mkConfig 0 1000000 (10 * Second) 5000 (2 * Second) 3000) = Ok 1779000.
Proof.
  rewrite (gas_power_exact demo_e2 (101 * Second) (100 * Second) 1179000 demo_group
    (mkConfig 0 1000000 (10 * Second) 5000 (2 * Second) 3000)).
  - vm_compute. reflexivity.
  - done.
  - apply (bool_decide_unpack _). vm_compute. exact I.
  - done.
  - done.
  - done.
  - vm_compute. reflexivity.
Defined.

Lemma gas_power_accepts_witness : Validate demo_ctx demo_e2 (Some demo_e1) = Ok tt.
Proof.
  apply (gas_power_accepts demo_ctx demo_e2 (Some demo_e1) (mkGasPowerLeft [1779000; 879000])).
  - vm_compute. reflexivity.
  - repeat constructor; done.
  - repeat constructor; done.
  - done.
  - vm_compute. reflexivity.
Defined.
