(* ===== verification/EventCheck.v ===== *)
(** * Event validation (eventcheck/)

    The five checkers of an event and their composition.  Each has a part in the
    consensus library, outside the repository: [base_basic], [base_epoch] and
    [base_parents] below.  Signature verification, sender recovery and the
    transactions' Merkle root are library calls as well. *)

From S2P Require Import Prelude Cser Inter Instances TxSer EvmState Rules Pos GasPower.

Definition MaxInt64 : Z := 2 ^ 63 - 1.

Definition ErrZeroTime : error := NewError "basiccheck.ErrZeroTime".
Definition ErrNegativeValue : error := NewError "basiccheck.ErrNegativeValue".
Definition ErrIntrinsicGas : error := NewError "basiccheck.ErrIntrinsicGas".
Definition ErrTooManyParents : error := NewError "epochcheck.ErrTooManyParents".
Definition ErrTooBigGasUsed : error := NewError "epochcheck.ErrTooBigGasUsed".
Definition ErrWrongGasUsed : error := NewError "epochcheck.ErrWrongGasUsed".
Definition ErrUnderpriced : error := NewError "epochcheck.ErrUnderpriced".
Definition ErrTooBigExtra : error := NewError "epochcheck.ErrTooBigExtra".
Definition ErrUnsupportedTxType : error := NewError "epochcheck.ErrUnsupportedTxType".
Definition ErrPastTime : error := NewError "parentscheck.ErrPastTime".
Definition ErrWrongEventSig : error := NewError "heavycheck.ErrWrongEventSig".
Definition ErrMalformedTxSig : error := NewError "heavycheck.ErrMalformedTxSig".
Definition ErrWrongTxHash : error := NewError "heavycheck.ErrWrongTxHash".
(** Errors of the consensus library. *)
Definition ErrHugeValue : error := NewError "base.ErrHugeValue".
Definition ErrWrongSelfParent : error := NewError "base.ErrWrongSelfParent".
Definition ErrAuth : error := NewError "epochcheck.ErrAuth".
Definition ErrAlreadyConnectedEvent : error := NewError "base.ErrAlreadyConnectedEvent".
Definition ErrSpilledEvent : error := NewError "base.ErrSpilledEvent".
Definition ErrDuplicateEvent : error := NewError "base.ErrDuplicateEvent".

(** ** eventcheck/ban.go: a nil error is [None] *)

Definition IsBan (err : option error) : bool :=
  if bool_decide (err = Some ErrNotRelevant) || bool_decide (err = Some ErrAlreadyConnectedEvent)
     || bool_decide (err = Some ErrSpilledEvent) || bool_decide (err = Some ErrDuplicateEvent)
  then false
  else bool_decide (err ≠ None).

Section checks.
Context {EventID : Type} `{EventIDs EventID} `{DagEvents EventID} {V : Type} `{Pos V} `{GasTable}.

(** ** eventcheck/basiccheck *)

Definition validateTx (tx : Transaction) : res unit :=
  if (tx_Value tx <? 0) || (tx_GasPrice tx <? 0) then Err ErrNegativeValue
  else
    intrGas ← IntrinsicGas (tx_Data tx) (tx_AccessList tx) (bool_decide (tx_To tx = None));
    if tx_Gas tx <? intrGas then Err ErrIntrinsicGas else Ok tt.

Definition checkTxs (e : EventPayload EventID) : res unit := check_all validateTx (ep_txs e).

Section basic.
Variable base_basic : baseEvent EventID → res unit.

Definition basic_Validate (e : EventPayload EventID) : res unit :=
  let x := ev_ext (ep_event e) in
  _ ← base_basic (ev_base (ep_event e));
  if (MaxInt64 - 1 <=? gasPowerUsed x) || (MaxInt64 - 1 <=? GasPowerLeft_Max (gasPowerLeft x))
  then Err ErrHugeValue
  else if (creationTime x <=? 0) || (medianTime x <=? 0) then Err ErrZeroTime
  else checkTxs e.
End basic.

(** ** eventcheck/epochcheck *)

Definition CalcGasPowerUsed (e : EventPayload EventID) (rules : Rules) : Z :=
  let b := ev_base (ep_event e) in
  let x := ev_ext (ep_event e) in
  let gas := GasR (Economy rules) in
  let txsGas := foldl (λ txsGas tx, u64 (txsGas + tx_Gas tx)) 0 (ep_txs e) in
  let parentsGas :=
    if MaxFreeParents (Dag rules) <? u32 (len (Parents b))
    then u64 (u32 (u32 (len (Parents b)) - MaxFreeParents (Dag rules)) * ParentGas gas)
    else 0 in
  let extraGas := u64 (u64 (len (extra x)) * ExtraDataGas gas) in
  u64 (txsGas + parentsGas + extraGas + EventGas gas).

Definition checkGas (e : EventPayload EventID) (rules : Rules) : res unit :=
  let used := gasPowerUsed (ev_ext (ep_event e)) in
  if MaxEventGas (GasR (Economy rules)) <? used then Err ErrTooBigGasUsed
  else if negb (used =? CalcGasPowerUsed e rules) then Err ErrWrongGasUsed
  else Ok tt.

Definition CheckTxs (txs : list Transaction) (rules : Rules) : res unit :=
  let maxType := if Berlin (Upgr rules) then 1 else 0 in
  check_all (λ tx,
    if maxType <? tx_Type tx then Err ErrUnsupportedTxType
    else if tx_GasPrice tx <? MinGasPrice (Economy rules) then Err ErrUnderpriced
    else Ok tt) txs.

Section epoch.
Variable base_epoch : baseEvent EventID → res unit.

Definition epoch_Validate (GetEpochRules : Rules * Z) (e : EventPayload EventID) : res unit :=
  let b := ev_base (ep_event e) in
  _ ← base_epoch b;
  let '(rules, epoch) := GetEpochRules in
  if negb (Epoch b =? epoch) then Err ErrNotRelevant
  else if MaxParents (Dag rules) <? u32 (len (Parents b)) then Err ErrTooManyParents
  else if MaxExtraData (Dag rules) <? u32 (len (extra (ev_ext (ep_event e)))) then Err ErrTooBigExtra
  else
    _ ← checkGas e rules;
    CheckTxs (ep_txs e) rules.
End epoch.

(** ** eventcheck/parentscheck *)

Section parents.
Variable base_parents : baseEvent EventID → list (baseEvent EventID) → res unit.

Definition parents_Validate (e : EventPayload EventID) (parents : list (Event EventID)) : res unit :=
  let b := ev_base (ep_event e) in
  _ ← base_parents b (ev_base <$> parents);
  if bool_decide (SelfParent b = None) then Ok tt
  else
    selfParent ← index parents 0;
    if negb (IsSelfParent b (ID (ev_base selfParent))) then Err ErrWrongSelfParent
    else if creationTime (ev_ext (ep_event e)) <=? creationTime (ev_ext selfParent)
    then Err ErrPastTime
    else Ok tt.
End parents.

(** ** eventcheck/heavycheck *)

Section heavy.
Variable VerifySignature : list Z → list Z → list Z → bool.
Variable Sender : Transaction → res (list Z).
Variable DeriveSha : list Transaction → list Z.

Definition verifySignature (e : EventPayload EventID) (pubkey : PubKey) : bool :=
  if negb (pk_Type pubkey =? Types_Secp256k1) then false
  else VerifySignature (pk_Raw pubkey) (ev_hash (ep_event e)) (ep_sig e).

Definition heavy_Validate (GetEpochPubKeys : gmap Z PubKey * Z) (e : EventPayload EventID)
  : res unit :=
  let '(addrs, epoch) := GetEpochPubKeys in
  if negb (Epoch (ev_base (ep_event e)) =? epoch) then Err ErrNotRelevant
  else match addrs !! Creator (ev_base (ep_event e)) with
  | None => Err ErrAuth
  | Some addr =>
      if negb (verifySignature e addr) then Err ErrWrongEventSig
      else
        _ ← check_all (λ tx, match Sender tx with
                             | Ok _ => Ok tt
                             | Err _ => Err ErrMalformedTxSig
                             | Panic => Panic
                             end) (ep_txs e);
        if negb (bool_decide (txHash (ev_ext (ep_event e)) = DeriveSha (ep_txs e)))
        then Err ErrWrongTxHash
        else Ok tt
  end.
End heavy.

(** ** eventcheck/all.go: the checkers with what their readers return *)

Record Checkers := mkCheckers {
  base_basic : baseEvent EventID → res unit;
  base_epoch : baseEvent EventID → res unit;
  base_parents : baseEvent EventID → list (baseEvent EventID) → res unit;
  GetEpochRules : Rules * Z;
  GetValidationContext : ValidationContext V EventID;
  GetEpochPubKeys : gmap Z PubKey * Z;
  VerifySignature : list Z → list Z → list Z → bool;
  Sender : Transaction → res (list Z);
  DeriveSha : list Transaction → list Z;
}.

Definition Checkers_Validate (v : Checkers) (e : EventPayload EventID)
    (parents : list (Event EventID)) : res unit :=
  _ ← basic_Validate (base_basic v) e;
  _ ← epoch_Validate (base_epoch v) (GetEpochRules v) e;
  _ ← parents_Validate (base_parents v) e parents;
  selfParent ← (if bool_decide (SelfParent (ev_base (ep_event e)) = None) then Ok None
                else Some <$> index parents 0);
  _ ← GasPower.Validate (GetValidationContext v) (ep_event e) selfParent;
  heavy_Validate (VerifySignature v) (Sender v) (DeriveSha v) (GetEpochPubKeys v) e.

(** ** What acceptance means *)

Definition tx_basic_ok (tx : Transaction) : Prop :=
  0 <= tx_Value tx ∧ 0 <= tx_GasPrice tx ∧
  ∃ g, IntrinsicGas (tx_Data tx) (tx_AccessList tx) (bool_decide (tx_To tx = None)) = Ok g ∧
       g <= tx_Gas tx.

Lemma validateTx_Ok tx : validateTx tx = Ok tt ↔ tx_basic_ok tx.
Proof.
  unfold validateTx, tx_basic_ok. rewrite guard_Ok, orb_false_iff, !Z.ltb_ge, res_bind_Ok.
  split; [intros [[? ?] (g & Hg & Hle)]|intros (? & ? & g & Hg & Hle)];
    (split_and!; [done..|]); exists g; (split; [done|]); rewrite ?guard_Ok in *; go_bool.
  - by destruct Hle as [?%Z.ltb_ge _].
  - split; [by apply Z.ltb_ge|done].
Qed.

Lemma GasPowerLeft_Max_lt g n :
  length (Gas g) = GasPowerConfigs → GasPowerLeft_Max g < n ↔ Forall (λ x, x < n) (Gas g).
Proof.
  destruct g as [[|a [|b []]]]; try done. intros _. unfold GasPowerLeft_Max. cbn.
  rewrite !Forall_cons, Forall_nil. rewrite Z.ltb_irrefl.
  destruct (Z.ltb_spec a b); split; (lia || split_and!; lia).
Qed.

(** The basic check, condition by condition. *)
Lemma basic_Validate_Ok base e :
  let x := ev_ext (ep_event e) in
  length (Gas (gasPowerLeft x)) = GasPowerConfigs →
  basic_Validate base e = Ok tt ↔
  base (ev_base (ep_event e)) = Ok tt ∧
  gasPowerUsed x < MaxInt64 - 1 ∧ Forall (λ g, g < MaxInt64 - 1) (Gas (gasPowerLeft x)) ∧
  0 < creationTime x ∧ 0 < medianTime x ∧ Forall tx_basic_ok (ep_txs e).
Proof.
  intros x Hl. unfold basic_Validate, checkTxs. fold x.
  rewrite res_seq_Ok, !guard_Ok, !orb_false_iff, !Z.leb_gt, check_all_Ok.
  rewrite GasPowerLeft_Max_lt by done.
  assert (Hf : Forall (λ x, validateTx x = Ok ()) (ep_txs e) ↔ Forall tx_basic_ok (ep_txs e))
    by (apply Forall_iff, validateTx_Ok).
  rewrite Hf. tauto.
Qed.

Definition tx_epoch_ok (rules : Rules) (tx : Transaction) : Prop :=
  tx_Type tx <= (if Berlin (Upgr rules) then 1 else 0) ∧
  MinGasPrice (Economy rules) <= tx_GasPrice tx.

Lemma epoch_Validate_Ok base rules epoch e :
  let b := ev_base (ep_event e) in
  let x := ev_ext (ep_event e) in
  epoch_Validate base (rules, epoch) e = Ok tt ↔
  base b = Ok tt ∧ Epoch b = epoch ∧ u32 (len (Parents b)) <= MaxParents (Dag rules) ∧
  u32 (len (extra x)) <= MaxExtraData (Dag rules) ∧
  gasPowerUsed x <= MaxEventGas (GasR (Economy rules)) ∧
  gasPowerUsed x = CalcGasPowerUsed e rules ∧ Forall (tx_epoch_ok rules) (ep_txs e).
Proof.
  intros b x. unfold epoch_Validate, checkGas, CheckTxs. fold b x.
  rewrite res_seq_Ok, !guard_Ok, res_seq_Ok, !guard_Ok, check_all_Ok.
  rewrite !negb_false_iff, !Z.eqb_eq, !Z.ltb_ge.
  assert (Hf : Forall (λ tx, (if (if Berlin (Upgr rules) then 1 else 0) <? tx_Type tx
      then Err ErrUnsupportedTxType
      else if tx_GasPrice tx <? MinGasPrice (Economy rules) then Err ErrUnderpriced else Ok tt)
      = Ok tt) (ep_txs e) ↔ Forall (tx_epoch_ok rules) (ep_txs e)).
  { apply Forall_iff. intros tx. rewrite !guard_Ok, !Z.ltb_ge. unfold tx_epoch_ok. tauto. }
  rewrite Hf. tauto.
Qed.

Lemma parents_Validate_Ok base e parents :
  let b := ev_base (ep_event e) in
  parents_Validate base e parents = Ok tt ↔
  base b (ev_base <$> parents) = Ok tt ∧
  (SelfParent b ≠ None → ∃ sp, parents !! 0%nat = Some sp ∧
     IsSelfParent b (ID (ev_base sp)) = true ∧
     creationTime (ev_ext sp) < creationTime (ev_ext (ep_event e))).
Proof.
  intros b. unfold parents_Validate. fold b. rewrite res_seq_Ok.
  case_bool_decide as Hs; [naive_solver|]. rewrite res_bind_Ok.
  unfold index. cbn [Z.ltb Z.compare]. change (Z.to_nat 0) with 0%nat.
  destruct (parents !! 0%nat) as [sp|] eqn:E; [|naive_solver].
  split.
  - intros [? (a & [= <-] & Hk)]. rewrite !guard_Ok in Hk. destruct Hk as (H1' & H2' & _).
    go_bool. naive_solver.
  - intros [? Hk]. destruct (Hk Hs) as (sp' & [= <-] & H1' & H2'). split; [done|].
    exists sp. split; [done|]. rewrite !guard_Ok, H1', Z.leb_gt. done.
Qed.

Lemma heavy_Validate_Ok VS Snd DS addrs epoch e :
  heavy_Validate VS Snd DS (addrs, epoch) e = Ok tt ↔
  Epoch (ev_base (ep_event e)) = epoch ∧
  (∃ addr, addrs !! Creator (ev_base (ep_event e)) = Some addr ∧
     pk_Type addr = Types_Secp256k1 ∧
     VS (pk_Raw addr) (ev_hash (ep_event e)) (ep_sig e) = true) ∧
  Forall (λ tx, ∃ a, Snd tx = Ok a) (ep_txs e) ∧
  txHash (ev_ext (ep_event e)) = DS (ep_txs e).
Proof.
  unfold heavy_Validate, verifySignature. rewrite guard_Ok, negb_false_iff, Z.eqb_eq.
  destruct (addrs !! _) as [addr|]; [|naive_solver].
  rewrite guard_Ok, negb_false_iff, res_seq_Ok, guard_Ok, negb_false_iff, bool_decide_eq_true.
  rewrite check_all_Ok.
  assert (Hf : Forall (λ tx, match Snd tx with Ok _ => Ok tt | Err _ => Err ErrMalformedTxSig
      | Panic => Panic end = Ok tt) (ep_txs e) ↔ Forall (λ tx, ∃ a, Snd tx = Ok a) (ep_txs e)).
  { apply Forall_iff. intros tx. destruct (Snd tx); naive_solver. }
  rewrite Hf. destruct (Z.eqb_spec (pk_Type addr) Types_Secp256k1); cbn [negb]; naive_solver.
Qed.

(** ** Composition *)

(** What the code relies on of the consensus library's checks: they do not panic
    on the arguments they are given, the epoch check only accepts validators of
    the current epoch, and the parents check only as many parents as are named. *)
Class Checkers_laws (v : Checkers) := {
  base_basic_total : ∀ b, base_basic v b ≠ Panic;
  base_epoch_total : ∀ b, base_epoch v b ≠ Panic;
  base_parents_total : ∀ b ps, base_parents v b ps ≠ Panic;
  Sender_total : ∀ tx, Sender v tx ≠ Panic;
  base_epoch_auth : ∀ b, base_epoch v b = Ok tt →
    Creator b ∈ vv_IDs (ctx_Validators (GetValidationContext v));
  base_parents_len : ∀ b ps, base_parents v b ps = Ok tt → length ps = length (Parents b);
  SelfParent_parents : ∀ b : baseEvent EventID, SelfParent b ≠ None → Parents b ≠ [];
}.

Lemma Checkers_Validate_Ok v e parents :
  Checkers_Validate v e parents = Ok tt ↔
  basic_Validate (base_basic v) e = Ok tt ∧
  epoch_Validate (base_epoch v) (GetEpochRules v) e = Ok tt ∧
  parents_Validate (base_parents v) e parents = Ok tt ∧
  (∃ sp, (if bool_decide (SelfParent (ev_base (ep_event e)) = None) then Ok None
          else Some <$> index parents 0) = Ok sp ∧
     GasPower.Validate (GetValidationContext v) (ep_event e) sp = Ok tt) ∧
  heavy_Validate (VerifySignature v) (Sender v) (DeriveSha v) (GetEpochPubKeys v) e = Ok tt.
Proof.
  unfold Checkers_Validate. rewrite !res_seq_Ok, res_bind_Ok.
  setoid_rewrite res_seq_Ok. naive_solver.
Qed.

Lemma validateTx_no_panic tx : validateTx tx ≠ Panic.
Proof.
  unfold validateTx. apply guard_no_panic. intros _. apply res_bind_no_panic.
  - destruct (IntrinsicGas_cases (tx_Data tx) (tx_AccessList tx) (bool_decide (tx_To tx = None)))
      as [(g & -> & _)|(err & -> & _)]; done.
  - intros g _. by apply guard_no_panic.
Qed.

Lemma basic_Validate_no_panic base e :
  (∀ b, base b ≠ Panic) → basic_Validate base e ≠ Panic.
Proof.
  intros Hb. unfold basic_Validate. apply res_bind_no_panic; [apply Hb|]. intros _ _.
  apply guard_no_panic. intros _. apply guard_no_panic. intros _.
  apply check_all_no_panic, validateTx_no_panic.
Qed.

Lemma epoch_Validate_no_panic base r e :
  (∀ b, base b ≠ Panic) → epoch_Validate base r e ≠ Panic.
Proof.
  intros Hb. unfold epoch_Validate. destruct r as [rules epoch].
  apply res_bind_no_panic; [apply Hb|]. intros _ _.
  do 3 (apply guard_no_panic; intros _). apply res_bind_no_panic.
  - unfold checkGas. by repeat (apply guard_no_panic; intros _).
  - intros _ _. apply check_all_no_panic. intros tx. by repeat (apply guard_no_panic; intros _).
Qed.

Lemma heavy_Validate_no_panic VS Snd DS r e :
  (∀ tx, Snd tx ≠ Panic) → heavy_Validate VS Snd DS r e ≠ Panic.
Proof.
  intros Hs. unfold heavy_Validate. destruct r as [addrs epoch]. apply guard_no_panic. intros _.
  destruct (addrs !! _); [|done]. apply guard_no_panic. intros _. apply res_bind_no_panic.
  - apply check_all_no_panic. intros tx. specialize (Hs tx). by destruct (Snd tx).
  - intros _ _. by apply guard_no_panic.
Qed.

Lemma first_parent v (e : EventPayload EventID) (parents : list (Event EventID)) :
  Checkers_laws v → parents_Validate (base_parents v) e parents = Ok tt →
  SelfParent (ev_base (ep_event e)) ≠ None → ∃ sp, parents !! 0%nat = Some sp.
Proof.
  intros Hlaws HP Hs. apply parents_Validate_Ok in HP as [_ Hk].
  destruct (Hk Hs) as (sp & Hsp & _). by exists sp.
Qed.

Lemma parents_Validate_no_panic v (e : EventPayload EventID) (parents : list (Event EventID)) :
  Checkers_laws v → parents_Validate (base_parents v) e parents ≠ Panic.
Proof.
  intros Hlaws. unfold parents_Validate. apply res_bind_no_panic; [apply base_parents_total|].
  intros [] Hb. case_bool_decide as Hs; [done|]. apply res_bind_no_panic.
  - apply index_no_panic. split; [done|]. apply base_parents_len in Hb.
    rewrite length_fmap in Hb. pose proof (SelfParent_parents _ Hs) as Hp. unfold len.
    destruct (Parents (ev_base (ep_event e))); [done|]. cbn in *. lia.
  - intros sp _. by repeat (apply guard_no_panic; intros _).
Qed.

(** ** Gas used without overflow *)

Lemma foldl_gas txs acc :
  0 <= acc → Forall (λ tx, 0 <= tx_Gas tx) txs → acc + sum_Z (tx_Gas <$> txs) < 2 ^ 64 →
  foldl (λ txsGas tx, u64 (txsGas + tx_Gas tx)) acc txs = acc + sum_Z (tx_Gas <$> txs).
Proof.
  intros Ha Hg. revert acc Ha. induction Hg as [|tx txs Ht Hg IH]; intros acc Ha Hs.
  { cbn. lia. }
  unfold sum_Z in *. cbn in *.
  assert (0 <= foldr Z.add 0 (tx_Gas <$> txs)).
  { apply (sum_Z_nonneg (tx_Gas <$> txs)). by apply Forall_fmap. }
  rewrite u64_id by (unfold is_u64; lia). rewrite IH by lia. lia.
Qed.

Definition spec_GasPowerUsed (e : EventPayload EventID) (rules : Rules) : Z :=
  let b := ev_base (ep_event e) in
  let gas := GasR (Economy rules) in
  sum_Z (tx_Gas <$> ep_txs e)
  + Z.max 0 (len (Parents b) - MaxFreeParents (Dag rules)) * ParentGas gas
  + len (extra (ev_ext (ep_event e))) * ExtraDataGas gas
  + EventGas gas.

Definition gas_rules_ok (rules : Rules) : Prop :=
  0 <= MaxFreeParents (Dag rules) < 2 ^ 32 ∧ 0 <= ParentGas (GasR (Economy rules)) ∧
  0 <= ExtraDataGas (GasR (Economy rules)) ∧ 0 <= EventGas (GasR (Economy rules)).

Lemma CalcGasPowerUsed_spec e rules :
  gas_rules_ok rules → len (Parents (ev_base (ep_event e))) < 2 ^ 32 →
  len (extra (ev_ext (ep_event e))) < 2 ^ 64 → Forall (λ tx, 0 <= tx_Gas tx) (ep_txs e) →
  spec_GasPowerUsed e rules < 2 ^ 64 →
  CalcGasPowerUsed e rules = spec_GasPowerUsed e rules.
Proof.
  unfold CalcGasPowerUsed, spec_GasPowerUsed. cbv zeta.
  set (g := GasR (Economy rules)). set (b := ev_base (ep_event e)).
  intros (Hf & Hp & Hx & He) Hl Hxl Htx Hs. fold g in Hp, Hx, He.
  pose proof (len_nonneg (Parents b)). pose proof (len_nonneg (extra (ev_ext (ep_event e)))).
  assert (0 <= sum_Z (tx_Gas <$> ep_txs e)) by (apply sum_Z_nonneg; by apply Forall_fmap).
  assert (0 <= Z.max 0 (len (Parents b) - MaxFreeParents (Dag rules)) * ParentGas g) by nia.
  assert (0 <= len (extra (ev_ext (ep_event e))) * ExtraDataGas g) by nia.
  rewrite foldl_gas by (done || lia). rewrite Z.add_0_l.
  rewrite (u32_id (len (Parents b))) by (unfold is_u32; lia).
  rewrite (u64_id (len (extra _))) by (unfold is_u64; lia).
  rewrite (u64_id (len (extra _) * _)) by (unfold is_u64; lia).
  replace (if _ <? len (Parents b) then _ else 0) with
    (Z.max 0 (len (Parents b) - MaxFreeParents (Dag rules)) * ParentGas g).
  { rewrite u64_id by (unfold is_u64; lia). done. }
  destruct (Z.ltb_spec (MaxFreeParents (Dag rules)) (len (Parents b))).
  - rewrite (u32_id (_ - _)) by (unfold is_u32; lia). rewrite Z.max_r in * by lia.
    rewrite u64_id by (unfold is_u64; lia). done.
  - rewrite Z.max_l by lia. done.
Qed.

(** ** The theorems *)

(** No event and no parents make the checkers panic, given that the library
    checks they call do not: indexes into the parents, the validators' states and
    the gas arrays are always in range, and no division is by zero. *)
Theorem checkers_never_panic v e parents `{!PosLaws V} :
  Checkers_laws v → ctx_ok (GetValidationContext v) →
  gas_len_ok (ep_event e) → Forall gas_len_ok parents →
  Checkers_Validate v e parents ≠ Panic.
Proof.
  intros Hlaws Hctx He Hps. unfold Checkers_Validate.
  apply res_bind_no_panic; [apply basic_Validate_no_panic, base_basic_total|]. intros _ _.
  apply res_bind_no_panic; [apply epoch_Validate_no_panic, base_epoch_total|]. intros [] Hep.
  apply res_bind_no_panic; [by apply parents_Validate_no_panic|]. intros [] Hpa.
  assert (Hauth : Creator (ev_base (ep_event e)) ∈ vv_IDs (ctx_Validators (GetValidationContext v))).
  { destruct (GetEpochRules v) as [rules epoch]. apply epoch_Validate_Ok in Hep as [Hb _].
    by apply base_epoch_auth. }
  assert (Hsp : SelfParent (ev_base (ep_event e)) ≠ None →
    ∃ sp, index parents 0 = Ok sp ∧ gas_len_ok sp).
  { intros Hs. destruct (first_parent v e parents Hlaws Hpa Hs) as [sp Hsp].
    exists sp. split; [by apply index_0|]. by apply (Forall_lookup_1 _ _ _ _ Hps Hsp). }
  apply res_bind_no_panic.
  { case_bool_decide as Hs; [done|]. by destruct (Hsp Hs) as (sp & -> & _). }
  intros sp Hsel. apply res_bind_no_panic.
  { apply Validate_no_panic; [done..|]. intros Hs. destruct (Hsp Hs) as (p & Hp & Hlen).
    rewrite bool_decide_false, Hp in Hsel by done. injection Hsel as <-. by exists p. }
  intros _ _. apply heavy_Validate_no_panic, Sender_total.
Qed.

(** C39: what an accepted event guarantees: gas fields far from overflow, the gas
    used as the rules compute it, every transaction affordable, priced and of a
    known type, a later creation time than its self-parent's, a valid signature of
    the creator's key over the event's hash, and the transactions' root. *)
Theorem checkers_accept v e parents rules epoch addrs epoch' :
  GetEpochRules v = (rules, epoch) → GetEpochPubKeys v = (addrs, epoch') →
  gas_len_ok (ep_event e) →
  Checkers_Validate v e parents = Ok tt →
  let b := ev_base (ep_event e) in
  let x := ev_ext (ep_event e) in
  Epoch b = epoch ∧ Epoch b = epoch' ∧
  gasPowerUsed x < MaxInt64 - 1 ∧ Forall (λ g, g < MaxInt64 - 1) (Gas (gasPowerLeft x)) ∧
  gasPowerUsed x = CalcGasPowerUsed e rules ∧
  gasPowerUsed x <= MaxEventGas (GasR (Economy rules)) ∧
  Forall (λ tx, tx_basic_ok tx ∧ tx_epoch_ok rules tx) (ep_txs e) ∧
  (SelfParent b ≠ None → ∃ sp, parents !! 0%nat = Some sp ∧
     IsSelfParent b (ID (ev_base sp)) = true ∧ creationTime (ev_ext sp) < creationTime x) ∧
  (∃ addr, addrs !! Creator b = Some addr ∧ pk_Type addr = Types_Secp256k1 ∧
     VerifySignature v (pk_Raw addr) (ev_hash (ep_event e)) (ep_sig e) = true) ∧
  txHash x = DeriveSha v (ep_txs e).
Proof.
  intros Hr Hk Hlen HV b x. apply Checkers_Validate_Ok in HV as (Hb & He & Hp & _ & Hh).
  rewrite Hr in He. rewrite Hk in Hh.
  apply basic_Validate_Ok in Hb as (_ & Hu & Hg & _ & _ & Htx1); [|done].
  apply epoch_Validate_Ok in He as (_ & Hep & _ & _ & Hmax & Hcalc & Htx2).
  apply parents_Validate_Ok in Hp as [_ Hsp].
  apply heavy_Validate_Ok in Hh as (Hep' & Hsig & _ & Hroot).
  split_and!; try done. by apply Forall_and.
Qed.

(** The gas charged for an event's content is the exact sum of its
    transactions' gas, its parents beyond the free ones, its extra data and the
    flat price, whenever that sum fits 64 bits. *)
Theorem gas_power_used_exact e rules :
  gas_rules_ok rules → len (Parents (ev_base (ep_event e))) < 2 ^ 32 →
  len (extra (ev_ext (ep_event e))) < 2 ^ 64 → Forall (λ tx, 0 <= tx_Gas tx) (ep_txs e) →
  spec_GasPowerUsed e rules < 2 ^ 64 →
  CalcGasPowerUsed e rules = spec_GasPowerUsed e rules.
Proof. apply CalcGasPowerUsed_spec. Qed.
End checks.

(** ** Concrete checkers

    Library checks that look at what their laws require, a signature that is the
    key itself, and a transactions root that counts them. *)

Definition demo_key : PubKey := mkPubKey Types_Secp256k1 [1; 2; 3].

Definition demo_checkers : Checkers (EventID := Hash) (V := Group) :=
  mkCheckers (λ _, Ok tt)
    (λ b, if vv_Exists demo_group (Creator b) then Ok tt else Err ErrAuth)
    (λ b ps, if decide (length ps = length (Parents b)) then Ok tt else Err ErrWrongSelfParent)
    (MainNetRules, 7) demo_ctx ({[1 := demo_key]}, 7)
    (λ raw _ sig, bool_decide (raw = sig)) (λ _, Ok []) (λ txs, [len txs]).

#[global] Instance demo_checkers_laws : Checkers_laws demo_checkers.
Proof.
  split; try done; cbn.
  - intros b. by destruct (vv_Exists demo_group (Creator b)).
  - intros b ps. by case_decide.
  - intros b. unfold vv_Exists. by case_bool_decide.
  - intros b ps. by case_decide.
  - intros b. destruct (Seq b <=? 1); [done|]. by destruct (Parents b).
Qed.

Definition demo_transfer : Transaction :=
  mkTransaction LegacyTxType 5 21000 1000000000 7 (Some (replicate 20 1)) [] 4039 11 12 2002 [].

Definition demo_payload : EventPayload Hash :=
  mkEventPayload
    (mkEvent (mkBaseEvent 7 1 1 1 1 [] zero_ID)
      (mkExtEventData (100 * Second) (100 * Second) None [1]
        (mkGasPowerLeft [1151000; 551000]) 49000 []) [])
    [1; 2; 3] [demo_transfer] 0.

Lemma demo_ctx_ok : ctx_ok demo_ctx.
Proof. split_and!; try done; repeat constructor; done. Qed.

Lemma checkers_never_panic_witness : Checkers_Validate demo_checkers demo_payload [] ≠ Panic.
Proof.
  apply (checkers_never_panic demo_checkers demo_payload []).
  - exact demo_checkers_laws.
  - exact demo_ctx_ok.
  - reflexivity.
  - constructor.
Defined.

Lemma checkers_accept_witness :
  Checkers_Validate demo_checkers demo_payload [] = Ok tt ∧
  49000 = CalcGasPowerUsed demo_payload MainNetRules.
Proof.
  assert (HV : Checkers_Validate demo_checkers demo_payload [] = Ok tt) by (vm_compute; reflexivity).
  split; [exact HV|].
  destruct (checkers_accept demo_checkers demo_payload [] MainNetRules 7 {[1 := demo_key]} 7
    eq_refl eq_refl eq_refl HV) as (_ & _ & _ & _ & Hcalc & _).
  exact Hcalc.
Defined.

Lemma gas_power_used_exact_witness :
  CalcGasPowerUsed demo_payload MainNetRules = spec_GasPowerUsed demo_payload MainNetRules.
Proof.
  apply (gas_power_used_exact demo_payload MainNetRules).
  - done.
  - done.
  - done.
  - repeat constructor; done.
  - done.
Defined.

(** The sum of the transactions' gas wraps around: an event with two transactions
    of [2^63] gas each passes the basic and the epoch checks while charged for an
    empty event. *)
Definition demo_huge_tx : Transaction :=
  mkTransaction LegacyTxType 5 (2 ^ 63) 1000000000 7 (Some (replicate 20 1)) [] 4039 11 12 2002 [].

Definition demo_wrapping : EventPayload Hash :=
  mkEventPayload
    (mkEvent (mkBaseEvent 7 1 1 1 1 [] zero_ID)
      (mkExtEventData (100 * Second) (100 * Second) None [2]
        (mkGasPowerLeft [1172000; 572000]) 28000 []) [])
    [1; 2; 3] [demo_huge_tx; demo_huge_tx] 0.

Example gas_power_used_wraps :
  Checkers_Validate demo_checkers demo_wrapping [] = Ok tt ∧
  gasPowerUsed (ev_ext (ep_event demo_wrapping)) = EventGas (GasR (Economy MainNetRules)) ∧
  sum_Z (tx_Gas <$> ep_txs demo_wrapping) = 2 ^ 64.
Proof. vm_compute. done. Qed.
