(* ===== verification/EmitterTxs.v ===== *)
(** * The emitter: what to emit (gossip/emitter: txs.go, hooks.go, originatedtxs)

    The count of transactions that are originated and not confirmed yet, the gas
    an event may use, and the choice of its transactions.  The caches are LRU caches
    of a library and the queue of transactions is the library's
    [TransactionsByPriceAndNonce]; both are interfaces. *)

From S2P Require Import Prelude Cser Inter Instances TxSer Rules Pos EvmState GasPower EventCheck Shuffle Piecefunc.
From S2P Require Import Emitter.

(** ** LRU caches: a map that may forget entries only when it is full *)

Class Lru (K V L : Type) `{Countable K} := {
  lru_Get : K → L → option V * L;
  lru_Peek : K → L → option V;
  lru_Add : K → V → L → L;
  lru_Remove : K → L → L;
  lru_Purge : L → L;
  lru_Len : L → Z;
}.

Class LruLaws (K V L : Type) `{Lru K V L} (cap : nat) := {
  lru_contents : L → gmap K V;
  lru_Get_spec : ∀ k l, (lru_Get k l).1 = lru_contents l !! k ∧ lru_contents (lru_Get k l).2 = lru_contents l;
  lru_Peek_spec : ∀ k l, lru_Peek k l = lru_contents l !! k;
  lru_Add_spec : ∀ k v l, (size (<[k := v]> (lru_contents l)) <= cap)%nat →
    lru_contents (lru_Add k v l) = <[k := v]> (lru_contents l);
  lru_Remove_spec : ∀ k l, lru_contents (lru_Remove k l) = delete k (lru_contents l);
  lru_Purge_spec : ∀ l, lru_contents (lru_Purge l) = ∅;
  lru_Len_spec : ∀ l, lru_Len l = Z.of_nat (size (lru_contents l));
}.

(** A map without a bound is such a cache. *)
#[global] Instance map_lru {K V} `{Countable K} : Lru K V (gmap K V) := {
  lru_Get k l := (l !! k, l);
  lru_Peek k l := l !! k;
  lru_Add k v l := <[k := v]> l;
  lru_Remove k l := delete k l;
  lru_Purge _ := ∅;
  lru_Len l := Z.of_nat (size l);
}.
#[global] Instance map_lru_laws {K V} `{Countable K} cap : LruLaws K V (gmap K V) cap.
Proof. by refine {| lru_contents := (λ l : gmap K V, l) |}. Defined.

Notation Address := (list Z) (only parsing).

(** ** originatedtxs: transactions per sender that are not confirmed yet *)

Section buffer.
Context {L : Type} `{!Lru Address Z L}.

Definition Inc (sender : Address) (ring : L) : L :=
  match lru_Peek sender ring with
  | Some cur => lru_Add sender (cur + 1) ring
  | None => lru_Add sender 1 ring
  end.

Definition Dec (sender : Address) (ring : L) : L :=
  match lru_Peek sender ring with
  | None => ring
  | Some cur => if cur <=? 1 then lru_Remove sender ring else lru_Add sender (cur - 1) ring
  end.

Definition Clear (ring : L) : L := lru_Purge ring.

Definition TotalOf (sender : Address) (ring : L) : Z * L :=
  let '(cur, ring) := lru_Get sender ring in (default 0 cur, ring).

Definition Empty (ring : L) : bool := lru_Len ring =? 0.
End buffer.

(** ** hooks.go: transactions and gas that are pending *)

Section hooks.
Context {L : Type} `{!Lru Address Z L} {EventID : Type}.
(** [types.Sender]; its error is ignored. *)
Variable Sender : Transaction → Address.

Record Pending := mkPending { pd_originatedTxs : L; pd_pendingGas : Z }.

(** The parts of [OnNewEpoch], [OnEventConnected] and [OnEventConfirmed] that concern
    pending transactions, for a validator. *)
Definition pending_OnNewEpoch (p : Pending) : Pending := mkPending (Clear (pd_originatedTxs p)) 0.

Definition pending_OnEventConnected (e : EventPayload EventID) (p : Pending) : Pending :=
  mkPending (foldl (λ ring tx, Inc (Sender tx) ring) (pd_originatedTxs p) (ep_txs e))
    (u64 (pd_pendingGas p + gasPowerUsed (ev_ext (ep_event e)))).

(** [NoTxs] of a header; the transactions are read from the store. *)
Definition pending_OnEventConfirmed (EmptyTxHash : list Z) (e : EventPayload EventID) (p : Pending) : Pending :=
  let used := gasPowerUsed (ev_ext (ep_event e)) in
  let gas := if used <? pd_pendingGas p then u64 (pd_pendingGas p - used) else 0 in
  mkPending
    (if NoTxs EmptyTxHash (ev_ext (ep_event e)) then pd_originatedTxs p
     else foldl (λ ring tx, Dec (Sender tx) ring) (pd_originatedTxs p) (ep_txs e))
    gas.

Definition idle (p : Pending) : bool := Empty (pd_originatedTxs p).
End hooks.
Arguments Pending : clear implicits.

(** ** What the counts mean *)

Section counts.
Context {L : Type} (cap : nat) `{!Lru Address Z L} `{!LruLaws Address Z L cap} {EventID : Type}.
Variable Sender : Transaction → Address.

(** How many of some transactions an account sent. *)
Definition sent_by (a : Address) (txs : list Transaction) : Z := len (filter (λ tx, Sender tx = a) txs).

(** The ring holds exactly the non-zero counts of [txs]. *)
Definition counts (ring : L) (txs : list Transaction) : Prop :=
  ∀ a, lru_contents ring !! a = (if decide (sent_by a txs = 0) then None else Some (sent_by a txs)).

Lemma sent_by_cons a tx txs :
  sent_by a (tx :: txs) = (if decide (Sender tx = a) then 1 else 0) + sent_by a txs.
Proof.
  unfold sent_by. rewrite filter_cons. destruct (decide (Sender tx = a)); [|done].
  unfold len. cbn [length]. lia.
Qed.

Lemma sent_by_nonneg a txs : 0 <= sent_by a txs.
Proof. apply len_nonneg. Qed.

#[global] Instance sent_by_proper a : Proper ((≡ₚ) ==> (=)) (sent_by a).
Proof. intros l k Hp. unfold sent_by. by rewrite Hp. Qed.

#[global] Instance counts_proper ring : Proper ((≡ₚ) ==> iff) (counts ring).
Proof.
  intros l k Hp. unfold counts. split; intros Hc a; rewrite Hc;
    by rewrite (sent_by_proper a l k Hp : sent_by a l = sent_by a k).
Qed.

(** The senders of the pending transactions fit the cache. *)
Definition senders (txs : list Transaction) : gset Address := list_to_set (Sender <$> txs).

Lemma counts_size ring txs : counts ring txs → size (lru_contents ring) = size (senders txs).
Proof.
  intros Hc. rewrite <- size_dom. f_equal. apply set_eq. intros a. unfold senders.
  rewrite elem_of_dom, Hc, elem_of_list_to_set, list_elem_of_fmap.
  destruct (decide (sent_by a txs = 0)) as [Hz|Hz].
  - split; [by intros []|]. intros (tx & -> & Hin). exfalso.
    assert (Hf : tx ∈ filter (λ t, Sender t = Sender tx) txs) by (by apply list_elem_of_filter).
    unfold sent_by, len in Hz. destruct (filter _ txs); [by apply not_elem_of_nil in Hf|cbn in Hz; lia].
  - split; [|done]. intros _. destruct (filter (λ t, Sender t = a) txs) as [|tx l] eqn:E.
    + unfold sent_by in Hz. rewrite E in Hz. done.
    + assert (Hin : tx ∈ filter (λ t, Sender t = a) txs) by (rewrite E; by left).
      apply list_elem_of_filter in Hin as [<- Hin]. by exists tx.
Qed.

Lemma Inc_counts ring txs tx :
  counts ring txs → (size (senders (tx :: txs)) <= cap)%nat → counts (Inc (Sender tx) ring) (tx :: txs).
Proof.
  intros Hc Hcap. pose proof (sent_by_nonneg (Sender tx) txs) as Hnn.
  assert (Hadd : Inc (Sender tx) ring = lru_Add (Sender tx) (sent_by (Sender tx) txs + 1) ring).
  { unfold Inc. rewrite lru_Peek_spec, Hc. destruct (decide (sent_by (Sender tx) txs = 0)) as [->|]; done. }
  assert (Hsz : (size (<[Sender tx := (sent_by (Sender tx) txs + 1)%Z]> (lru_contents ring)) <= cap)%nat).
  { rewrite <- size_dom. etransitivity; [|exact Hcap]. apply subseteq_size. rewrite dom_insert.
    unfold senders. cbn. apply union_mono; [done|]. intros a Ha. apply elem_of_dom in Ha. rewrite Hc in Ha.
    destruct (decide (sent_by a txs = 0)) as [|Hz]; [by destruct Ha|].
    apply elem_of_list_to_set, list_elem_of_fmap. destruct (filter (λ t, Sender t = a) txs) as [|t l] eqn:E.
    - unfold sent_by in Hz. by rewrite E in Hz.
    - assert (Hin : t ∈ filter (λ t, Sender t = a) txs) by (rewrite E; by left).
      apply list_elem_of_filter in Hin as [<- Hin]. by exists t. }
  intros a. rewrite Hadd, lru_Add_spec by done. rewrite sent_by_cons.
  destruct (decide (Sender tx = a)) as [<-|Hne].
  - rewrite lookup_insert_eq, decide_False by lia. f_equal. lia.
  - rewrite lookup_insert_ne, Hc by done. done.
Qed.

Lemma Dec_counts ring txs tx :
  counts ring (tx :: txs) → (size (senders (tx :: txs)) <= cap)%nat → counts (Dec (Sender tx) ring) txs.
Proof.
  intros Hc Hcap. pose proof (sent_by_nonneg (Sender tx) txs) as Hnn. pose proof (counts_size _ _ Hc) as Hsize.
  pose proof (Hc (Sender tx)) as Htx. rewrite sent_by_cons in Htx.
  rewrite (decide_True (P := Sender tx = Sender tx)), decide_False in Htx by (done || lia).
  unfold Dec. rewrite lru_Peek_spec, Htx.
  assert (Hother : ∀ a, a ≠ Sender tx → lru_contents ring !! a
    = if decide (sent_by a txs = 0) then None else Some (sent_by a txs)).
  { intros a Ha. rewrite Hc, sent_by_cons. by rewrite (decide_False (P := Sender tx = a)) by congruence. }
  destruct (Z.leb_spec (1 + sent_by (Sender tx) txs) 1) as [Hle|Hgt]; intros a.
  - rewrite lru_Remove_spec. destruct (decide (a = Sender tx)) as [->|Hne].
    + rewrite lookup_delete_eq, decide_True by lia. done.
    + rewrite lookup_delete_ne by done. by apply Hother.
  - rewrite lru_Add_spec.
    + destruct (decide (a = Sender tx)) as [->|Hne].
      * rewrite lookup_insert_eq, decide_False by lia. f_equal. lia.
      * rewrite lookup_insert_ne by done. by apply Hother.
    + rewrite map_size_insert_Some by (by eexists). lia.
Qed.

Lemma Incs_counts new ring txs :
  counts ring txs → (size (senders (new ++ txs)) <= cap)%nat →
  counts (foldl (λ ring tx, Inc (Sender tx) ring) ring new) (new ++ txs).
Proof.
  revert ring txs. induction new as [|tx new IH]; intros ring txs Hc Hcap; [done|]. cbn [foldl].
  change ((tx :: new) ++ txs) with (tx :: (new ++ txs)). rewrite Permutation_middle. apply IH.
  - apply Inc_counts; [done|]. etransitivity; [|exact Hcap]. apply subseteq_size. unfold senders. set_solver.
  - etransitivity; [|exact Hcap]. apply subseteq_size. unfold senders. set_solver.
Qed.

Lemma Decs_counts old ring txs :
  counts ring (old ++ txs) → (size (senders (old ++ txs)) <= cap)%nat →
  counts (foldl (λ ring tx, Dec (Sender tx) ring) ring old) txs.
Proof.
  revert ring. induction old as [|tx old IH]; intros ring Hc Hcap; [done|]. cbn [foldl]. apply IH.
  - by apply Dec_counts.
  - etransitivity; [|exact Hcap]. apply subseteq_size. unfold senders. set_solver.
Qed.

(** ** Pending events *)

Variable EmptyTxHash : list Z.

Notation Ev := (EventPayload EventID).
Definition pending_txs (evs : list Ev) : list Transaction := concat (ep_txs <$> evs).
Definition gas_of (evs : list Ev) : Z := sum_Z ((λ e, gasPowerUsed (ev_ext (ep_event e))) <$> evs).

#[global] Instance pending_txs_proper : Proper ((≡ₚ) ==> (≡ₚ)) pending_txs.
Proof. intros l k Hp. unfold pending_txs. by rewrite Hp. Qed.
Lemma gas_of_cons e evs : gas_of (e :: evs) = gasPowerUsed (ev_ext (ep_event e)) + gas_of evs.
Proof. done. Qed.
Lemma gas_of_perm l k : l ≡ₚ k → gas_of l = gas_of k.
Proof. intros Hp. apply sum_Z_perm. by rewrite Hp. Qed.

(** The senders of the pending transactions fit the cache, the gas fits 64 bits, and
    the hash of the transactions tells whether there are any. *)
Record fits (evs : list Ev) : Prop := {
  ft_senders : (size (senders (pending_txs evs)) <= cap)%nat;
  ft_gas : gas_of evs < 2 ^ 64;
  ft_used : Forall (λ e, 0 <= gasPowerUsed (ev_ext (ep_event e))) evs;
  ft_hash : Forall (λ e, NoTxs EmptyTxHash (ev_ext (ep_event e)) = true → ep_txs e = []) evs;
}.

Record tracks (p : Pending L) (evs : list Ev) : Prop := {
  tr_counts : counts (pd_originatedTxs p) (pending_txs evs);
  tr_gas : pd_pendingGas p = gas_of evs;
  tr_fits : fits evs;
}.

Inductive hook := Connected (e : Ev) | Confirmed (e : Ev) | NewEpoch.

Definition run_hook (h : hook) (p : Pending L) : Pending L :=
  match h with
  | Connected e => pending_OnEventConnected Sender e p
  | Confirmed e => pending_OnEventConfirmed Sender EmptyTxHash e p
  | NewEpoch => pending_OnNewEpoch p
  end.

(** Which events are pending after some calls: an event is confirmed while pending. *)
Inductive pending_run : list Ev → list hook → list Ev → Prop :=
  | run_nil evs : pending_run evs [] evs
  | run_connected evs e hs evs' :
      fits (e :: evs) → pending_run (e :: evs) hs evs' → pending_run evs (Connected e :: hs) evs'
  | run_confirmed evs e rest hs evs' :
      evs ≡ₚ e :: rest → pending_run rest hs evs' → pending_run evs (Confirmed e :: hs) evs'
  | run_epoch evs hs evs' : pending_run [] hs evs' → pending_run evs (NewEpoch :: hs) evs'.

Lemma fits_tail e rest : fits (e :: rest) → fits rest.
Proof.
  intros [Hs Hg Hu Hh]. apply Forall_cons in Hu as [He Hu], Hh as [_ Hh]. split; [|..|done|done].
  - etransitivity; [|exact Hs]. apply subseteq_size. unfold senders, pending_txs. cbn. set_solver.
  - rewrite gas_of_cons in Hg. cbn in He. lia.
Qed.

#[global] Instance fits_proper : Proper ((≡ₚ) ==> impl) fits.
Proof.
  intros l k Hp [Hs Hg Hu Hh]. split; [|by rewrite <- (gas_of_perm _ _ Hp)|by rewrite <- Hp|by rewrite <- Hp].
  etransitivity; [|exact Hs]. apply subseteq_size. unfold senders. intros a.
  rewrite !elem_of_list_to_set, !list_elem_of_fmap. intros (tx & -> & Hin). exists tx. split; [done|]. by rewrite Hp.
Qed.

Lemma tracks_connected p evs e :
  tracks p evs → fits (e :: evs) → tracks (pending_OnEventConnected Sender e p) (e :: evs).
Proof.
  intros [Hc Hg Hf] Hf'. pose proof Hf' as [Hs' Hg' Hu' _].
  split; [|..|done]; cbn [pending_OnEventConnected pd_originatedTxs pd_pendingGas].
  - change (pending_txs (e :: evs)) with (ep_txs e ++ pending_txs evs). by apply Incs_counts.
  - rewrite Hg. rewrite gas_of_cons in *.
    apply Forall_cons in Hu' as [He Hu']. cbn in He. assert (0 <= gas_of evs) by (apply sum_Z_nonneg, Forall_fmap; exact Hu').
    rewrite u64_id by (unfold is_u64; lia). lia.
Qed.

Lemma tracks_confirmed p e rest :
  tracks p (e :: rest) → tracks (pending_OnEventConfirmed Sender EmptyTxHash e p) rest.
Proof.
  intros [Hc Hg Hf]. pose proof Hf as [Hs Hg' Hu Hh]. apply Forall_cons in Hu as [He Hu], Hh as [Hhe _]. cbn in He, Hhe.
  change (pending_txs (e :: rest)) with (ep_txs e ++ pending_txs rest) in *. 
  split; [|..|by eapply fits_tail]; cbn [pending_OnEventConfirmed pd_originatedTxs pd_pendingGas].
  - destruct (NoTxs EmptyTxHash (ev_ext (ep_event e))); [by rewrite (Hhe eq_refl) in Hc|]. by apply Decs_counts.
  - rewrite gas_of_cons in *.
    assert (0 <= gas_of rest) by (apply sum_Z_nonneg, Forall_fmap; exact Hu).
    destruct (Z.ltb_spec (gasPowerUsed (ev_ext (ep_event e))) (pd_pendingGas p)); [|lia].
    rewrite u64_id by (unfold is_u64; lia). lia.
Qed.

Lemma counts_nil ring : lru_contents ring = ∅ → counts ring [].
Proof. intros E a. by rewrite E, lookup_empty. Qed.

Lemma counts_empty ring txs : counts ring txs → Empty ring = bool_decide (txs = []).
Proof.
  intros Hc. unfold Empty. rewrite lru_Len_spec, (counts_size _ _ Hc). destruct txs as [|tx txs].
  - rewrite bool_decide_true by done. done.
  - rewrite bool_decide_false by done. apply Z.eqb_neq. intros Hz.
    assert (Hsz : size (senders (tx :: txs)) = 0%nat) by lia. apply size_empty_inv in Hsz. unfold senders in Hsz.
    set_solver.
Qed.

(** The emitter's view of what is pending is exact: after any sequence of connected
    and confirmed events and of new epochs, as long as the senders fit the cache, its
    counters are the numbers of unconfirmed transactions per sender, its gas is the gas
    of the unconfirmed events, and it is idle exactly when no transaction is pending. *)
Theorem emitter_tracks_pending evs hs evs' p :
  tracks p evs → pending_run evs hs evs' →
  let p' := foldl (flip run_hook) p hs in
  tracks p' evs' ∧ (idle p' = true ↔ pending_txs evs' = []) ∧
  ∀ a, (TotalOf a (pd_originatedTxs p')).1 = sent_by a (pending_txs evs').
Proof.
  intros Ht Hrun.
  assert (Hall : tracks (foldl (flip run_hook) p hs) evs').
  { revert p Ht. induction Hrun as [evs|evs e hs evs' Hf _ IH|evs e rest hs evs' Hp _ IH|evs hs evs' _ IH];
      intros p Ht; cbn [foldl flip run_hook]; [done|..]; apply IH.
    - by apply tracks_connected.
    - apply tracks_confirmed. destruct Ht as [Hc Hg Hf]. split.
      + by rewrite <- Hp.
      + by rewrite Hg, (gas_of_perm _ _ Hp).
      + by rewrite <- Hp.
    - split; [apply counts_nil, lru_Purge_spec|done|]. split; [|done|constructor|constructor]. cbn.
      unfold senders. cbn. rewrite size_empty. lia. }
  intros p'. split; [done|]. destruct Hall as [Hc _ _]. fold p' in Hc. split.
  - unfold idle. rewrite (counts_empty _ _ Hc). apply bool_decide_eq_true.
  - intros a. unfold TotalOf. destruct (lru_Get_spec a (pd_originatedTxs p')) as [E _].
    destruct (lru_Get a (pd_originatedTxs p')) as [cur ring]. cbn in *. rewrite E, Hc.
    by destruct (decide (sent_by a (pending_txs evs') = 0)) as [->|].
Qed.
End counts.

(** ** txs.go: the gas an event may use *)

(** The accessors of [inter.EventPayloadI] on an event under construction. *)
Definition me_view {EventID} (me : MutableEventPayload EventID) : EventPayload EventID :=
  mkEventPayload (mkEvent (me_base me) (me_ext me) []) (me_sig me) (me_txs me) 0.

Section gas.
Context {EventID : Type} `{EventIDs EventID} `{DagEvents EventID} {V : Type} `{Pos V}.

Definition max64 (a b : Z) : Z := if b <? a then a else b.

(** Smoothing below [LimitedTpsThreshold], given the gas power expected in a minute. *)
Definition smoothGasToUse (upperThreshold downThreshold maxGasToUse gasPowerLeft : Z) : Z :=
  let newGasPowerLeft := if maxGasToUse <? gasPowerLeft then u64 (gasPowerLeft - maxGasToUse) else 0 in
  let x1 := if newGasPowerLeft <? downThreshold then downThreshold else newGasPowerLeft in
  let x2 := if upperThreshold <? gasPowerLeft then upperThreshold else gasPowerLeft in
  let trespassingPart := if x1 <? x2 then u64 (x2 - x1) else 0 in
  let healthyPart := if x2 <? gasPowerLeft then u64 (gasPowerLeft - x2) else 0 in
  u64 (healthyPart + trespassingPart / 2).

Definition maxGasPowerToUse (cfg : EmitterConfig) (rules : Rules) (validators : V) (pendingGas : Z)
    (e : MutableEventPayload EventID) : res Z :=
  let left := GasPowerLeft_Min (gasPowerLeft (me_ext e)) in
  let maxGasToUse := MaxEventGas (GasR (Economy rules)) in
  let maxGasToUse := if left <? maxGasToUse then left else maxGasToUse in
  (* None: the event may use nothing *)
  smoothed ←
    (if ec_NoTxsThreshold cfg <? ec_LimitedTpsThreshold cfg then
       estimatedAlloc ← CalcValidatorGasPower (ep_event (me_view e)) (creationTime (me_ext e))
         (medianTime (me_ext e)) 0 validators
         (mkConfig LongTermGas (u64 (AllocPerSec (LongGasPower (Economy rules)) * 4) / 5) Minute 0 0 0);
       let gasPowerLeft := u64 (left + estimatedAlloc) in
       if gasPowerLeft <? ec_NoTxsThreshold cfg then Ok None
       else
         let smooth := smoothGasToUse (ec_LimitedTpsThreshold cfg) (ec_NoTxsThreshold cfg) maxGasToUse gasPowerLeft in
         Ok (Some (if smooth <? maxGasToUse then smooth else maxGasToUse))
     else Ok (Some maxGasToUse));
  match smoothed with
  | None => Ok 0
  | Some maxGasToUse =>
      let maxPendingGas := max64 (u64 (MaxBlockGas (Blocks rules) * 3) / 5)
        (u64 (MaxEventGas (GasR (Economy rules)) + u64 (EventGas (GasR (Economy rules)) * u64 (vv_Len validators)))) in
      if maxPendingGas <=? pendingGas then Ok 0
      else
        let maxGasToUse := if maxPendingGas <? u64 (pendingGas + maxGasToUse)
                           then u64 (maxPendingGas - pendingGas) else maxGasToUse in
        let threshold := ec_NoTxsThreshold cfg in
        if left <=? threshold then Ok 0
        else if left <? u64 (threshold + maxGasToUse) then Ok (u64 (left - threshold))
        else Ok maxGasToUse
  end.

Lemma max64_range a b : is_u64 a → is_u64 b → is_u64 (max64 a b).
Proof. unfold max64. by destruct (b <? a). Qed.

(** What the result is bounded by. *)
Lemma maxGasPowerToUse_bounds cfg rules validators pendingGas e g :
  is_u64 (GasPowerLeft_Min (gasPowerLeft (me_ext e))) → is_u64 pendingGas →
  is_u64 (ec_NoTxsThreshold cfg) → is_u64 (MaxEventGas (GasR (Economy rules))) →
  maxGasPowerToUse cfg rules validators pendingGas e = Ok g →
  0 <= g <= MaxEventGas (GasR (Economy rules)) ∧ g <= GasPowerLeft_Min (gasPowerLeft (me_ext e)).
Proof.
  unfold is_u64. intros Hl Hp Ht Hm. unfold maxGasPowerToUse.
  set (left := GasPowerLeft_Min _) in *. set (mx := MaxEventGas _) in *.
  set (m1 := if left <? mx then left else mx).
  assert (Hm1 : 0 <= m1 <= mx ∧ m1 <= left) by (unfold m1; destruct (Z.ltb_spec left mx); lia).
  intros ([m2|] & Es & Hg)%res_bind_Ok; [|injection Hg as <-; lia].
  assert (Hm2 : 0 <= m2 <= m1).
  { destruct (_ <? _) in Es; [|injection Es as <-; lia]. apply res_bind_Ok in Es as (a & _ & Es).
    destruct (_ <? _) in Es; [done|]. injection Es as <-.
    match goal with |- 0 <= (if ?s <? m1 then ?s else m1) <= m1 =>
      assert (0 <= s) by apply u64_range; destruct (Z.ltb_spec s m1); lia end. }
  clear Es. set (mp := max64 _ _) in Hg.
  destruct (Z.leb_spec mp pendingGas) as [|Hmp]; [injection Hg as <-; lia|].
  assert (Hmpr : 0 <= mp < 2 ^ 64).
  { apply max64_range; [|apply u64_range]. pose proof (u64_range (MaxBlockGas (Blocks rules) * 3)) as [? ?].
    split; [apply Z.div_pos; lia|]. apply Z.div_lt_upper_bound; lia. }
  set (m3 := if mp <? u64 (pendingGas + m2) then u64 (mp - pendingGas) else m2) in Hg.
  assert (Hm3 : 0 <= m3 <= m2).
  { unfold m3. destruct (Z.ltb_spec mp (u64 (pendingGas + m2))) as [Hlt|]; [|lia].
    rewrite (u64_id (mp - _)) by (unfold is_u64; lia).
    pose proof (u64_le (pendingGas + m2)). lia. }
  destruct (Z.leb_spec left (ec_NoTxsThreshold cfg)) as [|Hth]; [injection Hg as <-; lia|].
  destruct (Z.ltb_spec left (u64 (ec_NoTxsThreshold cfg + m3))) as [Hlt|]; injection Hg as <-; [|lia].
  rewrite (u64_id (left - _)) by (unfold is_u64; lia). pose proof (u64_le (ec_NoTxsThreshold cfg + m3)). lia.
Qed.
End gas.

(** ** addTxs *)

(** [types.TransactionsByPriceAndNonce]: the best transaction, dropping its account
    ([Pop]) or going on with the account's next one ([Shift]). *)
Class TxQueue (Q : Type) := {
  q_Peek : Q → option Transaction;
  q_Pop : Q → Q;
  q_Shift : Q → Q;
}.
(** Both take at least the best transaction out of those that are left. *)
Class TxQueueLaws (Q : Type) `{TxQueue Q} := {
  q_txs : Q → list Transaction;
  q_Peek_spec : ∀ q tx, q_Peek q = Some tx → tx ∈ q_txs q;
  q_Peek_None : ∀ q, q_Peek q = None ↔ q_txs q = [];
  q_Pop_spec : ∀ q tx, q_Peek q = Some tx → ∃ l, q_txs q ≡ₚ tx :: l ∧ q_txs (q_Pop q) ⊆+ l;
  q_Shift_spec : ∀ q tx, q_Peek q = Some tx → ∃ l, q_txs q ≡ₚ tx :: l ∧ q_txs (q_Shift q) ⊆+ l;
}.

(** [params.TxGas] *)
Definition params_TxGas : Z := 21000.

Section addtxs.
Context {EventID : Type} `{EventIDs EventID} `{DagEvents EventID} {V : Type} `{Pos V}.
Context `{ShuffleLib} `{TurnLib} {Q : Type} `{TxQueue Q}.
Context {L T : Type} `{!Lru Address Z L} `{!Lru (list Z) Z T}.
Variable Sender : Transaction → Address.
Variable Hash : Transaction → list Z.

(** Every call of [time.Now] reads the next entry. *)
Variable clock : nat → Z.

(** A transaction that was not seen before is recorded with the current time. *)
Definition getTxTime (txHash : list Z) (now : Z) (txTime : T) : Z * T :=
  match lru_Get txHash txTime with
  | (Some t, txTime) => (t, txTime)
  | (None, txTime) => (now, lru_Add txHash now txTime)
  end.

Definition memorizeTxTimes (cfg : EmitterConfig) (now : Z) (txs : list Transaction) (txTime : T) : T :=
  if ec_ID cfg =? 0 then txTime
  else foldl (λ m tx, match lru_Get (Hash tx) m with
                      | (Some _, m) => m
                      | (None, m) => lru_Add (Hash tx) now m
                      end) txTime txs.

(** [now] is the argument, [now'] what [getTxTime] reads. *)
Definition isMyTxTurn (tx : Transaction) (now now' : Z) (validators : V) (me epoch : Z) (txTime : T)
  : res (bool * T) :=
  let '(t, txTime) := getTxTime (Hash tx) now' txTime in
  turn ← isMyTxTurn_at t (Sender tx) (tx_Nonce tx) now validators me epoch;
  Ok (turn, txTime).

Definition set_gas (used : Z) (left : GasPowerLeft) (txs : list Transaction) (e : MutableEventPayload EventID)
  : MutableEventPayload EventID :=
  let x := me_ext e in
  mkMutableEventPayload (me_base e)
    (mkExtEventData (creationTime x) (medianTime x) (prevEpochHash x) (txHash x) left used (extra x))
    (me_sig e) txs.

(** [SetGasPowerUsed], [SetGasPowerLeft] and [SetTxs] for an added transaction. *)
Definition add_tx (tx : Transaction) (e : MutableEventPayload EventID) : MutableEventPayload EventID :=
  set_gas (u64 (gasPowerUsed (me_ext e) + tx_Gas tx)) (GasPowerLeft_Sub (gasPowerLeft (me_ext e)) (tx_Gas tx))
    (me_txs e ++ [tx]) e.

(** Whether a gas limit is beyond what the event may still use. *)
Definition too_big (maxGasUsed gas : Z) (e : MutableEventPayload EventID) : bool :=
  (GasPowerLeft_Min (gasPowerLeft (me_ext e)) <=? gas) || (maxGasUsed <=? u64 (gasPowerUsed (me_ext e) + gas)).

Fixpoint addTxs_loop (fuel : nat) (rules : Rules) (softGasPriceLimit maxGasUsed : Z) (validators : V) (epoch : Z)
    (Has : list Z → bool) (tick : nat) (sorted : Q) (e : MutableEventPayload EventID) (ring : L) (txTime : T)
  : res (MutableEventPayload EventID * L * T) :=
  match fuel with
  | O => Panic
  | S fuel' =>
      let continue := addTxs_loop fuel' rules softGasPriceLimit maxGasUsed validators epoch Has in
      match q_Peek sorted with
      | None => Ok (e, ring, txTime)
      | Some tx =>
          if negb (bool_decide (CheckTxs [tx] rules = Ok tt)) then continue tick (q_Pop sorted) e ring txTime
          else if tx_GasPrice tx <? softGasPriceLimit then continue tick (q_Pop sorted) e ring txTime
          else if too_big maxGasUsed (tx_Gas tx) e then
            if too_big maxGasUsed params_TxGas e then Ok (e, ring, txTime)
            else continue tick (q_Pop sorted) e ring txTime
          else
            let '(total, ring) := TotalOf (Sender tx) ring in
            if negb (total =? 0) then continue tick (q_Pop sorted) e ring txTime
            else
              '(turn, txTime) ← isMyTxTurn tx (clock tick) (clock (tick + 1)) validators (Creator (me_base e)) epoch txTime;
              let tick := (tick + 2)%nat in
              if negb turn then continue tick (q_Pop sorted) e ring txTime
              else if negb (Has (Hash tx)) then continue tick (q_Pop sorted) e ring txTime
              else continue tick (q_Shift sorted) (add_tx tx e) ring txTime
      end
  end.

(** [n] is more than the transactions in the queue. *)
Definition addTxs (cfg : EmitterConfig) (rules : Rules) (softGasPriceLimit : Z) (validators : V) (epoch : Z)
    (Has : list Z → bool) (n : nat) (p : Pending L) (txTime : T) (sorted : Q) (e : MutableEventPayload EventID)
  : res (MutableEventPayload EventID * Pending L * T) :=
  maxGasUsed ← maxGasPowerToUse cfg rules validators (pd_pendingGas p) e;
  if maxGasUsed <=? gasPowerUsed (me_ext e) then Ok (e, p, txTime)
  else
    '(e, ring, txTime) ← addTxs_loop n rules softGasPriceLimit maxGasUsed validators epoch Has 0 sorted e
                           (pd_originatedTxs p) txTime;
    Ok (e, mkPending ring (pd_pendingGas p), txTime).
End addtxs.

(** ** The event grows by valid transactions and its gas stays balanced *)

Definition gas_sum (txs : list Transaction) : Z := sum_Z (tx_Gas <$> txs).

Lemma txs_gas_app l k : gas_sum (l ++ k) = gas_sum l + gas_sum k.
Proof. unfold gas_sum. by rewrite fmap_app, sum_Z_app. Qed.

Lemma Forall_sub {A} (P : A → Prop) l k : l ⊆+ k → Forall P k → Forall P l.
Proof. rewrite !Forall_forall. intros Hs HP x Hx. apply HP. by eapply elem_of_submseteq. Qed.

Lemma Min_foldl (l : list Z) (m : Z) :
  foldl (λ min gas, if gas <? min then gas else min) m l <= m ∧
  Forall (λ g, foldl (λ min gas, if gas <? min then gas else min) m l <= g) l.
Proof.
  revert m. induction l as [|g l IH]; intros m; cbn; [split; [lia|constructor]|].
  destruct (IH (if g <? m then g else m)) as [H1 H2].
  assert ((if g <? m then g else m) <= g ∧ (if g <? m then g else m) <= m) by (destruct (Z.ltb_spec g m); lia).
  split; [lia|]. constructor; [lia|done].
Qed.

Lemma Min_nonneg l m :
  0 <= m → Forall (λ g, 0 <= g) l → 0 <= foldl (λ min gas, if gas <? min then gas else min) m l.
Proof.
  intros Hm Hl. revert m Hm. induction Hl as [|g l Hg Hl IH]; intros m Hm; cbn; [done|].
  apply IH. by destruct (g <? m).
Qed.

Lemma Min_le g x : x ∈ Gas g → GasPowerLeft_Min g <= x.
Proof. intros Hx. destruct (Min_foldl (Gas g) (default 0 (Gas g !! 0%nat))) as [_ Hall]. by rewrite Forall_forall in Hall; apply Hall. Qed.

Section sound.
Context {EventID : Type} `{EventIDs EventID} `{DagEvents EventID} {V : Type} `{PosLaws V}.
Context `{ShuffleLibLaws} `{TurnLibLaws} {Q : Type} `{TxQueueLaws Q}.
Context {L T : Type} `{!Lru Address Z L} `{!Lru (list Z) Z T}.
Variable Sender : Transaction → Address.
Variable Hash : Transaction → list Z.
Variable clock : nat → Z.

Notation Me := (MutableEventPayload EventID).

(** The event [e0] with some more transactions and their gas accounted for. *)
Definition grow (e0 : Me) (added : list Transaction) : Me :=
  set_gas (gasPowerUsed (me_ext e0) + gas_sum added)
    (mkGasPowerLeft ((λ g, g - gas_sum added) <$> Gas (gasPowerLeft (me_ext e0)))) (me_txs e0 ++ added) e0.

Lemma grow_nil e0 : grow e0 [] = e0.
Proof.
  unfold grow, set_gas. change (gas_sum []) with 0. rewrite app_nil_r, Z.add_0_r.
  assert (E : (λ g, g - 0) <$> Gas (gasPowerLeft (me_ext e0)) = Gas (gasPowerLeft (me_ext e0))).
  { rewrite <- (list_fmap_id (Gas _)) at 2. apply list_fmap_ext. intros i x _. cbn. lia. }
  rewrite E. destruct e0 as [b [? ? ? ? [?] ? ?] ? ?]. done.
Qed.

(** The gas of an event before its transactions are added. *)
Record gas_balanced (e0 : Me) : Prop := {
  gb_used : 0 <= gasPowerUsed (me_ext e0);
  gb_left : Forall (λ g, 0 <= g ∧ gasPowerUsed (me_ext e0) + g < 2 ^ 64) (Gas (gasPowerLeft (me_ext e0)));
  gb_len : Gas (gasPowerLeft (me_ext e0)) ≠ [];
}.

Lemma balanced_Min e0 : gas_balanced e0 → is_u64 (GasPowerLeft_Min (gasPowerLeft (me_ext e0))).
Proof.
  intros [Hu Hl Hne]. destruct (Gas (gasPowerLeft (me_ext e0))) as [|g gs] eqn:E; [done|].
  apply Forall_cons in Hl as [[Hg Hg'] Hl]. split.
  - unfold GasPowerLeft_Min. rewrite E. apply Min_nonneg; [cbn; lia|]. constructor; [done|].
    eapply Forall_impl; [exact Hl|]. by intros x [? _].
  - assert (GasPowerLeft_Min (gasPowerLeft (me_ext e0)) <= g) by (apply Min_le; rewrite E; by left). lia.
Qed.

(** What holds of the transactions added so far. *)
Record added_ok (rules : Rules) (softLimit maxGasUsed : Z) (e0 : Me) (added : list Transaction) : Prop := {
  ao_gas : Forall (λ tx, 0 <= tx_Gas tx) added;
  ao_left : Forall (λ g, gas_sum added <= g) (Gas (gasPowerLeft (me_ext e0)));
  ao_max : added ≠ [] → gasPowerUsed (me_ext e0) + gas_sum added < maxGasUsed;
  ao_valid : CheckTxs added rules = Ok tt;
  ao_price : Forall (λ tx, softLimit <= tx_GasPrice tx) added;
}.

Lemma txs_gas_nonneg txs : Forall (λ tx, 0 <= tx_Gas tx) txs → 0 <= gas_sum txs.
Proof. intros Hg. by apply sum_Z_nonneg, Forall_fmap. Qed.

Lemma CheckTxs_app l k rules : CheckTxs l rules = Ok tt → CheckTxs k rules = Ok tt → CheckTxs (l ++ k) rules = Ok tt.
Proof. unfold CheckTxs. rewrite !check_all_Ok. rewrite !Forall_forall. set_solver. Qed.

Lemma add_tx_grow rules softLimit maxGasUsed e0 added tx :
  gas_balanced e0 → added_ok rules softLimit maxGasUsed e0 added → 0 <= tx_Gas tx →
  CheckTxs [tx] rules = Ok tt → softLimit <= tx_GasPrice tx →
  too_big maxGasUsed (tx_Gas tx) (grow e0 added) = false →
  add_tx tx (grow e0 added) = grow e0 (added ++ [tx]) ∧
  added_ok rules softLimit maxGasUsed e0 (added ++ [tx]).
Proof.
  intros [Hu Hl Hne] [Hg Hle Hmax Hv Hp] Htx Hcheck Hprice [Hmin%Z.leb_gt Hused%Z.leb_gt]%orb_false_iff.
  pose proof (txs_gas_nonneg _ Hg) as Hs.
  assert (Hsum : gas_sum (added ++ [tx]) = gas_sum added + tx_Gas tx)
    by (rewrite txs_gas_app; unfold gas_sum, sum_Z; cbn; lia).
  cbn [me_ext grow set_gas gasPowerLeft gasPowerUsed] in *.
  assert (Hlt : Forall (λ g, gas_sum added + tx_Gas tx < g) (Gas (gasPowerLeft (me_ext e0)))).
  { rewrite Forall_forall. intros g Hin. assert (GasPowerLeft_Min (mkGasPowerLeft
      ((λ g, g - gas_sum added) <$> Gas (gasPowerLeft (me_ext e0)))) <= g - gas_sum added); [|lia].
    apply Min_le. cbn. apply list_elem_of_fmap. by exists g. }
  assert (Hnowrap : gasPowerUsed (me_ext e0) + gas_sum added + tx_Gas tx < 2 ^ 64).
  { destruct (Gas (gasPowerLeft (me_ext e0))) as [|g gs]; [done|].
    apply Forall_cons in Hl as [[_ Hl] _], Hlt as [Hlt _]. lia. }
  rewrite u64_id in Hused by (unfold is_u64; lia). split.
  - unfold add_tx, grow, set_gas. cbn [me_ext me_base me_sig me_txs gasPowerUsed gasPowerLeft creationTime medianTime
      prevEpochHash txHash extra]. rewrite u64_id by (unfold is_u64; lia). rewrite Hsum, <- app_assoc, Z.add_assoc.
    do 2 f_equal. unfold GasPowerLeft_Sub. cbn [Gas]. f_equal. rewrite <- list_fmap_compose.
    apply list_fmap_ext. intros i g Hi%list_elem_of_lookup_2. rewrite Forall_forall in Hl, Hlt. cbn.
    specialize (Hl g Hi). specialize (Hlt g Hi). rewrite u64_id by (unfold is_u64; lia). lia.
  - split.
    + apply Forall_app. auto.
    + rewrite Hsum. eapply Forall_impl; [exact Hlt|]. cbn. intros. lia.
    + rewrite Hsum. intros _. lia.
    + by apply CheckTxs_app.
    + apply Forall_app. auto.
Qed.

Notation loop := (addTxs_loop Sender Hash clock).

Lemma q_Pop_length q tx : q_Peek q = Some tx → (length (q_txs (q_Pop q)) < length (q_txs q))%nat.
Proof.
  intros (l & Hp & Hs%submseteq_length)%q_Pop_spec. rewrite Hp. cbn. lia.
Qed.
Lemma q_Shift_length q tx : q_Peek q = Some tx → (length (q_txs (q_Shift q)) < length (q_txs q))%nat.
Proof.
  intros (l & Hp & Hs%submseteq_length)%q_Shift_spec. rewrite Hp. cbn. lia.
Qed.

Lemma isMyTxTurn_total tx now now' (vv : V) me epoch (tm : T) :
  vv_IDs vv ≠ [] → ∃ turn tm', isMyTxTurn Sender Hash tx now now' vv me epoch tm = Ok (turn, tm').
Proof.
  intros Hne. unfold isMyTxTurn. destruct (getTxTime (Hash tx) now' tm) as [t tm'].
  destruct (isMyTxTurn_spec (Sender tx) (tx_Nonce tx) vv epoch Hne) as (order & _ & Hturn).
  destruct (Hturn now t me) as (r & _ & ->). by eexists _, _.
Qed.

Lemma addTxs_loop_spec f rules soft mx (vv : V) epoch Has tick q (e0 : Me) added (ring : L) (tm : T) :
  vv_IDs vv ≠ [] → gas_balanced e0 → (length (q_txs q) < f)%nat → Forall (λ tx, 0 <= tx_Gas tx) (q_txs q) →
  added_ok rules soft mx e0 added →
  ∃ more ring' tm', loop f rules soft mx vv epoch Has tick q (grow e0 added) ring tm
    = Ok (grow e0 (added ++ more), ring', tm') ∧ added_ok rules soft mx e0 (added ++ more) ∧ more ⊆+ q_txs q.
Proof.
  intros Hne Hb. revert tick q added ring tm.
  induction f as [|f IH]; intros tick q added ring tm Hlen Hq Ha; cbn [addTxs_loop]; [lia|].
  assert (Hstop : ∀ (ring : L) (tm : T), ∃ more ring' tm', Ok (grow e0 added, ring, tm) = Ok (grow e0 (added ++ more), ring', tm')
    ∧ added_ok rules soft mx e0 (added ++ more) ∧ more ⊆+ q_txs q).
  { intros ring' tm'. exists [], ring', tm'. rewrite app_nil_r. split; [done|]. split; [done|]. apply submseteq_nil_l. }
  destruct (q_Peek q) as [tx|] eqn:Eq; [|apply Hstop].
  destruct (q_Pop_spec q tx Eq) as (lp & Hperm & Hsub). destruct (q_Shift_spec q tx Eq) as (ls & Hperm' & Hsub').
  pose proof (q_Pop_length q tx Eq). pose proof (q_Shift_length q tx Eq).
  assert (Hpop : ∀ tick (ring : L) (tm : T), ∃ more ring' tm',
    loop f rules soft mx vv epoch Has tick (q_Pop q) (grow e0 added) ring tm
      = Ok (grow e0 (added ++ more), ring', tm') ∧ added_ok rules soft mx e0 (added ++ more) ∧ more ⊆+ q_txs q).
  { intros tick' ring' tm'. assert (Hq' : q_txs (q_Pop q) ⊆+ q_txs q) by (rewrite Hperm; by apply submseteq_cons).
    destruct (IH tick' (q_Pop q) added ring' tm') as (more & r & t & E & Hok & Hm);
      [lia|by eapply Forall_sub|done|]. exists more, r, t. split; [done|]. split; [done|]. by etransitivity. }
  destruct (bool_decide (CheckTxs [tx] rules = Ok tt)) eqn:Echeck; cbn [negb]; [|apply Hpop].
  apply bool_decide_eq_true in Echeck.
  destruct (Z.ltb_spec (tx_GasPrice tx) soft) as [|Hprice]; [apply Hpop|].
  destruct (too_big mx (tx_Gas tx) (grow e0 added)) eqn:Ebig.
  { destruct (too_big mx params_TxGas (grow e0 added)); [apply Hstop|apply Hpop]. }
  destruct (TotalOf (Sender tx) ring) as [total ring']. destruct (total =? 0); cbn [negb]; [|apply Hpop].
  destruct (isMyTxTurn_total tx (clock tick) (clock (tick + 1)) vv (Creator (me_base (grow e0 added))) epoch tm Hne)
    as (turn & tm' & ->). cbn [mbind res_bind].
  destruct turn; cbn [negb]; [|apply Hpop]. destruct (Has (Hash tx)); cbn [negb]; [|apply Hpop].
  assert (Htx : 0 <= tx_Gas tx).
  { rewrite Forall_forall in Hq. apply Hq. rewrite Hperm. by left. }
  destruct (add_tx_grow rules soft mx e0 added tx Hb Ha Htx Echeck Hprice Ebig) as [-> Ha'].
  destruct (IH (tick + 2)%nat (q_Shift q) (added ++ [tx]) ring' tm') as (more & r & t & E & Hok & Hm); [lia| |done|].
  { eapply Forall_sub; [|exact Hq]. rewrite Hperm'. by apply submseteq_cons. }
  exists (tx :: more), r, t. rewrite <- app_assoc in E, Hok. split; [done|]. split; [done|].
  rewrite Hperm'. apply submseteq_skip. by etransitivity.
Qed.

(** The gas charged for an event grows with its transactions. *)
Lemma foldl_u64_sum txs acc :
  is_u64 acc → foldl (λ g tx, u64 (g + tx_Gas tx)) acc txs = u64 (acc + gas_sum txs).
Proof.
  revert acc. induction txs as [|tx txs IH]; intros acc Hacc; cbn [foldl].
  { change (gas_sum []) with 0. by rewrite Z.add_0_r, u64_id. }
  rewrite IH by apply u64_range. change (gas_sum (tx :: txs)) with (tx_Gas tx + gas_sum txs).
  unfold u64. rewrite Zplus_mod_idemp_l. f_equal. lia.
Qed.

Lemma CalcGasPowerUsed_grow rules (e0 : Me) added :
  CalcGasPowerUsed (me_view (grow e0 added)) rules
  = u64 (CalcGasPowerUsed (me_view e0) rules + gas_sum added).
Proof.
  unfold CalcGasPowerUsed, me_view, grow, set_gas.
  cbn [ep_event ep_txs ev_base ev_ext me_base me_ext me_txs extra]. rewrite !foldl_u64_sum by done.
  rewrite !Z.add_0_l, txs_gas_app.
  match goal with |- u64 (_ + ?p + ?x + ?ev) = _ => generalize p x ev end. intros p x ev.
  rewrite (u64_add_l (u64 _ + p + x + ev)). rewrite <- !(Z.add_assoc (u64 _)), !u64_add_l. f_equal. lia.
Qed.

Lemma CalcValidatorGasPower_total e t pt prev (vv : V) c :
  ∃ g, CalcValidatorGasPower (EventID := EventID) e t pt prev vv c = Ok g.
Proof.
  unfold CalcValidatorGasPower, calcValidatorGasPowerPerSec, div.
  pose proof (vv_Get_nonneg vv (Creator (ev_base e))). pose proof (vv_Get_TotalWeight vv (Creator (ev_base e))).
  destruct (Z.eqb_spec (vv_Get vv (Creator (ev_base e))) 0); [by eexists|].
  rewrite (proj2 (Z.eqb_neq (vv_TotalWeight vv) 0)) by lia. by eexists.
Qed.

Lemma maxGasPowerToUse_total cfg rules (vv : V) pendingGas (e : Me) :
  ∃ g, maxGasPowerToUse cfg rules vv pendingGas e = Ok g.
Proof.
  unfold maxGasPowerToUse.
  match goal with |- ∃ g, (?m ≫= ?k) = Ok g => assert (Hm : ∃ s, m = Ok s) end.
  { destruct (_ <? _); [|by eexists].
    match goal with |- context [CalcValidatorGasPower ?e ?t ?pt ?p ?v ?c] =>
      destruct (CalcValidatorGasPower_total e t pt p v c) as [g ->] end.
    cbn [mbind res_bind]. destruct (_ <? _); by eexists. }
  destruct Hm as [[s|] ->]; cbn [mbind res_bind]; [|by eexists].
  repeat match goal with |- context [if ?c then Ok _ else _] => destruct c end; by eexists.
Qed.

Lemma calcGasPowers_grow (e0 : Me) added sp (ctx : ValidationContext V EventID) cs :
  calcGasPowers (ep_event (me_view (grow e0 added))) sp ctx cs = calcGasPowers (ep_event (me_view e0)) sp ctx cs.
Proof. induction cs as [|c cs IH]; [done|]. cbn [calcGasPowers]. by rewrite IH. Qed.

Lemma checkGasPowers_shift used s lefts gs :
  checkGasPowers lefts used gs = Ok tt → checkGasPowers ((λ g, g - s) <$> lefts) (used + s) gs = Ok tt.
Proof.
  revert lefts. induction gs as [|g gs IH]; intros [|l lefts]; 
    cbn [fmap list_fmap checkGasPowers]; try done. replace (l - s + (used + s)) with (l + used) by lia.
  destruct (negb _); [done|apply IH].
Qed.

Lemma Validate_grow (e0 : Me) added sp (ctx : ValidationContext V EventID) :
  Validate ctx (ep_event (me_view e0)) sp = Ok tt →
  Validate ctx (ep_event (me_view (grow e0 added))) sp = Ok tt.
Proof.
  unfold Validate, CalcGasPower. rewrite calcGasPowers_grow.
  change (Epoch (ev_base (ep_event (me_view (grow e0 added))))) with (Epoch (ev_base (ep_event (me_view e0)))).
  destruct (negb _); [done|]. destruct (calcGasPowers _ sp ctx _) as [gs| |]; cbn; try done.
  apply checkGasPowers_shift.
Qed.

(** C33: choosing the transactions of an event terminates within one turn of the loop per
    queued transaction, never fails and keeps the event acceptable:
    the added transactions come from the queue, pass the epoch's checks and pay at
    least the recommended price; the gas used stays what the rules charge and within the
    limit of an event, and the gas power check gives the same verdict as before. *)
Theorem emitter_event_acceptable cfg rules soft (vv : V) epoch Has n (p : Pending L) (tm : T) q (e0 : Me) :
  vv_IDs vv ≠ [] → gas_balanced e0 → is_u64 (pd_pendingGas p) → is_u64 (ec_NoTxsThreshold cfg) →
  is_u64 (MaxEventGas (GasR (Economy rules))) → (length (q_txs q) < n)%nat → Forall (λ tx, 0 <= tx_Gas tx) (q_txs q) →
  ∃ added p' tm', addTxs Sender Hash clock cfg rules soft vv epoch Has n p tm q e0 = Ok (grow e0 added, p', tm') ∧
    added ⊆+ q_txs q ∧ CheckTxs added rules = Ok tt ∧ Forall (λ tx, soft <= tx_GasPrice tx) added ∧
    (checkGas (me_view e0) rules = Ok tt → checkGas (me_view (grow e0 added)) rules = Ok tt) ∧
    (∀ ctx sp, Validate ctx (ep_event (me_view e0)) sp = Ok tt →
       Validate ctx (ep_event (me_view (grow e0 added))) sp = Ok tt).
Proof.
  intros Hne Hb Hp Ht Hm Hn Hq. destruct (maxGasPowerToUse_total cfg rules vv (pd_pendingGas p) e0) as [mx Emx].
  pose proof (balanced_Min e0 Hb) as Hmin.
  destruct (maxGasPowerToUse_bounds _ _ _ _ _ _ Hmin Hp Ht Hm Emx) as [[_ Hmx] _].
  unfold addTxs. rewrite Emx. cbn [mbind res_bind].
  destruct (Z.leb_spec mx (gasPowerUsed (me_ext e0))) as [_|Hlt].
  { exists [], p, tm. rewrite grow_nil. split_and!; try done. apply submseteq_nil_l. }
  destruct (addTxs_loop_spec n rules soft mx vv epoch Has 0 q e0 [] (pd_originatedTxs p) tm)
    as (added & ring' & tm' & E & Hok & Hsub); [done..| |].
  { split; try done. destruct Hb as [_ Hl _]. eapply Forall_impl; [exact Hl|]. cbn. intros g [? ?].
    change (gas_sum []) with 0. done. }
  rewrite grow_nil in E. rewrite E. cbn [mbind res_bind app] in *. destruct Hok as [Hg Hle Hmax Hv Hpr].
  eexists added, _, _. split; [done|]. split_and!; try done; [|intros; by apply Validate_grow].
  unfold checkGas. rewrite CalcGasPowerUsed_grow.
  cbn [me_view ep_event ev_ext grow set_gas me_ext gasPowerUsed].
  destruct (Z.ltb_spec (MaxEventGas (GasR (Economy rules))) (gasPowerUsed (me_ext e0))) as [|Hmu]; [done|].
  destruct (Z.eqb_spec (gasPowerUsed (me_ext e0)) (CalcGasPowerUsed (me_view e0) rules)) as [<-|]; [|done]. intros _.
  assert (Hused : gasPowerUsed (me_ext e0) + gas_sum added <= MaxEventGas (GasR (Economy rules))).
  { destruct added as [|tx added]; [change (gas_sum []) with 0; lia|]. specialize (Hmax ltac:(done)). lia. }
  pose proof (txs_gas_nonneg _ Hg). pose proof (gb_used _ Hb). unfold is_u64 in Hm.
  rewrite (proj2 (Z.ltb_ge _ _)), u64_id, Z.eqb_refl by (unfold is_u64; lia). done.
Qed.
End sound.

(** ** Concrete pending events and transactions *)

Definition demo_sender (tx : Transaction) : Address := tx_S tx :: default [] (tx_To tx).

Definition demo_p0 : Pending (gmap Address Z) := mkPending ∅ 0.

Lemma demo_tracks : tracks 20 demo_sender [0] demo_p0 (@nil (EventPayload Hash)).
Proof.
  split; [by intros a|done|]. split; [cbn; unfold senders; cbn; rewrite size_empty; lia|done|constructor|constructor].
Qed.

Lemma demo_fits : fits 20 demo_sender [0] [demo_payload].
Proof.
  split; [vm_compute; lia|vm_compute; reflexivity|repeat constructor; vm_compute; discriminate|].
  repeat constructor. intros E. vm_compute in E. discriminate.
Qed.

(** One event is connected, and connected again in the next epoch. *)
Lemma emitter_tracks_pending_witness :
  let hs := [Connected demo_payload; Confirmed demo_payload; Connected demo_payload] in
  let p' := foldl (flip (run_hook demo_sender [0])) demo_p0 hs in
  tracks 20 demo_sender [0] p' [demo_payload] ∧ (idle p' = true ↔ pending_txs [demo_payload] = []) ∧
  ∀ a, (TotalOf a (pd_originatedTxs p')).1 = sent_by demo_sender a (pending_txs [demo_payload]).
Proof.
  apply (emitter_tracks_pending 20 demo_sender [0] []
    [Connected demo_payload; Confirmed demo_payload; Connected demo_payload] [demo_payload] demo_p0).
  - apply demo_tracks.
  - apply run_connected; [apply demo_fits|]. apply (run_confirmed _ _ _ _ _ []); [done|].
    apply run_connected; [apply demo_fits|]. apply run_nil.
Defined.

(** A queue in the order of a list. *)
#[global] Instance list_queue : TxQueue (list Transaction) := {
  q_Peek := head;
  q_Pop := drop 1;
  q_Shift := drop 1;
}.
#[global] Instance list_queue_laws : TxQueueLaws (list Transaction).
Proof.
  refine {| q_txs := (λ q : list Transaction, q) |}.
  - intros [|x q] tx; [done|]. intros [= ->]. by left.
  - intros [|x q]; done.
  - intros [|x q] tx; [done|]. intros [= ->]. by exists q.
  - intros [|x q] tx; [done|]. intros [= ->]. by exists q.
Defined.

Definition demo_mut : MutableEventPayload Hash :=
  mkMutableEventPayload (mkBaseEvent 7 1 1 1 1 [] zero_ID)
    (mkExtEventData (100 * Second) (100 * Second) None [1] (mkGasPowerLeft [1172000; 572000]) 28000 []) [] [].

Definition demo_cfg1 : EmitterConfig :=
  mkEmitterConfig 1 demo_key (ec_EmitIntervals demo_emitter_cfg) 32 0 0 100000 50000 (200 * Millisecond).

Definition demo_queue : list Transaction :=
  [demo_transfer; mkTransaction LegacyTxType 6 21000 10 7 None [] 4039 11 12 2002 []].

Definition demo_addTxs :=
  addTxs (L := gmap Address Z) (T := gmap (list Z) Z) demo_sender (λ tx, [tx_Nonce tx]) (λ _, 200 * Second)
    demo_cfg1 MainNetRules 5 demo_group 7 (λ _, true) 3 demo_p0 ∅ demo_queue demo_mut.

(** The underpriced transaction is left out. *)
Lemma emitter_event_acceptable_witness :
  (me_txs ∘ fst ∘ fst) <$> demo_addTxs = Ok [demo_transfer] ∧
  checkGas (me_view demo_mut) MainNetRules = Ok tt ∧
  ∃ added p' tm', demo_addTxs = Ok (grow demo_mut added, p', tm') ∧
    added ⊆+ q_txs demo_queue ∧ CheckTxs added MainNetRules = Ok tt ∧ Forall (λ tx, 5 <= tx_GasPrice tx) added ∧
    (checkGas (me_view demo_mut) MainNetRules = Ok tt → checkGas (me_view (grow demo_mut added)) MainNetRules = Ok tt) ∧
    (∀ (ctx : ValidationContext Group Hash) sp, Validate ctx (ep_event (me_view demo_mut)) sp = Ok tt →
       Validate ctx (ep_event (me_view (grow demo_mut added))) sp = Ok tt).
Proof.
  split; [vm_compute; reflexivity|]. split; [vm_compute; reflexivity|].
  assert (Hg : gas_balanced demo_mut).
  { split; [vm_compute; discriminate|repeat constructor; vm_compute; congruence|vm_compute; discriminate]. }
  assert (Hq : Forall (λ tx, 0 <= tx_Gas tx) (q_txs demo_queue)) by (repeat constructor; vm_compute; congruence).
  unfold demo_addTxs.
  apply (emitter_event_acceptable (L := gmap Address Z) (T := gmap (list Z) Z) demo_sender (λ tx, [tx_Nonce tx])
    (λ _, 200 * Second) demo_cfg1 MainNetRules 5 demo_group 7 (λ _, true) 3 demo_p0 ∅ demo_queue demo_mut);
    try assumption; vm_compute; try split; try congruence; lia.
Defined.
