(* ===== verification/CheckQueue.v ===== *)
(** * Queues of the event checkers (eventcheck/heavycheck, eventcheck/parentlesscheck)

    [heavycheck.Checker] cuts a call's tasks into batches, sends them over a
    bounded channel and validates them in worker goroutines until it is stopped.
    The system of one caller and the workers is the step relation [hc_step]; its
    invariant says that no task is lost, duplicated or given a wrong result.
    [parentlesscheck.Checker] runs the light checks first and forwards the rest. *)

From S2P Require Import Prelude Inter GasPower EventCheck.

Definition errTerminated : error := NewError "heavycheck.terminated".

Record HeavyConfig := mkHeavyConfig {
  MaxQueuedBatches : Z;
  MaxBatch : Z;
  Threads : Z;
}.

(** The number of threads chosen by [New]. *)
Definition New_Threads (config : HeavyConfig) (NumCPU : Z) : Z :=
  if Threads config =? 0 then
    let t := NumCPU in
    let t := if 1 <? t then t - 1 else t in
    if t <? 1 then 1 else t
  else Threads config.

Section heavy.
Context {T R : Type}.
Variable config : HeavyConfig.
Variable validate : T → R.

(** [tasks[start:end]] with [end] cut to the length. *)
Definition batch_at (tasks : list T) (start : Z) : list T :=
  let e := len tasks in
  let e := if start + MaxBatch config <? e then start + MaxBatch config else e in
  take (Z.to_nat (e - start)) (drop (Z.to_nat start) tasks).

(** The state: the caller inside [Enqueue], at an offset of its tasks; the
    channel; the batches in the hands of workers; the callbacks made so far. *)
Record hc_state := mkHC {
  hc_caller : option (list T * Z);
  hc_tasksQ : list (list T);
  hc_working : list (list T);
  hc_validated : list (list (T * R));
  hc_workers : Z;
  hc_quit : bool;
  hc_result : option (res unit);
}.

(** [Start] launches the threads; [Enqueue] is then called once with [tasks]. *)
Definition hc_init (tasks : list T) (threads : Z) : hc_state :=
  mkHC (Some (tasks, 0)) [] [] [] threads false None.

Definition Overloaded (s : hc_state) : bool := MaxQueuedBatches config / 2 <? len (hc_tasksQ s).

(** What a worker does with a batch: [t.SetResult(v.Validate(t.Event()))] for each
    task, in order. *)
Definition loop_op (tasks : list T) : list (T * R) := (λ t, (t, validate t)) <$> tasks.

Inductive hc_step : hc_state → hc_state → Prop :=
  | hc_send tasks start q w v n quit r :
      (** [case v.tasksQ <- op: continue]: there is room in the channel *)
      start < len tasks → len q < MaxQueuedBatches config →
      hc_step (mkHC (Some (tasks, start)) q w v n quit r)
        (mkHC (Some (tasks, start + MaxBatch config)) (q ++ [batch_at tasks start]) w v n quit r)
  | hc_terminated tasks start q w v n r :
      (** [case <-v.quit: return errTerminated] *)
      start < len tasks →
      hc_step (mkHC (Some (tasks, start)) q w v n true r)
        (mkHC None q w v n true (Some (Err errTerminated)))
  | hc_enqueued tasks start q w v n quit r :
      len tasks <= start →
      hc_step (mkHC (Some (tasks, start)) q w v n quit r)
        (mkHC None q w v n quit (Some (Ok tt)))
  | hc_take c b q w v n quit r :
      (** [case op := <-v.tasksQ], by one of the idle workers *)
      len w < n →
      hc_step (mkHC c (b :: q) w v n quit r) (mkHC c q (w ++ [b]) v n quit r)
  | hc_finish c q w1 b w2 v n quit r :
      (** the batch is validated, then [op.onValidated(op.Tasks)] *)
      hc_step (mkHC c q (w1 ++ b :: w2) v n quit r)
        (mkHC c q (w1 ++ w2) (v ++ [loop_op b]) n quit r)
  | hc_stop c q w v n r :
      (** [close(v.quit)] *)
      hc_step (mkHC c q w v n false r) (mkHC c q w v n true r)
  | hc_exit c q w v n r :
      (** [case <-v.quit: return] of an idle worker *)
      len w < n →
      hc_step (mkHC c q w v n true r) (mkHC c q w v (n - 1) true r).

(** Tasks the caller has not sent yet. *)
Definition unsent (s : hc_state) : list T :=
  match hc_caller s with
  | Some (tasks, start) => drop (Z.to_nat start) tasks
  | None => []
  end.

(** Every task that entered the system, wherever it is now. *)
Definition in_system (s : hc_state) : list T :=
  (concat (hc_validated s)).*1 ++ concat (hc_working s) ++ concat (hc_tasksQ s) ++ unsent s.

Definition hc_inv (tasks : list T) (s : hc_state) : Prop :=
  (hc_result s ≠ Some (Err errTerminated) → in_system s ≡ₚ tasks) ∧
  (hc_result s = Some (Err errTerminated) → in_system s ⊆+ tasks ∧ hc_quit s = true) ∧
  Forall (λ p, p.2 = validate p.1) (concat (hc_validated s)) ∧
  len (hc_tasksQ s) <= Z.max 0 (MaxQueuedBatches config) ∧
  Forall (λ b, len b <= MaxBatch config) (hc_tasksQ s ++ hc_working s) ∧
  len (hc_working s) <= hc_workers s ∧
  (∀ ts start, hc_caller s = Some (ts, start) → ts = tasks ∧ 0 <= start ∧ hc_result s = None).

Context (HMaxBatch : 0 < MaxBatch config).

Lemma batch_at_drop tasks start :
  0 <= start < len tasks →
  batch_at tasks start ++ drop (Z.to_nat (start + MaxBatch config)) tasks =
  drop (Z.to_nat start) tasks.
Proof using HMaxBatch.
  intros Hs. unfold batch_at. destruct (Z.ltb_spec (start + MaxBatch config) (len tasks)).
  - replace (Z.to_nat (start + MaxBatch config)) with
      (Z.to_nat start + Z.to_nat (start + MaxBatch config - start))%nat by lia.
    rewrite <- drop_drop. apply take_drop.
  - unfold len in *. rewrite take_ge by (rewrite length_drop; lia).
    rewrite (drop_ge _ (Z.to_nat (start + _))) by lia. by rewrite app_nil_r.
Qed.

Lemma batch_at_len tasks start : 0 <= start < len tasks → 0 < len (batch_at tasks start) <= MaxBatch config.
Proof using HMaxBatch.
  intros Hs. unfold batch_at, len in *. rewrite length_take, length_drop.
  destruct (Z.ltb_spec (start + MaxBatch config) (Z.of_nat (length tasks))); lia.
Qed.

Lemma hc_inv_init tasks threads : 0 <= threads → hc_inv tasks (hc_init tasks threads).
Proof using.
  intros. unfold hc_inv, in_system, unsent. cbn. split_and!; try done; try lia.
  - unfold len. cbn. lia.
  - intros ts start [= <- <-]. done.
Qed.

Lemma hc_inv_step tasks s s' : hc_inv tasks s → hc_step s s' → hc_inv tasks s'.
Proof using HMaxBatch.
  intros Hinv Hst. destruct Hst; unfold hc_inv, in_system, unsent in *; cbn in *;
    destruct Hinv as (HA & HB & HC & HD & HE & HF & HG).
  - destruct (HG _ _ eq_refl) as (-> & Hst & ->).
    rewrite concat_app. cbn. rewrite app_nil_r, <- app_assoc, batch_at_drop by lia.
    split_and!; try done.
    + unfold len in *. rewrite length_app. cbn. lia.
    + rewrite <- app_assoc. apply Forall_app in HE as [HE1 HE2]. rewrite !Forall_app.
      split_and!; [done| |done]. apply Forall_singleton. by apply batch_at_len.
    + intros ts start' [= <- <-]. split_and!; [done|lia|done].
  - destruct (HG _ _ eq_refl) as (-> & Hst & ->). split_and!; try done.
    intros _. split; [|done]. rewrite app_nil_r. rewrite <- (HA ltac:(done)), !app_assoc.
    apply submseteq_inserts_r. done.
  - destruct (HG _ _ eq_refl) as (-> & Hst & ->).
    rewrite drop_ge in HA by (unfold len in *; lia). split_and!; try done. intros _. by apply HA.
  - rewrite concat_app. cbn. rewrite app_nil_r, <- !app_assoc in *. split_and!; try done.
    + unfold len in *. cbn in *. lia.
    + cbn in HE. apply Forall_cons in HE as [Hb HE]. apply Forall_app in HE as [HE1 HE2].
      rewrite !Forall_app, Forall_singleton. done.
    + unfold len in *. rewrite length_app. cbn. lia.
  - rewrite !concat_app in *. cbn in *. rewrite app_nil_r in *. rewrite fmap_app.
    assert (Hf : (loop_op b).*1 = b).
    { unfold loop_op. rewrite <- list_fmap_compose. cbn. apply list_fmap_id. }
    rewrite Hf.
    assert (Hp : ((concat v).*1 ++ b) ++ (concat w1 ++ concat w2) ++ concat q ++
        match c with Some (ts, st) => drop (Z.to_nat st) ts | None => [] end ≡ₚ
      (concat v).*1 ++ (concat w1 ++ b ++ concat w2) ++ concat q ++
        match c with Some (ts, st) => drop (Z.to_nat st) ts | None => [] end).
    { solve_Permutation. }
    rewrite Hp. split_and!; try done.
    + rewrite Forall_app. split; [done|]. apply Forall_fmap, Forall_true. done.
    + rewrite !Forall_app, Forall_cons in *. tauto.
    + unfold len in *. rewrite !length_app in *. cbn in *. lia.
  - split_and!; try done. intros Hr. destruct (HB Hr) as [_ ?]. done.
  - split_and!; try done. lia.
Qed.

Lemma hc_inv_reachable tasks threads s :
  0 <= threads → rtc hc_step (hc_init tasks threads) s → hc_inv tasks s.
Proof using HMaxBatch.
  intros Ht Hr. apply (rtc_ind_r (hc_inv tasks) (hc_init tasks threads)) in Hr;
    [done|by apply hc_inv_init|]. intros s1 s2 _ Hst Hi. by eapply hc_inv_step.
Qed.

(** ** Termination and progress *)

(** A measure that every step decreases. *)
Definition hc_measure (s : hc_state) : Z :=
  3 * len (unsent s) + 2 * len (hc_tasksQ s) + len (hc_working s) + Z.max 0 (hc_workers s)
  + (if hc_caller s then 1 else 0) + (if hc_quit s then 0 else 1).

Lemma hc_measure_nonneg s : 0 <= hc_measure s.
Proof using.
  unfold hc_measure. pose proof (len_nonneg (unsent s)). pose proof (len_nonneg (hc_tasksQ s)).
  pose proof (len_nonneg (hc_working s)). destruct (hc_caller s), (hc_quit s); lia.
Qed.

Lemma hc_measure_init tasks threads :
  0 <= threads → hc_measure (hc_init tasks threads) = 3 * len tasks + threads + 2.
Proof using.
  intros. unfold hc_measure, unsent, hc_init. cbn [hc_caller hc_tasksQ hc_working hc_workers hc_quit].
  change (Z.to_nat 0) with 0%nat. rewrite drop_0. change (@len (list T) []) with 0. lia.
Qed.

Lemma hc_measure_step tasks s s' : hc_inv tasks s → hc_step s s' → hc_measure s' < hc_measure s.
Proof using HMaxBatch.
  intros Hinv Hst. pose proof Hinv as (_ & _ & _ & _ & _ & HF & HG).
  destruct Hst; unfold hc_measure, unsent; cbn in *.
  - destruct (HG _ _ eq_refl) as (-> & Hs & _).
    pose proof (batch_at_drop tasks start ltac:(lia)) as Hd.
    pose proof (batch_at_len tasks start ltac:(lia)).
    rewrite <- Hd, !len_app. change (len [batch_at tasks start]) with 1. destruct quit; lia.
  - pose proof (len_nonneg (drop (Z.to_nat start) tasks0)). change (len []) with 0. lia.
  - pose proof (len_nonneg (drop (Z.to_nat start) tasks0)). change (len []) with 0. destruct quit; lia.
  - rewrite len_app. unfold len. cbn. destruct quit, c; lia.
  - rewrite !len_app. unfold len. cbn. destruct quit, c; lia.
  - destruct c; lia.
  - pose proof (len_nonneg w). destruct c; lia.
Qed.

Lemma hc_steps_bound tasks s n s' :
  hc_inv tasks s → nsteps hc_step n s s' → Z.of_nat n + hc_measure s' <= hc_measure s.
Proof using HMaxBatch.
  intros Hinv Hn. induction Hn as [s|n s s1 s2 Hst Hn IH]; [lia|].
  pose proof (hc_measure_step _ _ _ Hinv Hst).
  specialize (IH (hc_inv_step _ _ _ Hinv Hst)). lia.
Qed.

(** The call has returned and nothing is in the channel or being validated. *)
Definition hc_done (s : hc_state) : Prop :=
  hc_caller s = None ∧ hc_tasksQ s = [] ∧ hc_working s = [].

Lemma hc_done_dec s : Decision (hc_done s).
Proof using.
  destruct s as [[] [|] [|] ? ? ? ?]; ((left; done) || (right; by intros (? & ? & ?))).
Defined.

Lemma hc_progress tasks s :
  0 < MaxQueuedBatches config → hc_inv tasks s → hc_quit s = false → 0 < hc_workers s →
  ¬ hc_done s → ∃ s', hc_step s s' ∧ hc_quit s' = false ∧ hc_workers s' = hc_workers s.
Proof using.
  intros HQ Hinv Hq Hw Hnd. destruct s as [c q w v n quit r]. cbn in *. subst.
  destruct w as [|b w].
  - destruct q as [|b q].
    + destruct c as [[ts start]|]; [|by destruct Hnd].
      destruct (decide (start < len ts)).
      * eexists. split; [by apply hc_send; [|unfold len; cbn]|done].
      * eexists. split; [apply hc_enqueued; lia|done].
    + eexists. split; [by apply hc_take|done].
  - eexists. split; [apply (hc_finish c q [] b w)|done].
Qed.

(** Without [Stop], the call returns nil. *)
Definition hc_res_inv (s : hc_state) : Prop :=
  hc_caller s = None → hc_quit s = false → hc_result s = Some (Ok tt).

Lemma hc_res_reachable tasks threads s :
  rtc hc_step (hc_init tasks threads) s → hc_res_inv s.
Proof using.
  intros Hr. apply (rtc_ind_r hc_res_inv (hc_init tasks threads)) in Hr; [done| |].
  - by intros [=].
  - intros s1 s2 _ Hst Hi. unfold hc_res_inv in *. destruct Hst; cbn in *; naive_solver.
Qed.

Lemma hc_returned tasks threads s :
  rtc hc_step (hc_init tasks threads) s → hc_done s → hc_quit s = false →
  hc_result s = Some (Ok tt).
Proof using. intros Hr (Hc & _ & _) Hq. by apply (hc_res_reachable _ _ _ Hr). Qed.

(** A sequence of steps without [Stop] that ends with the call done. *)
Lemma hc_completes tasks s :
  0 < MaxQueuedBatches config → hc_inv tasks s → hc_quit s = false → 0 < hc_workers s →
  ∃ s', rtc hc_step s s' ∧ hc_done s' ∧ hc_quit s' = false.
Proof using HMaxBatch.
  intros HQ. remember (Z.to_nat (hc_measure s)) as m eqn:Hm.
  revert s Hm. induction (lt_wf m) as [m _ IH]. intros s -> Hinv Hq Hw.
  destruct (hc_done_dec s) as [Hd|Hnd]; [by exists s|].
  destruct (hc_progress tasks s HQ Hinv Hq Hw Hnd) as (s1 & Hst & Hq1 & Hw1).
  pose proof (hc_measure_step _ _ _ Hinv Hst). pose proof (hc_measure_nonneg s1).
  destruct (IH (Z.to_nat (hc_measure s1)) ltac:(lia) s1 eq_refl (hc_inv_step _ _ _ Hinv Hst) Hq1
    ltac:(lia)) as (s2 & Hr & ? & ?).
  exists s2. split; [by eapply rtc_l|done].
Qed.

(** ** The theorems *)

(** C37: however the caller, the workers and [Stop] interleave, no task is lost,
    duplicated or given another result than the validation of its event, the
    channel never holds more than its capacity, and a batch never more than
    [MaxBatch] tasks; when the call has returned without error and the queue is
    drained, every task was validated exactly once. *)
Theorem heavy_queue_safety tasks threads s :
  0 <= threads → rtc hc_step (hc_init tasks threads) s →
  in_system s ⊆+ tasks ∧
  Forall (λ p, p.2 = validate p.1) (concat (hc_validated s)) ∧
  len (hc_tasksQ s) <= Z.max 0 (MaxQueuedBatches config) ∧
  Forall (λ b, len b <= MaxBatch config) (hc_tasksQ s ++ hc_working s) ∧
  (hc_result s = Some (Ok tt) → hc_tasksQ s = [] → hc_working s = [] →
   (concat (hc_validated s)).*1 ≡ₚ tasks).
Proof using HMaxBatch.
  intros Ht Hr. destruct (hc_inv_reachable _ _ _ Ht Hr) as (HA & HB & HC & HD & HE & HF & HG).
  split_and!; try done.
  - destruct (decide (hc_result s = Some (Err errTerminated))) as [Hb|Hb].
    + by apply HB.
    + by rewrite (HA Hb).
  - intros Hres Hq Hw. rewrite <- (HA ltac:(by rewrite Hres)). unfold in_system.
    rewrite Hq, Hw. cbn. unfold unsent. destruct (hc_caller s) as [[ts st]|] eqn:Hc.
    + destruct (HG _ _ eq_refl) as (_ & _ & Hn). congruence.
    + by rewrite app_nil_r.
Qed.

(** C38: the system terminates: every execution has a bounded number of steps, and
    while it is not stopped and has a worker it can always go on until the call
    has returned and every task is validated. *)
Theorem heavy_queue_liveness tasks threads s n :
  0 < threads → 0 < MaxQueuedBatches config → nsteps hc_step n (hc_init tasks threads) s →
  Z.of_nat n <= 3 * len tasks + threads + 2 ∧
  (hc_quit s = false → 0 < hc_workers s →
   ∃ s', rtc hc_step s s' ∧ hc_done s' ∧ hc_result s' = Some (Ok tt) ∧
     (concat (hc_validated s')).*1 ≡ₚ tasks).
Proof using HMaxBatch.
  intros Ht HQ Hn. pose proof (hc_inv_init tasks threads ltac:(lia)) as Hinit. split.
  - pose proof (hc_steps_bound _ _ _ _ Hinit Hn) as Hb. pose proof (hc_measure_nonneg s).
    rewrite hc_measure_init in Hb; lia.
  - intros Hq Hw. apply rtc_nsteps_2 in Hn.
    pose proof (hc_inv_reachable tasks threads s ltac:(lia) Hn) as Hinv.
    destruct (hc_completes tasks s HQ Hinv Hq Hw) as (s' & Hr & Hd & Hq').
    assert (Hr' : rtc hc_step (hc_init tasks threads) s') by (by etrans).
    exists s'. split_and!; [done..| |].
    + by apply (hc_returned tasks threads s').
    + destruct (hc_inv_reachable tasks threads s' ltac:(lia) Hr') as (HA & _).
      rewrite <- HA.
      * destruct Hd as (Hc & Hq'' & Hw''). unfold in_system, unsent. rewrite Hc, Hq'', Hw''.
        cbn. by rewrite app_nil_r.
      * rewrite (hc_returned tasks threads s') by done. done.
Qed.
End heavy.

(** ** eventcheck/parentlesscheck *)

Section parentless.
Context {T I : Type}.
Variable event_ID : T → I.
Variable OnlyInterested : list I → list I.
Variable LightCheck : T → option error.

(** The loop over the tasks: the callbacks made ([SetResult] then [checked]) and
    the tasks that passed, both in order. *)
Fixpoint parentless_loop (tasks : list T) (checked : list (T * error)) (passed : list T)
  : list (T * error) * list T :=
  match tasks with
  | [] => (checked, passed)
  | t :: tasks' =>
      if len (OnlyInterested [event_ID t]) =? 0
      then parentless_loop tasks' (checked ++ [(t, ErrNotRelevant)]) passed
      else match LightCheck t with
           | Some err => parentless_loop tasks' (checked ++ [(t, err)]) passed
           | None => parentless_loop tasks' checked (passed ++ [t])
           end
  end.

(** [HeavyCheck.Enqueue(passed, checked)] comes last. *)
Definition parentless_Enqueue {A} (HeavyEnqueue : list T → res A) (tasks : list T)
  : list (T * error) * res A :=
  let '(checked, passed) := parentless_loop tasks [] [] in
  (checked, HeavyEnqueue passed).

Definition verdict (t : T) : option error :=
  if len (OnlyInterested [event_ID t]) =? 0 then Some ErrNotRelevant else LightCheck t.

Lemma parentless_loop_spec tasks checked passed :
  parentless_loop tasks checked passed =
  (checked ++ omap (λ t, pair t <$> verdict t) tasks,
   passed ++ filter (λ t, verdict t = None) tasks).
Proof.
  revert checked passed. induction tasks as [|t tasks IH]; intros checked passed.
  { cbn. by rewrite !app_nil_r. }
  cbn [parentless_loop omap list_omap]. rewrite filter_cons.
  destruct (verdict t) as [err|] eqn:Ev; unfold verdict in Ev.
  - rewrite decide_False by done. cbn [fmap option_fmap option_map].
    destruct (len (OnlyInterested [event_ID t]) =? 0); [|rewrite Ev]; simplify_eq;
      rewrite IH, <- app_assoc; done.
  - rewrite decide_True by done.
    destruct (len (OnlyInterested [event_ID t]) =? 0); [done|]. by rewrite Ev, IH, <- app_assoc.
Qed.

(** The light checks split the tasks: those refused get exactly the verdict of
    the filter and of the light check, in order, and exactly the others, in order,
    go to the heavy check. *)
Theorem parentless_split {A} (HeavyEnqueue : list T → res A) tasks :
  parentless_Enqueue HeavyEnqueue tasks =
  (omap (λ t, pair t <$> verdict t) tasks,
   HeavyEnqueue (filter (λ t, verdict t = None) tasks)).
Proof. unfold parentless_Enqueue. by rewrite parentless_loop_spec. Qed.
End parentless.

(** ** Concrete runs *)

Definition demo_heavy : HeavyConfig := mkHeavyConfig 128 8 0.

Lemma demo_sent :
  rtc (hc_step demo_heavy (λ x : nat, (x * 2)%nat)) (hc_init [1; 2; 3]%nat 1)
    (mkHC (Some ([1; 2; 3]%nat, 8)) [[1; 2; 3]%nat] [] [] 1 false None).
Proof. apply rtc_once. by apply (hc_send demo_heavy _ [1; 2; 3]%nat 0 [] [] [] 1 false None). Qed.

Lemma heavy_queue_safety_witness :
  Forall (λ b, len b <= 8) ([[1; 2; 3]%nat] ++ []).
Proof.
  destruct (heavy_queue_safety demo_heavy (λ x : nat, (x * 2)%nat) ltac:(done) [1; 2; 3]%nat 1 _
    ltac:(done) demo_sent) as (_ & _ & _ & Hb & _).
  exact Hb.
Defined.

Lemma heavy_queue_liveness_witness :
  ∃ s', rtc (hc_step demo_heavy (λ x : nat, (x * 2)%nat)) (hc_init [1; 2; 3]%nat 1) s' ∧
    hc_done s' ∧ hc_result s' = Some (Ok tt) ∧ (concat (hc_validated s')).*1 ≡ₚ [1; 2; 3]%nat.
Proof.
  destruct (heavy_queue_liveness demo_heavy (λ x : nat, (x * 2)%nat) ltac:(done) [1; 2; 3]%nat 1
    (hc_init [1; 2; 3]%nat 1) 0 ltac:(done) ltac:(done) ltac:(constructor)) as (_ & Hl).
  apply Hl; done.
Defined.
