(* ===== verification/Vecmt.v ===== *)
(** * Vector clocks with times and the median time (vecmt/)

    [HighestBeforeTime] is a byte vector of 64-bit times; [HighestBefore] pairs it
    with the sequence vector of the consensus library (the class [SeqVec]).
    The median time is the weighted median of the times claimed by the highest
    observed events of the validators that are not known to have forked. *)

From stdpp Require Import sorting.
From Stdlib Require Import Sorted.
From S2P Require Import Prelude Cser Inter Instances Pos GasPower.

(** ** vecmt/vector.go *)

Definition HighestBeforeTime : Type := list Z.

Definition le64 (v : Z) : list Z := (λ i, u8 (Z.shiftr v (8 * Z.of_nat i))) <$> seq 0 8.

(** Indexes of validators are 32 bits wide, and so are the offsets. *)
Definition NewHighestBeforeTime (size : Z) : HighestBeforeTime := replicate (Z.to_nat (u32 (size * 8))) 0.

Definition Time_Size (b : HighestBeforeTime) : Z := u32 (len b / 8).

(** [b[lo:hi]]: out of range is a panic. *)
Definition slice (b : list Z) (lo hi : Z) : res (list Z) :=
  if (lo <=? hi) && (hi <=? len b) then Ok (take (Z.to_nat (hi - lo)) (drop (Z.to_nat lo) b))
  else Panic.

Definition Time_Get (b : HighestBeforeTime) (i : Z) : res Z :=
  if Time_Size b <=? i then Ok 0
  else le_val <$> slice b (u32 (i * 8)) (u32 (u32 (i + 1) * 8)).

(** [for i >= b.Size() { append eight zeros }] *)
Fixpoint Set_grow (fuel : nat) (b : HighestBeforeTime) (i : Z) : HighestBeforeTime :=
  match fuel with
  | O => b
  | S fuel' => if Time_Size b <=? i then Set_grow fuel' (b ++ replicate 8 0) i else b
  end.

(** [PutUint64] writes into the slice. *)
Definition put_slice (b : list Z) (lo hi : Z) (v : list Z) : res (list Z) :=
  if (lo <=? hi) && (hi <=? len b)
  then Ok (take (Z.to_nat lo) b ++ v ++ drop (Z.to_nat hi) b)
  else Panic.

Definition Time_Set (b : HighestBeforeTime) (i time : Z) : res HighestBeforeTime :=
  let b := Set_grow (S (Z.to_nat i)) b i in
  put_slice b (u32 (i * 8)) (u32 (u32 (i + 1) * 8)) (le64 time).

(** A vector of whole cells whose indexes do not overflow. *)
Definition Time_ok (b : HighestBeforeTime) : Prop :=
  len b mod 8 = 0 ∧ len b < 2 ^ 32 ∧ bytes_ok b.

(** The abstract view: a function from indexes to times. *)
Definition time_at (b : HighestBeforeTime) (i : Z) : Z := le_val (take 8 (drop (Z.to_nat (i * 8)) b)).

Lemma le_val_zeros n : le_val (replicate n 0) = 0.
Proof. unfold le_val. induction n as [|n IH]; [done|]. cbn. rewrite IH. done. Qed.

Lemma le64_spec v : is_u64 v → length (le64 v) = 8%nat ∧ bytes_ok (le64 v) ∧ le_val (le64 v) = v.
Proof.
  intros Hv. split; [done|]. split.
  - unfold le64. apply Forall_fmap, Forall_true. intros i. apply u8_range.
  - unfold le64, le_val. cbn. rewrite !Z.shiftr_div_pow2 by lia.
    change (2 ^ 0) with 1. rewrite Z.div_1_r. unfold is_u64, u8 in *. clear -Hv.
    Z.div_mod_to_equations. lia.
Qed.

Lemma Time_Size_ok b : Time_ok b → Time_Size b = len b / 8.
Proof.
  intros (_ & Hl & _). unfold Time_Size. apply u32_id. pose proof (len_nonneg b).
  unfold is_u32. split; [by apply Z.div_pos|]. apply Z.div_lt_upper_bound; lia.
Qed.

Lemma Time_Get_spec b i : Time_ok b → 0 <= i → Time_Get b i = Ok (time_at b i).
Proof.
  intros Hb Hi. unfold Time_Get, time_at. rewrite Time_Size_ok by done.
  destruct Hb as (Hm & Hl & _). pose proof (len_nonneg b).
  destruct (Z.leb_spec (len b / 8) i) as [Hge|Hlt].
  - rewrite drop_ge by (unfold len in *; go_lia). done.
  - assert ((i + 1) * 8 <= len b) by go_lia.
    rewrite (u32_id (i + 1)), !u32_id by (unfold is_u32; lia). unfold slice.
    rewrite !(proj2 (Z.leb_le _ _)) by lia. cbn [andb fmap res_fmap].
    replace (Z.to_nat ((i + 1) * 8 - i * 8)) with 8%nat by lia. done.
Qed.

Lemma Set_grow_spec fuel b i :
  Time_ok b → 0 <= i → (i + 1) * 8 < 2 ^ 32 → i < len b / 8 + Z.of_nat fuel →
  ∃ n, Set_grow fuel b i = b ++ replicate n 0 ∧ Time_ok (b ++ replicate n 0) ∧
    (i + 1) * 8 <= len (b ++ replicate n 0).
Proof.
  revert b. induction fuel as [|fuel IH]; intros b Hb Hi Hmax Hf.
  { exists 0%nat. cbn. rewrite app_nil_r. split_and!; try done. destruct Hb as (Hm & _). go_lia. }
  cbn [Set_grow]. rewrite Time_Size_ok by done. destruct (Z.leb_spec (len b / 8) i) as [Hle|Hgt].
  - assert (Hb' : Time_ok (b ++ replicate 8 0)).
    { destruct Hb as (Hm & Hl & Hbb). unfold Time_ok. rewrite len_app.
      change (len (replicate 8 0)) with 8. split_and!; [go_lia|go_lia|].
      apply Forall_app. split; [done|]. by apply Forall_replicate. }
    destruct (IH _ Hb' Hi Hmax) as (n & E & Hok & Hlen).
    { rewrite len_app. change (len (replicate 8 0)) with 8. destruct Hb as (Hm & _). go_lia. }
    exists (8 + n)%nat. rewrite replicate_add, app_assoc. done.
  - exists 0%nat. cbn. rewrite app_nil_r. split_and!; try done. destruct Hb as (Hm & _). go_lia.
Qed.

Lemma time_at_zeros b n j : 0 <= j → len b mod 8 = 0 → time_at (b ++ replicate n 0) j = time_at b j.
Proof.
  intros Hj Hm. unfold time_at. rewrite drop_app, take_app.
  destruct (decide ((j + 1) * 8 <= len b)) as [Hlt|Hge].
  - replace (8 - length (drop (Z.to_nat (j * 8)) b))%nat with 0%nat
      by (unfold len in *; rewrite length_drop; lia). cbn. by rewrite app_nil_r.
  - rewrite !(drop_ge b) by (unfold len in *; go_lia). cbn.
    rewrite drop_replicate, take_replicate. change (le_val (take 8 [])) with 0.
    cbn. apply le_val_zeros.
Qed.

Lemma time_at_put b i v j :
  0 <= i → 0 <= j → (i + 1) * 8 <= len b → length v = 8%nat →
  time_at (take (Z.to_nat (i * 8)) b ++ v ++ drop (Z.to_nat ((i + 1) * 8)) b) j =
  if decide (j = i) then le_val v else time_at b j.
Proof.
  intros Hi Hj Hl Hv. unfold time_at. unfold len in Hl.
  assert (Ht : length (take (Z.to_nat (i * 8)) b) = Z.to_nat (i * 8)) by (rewrite length_take; lia).
  case_decide as Hji.
  - subst j. rewrite drop_app_ge, Ht, Nat.sub_diag by lia.
    rewrite drop_0. by rewrite take_app_length' by done.
  - destruct (decide (j < i)).
    + rewrite drop_app_le by lia. rewrite take_app_le by (rewrite length_drop; lia).
      rewrite !take_drop_commute, take_take. do 3 f_equal. lia.
    + rewrite drop_app_ge by lia. rewrite drop_app_ge by lia. rewrite Ht, Hv, drop_drop.
      do 3 f_equal. lia.
Qed.

Lemma Time_Set_spec b i time :
  Time_ok b → 0 <= i → (i + 1) * 8 < 2 ^ 32 → is_u64 time →
  ∃ b', Time_Set b i time = Ok b' ∧ Time_ok b' ∧
    ∀ j, 0 <= j → time_at b' j = if decide (j = i) then time else time_at b j.
Proof.
  intros Hb Hi Hmax Ht. destruct (le64_spec time Ht) as (Hl8 & Hb8 & Hv8).
  destruct (Set_grow_spec (S (Z.to_nat i)) b i Hb Hi Hmax) as (n & E & Hok & Hlen).
  { pose proof (Z.div_pos (len b) 8 (len_nonneg b) eq_refl). lia. }
  unfold Time_Set. rewrite E. set (b1 := b ++ replicate n 0) in *.
  rewrite (u32_id (i + 1)), !u32_id by (unfold is_u32; lia). unfold put_slice.
  rewrite !(proj2 (Z.leb_le _ _)) by lia. cbn [andb]. eexists. split; [done|].
  destruct Hok as (Hm & Hl & Hbb). split.
  - assert (Hlen' : len (take (Z.to_nat (i * 8)) b1 ++ le64 time ++ drop (Z.to_nat ((i + 1) * 8)) b1) = len b1).
    { unfold len in *. rewrite !length_app, length_take, length_drop, Hl8. lia. }
    unfold Time_ok. rewrite Hlen'. split_and!; [done..|].
    unfold bytes_ok. rewrite !Forall_app.
    split_and!; [by apply Forall_take|done|by apply Forall_drop].
  - intros j Hj. rewrite time_at_put, Hv8 by (done || lia). case_decide; [done|].
    apply time_at_zeros; [done|]. apply Hb.
Qed.

(** ** vecmt/vector_ops.go *)

Record BranchSeq := mkBranchSeq { bs_Seq : Z; bs_MinSeq : Z }.

(** What the code uses of [vecfc.HighestBeforeSeq]. *)
Class SeqVec (S : Type) := {
  Seq_Get : S → Z → BranchSeq;
  Seq_Set : S → Z → BranchSeq → S;
  Seq_SetForkDetected : S → Z → S;
  IsForkDetected : BranchSeq → bool;
}.

Class SeqVecLaws (S : Type) `{SeqVec S} := {
  Seq_Get_Set : ∀ v i j x, Seq_Get (Seq_Set v i x) j = if decide (j = i) then x else Seq_Get v j;
  Seq_Fork_same : ∀ v i, IsForkDetected (Seq_Get (Seq_SetForkDetected v i) i) = true;
  Seq_Fork_other : ∀ v i j, j ≠ i → Seq_Get (Seq_SetForkDetected v i) j = Seq_Get v j;
}.

Record HighestBefore (S : Type) := mkHighestBefore { VSeq : S; VTime : HighestBeforeTime }.
Arguments mkHighestBefore {S}. Arguments VSeq {S}. Arguments VTime {S}.

Section ops.
Context {S : Type} `{SeqVec S}.

(** The body of the loop of [CollectFrom]. *)
Definition collect_one (other self : HighestBefore S) (branchID : Z) : res (HighestBefore S) :=
  let hisSeq := Seq_Get (VSeq other) branchID in
  if (bs_Seq hisSeq =? 0) && negb (IsForkDetected hisSeq) then Ok self
  else
    let mySeq := Seq_Get (VSeq self) branchID in
    if IsForkDetected mySeq then Ok self
    else if IsForkDetected hisSeq
    then Ok (mkHighestBefore (Seq_SetForkDetected (VSeq self) branchID) (VTime self))
    else
      let '(mySeq, self) :=
        (if (bs_Seq mySeq =? 0) || (bs_MinSeq hisSeq <? bs_MinSeq mySeq)
         then let mySeq := mkBranchSeq (bs_Seq mySeq) (bs_MinSeq hisSeq) in
              (mySeq, mkHighestBefore (Seq_Set (VSeq self) branchID mySeq) (VTime self))
         else (mySeq, self)) in
      if bs_Seq mySeq <? bs_Seq hisSeq then
        let mySeq := mkBranchSeq (bs_Seq hisSeq) (bs_MinSeq mySeq) in
        t ← Time_Get (VTime other) branchID;
        vt ← Time_Set (VTime self) branchID t;
        Ok (mkHighestBefore (Seq_Set (VSeq self) branchID mySeq) vt)
      else Ok self.

(** [for branchID := 0; branchID < num; branchID++] *)
Fixpoint collect_loop (n : nat) (branchID : Z) (other self : HighestBefore S) : res (HighestBefore S) :=
  match n with
  | O => Ok self
  | Datatypes.S n' => self ← collect_one other self branchID; collect_loop n' (branchID + 1) other self
  end.

Definition CollectFrom (self other : HighestBefore S) (num : Z) : res (HighestBefore S) :=
  collect_loop (Z.to_nat num) 0 other self.

Fixpoint gather_loop (other : HighestBefore S) (from : list Z) (hseq : BranchSeq) (htime : Z)
  : res (BranchSeq * Z) :=
  match from with
  | [] => Ok (hseq, htime)
  | branchID :: from' =>
      let vseq := Seq_Get (VSeq other) branchID in
      vtime ← Time_Get (VTime other) branchID;
      if IsForkDetected vseq then Ok (vseq, htime)
      else if bs_Seq hseq <? bs_Seq vseq then gather_loop other from' vseq vtime
      else gather_loop other from' hseq htime
  end.

Definition GatherFrom (self : HighestBefore S) (to : Z) (other : HighestBefore S) (from : list Z)
  : res (HighestBefore S) :=
  '(hseq, htime) ← gather_loop other from (mkBranchSeq 0 0) 0;
  vt ← Time_Set (VTime self) to htime;
  Ok (mkHighestBefore (Seq_Set (VSeq self) to hseq) vt).

(** ** The pointwise specification of a merge *)

Definition observes_nothing (b : BranchSeq) : bool := (bs_Seq b =? 0) && negb (IsForkDetected b).

(** The merged cell: a fork wins, then the higher sequence number with its time;
    the lower of the minimal sequence numbers is kept. *)
Definition merged (mine his : BranchSeq * Z) (out : BranchSeq * Z) : Prop :=
  if observes_nothing his.1 then out = mine
  else if IsForkDetected mine.1 then out = mine
  else if IsForkDetected his.1 then IsForkDetected out.1 = true ∧ out.2 = mine.2
  else
    out = (mkBranchSeq (Z.max (bs_Seq mine.1) (bs_Seq his.1))
             (if (bs_Seq mine.1 =? 0) || (bs_MinSeq his.1 <? bs_MinSeq mine.1)
              then bs_MinSeq his.1 else bs_MinSeq mine.1),
           if bs_Seq mine.1 <? bs_Seq his.1 then his.2 else mine.2).

Definition cell (v : HighestBefore S) (i : Z) : BranchSeq * Z := (Seq_Get (VSeq v) i, time_at (VTime v) i).

Context `{!SeqVecLaws S}.

Lemma time_at_range b i : bytes_ok b → is_u64 (time_at b i).
Proof.
  intros Hb. unfold time_at. set (l := take 8 _).
  assert (Hl : bytes_ok l) by (by apply Forall_take, Forall_drop).
  assert (length l <= 8)%nat by (subst l; rewrite length_take; lia).
  pose proof (le_val_range l Hl) as Hr. unfold is_u64. split; [lia|].
  eapply Z.lt_le_trans; [apply Hr|]. apply Z.pow_le_mono_r; unfold len; lia.
Qed.

Lemma collect_one_spec other self i :
  Time_ok (VTime other) → Time_ok (VTime self) → 0 <= i → (i + 1) * 8 < 2 ^ 32 →
  ∃ self', collect_one other self i = Ok self' ∧ Time_ok (VTime self') ∧
    merged (cell self i) (cell other i) (cell self' i) ∧
    ∀ j, 0 <= j → j ≠ i → cell self' j = cell self j.
Proof.
  intros Ho Hs Hi Hmax. unfold collect_one, merged, cell, observes_nothing. cbn [fst snd].
  set (his := Seq_Get (VSeq other) i). set (mine := Seq_Get (VSeq self) i).
  destruct ((bs_Seq his =? 0) && negb (IsForkDetected his)); [by exists self|].
  destruct (IsForkDetected mine) eqn:Hfm; [by exists self|].
  destruct (IsForkDetected his) eqn:Hfh.
  { eexists. split; [done|]. cbn. split_and!; [done|apply Seq_Fork_same|done|].
    intros j _ Hj. by rewrite Seq_Fork_other. }
  destruct ((bs_Seq mine =? 0) || (bs_MinSeq his <? bs_MinSeq mine)) eqn:Hmin; cbn [bs_Seq bs_MinSeq].
  - destruct (Z.ltb_spec (bs_Seq mine) (bs_Seq his)) as [Hlt|Hge].
    + rewrite Time_Get_spec by done. cbn [mbind res_bind].
      destruct (Time_Set_spec (VTime self) i (time_at (VTime other) i) Hs Hi Hmax) as (vt & E & Hok & Hat).
      { apply time_at_range, Ho. }
      cbn [VTime VSeq]. rewrite E. eexists. split; [done|]. cbn. split_and!; [done| |].
      * rewrite Seq_Get_Set, decide_True, Hat, decide_True, Z.max_r by (done || lia). done.
      * intros j Hj Hne. by rewrite !Seq_Get_Set, Hat, !decide_False.
    + eexists. split; [done|]. cbn. split_and!; [done| |].
      * rewrite Seq_Get_Set, decide_True, Z.max_l by (done || lia). done.
      * intros j Hj Hne. by rewrite Seq_Get_Set, decide_False.
  - destruct (Z.ltb_spec (bs_Seq mine) (bs_Seq his)) as [Hlt|Hge].
    + rewrite Time_Get_spec by done. cbn [mbind res_bind].
      destruct (Time_Set_spec (VTime self) i (time_at (VTime other) i) Hs Hi Hmax) as (vt & E & Hok & Hat).
      { apply time_at_range, Ho. }
      rewrite E. eexists. split; [done|]. cbn. split_and!; [done| |].
      * rewrite Seq_Get_Set, decide_True, Hat, decide_True, Z.max_r by (done || lia). done.
      * intros j Hj Hne. by rewrite !Seq_Get_Set, Hat, !decide_False.
    + eexists. split; [done|]. split_and!; [done| |done].
      fold mine. rewrite Z.max_l by lia. by destruct mine.
Qed.

Lemma collect_loop_spec n i other self :
  Time_ok (VTime other) → Time_ok (VTime self) → 0 <= i → (i + Z.of_nat n) * 8 < 2 ^ 32 →
  ∃ self', collect_loop n i other self = Ok self' ∧ Time_ok (VTime self') ∧
    (∀ j, i <= j < i + Z.of_nat n → merged (cell self j) (cell other j) (cell self' j)) ∧
    (∀ j, 0 <= j → j < i ∨ i + Z.of_nat n <= j → cell self' j = cell self j).
Proof.
  revert i self. induction n as [|n IH]; intros i self Ho Hs Hi Hmax; cbn [collect_loop].
  { exists self. split_and!; [done..| |done]. intros; lia. }
  destruct (collect_one_spec other self i Ho Hs Hi ltac:(lia)) as (s1 & E & Hs1 & Hm & Hoth).
  rewrite E. cbn [mbind res_bind].
  destruct (IH (i + 1) s1 Ho Hs1 ltac:(lia) ltac:(lia)) as (s2 & E2 & Hs2 & Hm2 & Hoth2).
  exists s2. split_and!; [done..| |].
  - intros j Hj. destruct (decide (j = i)) as [->|].
    + rewrite Hoth2 by lia. done.
    + rewrite <- (Hoth j) by lia. apply Hm2. lia.
  - intros j Hj Hout. rewrite Hoth2, Hoth by lia. done.
Qed.

(** merging the clock of a parent never fails and is a pointwise merge: on
    every branch a detected fork wins, otherwise the higher sequence number is kept
    with its own claimed time and the lower minimal sequence number; other branches
    keep their cells. *)
Theorem collect_from_merges self other num :
  Time_ok (VTime other) → Time_ok (VTime self) → 0 <= num → num * 8 < 2 ^ 32 →
  ∃ self', CollectFrom self other num = Ok self' ∧ Time_ok (VTime self') ∧
    (∀ j, 0 <= j < num → merged (cell self j) (cell other j) (cell self' j)) ∧
    (∀ j, num <= j → cell self' j = cell self j).
Proof.
  intros Ho Hs Hn Hmax. unfold CollectFrom.
  destruct (collect_loop_spec (Z.to_nat num) 0 other self Ho Hs ltac:(lia) ltac:(lia))
    as (s' & E & Hok & Hm & Hoth).
  exists s'. split_and!; [done..| |].
  - intros j Hj. apply Hm. lia.
  - intros j Hj. apply Hoth; lia.
Qed.
End ops.

(** ** vecmt/median_time.go *)

Record medianTimeIndex := mkMTI { mti_weight : Z; mti_creationTime : Z }.

Section median.
Context {S : Type} `{SeqVec S} {V : Type} `{Pos V}.

(** [sort.Slice] is not stable: any function that sorts by time may stand for it. *)
Variable sortSlice : list medianTimeIndex → list medianTimeIndex.

(** The loop over the validators; the total weight is a [uint32]. *)
Fixpoint highests_loop (validators : V) (before : HighestBefore S) (defaultTime : Z)
    (creatorIdx : Z) (ids : list Z) (honestTotalWeight : Z) : res (list medianTimeIndex * Z) :=
  match ids with
  | [] => Ok ([], honestTotalWeight)
  | _ :: ids' =>
      let weight := vv_GetWeightByIdx validators creatorIdx in
      creationTime ← Time_Get (VTime before) creatorIdx;
      let seq := Seq_Get (VSeq before) creatorIdx in
      let highest :=
        if IsForkDetected seq then mkMTI 0 creationTime
        else if bs_Seq seq =? 0 then mkMTI weight defaultTime
        else mkMTI weight creationTime in
      '(l, t) ← highests_loop validators before defaultTime (creatorIdx + 1) ids'
                  (u32 (honestTotalWeight + mti_weight highest));
      Ok (highest :: l, t)
  end.

(** [for _, highest := range highests { ...; break }]: the median and the weight. *)
Fixpoint median_loop (highests : list medianTimeIndex) (halfWeight currWeight : Z) : Z * Z :=
  match highests with
  | [] => (0, currWeight)
  | h :: hs =>
      let currWeight := u32 (currWeight + mti_weight h) in
      if halfWeight <=? currWeight then (mti_creationTime h, currWeight)
      else median_loop hs halfWeight currWeight
  end.

(** [vi.crit] stops the node: a panic. *)
Definition MedianTime (validators : V) (GetMergedHighestBefore : option (HighestBefore S))
    (defaultTime : Z) : res Z :=
  before ← deref GetMergedHighestBefore;
  '(highests, honestTotalWeight) ←
    highests_loop validators before defaultTime 0 (vv_IDs validators) 0;
  let highests := sortSlice highests in
  let halfWeight := honestTotalWeight / 2 in
  let '(median, currWeight) := median_loop highests halfWeight 0 in
  if (currWeight <? halfWeight) || (honestTotalWeight <? currWeight) then Panic
  else Ok median.

(** ** Weighted medians *)

Definition weight_where (P : Z → Prop) `{∀ t, Decision (P t)} (l : list medianTimeIndex) : Z :=
  sum_Z (mti_weight <$> filter (λ h, P (mti_creationTime h)) l).

Definition total_weight (l : list medianTimeIndex) : Z := sum_Z (mti_weight <$> l).

(** The least time of the list at which half of the weight is reached. *)
Definition is_median (l : list medianTimeIndex) (half m : Z) : Prop :=
  (∃ h, h ∈ l ∧ mti_creationTime h = m) ∧ half <= weight_where (λ t, t <= m) l ∧
  ∀ h, h ∈ l → mti_creationTime h < m → weight_where (λ t, t <= mti_creationTime h) l < half.

(** The order of the list does not matter. *)
#[global] Instance weight_where_proper P `{∀ t, Decision (P t)} : Proper ((≡ₚ) ==> eq) (weight_where P).
Proof. intros l k Hp. unfold weight_where. apply sum_Z_perm. by rewrite Hp. Qed.

#[global] Instance total_weight_proper : Proper ((≡ₚ) ==> eq) total_weight.
Proof. intros l k Hp. unfold total_weight. apply sum_Z_perm. by rewrite Hp. Qed.

Lemma is_median_perm l k half m : l ≡ₚ k → is_median l half m → is_median k half m.
Proof.
  intros Hp ((h & Hin & Ht) & Hle & Hlt). split_and!.
  - exists h. by rewrite <- Hp.
  - by rewrite <- Hp.
  - intros h'. rewrite <- Hp. apply Hlt.
Qed.

Lemma is_median_unique l half m1 m2 : is_median l half m1 → is_median l half m2 → m1 = m2.
Proof.
  intros ((h1 & Hin1 & Ht1) & Hle1 & Hlt1) ((h2 & Hin2 & Ht2) & Hle2 & Hlt2). subst.
  destruct (Z.lt_trichotomy (mti_creationTime h1) (mti_creationTime h2)) as [Hl|[?|Hl]]; [|done|].
  - specialize (Hlt2 h1 Hin1 Hl). lia.
  - specialize (Hlt1 h2 Hin2 Hl). lia.
Qed.

Definition time_le (a b : medianTimeIndex) : Prop := mti_creationTime a <= mti_creationTime b.
#[global] Instance time_le_trans : Transitive time_le.
Proof. intros a b c. unfold time_le. lia. Qed.

Definition sorts : Prop := ∀ l, sortSlice l ≡ₚ l ∧ Sorted time_le (sortSlice l).

Definition weights_ok (l : list medianTimeIndex) : Prop :=
  Forall (λ h, 0 <= mti_weight h) l ∧ total_weight l < 2 ^ 32.

Lemma total_weight_cons h l : total_weight (h :: l) = mti_weight h + total_weight l.
Proof. done. Qed.

Lemma total_weight_app l k : total_weight (l ++ k) = total_weight l + total_weight k.
Proof. unfold total_weight. by rewrite fmap_app, sum_Z_app. Qed.

Lemma total_weight_nonneg l : Forall (λ h, 0 <= mti_weight h) l → 0 <= total_weight l.
Proof. intros. unfold total_weight. apply sum_Z_nonneg. by apply Forall_fmap. Qed.

Lemma weight_where_cons P `{∀ t, Decision (P t)} h l :
  weight_where P (h :: l) =
  (if decide (P (mti_creationTime h)) then mti_weight h else 0) + weight_where P l.
Proof. unfold weight_where. rewrite filter_cons. by case_decide. Qed.

Lemma weight_where_app P `{∀ t, Decision (P t)} l k :
  weight_where P (l ++ k) = weight_where P l + weight_where P k.
Proof. unfold weight_where. by rewrite filter_app, fmap_app, sum_Z_app. Qed.

Lemma weight_where_range P `{∀ t, Decision (P t)} l :
  Forall (λ h, 0 <= mti_weight h) l → 0 <= weight_where P l <= total_weight l.
Proof.
  induction 1 as [|h l Hh _ IH]; [done|]. rewrite weight_where_cons, total_weight_cons.
  case_decide; lia.
Qed.

Lemma weight_where_all P `{∀ t, Decision (P t)} l :
  Forall (λ h, P (mti_creationTime h)) l → weight_where P l = total_weight l.
Proof.
  induction 1 as [|h l Hh _ IH]; [done|].
  by rewrite weight_where_cons, total_weight_cons, decide_True, IH.
Qed.

Lemma weight_where_none P `{∀ t, Decision (P t)} l :
  Forall (λ h, ¬ P (mti_creationTime h)) l → weight_where P l = 0.
Proof.
  induction 1 as [|h l Hh _ IH]; [done|]. by rewrite weight_where_cons, decide_False, IH.
Qed.

Lemma weight_where_mono P Q `{∀ t, Decision (P t)} `{∀ t, Decision (Q t)} l :
  Forall (λ h, 0 <= mti_weight h) l →
  (∀ h, h ∈ l → P (mti_creationTime h) → Q (mti_creationTime h)) →
  weight_where P l <= weight_where Q l.
Proof.
  induction 1 as [|h l Hh Hl IH]; intros HPQ; [done|]. rewrite !weight_where_cons.
  specialize (IH ltac:(intros; apply HPQ; [set_solver|done])). specialize (HPQ h ltac:(set_solver)).
  repeat case_decide; try lia. naive_solver.
Qed.

Lemma weight_where_disjoint P Q `{∀ t, Decision (P t)} `{∀ t, Decision (Q t)} l :
  Forall (λ h, 0 <= mti_weight h) l → (∀ t, P t → Q t → False) →
  weight_where P l + weight_where Q l <= total_weight l.
Proof.
  intros Hl HPQ. induction Hl as [|h l Hh Hl IH]; [done|].
  rewrite !weight_where_cons, total_weight_cons. repeat case_decide; try lia. naive_solver.
Qed.

(** A set of positive weight has an element of the greatest time in it. *)
Lemma greatest_time P `{∀ t, Decision (P t)} (l : list medianTimeIndex) :
  Exists (λ h, P (mti_creationTime h)) l →
  ∃ h0, h0 ∈ l ∧ P (mti_creationTime h0) ∧
    ∀ h, h ∈ l → P (mti_creationTime h) → mti_creationTime h <= mti_creationTime h0.
Proof.
  induction l as [|h l IH]; [by intros ?%Exists_nil|]. intros Hex.
  destruct (decide (Exists (λ h, P (mti_creationTime h)) l)) as [He|He].
  - destruct (IH He) as (h0 & Hin & HP0 & Hmax).
    destruct (decide (P (mti_creationTime h) ∧ mti_creationTime h0 < mti_creationTime h)) as [[HPh Hlt]|Hno].
    + exists h. split_and!; [set_solver|done|]. intros h' [->|Hin']%elem_of_cons HP'; [done|].
      specialize (Hmax h' Hin' HP'). lia.
    + exists h0. split_and!; [set_solver|done|]. intros h' [->|?]%elem_of_cons ?; [|by apply Hmax].
      destruct (decide (mti_creationTime h0 < mti_creationTime h)); [by destruct Hno|lia].
  - apply Exists_cons in Hex as [HP|?]; [|done]. exists h. split_and!; [set_solver|done|].
    intros h' [->|Hin']%elem_of_cons HP'; [done|]. destruct He. apply Exists_exists. eauto.
Qed.

Lemma weight_where_witness P `{∀ t, Decision (P t)} l :
  0 < weight_where P l → Exists (λ h, P (mti_creationTime h)) l.
Proof.
  intros Hpos. destruct (decide (Exists (λ h, P (mti_creationTime h)) l)) as [|Hn]; [done|].
  rewrite weight_where_none in Hpos; [lia|]. by apply not_Exists_Forall in Hn; [|apply _].
Qed.

(** The loop stops at the first element whose prefix has half of the weight. *)
Lemma median_loop_spec l half curr :
  Forall (λ h, 0 <= mti_weight h) l → 0 <= curr → curr + total_weight l < 2 ^ 32 →
  half <= curr + total_weight l → l ≠ [] →
  ∃ pre h post, l = pre ++ h :: post ∧
    median_loop l half curr = (mti_creationTime h, curr + total_weight pre + mti_weight h) ∧
    half <= curr + total_weight pre + mti_weight h ∧ (pre ≠ [] → curr + total_weight pre < half).
Proof.
  intros Hl. revert curr. induction Hl as [|h l Hh Hl IH]; intros curr Hc Hs Hhalf Hne; [done|].
  pose proof (total_weight_nonneg l Hl). rewrite total_weight_cons in Hs, Hhalf.
  cbn [median_loop]. rewrite u32_id by (unfold is_u32; lia).
  destruct (Z.leb_spec half (curr + mti_weight h)) as [Hle|Hgt].
  - exists [], h, l. change (total_weight []) with 0. rewrite Z.add_0_r. done.
  - destruct (IH (curr + mti_weight h)) as (pre & h' & post & -> & E & Hge & Hlt); [lia..| |].
    { intros ->. change (total_weight []) with 0 in *. lia. }
    exists (h :: pre), h', post. rewrite E, total_weight_cons. split_and!; [done| |lia|].
    + f_equal. lia.
    + intros _. destruct pre as [|p pre]; [change (total_weight []) with 0; lia|].
      specialize (Hlt ltac:(done)). lia.
Qed.

Lemma sorted_app_le pre h post :
  Sorted time_le (pre ++ h :: post) →
  Forall (λ a, time_le a h) pre ∧ Forall (λ a, time_le h a) post.
Proof.
  intros Hs. apply Sorted_StronglySorted in Hs; [|intros a b c; unfold time_le; lia]. split.
  - apply Forall_forall. intros a Ha. apply list_elem_of_split in Ha as (p1 & p2 & ->).
    rewrite <- app_assoc in Hs. cbn in Hs. clear -Hs.
    induction p1 as [|x p1 IH]; cbn in Hs; [|inversion Hs; auto].
    inversion Hs as [|? ? _ Hall]. subst. rewrite Forall_app in Hall.
    destruct Hall as [_ Hall]. by inversion Hall.
  - clear -Hs. induction pre as [|x pre IH]; cbn in Hs; inversion Hs; auto.
Qed.

Lemma median_loop_median l half :
  Sorted time_le l → weights_ok l → half <= total_weight l → l ≠ [] →
  is_median l half (median_loop l half 0).1 ∧
  half <= (median_loop l half 0).2 <= total_weight l.
Proof.
  intros Hs [Hw Ht] Hh Hne.
  destruct (median_loop_spec l half 0 Hw ltac:(lia) ltac:(lia) ltac:(lia) Hne)
    as (pre & h & post & El & E & Hge & Hlt).
  rewrite E. cbn [fst snd]. rewrite El in Hs, Hw |- *.
  destruct (sorted_app_le _ _ _ Hs) as [Hpre Hpost].
  apply Forall_app in Hw as [Hw1 Hw2]. apply Forall_cons in Hw2 as [Hwh Hw2].
  pose proof (total_weight_nonneg post Hw2). pose proof (total_weight_nonneg pre Hw1).
  split; [|rewrite total_weight_app, total_weight_cons; lia]. split_and!.
  - exists h. split; [set_solver|done].
  - rewrite weight_where_app, weight_where_cons, decide_True by lia.
    rewrite weight_where_all by done.
    pose proof (weight_where_range (λ t, t <= mti_creationTime h) post Hw2). lia.
  - intros h' Hin' Hlt'. rewrite weight_where_app, weight_where_cons, decide_False by lia.
    rewrite (weight_where_none _ post).
    2: { eapply Forall_impl; [exact Hpost|]. unfold time_le. cbn. lia. }
    pose proof (weight_where_range (λ t, t <= mti_creationTime h') pre Hw1).
    assert (Hin : h' ∈ pre).
    { rewrite elem_of_app, elem_of_cons in Hin'. destruct Hin' as [?|[->|Hp]]; [done|lia|].
      rewrite Forall_forall in Hpost. specialize (Hpost h' Hp). unfold time_le in Hpost. lia. }
    specialize (Hlt ltac:(by intros ->; apply elem_of_nil in Hin)). lia.
Qed.

(** ** What the validators claim *)

(** The entry of the validator at index [i]: no weight for a cheater, the default
    time when none of its events is observed. *)
Definition highest_of (validators : V) (before : HighestBefore S) (defaultTime : Z) (i : nat) (id : Z)
  : medianTimeIndex :=
  let seq := Seq_Get (VSeq before) (Z.of_nat i) in
  mkMTI (if IsForkDetected seq then 0 else vv_Get validators id)
    (if IsForkDetected seq then time_at (VTime before) (Z.of_nat i)
     else if bs_Seq seq =? 0 then defaultTime else time_at (VTime before) (Z.of_nat i)).

Definition highests (validators : V) (before : HighestBefore S) (defaultTime : Z) : list medianTimeIndex :=
  imap (highest_of validators before defaultTime) (vv_IDs validators).

Context `{!PosLaws V}.

Lemma highests_loop_spec validators before dt i ids acc :
  Time_ok (VTime before) → drop i (vv_IDs validators) = ids →
  0 <= acc → acc + sum_Z (vv_Get validators <$> ids) < 2 ^ 32 →
  let l := imap (λ j, highest_of validators before dt (i + j)) ids in
  highests_loop validators before dt (Z.of_nat i) ids acc = Ok (l, acc + total_weight l) ∧
  Forall (λ h, 0 <= mti_weight h) l ∧ total_weight l <= sum_Z (vv_Get validators <$> ids).
Proof.
  intros Hb. revert i acc. induction ids as [|id ids IH]; intros i acc Hd Ha Hs.
  { cbn. rewrite Z.add_0_r. done. }
  assert (Hid : vv_IDs validators !! i = Some id).
  { rewrite <- (Nat.add_0_r i), <- lookup_drop, Hd. done. }
  assert (Hd' : drop (Datatypes.S i) (vv_IDs validators) = ids).
  { rewrite <- (Nat.add_1_r i), <- drop_drop, Hd. done. }
  pose proof (vv_Get_nonneg validators id) as Hg.
  assert (Hnn : 0 <= sum_Z (vv_Get validators <$> ids)).
  { apply sum_Z_nonneg, Forall_fmap, Forall_true. intros x. apply vv_Get_nonneg. }
  set (h := highest_of validators before dt i id).
  assert (Hw : 0 <= mti_weight h <= vv_Get validators id).
  { subst h. unfold highest_of. cbn. destruct (IsForkDetected _); lia. }
  change (sum_Z (vv_Get validators <$> id :: ids)) with
    (vv_Get validators id + sum_Z (vv_Get validators <$> ids)) in *.
  destruct (IH (Datatypes.S i) (acc + mti_weight h) Hd' ltac:(lia) ltac:(lia)) as (E & Hf & Ht).
  cbv zeta. cbn [imap highests_loop]. rewrite Nat.add_0_r. fold h.
  rewrite Time_Get_spec by (done || lia). cbn [mbind res_bind].
  rewrite (vv_GetWeightByIdx_spec _ _ _ Hid).
  replace (if IsForkDetected _ then mkMTI 0 _ else _) with h.
  2: { subst h. unfold highest_of. destruct (IsForkDetected _); [done|]. by destruct (bs_Seq _ =? 0). }
  rewrite u32_id by (unfold is_u32; lia).
  replace (Z.of_nat i + 1) with (Z.of_nat (Datatypes.S i)) by lia. rewrite E.
  cbn [mbind res_bind].
  replace (imap ((λ j, highest_of validators before dt (i + j)) ∘ Datatypes.S) ids) with
    (imap (λ j, highest_of validators before dt (Datatypes.S i + j)) ids).
  2: { apply imap_ext. intros j x _. cbn. f_equal. lia. }
  rewrite total_weight_cons. split_and!.
  - do 2 f_equal. lia.
  - constructor; [lia|done].
  - lia.
Qed.

Lemma highests_spec validators before dt :
  Time_ok (VTime before) →
  let l := highests validators before dt in
  highests_loop validators before dt 0 (vv_IDs validators) 0 = Ok (l, total_weight l) ∧ weights_ok l.
Proof.
  intros Hb. pose proof (vv_TotalWeight_range validators). rewrite vv_TotalWeight_sum in *.
  destruct (highests_loop_spec validators before dt 0 (vv_IDs validators) 0 Hb) as (E & Hf & Ht);
    [by rewrite drop_0|lia|lia|].
  cbv zeta. split; [exact E|].
  change (weights_ok (imap (λ j, highest_of validators before dt (0 + j)) (vv_IDs validators))).
  split; [done|]. lia.
Qed.

Lemma MedianTime_Ok validators before dt :
  sorts → Time_ok (VTime before) →
  let l := highests validators before dt in
  MedianTime validators (Some before) dt =
    Ok (median_loop (sortSlice l) (total_weight l / 2) 0).1 ∧
  (l ≠ [] → is_median l (total_weight l / 2) (median_loop (sortSlice l) (total_weight l / 2) 0).1).
Proof.
  intros Hsort Hb l. destruct (highests_spec validators before dt Hb) as (E & Hw & Ht). fold l in E, Hw, Ht.
  unfold MedianTime. cbn [deref mbind res_bind]. rewrite E. cbn [mbind res_bind].
  destruct (Hsort l) as [Hp Hs]. pose proof (total_weight_nonneg l Hw).
  assert (Hhalf : total_weight l / 2 <= total_weight l) by (apply Z.div_le_upper_bound; lia).
  assert (Htw : total_weight (sortSlice l) = total_weight l) by (by rewrite Hp).
  assert (Hw' : weights_ok (sortSlice l)) by (split; by rewrite Hp).
  destruct (decide (sortSlice l = [])) as [Hnil|Hne].
  - rewrite Hnil in *. cbn. apply Permutation_nil_l in Hp. rewrite <- Hp.
    change (total_weight []) with 0. done.
  - destruct (median_loop_median (sortSlice l) (total_weight l / 2) Hs Hw' ltac:(lia) Hne)
      as [Hm Hc]. rewrite Htw in Hc.
    destruct (median_loop (sortSlice l) (total_weight l / 2) 0) as [m c]. cbn [fst snd] in *.
    rewrite !(proj2 (Z.ltb_ge _ _)) by lia. split; [done|]. intros _. by apply (is_median_perm _ _ _ _ Hp).
Qed.

(** ** The theorems *)

(** the median time is always found, the sanity check after the loop never
    fails, and the result is the weighted median of the claimed times: the least
    claimed time at which the validators that claim it or an earlier one hold half
    of the weight of those not caught forking. *)
Theorem median_time_correct validators before dt :
  sorts → Time_ok (VTime before) → vv_IDs validators ≠ [] →
  let l := highests validators before dt in
  ∃ m, MedianTime validators (Some before) dt = Ok m ∧ is_median l (total_weight l / 2) m.
Proof.
  intros Hsort Hb Hne l. destruct (MedianTime_Ok validators before dt Hsort Hb) as [E Hm].
  eexists. split; [exact E|]. apply Hm. unfold highests.
  intros Hn. apply (f_equal length) in Hn. rewrite length_imap in Hn.
  by destruct (vv_IDs validators).
Qed.

(** C21: when the validators that claim times outside of an interval weigh less than
    half, rounded down, of the weight of those not caught forking, the median is inside
    of the interval, whatever the others claim. The half is the code's own: with an even
    total the condition says that those inside hold more than half, with an odd total
    they need one unit more. *)
Theorem median_time_byzantine validators before dt lo hi :
  sorts → Time_ok (VTime before) →
  let l := highests validators before dt in
  total_weight l - weight_where (λ t, lo <= t <= hi) l < total_weight l / 2 →
  ∃ m, MedianTime validators (Some before) dt = Ok m ∧ lo <= m <= hi.
Proof.
  intros Hsort Hb l HW0.
  assert (HW : total_weight l + 1 < 2 * weight_where (λ t, lo <= t <= hi) l).
  { pose proof (Z.mul_div_le (total_weight l) 2 eq_refl). lia. }
  destruct (MedianTime_Ok validators before dt Hsort Hb) as [E Hm]. fold l in E, Hm.
  destruct (highests_spec validators before dt Hb) as (_ & Hw & _). fold l in Hw.
  pose proof (total_weight_nonneg l Hw). eexists. split; [exact E|].
  destruct Hm as ((h & Hin & Ht) & Hge & Hlt).
  { intros Hnil. rewrite Hnil in HW. change (1 < 0) in HW. lia. }
  set (m := (median_loop _ _ _).1) in *. set (W := weight_where (λ t, lo <= t <= hi) l) in *.
  assert (Hlow : ∀ t, t < lo → weight_where (λ x, x <= t) l + W <= total_weight l).
  { intros t Ht'. subst W. by apply weight_where_disjoint; [|intros; lia]. }
  split.
  - destruct (decide (lo <= m)); [done|]. specialize (Hlow m ltac:(lia)).
    pose proof (Z.mul_div_le (total_weight l) 2 eq_refl). go_lia.
  - destruct (decide (m <= hi)); [done|]. exfalso.
    destruct (greatest_time (λ t, lo <= t <= hi) l) as (h0 & Hin0 & Hh0 & Hmax).
    { apply (weight_where_witness (λ t, lo <= t <= hi)). fold W. lia. }
    specialize (Hlt h0 Hin0 ltac:(lia)).
    pose proof (weight_where_mono (λ t, lo <= t <= hi) (λ t, t <= mti_creationTime h0) l Hw Hmax).
    subst W. go_lia.
Qed.
End median.

(** The median time does not depend on how the sort orders equal times. *)
Theorem median_time_sort_independent {S V} `{SeqVec S} `{PosLaws V} sort1 sort2
    (validators : V) (before : HighestBefore S) dt :
  sorts sort1 → sorts sort2 → Time_ok (VTime before) →
  MedianTime sort1 validators (Some before) dt = MedianTime sort2 validators (Some before) dt.
Proof.
  intros H1' H2' Hb. destruct (MedianTime_Ok sort1 validators before dt H1' Hb) as [E1 M1].
  destruct (MedianTime_Ok sort2 validators before dt H2' Hb) as [E2 M2]. rewrite E1, E2. f_equal.
  set (l := highests validators before dt) in *.
  destruct (decide (length l = 0%nat)) as [Hl|Hl].
  - apply nil_length_inv in Hl. rewrite Hl. destruct (H1' []) as [P1 _], (H2' []) as [P2 _].
    apply Permutation_nil_r in P1, P2. by rewrite P1, P2.
  - apply (is_median_unique l (total_weight l / 2)); [apply M1|apply M2]; by intros ->.
Qed.

(** ** vecmt/no_cheaters.go *)

Section cheaters.
Context {S : Type} `{SeqVec S} {EventID : Type} {V : Type} `{Pos V}.

(** [vi.validatorIdxs[...]]: a Go map's zero for an unknown creator, as [GetIdx]. *)
Fixpoint no_cheaters_loop (validators : V) (getCreator : EventID → option Z) (highest : S)
    (options : list EventID) : res (list EventID) :=
  match options with
  | [] => Ok []
  | id :: options' =>
      creator ← deref (getCreator id);
      rest ← no_cheaters_loop validators getCreator highest options';
      Ok (if negb (IsForkDetected (Seq_Get highest (vv_GetIdx validators creator)))
          then id :: rest else rest)
  end.

Definition NoCheaters (validators : V) (AtLeastOneFork : bool) (GetHighestBefore : EventID → S)
    (getCreator : EventID → option Z) (selfParent : option EventID) (options : list EventID)
  : res (list EventID) :=
  match selfParent with
  | None => Ok options
  | Some sp =>
      if negb AtLeastOneFork then Ok options
      else no_cheaters_loop validators getCreator (GetHighestBefore sp) options
  end.

Definition not_cheater (validators : V) (getCreator : EventID → option Z) (highest : S) (id : EventID)
  : Prop :=
  ∀ creator, getCreator id = Some creator →
    IsForkDetected (Seq_Get highest (vv_GetIdx validators creator)) = false.

#[global] Instance not_cheater_dec validators getCreator highest id :
  Decision (not_cheater validators getCreator highest id).
Proof.
  unfold not_cheater. destruct (getCreator id) as [c|].
  - destruct (IsForkDetected (Seq_Get highest (vv_GetIdx validators c))) eqn:E.
    + right. intros Hn. specialize (Hn c eq_refl). congruence.
    + left. intros c' [= <-]. done.
  - left. done.
Defined.

(** Among parent candidates that are known events, exactly those whose creator
    the self-parent has not observed forking are kept, in order; without a
    self-parent or without any fork all of them are. *)
Theorem no_cheaters_filters validators fork getHB getCreator sp options :
  Forall (λ id, is_Some (getCreator id)) options →
  NoCheaters validators fork getHB getCreator sp options =
  Ok (match sp with
      | Some p => if fork then filter (not_cheater validators getCreator (getHB p)) options else options
      | None => options
      end).
Proof.
  intros Hk. unfold NoCheaters. destruct sp as [p|]; [|done]. destruct fork; [|done]. cbn [negb].
  induction Hk as [|id options [c Hc] Hk IH]; [done|]. cbn [no_cheaters_loop].
  rewrite Hc. cbn [deref mbind res_bind]. rewrite IH. cbn [mbind res_bind]. rewrite filter_cons.
  destruct (IsForkDetected (Seq_Get (getHB p) (vv_GetIdx validators c))) eqn:E; cbn [negb].
  - rewrite decide_False; [done|]. intros Hn. specialize (Hn c Hc). congruence.
  - rewrite decide_True; [done|]. intros c' Hc'. congruence.
Qed.
End cheaters.

(** ** Concrete inputs: sequence vectors as functions, merge sort *)

#[global] Instance demo_seqvec : SeqVec (Z → BranchSeq) := {
  Seq_Get v i := v i;
  Seq_Set v i x := λ j, if decide (j = i) then x else v j;
  Seq_SetForkDetected v i := λ j, if decide (j = i) then mkBranchSeq 0 (2 ^ 31) else v j;
  IsForkDetected b := (bs_Seq b =? 0) && (bs_MinSeq b =? 2 ^ 31);
}.

#[global] Instance demo_seqvec_laws : SeqVecLaws (Z → BranchSeq).
Proof.
  split; cbn.
  - done.
  - intros v i. by rewrite decide_True.
  - intros v i j Hj. by rewrite decide_False.
Qed.

#[global] Instance time_le_dec a b : Decision (time_le a b).
Proof. unfold time_le. apply _. Defined.

Lemma demo_sorts : sorts (merge_sort time_le).
Proof.
  intros l. split.
  - apply merge_sort_Permutation.
  - apply Sorted_merge_sort. intros a b. unfold time_le. lia.
Qed.

(** Three validators of weights 60, 30 and 10 that claim the times 5, 9 and 200. *)
Definition demo_before : HighestBefore (Z → BranchSeq) :=
  mkHighestBefore (λ _, mkBranchSeq 3 1) (le64 5 ++ le64 9 ++ le64 200).

Lemma demo_before_ok : Time_ok (VTime demo_before).
Proof. unfold Time_ok. split_and!; [done..|]. by apply (bool_decide_unpack _). Qed.

Lemma collect_from_merges_witness :
  ∃ s', CollectFrom (mkHighestBefore (λ _, mkBranchSeq 2 1) []) demo_before 3 = Ok s' ∧
    cell s' 2 = (mkBranchSeq 3 1, 200).
Proof.
  destruct (collect_from_merges (mkHighestBefore (λ _, mkBranchSeq 2 1) []) demo_before 3)
    as (s' & E & _ & Hm & _).
  - exact demo_before_ok.
  - split_and!; [done..|constructor].
  - done.
  - done.
  - exists s'. split; [exact E|]. exact (Hm 2 ltac:(done)).
Defined.

Lemma median_time_correct_witness :
  ∃ m, MedianTime (merge_sort time_le) demo_group (Some demo_before) 1 = Ok m ∧
    is_median (highests demo_group demo_before 1)
      (total_weight (highests demo_group demo_before 1) / 2) m.
Proof.
  apply (median_time_correct (merge_sort time_le) demo_group demo_before 1).
  - exact demo_sorts.
  - exact demo_before_ok.
  - done.
Defined.

Lemma median_time_byzantine_witness :
  ∃ m, MedianTime (merge_sort time_le) demo_group (Some demo_before) 1 = Ok m ∧ 5 <= m <= 9.
Proof.
  apply (median_time_byzantine (merge_sort time_le) demo_group demo_before 1 5 9).
  - exact demo_sorts.
  - exact demo_before_ok.
  - vm_compute. reflexivity.
Defined.

Lemma median_time_sort_independent_witness :
  MedianTime (merge_sort time_le) demo_group (Some demo_before) 1 =
  MedianTime (λ l, merge_sort time_le (reverse l)) demo_group (Some demo_before) 1.
Proof.
  apply (median_time_sort_independent (merge_sort time_le) (λ l, merge_sort time_le (reverse l))
    demo_group demo_before 1).
  - exact demo_sorts.
  - intros l. split; [|apply demo_sorts]. rewrite merge_sort_Permutation. apply reverse_Permutation.
  - exact demo_before_ok.
Defined.

Lemma no_cheaters_filters_witness :
  NoCheaters demo_group true (λ _ i, if decide (i = 1) then mkBranchSeq 0 (2 ^ 31) else mkBranchSeq 1 1)
    (λ x : Z, Some x) (Some 1) [1; 2; 3] = Ok [1; 3].
Proof.
  rewrite (no_cheaters_filters demo_group true _ (λ x : Z, Some x) (Some 1) [1; 2; 3]).
  - vm_compute. reflexivity.
  - repeat constructor; done.
Defined.
