(* ===== verification/EvmChain.v ===== *)
(** * EVM blocks and the chain the EVM sees
    (evmcore/dummy_block.go, evmcore/evm.go, gossip/evm_state_reader.go)

    Blocks of the DAG are shown to the EVM, the pool and the API as Ethereum
    blocks.  [get_hash] is the closure behind the BLOCKHASH opcode, with its
    growing cache; [getBlock] rebuilds an EVM block from the tables of the store;
    [MaxGasLimit] is the largest gas limit of a transaction that fits in an event.
    [blockhash_correct] says that the closure answers with the hash of the block
    asked for, whatever was asked before; [max_gas_limit_fits] that the pool's
    limit agrees with the gas check of events. *)

From S2P Require Import Prelude Cser Inter Instances Rules GasPower EvmState EventCheck.

Definition zeroHash : list Z := replicate 32 0.

(** ** evmcore/dummy_block.go *)

Record EvmHeader := mkEvmHeader {
  h_Number : Z;
  h_Hash : list Z;
  h_ParentHash : list Z;
  h_Root : list Z;
  h_TxHash : list Z;
  h_Time : Z;
  h_Coinbase : list Z;
  h_GasLimit : Z;
  h_GasUsed : Z;
}.

Record EvmBlock := mkEvmBlock { eb_Header : EvmHeader; eb_Transactions : list Transaction }.

(** The fields of [types.Header] that the conversions use. *)
Record EthHeader := mkEthHeader {
  eth_Number : Z;
  eth_Coinbase : list Z;
  eth_GasLimit : Z;
  eth_GasUsed : Z;
  eth_Root : list Z;
  eth_TxHash : list Z;
  eth_ParentHash : list Z;
  eth_Time : Z;
  eth_Extra : list Z;
  eth_Difficulty : Z;
}.

Definition with_TxHash (h : EvmHeader) (txHash : list Z) : EvmHeader :=
  mkEvmHeader (h_Number h) (h_Hash h) (h_ParentHash h) (h_Root h) txHash (h_Time h) (h_Coinbase h)
    (h_GasLimit h) (h_GasUsed h).

Definition with_Root (h : EvmHeader) (root : list Z) : EvmHeader :=
  mkEvmHeader (h_Number h) (h_Hash h) (h_ParentHash h) root (h_TxHash h) (h_Time h) (h_Coinbase h)
    (h_GasLimit h) (h_GasUsed h).

(** The roots of transaction tries are computed by a library. *)
Class TrieRoots := {
  EmptyRootHash : list Z;
  DeriveSha : list Transaction → list Z;
}.

Definition NewEvmBlock `{TrieRoots} (h : EvmHeader) (txs : list Transaction) : EvmBlock :=
  mkEvmBlock (with_TxHash h (if len txs =? 0 then EmptyRootHash else DeriveSha txs)) txs.

Definition ToEvmHeader {EventID} `{EventIDs EventID} (block : Block EventID) (index : Z)
    (prevHash : list Z) : EvmHeader :=
  mkEvmHeader (i64 index) (id_Bytes (bl_Atropos block)) prevHash (bl_Root block) zeroHash
    (bl_Time block) zeroAddr MaxUint64 (bl_GasUsed block).

(** [common.BytesToHash]: cropped from the left, padded on the left. *)
Definition BytesToHash (b : list Z) : list Z :=
  let b := drop (length b - 32) b in replicate (32 - length b) 0 ++ b.

Definition ConvertFromEthHeader (h : EthHeader) : EvmHeader :=
  mkEvmHeader (eth_Number h) (BytesToHash (eth_Extra h)) (eth_ParentHash h) (eth_Root h)
    (eth_TxHash h) (FromUnix (i64 (eth_Time h))) (eth_Coinbase h) MaxUint64 (eth_GasUsed h).

Definition EvmHeader_EthHeader (h : EvmHeader) : EthHeader :=
  mkEthHeader (h_Number h) (h_Coinbase h) (2 ^ 48 - 1) (h_GasUsed h) (h_Root h)
    (h_TxHash h) (h_ParentHash h) (u64 (Timestamp_Unix (h_Time h))) (h_Hash h) 0.

Definition EvmBlock_EstimateSize (b : EvmBlock) : Z :=
  foldl (λ est tx, est + len (tx_Data tx)) 0 (eb_Transactions b) + len (eb_Transactions b) * 256.

(** ** evmcore/evm.go: transfers *)

Section transfers.
Context {W : Type} `{StateDB W}.

Definition CanTransfer (db : W) (addr : Address) (amount : Z) : bool := amount <=? GetBalance db addr.

Definition Transfer (sender recipient : Address) (amount : Z) (db : W) : W :=
  AddBalance recipient amount (SubBalance sender amount db).
End transfers.

(** ** evmcore/evm.go: [GetHashFn] *)

Section hashes.
(** [chain.GetHeader], which may stop the node. *)
Variable GetHeader : list Z → Z → res (option EvmHeader).

(** The [for] loop: [None] when the fuel runs out. *)
Fixpoint hash_walk (fuel : nat) (n : Z) (cache : list (list Z)) (lastKnownHash : list Z)
    (lastKnownNumber : Z) : option (res (list Z * list (list Z))) :=
  match fuel with
  | O => None
  | S fuel' =>
      match GetHeader lastKnownHash lastKnownNumber with
      | Panic => Some Panic
      | Err e => Some (Err e)
      | Ok None => Some (Ok (zeroHash, cache))
      | Ok (Some header) =>
          let cache := cache ++ [h_ParentHash header] in
          let lastKnownHash := h_ParentHash header in
          let lastKnownNumber := u64 (u64 (h_Number header) - 1) in
          if n =? lastKnownNumber then Some (Ok (lastKnownHash, cache))
          else hash_walk fuel' n cache lastKnownHash lastKnownNumber
      end
  end.

(** One call of the closure returned by [GetHashFn(ref, chain)]; the cache is the
    variable it captures. *)
Definition get_hash (fuel : nat) (ref : EvmHeader) (cache : list (list Z)) (n : Z)
  : option (res (list Z * list (list Z))) :=
  let cache := if len cache =? 0 then [h_ParentHash ref] else cache in
  let idx := u64 (u64 (u64 (h_Number ref) - n) - 1) in
  if idx <? len cache then Some (h ← index cache idx; Ok (h, cache))
  else
    match index cache (len cache - 1) with
    | Ok lastKnownHash =>
        hash_walk fuel n cache lastKnownHash (u64 (u64 (h_Number ref) - len cache))
    | Err e => Some (Err e)
    | Panic => Some Panic
    end.

(** A sequence of calls of the closure. *)
Fixpoint get_hashes (fuel : nat) (ref : EvmHeader) (cache : list (list Z)) (ns : list Z)
  : option (res (list (list Z))) :=
  match ns with
  | [] => Some (Ok [])
  | n :: ns' =>
      match get_hash fuel ref cache n with
      | Some (Ok (h, cache)) =>
          match get_hashes fuel ref cache ns' with
          | Some (Ok hs) => Some (Ok (h :: hs))
          | r => r
          end
      | Some (Err e) => Some (Err e)
      | Some Panic => Some Panic
      | None => None
      end
  end.
End hashes.

(** ** gossip/evm_state_reader.go *)

(** [store.GetRules()] of the current epoch. *)
Definition MaxGasLimit (rules : Rules) : Z :=
  let gas := GasR (Economy rules) in
  let maxEmptyEventGas :=
    u64 (EventGas gas
         + u64 (u32 (MaxParents (Dag rules) - MaxFreeParents (Dag rules)) * ParentGas gas)
         + u64 (MaxExtraData (Dag rules) * ExtraDataGas gas)) in
  if MaxEventGas gas <? maxEmptyEventGas then 0
  else u64 (MaxEventGas gas - maxEmptyEventGas).

Definition RecommendedMinGasPrice (SuggestPrice : Z) (rules : Rules) : Z :=
  let est := SuggestPrice * 3 / 4 in
  let min := MinGasPrice (Economy rules) in
  if est <? min then min else est.

(** The tables the reader looks into; the event payloads of the store are keyed by
    the bytes of their identifiers, as in the database. *)
Record Tables (EventID : Type) := mkTables {
  t_Blocks : gmap Z (Block EventID);
  t_Txs : gmap (list Z) Transaction;
  t_Events : gmap (list Z) (EventPayload EventID);
  t_EvmBlocks : gmap Z EvmBlock;
}.
Arguments mkTables {_}. Arguments t_Blocks {_}. Arguments t_Txs {_}.
Arguments t_Events {_}. Arguments t_EvmBlocks {_}.

Section reader.
Context {EventID : Type} `{EventIDs EventID} `{TrieRoots}.

(** [log.Crit] stops the node: a panic. *)
Fixpoint read_txs (t : Tables EventID) (ids : list (list Z)) : res (list Transaction) :=
  match ids with
  | [] => Ok []
  | txid :: ids' =>
      match t_Txs t !! txid with
      | None => Panic
      | Some tx => txs ← read_txs t ids'; Ok (tx :: txs)
      end
  end.

Fixpoint read_events (t : Tables EventID) (ids : list EventID) : res (list Transaction) :=
  match ids with
  | [] => Ok []
  | id :: ids' =>
      match t_Events t !! id_Bytes id with
      | None => Panic
      | Some e => txs ← read_events t ids'; Ok (ep_txs e ++ txs)
      end
  end.

Definition set_EvmBlock (n : Z) (b : EvmBlock) (t : Tables EventID) : Tables EventID :=
  mkTables (t_Blocks t) (t_Txs t) (t_Events t) (<[n := b]> (t_EvmBlocks t)).

(** [getBlock] with its writes to the cache. *)
Definition getBlock (t : Tables EventID) (h : list Z) (n : Z) (readTxs : bool)
  : res (option EvmBlock * Tables EventID) :=
  match t_Blocks t !! n with
  | None => Ok (None, t)
  | Some block =>
      if negb (bool_decide (h = zeroHash)) && negb (bool_decide (h = id_Bytes (bl_Atropos block)))
      then Ok (None, t)
      else
        match (if readTxs then t_EvmBlocks t !! n else None) with
        | Some cached => Ok (Some cached, t)
        | None =>
            transactions ←
              (if readTxs then
                 internal ← read_txs t (bl_InternalTxs block);
                 txs ← read_txs t (bl_Txs block);
                 evs ← read_events t (bl_Events block);
                 Ok (FilterSkippedTxs (internal ++ txs ++ evs) (bl_SkippedTxs block))
               else Ok []);
            prev ← (if negb (n =? 0) then
                      match t_Blocks t !! (n - 1) with
                      | None => Panic
                      | Some prev => Ok (id_Bytes (bl_Atropos prev))
                      end
                    else Ok zeroHash);
            let evmHeader := ToEvmHeader block n prev in
            if readTxs then
              let evmBlock := NewEvmBlock evmHeader transactions in
              Ok (Some evmBlock, set_EvmBlock n evmBlock t)
            else Ok (Some (mkEvmBlock evmHeader []), t)
        end
  end.

Definition GetHeader (t : Tables EventID) (h : list Z) (n : Z) : res (option EvmHeader) :=
  r ← getBlock t h n false; Ok (option_map eb_Header (fst r)).

Definition GetBlock (t : Tables EventID) (h : list Z) (n : Z)
  : res (option EvmBlock * Tables EventID) := getBlock t h n true.
End reader.

(** ** Conversions *)

(** Converting an EVM header to an Ethereum one and back keeps every field,
    except that the time is cut to whole seconds and the gas limit is reset. *)
Theorem eth_header_roundtrip h :
  length (h_Hash h) = 32%nat → 0 <= h_Time h < 2 ^ 63 →
  ConvertFromEthHeader (EvmHeader_EthHeader h)
  = mkEvmHeader (h_Number h) (h_Hash h) (h_ParentHash h) (h_Root h) (h_TxHash h)
      (h_Time h - h_Time h mod Second) (h_Coinbase h) MaxUint64 (h_GasUsed h).
Proof.
  intros Hh Ht. unfold ConvertFromEthHeader, EvmHeader_EthHeader. cbn. f_equal.
  - unfold BytesToHash. rewrite Hh, Nat.sub_diag, drop_0, Hh. done.
  - unfold FromUnix, Timestamp_Unix. rewrite (i64_id (h_Time h)) by (unfold is_i64; lia).
    assert (0 < Second) by done.
    rewrite Z.quot_div_nonneg by lia.
    assert (Hd : 0 <= h_Time h / Second <= h_Time h).
    { unfold Second. go_lia. }
    rewrite i64_u64, (i64_id (h_Time h / Second)) by (unfold is_i64; lia).
    pose proof (Z.div_mod (h_Time h) Second ltac:(lia)).
    pose proof (Z.mod_pos_bound (h_Time h) Second ltac:(lia)).
    rewrite u64_i64. replace (h_Time h / Second * Second) with (h_Time h - h_Time h mod Second) by lia.
    apply u64_id. unfold is_u64. lia.
Qed.

Lemma eth_header_roundtrip_witness :
  h_Time (ConvertFromEthHeader (EvmHeader_EthHeader
    (mkEvmHeader 5 (replicate 32 7) zeroHash zeroHash zeroHash (3 * Second + 17) zeroAddr MaxUint64 0)))
  = 3 * Second.
Proof.
  rewrite (eth_header_roundtrip
    (mkEvmHeader 5 (replicate 32 7) zeroHash zeroHash zeroHash (3 * Second + 17) zeroAddr MaxUint64 0));
    done.
Defined.

(** ** The BLOCKHASH closure *)

Section blockhash.
Variable chain : list Z → Z → res (option EvmHeader).
(** The hashes of the blocks of the chain, by number; [-1] stands for the parent of
    the first block. *)
Variable hash_of : Z → list Z.
Variable ref : EvmHeader.

(** The chain below [ref]: headers link to their parents, the first one to the
    zero hash, and no block has the largest number. *)
Record linked : Prop := {
  lk_number : 1 <= h_Number ref < 2 ^ 64 - 1;
  lk_ref : h_ParentHash ref = hash_of (h_Number ref - 1);
  lk_header : ∀ k, 0 <= k < h_Number ref → ∃ h, chain (hash_of k) k = Ok (Some h) ∧
    h_Number h = k ∧ h_ParentHash h = hash_of (k - 1);
  lk_first : hash_of (-1) = zeroHash;
  lk_end : chain zeroHash (2 ^ 64 - 1) = Ok None;
}.

(** What the cache holds: the hashes from the parent of [ref] downwards. *)
Definition downto (N : Z) (m : nat) : list (list Z) := (λ i : nat, hash_of (N - 1 - Z.of_nat i)) <$> seq 0 m.

Definition cache_ok (cache : list (list Z)) : Prop :=
  ∃ m : nat, cache = downto (h_Number ref) m ∧ 1 <= Z.of_nat m <= h_Number ref + 1.

Lemma downto_S N m : downto N (S m) = downto N m ++ [hash_of (N - 1 - Z.of_nat m)].
Proof. unfold downto. by rewrite seq_S, fmap_app. Qed.

Lemma len_downto N m : len (downto N m) = Z.of_nat m.
Proof. unfold len, downto. by rewrite length_fmap, length_seq. Qed.

Lemma lookup_downto N m i : (i < m)%nat → downto N m !! i = Some (hash_of (N - 1 - Z.of_nat i)).
Proof. intros Hi. unfold downto. rewrite list_lookup_fmap, lookup_seq_lt by done. done. Qed.

(** What the closure should answer. *)
Definition answer (n : Z) : list Z := if n <? h_Number ref then hash_of n else zeroHash.

Context (Hlinked : linked).

Lemma hash_walk_correct fuel n (m : nat) :
  is_u64 n → 1 <= Z.of_nat m <= h_Number ref + 1 →
  n < h_Number ref - Z.of_nat m ∨ h_Number ref <= n →
  h_Number ref + 1 < Z.of_nat fuel + Z.of_nat m →
  ∃ cache', hash_walk chain fuel n (downto (h_Number ref) m) (hash_of (h_Number ref - Z.of_nat m))
      (u64 (h_Number ref - Z.of_nat m)) = Some (Ok (answer n, cache')) ∧ cache_ok cache'.
Proof using Hlinked.
  pose proof (lk_number Hlinked) as HN. intros Hn. unfold is_u64 in Hn.
  revert m. induction fuel as [|fuel IH]; intros m Hm Hout Hf; [lia|]. cbn [hash_walk].
  destruct (decide (Z.of_nat m = h_Number ref + 1)) as [Hend|Hend].
  { replace (h_Number ref - Z.of_nat m) with (-1) by lia. rewrite (lk_first Hlinked).
    change (u64 (-1)) with (2 ^ 64 - 1). rewrite (lk_end Hlinked).
    exists (downto (h_Number ref) m). unfold answer.
    rewrite (proj2 (Z.ltb_ge n _)) by lia. split; [done|]. exists m. split; [done|lia]. }
  destruct (lk_header Hlinked (h_Number ref - Z.of_nat m) ltac:(lia)) as (h & Eh & Hnum & Hpar).
  rewrite (u64_id (h_Number ref - Z.of_nat m)) by (unfold is_u64; lia).
  rewrite Eh, Hnum, Hpar, (u64_id (h_Number ref - Z.of_nat m)) by (unfold is_u64; lia).
  replace (h_Number ref - Z.of_nat m - 1) with (h_Number ref - Z.of_nat (S m)) by lia.
  assert (Hc : downto (h_Number ref) m ++ [hash_of (h_Number ref - Z.of_nat (S m))]
               = downto (h_Number ref) (S m)).
  { rewrite downto_S. do 3 f_equal. lia. }
  rewrite Hc. destruct (Z.eqb_spec n (u64 (h_Number ref - Z.of_nat (S m)))) as [Heq|Hne].
  - exists (downto (h_Number ref) (S m)). split; [|exists (S m); split; [done|lia]].
    do 3 f_equal. unfold answer. destruct (decide (Z.of_nat (S m) = h_Number ref + 1)) as [Hz|Hz].
    + replace (h_Number ref - Z.of_nat (S m)) with (-1) in * by lia.
      change (u64 (-1)) with (2 ^ 64 - 1) in Heq. rewrite (proj2 (Z.ltb_ge n _)) by lia.
      by rewrite (lk_first Hlinked).
    + rewrite u64_id in Heq by (unfold is_u64; lia). rewrite (proj2 (Z.ltb_lt n _)) by lia. by subst n.
  - apply IH; [lia| |lia]. destruct Hout as [Hout|Hout]; [|by right]. left.
    rewrite u64_id in Hne by (unfold is_u64; lia). lia.
Qed.

Lemma get_hash_correct fuel cache n :
  is_u64 n → cache = [] ∨ cache_ok cache → h_Number ref < Z.of_nat fuel →
  ∃ cache', get_hash chain fuel ref cache n = Some (Ok (answer n, cache')) ∧ cache_ok cache'.
Proof using Hlinked.
  pose proof (lk_number Hlinked) as HN. intros Hn Hcache Hf. unfold get_hash.
  set (c := if len cache =? 0 then _ else _).
  assert (Hc : ∃ m : nat, c = downto (h_Number ref) m ∧ 1 <= Z.of_nat m <= h_Number ref + 1).
  { subst c. destruct Hcache as [->|(m & -> & Hm)].
    - exists 1%nat. split; [|lia]. cbn. rewrite (lk_ref Hlinked). do 2 f_equal. lia.
    - rewrite len_downto. exists m. by rewrite (proj2 (Z.eqb_neq _ 0)) by lia. }
  destruct Hc as (m & -> & Hm). rewrite len_downto. unfold is_u64 in Hn.
  rewrite (u64_id (h_Number ref)) by (unfold is_u64; lia).
  assert (Hidx : u64 (u64 (h_Number ref - n) - 1)
                 = if n <? h_Number ref then h_Number ref - n - 1 else h_Number ref - n - 1 + 2 ^ 64).
  { destruct (Z.ltb_spec n (h_Number ref)); go_lia. }
  set (idx := u64 _) in *. destruct (Z.ltb_spec idx (Z.of_nat m)) as [Hin|Hout]; rewrite Hidx in *;
    clear Hidx.
  - exists (downto (h_Number ref) m). split; [|by exists m].
    unfold index, answer. destruct (Z.ltb_spec n (h_Number ref)) as [Hlt|Hge];
      rewrite (proj2 (Z.ltb_ge _ 0)) by lia; rewrite lookup_downto by lia; cbn [mbind res_bind].
    + do 4 f_equal. lia.
    + replace (h_Number ref - 1 - _) with (-1) by lia. by rewrite (lk_first Hlinked).
  - unfold index at 1. rewrite (proj2 (Z.ltb_ge _ 0)) by lia. rewrite lookup_downto by lia.
    replace (h_Number ref - 1 - Z.of_nat (Z.to_nat (Z.of_nat m - 1))) with (h_Number ref - Z.of_nat m)
      by lia.
    apply hash_walk_correct; [done|done| |lia].
    destruct (Z.ltb_spec n (h_Number ref)); lia.
Qed.

Lemma get_hashes_correct fuel ns :
  Forall is_u64 ns → h_Number ref < Z.of_nat fuel →
  get_hashes chain fuel ref [] ns = Some (Ok (answer <$> ns)).
Proof using Hlinked.
  intros Hns Hf.
  assert (Hgen : ∀ cache, cache = [] ∨ cache_ok cache →
    get_hashes chain fuel ref cache ns = Some (Ok (answer <$> ns))); [|by apply Hgen; left].
  induction Hns as [|n ns Hn Hns IH]; intros cache Hc; [done|]. cbn [get_hashes].
  destruct (get_hash_correct fuel cache n Hn Hc Hf) as (cache' & -> & Hc').
  by rewrite (IH cache' (or_intror Hc')).
Qed.
End blockhash.

Section store.
Context {EventID : Type} `{EventIDs EventID} `{TrieRoots}.

(** The tables hold the blocks below [N], and no block numbered [2^64 - 1]. *)
Definition chain_stored (t : Tables EventID) (N : Z) (atropos : Z → EventID) : Prop :=
  t_Blocks t !! (2 ^ 64 - 1) = None ∧
  ∀ k, 0 <= k < N → ∃ b, t_Blocks t !! k = Some b ∧ bl_Atropos b = atropos k.

Definition stored_hash (atropos : Z → EventID) (k : Z) : list Z :=
  if k <? 0 then zeroHash else id_Bytes (atropos k).

Lemma GetHeader_stored t N atropos k :
  chain_stored t N atropos → 0 <= k < N → N < 2 ^ 63 →
  ∃ h, GetHeader t (stored_hash atropos k) k = Ok (Some h) ∧ h_Number h = k ∧
    h_ParentHash h = stored_hash atropos (k - 1).
Proof.
  intros [_ Ht] Hk HN. destruct (Ht k Hk) as (b & Eb & Hb).
  unfold GetHeader, getBlock. rewrite Eb.
  assert (Hh : stored_hash atropos k = id_Bytes (bl_Atropos b)).
  { unfold stored_hash. by rewrite (proj2 (Z.ltb_ge k 0)), Hb by lia. }
  rewrite Hh, (bool_decide_true (id_Bytes _ = id_Bytes _)), andb_false_r by done.
  cbn [mbind res_bind].
  assert (Hi : i64 k = k) by (apply i64_id; unfold is_i64; lia).
  destruct (Z.eqb_spec k 0) as [->|Hk0]; cbn [negb mbind res_bind].
  - eexists. split_and!; [done|done|]. done.
  - destruct (Ht (k - 1) ltac:(lia)) as (p & -> & Hp). eexists. split_and!; [done|done|].
    cbn. unfold stored_hash. by rewrite (proj2 (Z.ltb_ge (k - 1) 0)), Hp by lia.
Qed.

(** Every call of the BLOCKHASH closure during the execution of block [N] ends,
    never stops the node, and answers with the Atropos of the stored block of that
    number, or with the zero hash when the number is not below [N], whatever earlier
    calls put in the closure's cache. *)
Theorem blockhash_correct t ref atropos fuel ns :
  chain_stored t (h_Number ref) atropos → 1 <= h_Number ref < 2 ^ 63 →
  h_ParentHash ref = id_Bytes (atropos (h_Number ref - 1)) →
  Forall is_u64 ns → h_Number ref < Z.of_nat fuel →
  get_hashes (GetHeader t) fuel ref [] ns
  = Some (Ok ((λ n, if n <? h_Number ref then id_Bytes (atropos n) else zeroHash) <$> ns)).
Proof.
  intros Ht HN Hp Hns Hf.
  rewrite (get_hashes_correct (GetHeader t) (stored_hash atropos) ref); [| |done|done].
  - do 2 f_equal. apply list_fmap_ext. intros i n Hn.
    pose proof (Forall_lookup_1 _ _ _ _ Hns Hn) as Hu. unfold is_u64 in Hu.
    unfold answer, stored_hash. by rewrite (proj2 (Z.ltb_ge n 0)) by lia.
  - split; [lia| | |done|].
    + unfold stored_hash. by rewrite (proj2 (Z.ltb_ge _ 0)) by lia.
    + intros k Hk. apply (GetHeader_stored t (h_Number ref) atropos k); [done|lia|lia].
    + unfold GetHeader, getBlock. by rewrite (proj1 Ht).
Qed.
End store.

#[global] Instance demo_roots : TrieRoots := {
  EmptyRootHash := replicate 32 9;
  DeriveSha txs := [len txs];
}.

Definition demo_atropos (k : Z) : Hash := mk_ID 1 (k + 1) (replicate 24 k).
Definition demo_cblock (k : Z) : Block Hash := mkBlock k (demo_atropos k) [] [] [] [] 0 zeroHash.
Definition demo_tables : Tables Hash :=
  mkTables (list_to_map ((λ k, (k, demo_cblock k)) <$> [0; 1; 2; 3])) ∅ ∅ ∅.
Definition demo_ref : EvmHeader :=
  mkEvmHeader 4 zeroHash (id_Bytes (demo_atropos 3)) zeroHash zeroHash 4 zeroAddr MaxUint64 0.

Lemma blockhash_correct_witness :
  get_hashes (GetHeader demo_tables) 5 demo_ref [] [1; 3; 0; 7; 2]
  = Some (Ok [id_Bytes (demo_atropos 1); id_Bytes (demo_atropos 3); id_Bytes (demo_atropos 0);
              zeroHash; id_Bytes (demo_atropos 2)]).
Proof.
  assert (Ht : chain_stored demo_tables 4 demo_atropos).
  { split; [done|]. intros k Hk. exists (demo_cblock k).
    assert (Hc : k = 0 ∨ k = 1 ∨ k = 2 ∨ k = 3) by lia. by destruct Hc as [-> | [-> | [-> | ->] ] ]. }
  rewrite (blockhash_correct demo_tables demo_ref demo_atropos 5 [1; 3; 0; 7; 2]); try done.
  repeat constructor; done.
Defined.

(** ** The pool's gas limit *)

(** The gas rules of a network, without overflow in the gas of an empty event. *)
Definition gas_rules_ok (rules : Rules) : Prop :=
  let gas := GasR (Economy rules) in
  is_u64 (MaxEventGas gas) ∧ 0 <= EventGas gas ∧ 0 <= ParentGas gas ∧ 0 <= ExtraDataGas gas ∧
  0 <= MaxFreeParents (Dag rules) <= MaxParents (Dag rules) ∧ MaxParents (Dag rules) < 2 ^ 32 ∧
  0 <= MaxExtraData (Dag rules) < 2 ^ 32 ∧
  EventGas gas + (MaxParents (Dag rules) - MaxFreeParents (Dag rules)) * ParentGas gas
  + MaxExtraData (Dag rules) * ExtraDataGas gas < 2 ^ 64.
#[global] Instance gas_rules_ok_dec rules : Decision (gas_rules_ok rules).
Proof. unfold gas_rules_ok. apply _. Defined.

Lemma MaxGasLimit_spec rules :
  gas_rules_ok rules →
  let gas := GasR (Economy rules) in
  MaxGasLimit rules = Z.max 0 (MaxEventGas gas - (EventGas gas
    + (MaxParents (Dag rules) - MaxFreeParents (Dag rules)) * ParentGas gas
    + MaxExtraData (Dag rules) * ExtraDataGas gas)).
Proof.
  intros (Hm & He & Hp & Hx & Hf & Hmp & Hme & Hsum) gas. fold gas in Hm, He, Hp, Hx, Hsum.
  unfold MaxGasLimit, is_u64 in *. fold gas.
  rewrite (u32_id (_ - _)) by (unfold is_u32; lia).
  assert (0 <= (MaxParents (Dag rules) - MaxFreeParents (Dag rules)) * ParentGas gas) by nia.
  assert (0 <= MaxExtraData (Dag rules) * ExtraDataGas gas) by nia.
  rewrite (u64_id (_ * ParentGas _)), (u64_id (_ * ExtraDataGas _)) by (unfold is_u64; lia).
  rewrite (u64_id (_ + _ + _)) by (unfold is_u64; lia).
  destruct (Z.ltb_spec (MaxEventGas gas) (EventGas gas +
    (MaxParents (Dag rules) - MaxFreeParents (Dag rules)) * ParentGas gas +
    MaxExtraData (Dag rules) * ExtraDataGas gas)); [lia|].
  rewrite u64_id by (unfold is_u64; lia). lia.
Qed.

(** A transaction whose gas limit is at most the pool's limit fits in an event
    with every parent and all the extra data the rules allow: the gas of such an
    event does not exceed the maximum the epoch check enforces, provided an empty
    event itself fits. *)
Theorem max_gas_limit_fits {EventID} (e : EventPayload EventID) tx rules :
  gas_rules_ok rules → 0 < MaxGasLimit rules → ep_txs e = [tx] → 0 <= tx_Gas tx <= MaxGasLimit rules →
  len (Parents (ev_base (ep_event e))) <= MaxParents (Dag rules) →
  len (extra (ev_ext (ep_event e))) <= MaxExtraData (Dag rules) →
  CalcGasPowerUsed e rules <= MaxEventGas (GasR (Economy rules)).
Proof.
  intros Hok. pose proof (MaxGasLimit_spec rules Hok) as Hmax. cbn zeta in Hmax.
  destruct Hok as (Hm & He & Hp & Hx & Hf & Hmp & Hme & Hsum).
  intros Hpos Etx Hgas Hpar Hext. unfold CalcGasPowerUsed. rewrite Etx. cbn [foldl].
  set (gas := GasR (Economy rules)) in *. unfold is_u64 in Hm.
  set (np := len (Parents _)) in *. set (nx := len (extra _)) in *.
  assert (0 <= np) by apply len_nonneg. assert (0 <= nx) by apply len_nonneg.
  assert (0 <= (MaxParents (Dag rules) - MaxFreeParents (Dag rules)) * ParentGas gas) by nia.
  assert (0 <= nx * ExtraDataGas gas <= MaxExtraData (Dag rules) * ExtraDataGas gas) by nia.
  rewrite (u64_id nx) by (unfold is_u64; lia).
  rewrite (u64_id (nx * ExtraDataGas gas)) by (unfold is_u64; lia).
  rewrite Z.add_0_l, (u64_id (tx_Gas tx)) by (unfold is_u64; lia).
  rewrite (u32_id np) by (unfold is_u32; lia).
  assert (Hpg : ∃ g, (if MaxFreeParents (Dag rules) <? np
      then u64 (u32 (np - MaxFreeParents (Dag rules)) * ParentGas gas) else 0) = g ∧
    0 <= g <= (MaxParents (Dag rules) - MaxFreeParents (Dag rules)) * ParentGas gas).
  { eexists. split; [done|]. destruct (Z.ltb_spec (MaxFreeParents (Dag rules)) np); [|lia].
    rewrite u32_id by (unfold is_u32; lia).
    assert (0 <= (np - MaxFreeParents (Dag rules)) * ParentGas gas
      <= (MaxParents (Dag rules) - MaxFreeParents (Dag rules)) * ParentGas gas) by nia.
    rewrite u64_id by (unfold is_u64; lia). lia. }
  destruct Hpg as (g & -> & Hg).
  rewrite u64_id by (unfold is_u64; lia). lia.
Qed.

Definition demo_limit_payload : EventPayload Hash :=
  mkEventPayload (ep_event demo_payload) (ep_sig demo_payload)
    [mkTransaction LegacyTxType 0 (MaxGasLimit MainNetRules) 1 0 None [] 27 1 1 0 []] 0.

Lemma max_gas_limit_fits_witness :
  CalcGasPowerUsed demo_limit_payload MainNetRules <= MaxEventGas (GasR (Economy MainNetRules)).
Proof.
  apply (max_gas_limit_fits demo_limit_payload
    (mkTransaction LegacyTxType 0 (MaxGasLimit MainNetRules) 1 0 None [] 27 1 1 0 []) MainNetRules);
    vm_compute; repeat split; discriminate.
Defined.
