(* ===== verification/BlockProc.v ===== *)
(** * Block and epoch states (gossip/blockproc)

    The state kept per block and per epoch, the confirmed-events processor that
    tracks validators' activity, and the sealer that closes an epoch; with the
    merging of cheaters and the spilling of events of gossip/c_block_callbacks.go. *)

From S2P Require Import Prelude Cser Inter Instances Rules Pos GasPower.

(** ** decided_state.go, profiles.go *)

Record ValidatorBlockState (EventID : Type) := mkVBS {
  Cheater : bool;
  LastEvent : EventID;
  Uptime : Z;
  LastOnlineTime : Z;
  LastGasPowerLeft : GasPowerLeft;
  LastBlock : Z;
  DirtyGasRefund : Z;
  Originated : Z;
}.
Arguments mkVBS {EventID}. Arguments Cheater {EventID}. Arguments LastEvent {EventID}.
Arguments Uptime {EventID}. Arguments LastOnlineTime {EventID}. Arguments LastGasPowerLeft {EventID}.
Arguments LastBlock {EventID}. Arguments DirtyGasRefund {EventID}. Arguments Originated {EventID}.

Record ValidatorEpochState (EventID : Type) := mkVES {
  ves_GasRefund : Z;
  ves_PrevEpochEvent : EventID;
}.
Arguments mkVES {EventID}. Arguments ves_GasRefund {EventID}. Arguments ves_PrevEpochEvent {EventID}.

Record BlockCtx (EventID : Type) := mkBlockCtx {
  bc_Idx : Z;
  bc_Time : Z;
  bc_Atropos : EventID;
}.
Arguments mkBlockCtx {EventID}. Arguments bc_Idx {EventID}. Arguments bc_Time {EventID}.
Arguments bc_Atropos {EventID}.

(** drivertype.Validator *)
Record Validator := mkValidator { Weight : Z; vPubKey : PubKey }.

Record BlockState (EventID : Type) := mkBlockState {
  bs_LastBlock : BlockCtx EventID;
  bs_FinalizedStateRoot : list Z;
  bs_EpochGas : Z;
  bs_EpochCheaters : list Z;
  bs_ValidatorStates : list (ValidatorBlockState EventID);
  bs_NextValidatorProfiles : gmap Z Validator;
  bs_DirtyRules : Rules;
  bs_AdvanceEpochs : Z;
}.
Arguments mkBlockState {EventID}. Arguments bs_LastBlock {EventID}.
Arguments bs_FinalizedStateRoot {EventID}. Arguments bs_EpochGas {EventID}.
Arguments bs_EpochCheaters {EventID}. Arguments bs_ValidatorStates {EventID}.
Arguments bs_NextValidatorProfiles {EventID}. Arguments bs_DirtyRules {EventID}.
Arguments bs_AdvanceEpochs {EventID}.

Record EpochState (V EventID : Type) := mkEpochState {
  es_Epoch : Z;
  es_EpochStart : Z;
  es_PrevEpochStart : Z;
  es_EpochStateRoot : list Z;
  es_Validators : V;
  es_ValidatorStates : list (ValidatorEpochState EventID);
  es_ValidatorProfiles : gmap Z Validator;
  es_Rules : Rules;
}.
Arguments mkEpochState {V EventID}. Arguments es_Epoch {V EventID}. Arguments es_EpochStart {V EventID}.
Arguments es_PrevEpochStart {V EventID}. Arguments es_EpochStateRoot {V EventID}.
Arguments es_Validators {V EventID}. Arguments es_ValidatorStates {V EventID}.
Arguments es_ValidatorProfiles {V EventID}. Arguments es_Rules {V EventID}.

(** Assignments to single fields. *)
Section setters.
Context {V EventID : Type}.

Definition set_VStates (l : list (ValidatorBlockState EventID)) (bs : BlockState EventID) :=
  mkBlockState (bs_LastBlock bs) (bs_FinalizedStateRoot bs) (bs_EpochGas bs) (bs_EpochCheaters bs) l
    (bs_NextValidatorProfiles bs) (bs_DirtyRules bs) (bs_AdvanceEpochs bs).
Definition set_EpochGas (g : Z) (bs : BlockState EventID) :=
  mkBlockState (bs_LastBlock bs) (bs_FinalizedStateRoot bs) g (bs_EpochCheaters bs)
    (bs_ValidatorStates bs) (bs_NextValidatorProfiles bs) (bs_DirtyRules bs) (bs_AdvanceEpochs bs).
Definition set_Cheaters (c : list Z) (bs : BlockState EventID) :=
  mkBlockState (bs_LastBlock bs) (bs_FinalizedStateRoot bs) (bs_EpochGas bs) c
    (bs_ValidatorStates bs) (bs_NextValidatorProfiles bs) (bs_DirtyRules bs) (bs_AdvanceEpochs bs).
Definition set_Profiles (p : gmap Z Validator) (bs : BlockState EventID) :=
  mkBlockState (bs_LastBlock bs) (bs_FinalizedStateRoot bs) (bs_EpochGas bs) (bs_EpochCheaters bs)
    (bs_ValidatorStates bs) p (bs_DirtyRules bs) (bs_AdvanceEpochs bs).
Definition set_DirtyRules (r : Rules) (bs : BlockState EventID) :=
  mkBlockState (bs_LastBlock bs) (bs_FinalizedStateRoot bs) (bs_EpochGas bs) (bs_EpochCheaters bs)
    (bs_ValidatorStates bs) (bs_NextValidatorProfiles bs) r (bs_AdvanceEpochs bs).
Definition set_AdvanceEpochs (n : Z) (bs : BlockState EventID) :=
  mkBlockState (bs_LastBlock bs) (bs_FinalizedStateRoot bs) (bs_EpochGas bs) (bs_EpochCheaters bs)
    (bs_ValidatorStates bs) (bs_NextValidatorProfiles bs) (bs_DirtyRules bs) n.
Definition set_Final (root : list Z) (last : BlockCtx EventID) (bs : BlockState EventID) :=
  mkBlockState last root (bs_EpochGas bs) (bs_EpochCheaters bs)
    (bs_ValidatorStates bs) (bs_NextValidatorProfiles bs) (bs_DirtyRules bs) (bs_AdvanceEpochs bs).
End setters.

(** A write to a slice element; out of range is a panic. *)
Definition update {A} (l : list A) (i : Z) (x : A) : res (list A) :=
  if (0 <=? i) && (i <? len l) then Ok (<[Z.to_nat i := x]> l) else Panic.

Section states.
Context {EventID : Type} `{EventIDs EventID} {V : Type} `{Pos V}.

(** The methods return a pointer into the slice. *)
Definition BlockState_GetValidatorState (bs : BlockState EventID) (id : Z) (validators : V)
  : res (ValidatorBlockState EventID) :=
  index (bs_ValidatorStates bs) (vv_GetIdx validators id).

Definition EpochState_GetValidatorState (es : EpochState V EventID) (id : Z) (validators : V)
  : res (ValidatorEpochState EventID) :=
  index (es_ValidatorStates es) (vv_GetIdx validators id).

Definition EpochState_Duration (es : EpochState V EventID) : Z :=
  u64 (es_EpochStart es - es_PrevEpochStart es).

(** ** sealmodule/sealer.go *)

Definition EpochSealing (block : BlockCtx EventID) (bs : BlockState EventID) (es : EpochState V EventID)
  : bool :=
  (MaxEpochGas (Epochs (es_Rules es)) <=? bs_EpochGas bs)
  || (MaxEpochDuration (Epochs (es_Rules es)) <=? u64 (bc_Time block - es_EpochStart es))
  || (0 <? bs_AdvanceEpochs bs)
  || negb (len (bs_EpochCheaters bs) =? 0).

(** [builder.Build()] of the big-weights builder, outside the repository. *)
Variable BigBuilder_Build : gmap Z Z → V.

(** The states of the validator at a new index. *)
Definition inherit_state (block : BlockCtx EventID) (bs : BlockState EventID) (oldValidators : V)
    (valID : Z) : res (ValidatorBlockState EventID * ValidatorEpochState EventID) :=
  if negb (vv_Exists oldValidators valID) then
    Ok (mkVBS false zero_ID 0 (bc_Time block) GasPowerLeft_zero (bc_Idx block) 0 0, mkVES 0 zero_ID)
  else
    old ← index (bs_ValidatorStates bs) (vv_GetIdx oldValidators valID);
    Ok (mkVBS (Cheater old) (LastEvent old) 0 (LastOnlineTime old) (LastGasPowerLeft old)
          (LastBlock old) 0 (Originated old),
        mkVES (DirtyGasRefund old) (LastEvent old)).

(** [for newValIdx := 0; newValIdx < newValidators.Len(); newValIdx++] *)
Fixpoint inherit_states (block : BlockCtx EventID) (bs : BlockState EventID) (oldValidators : V)
    (ids : list Z) : res (list (ValidatorBlockState EventID * ValidatorEpochState EventID)) :=
  match ids with
  | [] => Ok []
  | id :: ids' =>
      s ← inherit_state block bs oldValidators id;
      l ← inherit_states block bs oldValidators ids';
      Ok (s :: l)
  end.

Definition SealEpoch (block : BlockCtx EventID) (bs : BlockState EventID) (es : EpochState V EventID)
  : res (BlockState EventID * EpochState V EventID) :=
  let oldValidators := es_Validators es in
  let newValidators := BigBuilder_Build (Weight <$> bs_NextValidatorProfiles bs) in
  states ← inherit_states block bs oldValidators (vv_IDs newValidators);
  Ok (mkBlockState (bs_LastBlock bs) (bs_FinalizedStateRoot bs) 0 [] states.*1
        (bs_NextValidatorProfiles bs) (bs_DirtyRules bs)
        (if 0 <? bs_AdvanceEpochs bs then u32 (bs_AdvanceEpochs bs - 1) else bs_AdvanceEpochs bs),
      mkEpochState (u32 (es_Epoch es + 1)) (bc_Time block) (es_EpochStart es)
        (bs_FinalizedStateRoot bs) newValidators states.*2 (bs_NextValidatorProfiles bs)
        (bs_DirtyRules bs)).

(** ** eventmodule/confirmed_events_processor.go *)

Record EventsProcessor := mkEventsProcessor {
  vp_es : EpochState V EventID;
  vp_bs : BlockState EventID;
  vp_highest : list (option (Event EventID));
}.

Definition Events_Start (bs : BlockState EventID) (es : EpochState V EventID) : EventsProcessor :=
  mkEventsProcessor es bs (replicate (Z.to_nat (vv_Len (es_Validators es))) None).

Definition ProcessConfirmedEvent (p : EventsProcessor) (e : Event EventID) : res EventsProcessor :=
  let creatorIdx := vv_GetIdx (es_Validators (vp_es p)) (Creator (ev_base e)) in
  prev ← index (vp_highest p) creatorIdx;
  highest ← (if match prev with None => true | Some pe => Seq (ev_base pe) <? Seq (ev_base e) end
             then update (vp_highest p) creatorIdx (Some e) else Ok (vp_highest p));
  Ok (mkEventsProcessor (vp_es p)
        (set_EpochGas (u64 (bs_EpochGas (vp_bs p) + gasPowerUsed (ev_ext e))) (vp_bs p)) highest).

(** The first loop of [Finalize]: cheaters' events are dropped. *)
Fixpoint drop_cheaters (validators : V) (cheaters : list Z) (highest : list (option (Event EventID)))
  : res (list (option (Event EventID))) :=
  match cheaters with
  | [] => Ok highest
  | v :: cheaters' =>
      highest ← update highest (vv_GetIdx validators v) None;
      drop_cheaters validators cheaters' highest
  end.

(** The body of the second loop. *)
Definition update_info (block : BlockCtx EventID) (es : EpochState V EventID) (e : Event EventID)
    (info : ValidatorBlockState EventID) : ValidatorBlockState EventID :=
  let mt := medianTime (ev_ext e) in
  let uptime :=
    if bc_Idx block <=? u64 (LastBlock info + BlockMissedSlack (Economy (es_Rules es))) then
      let prevOnlineTime :=
        if Berlin (Upgr (es_Rules es)) then MaxTimestamp (LastOnlineTime info) (es_EpochStart es)
        else LastOnlineTime info in
      if prevOnlineTime <? mt then u64 (Uptime info + u64 (mt - prevOnlineTime)) else Uptime info
    else Uptime info in
  mkVBS (Cheater info) (ID (ev_base e)) uptime mt (gasPowerLeft (ev_ext e)) (bc_Idx block)
    (DirtyGasRefund info) (Originated info).

(** [for creatorIdx, e := range p.validatorHighestEvents]: the states beyond the
    highest events are left alone, a missing state is a panic. *)
Fixpoint update_infos (block : BlockCtx EventID) (es : EpochState V EventID)
    (highest : list (option (Event EventID))) (infos : list (ValidatorBlockState EventID))
  : res (list (ValidatorBlockState EventID)) :=
  match highest, infos with
  | [], _ => Ok infos
  | None :: highest', [] => update_infos block es highest' []
  | Some _ :: _, [] => Panic
  | None :: highest', info :: infos' =>
      l ← update_infos block es highest' infos'; Ok (info :: l)
  | Some e :: highest', info :: infos' =>
      l ← update_infos block es highest' infos'; Ok (update_info block es e info :: l)
  end.

Definition Events_Finalize (p : EventsProcessor) (block : BlockCtx EventID) : res (BlockState EventID) :=
  highest ← drop_cheaters (es_Validators (vp_es p)) (bs_EpochCheaters (vp_bs p)) (vp_highest p);
  states ← update_infos block (vp_es p) highest (bs_ValidatorStates (vp_bs p));
  Ok (set_VStates states (vp_bs p)).

(** ** gossip/c_block_callbacks.go: cheaters and block size *)

Definition mergeCheaters (a b : list Z) : list Z :=
  if len b =? 0 then a
  else if len a =? 0 then b
  else a ++ filter (λ v, v ∉ a) b.

(** Events are taken from the last to the first until the gas exceeds the limit;
    [rev_events] is the reversed list, the result is in the original order. *)
Fixpoint spill_loop (GetEventPayload : EventID → option (EventPayload EventID)) (maxBlockGas : Z)
    (rev_events : list EventID) (gasPowerUsedSum : Z) (full : list (EventPayload EventID))
  : res (list (EventPayload EventID)) :=
  match rev_events with
  | [] => Ok full
  | id :: rest =>
      e ← deref (GetEventPayload id);
      let gasPowerUsedSum := u64 (gasPowerUsedSum + gasPowerUsed (ev_ext (ep_event e))) in
      if maxBlockGas <? gasPowerUsedSum then Ok full
      else spill_loop GetEventPayload maxBlockGas rest gasPowerUsedSum (e :: full)
  end.

(** The kept identifiers are the last ones, as many as the kept payloads. *)
Definition spillBlockEvents (GetEventPayload : EventID → option (EventPayload EventID))
    (events : list EventID) (network : Rules) : res (list EventID * list (EventPayload EventID)) :=
  full ← spill_loop GetEventPayload (MaxBlockGas (Blocks network)) (reverse events) 0 [];
  Ok (drop (length events - length full) events, full).

(** ** Well-formed states *)

Definition states_ok (bs : BlockState EventID) (es : EpochState V EventID) : Prop :=
  length (bs_ValidatorStates bs) = length (vv_IDs (es_Validators es)) ∧
  length (es_ValidatorStates es) = length (vv_IDs (es_Validators es)).

Context `{!PosLaws V}.

Lemma index_Exists {A} (validators : V) (l : list A) id :
  length l = length (vv_IDs validators) → id ∈ vv_IDs validators →
  ∃ x, index l (vv_GetIdx validators id) = Ok x ∧ l !! Z.to_nat (vv_GetIdx validators id) = Some x.
Proof.
  intros Hl Hin. destruct (vv_GetIdx_in _ _ Hin) as [Hp _]. pose proof (vv_GetIdx_lt _ _ Hin).
  apply index_Ok. unfold len. lia.
Qed.

Lemma update_Exists {A} (validators : V) (l : list A) id x :
  length l = length (vv_IDs validators) → id ∈ vv_IDs validators →
  update l (vv_GetIdx validators id) x = Ok (<[Z.to_nat (vv_GetIdx validators id) := x]> l).
Proof.
  intros Hl Hin. destruct (vv_GetIdx_in _ _ Hin) as [Hp _]. pose proof (vv_GetIdx_lt _ _ Hin).
  unfold update, len. rewrite (proj2 (Z.leb_le _ _)), (proj2 (Z.ltb_lt _ _)) by lia. done.
Qed.

(** ** Sealing *)

Lemma inherit_states_spec block bs (oldV : V) ids :
  length (bs_ValidatorStates bs) = length (vv_IDs oldV) →
  ∃ l, inherit_states block bs oldV ids = Ok l ∧
    Forall2 (λ id s, inherit_state block bs oldV id = Ok s) ids l.
Proof.
  intros Hl. induction ids as [|id ids (l & E & Hf)]; [by exists []; split|].
  assert (Hs : ∃ s, inherit_state block bs oldV id = Ok s).
  { unfold inherit_state, vv_Exists. case_bool_decide as Hin; cbn [negb]; [|by eexists].
    destruct (index_Exists oldV (bs_ValidatorStates bs) id Hl Hin) as (x & -> & _). by eexists. }
  destruct Hs as [s Hs]. exists (s :: l). cbn [inherit_states]. rewrite Hs, E. split; [done|].
  by constructor.
Qed.

(** What sealing does to one validator of the new epoch. *)
Definition inherited (block : BlockCtx EventID) (bs : BlockState EventID) (oldV : V) (id : Z)
    (nbs : ValidatorBlockState EventID) (nes : ValidatorEpochState EventID) : Prop :=
  Uptime nbs = 0 ∧ DirtyGasRefund nbs = 0 ∧
  if bool_decide (id ∈ vv_IDs oldV) then
    ∃ old, bs_ValidatorStates bs !! Z.to_nat (vv_GetIdx oldV id) = Some old ∧
      Cheater nbs = Cheater old ∧ LastEvent nbs = LastEvent old ∧
      LastOnlineTime nbs = LastOnlineTime old ∧ LastBlock nbs = LastBlock old ∧
      LastGasPowerLeft nbs = LastGasPowerLeft old ∧ Originated nbs = Originated old ∧
      ves_GasRefund nes = DirtyGasRefund old ∧ ves_PrevEpochEvent nes = LastEvent old
  else
    Cheater nbs = false ∧ LastOnlineTime nbs = bc_Time block ∧ LastBlock nbs = bc_Idx block ∧
    Originated nbs = 0 ∧ ves_GasRefund nes = 0 ∧ ves_PrevEpochEvent nes = zero_ID.

Lemma inherit_state_inherited block bs (oldV : V) id s :
  inherit_state block bs oldV id = Ok s → inherited block bs oldV id s.1 s.2.
Proof.
  unfold inherit_state, inherited, vv_Exists. case_bool_decide as Hin; cbn [negb].
  - destruct (index _ _) as [old| |] eqn:E; try done. intros [= <-]. cbn. split_and!; try done.
    exists old. split_and!; try done. unfold index in E. destruct (_ <? 0); [done|].
    by destruct (_ !! _); simplify_eq.
  - intros [= <-]. done.
Qed.

Lemma SealEpoch_spec block bs es :
  states_ok bs es →
  let newV := BigBuilder_Build (Weight <$> bs_NextValidatorProfiles bs) in
  ∃ bs' es', SealEpoch block bs es = Ok (bs', es') ∧ states_ok bs' es' ∧
    es_Validators es' = newV ∧ es_Epoch es' = u32 (es_Epoch es + 1) ∧
    es_EpochStart es' = bc_Time block ∧ es_PrevEpochStart es' = es_EpochStart es ∧
    es_Rules es' = bs_DirtyRules bs ∧ bs_DirtyRules bs' = bs_DirtyRules bs ∧
    es_ValidatorProfiles es' = bs_NextValidatorProfiles bs ∧
    bs_EpochGas bs' = 0 ∧ bs_EpochCheaters bs' = [] ∧
    bs_AdvanceEpochs bs' =
      (if 0 <? bs_AdvanceEpochs bs then u32 (bs_AdvanceEpochs bs - 1) else bs_AdvanceEpochs bs) ∧
    ∀ i id, vv_IDs newV !! i = Some id →
      ∃ nbs nes, bs_ValidatorStates bs' !! i = Some nbs ∧ es_ValidatorStates es' !! i = Some nes ∧
        inherited block bs (es_Validators es) id nbs nes.
Proof.
  intros [Hl _] newV.
  destruct (inherit_states_spec block bs (es_Validators es) (vv_IDs newV) Hl) as (l & E & Hf).
  eexists _, _. unfold SealEpoch. fold newV. rewrite E. split; [done|].
  pose proof (Forall2_length _ _ _ Hf) as Hlen.
  unfold states_ok. cbn. rewrite !length_fmap. split_and!; try done.
  intros i id Hi. destruct (Forall2_lookup_l _ _ _ _ _ Hf Hi) as (s & Hs & Hin).
  exists s.1, s.2. rewrite !list_lookup_fmap, Hs. split_and!; [done..|].
  by apply inherit_state_inherited.
Qed.

(** ** The theorems on sealing *)

(** C22: sealing an epoch never fails on well-formed states and gives well-formed
    states of the next epoch: the new validators are those of the pending profiles,
    a validator that stays keeps its history while its pending gas refund and last
    event become those of the epoch, a new one starts online at the sealing block,
    the pending rules become active, and the gas and cheaters are reset. *)
Theorem seal_epoch_correct block bs es :
  states_ok bs es →
  let newV := BigBuilder_Build (Weight <$> bs_NextValidatorProfiles bs) in
  ∃ bs' es', SealEpoch block bs es = Ok (bs', es') ∧ states_ok bs' es' ∧
    es_Validators es' = newV ∧ es_Epoch es' = u32 (es_Epoch es + 1) ∧
    es_EpochStart es' = bc_Time block ∧ es_PrevEpochStart es' = es_EpochStart es ∧
    es_Rules es' = bs_DirtyRules bs ∧ bs_EpochGas bs' = 0 ∧ bs_EpochCheaters bs' = [] ∧
    ∀ i id, vv_IDs newV !! i = Some id →
      ∃ nbs nes, bs_ValidatorStates bs' !! i = Some nbs ∧ es_ValidatorStates es' !! i = Some nes ∧
        inherited block bs (es_Validators es) id nbs nes.
Proof.
  intros Hok newV. destruct (SealEpoch_spec block bs es Hok) as (bs' & es' & Hs).
  exists bs', es'. fold newV in Hs. naive_solver.
Qed.

(** A sealed epoch is not due for sealing again in the same block, unless epochs
    were asked to be advanced: then one fewer remains. *)
Theorem sealed_epoch_fresh block bs es bs' es' :
  states_ok bs es → is_u32 (bs_AdvanceEpochs bs) →
  0 < MaxEpochGas (Epochs (bs_DirtyRules bs)) → 0 < MaxEpochDuration (Epochs (bs_DirtyRules bs)) →
  SealEpoch block bs es = Ok (bs', es') →
  EpochSealing block bs' es' = (1 <? bs_AdvanceEpochs bs).
Proof.
  intros Hok Ha Hg Hd E. destruct (SealEpoch_spec block bs es Hok) as
    (bs1 & es1 & E1 & _ & _ & _ & Hst & _ & Hr & _ & _ & Hgas & Hch & Hadv & _).
  rewrite E in E1. injection E1 as <- <-. unfold EpochSealing.
  rewrite Hgas, Hch, Hadv, Hr, Hst, Z.sub_diag. change (u64 0) with 0.
  rewrite !(proj2 (Z.leb_gt _ _)) by done. change (len [] =? 0) with true. cbn [negb orb].
  rewrite orb_false_r. unfold is_u32 in Ha. destruct (Z.ltb_spec 0 (bs_AdvanceEpochs bs)).
  - rewrite u32_id by (unfold is_u32; lia).
    destruct (Z.ltb_spec 0 (bs_AdvanceEpochs bs - 1)), (Z.ltb_spec 1 (bs_AdvanceEpochs bs)); done || lia.
  - destruct (Z.ltb_spec 0 (bs_AdvanceEpochs bs)), (Z.ltb_spec 1 (bs_AdvanceEpochs bs)); done || lia.
Qed.

(** ** Confirmed events *)

Fixpoint ProcessConfirmedEvents (p : EventsProcessor) (l : list (Event EventID)) : res EventsProcessor :=
  match l with
  | [] => Ok p
  | e :: l' => p ← ProcessConfirmedEvent p e; ProcessConfirmedEvents p l'
  end.

(** The entry of a validator after some events: its event of the highest sequence
    number, the first of them when there are several. *)
Definition highest_among (v : Z) (l : list (Event EventID)) (h : option (Event EventID)) : Prop :=
  match h with
  | None => Forall (λ e, Creator (ev_base e) ≠ v) l
  | Some e => e ∈ l ∧ Creator (ev_base e) = v ∧
      Forall (λ e', Creator (ev_base e') = v → Seq (ev_base e') <= Seq (ev_base e)) l
  end.

Definition highest_ok (validators : V) (l : list (Event EventID)) (hs : list (option (Event EventID))) : Prop :=
  length hs = length (vv_IDs validators) ∧
  ∀ v, v ∈ vv_IDs validators → ∃ h, hs !! Z.to_nat (vv_GetIdx validators v) = Some h ∧ highest_among v l h.

Lemma highest_ok_start (validators : V) :
  highest_ok validators [] (replicate (Z.to_nat (vv_Len validators)) None).
Proof.
  unfold highest_ok, vv_Len, len. rewrite Nat2Z.id, length_replicate. split; [done|].
  intros v Hv. exists None. split; [|constructor]. apply lookup_replicate_2, vv_GetIdx_lt, Hv.
Qed.

Lemma GetIdx_ne (validators : V) a b :
  a ∈ vv_IDs validators → b ∈ vv_IDs validators → a ≠ b →
  Z.to_nat (vv_GetIdx validators a) ≠ Z.to_nat (vv_GetIdx validators b).
Proof.
  intros Ha Hb Hne E. apply Hne, (vv_GetIdx_inj validators); [done..|].
  destruct (vv_GetIdx_in _ _ Ha), (vv_GetIdx_in _ _ Hb). lia.
Qed.

Lemma highest_among_snoc_other v l e h :
  Creator (ev_base e) ≠ v → highest_among v l h → highest_among v (l ++ [e]) h.
Proof.
  intros Hne. destruct h as [h|]; cbn; rewrite Forall_app, Forall_singleton; [|naive_solver].
  intros (? & ? & ?). split_and!; [set_solver|done|done|done].
Qed.

Lemma highest_among_snoc v l e h :
  Creator (ev_base e) = v → highest_among v l h →
  highest_among v (l ++ [e])
    (if match h with None => true | Some pe => Seq (ev_base pe) <? Seq (ev_base e) end
     then Some e else h).
Proof.
  intros Hv. destruct h as [h|]; cbn [highest_among].
  - intros (Hin & Hc & Hmax). destruct (Z.ltb_spec (Seq (ev_base h)) (Seq (ev_base e))) as [Hlt|Hge];
      cbn; rewrite Forall_app, Forall_singleton; split_and!; try done; try set_solver.
    eapply Forall_impl; [exact Hmax|]. cbn. intros e' He' Hc'. specialize (He' Hc'). lia.
  - intros Hno. cbn. rewrite Forall_app, Forall_singleton. split_and!; try done; [set_solver|].
    eapply Forall_impl; [exact Hno|]. naive_solver.
Qed.

Lemma ProcessConfirmedEvent_spec p l e :
  Creator (ev_base e) ∈ vv_IDs (es_Validators (vp_es p)) →
  highest_ok (es_Validators (vp_es p)) l (vp_highest p) →
  ∃ p', ProcessConfirmedEvent p e = Ok p' ∧ vp_es p' = vp_es p ∧
    vp_bs p' = set_EpochGas (u64 (bs_EpochGas (vp_bs p) + gasPowerUsed (ev_ext e))) (vp_bs p) ∧
    highest_ok (es_Validators (vp_es p)) (l ++ [e]) (vp_highest p').
Proof.
  intros Hin [Hl Hh]. set (vs := es_Validators (vp_es p)) in *. set (c := Creator (ev_base e)) in *.
  destruct (index_Exists vs (vp_highest p) c Hl Hin) as (prev & E & Hprev).
  unfold ProcessConfirmedEvent. fold vs c. rewrite E. cbn [mbind res_bind].
  destruct (Hh c Hin) as (h & Hh1 & Hh2). rewrite Hprev in Hh1. injection Hh1 as <-.
  pose proof (highest_among_snoc c l e prev eq_refl Hh2) as Hnew.
  set (b := match prev with None => true | Some pe => _ end) in *.
  set (hs := if b then <[Z.to_nat (vv_GetIdx vs c) := Some e]> (vp_highest p) else vp_highest p).
  replace (if b then _ else _) with (Ok hs) by (subst hs; destruct b; [by rewrite update_Exists|done]).
  cbn [mbind res_bind]. eexists. split_and!; [done..|]. split.
  { cbn. subst hs. destruct b; [by rewrite length_insert|done]. }
  intros v Hv. destruct (decide (v = c)) as [->|Hne].
  - exists (if b then Some e else prev). split; [|done]. subst hs. destruct b; [|done].
    apply list_lookup_insert_eq. rewrite Hl. by apply vv_GetIdx_lt.
  - destruct (Hh v Hv) as (h & Hl' & Hhv). exists h. split; [|by apply highest_among_snoc_other].
    cbn. subst hs. destruct b; [|done]. rewrite list_lookup_insert_ne; [done|].
    apply GetIdx_ne; [done..|]. by intros ->.
Qed.

Lemma ProcessConfirmedEvents_spec p l0 l :
  Forall (λ e, Creator (ev_base e) ∈ vv_IDs (es_Validators (vp_es p))) l →
  highest_ok (es_Validators (vp_es p)) l0 (vp_highest p) →
  ∃ p', ProcessConfirmedEvents p l = Ok p' ∧ vp_es p' = vp_es p ∧
    vp_bs p' = set_EpochGas (foldl (λ g e, u64 (g + gasPowerUsed (ev_ext e))) (bs_EpochGas (vp_bs p)) l)
                 (vp_bs p) ∧
    highest_ok (es_Validators (vp_es p)) (l0 ++ l) (vp_highest p').
Proof.
  intros Hl. revert p l0 Hl. induction l as [|e l IH]; intros p l0 Hl Hh.
  { exists p. rewrite app_nil_r. split_and!; try done. by destruct (vp_bs p). }
  apply Forall_cons in Hl as [He Hl].
  destruct (ProcessConfirmedEvent_spec p l0 e He Hh) as (p1 & E1 & Hes1 & Hbs1 & Hh1).
  cbn [ProcessConfirmedEvents]. rewrite E1. cbn [mbind res_bind].
  destruct (IH p1 (l0 ++ [e])) as (p2 & E2 & Hes2 & Hbs2 & Hh2); [by rewrite Hes1..|].
  exists p2. rewrite Hes2, Hes1, Hbs2, Hbs1. split_and!; try done.
  rewrite Hes1, <- app_assoc in Hh2. done.
Qed.

(** after the confirmed events of a block, every validator's entry is its event
    of the highest sequence number among them, or empty when it has none, and the
    epoch's gas grew by the gas power used by the events. *)
Theorem confirmed_events_highest bs es l :
  Forall (λ e, Creator (ev_base e) ∈ vv_IDs (es_Validators es)) l →
  ∃ p, ProcessConfirmedEvents (Events_Start bs es) l = Ok p ∧
    (∀ v, v ∈ vv_IDs (es_Validators es) →
       ∃ h, vp_highest p !! Z.to_nat (vv_GetIdx (es_Validators es) v) = Some h ∧ highest_among v l h) ∧
    bs_EpochGas (vp_bs p) = foldl (λ g e, u64 (g + gasPowerUsed (ev_ext e))) (bs_EpochGas bs) l.
Proof.
  intros Hl. destruct (ProcessConfirmedEvents_spec (Events_Start bs es) [] l Hl) as
    (p & E & _ & Hbs & Hh); [apply highest_ok_start|].
  exists p. split_and!; [done|apply Hh|by rewrite Hbs].
Qed.

(** ** Finalizing *)

Lemma drop_cheaters_spec (validators : V) cheaters hs :
  length hs = length (vv_IDs validators) → Forall (λ c, c ∈ vv_IDs validators) cheaters →
  ∃ hs', drop_cheaters validators cheaters hs = Ok hs' ∧ length hs' = length hs ∧
    ∀ v, v ∈ vv_IDs validators →
      hs' !! Z.to_nat (vv_GetIdx validators v) =
      if decide (v ∈ cheaters) then Some None else hs !! Z.to_nat (vv_GetIdx validators v).
Proof.
  revert hs. induction cheaters as [|c cs IH]; intros hs Hl Hc; cbn [drop_cheaters].
  { exists hs. split_and!; [done..|]. intros v Hv. by rewrite decide_False by (by intros ?%elem_of_nil). }
  apply Forall_cons in Hc as [Hc Hcs]. rewrite update_Exists by done. cbn [mbind res_bind].
  destruct (IH (<[Z.to_nat (vv_GetIdx validators c) := None]> hs)) as (hs' & E & Hl' & Hspec);
    [by rewrite length_insert|done|].
  exists hs'. rewrite length_insert in Hl'. split_and!; [done..|]. intros v Hv. rewrite Hspec by done.
  destruct (decide (v = c)) as [->|Hne].
  - rewrite (decide_True _ _ (P := c ∈ c :: cs)) by set_solver.
    rewrite list_lookup_insert_eq by (rewrite Hl; by apply vv_GetIdx_lt). by case_decide.
  - rewrite list_lookup_insert_ne by (apply GetIdx_ne; [done..|]; by intros ->).
    repeat case_decide; done || set_solver.
Qed.

Lemma update_infos_spec block es hs infos :
  length infos = length hs →
  ∃ infos', update_infos block es hs infos = Ok infos' ∧ length infos' = length infos ∧
    ∀ i info, infos !! i = Some info →
      infos' !! i = Some (match hs !! i with
                          | Some (Some e) => update_info block es e info
                          | _ => info
                          end).
Proof.
  revert infos. induction hs as [|h hs IH]; intros [|info infos] Hl; try done.
  { exists []. done. }
  cbn in Hl. destruct (IH infos ltac:(lia)) as (infos' & E & Hl' & Hs).
  exists ((match h with Some e => update_info block es e info | None => info end) :: infos').
  cbn [update_infos]. rewrite E. split; [by destruct h|]. split; [cbn; lia|].
  intros [|i] x Hx; cbn in *; [|by apply Hs]. injection Hx as <-. by destruct h.
Qed.

(** at the end of a block, a validator that has confirmed events and is not a
    cheater gets the data of its highest event, and every other validator's state is
    unchanged; nothing panics when creators and cheaters are validators. *)
Theorem events_finalize_correct block bs es l :
  states_ok bs es →
  Forall (λ e, Creator (ev_base e) ∈ vv_IDs (es_Validators es)) l →
  Forall (λ c, c ∈ vv_IDs (es_Validators es)) (bs_EpochCheaters bs) →
  ∃ p bs', ProcessConfirmedEvents (Events_Start bs es) l = Ok p ∧
    Events_Finalize p block = Ok bs' ∧ states_ok bs' es ∧
    ∀ v info, v ∈ vv_IDs (es_Validators es) →
      bs_ValidatorStates bs !! Z.to_nat (vv_GetIdx (es_Validators es) v) = Some info →
      ∃ h, highest_among v l h ∧
        bs_ValidatorStates bs' !! Z.to_nat (vv_GetIdx (es_Validators es) v) =
        Some (match h with
              | Some e => if decide (v ∈ bs_EpochCheaters bs) then info else update_info block es e info
              | None => info
              end).
Proof.
  intros [Hl1 Hl2] Hl Hc. destruct (ProcessConfirmedEvents_spec (Events_Start bs es) [] l Hl) as
    (p & E & Hes & Hbs & [Hhl Hh]); [apply highest_ok_start|]. cbn in Hes, Hbs, Hhl, Hh.
  assert (Hch : bs_EpochCheaters (vp_bs p) = bs_EpochCheaters bs) by (by rewrite Hbs).
  assert (Hvs : bs_ValidatorStates (vp_bs p) = bs_ValidatorStates bs) by (by rewrite Hbs).
  destruct (drop_cheaters_spec (es_Validators es) (bs_EpochCheaters bs) (vp_highest p) Hhl Hc)
    as (hs & Ed & Hlen & Hspec).
  destruct (update_infos_spec block es hs (bs_ValidatorStates bs)) as (infos & Eu & Hli & Hi); [lia|].
  exists p, (set_VStates infos (vp_bs p)). split; [done|].
  unfold Events_Finalize. rewrite Hes, Hch, Hvs, Ed. cbn [mbind res_bind]. rewrite Eu.
  split; [done|]. split; [unfold states_ok; cbn; lia|].
  intros v info Hv Hinfo. destruct (Hh v Hv) as (h & Hhv & Hamong). exists h. split; [done|].
  cbn. rewrite (Hi _ _ Hinfo), Hspec, Hhv by done. case_decide; by destruct h.
Qed.

(** ** Uptime *)

(** A validator is not online longer than the epoch has lasted for it. *)
Definition uptime_ok (es : EpochState V EventID) (info : ValidatorBlockState EventID) : Prop :=
  0 <= Uptime info <= Z.max 0 (LastOnlineTime info - es_EpochStart es).

(** With the Berlin upgrade, and as long as the median times of a validator's
    events do not go back, the uptime credited to it never exceeds the time from
    the epoch's start to its last online time. *)
Theorem uptime_bounded block es e info :
  Berlin (Upgr (es_Rules es)) = true → is_u64 (es_EpochStart es) →
  is_u64 (LastOnlineTime info) → is_u64 (medianTime (ev_ext e)) →
  LastOnlineTime info <= medianTime (ev_ext e) →
  uptime_ok es info → uptime_ok es (update_info block es e info).
Proof.
  intros Hb Hs Hl Ht Hmono [H1' H2']. unfold uptime_ok, update_info. cbn. rewrite Hb.
  unfold MaxTimestamp. set (mt := medianTime (ev_ext e)) in *.
  destruct (_ <=? u64 _); [|split; lia].
  set (prev := if es_EpochStart es <? LastOnlineTime info then _ else _).
  assert (Hp : prev = Z.max (es_EpochStart es) (LastOnlineTime info)).
  { subst prev. destruct (Z.ltb_spec (es_EpochStart es) (LastOnlineTime info)); lia. }
  unfold is_u64 in *. destruct (Z.ltb_spec prev mt); [|split; lia].
  rewrite (u64_id (mt - prev)) by (unfold is_u64; lia).
  rewrite u64_id by (unfold is_u64; lia). lia.
Qed.

(** ** Cheaters and block size *)

(** Merging keeps every cheater of both lists and adds no duplicate. *)
Theorem merge_cheaters_complete a b :
  (∀ v, v ∈ mergeCheaters a b ↔ v ∈ a ∨ v ∈ b) ∧
  (NoDup a → NoDup b → NoDup (mergeCheaters a b)).
Proof.
  unfold mergeCheaters. destruct (Z.eqb_spec (len b) 0) as [Hb|Hb].
  { assert (b = []) as -> by (apply nil_length_inv; unfold len in Hb; lia). split; [set_solver|done]. }
  destruct (Z.eqb_spec (len a) 0) as [Ha|Ha].
  { assert (a = []) as -> by (apply nil_length_inv; unfold len in Ha; lia). split; [set_solver|done]. }
  split.
  - intros v. rewrite elem_of_app, list_elem_of_filter. destruct (decide (v ∈ a)); tauto.
  - intros Hna Hnb. apply NoDup_app. split_and!; [done| |by apply NoDup_filter].
    intros v Hv. rewrite list_elem_of_filter. tauto.
Qed.

Definition gas_sum (l : list (EventPayload EventID)) : Z :=
  sum_Z ((λ e, gasPowerUsed (ev_ext (ep_event e))) <$> l).

Lemma gas_sum_cons e l : gas_sum (e :: l) = gasPowerUsed (ev_ext (ep_event e)) + gas_sum l.
Proof. done. Qed.

Lemma gas_sum_app l k : gas_sum (l ++ k) = gas_sum l + gas_sum k.
Proof. unfold gas_sum. by rewrite fmap_app, sum_Z_app. Qed.

Lemma gas_sum_nonneg l :
  Forall (λ e, 0 <= gasPowerUsed (ev_ext (ep_event e))) l → 0 <= gas_sum l.
Proof. intros. unfold gas_sum. apply sum_Z_nonneg. by apply Forall_fmap. Qed.

Lemma spill_loop_spec get maxGas ids ps full :
  Forall2 (λ id e, get id = Some e) ids ps →
  Forall (λ e, 0 <= gasPowerUsed (ev_ext (ep_event e))) ps →
  0 <= gas_sum full → gas_sum full + gas_sum ps < 2 ^ 64 → gas_sum full <= maxGas →
  ∃ k, (k <= length ps)%nat ∧
    spill_loop get maxGas ids (gas_sum full) full = Ok (reverse (take k ps) ++ full) ∧
    gas_sum (take k ps) + gas_sum full <= maxGas ∧
    (∀ e, ps !! k = Some e →
       maxGas < gas_sum (take k ps) + gas_sum full + gasPowerUsed (ev_ext (ep_event e))).
Proof.
  intros Hf. revert full. induction Hf as [|id e ids ps Hg Hf IH]; intros full Hnn Hpos Hsum Hmax.
  { exists 0%nat. change (gas_sum (take 0 [])) with 0. split_and!; [done|done|lia|done]. }
  apply Forall_cons in Hnn as [He Hnn]. rewrite gas_sum_cons in Hsum.
  pose proof (gas_sum_nonneg ps Hnn). cbn [spill_loop]. rewrite Hg. cbn [deref mbind res_bind].
  rewrite u64_id by (unfold is_u64; lia).
  destruct (Z.ltb_spec maxGas (gas_sum full + gasPowerUsed (ev_ext (ep_event e)))) as [Hlt|Hge].
  - exists 0%nat. change (gas_sum (take 0 (e :: ps))) with 0. split_and!; [lia|done|lia|].
    intros e' [= <-]. lia.
  - replace (gas_sum full + gasPowerUsed (ev_ext (ep_event e))) with (gas_sum (e :: full))
      by (rewrite gas_sum_cons; lia).
    destruct (IH (e :: full) Hnn) as (k & Hk & E & Hle & Hnext); [rewrite gas_sum_cons; lia..|].
    exists (S k). cbn [take length]. rewrite E, reverse_cons, <- app_assoc, !gas_sum_cons in *.
    split_and!; [lia|done|lia|]. intros e' He'. specialize (Hnext e' He'). lia.
Qed.

(** The events of a block are the longest run of its last confirmed events
    whose gas fits the block: their gas does not exceed the limit, and with one
    more event it would. *)
Theorem spill_block_events_maximal get events ps rules :
  Forall2 (λ id e, get id = Some e) events ps →
  Forall (λ e, 0 <= gasPowerUsed (ev_ext (ep_event e))) ps →
  gas_sum ps < 2 ^ 64 → 0 <= MaxBlockGas (Blocks rules) →
  ∃ n, (n <= length ps)%nat ∧
    spillBlockEvents get events rules = Ok (drop n events, drop n ps) ∧
    gas_sum (drop n ps) <= MaxBlockGas (Blocks rules) ∧
    (∀ m, n = S m → MaxBlockGas (Blocks rules) < gas_sum (drop m ps)).
Proof.
  intros Hf Hnn Hsum Hmax.
  destruct (spill_loop_spec get (MaxBlockGas (Blocks rules)) (reverse events) (reverse ps) [])
    as (k & Hk & E & Hle & Hnext).
  { by apply Forall2_reverse. }
  { by apply Forall_reverse. }
  { done. }
  { change (gas_sum []) with 0. unfold gas_sum in *. rewrite fmap_reverse.
    rewrite (sum_Z_perm _ _ (reverse_Permutation _)). lia. }
  { done. }
  rewrite length_reverse in Hk. pose proof (Forall2_length _ _ _ Hf) as Hlen.
  assert (Hrev : reverse (take k (reverse ps)) = drop (length ps - k) ps).
  { rewrite take_reverse, reverse_involutive. done. }
  exists (length ps - k)%nat. unfold spillBlockEvents. change 0 with (gas_sum []). rewrite E.
  cbn [mbind res_bind]. rewrite app_nil_r, Hrev, length_drop, Hlen.
  replace (length ps - (length ps - (length ps - k)))%nat with (length ps - k)%nat by lia.
  assert (Hg : gas_sum (take k (reverse ps)) = gas_sum (drop (length ps - k) ps)).
  { rewrite <- Hrev. unfold gas_sum. rewrite fmap_reverse.
    by rewrite (sum_Z_perm _ _ (reverse_Permutation _)). }
  change (gas_sum []) with 0 in *. rewrite Hg in *. split_and!; [lia|done|lia|].
  intros m Hm. destruct (lookup_lt_is_Some_2 ps m) as [e He]; [lia|].
  rewrite (drop_S _ _ _ He), gas_sum_cons. rewrite Hm in Hnext.
  specialize (Hnext e). rewrite reverse_lookup in Hnext by lia.
  replace (length ps - S k)%nat with m in Hnext by lia. specialize (Hnext He). lia.
Qed.
End states.

(** ** Concrete states: three validators in their seventh epoch *)

Definition demo_vbs : ValidatorBlockState Hash :=
  mkVBS false zero_ID 500 (90 * Second) GasPowerLeft_zero 10 33 1000.

Definition demo_bs : BlockState Hash :=
  mkBlockState (mkBlockCtx 10 (95 * Second) zero_ID) [] 1000 [2] (replicate 3 demo_vbs) ∅ MainNetRules 2.

Definition demo_es : EpochState Group Hash :=
  mkEpochState 7 (80 * Second) (60 * Second) [] demo_group (replicate 3 (mkVES 0 zero_ID)) ∅ FakeNetRules.

Definition demo_block : BlockCtx Hash := mkBlockCtx 11 (100 * Second) zero_ID.

Lemma demo_states_ok : states_ok demo_bs demo_es.
Proof. done. Qed.

Lemma seal_epoch_correct_witness :
  ∃ bs' es', SealEpoch (λ _, demo_group) demo_block demo_bs demo_es = Ok (bs', es') ∧
    es_Epoch es' = u32 (7 + 1) ∧ es_Rules es' = MainNetRules.
Proof.
  destruct (seal_epoch_correct (λ _, demo_group) demo_block demo_bs demo_es demo_states_ok)
    as (bs' & es' & E & _ & _ & He & _ & _ & Hr & _).
  exists bs', es'. split; [exact E|]. split; [exact He|exact Hr].
Defined.

Definition demo_sealed : BlockState Hash * EpochState Group Hash :=
  match SealEpoch (λ _, demo_group) demo_block demo_bs demo_es with
  | Ok r => r
  | _ => (demo_bs, demo_es)
  end.

Lemma sealed_epoch_fresh_witness :
  EpochSealing demo_block demo_sealed.1 demo_sealed.2 = (1 <? 2).
Proof.
  apply (sealed_epoch_fresh (λ _, demo_group) demo_block demo_bs demo_es).
  - exact demo_states_ok.
  - done.
  - done.
  - done.
  - reflexivity.
Defined.

Definition demo_cev (creator seq t : Z) : Event Hash :=
  mkEvent (mkBaseEvent 7 seq 1 creator seq [] zero_ID)
    (mkExtEventData t t None [] (mkGasPowerLeft [5; 6]) 30000 []) [].

Definition demo_confirmed : list (Event Hash) :=
  [demo_cev 1 4 (92 * Second); demo_cev 2 3 (93 * Second); demo_cev 1 5 (94 * Second)].

Lemma demo_confirmed_creators :
  Forall (λ e, Creator (ev_base e) ∈ vv_IDs (es_Validators demo_es)) demo_confirmed.
Proof. apply (bool_decide_unpack _). vm_compute. exact I. Qed.

Lemma confirmed_events_highest_witness :
  ∃ p, ProcessConfirmedEvents (Events_Start demo_bs demo_es) demo_confirmed = Ok p ∧
    bs_EpochGas (vp_bs p) = 91000.
Proof.
  destruct (confirmed_events_highest demo_bs demo_es demo_confirmed demo_confirmed_creators)
    as (p & E & _ & Hg).
  exists p. split; [exact E|exact Hg].
Defined.

Lemma events_finalize_correct_witness :
  ∃ p bs', ProcessConfirmedEvents (Events_Start demo_bs demo_es) demo_confirmed = Ok p ∧
    Events_Finalize p demo_block = Ok bs' ∧ states_ok bs' demo_es.
Proof.
  destruct (events_finalize_correct demo_block demo_bs demo_es demo_confirmed demo_states_ok
    demo_confirmed_creators) as (p & bs' & E & Ef & Hok & _).
  - apply (bool_decide_unpack _). vm_compute. exact I.
  - exists p, bs'. split; [exact E|]. split; [exact Ef|exact Hok].
Defined.

Definition demo_berlin_es : EpochState Group Hash :=
  mkEpochState 7 (80 * Second) (60 * Second) [] demo_group (replicate 3 (mkVES 0 zero_ID)) ∅
    (with_Upgrades FakeNetRules (mkUpgrades true)).

Lemma uptime_bounded_witness :
  uptime_ok demo_berlin_es
    (update_info demo_block demo_berlin_es (demo_cev 1 5 (94 * Second)) demo_vbs).
Proof. apply (uptime_bounded demo_block demo_berlin_es (demo_cev 1 5 (94 * Second)) demo_vbs); done. Defined.

Definition demo_bep (gas : Z) : EventPayload Hash :=
  mkEventPayload (mkEvent (mkBaseEvent 7 1 1 1 1 [] zero_ID)
    (mkExtEventData 1 1 None [] GasPowerLeft_zero gas []) []) [] [] 0.

Definition demo_bid (n : Z) : Hash := mk_ID 7 n (replicate 24 0).

Definition demo_get (id : Hash) : option (EventPayload Hash) :=
  Some (demo_bep (id_Lamport id * 10000000)).

Lemma spill_block_events_maximal_witness :
  ∃ n, (n <= 3)%nat ∧
    spillBlockEvents demo_get [demo_bid 1; demo_bid 1; demo_bid 1] MainNetRules =
    Ok (drop n [demo_bid 1; demo_bid 1; demo_bid 1], drop n (replicate 3 (demo_bep 10000000))).
Proof.
  destruct (spill_block_events_maximal demo_get [demo_bid 1; demo_bid 1; demo_bid 1]
    (replicate 3 (demo_bep 10000000)) MainNetRules) as (n & Hn & E & _).
  - repeat constructor.
  - repeat constructor; done.
  - done.
  - done.
  - exists n. split; [exact Hn|exact E].
Defined.
