(* ===== verification/EvmBlock.v ===== *)
(** * Execution of a block's transactions
    (evmcore/state_processor.go, gossip/blockproc/evmmodule/evm.go)

    Transactions run one after another; one that cannot be executed is skipped,
    the others get a receipt.  A block is executed in three calls of [Execute]
    (internal transactions before and after the sealing of an epoch, then those of
    the events); [evm_receipts_match] says that at the end the receipts are those
    of the block's transactions, one for one and in order. *)

From S2P Require Import Prelude Cser Inter Instances Rules GasPower EvmState EventCheck EvmChain BlockProc.

(** ** inter/block.go: filtering by skipped indexes *)

(** The indexes at which the flags are set, and the elements at which they are not. *)
Fixpoint skipped_of (i : Z) (flags : list bool) : list Z :=
  match flags with
  | [] => []
  | true :: flags' => i :: skipped_of (i + 1) flags'
  | false :: flags' => skipped_of (i + 1) flags'
  end.

Fixpoint kept {A} (flags : list bool) (l : list A) : list A :=
  match flags, l with
  | true :: flags', _ :: l' => kept flags' l'
  | false :: flags', x :: l' => x :: kept flags' l'
  | _, _ => []
  end.

Lemma skipped_of_app i f g : skipped_of i (f ++ g) = skipped_of i f ++ skipped_of (i + len f) g.
Proof.
  revert i. induction f as [|b f IH]; intros i; cbn.
  { unfold len. cbn. by rewrite Z.add_0_r. }
  rewrite IH. replace (i + 1 + len f) with (i + len (b :: f)) by (unfold len; cbn; lia).
  by destruct b.
Qed.

Lemma skipped_of_ge i f : Forall (λ j, i <= j < i + len f) (skipped_of i f).
Proof.
  revert i. induction f as [|b f IH]; intros i; [constructor|].
  assert (Hf : Forall (λ j, i <= j < i + len (b :: f)) (skipped_of (i + 1) f)).
  { eapply Forall_impl; [apply IH|]. intros j Hj. cbn in *. unfold len in *. cbn. lia. }
  cbn. destruct b; [|done]. constructor; [unfold len; cbn; lia|done].
Qed.

Lemma skipped_of_shift i k f : (λ n, n + k) <$> skipped_of i f = skipped_of (i + k) f.
Proof.
  revert i. induction f as [|[] f IH]; intros i; [done|..]; cbn; rewrite IH;
    replace (i + 1 + k) with (i + k + 1) by lia; done.
Qed.

Lemma kept_app {A} f g (l k : list A) :
  length f = length l → kept (f ++ g) (l ++ k) = kept f l ++ kept g k.
Proof.
  revert l. induction f as [|b f IH]; intros [|x l] Hl; try done. cbn in *.
  destruct b; rewrite IH by lia; done.
Qed.

Lemma FilterSkipped_flags {A} i pre flags (txs : list A) :
  length flags = length txs → 0 <= i → i + len txs <= 2 ^ 32 →
  FilterSkipped_loop i (length pre) (pre ++ skipped_of i flags) txs = kept flags txs.
Proof.
  revert i pre flags. induction txs as [|tx txs IH]; intros i pre [|b flags] Hl Hi Hb; try done.
  cbn [FilterSkipped_loop skipped_of kept]. cbn in Hl. unfold len in Hb. cbn [length] in Hb.
  rewrite lookup_app_r, Nat.sub_diag by lia. destruct b.
  - cbn. rewrite u32_id by (unfold is_u32; lia). rewrite Z.eqb_refl.
    replace (S (length pre)) with (length (pre ++ [i])) by (rewrite length_app; cbn; lia).
    replace (pre ++ i :: skipped_of (i + 1) flags) with ((pre ++ [i]) ++ skipped_of (i + 1) flags)
      by (by rewrite <- app_assoc).
    apply IH; unfold len; lia.
  - replace (match skipped_of (i + 1) flags !! 0%nat with Some s => s =? u32 i | None => false end)
      with false.
    { f_equal. apply IH; unfold len; lia. }
    destruct (skipped_of (i + 1) flags !! 0%nat) as [s|] eqn:E; [|done]. symmetry.
    pose proof (Forall_lookup_1 _ _ _ _ (skipped_of_ge (i + 1) flags) E) as Hs. cbn in Hs.
    rewrite u32_id by (unfold is_u32; lia). apply Z.eqb_neq. lia.
Qed.

Lemma skipped_of_nil i flags : skipped_of i flags = [] → flags = replicate (length flags) false.
Proof.
  revert i. induction flags as [|[] flags IH]; intros i; [done..|]. cbn. intros E.
  by rewrite <- (IH _ E).
Qed.

Lemma kept_all {A} n (l : list A) : length l = n → kept (replicate n false) l = l.
Proof. revert n. induction l as [|x l IH]; intros [|n] Hl; try done. cbn in *. by rewrite IH by lia. Qed.

Lemma FilterSkippedTxs_flags {A} flags (txs : list A) :
  length flags = length txs → len txs <= 2 ^ 32 →
  FilterSkippedTxs txs (skipped_of 0 flags) = kept flags txs.
Proof.
  intros Hl Hb. unfold FilterSkippedTxs.
  destruct (Z.eqb_spec (len (skipped_of 0 flags)) 0) as [Hz|Hz].
  - assert (Hn : skipped_of 0 flags = []) by (apply nil_length_inv; unfold len in Hz; lia).
    rewrite (skipped_of_nil _ _ Hn). by rewrite kept_all.
  - by apply (FilterSkipped_flags 0 []).
Qed.

(** ** evmcore/state_processor.go *)

Record Receipt (Log : Type) := mkReceipt {
  rc_Type : Z;
  rc_PostState : list Z;
  rc_Status : bool;
  rc_CumulativeGasUsed : Z;
  rc_TxHash : list Z;
  rc_ContractAddress : option Address;
  rc_GasUsed : Z;
  rc_Logs : list Log;
  rc_BlockHash : list Z;
  rc_BlockNumber : Z;
  rc_TransactionIndex : Z;
}.
Arguments mkReceipt {Log}. Arguments rc_Type {Log}. Arguments rc_PostState {Log}.
Arguments rc_Status {Log}. Arguments rc_CumulativeGasUsed {Log}.
Arguments rc_TxHash {Log}. Arguments rc_ContractAddress {Log}. Arguments rc_GasUsed {Log}.
Arguments rc_Logs {Log}. Arguments rc_BlockHash {Log}. Arguments rc_BlockNumber {Log}.
Arguments rc_TransactionIndex {Log}.

(** The rest of the state database: the transaction being executed, its logs, and
    the roots. *)
Class TxDB (W Log : Type) := {
  Prepare : list Z → list Z → Z → W → W;
  GetLogs : W → list Z → list Log;
  Finalise : W → W;
  IntermediateRoot : W → list Z * W;
  Commit : W → res (list Z) * W;
  db_BlockHash : W → list Z;
  db_TxIndex : W → Z;
}.

(** What the transaction library computes of a transaction, and the fork rules of
    the chain configuration. *)
Class TxLib := {
  tx_Hash : Transaction → list Z;
  AsMessage : Transaction → Z → res Message;
  CreateAddress : Address → Z → Address;
  IsByzantium : Z → bool;
}.

Section processor.
Context {EventID : Type} `{EventIDs EventID} `{TrieRoots}.
Context `{GasTable} {W : Type} `{StateDB W} `{EVM W} {Log L : Type} `{TxDB W Log} `{TxLib}.
(** The callback on new logs, with the state it keeps. *)
Variable onNewLog : Log → L → res L.

(** [types.NewMessage(common.Address{}, ...)] for internal transactions. *)
Definition internalMessage (tx : Transaction) : Message :=
  mkMessage zeroAddr (tx_To tx) (tx_GasPrice tx) (tx_Gas tx) (tx_Value tx) (tx_Nonce tx) false
    (tx_Data tx) (tx_AccessList tx).

(** What [Process] mutates: the pool, the database, the gas counter, the
    listener; and what it accumulates. *)
Record pstate := mkP {
  p_gp : GasPool;
  p_state : W;
  p_usedGas : Z;
  p_listener : L;
  p_receipts : list (Receipt Log);
  p_skipped : list Z;
}.

(** [for _, l := range logs { onNewLog(l, statedb) }] *)
Fixpoint notify (logs : list Log) (l : L) : res L :=
  match logs with
  | [] => Ok l
  | log :: logs' => l ← onNewLog log l; notify logs' l
  end.

(** [applyTransaction]: an error of [ApplyMessage] always comes with a nil result,
    that is with [skip]; the mutations made so far stay. *)
Definition applyTransaction (msg : Message) (header : EvmHeader) (tx : Transaction) (s : pstate)
  : res (option (Receipt Log)) * pstate :=
  match ApplyMessage msg (p_state s) (p_gp s) with
  | (Err _, st) =>
      (Ok None, mkP (st_gp st) (st_state st) (p_usedGas s) (p_listener s) (p_receipts s) (p_skipped s))
  | (Panic, st) =>
      (Panic, mkP (st_gp st) (st_state st) (p_usedGas s) (p_listener s) (p_receipts s) (p_skipped s))
  | (Ok result, st) =>
      let logs := GetLogs (st_state st) (tx_Hash tx) in
      match notify logs (p_listener s) with
      | Ok listener =>
          let '(root, w) :=
            if IsByzantium (h_Number header) then ([], Finalise (st_state st))
            else IntermediateRoot (st_state st) in
          let usedGas := u64 (p_usedGas s + UsedGas result) in
          let receipt :=
            mkReceipt (tx_Type tx) root (bool_decide (ResErr result = None)) usedGas (tx_Hash tx)
              (match msg_To msg with
               | None => Some (CreateAddress (msg_From msg) (tx_Nonce tx))
               | Some _ => None
               end)
              (UsedGas result) logs (db_BlockHash w) (h_Number header) (db_TxIndex w) in
          (Ok (Some receipt), mkP (st_gp st) w usedGas listener (p_receipts s) (p_skipped s))
      | _ => (Panic, mkP (st_gp st) (st_state st) (p_usedGas s) (p_listener s) (p_receipts s) (p_skipped s))
      end
  end.

(** One iteration of the loop of [Process]. *)
Definition process_one (internal : bool) (header : EvmHeader) (i : Z) (tx : Transaction) (s : pstate)
  : res unit * pstate :=
  match (if internal then Ok (internalMessage tx) else AsMessage tx (h_Number header)) with
  | Err e => (Err e, s)
  | Panic => (Panic, s)
  | Ok msg =>
      let s := mkP (p_gp s) (Prepare (tx_Hash tx) (h_Hash header) i (p_state s)) (p_usedGas s)
                 (p_listener s) (p_receipts s) (p_skipped s) in
      match applyTransaction msg header tx s with
      | (Ok None, s) =>
          (Ok tt, mkP (p_gp s) (p_state s) (p_usedGas s) (p_listener s) (p_receipts s)
                    (p_skipped s ++ [u32 i]))
      | (Ok (Some receipt), s) =>
          (Ok tt, mkP (p_gp s) (p_state s) (p_usedGas s) (p_listener s)
                    (p_receipts s ++ [receipt]) (p_skipped s))
      | (Err e, s) => (Err e, s)
      | (Panic, s) => (Panic, s)
      end
  end.

Fixpoint process_loop (internal : bool) (header : EvmHeader) (i : Z) (txs : list Transaction)
    (s : pstate) : res unit * pstate :=
  match txs with
  | [] => (Ok tt, s)
  | tx :: txs' =>
      match process_one internal header i tx s with
      | (Ok _, s) => process_loop internal header (i + 1) txs' s
      | (r, s) => (r, s)
      end
  end.

Definition Process (internal : bool) (block : EvmBlock) (w : W) (usedGas : Z) (listener : L)
  : res unit * pstate :=
  process_loop internal (eb_Header block) 0 (eb_Transactions block)
    (mkP (h_GasLimit (eb_Header block)) w usedGas listener [] []).

(** ** gossip/blockproc/evmmodule/evm.go *)

Record EVMProcessor := mkEVMProcessor {
  ep_block : BlockCtx EventID;
  ep_blockIdx : Z;
  ep_prevBlockHash : list Z;
  ep_statedb : W;
  ep_listener : L;
  ep_gasUsed : Z;
  ep_incomingTxs : list Transaction;
  ep_skippedTxs : list Z;
  ep_receipts : list (Receipt Log);
}.

(** [reader.GetHeader] of the previous block must exist. *)
Definition EVM_Start (block : BlockCtx EventID) (w : W)
    (reader : list Z → Z → res (option EvmHeader)) (listener : L) : res EVMProcessor :=
  prevBlockHash ←
    (if negb (bc_Idx block =? 0) then
       h ← reader zeroHash (u64 (bc_Idx block - 1));
       match h with Some h => Ok (h_Hash h) | None => Panic end
     else Ok zeroHash);
  Ok (mkEVMProcessor block (bc_Idx block) prevBlockHash w listener 0 [] [] []).

Definition evmBlockWith (p : EVMProcessor) (txs : list Transaction) : EvmBlock :=
  NewEvmBlock
    (mkEvmHeader (ep_blockIdx p) (id_Bytes (bc_Atropos (ep_block p))) (ep_prevBlockHash p) zeroHash
       zeroHash (bc_Time (ep_block p)) zeroAddr MaxUint64 (ep_gasUsed p)) txs.

(** An error of [Process] stops the node ([log.Crit]): a panic. *)
Definition Execute (p : EVMProcessor) (txs : list Transaction) (internal : bool)
  : res (list (Receipt Log) * EVMProcessor) :=
  match Process internal (evmBlockWith p txs) (ep_statedb p) (ep_gasUsed p) (ep_listener p) with
  | (Ok _, s) =>
      let offset := u32 (len (ep_incomingTxs p)) in
      let skipped := if 0 <? offset then (λ n, u32 (n + offset)) <$> p_skipped s else p_skipped s in
      Ok (p_receipts s,
          mkEVMProcessor (ep_block p) (ep_blockIdx p) (ep_prevBlockHash p)
            (p_state s) (p_listener s) (p_usedGas s)
            (ep_incomingTxs p ++ txs) (ep_skippedTxs p ++ skipped) (ep_receipts p ++ p_receipts s))
  | _ => Panic
  end.

(** The EVM block with its root, the skipped indexes and the receipts. *)
Definition EVM_Finalize (p : EVMProcessor)
  : res (EvmBlock * list Z * list (Receipt Log) * W) :=
  let evmBlock := evmBlockWith p (FilterSkippedTxs (ep_incomingTxs p) (ep_skippedTxs p)) in
  match Commit (Log := Log) (ep_statedb p) with
  | (Ok newStateHash, w) =>
      Ok (mkEvmBlock (with_Root (eb_Header evmBlock) newStateHash) (eb_Transactions evmBlock),
          ep_skippedTxs p, ep_receipts p, w)
  | _ => Panic
  end.

(** ** Receipts and transactions *)

(** What a loop added to the state, described by the flags of skipped transactions. *)
Definition processed (i : Z) (flags : list bool) (txs : list Transaction) (s s' : pstate) : Prop :=
  length flags = length txs ∧ p_skipped s' = p_skipped s ++ skipped_of i flags ∧
  ∃ rs, p_receipts s' = p_receipts s ++ rs ∧
    rc_TxHash <$> rs = tx_Hash <$> kept flags txs ∧
    p_usedGas s' = foldl (λ g r, u64 (g + rc_GasUsed r)) (p_usedGas s) rs.

Lemma applyTransaction_spec msg header tx s r s' :
  applyTransaction msg header tx s = (Ok r, s') →
  p_receipts s' = p_receipts s ∧ p_skipped s' = p_skipped s ∧
  match r with
  | None => p_usedGas s' = p_usedGas s
  | Some rc => rc_TxHash rc = tx_Hash tx ∧ p_usedGas s' = u64 (p_usedGas s + rc_GasUsed rc)
  end.
Proof.
  unfold applyTransaction. destruct (ApplyMessage msg _ _) as [[res| |] st]; [|naive_solver..].
  destruct (notify _ _) as [l| |]; [|naive_solver..].
  destruct (if IsByzantium _ then _ else _) as [root w]. naive_solver.
Qed.

Lemma process_one_spec internal header i tx s s' :
  0 <= i < 2 ^ 32 → process_one internal header i tx s = (Ok tt, s') →
  ∃ flag, processed i [flag] [tx] s s'.
Proof.
  intros Hi. unfold process_one.
  destruct (if internal then _ else _) as [msg| |]; try done.
  destruct (applyTransaction _ _ _ _) as [[[rc|]| |] s1] eqn:E; try done;
    apply applyTransaction_spec in E as (Hr & Hs & Hu); cbn in Hr, Hs, Hu; intros [= <-].
  - exists false. split; [done|]. cbn. rewrite Hr, Hs, app_nil_r. split; [done|].
    exists [rc]. destruct Hu as [Ht Hu]. cbn. by rewrite Ht.
  - exists true. split; [done|]. cbn. rewrite Hr, Hs, u32_id by done. split; [done|].
    exists []. by rewrite app_nil_r.
Qed.

Lemma process_loop_spec internal header i txs s s' :
  0 <= i → i + len txs <= 2 ^ 32 → process_loop internal header i txs s = (Ok tt, s') →
  ∃ flags, processed i flags txs s s'.
Proof.
  revert i s. induction txs as [|tx txs IH]; intros i s Hi Hl E; cbn [process_loop] in E.
  { injection E as <-. exists []. split; [done|]. cbn. split; [by rewrite app_nil_r|].
    exists []. by rewrite app_nil_r. }
  unfold len in Hl. cbn [length] in Hl.
  destruct (process_one internal header i tx s) as [[[]| |] s1] eqn:E1; try done.
  destruct (process_one_spec internal header i tx s s1 ltac:(lia) E1) as (b & _ & Hs1 & rs1 & Hr1 & Ht1 & Hu1).
  destruct (IH (i + 1) s1 ltac:(lia) ltac:(unfold len; lia) E) as (flags & Hl2 & Hs2 & rs2 & Hr2 & Ht2 & Hu2).
  exists (b :: flags). split; [cbn; lia|]. split.
  { rewrite Hs2, Hs1, <- app_assoc. f_equal. by destruct b. }
  exists (rs1 ++ rs2). rewrite Hr2, Hr1, <- app_assoc. split; [done|]. split.
  - rewrite fmap_app, Ht1, Ht2. by destruct b.
  - rewrite foldl_app, <- Hu1. done.
Qed.

(** The invariant of the processor between calls. *)
Definition matching (p : EVMProcessor) : Prop :=
  ∃ flags, length flags = length (ep_incomingTxs p) ∧
    ep_skippedTxs p = skipped_of 0 flags ∧
    rc_TxHash <$> ep_receipts p = tx_Hash <$> kept flags (ep_incomingTxs p) ∧
    ep_gasUsed p = foldl (λ g r, u64 (g + rc_GasUsed r)) 0 (ep_receipts p).

(** The context of a processor never changes. *)
Definition same_ctx (p p' : EVMProcessor) : Prop :=
  ep_block p' = ep_block p ∧ ep_blockIdx p' = ep_blockIdx p ∧
  ep_prevBlockHash p' = ep_prevBlockHash p.

Lemma matching_Start block w reader l p :
  EVM_Start block w reader l = Ok p →
  matching p ∧ ep_incomingTxs p = [] ∧ ep_block p = block ∧ ep_blockIdx p = bc_Idx block ∧
  (bc_Idx block ≠ 0 → ∃ h, reader zeroHash (u64 (bc_Idx block - 1)) = Ok (Some h) ∧
                        ep_prevBlockHash p = h_Hash h) ∧
  (bc_Idx block = 0 → ep_prevBlockHash p = zeroHash).
Proof.
  unfold EVM_Start. intros (prev & Hp & [= <-])%res_bind_Ok. split; [by exists []|].
  split_and!; [done..| |]; cbn; destruct (Z.eqb_spec (bc_Idx block) 0); cbn in Hp; try done.
  - intros _. apply res_bind_Ok in Hp as ([h|] & Hr & Hh); [|done]. exists h. by injection Hh as <-.
  - by injection Hp as <-.
Qed.

Lemma matching_Execute p txs internal rs p' :
  matching p → len (ep_incomingTxs p) + len txs <= 2 ^ 32 - 1 →
  Execute p txs internal = Ok (rs, p') →
  matching p' ∧ ep_incomingTxs p' = ep_incomingTxs p ++ txs ∧ same_ctx p p'.
Proof.
  intros (flags & Hl & Hsk & Hrc & Hg) Hb. unfold Execute, Process.
  pose proof (len_nonneg (ep_incomingTxs p)). pose proof (len_nonneg txs).
  destruct (process_loop _ _ _ _ _) as [[[]| |] s] eqn:E; try done. intros [= <- <-].
  destruct (process_loop_spec internal _ 0 txs _ s ltac:(lia) ltac:(lia) E)
    as (flags2 & Hl2 & Hsk2 & rs2 & Hr2 & Ht2 & Hu2). cbn in Hsk2, Hr2, Hu2.
  split; [|done]. exists (flags ++ flags2). cbn in *. split_and!.
  - rewrite !length_app. lia.
  - rewrite Hsk, skipped_of_app. f_equal. rewrite Hsk2.
    rewrite u32_id by (unfold is_u32; lia).
    assert (Hlen : len flags = len (ep_incomingTxs p)) by (unfold len; lia).
    rewrite Hlen, Z.add_0_l.
    destruct (Z.ltb_spec 0 (len (ep_incomingTxs p))) as [Hpos|Hz].
    + pose proof (skipped_of_shift 0 (len (ep_incomingTxs p)) flags2) as Hsh.
      rewrite Z.add_0_l in Hsh. rewrite <- Hsh.
      apply list_fmap_ext. intros k x Hx.
      pose proof (Forall_lookup_1 _ _ _ _ (skipped_of_ge 0 flags2) Hx) as Hr. cbn in Hr.
      unfold len in *. apply u32_id. unfold is_u32. lia.
    + by replace (len (ep_incomingTxs p)) with 0 by lia.
  - by rewrite kept_app, !fmap_app, Hrc, Hr2, Ht2.
  - rewrite foldl_app, <- Hg, Hr2. done.
Qed.

(** A sequence of calls of [Execute]. *)
Fixpoint Execute_all (p : EVMProcessor) (calls : list (list Transaction * bool)) : res EVMProcessor :=
  match calls with
  | [] => Ok p
  | (txs, internal) :: calls' => '(_, p') ← Execute p txs internal; Execute_all p' calls'
  end.

Definition all_txs (calls : list (list Transaction * bool)) : list Transaction := concat calls.*1.

Lemma matching_Execute_all p calls p' :
  matching p → len (ep_incomingTxs p) + len (all_txs calls) <= 2 ^ 32 - 1 →
  Execute_all p calls = Ok p' →
  matching p' ∧ ep_incomingTxs p' = ep_incomingTxs p ++ all_txs calls ∧ same_ctx p p'.
Proof.
  revert p. induction calls as [|[txs internal] calls IH]; intros p Hm Hb E.
  { injection E as <-. unfold all_txs. cbn. rewrite app_nil_r. done. }
  cbn [Execute_all] in E. apply res_bind_Ok in E as ([rs p1] & E1 & E).
  unfold all_txs in *. cbn in *. rewrite len_app in Hb. pose proof (len_nonneg (concat calls.*1)).
  destruct (matching_Execute p txs internal rs p1 Hm ltac:(lia) E1) as (Hm1 & Hi1 & Hc1).
  destruct (IH p1 Hm1 ltac:(rewrite Hi1, len_app; lia) E) as (Hm' & Hi' & Hc').
  split; [done|]. split; [by rewrite Hi', Hi1, app_assoc|]. unfold same_ctx in *.
  destruct Hc1 as (? & ? & ?), Hc' as (? & ? & ?). split_and!; congruence.
Qed.

Lemma kept_skipped_len {A} i flags (l : list A) :
  length flags = length l → len (kept flags l) + len (skipped_of i flags) = len l.
Proof.
  revert i l. induction flags as [|[] flags IH]; intros i [|x l] Hl; try done; cbn in *;
    specialize (IH (i + 1) l ltac:(lia)); unfold len in *; cbn; lia.
Qed.

(** Every transaction is either at a position listed as skipped or in the block. *)
Lemma skipped_of_elem flags i : i ∈ skipped_of 0 flags ↔ 0 <= i ∧ flags !! Z.to_nat i = Some true.
Proof.
  assert (Hgen : ∀ k, 0 <= k → i ∈ skipped_of k flags ↔ k <= i ∧ flags !! Z.to_nat (i - k) = Some true).
  { induction flags as [|b flags IH]; intros k Hk.
    { cbn. rewrite elem_of_nil. naive_solver. }
    cbn [skipped_of]. assert (Hrec := IH (k + 1) ltac:(lia)).
    destruct (decide (i = k)) as [->|Hne].
    { rewrite Z.sub_diag. change (Z.to_nat 0) with 0%nat. cbn [lookup list_lookup].
      destruct b; [rewrite elem_of_cons; naive_solver lia|].
      rewrite Hrec. split; [lia|]. by intros [_ [=]]. }
    transitivity (i ∈ skipped_of (k + 1) flags).
    { destruct b; [rewrite elem_of_cons|]; naive_solver. }
    rewrite Hrec. destruct (decide (k + 1 <= i)) as [Hle|Hnle].
    - replace (Z.to_nat (i - k)) with (S (Z.to_nat (i - (k + 1)))) by lia. cbn. naive_solver lia.
    - split; [lia|]. intros [? _]. lia. }
  rewrite Hgen by lia. by rewrite Z.sub_0_r.
Qed.

Lemma EVM_Finalize_matching p evmBlock skipped receipts w :
  matching p → len (ep_incomingTxs p) <= 2 ^ 32 - 1 →
  EVM_Finalize p = Ok (evmBlock, skipped, receipts, w) →
  (∃ flags, length flags = length (ep_incomingTxs p) ∧
    eb_Transactions evmBlock = kept flags (ep_incomingTxs p) ∧
    skipped = skipped_of 0 flags ∧
    (∀ i, i ∈ skipped ↔ 0 <= i ∧ flags !! Z.to_nat i = Some true)) ∧
  tx_Hash <$> eb_Transactions evmBlock = rc_TxHash <$> receipts ∧
  len (eb_Transactions evmBlock) + len skipped = len (ep_incomingTxs p) ∧
  h_GasUsed (eb_Header evmBlock) = foldl (λ g r, u64 (g + rc_GasUsed r)) 0 receipts.
Proof.
  intros (flags & Hl & Hsk & Hrc & Hg) Hb. unfold EVM_Finalize.
  destruct (Commit _) as [[root| |] w']; intros [= <- <- <- <-]. cbn.
  rewrite Hsk, FilterSkippedTxs_flags; [|done|lia].
  split_and!; [|done| |done].
  - exists flags. split_and!; [done..|]. intros i. apply skipped_of_elem.
  - by rewrite kept_skipped_len.
Qed.

(** C11: after any sequence of executions of at most 2^32 - 1 transactions in all, each
    of the transactions is either kept or skipped: the block holds those kept, in their
    order, the skipped list holds exactly the positions of the others among all the
    transactions given, in increasing order, and the receipts are those of the block's
    transactions, one for one and in order, so that a position is listed as skipped
    just when its transaction has no receipt. The block's gas is the sum of the
    receipts' gas. *)
Theorem evm_receipts_match block w reader l calls p0 p evmBlock skipped receipts w' :
  len (all_txs calls) <= 2 ^ 32 - 1 → EVM_Start block w reader l = Ok p0 →
  Execute_all p0 calls = Ok p → EVM_Finalize p = Ok (evmBlock, skipped, receipts, w') →
  (∃ flags, length flags = length (all_txs calls) ∧
    eb_Transactions evmBlock = kept flags (all_txs calls) ∧
    skipped = skipped_of 0 flags ∧
    (∀ i, i ∈ skipped ↔ 0 <= i ∧ flags !! Z.to_nat i = Some true)) ∧
  tx_Hash <$> eb_Transactions evmBlock = rc_TxHash <$> receipts ∧
  len (eb_Transactions evmBlock) + len skipped = len (all_txs calls) ∧
  h_GasUsed (eb_Header evmBlock) = foldl (λ g r, u64 (g + rc_GasUsed r)) 0 receipts.
Proof.
  intros Hb (Hm0 & Hi0 & _)%matching_Start E EF.
  assert (Hb0 : len (ep_incomingTxs p0) + len (all_txs calls) <= 2 ^ 32 - 1) by (rewrite Hi0; change (len (@nil Transaction)) with 0; lia).
  destruct (matching_Execute_all p0 calls p Hm0 Hb0 E) as (Hm & Hi & _).
  rewrite Hi0 in Hi. cbn in Hi. rewrite <- Hi in *.
  by apply (EVM_Finalize_matching p evmBlock skipped receipts w').
Qed.
End processor.

(** ** A concrete block: one internal and two external transactions, one of which
    is skipped for its nonce *)

#[global] Instance demo_lib : TxLib := {
  tx_Hash tx := tx_Nonce tx :: tx_Data tx;
  AsMessage tx _ := Ok (mkMessage (replicate 20 1) (tx_To tx) (tx_GasPrice tx) (tx_Gas tx)
    (tx_Value tx) (tx_Nonce tx) true (tx_Data tx) (tx_AccessList tx));
  CreateAddress a n := a;
  IsByzantium _ := true;
}.

(** Logs of a transaction: its hash. *)
#[global] Instance demo_txdb : TxDB DemoWorld Z := {
  Prepare _ _ _ w := w;
  GetLogs _ h := h;
  Finalise w := w;
  IntermediateRoot w := ([], w);
  Commit w := (Ok (replicate 32 5), w);
  db_BlockHash _ := zeroHash;
  db_TxIndex _ := 0;
}.

Definition demo_btx (nonce : Z) : Transaction :=
  mkTransaction LegacyTxType nonce 30000 1 0 (Some (replicate 20 2)) [] 27 1 1 0 [].

Definition demo_calls : list (list Transaction * bool) :=
  [([demo_btx 50], true); ([], true); ([demo_btx 7; demo_btx 3; demo_btx 8], false)].

Definition demo_EVMProcessor := EVMProcessor (EventID := Hash) (W := DemoWorld) (Log := Z) (L := list Z).

Definition demo_onNewLog (log : Z) (l : list Z) : res (list Z) := Ok (l ++ [log]).

Definition demo_ctx : BlockCtx Hash := mkBlockCtx 4 (100 * Second) (demo_atropos 4).

Definition demo_start : demo_EVMProcessor :=
  mkEVMProcessor demo_ctx 4 (id_Bytes (demo_atropos 3)) demo_world [] 0 [] [] [].

Definition demo_processor : demo_EVMProcessor :=
  ok_or demo_start (Execute_all demo_onNewLog demo_start demo_calls).

Definition demo_finalized : EvmBlock * list Z * list (Receipt Z) * DemoWorld :=
  ok_or (mkEvmBlock demo_ref [], [], [], demo_world) (EVM_Finalize demo_processor).

Lemma evm_receipts_match_witness :
  demo_finalized.1.1.2 = [2] ∧
  len (eb_Transactions demo_finalized.1.1.1) + len demo_finalized.1.1.2 = 4.
Proof.
  split; [vm_compute; reflexivity|].
  refine (proj1 (proj2 (proj2 (evm_receipts_match demo_onNewLog demo_ctx demo_world (GetHeader demo_tables)
    [] demo_calls demo_start demo_processor demo_finalized.1.1.1 demo_finalized.1.1.2
    demo_finalized.1.2 demo_finalized.2 _ _ _ _)))).
  - done.
  - vm_compute. reflexivity.
  - apply ok_or_eq. vm_compute. reflexivity.
  - transitivity (Ok demo_finalized); [apply ok_or_eq; vm_compute; reflexivity|].
    by rewrite <- !surjective_pairing.
Defined.
