(* ===== verification/Driver.v ===== *)
(** * The driver contract (gossip/blockproc/drivermodule, zilionixx/marshal.go,
    zilionixx/genesis/driver/drivercall)

    The node talks to the driver contract in both directions: internal
    transactions report cheaters and epoch metrics to it, and its logs change the
    validators' profiles, the rules and the epochs to advance.  ABI packing, JSON
    decoding and the contract's address and topics are outside the repository or
    constants of it, and are parameters. *)

From S2P Require Import Prelude Cser Inter Instances TxSer Rules Pos GasPower Vecmt EvmState EvmBlock BlockProc.

Definition maxAdvanceEpochs : Z := 2 ^ 16.
Definition DoublesignBit : Z := 2 ^ 7.
Definition ErrUnexpectedEOF : error := NewError "io.ErrUnexpectedEOF".

Record Log := mkLog { l_Address : list Z; l_Topics : list (list Z); l_Data : list Z }.

(** ** drivercall: calldata; [Pack] is the ABI library's *)

Inductive AbiArg := AUint (z : Z) | AUints (l : list Z) | AAddress (a : list Z) | ABytes (b : list Z).

Record ValidatorEpochMetric := mkMetric {
  Missed : BlocksMissed;
  mUptime : Z;
  OriginatedTxFee : Z;
}.

Section calls.
Variable Pack : string → list AbiArg → list Z.

Definition drivercall_SealEpochValidators (validators : list Z) : list Z :=
  Pack "sealEpochValidators" [AUints validators].

Definition drivercall_SealEpoch (metrics : list ValidatorEpochMetric) : list Z :=
  Pack "sealEpoch"
    [AUints ((λ m, u64 (Timestamp_Unix (Period (Missed m)))) <$> metrics);
     AUints ((λ m, BlocksNum (Missed m)) <$> metrics);
     AUints ((λ m, u64 (Timestamp_Unix (mUptime m))) <$> metrics);
     AUints (OriginatedTxFee <$> metrics)].

Definition drivercall_DeactivateValidator (validatorID status : Z) : list Z :=
  Pack "deactivateValidator" [AUint validatorID; AUint status].
End calls.

(** ** drivermodule: internal transactions *)

(** The closure of [internalTxBuilder] keeps the next nonce; [MaxUint64] means that
    the database has not been asked yet. *)
Definition buildTx (GetNonce0 : Z) (nonce : Z) (calldata addr : list Z) : Transaction * Z :=
  let nonce := if nonce =? MaxUint64 then GetNonce0 else nonce in
  (mkTransaction LegacyTxType nonce 10000000000 0 0 (Some addr) calldata 0 0 0 0 [],
   u64 (nonce + 1)).

Definition maxBlockIdx (a b : Z) : Z := if b <? a then a else b.

Section driver.
Context {EventID : Type} `{EventIDs EventID} {V : Type} `{Pos V}.
Variable Pack : string → list AbiArg → list Z.
Variable ContractAddress : list Z.

(** The loop over the cheaters: those not marked yet are marked and reported. *)
Fixpoint write_cheaters (validators : V) (GetNonce0 : Z) (cheaters : list Z)
    (states : list (ValidatorBlockState EventID)) (nonce : Z)
  : res (list Transaction * list (ValidatorBlockState EventID) * Z) :=
  match cheaters with
  | [] => Ok ([], states, nonce)
  | validatorID :: cheaters' =>
      let valIdx := vv_GetIdx validators validatorID in
      info ← index states valIdx;
      if Cheater info then write_cheaters validators GetNonce0 cheaters' states nonce
      else
        states ← update states valIdx
          (mkVBS true (LastEvent info) (Uptime info) (LastOnlineTime info) (LastGasPowerLeft info)
            (LastBlock info) (DirtyGasRefund info) (Originated info));
        let '(tx, nonce) := buildTx GetNonce0 nonce
          (drivercall_DeactivateValidator Pack validatorID DoublesignBit) ContractAddress in
        '(txs, states, nonce) ← write_cheaters validators GetNonce0 cheaters' states nonce;
        Ok (tx :: txs, states, nonce)
  end.

(** The metric of one validator at the sealing of an epoch. *)
Definition metric (block : BlockCtx EventID) (es : EpochState V EventID)
    (info : ValidatorBlockState EventID) : ValidatorEpochMetric :=
  let missed := mkBlocksMissed
    (u64 (maxBlockIdx (bc_Idx block) (LastBlock info) - LastBlock info))
    (u64 (MaxTimestamp (bc_Time block) (LastOnlineTime info) - LastOnlineTime info)) in
  if BlocksNum missed <=? BlockMissedSlack (Economy (es_Rules es)) then
    let prevOnlineTime := MaxTimestamp (LastOnlineTime info) (es_EpochStart es) in
    mkMetric (mkBlocksMissed 0 0)
      (u64 (Uptime info + u64 (MaxTimestamp (bc_Time block) prevOnlineTime - prevOnlineTime)))
      (Originated info)
  else mkMetric missed (Uptime info) (Originated info).

(** [for oldValIdx := 0; oldValIdx < es.Validators.Len(); oldValIdx++] *)
Fixpoint metrics_loop (block : BlockCtx EventID) (es : EpochState V EventID) (n : nat) (i : Z)
    (states : list (ValidatorBlockState EventID)) : res (list ValidatorEpochMetric) :=
  match n with
  | O => Ok []
  | S n' =>
      info ← index states i;
      l ← metrics_loop block es n' (i + 1) states;
      Ok (metric block es info :: l)
  end.

(** [DriverTxPreTransactor.PopInternalTxs]; the slice of states is shared with the
    caller, who sees the marks. *)
Definition Pre_PopInternalTxs (block : BlockCtx EventID) (bs : BlockState EventID)
    (es : EpochState V EventID) (sealing : bool) (GetNonce0 : Z)
  : res (list Transaction * BlockState EventID) :=
  '(txs, states, nonce) ← write_cheaters (es_Validators es) GetNonce0 (bs_EpochCheaters bs)
                            (bs_ValidatorStates bs) MaxUint64;
  txs ← (if sealing : bool then
           ms ← metrics_loop block es (Z.to_nat (vv_Len (es_Validators es))) 0 states;
           Ok (txs ++ [(buildTx GetNonce0 nonce (drivercall_SealEpoch Pack ms) ContractAddress).1])
         else Ok txs);
  Ok (txs, set_VStates states bs).

(** [DriverTxTransactor.PopInternalTxs] *)
Definition Post_PopInternalTxs (es : EpochState V EventID) (sealing : bool) (GetNonce0 : Z)
  : list Transaction :=
  if sealing
  then [(buildTx GetNonce0 MaxUint64 (drivercall_SealEpochValidators Pack (vv_IDs (es_Validators es)))
           ContractAddress).1]
  else [].

(** ** drivermodule: receipts and logs *)

Definition OnNewReceipt (es : EpochState V EventID) (tx : Transaction) (GasUsed originator : Z)
    (bs : BlockState EventID) : res (BlockState EventID) :=
  if originator =? 0 then Ok bs
  else
    let originatorIdx := vv_GetIdx (es_Validators es) originator in
    info ← index (bs_ValidatorStates bs) originatorIdx;
    let txFee := GasUsed * tx_GasPrice tx in
    let notUsedGas := u64 (tx_Gas tx - GasUsed) in
    let refund := if negb (notUsedGas =? 0) then u64 (DirtyGasRefund info + notUsedGas)
                  else DirtyGasRefund info in
    states ← update (bs_ValidatorStates bs) originatorIdx
      (mkVBS (Cheater info) (LastEvent info) (Uptime info) (LastOnlineTime info)
        (LastGasPowerLeft info) (LastBlock info) refund (Originated info + txFee));
    Ok (set_VStates states bs).
End driver.

(** A slice of the data with 64-bit bounds. *)
Definition slice64 (b : list Z) (lo hi : Z) : res (list Z) :=
  if (lo <=? hi) && (hi <=? len b) then Ok (take (Z.to_nat (hi - lo)) (drop (Z.to_nat lo) b))
  else Panic.

Definition decodeDataBytes (data : list Z) : res (list Z) :=
  if len data <? 32 then Err ErrUnexpectedEOF
  else
    w ← slice64 data 24 32;
    let start := u64 (big_SetBytes w) in
    if len data <? u64 (start + 32) then Err ErrUnexpectedEOF
    else
      w ← slice64 data (u64 (start + 24)) (u64 (start + 32));
      let size := u64 (big_SetBytes w) in
      if len data <? u64 (u64 (start + 32) + size) then Err ErrUnexpectedEOF
      else slice64 data (u64 (start + 32)) (u64 (u64 (start + 32) + size)).

(** ** zilionixx/marshal.go *)

Section rules.
(** [json.Unmarshal] into a copy of the rules. *)
Variable json_Unmarshal : list Z → Rules → Rules + error.

Definition UpdateRules (src : Rules) (diff : list Z) : Rules * option error :=
  match json_Unmarshal diff src with
  | inl changed =>
      (mkRules (Name src) (NetworkID src) (Dag changed) (Epochs changed) (Blocks changed)
         (Economy changed) (Upgr changed), None)
  | inr e => (src, Some e)
  end.
End rules.

(** The topics of the contract's logs. *)
Record Topics := mkTopics {
  UpdateValidatorWeight : list Z;
  UpdateValidatorPubkey : list Z;
  UpdateNetworkRules : list Z;
  tAdvanceEpochs : list Z;
}.

Section logs.
Context {EventID : Type}.
Variable ContractAddress : list Z.
Variable topics : Topics.
Variable json_Unmarshal : list Z → Rules → Rules + error.

Definition topicID (l : Log) : res Z :=
  t ← index (l_Topics l) 1; Ok (u32 (u64 (big_SetBytes t))).

(** The four cases of [OnNewLog], in order; a [return] ends the method. *)
Definition log_weight (l : Log) (bs : BlockState EventID) : res (BlockState EventID) :=
  validatorID ← topicID l;
  w ← slice64 (l_Data l) 0 32;
  let weight := big_SetBytes w in
  if weight =? 0 then Ok (set_Profiles (delete validatorID (bs_NextValidatorProfiles bs)) bs)
  else
    let pk := match bs_NextValidatorProfiles bs !! validatorID with
              | Some profile => vPubKey profile
              | None => mkPubKey 0 []
              end in
    Ok (set_Profiles (<[validatorID := mkValidator weight pk]> (bs_NextValidatorProfiles bs)) bs).

(** The flag says whether the method returns here. *)
Definition log_pubkey (l : Log) (bs : BlockState EventID) : res (bool * BlockState EventID) :=
  validatorID ← topicID l;
  match decodeDataBytes (l_Data l) with
  | Panic => Panic
  | Err _ => Ok (true, bs)
  | Ok pubkey =>
      match bs_NextValidatorProfiles bs !! validatorID with
      | None => Ok (true, bs)
      | Some profile =>
          let pk := match PubKey_FromBytes pubkey with Ok pk => pk | _ => mkPubKey 0 [] end in
          Ok (false, set_Profiles (<[validatorID := mkValidator (Weight profile) pk]>
                                     (bs_NextValidatorProfiles bs)) bs)
      end
  end.

Definition log_rules (l : Log) (bs : BlockState EventID) : res (bool * BlockState EventID) :=
  match decodeDataBytes (l_Data l) with
  | Panic => Panic
  | Err _ => Ok (true, bs)
  | Ok diff =>
      let '(rules, err) := UpdateRules json_Unmarshal (bs_DirtyRules bs) diff in
      Ok (match err with Some _ => true | None => false end, set_DirtyRules rules bs)
  end.

Definition log_advance (l : Log) (bs : BlockState EventID) : res (BlockState EventID) :=
  w ← slice64 (l_Data l) 29 32;
  let epochsNum := u64 (big_SetBytes w) in
  let n := u32 (bs_AdvanceEpochs bs + u32 epochsNum) in
  Ok (set_AdvanceEpochs (if maxAdvanceEpochs <? n then maxAdvanceEpochs else n) bs).

Definition OnNewLog (l : Log) (bs : BlockState EventID) : res (BlockState EventID) :=
  if negb (bool_decide (l_Address l = ContractAddress)) then Ok bs
  else
    t0 ← index (l_Topics l) 0;
    bs ← (if bool_decide (t0 = UpdateValidatorWeight topics) && (1 <? len (l_Topics l))
             && (32 <=? len (l_Data l))
          then log_weight l bs else Ok bs);
    '(ret, bs) ← (if bool_decide (t0 = UpdateValidatorPubkey topics) && (1 <? len (l_Topics l))
                  then log_pubkey l bs else Ok (false, bs));
    if ret : bool then Ok bs
    else
      '(ret, bs) ← (if bool_decide (t0 = UpdateNetworkRules topics) && (64 <=? len (l_Data l))
                    then log_rules l bs else Ok (false, bs));
      if ret : bool then Ok bs
      else if bool_decide (t0 = tAdvanceEpochs topics) && (32 <=? len (l_Data l))
      then log_advance l bs else Ok bs.
End logs.

(** ** ABI-encoded bytes *)

Definition abi_word (z : Z) : list Z := replicate 24 0 ++ reverse (le64 z).

(** One dynamic argument: its offset, its length, its content, padding. *)
Definition abi_bytes (content pad : list Z) : list Z :=
  abi_word 32 ++ abi_word (len content) ++ content ++ pad.

Lemma abi_word_len z : is_u64 z → length (abi_word z) = 32%nat.
Proof.
  intros Hz. unfold abi_word. destruct (le64_spec z Hz) as [Hl _].
  rewrite length_app, length_replicate, length_reverse, Hl. done.
Qed.

Lemma abi_word_low z rest k :
  is_u64 z → drop 24 (abi_word z ++ rest) = reverse (le64 z) ++ rest ∧
  (k = 8%nat → take k (reverse (le64 z) ++ rest) = reverse (le64 z)).
Proof.
  intros Hz. destruct (le64_spec z Hz) as [Hl _]. split.
  - unfold abi_word. rewrite <- app_assoc. by rewrite drop_app_length' by (by rewrite length_replicate).
  - intros ->. by rewrite take_app_length' by (by rewrite length_reverse).
Qed.

Lemma big_of_word z : is_u64 z → u64 (big_SetBytes (reverse (le64 z))) = z.
Proof.
  intros Hz. destruct (le64_spec z Hz) as (_ & _ & Hv). rewrite big_SetBytes_reverse, Hv. by apply u64_id.
Qed.

Lemma slice64_Ok (a b c : list Z) lo hi :
  lo = len a → hi = lo + len b → slice64 (a ++ b ++ c) lo hi = Ok b.
Proof.
  intros -> ->. pose proof (len_nonneg a). pose proof (len_nonneg b). pose proof (len_nonneg c).
  unfold slice64. rewrite !len_app. rewrite !(proj2 (Z.leb_le _ _)) by lia. cbn [andb]. f_equal.
  rewrite drop_app_length' by (unfold len; lia).
  rewrite take_app_length' by (unfold len; lia). done.
Qed.

Lemma decodeDataBytes_abi content pad :
  len content < 2 ^ 62 → decodeDataBytes (abi_bytes content pad) = Ok content.
Proof.
  intros Hc. pose proof (len_nonneg content) as Hc0. pose proof (len_nonneg pad) as Hp0.
  assert (H32 : is_u64 32) by done.
  assert (Hlc : is_u64 (len content)) by (unfold is_u64; lia).
  destruct (le64_spec 32 H32) as [Hl1 _]. destruct (le64_spec (len content) Hlc) as [Hl2 _].
  assert (Hlen : len (abi_bytes content pad) = 64 + len content + len pad).
  { unfold abi_bytes. rewrite !len_app. unfold len at 1 2. rewrite !abi_word_len by done. lia. }
  assert (S1 : slice64 (abi_bytes content pad) 24 32 = Ok (reverse (le64 32))).
  { unfold abi_bytes, abi_word. rewrite <- app_assoc. apply slice64_Ok; [done|].
    unfold len. rewrite length_reverse, Hl1. done. }
  assert (S2 : slice64 (abi_bytes content pad) 56 64 = Ok (reverse (le64 (len content)))).
  { unfold abi_bytes. unfold abi_word at 2. rewrite <- app_assoc, (app_assoc (abi_word 32)).
    apply slice64_Ok.
    - rewrite len_app. unfold len. rewrite abi_word_len by done. done.
    - unfold len at 1. rewrite length_reverse, Hl2. done. }
  assert (S3 : slice64 (abi_bytes content pad) 64 (64 + len content) = Ok content).
  { unfold abi_bytes. rewrite (app_assoc (abi_word 32)). apply slice64_Ok; [|done].
    rewrite len_app. unfold len at 1 2. rewrite !abi_word_len by done. done. }
  unfold decodeDataBytes. rewrite Hlen. rewrite (proj2 (Z.ltb_ge _ _)) by lia.
  rewrite S1. cbn [mbind res_bind]. rewrite big_of_word by done.
  change (u64 (32 + 32)) with 64. change (u64 (32 + 24)) with 56.
  rewrite (proj2 (Z.ltb_ge _ _)) by lia. rewrite S2. cbn [mbind res_bind].
  rewrite big_of_word by done. rewrite u64_id by (unfold is_u64; lia).
  rewrite (proj2 (Z.ltb_ge _ _)) by lia. exact S3.
Qed.

(** The bytes argument of a log, as the ABI lays it out, is decoded exactly. *)
Theorem decode_data_bytes_abi content pad :
  len content < 2 ^ 62 → decodeDataBytes (abi_bytes content pad) = Ok content.
Proof. apply decodeDataBytes_abi. Qed.

Lemma decode_data_bytes_abi_witness :
  decodeDataBytes (abi_bytes [1; 2; 3] (replicate 29 0)) = Ok [1; 2; 3].
Proof. apply (decode_data_bytes_abi [1; 2; 3] (replicate 29 0)). done. Defined.

(** The bounds are compared after 64-bit additions that can wrap around: an offset
    of [2^64 - 30] passes the first check and makes the slice expression panic. *)
Example decode_data_bytes_panics :
  decodeDataBytes (abi_word (2 ^ 64 - 30) ++ abi_word 0) = Panic.
Proof. vm_compute. done. Qed.

(** ** Epoch metrics *)

Section metrics.
Context {EventID : Type} `{EventIDs EventID} {V : Type} `{Pos V}.

(** The uptime reported for a validator at the sealing of an epoch never exceeds
    the time the epoch lasted. *)
Theorem metric_uptime_bounded block (es : EpochState V EventID) info :
  is_u64 (bc_Time block) → 0 <= es_EpochStart es <= bc_Time block →
  0 <= LastOnlineTime info <= bc_Time block → uptime_ok es info →
  0 <= mUptime (metric block es info) <= bc_Time block - es_EpochStart es.
Proof.
  intros Hb Hs Hl [Hu1 Hu2]. unfold metric. unfold is_u64 in Hb.
  destruct (_ <=? _); cbn [mUptime]; [|lia].
  unfold MaxTimestamp. set (prev := if es_EpochStart es <? _ then _ else _).
  assert (Hp : prev = Z.max (es_EpochStart es) (LastOnlineTime info)).
  { subst prev. destruct (Z.ltb_spec (es_EpochStart es) (LastOnlineTime info)); lia. }
  set (top := if prev <? _ then _ else _).
  assert (Ht : top = bc_Time block).
  { subst top. destruct (Z.ltb_spec prev (bc_Time block)); lia. }
  rewrite Ht, (u64_id (bc_Time block - prev)) by (unfold is_u64; lia).
  rewrite u64_id by (unfold is_u64; lia). lia.
Qed.
End metrics.

Lemma metric_uptime_bounded_witness :
  0 <= mUptime (metric demo_block demo_berlin_es demo_vbs) <= 100 * Second - 80 * Second.
Proof. apply (metric_uptime_bounded demo_block demo_berlin_es demo_vbs); done. Defined.

(** ** Logs of the contract *)

Section listener.
Context {EventID : Type}.
Variable ContractAddress : list Z.
Variable topics : Topics.
Variable json_Unmarshal : list Z → Rules → Rules + error.

(** What logs may change of a block state, and what they keep. *)
Definition log_inv (bs bs' : BlockState EventID) : Prop :=
  bs_LastBlock bs' = bs_LastBlock bs ∧ bs_FinalizedStateRoot bs' = bs_FinalizedStateRoot bs ∧
  bs_EpochGas bs' = bs_EpochGas bs ∧ bs_EpochCheaters bs' = bs_EpochCheaters bs ∧
  bs_ValidatorStates bs' = bs_ValidatorStates bs ∧
  Name (bs_DirtyRules bs') = Name (bs_DirtyRules bs) ∧
  NetworkID (bs_DirtyRules bs') = NetworkID (bs_DirtyRules bs) ∧
  (0 <= bs_AdvanceEpochs bs <= maxAdvanceEpochs → 0 <= bs_AdvanceEpochs bs' <= maxAdvanceEpochs) ∧
  (map_Forall (λ _ v, 0 < Weight v) (bs_NextValidatorProfiles bs) →
   map_Forall (λ _ v, 0 < Weight v) (bs_NextValidatorProfiles bs')).

#[export] Instance log_inv_PreOrder : PreOrder log_inv.
Proof.
  split; [done|]. intros x y z (?&?&?&?&?&?&?&?&?) (?&?&?&?&?&?&?&?&?).
  unfold log_inv. split_and!; [congruence..| |]; auto.
Qed.

Lemma big_SetBytes_nonneg l : bytes_ok l → 0 <= big_SetBytes l.
Proof.
  unfold big_SetBytes. intros Hl. assert (Hg : ∀ acc, 0 <= acc → 0 <= foldl (λ acc b, acc * 256 + b) acc l).
  { induction Hl as [|b l Hb Hl IH]; intros acc Ha; cbn; [done|]. apply IH. unfold is_u8 in Hb. lia. }
  by apply Hg.
Qed.

Lemma slice64_bytes b lo hi w : bytes_ok b → slice64 b lo hi = Ok w → bytes_ok w.
Proof.
  intros Hb. unfold slice64. destruct (_ && _); [|done]. intros [= <-].
  by apply Forall_take, Forall_drop.
Qed.

Lemma set_Profiles_inv bs p :
  (map_Forall (λ _ v, 0 < Weight v) (bs_NextValidatorProfiles bs) → map_Forall (λ _ v, 0 < Weight v) p) →
  log_inv bs (set_Profiles p bs).
Proof. intros Hp. done. Qed.

Lemma log_weight_inv l bs bs' : bytes_ok (l_Data l) → log_weight l bs = Ok bs' → log_inv bs bs'.
Proof.
  intros Hd. unfold log_weight. intros (id & _ & (w & Hw & E)%res_bind_Ok)%res_bind_Ok.
  apply slice64_bytes, big_SetBytes_nonneg in Hw; [|done].
  destruct (Z.eqb_spec (big_SetBytes w) 0); injection E as <-; apply set_Profiles_inv; intros Hp.
  - by apply map_Forall_delete.
  - apply map_Forall_insert_2; [cbn; lia|done].
Qed.

Lemma log_pubkey_inv l bs r bs' : log_pubkey l bs = Ok (r, bs') → log_inv bs bs'.
Proof.
  unfold log_pubkey. intros (id & _ & E)%res_bind_Ok.
  destruct (decodeDataBytes _); try done; [|by injection E as _ <-].
  destruct (_ !! id) as [profile|] eqn:Ep; injection E as _ <-; [|done].
  apply set_Profiles_inv. intros Hp. apply map_Forall_insert_2; [|done].
  by apply (Hp id profile).
Qed.

Lemma log_rules_inv l bs r bs' : log_rules json_Unmarshal l bs = Ok (r, bs') → log_inv bs bs'.
Proof.
  unfold log_rules, UpdateRules. intros E.
  destruct (decodeDataBytes _); try done; [|by injection E as _ <-].
  destruct (json_Unmarshal _ _); injection E as _ <-; done.
Qed.

Lemma log_advance_inv l bs bs' : log_advance l bs = Ok bs' → log_inv bs bs'.
Proof.
  unfold log_advance. intros (w & _ & [= <-])%res_bind_Ok. unfold log_inv. cbn. split_and!; try done.
  intros _. set (n := u32 _). assert (Hn : is_u32 n) by apply u32_range. unfold is_u32 in Hn.
  destruct (Z.ltb_spec maxAdvanceEpochs n); [done|lia].
Qed.

Lemma OnNewLog_inv l bs bs' :
  bytes_ok (l_Data l) → OnNewLog ContractAddress topics json_Unmarshal l bs = Ok bs' → log_inv bs bs'.
Proof.
  intros Hd. unfold OnNewLog. destruct (negb _); [intros [= <-]; reflexivity|].
  intros (t0 & _ & (bs1 & E1 & ([r2 bs2] & E2 & E)%res_bind_Ok)%res_bind_Ok)%res_bind_Ok.
  assert (H1 : log_inv bs bs1).
  { revert E1. destruct (_ && _ && _); [by apply log_weight_inv|by intros [= <-]]. }
  assert (H2 : log_inv bs bs2).
  { rewrite H1. revert E2. destruct (bool_decide (t0 = UpdateValidatorPubkey topics) && _); [by apply log_pubkey_inv|by intros [= <- <-]]. }
  destruct r2; [by injection E as <-|].
  apply res_bind_Ok in E as ([r3 bs3] & E3 & E).
  assert (H3 : log_inv bs bs3).
  { rewrite H2. revert E3. destruct (bool_decide (t0 = UpdateNetworkRules topics) && _); [by apply log_rules_inv|by intros [= <- <-]]. }
  destruct r3; [by injection E as <-|].
  rewrite H3. revert E. destruct (bool_decide (t0 = tAdvanceEpochs topics) && _); [by apply log_advance_inv|by intros [= <-]].
Qed.

(** [OnNewLog] over the logs of a block, in order. *)
Fixpoint OnNewLogs (ls : list Log) (bs : BlockState EventID) : res (BlockState EventID) :=
  match ls with
  | [] => Ok bs
  | l :: ls' => bs ← OnNewLog ContractAddress topics json_Unmarshal l bs; OnNewLogs ls' bs
  end.

(** Whatever logs a block emits, they never touch the processed-block data and
    the validators' states, never change the network's name and identifier, never
    leave a validator of the next epoch without weight, and never schedule more
    than [maxAdvanceEpochs] epochs. *)
Theorem driver_logs_safe ls bs bs' :
  Forall (λ l, bytes_ok (l_Data l)) ls → OnNewLogs ls bs = Ok bs' → log_inv bs bs'.
Proof.
  intros Hls. revert bs. induction Hls as [|l ls Hl Hls IH]; intros bs E; cbn in E.
  { by injection E as <-. }
  apply res_bind_Ok in E as (bs1 & E1 & E). rewrite (OnNewLog_inv l bs bs1 Hl E1). by apply IH.
Qed.
End listener.

Definition demo_topics : Topics := mkTopics [1] [2] [3] [4].
Definition demo_driver : list Z := replicate 20 13.
Definition demo_json (diff : list Z) (r : Rules) : Rules + error :=
  if len diff =? 0 then inr ErrUnexpectedEOF else inl FakeNetRules.

Definition demo_logs : list Log :=
  [mkLog demo_driver [[1]; [7]] (replicate 31 0 ++ [5]);
   mkLog demo_driver [[3]] (abi_bytes [1; 2; 3] (replicate 29 0));
   mkLog demo_driver [[4]] (replicate 29 0 ++ [255; 0; 0]);
   mkLog (replicate 20 14) [[1]; [8]] (replicate 31 0 ++ [5])].

Definition demo_after_logs : BlockState Hash :=
  ok_or demo_bs (OnNewLogs demo_driver demo_topics demo_json demo_logs demo_bs).

Lemma driver_logs_safe_witness :
  bs_AdvanceEpochs demo_after_logs = maxAdvanceEpochs ∧
  NetworkID (bs_DirtyRules demo_after_logs) = NetworkID (bs_DirtyRules demo_bs).
Proof.
  split; [vm_compute; reflexivity|].
  refine (proj1 (proj2 (proj2 (proj2 (proj2 (proj2 (proj2
    (driver_logs_safe demo_driver demo_topics demo_json demo_logs demo_bs demo_after_logs _ _)))))))).
  - apply (bool_decide_unpack _). vm_compute. exact I.
  - apply ok_or_eq. vm_compute. reflexivity.
Defined.

(** ** Reports of cheaters *)

Section cheaters.
Context {EventID : Type} `{EventIDs EventID} {V : Type} `{PosLaws V}.
Variable Pack : string → list AbiArg → list Z.
Variable ContractAddress : list Z.
Implicit Types states : list (ValidatorBlockState EventID).

Definition mark (s : ValidatorBlockState EventID) : ValidatorBlockState EventID :=
  mkVBS true (LastEvent s) (Uptime s) (LastOnlineTime s) (LastGasPowerLeft s) (LastBlock s)
    (DirtyGasRefund s) (Originated s).

(** Exactly the validators of a list are marked, nothing else changes. *)
Definition marked (validators : V) (cheaters : list Z) (states states' : list (ValidatorBlockState EventID))
  : Prop :=
  length states' = length states ∧
  ∀ i id s, vv_IDs validators !! i = Some id → states !! i = Some s →
    states' !! i = Some (if bool_decide (id ∈ cheaters) then mark s else s).

(** The state of a validator says that it is not reported yet. *)
Definition unreported (validators : V) states (id : Z) : Prop :=
  ∃ s, states !! Z.to_nat (vv_GetIdx validators id) = Some s ∧ Cheater s = false.

Definition deactivations (ids : list Z) : list (list Z) :=
  (λ id, drivercall_DeactivateValidator Pack id DoublesignBit) <$> ids.

Lemma mark_marked s : Cheater s = true → mark s = s.
Proof. destruct s. cbn. by intros ->. Qed.

Lemma marked_cons_skip (validators : V) id cheaters states states' s :
  id ∈ vv_IDs validators → states !! Z.to_nat (vv_GetIdx validators id) = Some s → Cheater s = true →
  marked validators cheaters states states' → marked validators (id :: cheaters) states states'.
Proof.
  intros Hin Hs Hc [Hl Hm]. split; [done|]. intros i id' s' Hi Hs'.
  rewrite (Hm i id' s' Hi Hs'). f_equal.
  destruct (decide (id' = id)) as [->|Hne].
  - rewrite (bool_decide_true (id ∈ id :: cheaters)) by set_solver. case_bool_decide; [done|].
    destruct (vv_GetIdx_in validators id Hin) as [_ Hg].
    rewrite (NoDup_lookup _ _ _ _ (vv_NoDup validators) Hi Hg) in Hs'.
    rewrite Hs in Hs'. injection Hs' as <-. by rewrite mark_marked.
  - assert (Hiff : id' ∈ cheaters ↔ id' ∈ id :: cheaters) by set_solver.
    by rewrite (bool_decide_ext _ _ Hiff).
Qed.

Lemma marked_cons_mark (validators : V) id cheaters states states' s :
  id ∈ vv_IDs validators → states !! Z.to_nat (vv_GetIdx validators id) = Some s →
  marked validators cheaters (<[Z.to_nat (vv_GetIdx validators id) := mark s]> states) states' →
  marked validators (id :: cheaters) states states'.
Proof.
  intros Hin Hs [Hl Hm]. rewrite length_insert in Hl. split; [done|]. intros i id' s' Hi Hs'.
  destruct (vv_GetIdx_in validators id Hin) as [_ Hg].
  destruct (decide (i = Z.to_nat (vv_GetIdx validators id))) as [->|Hne].
  - assert (id' = id) as -> by congruence. rewrite Hs in Hs'. injection Hs' as <-.
    rewrite (Hm _ id (mark s) Hi) by (apply list_lookup_insert_eq; by eapply lookup_lt_Some).
    rewrite (bool_decide_true (id ∈ id :: cheaters)) by set_solver. by case_bool_decide.
  - rewrite (Hm i id' s' Hi) by (by rewrite list_lookup_insert_ne). f_equal.
    assert (Hiff : id' ∈ cheaters ↔ id' ∈ id :: cheaters).
    { rewrite elem_of_cons. split; [by right|]. intros [->|?]; [|done]. destruct Hne.
      by apply (NoDup_lookup (vv_IDs validators) _ _ id (vv_NoDup validators)). }
    by rewrite (bool_decide_ext _ _ Hiff).
Qed.

Lemma unreported_mark (validators : V) states id id' s :
  id' ∈ vv_IDs validators → states !! Z.to_nat (vv_GetIdx validators id) = Some s →
  id ∈ vv_IDs validators →
  unreported validators (<[Z.to_nat (vv_GetIdx validators id) := mark s]> states) id' ↔
  id' ≠ id ∧ unreported validators states id'.
Proof.
  intros Hin' Hs Hin. unfold unreported. destruct (decide (id' = id)) as [->|Hne].
  - rewrite list_lookup_insert_eq by (by eapply lookup_lt_Some). split; [|naive_solver].
    intros (s' & [= <-] & Hf). done.
  - assert (Hi : Z.to_nat (vv_GetIdx validators id) ≠ Z.to_nat (vv_GetIdx validators id')).
    { intros Heq. destruct Hne. destruct (vv_GetIdx_in validators id Hin) as [_ Hg].
      destruct (vv_GetIdx_in validators id' Hin') as [_ Hg']. rewrite <- Heq in Hg'. congruence. }
    rewrite list_lookup_insert_ne by done. naive_solver.
Qed.

(** The nonce the builder will use next. *)
Definition next_nonce (GetNonce0 nonce : Z) : Z := if nonce =? MaxUint64 then GetNonce0 else nonce.

(** Transactions built one after another to the driver contract. *)
Definition built (n0 : Z) (data : list (list Z)) (txs : list Transaction) : Prop :=
  tx_Data <$> txs = data ∧
  ∀ i tx, txs !! i = Some tx → tx_Nonce tx = n0 + Z.of_nat i ∧ tx_To tx = Some ContractAddress.

Lemma built_cons n0 d data txs tx :
  tx_Data tx = d → tx_Nonce tx = n0 → tx_To tx = Some ContractAddress → built (n0 + 1) data txs →
  built n0 (d :: data) (tx :: txs).
Proof.
  intros Hd Hn Ht [Hb Hi]. split; [cbn; by rewrite Hd, Hb|].
  intros [|i] tx' E; cbn in E; [injection E as <-; split; [lia|done]|].
  destruct (Hi i tx' E) as [E1 E2]. split; [lia|done].
Qed.

Lemma write_cheaters_spec (validators : V) n0 cheaters states nonce :
  length states = length (vv_IDs validators) → Forall (.∈ vv_IDs validators) cheaters →
  0 <= next_nonce n0 nonce → next_nonce n0 nonce + len cheaters < MaxUint64 →
  ∃ txs states' nonce' fresh,
    write_cheaters Pack ContractAddress validators n0 cheaters states nonce = Ok (txs, states', nonce') ∧
    marked validators cheaters states states' ∧
    NoDup fresh ∧ (∀ id, id ∈ fresh ↔ id ∈ cheaters ∧ unreported validators states id) ∧
    built (next_nonce n0 nonce) (deactivations fresh) txs ∧
    next_nonce n0 nonce' = next_nonce n0 nonce + len txs.
Proof.
  intros Hl Hc. revert states nonce Hl.
  induction Hc as [|id cheaters Hin Hc IH]; intros states nonce Hl Hn0 Hn.
  { exists [], states, nonce, []. split; [done|]. split; [|split; [constructor|]].
    - split; [done|]. intros i id s _ Hs. by rewrite Hs.
    - split; [set_solver|]. split; [|by unfold len; cbn; rewrite Z.add_0_r]. by split. }
  unfold len in Hn. cbn [length] in Hn. cbn [write_cheaters].
  destruct (index_Exists validators states id Hl Hin) as (s & -> & Hs). cbn [mbind res_bind].
  destruct (Cheater s) eqn:Hch.
  - destruct (IH states nonce Hl Hn0 ltac:(unfold len; lia))
      as (txs & states' & nonce' & fresh & E & Hm & Hnd & Hf & Hb & Hnn).
    exists txs, states', nonce', fresh. split; [exact E|].
    split; [exact (marked_cons_skip validators id cheaters states states' s Hin Hs Hch Hm)|].
    split; [done|]. split; [|done]. intros id'. rewrite Hf, elem_of_cons.
    split; [tauto|]. intros [[->|?] Hu]; [|done]. destruct Hu as (s' & Hs' & Hf'). congruence.
  - rewrite (update_Exists validators states id) by done. cbn [mbind res_bind]. fold (mark s).
    destruct (vv_GetIdx_in validators id Hin) as [Hpos Hg].
    set (i := Z.to_nat (vv_GetIdx validators id)) in *.
    unfold buildTx. fold (next_nonce n0 nonce).
    assert (Hnext : next_nonce n0 (u64 (next_nonce n0 nonce + 1)) = next_nonce n0 nonce + 1).
    { unfold MaxUint64 in *. rewrite u64_id by (unfold is_u64; lia). unfold next_nonce at 1.
      rewrite (proj2 (Z.eqb_neq _ _)) by (unfold MaxUint64; lia). done. }
    destruct (IH (<[i := mark s]> states) (u64 (next_nonce n0 nonce + 1))
      ltac:(by rewrite length_insert) ltac:(lia) ltac:(unfold len; lia))
      as (txs & states' & nonce' & fresh & E & Hm & Hnd & Hf & Hb & Hnn).
    rewrite E. cbn [mbind res_bind]. rewrite Hnext in Hb, Hnn.
    assert (Hfid : ∀ id', id' ∈ fresh ↔ id' ∈ cheaters ∧ id' ≠ id ∧ unreported validators states id').
    { intros id'. rewrite Hf, Forall_forall in *. split; intros [Hic Hu]; (split; [done|]);
        by apply (unreported_mark validators states id id' s (Hc id' Hic) Hs Hin). }
    exists (mkTransaction LegacyTxType (next_nonce n0 nonce) 10000000000 0 0 (Some ContractAddress)
      (drivercall_DeactivateValidator Pack id DoublesignBit) 0 0 0 0 [] :: txs), states', nonce', (id :: fresh).
    split; [done|]. split; [exact (marked_cons_mark validators id cheaters states states' s Hin Hs Hm)|].
    split_and!.
    + constructor; [|done]. rewrite Hfid. naive_solver.
    + intros id'. rewrite !elem_of_cons, Hfid. split.
      * intros [->|(? & ? & ?)]; (split; [auto|]); [by exists s|done].
      * intros [[->|Hic] Hu]; [by left|]. destruct (decide (id' = id)); auto.
    + by apply built_cons.
    + rewrite Hnn. unfold len. cbn [length]. lia.
Qed.
Lemma write_cheaters_none (validators : V) n0 cheaters states nonce :
  length states = length (vv_IDs validators) →
  Forall (λ id, id ∈ vv_IDs validators ∧ ¬ unreported validators states id) cheaters →
  write_cheaters Pack ContractAddress validators n0 cheaters states nonce = Ok ([], states, nonce).
Proof.
  intros Hl. induction 1 as [|id cheaters [Hin Hu] _ IH]; [done|]. cbn [write_cheaters].
  destruct (index_Exists validators states id Hl Hin) as (s & -> & Hs). cbn [mbind res_bind].
  destruct (Cheater s) eqn:Hch; [exact IH|]. destruct Hu. by exists s.
Qed.

Lemma metrics_loop_spec block (es : EpochState V EventID) n i states :
  (i + n)%nat = length states →
  metrics_loop block es n (Z.of_nat i) states = Ok (metric block es <$> drop i states).
Proof.
  revert i. induction n as [|n IH]; intros i Hn; cbn [metrics_loop].
  { by rewrite drop_ge by lia. }
  destruct (lookup_lt_is_Some_2 states i ltac:(lia)) as [s Hs].
  unfold index. rewrite (proj2 (Z.ltb_ge _ 0)) by lia. rewrite Nat2Z.id, Hs. cbn [mbind res_bind].
  replace (Z.of_nat i + 1) with (Z.of_nat (S i)) by lia. rewrite IH by lia. cbn [mbind res_bind].
  by rewrite (drop_S states s i Hs).
Qed.

Lemma built_app n0 data txs tx :
  built n0 data txs → tx_Nonce tx = n0 + len txs → tx_To tx = Some ContractAddress →
  built n0 (data ++ [tx_Data tx]) (txs ++ [tx]).
Proof.
  intros [Hd Hi] Hn Ht. split; [by rewrite fmap_app, Hd|]. intros i tx' E.
  apply lookup_app_Some in E as [E|[Hge E]]; [by apply Hi|].
  apply list_lookup_singleton_Some in E as [Hz <-]. split; [|done]. rewrite Hn. unfold len. lia.
Qed.

Lemma marked_no_unreported (validators : V) cheaters states states' id :
  length states = length (vv_IDs validators) → marked validators cheaters states states' →
  id ∈ cheaters → id ∈ vv_IDs validators → ¬ unreported validators states' id.
Proof.
  intros Hl [_ Hm] Hc Hin (s' & Hs' & Hf). destruct (vv_GetIdx_in validators id Hin) as [_ Hg].
  destruct (lookup_lt_is_Some_2 states (Z.to_nat (vv_GetIdx validators id))) as [s Hs].
  { rewrite Hl. by apply vv_GetIdx_lt. }
  rewrite (Hm _ id s Hg Hs), bool_decide_true in Hs' by done. by injection Hs' as <-.
Qed.

(** The internal transactions before a block report to the driver contract
    exactly the epoch's cheaters that were not reported yet, each once, with
    consecutive nonces, and mark them in the block state, touching nothing else; at
    the end of an epoch they also deliver the metrics of every validator.  A second
    run reports nobody. *)
Theorem cheaters_reported_once block bs (es : EpochState V EventID) sealing n0 :
  states_ok bs es → Forall (.∈ vv_IDs (es_Validators es)) (bs_EpochCheaters bs) →
  0 <= n0 → n0 + len (bs_EpochCheaters bs) < MaxUint64 →
  ∃ txs bs' fresh, Pre_PopInternalTxs Pack ContractAddress block bs es sealing n0 = Ok (txs, bs') ∧
    NoDup fresh ∧
    (∀ id, id ∈ fresh ↔ id ∈ bs_EpochCheaters bs ∧
       unreported (es_Validators es) (bs_ValidatorStates bs) id) ∧
    marked (es_Validators es) (bs_EpochCheaters bs) (bs_ValidatorStates bs) (bs_ValidatorStates bs') ∧
    built n0 (deactivations fresh ++
      (if sealing then [drivercall_SealEpoch Pack (metric block es <$> bs_ValidatorStates bs')] else []))
      txs ∧
    bs' = set_VStates (bs_ValidatorStates bs') bs ∧
    Pre_PopInternalTxs Pack ContractAddress block bs' es false n0 = Ok ([], bs').
Proof.
  intros [Hl _] Hc Hn0 Hn.
  assert (Hnn : next_nonce n0 MaxUint64 = n0) by done.
  destruct (write_cheaters_spec (es_Validators es) n0 (bs_EpochCheaters bs) (bs_ValidatorStates bs)
    MaxUint64 Hl Hc) as (txs & states' & nonce' & fresh & E & Hm & Hnd & Hf & Hb & Hn');
    [rewrite Hnn; lia|rewrite Hnn; lia|]. rewrite Hnn in Hb, Hn'.
  assert (Hl' : length states' = length (vv_IDs (es_Validators es))) by (by rewrite (proj1 Hm)).
  assert (Hagain : Pre_PopInternalTxs Pack ContractAddress block (set_VStates states' bs) es false n0
                   = Ok ([], set_VStates states' bs)).
  { unfold Pre_PopInternalTxs. cbn [bs_EpochCheaters bs_ValidatorStates set_VStates].
    rewrite write_cheaters_none; [done|done|]. rewrite !Forall_forall in *. intros id Hic.
    split; [by apply Hc|]. apply (marked_no_unreported _ _ _ _ id Hl Hm Hic (Hc id Hic)). }
  unfold Pre_PopInternalTxs at 1. rewrite E. cbn [mbind res_bind].
  destruct sealing.
  - unfold vv_Len, len. rewrite Nat2Z.id.
    rewrite (metrics_loop_spec block es _ 0) by (by rewrite Hl'). cbn [mbind res_bind].
    exists (txs ++ [(buildTx n0 nonce' (drivercall_SealEpoch Pack (metric block es <$> states'))
      ContractAddress).1]), (set_VStates states' bs), fresh.
    split_and!; try done. apply (built_app n0 (deactivations fresh) txs); [done|exact Hn'|done].
  - exists txs, (set_VStates states' bs), fresh. rewrite app_nil_r. split_and!; done.
Qed.
End cheaters.

(** Two validators, the second a cheater reported by consensus. *)
Definition demo_cheat_bs : BlockState Hash := set_Cheaters [2] demo_bs.

Lemma demo_cheat_in : Forall (.∈ vv_IDs (es_Validators demo_es)) (bs_EpochCheaters demo_cheat_bs).
Proof. apply (bool_decide_unpack _). vm_compute. exact I. Qed.

Lemma cheaters_reported_once_witness :
  ∃ txs bs', Pre_PopInternalTxs (λ _ _, []) demo_driver demo_block demo_cheat_bs demo_es true 7
             = Ok (txs, bs').
Proof.
  destruct (cheaters_reported_once (λ _ _, []) demo_driver demo_block demo_cheat_bs demo_es true 7)
    as (txs & bs' & _ & E & _); [done|apply demo_cheat_in|done|done|].
  by exists txs, bs'.
Defined.
