(* ===== verification/BlockCallbacks.v ===== *)
(** * The block pipeline (gossip/c_block_callbacks.go)

    Consensus confirms events one frame at a time: [BeginBlock] opens a block,
    [ApplyEvent] is called for each confirmed event, [EndBlock] decides whether the
    block is skipped, runs the internal transactions, seals the epoch if needed and
    hands the rest, [blockFn], to a worker thread.  The next [BeginBlock] waits for
    that thread, so a block is [BeginBlock], [ApplyEvent]s, [EndBlock] and [blockFn]
    in this order; in between, readers see the store that [EndBlock] left.

    The theorems say when a block is skipped, that indexes and times of blocks
    increase, when epochs change, that a block read back from the tables is the
    block that was executed, where transactions are found, and who is credited for
    their fees. *)

From S2P Require Import Prelude Cser Inter Instances TxSer Rules Pos GasPower EvmState EventCheck EvmChain BlockProc EvmBlock Driver.

(** [zilionbft.Block]: the Atropos and the cheaters it observes. *)
Record CBlock (EventID : Type) := mkCBlock { cb_Atropos : EventID; cb_Cheaters : list Z }.
Arguments mkCBlock {_}. Arguments cb_Atropos {_}. Arguments cb_Cheaters {_}.

(** evmstore.TxPosition and ExtendedTxPosition *)
Record TxPosition (EventID : Type) := mkTxPosition {
  tp_Block : Z;
  tp_Event : EventID;
  tp_EventOffset : Z;
  tp_BlockOffset : Z;
}.
Arguments mkTxPosition {_}. Arguments tp_Block {_}. Arguments tp_Event {_}.
Arguments tp_EventOffset {_}. Arguments tp_BlockOffset {_}.

Record ExtendedTxPosition (EventID : Type) := mkExtPosition {
  xp_TxPosition : TxPosition EventID;
  xp_EventCreator : Z;
}.
Arguments mkExtPosition {_}. Arguments xp_TxPosition {_}. Arguments xp_EventCreator {_}.

(** The part of the store that block processing reads and writes. *)
Record Store (V EventID : Type) := mkStore {
  s_BlockState : BlockState EventID;
  s_EpochState : EpochState V EventID;
  s_Tables : Tables EventID;
  s_BlockIndex : gmap (list Z) Z;
  s_TxPositions : gmap (list Z) (TxPosition EventID);
  s_Receipts : gmap Z (list (Receipt Log));
}.
Arguments mkStore {V EventID}. Arguments s_BlockState {V EventID}. Arguments s_EpochState {V EventID}.
Arguments s_Tables {V EventID}. Arguments s_BlockIndex {V EventID}.
Arguments s_TxPositions {V EventID}. Arguments s_Receipts {V EventID}.

Section pipeline.
Context {EventID : Type} `{EventIDs EventID} `{TrieRoots} {V : Type} `{Pos V}.
Context `{GasTable} {W : Type} `{StateDB W} `{EVM W} `{TxDB W Log} `{TxLib}.
(** The driver contract and its libraries. *)
Variable Pack : string → list AbiArg → list Z.
Variable ContractAddress : list Z.
Variable topics : Topics.
Variable json_Unmarshal : list Z → Rules → Rules + error.
Variable BigBuilder_Build : gmap Z Z → V.
(** [store.evm.StateDB(root)], and the order of [hash.OrderedEvents]. *)
Variable OpenStateDB : list Z → res W.
Variable SortEvents : list EventID → list EventID.
Variable txIndex : bool.

Notation BlockState := (BlockState EventID).
Notation EpochState := (EpochState V EventID).
Notation Store := (Store V EventID).
Notation Receipt := (Receipt Log).

Definition SetBlockEpochState (bs : BlockState) (es : EpochState) (st : Store) : Store :=
  mkStore bs es (s_Tables st) (s_BlockIndex st) (s_TxPositions st) (s_Receipts st).

Definition SetTables (t : Tables EventID) (st : Store) : Store :=
  mkStore (s_BlockState st) (s_EpochState st) t (s_BlockIndex st) (s_TxPositions st) (s_Receipts st).

Definition GetEventPayload (t : Tables EventID) (id : EventID) : option (EventPayload EventID) :=
  t_Events t !! id_Bytes id.

(** The variables captured by the callbacks of a block. *)
Record Callbacks := mkCallbacks {
  c_block : CBlock EventID;
  c_bs : BlockState;
  c_es : EpochState;
  c_statedb : W;
  c_eventProcessor : EventsProcessor (EventID := EventID) (V := V);
  c_atroposTime : Z;
  c_atroposDegenerate : bool;
  c_confirmedEvents : list EventID;
}.

Definition BeginBlock (cBlock : CBlock EventID) (st : Store) : res Callbacks :=
  let bs := s_BlockState st in
  let es := s_EpochState st in
  let bs := set_Cheaters (mergeCheaters (bs_EpochCheaters bs) (cb_Cheaters cBlock)) bs in
  match OpenStateDB (bs_FinalizedStateRoot bs) with
  | Ok statedb =>
      Ok (mkCallbacks cBlock bs es statedb (Events_Start bs es)
            (u64 (bc_Time (bs_LastBlock bs) + 1)) true [])
  | _ => Panic
  end.

Definition ApplyEvent (e : Event EventID) (c : Callbacks) : res Callbacks :=
  let isAtropos := bool_decide (cb_Atropos (c_block c) = ID (ev_base e)) in
  p ← ProcessConfirmedEvent (c_eventProcessor c) e;
  Ok (mkCallbacks (c_block c) (c_bs c) (c_es c) (c_statedb c) p
        (if isAtropos then medianTime (ev_ext e) else c_atroposTime c)
        (if isAtropos then false else c_atroposDegenerate c)
        (if negb (NoTxs (DeriveSha []) (ev_ext e)) then c_confirmedEvents c ++ [ID (ev_base e)] else c_confirmedEvents c)).

Fixpoint ApplyEvents (es : list (Event EventID)) (c : Callbacks) : res Callbacks :=
  match es with
  | [] => Ok c
  | e :: es' => c ← ApplyEvent e c; ApplyEvents es' c
  end.

(** The context of the block and whether it is skipped. *)
Definition blockCtx_of (c : Callbacks) : BlockCtx EventID :=
  let last := bs_LastBlock (c_bs c) in
  let atroposTime :=
    if c_atroposTime c <=? bc_Time last then u64 (bc_Time last + 1) else c_atroposTime c in
  mkBlockCtx (u64 (bc_Idx last + 1)) atroposTime (cb_Atropos (c_block c)).

Definition skipBlock (c : Callbacks) : bool :=
  let emptyBlock := (len (c_confirmedEvents c) =? 0) && (len (cb_Cheaters (c_block c)) =? 0) in
  c_atroposDegenerate c ||
  (emptyBlock &&
   (bc_Time (blockCtx_of c) <?
    u64 (bc_Time (bs_LastBlock (c_bs c)) + MaxEmptyBlockSkipPeriod (Blocks (es_Rules (c_es c)))))).

(** What [blockFn] captures. *)
Record Pending := mkPending {
  pd_blockCtx : BlockCtx EventID;
  pd_es : EpochState;
  pd_sealing : bool;
  pd_evm : EVMProcessor (EventID := EventID) (W := W) (Log := Log) (L := BlockState);
  pd_preInternalTxs : list Transaction;
  pd_confirmedEvents : list EventID;
}.

Notation onNewLogAll := (OnNewLog ContractAddress topics json_Unmarshal).

(** [txListener.Update]; the listener is the state of the log callback. *)
Definition with_listener (bs : BlockState) (p : EVMProcessor (EventID := EventID) (W := W) (Log := Log) (L := BlockState))
  : EVMProcessor (EventID := EventID) (W := W) (Log := Log) (L := BlockState) :=
  mkEVMProcessor (ep_block p) (ep_blockIdx p) (ep_prevBlockHash p) (ep_statedb p) bs (ep_gasUsed p)
    (ep_incomingTxs p) (ep_skippedTxs p) (ep_receipts p).

(** [EndBlock] up to the point where [blockFn] may run in another thread.  The
    listener shares the slice of validator states with [bs], so it sees the marks
    of [PopInternalTxs]. *)
Definition EndBlock (c : Callbacks) (st : Store) : res (option V * Store * option Pending) :=
  let blockCtx := blockCtx_of c in
  let es := c_es c in
  bs ← Events_Finalize (c_eventProcessor c) blockCtx;
  if skipBlock c then Ok (None, SetBlockEpochState bs es st, None)
  else
    let sealing := EpochSealing blockCtx bs es in
    evm ← EVM_Start blockCtx (c_statedb c) (GetHeader (s_Tables st)) bs;
    '(preInternalTxs, bs) ← Pre_PopInternalTxs Pack ContractAddress blockCtx bs es sealing
                              (GetNonce (c_statedb c) zeroAddr);
    '(_, evm) ← Execute onNewLogAll (with_listener bs evm) preInternalTxs true;
    let bs := ep_listener evm in
    if sealing : bool then
      '(bs, es) ← SealEpoch BigBuilder_Build blockCtx bs es;
      Ok (Some (es_Validators es), SetBlockEpochState bs es st,
          Some (mkPending blockCtx es sealing (with_listener bs evm) preInternalTxs (c_confirmedEvents c)))
    else
      Ok (None, st, Some (mkPending blockCtx es sealing evm preInternalTxs (c_confirmedEvents c))).

(** ** Positions of transactions *)

Notation Positions := (gmap (list Z) (ExtendedTxPosition EventID)).

Definition zero_position : ExtendedTxPosition EventID := mkExtPosition (mkTxPosition 0 zero_ID 0 0) 0.

(** The transactions of one event, from offset [i]. *)
Fixpoint event_positions (e : EventPayload EventID) (i : Z) (txs : list Transaction) (m : Positions)
  : Positions :=
  match txs with
  | [] => m
  | tx :: txs' =>
      event_positions e (i + 1) txs'
        (match m !! tx_Hash tx with
         | Some _ => m
         | None =>
             <[tx_Hash tx := mkExtPosition (mkTxPosition 0 (ID (ev_base (ep_event e))) (u32 i) 0)
                               (Creator (ev_base (ep_event e)))]> m
         end)
  end.

Definition events_positions (events : list (EventPayload EventID)) : Positions :=
  foldl (λ m e, event_positions e 0 (ep_txs e) m) ∅ events.

(** The transactions of the block, from offset [i]. *)
Fixpoint block_positions (n : Z) (i : Z) (txs : list Transaction) (m : Positions) : Positions :=
  match txs with
  | [] => m
  | tx :: txs' =>
      let p := default zero_position (m !! tx_Hash tx) in
      block_positions n (i + 1) txs'
        (<[tx_Hash tx := mkExtPosition
             (mkTxPosition n (tp_Event (xp_TxPosition p)) (tp_EventOffset (xp_TxPosition p)) (u32 i))
             (xp_EventCreator p)]> m)
  end.

(** ** Receipts *)

Definition receipt_creator (es : EpochState) (m : Positions) (r : Receipt) : Z :=
  let creator := xp_EventCreator (default zero_position (m !! rc_TxHash r)) in
  if negb (creator =? 0) && (vv_Get (es_Validators es) creator =? 0) then 0 else creator.

(** [for i, r := range allReceipts { txListener.OnNewReceipt(evmBlock.Transactions[i], r, creator) }] *)
Fixpoint on_new_receipts (es : EpochState) (m : Positions) (txs : list Transaction) (i : Z)
    (receipts : list Receipt) (bs : BlockState) : res BlockState :=
  match receipts with
  | [] => Ok bs
  | r :: receipts' =>
      tx ← index txs i;
      bs ← OnNewReceipt es tx (rc_GasUsed r) (receipt_creator es m r) bs;
      on_new_receipts es m txs (i + 1) receipts' bs
  end.

(** ** The rest of the block *)

Definition put_txs (txs : list Transaction) (m : gmap (list Z) Transaction) : gmap (list Z) Transaction :=
  foldl (λ m tx, <[tx_Hash tx := tx]> m) m txs.

Definition put_positions (p : Positions) (txs : list Transaction)
    (m : gmap (list Z) (TxPosition EventID)) : gmap (list Z) (TxPosition EventID) :=
  foldl (λ m tx, <[tx_Hash tx := xp_TxPosition (default zero_position (p !! tx_Hash tx))]> m) m txs.

Definition blockFn (pd : Pending) (st : Store) : res Store :=
  let blockCtx := pd_blockCtx pd in
  let es := pd_es pd in
  let internalTxs := Post_PopInternalTxs Pack ContractAddress es (pd_sealing pd)
                       (GetNonce (ep_statedb (pd_evm pd)) zeroAddr) in
  '(_, evm) ← Execute onNewLogAll (pd_evm pd) internalTxs true;
  '(events, blockEvents) ← spillBlockEvents (GetEventPayload (s_Tables st))
                             (SortEvents (pd_confirmedEvents pd)) (es_Rules es);
  let txs := concat (ep_txs <$> blockEvents) in
  '(_, evm) ← Execute onNewLogAll evm txs false;
  '(evmBlock, skippedTxs, allReceipts, _) ← EVM_Finalize evm;
  let allInternal := pd_preInternalTxs pd ++ internalTxs in
  let block := mkBlock (bc_Time blockCtx) (bc_Atropos blockCtx) events [] (tx_Hash <$> allInternal)
                 skippedTxs (h_GasUsed (eb_Header evmBlock)) (h_Root (eb_Header evmBlock)) in
  let txPositions := block_positions (bc_Idx blockCtx) 0 (eb_Transactions evmBlock)
                       (events_positions blockEvents) in
  bs ← on_new_receipts es txPositions (eb_Transactions evmBlock) 0 allReceipts (ep_listener evm);
  let bs := set_Final (bl_Root block) blockCtx bs in
  let t := s_Tables st in
  Ok (mkStore bs es
        (mkTables (<[bc_Idx blockCtx := block]> (t_Blocks t)) (put_txs allInternal (t_Txs t))
           (t_Events t) (<[bc_Idx blockCtx := evmBlock]> (t_EvmBlocks t)))
        (<[id_Bytes (bl_Atropos block) := bc_Idx blockCtx]> (s_BlockIndex st))
        (if txIndex then put_positions txPositions (eb_Transactions evmBlock) (s_TxPositions st)
         else s_TxPositions st)
        (if txIndex && negb (len allReceipts =? 0) then <[bc_Idx blockCtx := allReceipts]> (s_Receipts st)
         else s_Receipts st)).

(** A whole block: [BeginBlock], the confirmed events, [EndBlock], and [blockFn]
    before the next [BeginBlock] proceeds. *)
Definition process_block (cBlock : CBlock EventID) (events : list (Event EventID)) (st : Store)
  : res (option V * Store) :=
  c ← BeginBlock cBlock st;
  c ← ApplyEvents events c;
  '(newValidators, st, pending) ← EndBlock c st;
  st ← match pending with Some pd => blockFn pd st | None => Ok st end;
  Ok (newValidators, st).
(** ** Confirmed events *)

Definition has_txs (e : Event EventID) : Prop := NoTxs (DeriveSha []) (ev_ext e) = false.
#[local] Instance has_txs_dec e : Decision (has_txs e).
Proof. unfold has_txs. apply _. Defined.

(** What the events change of the callbacks' variables. *)
Record applied (evs : list (Event EventID)) (c c' : Callbacks) : Prop := {
  ap_block : c_block c' = c_block c;
  ap_bs : c_bs c' = c_bs c;
  ap_es : c_es c' = c_es c;
  ap_db : c_statedb c' = c_statedb c;
  ap_proc : ProcessConfirmedEvents (c_eventProcessor c) evs = Ok (c_eventProcessor c');
  ap_confirmed : c_confirmedEvents c' = c_confirmedEvents c ++ ((λ e, ID (ev_base e)) <$> filter has_txs evs);
  ap_degenerate : c_atroposDegenerate c' = true ↔
    c_atroposDegenerate c = true ∧ Forall (λ e, ID (ev_base e) ≠ cb_Atropos (c_block c)) evs;
  ap_time : (c_atroposTime c' = c_atroposTime c ∧ Forall (λ e, ID (ev_base e) ≠ cb_Atropos (c_block c)) evs)
    ∨ ∃ e, e ∈ evs ∧ ID (ev_base e) = cb_Atropos (c_block c) ∧ c_atroposTime c' = medianTime (ev_ext e);
}.

Lemma ApplyEvent_applied e c c' : ApplyEvent e c = Ok c' → applied [e] c c'.
Proof.
  unfold ApplyEvent. intros (p & Hp & [= <-])%res_bind_Ok.
  split; cbn [c_block c_bs c_es c_statedb c_eventProcessor c_confirmedEvents c_atroposTime
    c_atroposDegenerate]; try done.
  - cbn. by rewrite Hp.
  - rewrite filter_cons, filter_nil. case_decide as Ht; unfold has_txs in Ht.
    + by rewrite Ht.
    + apply not_false_iff_true in Ht. rewrite Ht. cbn. by rewrite app_nil_r.
  - rewrite Forall_singleton. case_bool_decide; split; [done|naive_solver|naive_solver|naive_solver].
  - case_bool_decide as Ha; [|left; by rewrite Forall_singleton]. right. exists e.
    split; [by left|done].
Qed.

Lemma ProcessConfirmedEvents_app (p : EventsProcessor (EventID := EventID) (V := V)) l k p' :
  ProcessConfirmedEvents p l = Ok p' →
  ProcessConfirmedEvents p (l ++ k) = ProcessConfirmedEvents p' k.
Proof.
  revert p. induction l as [|e l IH]; intros p E; cbn in *; [by injection E as <-|].
  apply res_bind_Ok in E as (p1 & -> & E). cbn. by apply IH.
Qed.

Lemma applied_cons e evs c c1 c2 : applied [e] c c1 → applied evs c1 c2 → applied (e :: evs) c c2.
Proof.
  intros A B. pose proof (ap_block _ _ _ A) as Hb. split.
  - by rewrite (ap_block _ _ _ B).
  - by rewrite (ap_bs _ _ _ B), (ap_bs _ _ _ A).
  - by rewrite (ap_es _ _ _ B), (ap_es _ _ _ A).
  - by rewrite (ap_db _ _ _ B), (ap_db _ _ _ A).
  - change (e :: evs) with ([e] ++ evs).
    rewrite (ProcessConfirmedEvents_app _ [e] evs _ (ap_proc _ _ _ A)). apply (ap_proc _ _ _ B).
  - rewrite (ap_confirmed _ _ _ B), (ap_confirmed _ _ _ A), <- app_assoc, <- fmap_app.
    by rewrite <- (filter_app has_txs [e] evs).
  - rewrite (ap_degenerate _ _ _ B), (ap_degenerate _ _ _ A), Hb, !Forall_cons, Forall_nil. tauto.
  - pose proof (ap_time _ _ _ A) as TA. pose proof (ap_time _ _ _ B) as TB. rewrite Hb in TB.
    rewrite Forall_cons. rewrite Forall_singleton in TA.
    destruct TB as [[-> HB]|(e' & He' & HE & HT)]; [|right; exists e'; split; [by right|done]].
    destruct TA as [[-> HA]|(e' & He' & HE & HT)]; [by left|right].
    apply list_elem_of_singleton in He' as ->. exists e. split; [by left|done].
Qed.

Lemma ApplyEvents_applied evs c c' : ApplyEvents evs c = Ok c' → applied evs c c'.
Proof.
  revert c. induction evs as [|e evs IH]; intros c E; cbn in E.
  { injection E as <-. split; try done; [by rewrite filter_nil, app_nil_r|..].
    - rewrite Forall_nil. tauto.
    - by left. }
  apply res_bind_Ok in E as (c1 & E1 & E). eapply applied_cons; [by apply ApplyEvent_applied|by apply IH].
Qed.
(** The epoch's gas after more events. *)
Definition epoch_gas (g : Z) (evs : list (Event EventID)) : Z :=
  foldl (λ g e, u64 (g + gasPowerUsed (ev_ext e))) g evs.

Lemma ProcessConfirmedEvents_keeps (p : EventsProcessor (EventID := EventID) (V := V)) evs p' :
  ProcessConfirmedEvents p evs = Ok p' →
  vp_es p' = vp_es p ∧ vp_bs p' = set_EpochGas (epoch_gas (bs_EpochGas (vp_bs p)) evs) (vp_bs p).
Proof.
  revert p. induction evs as [|e evs IH]; intros p E; cbn in E.
  { injection E as <-. split; [done|]. cbn. by destruct (vp_bs p). }
  apply res_bind_Ok in E as (p1 & E1 & E). unfold ProcessConfirmedEvent in E1.
  apply res_bind_Ok in E1 as (prev & _ & E1). apply res_bind_Ok in E1 as (hs & _ & [= <-]).
  destruct (IH _ E) as [-> ->]. done.
Qed.

Lemma update_infos_length block (es : EpochState) hs infos infos' :
  update_infos block es hs infos = Ok infos' → length infos' = length infos.
Proof.
  revert infos infos'. induction hs as [|[e|] hs IH]; intros [|info infos] infos' E; cbn in E;
    try (by injection E as <-); try done.
  - apply res_bind_Ok in E as (l & E & [= <-]). cbn. f_equal. by apply IH.
  - by apply IH in E.
  - apply res_bind_Ok in E as (l & E & [= <-]). cbn. f_equal. by apply IH.
Qed.

(** ** One block, step by step *)

(** The state of the block when [EndBlock] starts. *)
Record ready (cBlock : CBlock EventID) (evs : list (Event EventID)) (st : Store) (c : Callbacks)
    (bs : BlockState) : Prop := {
  rd_block : c_block c = cBlock;
  rd_bs : c_bs c = set_Cheaters (mergeCheaters (bs_EpochCheaters (s_BlockState st)) (cb_Cheaters cBlock))
                     (s_BlockState st);
  rd_es : c_es c = s_EpochState st;
  rd_final : Events_Finalize (c_eventProcessor c) (blockCtx_of c) = Ok bs;
  rd_keeps : ∃ states, length states = length (bs_ValidatorStates (s_BlockState st)) ∧
    bs = set_VStates states (set_EpochGas (epoch_gas (bs_EpochGas (s_BlockState st)) evs) (c_bs c));
  rd_confirmed : c_confirmedEvents c = (λ e, ID (ev_base e)) <$> filter has_txs evs;
  rd_degenerate : c_atroposDegenerate c = true ↔
    Forall (λ e, ID (ev_base e) ≠ cb_Atropos cBlock) evs;
  rd_time : c_atroposDegenerate c = false →
    ∃ e, e ∈ evs ∧ ID (ev_base e) = cb_Atropos cBlock ∧ c_atroposTime c = medianTime (ev_ext e);
}.

Lemma process_block_inv cBlock evs st nv st' :
  process_block cBlock evs st = Ok (nv, st') →
  ∃ c bs, ready cBlock evs st c bs ∧
    if skipBlock c then nv = None ∧ st' = SetBlockEpochState bs (s_EpochState st) st
    else ∃ pd st1, EndBlock c st = Ok (nv, st1, Some pd) ∧ blockFn pd st1 = Ok st'.
Proof.
  unfold process_block. intros (c0 & E0 & E)%res_bind_Ok. apply res_bind_Ok in E as (c & E1 & E).
  apply res_bind_Ok in E as ([[nv1 st1] pending] & E2 & E).
  apply ApplyEvents_applied in E1. unfold BeginBlock in E0.
  destruct (OpenStateDB _) as [w| |]; try done. injection E0 as <-.
  pose proof E2 as E2'. unfold EndBlock in E2. apply res_bind_Ok in E2 as (bs & Hbs & E2).
  destruct (ProcessConfirmedEvents_keeps _ _ _ (ap_proc _ _ _ E1)) as [_ Hg].
  exists c, bs. split.
  - split.
    + apply (ap_block _ _ _ E1).
    + apply (ap_bs _ _ _ E1).
    + apply (ap_es _ _ _ E1).
    + done.
    + unfold Events_Finalize in Hbs. apply res_bind_Ok in Hbs as (hs & _ & Hbs).
      apply res_bind_Ok in Hbs as (states & Hup & [= <-]). exists states.
      rewrite Hg, (ap_bs _ _ _ E1) in *. split; [|done]. by apply update_infos_length in Hup.
    + apply (ap_confirmed _ _ _ E1).
    + rewrite (ap_degenerate _ _ _ E1). cbn. tauto.
    + intros Hd. destruct (ap_time _ _ _ E1) as [[_ Hf]|Hx]; [|exact Hx].
      cbn in Hf. pose proof (proj2 (ap_degenerate _ _ _ E1) (conj eq_refl Hf)). congruence.
  - destruct (skipBlock c).
    + injection E2 as <- <- <-. cbn in E. injection E as <- <-. split; [done|].
      by rewrite (ap_es _ _ _ E1).
    + destruct pending as [pd|].
      * apply res_bind_Ok in E as (st2 & E3 & [= <- <-]). by exists pd, st1.
      * exfalso. apply res_bind_Ok in E2 as (evm & _ & E2). apply res_bind_Ok in E2 as ([txs bs1] & _ & E2).
        apply res_bind_Ok in E2 as ([rs evm1] & _ & E2). destruct (EpochSealing _ _ _); [|done].
        by apply res_bind_Ok in E2 as ([bs2 es2] & _ & E2).
Qed.

(** What [EndBlock] hands over when the block is not skipped. *)
Lemma EndBlock_inv c st bs nv st1 pd :
  Events_Finalize (c_eventProcessor c) (blockCtx_of c) = Ok bs → skipBlock c = false →
  EndBlock c st = Ok (nv, st1, Some pd) →
  let sealing := EpochSealing (blockCtx_of c) bs (c_es c) in
  ∃ p0 bs1 p1 rs,
    EVM_Start (blockCtx_of c) (c_statedb c) (GetHeader (s_Tables st)) bs = Ok p0 ∧
    Pre_PopInternalTxs Pack ContractAddress (blockCtx_of c) bs (c_es c) sealing
      (GetNonce (c_statedb c) zeroAddr) = Ok (pd_preInternalTxs pd, bs1) ∧
    Execute onNewLogAll (with_listener bs1 p0) (pd_preInternalTxs pd) true = Ok (rs, p1) ∧
    pd_blockCtx pd = blockCtx_of c ∧ pd_sealing pd = sealing ∧
    pd_confirmedEvents pd = c_confirmedEvents c ∧
    s_Tables st1 = s_Tables st ∧ s_BlockIndex st1 = s_BlockIndex st ∧
    s_TxPositions st1 = s_TxPositions st ∧ s_Receipts st1 = s_Receipts st ∧
    if sealing then
      ∃ bs2, SealEpoch BigBuilder_Build (blockCtx_of c) (ep_listener p1) (c_es c) = Ok (bs2, pd_es pd) ∧
        nv = Some (es_Validators (pd_es pd)) ∧ pd_evm pd = with_listener bs2 p1
    else nv = None ∧ pd_es pd = c_es c ∧ pd_evm pd = p1 ∧ st1 = st.
Proof.
  intros Hbs Hs E sealing. unfold EndBlock in E. rewrite Hbs, Hs in E. cbn [mbind res_bind] in E.
  fold sealing in E. apply res_bind_Ok in E as (p0 & E0 & E).
  apply res_bind_Ok in E as ([txs bs1] & Epre & E). apply res_bind_Ok in E as ([rs p1] & Eex & E).
  exists p0, bs1, p1, rs. destruct sealing.
  - apply res_bind_Ok in E as ([bs2 es2] & Eseal & [= <- <- <-]). cbn.
    split_and!; try done. by exists bs2.
  - injection E as <- <- <-. cbn. split_and!; done.
Qed.
(** What [blockFn] does, in the order of the code. *)
Record finished (pd : Pending) (st1 st' : Store) (evm : EVMProcessor (EventID := EventID) (W := W) (Log := Log) (L := BlockState))
    (internal : list Transaction) (events : list EventID) (blockEvents : list (EventPayload EventID))
    (evmBlock : EvmBlock) (skippedTxs : list Z) (receipts : list Receipt) (block : Block EventID)
    (bs : BlockState) : Prop := {
  fn_internal : internal = Post_PopInternalTxs Pack ContractAddress (pd_es pd) (pd_sealing pd)
                             (GetNonce (ep_statedb (pd_evm pd)) zeroAddr);
  fn_execute : Execute_all onNewLogAll (pd_evm pd)
                 [(internal, true); (concat (ep_txs <$> blockEvents), false)] = Ok evm;
  fn_spill : spillBlockEvents (GetEventPayload (s_Tables st1)) (SortEvents (pd_confirmedEvents pd))
               (es_Rules (pd_es pd)) = Ok (events, blockEvents);
  fn_finalize : ∃ w, EVM_Finalize evm = Ok (evmBlock, skippedTxs, receipts, w);
  fn_block : block = mkBlock (bc_Time (pd_blockCtx pd)) (bc_Atropos (pd_blockCtx pd)) events []
    (tx_Hash <$> (pd_preInternalTxs pd ++ internal)) skippedTxs
    (h_GasUsed (eb_Header evmBlock)) (h_Root (eb_Header evmBlock));
  fn_receipts : on_new_receipts (pd_es pd)
    (block_positions (bc_Idx (pd_blockCtx pd)) 0 (eb_Transactions evmBlock) (events_positions blockEvents))
    (eb_Transactions evmBlock) 0 receipts (ep_listener evm) = Ok bs;
  fn_bs : s_BlockState st' = set_Final (h_Root (eb_Header evmBlock)) (pd_blockCtx pd) bs;
  fn_es : s_EpochState st' = pd_es pd;
  fn_blocks : t_Blocks (s_Tables st') = <[bc_Idx (pd_blockCtx pd) := block]> (t_Blocks (s_Tables st1));
  fn_txs : t_Txs (s_Tables st') = put_txs (pd_preInternalTxs pd ++ internal) (t_Txs (s_Tables st1));
  fn_events : t_Events (s_Tables st') = t_Events (s_Tables st1);
  fn_evm : t_EvmBlocks (s_Tables st') = <[bc_Idx (pd_blockCtx pd) := evmBlock]> (t_EvmBlocks (s_Tables st1));
  fn_index : s_BlockIndex st' =
    <[id_Bytes (bc_Atropos (pd_blockCtx pd)) := bc_Idx (pd_blockCtx pd)]> (s_BlockIndex st1);
  fn_positions : txIndex = true → s_TxPositions st' =
    put_positions (block_positions (bc_Idx (pd_blockCtx pd)) 0 (eb_Transactions evmBlock)
      (events_positions blockEvents)) (eb_Transactions evmBlock) (s_TxPositions st1);
}.

Lemma blockFn_inv pd st1 st' :
  blockFn pd st1 = Ok st' →
  ∃ evm internal events blockEvents evmBlock skippedTxs receipts block bs,
    finished pd st1 st' evm internal events blockEvents evmBlock skippedTxs receipts block bs.
Proof.
  unfold blockFn. intros ([rs1 evm1] & E1 & E)%res_bind_Ok.
  apply res_bind_Ok in E as ([events blockEvents] & Esp & E).
  apply res_bind_Ok in E as ([rs2 evm2] & E2 & E).
  apply res_bind_Ok in E as ([[[evmBlock skippedTxs] receipts] w] & Ef & E).
  apply res_bind_Ok in E as (bs & Er & [= <-]).
  eexists evm2, _, events, blockEvents, evmBlock, skippedTxs, receipts, _, bs.
  split; try done.
  - cbn [Execute_all]. rewrite E1. cbn [mbind res_bind]. by rewrite E2.
  - by exists w.
  - cbn. by intros ->.
Qed.
(** ** Indexes and times of blocks *)

(** The time of a block: its Atropos' median time, but later than the last block. *)
Definition block_time (last : BlockCtx EventID) (cBlock : CBlock EventID) (evs : list (Event EventID))
    (t : Z) : Prop :=
  ∃ e, e ∈ evs ∧ ID (ev_base e) = cb_Atropos cBlock ∧ t = Z.max (bc_Time last + 1) (medianTime (ev_ext e)).

(** A block without transactions and cheaters is not worth storing, unless the last
    block is too old. *)
Definition prunable (last : BlockCtx EventID) (cBlock : CBlock EventID) (evs : list (Event EventID))
    (rules : Rules) (t : Z) : Prop :=
  filter has_txs evs = [] ∧ cb_Cheaters cBlock = [] ∧
  t < u64 (bc_Time last + MaxEmptyBlockSkipPeriod (Blocks rules)).

Lemma len_0_iff {A} (l : list A) : (len l =? 0) = true ↔ l = [].
Proof.
  rewrite Z.eqb_eq. unfold len. split; [|by intros ->]. intros Hl. apply nil_length_inv. lia.
Qed.

(** The block's context, and the decision to skip it, in terms of the inputs. *)
Lemma ready_ctx cBlock evs st c bs :
  ready cBlock evs st c bs →
  let last := bs_LastBlock (s_BlockState st) in
  bc_Idx last + 1 < 2 ^ 64 → 0 <= bc_Idx last → 0 <= bc_Time last → bc_Time last + 1 < 2 ^ 64 →
  bc_Idx (blockCtx_of c) = bc_Idx last + 1 ∧ bc_Atropos (blockCtx_of c) = cb_Atropos cBlock ∧
  bs_LastBlock bs = last ∧
  if skipBlock c then
    Forall (λ e, ID (ev_base e) ≠ cb_Atropos cBlock) evs ∨
    ∃ t, block_time last cBlock evs t ∧ prunable last cBlock evs (es_Rules (s_EpochState st)) t
  else block_time last cBlock evs (bc_Time (blockCtx_of c)) ∧
    ¬ prunable last cBlock evs (es_Rules (s_EpochState st)) (bc_Time (blockCtx_of c)).
Proof.
  intros R last Hi Hi0 Ht0 Ht. destruct (rd_keeps _ _ _ _ _ R) as (states & _ & Hbs).
  assert (Hlast : bs_LastBlock (c_bs c) = last) by (by rewrite (rd_bs _ _ _ _ _ R)).
  split; [cbn; rewrite Hlast; apply u64_id; unfold is_u64; lia|].
  split; [cbn; by rewrite (rd_block _ _ _ _ _ R)|]. split; [by rewrite Hbs|].
  assert (Htime : c_atroposDegenerate c = false → block_time last cBlock evs (bc_Time (blockCtx_of c))).
  { intros Hd. destruct (rd_time _ _ _ _ _ R Hd) as (e & He & HE & HT). exists e.
    split; [done|]. split; [done|]. cbn. rewrite Hlast, HT, u64_id by (unfold is_u64; lia).
    destruct (Z.leb_spec (medianTime (ev_ext e)) (bc_Time last)); lia. }
  assert (Hpr : (len (c_confirmedEvents c) =? 0) && (len (cb_Cheaters (c_block c)) =? 0) &&
     (bc_Time (blockCtx_of c) <?
      u64 (bc_Time (bs_LastBlock (c_bs c)) + MaxEmptyBlockSkipPeriod (Blocks (es_Rules (c_es c))))) = true
     ↔ prunable last cBlock evs (es_Rules (s_EpochState st)) (bc_Time (blockCtx_of c))).
  { rewrite !andb_true_iff, !len_0_iff, Z.ltb_lt, Hlast, (rd_block _ _ _ _ _ R), (rd_es _ _ _ _ _ R).
    rewrite (rd_confirmed _ _ _ _ _ R). unfold prunable.
    assert (Hn : ∀ l : list (Event EventID), (λ e, ID (ev_base e)) <$> l = [] ↔ l = []) by (by intros []).
    rewrite Hn. tauto. }
  pose proof (rd_degenerate _ _ _ _ _ R) as Hdeg. unfold skipBlock.
  destruct (c_atroposDegenerate c); cbn [orb]; [left; tauto|].
  specialize (Htime eq_refl). destruct (_ && _ && _).
  - right. eexists. split; [done|]. tauto.
  - split; [done|]. intros Hp%Hpr. done.
Qed.

(** One call of the pipeline, with everything it changes of the chain. *)
Lemma block_step cBlock evs st nv st' :
  let last := bs_LastBlock (s_BlockState st) in
  bc_Idx last + 1 < 2 ^ 64 → 0 <= bc_Idx last → 0 <= bc_Time last → bc_Time last + 1 < 2 ^ 64 →
  process_block cBlock evs st = Ok (nv, st') →
  (bs_LastBlock (s_BlockState st') = last ∧ s_Tables st' = s_Tables st ∧
   s_BlockIndex st' = s_BlockIndex st ∧ s_TxPositions st' = s_TxPositions st ∧
   s_EpochState st' = s_EpochState st ∧ nv = None ∧
   bs_FinalizedStateRoot (s_BlockState st') = bs_FinalizedStateRoot (s_BlockState st) ∧
   (Forall (λ e, ID (ev_base e) ≠ cb_Atropos cBlock) evs ∨
    ∃ t, block_time last cBlock evs t ∧ prunable last cBlock evs (es_Rules (s_EpochState st)) t))
  ∨ (let last' := bs_LastBlock (s_BlockState st') in
     bc_Idx last' = bc_Idx last + 1 ∧ bc_Time last < bc_Time last' ∧
     bc_Atropos last' = cb_Atropos cBlock ∧
     block_time last cBlock evs (bc_Time last') ∧
     ¬ prunable last cBlock evs (es_Rules (s_EpochState st)) (bc_Time last') ∧
     (∃ b, t_Blocks (s_Tables st') = <[bc_Idx last' := b]> (t_Blocks (s_Tables st)) ∧
        bl_Time b = bc_Time last' ∧ bl_Atropos b = bc_Atropos last' ∧
        bl_Root b = bs_FinalizedStateRoot (s_BlockState st')) ∧
     s_BlockIndex st' = <[id_Bytes (bc_Atropos last') := bc_Idx last']> (s_BlockIndex st)).
Proof.
  intros last Hi Hi0 Ht0 Ht E.
  destruct (process_block_inv _ _ _ _ _ E) as (c & bs & R & Hcase).
  destruct (ready_ctx _ _ _ _ _ R Hi Hi0 Ht0 Ht) as (Hidx & Hatr & Hlast & Hskip).
  destruct (skipBlock c) eqn:Hs.
  - left. destruct Hcase as [-> ->]. cbn. split_and!; try done.
    destruct (rd_keeps _ _ _ _ _ R) as (states & _ & ->). by rewrite (rd_bs _ _ _ _ _ R).
  - right. destruct Hcase as (pd & st1 & E1 & E2). destruct Hskip as [Htime Hnp].
    destruct (EndBlock_inv _ _ _ _ _ _ (rd_final _ _ _ _ _ R) Hs E1)
      as (p0 & bs1 & p1 & rs & _ & _ & _ & Hctx & _ & _ & Ht1 & Hi1 & _).
    destruct (blockFn_inv _ _ _ E2) as (evm & internal & events & bevs & eb & sk & rcs & b & bsf & F).
    rewrite (fn_bs _ _ _ _ _ _ _ _ _ _ _ _ F). cbn [bs_LastBlock set_Final]. rewrite Hctx. split_and!; try done.
    + destruct Htime as (e & _ & _ & ->). unfold last. lia.
    + exists b. rewrite (fn_blocks _ _ _ _ _ _ _ _ _ _ _ _ F), Ht1, Hctx.
      rewrite (fn_block _ _ _ _ _ _ _ _ _ _ _ _ F), Hctx. done.
    + by rewrite (fn_index _ _ _ _ _ _ _ _ _ _ _ _ F), Hctx, Hi1.
Qed.

(** C2: every call of the pipeline either leaves the chain as it was, when the Atropos
    was confirmed before or when the block is empty and recent, or appends exactly one
    block: its index is the next one, its time is the Atropos' median time or at
    least later than the last block's, no other block changes, and it can be found by
    its Atropos. *)
Theorem pipeline_appends_one_block cBlock evs st nv st' :
  let last := bs_LastBlock (s_BlockState st) in
  bc_Idx last + 1 < 2 ^ 64 → 0 <= bc_Idx last → 0 <= bc_Time last → bc_Time last + 1 < 2 ^ 64 →
  process_block cBlock evs st = Ok (nv, st') →
  (bs_LastBlock (s_BlockState st') = last ∧ s_Tables st' = s_Tables st ∧
   s_BlockIndex st' = s_BlockIndex st ∧ s_TxPositions st' = s_TxPositions st ∧
   s_EpochState st' = s_EpochState st ∧ nv = None ∧
   (Forall (λ e, ID (ev_base e) ≠ cb_Atropos cBlock) evs ∨
    ∃ t, block_time last cBlock evs t ∧ prunable last cBlock evs (es_Rules (s_EpochState st)) t))
  ∨ (let last' := bs_LastBlock (s_BlockState st') in
     bc_Idx last' = bc_Idx last + 1 ∧ bc_Time last < bc_Time last' ∧
     bc_Atropos last' = cb_Atropos cBlock ∧
     block_time last cBlock evs (bc_Time last') ∧
     ¬ prunable last cBlock evs (es_Rules (s_EpochState st)) (bc_Time last') ∧
     (∃ b, t_Blocks (s_Tables st') = <[bc_Idx last' := b]> (t_Blocks (s_Tables st)) ∧
        bl_Time b = bc_Time last' ∧ bl_Atropos b = bc_Atropos last' ∧
        bl_Root b = bs_FinalizedStateRoot (s_BlockState st')) ∧
     s_BlockIndex st' !! id_Bytes (bc_Atropos last') = Some (bc_Idx last')).
Proof.
  intros last Hi Hi0 Ht0 Ht E. destruct (block_step _ _ _ _ _ Hi Hi0 Ht0 Ht E) as [?|(? & ? & ? & ? & ? & ? & ->)]; [left; tauto|right].
  split_and!; try done. apply lookup_insert_eq.
Qed.

(** ** Epochs *)

(** C36: the pipeline returns new validators exactly when it stored a block at which the
    epoch was due to end, by gas, by duration, by request of the driver contract or
    because of a cheater.  Then the next epoch starts at that block with these
    validators; otherwise the epoch state is unchanged. *)
Theorem pipeline_epochs cBlock evs st nv st' :
  let last := bs_LastBlock (s_BlockState st) in
  let es := s_EpochState st in
  bc_Idx last + 1 < 2 ^ 64 → 0 <= bc_Idx last → 0 <= bc_Time last → bc_Time last + 1 < 2 ^ 64 →
  process_block cBlock evs st = Ok (nv, st') →
  match nv with
  | None => s_EpochState st' = es
  | Some v =>
      let last' := bs_LastBlock (s_BlockState st') in
      let es' := s_EpochState st' in
      bc_Idx last' = bc_Idx last + 1 ∧
      es_Validators es' = v ∧ es_Epoch es' = u32 (es_Epoch es + 1) ∧
      es_EpochStart es' = bc_Time last' ∧ es_PrevEpochStart es' = es_EpochStart es
  end ∧
  (is_Some nv ↔
   bs_LastBlock (s_BlockState st') ≠ last ∧
   (MaxEpochGas (Epochs (es_Rules es)) <= epoch_gas (bs_EpochGas (s_BlockState st)) evs ∨
    MaxEpochDuration (Epochs (es_Rules es))
      <= u64 (bc_Time (bs_LastBlock (s_BlockState st')) - es_EpochStart es) ∨
    0 < bs_AdvanceEpochs (s_BlockState st) ∨
    mergeCheaters (bs_EpochCheaters (s_BlockState st)) (cb_Cheaters cBlock) ≠ [])).
Proof.
  intros last es Hi Hi0 Ht0 Ht E.
  destruct (process_block_inv _ _ _ _ _ E) as (c & bs & R & Hcase).
  destruct (ready_ctx _ _ _ _ _ R Hi Hi0 Ht0 Ht) as (Hidx & Hatr & Hlast & _).
  destruct (skipBlock c) eqn:Hs.
  - destruct Hcase as [-> ->]. cbn. split; [done|]. rewrite Hlast. rewrite is_Some_alt. tauto.
  - destruct Hcase as (pd & st1 & E1 & E2).
    destruct (EndBlock_inv _ _ _ _ _ _ (rd_final _ _ _ _ _ R) Hs E1)
      as (p0 & bs1 & p1 & rs & _ & _ & _ & Hctx & _ & _ & _ & _ & _ & _ & Hseal).
    destruct (blockFn_inv _ _ _ E2) as (evm & internal & events & bevs & eb & sk & rcs & b & bsf & F).
    rewrite (fn_bs _ _ _ _ _ _ _ _ _ _ _ _ F), (fn_es _ _ _ _ _ _ _ _ _ _ _ _ F). cbn [bs_LastBlock set_Final].
    rewrite Hctx. destruct (rd_keeps _ _ _ _ _ R) as (states & _ & Hbs).
    assert (Hdue : EpochSealing (blockCtx_of c) bs (c_es c) = true ↔
      (MaxEpochGas (Epochs (es_Rules es)) <= epoch_gas (bs_EpochGas (s_BlockState st)) evs ∨
       MaxEpochDuration (Epochs (es_Rules es)) <= u64 (bc_Time (blockCtx_of c) - es_EpochStart es) ∨
       0 < bs_AdvanceEpochs (s_BlockState st) ∨
       mergeCheaters (bs_EpochCheaters (s_BlockState st)) (cb_Cheaters cBlock) ≠ [])).
    { unfold EpochSealing. rewrite (rd_es _ _ _ _ _ R), Hbs, (rd_bs _ _ _ _ _ R). cbn.
      rewrite !orb_true_iff, !Z.leb_le, Z.ltb_lt, negb_true_iff, <- not_true_iff_false, len_0_iff. tauto. }
    assert (Hne : blockCtx_of c ≠ last) by (intros Heq; rewrite Heq in Hidx; unfold last in Hidx; lia).
    destruct (EpochSealing _ _ _).
    + destruct Hseal as (bs2 & Es & -> & _). split; [|split; [|by eexists]; intros _; tauto].
      unfold SealEpoch in Es. apply res_bind_Ok in Es as (states' & _ & Es). injection Es as _ Es.
      rewrite <- Es. cbn [es_Validators es_Epoch es_EpochStart es_PrevEpochStart].
      rewrite (rd_es _ _ _ _ _ R). done.
    + destruct Hseal as (-> & Hes & _). split; [by rewrite Hes, (rd_es _ _ _ _ _ R)|].
      split; [by intros [? ?]|]. intros [_ Hd%Hdue]. done.
Qed.
(** ** Reading a block back *)

Lemma spill_loop_found get maxGas ids sum (full full' : list (EventPayload EventID)) :
  spill_loop get maxGas ids sum full = Ok full' →
  ∃ ps, full' = ps ++ full ∧
    Forall2 (λ id e, get id = Some e) (reverse (take (length ps) ids)) ps ∧ (length ps <= length ids)%nat.
Proof.
  revert sum full. induction ids as [|id ids IH]; intros sum full E; cbn in E.
  { injection E as <-. exists []. split; [done|]. split; [constructor|done]. }
  destruct (get id) as [e|] eqn:Eg; cbn in E; [|done].
  destruct (_ <? _).
  { injection E as <-. exists []. split; [done|]. split; [constructor|cbn; lia]. }
  destruct (IH _ _ E) as (ps & -> & Hf & Hl). exists (ps ++ [e]).
  split; [by rewrite <- app_assoc|]. rewrite length_app, Nat.add_comm. cbn [length Nat.add take].
  rewrite reverse_cons. split; [|lia]. apply Forall2_app; [done|]. by repeat constructor.
Qed.

Lemma spillBlockEvents_found get ids rules ids' (full : list (EventPayload EventID)) :
  spillBlockEvents get ids rules = Ok (ids', full) → Forall2 (λ id e, get id = Some e) ids' full.
Proof.
  unfold spillBlockEvents. intros (l & E & [= <- <-])%res_bind_Ok.
  destruct (spill_loop_found _ _ _ _ _ _ E) as (ps & -> & Hf & Hl). rewrite app_nil_r.
  rewrite length_reverse in Hl. by rewrite take_reverse, reverse_involutive in Hf.
Qed.

Lemma read_events_found (t : Tables EventID) ids (full : list (EventPayload EventID)) :
  Forall2 (λ id e, t_Events t !! id_Bytes id = Some e) ids full →
  read_events t ids = Ok (concat (ep_txs <$> full)).
Proof. induction 1 as [|id e ids full He _ IH]; [done|]. cbn [read_events]. by rewrite He, IH. Qed.

Lemma put_txs_lookup txs m tx :
  (∀ tx', tx' ∈ txs → tx_Hash tx' = tx_Hash tx → tx' = tx) →
  tx ∈ txs ∨ m !! tx_Hash tx = Some tx → put_txs txs m !! tx_Hash tx = Some tx.
Proof.
  revert m. induction txs as [|tx0 txs IH]; intros m Hinj Hin; cbn.
  { destruct Hin as [Hin|Hin]; [|done]. by apply not_elem_of_nil in Hin. }
  apply IH; [intros tx' Ht'; apply Hinj; by right|].
  destruct Hin as [[->|Hin]%elem_of_cons|Hm]; [right; apply lookup_insert_eq|by left|].
  destruct (decide (tx_Hash tx0 = tx_Hash tx)) as [Hh|Hh].
  - right. rewrite (Hinj tx0 ltac:(by left) Hh). apply lookup_insert_eq.
  - right. by rewrite lookup_insert_ne.
Qed.

Lemma read_txs_found (t : Tables EventID) txs :
  Forall (λ tx, t_Txs t !! tx_Hash tx = Some tx) txs → read_txs t (tx_Hash <$> txs) = Ok txs.
Proof. induction 1 as [|tx txs He _ IH]; [done|]. cbn. by rewrite He, IH. Qed.

(** The transactions [internalTxBuilder] builds for the driver contract. *)
Definition internalTx (nonce : Z) (data : list Z) : Transaction :=
  mkTransaction LegacyTxType nonce 10000000000 0 0 (Some ContractAddress) data 0 0 0 0 [].

Definition is_internal (tx : Transaction) : Prop := ∃ n d, tx = internalTx n d.

(** Their hashes do not collide. *)
Definition internal_hash_inj : Prop :=
  ∀ n d n' d', tx_Hash (internalTx n d) = tx_Hash (internalTx n' d') → n = n' ∧ d = d'.

Lemma write_cheaters_internal (validators : V) n0 cheaters states nonce txs states' nonce' :
  write_cheaters (EventID := EventID) Pack ContractAddress validators n0 cheaters states nonce
    = Ok (txs, states', nonce') → Forall is_internal txs.
Proof.
  revert states nonce txs states' nonce'.
  induction cheaters as [|id cheaters IH]; intros states nonce txs states' nonce' E; cbn in E.
  { by injection E as <- _ _. }
  apply res_bind_Ok in E as (info & _ & E). destruct (Cheater info); [by eapply IH|].
  apply res_bind_Ok in E as (states1 & _ & E).
  apply res_bind_Ok in E as ([[txs1 states2] nonce2] & E1 & [= <- _ _]).
  constructor; [eexists _, _; reflexivity|by eapply IH].
Qed.

Lemma Pre_internal block bs (es : EpochState) sealing n0 txs bs' :
  Pre_PopInternalTxs Pack ContractAddress block bs es sealing n0 = Ok (txs, bs') → Forall is_internal txs.
Proof.
  unfold Pre_PopInternalTxs. intros ([[txs1 states] nonce] & E & E')%res_bind_Ok.
  apply write_cheaters_internal in E. apply res_bind_Ok in E' as (txs2 & E2 & [= <- _]).
  destruct sealing; [|by injection E2 as <-].
  apply res_bind_Ok in E2 as (ms & _ & [= <-]). apply Forall_app. split; [done|].
  apply Forall_singleton. eexists _, _. reflexivity.
Qed.

Lemma Post_internal (es : EpochState) sealing n0 :
  Forall is_internal (Post_PopInternalTxs (EventID := EventID) Pack ContractAddress es sealing n0).
Proof. destruct sealing; repeat constructor. eexists _, _. reflexivity. Qed.

Lemma put_internal txs m :
  internal_hash_inj → Forall is_internal txs →
  Forall (λ tx, put_txs txs m !! tx_Hash tx = Some tx) txs.
Proof.
  intros Hinj Hint. rewrite Forall_forall in *. intros tx Hin. apply put_txs_lookup; [|by left].
  intros tx' Hin' Hh. destruct (Hint tx Hin) as (n & d & ->), (Hint tx' Hin') as (n' & d' & ->).
  by destruct (Hinj _ _ _ _ Hh) as [-> ->].
Qed.
(** [Execute] appends the transactions and keeps the block's context. *)
Lemma Execute_ctx (p : EVMProcessor (EventID := EventID) (W := W) (Log := Log) (L := BlockState))
    txs internal rs p' :
  Execute onNewLogAll p txs internal = Ok (rs, p') →
  ep_incomingTxs p' = ep_incomingTxs p ++ txs ∧ same_ctx p p'.
Proof. unfold Execute. destruct (Process _ _ _ _ _) as [[[]| |] s]; try done. by intros [= _ <-]. Qed.

Lemma GetHeader_zero t n h :
  GetHeader t zeroHash n = Ok (Some h) →
  ∃ b : Block EventID, t_Blocks t !! n = Some b ∧ h_Hash h = id_Bytes (bl_Atropos b).
Proof.
  unfold GetHeader, getBlock. intros (r & E & Hr)%res_bind_Ok.
  destruct (t_Blocks t !! n) as [b|]; [|by injection E as <-]. exists b. split; [done|].
  rewrite (bool_decide_true (zeroHash = zeroHash)) in E by done. cbn [negb andb] in E.
  cbn [mbind res_bind] in E. apply res_bind_Ok in E as (prev & _ & [= <-]). by injection Hr as <-.
Qed.

(** The EVM processor at the end of a block, from its start. *)
Lemma finished_ctx c st bs nv st1 pd st' evm internal events bevs eb sk rcs b bsf :
  Events_Finalize (c_eventProcessor c) (blockCtx_of c) = Ok bs → skipBlock c = false →
  EndBlock c st = Ok (nv, st1, Some pd) →
  finished pd st1 st' evm internal events bevs eb sk rcs b bsf →
  ep_incomingTxs evm = (pd_preInternalTxs pd ++ internal) ++ concat (ep_txs <$> bevs) ∧
  ep_block evm = blockCtx_of c ∧ ep_blockIdx evm = bc_Idx (blockCtx_of c) ∧
  Forall is_internal (pd_preInternalTxs pd ++ internal) ∧
  (bc_Idx (blockCtx_of c) ≠ 0 → ∃ prev, t_Blocks (s_Tables st) !! u64 (bc_Idx (blockCtx_of c) - 1) = Some prev ∧
     ep_prevBlockHash evm = id_Bytes (bl_Atropos prev)).
Proof.
  intros Hfin Hs E1 F. destruct (EndBlock_inv _ _ _ _ _ _ Hfin Hs E1)
    as (p0 & bs1 & p1 & rs & Hst & Hpre & Hex & Hctx & _ & _ & _ & _ & _ & _ & Hseal).
  apply matching_Start in Hst as (_ & Hi0 & Hb0 & Hx0 & Hprev & _).
  apply Execute_ctx in Hex as [Hi1 (Hb1 & Hx1 & Hp1)]. cbn in Hi1, Hb1, Hx1, Hp1. rewrite Hi0 in Hi1.
  assert (Hpd : ep_incomingTxs (pd_evm pd) = ep_incomingTxs p1 ∧ same_ctx p1 (pd_evm pd)).
  { destruct (EpochSealing _ _ _).
    - by destruct Hseal as (bs2 & _ & _ & ->).
    - by destruct Hseal as (_ & _ & -> & _). }
  destruct Hpd as [Hi2 (Hb2 & Hx2 & Hp2)].
  pose proof (fn_execute _ _ _ _ _ _ _ _ _ _ _ _ F) as Ex. cbn [Execute_all] in Ex.
  apply res_bind_Ok in Ex as ([rs1 q1] & Ex1 & Ex). apply res_bind_Ok in Ex as ([rs2 q2] & Ex2 & [= <-]).
  apply Execute_ctx in Ex1 as [Hi3 (Hb3 & Hx3 & Hp3)]. apply Execute_ctx in Ex2 as [Hi4 (Hb4 & Hx4 & Hp4)].
  split; [rewrite Hi4, Hi3, Hi2, Hi1; done|]. split; [congruence|]. split; [congruence|]. split.
  - apply Forall_app. split; [by eapply Pre_internal|].
    rewrite (fn_internal _ _ _ _ _ _ _ _ _ _ _ _ F). apply Post_internal.
  - intros Hn. destruct (Hprev Hn) as (h & Hh & Hp). destruct (GetHeader_zero _ _ _ Hh) as (prev & Ep & Hpr).
    exists prev. split; [done|]. congruence.
Qed.

(** The tables without the cache of EVM blocks, as after a restart. *)
Definition uncached (t : Tables EventID) : Tables EventID :=
  mkTables (t_Blocks t) (t_Txs t) (t_Events t) ∅.

(** C3: a block that is stored can be read back: rebuilding the EVM block from the
    tables alone, as after a restart, gives the very block that was executed, with
    its header, its internal and external transactions in order and without the
    skipped ones. *)
Theorem block_reread cBlock evs st nv st' :
  let last := bs_LastBlock (s_BlockState st) in
  0 <= bc_Idx last → bc_Idx last + 1 < 2 ^ 63 → 0 <= bc_Time last → bc_Time last + 1 < 2 ^ 64 →
  internal_hash_inj → process_block cBlock evs st = Ok (nv, st') →
  bs_LastBlock (s_BlockState st') ≠ last →
  let n := bc_Idx (bs_LastBlock (s_BlockState st')) in
  let t := uncached (s_Tables st') in
  ∃ evmBlock, t_EvmBlocks (s_Tables st') !! n = Some evmBlock ∧
    GetBlock t zeroHash n = Ok (Some evmBlock, set_EvmBlock n evmBlock t).
Proof.
  intros last Hi0 Hi Ht0 Ht Hinj E Hnew. cbv zeta.
  destruct (process_block_inv _ _ _ _ _ E) as (c & bs & R & Hcase).
  assert (Hi' : bc_Idx last + 1 < 2 ^ 64) by lia.
  destruct (ready_ctx _ _ _ _ _ R Hi' Hi0 Ht0 Ht) as (Hidx & Hatr & Hlast & _).
  destruct (skipBlock c) eqn:Hs; [destruct Hcase as [-> ->]; by destruct Hnew|].
  destruct Hcase as (pd & st1 & E1 & E2).
  destruct (EndBlock_inv _ _ _ _ _ _ (rd_final _ _ _ _ _ R) Hs E1)
    as (_ & _ & _ & _ & _ & _ & _ & Hctx & _ & _ & Ht1 & _).
  destruct (blockFn_inv _ _ _ E2) as (evm & internal & events & bevs & eb & sk & rcs & b & bsf & F).
  destruct (finished_ctx _ _ _ _ _ _ _ _ _ _ _ _ _ _ _ _ (rd_final _ _ _ _ _ R) Hs E1 F)
    as (Hinc & Hblk & Hbidx & Hint & Hprev).
  fold last in Hidx. destruct (Hprev ltac:(lia)) as (prev & Ep & Hph).
  exists eb. rewrite (fn_bs _ _ _ _ _ _ _ _ _ _ _ _ F). cbn [bs_LastBlock set_Final]. rewrite Hctx.
  rewrite (fn_evm _ _ _ _ _ _ _ _ _ _ _ _ F), Hctx. split; [apply lookup_insert_eq|].
  set (n := bc_Idx (blockCtx_of c)) in *. set (t := uncached (s_Tables st')).
  assert (Hblocks : t_Blocks t = <[n := b]> (t_Blocks (s_Tables st))).
  { subst t n. cbn. by rewrite (fn_blocks _ _ _ _ _ _ _ _ _ _ _ _ F), Ht1, Hctx. }
  assert (Hpn : t_Blocks t !! (n - 1) = Some prev).
  { rewrite Hblocks, lookup_insert_ne by lia. rewrite u64_id in Ep by (unfold is_u64; lia). done. }
  assert (Hrt : read_txs t (bl_InternalTxs b) = Ok (pd_preInternalTxs pd ++ internal)).
  { rewrite (fn_block _ _ _ _ _ _ _ _ _ _ _ _ F). apply read_txs_found. subst t. cbn.
    rewrite (fn_txs _ _ _ _ _ _ _ _ _ _ _ _ F). by apply put_internal. }
  assert (Hre : read_events t (bl_Events b) = Ok (concat (ep_txs <$> bevs))).
  { rewrite (fn_block _ _ _ _ _ _ _ _ _ _ _ _ F). apply read_events_found. subst t. cbn.
    rewrite (fn_events _ _ _ _ _ _ _ _ _ _ _ _ F).
    apply (spillBlockEvents_found _ _ _ _ _ (fn_spill _ _ _ _ _ _ _ _ _ _ _ _ F)). }
  unfold GetBlock, getBlock. rewrite Hblocks, lookup_insert_eq, <- Hblocks.
  rewrite (bool_decide_true (zeroHash = zeroHash)) by done. cbn [negb andb].
  assert (Hc : t_EvmBlocks t !! n = None) by apply lookup_empty. rewrite Hc, Hrt, Hre.
  assert (Htxs : bl_Txs b = []) by (by rewrite (fn_block _ _ _ _ _ _ _ _ _ _ _ _ F)).
  rewrite Htxs. cbn [mbind res_bind read_txs app]. rewrite (proj2 (Z.eqb_neq n 0)) by lia.
  cbn [negb]. rewrite Hpn. cbn [mbind res_bind].
  assert (Heb : NewEvmBlock (ToEvmHeader b n (id_Bytes (bl_Atropos prev)))
     (FilterSkippedTxs ((pd_preInternalTxs pd ++ internal) ++ concat (ep_txs <$> bevs)) (bl_SkippedTxs b)) = eb);
    [|by rewrite Heb].
  destruct (fn_finalize _ _ _ _ _ _ _ _ _ _ _ _ F) as [w Hf]. unfold EVM_Finalize in Hf.
  rewrite (fn_block _ _ _ _ _ _ _ _ _ _ _ _ F).
  destruct (Commit _) as [[root| |] w']; try done. injection Hf as <- <- _ _.
  unfold evmBlockWith, NewEvmBlock, ToEvmHeader, with_TxHash, with_Root.
  cbn [bl_Time bl_Atropos bl_Root bl_GasUsed bl_SkippedTxs h_Number h_Hash h_ParentHash h_Root h_TxHash
    h_Time h_Coinbase h_GasLimit h_GasUsed eb_Header eb_Transactions].
  rewrite Hinc, Hblk, Hbidx, Hph, Hctx. by rewrite (i64_id n) by (clear -Hidx Hi Hi0; unfold is_i64; lia).
Qed.
(** ** Where transactions are found *)

Lemma event_positions_keep (e : EventPayload EventID) (i : Z) (txs : list Transaction) (m : Positions) (h : list Z) (p : ExtendedTxPosition EventID) :
  m !! h = Some p → event_positions e i txs m !! h = Some p.
Proof.
  revert i m. induction txs as [|tx txs IH]; intros i m Hm; [done|]. cbn. apply IH.
  destruct (m !! tx_Hash tx) eqn:E; [done|]. rewrite lookup_insert_ne; [done|]. congruence.
Qed.

Lemma event_positions_other (e : EventPayload EventID) (i : Z) (txs : list Transaction) (m : Positions) (h : list Z) :
  h ∉ tx_Hash <$> txs → event_positions e i txs m !! h = m !! h.
Proof.
  revert i m. induction txs as [|tx txs IH]; intros i m Hh; [done|]. cbn in *.
  apply not_elem_of_cons in Hh as [Hne Hh]. rewrite IH by done.
  destruct (m !! tx_Hash tx); [done|]. by rewrite lookup_insert_ne.
Qed.

Lemma event_positions_first (e : EventPayload EventID) (i : Z) (a : list Transaction) (tx : Transaction) (b : list Transaction) (m : Positions) :
  m !! tx_Hash tx = None → tx_Hash tx ∉ tx_Hash <$> a →
  event_positions e i (a ++ tx :: b) m !! tx_Hash tx =
  Some (mkExtPosition (mkTxPosition 0 (ID (ev_base (ep_event e))) (u32 (i + len a)) 0)
          (Creator (ev_base (ep_event e)))).
Proof.
  revert i m. induction a as [|tx0 a IH]; intros i m Hm Ha.
  - cbn. rewrite Hm. unfold len. cbn. rewrite Z.add_0_r. apply event_positions_keep, lookup_insert_eq.
  - cbn in Ha. apply not_elem_of_cons in Ha as [Hne Ha]. cbn [app event_positions].
    rewrite IH; [| |done].
    + do 4 f_equal. unfold len. cbn. lia.
    + destruct (m !! tx_Hash tx0); [done|]. by rewrite lookup_insert_ne.
Qed.

Lemma events_positions_app l k :
  events_positions (l ++ k) = foldl (λ m e, event_positions e 0 (ep_txs e) m) (events_positions l) k.
Proof. unfold events_positions. by rewrite foldl_app. Qed.

Lemma events_positions_none l h : Forall (λ e', h ∉ tx_Hash <$> ep_txs e') l → events_positions l !! h = None.
Proof.
  induction l as [|e0 l IH] using rev_ind; [done|]. intros [Hl Hl0]%Forall_app. rewrite Forall_singleton in Hl0.
  rewrite events_positions_app. cbn [foldl]. rewrite event_positions_other; [by apply IH|exact Hl0].
Qed.

(** The position of the first occurrence of a transaction in a list of events. *)
Lemma events_positions_first pre e post a tx b :
  Forall (λ e', tx_Hash tx ∉ tx_Hash <$> ep_txs e') pre → ep_txs e = a ++ tx :: b →
  tx_Hash tx ∉ tx_Hash <$> a →
  events_positions (pre ++ e :: post) !! tx_Hash tx =
  Some (mkExtPosition (mkTxPosition 0 (ID (ev_base (ep_event e))) (u32 (len a)) 0)
          (Creator (ev_base (ep_event e)))).
Proof.
  intros Hpre He Ha. rewrite events_positions_app. cbn [foldl].
  pose proof (events_positions_none pre (tx_Hash tx) Hpre) as Hnone.
  assert (Hkeep : ∀ l (m : Positions) p, m !! tx_Hash tx = Some p →
    foldl (λ m e, event_positions e 0 (ep_txs e) m) m l !! tx_Hash tx = Some p).
  { clear. intros l. induction l as [|e0 l IH]; intros m p Hm; [done|]. cbn. apply IH.
    by apply event_positions_keep. }
  apply Hkeep. rewrite He. by apply event_positions_first.
Qed.

Lemma block_positions_other (n i : Z) (txs : list Transaction) (m : Positions) (h : list Z) :
  h ∉ tx_Hash <$> txs → block_positions n i txs m !! h = m !! h.
Proof.
  revert i m. induction txs as [|tx txs IH]; intros i m Hh; [done|]. cbn in *.
  apply not_elem_of_cons in Hh as [Hne Hh]. by rewrite IH, lookup_insert_ne.
Qed.

Lemma block_positions_lookup (n i : Z) (txs : list Transaction) (m : Positions) (k : nat) (tx : Transaction) :
  NoDup (tx_Hash <$> txs) → txs !! k = Some tx →
  let p := default zero_position (m !! tx_Hash tx) in
  block_positions n i txs m !! tx_Hash tx = Some (mkExtPosition
    (mkTxPosition n (tp_Event (xp_TxPosition p)) (tp_EventOffset (xp_TxPosition p)) (u32 (i + Z.of_nat k)))
    (xp_EventCreator p)).
Proof.
  revert i m k. induction txs as [|tx0 txs IH]; intros i m k Hnd Hk; [done|]. cbn in Hnd.
  apply NoDup_cons in Hnd as [Hnin Hnd]. destruct k as [|k]; cbn in Hk |- *.
  - injection Hk as ->. rewrite block_positions_other by done.
    by rewrite lookup_insert_eq, Z.add_0_r.
  - rewrite (IH _ _ k Hnd Hk). rewrite lookup_insert_ne.
    + do 4 f_equal. lia.
    + intros Heq. destruct Hnin. rewrite Heq. apply list_elem_of_fmap_2. by eapply list_elem_of_lookup_2.
Qed.

Lemma put_positions_lookup (p : Positions) (txs : list Transaction) (m : gmap (list Z) (TxPosition EventID)) (tx : Transaction) :
  tx ∈ txs → put_positions p txs m !! tx_Hash tx =
    Some (xp_TxPosition (default zero_position (p !! tx_Hash tx))).
Proof.
  intros Hin. unfold put_positions. induction txs as [|tx0 l IH] using rev_ind.
  { by apply not_elem_of_nil in Hin. }
  rewrite foldl_app. cbn. destruct (decide (tx_Hash tx0 = tx_Hash tx)) as [->|Hne].
  - apply lookup_insert_eq.
  - rewrite lookup_insert_ne by done. apply IH. apply elem_of_app in Hin as [?|Hin]; [done|].
    apply list_elem_of_singleton in Hin as ->. done.
Qed.

(** with the transaction index on, every transaction of a stored block is found at
    its block and at its offset there; a transaction that came in an event is found
    at the first of the block's events that contains it, at its offset there. *)
Theorem tx_positions_recorded cBlock evs st nv st' :
  let last := bs_LastBlock (s_BlockState st) in
  txIndex = true → process_block cBlock evs st = Ok (nv, st') →
  bs_LastBlock (s_BlockState st') ≠ last →
  let n := bc_Idx (bs_LastBlock (s_BlockState st')) in
  ∃ b bevs evmBlock, t_Blocks (s_Tables st') !! n = Some b ∧
    t_EvmBlocks (s_Tables st') !! n = Some evmBlock ∧
    Forall2 (λ id e, t_Events (s_Tables st') !! id_Bytes id = Some e) (bl_Events b) bevs ∧
    (NoDup (tx_Hash <$> eb_Transactions evmBlock) → len (eb_Transactions evmBlock) < 2 ^ 32 →
     ∀ k tx, eb_Transactions evmBlock !! k = Some tx →
     ∃ p, s_TxPositions st' !! tx_Hash tx = Some p ∧ tp_Block p = n ∧ tp_BlockOffset p = Z.of_nat k ∧
       ∀ pre e post a rest, bevs = pre ++ e :: post → ep_txs e = a ++ tx :: rest →
         Forall (λ e', tx_Hash tx ∉ tx_Hash <$> ep_txs e') pre → tx_Hash tx ∉ tx_Hash <$> a →
         tp_Event p = ID (ev_base (ep_event e)) ∧ tp_EventOffset p = u32 (len a)).
Proof.
  intros last Hix E Hnew. cbv zeta.
  destruct (process_block_inv _ _ _ _ _ E) as (c & bs & R & Hcase).
  destruct (rd_keeps _ _ _ _ _ R) as (states & _ & Hbs).
  destruct (skipBlock c) eqn:Hs.
  { destruct Hcase as [-> ->]. destruct Hnew. cbn. by rewrite Hbs, (rd_bs _ _ _ _ _ R). }
  destruct Hcase as (pd & st1 & E1 & E2).
  destruct (blockFn_inv _ _ _ E2) as (evm & internal & events & bevs & eb & sk & rcs & b & bsf & F).
  exists b, bevs, eb. rewrite (fn_bs _ _ _ _ _ _ _ _ _ _ _ _ F). cbn [bs_LastBlock set_Final].
  rewrite (fn_blocks _ _ _ _ _ _ _ _ _ _ _ _ F), (fn_evm _ _ _ _ _ _ _ _ _ _ _ _ F).
  rewrite !lookup_insert_eq. split; [done|]. split; [done|]. split.
  { rewrite (fn_events _ _ _ _ _ _ _ _ _ _ _ _ F), (fn_block _ _ _ _ _ _ _ _ _ _ _ _ F).
    apply (spillBlockEvents_found _ _ _ _ _ (fn_spill _ _ _ _ _ _ _ _ _ _ _ _ F)). }
  intros Hnd Hlen k tx Hk. rewrite (fn_positions _ _ _ _ _ _ _ _ _ _ _ _ F Hix).
  rewrite put_positions_lookup by (by eapply list_elem_of_lookup_2).
  rewrite (block_positions_lookup _ _ _ _ k tx Hnd Hk). cbn [default from_option id].
  eexists. split; [done|]. split; [done|]. apply lookup_lt_Some in Hk. unfold len in Hlen. split.
  - cbn. apply u32_id. unfold is_u32. lia.
  - intros pre e post a rest -> He Hpre Ha. by rewrite (events_positions_first pre e post a tx rest).
Qed.
(** ** Who is credited for fees *)

Context `{!PosLaws V}.

(** The creator of the first of the events that contains the transaction, 0 when none does. *)
Definition originator (events : list (EventPayload EventID)) (h : list Z) : Z :=
  match list_find (λ e, h ∈ tx_Hash <$> ep_txs e) events with
  | Some (_, e) => Creator (ev_base (ep_event e))
  | None => 0
  end.

(** The fee, and the gas to refund, of one receipt for one validator, where [who] says
    whom a receipt belongs to. *)
Definition credit (who : Transaction * Receipt → Z) (id : Z) (p : Transaction * Receipt) : Z :=
  if who p =? id then rc_GasUsed p.2 * tx_GasPrice p.1 else 0.
Definition unused (who : Transaction * Receipt → Z) (id : Z) (p : Transaction * Receipt) : Z :=
  if who p =? id then u64 (tx_Gas p.1 - rc_GasUsed p.2) else 0.

(** A state to which fees and refunds were added, and nothing else changed. *)
Definition add_fees (fees gas : Z) (s : ValidatorBlockState EventID) : ValidatorBlockState EventID :=
  mkVBS (Cheater s) (LastEvent s) (Uptime s) (LastOnlineTime s) (LastGasPowerLeft s) (LastBlock s)
    (u64 (DirtyGasRefund s + gas)) (Originated s + fees).

Lemma add_fees_0 s : is_u64 (DirtyGasRefund s) → add_fees 0 0 s = s.
Proof. intros Hu. destruct s. unfold add_fees. cbn in *. by rewrite !Z.add_0_r, u64_id. Qed.

Lemma add_fees_add f g f' g' s : add_fees f' g' (add_fees f g s) = add_fees (f + f') (g + g') s.
Proof using Type. unfold add_fees. cbn. f_equal; clear; go_lia. Qed.

Lemma receipt_creator_in (es : EpochState) (m : Positions) r :
  receipt_creator es m r ≠ 0 → receipt_creator es m r ∈ vv_IDs (es_Validators es).
Proof.
  unfold receipt_creator. set (cr := xp_EventCreator _). destruct (Z.eqb_spec cr 0) as [->|Hc]; [done|].
  destruct (Z.eqb_spec (vv_Get (es_Validators es) cr) 0) as [Hz|Hz]; cbn; [done|]. intros _.
  destruct (decide (cr ∈ vv_IDs (es_Validators es))) as [|Hn]; [done|].
  destruct Hz. by apply vv_Get_out.
Qed.

(** Validator by validator, what a list of receipts adds. *)
Definition credited (es : EpochState) (who : Transaction * Receipt → Z) (l : list (Transaction * Receipt))
    (bs bs' : BlockState)
  : Prop :=
  bs' = set_VStates (bs_ValidatorStates bs') bs ∧
  length (bs_ValidatorStates bs') = length (bs_ValidatorStates bs) ∧
  ∀ i id s, id ≠ 0 → vv_IDs (es_Validators es) !! i = Some id → bs_ValidatorStates bs !! i = Some s →
    bs_ValidatorStates bs' !! i =
      Some (add_fees (sum_Z (credit who id <$> l)) (sum_Z (unused who id <$> l)) s).

(** The creator that the code looks up for a receipt. *)
Definition looked_up (es : EpochState) (m : Positions) (p : Transaction * Receipt) : Z := receipt_creator es m p.2.

Lemma OnNewReceipt_credited (es : EpochState) (m : Positions) tx r bs :
  length (bs_ValidatorStates bs) = length (vv_IDs (es_Validators es)) →
  Forall (λ s, is_u64 (DirtyGasRefund s)) (bs_ValidatorStates bs) →
  ∃ bs', OnNewReceipt es tx (rc_GasUsed r) (receipt_creator es m r) bs = Ok bs' ∧
    credited es (looked_up es m) [(tx, r)] bs bs' ∧ Forall (λ s, is_u64 (DirtyGasRefund s)) (bs_ValidatorStates bs').
Proof.
  intros Hl Hu. unfold OnNewReceipt. destruct (Z.eqb_spec (receipt_creator es m r) 0) as [Hz|Hz].
  - exists bs. split; [done|]. split; [|done]. split; [by destruct bs|]. split; [done|].
    intros i id s Hid Hi Hs. unfold credit, unused, looked_up. cbn. rewrite Hz.
    rewrite (proj2 (Z.eqb_neq 0 id)) by done. cbn. rewrite Hs, add_fees_0; [done|].
    by apply (Forall_lookup_1 _ _ _ _ Hu Hs).
  - pose proof (receipt_creator_in es m r Hz) as Hin. set (cr := receipt_creator es m r) in *.
    destruct (index_Exists _ (bs_ValidatorStates bs) cr Hl Hin) as (s & -> & Hs). cbn [mbind res_bind].
    rewrite (update_Exists _ (bs_ValidatorStates bs) cr) by done. cbn [mbind res_bind].
    pose proof (Forall_lookup_1 _ _ _ _ Hu Hs) as Hus. cbn in Hus.
    assert (Hnew : mkVBS (Cheater s) (LastEvent s) (Uptime s) (LastOnlineTime s) (LastGasPowerLeft s)
        (LastBlock s) (if negb (u64 (tx_Gas tx - rc_GasUsed r) =? 0)
           then u64 (DirtyGasRefund s + u64 (tx_Gas tx - rc_GasUsed r)) else DirtyGasRefund s)
        (Originated s + rc_GasUsed r * tx_GasPrice tx)
      = add_fees (rc_GasUsed r * tx_GasPrice tx) (u64 (tx_Gas tx - rc_GasUsed r)) s).
    { unfold add_fees. f_equal. destruct (Z.eqb_spec (u64 (tx_Gas tx - rc_GasUsed r)) 0) as [->|?]; cbn; [|done].
      by rewrite Z.add_0_r, u64_id. }
    rewrite Hnew. destruct (vv_GetIdx_in _ _ Hin) as [Hp Hg].
    eexists. split; [done|]. split; [|apply Forall_insert; [done|apply u64_range]].
    split; [done|]. split; [cbn; by rewrite length_insert|]. intros i id s' Hid Hi Hs'.
    unfold credit, unused, looked_up. cbn. fold cr. rewrite !Z.add_0_r.
    destruct (decide (i = Z.to_nat (vv_GetIdx (es_Validators es) cr))) as [->|Hne].
    + assert (id = cr) as -> by congruence. rewrite Z.eqb_refl.
      rewrite list_lookup_insert_eq by (by eapply lookup_lt_Some). congruence.
    + rewrite list_lookup_insert_ne by done. rewrite (proj2 (Z.eqb_neq cr id)).
      * rewrite Hs', add_fees_0; [done|]. by apply (Forall_lookup_1 _ _ _ _ Hu Hs').
      * intros ->. destruct Hne. by apply (NoDup_lookup (vv_IDs (es_Validators es)) _ _ id (vv_NoDup _)).
Qed.

Lemma credited_cons (es : EpochState) (who : Transaction * Receipt → Z) p l bs bs1 bs2 :
  credited es who [p] bs bs1 → credited es who l bs1 bs2 → credited es who (p :: l) bs bs2.
Proof.
  intros (Hb1 & Hl1 & Hf1) (Hb2 & Hl2 & Hf2). split.
  { rewrite Hb2, Hb1. done. }
  split; [congruence|]. intros i id s Hid Hi Hs.
  rewrite (Hf2 i id _ Hid Hi (Hf1 i id s Hid Hi Hs)). rewrite add_fees_add. cbn. by rewrite !Z.add_0_r.
Qed.

Lemma credited_ext (es : EpochState) (who who' : Transaction * Receipt → Z) l bs bs' :
  (∀ p id, p ∈ l → id ≠ 0 → id ∈ vv_IDs (es_Validators es) → (who p =? id) = (who' p =? id)) →
  credited es who l bs bs' → credited es who' l bs bs'.
Proof.
  intros Hw (Hb & Hl & Hf). split; [done|]. split; [done|]. intros i id s Hid Hi Hs.
  rewrite (Hf i id s Hid Hi Hs). apply list_elem_of_lookup_2 in Hi.
  assert (Hc : credit who id <$> l = credit who' id <$> l ∧ unused who id <$> l = unused who' id <$> l).
  { split; apply list_fmap_ext; intros k p Hp; apply list_elem_of_lookup_2 in Hp; unfold credit, unused;
      by rewrite (Hw p id Hp Hid Hi). }
  by destruct Hc as [-> ->].
Qed.

(** Crediting never fails and credits whom the positions say. *)
Lemma on_new_receipts_credited (es : EpochState) (m : Positions) txs receipts bs :
  length receipts = length txs →
  length (bs_ValidatorStates bs) = length (vv_IDs (es_Validators es)) →
  Forall (λ s, is_u64 (DirtyGasRefund s)) (bs_ValidatorStates bs) →
  ∃ bs', on_new_receipts es m txs 0 receipts bs = Ok bs' ∧ credited es (looked_up es m) (zip txs receipts) bs bs'.
Proof.
  intros Hlen Hl Hu.
  assert (Hgen : ∀ (pre rest : list Transaction) (rs : list Receipt) b,
    length rs = length rest → length (bs_ValidatorStates b) = length (vv_IDs (es_Validators es)) →
    Forall (λ s, is_u64 (DirtyGasRefund s)) (bs_ValidatorStates b) →
    ∃ bs', on_new_receipts es m (pre ++ rest) (len pre) rs b = Ok bs' ∧ credited es (looked_up es m) (zip rest rs) b bs');
    [|by apply (Hgen [] txs receipts bs)].
  clear txs receipts bs Hlen Hl Hu. intros pre rest. revert pre. induction rest as [|tx rest IH]; intros pre [|r rs] b Hlen Hl Hu; try done.
  - exists b. split; [done|]. split; [by destruct b|]. split; [done|].
    intros i id s Hid Hi Hs. cbn. rewrite Hs, add_fees_0; [done|].
    by apply (Forall_lookup_1 _ _ _ _ Hu Hs).
  - cbn [on_new_receipts]. rewrite (index_app_mid pre tx rest). cbn [mbind res_bind].
    destruct (OnNewReceipt_credited es m tx r b Hl Hu) as (b1 & -> & Hc & Hu1). cbn [mbind res_bind].
    destruct (IH (pre ++ [tx]) rs b1) as (b2 & E & Hc2); [by injection Hlen|by rewrite (proj1 (proj2 Hc))|done|].
    rewrite <- app_assoc, len_app in E. exists b2. split; [exact E|]. by eapply credited_cons.
Qed.

(** The creator recorded for a transaction is that of the first event with it. *)
Lemma block_positions_creator (n i : Z) (txs : list Transaction) (m : Positions) h :
  xp_EventCreator (default zero_position (block_positions n i txs m !! h)) =
  xp_EventCreator (default zero_position (m !! h)).
Proof.
  revert i m. induction txs as [|tx txs IH]; intros i m; [done|]. cbn. rewrite IH.
  destruct (decide (tx_Hash tx = h)) as [<-|Hne]; [by rewrite lookup_insert_eq|by rewrite lookup_insert_ne].
Qed.

Lemma events_positions_originator (events : list (EventPayload EventID)) h :
  xp_EventCreator (default zero_position (events_positions events !! h)) = originator events h.
Proof.
  unfold originator. destruct (list_find _ events) as [[k e]|] eqn:E.
  - apply list_find_Some in E as (Hk & Hin & Hpre).
    assert (Hsplit := take_drop_middle _ _ _ Hk). rewrite <- Hsplit.
    assert (Hbefore : Forall (λ e', h ∉ tx_Hash <$> ep_txs e') (take k events)).
    { apply Forall_forall. intros e' (j & Hj)%list_elem_of_lookup.
      apply lookup_take_Some in Hj as [Hj Hlt]. by apply (Hpre j). }
    destruct (list_find (λ tx, tx_Hash tx = h) (ep_txs e)) as [[j tx]|] eqn:Ej.
    + apply list_find_Some in Ej as (Hj & <- & Hprej).
      rewrite (events_positions_first _ e _ (take j (ep_txs e)) tx (drop (S j) (ep_txs e)));
        [done|done|by rewrite take_drop_middle|].
      intros (tx' & Htx & (i & Hi)%list_elem_of_lookup)%list_elem_of_fmap.
      apply lookup_take_Some in Hi as [Hi Hlt]. by apply (Hprej i tx').
    + apply list_find_None in Ej. rewrite Forall_forall in Ej.
      apply list_elem_of_fmap in Hin as (tx & -> & Htx). by destruct (Ej tx Htx).
  - apply list_find_None in E. by rewrite events_positions_none.
Qed.

(** C40: with the positions that the block pipeline computes from the block's events,
    crediting the receipts of the block's transactions never fails; each validator of
    the epoch receives exactly the fees of the transactions whose first event in the
    block is one of its own, and a gas refund for what they did not use; nothing else
    of the state changes.  The receipts are those of the transactions, in order, the state has
    an entry for each validator, and the refunds of the entries are 64-bit numbers. *)
Theorem fees_credited (es : EpochState) n (events : list (EventPayload EventID)) txs receipts bs :
  rc_TxHash <$> receipts = tx_Hash <$> txs →
  length (bs_ValidatorStates bs) = length (vv_IDs (es_Validators es)) →
  Forall (λ s, is_u64 (DirtyGasRefund s)) (bs_ValidatorStates bs) →
  let txPositions := block_positions n 0 txs (events_positions events) in
  ∃ bs', on_new_receipts es txPositions txs 0 receipts bs = Ok bs' ∧
    credited es (λ p, originator events (tx_Hash p.1)) (zip txs receipts) bs bs'.
Proof.
  intros Hh Hl Hu m. assert (Hlen : length receipts = length txs).
  { apply (f_equal length) in Hh. by rewrite !length_fmap in Hh. }
  destruct (on_new_receipts_credited es m txs receipts bs Hlen Hl Hu) as (bs' & E & Hc).
  exists bs'. split; [done|]. revert Hc. apply credited_ext. intros [tx r] id Hp Hid Hin.
  assert (Hr : rc_TxHash r = tx_Hash tx).
  { apply list_elem_of_lookup in Hp as [k Hk]. apply lookup_zip_Some in Hk as [Ht Hrk].
    apply (f_equal (lookup k)) in Hh. rewrite !list_lookup_fmap, Ht, Hrk in Hh. by injection Hh. }
  unfold looked_up, receipt_creator. cbn [fst snd]. rewrite Hr. subst m.
  rewrite block_positions_creator, events_positions_originator. set (cr := originator _ _).
  destruct (Z.eqb_spec cr 0) as [->|Hc0]; [done|].
  destruct (Z.eqb_spec (vv_Get (es_Validators es) cr) 0) as [Hz|Hz]; cbn [negb andb]; [|done].
  pose proof (vv_Get_in _ _ Hin). rewrite (proj2 (Z.eqb_neq 0 id)), (proj2 (Z.eqb_neq cr id)); [done|..].
  - intros ->. lia.
  - congruence.
Qed.
End pipeline.

(** ** A concrete block: two events, one of which carries a transaction; validator 2
    is a cheater, so the epoch ends *)

#[global] Instance demo_log_db : TxDB DemoWorld Log := {
  Prepare _ _ _ w := w;
  GetLogs _ h := [mkLog demo_driver [[4]] (replicate 31 0 ++ [1])];
  Finalise w := w;
  IntermediateRoot w := ([], w);
  Commit w := (Ok (replicate 32 5), w);
  db_BlockHash _ := zeroHash;
  db_TxIndex _ := 0;
}.

Definition demo_Pack (method : string) (args : list AbiArg) : list Z := [len args].

Definition demo_pbs : BlockState Hash :=
  set_Final zeroHash (mkBlockCtx 3 (95 * Second) (demo_atropos 3)) demo_bs.

Definition demo_pevent (creator : Z) (id : Hash) (t : Z) (txHash : list Z) : Event Hash :=
  mkEvent (mkBaseEvent 7 4 1 creator 4 [] id)
    (mkExtEventData t t None txHash (mkGasPowerLeft [5; 6]) 30000 []) [].

Definition demo_e1 : Event Hash := demo_pevent 1 (demo_bid 9) (97 * Second) [1].
Definition demo_e2 : Event Hash := demo_pevent 3 (demo_atropos 4) (98 * Second) (DeriveSha []).
Definition demo_e1_payload : EventPayload Hash := mkEventPayload demo_e1 [] [demo_btx 7] 0.

Definition demo_store : Store Group Hash :=
  mkStore demo_pbs demo_es
    (mkTables (t_Blocks demo_tables) ∅ {[ id_Bytes (demo_bid 9) := demo_e1_payload ]} ∅) ∅ ∅ ∅.

Definition demo_cblk : CBlock Hash := mkCBlock (demo_atropos 4) [].

Definition demo_process : res (option Group * Store Group Hash) :=
  process_block demo_Pack demo_driver demo_topics demo_json (λ _, demo_group) (λ _, Ok demo_world)
    (λ l, l) true demo_cblk [demo_e1; demo_e2] demo_store.

Definition demo_after : option Group * Store Group Hash := ok_or (None, demo_store) demo_process.

Lemma demo_process_Ok :
  process_block demo_Pack demo_driver demo_topics demo_json (λ _, demo_group) (λ _, Ok demo_world)
    (λ l, l) true demo_cblk [demo_e1; demo_e2] demo_store = Ok (demo_after.1, demo_after.2).
Proof.
  assert (E : is_Ok demo_process = true) by (vm_compute; reflexivity).
  pose proof (ok_or_eq (None, demo_store) demo_process E) as Hp. fold demo_after in Hp.
  rewrite (surjective_pairing demo_after) in Hp. exact Hp.
Qed.

Lemma demo_after_new :
  bs_LastBlock (s_BlockState demo_after.2) ≠ bs_LastBlock (s_BlockState demo_store).
Proof. intros E. apply (f_equal bc_Idx) in E. vm_compute in E. discriminate. Qed.

Lemma pipeline_appends_one_block_witness :
  bc_Idx (bs_LastBlock (s_BlockState demo_after.2)) = 3 + 1.
Proof.
  destruct (pipeline_appends_one_block demo_Pack demo_driver demo_topics demo_json (λ _, demo_group)
    (λ _, Ok demo_world) (λ l, l) true demo_cblk [demo_e1; demo_e2] demo_store demo_after.1 demo_after.2)
    as [[Hsame _]|[Hidx _]].
  - done.
  - done.
  - done.
  - done.
  - exact demo_process_Ok.
  - destruct (demo_after_new Hsame).
  - exact Hidx.
Defined.

Lemma pipeline_epochs_witness :
  is_Some demo_after.1 ∧ es_Epoch (s_EpochState demo_after.2) = 8.
Proof.
  destruct (pipeline_epochs demo_Pack demo_driver demo_topics demo_json (λ _, demo_group)
    (λ _, Ok demo_world) (λ l, l) true demo_cblk [demo_e1; demo_e2] demo_store demo_after.1 demo_after.2)
    as [Hes Hiff].
  - done.
  - done.
  - done.
  - done.
  - exact demo_process_Ok.
  - assert (Hs : is_Some demo_after.1).
    { apply Hiff. split; [exact demo_after_new|]. right. right. left. done. }
    split; [exact Hs|]. destruct Hs as [v Hv]. rewrite Hv in Hes.
    destruct Hes as (_ & _ & He & _). exact He.
Defined.

Lemma block_reread_witness :
  ∃ evmBlock, t_EvmBlocks (s_Tables demo_after.2) !! 4 = Some evmBlock ∧
    GetBlock (uncached (s_Tables demo_after.2)) zeroHash 4
    = Ok (Some evmBlock, set_EvmBlock 4 evmBlock (uncached (s_Tables demo_after.2))).
Proof.
  apply (block_reread demo_Pack demo_driver demo_topics demo_json (λ _, demo_group)
    (λ _, Ok demo_world) (λ l, l) true demo_cblk [demo_e1; demo_e2] demo_store demo_after.1 demo_after.2).
  - done.
  - done.
  - done.
  - done.
  - intros n d n' d' [= -> ->]. done.
  - exact demo_process_Ok.
  - exact demo_after_new.
Defined.

Definition demo_evm_txs : list Transaction :=
  from_option eb_Transactions [] (t_EvmBlocks (s_Tables demo_after.2) !! 4).

Lemma demo_evm_txs_eq :
  NoDup (tx_Hash <$> demo_evm_txs) ∧ len demo_evm_txs = 4 ∧ demo_evm_txs !! 3%nat = Some (demo_btx 7).
Proof.
  split; [apply (bool_decide_unpack _); vm_compute; exact I|]. split; vm_compute; reflexivity.
Qed.

(** The transaction is the fourth of the block, after three internal ones. *)
Lemma tx_positions_recorded_witness :
  ∃ p, s_TxPositions demo_after.2 !! tx_Hash (demo_btx 7) = Some p ∧ tp_Block p = 4 ∧ tp_BlockOffset p = 3.
Proof.
  destruct (tx_positions_recorded demo_Pack demo_driver demo_topics demo_json (λ _, demo_group)
    (λ _, Ok demo_world) (λ l, l) true demo_cblk [demo_e1; demo_e2] demo_store demo_after.1 demo_after.2)
    as (b & bevs & evmBlock & Hb & He & Hf & Hpos).
  - done.
  - exact demo_process_Ok.
  - exact demo_after_new.
  - destruct demo_evm_txs_eq as (Hnd & Hlen & Hk).
    assert (Hidx : bc_Idx (bs_LastBlock (s_BlockState demo_after.2)) = 4) by (vm_compute; reflexivity).
    rewrite Hidx in *. unfold demo_evm_txs in Hnd, Hlen, Hk. rewrite He in Hnd, Hlen, Hk.
    cbn [from_option] in Hnd, Hlen, Hk.
    destruct (Hpos Hnd ltac:(lia) 3%nat (demo_btx 7) Hk) as (p & Hp & Hblk & Hoff & _).
    exists p. split; [exact Hp|]. split; [exact Hblk|exact Hoff].
Defined.

Definition demo_receipt : Receipt Log :=
  mkReceipt 0 [] true 21000 (tx_Hash (demo_btx 7)) None 21000 [] zeroHash 4 0.

Lemma fees_credited_witness :
  ∃ bs', on_new_receipts demo_es (block_positions 4 0 [demo_btx 7] (events_positions [demo_e1_payload]))
           [demo_btx 7] 0 [demo_receipt] demo_bs = Ok bs' ∧
    bs_ValidatorStates bs' !! 0%nat = Some (add_fees 21000 9000 demo_vbs).
Proof.
  destruct (fees_credited demo_es 4 [demo_e1_payload] [demo_btx 7] [demo_receipt] demo_bs)
    as (bs' & E & _ & _ & Hc).
  - done.
  - done.
  - by repeat constructor.
  - exists bs'. split; [exact E|]. rewrite (Hc 0%nat 1 demo_vbs); [|done|done|done].
    vm_compute. reflexivity.
Defined.
