(* ===== verification/TxList.v ===== *)
(** * Transaction lists of the pool (evmcore/tx_list.go, evmcore/tx_noncer.go, the
    lookup table of evmcore/tx_pool.go)

    [txSortedMap] is a map from nonces to transactions with a heap of the nonces and
    a cache of the sorted list; [txList] adds the highest cost and gas and the strict
    mode; [txPricedList] is a heap of the remote transactions by price, with stale
    entries.  The abstraction [abs] ties the map, the heap and the cache to a list sorted
    by nonce, on which every operation is described; [evicted] says what an eviction
    does to the heap of prices.  The mutexes make operations atomic. *)

From stdpp Require Import sorting.
From S2P Require Import Prelude Cser Inter TxSer Pos Heap.

(** ** txSortedMap *)

Definition nonce_less (a b : Z) : bool := a <? b.

Record txSortedMap := mkSortedMap {
  sm_items : gmap Z Transaction;
  sm_index : list Z;
  sm_cache : option (list Transaction);
}.

Section sortedmap.
Context `{MapRange} `{GoHeap Z nonce_less}.

Definition newTxSortedMap : txSortedMap := mkSortedMap ∅ [] None.

Definition sm_Get (m : txSortedMap) (nonce : Z) : option Transaction := sm_items m !! nonce.

Definition sm_Put (tx : Transaction) (m : txSortedMap) : txSortedMap :=
  let nonce := tx_Nonce tx in
  let index := match sm_items m !! nonce with
               | None => heap_Push (sm_index m) nonce
               | Some _ => sm_index m
               end in
  mkSortedMap (<[nonce := tx]> (sm_items m)) index None.

(** The loop of [Forward].  A nonce of the heap without a transaction, which the code
    would append as [nil], is a panic here; [sorted_map_refines] shows it never happens. *)
Fixpoint forward_loop (fuel : nat) (threshold : Z) (m : txSortedMap) (removed : list Transaction)
  : res (list Transaction * txSortedMap) :=
  match sm_index m, fuel with
  | n0 :: _, S fuel' =>
      if n0 <? threshold then
        '(nonce, index) ← heap_Pop (sm_index m);
        tx ← deref (sm_items m !! nonce);
        forward_loop fuel' threshold (mkSortedMap (delete nonce (sm_items m)) index (sm_cache m))
          (removed ++ [tx])
      else Ok (removed, m)
  | _, _ => Ok (removed, m)
  end.

Definition sm_Forward (threshold : Z) (m : txSortedMap) : res (list Transaction * txSortedMap) :=
  '(removed, m) ← forward_loop (length (sm_index m)) threshold m [];
  match sm_cache m with
  | None => Ok (removed, m)
  | Some cache =>
      cache ← (if len removed <=? len cache then Ok (drop (length removed) cache) else Panic);
      Ok (removed, mkSortedMap (sm_items m) (sm_index m) (Some cache))
  end.

Definition sm_reheap (m : txSortedMap) : txSortedMap :=
  mkSortedMap (sm_items m) (heap_Init (range_of (sm_items m)).*1) None.

(** [filter] leaves the heap as it is. *)
Definition sm_filter (f : Transaction → bool) (m : txSortedMap) : list Transaction * txSortedMap :=
  let removed := (filter (λ p, f p.2 = true) (range_of (sm_items m))).*2 in
  (removed,
   mkSortedMap (filter (λ p, f p.2 = false) (sm_items m)) (sm_index m)
     (if 0 <? len removed then None else sm_cache m)).

Definition sm_Filter (f : Transaction → bool) (m : txSortedMap) : list Transaction * txSortedMap :=
  let '(removed, m) := sm_filter f m in
  (removed, if 0 <? len removed then sm_reheap m else m).

(** [for size := len(m.items); size > threshold; size--] over the sorted nonces. *)
Fixpoint cap_loop (fuel : nat) (size threshold : Z) (sorted : list Z) (items : gmap Z Transaction)
    (drops : list Transaction) : res (list Transaction * gmap Z Transaction) :=
  match fuel with
  | O => Ok (drops, items)
  | S fuel' =>
      if threshold <? size then
        nonce ← index sorted (size - 1);
        tx ← deref (items !! nonce);
        cap_loop fuel' (size - 1) threshold sorted (delete nonce items) (drops ++ [tx])
      else Ok (drops, items)
  end.

Definition sm_Len (m : txSortedMap) : Z := Z.of_nat (size (sm_items m)).

Definition sm_Cap (threshold : Z) (m : txSortedMap) : res (list Transaction * txSortedMap) :=
  if sm_Len m <=? threshold then Ok ([], m)
  else
    let sorted := merge_sort Z.le (sm_index m) in
    '(drops, items) ← cap_loop (Z.to_nat (sm_Len m - threshold)) (sm_Len m) threshold sorted
                        (sm_items m) [];
    index ← (if (0 <=? threshold) && (threshold <=? len sorted)
             then Ok (take (Z.to_nat threshold) sorted) else Panic);
    cache ← match sm_cache m with
            | None => Ok None
            | Some cache => if len drops <=? len cache
                            then Ok (Some (take (length cache - length drops) cache)) else Panic
            end;
    Ok (drops, mkSortedMap items (heap_Init index) cache).

(** The first position of a nonce in the heap. *)
Fixpoint find_nonce (nonce : Z) (i : Z) (index : list Z) : option Z :=
  match index with
  | [] => None
  | n :: index' => if n =? nonce then Some i else find_nonce nonce (i + 1) index'
  end.

Definition sm_Remove (nonce : Z) (m : txSortedMap) : res (bool * txSortedMap) :=
  match sm_items m !! nonce with
  | None => Ok (false, m)
  | Some _ =>
      index ← match find_nonce nonce 0 (sm_index m) with
              | Some i => '(_, index) ← heap_Remove (sm_index m) i; Ok index
              | None => Ok (sm_index m)
              end;
      Ok (true, mkSortedMap (delete nonce (sm_items m)) index None)
  end.

Fixpoint ready_loop (fuel : nat) (next : Z) (items : gmap Z Transaction) (index : list Z)
    (ready : list Transaction) : res (list Transaction * gmap Z Transaction * list Z) :=
  match index, fuel with
  | n0 :: _, S fuel' =>
      if n0 =? next then
        tx ← deref (items !! next);
        '(_, index) ← heap_Pop index;
        ready_loop fuel' (u64 (next + 1)) (delete next items) index (ready ++ [tx])
      else Ok (ready, items, index)
  | _, _ => Ok (ready, items, index)
  end.

Definition sm_Ready (start : Z) (m : txSortedMap) : res (list Transaction * txSortedMap) :=
  match sm_index m with
  | [] => Ok ([], m)
  | n0 :: _ =>
      if start <? n0 then Ok ([], m)
      else
        '(ready, items, index) ← ready_loop (length (sm_index m)) n0 (sm_items m) (sm_index m) [];
        Ok (ready, mkSortedMap items index None)
  end.

(** [sort.Sort(types.TxByNonce(m.cache))] *)
Definition by_nonce (a b : Transaction) : Prop := tx_Nonce a <= tx_Nonce b.
#[global] Instance by_nonce_dec a b : Decision (by_nonce a b).
Proof. unfold by_nonce. apply _. Defined.

Definition sm_flatten (m : txSortedMap) : list Transaction * txSortedMap :=
  match sm_cache m with
  | Some cache => (cache, m)
  | None =>
      let cache := merge_sort by_nonce (range_of (sm_items m)).*2 in
      (cache, mkSortedMap (sm_items m) (sm_index m) (Some cache))
  end.

(** [Flatten] returns a copy of the cache. *)
Definition sm_Flatten (m : txSortedMap) : list Transaction * txSortedMap := sm_flatten m.

Definition sm_LastElement (m : txSortedMap) : res Transaction * txSortedMap :=
  let '(cache, m) := sm_flatten m in (index cache (len cache - 1), m).
End sortedmap.

(** ** txList *)

Record txList := mkTxList {
  tl_strict : bool;
  tl_txs : txSortedMap;
  tl_costcap : Z;
  tl_gascap : Z;
}.

Section txlist.
Context `{MapRange} `{GoHeap Z nonce_less}.
(** [tx.Cost()] of the transaction library. *)
Variable Cost : Transaction → Z.

Definition set_txs (m : txSortedMap) (l : txList) : txList :=
  mkTxList (tl_strict l) m (tl_costcap l) (tl_gascap l).

Definition newTxList (strict : bool) : txList := mkTxList strict newTxSortedMap 0 0.

Definition tl_Overlaps (tx : Transaction) (l : txList) : bool :=
  bool_decide (is_Some (sm_Get (tl_txs l) (tx_Nonce tx))).

(** [big.NewInt(100 + int64(priceBump))] times the old price, divided by 100. *)
Definition bump_threshold (old : Transaction) (priceBump : Z) : Z :=
  i64 (100 + i64 priceBump) * tx_GasPrice old / 100.

Definition tl_Add (tx : Transaction) (priceBump : Z) (l : txList)
  : bool * option Transaction * txList :=
  let old := sm_Get (tl_txs l) (tx_Nonce tx) in
  if match old with
     | Some o => (tx_GasPrice tx <=? tx_GasPrice o) || (tx_GasPrice tx <? bump_threshold o priceBump)
     | None => false
     end
  then (false, None, l)
  else
    (true, old,
     mkTxList (tl_strict l) (sm_Put tx (tl_txs l))
       (if tl_costcap l <? Cost tx then Cost tx else tl_costcap l)
       (if tl_gascap l <? tx_Gas tx then tx_Gas tx else tl_gascap l)).

Definition tl_Forward (threshold : Z) (l : txList) : res (list Transaction * txList) :=
  '(removed, m) ← sm_Forward threshold (tl_txs l); Ok (removed, set_txs m l).

(** The lowest nonce of the removed transactions. *)
Definition lowest_nonce (removed : list Transaction) : Z :=
  foldl (λ lowest tx, if tx_Nonce tx <? lowest then tx_Nonce tx else lowest) (2 ^ 64 - 1) removed.

Definition over_limit (costLimit gasLimit : Z) (tx : Transaction) : bool :=
  (gasLimit <? tx_Gas tx) || (costLimit <? Cost tx).

Definition tl_Filter (costLimit gasLimit : Z) (l : txList)
  : list Transaction * list Transaction * txList :=
  if (tl_costcap l <=? costLimit) && (tl_gascap l <=? gasLimit) then ([], [], l)
  else
    let '(removed, m) := sm_Filter (over_limit costLimit gasLimit) (tl_txs l) in
    if len removed =? 0 then ([], [], mkTxList (tl_strict l) m costLimit gasLimit)
    else
      let '(invalids, m) :=
        if tl_strict l then sm_filter (λ tx, lowest_nonce removed <? tx_Nonce tx) m else ([], m) in
      (removed, invalids, mkTxList (tl_strict l) (sm_reheap m) costLimit gasLimit).

Definition tl_Cap (threshold : Z) (l : txList) : res (list Transaction * txList) :=
  '(drops, m) ← sm_Cap threshold (tl_txs l); Ok (drops, set_txs m l).

Definition tl_Remove (tx : Transaction) (l : txList) : res (bool * list Transaction * txList) :=
  let nonce := tx_Nonce tx in
  '(removed, m) ← sm_Remove nonce (tl_txs l);
  if negb removed then Ok (false, [], set_txs m l)
  else if tl_strict l then
    let '(invalids, m) := sm_Filter (λ tx, nonce <? tx_Nonce tx) m in
    Ok (true, invalids, set_txs m l)
  else Ok (true, [], set_txs m l).

Definition tl_Ready (start : Z) (l : txList) : res (list Transaction * txList) :=
  '(ready, m) ← sm_Ready start (tl_txs l); Ok (ready, set_txs m l).

Definition tl_Len (l : txList) : Z := sm_Len (tl_txs l).
Definition tl_Empty (l : txList) : bool := tl_Len l =? 0.

Definition tl_Flatten (l : txList) : list Transaction * txList :=
  let '(txs, m) := sm_Flatten (tl_txs l) in (txs, set_txs m l).

Definition tl_LastElement (l : txList) : res Transaction * txList :=
  let '(tx, m) := sm_LastElement (tl_txs l) in (tx, set_txs m l).
End txlist.

(** ** The lookup table of the pool *)

Record txLookup := mkTxLookup {
  lk_slots : Z;
  lk_locals : gmap (list Z) Transaction;
  lk_remotes : gmap (list Z) Transaction;
}.

Definition txSlotSize : Z := 32 * 1024.

Section lookup.
(** [tx.Hash()] and [tx.Size()] of the transaction library. *)
Variable Hash : Transaction → list Z.
Variable Size : Transaction → Z.

(** [Size] is a float holding an integer; the division by a power of two is exact and
    the conversion to [int] truncates. *)
Definition numSlots (tx : Transaction) : Z := (Size tx + txSlotSize - 1) / txSlotSize.

Definition newTxLookup : txLookup := mkTxLookup 0 ∅ ∅.

Definition lk_Get (h : list Z) (t : txLookup) : option Transaction :=
  match lk_locals t !! h with Some tx => Some tx | None => lk_remotes t !! h end.
Definition lk_GetLocal (h : list Z) (t : txLookup) : option Transaction := lk_locals t !! h.
Definition lk_GetRemote (h : list Z) (t : txLookup) : option Transaction := lk_remotes t !! h.
Definition lk_Count (t : txLookup) : Z := Z.of_nat (size (lk_locals t)) + Z.of_nat (size (lk_remotes t)).

Definition lk_LocalCount (t : txLookup) : Z := Z.of_nat (size (lk_locals t)).
Definition lk_RemoteCount (t : txLookup) : Z := Z.of_nat (size (lk_remotes t)).

Definition lk_OnlyNotExisting (hashes : list (list Z)) (t : txLookup) : list (list Z) :=
  filter (λ h, lk_locals t !! h = None ∧ lk_remotes t !! h = None) hashes.

Definition lk_Add (tx : Transaction) (local : bool) (t : txLookup) : txLookup :=
  if local then mkTxLookup (lk_slots t + numSlots tx) (<[Hash tx := tx]> (lk_locals t)) (lk_remotes t)
  else mkTxLookup (lk_slots t + numSlots tx) (lk_locals t) (<[Hash tx := tx]> (lk_remotes t)).

Definition lk_Remove (h : list Z) (t : txLookup) : txLookup :=
  match lk_Get h t with
  | None => t
  | Some tx => mkTxLookup (lk_slots t - numSlots tx) (delete h (lk_locals t)) (delete h (lk_remotes t))
  end.

(** [containsTx] of the set of local accounts is an argument. *)
Definition lk_RemoteToLocals (containsTx : Transaction → bool) (t : txLookup) : Z * txLookup :=
  let moved := filter (λ p, containsTx p.2 = true) (lk_remotes t) in
  (Z.of_nat (size moved),
   mkTxLookup (lk_slots t) (moved ∪ lk_locals t) (filter (λ p, containsTx p.2 = false) (lk_remotes t))).
End lookup.

(** ** txPricedList *)

(** The cheaper one first; between equal prices the higher nonce is worse. *)
Definition price_less (a b : Transaction) : bool :=
  if tx_GasPrice a <? tx_GasPrice b then true
  else if tx_GasPrice b <? tx_GasPrice a then false
  else tx_Nonce b <? tx_Nonce a.

Record txPricedList := mkPriced { pl_remotes : list Transaction; pl_stales : Z }.

Section priced.
Context `{MapRange} `{GoHeap Transaction price_less}.
Variable Hash : Transaction → list Z.
Variable Size : Transaction → Z.

(** The list points to the lookup table of the pool, which is an argument here. *)
Definition pl_Put (tx : Transaction) (local : bool) (l : txPricedList) : txPricedList :=
  if local then l else mkPriced (heap_Push (pl_remotes l) tx) (pl_stales l).

Definition pl_Reheap (all : txLookup) (l : txPricedList) : txPricedList :=
  mkPriced (heap_Init (range_of (lk_remotes all)).*2) 0.

Definition pl_Removed (all : txLookup) (count : Z) (l : txPricedList) : txPricedList :=
  let l := mkPriced (pl_remotes l) (pl_stales l + count) in
  if pl_stales l <=? len (pl_remotes l) / 4 then l else pl_Reheap all l.

Definition is_stale (all : txLookup) (tx : Transaction) : bool :=
  match lk_GetRemote (Hash tx) all with Some _ => false | None => true end.

Fixpoint pl_cap_loop (fuel : nat) (all : txLookup) (threshold : Z) (l : txPricedList)
    (drop : list Transaction) : res (list Transaction * txPricedList) :=
  match pl_remotes l, fuel with
  | cheapest :: _, S fuel' =>
      if is_stale all cheapest then
        '(_, h) ← heap_Pop (pl_remotes l);
        pl_cap_loop fuel' all threshold (mkPriced h (pl_stales l - 1)) drop
      else if threshold <=? tx_GasPrice cheapest then Ok (drop, l)
      else
        '(_, h) ← heap_Pop (pl_remotes l);
        pl_cap_loop fuel' all threshold (mkPriced h (pl_stales l)) (drop ++ [cheapest])
  | _, _ => Ok (drop, l)
  end.

Definition pl_Cap (all : txLookup) (threshold : Z) (l : txPricedList)
  : res (list Transaction * txPricedList) :=
  pl_cap_loop (length (pl_remotes l)) all threshold l [].

Fixpoint drop_stales (fuel : nat) (all : txLookup) (l : txPricedList) : res txPricedList :=
  match pl_remotes l, fuel with
  | head :: _, S fuel' =>
      if is_stale all head then
        '(_, h) ← heap_Pop (pl_remotes l);
        drop_stales fuel' all (mkPriced h (pl_stales l - 1))
      else Ok l
  | _, _ => Ok l
  end.

Definition pl_Underpriced (all : txLookup) (tx : Transaction) (l : txPricedList)
  : res (bool * txPricedList) :=
  l ← drop_stales (length (pl_remotes l)) all l;
  match pl_remotes l with
  | [] => Ok (false, l)
  | cheapest :: _ => Ok (tx_GasPrice tx <=? tx_GasPrice cheapest, l)
  end.

Fixpoint discard_loop (fuel : nat) (all : txLookup) (slots : Z) (l : txPricedList)
    (drop : list Transaction) : res (list Transaction * Z * txPricedList) :=
  match pl_remotes l, fuel with
  | _ :: _, S fuel' =>
      if 0 <? slots then
        '(tx, h) ← heap_Pop (pl_remotes l);
        if is_stale all tx then discard_loop fuel' all slots (mkPriced h (pl_stales l - 1)) drop
        else discard_loop fuel' all (slots - numSlots Size tx) (mkPriced h (pl_stales l)) (drop ++ [tx])
      else Ok (drop, slots, l)
  | _, _ => Ok (drop, slots, l)
  end.

Definition pl_Discard (all : txLookup) (slots : Z) (force : bool) (l : txPricedList)
  : res (list Transaction * bool * txPricedList) :=
  '(drop, slots, l) ← discard_loop (length (pl_remotes l)) all slots l [];
  if (0 <? slots) && negb force then
    Ok ([], false, mkPriced (foldl heap_Push (pl_remotes l) drop) (pl_stales l))
  else Ok (drop, true, l).
End priced.

(** ** txNoncer *)

Section noncer.
(** The state database the noncer falls back to; the lock makes operations atomic. *)
Variable GetNonce : list Z → Z.

Definition nc_get (addr : list Z) (m : gmap (list Z) Z) : Z * gmap (list Z) Z :=
  let m := match m !! addr with None => <[addr := GetNonce addr]> m | Some _ => m end in
  (default 0 (m !! addr), m).

Definition nc_set (addr : list Z) (nonce : Z) (m : gmap (list Z) Z) : gmap (list Z) Z := <[addr := nonce]> m.

Definition nc_setIfLower (addr : list Z) (nonce : Z) (m : gmap (list Z) Z) : gmap (list Z) Z :=
  let m := match m !! addr with None => <[addr := GetNonce addr]> m | Some _ => m end in
  if default 0 (m !! addr) <=? nonce then m else <[addr := nonce]> m.
End noncer.

(** ** The sorted map as a sorted list *)

Definition nonce_lt (a b : Transaction) : Prop := tx_Nonce a < tx_Nonce b.
Notation nonces l := (tx_Nonce <$> l).
Definition pairs (l : list Transaction) : list (Z * Transaction) := (λ tx, (tx_Nonce tx, tx)) <$> l.

Lemma sorted_NoDup l : StronglySorted nonce_lt l → NoDup (nonces l).
Proof.
  induction 1 as [|tx l Hs IH Hl]; [constructor|]. cbn. constructor; [|done].
  intros (tx' & E & Hin)%list_elem_of_fmap. rewrite Forall_forall in Hl.
  specialize (Hl tx' Hin). unfold nonce_lt in Hl. lia.
Qed.

(** The map holds exactly the transactions of a list, under their nonces. *)
Definition repr (items : gmap Z Transaction) (l : list Transaction) : Prop :=
  ∀ n tx, items !! n = Some tx ↔ tx ∈ l ∧ tx_Nonce tx = n.

Lemma nonce_inj l tx tx' :
  NoDup (nonces l) → tx ∈ l → tx' ∈ l → tx_Nonce tx = tx_Nonce tx' → tx = tx'.
Proof.
  intros Hnd (i & Hi)%list_elem_of_lookup (j & Hj)%list_elem_of_lookup E.
  assert (i = j) as ->; [|congruence].
  apply (NoDup_lookup (nonces l) i j (tx_Nonce tx)); [done|..]; rewrite list_lookup_fmap.
  - by rewrite Hi.
  - rewrite Hj. cbn. by rewrite E.
Qed.

Lemma repr_pairs items l : NoDup (nonces l) → repr items l → map_to_list items ≡ₚ pairs l.
Proof.
  intros Hnd Hr. assert (Hf : (pairs l).*1 = nonces l) by (unfold pairs; by rewrite <- list_fmap_compose).
  assert (items = list_to_map (pairs l)) as ->; [|by apply map_to_list_to_map; rewrite Hf].
  apply map_eq. intros n. apply option_eq. intros tx. rewrite (Hr n tx).
  rewrite <- elem_of_list_to_map by (by rewrite Hf). unfold pairs. rewrite list_elem_of_fmap.
  split; [intros [? <-]; by exists tx|intros (tx' & [= -> ->] & ?); done].
Qed.

Lemma repr_None items l n : repr items l → items !! n = None ↔ n ∉ nonces l.
Proof.
  intros Hr. rewrite eq_None_not_Some, list_elem_of_fmap. split.
  - intros Hn (tx & -> & Hin). destruct Hn. exists tx. by apply Hr.
  - intros Hn [tx Htx]. apply Hr in Htx as [Hin <-]. destruct Hn. by exists tx.
Qed.

Lemma repr_delete items l n : repr items l → repr (delete n items) (filter (λ tx, tx_Nonce tx ≠ n) l).
Proof.
  intros Hr m tx. rewrite lookup_delete_Some, list_elem_of_filter, (Hr m tx). naive_solver.
Qed.

Lemma repr_filter items l (f : Transaction → bool) :
  repr items l → repr (filter (λ p, f p.2 = false) items) (filter (λ tx, f tx = false) l).
Proof. intros Hr n tx. rewrite map_lookup_filter_Some, list_elem_of_filter, (Hr n tx). cbn. naive_solver. Qed.

Lemma sorted_filter (P : Transaction → Prop) `{∀ x, Decision (P x)} l :
  StronglySorted nonce_lt l → StronglySorted nonce_lt (filter P l).
Proof.
  induction 1 as [|tx l Hs IH Hl]; [constructor|]. rewrite filter_cons. case_decide; [|done].
  constructor; [done|]. rewrite Forall_forall in *. intros tx' [_ Hin]%list_elem_of_filter. by apply Hl.
Qed.

(** Inserting into a sorted list, over a transaction of the same nonce. *)
Fixpoint put_sorted (tx : Transaction) (l : list Transaction) : list Transaction :=
  match l with
  | [] => [tx]
  | y :: l' =>
      if tx_Nonce y <? tx_Nonce tx then y :: put_sorted tx l'
      else if tx_Nonce y =? tx_Nonce tx then tx :: l'
      else tx :: l
  end.

Lemma put_sorted_elem tx l x :
  StronglySorted nonce_lt l → x ∈ put_sorted tx l ↔ x = tx ∨ (x ∈ l ∧ tx_Nonce x ≠ tx_Nonce tx).
Proof.
  induction 1 as [|y l Hs IH Hy]; cbn; [set_solver|]. rewrite Forall_forall in Hy. unfold nonce_lt in Hy.
  destruct (Z.ltb_spec (tx_Nonce y) (tx_Nonce tx)) as [Hlt|Hge].
  - rewrite !elem_of_cons, IH. split; [|tauto]. intros [->|[->|[? ?]]]; [|tauto|tauto]. right. split; [by left|lia].
  - destruct (Z.eqb_spec (tx_Nonce y) (tx_Nonce tx)) as [Heq|Hne]; rewrite !elem_of_cons.
    + split; [|intros [->|[[->|?] ?]]; [by left|done|by right]].
      intros [->|Hx]; [by left|right]. specialize (Hy x Hx). split; [by right|lia].
    + split; [|tauto]. intros [->|[->|Hx]]; [by left|right; split; [by left|lia]|right].
      specialize (Hy x Hx). split; [by right|lia].
Qed.

Lemma put_sorted_ok tx l : StronglySorted nonce_lt l → StronglySorted nonce_lt (put_sorted tx l).
Proof.
  induction 1 as [|y l Hs IH Hy]; cbn; [repeat constructor|].
  destruct (Z.ltb_spec (tx_Nonce y) (tx_Nonce tx)) as [Hlt|Hge].
  - constructor; [done|]. rewrite Forall_forall in *. intros x Hx%put_sorted_elem; [|done].
    destruct Hx as [->|[Hx _]]; [done|by apply Hy].
  - destruct (Z.eqb_spec (tx_Nonce y) (tx_Nonce tx)) as [Heq|Hne].
    + constructor; [done|]. eapply Forall_impl; [exact Hy|]. unfold nonce_lt. intros; lia.
    + constructor; [by constructor|]. constructor; [unfold nonce_lt; lia|].
      eapply Forall_impl; [exact Hy|]. unfold nonce_lt. intros; lia.
Qed.

Lemma put_sorted_nonces tx l :
  StronglySorted nonce_lt l →
  nonces (put_sorted tx l) ≡ₚ (if bool_decide (tx_Nonce tx ∈ nonces l) then nonces l else tx_Nonce tx :: nonces l).
Proof.
  induction 1 as [|y l Hs IH Hy]; cbn [put_sorted].
  { by rewrite bool_decide_false by set_solver. }
  destruct (Z.ltb_spec (tx_Nonce y) (tx_Nonce tx)) as [Hlt|Hge].
  - rewrite !fmap_cons, IH.
    assert (Hiff : tx_Nonce tx ∈ tx_Nonce y :: nonces l ↔ tx_Nonce tx ∈ nonces l).
    { rewrite elem_of_cons. split; [|by right]. intros [?|?]; [lia|done]. }
    rewrite (bool_decide_ext _ _ Hiff). case_bool_decide; [done|apply Permutation_swap].
  - destruct (Z.eqb_spec (tx_Nonce y) (tx_Nonce tx)) as [Heq|Hne]; rewrite !fmap_cons.
    + rewrite Heq, bool_decide_true by (by left). done.
    + rewrite bool_decide_false; [done|]. rewrite elem_of_cons, list_elem_of_fmap. rewrite Forall_forall in Hy.
      intros [?|(x & E & Hx)]; [lia|]. specialize (Hy x Hx). unfold nonce_lt in Hy. lia.
Qed.

Section refinement.
Context `{MapRangeLaws} `{GoHeapLaws Z nonce_less}.

(** The abstraction: the transactions in the order of their nonces. *)
Record abs (m : txSortedMap) (l : list Transaction) : Prop := {
  abs_heap : is_heap (sm_index m);
  abs_index : sm_index m ≡ₚ nonces l;
  abs_sorted : StronglySorted nonce_lt l;
  abs_items : repr (sm_items m) l;
  abs_cache : sm_cache m = None ∨ sm_cache m = Some l;
}.

Lemma abs_empty : abs newTxSortedMap [].
Proof. split; [apply heap_nil|done|constructor| |by left]. intros n tx. cbn. rewrite lookup_empty. set_solver. Qed.

Lemma head_min n h tx l :
  is_heap (n :: h) → n :: h ≡ₚ nonces (tx :: l) → StronglySorted nonce_lt (tx :: l) → n = tx_Nonce tx.
Proof.
  intros Hh Hp Hs. apply StronglySorted_inv in Hs as [_ Hl]. rewrite Forall_forall in Hl.
  assert (H1' : tx_Nonce tx ∈ n :: h) by (rewrite Hp; by left).
  assert (H2' : n ∈ nonces (tx :: l)) by (rewrite <- Hp; by left).
  apply elem_of_cons in H1' as [->|Hin]; [done|].
  pose proof (heap_min n h (tx_Nonce tx) Hh Hin) as Hmin. unfold nonce_less in Hmin.
  apply Z.ltb_ge in Hmin. cbn in H2'. apply elem_of_cons in H2' as [->|Hin2]; [done|].
  apply list_elem_of_fmap in Hin2 as (tx' & -> & Ht'). specialize (Hl tx' Ht'). unfold nonce_lt in Hl. lia.
Qed.

(** Popping the heap of a non-empty list. *)
Lemma pop_head index items tx l :
  is_heap index → index ≡ₚ nonces (tx :: l) → StronglySorted nonce_lt (tx :: l) → repr items (tx :: l) →
  ∃ h h', index = tx_Nonce tx :: h ∧ heap_Pop index = Ok (tx_Nonce tx, h') ∧ is_heap h' ∧
    h' ≡ₚ nonces l ∧ items !! tx_Nonce tx = Some tx ∧ repr (delete (tx_Nonce tx) items) l.
Proof.
  intros Hh Hp Hs Hr. destruct index as [|n h]; [by apply Permutation_nil_l in Hp|].
  assert (n = tx_Nonce tx) as -> by (by eapply head_min).
  destruct (heap_Pop_spec _ _ Hh) as (h' & Hpop & Hh' & Hp'). exists h, h'.
  split; [done|]. split; [done|]. split; [done|]. split.
  { rewrite Hp'. cbn in Hp. by apply Permutation_cons_inv in Hp. }
  split; [apply Hr; split; [by left|done]|].
  apply StronglySorted_inv in Hs as [_ Hl]. pose proof (repr_delete _ _ (tx_Nonce tx) Hr) as Hd.
  rewrite filter_cons_False in Hd by naive_solver. rewrite filter_all in Hd; [done|].
  eapply Forall_impl; [exact Hl|]. intros tx' Ht'. unfold nonce_lt in Ht'. lia.
Qed.

(** *** Forward *)

Definition below (t : Z) (l : list Transaction) := filter (λ tx, tx_Nonce tx < t) l.
Definition from (t : Z) (l : list Transaction) := filter (λ tx, t <= tx_Nonce tx) l.

Lemma forward_loop_spec l fuel threshold m acc :
  (length l <= fuel)%nat → is_heap (sm_index m) → sm_index m ≡ₚ nonces l → StronglySorted nonce_lt l →
  repr (sm_items m) l →
  ∃ m', forward_loop fuel threshold m acc = Ok (acc ++ below threshold l, m') ∧
    is_heap (sm_index m') ∧ sm_index m' ≡ₚ nonces (from threshold l) ∧
    repr (sm_items m') (from threshold l) ∧ sm_cache m' = sm_cache m.
Proof.
  revert fuel m acc. induction l as [|tx l IH]; intros fuel m acc Hf Hh Hp Hs Hr.
  { exists m. assert (Hi : sm_index m = []) by (by apply Permutation_nil_r in Hp).
    rewrite app_nil_r. destruct fuel; cbn [forward_loop]; rewrite Hi; by rewrite Hi in *. }
  destruct (pop_head _ _ _ _ Hh Hp Hs Hr) as (h & h' & Hi & Hpop & Hh' & Hp' & Htx & Hr').
  destruct fuel as [|fuel]; cbn [length] in Hf; [lia|]. rewrite Hi in Hpop. cbn [forward_loop]. rewrite Hi.
  pose proof (StronglySorted_inv Hs) as [Hs' Hl].
  destruct (Z.ltb_spec (tx_Nonce tx) threshold) as [Hlt|Hge].
  - rewrite Hpop. cbn [mbind res_bind]. rewrite Htx. cbn [deref mbind res_bind].
    destruct (IH fuel (mkSortedMap (delete (tx_Nonce tx) (sm_items m)) h' (sm_cache m)) (acc ++ [tx]))
      as (m' & E & Hrest); [lia|done..|]. exists m'. rewrite E. unfold below, from in *.
    rewrite filter_cons_True, (filter_cons_False _ tx l), <- app_assoc by lia. done.
  - exists m. assert (Hall : Forall (λ tx, threshold <= tx_Nonce tx) (tx :: l)).
    { constructor; [lia|]. eapply Forall_impl; [exact Hl|]. intros tx' Ht'. unfold nonce_lt in Ht'. lia. }
    unfold below, from. rewrite (filter_none (λ tx, tx_Nonce tx < threshold)).
    + rewrite app_nil_r, filter_all by done. done.
    + eapply Forall_impl; [exact Hall|]. cbn. lia.
Qed.

Lemma below_from t l : StronglySorted nonce_lt l → below t l ++ from t l = l.
Proof.
  unfold below, from. induction 1 as [|tx l Hs IH Hl]; [done|].
  destruct (decide (tx_Nonce tx < t)) as [Hlt|Hge].
  - rewrite filter_cons_True, (filter_cons_False _ tx l) by lia. cbn. by rewrite IH.
  - rewrite filter_none, filter_all; [done|..].
    + constructor; [lia|]. eapply Forall_impl; [exact Hl|]. unfold nonce_lt. intros; lia.
    + constructor; [lia|]. eapply Forall_impl; [exact Hl|]. unfold nonce_lt. intros; lia.
Qed.

Lemma Forward_refines m l threshold :
  abs m l → ∃ m', sm_Forward threshold m = Ok (below threshold l, m') ∧ abs m' (from threshold l).
Proof.
  intros [Hh Hp Hs Hr Hc].
  destruct (forward_loop_spec l (length (sm_index m)) threshold m []) as (m' & E & Hh' & Hp' & Hr' & Hc');
    [by rewrite Hp, length_fmap|done..|].
  unfold sm_Forward. rewrite E. cbn [mbind res_bind app]. rewrite Hc'.
  pose proof (sorted_filter (λ tx, threshold <= tx_Nonce tx) l Hs) as Hsf.
  destruct Hc as [Hc|Hc]; rewrite Hc.
  - exists m'. split; [done|]. split; [done..|]. left. congruence.
  - pose proof (below_from threshold l Hs) as Hbf.
    assert (Hd : drop (length (below threshold l)) l = from threshold l).
    { rewrite <- Hbf at 2. by rewrite drop_app_length. }
    rewrite (proj2 (Z.leb_le (len _) (len _))).
    + cbn [mbind res_bind]. rewrite Hd. eexists. split; [done|]. split; try done. by right.
    + rewrite <- Hbf at 2. rewrite len_app. pose proof (len_nonneg (from threshold l)). lia.
Qed.
(** *** Put *)

Lemma Put_refines m l tx : abs m l → abs (sm_Put tx m) (put_sorted tx l).
Proof.
  intros [Hh Hp Hs Hr Hc]. pose proof (put_sorted_nonces tx l Hs) as Hn. unfold sm_Put.
  split; cbn [sm_index sm_items sm_cache]; [| |by apply put_sorted_ok| |by left].
  - destruct (sm_items m !! tx_Nonce tx); [done|]. by apply heap_Push_spec.
  - rewrite Hn. destruct (sm_items m !! tx_Nonce tx) as [old|] eqn:E.
    + rewrite bool_decide_true; [done|]. apply Hr in E as [Hin <-]. by apply list_elem_of_fmap_2.
    + apply (repr_None _ _ _ Hr) in E. rewrite bool_decide_false by done.
      destruct (heap_Push_spec (sm_index m) (tx_Nonce tx) Hh) as [_ ->]. by rewrite Hp.
  - intros n x. rewrite put_sorted_elem, lookup_insert_Some, (Hr n x) by done. naive_solver.
Qed.

(** *** Filter and reheap *)

Lemma range_pairs items l : NoDup (nonces l) → repr items l → range_of items ≡ₚ pairs l.
Proof. intros Hnd Hr. by rewrite range_of_perm, repr_pairs. Qed.

Lemma pairs_fst l : (pairs l).*1 = nonces l.
Proof. unfold pairs. by rewrite <- list_fmap_compose. Qed.

Lemma reheap_abs m l : StronglySorted nonce_lt l → repr (sm_items m) l → abs (sm_reheap m) l.
Proof.
  intros Hs Hr. pose proof (sorted_NoDup l Hs) as Hnd. unfold sm_reheap.
  split; cbn [sm_index sm_items sm_cache]; [apply heap_Init_spec| |done|done|by left].
  destruct (heap_Init_spec (range_of (sm_items m)).*1) as [_ ->].
  by rewrite (range_pairs _ l), pairs_fst.
Qed.

Lemma pairs_filter (f : Transaction → bool) l :
  (filter (λ p : Z * Transaction, f p.2 = true) (pairs l)).*2 = filter (λ tx, f tx = true) l.
Proof.
  induction l as [|tx l IH]; [done|]. unfold pairs in *. rewrite fmap_cons, !filter_cons. cbn [snd].
  case_decide; cbn; by rewrite IH.
Qed.

Lemma filter_removed f m l :
  StronglySorted nonce_lt l → repr (sm_items m) l → (sm_filter f m).1 ≡ₚ filter (λ tx, f tx = true) l.
Proof.
  intros Hs Hr. unfold sm_filter. cbn [fst]. rewrite <- pairs_filter.
  by rewrite (range_pairs _ l (sorted_NoDup l Hs) Hr).
Qed.

Lemma Filter_refines m l f :
  abs m l → ∃ removed m', sm_Filter f m = (removed, m') ∧ removed ≡ₚ filter (λ tx, f tx = true) l ∧
    abs m' (filter (λ tx, f tx = false) l).
Proof.
  intros Ha. pose proof Ha as [Hh Hp Hs Hr Hc]. pose proof (filter_removed f m l Hs Hr) as Hrem.
  unfold sm_Filter. destruct (sm_filter f m) as [removed m1] eqn:E. cbn [fst] in Hrem.
  exists removed. unfold sm_filter in E. injection E as E1 <-. rewrite E1.
  destruct (Z.ltb_spec 0 (len removed)) as [Hpos|Hz].
  - eexists. split; [done|]. split; [done|]. apply reheap_abs; [by apply sorted_filter|]. by apply repr_filter.
  - eexists. split; [done|]. split; [done|].
    assert (Hnil : filter (λ tx, f tx = true) l = []).
    { assert (Hrn : removed = []) by (apply nil_length_inv; unfold len in Hz; lia).
      rewrite Hrn in Hrem. by apply Permutation_nil_l in Hrem. }
    assert (Hall : filter (λ tx, f tx = false) l = l).
    { apply filter_all. rewrite Forall_forall. intros tx Hin. destruct (f tx) eqn:Hf; [|done].
      assert (Hx : tx ∈ filter (λ tx, f tx = true) l) by (by apply list_elem_of_filter).
      rewrite Hnil in Hx. by apply not_elem_of_nil in Hx. }
    rewrite Hall. split; cbn [sm_index sm_items sm_cache]; try done.
    rewrite <- Hall at 1. by apply repr_filter.
Qed.

(** *** Remove *)

Lemma find_nonce_Some nonce i index :
  nonce ∈ index → ∃ k : nat, find_nonce nonce i index = Some (i + Z.of_nat k) ∧ index !! k = Some nonce.
Proof.
  revert i. induction index as [|n index IH]; intros i Hin; [by apply not_elem_of_nil in Hin|]. cbn.
  destruct (Z.eqb_spec n nonce) as [->|Hne]; [exists 0%nat; split; [f_equal; lia|done]|].
  apply elem_of_cons in Hin as [->|Hin]; [done|]. destruct (IH (i + 1) Hin) as (k & E & Hk).
  exists (S k). split; [rewrite E; f_equal; lia|done].
Qed.

Lemma nonces_remove l tx :
  StronglySorted nonce_lt l → tx ∈ l →
  tx_Nonce tx :: nonces (filter (λ x, tx_Nonce x ≠ tx_Nonce tx) l) ≡ₚ nonces l.
Proof.
  induction 1 as [|y l Hs IH Hy]; [by intros ?%not_elem_of_nil|].
  rewrite Forall_forall in Hy. unfold nonce_lt in Hy. rewrite filter_cons.
  intros [->|Hin]%elem_of_cons.
  - rewrite decide_False by naive_solver. rewrite filter_all; [done|]. rewrite Forall_forall.
    intros x Hx. specialize (Hy x Hx). lia.
  - rewrite decide_True by (specialize (Hy tx Hin); lia). rewrite !fmap_cons, Permutation_swap.
    by rewrite IH.
Qed.

Lemma Remove_refines m l nonce :
  abs m l → ∃ m', sm_Remove nonce m = Ok (bool_decide (nonce ∈ nonces l), m') ∧
    abs m' (filter (λ tx, tx_Nonce tx ≠ nonce) l).
Proof.
  intros Ha. pose proof Ha as [Hh Hp Hs Hr Hc]. unfold sm_Remove.
  destruct (sm_items m !! nonce) as [tx|] eqn:E.
  - apply Hr in E as [Hin <-]. rewrite bool_decide_true by (by apply list_elem_of_fmap_2).
    destruct (find_nonce_Some (tx_Nonce tx) 0 (sm_index m)) as (k & -> & Hk).
    { rewrite Hp. by apply list_elem_of_fmap_2. }
    rewrite Z.add_0_l. destruct (heap_Remove_spec _ _ _ Hh Hk) as (h' & -> & Hh' & Hp').
    cbn [mbind res_bind]. eexists. split; [done|].
    split; cbn [sm_index sm_items sm_cache]; [done| |by apply sorted_filter|by apply repr_delete|by left].
    apply (Permutation_cons_inv (a := tx_Nonce tx)). by rewrite Hp', Hp, nonces_remove.
  - apply (repr_None _ _ _ Hr) in E. rewrite bool_decide_false by done. exists m. split; [done|].
    rewrite filter_all; [done|]. rewrite Forall_forall. intros tx Hin <-. destruct E.
    by apply list_elem_of_fmap_2.
Qed.

(** *** Ready *)

(** The longest run of consecutive nonces at the front, and the rest. *)
Fixpoint run (next : Z) (l : list Transaction) : list Transaction * list Transaction :=
  match l with
  | [] => ([], [])
  | tx :: l' =>
      if tx_Nonce tx =? next then let '(r, rest) := run (u64 (next + 1)) l' in (tx :: r, rest)
      else ([], l)
  end.

Lemma ready_loop_spec l fuel next items index acc :
  (length l <= fuel)%nat → is_heap index → index ≡ₚ nonces l → StronglySorted nonce_lt l → repr items l →
  ∃ items' index', ready_loop fuel next items index acc = Ok (acc ++ (run next l).1, items', index') ∧
    is_heap index' ∧ index' ≡ₚ nonces (run next l).2 ∧ StronglySorted nonce_lt (run next l).2 ∧
    repr items' (run next l).2.
Proof.
  revert fuel next items index acc.
  induction l as [|tx l IH]; intros fuel next items index acc Hf Hh Hp Hs Hr.
  { exists items, index. apply Permutation_nil_r in Hp as ->. rewrite app_nil_r. by destruct fuel. }
  destruct (pop_head _ _ _ _ Hh Hp Hs Hr) as (h & h' & -> & Hpop & Hh' & Hp' & Htx & Hr').
  destruct fuel as [|fuel]; cbn [length] in Hf; [lia|]. cbn [ready_loop run].
  pose proof (StronglySorted_inv Hs) as [Hs' _].
  destruct (Z.eqb_spec (tx_Nonce tx) next) as [<-|Hne].
  - rewrite Htx. cbn [deref mbind res_bind]. rewrite Hpop. cbn [mbind res_bind].
    destruct (IH fuel (u64 (tx_Nonce tx + 1)) (delete (tx_Nonce tx) items) h' (acc ++ [tx]))
      as (items' & index' & -> & Hrest); [lia|done..|]. exists items', index'.
    destruct (run (u64 (tx_Nonce tx + 1)) l) as [r rest]. cbn [fst snd] in *. by rewrite <- app_assoc.
  - exists items, (tx_Nonce tx :: h). by rewrite app_nil_r.
Qed.

Definition ready_spec (start : Z) (l : list Transaction) : list Transaction * list Transaction :=
  match l with
  | [] => ([], [])
  | tx :: _ => if start <? tx_Nonce tx then ([], l) else run (tx_Nonce tx) l
  end.

Lemma Ready_refines m l start :
  abs m l → ∃ m', sm_Ready start m = Ok ((ready_spec start l).1, m') ∧ abs m' (ready_spec start l).2.
Proof.
  intros Ha. pose proof Ha as [Hh Hp Hs Hr Hc]. unfold sm_Ready, ready_spec. destruct l as [|tx l].
  { exists m. apply Permutation_nil_r in Hp. by rewrite Hp. }
  destruct (pop_head _ _ _ _ Hh Hp Hs Hr) as (h & h' & Hi & _). rewrite Hi.
  destruct (_ <? _); [by exists m|].
  destruct (ready_loop_spec (tx :: l) (length (tx_Nonce tx :: h)) (tx_Nonce tx) (sm_items m)
    (tx_Nonce tx :: h) []) as (items' & index' & -> & Hh' & Hp' & Hs' & Hr'); [|by rewrite <- Hi..|done|done|].
  { rewrite <- Hi, Hp. by rewrite length_fmap. }
  cbn [mbind res_bind app]. eexists. split; [done|]. split; try done. by left.
Qed.

(** *** Flatten *)

Lemma sorted_le l : StronglySorted nonce_lt l → StronglySorted by_nonce l.
Proof.
  induction 1 as [|tx l Hs IH Hl]; constructor; [done|]. eapply Forall_impl; [exact Hl|].
  unfold nonce_lt, by_nonce. intros; lia.
Qed.

#[local] Instance by_nonce_total : Total by_nonce.
Proof. intros x y. unfold by_nonce. lia. Qed.
#[local] Instance by_nonce_trans : Transitive by_nonce.
Proof. intros x y z. unfold by_nonce. lia. Qed.

Lemma flatten_sorted items l :
  StronglySorted nonce_lt l → repr items l → merge_sort by_nonce (range_of items).*2 = l.
Proof.
  intros Hs Hr. pose proof (sorted_NoDup l Hs) as Hnd.
  assert (Hp : merge_sort by_nonce (range_of items).*2 ≡ₚ l).
  { rewrite merge_sort_Permutation, (range_pairs _ l Hnd Hr). unfold pairs.
    rewrite <- list_fmap_compose. by rewrite list_fmap_id. }
  apply (StronglySorted_unique_strong by_nonce); [| |by apply sorted_le|done].
  - intros x1 x2 Hx1 Hx2 H1' H2'. rewrite Hp in Hx1. apply (nonce_inj l); [done..|].
    unfold by_nonce in *. lia.
  - apply Sorted_StronglySorted, Sorted_merge_sort; apply _.
Qed.

Lemma Flatten_refines m l :
  abs m l → ∃ m', sm_Flatten m = (l, m') ∧ abs m' l.
Proof.
  intros Ha. pose proof Ha as [Hh Hp Hs Hr Hc]. unfold sm_Flatten, sm_flatten.
  destruct Hc as [Hc|Hc]; rewrite Hc; [|by exists m].
  rewrite (flatten_sorted _ l) by done. eexists. split; [done|]. split; try done. by right.
Qed.
(** *** Cap *)

Lemma sort_index index l :
  index ≡ₚ nonces l → StronglySorted nonce_lt l → merge_sort Z.le index = nonces l.
Proof.
  intros Hp Hs. apply (StronglySorted_unique Z.le).
  - apply Sorted_StronglySorted, Sorted_merge_sort; apply _.
  - clear Hp. induction Hs as [|tx l Hs IH Hl]; cbn; constructor; [done|].
    apply Forall_fmap. eapply Forall_impl; [exact Hl|]. unfold nonce_lt. cbn. intros; lia.
  - by rewrite merge_sort_Permutation.
Qed.

(** The loop drops the last of the first [length l1] nonces, down to [threshold]. *)
Lemma cap_loop_spec fuel l1 l2 threshold items acc :
  StronglySorted nonce_lt (l1 ++ l2) → repr items l1 → 0 <= threshold → threshold + Z.of_nat fuel = len l1 →
  ∃ items', cap_loop fuel (len l1) threshold (nonces (l1 ++ l2)) items acc
    = Ok (acc ++ reverse (drop (Z.to_nat threshold) l1), items') ∧ repr items' (take (Z.to_nat threshold) l1).
Proof.
  revert l1 l2 items acc. induction fuel as [|fuel IH]; intros l1 l2 items acc Hs Hr Ht Hlen; cbn [cap_loop].
  { unfold len in Hlen. exists items. rewrite drop_ge, take_ge by lia. by rewrite app_nil_r. }
  rewrite (proj2 (Z.ltb_lt threshold (len l1))) by lia.
  destruct l1 as [|tx l1 _] using rev_ind; [unfold len in Hlen; cbn in Hlen; lia|].
  rewrite len_app in Hlen |- *. change (len [tx]) with 1 in *. pose proof (len_nonneg l1).
  replace (len l1 + 1 - 1) with (len l1) by lia.
  assert (Hidx : index (nonces ((l1 ++ [tx]) ++ l2)) (len l1) = Ok (tx_Nonce tx)).
  { rewrite <- app_assoc, fmap_app. cbn [app]. rewrite fmap_cons.
    replace (len l1) with (len (nonces l1)) by (unfold len; by rewrite length_fmap). apply index_app_mid. }
  rewrite Hidx. cbn [mbind res_bind].
  assert (Hlk : items !! tx_Nonce tx = Some tx) by (apply Hr; split; [set_solver|done]).
  rewrite Hlk. cbn [deref mbind res_bind].
  destruct (IH l1 ([tx] ++ l2) (delete (tx_Nonce tx) items) (acc ++ [tx])) as (items' & E & Hr').
  - by rewrite app_assoc.
  - pose proof (repr_delete _ _ (tx_Nonce tx) Hr) as Hd. rewrite filter_app in Hd.
    rewrite (filter_cons_False _ tx []), filter_nil, app_nil_r in Hd by naive_solver.
    rewrite filter_all in Hd; [done|]. rewrite <- app_assoc in Hs. apply StronglySorted_app in Hs as (Hlt & _ & _).
    rewrite Forall_forall. intros x Hx. specialize (Hlt x tx Hx ltac:(set_solver)). unfold nonce_lt in Hlt. lia.
  - done.
  - lia.
  - exists items'. rewrite app_assoc in E. rewrite E. split.
    + f_equal. f_equal. rewrite <- app_assoc. f_equal. unfold len in *.
      rewrite drop_app_le by lia. by rewrite reverse_app.
    + unfold len in *. rewrite take_app_le by lia. done.
Qed.

Lemma size_repr items l : NoDup (nonces l) → repr items l → Z.of_nat (size items) = len l.
Proof.
  intros Hnd Hr. unfold len. f_equal. rewrite <- length_map_to_list, (repr_pairs _ l Hnd Hr).
  unfold pairs. by rewrite length_fmap.
Qed.

Lemma StronglySorted_take {A} (R : A → A → Prop) n l : StronglySorted R l → StronglySorted R (take n l).
Proof. intros Hs. rewrite <- (take_drop n l) in Hs. by apply StronglySorted_app_1_l in Hs. Qed.

Lemma Cap_refines m l threshold :
  abs m l → 0 <= threshold →
  ∃ m', sm_Cap threshold m = Ok (reverse (drop (Z.to_nat threshold) l), m') ∧
    abs m' (take (Z.to_nat threshold) l).
Proof.
  intros Ha Ht. pose proof Ha as [Hh Hp Hs Hr Hc]. pose proof (sorted_NoDup l Hs) as Hnd.
  unfold sm_Cap, sm_Len. rewrite (size_repr _ l Hnd Hr). destruct (Z.leb_spec (len l) threshold) as [Hle|Hgt].
  { exists m. unfold len in Hle. rewrite drop_ge, take_ge by lia. done. }
  rewrite (sort_index _ l Hp Hs).
  destruct (cap_loop_spec (Z.to_nat (len l - threshold)) l [] threshold (sm_items m) []) as (items' & E & Hr');
    [by rewrite app_nil_r|done|done|lia|].
  rewrite app_nil_r in E. rewrite E. cbn [mbind res_bind app].
  assert (Hlen : len (nonces l) = len l) by (unfold len; by rewrite length_fmap).
  rewrite Hlen, (proj2 (Z.leb_le 0 threshold)), (proj2 (Z.leb_le threshold (len l))) by lia.
  cbn [andb mbind res_bind].
  assert (Hcache : ∃ c', match sm_cache m with
      | Some cache => if len (reverse (drop (Z.to_nat threshold) l)) <=? len cache
          then Ok (Some (take (length cache - length (reverse (drop (Z.to_nat threshold) l))) cache)) else Panic
      | None => Ok None end = Ok c' ∧ (c' = None ∨ c' = Some (take (Z.to_nat threshold) l))).
  { destruct Hc as [Hc|Hc]; rewrite Hc; [by exists None; auto|]. rewrite length_reverse, length_drop.
    rewrite (proj2 (Z.leb_le _ _)) by (unfold len; rewrite length_reverse, length_drop; lia).
    eexists. split; [done|]. right. do 2 f_equal. unfold len in *. lia. }
  destruct Hcache as (c' & -> & Hc'). cbn [mbind res_bind]. eexists. split; [done|].
  split; cbn [sm_index sm_items sm_cache]; [apply heap_Init_spec| |by apply StronglySorted_take|done|done].
  destruct (heap_Init_spec (take (Z.to_nat threshold) (nonces l))) as [_ ->]. by rewrite fmap_take.
Qed.

(** ** Sequences of operations *)

Inductive sm_op :=
  | OpPut (tx : Transaction)
  | OpForward (threshold : Z)
  | OpFilter (f : Transaction → bool)
  | OpCap (threshold : Z)
  | OpRemove (nonce : Z)
  | OpReady (start : Z)
  | OpFlatten.

(** An operation of the code, with the transactions it returns. *)
Definition sm_exec (o : sm_op) (m : txSortedMap) : res (list Transaction * txSortedMap) :=
  match o with
  | OpPut tx => Ok ([], sm_Put tx m)
  | OpForward t => sm_Forward t m
  | OpFilter f => Ok (sm_Filter f m)
  | OpCap t => sm_Cap t m
  | OpRemove n => '(_, m) ← sm_Remove n m; Ok ([], m)
  | OpReady s => sm_Ready s m
  | OpFlatten => Ok (sm_Flatten m)
  end.

(** The same operation on the sorted list. *)
Definition spec_exec (o : sm_op) (l : list Transaction) : list Transaction * list Transaction :=
  match o with
  | OpPut tx => ([], put_sorted tx l)
  | OpForward t => (below t l, from t l)
  | OpFilter f => (filter (λ tx, f tx = true) l, filter (λ tx, f tx = false) l)
  | OpCap t => (reverse (drop (Z.to_nat t) l), take (Z.to_nat t) l)
  | OpRemove n => ([], filter (λ tx, tx_Nonce tx ≠ n) l)
  | OpReady s => ready_spec s l
  | OpFlatten => (l, l)
  end.

Definition op_ok (o : sm_op) : Prop := match o with OpCap t => 0 <= t | _ => True end.

(** The order of the filtered transactions is that of the map's iteration. *)
Definition same_out (o : sm_op) (out spec : list Transaction) : Prop :=
  match o with OpFilter _ => out ≡ₚ spec | _ => out = spec end.

Lemma exec_refines o m l :
  abs m l → op_ok o →
  ∃ out m', sm_exec o m = Ok (out, m') ∧ same_out o out (spec_exec o l).1 ∧ abs m' (spec_exec o l).2.
Proof.
  intros Ha Ho. destruct o as [tx|t|f|t|n|s|]; cbn [sm_exec spec_exec fst snd].
  - eexists _, _. split; [done|]. split; [done|]. by apply Put_refines.
  - destruct (Forward_refines m l t Ha) as (m' & -> & Ha'). by eexists _, _.
  - destruct (Filter_refines m l f Ha) as (out & m' & -> & Hp & Ha'). by eexists _, _.
  - destruct (Cap_refines m l t Ha Ho) as (m' & -> & Ha'). by eexists _, _.
  - destruct (Remove_refines m l n Ha) as (m' & -> & Ha'). by eexists _, _.
  - destruct (Ready_refines m l s Ha) as (m' & -> & Ha'). by eexists _, _.
  - destruct (Flatten_refines m l Ha) as (m' & -> & Ha'). by eexists _, _.
Qed.

Fixpoint sm_execs (os : list sm_op) (m : txSortedMap) : res (list (list Transaction) * txSortedMap) :=
  match os with
  | [] => Ok ([], m)
  | o :: os' =>
      '(out, m) ← sm_exec o m;
      '(outs, m) ← sm_execs os' m;
      Ok (out :: outs, m)
  end.

Fixpoint spec_execs (os : list sm_op) (l : list Transaction) : list (list Transaction) * list Transaction :=
  match os with
  | [] => ([], l)
  | o :: os' =>
      let '(out, l) := spec_exec o l in
      let '(outs, l) := spec_execs os' l in (out :: outs, l)
  end.

(** The nonce-sorted map of the pool, with its heap of nonces and its cache, is a
    list of transactions sorted by nonce: any sequence of insertions, removals,
    filters, caps, promotions and flattenings runs without a panic and returns, call
    by call, the transactions the same operations on the sorted list give; only the
    order of filtered transactions is that of the map's iteration. *)
Theorem sorted_map_refines os :
  Forall op_ok os →
  ∃ outs m, sm_execs os newTxSortedMap = Ok (outs, m) ∧
    Forall3 same_out os outs (spec_execs os []).1 ∧ abs m (spec_execs os []).2.
Proof.
  intros Hos.
  assert (Hgen : ∀ m l, abs m l → ∃ outs m', sm_execs os m = Ok (outs, m') ∧
    Forall3 same_out os outs (spec_execs os l).1 ∧ abs m' (spec_execs os l).2);
    [|apply Hgen, abs_empty].
  induction Hos as [|o os Ho Hos IH]; intros m l Ha; cbn [sm_execs spec_execs].
  { exists [], m. split; [done|]. split; [constructor|done]. }
  destruct (exec_refines o m l Ha Ho) as (out & m1 & -> & Hp & Ha1). cbn [mbind res_bind].
  destruct (spec_exec o l) as [sout l1]. cbn [fst snd] in *.
  destruct (IH m1 l1 Ha1) as (outs & m2 & -> & Hf & Ha2). cbn [mbind res_bind].
  destruct (spec_execs os l1) as [souts l2]. cbn [fst snd] in *.
  exists (out :: outs), m2. split; [done|]. split; [by constructor|done].
Qed.

(** *** What [Ready] returns *)

Lemma run_spec next l :
  is_u64 next → StronglySorted nonce_lt l → Forall (λ tx, next <= tx_Nonce tx < 2 ^ 64) l →
  l = (run next l).1 ++ (run next l).2 ∧
  (∀ i tx, (run next l).1 !! i = Some tx → tx_Nonce tx = next + Z.of_nat i) ∧
  (∀ tx, tx ∈ (run next l).2 → tx_Nonce tx ≠ next + len (run next l).1).
Proof.
  revert next. induction l as [|tx l IH]; intros next Hn Hs Hl; cbn [run].
  { split; [done|]. split; [done|]. by intros tx ?%not_elem_of_nil. }
  apply StronglySorted_inv in Hs as [Hs Hlt]. apply Forall_cons in Hl as [Htx Hl]. unfold is_u64 in Hn.
  destruct (Z.eqb_spec (tx_Nonce tx) next) as [<-|Hne].
  - destruct (decide (tx_Nonce tx = 2 ^ 64 - 1)) as [Hmax|Hmax].
    { assert (l = []) as ->.
      { destruct l as [|tx' l]; [done|]. apply Forall_cons in Hlt as [Ht' _]. apply Forall_cons in Hl as [Hl _].
        unfold nonce_lt in Ht'. lia. }
      cbn. split; [done|]. split; [|by intros ? ?%not_elem_of_nil].
      intros [|i] tx'; cbn; [intros [= <-]; lia|done]. }
    rewrite u64_id by (unfold is_u64; lia).
    destruct (IH (tx_Nonce tx + 1)) as (Happ & Hi & Hrest); [unfold is_u64; lia|done| |].
    { rewrite Forall_forall in *. intros x Hx. specialize (Hlt x Hx). specialize (Hl x Hx).
      unfold nonce_lt in Hlt. lia. }
    destruct (run (tx_Nonce tx + 1) l) as [r rest]. cbn [fst snd] in *. split; [by rewrite Happ|]. split.
    + intros [|i] tx' E; cbn in E; [injection E as <-; lia|]. rewrite (Hi i tx' E). lia.
    + intros x Hx. specialize (Hrest x Hx). unfold len in *. cbn [length]. lia.
  - cbn [fst snd]. split; [done|]. split; [done|]. intros x Hx. change (len (@nil Transaction)) with 0.
    apply elem_of_cons in Hx as [->|Hx]; [lia|]. rewrite Forall_forall in Hlt. specialize (Hlt x Hx).
    unfold nonce_lt in Hlt. lia.
Qed.

(** [Ready] returns the longest run of consecutive nonces from the lowest one, when
    that is not above the requested start: the transactions have consecutive nonces,
    the next nonce is missing from what stays, and nothing else leaves the map. *)
Theorem ready_longest_run m tx l start :
  abs m (tx :: l) → Forall (λ t, is_u64 (tx_Nonce t)) (tx :: l) → tx_Nonce tx <= start →
  ∃ ready rest m', sm_Ready start m = Ok (ready, m') ∧ abs m' rest ∧ tx :: l = ready ++ rest ∧
    (∀ i t, ready !! i = Some t → tx_Nonce t = tx_Nonce tx + Z.of_nat i) ∧
    (∀ t, t ∈ rest → tx_Nonce t ≠ tx_Nonce tx + len ready).
Proof.
  intros Ha Hu Hst. destruct (Ready_refines m (tx :: l) start Ha) as (m' & E & Ha').
  unfold ready_spec in E, Ha'. rewrite (proj2 (Z.ltb_ge start _)) in E, Ha' by lia.
  pose proof (abs_sorted _ _ Ha) as Hs. pose proof Hu as Hu'. apply Forall_cons in Hu' as [Htx _].
  destruct (run_spec (tx_Nonce tx) (tx :: l) Htx Hs) as (Happ & Hi & Hrest).
  { apply StronglySorted_inv in Hs as [_ Hlt]. rewrite Forall_forall in *. intros x Hx.
    pose proof (Hu x Hx) as Hux. unfold is_u64 in Hux. apply elem_of_cons in Hx as [->|Hx]; [lia|].
    specialize (Hlt x Hx). unfold nonce_lt in Hlt. lia. }
  by exists (run (tx_Nonce tx) (tx :: l)).1, (run (tx_Nonce tx) (tx :: l)).2, m'.
Qed.

(** ** Lists with caps *)

Section caps.
Variable Cost : Transaction → Z.

(** The caps bound every transaction of the list. *)
Record tl_abs (l : txList) (s : list Transaction) : Prop := {
  ta_abs : abs (tl_txs l) s;
  ta_caps : Forall (λ tx, Cost tx <= tl_costcap l ∧ tx_Gas tx <= tl_gascap l) s;
  ta_nonces : Forall (λ tx, is_u64 (tx_Nonce tx)) s;
}.

Lemma lowest_nonce_spec removed x :
  x ∈ removed → is_u64 (tx_Nonce x) → Forall (λ tx, tx_Nonce x <= tx_Nonce tx) removed →
  lowest_nonce removed = tx_Nonce x.
Proof.
  intros Hin Hx Hall. unfold is_u64 in Hx. unfold lowest_nonce.
  assert (Hgen : ∀ l acc, Forall (λ tx, tx_Nonce x <= tx_Nonce tx) l → tx_Nonce x <= acc →
    (x ∈ l ∨ acc = tx_Nonce x) →
    foldl (λ lowest tx, if tx_Nonce tx <? lowest then tx_Nonce tx else lowest) acc l = tx_Nonce x).
  { intros l. induction l as [|y l IH]; intros acc Hl Ha Hor; cbn.
    { destruct Hor as [Hc|Hc]; [by apply not_elem_of_nil in Hc|done]. }
    apply Forall_cons in Hl as [Hy Hl]. apply IH; [done|destruct (Z.ltb_spec (tx_Nonce y) acc); lia|].
    destruct (Z.ltb_spec (tx_Nonce y) acc); destruct Hor as [[->|?]%elem_of_cons|?]; auto; right; lia. }
  apply Hgen; [done|lia|by left].
Qed.

(** The transactions before the first one that satisfies a test. *)
Lemma split_first (f : Transaction → bool) l :
  (Forall (λ tx, f tx = false) l) ∨
  ∃ keep x rest, l = keep ++ x :: rest ∧ Forall (λ tx, f tx = false) keep ∧ f x = true.
Proof.
  induction l as [|tx l [IH|(keep & x & rest & -> & Hk & Hx)]]; [by left|..].
  - destruct (f tx) eqn:E; [right; by exists [], tx, l|left; by constructor].
  - right. destruct (f tx) eqn:E.
    + by exists [], tx, (keep ++ x :: rest).
    + exists (tx :: keep), x, rest. split; [done|]. split; [by constructor|done].
Qed.

Lemma over_limit_false cl gl tx : over_limit Cost cl gl tx = false ↔ Cost tx <= cl ∧ tx_Gas tx <= gl.
Proof. unfold over_limit. rewrite orb_false_iff, !Z.ltb_ge. tauto. Qed.

Lemma filter_not_false (f : Transaction → bool) keep x rest :
  Forall (λ tx, f tx = false) keep → f x = true →
  filter (λ tx, f tx = false) (keep ++ x :: rest) = keep ++ filter (λ tx, f tx = false) rest.
Proof. intros Hk Hx. by rewrite filter_app, filter_all, filter_cons_False by (done || congruence). Qed.
(** The filter when nothing is over the limits. *)
Lemma Filter_nothing l s cl gl :
  tl_abs l s → Forall (λ tx, over_limit Cost cl gl tx = false) s →
  ∃ l', tl_Filter Cost cl gl l = ([], [], l') ∧ tl_abs l' s ∧ tl_strict l' = tl_strict l.
Proof using Type*.
  intros [Ha Hc Hn] Hno. unfold tl_Filter. destruct (_ && _); [by exists l|].
  destruct (Filter_refines (tl_txs l) s (over_limit Cost cl gl) Ha) as (removed & m' & -> & Hp & Ha').
  rewrite (filter_none (λ tx, over_limit Cost cl gl tx = true)) in Hp
    by (eapply Forall_impl; [exact Hno|]; cbn; congruence).
  apply Permutation_nil_r in Hp as ->. rewrite filter_all in Ha' by done.
  eexists. split; [done|]. split; [|done]. split; [done| |done].
  eapply Forall_impl; [exact Hno|]. intros tx. apply over_limit_false.
Qed.

(** The strict mode also drops what follows the first removed transaction. *)
Lemma filter_invalids (f : Transaction → bool) m keep x rest :
  abs m (filter (λ tx, f tx = false) (keep ++ x :: rest)) → StronglySorted nonce_lt (keep ++ x :: rest) →
  Forall (λ tx, f tx = false) keep → f x = true →
  (sm_filter (λ tx, tx_Nonce x <? tx_Nonce tx) m).1 ≡ₚ filter (λ tx, f tx = false) rest ∧
  abs (sm_reheap (sm_filter (λ tx, tx_Nonce x <? tx_Nonce tx) m).2) keep.
Proof using Type*.
  intros Ha Hs Hk Hx. rewrite filter_not_false in Ha by done. pose proof Ha as [_ _ Hsf Hr _].
  apply StronglySorted_app in Hs as (Hlt & Hsk & [_ Hrest]%StronglySorted_inv).
  assert (Hrest' : Forall (λ tx, tx_Nonce x < tx_Nonce tx) (filter (λ tx, f tx = false) rest)).
  { rewrite Forall_forall in *. intros tx [_ Hin]%list_elem_of_filter. by apply Hrest. }
  assert (Hkeep' : Forall (λ tx, tx_Nonce tx < tx_Nonce x) keep).
  { rewrite Forall_forall. intros tx Hin. apply (Hlt tx x Hin). by left. }
  split.
  - rewrite (filter_removed _ m _ Hsf Hr), filter_app, filter_none, filter_all; [done|..].
    + eapply Forall_impl; [exact Hrest'|]. intros tx Ht. by apply Z.ltb_lt.
    + eapply Forall_impl; [exact Hkeep'|]. cbn. intros tx Ht E. apply Z.ltb_lt in E. lia.
  - apply reheap_abs; [done|]. pose proof (repr_filter _ _ (λ tx, tx_Nonce x <? tx_Nonce tx) Hr) as Hr'.
    rewrite filter_app, filter_all, (filter_none _ (filter _ rest)), app_nil_r in Hr'; [done|..].
    + eapply Forall_impl; [exact Hrest'|]. cbn. intros tx Ht E. apply Z.ltb_ge in E. lia.
    + eapply Forall_impl; [exact Hkeep'|]. cbn. intros tx Ht. apply Z.ltb_ge. lia.
Qed.

(** Dropping the transactions an account cannot pay for is exact, although the
    code first looks at cached caps: exactly the transactions over the cost or gas
    limit are removed; in strict mode the list keeps exactly what comes before the
    first of them, and the others are returned as invalid; the caps still bound what
    stays. *)
Theorem txlist_filter_exact l s cl gl :
  tl_abs l s →
  ∃ removed invalids l' s', tl_Filter Cost cl gl l = (removed, invalids, l') ∧ tl_abs l' s' ∧
    tl_strict l' = tl_strict l ∧
    removed ≡ₚ filter (λ tx, over_limit Cost cl gl tx = true) s ∧
    invalids ++ s' ≡ₚ filter (λ tx, over_limit Cost cl gl tx = false) s ∧
    (tl_strict l = false → invalids = []) ∧
    (tl_strict l = true → ∃ rest, s = s' ++ rest ∧
       ∀ tx, head rest = Some tx → over_limit Cost cl gl tx = true).
Proof using Type*.
  intros Hl. destruct (split_first (over_limit Cost cl gl) s) as [Hno|(keep & x & rest & Es & Hk & Hx)].
  { destruct (Filter_nothing l s cl gl Hl Hno) as (l' & E & Hl' & Hst).
    exists [], [], l', s. rewrite filter_none, filter_all by
      (done || (eapply Forall_impl; [exact Hno|]; cbn; congruence)).
    split_and!; try done. intros _. exists []. by rewrite app_nil_r. }
  destruct Hl as [Ha Hc Hn]. pose proof (abs_sorted _ _ Ha) as Hs.
  assert (Hxin : x ∈ s) by (rewrite Es; set_solver).
  unfold tl_Filter. destruct (_ && _) eqn:Hcap.
  { exfalso. apply andb_true_iff in Hcap as [H1'%Z.leb_le H2'%Z.leb_le]. rewrite Forall_forall in Hc.
    destruct (Hc x Hxin). assert (over_limit Cost cl gl x = false) by (apply over_limit_false; lia). congruence. }
  destruct (Filter_refines (tl_txs l) s (over_limit Cost cl gl) Ha) as (removed & m' & -> & Hp & Ha').
  assert (Hxr : x ∈ removed) by (rewrite Hp; by apply list_elem_of_filter).
  rewrite (proj2 (Z.eqb_neq (len removed) 0)).
  2: { destruct removed; [by apply not_elem_of_nil in Hxr|]. unfold len. cbn. lia. }
  assert (Hlow : lowest_nonce removed = tx_Nonce x).
  { rewrite Forall_forall in Hn. apply lowest_nonce_spec; [done|by apply Hn|]. rewrite Forall_forall.
    intros tx Hin. rewrite Hp, Es in Hin. apply list_elem_of_filter in Hin as [Ho Hin].
    rewrite Es in Hs. apply StronglySorted_app in Hs as (_ & _ & [_ Hr]%StronglySorted_inv).
    rewrite Forall_forall in Hk, Hr. apply elem_of_app in Hin as [Hin|[->|Hin]%elem_of_cons]; [|done|].
    - specialize (Hk tx Hin). congruence.
    - specialize (Hr tx Hin). unfold nonce_lt in Hr. lia. }
  assert (Hlim : ∀ s', s' ⊆ s → Forall (λ tx, over_limit Cost cl gl tx = false) s' →
    Forall (λ tx, Cost tx <= cl ∧ tx_Gas tx <= gl) s' ∧ Forall (λ tx, is_u64 (tx_Nonce tx)) s').
  { intros s' Hsub Hs'. split; [eapply Forall_impl; [exact Hs'|]; intros tx; apply over_limit_false|].
    rewrite Forall_forall in *. auto. }
  destruct (tl_strict l) eqn:Hst.
  - rewrite Hlow. rewrite Es in Ha', Hs.
    destruct (filter_invalids (over_limit Cost cl gl) m' keep x rest Ha' Hs Hk Hx) as [Hinv Hkeep].
    destruct (sm_filter _ m') as [invalids m2]. cbn [fst snd] in *.
    destruct (Hlim keep) as [Hlc Hlu]; [rewrite Es; set_solver|done|].
    exists removed, invalids, (mkTxList true (sm_reheap m2) cl gl), keep. split; [done|]. split; [done|].
    split; [done|]. split; [done|]. split; [rewrite Es, filter_not_false, Hinv by done; apply Permutation_app_comm|].
    split; [done|]. intros _. exists (x :: rest). split; [done|]. by intros tx [= <-].
  - destruct (Hlim (filter (λ tx, over_limit Cost cl gl tx = false) s)) as [Hlc Hlu].
    { intros tx [_ ?]%list_elem_of_filter. done. }
    { rewrite Forall_forall. by intros tx [? _]%list_elem_of_filter. }
    exists removed, [], (mkTxList false (sm_reheap m') cl gl), (filter (λ tx, over_limit Cost cl gl tx = false) s).
    split; [done|]. split; [|done]. split; [|done|done]. cbn [tl_txs].
    apply reheap_abs; [by apply sorted_filter|]. apply (abs_items _ _ Ha').
Qed.

Lemma put_sorted_bounds (P : Transaction → Prop) tx s :
  StronglySorted nonce_lt s → P tx → Forall P s → Forall P (put_sorted tx s).
Proof using Type.
  intros Hs Htx Hall. rewrite Forall_forall in *. intros x [->|[Hx _]]%put_sorted_elem; [done|by apply Hall|done].
Qed.

Lemma bump_threshold_spec o bump q :
  0 <= bump < 2 ^ 62 →
  q <? bump_threshold o bump = negb ((100 + bump) * tx_GasPrice o <? 100 * (q + 1)).
Proof using Type.
  clear. intros Hb. unfold bump_threshold. rewrite (i64_id bump), i64_id by (unfold is_i64; lia).
  rewrite <- Z.leb_antisym. destruct (Z.leb_spec (100 * (q + 1)) ((100 + bump) * tx_GasPrice o)) as [Hle|Hgt].
  - apply Z.ltb_lt. apply (Z.div_le_mono _ _ 100) in Hle; [|lia].
    rewrite Z.mul_comm, Z.div_mul in Hle by lia. lia.
  - apply Z.ltb_ge. apply Z.lt_succ_r. apply Z.div_lt_upper_bound; lia.
Qed.

(** A transaction is accepted into an account's list exactly when it pays, against
    the transaction with its nonce, a higher price and no less than the required
    percentage above the old price, rounded down; the list then holds it in place of the
    replaced one, which is returned, and its caps bound the new list.  A refused
    transaction changes nothing. *)
Theorem txlist_add_replaces l s tx bump :
  tl_abs l s → is_u64 (tx_Nonce tx) → 0 <= bump < 2 ^ 62 →
  ∃ ok old l', tl_Add Cost tx bump l = (ok, old, l') ∧
    (ok = true ↔ ∀ o, o ∈ s → tx_Nonce o = tx_Nonce tx →
       tx_GasPrice o < tx_GasPrice tx ∧ (100 + bump) * tx_GasPrice o < 100 * (tx_GasPrice tx + 1)) ∧
    (ok = false → old = None ∧ l' = l) ∧
    (ok = true → tl_abs l' (put_sorted tx s) ∧ tl_strict l' = tl_strict l ∧
       ∀ o, old = Some o ↔ o ∈ s ∧ tx_Nonce o = tx_Nonce tx).
Proof using Type*.
  intros [Ha Hc Hn] Htx Hb. pose proof (abs_items _ _ Ha) as Hr. pose proof (abs_sorted _ _ Ha) as Hs.
  assert (Hadd : ∀ old l', old = sm_Get (tl_txs l) (tx_Nonce tx) →
    l' = mkTxList (tl_strict l) (sm_Put tx (tl_txs l)) (if tl_costcap l <? Cost tx then Cost tx else tl_costcap l)
           (if tl_gascap l <? tx_Gas tx then tx_Gas tx else tl_gascap l) →
    tl_abs l' (put_sorted tx s) ∧ tl_strict l' = tl_strict l ∧ ∀ o, old = Some o ↔ o ∈ s ∧ tx_Nonce o = tx_Nonce tx).
  { intros old l' -> ->. split; [|split; [done|intros o; apply Hr]].
    split; [by apply Put_refines| |by apply put_sorted_bounds]. cbn [tl_costcap tl_gascap].
    apply put_sorted_bounds; [done|..].
    - destruct (Z.ltb_spec (tl_costcap l) (Cost tx)), (Z.ltb_spec (tl_gascap l) (tx_Gas tx)); lia.
    - eapply Forall_impl; [exact Hc|]. cbn. intros x [? ?].
      destruct (Z.ltb_spec (tl_costcap l) (Cost tx)), (Z.ltb_spec (tl_gascap l) (tx_Gas tx)); lia. }
  unfold tl_Add. destruct (sm_Get (tl_txs l) (tx_Nonce tx)) as [o|] eqn:E.
  - apply Hr in E as [Hin Ho]. rewrite bump_threshold_spec by done.
    assert (Hiff : (∀ x, x ∈ s → tx_Nonce x = tx_Nonce tx →
        tx_GasPrice x < tx_GasPrice tx ∧ (100 + bump) * tx_GasPrice x < 100 * (tx_GasPrice tx + 1)) ↔
      tx_GasPrice o < tx_GasPrice tx ∧ (100 + bump) * tx_GasPrice o < 100 * (tx_GasPrice tx + 1)).
    { split; [intros Hx; by apply Hx|]. intros Hx x Hxin Ex.
      by rewrite (nonce_inj s x o (sorted_NoDup s Hs)) by (done || congruence). }
    setoid_rewrite Hiff. clear Hiff. destruct (Z.leb_spec (tx_GasPrice tx) (tx_GasPrice o)),
      (Z.ltb_spec ((100 + bump) * tx_GasPrice o) (100 * (tx_GasPrice tx + 1))); cbn [orb negb];
      eexists _, _, _; (split; [done|]); (split; [split; [done || lia|done || lia]|]); (split; [done|]); try done.
    intros _. by apply Hadd.
  - eexists _, _, _. split; [done|]. split; [split; [|done]|split; [done|intros _; by apply Hadd]].
    intros _ x Hx Ex. apply (repr_None _ _ _ Hr) in E. destruct E. rewrite <- Ex. by apply list_elem_of_fmap_2.
Qed.
End caps.
End refinement.

(** ** Evicting cheap transactions *)

Section eviction.
Context `{GoHeapLaws Transaction price_less}.
Variable Hash : Transaction → list Z.
Variable Size : Transaction → Z.

Notation live all l := (filter (λ tx, is_stale Hash all tx = false) l).

(** The slots some transactions take together. *)
Definition slots_of (txs : list Transaction) : Z := sum_Z (numSlots Size <$> txs).

Lemma slots_of_cons tx txs : slots_of (tx :: txs) = numSlots Size tx + slots_of txs.
Proof using Type. done. Qed.

Lemma slots_of_perm l k : l ≡ₚ k → slots_of l = slots_of k.
Proof using Type. intros Hp. apply sum_Z_perm. by rewrite Hp. Qed.

(** What the loop dropped, against the heap before and after it. *)
Record evicted (all : txLookup) (slots : Z) (l l' : txPricedList) (dropped : list Transaction) : Prop := {
  ev_heap : is_heap (pl_remotes l');
  ev_live : live all (pl_remotes l) ≡ₚ dropped ++ live all (pl_remotes l');
  ev_subset : pl_remotes l' ⊆ pl_remotes l;
  ev_dropped_live : Forall (λ tx, is_stale Hash all tx = false) dropped;
  ev_cheapest : ∀ x y, x ∈ dropped → y ∈ pl_remotes l' → price_less y x = false;
  ev_minimal : ∀ d x, dropped = d ++ [x] → slots_of d < slots;
  ev_stales : pl_stales l' - len (filter (λ tx, is_stale Hash all tx = true) (pl_remotes l'))
    = pl_stales l - len (filter (λ tx, is_stale Hash all tx = true) (pl_remotes l));
}.

Lemma evicted_refl all slots l : is_heap (pl_remotes l) → evicted all slots l l [].
Proof using Type. 
  intros Hh. split; [done|done|done|constructor| | |done].
  - by intros ? ? ?%not_elem_of_nil.
  - by intros [|] ? ?.
Qed.

(** One more pop in front: a stale entry, or the cheapest live transaction. *)
Lemma evicted_stale all slots l l' x h h' dropped :
  pl_remotes l = x :: h → h' ≡ₚ h → is_stale Hash all x = true →
  evicted all slots (mkPriced h' (pl_stales l - 1)) l' dropped → evicted all slots l l' dropped.
Proof using Type*.
  intros El Hp Hx [Hh Hlive Hsub Hd Hch Hmin Hst]. cbn [pl_remotes pl_stales] in *.
  rewrite Hp in Hlive, Hsub, Hst. split; try done; rewrite El.
  - by rewrite filter_cons_False by congruence.
  - set_solver.
  - rewrite filter_cons_True, Hst by done. unfold len. cbn [length]. lia.
Qed.

Lemma evicted_live all slots l l' x h h' dropped :
  pl_remotes l = x :: h → is_heap (x :: h) → h' ≡ₚ h → is_stale Hash all x = false → 0 < slots →
  evicted all (slots - numSlots Size x) (mkPriced h' (pl_stales l)) l' dropped →
  evicted all slots l l' (x :: dropped).
Proof using Type*.
  intros El Hhx Hp Hx Hpos [Hh Hlive Hsub Hd Hch Hmin Hst]. cbn [pl_remotes pl_stales] in *.
  rewrite Hp in Hlive, Hsub, Hst. split; try done; rewrite ?El.
  - rewrite filter_cons_True by done. by rewrite Hlive.
  - set_solver.
  - by constructor.
  - intros a b [->|Ha]%elem_of_cons Hb; [|by apply Hch]. by eapply heap_min, Hsub.
  - intros [|y d] z E; [change (0 < slots); lia|]. injection E as <- E. apply Hmin in E. rewrite slots_of_cons. lia.
  - rewrite filter_cons_False by congruence. done.
Qed.

Lemma discard_loop_spec fuel all slots l acc :
  (length (pl_remotes l) <= fuel)%nat → is_heap (pl_remotes l) →
  ∃ dropped l', discard_loop Hash Size fuel all slots l acc
    = Ok (acc ++ dropped, slots - slots_of dropped, l') ∧ evicted all slots l l' dropped ∧
    (0 < slots - slots_of dropped → pl_remotes l' = []).
Proof using Type*.
  revert slots l acc. induction fuel as [|fuel IH]; intros slots l acc Hf Hh;
    cbn [discard_loop]; destruct (pl_remotes l) as [|x h] eqn:El; cbn [length] in Hf; try lia.
  1,2: exists [], l; rewrite app_nil_r, Z.sub_0_r, El; (split; [done|]); (split; [|done]);
    apply evicted_refl; by rewrite El.
  destruct (Z.ltb_spec 0 slots) as [Hpos|Hneg].
  2: { exists [], l. rewrite app_nil_r, Z.sub_0_r. split; [done|]. split; [|lia]. apply evicted_refl. by rewrite El. }
  destruct (heap_Pop_spec x h Hh) as (h' & -> & Hh' & Hp). cbn [mbind res_bind].
  assert (Hlen : (length h' <= fuel)%nat) by (rewrite Hp; lia).
  destruct (is_stale Hash all x) eqn:Ex.
  - destruct (IH slots (mkPriced h' (pl_stales l - 1)) acc) as (d & l' & -> & He & Hend); [done..|].
    exists d, l'. split; [done|]. split; [|done]. by eapply evicted_stale.
  - destruct (IH (slots - numSlots Size x) (mkPriced h' (pl_stales l)) (acc ++ [x])) as (d & l' & -> & He & Hend);
      [done..|].
    exists (x :: d), l'. rewrite slots_of_cons, Z.sub_add_distr, <- app_assoc.  split; [done|]. split; [|done]. by eapply evicted_live.
Qed.

Lemma push_all_spec txs h :
  is_heap h → is_heap (foldl heap_Push h txs) ∧ foldl heap_Push h txs ≡ₚ h ++ txs.
Proof using Type*.
  revert h. induction txs as [|x txs IH]; intros h Hh; cbn; [by rewrite app_nil_r|].
  destruct (heap_Push_spec h x Hh) as [Hh' Hp]. destruct (IH _ Hh') as [Hh2 Hp2].
  split; [done|]. rewrite Hp2, Hp. apply Permutation_middle.
Qed.

Lemma slots_of_nonneg txs : (∀ tx, 0 <= Size tx) → 0 <= slots_of txs.
Proof using Type.
  intros HSize. apply sum_Z_nonneg, Forall_fmap, Forall_forall. intros tx _. cbn.
  apply Z.div_pos; [specialize (HSize tx)|]; unfold txSlotSize; lia.
Qed.

(** Pushing back what the loop dropped when it emptied the heap. *)
Lemma evicted_undo all slots l l' dropped :
  evicted all slots l l' dropped → pl_remotes l' = [] →
  evicted all slots l (mkPriced (foldl heap_Push (pl_remotes l') dropped) (pl_stales l')) [].
Proof using Type*.
  intros [Hh Hlive Hsub Hd Hch Hmin Hst] Hnil. destruct (push_all_spec dropped (pl_remotes l') Hh) as [Hh2 Hp].
  rewrite Hnil in *. cbn [app] in Hp. rewrite filter_nil, app_nil_r in Hlive.
  split; cbn [pl_remotes pl_stales]; [done| | |constructor| |by intros [|] ? ?|].
  - rewrite Hp, (filter_all _ dropped) by done. done.
  - intros tx. rewrite Hp, <- Hlive. by intros [_ ?]%list_elem_of_filter.
  - by intros ? ? ?%not_elem_of_nil.
  - rewrite <- Hst. f_equal. unfold len. rewrite Hp. rewrite filter_none; [done|].
    eapply Forall_impl; [exact Hd|]. cbn. congruence.
Qed.

(** Making room in the pool evicts the cheapest remote transactions: it never
    panics, drops only transactions that are still in the pool, each no more expensive
    (for equal prices with no lower nonce) than any that stays, and no more than
    needed to free the requested slots; it fails exactly when it is not forced and all
    the remote transactions together do not free them, and then no transaction is lost.
    The number of stale entries stays accounted for. *)
Theorem discard_cheapest all slots force l :
  (∀ tx, 0 <= Size tx) → is_heap (pl_remotes l) →
  ∃ dropped ok l', pl_Discard Hash Size all slots force l = Ok (dropped, ok, l') ∧
    evicted all slots l l' dropped ∧
    (ok = false ↔ force = false ∧ slots_of (live all (pl_remotes l)) < slots) ∧
    (ok = true → force = false → slots <= slots_of dropped).
Proof using Type*.
  intros HSize Hh.
  destruct (discard_loop_spec (length (pl_remotes l)) all slots l [] ltac:(done) Hh) as (d & l' & E & He & Hend).
  unfold pl_Discard. rewrite E. cbn [mbind res_bind app].
  assert (Hsum : slots_of (live all (pl_remotes l)) = slots_of d + slots_of (live all (pl_remotes l'))).
  { rewrite (slots_of_perm _ _ (ev_live _ _ _ _ _ He)). unfold slots_of. by rewrite fmap_app, sum_Z_app. }
  pose proof (slots_of_nonneg (live all (pl_remotes l')) HSize).
  destruct (Z.ltb_spec 0 (slots - slots_of d)) as [Hpos|Hneg].
  - rewrite (Hend Hpos), filter_nil in Hsum. change (slots_of []) with 0 in Hsum.
    destruct force; cbn [andb negb]; eexists _, _, _; (split; [done|]).
    + split; [done|]. split; [split; [done|by intros [? _]]|done].
    + split; [apply evicted_undo; [done|by apply Hend]|]. split; [split; [split; [done|lia]|done]|done].
  - cbn [andb]. exists d, true, l'. split; [done|]. split; [done|]. split; [split; [done|]|lia].
    intros [_ ?]. lia.
Qed.
End eviction.

(** ** Concrete pools *)

#[global] Instance nonce_weak : WeakOrder nonce_less.
Proof.
  split; unfold nonce_less; intros *; rewrite ?Z.ltb_lt, ?Z.ltb_ge; lia.
Qed.

#[global] Instance price_weak : WeakOrder price_less.
Proof.
  split; unfold price_less.
  - intros x y. destruct (Z.ltb_spec (tx_GasPrice x) (tx_GasPrice y)), (Z.ltb_spec (tx_GasPrice y) (tx_GasPrice x));
      rewrite ?Z.ltb_lt, ?Z.ltb_ge; done || lia.
  - intros x y z.
    destruct (Z.ltb_spec (tx_GasPrice y) (tx_GasPrice x)), (Z.ltb_spec (tx_GasPrice x) (tx_GasPrice y)),
      (Z.ltb_spec (tx_GasPrice z) (tx_GasPrice y)), (Z.ltb_spec (tx_GasPrice y) (tx_GasPrice z)),
      (Z.ltb_spec (tx_GasPrice z) (tx_GasPrice x)), (Z.ltb_spec (tx_GasPrice x) (tx_GasPrice z));
      rewrite ?Z.ltb_lt, ?Z.ltb_ge; intros; done || lia.
Qed.

#[global] Instance nonce_heap : GoHeap nonce_less := sorted_heap nonce_less.
#[global] Instance nonce_heap_laws : GoHeapLaws nonce_less := sorted_heap_laws nonce_less.
#[global] Instance price_heap : GoHeap price_less := sorted_heap price_less.
#[global] Instance price_heap_laws : GoHeapLaws price_less := sorted_heap_laws price_less.

Definition pool_tx (nonce price gas : Z) : Transaction :=
  mkTransaction LegacyTxType nonce gas price 0 (Some (replicate 20 2)) [] 27 1 1 0 [].

Lemma puts_abs txs m l :
  abs m l → abs (foldl (flip sm_Put) m txs) (foldl (flip put_sorted) l txs).
Proof. revert m l. induction txs as [|tx txs IH]; intros m l Ha; cbn; [done|]. by apply IH, Put_refines. Qed.

(** Four transactions of an account, with a gap after the third. *)
Definition demo_pool : list Transaction :=
  [pool_tx 7 10 21000; pool_tx 5 20 50000; pool_tx 6 15 30000; pool_tx 9 30 21000].
Definition demo_pool_sorted : list Transaction :=
  [pool_tx 5 20 50000; pool_tx 6 15 30000; pool_tx 7 10 21000; pool_tx 9 30 21000].
Definition demo_sorted_map : txSortedMap := foldl (flip sm_Put) newTxSortedMap demo_pool.

Lemma demo_sorted_map_abs : abs demo_sorted_map demo_pool_sorted.
Proof. apply (puts_abs demo_pool newTxSortedMap []), abs_empty. Qed.

Definition demo_ops : list sm_op :=
  (OpPut <$> demo_pool) ++ [OpFlatten; OpForward 6; OpReady 6; OpPut (pool_tx 12 1 21000); OpCap 1; OpRemove 9].

(** The operations one by one, on the sorted list. *)
Lemma sorted_map_refines_witness :
  (spec_execs demo_ops []).1 =
    [[]; []; []; []; demo_pool_sorted; [pool_tx 5 20 50000]; [pool_tx 6 15 30000; pool_tx 7 10 21000]; [];
     [pool_tx 12 1 21000]; []] ∧
  ∃ outs m, sm_execs demo_ops newTxSortedMap = Ok (outs, m) ∧
    Forall3 same_out demo_ops outs (spec_execs demo_ops []).1 ∧ abs m (spec_execs demo_ops []).2.
Proof.
  split; [vm_compute; reflexivity|]. apply (sorted_map_refines demo_ops).
  repeat constructor; cbn; lia.
Defined.

Lemma ready_longest_run_witness :
  ∃ ready rest m', sm_Ready 5 demo_sorted_map = Ok (ready, m') ∧ abs m' rest ∧
    demo_pool_sorted = ready ++ rest ∧
    (∀ i t, ready !! i = Some t → tx_Nonce t = 5 + Z.of_nat i) ∧
    (∀ t, t ∈ rest → tx_Nonce t ≠ 5 + len ready).
Proof.
  apply (ready_longest_run demo_sorted_map (pool_tx 5 20 50000) (drop 1 demo_pool_sorted) 5).
  - apply demo_sorted_map_abs.
  - apply Forall_forall. intros t Ht. cbn in Ht. unfold is_u64. set_unfold.
    destruct Ht as [->|[->|[->|[->|[]]]]]; cbn; lia.
  - cbn. lia.
Defined.

(** [Cost]: the price of all the gas and the value. *)
Definition demo_Cost (tx : Transaction) : Z := tx_GasPrice tx * tx_Gas tx + tx_Value tx.
Definition demo_list : txList := mkTxList true demo_sorted_map 1000000 50000.

Lemma demo_list_abs : tl_abs demo_Cost demo_list demo_pool_sorted.
Proof.
  split; [apply demo_sorted_map_abs|..]; apply Forall_forall; intros t Ht; set_unfold;
    destruct Ht as [->|[->|[->|[->|[]]]]]; unfold demo_Cost, is_u64; cbn; lia.
Qed.

(** With 450000 to spend, nonces 5 and 9 go; the strict list keeps nothing after 5. *)
Lemma txlist_filter_exact_witness :
  filter (λ tx, over_limit demo_Cost 450000 100000 tx = true) demo_pool_sorted
    = [pool_tx 5 20 50000; pool_tx 9 30 21000] ∧
  ∃ removed invalids l' s', tl_Filter demo_Cost 450000 100000 demo_list = (removed, invalids, l') ∧
    tl_abs demo_Cost l' s' ∧ tl_strict l' = true ∧
    removed ≡ₚ filter (λ tx, over_limit demo_Cost 450000 100000 tx = true) demo_pool_sorted ∧
    invalids ++ s' ≡ₚ filter (λ tx, over_limit demo_Cost 450000 100000 tx = false) demo_pool_sorted ∧
    (true = false → invalids = []) ∧
    (true = true → ∃ rest, demo_pool_sorted = s' ++ rest ∧
       ∀ tx, head rest = Some tx → over_limit demo_Cost 450000 100000 tx = true).
Proof.
  split; [reflexivity|]. apply (txlist_filter_exact demo_Cost demo_list demo_pool_sorted), demo_list_abs.
Defined.

Lemma txlist_add_replaces_witness :
  (tl_Add demo_Cost (pool_tx 7 11 21000) 10 demo_list).1 = (true, Some (pool_tx 7 10 21000)) ∧
  (tl_Add demo_Cost (pool_tx 6 16 30000) 10 demo_list).1 = (true, Some (pool_tx 6 15 30000)) ∧
  (tl_Add demo_Cost (pool_tx 5 21 50000) 10 demo_list).1 = (false, None) ∧
  ∃ ok old l', tl_Add demo_Cost (pool_tx 5 21 50000) 10 demo_list = (ok, old, l') ∧
    (ok = true ↔ ∀ o, o ∈ demo_pool_sorted → tx_Nonce o = 5 →
       tx_GasPrice o < 21 ∧ (100 + 10) * tx_GasPrice o < 100 * (21 + 1)) ∧
    (ok = false → old = None ∧ l' = demo_list) ∧
    (ok = true → tl_abs demo_Cost l' (put_sorted (pool_tx 5 21 50000) demo_pool_sorted) ∧
       tl_strict l' = tl_strict demo_list ∧
       ∀ o, old = Some o ↔ o ∈ demo_pool_sorted ∧ tx_Nonce o = 5).
Proof.
  split; [vm_compute; reflexivity|]. split; [vm_compute; reflexivity|]. split; [vm_compute; reflexivity|].
  apply (txlist_add_replaces demo_Cost demo_list demo_pool_sorted (pool_tx 5 21 50000) 10).
  - apply demo_list_abs.
  - unfold is_u64. cbn. lia.
  - lia.
Defined.

(** Two live remote transactions and a stale one; the price identifies each. *)
Definition demo_hash (tx : Transaction) : list Z := [tx_GasPrice tx].
Definition demo_size (tx : Transaction) : Z := Z.max 0 (tx_Gas tx).
Definition demo_lookup : txLookup :=
  lk_Add demo_hash demo_size (pool_tx 3 10 21000) false
    (lk_Add demo_hash demo_size (pool_tx 1 30 40000) false newTxLookup).
Definition demo_priced : txPricedList :=
  mkPriced (heap_Init [pool_tx 1 30 40000; pool_tx 3 10 21000; pool_tx 8 5 90000]) 1.

Lemma discard_cheapest_witness :
  pl_Discard demo_hash demo_size demo_lookup 1 false demo_priced
    = Ok ([pool_tx 3 10 21000], true, mkPriced [pool_tx 1 30 40000] 0) ∧
  pl_Discard demo_hash demo_size demo_lookup 4 false demo_priced
    = Ok ([], false, mkPriced [pool_tx 3 10 21000; pool_tx 1 30 40000] 0) ∧
  ∃ dropped ok l', pl_Discard demo_hash demo_size demo_lookup 1 false demo_priced = Ok (dropped, ok, l') ∧
    evicted demo_hash demo_size demo_lookup 1 demo_priced l' dropped ∧
    (ok = false ↔ false = false ∧ slots_of demo_size
       (filter (λ tx, is_stale demo_hash demo_lookup tx = false) (pl_remotes demo_priced)) < 1) ∧
    (ok = true → false = false → 1 <= slots_of demo_size dropped).
Proof.
  split; [vm_compute; reflexivity|]. split; [vm_compute; reflexivity|].
  apply (discard_cheapest demo_hash demo_size demo_lookup 1 false demo_priced).
  - intros tx. unfold demo_size. lia.
  - apply heap_Init_spec.
Defined.
