(* ===== verification/Service.v ===== *)
(** * Events entering the node (gossip/c_event_callbacks.go, checker_helpers.go, the commit of
      gossip/store.go)

    An event that passed the checkers is saved, indexed and given to the consensus
    engine; the sets of heads and last events, the highest Lamport time, the emitter and
    the contexts of the checkers follow.  The vector clock, the engine and the emitter
    are interfaces. *)

From stdpp Require Import sorting.
From S2P Require Import Prelude Cser Inter Instances TxSer EventSer Heap Store Rules Pos EvmState GasPower EventCheck.
From S2P Require Import Shuffle Piecefunc Emitter EmitterTxs BlockProc.

(** ** Operations that fail after changing the state *)

Definition EM (S A : Type) : Type := S → res A * S.
#[global] Instance EM_ret {S} : MRet (EM S) := λ A a s, (Ok a, s).
#[global] Instance EM_bind {S} : MBind (EM S) := λ A B f m s,
  match m s with
  | (Ok a, s) => f a s
  | (Err e, s) => (Err e, s)
  | (Panic, s) => (Panic, s)
  end.
Definition em_get {S} : EM S S := λ s, (Ok s, s).
Definition em_modify {S} (f : S → S) : EM S unit := λ s, (Ok tt, f s).
Definition em_lift {S A} (r : res A) : EM S A := λ s, (r, s).
Definition em_throw {S A} (e : error) : EM S A := em_lift (Err e).

(** ** The interfaces *)

(** The vector clock: [Add] indexes an event until the next [Flush] or [DropNotFlushed]. *)
Class DagIndexer (EventID V D : Type) := {
  dx_Add : Event EventID → D → option error * D;
  dx_MedianTime : EventID → Z → D → res Z;
  dx_Flush : D → D;
  dx_DropNotFlushed : D → D;
  dx_Reset : V → D → D;
}.
Class DagIndexerLaws (EventID V D : Type) `{DagIndexer EventID V D} := {
  dx_clean : D → Prop;
  dx_Drop_Add : ∀ e d, dx_clean d → dx_DropNotFlushed (dx_Add e d).2 = d;
  dx_Drop_clean : ∀ d, dx_clean d → dx_DropNotFlushed d = d;
  dx_Flush_clean : ∀ d, dx_clean (dx_Flush d);
  dx_Reset_clean : ∀ v d, dx_clean (dx_Reset v d);
}.

(** The consensus engine with the block callbacks it runs, which decide the epoch. *)
Class Engine (EventID V W : Type) := {
  en_EpochState : W → EpochState V EventID;
  en_Build : baseEvent EventID → W → res Z;
  en_Process : EventPayload EventID → W → option error * W;
}.

(** An event that is refused does not decide anything. *)
Class EngineLaws (EventID V W : Type) `{Engine EventID V W} := {
  en_Process_refused : ∀ e w err w', en_Process e w = (Some err, w') → en_EpochState w' = en_EpochState w;
}.

Class EmitterHooks (EventID V M : Type) := {
  hk_OnEventConnected : EventPayload EventID → M → M;
  hk_OnNewEpoch : V → Z → M → M;
}.

(** The self-parent of an event does not depend on its frame or its identifier. *)
Class DagEventsLaws (EventID : Type) `{DagEvents EventID} := {
  SelfParent_fields : ∀ b b' : baseEvent EventID, Seq b = Seq b' → Parents b = Parents b' → SelfParent b = SelfParent b';
}.

(** ** uniqueID *)

(** [copy(id[:], u.counter.Bytes())] fills the array from its beginning. *)
Definition sample (counter : Z) : list Z * Z :=
  let counter := counter + 1 in
  (take 24 (big_Bytes counter ++ replicate 24 0), counter).

(** The bytes of one and of 256 begin with the same byte. *)
Example sample_collides : (sample 0).1 = (sample 255).1.
Proof. vm_compute. reflexivity. Qed.

Definition errStopped : error := NewError "service is stopped".
Definition errWrongMedianTime : error := NewError "wrong event median time".
Definition errWrongEpochHash : error := NewError "wrong event epoch hash".
Definition ErrNotEnoughGasPower : error := NewError "emitter.ErrNotEnoughGasPower".

(** ** Setters of an event under construction *)

Section setters.
Context {EventID : Type} `{EventIDs EventID}.
Notation Me := (MutableEventPayload EventID).

Definition with_ext (x : extEventData) (e : Me) : Me := mkMutableEventPayload (me_base e) x (me_sig e) (me_txs e).
Definition with_base (b : baseEvent EventID) (e : Me) : Me := mkMutableEventPayload b (me_ext e) (me_sig e) (me_txs e).

Definition SetID (h : list Z) (e : Me) : Me :=
  let b := me_base e in
  with_base (mkBaseEvent (Epoch b) (Seq b) (Frame b) (Creator b) (Lamport b) (Parents b) (mk_ID (Epoch b) (Lamport b) h)) e.
Definition SetFrame (f : Z) (e : Me) : Me :=
  let b := me_base e in
  with_base (mkBaseEvent (Epoch b) (Seq b) f (Creator b) (Lamport b) (Parents b) (ID b)) e.
Definition SetExtra (v : list Z) (e : Me) : Me :=
  let x := me_ext e in
  with_ext (mkExtEventData (creationTime x) (medianTime x) (prevEpochHash x) (txHash x) (gasPowerLeft x) (gasPowerUsed x) v) e.
Definition SetPrevEpochHash (v : option (list Z)) (e : Me) : Me :=
  let x := me_ext e in
  with_ext (mkExtEventData (creationTime x) (medianTime x) v (txHash x) (gasPowerLeft x) (gasPowerUsed x) (extra x)) e.
Definition SetMedianTime (v : Z) (e : Me) : Me :=
  let x := me_ext e in
  with_ext (mkExtEventData (creationTime x) v (prevEpochHash x) (txHash x) (gasPowerLeft x) (gasPowerUsed x) (extra x)) e.
Definition SetGasPowerUsed (v : Z) (e : Me) : Me :=
  let x := me_ext e in
  with_ext (mkExtEventData (creationTime x) (medianTime x) (prevEpochHash x) (txHash x) (gasPowerLeft x) v (extra x)) e.
Definition SetGasPowerLeft (v : GasPowerLeft) (e : Me) : Me :=
  let x := me_ext e in
  with_ext (mkExtEventData (creationTime x) (medianTime x) (prevEpochHash x) (txHash x) v (gasPowerUsed x) (extra x)) e.
End setters.

Section service.
Context {EventID : Type} `{EventIDs EventID} `{!Countable EventID} `{!DagEvents EventID} `{!EventBytes EventID}
  `{RlpBytes} `{IdxBytes} `{MapRange}.
Context {V : Type} `{Pos V} `{GasTable}.
Context {CE CH : Type} `{!Wlru EventID (EventPayload EventID) CE} `{!Wlru EventID (Event EventID) CH}.
Context {D W M : Type} `{!DagIndexer EventID V D} `{!Engine EventID V W} `{!EmitterHooks EventID V M}.
Variable sha256 : list Z → list Z.
Variable EmptyTxHash : list Z.
Variable deriveChainId : Z → Z.
Variable EpochState_Hash : EpochState V EventID → list Z.
Variable base_epoch : baseEvent EventID → res unit.
(** The tables of last events and heads of the database of an epoch. *)
Variable open_db : Z → option (list Z) * option (list Z).
Notation Ev := (EventPayload EventID).
Notation Me := (MutableEventPayload EventID).

Record Service := mkService {
  sv_stopped : bool;
  sv_events : EventStore CE CH;
  sv_epochStore : epochStore EventID;
  sv_HighestLamport : Z;
  sv_dagIndexer : D;
  sv_engine : W;
  sv_emitter : M;
  sv_gasCtx : ValidationContext V EventID;
  sv_pubKeys : gmap Z PubKey * Z;
  sv_uniqueID : Z;
  sv_newEpochs : list Z;
}.

Definition set_events (x : EventStore CE CH) (s : Service) : Service :=
  mkService (sv_stopped s) x (sv_epochStore s) (sv_HighestLamport s) (sv_dagIndexer s) (sv_engine s) (sv_emitter s)
    (sv_gasCtx s) (sv_pubKeys s) (sv_uniqueID s) (sv_newEpochs s).
Definition set_epochStore (x : epochStore EventID) (s : Service) : Service :=
  mkService (sv_stopped s) (sv_events s) x (sv_HighestLamport s) (sv_dagIndexer s) (sv_engine s) (sv_emitter s)
    (sv_gasCtx s) (sv_pubKeys s) (sv_uniqueID s) (sv_newEpochs s).
Definition set_HighestLamport (x : Z) (s : Service) : Service :=
  mkService (sv_stopped s) (sv_events s) (sv_epochStore s) x (sv_dagIndexer s) (sv_engine s) (sv_emitter s)
    (sv_gasCtx s) (sv_pubKeys s) (sv_uniqueID s) (sv_newEpochs s).
Definition set_dagIndexer (x : D) (s : Service) : Service :=
  mkService (sv_stopped s) (sv_events s) (sv_epochStore s) (sv_HighestLamport s) x (sv_engine s) (sv_emitter s)
    (sv_gasCtx s) (sv_pubKeys s) (sv_uniqueID s) (sv_newEpochs s).
Definition set_engine (x : W) (s : Service) : Service :=
  mkService (sv_stopped s) (sv_events s) (sv_epochStore s) (sv_HighestLamport s) (sv_dagIndexer s) x (sv_emitter s)
    (sv_gasCtx s) (sv_pubKeys s) (sv_uniqueID s) (sv_newEpochs s).
Definition set_emitter (x : M) (s : Service) : Service :=
  mkService (sv_stopped s) (sv_events s) (sv_epochStore s) (sv_HighestLamport s) (sv_dagIndexer s) (sv_engine s) x
    (sv_gasCtx s) (sv_pubKeys s) (sv_uniqueID s) (sv_newEpochs s).
Definition set_contexts (x : ValidationContext V EventID) (k : gmap Z PubKey * Z) (s : Service) : Service :=
  mkService (sv_stopped s) (sv_events s) (sv_epochStore s) (sv_HighestLamport s) (sv_dagIndexer s) (sv_engine s)
    (sv_emitter s) x k (sv_uniqueID s) (sv_newEpochs s).
Definition set_uniqueID (x : Z) (s : Service) : Service :=
  mkService (sv_stopped s) (sv_events s) (sv_epochStore s) (sv_HighestLamport s) (sv_dagIndexer s) (sv_engine s)
    (sv_emitter s) (sv_gasCtx s) (sv_pubKeys s) x (sv_newEpochs s).
Definition send_newEpoch (x : Z) (s : Service) : Service :=
  mkService (sv_stopped s) (sv_events s) (sv_epochStore s) (sv_HighestLamport s) (sv_dagIndexer s) (sv_engine s)
    (sv_emitter s) (sv_gasCtx s) (sv_pubKeys s) (sv_uniqueID s) (sv_newEpochs s ++ [x]).

(** [s.store.GetEpochState()] *)
Definition sv_es (s : Service) : EpochState V EventID := en_EpochState (sv_engine s).

(** The event store is read through its caches. *)
Definition svc_GetEvent (id : EventID) : EM Service (option (Event EventID)) := λ s,
  match GetEvent sha256 EmptyTxHash deriveChainId id (sv_events s) with
  | Ok (e, st) => (Ok e, set_events st s)
  | Err e => (Err e, s)
  | Panic => (Panic, s)
  end.

(** ** checker_helpers.go *)

Definition no_state : ValidatorState EventID := mkValidatorState None 0.

(** [validatorStates[i]] for every state of the epoch; the array has one entry per
    validator. *)
Fixpoint read_states (room : nat) (vals : list (ValidatorEpochState EventID)) {struct vals}
  : EM Service (list (ValidatorState EventID)) :=
  match vals, room with
  | [], _ => mret (replicate room no_state)
  | _ :: _, O => em_lift Panic
  | val :: vals, S room =>
      pe ← (if bool_decide (ves_PrevEpochEvent val = zero_ID) then mret None
            else svc_GetEvent (ves_PrevEpochEvent val));
      rest ← read_states room vals;
      mret (mkValidatorState pe (ves_GasRefund val) :: rest)
  end.

Definition gas_config (idx : Z) (r : GasPowerRules) (cfg : EconomyRules) : Config :=
  mkConfig idx (AllocPerSec r) (MaxAllocPeriod r) (MaxEventGas (GasR cfg)) (StartupAllocPeriod r) (MinStartupGas r).

Definition NewGasPowerContext (validators : V) (epoch : Z) (cfg : EconomyRules)
  : EM Service (ValidationContext V EventID) :=
  s ← em_get;
  let es := sv_es s in
  states ← read_states (Z.to_nat (vv_Len validators)) (es_ValidatorStates es);
  mret (mkValidationContext epoch
    [gas_config ShortTermGas (ShortGasPower cfg) cfg; gas_config LongTermGas (LongGasPower cfg) cfg]
    (es_EpochStart es) validators states).

Definition NewEpochPubKeys (es : EpochState V EventID) (epoch : Z) : gmap Z PubKey * Z :=
  (vPubKey <$> es_ValidatorProfiles es, epoch).

(** ** buildEvent *)

(** The bytes of the prefix of a version. *)
Definition version_prefix : list Z := [118; 45].

Definition buildEvent {A} (VersionToPublish : list Z) (onIndexed : D → Me → res A) (e : Me) : EM Service (A * Me) :=
  s ← em_get;
  let '(id, counter) := sample (sv_uniqueID s) in
  _ ← em_modify (set_uniqueID counter);
  let es := sv_es s in
  let e := SetID id e in
  let e := if (Seq (me_base e) <=? 1) && (0 <? len VersionToPublish) then
             let version := version_prefix ++ VersionToPublish in
             if u32 (len version) <=? MaxExtraData (Dag (es_Rules es)) then SetExtra version e else e
           else e in
  let e := if Lamport (me_base e) <=? 1 then SetPrevEpochHash (Some (EpochState_Hash es)) e else e in
  (* the deferred call drops what [Add] indexed *)
  let '(err, indexed) := dx_Add (ep_event (me_view e)) (sv_dagIndexer s) in
  _ ← em_modify (set_dagIndexer (dx_DropNotFlushed indexed));
  match err with
  | Some err => em_throw err
  | None =>
      a ← em_lift (onIndexed indexed e);
      median ← em_lift (dx_MedianTime (ID (me_base e)) (es_EpochStart es) indexed);
      let e := SetMedianTime median e in
      let e := SetGasPowerUsed (CalcGasPowerUsed (me_view e) (es_Rules es)) e in
      selfParent ← (match SelfParent (me_base e) with None => mret None | Some sp => svc_GetEvent sp end);
      availableGasPower ← em_lift (CalcGasPower (sv_gasCtx s) (ep_event (me_view e)) selfParent);
      if GasPowerLeft_Min availableGasPower <? gasPowerUsed (me_ext e) then em_throw ErrNotEnoughGasPower
      else
        let e := SetGasPowerLeft (GasPowerLeft_Sub availableGasPower (gasPowerUsed (me_ext e))) e in
        frame ← em_lift (en_Build (me_base e) (sv_engine s));
        mret (a, SetFrame frame e)
  end.

(** ** processEvent *)

Definition processEventHeads (heads : gset EventID) (e : Ev) : gset EventID :=
  heads ∖ list_to_set (Parents (ev_base (ep_event e))) ∪ {[ID (ev_base (ep_event e))]}.

Definition processLastEvent (lasts : gmap Z EventID) (e : Ev) : gmap Z EventID :=
  <[Creator (ev_base (ep_event e)) := ID (ev_base (ep_event e))]> lasts.

Definition svc_SetEvent (e : Ev) : EM Service unit := λ s,
  match SetEvent EmptyTxHash e (sv_events s) with
  | Ok st => (Ok tt, set_events st s)
  | Err err => (Err err, s)
  | Panic => (Panic, s)
  end.

Definition processSavedEvent (e : Ev) (es : EpochState V EventID) : EM Service unit :=
  s ← em_get;
  let '(err, d) := dx_Add (ep_event e) (sv_dagIndexer s) in
  _ ← em_modify (set_dagIndexer d);
  match err with
  | Some err => em_throw err
  | None =>
      median ← em_lift (dx_MedianTime (ID (ev_base (ep_event e))) (es_EpochStart es) d);
      if negb (medianTime (ev_ext (ep_event e)) =? median) then em_throw errWrongMedianTime
      else
        let '(err, w) := en_Process e (sv_engine s) in
        _ ← em_modify (set_engine w);
        match err with Some err => em_throw err | None => mret tt end
  end.

(** The event is deleted when its processing fails; what was indexed and not flushed
    is dropped at the end in any case. *)
Definition or_delete (e : Ev) (process : EM Service unit) : EM Service unit := λ s,
  match process s with
  | (Ok _, s) => (Ok tt, set_dagIndexer (dx_DropNotFlushed (dx_Flush (sv_dagIndexer s))) s)
  | (Err err, s) =>
      (Err err, set_dagIndexer (dx_DropNotFlushed (sv_dagIndexer s))
                  (set_events (DelEvent (ID (ev_base (ep_event e))) (sv_events s)) s))
  | (Panic, s) => (Panic, s)
  end.

Definition saveAndProcessEvent (e : Ev) (es : EpochState V EventID) : EM Service unit :=
  _ ← em_lift (fixEventTxHashes e);
  _ ← svc_SetEvent e;
  or_delete e (processSavedEvent e es).

(** The heads and last events of the epoch; nil for another epoch, and a use of nil panics. *)
Definition index_dag (oldEpoch : Z) (e : Ev) : EM Service unit :=
  s ← em_get;
  if negb (eps_epoch (sv_epochStore s) =? oldEpoch) then em_lift Panic
  else
    '(heads, eps) ← em_lift (GetHeads (sv_epochStore s));
    let eps := SetHeads (processEventHeads heads e) eps in
    '(lasts, eps) ← em_lift (GetLastEvents eps);
    em_modify (set_epochStore (SetLastEvents (processLastEvent lasts e) eps)).

Definition resetEpochStore (newEpoch : Z) : EM Service unit :=
  let '(lasts, heads) := open_db newEpoch in
  eps ← em_lift (newEpochStore newEpoch lasts heads);
  em_modify (set_epochStore eps).

Definition on_epoch_change (newEpoch : Z) : EM Service unit :=
  _ ← resetEpochStore newEpoch;
  s ← em_get;
  let es := sv_es s in
  _ ← em_modify (set_dagIndexer (dx_Reset (es_Validators es) (sv_dagIndexer s)));
  ctx ← NewGasPowerContext (es_Validators es) newEpoch (Economy (es_Rules es));
  _ ← em_modify (set_contexts ctx (NewEpochPubKeys es newEpoch));
  s ← em_get;
  _ ← em_modify (set_emitter (hk_OnNewEpoch (es_Validators es) newEpoch (sv_emitter s)));
  em_modify (send_newEpoch newEpoch).

Record StoreConfig := mkStoreConfig { MaxNonFlushedSize : Z; MaxNonFlushedPeriod : Z }.

Definition IsCommitNeeded (cfg : StoreConfig) (sinceFlush notFlushed : Z) (epochSealing : bool) : bool :=
  let period := MaxNonFlushedPeriod cfg in
  let size := Z.quot (MaxNonFlushedSize cfg) 2 in
  let '(period, size) := if epochSealing then (Z.quot period 2, Z.quot size 2) else (period, size) in
  (period <? sinceFlush) || (size <? notFlushed).

(** What the epoch's database gets; [flushed] is the answer of the databases. *)
Definition Commit (flushed : res unit) : EM Service unit :=
  s ← em_get;
  _ ← em_modify (set_epochStore (FlushLastEvents (FlushHeads (sv_epochStore s))));
  em_lift flushed.

(** The second half of [processEvent]: the event is connected, and the engine may have
    changed the epoch. *)
Definition event_connected (cfg : StoreConfig) (sinceFlush notFlushed : Z) (flushed : res unit) (oldEpoch : Z) (e : Ev)
  : EM Service unit :=
  s ← em_get;
  let newEpoch := es_Epoch (sv_es s) in
  _ ← index_dag oldEpoch e;
  _ ← em_modify (λ s, if negb (newEpoch =? oldEpoch) then set_HighestLamport 0 s
                      else if sv_HighestLamport s <? Lamport (ev_base (ep_event e))
                           then set_HighestLamport (Lamport (ev_base (ep_event e))) s
                           else s);
  _ ← em_modify (λ s, set_emitter (hk_OnEventConnected e (sv_emitter s)) s);
  _ ← (if negb (newEpoch =? oldEpoch) then on_epoch_change newEpoch else mret tt);
  if IsCommitNeeded cfg sinceFlush notFlushed (negb (newEpoch =? oldEpoch)) then Commit flushed else mret tt.

(** [es] is read before the event is processed. *)
Definition processEvent (cfg : StoreConfig) (sinceFlush notFlushed : Z) (flushed : res unit) (e : Ev)
  : EM Service unit :=
  s ← em_get;
  if sv_stopped s then em_throw errStopped
  else if HasEvent (ID (ev_base (ep_event e))) (sv_events s) then em_throw ErrAlreadyConnectedEvent
  else
    let es := sv_es s in
    let oldEpoch := es_Epoch es in
    _ ← em_lift (epoch_Validate base_epoch (es_Rules es, oldEpoch) e);
    match prevEpochHash (ev_ext (ep_event e)) with
    | Some h =>
        if bool_decide (h = EpochState_Hash es) then mret tt
        else
          _ ← em_modify (λ s, set_events (DelEvent (ID (ev_base (ep_event e))) (sv_events s)) s);
          em_throw errWrongEpochHash
    | None => mret tt
    end;;
    _ ← saveAndProcessEvent e es;
    event_connected cfg sinceFlush notFlushed flushed oldEpoch e.
End service.

(** ** What acceptance and refusal of an event leave behind *)

Section em.
Context {S A B : Type}.

Lemma em_bind_Ok (m : EM S A) (f : A → EM S B) s b s' :
  (m ≫= f) s = (Ok b, s') → ∃ a s1, m s = (Ok a, s1) ∧ f a s1 = (Ok b, s').
Proof. cbv [mbind EM_bind]. destruct (m s) as [[a| |] s1]; try done. by exists a, s1. Qed.

Lemma em_bind_Err (m : EM S A) (f : A → EM S B) s err s' :
  (m ≫= f) s = (Err err, s') → m s = (Err err, s') ∨ ∃ a s1, m s = (Ok a, s1) ∧ f a s1 = (Err err, s').
Proof. cbv [mbind EM_bind]. destruct (m s) as [[a| |] s1]; try naive_solver. Qed.

Lemma em_bind_run (m : EM S A) (f : A → EM S B) s a s1 : m s = (Ok a, s1) → (m ≫= f) s = f a s1.
Proof. cbv [mbind EM_bind]. by intros ->. Qed.

Lemma em_bind_modify (g : S → S) (f : unit → EM S B) s : (em_modify g ≫= f) s = f tt (g s).
Proof. done. Qed.

Lemma em_bind_get (f : S → EM S B) s : (em_get ≫= f) s = f s s.
Proof. done. Qed.
End em.

Section correct.
Context {EventID : Type} `{EventIDsLaws EventID} `{!Countable EventID} `{!DagEvents EventID} `{!EventBytes EventID}
  `{!EventBytesLaws EventID} `{RlpBytesLaws} `{IdxBytesLaws} `{MapRangeLaws}.
Context {V : Type} `{Pos V} `{GasTable}.
Context {CE CH : Type} `{!Wlru EventID (EventPayload EventID) CE} `{!Wlru EventID (Event EventID) CH}.
Context `{!WlruLaws EventID (EventPayload EventID) CE} `{!WlruLaws EventID (Event EventID) CH}.
Context {D W M : Type} `{!DagIndexer EventID V D} `{!DagIndexerLaws EventID V D} `{!Engine EventID V W}
  `{!EngineLaws EventID V W} `{!EmitterHooks EventID V M}.
Variable sha256 : list Z → list Z.
Variable EmptyTxHash : list Z.
Variable deriveChainId : Z → Z.
Variable EpochState_Hash : EpochState V EventID → list Z.
Variable base_epoch : baseEvent EventID → res unit.
Variable open_db : Z → option (list Z) * option (list Z).
Notation Ev := (EventPayload EventID).
Notation Sv := (Service (EventID := EventID) (V := V) (CE := CE) (CH := CH) (D := D) (W := W) (M := M)).
Notation holds := (stored sha256 EmptyTxHash deriveChainId).
Notation ok := (storable sha256 EmptyTxHash deriveChainId).
Notation eid e := (ID (ev_base (ep_event e))).

Lemma svc_GetEvent_run m id (s : Sv) :
  holds m (sv_events s) →
  ∃ st, svc_GetEvent sha256 EmptyTxHash deriveChainId id s = (Ok (ep_event <$> m !! id), set_events st s) ∧ holds m st.
Proof.
  intros Hs. unfold svc_GetEvent.
  destruct (GetEvent_stored sha256 EmptyTxHash deriveChainId m (sv_events s) id Hs) as (st & -> & Hst). by exists st.
Qed.

Lemma svc_SetEvent_run m e (s : Sv) :
  holds m (sv_events s) → ok e →
  ∃ st, svc_SetEvent EmptyTxHash e s = (Ok tt, set_events st s) ∧ holds (<[eid e := e]> m) st.
Proof.
  intros Hs He. unfold svc_SetEvent.
  destruct (SetEvent_stored sha256 EmptyTxHash deriveChainId m (sv_events s) e Hs He) as (st & -> & Hst). by exists st.
Qed.

(** Processing changes the index and the engine, and on success both know the event. *)
Lemma processSavedEvent_inv e es (s s' : Sv) r :
  processSavedEvent e es s = (r, s') →
  ∃ d w, s' = set_dagIndexer d (set_engine w s) ∧ d = (dx_Add (ep_event e) (sv_dagIndexer s)).2 ∧
    (r ≠ Ok tt → en_EpochState w = en_EpochState (sv_engine s)) ∧
    (r = Ok tt →
       (dx_Add (ep_event e) (sv_dagIndexer s)).1 = None ∧
       dx_MedianTime (eid e) (es_EpochStart es) d = Ok (medianTime (ev_ext (ep_event e))) ∧
       en_Process e (sv_engine s) = (None, w)).
Proof.
  unfold processSavedEvent. rewrite em_bind_get. destruct (dx_Add _ _) as [err d] eqn:Ea. rewrite em_bind_modify.
  assert (Hw : ∀ s : Sv, set_engine (sv_engine s) s = s) by by intros [].
  destruct err as [err|]; [intros [= <- <-]; exists d, (sv_engine s); split; [|done]; by destruct s|].
  cbv [mbind EM_bind em_lift]. destruct (dx_MedianTime _ _ d) as [median| |] eqn:Em; cbn [fst snd];
    [|intros [= <- <-]; exists d, (sv_engine s); split; [by destruct s|done]..].
  destruct (Z.eqb_spec (medianTime (ev_ext (ep_event e))) median) as [Eq|]; cbn [negb];
    [|intros [= <- <-]; exists d, (sv_engine s); split; [by destruct s|done]].
  destruct (en_Process e (sv_engine s)) as [[err|] w] eqn:Ep; intros [= <- <-]; exists d, w.
  - split; [by destruct s|]. split; [done|]. split; [|done]. intros _. by eapply en_Process_refused.
  - split; [by destruct s|]. split; [done|]. split; [done|]. intros _. by rewrite Em, Eq.
Qed.

(** An event that is refused leaves the events and the index as they were. *)
Lemma saveAndProcessEvent_Err m e es (s s' : Sv) err :
  holds m (sv_events s) → ok e → m !! eid e = None → dx_clean (sv_dagIndexer s) →
  saveAndProcessEvent EmptyTxHash e es s = (Err err, s') →
  ∃ st w, s' = set_engine w (set_events st s) ∧ holds m st ∧ en_EpochState w = en_EpochState (sv_engine s).
Proof.
  intros Hs He Hn Hc E. unfold saveAndProcessEvent in E. rewrite (so_fix _ _ _ e He) in E.
  destruct (svc_SetEvent_run m e s Hs He) as (st & Es & Hst).
  rewrite (em_bind_run _ _ s e s), (em_bind_run _ _ s tt (set_events st s)) in E by done.
  unfold or_delete in E. destruct (processSavedEvent e es (set_events st s)) as [r s1] eqn:Ep.
  apply processSavedEvent_inv in Ep as (d & w & -> & -> & Hes & _). destruct r as [?|?|]; try done. injection E as <- <-.
  specialize (Hes ltac:(done)).
  exists (DelEvent (eid e) st), w. split.
  - cbn [sv_dagIndexer set_dagIndexer set_events sv_events set_engine]. rewrite dx_Drop_Add by done. by destruct s.
  - split; [|by rewrite Hes]. apply DelEvent_stored with (id := eid e) in Hst. by rewrite delete_insert_id in Hst.
Qed.

Lemma saveAndProcessEvent_Ok m e es (s s' : Sv) :
  holds m (sv_events s) → ok e → saveAndProcessEvent EmptyTxHash e es s = (Ok tt, s') →
  ∃ st d w, s' = set_dagIndexer d (set_engine w (set_events st s)) ∧ holds (<[eid e := e]> m) st ∧ dx_clean d ∧
    dx_MedianTime (eid e) (es_EpochStart es) (dx_Add (ep_event e) (sv_dagIndexer s)).2
      = Ok (medianTime (ev_ext (ep_event e))) ∧
    en_Process e (sv_engine s) = (None, w).
Proof.
  intros Hs He E. unfold saveAndProcessEvent in E. rewrite (so_fix _ _ _ e He) in E.
  destruct (svc_SetEvent_run m e s Hs He) as (st & Es & Hst).
  rewrite (em_bind_run _ _ s e s), (em_bind_run _ _ s tt (set_events st s)) in E by done.
  unfold or_delete in E. destruct (processSavedEvent e es (set_events st s)) as [r s1] eqn:Ep.
  apply processSavedEvent_inv in Ep as (d & w & -> & -> & _ & Hok). destruct r as [[]|?|]; try done. injection E as <-.
  destruct (Hok eq_refl) as (_ & Hm & Hp).
  eexists st, _, w. split; [by destruct s|]. split; [done|]. split; [|done].
  cbn [sv_dagIndexer set_dagIndexer]. rewrite dx_Drop_clean by apply dx_Flush_clean. apply dx_Flush_clean.
Qed.

(** *** The DAG of the epoch *)

(** The events without a child among the connected ones. *)
Definition dag_heads (evs : list Ev) : gset EventID :=
  list_to_set ((λ e, eid e) <$> evs) ∖ ⋃ ((λ e, list_to_set (Parents (ev_base (ep_event e)))) <$> evs).

(** The last connected event of a validator. *)
Definition last_of (evs : list Ev) (v : Z) : option EventID :=
  (λ e, eid e) <$> last (filter (λ e, Creator (ev_base (ep_event e)) = v) evs).

Definition highest_lamport (evs : list Ev) : Z := foldl (λ h e, Z.max h (Lamport (ev_base (ep_event e)))) 0 evs.

Record dag_state (evs : list Ev) (m : gmap EventID Ev) (s : Sv) : Prop := {
  dg_stored : holds m (sv_events s);
  dg_epoch : eps_epoch (sv_epochStore s) = es_Epoch (sv_es s);
  dg_heads : eps_cHeads (sv_epochStore s) = Some (dag_heads evs);
  dg_lasts : ∃ lasts, eps_cLastEvents (sv_epochStore s) = Some lasts ∧ ∀ v, lasts !! v = last_of evs v;
  dg_lamport : sv_HighestLamport s = highest_lamport evs;
  dg_clean : dx_clean (sv_dagIndexer s);
  dg_known : ∀ e, e ∈ evs → m !! eid e = Some e;
  dg_closed : ∀ e p, e ∈ evs → p ∈ Parents (ev_base (ep_event e)) → is_Some (m !! p);
}.

Lemma dag_heads_snoc evs e :
  (∀ e' , e' ∈ evs → eid e ∉ Parents (ev_base (ep_event e'))) → eid e ∉ Parents (ev_base (ep_event e)) →
  processEventHeads (dag_heads evs) e = dag_heads (evs ++ [e]).
Proof.
  intros Hc Hs. unfold processEventHeads, dag_heads. apply set_eq. intros id.
  rewrite !fmap_app, union_list_app_L. cbn [fmap list_fmap union_list]. rewrite list_to_set_app_L.
  assert (Hnp : eid e ∉ ⋃ ((λ e : Ev, list_to_set (Parents (ev_base (ep_event e))) : gset EventID) <$> evs)).
  { rewrite elem_of_union_list. intros (X & (e' & -> & He')%list_elem_of_fmap & Hin%elem_of_list_to_set).
    by apply (Hc e'). }
  set_solver.
Qed.

Lemma last_of_snoc evs e v lasts :
  (∀ v, lasts !! v = last_of evs v) → processLastEvent lasts e !! v = last_of (evs ++ [e]) v.
Proof.
  intros Hl. unfold processLastEvent, last_of. rewrite filter_app. cbn [filter list_filter].
  destruct (decide (Creator (ev_base (ep_event e)) = v)) as [->|Hne].
  - by rewrite lookup_insert_eq, last_snoc.
  - by rewrite lookup_insert_ne, app_nil_r.
Qed.

Lemma index_dag_run e (s : Sv) heads lasts :
  eps_cHeads (sv_epochStore s) = Some heads → eps_cLastEvents (sv_epochStore s) = Some lasts →
  index_dag (eps_epoch (sv_epochStore s)) e s
  = (Ok tt, set_epochStore (SetLastEvents (processLastEvent lasts e) (SetHeads (processEventHeads heads e) (sv_epochStore s))) s).
Proof.
  intros Eh El. unfold index_dag. rewrite em_bind_get, Z.eqb_refl. cbn [negb]. unfold GetHeads. rewrite Eh.
  cbv [mbind EM_bind em_lift em_modify]. unfold GetLastEvents, SetHeads. cbn [eps_cLastEvents]. by rewrite El.
Qed.

Definition state_of (m : gmap EventID Ev) (val : ValidatorEpochState EventID) : ValidatorState EventID :=
  mkValidatorState (if bool_decide (ves_PrevEpochEvent val = zero_ID) then None
                    else ep_event <$> m !! ves_PrevEpochEvent val) (ves_GasRefund val).

(** The context of the gas power check holds what the store knows of each validator. *)
Lemma read_states_run m room vals (s : Sv) :
  holds m (sv_events s) →
  ∃ st, holds m st ∧ read_states sha256 EmptyTxHash deriveChainId room vals s
    = (if (length vals <=? room)%nat then Ok ((state_of m <$> vals) ++ replicate (room - length vals) no_state) else Panic,
       set_events st s).
Proof.
  revert room s. induction vals as [|val vals IH]; intros room s Hs; cbn [read_states].
  { exists (sv_events s). split; [done|]. cbn [length fmap list_fmap app Nat.leb]. rewrite Nat.sub_0_r. by destruct s. }
  destruct room as [|room]; [exists (sv_events s); split; [done|]; by destruct s|].
  set (get := if bool_decide _ then _ else _).
  assert (Hget : ∃ st, holds m st ∧ get s = (Ok (PrevEpochEvent (state_of m val)), set_events st s)).
  { unfold get, state_of. cbn [PrevEpochEvent]. case_bool_decide.
    - exists (sv_events s). split; [done|]. by destruct s.
    - destruct (svc_GetEvent_run m (ves_PrevEpochEvent val) s Hs) as (st & -> & Hst). by exists st. }
  destruct Hget as (st & Hst & Hget). rewrite (em_bind_run _ _ _ _ _ Hget).
  destruct (IH room (set_events st s) Hst) as (st' & Hst' & E). exists st'. split; [done|].
  cbv [mbind EM_bind]. rewrite E. cbn [length Nat.leb Nat.sub]. by destruct (length vals <=? room)%nat.
Qed.

Lemma NewGasPowerContext_run m validators epoch cfg (s : Sv) :
  holds m (sv_events s) →
  ∃ st, holds m st ∧ NewGasPowerContext sha256 EmptyTxHash deriveChainId validators epoch cfg s
    = (if (length (es_ValidatorStates (sv_es s)) <=? length (vv_IDs validators))%nat
       then Ok (mkValidationContext epoch
         [gas_config ShortTermGas (ShortGasPower cfg) cfg; gas_config LongTermGas (LongGasPower cfg) cfg]
         (es_EpochStart (sv_es s)) validators
         ((state_of m <$> es_ValidatorStates (sv_es s))
          ++ replicate (length (vv_IDs validators) - length (es_ValidatorStates (sv_es s))) no_state))
       else Panic, set_events st s).
Proof.
  intros Hs. unfold NewGasPowerContext. rewrite em_bind_get. unfold vv_Len, len. rewrite Nat2Z.id.
  destruct (read_states_run m (length (vv_IDs validators)) (es_ValidatorStates (sv_es s)) s Hs) as (st & Hst & E).
  exists st. split; [done|]. cbv [mbind EM_bind]. rewrite E. by destruct (_ <=? _)%nat.
Qed.

(** The new epoch starts without events, and every part of the node is told. *)
Record epoch_started (m : gmap EventID Ev) (epoch : Z) (s s' : Sv) : Prop := {
  eo_state : dag_state [] m s';
  eo_engine : sv_engine s' = sv_engine s;
  eo_ctx_epoch : ctx_Epoch (sv_gasCtx s') = epoch;
  eo_ctx_validators : ctx_Validators (sv_gasCtx s') = es_Validators (sv_es s);
  eo_ctx_start : ctx_EpochStart (sv_gasCtx s') = es_EpochStart (sv_es s);
  eo_ctx_len : (length (es_ValidatorStates (sv_es s)) <= length (vv_IDs (es_Validators (sv_es s))))%nat ∧
    length (ctx_ValidatorStates (sv_gasCtx s')) = length (vv_IDs (es_Validators (sv_es s)));
  eo_ctx_states : ∀ i val, es_ValidatorStates (sv_es s) !! i = Some val →
    ctx_ValidatorStates (sv_gasCtx s') !! i = Some (state_of m val);
  eo_keys : sv_pubKeys s' = (vPubKey <$> es_ValidatorProfiles (sv_es s), epoch);
  eo_emitter : sv_emitter s' = hk_OnNewEpoch (es_Validators (sv_es s)) epoch (sv_emitter s);
  eo_feed : sv_newEpochs s' = sv_newEpochs s ++ [epoch];
}.

Lemma on_epoch_change_inv m (s s' : Sv) r :
  holds m (sv_events s) → sv_HighestLamport s = 0 → open_db (es_Epoch (sv_es s)) = (None, None) →
  on_epoch_change sha256 EmptyTxHash deriveChainId open_db (es_Epoch (sv_es s)) s = (r, s') →
  r = Panic ∨ r = Ok tt ∧ epoch_started m (es_Epoch (sv_es s)) s s'.
Proof.
  intros Hs Hl Ho. unfold on_epoch_change, resetEpochStore. rewrite Ho.
  set (eps := mkEpochStore (es_Epoch (sv_es s)) None None (Some ∅) (Some ∅) : epochStore EventID).
  rewrite (em_bind_run _ _ s tt (set_epochStore eps s)) by done. rewrite em_bind_get, em_bind_modify.
  set (s1 := set_dagIndexer _ _).
  destruct (NewGasPowerContext_run m (es_Validators (sv_es s)) (es_Epoch (sv_es s)) (Economy (es_Rules (sv_es s))) s1 Hs)
    as (st & Hst & E).
  change (sv_es (set_epochStore eps s)) with (sv_es s). cbv [mbind EM_bind]. rewrite E. clear E.
  change (sv_es s1) with (sv_es s). destruct (Nat.leb_spec (length (es_ValidatorStates (sv_es s))) (length (vv_IDs (es_Validators (sv_es s)))));
    intros [= <- <-]; [right|by left]. split; [done|].
  split; cbn [sv_engine set_events set_contexts set_emitter send_newEpoch sv_gasCtx ctx_Epoch ctx_Validators ctx_EpochStart
    ctx_ValidatorStates sv_pubKeys sv_emitter sv_newEpochs]; try done.
  - split; cbn [sv_events set_events sv_epochStore sv_HighestLamport sv_dagIndexer]; try done.
    + exists ∅. split; [done|]. intros v. by rewrite lookup_empty.
    + apply dx_Reset_clean.
    + set_solver.
    + set_solver.
  - split; [done|]. rewrite length_app, length_fmap, length_replicate. lia.
  - intros i val Hi. apply lookup_app_l_Some. rewrite list_lookup_fmap, Hi. done.
Qed.

Lemma dag_state_commit evs m (s : Sv) :
  dag_state evs m s → dag_state evs m (set_epochStore (FlushLastEvents (FlushHeads (sv_epochStore s))) s).
Proof.
  intros [Hs He Hh (lasts & El & Hl) Hlam Hc Hk Hp]. unfold FlushLastEvents, FlushHeads. rewrite Hh. cbn [eps_cLastEvents].
  rewrite El. split; try done. by exists lasts.
Qed.

Lemma dag_state_events evs m (s : Sv) st w :
  dag_state evs m s → holds m st → en_EpochState w = en_EpochState (sv_engine s) →
  dag_state evs m (set_engine w (set_events st s)).
Proof.
  intros [Hs He Hh Hl Hlam Hc Hk Hp] Hst Hw. split; try done. unfold sv_es in *. cbn. by rewrite Hw.
Qed.

(** Connecting an event of the epoch. *)
Lemma dag_state_connect evs m e (s s1 : Sv) :
  dag_state evs m s → m !! eid e = None → (∀ p, p ∈ Parents (ev_base (ep_event e)) → is_Some (m !! p)) →
  holds (<[eid e := e]> m) (sv_events s1) → dx_clean (sv_dagIndexer s1) →
  sv_epochStore s1 = sv_epochStore s → es_Epoch (sv_es s1) = es_Epoch (sv_es s) → sv_HighestLamport s1 = sv_HighestLamport s →
  ∃ lasts, eps_cLastEvents (sv_epochStore s) = Some lasts ∧
  let eps := SetLastEvents (processLastEvent lasts e) (SetHeads (processEventHeads (dag_heads evs) e) (sv_epochStore s)) in
  let h := if sv_HighestLamport s <? Lamport (ev_base (ep_event e)) then Lamport (ev_base (ep_event e)) else sv_HighestLamport s in
  dag_state (evs ++ [e]) (<[eid e := e]> m) (set_HighestLamport h (set_epochStore eps s1)).
Proof.
  intros [Hs He Hh (lasts & El & Hl) Hlam Hc Hk Hp] Hn Hpar Hst Hcl Heps Hep Hhl. exists lasts. split; [done|].
  intros eps h. split; cbn [sv_events sv_epochStore sv_HighestLamport sv_dagIndexer set_HighestLamport set_epochStore]; try done.
  - unfold eps. cbn [eps_epoch SetLastEvents SetHeads]. rewrite He. by rewrite <- Hep.
  - unfold eps. cbn [eps_cHeads SetLastEvents SetHeads]. f_equal. apply dag_heads_snoc.
    + intros e' He' Hin. destruct (Hp e' _ He' Hin). congruence.
    + intros Hin. destruct (Hpar _ Hin). congruence.
  - exists (processLastEvent lasts e). split; [done|]. intros v. by apply last_of_snoc.
  - unfold h, highest_lamport. rewrite foldl_app. cbn [foldl]. fold (highest_lamport evs). rewrite <- Hlam.
    destruct (Z.ltb_spec (sv_HighestLamport s) (Lamport (ev_base (ep_event e)))); lia.
  - intros e' [He'|He']%elem_of_app; [|apply list_elem_of_singleton in He' as ->; by rewrite lookup_insert_eq].
    rewrite lookup_insert_ne; [by apply Hk|]. intros E. specialize (Hk e' He'). congruence.
  - intros e' q He' Hq. assert (Hm : is_Some (m !! q)).
    { apply elem_of_app in He' as [He'|He']; [by eapply Hp|]. apply list_elem_of_singleton in He' as ->. by apply Hpar. }
    destruct (decide (eid e = q)) as [->|Hne]; [rewrite lookup_insert_eq|rewrite lookup_insert_ne by done]; done.
Qed.

Notation run := (processEvent sha256 EmptyTxHash deriveChainId EpochState_Hash base_epoch open_db).

(** What the checks at the door and the processing of a connected event say. *)
Record admitted (m : gmap EventID Ev) (e : Ev) (s : Sv) (w : W) : Prop := {
  ad_running : sv_stopped s = false;
  ad_new : m !! eid e = None;
  ad_valid : epoch_Validate base_epoch (es_Rules (sv_es s), es_Epoch (sv_es s)) e = Ok tt;
  ad_hash : ∀ h, prevEpochHash (ev_ext (ep_event e)) = Some h → h = EpochState_Hash (sv_es s);
  ad_median : dx_MedianTime (eid e) (es_EpochStart (sv_es s)) (dx_Add (ep_event e) (sv_dagIndexer s)).2
    = Ok (medianTime (ev_ext (ep_event e)));
  ad_engine : en_Process e (sv_engine s) = (None, w);
}.


(** How the state after the event is connected relates to the one before. *)
Definition connected_to (evs : list Ev) (m : gmap EventID Ev) (e : Ev) (s : Sv) (w : W) (s' : Sv) : Prop :=
  sv_engine s' = w ∧
  if es_Epoch (en_EpochState w) =? es_Epoch (sv_es s) then
    dag_state (evs ++ [e]) (<[eid e := e]> m) s' ∧
    sv_emitter s' = hk_OnEventConnected e (sv_emitter s) ∧
    sv_gasCtx s' = sv_gasCtx s ∧ sv_pubKeys s' = sv_pubKeys s ∧ sv_newEpochs s' = sv_newEpochs s
  else
    ∃ s1, sv_engine s1 = w ∧ sv_emitter s1 = hk_OnEventConnected e (sv_emitter s) ∧ sv_newEpochs s1 = sv_newEpochs s ∧
      epoch_started (<[eid e := e]> m) (es_Epoch (en_EpochState w)) s1 s'.

(** The answer is that of the databases when they are asked. *)
Lemma commit_connected evs m e (s s2 s' : Sv) w (b : bool) flushed r :
  connected_to evs m e s w s2 → (if b then Commit flushed else mret tt) s2 = (r, s') →
  (r = Ok tt ∨ r = flushed) ∧ connected_to evs m e s w s'.
Proof.
  intros Hc. destruct b; [|intros [= <- <-]; by split; [left|]]. cbv [Commit mbind EM_bind em_get em_modify em_lift]. intros [= <- <-].
  split; [by right|]. destruct Hc as [Hw Hc]. split; [done|]. destruct (_ =? _).
  - destruct Hc as [Hd Hc]. split; [by apply dag_state_commit|done].
  - destruct Hc as (s1 & H1' & H2' & H3' & [Hd ? ? ? ? ? ? ? ? ?]). exists s1. split_and!; try done.
    split; try done. by apply dag_state_commit.
Qed.

Lemma event_connected_inv evs m e (s s1 s' : Sv) cfg since size flushed r :
  dag_state evs m s → m !! eid e = None → (∀ p, p ∈ Parents (ev_base (ep_event e)) → is_Some (m !! p)) →
  open_db (es_Epoch (sv_es s1)) = (None, None) →
  holds (<[eid e := e]> m) (sv_events s1) → dx_clean (sv_dagIndexer s1) →
  s1 = set_dagIndexer (sv_dagIndexer s1) (set_engine (sv_engine s1) (set_events (sv_events s1) s)) →
  event_connected sha256 EmptyTxHash deriveChainId open_db cfg since size flushed (es_Epoch (sv_es s)) e s1 = (r, s') →
  r = Panic ∨ (r = Ok tt ∨ r = flushed) ∧ connected_to evs m e s (sv_engine s1) s'.
Proof.
  intros Hd Hnew Hpar Hdb Hst Hcl Es1. unfold event_connected. rewrite em_bind_get.
  assert (Heps : sv_epochStore s1 = sv_epochStore s) by by rewrite Es1.
  assert (Hhl : sv_HighestLamport s1 = sv_HighestLamport s) by by rewrite Es1.
  assert (Hem : sv_emitter s1 = sv_emitter s) by by rewrite Es1.
  assert (Hrest : sv_gasCtx s1 = sv_gasCtx s ∧ sv_pubKeys s1 = sv_pubKeys s ∧ sv_newEpochs s1 = sv_newEpochs s) by by rewrite Es1.
  clear Es1. destruct (dg_lasts _ _ _ Hd) as (lasts & El & _).
  rewrite <- (dg_epoch _ _ _ Hd), <- Heps.
  rewrite (em_bind_run _ _ _ _ _ (index_dag_run e s1 (dag_heads evs) lasts ltac:(rewrite Heps; apply Hd) ltac:(by rewrite Heps))).
  rewrite !em_bind_modify. rewrite Heps, (dg_epoch _ _ _ Hd). destruct (Z.eqb_spec (es_Epoch (sv_es s1)) (es_Epoch (sv_es s))) as [Ee|Ene]; cbn [negb].
  - rewrite (em_bind_run _ _ _ tt _) by done. intros E. right. eapply commit_connected; [|exact E]. clear E.
    unfold connected_to. change (en_EpochState (sv_engine s1)) with (sv_es s1). rewrite Ee, Z.eqb_refl.
    destruct (dag_state_connect evs m e s s1 Hd Hnew Hpar Hst Hcl Heps Ee Hhl) as (lasts' & El' & Hd').
    rewrite El in El'. injection El' as <-. cbn [sv_HighestLamport set_epochStore]. rewrite Hhl.
    destruct (sv_HighestLamport s <? _); (split; [done|]); (split; [|cbn; by rewrite Hem]).
    + by destruct Hd'.
    + destruct Hd'. split; try done. cbn in *. by rewrite Hhl.
  - intros E.
    set (s2 := set_emitter _ (set_HighestLamport 0 _)) in E.
    cbv [mbind EM_bind] in E.
    destruct (on_epoch_change sha256 EmptyTxHash deriveChainId open_db (es_Epoch (sv_es s1)) s2) as [r2 s3] eqn:Ec.
    apply (on_epoch_change_inv (<[eid e := e]> m) s2 s3 r2) in Ec; [|done..].
    destruct Ec as [->|[-> Hst2]]; [injection E as <- <-; by left|]. right.
    eapply commit_connected; [|exact E]. split; [by apply Hst2|]. change (en_EpochState (sv_engine s1)) with (sv_es s1).
    rewrite (proj2 (Z.eqb_neq _ _)) by done. exists s2. split_and!; try done; cbn; [by rewrite Hem|naive_solver].
Qed.

(** The three outcomes of [processEvent]: a panic, a refusal, a connected event; in the last
    case the commit that follows may still report an error. *)
Lemma processEvent_inv evs m e (s s' : Sv) cfg since size flushed r :
  dag_state evs m s → ok e → (∀ p, p ∈ Parents (ev_base (ep_event e)) → is_Some (m !! p)) →
  (∀ w, en_Process e (sv_engine s) = (None, w) → open_db (es_Epoch (en_EpochState w)) = (None, None)) →
  run cfg since size flushed e s = (r, s') →
  r = Panic ∨
  (∃ err st w, r = Err err ∧ s' = set_engine w (set_events st s) ∧ holds m st ∧
     en_EpochState w = en_EpochState (sv_engine s)) ∨
  ((r = Ok tt ∨ r = flushed) ∧ ∃ w, admitted m e s w ∧ connected_to evs m e s w s').
Proof.
  intros Hd He Hpar Hdb. pose proof (dg_stored _ _ _ Hd) as Hs. unfold processEvent. rewrite em_bind_get.
  assert (Hsame : ∃ st w, s = set_engine w (set_events st s) ∧ holds m st ∧ en_EpochState w = en_EpochState (sv_engine s)).
  { exists (sv_events s), (sv_engine s). split_and!; [by destruct s|done..]. }
  destruct Hsame as (st0 & w0 & Esame & Hst0 & Hw0).
  destruct (sv_stopped s) eqn:Estop; [intros [= <- <-]; right; left; by exists errStopped, st0, w0|].
  rewrite (HasEvent_stored _ _ _ m (sv_events s) (eid e) Hs). case_bool_decide as Hnew;
    [intros [= <- <-]; right; left; by exists ErrAlreadyConnectedEvent, st0, w0|].
  apply eq_None_not_Some in Hnew.
  destruct (epoch_Validate base_epoch (es_Rules (sv_es s), es_Epoch (sv_es s)) e) as [[]|err|] eqn:Ev;
    [|intros [= <- <-]; right; left; by exists err, st0, w0|intros [= <- <-]; by left].
  rewrite (em_bind_run _ _ s tt s) by done.
  assert (Hgo : ∀ r s', (∀ h, prevEpochHash (ev_ext (ep_event e)) = Some h → h = EpochState_Hash (sv_es s)) →
    (_ ← saveAndProcessEvent EmptyTxHash e (sv_es s);
     event_connected sha256 EmptyTxHash deriveChainId open_db cfg since size flushed (es_Epoch (sv_es s)) e) s = (r, s') →
    r = Panic ∨
    (∃ err st w, r = Err err ∧ s' = set_engine w (set_events st s) ∧ holds m st ∧
       en_EpochState w = en_EpochState (sv_engine s)) ∨
    ((r = Ok tt ∨ r = flushed) ∧ ∃ w, admitted m e s w ∧ connected_to evs m e s w s')).
  { clear r s'. intros r s' Hh E. cbv [mbind EM_bind] in E.
    destruct (saveAndProcessEvent EmptyTxHash e (sv_es s) s) as [[[]|err|] s1] eqn:Esave.
    - destruct (saveAndProcessEvent_Ok m e (sv_es s) s s1 Hs He Esave) as (st & d & w & -> & Hst & Hcl & Hmt & Hp).
      apply (event_connected_inv evs m e s) in E as [->|[Hr Hc]]; try done; [by left| |by apply Hdb].
      right. right. split; [done|]. exists w. by split.
    - injection E as <- <-. destruct (saveAndProcessEvent_Err m e (sv_es s) s s1 err Hs He Hnew (dg_clean _ _ _ Hd) Esave)
        as (st & w & -> & Hst & Hw). right. left. by exists err, st, w.
    - injection E as <- <-. by left. }
  destruct (prevEpochHash (ev_ext (ep_event e))) as [h|] eqn:Eh; [case_bool_decide as Hh|].
  - rewrite (em_bind_run _ _ s tt s) by done. apply Hgo. naive_solver.
  - intros [= <- <-]. right. left. exists errWrongEpochHash, (DelEvent (eid e) (sv_events s)), (sv_engine s).
    split_and!; [done|by destruct s| |done]. rewrite <- (delete_id m (eid e) Hnew). by apply DelEvent_stored.
  - rewrite (em_bind_run _ _ s tt s) by done. apply Hgo. naive_solver.
Qed.

(** C23: an event that is connected was new, valid in the current epoch, with the median
    time and the epoch hash that the node computes itself; afterwards the heads are the
    connected events without a child, the last events those of each validator, the
    highest Lamport time theirs; the emitter is told of the event, and if it seals the
    epoch, the DAG starts empty with the gas power context, the keys and the emitter of
    the new epoch. *)
Theorem process_event_connects evs m e (s s' : Sv) cfg since size :
  dag_state evs m s → ok e → (∀ p, p ∈ Parents (ev_base (ep_event e)) → is_Some (m !! p)) →
  (∀ w, en_Process e (sv_engine s) = (None, w) → open_db (es_Epoch (en_EpochState w)) = (None, None)) →
  run cfg since size (Ok tt) e s = (Ok tt, s') →
  ∃ w, admitted m e s w ∧ connected_to evs m e s w s'.
Proof.
  intros Hd He Hpar Hdb E. destruct (processEvent_inv evs m e s s' cfg since size _ _ Hd He Hpar Hdb E) as [?|[?|[_ ?]]]; naive_solver.
Qed.

(** An event that is refused, whatever the reason, leaves the node as it was: the
    stored events, the DAG, the index, the emitter and the contexts of the checkers; the
    engine has not decided anything. *)
Theorem process_event_refuses evs m e (s s' : Sv) cfg since size err :
  dag_state evs m s → ok e → (∀ p, p ∈ Parents (ev_base (ep_event e)) → is_Some (m !! p)) →
  (∀ w, en_Process e (sv_engine s) = (None, w) → open_db (es_Epoch (en_EpochState w)) = (None, None)) →
  run cfg since size (Ok tt) e s = (Err err, s') →
  dag_state evs m s' ∧ sv_es s' = sv_es s ∧ sv_epochStore s' = sv_epochStore s ∧ sv_dagIndexer s' = sv_dagIndexer s ∧
  sv_HighestLamport s' = sv_HighestLamport s ∧ sv_emitter s' = sv_emitter s ∧ sv_gasCtx s' = sv_gasCtx s ∧
  sv_pubKeys s' = sv_pubKeys s ∧ sv_newEpochs s' = sv_newEpochs s.
Proof.
  intros Hd He Hpar Hdb E. destruct (processEvent_inv evs m e s s' cfg since size _ _ Hd He Hpar Hdb E) as [?|[Hr|[[?|?] _]]]; [done| |done..].
  destruct Hr as (err' & st & w & _ & -> & Hst & Hw). split; [by apply dag_state_events|]. unfold sv_es. cbn. by rewrite Hw.
Qed.

(** *** buildEvent *)

Lemma CalcValidatorGasPower_u64 (e : Event EventID) t pt prev (vv : V) c g :
  is_u64 (cfg_MinEnsuredAlloc c) → CalcValidatorGasPower e t pt prev vv c = Ok g → is_u64 g.
Proof.
  intros Hm. unfold CalcValidatorGasPower, calcValidatorGasPowerPerSec, div.
  change (Second =? 0) with false.
  assert (Hend : ∀ mx gp, 0 <= mx → is_u64 (if mx <? u64 gp then mx else u64 gp)).
  { intros mx gp Hmx. pose proof (u64_range gp). destruct (Z.ltb_spec mx (u64 gp)); unfold is_u64 in *; lia. }
  destruct (vv_Get vv _ =? 0); cbn [mbind res_bind]; [intros [= <-]; by apply Hend|].
  destruct (vv_TotalWeight vv =? 0); cbn [mbind res_bind]; [done|]. intros [= <-]. apply Hend.
  destruct (_ <? cfg_MinEnsuredAlloc c); [apply Hm|apply u64_range].
Qed.

Lemma calcGasPowers_u64 (e : Event EventID) sp (ctx : ValidationContext V EventID) cs gs :
  Forall (λ c, is_u64 (cfg_MinEnsuredAlloc c)) cs → calcGasPowers e sp ctx cs = Ok gs → Forall is_u64 gs.
Proof.
  intros Hcs. revert gs. induction Hcs as [|c cs Hc _ IH]; intros gs; cbn [calcGasPowers]; [by intros [= <-]|].
  intros E. apply res_bind_Ok in E as (g & Eg & E). apply res_bind_Ok in E as (gs' & Egs & [= <-]).
  constructor; [|by apply IH]. unfold calcGasPower in Eg. apply res_bind_Ok in Eg as ([pg pt] & _ & Eg).
  by eapply CalcValidatorGasPower_u64.
Qed.

(** The gas power of an event depends on its creator, self-parent and median time. *)
Lemma calcGasPowers_ext `{!DagEventsLaws EventID} (e e' : Event EventID) sp (ctx : ValidationContext V EventID) cs :
  Creator (ev_base e) = Creator (ev_base e') → Seq (ev_base e) = Seq (ev_base e') →
  Parents (ev_base e) = Parents (ev_base e') → medianTime (ev_ext e) = medianTime (ev_ext e') →
  calcGasPowers e sp ctx cs = calcGasPowers e' sp ctx cs.
Proof.
  intros Ec Es Ep Em. pose proof (SelfParent_fields (ev_base e) (ev_base e') Es Ep) as Esp.
  induction cs as [|c cs IH]; [done|]. cbn [calcGasPowers].
  unfold calcGasPower, prevGasPower, CalcValidatorGasPower. by rewrite Ec, Esp, Em, IH.
Qed.

(** [available - used] is what the gas power check wants. *)
Lemma balanced_of_available (avail : GasPowerLeft) (used : Z) (e : MutableEventPayload EventID) :
  Forall is_u64 (Gas avail) → Gas avail ≠ [] → 0 <= used → used <= GasPowerLeft_Min avail →
  gasPowerUsed (me_ext e) = used → gasPowerLeft (me_ext e) = GasPowerLeft_Sub avail used →
  gas_balanced e ∧ checkGasPowers (Gas (gasPowerLeft (me_ext e))) used (Gas avail) = Ok tt.
Proof.
  intros Hu Hne H0' Hmin <- El. assert (Hle : Forall (λ g, is_u64 g ∧ gasPowerUsed (me_ext e) <= g) (Gas avail)).
  { rewrite Forall_forall in *. intros g Hg. split; [by apply Hu|]. pose proof (Min_le avail g Hg). lia. }
  split; [|rewrite El; by apply checkGasPowers_Sub]. split; [done| |].
  - rewrite El. unfold GasPowerLeft_Sub. cbn [Gas]. apply Forall_fmap. eapply Forall_impl; [exact Hle|].
    intros g [Hg Hgu]. cbn. unfold is_u64 in Hg. rewrite u64_id by (unfold is_u64; lia). lia.
  - rewrite El. unfold GasPowerLeft_Sub. cbn [Gas]. intros E. by apply fmap_nil_inv in E.
Qed.

Definition build_self_parent (m : gmap EventID Ev) (e : MutableEventPayload EventID) : option (Event EventID) :=
  sp ← SelfParent (me_base e); ep_event <$> m !! sp.

(** The last steps of building an event whose gas is computed. *)
Lemma built_event_checks `{!DagEventsLaws EventID} (ctx : ValidationContext V EventID) rules m (e3 : MutableEventPayload EventID)
    avail frame :
  ctx_Configs ctx ≠ [] → Forall (λ c, is_u64 (cfg_MinEnsuredAlloc c)) (ctx_Configs ctx) →
  gasPowerUsed (me_ext e3) = CalcGasPowerUsed (me_view e3) rules →
  CalcGasPower ctx (ep_event (me_view e3)) (build_self_parent m e3) = Ok avail →
  gasPowerUsed (me_ext e3) <= GasPowerLeft_Min avail →
  let e' := SetFrame frame (SetGasPowerLeft (GasPowerLeft_Sub avail (gasPowerUsed (me_ext e3))) e3) in
  gas_balanced e' ∧ GasPower.Validate ctx (ep_event (me_view e')) (build_self_parent m e') = Ok tt ∧
  (gasPowerUsed (me_ext e') <= MaxEventGas (GasR (Economy rules)) → checkGas (me_view e') rules = Ok tt).
Proof.
  intros Hne Hcfg Eu Eg Hmin e'. set (used := gasPowerUsed (me_ext e3)) in *.
  assert (Hused : 0 <= used) by (rewrite Eu; unfold CalcGasPowerUsed; cbv zeta; apply u64_range).
  unfold CalcGasPower in Eg. destruct (Z.eqb_spec (ctx_Epoch ctx) (Epoch (ev_base (ep_event (me_view e3))))) as [Eep|]; cbn [negb] in Eg; [|done].
  destruct (calcGasPowers (ep_event (me_view e3)) (build_self_parent m e3) ctx (ctx_Configs ctx)) as [gs| |] eqn:Egs; try done.
  injection Eg as <-.
  assert (Hgne : gs ≠ []).
  { intros ->. destruct (ctx_Configs ctx) as [|c cs]; [done|]. cbn [calcGasPowers] in Egs.
    apply res_bind_Ok in Egs as (? & _ & Egs). by apply res_bind_Ok in Egs as (? & _ & [=]). }
  destruct (balanced_of_available (mkGasPowerLeft gs) used e') as [Hbal Hchk]; try done; [by eapply calcGasPowers_u64|].
  split; [done|]. split.
  - unfold GasPower.Validate, CalcGasPower.
    change (Epoch (ev_base (ep_event (me_view e')))) with (Epoch (ev_base (ep_event (me_view e3)))). rewrite Eep, Z.eqb_refl. cbn [negb].
    replace (build_self_parent m e') with (build_self_parent m e3)
      by (unfold build_self_parent; by rewrite (SelfParent_fields (me_base e') (me_base e3))).
    rewrite (calcGasPowers_ext _ (ep_event (me_view e3))) by done. rewrite Egs. exact Hchk.
  - intros Hmx. unfold checkGas. change (gasPowerUsed (ev_ext (ep_event (me_view e')))) with used.
    rewrite (proj2 (Z.ltb_ge _ _)) by exact Hmx.
    change (CalcGasPowerUsed (me_view e') rules) with (CalcGasPowerUsed (me_view e3) rules). by rewrite <- Eu, Z.eqb_refl.
Qed.

(** An event that is built declares exactly the gas power it uses and the gas power
    that is left of it: it passes the check of the gas power and, below the limit of
    an event, that of the gas used; the first events of an epoch carry its hash; and
    building leaves no trace in the index. *)
Theorem build_event_balanced `{!DagEventsLaws EventID} {A} version (onIndexed : D → MutableEventPayload EventID → res A)
    m e (s s' : Sv) a e' :
  holds m (sv_events s) → dx_clean (sv_dagIndexer s) → ctx_Configs (sv_gasCtx s) ≠ [] →
  Forall (λ c, is_u64 (cfg_MinEnsuredAlloc c)) (ctx_Configs (sv_gasCtx s)) →
  buildEvent sha256 EmptyTxHash deriveChainId EpochState_Hash version onIndexed e s = (Ok (a, e'), s') →
  gas_balanced e' ∧ GasPower.Validate (sv_gasCtx s) (ep_event (me_view e')) (build_self_parent m e') = Ok tt ∧
  (gasPowerUsed (me_ext e') <= MaxEventGas (GasR (Economy (es_Rules (sv_es s)))) →
     checkGas (me_view e') (es_Rules (sv_es s)) = Ok tt) ∧
  (Lamport (me_base e') <= 1 → prevEpochHash (me_ext e') = Some (EpochState_Hash (sv_es s))) ∧
  Seq (me_base e') = Seq (me_base e) ∧ Parents (me_base e') = Parents (me_base e) ∧ me_txs e' = me_txs e ∧
  ∃ st, holds m st ∧ s' = set_uniqueID (sv_uniqueID s + 1) (set_events st s).
Proof.
  intros Hs Hcl Hne Hcfg. unfold buildEvent, sample. rewrite em_bind_get, em_bind_modify.
  set (id := take 24 _). set (e0 := if _ && _ then _ else SetID id e).
  set (e1 := if Lamport (me_base e0) <=? 1 then _ else e0).
  assert (He0 : me_base e0 = me_base (SetID id e) ∧ me_txs e0 = me_txs e).
  { unfold e0. destruct (_ && _); [|done]. by destruct (_ <=? _). }
  assert (He1 : me_base e1 = me_base (SetID id e) ∧ me_txs e1 = me_txs e ∧
    (Lamport (me_base e1) <= 1 → prevEpochHash (me_ext e1) = Some (EpochState_Hash (sv_es s)))).
  { unfold e1. destruct (Z.leb_spec (Lamport (me_base e0)) 1); [|split_and!; [apply He0..|lia]].
    split_and!; [apply He0..|done]. }
  clearbody e1. clear He0 e0. destruct He1 as (Eb & Et & Eh).
  destruct (dx_Add (ep_event (me_view e1)) (sv_dagIndexer s)) as [err d] eqn:Ea. rewrite em_bind_modify.
  assert (Ed : dx_DropNotFlushed d = sv_dagIndexer s).
  { replace d with (dx_Add (ep_event (me_view e1)) (sv_dagIndexer s)).2 by by rewrite Ea. by apply dx_Drop_Add. }
  rewrite Ed. destruct err as [err|]; [done|].
  cbv [mbind EM_bind em_lift]. destruct (onIndexed d e1) as [a'| |]; [|done..].
  destruct (dx_MedianTime _ _ d) as [median| |]; [|done..].
  set (e2 := SetMedianTime median e1). set (used := CalcGasPowerUsed (me_view e2) (es_Rules (sv_es s))).
  set (e3 := SetGasPowerUsed used e2). set (s1 := set_dagIndexer _ _). set (get := match SelfParent (me_base e3) with Some _ => _ | None => _ end).
  assert (Hget : ∃ st, holds m st ∧ get s1 = (Ok (build_self_parent m e3), set_events st s1)).
  { unfold get, build_self_parent. destruct (SelfParent (me_base e3)) as [sp|]; cbn [mbind option_bind].
    - destruct (svc_GetEvent_run m sp s1 Hs) as (st & -> & Hst). by exists st.
    - exists (sv_events s1). split; [done|]. by destruct s. }
  destruct Hget as (st & Hst & ->).
  destruct (CalcGasPower (sv_gasCtx s) (ep_event (me_view e3)) (build_self_parent m e3)) as [avail| |] eqn:Eg; [|done..].
  destruct (Z.ltb_spec (GasPowerLeft_Min avail) (gasPowerUsed (me_ext e3))) as [|Hmin]; [done|].
  set (e4 := SetGasPowerLeft _ e3). destruct (en_Build (me_base e4) (sv_engine s)) as [frame| |]; [|done..].
  intros [= <- <- <-].
  destruct (built_event_checks (sv_gasCtx s) (es_Rules (sv_es s)) m e3 avail frame Hne Hcfg eq_refl Eg Hmin) as (Hbal & Hval & Hgas).
  split; [done|]. split; [done|]. split; [done|].
  split; [exact Eh|]. cbn [SetFrame with_base me_base me_txs Seq Parents]. cbn. rewrite Eb, Et.
  split_and!; try done. exists st. split; [done|]. unfold s1. by destruct s.
Qed.
End correct.

(** ** A concrete node *)

#[global] Instance demo_dag_laws : DagEventsLaws Hash.
Proof. split. intros b b' Es Ep. unfold SelfParent, demo_dag. by rewrite Es, Ep. Qed.

(** An index of flushed and pending events; every median time is the start of the epoch. *)
#[global] Instance demo_indexer : DagIndexer Hash Group (list (Event Hash) * list (Event Hash)) := {
  dx_Add e d := (None, (d.1, d.2 ++ [e]));
  dx_MedianTime _ start _ := Ok start;
  dx_Flush d := (d.1 ++ d.2, []);
  dx_DropNotFlushed d := (d.1, []);
  dx_Reset _ _ := ([], []);
}.
#[global] Instance demo_indexer_laws : DagIndexerLaws Hash Group (list (Event Hash) * list (Event Hash)).
Proof. refine {| dx_clean := (λ d : list (Event Hash) * list (Event Hash), d.2 = []) |}; try done; by intros ? [] ?||intros [] ?; cbn in *; subst. Defined.

(** The engine seals the epoch with an event of the second frame. *)
#[global] Instance demo_engine : Engine Hash Group (EpochState Group Hash) := {
  en_EpochState es := es;
  en_Build _ _ := Ok 1;
  en_Process e es :=
    (None, if Frame (ev_base (ep_event e)) =? 2
           then mkEpochState (es_Epoch es + 1) (medianTime (ev_ext (ep_event e))) (es_EpochStart es) (es_EpochStateRoot es)
                  (es_Validators es) (es_ValidatorStates es) (es_ValidatorProfiles es) (es_Rules es)
           else es);
}.
#[global] Instance demo_engine_laws : EngineLaws Hash Group (EpochState Group Hash).
Proof. done. Qed.

(** An emitter that counts. *)
#[global] Instance demo_hooks : EmitterHooks Hash Group (Z * Z) := {
  hk_OnEventConnected _ m := (m.1 + 1, m.2);
  hk_OnNewEpoch _ epoch m := (m.1, epoch);
}.

Definition demo_sv_es (start : Z) : EpochState Group Hash :=
  mkEpochState 3 start 900 [] demo_group (replicate 3 (mkVES 0 zero_ID)) ∅ MainNetRules.

Definition demo_svc (start : Z) : Service (EventID := Hash) (V := Group) (CE := gmap Hash (EventPayload Hash))
    (CH := gmap Hash (Event Hash)) (D := list (Event Hash) * list (Event Hash)) (W := EpochState Group Hash) (M := Z * Z) :=
  mkService false demo_store (mkEpochStore 3 None None (Some ∅) (Some ∅)) 0 ([], []) (demo_sv_es start) (0, 3)
    (mkValidationContext 3 demo_configs start demo_group (replicate 3 (mkValidatorState None 40))) (∅, 3) 0 [].

Definition demo_sv_mutable (frame : Z) : MutableEventPayload Hash :=
  mkMutableEventPayload (mkBaseEvent 3 1 frame 1 1 [] zero_ID)
    (mkExtEventData 1000 1003 (Some (replicate 32 2)) (replicate 32 8) (mkGasPowerLeft [70000; 80000]) 49050 [9; 9])
    (replicate 64 4) [demo_tx].

Definition demo_sv_event (frame : Z) : EventPayload Hash :=
  match MutableEventPayload_Build demo_sha256 demo_EmptyTxHash (demo_sv_mutable frame) with Ok e => e | _ => demo_event end.

Lemma demo_sv_payload_ok frame h n :
  is_u32 frame → EventPayload_ok demo_EmptyTxHash demo_deriveChainId (Inter.build (demo_sv_mutable frame) h n).
Proof.
  intros Hf. unfold EventPayload_ok, Payload_ok, Event_ok, GasPowerLeft_ok.
  cbn [ep_event ep_sig ep_txs Inter.build ev_base ev_ext demo_sv_mutable me_base me_ext me_sig me_txs
    Epoch Seq Frame Creator Lamport Parents creationTime medianTime prevEpochHash txHash gasPowerLeft gasPowerUsed extra].
  split_and!; try exact Hf; try by_computation.
  - intros h' [= <-]. split; by_computation.
  - apply Forall_singleton, demo_tx_ok.
Qed.

Lemma demo_sv_event_ok frame : frame = 1 ∨ frame = 2 → storable demo_sha256 demo_EmptyTxHash demo_deriveChainId (demo_sv_event frame).
Proof.
  intros Hf. assert (Hu : is_u32 frame) by (destruct Hf; subst; by_computation).
  assert (HB : MutableEventPayload_Build demo_sha256 demo_EmptyTxHash (demo_sv_mutable frame) = Ok (demo_sv_event frame)).
  { destruct Hf as [-> | ->]; vm_compute; reflexivity. }
  assert (Hok : EventPayload_ok demo_EmptyTxHash demo_deriveChainId (demo_sv_event frame)).
  { revert HB. unfold MutableEventPayload_Build. cbn [me_txs demo_sv_mutable]. change (len [demo_tx] <? 1) with false. cbv iota.
    intros E. apply res_bind_Ok in E as (ser & _ & E). apply res_bind_Ok in E as (raw & _ & [= <-]). by apply demo_sv_payload_ok. }
  split; [exact Hok|exact (Build_built demo_sha256 demo_EmptyTxHash demo_deriveChainId _ _ HB Hok)| |].
  - destruct Hf as [-> | ->]; vm_compute; reflexivity.
  - unfold fixEventTxHashes. destruct Hf as [-> | ->]; rewrite !bool_decide_false by (vm_compute; congruence); reflexivity.
Qed.

Lemma demo_svc_state start : dag_state demo_sha256 demo_EmptyTxHash demo_deriveChainId [] ∅ (demo_svc start).
Proof.
  split; try done.
  - exists ∅. split; [done|]. intros v. by rewrite lookup_empty.
  - intros e He. by apply elem_of_nil in He.
  - intros e p He. by apply elem_of_nil in He.
Qed.

Notation demo_run := (processEvent demo_sha256 demo_EmptyTxHash demo_deriveChainId (λ _, replicate 32 2) (λ _, Ok tt)
  (λ _, (None, None)) (mkStoreConfig 1000000 (30 * Minute)) 0 0 (Ok tt)).

(** The first event of an epoch, sealing it. *)
Lemma process_event_connects_witness :
  ∃ s' w, demo_run (demo_sv_event 2) (demo_svc 1003) = (Ok tt, s') ∧
    admitted (λ _, replicate 32 2) (λ _, Ok tt) ∅ (demo_sv_event 2) (demo_svc 1003) w ∧
    connected_to demo_sha256 demo_EmptyTxHash demo_deriveChainId [] ∅ (demo_sv_event 2) (demo_svc 1003) w s'.
Proof.
  destruct (demo_run (demo_sv_event 2) (demo_svc 1003)) as [r s'] eqn:E.
  assert (Er : r = Ok tt) by (replace r with (demo_run (demo_sv_event 2) (demo_svc 1003)).1 by (by rewrite E); vm_compute; reflexivity).
  subst r. exists s'.
  destruct (process_event_connects demo_sha256 demo_EmptyTxHash demo_deriveChainId (λ _, replicate 32 2) (λ _, Ok tt)
    (λ _, (None, None)) [] ∅ (demo_sv_event 2) (demo_svc 1003) s' (mkStoreConfig 1000000 (30 * Minute)) 0 0)
    as (w & Ha & Hc); [apply demo_svc_state|apply demo_sv_event_ok; right; reflexivity| |reflexivity|exact E|].
  { intros p Hp. assert (Hnil : Parents (ev_base (ep_event (demo_sv_event 2))) = []) by (vm_compute; reflexivity).
    rewrite Hnil in Hp. destruct (proj1 (elem_of_nil p) Hp). }
  exists w. split; [reflexivity|split; assumption].
Defined.

(** A wrong median time. *)
Lemma process_event_refuses_witness :
  ∃ s', demo_run (demo_sv_event 1) (demo_svc 1004) = (Err errWrongMedianTime, s') ∧
    sv_dagIndexer s' = ([], []) ∧ sv_emitter s' = (0, 3).
Proof.
  destruct (demo_run (demo_sv_event 1) (demo_svc 1004)) as [r s'] eqn:E.
  assert (Er : r = Err errWrongMedianTime)
    by (replace r with (demo_run (demo_sv_event 1) (demo_svc 1004)).1 by (by rewrite E); vm_compute; reflexivity).
  subst r. exists s'. split; [reflexivity|].
  destruct (process_event_refuses demo_sha256 demo_EmptyTxHash demo_deriveChainId (λ _, replicate 32 2) (λ _, Ok tt)
    (λ _, (None, None)) [] ∅ (demo_sv_event 1) (demo_svc 1004) s' (mkStoreConfig 1000000 (30 * Minute)) 0 0 errWrongMedianTime)
    as (_ & _ & _ & Hi & _ & He & _); [apply demo_svc_state|apply demo_sv_event_ok; left; reflexivity| |reflexivity|exact E|split; assumption].
  intros p Hp. assert (Hnil : Parents (ev_base (ep_event (demo_sv_event 1))) = []) by (vm_compute; reflexivity).
  rewrite Hnil in Hp. destruct (proj1 (elem_of_nil p) Hp).
Defined.

(** An event is built before its transactions are added; its version is published. *)
Definition demo_unbuilt : MutableEventPayload Hash :=
  mkMutableEventPayload (mkBaseEvent 3 1 0 1 1 [] zero_ID)
    (mkExtEventData 2000 0 None [] GasPowerLeft_zero 0 []) [] [].

Notation demo_build := (buildEvent demo_sha256 demo_EmptyTxHash demo_deriveChainId (λ _, replicate 32 2) [49; 46; 48]
  (λ d _, Ok (len d.2)) demo_unbuilt).

Lemma build_event_balanced_witness :
  ∃ a e' s', demo_build (demo_svc 1003) = (Ok (a, e'), s') ∧ gas_balanced e' ∧ sv_uniqueID s' = 1 ∧
    prevEpochHash (me_ext e') = Some (replicate 32 2).
Proof.
  destruct (demo_build (demo_svc 1003)) as [[[a e']|err|] s'] eqn:E.
  - destruct (build_event_balanced demo_sha256 demo_EmptyTxHash demo_deriveChainId (λ _, replicate 32 2) [49; 46; 48]
      (λ d _, Ok (len d.2)) ∅ demo_unbuilt (demo_svc 1003) s' a e') as (Hb & _ & _ & Hh & Hseq & Hp & _ & st & _ & ->).
    + apply (demo_svc_state 1003).
    + reflexivity.
    + discriminate.
    + repeat constructor; vm_compute; congruence.
    + exact E.
    + exists a, e', (set_uniqueID (sv_uniqueID (demo_svc 1003) + 1) (set_events st (demo_svc 1003))).
      split; [reflexivity|]. split; [exact Hb|]. split; [reflexivity|]. apply Hh.
      assert (El : Lamport (me_base e') = 1); [|rewrite El; lia].
      apply (f_equal fst) in E.
      replace (Lamport (me_base e')) with
        (match (demo_build (demo_svc 1003)).1 with Ok (_, e) => Lamport (me_base e) | _ => 0 end) by (by rewrite E).
      vm_compute. reflexivity.
  - exfalso. assert (Er : match (demo_build (demo_svc 1003)).1 with Ok _ => true | _ => false end = true)
      by (vm_compute; reflexivity). rewrite E in Er. discriminate Er.
  - exfalso. assert (Er : match (demo_build (demo_svc 1003)).1 with Ok _ => true | _ => false end = true)
      by (vm_compute; reflexivity). rewrite E in Er. discriminate Er.
Defined.
