(* ===== verification/Emission.v ===== *)
(** * The emitter: making events (gossip/emitter: emitter.go, parents.go, sync.go, hooks.go)

    The state of the emitter, its hooks, and the path of an event from the choice of its
    parents to its broadcast.  The node around the emitter is the interface
    [EmitterWorld], which [ServiceWorld.v] implements; the search for parents and the
    protection against double signing are libraries. *)

From S2P Require Import Prelude Cser Inter Instances TxSer EventSer Rules Pos EvmState GasPower EventCheck Shuffle.
From S2P Require Import Piecefunc Emitter EmitterTxs BlockProc Heap Store Service.

(** ** The libraries *)

(** [ancestor]: indexers that rank events, and the choice of parents. *)
Class AncestorLib (EventID V X QI PI St : Type) := {
  an_NewQuorumIndexer : V → QI;
  an_QuorumProcess : Event EventID → bool → X → QI → QI;
  an_GetMetricOf : EventID → X → QI → Z;
  an_QuorumStrategy : QI → St;
  an_NewPayloadIndexer : Z → PI;
  an_PayloadProcess : Event EventID → Z → PI → PI;
  an_PayloadStrategy : PI → St;
  an_NewRandomStrategy : St;
  an_ChooseParents : list EventID → list EventID → list St → list EventID;
}.
(** The existing parents come first, and every strategy adds at most one option. *)
Class AncestorLibLaws (EventID V X QI PI St : Type) `{AncestorLib EventID V X QI PI St} := {
  an_ChooseParents_spec : ∀ existing options strategies, ∃ chosen,
    an_ChooseParents existing options strategies = existing ++ chosen ∧
    (∀ p, p ∈ chosen → p ∈ options) ∧ (length chosen <= length strategies)%nat;
}.

(** [doublesign.SyncStatus] *)
Record SyncStatus := mkDoublesignStatus {
  ds_Now : Z;
  ds_PeersNum : Z;
  ds_Startup : Z;
  ds_LastConnected : Z;
  ds_P2PSynced : Z;
  ds_BecameValidator : Z;
  ds_ExternalSelfEventCreated : Z;
  ds_ExternalSelfEventDetected : Z;
}.
Class DoubleSign := {
  SyncedToEmit : SyncStatus → Z → Z * option error;
  DetectParallelInstance : SyncStatus → Z → bool;
}.

(** The zero [time.Time], in nanoseconds of Unix time. *)
Definition time_zero : Z := -62135596800 * Second.

(** What the node calls the emitter for, in order. *)
Inductive em_hook (EventID V : Type) :=
  | HConnected (e : EventPayload EventID)
  | HConfirmed (e : EventPayload EventID)
  | HNewEpoch (validators : V) (epoch : Z).
Arguments HConnected {EventID V}. Arguments HConfirmed {EventID V}. Arguments HNewEpoch {EventID V}.

(** ** world.go: the node as the emitter sees it *)

(** [w_Process] also returns the calls of the emitter's hooks it makes. *)
Class EmitterWorld (EventID V X : Type) := {
  w_GetRules : X → Rules;
  w_GetLatestBlockIndex : X → Z;
  w_GetGenesisTime : X → Z;
  w_GetEvent : EventID → X → option (Event EventID);
  w_GetLastEvent : Z → Z → X → option EventID;
  w_GetHeads : Z → X → res (list EventID);
  w_GetRecommendedGasPrice : X → Z;
  w_NoCheaters : option EventID → list EventID → X → res (list EventID);
  w_IsBusy : X → bool;
  w_IsSynced : X → bool;
  w_PeersNum : X → Z;
  w_Build : (X → MutableEventPayload EventID → res Z) → MutableEventPayload EventID → X → res (Z * MutableEventPayload EventID) * X;
  w_Check : EventPayload EventID → list (Event EventID) → X → res unit;
  w_Process : EventPayload EventID → X → res unit * X * list (em_hook EventID V);
  w_Has : list Z → X → bool;
  w_Count : X → Z;
  w_Pending : X → res (gmap Address (list Transaction));
}.

(** Numbers far from wrapping around, as the checkers require of an event. *)
Definition in_range {EventID} (e : Event EventID) : Prop :=
  0 <= Seq (ev_base e) < 2 ^ 31 ∧ 0 <= Lamport (ev_base e) < 2 ^ 31 ∧ 0 <= creationTime (ev_ext e) < 2 ^ 63.

(** What the emitter relies on, in a consistent node [w_inv] and for an event that the node
    can take [w_fit]: building an event keeps its place in the DAG and changes nothing that
    can be read; processing an event either fails and changes nothing that can be read, or
    connects an event that was not known, whatever error a later commit reports, and then
    the event is the last one of its creator unless it sealed the epoch, which the
    emitter's last hook tells. *)
Class EmitterWorldLaws (EventID V X : Type) `{EmitterWorld EventID V X} := {
  w_inv : X → Prop;
  w_fit : EventPayload EventID → X → Prop;
  w_Build_fields : ∀ f e x a e' x', w_Build f e x = (Ok (a, e'), x') →
    Epoch (me_base e') = Epoch (me_base e) ∧ Seq (me_base e') = Seq (me_base e) ∧
    Creator (me_base e') = Creator (me_base e) ∧ Lamport (me_base e') = Lamport (me_base e) ∧
    Parents (me_base e') = Parents (me_base e) ∧ creationTime (me_ext e') = creationTime (me_ext e) ∧
    me_txs e' = me_txs e;
  w_Build_keeps : ∀ f e x, w_inv x → let x' := (w_Build f e x).2 in
    w_inv x' ∧ (∀ ev, w_fit ev x → w_fit ev x') ∧
    ∀ epoch v id, w_GetLastEvent epoch v x' = w_GetLastEvent epoch v x ∧ w_GetEvent id x' = w_GetEvent id x;
  w_Process_outcome : ∀ e x r x' hs, let b := ev_base (ep_event e) in
    w_inv x → w_fit e x → (∀ p, p ∈ Parents b → is_Some (w_GetEvent p x)) →
    w_Process e x = (r, x', hs) → r ≠ Panic →
    w_inv x' ∧
    ((∃ err, r = Err err) ∧
       (∀ epoch v id, w_GetLastEvent epoch v x' = w_GetLastEvent epoch v x ∧ w_GetEvent id x' = w_GetEvent id x)
     ∨ w_GetEvent (ID b) x = None ∧ w_GetEvent (ID b) x' = Some (ep_event e) ∧
       (w_GetLastEvent (Epoch b) (Creator b) x' = Some (ID b) ∨
        ∃ v epoch pre, hs = pre ++ [HNewEpoch v epoch] ∧ epoch ≠ Epoch b));
  w_Seq_range : ∀ id x e, w_inv x → w_GetEvent id x = Some e → in_range e;
}.

(** A queue made from the pending transactions of each sender. *)
Class TxQueueNew (Q : Type) `{TxQueue Q} := { q_New : gmap Address (list Transaction) → Q }.

Definition PayloadIndexerSize : Z := 5000.

Section emission.
Context {EventID : Type} `{EventIDs EventID} `{DagEvents EventID} {V : Type} `{Pos V}.
Context `{ShuffleLib} `{TurnLib} `{DoubleSign} {Q : Type} `{TxQueueNew Q}.
Context {L T : Type} `{!Lru Address Z L} `{!Lru (list Z) Z T}.
Context {X QI PI St : Type} `{!EmitterWorld EventID V X} `{!AncestorLib EventID V X QI PI St}.
Variable sha256 : list Z → list Z.
Variable EmptyTxHash : list Z.
Variable Sender : Transaction → Address.
Variable TxHash : Transaction → list Z.
Variable DeriveSha : list Transaction → list Z.
Variable Sign : PubKey → list Z → res (list Z).
Notation Ev := (EventPayload EventID).
Notation Me := (MutableEventPayload EventID).

(** The cached queue with when, at which block and for how many transactions it was made. *)
Record txs_cache := mkTxsCache { tc_sortedTxs : Q; tc_poolTime : Z; tc_poolBlock : Z; tc_poolCount : Z }.

(** The file of the last emitted event holds at most one identifier. *)
Record Emitter := mkEmitter {
  em_config : EmitterConfig;
  em_control : Control;
  em_pending : Pending L;
  em_txTime : T;
  em_syncStatus : syncStatus EventID;
  em_validators : V;
  em_epoch : Z;
  em_maxParents : Z;
  em_quorumIndexer : QI;
  em_payloadIndexer : PI;
  em_cache : option txs_cache;
  em_hasFile : bool;
  em_file : option EventID;
}.

Definition em_set_control (c : Control) (em : Emitter) : Emitter :=
  mkEmitter (em_config em) c (em_pending em) (em_txTime em) (em_syncStatus em) (em_validators em) (em_epoch em)
    (em_maxParents em) (em_quorumIndexer em) (em_payloadIndexer em) (em_cache em) (em_hasFile em) (em_file em).
Definition em_set_pending (p : Pending L) (t : T) (em : Emitter) : Emitter :=
  mkEmitter (em_config em) (em_control em) p t (em_syncStatus em) (em_validators em) (em_epoch em)
    (em_maxParents em) (em_quorumIndexer em) (em_payloadIndexer em) (em_cache em) (em_hasFile em) (em_file em).
Definition em_set_sync (s : syncStatus EventID) (em : Emitter) : Emitter :=
  mkEmitter (em_config em) (em_control em) (em_pending em) (em_txTime em) s (em_validators em) (em_epoch em)
    (em_maxParents em) (em_quorumIndexer em) (em_payloadIndexer em) (em_cache em) (em_hasFile em) (em_file em).
Definition em_set_epoch (v : V) (epoch maxParents : Z) (em : Emitter) : Emitter :=
  mkEmitter (em_config em) (em_control em) (em_pending em) (em_txTime em) (em_syncStatus em) v epoch
    maxParents (em_quorumIndexer em) (em_payloadIndexer em) (em_cache em) (em_hasFile em) (em_file em).
Definition em_set_indexers (q : QI) (p : PI) (em : Emitter) : Emitter :=
  mkEmitter (em_config em) (em_control em) (em_pending em) (em_txTime em) (em_syncStatus em) (em_validators em)
    (em_epoch em) (em_maxParents em) q p (em_cache em) (em_hasFile em) (em_file em).
Definition em_set_cache (c : option txs_cache) (em : Emitter) : Emitter :=
  mkEmitter (em_config em) (em_control em) (em_pending em) (em_txTime em) (em_syncStatus em) (em_validators em)
    (em_epoch em) (em_maxParents em) (em_quorumIndexer em) (em_payloadIndexer em) c (em_hasFile em) (em_file em).

(** ** emitter.go: small queries *)

Definition isValidator (em : Emitter) : bool :=
  negb (ec_ID (em_config em) =? 0) && negb (vv_Get (em_validators em) (ec_ID (em_config em)) =? 0).

Definition em_idle (em : Emitter) : bool := idle (em_pending em).

Definition loadPrevEmitTime (x : X) (em : Emitter) : Z :=
  match w_GetLastEvent (em_epoch em) (ec_ID (em_config em)) x with
  | None => cl_prevEmittedAtTime (em_control em)
  | Some id => match w_GetEvent id x with
               | None => cl_prevEmittedAtTime (em_control em)
               | Some e => creationTime (ev_ext e)
               end
  end.

(** ** prev_emitted_file.go *)

Definition writeLastEmittedEventID (id : EventID) (em : Emitter) : Emitter :=
  if negb (em_hasFile em) then em
  else mkEmitter (em_config em) (em_control em) (em_pending em) (em_txTime em) (em_syncStatus em) (em_validators em)
         (em_epoch em) (em_maxParents em) (em_quorumIndexer em) (em_payloadIndexer em) (em_cache em) true (Some id).
Definition readLastEmittedEventID (em : Emitter) : option EventID := if em_hasFile em then em_file em else None.

(** ** sync.go *)

(** An event in the file that the node does not know yet counts as not synced. *)
Definition currentSyncStatus (now : Z) (x : X) (em : Emitter) : SyncStatus :=
  let ss := em_syncStatus em in
  let p2pSynced := if w_IsSynced x then ss_p2pSynced ss else time_zero in
  let p2pSynced := match readLastEmittedEventID em with
                   | Some id => if bool_decide (w_GetEvent id x = None) && (em_epoch em <=? id_Epoch id) then time_zero else p2pSynced
                   | None => p2pSynced
                   end in
  mkDoublesignStatus now (w_PeersNum x) (ss_startup ss) (ss_lastConnected ss) p2pSynced (ss_becameValidator ss)
    (ss_externalSelfEventCreated ss) (ss_externalSelfEventDetected ss).

Definition isSyncedToEmit (now : Z) (x : X) (em : Emitter) : Z * option error :=
  let protection := int_DoublesignProtection (cl_intervals (em_control em)) in
  if protection =? 0 then (0, None) else SyncedToEmit (currentSyncStatus now x em) protection.

(** The node is stopped when another instance of the validator is detected. *)
Definition onNewExternalEvent (now : Z) (x : X) (e : Ev) (em : Emitter) : res Emitter :=
  let ss := em_syncStatus em in
  let ss := mkSyncStatus (ss_startup ss) (ss_lastConnected ss) (ss_p2pSynced ss) (ss_prevLocalEmittedID ss)
              (creationTime (ev_ext (ep_event e))) now (ss_becameValidator ss) in
  let em := em_set_sync ss em in
  if DetectParallelInstance (currentSyncStatus now x em) (int_ParallelInstanceProtection (ec_EmitIntervals (em_config em)))
  then Panic else Ok em.

(** ** hooks.go *)

Definition limited_parents (cfg rules : Z) : Z :=
  let m := if cfg =? 0 then rules else cfg in
  if rules <? m then rules else m.

Definition em_OnNewEpoch (now : Z) (x : X) (newValidators : V) (newEpoch : Z) (em : Emitter) : res Emitter :=
  let em := em_set_epoch newValidators newEpoch
              (limited_parents (ec_MaxParents (em_config em)) (MaxParents (Dag (w_GetRules x)))) em in
  if negb (isValidator em) then Ok em
  else
    let c := em_control em in
    let c := mkControl (cl_prevIdleTime c) (loadPrevEmitTime x em) (cl_prevEmittedAtBlock c) ∅ ∅ ∅ ∅
               (cl_prevRecheckedChallenges c) (cl_intervals c) in
    let em := em_set_pending (pending_OnNewEpoch (em_pending em)) (em_txTime em) em in
    c ← recountValidators (em_config em) (time_Sub now (w_GetGenesisTime x)) newValidators c;
    Ok (em_set_indexers (an_NewQuorumIndexer newValidators) (an_NewPayloadIndexer PayloadIndexerSize) (em_set_control c em)).

Definition em_OnEventConnected (now : Z) (x : X) (e : Ev) (em : Emitter) : res Emitter :=
  if negb (isValidator em) then Ok em
  else
    let creator := Creator (ev_base (ep_event e)) in
    let me := ec_ID (em_config em) in
    let em := em_set_indexers (an_QuorumProcess (ep_event e) (creator =? me) x (em_quorumIndexer em))
                (an_PayloadProcess (ep_event e) (len (ep_txs e)) (em_payloadIndexer em)) em in
    let em := em_set_pending (pending_OnEventConnected Sender e (em_pending em)) (em_txTime em) em in
    em ← (if (creator =? me) && negb (bool_decide (ss_prevLocalEmittedID (em_syncStatus em) = ID (ev_base (ep_event e))))
          then onNewExternalEvent now x e em else Ok em);
    let c := em_control em in
    Ok (em_set_control (mkControl (cl_prevIdleTime c) (cl_prevEmittedAtTime c) (cl_prevEmittedAtBlock c)
          (delete creator (cl_challenges c)) (cl_offlineValidators c ∖ {[creator]}) (cl_expectedEmitIntervals c)
          (cl_stakeRatio c) (cl_prevRecheckedChallenges c) (cl_intervals c)) em).

(** The payload of a confirmed event comes from the store. *)
Definition em_OnEventConfirmed (e : Ev) (em : Emitter) : Emitter :=
  if negb (isValidator em) then em
  else em_set_pending (pending_OnEventConfirmed Sender EmptyTxHash e (em_pending em)) (em_txTime em) em.

Definition run_em_hook (now : Z) (x : X) (em : res Emitter) (h : em_hook EventID V) : res Emitter :=
  em ← em;
  match h with
  | HConnected e => em_OnEventConnected now x e em
  | HConfirmed e => Ok (em_OnEventConfirmed e em)
  | HNewEpoch v epoch => em_OnNewEpoch now x v epoch em
  end.

(** ** parents.go *)

(** [for len(strategies) < n { strategies = append(strategies, s) }] *)
Definition fill_to (n : Z) (s : St) (strategies : list St) : list St :=
  strategies ++ replicate (Z.to_nat (n - len strategies)) s.

Definition buildSearchStrategies (maxParents : Z) (em : Emitter) : list St :=
  if maxParents =? 0 then []
  else
    let strategies := fill_to 1 (an_PayloadStrategy (em_payloadIndexer em)) [] in
    let strategies := fill_to (maxParents / 2) an_NewRandomStrategy strategies in
    fill_to maxParents (an_QuorumStrategy (em_quorumIndexer em)) strategies.

(** [None]: the validator is known to have forked. *)
Definition chooseParents (epoch myValidatorID : Z) (x : X) (em : Emitter) : res (option (option EventID * list EventID)) :=
  let selfParent := w_GetLastEvent epoch myValidatorID x in
  heads ← w_GetHeads epoch x;
  honest ← (match selfParent with
            | None => Ok true
            | Some sp => l ← w_NoCheaters (Some sp) [sp] x; Ok (negb (len l =? 0))
            end);
  if negb honest then Ok None
  else
    let parents := match selfParent with Some sp => [sp] | None => [] end in
    let parents := an_ChooseParents parents heads
                     (buildSearchStrategies (u32 (em_maxParents em - u32 (len parents))) em) in
    Ok (Some (selfParent, parents)).

(** ** createEvent *)

(** The headers of the parents with their highest Lamport time; [None] when a parent
    other than the first is the validator's own. *)
Fixpoint parent_headers (first : bool) (me : Z) (parents : list EventID) (maxLamport : Z) (x : X)
  : res (option (list (Event EventID) * Z)) :=
  match parents with
  | [] => Ok (Some ([], maxLamport))
  | p :: ps =>
      parent ← deref (w_GetEvent p x);
      if (Creator (ev_base parent) =? me) && negb first then Ok None
      else
        rest ← parent_headers false me ps (Z.max maxLamport (Lamport (ev_base parent))) x;
        Ok ('(hs, l) ← rest; Some (parent :: hs, l))
  end.

Definition zero_event (epoch seq creator lamport : Z) (parents : list EventID) (time : Z) : Me :=
  mkMutableEventPayload (mkBaseEvent epoch seq 0 creator lamport parents zero_ID)
    (mkExtEventData time 0 None (replicate 32 0) GasPowerLeft_zero 0 []) (replicate 64 0) [].

Definition set_txHash (h : list Z) (e : Me) : Me :=
  let x := me_ext e in
  with_ext (mkExtEventData (creationTime x) (medianTime x) (prevEpochHash x) h (gasPowerLeft x) (gasPowerUsed x) (extra x)) e.
Definition set_sig (sig : list Z) (e : Me) : Me := mkMutableEventPayload (me_base e) (me_ext e) sig (me_txs e).

(** [isAllowedToEmit] with the fields of the event and of its self-parent. *)
Definition allowed (x : X) (em : Emitter) (e : Me) (eTxs : bool) (metric : Z) (selfParent : option (Event EventID)) : bool :=
  isAllowedToEmit (em_config em) (em_control em) (w_GetRules x) (w_GetLatestBlockIndex x) (em_idle em)
    (Creator (me_base e)) (creationTime (me_ext e)) (GasPowerLeft_Min (gasPowerLeft (me_ext e))) eTxs metric
    ((λ sp, GasPowerLeft_Min (gasPowerLeft (ev_ext sp))) <$> selfParent).

(** A nil queue can be asked for nothing. *)
Definition add_txs (clock : nat → Z) (n : nat) (sorted : option Q) (x : X) (em : Emitter) (e : Me)
  : res (Me * Pending L * T) :=
  match sorted with
  | Some q => addTxs Sender TxHash clock (em_config em) (w_GetRules x) (w_GetRecommendedGasPrice x) (em_validators em)
                (em_epoch em) (λ h, w_Has h x) n (em_pending em) (em_txTime em) q e
  | None =>
      maxGasUsed ← maxGasPowerToUse (em_config em) (w_GetRules x) (em_validators em) (pd_pendingGas (em_pending em)) e;
      if maxGasUsed <=? gasPowerUsed (me_ext e) then Ok (e, em_pending em, em_txTime em) else Panic
  end.

(** Whether an event's metric is computed when the vector clock knows it. *)
Definition metric_of (busyRate : Z) (em : Emitter) (x : X) (e : Me) : res Z :=
  m ← eventMetric (an_GetMetricOf (ID (me_base e)) x (em_quorumIndexer em)) (Seq (me_base e));
  overheadAdjustedEventMetricF (vv_Len (em_validators em)) busyRate m.

(** The readings of the clock: for the sync status, for the creation time, and while
    transactions are added. *)
Record Times := mkTimes { tm_sync : Z; tm_create : Z; tm_txs : nat → Z; tm_emitted : Z }.

(** The part after the event is built: transactions, hash, signature and the checks. *)
Definition finish_event (tm : Times) (n : nat) (sorted : option Q) (metric : Z) (headers : list (Event EventID))
    (spHeader : option (Event EventID)) (e : Me) : EM (Emitter * X) (option Ev) :=
  '(em, x) ← em_get;
  if negb (allowed x em e true metric spHeader) then mret None
  else
    '(e, p, t) ← em_lift (add_txs (tm_txs tm) n sorted x em e);
    _ ← em_modify (λ s, (em_set_pending p t s.1, s.2));
    '(em, x) ← em_get;
    if (len (me_txs e) =? 0) && negb (allowed x em e false metric spHeader) then mret None
    else
      let e := set_txHash (DeriveSha (me_txs e)) e in
      h ← em_lift (MutableEventPayload_hashToSign sha256 EmptyTxHash e);
      match Sign (ec_PubKey (em_config em)) h with
      | Ok bSig =>
          let e := set_sig (take 64 (bSig ++ drop (length bSig) (replicate 64 0))) e in
          event ← em_lift (MutableEventPayload_Build sha256 EmptyTxHash e);
          match w_Check event headers x with
          | Ok _ => mret (Some event)
          | Err _ => mret None
          | Panic => em_lift Panic
          end
      | Err _ => mret None
      | Panic => em_lift Panic
      end.

Definition createEvent (tm : Times) (busyRate : Z) (n : nat) (sorted : option Q) : EM (Emitter * X) (option Ev) :=
  '(em, x) ← em_get;
  let me := ec_ID (em_config em) in
  if negb (isValidator em) then mret None
  else match (isSyncedToEmit (tm_sync tm) x em).2 with
  | Some _ => mret None
  | None =>
      choice ← em_lift (chooseParents (em_epoch em) me x em);
      match choice with
      | None => mret None
      | Some (selfParent, parents) =>
          hs ← em_lift (parent_headers true me parents 0 x);
          match hs with
          | None => mret None
          | Some (headers, maxLamport) =>
              spHeader ← (match selfParent with
                          | None => mret None
                          | Some _ => h ← em_lift (index headers 0); mret (Some h)
                          end);
              let seq := match spHeader with Some h => Seq (ev_base h) | None => 0 end in
              let time := match spHeader with Some h => creationTime (ev_ext h) | None => 0 end in
              let e := zero_event (em_epoch em) (u32 (seq + 1)) me (u32 (maxLamport + 1)) parents
                         (MaxTimestamp (tm_create tm) (u64 (time + 1))) in
              let '(built, x) := w_Build (metric_of busyRate em) e x in
              _ ← em_modify (λ s, (s.1, x));
              match built with
              | Ok (metric, e) => finish_event tm n sorted metric headers spHeader e
              | Err _ => mret None
              | Panic => em_lift Panic
              end
          end
      end
  end.

(** ** EmitEvent and tick *)

Definition getSortedTxs (now : Z) : EM (Emitter * X) (option Q) :=
  '(em, x) ← em_get;
  let poolCount := w_Count x in
  let rebuild :=
    match w_Pending x with
    | Ok pendingTxs =>
        let pendingTxs := (λ txs, take (Z.to_nat (ec_MaxTxsPerAddress (em_config em))) txs) <$> pendingTxs in
        let sortedTxs := q_New pendingTxs in
        _ ← em_modify (λ s, (em_set_cache (Some (mkTxsCache sortedTxs now (w_GetLatestBlockIndex x) poolCount)) s.1, s.2));
        mret (Some sortedTxs)
    | Err _ => mret None
    | Panic => em_lift Panic
    end in
  match em_cache em with
  | Some c =>
      if (tc_poolBlock c =? w_GetLatestBlockIndex x) && (tc_poolCount c =? poolCount)
         && (time_Sub now (tc_poolTime c) <? ec_TxsCacheInvalidation (em_config em))
      then mret (Some (tc_sortedTxs c)) else rebuild
  | None => rebuild
  end.

(** The event that is returned is broadcast. *)
Definition EmitEvent (tm : Times) (busyRate : Z) (n : nat) : EM (Emitter * X) (option Ev) :=
  '(em, x) ← em_get;
  if ec_ID (em_config em) =? 0 then mret None
  else
    sortedTxs ← getSortedTxs (tm_sync tm);
    if w_IsBusy x then mret None
    else
      created ← createEvent tm busyRate n sortedTxs;
      match created with
      | None => mret None
      | Some e =>
          '(em, x) ← em_get;
          let ss := em_syncStatus em in
          let em := em_set_sync (mkSyncStatus (ss_startup ss) (ss_lastConnected ss) (ss_p2pSynced ss) (ID (ev_base (ep_event e)))
                      (ss_externalSelfEventCreated ss) (ss_externalSelfEventDetected ss) (ss_becameValidator ss)) em in
          let '(err, x, hooks) := w_Process e x in
          em ← em_lift (foldl (run_em_hook (tm_emitted tm) x) (Ok em) hooks);
          _ ← em_modify (λ _, (em, x));
          match err with
          | Ok _ =>
              let em := writeLastEmittedEventID (ID (ev_base (ep_event e))) em in
              let c := em_control em in
              _ ← em_modify (λ _, (em_set_control (mkControl (cl_prevIdleTime c) (tm_emitted tm) (w_GetLatestBlockIndex x)
                     (cl_challenges c) (cl_offlineValidators c) (cl_expectedEmitIntervals c) (cl_stakeRatio c)
                     (cl_prevRecheckedChallenges c) (cl_intervals c)) em, x));
              mret (Some e)
          | Err _ => mret None
          | Panic => em_lift Panic
          end
      end.

(** [now] for the bookkeeping of a tick. *)
Definition tick (now : Z) (tm : Times) (busyRate : Z) (n : nat) : EM (Emitter * X) (option Ev) :=
  '(em, x) ← em_get;
  let ss := em_syncStatus em in
  let ss := mkSyncStatus (ss_startup ss) (if w_PeersNum x =? 0 then now else ss_lastConnected ss)
              (if w_IsSynced x then ss_p2pSynced ss else now) (ss_prevLocalEmittedID ss)
              (ss_externalSelfEventCreated ss) (ss_externalSelfEventDetected ss) (ss_becameValidator ss) in
  let em := em_set_sync ss em in
  _ ← em_modify (λ _, (em, x));
  if w_IsBusy x then mret None
  else
    c ← em_lift (recheckChallenges (em_config em) now (time_Sub now (w_GetGenesisTime x)) (em_idle em) (em_validators em)
                   (em_control em));
    let c := recheckIdleTime now (em_idle em) c in
    _ ← em_modify (λ _, (em_set_control c em, x));
    if int_Min (cl_intervals c) <=? time_Sub now (cl_prevEmittedAtTime c) then EmitEvent tm busyRate n else mret None.
End emission.

(** ** What an emitted event is *)

Section emitted.
Context {EventID : Type} `{EventIDs EventID} `{DagEvents EventID} {V : Type} `{Pos V}.
Context `{ShuffleLib} `{TurnLib} `{DoubleSign} {Q : Type} `{TxQueueNew Q}.
Context {L T : Type} `{!Lru Address Z L} `{!Lru (list Z) Z T}.
Context {X QI PI St : Type} `{!EmitterWorld EventID V X} `{!EmitterWorldLaws EventID V X}
  `{!AncestorLib EventID V X QI PI St} `{!AncestorLibLaws EventID V X QI PI St}.
Variable sha256 : list Z → list Z.
Variable EmptyTxHash : list Z.
Variable Sender : Transaction → Address.
Variable TxHash : Transaction → list Z.
Variable DeriveSha : list Transaction → list Z.
Variable Sign : PubKey → list Z → res (list Z).
Notation Ev := (EventPayload EventID).
Notation Me := (MutableEventPayload EventID).
Notation Em := (Emitter (EventID := EventID) (V := V) (Q := Q) (L := L) (T := T) (QI := QI) (PI := PI)).

(** Adding transactions keeps the place of the event and its time. *)
Definition same_place (e e' : Me) : Prop := me_base e' = me_base e ∧ creationTime (me_ext e') = creationTime (me_ext e).

Lemma addTxs_loop_place clock f rules soft mx (vv : V) epoch Has tick (q : Q) e0 (e : Me) (ring : L) (tm : T) e' ring' tm' :
  same_place e0 e → addTxs_loop Sender TxHash clock f rules soft mx vv epoch Has tick q e ring tm = Ok (e', ring', tm') →
  same_place e0 e'.
Proof.
  revert tick q e ring tm. induction f as [|f IH]; intros tick q e ring tm Hp; cbn [addTxs_loop]; [done|].
  destruct (q_Peek q) as [tx|]; [|by intros [= <- _ _]].
  destruct (negb _); [by apply IH|]. destruct (_ <? _); [by apply IH|].
  destruct (too_big mx (tx_Gas tx) e); [destruct (too_big mx params_TxGas e); [by intros [= <- _ _]|by apply IH]|].
  destruct (TotalOf (Sender tx) ring) as [total ring1]. destruct (negb _); [by apply IH|].
  intros E. apply res_bind_Ok in E as ([turn tm1] & _ & E).
  destruct (negb turn); [by eapply IH; [|exact E]|]. destruct (negb _); by eapply IH; [|exact E].
Qed.

Lemma add_txs_place clock n (sorted : option Q) (x : X) (em : Em) (e e' : Me) p t :
  add_txs Sender TxHash clock n sorted x em e = Ok (e', p, t) → same_place e e'.
Proof.
  unfold add_txs. destruct sorted as [q|].
  - unfold addTxs. intros E. apply res_bind_Ok in E as (mx & _ & E). destruct (_ <=? _); [by injection E as <- _ _|].
    apply res_bind_Ok in E as ([[e1 r1] t1] & El & [= <- _ _]). by eapply addTxs_loop_place; [|exact El].
  - intros E. apply res_bind_Ok in E as (mx & _ & E). destruct (_ <=? _); [by injection E as <- _ _|done].
Qed.

(** The headers of the parents, and what their Lamport times and creators are. *)
Lemma parent_headers_spec first me parents l0 (x : X) hs l :
  w_inv x → parent_headers first me parents l0 x = Ok (Some (hs, l)) → 0 <= l0 < 2 ^ 31 →
  Forall2 (λ p h, w_GetEvent p x = Some h) parents hs ∧ l0 <= l < 2 ^ 31 ∧
  Forall (λ h, Lamport (ev_base h) <= l) hs ∧
  Forall (λ h, Creator (ev_base h) ≠ me) (if first then drop 1 hs else hs).
Proof.
  intros Hx. revert first l0 hs l. induction parents as [|p ps IH]; intros first l0 hs l; cbn [parent_headers].
  { intros [= <- <-] Hl. split_and!; try constructor; try lia. by destruct first; constructor. }
  intros E Hl. apply res_bind_Ok in E as (h & Eh & E). destruct (w_GetEvent p x) as [h'|] eqn:Ep; [|done]. injection Eh as ->.
  destruct (w_Seq_range p x h Hx Ep) as (_ & Hlam & _).
  destruct ((Creator (ev_base h) =? me) && negb first) eqn:Ec; [done|].
  apply res_bind_Ok in E as (rest & Er & E). destruct rest as [[hs' l']|]; [|discriminate E]. injection E as <- <-.
  destruct (IH false _ hs' l' Er ltac:(lia)) as (HF & Hl' & Hlams & Hcr). cbn [drop].
  split; [by constructor|]. split; [lia|]. split; [constructor; [lia|done]|].
  destruct first; [by rewrite drop_0|]. constructor; [|done]. rewrite andb_true_r in Ec. by apply Z.eqb_neq.
Qed.

Lemma fill_to_length n (s : St) l : len (fill_to n s l) = Z.max n (len l).
Proof. unfold fill_to, len. rewrite length_app, length_replicate. lia. Qed.

Lemma buildSearchStrategies_length m (em : Em) : 0 <= m → len (buildSearchStrategies m em) = m.
Proof.
  intros Hm. unfold buildSearchStrategies. destruct (Z.eqb_spec m 0); [subst; done|].
  rewrite !fill_to_length. change (len (@nil St)) with 0. pose proof (Z.div_lt m 2 ltac:(lia) ltac:(lia)). lia.
Qed.

(** The parents that are chosen: the own last event first, and no more than allowed. *)
Lemma chooseParents_spec epoch me (x : X) (em : Em) sp parents :
  chooseParents epoch me x em = Ok (Some (sp, parents)) → 1 <= em_maxParents em < 2 ^ 32 →
  sp = w_GetLastEvent epoch me x ∧ len parents <= em_maxParents em ∧
  ∀ id, sp = Some id → ∃ ps, parents = id :: ps.
Proof.
  unfold chooseParents. intros E Hm. apply res_bind_Ok in E as (heads & _ & E). apply res_bind_Ok in E as (honest & _ & E). destruct honest; [|done].
  cbn [negb] in E. injection E as <- <-. split; [done|].
  set (first := match w_GetLastEvent epoch me x with Some sp => [sp] | None => [] end).
  assert (Hf : 0 <= len first <= 1) by (unfold first; destruct (w_GetLastEvent epoch me x); done).
  rewrite (u32_id (len first)) by (unfold is_u32; lia). rewrite u32_id by (unfold is_u32; lia).
  destruct (an_ChooseParents_spec first heads (buildSearchStrategies (em_maxParents em - len first) em))
    as (chosen & -> & _ & Hlen).
  pose proof (buildSearchStrategies_length (em_maxParents em - len first) em ltac:(lia)) as Hb.
  split; [unfold len in *; rewrite length_app; lia|]. intros id E. unfold first. rewrite E. by eexists.
Qed.

(** The fields of an event that place it in the DAG. *)
Definition placed_as (e : Me) (ev : Ev) : Prop :=
  let b := ev_base (ep_event ev) in
  Epoch b = Epoch (me_base e) ∧ Seq b = Seq (me_base e) ∧ Creator b = Creator (me_base e) ∧
  Lamport b = Lamport (me_base e) ∧ Parents b = Parents (me_base e) ∧
  creationTime (ev_ext (ep_event ev)) = creationTime (me_ext e).

Lemma Build_placed (e : Me) ev : MutableEventPayload_Build sha256 EmptyTxHash e = Ok ev → placed_as e ev.
Proof.
  unfold MutableEventPayload_Build. intros E. apply res_bind_Ok in E as (ser & _ & E). apply res_bind_Ok in E as (raw & _ & [= <-]).
  by destruct (len (me_txs e) <? 1).
Qed.

Notation finish := (finish_event sha256 EmptyTxHash Sender TxHash DeriveSha Sign).
Notation create := (createEvent sha256 EmptyTxHash Sender TxHash DeriveSha Sign).
Notation emit := (EmitEvent sha256 EmptyTxHash Sender TxHash DeriveSha Sign).

(** A step keeps the identity and the epoch of the emitter. *)
Definition same_emitter (em em' : Em) : Prop :=
  em_config em' = em_config em ∧ em_epoch em' = em_epoch em ∧ em_validators em' = em_validators em ∧
  em_maxParents em' = em_maxParents em.

Lemma finish_event_inv tm n (sorted : option Q) metric headers sp (e : Me) (em em' : Em) (x x' : X) r :
  finish tm n sorted metric headers sp e (em, x) = (Ok r, (em', x')) →
  x' = x ∧ same_emitter em em' ∧
  (∀ ev, r = Some ev → placed_as e ev ∧ w_Check ev headers x = Ok tt ∧ allowed x em e true metric sp = true).
Proof.
  unfold finish_event. rewrite em_bind_get. cbv beta iota.
  destruct (allowed x em e true metric sp); cbn [negb]; [|by intros [= <- <- <-]].
  intros E. apply em_bind_Ok in E as ([[e1 p] t] & s1 & Ea & E). injection Ea as Ea <-.
  apply add_txs_place in Ea as [Hb Ht]. rewrite em_bind_modify, em_bind_get in E. cbn [fst snd] in E.
  assert (Hsame : same_emitter em (em_set_pending p t em)) by done.
  destruct (_ && _); [by injection E as <- <- <-|].
  apply em_bind_Ok in E as (h & s2 & Eh & E). injection Eh as _ <-.
  destruct (Sign (ec_PubKey (em_config (em_set_pending p t em))) h) as [bSig|err|]; [|by injection E as <- <- <-|done].
  apply em_bind_Ok in E as (ev & s3 & Eb & E). injection Eb as Eb <-.
  apply Build_placed in Eb. unfold placed_as in Eb. cbn [set_sig set_txHash with_ext me_base me_ext creationTime] in Eb.
  destruct (w_Check ev headers x) as [[]|err|] eqn:Ec; [|by injection E as <- <- <-|done].
  injection E as <- <- <-. split_and!; try done. intros ev' [= <-]. split; [|done]. unfold placed_as. by rewrite <- Hb, <- Ht.
Qed.

(** What the emitter knows of an event it creates. *)
Record well_placed (em : Em) (x : X) (ev : Ev) : Prop := {
  wp_epoch : Epoch (ev_base (ep_event ev)) = em_epoch em;
  wp_creator : Creator (ev_base (ep_event ev)) = ec_ID (em_config em);
  wp_seq : match w_GetLastEvent (em_epoch em) (ec_ID (em_config em)) x with
           | None => Seq (ev_base (ep_event ev)) = 1
           | Some sp => ∃ h, w_GetEvent sp x = Some h ∧ Parents (ev_base (ep_event ev)) !! 0%nat = Some sp ∧
               Seq (ev_base (ep_event ev)) = Seq (ev_base h) + 1 ∧
               creationTime (ev_ext h) < creationTime (ev_ext (ep_event ev))
           end;
  wp_lamport : ∀ p, p ∈ Parents (ev_base (ep_event ev)) →
    ∃ h, w_GetEvent p x = Some h ∧ Lamport (ev_base h) < Lamport (ev_base (ep_event ev));
  wp_others : ∀ i p h, Parents (ev_base (ep_event ev)) !! S i = Some p → w_GetEvent p x = Some h →
    Creator (ev_base h) ≠ ec_ID (em_config em);
  wp_count : len (Parents (ev_base (ep_event ev))) <= em_maxParents em;
  wp_checked : ∃ headers x', Forall2 (λ p h, w_GetEvent p x = Some h) (Parents (ev_base (ep_event ev))) headers ∧
    w_Check ev headers x' = Ok tt;
}.

(** The time of an event is after its self-parent's. *)
Lemma MaxTimestamp_after now t : 0 <= t < 2 ^ 63 → is_u64 now → t < MaxTimestamp now (u64 (t + 1)).
Proof.
  intros Ht Hn. unfold MaxTimestamp. rewrite u64_id by (unfold is_u64; lia).
  destruct (Z.ltb_spec (t + 1) now); lia.
Qed.

(** The event before it is built is placed after its parents. *)
Lemma zero_event_placed tm (em : Em) (x : X) sp parents headers maxLamport spHeader (e : Me) ev x' :
  w_inv x → 1 <= em_maxParents em < 2 ^ 32 → is_u64 (tm_create tm) →
  chooseParents (em_epoch em) (ec_ID (em_config em)) x em = Ok (Some (sp, parents)) →
  parent_headers true (ec_ID (em_config em)) parents 0 x = Ok (Some (headers, maxLamport)) →
  spHeader = (match sp with None => None | Some _ => headers !! 0%nat end) →
  (sp ≠ None → spHeader ≠ None) →
  e = zero_event (em_epoch em) (u32 (match spHeader with Some h => Seq (ev_base h) | None => 0 end + 1)) (ec_ID (em_config em))
        (u32 (maxLamport + 1)) parents
        (MaxTimestamp (tm_create tm) (u64 (match spHeader with Some h => creationTime (ev_ext h) | None => 0 end + 1))) →
  placed_as e ev → w_Check ev headers x' = Ok tt → well_placed em x ev.
Proof.
  intros Hx Hmax Htm Hch Hph Hsp Hsome -> (Eep & Eseq & Ecr & Elam & Epar & Etime) Hcheck.
  cbn [zero_event me_base me_ext Epoch Seq Creator Lamport Parents creationTime] in *.
  destruct (chooseParents_spec _ _ _ _ _ _ Hch Hmax) as (Elast & Hlen & Hfirst).
  destruct (parent_headers_spec _ _ _ _ _ _ _ Hx Hph ltac:(lia)) as (HF & Hl & Hlams & Hothers).
  rewrite (u32_id (maxLamport + 1)) in Elam by (unfold is_u32; lia).
  split; try done.
  - rewrite <- Elast. destruct sp as [id|].
    + destruct (Hfirst id eq_refl) as [ps ->]. inversion HF as [|? h ? hs Eh HF']. subst. exists h. split; [done|].
      cbn in Eseq, Etime |- *. destruct (w_Seq_range id x h Hx Eh) as (Hs & _ & Ht). rewrite Epar, Eseq, Etime.
      rewrite u32_id by (unfold is_u32; lia). split; [done|]. split; [lia|]. by apply MaxTimestamp_after.
    + subst spHeader. rewrite Eseq. done.
  - rewrite Epar. intros q [k Hk]%list_elem_of_lookup. destruct (Forall2_lookup_l _ _ _ _ _ HF Hk) as (h & Hh & Eq).
    exists h. split; [done|]. pose proof (Forall_lookup_1 _ _ _ _ Hlams Hh). cbn in *. lia.
  - rewrite Epar. intros k q h Hk Eq. destruct (Forall2_lookup_l _ _ _ _ _ HF Hk) as (h' & Hk' & Eq'). assert (h' = h) as -> by congruence.
    rewrite Forall_lookup in Hothers. apply (Hothers k). by rewrite lookup_drop.
  - by rewrite Epar.
  - rewrite Epar. by exists headers, x'.
Qed.

Lemma createEvent_inv tm rate n (sorted : option Q) (em em' : Em) (x x' : X) r :
  w_inv x → 1 <= em_maxParents em < 2 ^ 32 → is_u64 (tm_create tm) →
  create tm rate n sorted (em, x) = (Ok r, (em', x')) →
  same_emitter em em' ∧ w_inv x' ∧ (∀ ev, w_fit ev x → w_fit ev x') ∧
  (∀ epoch v id, w_GetLastEvent epoch v x' = w_GetLastEvent epoch v x ∧ w_GetEvent id x' = w_GetEvent id x) ∧
  (∀ ev, r = Some ev → isValidator em = true ∧ (isSyncedToEmit (tm_sync tm) x em).2 = None ∧ well_placed em x ev).
Proof.
  intros Hx Hmax Htm. unfold createEvent. rewrite em_bind_get. cbv beta iota zeta.
  destruct (isValidator em) eqn:Ev; cbn [negb]; [|by intros [= <- <- <-]].
  destruct (isSyncedToEmit (tm_sync tm) x em).2 as [err|]; [by intros [= <- <- <-]|]. intros E.
  apply em_bind_Ok in E as (choice & s1 & Ec & E). injection Ec as Ec <-.
  destruct choice as [[sp parents]|]; [|by injection E as <- <- <-].
  apply em_bind_Ok in E as (hs & s2 & Eh & E). injection Eh as Eh <-.
  destruct hs as [[headers maxLamport]|]; [|by injection E as <- <- <-].
  apply em_bind_Ok in E as (spHeader & s3 & Es & E).
  assert (Hsp : s3 = (em, x) ∧ spHeader = (match sp with None => None | Some _ => headers !! 0%nat end) ∧ (sp ≠ None → spHeader ≠ None)).
  { destruct sp as [id|]; [|by injection Es as <- <-]. apply em_bind_Ok in Es as (h & s4 & Ei & Es). injection Ei as Ei <-.
    injection Es as <- <-. split; [done|]. split; [|done]. unfold index in Ei. cbn in Ei.
    destruct headers as [|h0 hs0]; [discriminate Ei|]. by injection Ei as <-. }
  clear Es. destruct Hsp as (-> & Hsp & Hsome).
  set (e := zero_event _ _ _ _ _ _) in E. destruct (w_Build (metric_of rate em) e x) as [built x1] eqn:Eb.
  rewrite em_bind_modify in E. cbn [fst] in E.
  pose proof (w_Build_keeps (metric_of rate em) e x Hx) as Hkeep. rewrite Eb in Hkeep. destruct Hkeep as (Hx1 & Hfit & Hreads).
  destruct built as [[metric e1]|err|]; [|by injection E as <- <- <-|done].
  apply finish_event_inv in E as (-> & Hsame & Hev). do 4 (split; [done|]).
  intros ev ->. destruct (Hev ev eq_refl) as (Hp & Hcheck & _). split; [done|]. split; [done|].
  destruct (w_Build_fields _ _ _ _ _ _ Eb) as (E1 & E2 & E3 & E4 & E5 & E6 & _).
  eapply (zero_event_placed tm em x sp parents headers maxLamport spHeader e ev x1); try done.
  unfold placed_as in *. by rewrite <- E1, <- E2, <- E3, <- E4, <- E5, <- E6.
Qed.

Lemma getSortedTxs_inv now (em em' : Em) (x x' : X) sorted :
  getSortedTxs now (em, x) = (Ok sorted, (em', x')) → x' = x ∧ ∃ c, em' = em_set_cache c em.
Proof.
  assert (Hid : em = em_set_cache (em_cache em) em) by by destruct em.
  unfold getSortedTxs. rewrite em_bind_get. cbv beta iota zeta.
  assert (Hrebuild : ∀ c0, (match w_Pending x with
      | Ok pendingTxs =>
          _ ← em_modify (λ s, (em_set_cache (c0 pendingTxs) s.1, s.2)); mret (Some (q_New ((λ txs, take (Z.to_nat (ec_MaxTxsPerAddress (em_config em))) txs) <$> pendingTxs)))
      | Err _ => mret None | Panic => em_lift Panic end) (em, x) = (Ok sorted, (em', x')) → x' = x ∧ ∃ c, em' = em_set_cache c em).
  { intros c0 E. destruct (w_Pending x) as [p|err|]; [|by injection E as <- <- <-; eauto|done].
    rewrite em_bind_modify in E. injection E as <- <- <-. eauto. }
  destruct (em_cache em) as [c|]; [|apply (Hrebuild (λ p, Some _))].
  destruct (_ && _); [|apply (Hrebuild (λ p, Some _))]. intros [= <- <- <-]. eauto.
Qed.

(** The event that an attempt creates and has processed, if any. *)
Definition created_by (tm : Times) (rate : Z) (n : nat) (s : Em * X) : option Ev :=
  if ec_ID (em_config s.1) =? 0 then None
  else match getSortedTxs (tm_sync tm) s with
       | (Ok sorted, s1) =>
           if w_IsBusy s.2 then None
           else match create tm rate n sorted s1 with (Ok c, _) => c | _ => None end
       | _ => None
       end.

(** It is new in the node after the attempt. *)
Definition own_new (tm : Times) (rate : Z) (n : nat) (s : Em * X) (x' : X) : list Ev :=
  match created_by tm rate n s with
  | Some ev =>
      let id := ID (ev_base (ep_event ev)) in
      if bool_decide (w_GetEvent id s.2 = None ∧ w_GetEvent id x' ≠ None) then [ev] else []
  | None => []
  end.

Lemma em_OnNewEpoch_epoch now (x : X) v epoch (em em' : Em) : em_OnNewEpoch now x v epoch em = Ok em' → em_epoch em' = epoch.
Proof.
  unfold em_OnNewEpoch. destruct (negb _); [by intros [= <-]|]. by intros (c & _ & [= <-])%res_bind_Ok.
Qed.

(** The last hook decides the epoch of the emitter. *)
Lemma hooks_new_epoch now (x : X) em0 hs v epoch (em' : Em) :
  foldl (run_em_hook EmptyTxHash Sender now x) em0 (hs ++ [HNewEpoch v epoch]) = Ok em' → em_epoch em' = epoch.
Proof.
  rewrite foldl_app. cbn [foldl]. unfold run_em_hook at 1. intros (em1 & _ & E)%res_bind_Ok. by eapply em_OnNewEpoch_epoch.
Qed.

(** The last own event and the stored events, as they were. *)
Definition same_reads (x x' : X) : Prop :=
  ∀ epoch v id, w_GetLastEvent epoch v x' = w_GetLastEvent epoch v x ∧ w_GetEvent id x' = w_GetEvent id x.

(** What an attempt that connects [ev] did. *)
Record connects (tm : Times) (em : Em) (x : X) (ev : Ev) (em' : Em) (x' : X) : Prop := {
  co_validator : isValidator em = true;
  co_synced : (isSyncedToEmit (tm_sync tm) x em).2 = None;
  co_free : w_IsBusy x = false;
  co_placed : well_placed em x ev;
  co_known : w_GetEvent (ID (ev_base (ep_event ev))) x' = Some (ep_event ev);
  co_last : w_GetLastEvent (em_epoch em) (ec_ID (em_config em)) x' = Some (ID (ev_base (ep_event ev))) ∨
    em_epoch em' ≠ em_epoch em;
}.

(** An attempt changes nothing that can be read, or connects the event it created. *)
Lemma EmitEvent_inv tm rate n (em em' : Em) (x x' : X) r :
  1 <= em_maxParents em < 2 ^ 32 → is_u64 (tm_create tm) → w_inv x →
  (∀ ev, created_by tm rate n (em, x) = Some ev → w_fit ev x) →
  emit tm rate n (em, x) = (Ok r, (em', x')) →
  w_inv x' ∧
  (own_new tm rate n (em, x) x' = [] ∧ r = None ∧ same_reads x x'
   ∨ ∃ ev, own_new tm rate n (em, x) x' = [ev] ∧ (r = None ∨ r = Some ev) ∧ connects tm em x ev em' x').
Proof.
  intros Hmax Htm Hx. unfold EmitEvent, own_new, created_by. rewrite em_bind_get. cbn [fst snd]. cbv beta iota zeta.
  destruct (_ =? 0); [intros _ [= <- _ <-]; by split; [|left]|]. intros Hfit E. apply em_bind_Ok in E as (sorted & [em1 x1] & Es & E).
  rewrite Es in *. apply getSortedTxs_inv in Es as (-> & c & ->).
  destruct (w_IsBusy x) eqn:Ebusy; [injection E as <- _ <-; by split; [|left]|].
  apply em_bind_Ok in E as (created & [em2 x2] & Ec & E). rewrite Ec in *.
  apply createEvent_inv in Ec as (Hsame & Hx2 & Hfits & Hreads & Hev); [|done..].
  destruct created as [ev|]; [|injection E as <- _ <-; by split; [|left]].
  destruct (Hev ev eq_refl) as (Hv & Hsync & Hwp). rewrite em_bind_get in E. cbv beta iota zeta in E.
  destruct (w_Process ev x2) as [[err x3] hooks] eqn:Ep.
  apply em_bind_Ok in E as (em4 & s4 & Eh & E). injection Eh as Eh _. rewrite em_bind_modify in E.
  assert (Hpar : ∀ p, p ∈ Parents (ev_base (ep_event ev)) → is_Some (w_GetEvent p x2)).
  { intros p Hp. destruct (wp_lamport _ _ _ Hwp p Hp) as (h & Eg & _). destruct (Hreads 0 0 p) as [_ ->]. by exists h. }
  assert (Hno : err ≠ Panic) by by intros ->.
  destruct (w_Process_outcome ev x2 err x3 hooks Hx2 (Hfits ev (Hfit ev eq_refl)) Hpar Ep Hno)
    as [Hx3 [[[err' ->] Hr]|(Hnew & Hknown & Hlast)]].
  - injection E as <- _ <-. split; [done|]. left. rewrite bool_decide_false.
    + split_and!; [done..|]. intros epoch v id. destruct (Hr epoch v id) as [-> ->]. apply Hreads.
    + destruct (Hr 0 0 (ID (ev_base (ep_event ev)))) as [_ ->]. destruct (Hreads 0 0 (ID (ev_base (ep_event ev)))) as [_ ->]. naive_solver.
  - assert (Hfin : x' = x3 ∧ em_epoch em' = em_epoch em4 ∧ (r = None ∨ r = Some ev)).
    { destruct err as [[]|err|]; [| |done].
      - rewrite em_bind_modify in E. injection E as <- <- <-. unfold writeLastEmittedEventID. destruct (negb _); auto.
      - injection E as <- <- <-. auto. }
    clear E. destruct Hfin as (-> & Eep & Hr). split; [done|]. right. exists ev.
    destruct (Hreads 0 0 (ID (ev_base (ep_event ev)))) as [_ Hg]. rewrite Hg in Hnew.
    rewrite bool_decide_true by (by rewrite Hnew, Hknown). split; [done|]. split; [done|].
    assert (Hwp' : well_placed em x ev) by (by destruct Hwp; split). split; try done.
    pose proof (wp_epoch _ _ _ Hwp) as We. pose proof (wp_creator _ _ _ Hwp) as Wc. cbn [em_epoch em_config em_set_cache] in We, Wc.
    rewrite We, Wc in Hlast. destruct Hlast as [|(v & epoch & pre & -> & Hne)]; [by left|right].
    apply hooks_new_epoch in Eh. congruence.
Qed.

(** An event is emitted by a validator that is synced, on the node's last own event: it
    has the next sequence number and a later time, a higher Lamport time than its
    parents, no other own parent and at most the allowed number of them, and passed the
    checkers; afterwards it is the validator's last event, unless it sealed the epoch. *)
Theorem emitted_event_well_placed tm rate n (em em' : Em) (x x' : X) ev :
  1 <= em_maxParents em < 2 ^ 32 → is_u64 (tm_create tm) → w_inv x →
  (∀ ev, created_by tm rate n (em, x) = Some ev → w_fit ev x) →
  emit tm rate n (em, x) = (Ok (Some ev), (em', x')) → connects tm em x ev em' x'.
Proof.
  intros Hmax Htm Hx Hfit E.
  destruct (EmitEvent_inv tm rate n em em' x x' (Some ev) Hmax Htm Hx Hfit E) as [_ [(_ & ? & _)|(ev' & _ & [?|[= ->]] & Hc)]]; done.
Qed.

(** *** A validator that runs on one node does not fork *)

(** A run within an epoch, with the own events that became known to the node, broadcast
    or not, and those that were broadcast: attempts to emit, the last of which may seal
    the epoch, between which the node moves on with events of other validators. *)
Inductive emitter_run : Em → X → list Ev → list Ev → Em → X → Prop :=
  | er_done em x : emitter_run em x [] [] em x
  | er_attempt tm rate n em x r em1 x1 evs sent em2 x2 :
      is_u64 (tm_create tm) → (∀ ev, created_by tm rate n (em, x) = Some ev → w_fit ev x) →
      emit tm rate n (em, x) = (Ok r, (em1, x1)) → same_emitter em em1 →
      emitter_run em1 x1 evs sent em2 x2 →
      emitter_run em x (own_new tm rate n (em, x) x1 ++ evs) (option_list r ++ sent) em2 x2
  | er_seal tm rate n em x r em1 x1 :
      is_u64 (tm_create tm) → (∀ ev, created_by tm rate n (em, x) = Some ev → w_fit ev x) →
      emit tm rate n (em, x) = (Ok r, (em1, x1)) → em_epoch em1 ≠ em_epoch em →
      emitter_run em x (own_new tm rate n (em, x) x1) (option_list r) em1 x1
  | er_world em x em1 x1 evs sent em2 x2 :
      w_inv x1 → same_emitter em em1 →
      w_GetLastEvent (em_epoch em) (ec_ID (em_config em)) x1 = w_GetLastEvent (em_epoch em) (ec_ID (em_config em)) x →
      (∀ id, w_GetLastEvent (em_epoch em) (ec_ID (em_config em)) x = Some id → w_GetEvent id x1 = w_GetEvent id x) →
      emitter_run em1 x1 evs sent em2 x2 → emitter_run em x evs sent em2 x2.

(** The sequence number of the validator's last event in the epoch. *)
Definition last_seq (em : Em) (x : X) : Z :=
  match w_GetLastEvent (em_epoch em) (ec_ID (em_config em)) x with
  | Some id => match w_GetEvent id x with Some h => Seq (ev_base h) | None => 0 end
  | None => 0
  end.

(** The first parent of each event is the event before it. *)
Definition self_parents (first : option EventID) (evs : list Ev) : Prop :=
  ∀ i b, evs !! i = Some b →
    match i with
    | O => ∀ id, first = Some id → Parents (ev_base (ep_event b)) !! 0%nat = Some id
    | S k => Parents (ev_base (ep_event b)) !! 0%nat = (λ a : Ev, ID (ev_base (ep_event a))) <$> evs !! k
    end.

(** The own events of a run, one after the other from the last own event. *)
Definition one_chain (em : Em) (x : X) (evs : list Ev) : Prop :=
  (λ e, Seq (ev_base (ep_event e))) <$> evs = seqZ (last_seq em x + 1) (len evs) ∧
  self_parents (w_GetLastEvent (em_epoch em) (ec_ID (em_config em)) x) evs ∧
  Forall (λ e, Creator (ev_base (ep_event e)) = ec_ID (em_config em) ∧ Epoch (ev_base (ep_event e)) = em_epoch em) evs.

Lemma well_placed_next (em : Em) (x : X) ev : well_placed em x ev →
  Seq (ev_base (ep_event ev)) = last_seq em x + 1 ∧
  ∀ id, w_GetLastEvent (em_epoch em) (ec_ID (em_config em)) x = Some id → Parents (ev_base (ep_event ev)) !! 0%nat = Some id.
Proof.
  intros [_ _ Ws _ _ _ _]. unfold last_seq. destruct (w_GetLastEvent _ _ x) as [id|]; [|done].
  destruct Ws as (h & -> & Hp & Hs & _). split; [done|]. by intros ? [= <-].
Qed.

Lemma one_chain_single (em : Em) (x : X) ev : well_placed em x ev → one_chain em x [ev].
Proof.
  intros Hw. destruct (well_placed_next em x ev Hw) as [Hs Hp]. split_and!.
  - cbn. by rewrite Hs.
  - intros [|i] b Hi; [|done]. by injection Hi as <-.
  - constructor; [|done]. split; [by apply Hw|by apply (wp_epoch _ _ _ Hw)].
Qed.

Lemma one_chain_cons (em em1 : Em) (x x1 : X) ev evs :
  well_placed em x ev → same_emitter em em1 → w_GetEvent (ID (ev_base (ep_event ev))) x1 = Some (ep_event ev) →
  w_GetLastEvent (em_epoch em) (ec_ID (em_config em)) x1 = Some (ID (ev_base (ep_event ev))) →
  one_chain em1 x1 evs → one_chain em x (ev :: evs).
Proof.
  intros Hw (Ec & Ee & _) Hk Hl (Hseq & Hpar & Hall). destruct (well_placed_next em x ev Hw) as [Hs Hsp].
  unfold last_seq in Hseq. rewrite Ec, Ee, Hl in *. rewrite Hk in Hseq. split_and!.
  - rewrite fmap_cons, Hseq, Hs. unfold len. cbn [length]. rewrite Nat2Z.inj_succ, (seqZ_cons (last_seq em x + 1)) by lia.
    f_equal. f_equal; lia.
  - intros [|i] b Hi; cbn in Hi.
    + by injection Hi as <-.
    + specialize (Hpar i b Hi). destruct i; cbn; [by apply Hpar|done].
  - constructor; [|done]. split; [by apply Hw|by apply (wp_epoch _ _ _ Hw)].
Qed.

Lemma one_chain_reads (em em1 : Em) (x x1 : X) evs :
  same_emitter em em1 →
  w_GetLastEvent (em_epoch em) (ec_ID (em_config em)) x1 = w_GetLastEvent (em_epoch em) (ec_ID (em_config em)) x →
  (∀ id, w_GetLastEvent (em_epoch em) (ec_ID (em_config em)) x = Some id → w_GetEvent id x1 = w_GetEvent id x) →
  one_chain em1 x1 evs → one_chain em x evs.
Proof.
  intros (Ec & Ee & _) Hl Hg (Hseq & Hpar & Hall). unfold one_chain.
  assert (Els : last_seq em1 x1 = last_seq em x).
  { unfold last_seq. rewrite Ec, Ee, Hl. destruct (w_GetLastEvent _ _ x) as [id|] eqn:Ei; [|done]. by rewrite (Hg id eq_refl). }
  rewrite Ec, Ee in *. rewrite Els in Hseq. rewrite Hl in Hpar. done.
Qed.

Lemma emitter_run_chain (em em' : Em) (x x' : X) evs sent :
  1 <= em_maxParents em < 2 ^ 32 → w_inv x → emitter_run em x evs sent em' x' →
  one_chain em x evs ∧ sent `sublist_of` evs.
Proof.
  intros Hmax Hx Hr. induction Hr as [em x|tm rate n em x r em1 x1 evs sent em2 x2 Htm Hfit E Hs _ IH
    |tm rate n em x r em1 x1 Htm Hfit E Hne|em x em1 x1 evs sent em2 x2 Hx1 Hs Hl Hg _ IH].
  - split; [|done]. split_and!; [done|by intros [|i] b|constructor].
  - pose proof Hs as (Ec & Ee & _ & Em).
    destruct (EmitEvent_inv tm rate n em em1 x x1 r Hmax Htm Hx Hfit E) as [Hx1 [(-> & -> & Hreads)|(ev & -> & Hev & Hc)]];
      rewrite Em in IH; destruct (IH Hmax Hx1) as [Hch Hsub]; cbn [app option_list].
    + split; [|done]. apply (one_chain_reads em em1 x x1); [done| |intros id _|done]; apply (Hreads _ _ zero_ID) || apply (Hreads 0 0 id).
    + destruct Hc as [_ _ _ Hwp Hk [Hl|Hne]]; [|by rewrite Ee in Hne]. split; [by apply (one_chain_cons em em1 x x1)|].
      destruct Hev as [-> | ->]; cbn; by constructor.
  - destruct (EmitEvent_inv tm rate n em em1 x x1 r Hmax Htm Hx Hfit E) as [_ [(-> & -> & _)|(ev & -> & Hev & Hc)]].
    + split; [|done]. split_and!; [done|by intros [|i] b|constructor].
    + split; [by apply one_chain_single, Hc|]. destruct Hev as [-> | ->]; cbn; [apply sublist_nil_l|done].
  - pose proof Hs as (Ec & Ee & _ & Em). rewrite Em in IH. destruct (IH Hmax Hx1) as [Hch Hsub]. split; [|done].
    by apply (one_chain_reads em em1 x x1).
Qed.
End emitted.

(** ** A concrete world *)

(** Events by identifier, and the last event of each validator in each epoch. *)
Notation DemoWorld := (gmap Hash (Event Hash) * gmap (Z * Z) Hash)%type.

#[global] Instance in_range_dec {EventID} (e : Event EventID) : Decision (in_range e).
Proof. unfold in_range. apply _. Defined.

#[global] Instance demo_world : EmitterWorld Hash Group DemoWorld := {
  w_GetRules _ := MainNetRules;
  w_GetLatestBlockIndex _ := 5;
  w_GetGenesisTime _ := 0;
  w_GetEvent id x := x.1 !! id;
  w_GetLastEvent epoch v x := x.2 !! (epoch, v);
  w_GetHeads _ x := Ok (map_to_list x.1).*1;
  w_GetRecommendedGasPrice _ := 5;
  w_NoCheaters _ l _ := Ok l;
  w_IsBusy _ := false;
  w_IsSynced _ := true;
  w_PeersNum _ := 3;
  w_Build f e x := (m ← f x e; Ok (m, SetGasPowerLeft (mkGasPowerLeft [10 ^ 9; 10 ^ 9]) e), x);
  w_Check _ _ _ := Ok tt;
  w_Process e x :=
    if bool_decide (x.1 !! ID (ev_base (ep_event e)) = None)
    then (Ok tt, (<[ID (ev_base (ep_event e)) := ep_event e]> x.1,
                  <[(Epoch (ev_base (ep_event e)), Creator (ev_base (ep_event e))) := ID (ev_base (ep_event e))]> x.2), [HConnected e])
    else (Err ErrAlreadyConnectedEvent, x, []);
  w_Has _ _ := true;
  w_Count _ := 0;
  w_Pending _ := Ok ∅;
}.

#[global] Instance demo_world_laws : EmitterWorldLaws Hash Group DemoWorld.
Proof.
  refine {| w_inv := λ x : DemoWorld, ∀ id e, x.1 !! id = Some e → in_range e; w_fit := λ ev _, in_range (ep_event ev) |}.
  - intros f e x a e' x' E. unfold w_Build, demo_world in E. injection E as E _. apply res_bind_Ok in E as (m & _ & [= _ <-]). done.
  - done.
  - intros e x r x' hs b Hx Hf _. unfold w_Process, demo_world. case_bool_decide as Hn; intros [= <- <- <-] _.
    + split.
      * intros id e'. cbn. intros [[_ <-]|[_ E]]%lookup_insert_Some; [done|by apply (Hx id)].
      * right. cbn. rewrite !lookup_insert_eq. auto.
    + split; [done|]. left. split; [by eexists|done].
  - intros id x e Hx. apply Hx.
Defined.

(** The first heads that are not parents yet, as many as there are strategies. *)
#[global] Instance demo_ancestor : AncestorLib Hash Group DemoWorld unit unit unit := {
  an_NewQuorumIndexer _ := tt;
  an_QuorumProcess _ _ _ q := q;
  an_GetMetricOf _ _ _ := 500000;
  an_QuorumStrategy _ := tt;
  an_NewPayloadIndexer _ := tt;
  an_PayloadProcess _ _ p := p;
  an_PayloadStrategy _ := tt;
  an_NewRandomStrategy := tt;
  an_ChooseParents existing options strategies :=
    existing ++ take (length strategies) (filter (λ p, p ∉ existing) options);
}.
#[global] Instance demo_ancestor_laws : AncestorLibLaws Hash Group DemoWorld unit unit unit.
Proof.
  split. intros existing options strategies. eexists. split; [done|]. split.
  - intros p [i Hi]%list_elem_of_lookup. apply lookup_take_Some in Hi as [Hi%list_elem_of_lookup_2 _].
    by apply list_elem_of_filter in Hi as [_ ?].
  - rewrite length_take. lia.
Qed.

#[global] Instance demo_doublesign : DoubleSign := {
  SyncedToEmit _ _ := (0, None);
  DetectParallelInstance _ _ := false;
}.
#[global] Instance demo_queue_new : TxQueueNew (list Transaction) := { q_New m := concat (map_to_list m).*2 }.

Definition demo_emitter : Emitter (EventID := Hash) (V := Group) (Q := list Transaction) (L := gmap Address Z)
    (T := gmap (list Z) Z) (QI := unit) (PI := unit) :=
  mkEmitter demo_cfg1 demo_control demo_p0 ∅ (mkSyncStatus 0 0 0 zero_ID 0 0 0) demo_group 7 10 tt tt None true None.

Definition demo_times (t : Z) : Times := mkTimes t t (λ _, t) t.

Notation demo_emit := (EmitEvent demo_sha256 demo_EmptyTxHash demo_sender (λ tx, [tx_Nonce tx]) (λ _, replicate 32 8)
  (λ _ _, Ok (replicate 64 1)) (demo_times (3600 * Second)) 0 1).

Lemma demo_fit ev :
  created_by demo_sha256 demo_EmptyTxHash demo_sender (λ tx, [tx_Nonce tx]) (λ _, replicate 32 8) (λ _ _, Ok (replicate 64 1))
    (demo_times (3600 * Second)) 0 1 (demo_emitter, (∅, ∅)) = Some ev → w_fit ev (∅, ∅).
Proof.
  intros E. assert (Hc : match created_by demo_sha256 demo_EmptyTxHash demo_sender (λ tx, [tx_Nonce tx]) (λ _, replicate 32 8)
      (λ _ _, Ok (replicate 64 1)) (demo_times (3600 * Second)) 0 1 (demo_emitter, (∅, ∅)) with
    | Some ev => bool_decide (in_range (ep_event ev)) | None => true end = true) by (vm_compute; reflexivity).
  rewrite E in Hc. by apply bool_decide_eq_true in Hc.
Qed.

Lemma demo_empty_inv : w_inv (∅ : gmap Hash (Event Hash), ∅ : gmap (Z * Z) Hash).
Proof. intros id e. cbn. by rewrite lookup_empty. Qed.

(** The first event of the validator in an epoch. *)
Lemma emitted_event_well_placed_witness :
  ∃ ev em' x', demo_emit (demo_emitter, (∅, ∅)) = (Ok (Some ev), (em', x')) ∧
    connects (demo_times (3600 * Second)) demo_emitter (∅, ∅) ev em' x'.
Proof.
  destruct (demo_emit (demo_emitter, (∅, ∅))) as [r [em' x']] eqn:E.
  assert (Er : match (demo_emit (demo_emitter, (∅, ∅))).1 with Ok (Some _) => true | _ => false end = true)
    by (vm_compute; reflexivity).
  rewrite E in Er. destruct r as [[ev|]|err|]; try discriminate Er.
  exists ev, em', x'. split; [reflexivity|].
  apply (emitted_event_well_placed demo_sha256 demo_EmptyTxHash demo_sender (λ tx, [tx_Nonce tx]) (λ _, replicate 32 8)
    (λ _ _, Ok (replicate 64 1)) (demo_times (3600 * Second)) 0 1 demo_emitter em' (∅, ∅) x' ev).
  - split; vm_compute; congruence.
  - split; vm_compute; congruence.
  - exact demo_empty_inv.
  - exact demo_fit.
  - exact E.
Defined.
