(* ===== verification/ServiceWorld.v ===== *)
(** * The node as the emitter's world (gossip/emitter_world.go)

    [emitterWorld] gives the emitter the service of [Service.v]: reading goes to its store,
    building and processing an event to [buildEvent] and [processEvent], whose calls of the
    emitter's hooks are collected in order.  The laws that the emitter relies on are proved
    of it, and with them that the emitter does not fork. *)

From S2P Require Import Prelude Cser Inter Instances TxSer EventSer Rules Pos EvmState GasPower EventCheck Shuffle.
From S2P Require Import Piecefunc Emitter EmitterTxs BlockProc Heap Store Service Emission.

(** What is around the service: the block index, the pool, the peers, and what the commit of
    an event finds and answers. *)
Record NodeEnv := mkNodeEnv {
  ne_LatestBlockIndex : Z;
  ne_GenesisTime : Z;
  ne_GasPrice : Z;
  ne_Busy : bool;
  ne_Synced : bool;
  ne_PeersNum : Z;
  ne_Has : list Z → bool;
  ne_Count : Z;
  ne_Pending : res (gmap Address (list Transaction));
  ne_StoreConfig : StoreConfig;
  ne_SinceFlush : Z;
  ne_NotFlushed : Z;
  ne_Flushed : res unit;
}.

(** The service calls the hooks of the emitter; here it lists the calls. *)
#[global] Instance hooks_log {EventID V : Type} : EmitterHooks EventID V (list (em_hook EventID V)) := {
  hk_OnEventConnected e l := l ++ [HConnected e];
  hk_OnNewEpoch v epoch l := l ++ [HNewEpoch v epoch];
}.

Section world.
Context {EventID : Type} `{EventIDs EventID} `{!Countable EventID} `{!DagEvents EventID} `{!EventBytes EventID}
  `{RlpBytes} `{IdxBytes} `{MapRange}.
Context {V : Type} `{Pos V} `{GasTable}.
Context {CE CH : Type} `{!Wlru EventID (EventPayload EventID) CE} `{!Wlru EventID (Event EventID) CH}.
Context {D W : Type} `{!DagIndexer EventID V D} `{!Engine EventID V W}.
Variable sha256 : list Z → list Z.
Variable EmptyTxHash : list Z.
Variable deriveChainId : Z → Z.
Variable EpochState_Hash : EpochState V EventID → list Z.
Variable base_basic base_epoch : baseEvent EventID → res unit.
Variable base_parents : baseEvent EventID → list (baseEvent EventID) → res unit.
Variable VerifySignature : list Z → list Z → list Z → bool.
Variable Sender : Transaction → res (list Z).
Variable DeriveSha : list Transaction → list Z.
Variable open_db : Z → option (list Z) * option (list Z).
Variable VersionToPublish : list Z.
(** The vector clock's filter of cheaters, and the events that the engine confirms. *)
Variable dx_NoCheaters : option EventID → list EventID → D → res (list EventID).
Variable en_Confirmed : EventPayload EventID → W → list (EventPayload EventID).
Notation Ev := (EventPayload EventID).
Notation Me := (MutableEventPayload EventID).
Notation Sv := (Service (EventID := EventID) (V := V) (CE := CE) (CH := CH) (D := D) (W := W) (M := list (em_hook EventID V))).

(** ** Reading *)

(** The caches that a read fills are not part of what the emitter sees. *)
Definition world_GetEvent (id : EventID) (x : Sv * NodeEnv) : option (Event EventID) :=
  match (svc_GetEvent sha256 EmptyTxHash deriveChainId id x.1).1 with Ok e => e | _ => None end.

(** Nil for another epoch than the current one. *)
Definition world_GetLastEvent (epoch vid : Z) (x : Sv * NodeEnv) : option EventID :=
  let es := sv_epochStore x.1 in
  if negb (eps_epoch es =? epoch) then None
  else match GetLastEvents es with Ok (lasts, _) => lasts !! vid | _ => None end.

(** The heads of another epoch are nil, and a use of nil panics. *)
Definition world_GetHeads (epoch : Z) (x : Sv * NodeEnv) : res (list EventID) :=
  let es := sv_epochStore x.1 in
  if negb (eps_epoch es =? epoch) then Panic
  else '(heads, _) ← Store.GetHeads es; Ok (range_of (gset_to_gmap tt heads)).*1.

(** ** Checking, building and processing *)

Definition world_checkers (x : Sv * NodeEnv) : Checkers (EventID := EventID) (V := V) :=
  mkCheckers base_basic base_epoch base_parents (es_Rules (sv_es x.1), es_Epoch (sv_es x.1)) (sv_gasCtx x.1)
    (sv_pubKeys x.1) VerifySignature Sender DeriveSha.

Definition world_Check (e : Ev) (parents : list (Event EventID)) (x : Sv * NodeEnv) : res unit :=
  Checkers_Validate (world_checkers x) e parents.

(** The callback runs while the event is in the vector clock. *)
Definition world_Build (onIndexed : Sv * NodeEnv → Me → res Z) (e : Me) (x : Sv * NodeEnv) : res (Z * Me) * (Sv * NodeEnv) :=
  let '(r, s) := buildEvent sha256 EmptyTxHash deriveChainId EpochState_Hash VersionToPublish
                   (λ d e, onIndexed (set_dagIndexer d x.1, x.2) e) e x.1 in
  (r, (s, x.2)).

(** The engine confirms events before the hooks of [processEvent] are called. *)
Definition world_Process (e : Ev) (x : Sv * NodeEnv) : res unit * (Sv * NodeEnv) * list (em_hook EventID V) :=
  let y := x.2 in
  let '(r, s) := processEvent sha256 EmptyTxHash deriveChainId EpochState_Hash base_epoch open_db (ne_StoreConfig y)
                   (ne_SinceFlush y) (ne_NotFlushed y) (ne_Flushed y) e (set_emitter [] x.1) in
  (r, (set_emitter [] s, y), (HConfirmed <$> en_Confirmed e (sv_engine x.1)) ++ sv_emitter s).

Definition emitterWorld : EmitterWorld EventID V (Sv * NodeEnv) := {|
  w_GetRules x := es_Rules (sv_es x.1);
  w_GetLatestBlockIndex x := ne_LatestBlockIndex x.2;
  w_GetGenesisTime x := ne_GenesisTime x.2;
  w_GetEvent := world_GetEvent;
  w_GetLastEvent := world_GetLastEvent;
  w_GetHeads := world_GetHeads;
  w_GetRecommendedGasPrice x := ne_GasPrice x.2;
  w_NoCheaters sp options x := dx_NoCheaters sp options (sv_dagIndexer x.1);
  w_IsBusy x := ne_Busy x.2;
  w_IsSynced x := ne_Synced x.2;
  w_PeersNum x := ne_PeersNum x.2;
  w_Build := world_Build;
  w_Check := world_Check;
  w_Process := world_Process;
  w_Has h x := ne_Has x.2 h;
  w_Count x := ne_Count x.2;
  w_Pending x := ne_Pending x.2;
|}.
End world.

(** ** The laws of the world *)

Section laws.
Context {EventID : Type} `{EventIDsLaws EventID} `{!Countable EventID} `{!DagEvents EventID} `{!EventBytes EventID}
  `{!EventBytesLaws EventID} `{RlpBytesLaws} `{IdxBytesLaws} `{MapRangeLaws}.
Context {V : Type} `{Pos V} `{GasTable}.
Context {CE CH : Type} `{!Wlru EventID (EventPayload EventID) CE} `{!Wlru EventID (Event EventID) CH}.
Context `{!WlruLaws EventID (EventPayload EventID) CE} `{!WlruLaws EventID (Event EventID) CH}.
Context {D W : Type} `{!DagIndexer EventID V D} `{!DagIndexerLaws EventID V D} `{!Engine EventID V W}
  `{!EngineLaws EventID V W}.
Variable sha256 : list Z → list Z.
Variable EmptyTxHash : list Z.
Variable deriveChainId : Z → Z.
Variable EpochState_Hash : EpochState V EventID → list Z.
Variable base_basic base_epoch : baseEvent EventID → res unit.
Variable base_parents : baseEvent EventID → list (baseEvent EventID) → res unit.
Variable VerifySignature : list Z → list Z → list Z → bool.
Variable Sender : Transaction → res (list Z).
Variable DeriveSha : list Transaction → list Z.
Variable open_db : Z → option (list Z) * option (list Z).
Variable VersionToPublish : list Z.
Variable dx_NoCheaters : option EventID → list EventID → D → res (list EventID).
Variable en_Confirmed : EventPayload EventID → W → list (EventPayload EventID).
Notation Ev := (EventPayload EventID).
Notation Me := (MutableEventPayload EventID).
Notation Sv := (Service (EventID := EventID) (V := V) (CE := CE) (CH := CH) (D := D) (W := W) (M := list (em_hook EventID V))).
Notation holds := (stored sha256 EmptyTxHash deriveChainId).
Notation dag := (dag_state sha256 EmptyTxHash deriveChainId).
Notation eid e := (ID (ev_base (ep_event e))).
Notation getEvent := (world_GetEvent sha256 EmptyTxHash deriveChainId).

(** Building keeps the place of an event and changes of the service only the caches of the
    event store and the counter of temporary identifiers. *)
Definition same_fields (e e' : Me) : Prop :=
  Epoch (me_base e') = Epoch (me_base e) ∧ Seq (me_base e') = Seq (me_base e) ∧
  Creator (me_base e') = Creator (me_base e) ∧ Lamport (me_base e') = Lamport (me_base e) ∧
  Parents (me_base e') = Parents (me_base e) ∧ creationTime (me_ext e') = creationTime (me_ext e) ∧
  me_txs e' = me_txs e.

Lemma buildEvent_inv {A} (onIndexed : D → Me → res A) e (s s' : Sv) r :
  buildEvent sha256 EmptyTxHash deriveChainId EpochState_Hash VersionToPublish onIndexed e s = (r, s') →
  (∀ a e', r = Ok (a, e') → same_fields e e') ∧
  ∀ m, holds m (sv_events s) → dx_clean (sv_dagIndexer s) →
    ∃ st, holds m st ∧ s' = set_uniqueID (sv_uniqueID s + 1) (set_events st s).
Proof.
  unfold buildEvent, sample. rewrite em_bind_get, em_bind_modify.
  set (id := take 24 _). set (e0 := if _ && _ then _ else SetID id e).
  set (e1 := if Lamport (me_base e0) <=? 1 then _ else e0).
  assert (He1 : same_fields e e1).
  { unfold e1, e0. destruct (Lamport _ <=? 1); destruct (_ && _); [destruct (_ <=? _)| |destruct (_ <=? _)|]; by split_and!. }
  clearbody e1. clear e0. destruct (dx_Add (ep_event (me_view e1)) (sv_dagIndexer s)) as [err d] eqn:Ea. rewrite em_bind_modify.
  assert (Ed : dx_clean (sv_dagIndexer s) → dx_DropNotFlushed d = sv_dagIndexer s).
  { intros Hc. replace d with (dx_Add (ep_event (me_view e1)) (sv_dagIndexer s)).2 by by rewrite Ea. by apply dx_Drop_Add. }
  set (s1 := set_dagIndexer _ _).
  assert (Hs1 : ∀ m, holds m (sv_events s) → dx_clean (sv_dagIndexer s) →
    ∃ st, holds m st ∧ s1 = set_uniqueID (sv_uniqueID s + 1) (set_events st s)).
  { intros m Hm Hc. exists (sv_events s). split; [done|]. unfold s1. rewrite (Ed Hc). by destruct s. }
  destruct err as [err|]; [intros [= <- <-]; split; [done|exact Hs1]|].
  cbv [mbind EM_bind em_lift].
  destruct (onIndexed d e1) as [a'|err|]; [|intros [= <- <-]; split; [done|exact Hs1]..].
  destruct (dx_MedianTime _ _ d) as [median|err|]; [|intros [= <- <-]; split; [done|exact Hs1]..].
  set (e3 := SetGasPowerUsed _ (SetMedianTime median e1)).
  assert (Hget : ∃ sp s2, (match SelfParent (me_base e3) with Some sp => svc_GetEvent sha256 EmptyTxHash deriveChainId sp | None => mret None end) s1
      = (sp, s2) ∧ ∀ m, holds m (sv_events s) → dx_clean (sv_dagIndexer s) →
        ∃ st, holds m st ∧ s2 = set_uniqueID (sv_uniqueID s + 1) (set_events st s)).
  { destruct (SelfParent (me_base e3)) as [sp|]; [|by eexists _, s1].
    destruct (svc_GetEvent sha256 EmptyTxHash deriveChainId sp s1) as [r2 s2] eqn:Eg. exists r2, s2. split; [done|].
    intros m Hm Hc. destruct (Hs1 m Hm Hc) as (st & Hst & Es1).
    destruct (svc_GetEvent_run sha256 EmptyTxHash deriveChainId m sp s1) as (st2 & Eg2 & Hst2); [by rewrite Es1|].
    rewrite Eg in Eg2. injection Eg2 as _ ->. exists st2. split; [done|]. by rewrite Es1. }
  destruct Hget as (sp & s2 & -> & Hs2). destruct sp as [sp|err|]; [|intros [= <- <-]; split; [done|exact Hs2]..].
  destruct (CalcGasPower _ _ _) as [avail|err|]; [|intros [= <- <-]; split; [done|exact Hs2]..].
  destruct (_ <? _); [intros [= <- <-]; split; [done|exact Hs2]|].
  destruct (en_Build _ _) as [frame|err|]; intros [= <- <-]; (split; [|exact Hs2]); [|done..].
  intros a e' [= <- <-]. exact He1.
Qed.

(** What is read in a service whose DAG is [evs] and whose stored events are [m]. *)
Lemma world_reads evs m (s : Sv) (y : NodeEnv) :
  dag evs m s →
  (∀ id, getEvent id (s, y) = ep_event <$> m !! id) ∧
  (∀ epoch v, world_GetLastEvent epoch v (s, y) = if es_Epoch (sv_es s) =? epoch then last_of evs v else None).
Proof.
  intros Hd. split.
  - intros id. unfold world_GetEvent. cbn [fst].
    by destruct (svc_GetEvent_run sha256 EmptyTxHash deriveChainId m id s (dg_stored _ _ _ _ _ _ Hd)) as (st & -> & _).
  - intros epoch v. unfold world_GetLastEvent. cbn [fst]. rewrite (dg_epoch _ _ _ _ _ _ Hd).
    destruct (dg_lasts _ _ _ _ _ _ Hd) as (lasts & El & Hl). unfold GetLastEvents. rewrite El. destruct (_ =? epoch); cbn; [|done].
    apply Hl.
Qed.

Lemma dag_state_emitter evs m l (s : Sv) : dag evs m s → dag evs m (set_emitter l s).
Proof. intros []. by split. Qed.

Lemma dag_state_built evs m n st (s : Sv) : dag evs m s → holds m st → dag evs m (set_uniqueID n (set_events st s)).
Proof. intros [] Hst. by split. Qed.

(** A consistent node, and an event that it can store: its database for a next epoch is new. *)
Definition world_inv (x : Sv * NodeEnv) : Prop :=
  ∃ evs m, dag evs m x.1 ∧ ∀ id e, m !! id = Some e → in_range (ep_event e).

Definition world_fit (e : Ev) (x : Sv * NodeEnv) : Prop :=
  storable sha256 EmptyTxHash deriveChainId e ∧ in_range (ep_event e) ∧
  ∀ w, en_Process e (sv_engine x.1) = (None, w) → open_db (es_Epoch (en_EpochState w)) = (None, None).

Lemma epoch_Validate_epoch rules epoch (e : Ev) :
  epoch_Validate base_epoch (rules, epoch) e = Ok tt → Epoch (ev_base (ep_event e)) = epoch.
Proof.
  unfold epoch_Validate. intros (u & _ & E)%res_bind_Ok. destruct (Z.eqb_spec (Epoch (ev_base (ep_event e))) epoch); [done|discriminate E].
Qed.

Lemma last_of_own evs (e : Ev) : last_of (evs ++ [e]) (Creator (ev_base (ep_event e))) = Some (eid e).
Proof. unfold last_of. by rewrite filter_app, filter_cons, decide_True, filter_nil, last_snoc by done. Qed.

Lemma inserted_in_range (m : gmap EventID Ev) (e : Ev) :
  (∀ id e, m !! id = Some e → in_range (ep_event e)) → in_range (ep_event e) →
  ∀ id e', <[eid e := e]> m !! id = Some e' → in_range (ep_event e').
Proof. intros Hm He id e' [[_ <-]|[_ E]]%lookup_insert_Some; [done|by apply (Hm id)]. Qed.

Notation process := (world_Process sha256 EmptyTxHash deriveChainId EpochState_Hash base_epoch open_db en_Confirmed).

(** The law of processing, from what [processEvent] does. *)
Lemma world_Process_outcome (e : Ev) (x x' : Sv * NodeEnv) r hs :
  let b := ev_base (ep_event e) in
  world_inv x → world_fit e x → (∀ p, p ∈ Parents b → is_Some (getEvent p x)) →
  process e x = (r, x', hs) → r ≠ Panic →
  world_inv x' ∧
  ((∃ err, r = Err err) ∧
     (∀ epoch v id, world_GetLastEvent epoch v x' = world_GetLastEvent epoch v x ∧ getEvent id x' = getEvent id x)
   ∨ getEvent (ID b) x = None ∧ getEvent (ID b) x' = Some (ep_event e) ∧
     (world_GetLastEvent (Epoch b) (Creator b) x' = Some (ID b) ∨
      ∃ v epoch pre, hs = pre ++ [HNewEpoch v epoch] ∧ epoch ≠ Epoch b)).
Proof.
  destruct x as [s y]. intros b. subst b. intros (evs & m & Hd & Hm) (Hok & Hr & Hdb) Hpar. cbn [fst snd] in *.
  destruct (world_reads evs m s y Hd) as [Hget Hlast].
  unfold world_Process. cbn [fst snd]. destruct (processEvent _ _ _ _ _ _ _ _ _ _ _ _) as [r0 s'] eqn:E.
  intros [= <- <- <-] Hno.
  apply (processEvent_inv sha256 EmptyTxHash deriveChainId EpochState_Hash base_epoch open_db evs m e) in E;
    [|by apply dag_state_emitter|done|intros p Hp; specialize (Hpar p Hp); rewrite Hget in Hpar; by apply fmap_is_Some in Hpar|exact Hdb].
  destruct E as [?|[(err & st & w & -> & -> & Hst & Hw)|(_ & w & Ha & Hw & Hc)]]; [done| |].
  - assert (Hd' : dag evs m (set_emitter [] (set_engine w (set_events st (set_emitter [] s)))))
      by (apply dag_state_emitter, dag_state_events; [by apply dag_state_emitter|done|done]).
    split; [by exists evs, m|]. left. split; [by eexists|]. intros epoch v id.
    destruct (world_reads evs m _ y Hd') as [Hget' Hlast']. rewrite Hget, Hget', Hlast, Hlast'. split; [|done].
    unfold sv_es. cbn. by rewrite Hw.
  - pose proof (epoch_Validate_epoch _ _ _ (ad_valid _ _ _ _ _ _ Ha)) as Hep.
    change (sv_es (set_emitter [] s)) with (sv_es s) in Hep, Hc.
    assert (Hnew : getEvent (eid e) (s, y) = None) by (by rewrite Hget, (ad_new _ _ _ _ _ _ Ha)).
    destruct (Z.eqb_spec (es_Epoch (en_EpochState w)) (es_Epoch (sv_es s))) as [Ee|Ene].
    + destruct Hc as [Hd' _]. apply (dag_state_emitter _ _ []) in Hd'.
      destruct (world_reads _ _ _ y Hd') as [Hget' Hlast'].
      split; [eexists _, _; split; [exact Hd'|by apply inserted_in_range]|]. right. split; [done|].
      rewrite Hget', lookup_insert_eq. split; [done|]. left. rewrite Hlast'.
      unfold sv_es at 1. cbn. rewrite Hw, Ee, Hep, Z.eqb_refl. apply last_of_own.
    + destruct Hc as (s1 & _ & Hem & _ & Hst). pose proof (eo_state _ _ _ _ _ _ _ Hst) as Hd'.
      apply (dag_state_emitter _ _ []) in Hd'. destruct (world_reads _ _ _ y Hd') as [Hget' _].
      split; [eexists _, _; split; [exact Hd'|by apply inserted_in_range]|]. right. split; [done|].
      rewrite Hget', lookup_insert_eq. split; [done|]. right.
      exists (es_Validators (sv_es s1)), (es_Epoch (en_EpochState w)),
        ((HConfirmed <$> en_Confirmed e (sv_engine s)) ++ [HConnected e]).
      rewrite (eo_emitter _ _ _ _ _ _ _ Hst), Hem, <- app_assoc. split; [done|congruence].
Qed.

Notation world := (emitterWorld sha256 EmptyTxHash deriveChainId EpochState_Hash base_basic base_epoch base_parents VerifySignature
  Sender DeriveSha open_db VersionToPublish dx_NoCheaters en_Confirmed).

(** The service is a world that the emitter can rely on. *)
Definition emitterWorld_laws : @EmitterWorldLaws EventID V (Sv * NodeEnv) world.
Proof.
  refine {| w_inv := world_inv; w_fit := world_fit |}; cbn.
  - intros f e x a e' x'. unfold world_Build. destruct (buildEvent _ _ _ _ _ _ _ _) as [r s'] eqn:E. intros [= -> <-].
    apply buildEvent_inv in E as [Hf _]. by apply (Hf a).
  - intros f e [s y] (evs & m & Hd & Hm). unfold world_Build. cbn [fst snd] in *.
    destruct (buildEvent _ _ _ _ _ _ _ _) as [r s'] eqn:E. apply buildEvent_inv in E as [_ Hs'].
    destruct (Hs' m (dg_stored _ _ _ _ _ _ Hd) (dg_clean _ _ _ _ _ _ Hd)) as (st & Hst & ->). cbn [snd].
    pose proof (dag_state_built evs m (sv_uniqueID s + 1) st s Hd Hst) as Hd'.
    split; [by exists evs, m|]. split; [done|]. intros epoch v id.
    destruct (world_reads _ _ _ y Hd) as [Hget Hlast]. destruct (world_reads _ _ _ y Hd') as [Hget' Hlast'].
    by rewrite Hget, Hget', Hlast, Hlast'.
  - intros e x r x' hs. apply world_Process_outcome.
  - intros id [s y] e (evs & m & Hd & Hm) E. destruct (world_reads _ _ _ y Hd) as [Hget _]. rewrite Hget in E.
    destruct (m !! id) as [e'|] eqn:Em; [|done]. injection E as <-. by apply (Hm id).
Defined.
End laws.

(** ** The emitter on the node *)

Section forks.
Context {EventID : Type} `{EventIDsLaws EventID} `{!Countable EventID} `{!DagEvents EventID} `{!EventBytes EventID}
  `{!EventBytesLaws EventID} `{RlpBytesLaws} `{IdxBytesLaws} `{MapRangeLaws}.
Context {V : Type} `{Pos V} `{GasTable}.
Context {CE CH : Type} `{!Wlru EventID (EventPayload EventID) CE} `{!Wlru EventID (Event EventID) CH}.
Context `{!WlruLaws EventID (EventPayload EventID) CE} `{!WlruLaws EventID (Event EventID) CH}.
Context {D W : Type} `{!DagIndexer EventID V D} `{!DagIndexerLaws EventID V D} `{!Engine EventID V W}
  `{!EngineLaws EventID V W}.
Context `{ShuffleLib} `{TurnLib} `{DoubleSign} {Q : Type} `{TxQueueNew Q}.
Context {L T : Type} `{!Lru Address Z L} `{!Lru (list Z) Z T}.
Variable sha256 : list Z → list Z.
Variable EmptyTxHash : list Z.
Variable deriveChainId : Z → Z.
Variable EpochState_Hash : EpochState V EventID → list Z.
Variable base_basic base_epoch : baseEvent EventID → res unit.
Variable base_parents : baseEvent EventID → list (baseEvent EventID) → res unit.
Variable VerifySignature : list Z → list Z → list Z → bool.
Variable Sender : Transaction → res (list Z).
Variable TxSender : Transaction → Address.
Variable TxHash : Transaction → list Z.
Variable DeriveSha : list Transaction → list Z.
Variable Sign : PubKey → list Z → res (list Z).
Variable open_db : Z → option (list Z) * option (list Z).
Variable VersionToPublish : list Z.
Variable dx_NoCheaters : option EventID → list EventID → D → res (list EventID).
Variable en_Confirmed : EventPayload EventID → W → list (EventPayload EventID).
Notation Ev := (EventPayload EventID).
Notation Sv := (Service (EventID := EventID) (V := V) (CE := CE) (CH := CH) (D := D) (W := W) (M := list (em_hook EventID V))).
Context {QI PI St : Type} `{!AncestorLib EventID V (Sv * NodeEnv) QI PI St} `{!AncestorLibLaws EventID V (Sv * NodeEnv) QI PI St}.

#[local] Instance node_world : EmitterWorld EventID V (Sv * NodeEnv) :=
  emitterWorld sha256 EmptyTxHash deriveChainId EpochState_Hash base_basic base_epoch base_parents VerifySignature
    Sender DeriveSha open_db VersionToPublish dx_NoCheaters en_Confirmed.
#[local] Instance node_laws : EmitterWorldLaws EventID V (Sv * NodeEnv) :=
  emitterWorld_laws sha256 EmptyTxHash deriveChainId EpochState_Hash base_basic base_epoch base_parents VerifySignature
    Sender DeriveSha open_db VersionToPublish dx_NoCheaters en_Confirmed.

Notation Em := (Emitter (EventID := EventID) (V := V) (Q := Q) (L := L) (T := T) (QI := QI) (PI := PI)).

(** Runs of the emitter on the node. *)
Definition node_run : Em → Sv * NodeEnv → list Ev → list Ev → Em → Sv * NodeEnv → Prop :=
  emitter_run sha256 EmptyTxHash TxSender TxHash DeriveSha Sign.

(** The sequence number of the validator's last event. *)
Definition node_last_seq : Em → Sv * NodeEnv → Z := last_seq.

(** C34: on a consistent node, the own events that a validator's emitter has connected
    within an epoch carry consecutive sequence numbers from the validator's last event on,
    and each has the one before as its self-parent, so that no two of them fork; the events
    that it broadcasts are among them, in the same order.  This holds for any number of
    attempts, also when one seals the epoch, when an event is refused, and when the commit
    after an event reports an error, so that the event is connected but not broadcast.
    Between the attempts the node may change in any way that keeps it consistent and the
    validator's last event what it was, as events of other validators do: another instance
    that signs for the same validator is excluded.  Events, those stored at the start and those
    created, have sequence number and Lamport time below 2^31 and creation time below 2^63;
    those created can be stored; the database of a new epoch is empty; at least one parent is
    allowed. *)
Theorem emitter_never_forks (em em' : Em) (s s' : Sv) (y y' : NodeEnv) evs sent dag m :
  1 <= em_maxParents em < 2 ^ 32 → dag_state sha256 EmptyTxHash deriveChainId dag m s →
  (∀ id e, m !! id = Some e → in_range (ep_event e)) →
  node_run em (s, y) evs sent em' (s', y') →
  (λ e, Seq (ev_base (ep_event e))) <$> evs = seqZ (node_last_seq em (s, y) + 1) (len evs) ∧
  self_parents (world_GetLastEvent (em_epoch em) (ec_ID (em_config em)) (s, y)) evs ∧
  Forall (λ e, Creator (ev_base (ep_event e)) = ec_ID (em_config em) ∧ Epoch (ev_base (ep_event e)) = em_epoch em) evs ∧
  sent `sublist_of` evs.
Proof.
  intros Hmax Hd Hm Hr.
  destruct (emitter_run_chain sha256 EmptyTxHash TxSender TxHash DeriveSha Sign em em' (s, y) (s', y') evs sent Hmax)
    as [(Hseq & Hpar & Hall) Hsub]; [by exists dag, m|done|]. done.
Qed.
End forks.

(** ** A concrete node that emits two events *)

Notation DemoService := (Service (EventID := Hash) (V := Group) (CE := gmap Hash (EventPayload Hash)) (CH := gmap Hash (Event Hash))
  (D := list (Event Hash) * list (Event Hash)) (W := EpochState Group Hash) (M := list (em_hook Hash Group))).
Notation DemoNode := (DemoService * NodeEnv)%type.

#[global] Instance demo_node_ancestor : AncestorLib Hash Group DemoNode unit unit unit := {
  an_NewQuorumIndexer _ := tt;
  an_QuorumProcess _ _ _ q := q;
  an_GetMetricOf _ _ _ := 500000;
  an_QuorumStrategy _ := tt;
  an_NewPayloadIndexer _ := tt;
  an_PayloadProcess _ _ p := p;
  an_PayloadStrategy _ := tt;
  an_NewRandomStrategy := tt;
  an_ChooseParents existing options strategies :=
    existing ++ take (length strategies) (filter (λ p, p ∉ existing) options);
}.

Definition demo_node_env : NodeEnv :=
  mkNodeEnv 5 0 5 false true 3 (λ _, true) 0 (Ok ∅) (mkStoreConfig 1000000 (30 * Minute)) 0 0 (Ok tt).

Definition demo_node_key : gmap Z PubKey := {[ 1 := mkPubKey Types_Secp256k1 [4] ]}.

Definition demo_node : DemoService :=
  mkService false demo_store (mkEpochStore 3 None None (Some ∅) (Some ∅)) 0 ([], []) (demo_sv_es 1000) []
    (mkValidationContext 3 demo_configs 1000 demo_group (replicate 3 (mkValidatorState None 40))) (demo_node_key, 3) 0 [].

Definition demo_node_emitter : Emitter (EventID := Hash) (V := Group) (Q := list Transaction) (L := gmap Address Z)
    (T := gmap (list Z) Z) (QI := unit) (PI := unit) :=
  mkEmitter demo_cfg1 demo_control demo_p0 ∅ (mkSyncStatus 0 0 0 zero_ID 0 0 0) demo_group 3 10 tt tt None true None.

#[local] Instance demo_node_world : EmitterWorld Hash Group DemoNode :=
  node_world demo_sha256 demo_EmptyTxHash demo_deriveChainId (λ _, replicate 32 2) (λ _, Ok tt) (λ _, Ok tt)
  (λ _ _, Ok tt) (λ _ _ _, true) (λ _, Ok []) (λ _, demo_EmptyTxHash) (λ _, (None, None)) [49] (λ _ l _, Ok l) (λ _ _, []).
Notation demo_node_emit t := (EmitEvent demo_sha256 demo_EmptyTxHash demo_sender (λ tx, [tx_Nonce tx]) (λ _, demo_EmptyTxHash)
  (λ _ _, Ok (replicate 64 1)) (demo_times t) 0 1).

#[global] Instance demo_node_ancestor_laws : AncestorLibLaws Hash Group DemoNode unit unit unit.
Proof. split. exact (an_ChooseParents_spec (X := gmap Hash (Event Hash) * gmap (Z * Z) Hash)). Qed.

Notation demo_node_created t := (created_by demo_sha256 demo_EmptyTxHash demo_sender (λ tx, [tx_Nonce tx]) (λ _, demo_EmptyTxHash)
  (λ _ _, Ok (replicate 64 1)) (demo_times t) 0 1).

(** The states of the emitter and the node before and after two attempts. *)
Definition demo_t1 : Z := 3600 * Second.
Definition demo_t2 : Z := 7200 * Second.
Definition demo_st0 := (demo_node_emitter, (demo_node, demo_node_env)).
Definition demo_st1 := (demo_node_emit demo_t1 demo_st0).2.
Definition demo_st2 := (demo_node_emit demo_t2 demo_st1).2.
Definition demo_own1 : EventPayload Hash := Eval vm_compute in default demo_event (demo_node_created demo_t1 demo_st0).
Definition demo_own2 : EventPayload Hash := Eval vm_compute in default demo_event (demo_node_created demo_t2 demo_st1).


Definition demo_unbuild (e : EventPayload Hash) : MutableEventPayload Hash :=
  mkMutableEventPayload (ev_base (ep_event e)) (ev_ext (ep_event e)) (ep_sig e) (ep_txs e).

Ltac decide_it := apply (bool_decide_unpack _); vm_compute; exact I.


(** An event without transactions, by computation. *)
Ltac payload_by_computation e :=
  unfold EventPayload_ok, Payload_ok, Event_ok, GasPowerLeft_ok; split_and!; try decide_it;
  [ intros h E;
    assert (Hp : match prevEpochHash (ev_ext (ep_event e)) with Some h => bool_decide (bytes_ok h ∧ len h = 32) | None => true end = true)
      by (vm_compute; reflexivity);
    rewrite E in Hp; exact (bool_decide_eq_true_1 _ Hp)
  | assert (Ht : ep_txs e = []) by (vm_compute; reflexivity); rewrite Ht; constructor ].

Lemma demo_own1_payload : EventPayload_ok demo_EmptyTxHash demo_deriveChainId demo_own1.
Proof. payload_by_computation demo_own1. Qed.
Lemma demo_own2_payload : EventPayload_ok demo_EmptyTxHash demo_deriveChainId demo_own2.
Proof. payload_by_computation demo_own2. Qed.

Lemma demo_own_storable e :
  MutableEventPayload_Build demo_sha256 demo_EmptyTxHash (demo_unbuild e) = Ok e →
  EventPayload_ok demo_EmptyTxHash demo_deriveChainId e → bool_decide (ep_size e < 2 ^ 63) = true →
  fixEventTxHashes e = Ok e → storable demo_sha256 demo_EmptyTxHash demo_deriveChainId e.
Proof.
  intros HB Hok Hs Hf. split; [exact Hok|exact (Build_built demo_sha256 demo_EmptyTxHash demo_deriveChainId _ _ HB Hok)| |exact Hf].
  exact (bool_decide_eq_true_1 _ Hs).
Qed.

Lemma demo_own1_ok : storable demo_sha256 demo_EmptyTxHash demo_deriveChainId demo_own1.
Proof. apply demo_own_storable; [vm_compute; reflexivity|exact demo_own1_payload|vm_compute; reflexivity|vm_compute; reflexivity]. Qed.
Lemma demo_own2_ok : storable demo_sha256 demo_EmptyTxHash demo_deriveChainId demo_own2.
Proof. apply demo_own_storable; [vm_compute; reflexivity|exact demo_own2_payload|vm_compute; reflexivity|vm_compute; reflexivity]. Qed.

Lemma demo_created1 : demo_node_created demo_t1 demo_st0 = Some demo_own1.
Proof. vm_compute. reflexivity. Qed.
Lemma demo_created2 : demo_node_created demo_t2 demo_st1 = Some demo_own2.
Proof. vm_compute. reflexivity. Qed.

Lemma demo_attempt1 : demo_node_emit demo_t1 demo_st0 = (Ok (Some demo_own1), demo_st1).
Proof.
  assert (E : (demo_node_emit demo_t1 demo_st0).1 = Ok (Some demo_own1)) by (vm_compute; reflexivity).
  unfold demo_st1. rewrite <- E. apply surjective_pairing.
Qed.
Lemma demo_attempt2 : demo_node_emit demo_t2 demo_st1 = (Ok (Some demo_own2), demo_st2).
Proof.
  assert (E : (demo_node_emit demo_t2 demo_st1).1 = Ok (Some demo_own2)) by (vm_compute; reflexivity).
  unfold demo_st2. rewrite <- E. apply surjective_pairing.
Qed.

Lemma demo_node_state : dag_state demo_sha256 demo_EmptyTxHash demo_deriveChainId [] ∅ demo_node.
Proof.
  split; try done.
  - exists ∅. split; [done|]. intros v. by rewrite lookup_empty.
  - intros e He. by apply elem_of_nil in He.
  - intros e p He. by apply elem_of_nil in He.
Qed.

#[local] Instance PubKey_eq_dec : EqDecision PubKey.
Proof. solve_decision. Defined.
#[local] Instance EmitIntervals_eq_dec : EqDecision EmitIntervals.
Proof. solve_decision. Defined.
#[local] Instance EmitterConfig_eq_dec : EqDecision EmitterConfig.
Proof. solve_decision. Defined.

Lemma demo_same1 : same_emitter demo_st0.1 demo_st1.1.
Proof. unfold same_emitter. decide_it. Qed.
Lemma demo_same2 : same_emitter demo_st1.1 demo_st2.1.
Proof. unfold same_emitter. decide_it. Qed.

Notation demo_node_new t := (own_new demo_sha256 demo_EmptyTxHash demo_sender (λ tx, [tx_Nonce tx]) (λ _, demo_EmptyTxHash)
  (λ _ _, Ok (replicate 64 1)) (demo_times t) 0 1).

Lemma demo_new1 : demo_node_new demo_t1 demo_st0 demo_st1.2 = [demo_own1].
Proof. vm_compute. reflexivity. Qed.
Lemma demo_new2 : demo_node_new demo_t2 demo_st1 demo_st2.2 = [demo_own2].
Proof. vm_compute. reflexivity. Qed.

Lemma demo_own_range : in_range (ep_event demo_own1) ∧ in_range (ep_event demo_own2).
Proof. split; decide_it. Qed.

Lemma demo_times_range t : bool_decide (is_u64 t) = true → is_u64 (tm_create (demo_times t)).
Proof. apply bool_decide_eq_true_1. Qed.

#[local] Opaque demo_st1 demo_st2 demo_own1 demo_own2.

Notation demo_node_run := (node_run demo_sha256 demo_EmptyTxHash demo_deriveChainId (λ _, replicate 32 2) (λ _, Ok tt) (λ _, Ok tt)
  (λ _ _, Ok tt) (λ _ _ _, true) (λ _, Ok []) demo_sender (λ tx, [tx_Nonce tx]) (λ _, demo_EmptyTxHash) (λ _ _, Ok (replicate 64 1))
  (λ _, (None, None)) [49] (λ _ l _, Ok l) (λ _ _, [])).

Lemma demo_run_ok : demo_node_run demo_node_emitter (demo_node, demo_node_env) [demo_own1; demo_own2] [demo_own1; demo_own2]
  demo_st2.1 (demo_st2.2.1, demo_st2.2.2).
Proof.
  rewrite <- surjective_pairing.
  change [demo_own1; demo_own2] with ([demo_own1] ++ ([demo_own2] ++ [])) at 1.
  change [demo_own1; demo_own2] with (option_list (Some demo_own1) ++ (option_list (Some demo_own2) ++ [])).
  rewrite <- demo_new1, <- demo_new2. unfold node_run.
  apply (er_attempt _ _ _ _ _ _ (demo_times demo_t1) 0 1 _ _ _ demo_st1.1 demo_st1.2).
  - apply demo_times_range. reflexivity.
  - intros ev E. change (demo_node_created demo_t1 demo_st0 = Some ev) in E. rewrite demo_created1 in E. apply (inj Some) in E as <-.
    split; [exact demo_own1_ok|]. split; [apply demo_own_range|done].
  - rewrite <- surjective_pairing. exact demo_attempt1.
  - exact demo_same1.
  - pose proof (surjective_pairing demo_st1) as Ep. 
    assert (Hn : demo_node_new demo_t2 demo_st1 demo_st2.2 = demo_node_new demo_t2 (demo_st1.1, demo_st1.2) demo_st2.2) by (by rewrite <- Ep).
    rewrite Hn.
    apply (er_attempt _ _ _ _ _ _ (demo_times demo_t2) 0 1 _ _ _ demo_st2.1 demo_st2.2).
    + apply demo_times_range. reflexivity.
    + intros ev E. rewrite <- Ep in E. change (demo_node_created demo_t2 demo_st1 = Some ev) in E. rewrite demo_created2 in E. apply (inj Some) in E as <-.
      split; [exact demo_own2_ok|]. split; [apply demo_own_range|done].
    + rewrite <- Ep, <- surjective_pairing. exact demo_attempt2.
    + exact demo_same2.
    + apply er_done.
Qed.

Lemma emitter_never_forks_witness :
  (λ e, Seq (ev_base (ep_event e))) <$> [demo_own1; demo_own2] = [1; 2] ∧
  Parents (ev_base (ep_event demo_own2)) !! 0%nat = Some (ID (ev_base (ep_event demo_own1))).
Proof.
  destruct (emitter_never_forks demo_sha256 demo_EmptyTxHash demo_deriveChainId (λ _, replicate 32 2) (λ _, Ok tt) (λ _, Ok tt)
    (λ _ _, Ok tt) (λ _ _ _, true) (λ _, Ok []) demo_sender (λ tx, [tx_Nonce tx]) (λ _, demo_EmptyTxHash) (λ _ _, Ok (replicate 64 1))
    (λ _, (None, None)) [49] (λ _ l _, Ok l) (λ _ _, []) demo_node_emitter demo_st2.1 demo_node demo_st2.2.1 demo_node_env demo_st2.2.2
    [demo_own1; demo_own2] [demo_own1; demo_own2] [] ∅) as (Hseq & Hpar & _).
  - split; vm_compute; congruence.
  - exact demo_node_state.
  - intros id e E. rewrite lookup_empty in E. discriminate E.
  - exact demo_run_ok.
  - split; [rewrite Hseq; vm_compute; reflexivity|]. exact (Hpar 1%nat demo_own2 eq_refl).
Defined.
