(* ===== verification/TxPool.v ===== *)
(** * The transaction pool (evmcore/tx_pool.go)

    The operations of the pool on its whole state: validation and admission of
    transactions ([validateTx], [pool_add], [enqueueTx], [addTxs]), eviction by price and
    by age, promotion and demotion between the queue and the pending lists, the
    truncation to the configured limits, the reset to a new head of the chain and the
    reorganisation that composes them ([runReorg]).  The theorems are in [PoolInv] and
    [PoolReorg].

    The pool's mutex makes each of these one step.  Metrics and logging are left out.  The
    readings of the clock inside one step are one argument [now].  The account lists are
    pointers shared with the maps of the pool: an operation on a list is written back into
    its map. *)

From stdpp Require Import sorting.
From S2P Require Import Prelude Cser Inter TxSer Pos Heap EvmState EvmChain TxList.

Notation Address := (list Z) (only parsing).

Definition ErrAlreadyKnown : error := NewError "evmcore.ErrAlreadyKnown".
Definition ErrInvalidSender : error := NewError "evmcore.ErrInvalidSender".
Definition ErrUnderpriced : error := NewError "evmcore.ErrUnderpriced".
Definition ErrTxPoolOverflow : error := NewError "evmcore.ErrTxPoolOverflow".
Definition ErrReplaceUnderpriced : error := NewError "evmcore.ErrReplaceUnderpriced".
Definition ErrGasLimit : error := NewError "evmcore.ErrGasLimit".
Definition ErrNegativeValue : error := NewError "evmcore.ErrNegativeValue".
Definition ErrOversizedData : error := NewError "evmcore.ErrOversizedData".
(** [types.ErrTxTypeNotSupported] of the transaction library. *)
Definition ErrTxTypeNotSupported : error := NewError "types.ErrTxTypeNotSupported".

Definition txMaxSize : Z := 4 * txSlotSize.

(** ** What the pool reads of other code *)

(** The transaction library: cost, hash, size and sender of a transaction. *)
Class PoolTx := {
  px_Cost : Transaction → Z;
  px_Hash : Transaction → list Z;
  px_Size : Transaction → Z;
  px_Sender : Transaction → option Address;
  (** [types.TxDifference] *)
  px_TxDifference : list Transaction → list Transaction → list Transaction;
}.

(** A size is not negative, and the difference of two lists is part of the first. *)
Class PoolTxLaws `{PoolTx} := {
  px_Size_nonneg : ∀ tx, 0 <= px_Size tx;
  px_TxDifference_sub : ∀ txs txs', px_TxDifference txs txs' ⊆ txs;
}.

(** [state.StateDB]: what the pool asks of it. *)
Record StateView := mkStateView { GetNonce : Address → Z; GetBalance : Address → Z }.

(** [params.ChainConfig]: the activation of the forks by block number. *)
Record ChainConfig := mkChainConfig { IsIstanbul : Z → bool; IsBerlin : Z → bool }.

(** The interface to the chain. *)
Record stateReader := mkStateReader {
  sr_CurrentBlock : EvmBlock;
  sr_GetBlock : list Z → Z → option EvmBlock;
  sr_StateAt : list Z → option StateView;
  sr_MinGasPrice : Z;
  sr_RecommendedMinGasPrice : option Z;
  sr_MaxGasLimit : Z;
  sr_TxExists : list Z → bool;
  sr_Config : option ChainConfig;
}.

(** [prque.Prque] of the ethereum library, used here by pushing everything and then
    popping: the pops give the pushed items by decreasing priority. *)
Class Prque := { pq_pops : list (Address * Z) → list (Address * Z) }.
Class PrqueLaws `{Prque} := {
  pq_perm : ∀ l, pq_pops l ≡ₚ l;
  pq_sorted : ∀ l, StronglySorted (λ a b, b.2 <= a.2) (pq_pops l);
}.

(** [sort.Sort] by heartbeat, which may put accounts with the same heartbeat in any order. *)
Class SortBeats := { sort_beats : list (Address * Z) → list (Address * Z) }.
Class SortBeatsLaws `{SortBeats} := {
  sort_beats_perm : ∀ l, sort_beats l ≡ₚ l;
  sort_beats_sorted : ∀ l, StronglySorted (λ a b, a.2 <= b.2) (sort_beats l);
}.

(** ** Configuration and state *)

Record TxPoolConfig := mkTxPoolConfig {
  Locals : list Address;
  NoLocals : bool;
  Journal : string;
  Rejournal : Z;
  PriceLimit : Z;
  PriceBump : Z;
  AccountSlots : Z;
  GlobalSlots : Z;
  AccountQueue : Z;
  GlobalQueue : Z;
  Lifetime : Z;
}.

(** Durations are in nanoseconds. *)
Definition time_Second : Z := 10 ^ 9.
Definition time_Hour : Z := 3600 * time_Second.

Definition DefaultTxPoolConfig : TxPoolConfig :=
  mkTxPoolConfig [] false "transactions.rlp" time_Hour 1 10 16 1024 32 256 (3 * time_Hour).

Definition sanitize (config : TxPoolConfig) : TxPoolConfig :=
  let d := DefaultTxPoolConfig in
  mkTxPoolConfig (Locals config) (NoLocals config) (Journal config)
    (if Rejournal config <? time_Second then time_Second else Rejournal config)
    (if PriceLimit config <? 1 then PriceLimit d else PriceLimit config)
    (if PriceBump config <? 1 then PriceBump d else PriceBump config)
    (if AccountSlots config <? 1 then AccountSlots d else AccountSlots config)
    (if GlobalSlots config <? 1 then GlobalSlots d else GlobalSlots config)
    (if AccountQueue config <? 1 then AccountQueue d else AccountQueue config)
    (if GlobalQueue config <? 1 then GlobalQueue d else GlobalQueue config)
    (if Lifetime config <? 1 then Lifetime d else Lifetime config).

(** [accountSet]; its signer is that of [PoolTx]. *)
Record accountSet := mkAccountSet { as_accounts : gmap Address unit; as_cache : option (list Address) }.

(** [txNoncer], with the state it falls back to. *)
Record txNoncer := mkTxNoncer { nc_fallback : StateView; nc_nonces : gmap Address Z }.

Definition newTxNoncer (statedb : StateView) : txNoncer := mkTxNoncer statedb ∅.

(** What [reset] takes from the head of the chain. *)
Record poolHead := mkPoolHead {
  ph_chainconfig : ChainConfig;
  ph_istanbul : bool;
  ph_eip2718 : bool;
  ph_currentState : option StateView;
  ph_currentMaxGas : Z;
}.

(** [p_journal] holds the transactions given to the journal's [insert], when there is
    a journal; [p_events] the transactions that [scheduleReorgLoop] has received from
    [queueTxEvent] since it launched the last run. *)
Record TxPool := mkTxPool {
  p_config : TxPoolConfig;
  p_gasPrice : Z;
  p_lastGasPriceUpdate : Z;
  p_head : poolHead;
  p_pendingNonces : option txNoncer;
  p_locals : accountSet;
  p_journal : option (list Transaction);
  p_pending : gmap Address txList;
  p_queue : gmap Address txList;
  p_beats : gmap Address Z;
  p_all : txLookup;
  p_priced : txPricedList;
  p_events : gmap Address txSortedMap;
}.

Definition set_gasPrice (x : Z) (p : TxPool) : TxPool :=
  mkTxPool (p_config p) x (p_lastGasPriceUpdate p) (p_head p) (p_pendingNonces p) (p_locals p) (p_journal p)
    (p_pending p) (p_queue p) (p_beats p) (p_all p) (p_priced p) (p_events p).
Definition set_lastGasPriceUpdate (x : Z) (p : TxPool) : TxPool :=
  mkTxPool (p_config p) (p_gasPrice p) x (p_head p) (p_pendingNonces p) (p_locals p) (p_journal p) (p_pending p)
    (p_queue p) (p_beats p) (p_all p) (p_priced p) (p_events p).
Definition set_head (x : poolHead) (p : TxPool) : TxPool :=
  mkTxPool (p_config p) (p_gasPrice p) (p_lastGasPriceUpdate p) x (p_pendingNonces p) (p_locals p) (p_journal p)
    (p_pending p) (p_queue p) (p_beats p) (p_all p) (p_priced p) (p_events p).
Definition set_pendingNonces (x : option txNoncer) (p : TxPool) : TxPool :=
  mkTxPool (p_config p) (p_gasPrice p) (p_lastGasPriceUpdate p) (p_head p) x (p_locals p) (p_journal p)
    (p_pending p) (p_queue p) (p_beats p) (p_all p) (p_priced p) (p_events p).
Definition set_locals (x : accountSet) (p : TxPool) : TxPool :=
  mkTxPool (p_config p) (p_gasPrice p) (p_lastGasPriceUpdate p) (p_head p) (p_pendingNonces p) x (p_journal p)
    (p_pending p) (p_queue p) (p_beats p) (p_all p) (p_priced p) (p_events p).
Definition set_journal (x : option (list Transaction)) (p : TxPool) : TxPool :=
  mkTxPool (p_config p) (p_gasPrice p) (p_lastGasPriceUpdate p) (p_head p) (p_pendingNonces p) (p_locals p) x
    (p_pending p) (p_queue p) (p_beats p) (p_all p) (p_priced p) (p_events p).
Definition set_pending (x : gmap Address txList) (p : TxPool) : TxPool :=
  mkTxPool (p_config p) (p_gasPrice p) (p_lastGasPriceUpdate p) (p_head p) (p_pendingNonces p) (p_locals p)
    (p_journal p) x (p_queue p) (p_beats p) (p_all p) (p_priced p) (p_events p).
Definition set_queue (x : gmap Address txList) (p : TxPool) : TxPool :=
  mkTxPool (p_config p) (p_gasPrice p) (p_lastGasPriceUpdate p) (p_head p) (p_pendingNonces p) (p_locals p)
    (p_journal p) (p_pending p) x (p_beats p) (p_all p) (p_priced p) (p_events p).
Definition set_beats (x : gmap Address Z) (p : TxPool) : TxPool :=
  mkTxPool (p_config p) (p_gasPrice p) (p_lastGasPriceUpdate p) (p_head p) (p_pendingNonces p) (p_locals p)
    (p_journal p) (p_pending p) (p_queue p) x (p_all p) (p_priced p) (p_events p).
Definition set_all (x : txLookup) (p : TxPool) : TxPool :=
  mkTxPool (p_config p) (p_gasPrice p) (p_lastGasPriceUpdate p) (p_head p) (p_pendingNonces p) (p_locals p)
    (p_journal p) (p_pending p) (p_queue p) (p_beats p) x (p_priced p) (p_events p).
Definition set_priced (x : txPricedList) (p : TxPool) : TxPool :=
  mkTxPool (p_config p) (p_gasPrice p) (p_lastGasPriceUpdate p) (p_head p) (p_pendingNonces p) (p_locals p)
    (p_journal p) (p_pending p) (p_queue p) (p_beats p) (p_all p) x (p_events p).
Definition set_events (x : gmap Address txSortedMap) (p : TxPool) : TxPool :=
  mkTxPool (p_config p) (p_gasPrice p) (p_lastGasPriceUpdate p) (p_head p) (p_pendingNonces p) (p_locals p)
    (p_journal p) (p_pending p) (p_queue p) (p_beats p) (p_all p) (p_priced p) x.

(** ** accountSet *)

Section accounts.
Context `{MapRange} `{PoolTx}.

Definition as_add (addr : Address) (s : accountSet) : accountSet :=
  mkAccountSet (<[addr := tt]> (as_accounts s)) None.

Definition newAccountSet (addrs : list Address) : accountSet :=
  foldl (flip as_add) (mkAccountSet ∅ None) addrs.

Definition as_contains (addr : Address) (s : accountSet) : bool :=
  bool_decide (is_Some (as_accounts s !! addr)).

Definition as_empty (s : accountSet) : bool := Z.of_nat (size (as_accounts s)) =? 0.

Definition as_containsTx (tx : Transaction) (s : accountSet) : bool :=
  match px_Sender tx with Some addr => as_contains addr s | None => false end.

Definition as_addTx (tx : Transaction) (s : accountSet) : accountSet :=
  match px_Sender tx with Some addr => as_add addr s | None => s end.

Definition as_flatten (s : accountSet) : list Address * accountSet :=
  match as_cache s with
  | Some cache => (cache, s)
  | None => let accounts := (range_of (as_accounts s)).*1 in
            (accounts, mkAccountSet (as_accounts s) (Some accounts))
  end.

Definition as_merge (other s : accountSet) : accountSet :=
  mkAccountSet (as_accounts other ∪ as_accounts s) None.
End accounts.

(** ** The noncer *)

Definition noncer_get (addr : Address) (n : txNoncer) : Z * txNoncer :=
  let '(nonce, m) := nc_get (GetNonce (nc_fallback n)) addr (nc_nonces n) in
  (nonce, mkTxNoncer (nc_fallback n) m).

Definition noncer_set (addr : Address) (nonce : Z) (n : txNoncer) : txNoncer :=
  mkTxNoncer (nc_fallback n) (nc_set addr nonce (nc_nonces n)).

Definition noncer_setIfLower (addr : Address) (nonce : Z) (n : txNoncer) : txNoncer :=
  mkTxNoncer (nc_fallback n) (nc_setIfLower (GetNonce (nc_fallback n)) addr nonce (nc_nonces n)).

Section pool.
Context `{MapRange} `{GoHeap Z nonce_less} `{GoHeap Transaction price_less}.
Context `{PoolTx} `{GasTable} `{Prque} `{SortBeats}.

(** [types.Sender] gives the zero address together with an error. *)
Definition sender_of (tx : Transaction) : Address := default (replicate 20 0) (px_Sender tx).

(** The calls of [pendingNonces], which is [nil] until the first successful reset. *)
Definition pool_nonce (addr : Address) (p : TxPool) : res (Z * TxPool) :=
  n ← deref (p_pendingNonces p);
  let '(nonce, n) := noncer_get addr n in
  Ok (nonce, set_pendingNonces (Some n) p).

Definition pool_set_nonce (addr : Address) (nonce : Z) (p : TxPool) : res TxPool :=
  n ← deref (p_pendingNonces p); Ok (set_pendingNonces (Some (noncer_set addr nonce n)) p).

Definition pool_lower_nonce (addr : Address) (nonce : Z) (p : TxPool) : res TxPool :=
  n ← deref (p_pendingNonces p); Ok (set_pendingNonces (Some (noncer_setIfLower addr nonce n)) p).

(** [pool.all.Remove(hash)] and [pool.priced.Removed(count)] *)
Definition all_Remove (hash : list Z) (p : TxPool) : TxPool :=
  set_all (lk_Remove px_Size hash (p_all p)) p.
Definition all_Removes (txs : list Transaction) (p : TxPool) : TxPool :=
  foldl (λ p tx, all_Remove (px_Hash tx) p) p txs.
Definition priced_Removed (count : Z) (p : TxPool) : TxPool :=
  set_priced (pl_Removed (p_all p) count (p_priced p)) p.
(** [pool.all.Add(tx, local); pool.priced.Put(tx, local)] *)
Definition all_Add (tx : Transaction) (local : bool) (p : TxPool) : TxPool :=
  let p := set_all (lk_Add px_Hash px_Size tx local (p_all p)) p in
  set_priced (pl_Put tx local (p_priced p)) p.

(** ** Reading the pool *)

(** The sum of the lengths of lists in memory, far from 2^64. *)
Definition list_total (m : gmap Address txList) : Z :=
  foldl (λ n (e : Address * txList), n + tl_Len e.2) 0 (range_of m).

Definition stats (p : TxPool) : Z * Z :=
  (sum_Z (tl_Len <$> (range_of (p_pending p)).*2), sum_Z (tl_Len <$> (range_of (p_queue p)).*2)).

(** [list.Flatten()] for every account; the lists keep the sorted cache. *)
Definition flatten_lists (m : gmap Address txList) : gmap Address (list Transaction) * gmap Address txList :=
  ((λ l, (tl_Flatten l).1) <$> m, (λ l, (tl_Flatten l).2) <$> m).

Definition Content (p : TxPool)
  : (gmap Address (list Transaction) * gmap Address (list Transaction)) * TxPool :=
  let '(pending, pm) := flatten_lists (p_pending p) in
  let '(queued, qm) := flatten_lists (p_queue p) in
  ((pending, queued), set_queue qm (set_pending pm p)).

Definition Pending (p : TxPool) : gmap Address (list Transaction) * TxPool :=
  let '(pending, pm) := flatten_lists (p_pending p) in (pending, set_pending pm p).

(** [txs[addr] = append(txs[addr], ...)] for the pending and the queued ones. *)
Definition local_step (st : gmap Address (list Transaction) * TxPool) (addr : Address)
  : gmap Address (list Transaction) * TxPool :=
  let '(txs, p) := st in
  let '(txs, p) :=
    match p_pending p !! addr with
    | Some pending =>
        let '(f, l) := tl_Flatten pending in
        (<[addr := default [] (txs !! addr) ++ f]> txs, set_pending (<[addr := l]> (p_pending p)) p)
    | None => (txs, p)
    end in
  match p_queue p !! addr with
  | Some queued =>
      let '(f, l) := tl_Flatten queued in
      (<[addr := default [] (txs !! addr) ++ f]> txs, set_queue (<[addr := l]> (p_queue p)) p)
  | None => (txs, p)
  end.

Definition pool_local (p : TxPool) : gmap Address (list Transaction) * TxPool :=
  foldl local_step (∅, p) (range_of (as_accounts (p_locals p))).*1.

Inductive TxStatus := TxStatusUnknown | TxStatusQueued | TxStatusPending | TxStatusIncluded.

Definition holds_nonce (m : gmap Address txList) (addr : Address) (nonce : Z) : bool :=
  match m !! addr with
  | Some l => bool_decide (is_Some (sm_items (tl_txs l) !! nonce))
  | None => false
  end.

Definition Status (p : TxPool) (hash : list Z) : TxStatus :=
  match lk_Get hash (p_all p) with
  | None => TxStatusUnknown
  | Some tx =>
      let from := sender_of tx in
      if holds_nonce (p_pending p) from (tx_Nonce tx) then TxStatusPending
      else if holds_nonce (p_queue p) from (tx_Nonce tx) then TxStatusQueued
      else TxStatusUnknown
  end.

(** ** Validation *)

Definition guard_err (c : bool) (e : error) : res unit := if c then Err e else Ok tt.

Definition validateTx (ch : stateReader) (tx : Transaction) (local : bool) (p : TxPool) : res unit :=
  _ ← guard_err (negb (ph_eip2718 (p_head p)) && negb (tx_Type tx =? LegacyTxType)) ErrTxTypeNotSupported;
  _ ← guard_err (txMaxSize <? px_Size tx) ErrOversizedData;
  _ ← guard_err (tx_Value tx <? 0) ErrNegativeValue;
  _ ← guard_err (ph_currentMaxGas (p_head p) <? tx_Gas tx) ErrGasLimit;
  match px_Sender tx with
  | None => Err ErrInvalidSender
  | Some from =>
      let local := local || as_contains from (p_locals p) in
      _ ← guard_err (negb local && (tx_GasPrice tx <? p_gasPrice p)) ErrUnderpriced;
      st ← deref (ph_currentState (p_head p));
      _ ← guard_err (tx_Nonce tx <? GetNonce st from) ErrNonceTooLow;
      _ ← guard_err (GetBalance st from <? px_Cost tx) ErrInsufficientFunds;
      intrGas ← IntrinsicGas (tx_Data tx) (tx_AccessList tx) (bool_decide (tx_To tx = None));
      _ ← guard_err (tx_Gas tx <? intrGas) ErrIntrinsicGas;
      _ ← guard_err (tx_GasPrice tx <? sr_MinGasPrice ch) ErrUnderpriced;
      guard_err (sr_TxExists ch (px_Hash tx)) ErrUnderpriced
  end.

(** ** Adding transactions *)

(** The result of the code's [(bool, error)]. *)
Notation verdict := (bool * option error)%type.

Definition enqueueTx (now : Z) (hash : list Z) (tx : Transaction) (local addAll : bool) (p : TxPool)
  : verdict * TxPool :=
  let from := sender_of tx in
  let p := match p_queue p !! from with
           | None => set_queue (<[from := newTxList false]> (p_queue p)) p
           | Some _ => p
           end in
  let queue := default (newTxList false) (p_queue p !! from) in
  let '(inserted, old, queue) := tl_Add px_Cost tx (PriceBump (p_config p)) queue in
  let p := set_queue (<[from := queue]> (p_queue p)) p in
  if negb inserted then ((false, Some ErrReplaceUnderpriced), p)
  else
    let p := match old with
             | Some old => priced_Removed 1 (all_Remove (px_Hash old) p)
             | None => p
             end in
    let p := if addAll then all_Add tx local p else p in
    let p := match p_beats p !! from with
             | None => set_beats (<[from := now]> (p_beats p)) p
             | Some _ => p
             end in
    ((bool_decide (is_Some old), None), p).

(** [for _, tx := range txs { pool.enqueueTx(tx.Hash(), tx, false, false) }] *)
Definition enqueueTxs (now : Z) (txs : list Transaction) (p : TxPool) : TxPool :=
  foldl (λ p tx, (enqueueTx now (px_Hash tx) tx false false p).2) p txs.

Definition journalTx (from : Address) (tx : Transaction) (p : TxPool) : TxPool :=
  match p_journal p with
  | Some j => if as_contains from (p_locals p) then set_journal (Some (j ++ [tx])) p else p
  | None => p
  end.

Definition put_event (tx : Transaction) (events : gmap Address txSortedMap) : gmap Address txSortedMap :=
  let addr := sender_of tx in
  <[addr := sm_Put tx (default newTxSortedMap (events !! addr))]> events.

Definition queueTxEvent (tx : Transaction) (p : TxPool) : TxPool := set_events (put_event tx (p_events p)) p.

(** The part of [removeTx] for the pending list: whether the transaction was there. *)
Definition remove_pending (now : Z) (addr : Address) (tx : Transaction) (p : TxPool) : res (bool * TxPool) :=
  match p_pending p !! addr with
  | None => Ok (false, p)
  | Some pending =>
      '(removed, invalids, pending) ← tl_Remove tx pending;
      let p := set_pending (<[addr := pending]> (p_pending p)) p in
      if removed : bool then
        let p := if tl_Empty pending then set_pending (delete addr (p_pending p)) p else p in
        let p := enqueueTxs now invalids p in
        p ← pool_lower_nonce addr (tx_Nonce tx) p;
        Ok (true, p)
      else Ok (false, p)
  end.

Definition remove_queued (addr : Address) (tx : Transaction) (p : TxPool) : res TxPool :=
  match p_queue p !! addr with
  | None => Ok p
  | Some future =>
      '(_, _, future) ← tl_Remove tx future;
      let p := set_queue (<[addr := future]> (p_queue p)) p in
      if tl_Empty future
      then Ok (set_beats (delete addr (p_beats p)) (set_queue (delete addr (p_queue p)) p))
      else Ok p
  end.

Definition removeTx (now : Z) (hash : list Z) (outofbound : bool) (p : TxPool) : res TxPool :=
  match lk_Get hash (p_all p) with
  | None => Ok p
  | Some tx =>
      let addr := sender_of tx in
      let p := all_Remove hash p in
      let p := if outofbound then priced_Removed 1 p else p in
      '(done, p) ← remove_pending now addr tx p;
      if done : bool then Ok p else remove_queued addr tx p
  end.

Fixpoint removeTxs (now : Z) (txs : list Transaction) (outofbound : bool) (p : TxPool) : res TxPool :=
  match txs with
  | [] => Ok p
  | tx :: txs' => p ← removeTx now (px_Hash tx) outofbound p; removeTxs now txs' outofbound p
  end.

(** The branch of [add] for a full pool. *)
Definition make_room (now : Z) (tx : Transaction) (isLocal : bool) (p : TxPool) : res (option error * TxPool) :=
  let limit := u64 (GlobalSlots (p_config p) + GlobalQueue (p_config p)) in
  if limit <? u64 (lk_Count (p_all p) + numSlots px_Size tx) then
    '(under, p) ← (if isLocal then Ok (false, p)
                   else '(under, l) ← pl_Underpriced px_Hash (p_all p) tx (p_priced p);
                        Ok (under, set_priced l p));
    if under : bool then Ok (Some ErrUnderpriced, p)
    else
      '(drop, success, l) ← pl_Discard px_Hash px_Size (p_all p)
                              (lk_slots (p_all p) - i64 limit + numSlots px_Size tx) isLocal (p_priced p);
      let p := set_priced l p in
      if negb isLocal && negb success then Ok (Some ErrTxPoolOverflow, p)
      else p ← removeTxs now drop false p; Ok (None, p)
  else Ok (None, p).

(** Replacing a pending transaction of the same nonce. *)
Definition replace_pending (now : Z) (from : Address) (tx : Transaction) (isLocal : bool) (list : txList)
    (p : TxPool) : verdict * TxPool :=
  let '(inserted, old, list) := tl_Add px_Cost tx (PriceBump (p_config p)) list in
  let p := set_pending (<[from := list]> (p_pending p)) p in
  if negb inserted then ((false, Some ErrReplaceUnderpriced), p)
  else
    let p := match old with
             | Some old => priced_Removed 1 (all_Remove (px_Hash old) p)
             | None => p
             end in
    let p := all_Add tx isLocal p in
    let p := journalTx from tx p in
    let p := queueTxEvent tx p in
    ((bool_decide (is_Some old), None), set_beats (<[from := now]> (p_beats p)) p).

(** Marking a new local account: its remote transactions become local. *)
Definition mark_local (from : Address) (p : TxPool) : TxPool :=
  let p := set_locals (as_add from (p_locals p)) p in
  let '(moved, all) := lk_RemoteToLocals (λ tx, as_containsTx tx (p_locals p)) (p_all p) in
  priced_Removed moved (set_all all p).

Definition add_queued (now : Z) (tx : Transaction) (local isLocal : bool) (p : TxPool) : verdict * TxPool :=
  let from := sender_of tx in
  match enqueueTx now (px_Hash tx) tx isLocal true p with
  | (_, Some err, p) => ((false, Some err), p)
  | (replaced, None, p) =>
      let p := if local && negb (as_contains from (p_locals p)) then mark_local from p else p in
      ((replaced, None), journalTx from tx p)
  end.

Definition pool_add (ch : stateReader) (now : Z) (tx : Transaction) (local : bool) (p : TxPool)
  : res (verdict * TxPool) :=
  match lk_Get (px_Hash tx) (p_all p) with
  | Some _ => Ok ((false, Some ErrAlreadyKnown), p)
  | None =>
      let isLocal := local || as_containsTx tx (p_locals p) in
      match validateTx ch tx isLocal p with
      | Panic => Panic
      | Err err => Ok ((false, Some err), p)
      | Ok _ =>
          '(err, p) ← make_room now tx isLocal p;
          match err with
          | Some err => Ok ((false, Some err), p)
          | None =>
              let from := sender_of tx in
              match p_pending p !! from with
              | Some list =>
                  if tl_Overlaps tx list then Ok (replace_pending now from tx isLocal list p)
                  else Ok (add_queued now tx local isLocal p)
              | None => Ok (add_queued now tx local isLocal p)
              end
          end
      end
  end.

Fixpoint addTxsLocked (ch : stateReader) (now : Z) (txs : list Transaction) (local : bool) (dirty : accountSet)
    (p : TxPool) : res (list (option error) * accountSet * TxPool) :=
  match txs with
  | [] => Ok ([], dirty, p)
  | tx :: txs' =>
      '(replaced, err, p) ← pool_add ch now tx local p;
      let dirty := if bool_decide (err = None) && negb replaced then as_addTx tx dirty else dirty in
      '(errs, dirty, p) ← addTxsLocked ch now txs' local dirty p;
      Ok (err :: errs, dirty, p)
  end.

(** The filter of [addTxs]: the error slots and the transactions left to add. *)
Definition preset (p : TxPool) (tx : Transaction) : option error :=
  match lk_Get (px_Hash tx) (p_all p) with
  | Some _ => Some ErrAlreadyKnown
  | None => match px_Sender tx with None => Some ErrInvalidSender | Some _ => None end
  end.

(** [for errs[nilSlot] != nil { nilSlot++ }; errs[nilSlot] = err; nilSlot++]: the slots
    before [nilSlot] are kept; running past the end is a panic. *)
Fixpoint merge_errs (errs newErrs : list (option error)) {struct newErrs} : res (list (option error)) :=
  match newErrs with
  | [] => Ok errs
  | err :: newErrs' =>
      (fix next (errs : list (option error)) : res (list (option error)) :=
         match errs with
         | [] => Panic
         | Some e :: errs' => rest ← next errs'; Ok (Some e :: rest)
         | None :: errs' => rest ← merge_errs errs' newErrs'; Ok (err :: rest)
         end) errs
  end.

(** [addTxs] up to the request for promotion, whose accounts are returned. *)
Definition pool_addTxs (ch : stateReader) (now : Z) (txs : list Transaction) (local : bool) (p : TxPool)
  : res (list (option error) * option accountSet * TxPool) :=
  let errs := preset p <$> txs in
  let news := filter (λ tx, preset p tx = None) txs in
  match news with
  | [] => Ok (errs, None, p)
  | _ =>
      '(newErrs, dirtyAddrs, p) ← addTxsLocked ch now news local (newAccountSet []) p;
      errs ← merge_errs errs newErrs;
      Ok (errs, Some dirtyAddrs, p)
  end.

Definition AddLocals (ch : stateReader) (now : Z) (txs : list Transaction) (p : TxPool) :=
  pool_addTxs ch now txs (negb (NoLocals (p_config p))) p.
Definition AddRemotes (ch : stateReader) (now : Z) (txs : list Transaction) (p : TxPool) :=
  pool_addTxs ch now txs false p.

(** ** Prices and ages *)

Definition SetGasPriceWithCap (now price cap : Z) (p : TxPool) : res TxPool :=
  let p := set_gasPrice price p in
  '(dropped, l) ← pl_Cap px_Hash (p_all p) cap (p_priced p);
  removeTxs now dropped false (set_priced l p).

Definition SetGasPrice (now price : Z) (p : TxPool) : res TxPool := SetGasPriceWithCap now price price p.

(** The head of [loop]: at most once a second, the price recommended by the chain. *)
Definition update_gas_price (ch : stateReader) (now : Z) (p : TxPool) : res TxPool :=
  if time_Second <? now - p_lastGasPriceUpdate p then
    p ← match sr_RecommendedMinGasPrice ch with
        | None => Ok p
        | Some newPrice =>
            let cfgLimit := PriceLimit (p_config p) in
            let newPrice := if newPrice <? cfgLimit then cfgLimit else newPrice in
            if negb (p_gasPrice p =? newPrice) then SetGasPriceWithCap now newPrice (sr_MinGasPrice ch) p
            else Ok p
        end;
    Ok (set_lastGasPriceUpdate now p)
  else Ok p.

(** The eviction tick of [loop].  Removing a transaction of an account leaves the lists
    of the others alone; a missing heartbeat is the zero time. *)
Definition evict_account (now : Z) (addr : Address) (p : TxPool) : res TxPool :=
  if as_contains addr (p_locals p) then Ok p
  else if Lifetime (p_config p) <? now - default 0 (p_beats p !! addr) then
    l ← deref (p_queue p !! addr);
    let '(txs, l) := tl_Flatten l in
    removeTxs now txs true (set_queue (<[addr := l]> (p_queue p)) p)
  else Ok p.

Fixpoint evict_accounts (now : Z) (addrs : list Address) (p : TxPool) : res TxPool :=
  match addrs with
  | [] => Ok p
  | addr :: addrs' => p ← evict_account now addr p; evict_accounts now addrs' p
  end.

Definition evict (now : Z) (p : TxPool) : res TxPool := evict_accounts now (range_of (p_queue p)).*1 p.

(** ** Promotion and demotion *)

Definition promoteTx (now : Z) (addr : Address) (hash : list Z) (tx : Transaction) (p : TxPool)
  : res (bool * TxPool) :=
  let list := default (newTxList true) (p_pending p !! addr) in
  let '(inserted, old, list) := tl_Add px_Cost tx (PriceBump (p_config p)) list in
  let p := set_pending (<[addr := list]> (p_pending p)) p in
  if negb inserted then Ok (false, priced_Removed 1 (all_Remove hash p))
  else
    let p := match old with
             | Some old => priced_Removed 1 (all_Remove (px_Hash old) p)
             | None => p
             end in
    p ← pool_set_nonce addr (u64 (tx_Nonce tx + 1)) p;
    Ok (true, set_beats (<[addr := now]> (p_beats p)) p).

Fixpoint promote_readies (now : Z) (addr : Address) (readies promoted : list Transaction) (p : TxPool)
  : res (list Transaction * TxPool) :=
  match readies with
  | [] => Ok (promoted, p)
  | tx :: readies' =>
      '(ok, p) ← promoteTx now addr (px_Hash tx) tx p;
      promote_readies now addr readies' (if ok : bool then promoted ++ [tx] else promoted) p
  end.

(** The body of the loop of [promoteExecutables].  Nothing reads the queue of the account
    before its list is written back. *)
Definition promote_account (now : Z) (addr : Address) (promoted : list Transaction) (p : TxPool)
  : res (list Transaction * TxPool) :=
  match p_queue p !! addr with
  | None => Ok (promoted, p)
  | Some list =>
      st ← deref (ph_currentState (p_head p));
      '(forwards, list) ← tl_Forward (GetNonce st addr) list;
      let p := all_Removes forwards p in
      let '(drops, _, list) := tl_Filter px_Cost (GetBalance st addr) (ph_currentMaxGas (p_head p)) list in
      let p := all_Removes drops p in
      '(nonce, p) ← pool_nonce addr p;
      '(readies, list) ← tl_Ready nonce list;
      '(promoted, p) ← promote_readies now addr readies promoted p;
      '(caps, list) ← (if as_contains addr (p_locals p) then Ok ([], list)
                       else tl_Cap (i64 (AccountQueue (p_config p))) list);
      let p := all_Removes caps p in
      let p := priced_Removed (len forwards + len drops + len caps) p in
      let p := if tl_Empty list
               then set_beats (delete addr (p_beats p)) (set_queue (delete addr (p_queue p)) p)
               else set_queue (<[addr := list]> (p_queue p)) p in
      Ok (promoted, p)
  end.

Fixpoint promoteExecutables (now : Z) (accounts : list Address) (promoted : list Transaction) (p : TxPool)
  : res (list Transaction * TxPool) :=
  match accounts with
  | [] => Ok (promoted, p)
  | addr :: accounts' =>
      '(promoted, p) ← promote_account now addr promoted p;
      promoteExecutables now accounts' promoted p
  end.

Definition demote_account (now : Z) (addr : Address) (list : txList) (p : TxPool) : res TxPool :=
  st ← deref (ph_currentState (p_head p));
  let nonce := GetNonce st addr in
  '(olds, list) ← tl_Forward nonce list;
  let p := all_Removes olds p in
  let '(drops, invalids, list) := tl_Filter px_Cost (GetBalance st addr) (ph_currentMaxGas (p_head p)) list in
  let p := all_Removes drops p in
  let p := priced_Removed (len olds + len drops) p in
  let p := enqueueTxs now invalids p in
  '(list, p) ← (if (0 <? tl_Len list) && bool_decide (sm_Get (tl_txs list) nonce = None) then
                  '(gapped, list) ← tl_Cap 0 list;
                  Ok (list, enqueueTxs now gapped p)
                else Ok (list, p));
  Ok (if tl_Empty list then set_pending (delete addr (p_pending p)) p
      else set_pending (<[addr := list]> (p_pending p)) p).

Fixpoint demote_accounts (now : Z) (lists : list (Address * txList)) (p : TxPool) : res TxPool :=
  match lists with
  | [] => Ok p
  | (addr, list) :: lists' => p ← demote_account now addr list p; demote_accounts now lists' p
  end.

(** The iteration deletes only the entry it is at. *)
Definition demoteUnexecutables (now : Z) (p : TxPool) : res TxPool :=
  demote_accounts now (range_of (p_pending p)) p.

(** ** Truncation *)

Definition pending_Len (addr : Address) (p : TxPool) : res Z :=
  l ← deref (p_pending p !! addr); Ok (tl_Len l).

Fixpoint drop_capped (addr : Address) (caps : list Transaction) (p : TxPool) : res TxPool :=
  match caps with
  | [] => Ok p
  | tx :: caps' => p ← pool_lower_nonce addr (tx_Nonce tx) (all_Remove (px_Hash tx) p); drop_capped addr caps' p
  end.

(** [pending--] of an unsigned counter. *)
Definition dec64 (x : Z) : Z := if x =? 0 then 2 ^ 64 - 1 else x - 1.

(** One transaction less for every given account. *)
Fixpoint cap_round (addrs : list Address) (pending : Z) (p : TxPool) : res (Z * TxPool) :=
  match addrs with
  | [] => Ok (pending, p)
  | addr :: addrs' =>
      l ← deref (p_pending p !! addr);
      '(caps, l) ← tl_Cap (tl_Len l - 1) l;
      p ← drop_capped addr caps (set_pending (<[addr := l]> (p_pending p)) p);
      cap_round addrs' (dec64 pending) (priced_Removed (len caps) p)
  end.

(** [for pending > GlobalSlots && pool.pending[last].Len() > threshold]: rounds over [addrs];
    the fuel bounds the length of the list of [last], which every round shortens. *)
Fixpoint cap_rounds (fuel : nat) (addrs : list Address) (last : Address) (threshold pending : Z) (p : TxPool)
  : res (Z * TxPool) :=
  match fuel with
  | O => Panic
  | S fuel' =>
      if GlobalSlots (p_config p) <? pending then
        n ← pending_Len last p;
        if threshold <? n then
          '(pending, p) ← cap_round addrs pending p;
          cap_rounds fuel' addrs last threshold pending p
        else Ok (pending, p)
      else Ok (pending, p)
  end.

Definition cap_fuel (last : Address) (p : TxPool) : nat :=
  match p_pending p !! last with Some l => S (Z.to_nat (tl_Len l)) | None => 1 end.

(** The loop over the priority queue of the accounts with many transactions. *)
Fixpoint offenders_loop (spammers offenders : list Address) (pending : Z) (p : TxPool)
  : res (list Address * Z * TxPool) :=
  match spammers with
  | [] => Ok (offenders, pending, p)
  | offender :: spammers' =>
      if GlobalSlots (p_config p) <? pending then
        '(pending, p) ← match last offenders with
                        | None => Ok (pending, p)
                        | Some prev =>
                            threshold ← pending_Len offender p;
                            cap_rounds (cap_fuel prev p) offenders prev threshold pending p
                        end;
        offenders_loop spammers' (offenders ++ [offender]) pending p
      else Ok (offenders, pending, p)
  end.

Definition spammers_of (p : TxPool) : list (Address * Z) :=
  (λ e : Address * txList, (e.1, tl_Len e.2)) <$>
    filter (λ e : Address * txList, as_contains e.1 (p_locals p) = false ∧ AccountSlots (p_config p) < tl_Len e.2)
      (range_of (p_pending p)).

Definition truncatePending (p : TxPool) : res TxPool :=
  let pending := list_total (p_pending p) in
  if pending <=? GlobalSlots (p_config p) then Ok p
  else
    '(offenders, pending, p) ← offenders_loop (pq_pops (spammers_of p)).*1 [] pending p;
    match last offenders with
    | None => Ok p
    | Some prev =>
        '(_, p) ← cap_rounds (cap_fuel prev p) offenders prev (AccountSlots (p_config p)) pending p;
        Ok p
    end.

(** [for i := len(txs) - 1; i >= 0 && drop > 0; i--], over the reversed list. *)
Fixpoint drop_last (now : Z) (txs : list Transaction) (drop : Z) (p : TxPool) : res (Z * TxPool) :=
  match txs with
  | [] => Ok (drop, p)
  | tx :: txs' =>
      if 0 <? drop then
        p ← removeTx now (px_Hash tx) true p;
        drop_last now txs' (drop - 1) p
      else Ok (drop, p)
  end.

(** The loop takes the accounts from the end of the sorted slice: [addrs] is reversed. *)
Fixpoint truncate_loop (now : Z) (addrs : list Address) (drop : Z) (p : TxPool) : res TxPool :=
  match addrs with
  | [] => Ok p
  | addr :: addrs' =>
      if 0 <? drop then
        l ← deref (p_queue p !! addr);
        let size := tl_Len l in
        let '(txs, l) := tl_Flatten l in
        let p := set_queue (<[addr := l]> (p_queue p)) p in
        if size <=? drop then
          p ← removeTxs now txs true p;
          truncate_loop now addrs' (drop - size) p
        else
          '(drop, p) ← drop_last now (reverse txs) drop p;
          truncate_loop now addrs' drop p
      else Ok p
  end.

Definition beats_of (p : TxPool) : list (Address * Z) :=
  (λ addr, (addr, default 0 (p_beats p !! addr))) <$>
    filter (λ addr, as_contains addr (p_locals p) = false) (range_of (p_queue p)).*1.

Definition truncateQueue (now : Z) (p : TxPool) : res TxPool :=
  let queued := list_total (p_queue p) in
  if queued <=? GlobalQueue (p_config p) then Ok p
  else truncate_loop now (reverse (sort_beats (beats_of p)).*1) (queued - GlobalQueue (p_config p)) p.

(** ** Reset to a new head *)

(** The walk of [reset] over the old and the new chain ends with the transactions
    dropped and included by it, or at a block that the chain does not have. *)
Inductive walk := Unrooted | Rooted (discarded included : list Transaction).

Definition NumberU64 (b : EvmBlock) : Z := h_Number (eb_Header b).
Definition parent_of (ch : stateReader) (b : EvmBlock) : option EvmBlock :=
  sr_GetBlock ch (h_ParentHash (eb_Header b)) (u64 (NumberU64 b - 1)).

(** [for rem.NumberU64() > add.NumberU64()]: the block with the bound's number, with the
    transactions on the way. *)
Fixpoint descend (fuel : nat) (ch : stateReader) (b : EvmBlock) (bound : Z) (txs : list Transaction)
  : res (option (EvmBlock * list Transaction)) :=
  if bound <? NumberU64 b then
    match fuel with
    | O => Panic
    | S fuel' =>
        match parent_of ch b with
        | None => Ok None
        | Some b' => descend fuel' ch b' bound (txs ++ eb_Transactions b)
        end
    end
  else Ok (Some (b, txs)).

(** [for rem.Hash != add.Hash] *)
Fixpoint common_ancestor (fuel : nat) (ch : stateReader) (rem add : EvmBlock)
    (discarded included : list Transaction) : res walk :=
  if bool_decide (h_Hash (eb_Header rem) = h_Hash (eb_Header add)) then Ok (Rooted discarded included)
  else
    match fuel with
    | O => Panic
    | S fuel' =>
        match parent_of ch rem with
        | None => Ok Unrooted
        | Some rem' =>
            match parent_of ch add with
            | None => Ok Unrooted
            | Some add' => common_ancestor fuel' ch rem' add' (discarded ++ eb_Transactions rem)
                             (included ++ eb_Transactions add)
            end
        end
    end.

Definition walk_chains (ch : stateReader) (rem add : EvmBlock) : res walk :=
  o ← descend (Z.to_nat (NumberU64 rem)) ch rem (NumberU64 add) [];
  match o with
  | None => Ok Unrooted
  | Some (rem, discarded) =>
      o ← descend (Z.to_nat (NumberU64 add)) ch add (NumberU64 rem) [];
      match o with
      | None => Ok Unrooted
      | Some (add, included) =>
          common_ancestor (S (Z.to_nat (NumberU64 rem))) ch rem add discarded included
      end
  end.

(** The transactions to put back into the pool; [None] when the reset is abandoned.
    The depth is computed in the code on floats, which is exact below 2^53. *)
Definition reinject_of (ch : stateReader) (oldHead : option EvmHeader) (newHead : option EvmHeader)
  : res (option (list Transaction)) :=
  match oldHead with
  | None => Ok (Some [])
  | Some oldHead =>
      newHead ← deref newHead;
      if bool_decide (h_Hash oldHead = h_ParentHash newHead) then Ok (Some [])
      else
        let oldNum := h_Number oldHead in
        let newNum := h_Number newHead in
        if 64 <? Z.abs (oldNum - newNum) then Ok (Some [])
        else
          match sr_GetBlock ch (h_Hash oldHead) oldNum with
          | None => if oldNum <=? newNum then Ok None else Ok (Some [])
          | Some rem =>
              add ← deref (sr_GetBlock ch (h_Hash newHead) newNum);
              w ← walk_chains ch rem add;
              match w with
              | Unrooted => Ok None
              | Rooted discarded included => Ok (Some (px_TxDifference discarded included))
              end
          end
  end.

Definition set_chainconfig (cfg : option ChainConfig) (p : TxPool) : TxPool :=
  let h := p_head p in
  match cfg with
  | Some cfg => set_head (mkPoolHead cfg (ph_istanbul h) (ph_eip2718 h) (ph_currentState h) (ph_currentMaxGas h)) p
  | None => p
  end.

Definition pool_reset (ch : stateReader) (now : Z) (oldHead newHead : option EvmHeader) (p : TxPool) : res TxPool :=
  let p := set_chainconfig (sr_Config ch) p in
  o ← reinject_of ch oldHead newHead;
  match o with
  | None => Ok p
  | Some reinject =>
      let newHead := default (eb_Header (sr_CurrentBlock ch)) newHead in
      match sr_StateAt ch (h_Root newHead) with
      | None => Ok p
      | Some statedb =>
          let h := p_head p in
          let p := set_head (mkPoolHead (ph_chainconfig h) (ph_istanbul h) (ph_eip2718 h) (Some statedb)
                               (sr_MaxGasLimit ch)) p in
          let p := set_pendingNonces (Some (newTxNoncer statedb)) p in
          '(_, _, p) ← addTxsLocked ch now reinject false (newAccountSet []) p;
          let next := h_Number newHead + 1 in
          let h := p_head p in
          Ok (set_head (mkPoolHead (ph_chainconfig h) (IsIstanbul (ph_chainconfig h) next)
                          (IsBerlin (ph_chainconfig h) next) (ph_currentState h) (ph_currentMaxGas h)) p)
      end
  end.

(** ** Reorganisation *)

(** [txpoolResetRequest] *)
Record resetRequest := mkResetRequest { rr_oldHead : option EvmHeader; rr_newHead : option EvmHeader }.

(** The events that became stale by a reset. *)
Fixpoint forward_events (evs : list (Address * txSortedMap)) (events : gmap Address txSortedMap) (p : TxPool)
  : res (gmap Address txSortedMap * TxPool) :=
  match evs with
  | [] => Ok (events, p)
  | (addr, m) :: evs' =>
      '(nonce, p) ← pool_nonce addr p;
      '(_, m) ← sm_Forward nonce m;
      forward_events evs' (if sm_Len m =? 0 then delete addr events else <[addr := m]> events) p
  end.

(** The last loop of [runReorg] over the pending lists. *)
Fixpoint settle_nonces (lists : list (Address * txList)) (p : TxPool) : res TxPool :=
  match lists with
  | [] => Ok p
  | (addr, l) :: lists' =>
      let '(highest, l) := tl_LastElement l in
      highestPending ← highest;
      p ← pool_set_nonce addr (u64 (tx_Nonce highestPending + 1)) (set_pending (<[addr := l]> (p_pending p)) p);
      settle_nonces lists' p
  end.

(** The critical section of [runReorg]: the promoted transactions, the events, the pool. *)
Definition reorg (ch : stateReader) (now : Z) (reset : option resetRequest) (dirtyAccounts : option accountSet)
    (events : gmap Address txSortedMap) (p : TxPool)
  : res (list Transaction * gmap Address txSortedMap * TxPool) :=
  '(promoteAddrs, events, p) ←
    match reset with
    | None => Ok (match dirtyAccounts with Some d => (as_flatten d).1 | None => [] end, events, p)
    | Some r =>
        p ← pool_reset ch now (rr_oldHead r) (rr_newHead r) p;
        '(events, p) ← forward_events (range_of events) events p;
        Ok ((range_of (p_queue p)).*1, events, p)
    end;
  '(promoted, p) ← promoteExecutables now promoteAddrs [] p;
  p ← match reset with Some _ => demoteUnexecutables now p | None => Ok p end;
  p ← truncatePending p;
  p ← truncateQueue now p;
  p ← settle_nonces (range_of (p_pending p)) p;
  Ok (promoted, events, p).

(** [runReorg] with the notification it sends, if any. *)
Definition runReorg (ch : stateReader) (now : Z) (reset : option resetRequest) (dirtyAccounts : option accountSet)
    (events : gmap Address txSortedMap) (p : TxPool) : res (option (list Transaction) * TxPool) :=
  '(promoted, events, p) ← reorg ch now reset dirtyAccounts events p;
  let events := foldl (flip put_event) events promoted in
  Ok (if 0 <? Z.of_nat (size events)
      then Some ((range_of events).*2 ≫= λ m, (sm_Flatten m).1) else None, p).

(** ** Creation *)

Definition newPool (config : TxPoolConfig) (cfg : ChainConfig) (journal : option (list Transaction)) : TxPool :=
  mkTxPool config (PriceLimit config) 0 (mkPoolHead cfg false false None 0) None
    (newAccountSet (Locals config)) journal ∅ ∅ ∅ newTxLookup (mkPriced [] 0) ∅.

(** [NewTxPool] up to the launch of its goroutines and the loading of the journal. *)
Definition NewTxPool (ch : stateReader) (now : Z) (config : TxPoolConfig) (cfg : ChainConfig) : res TxPool :=
  let config := sanitize config in
  pool_reset ch now None (Some (eb_Header (sr_CurrentBlock ch))) (newPool config cfg None).
End pool.
