(* ===== verification/PoolInv.v ===== *)
(** * The invariant of the transaction pool (evmcore/tx_pool.go)

    [pool_inv] ties the maps of account lists, the lookup table and the heap of prices to
    two abstract functions from accounts to sorted lists of transactions, the pending and
    the queued ones: the lists hold exactly what the lookup table knows, no nonce of an
    account is both pending and queued, and every remote transaction is in the heap.  The
    lemmas give the effect of each operation on the abstract lists. *)

From stdpp Require Import sorting functions.
From S2P Require Import Prelude Cser Inter TxSer Pos Heap EvmState EvmChain TxList TxPool.

Notation nonces l := (tx_Nonce <$> l).

Lemma map_to_list_union `{Countable K} {A} (m1 m2 : gmap K A) :
  m1 ##ₘ m2 → map_to_list (m1 ∪ m2) ≡ₚ map_to_list m1 ++ map_to_list m2.
Proof.
  intros Hd. apply NoDup_Permutation; [apply NoDup_map_to_list|..].
  - apply NoDup_app. split; [apply NoDup_map_to_list|]. split; [|apply NoDup_map_to_list].
    intros [k x] E1%elem_of_map_to_list E2%elem_of_map_to_list. by eapply map_disjoint_spec.
  - intros [k x]. rewrite elem_of_app, !elem_of_map_to_list. by apply lookup_union_Some.
Qed.

(** ** The lookup table *)

Section lookup.
Context `{PoolTx}.

Definition remote_txs (t : txLookup) : list Transaction := (map_to_list (lk_remotes t)).*2.
Definition local_txs (t : txLookup) : list Transaction := (map_to_list (lk_locals t)).*2.

(** The table holds exactly the transactions of [S], each once, and counts their slots. *)
Record all_ok (t : txLookup) (S : Transaction → Prop) : Prop := {
  ao_get : ∀ h tx, lk_Get h t = Some tx ↔ px_Hash tx = h ∧ S tx;
  ao_disj : lk_locals t ##ₘ lk_remotes t;
  ao_slots : lk_slots t = slots_of px_Size (local_txs t) + slots_of px_Size (remote_txs t);
}.

Lemma lk_Get_Some h t tx :
  lk_locals t ##ₘ lk_remotes t → lk_Get h t = Some tx ↔ lk_locals t !! h = Some tx ∨ lk_remotes t !! h = Some tx.
Proof.
  intros Hd. unfold lk_Get. destruct (lk_locals t !! h) as [x|] eqn:E; [|naive_solver].
  assert (lk_remotes t !! h = None) as -> by (by eapply map_disjoint_Some_l). naive_solver.
Qed.

Lemma all_ok_iff t S S' : (∀ x, S x ↔ S' x) → all_ok t S → all_ok t S'.
Proof. intros HS [Hg Hd Hs]. split; [|done..]. intros h tx. by rewrite Hg, HS. Qed.

Lemma all_ok_hash t S x y : all_ok t S → S x → S y → px_Hash x = px_Hash y → x = y.
Proof.
  intros Ha Hx Hy E. assert (Hgx : lk_Get (px_Hash x) t = Some x) by (by apply (ao_get _ _ Ha)).
  assert (Hgy : lk_Get (px_Hash x) t = Some y) by (by apply (ao_get _ _ Ha)). congruence.
Qed.

Lemma slots_insert (m : gmap (list Z) Transaction) h tx :
  m !! h = None →
  slots_of px_Size (map_to_list (<[h := tx]> m)).*2 = numSlots px_Size tx + slots_of px_Size (map_to_list m).*2.
Proof. intros E. rewrite <- slots_of_cons. apply slots_of_perm. by rewrite map_to_list_insert. Qed.

Lemma slots_delete (m : gmap (list Z) Transaction) h tx :
  m !! h = Some tx →
  slots_of px_Size (map_to_list m).*2 = numSlots px_Size tx + slots_of px_Size (map_to_list (delete h m)).*2.
Proof.
  intros E. rewrite <- slots_of_cons. apply slots_of_perm. by rewrite <- (map_to_list_delete m h tx E).
Qed.

Lemma lk_Remove_ok t S tx :
  all_ok t S → S tx → all_ok (lk_Remove px_Size (px_Hash tx) t) (λ x, S x ∧ x ≠ tx).
Proof.
  intros Ha Htx. assert (Hg : lk_Get (px_Hash tx) t = Some tx) by (by apply (ao_get _ _ Ha)).
  unfold lk_Remove. rewrite Hg. pose proof (ao_disj _ _ Ha) as Hd.
  assert (Hd' : delete (px_Hash tx) (lk_locals t) ##ₘ delete (px_Hash tx) (lk_remotes t)) by
    (apply map_disjoint_delete_l, map_disjoint_delete_r; done).
  split; cbn [lk_locals lk_remotes lk_slots]; [|done|].
  - intros h x. rewrite lk_Get_Some by done. cbn [lk_locals lk_remotes]. rewrite !lookup_delete_Some.
    pose proof (ao_get _ _ Ha h x) as Hx. rewrite lk_Get_Some in Hx by done. split.
    + intros [[Hne Hl]|[Hne Hl]]; (destruct (proj1 Hx) as [Eh HS]; [tauto|]); (split; [done|]); (split; [done|]);
        congruence.
    + intros (Eh & HS & Hne). assert (Hne' : px_Hash tx ≠ h).
      { intros <-. apply Hne. by apply (all_ok_hash t S). }
      destruct (proj2 Hx (conj Eh HS)); tauto.
  - rewrite (ao_slots _ _ Ha). unfold local_txs, remote_txs in *. cbn [lk_locals lk_remotes].
    apply lk_Get_Some in Hg as [Hl|Hr]; [| |done].
    + assert (Hn : lk_remotes t !! px_Hash tx = None) by (by eapply map_disjoint_Some_l).
      rewrite (delete_id (lk_remotes t)), (slots_delete _ _ _ Hl) by done. lia.
    + assert (Hn : lk_locals t !! px_Hash tx = None) by (by eapply map_disjoint_Some_r).
      rewrite (delete_id (lk_locals t)), (slots_delete _ _ _ Hr) by done. lia.
Qed.

Lemma lk_Remove_remotes t h : lk_remotes (lk_Remove px_Size h t) ⊆ lk_remotes t.
Proof. unfold lk_Remove. destruct (lk_Get h t); [apply delete_subseteq|done]. Qed.

Lemma lk_Add_ok t S tx local :
  all_ok t S → lk_Get (px_Hash tx) t = None → all_ok (lk_Add px_Hash px_Size tx local t) (λ x, S x ∨ x = tx).
Proof.
  intros Ha Hn. pose proof (ao_disj _ _ Ha) as Hd.
  assert (Hnl : lk_locals t !! px_Hash tx = None ∧ lk_remotes t !! px_Hash tx = None).
  { unfold lk_Get in Hn. by destruct (lk_locals t !! px_Hash tx). }
  destruct Hnl as [Hl Hr].
  assert (Hiff : ∀ h x, (lk_Get h t = Some x ∨ (px_Hash tx = h ∧ x = tx)) ↔ px_Hash x = h ∧ (S x ∨ x = tx)).
  { intros h x. rewrite (ao_get _ _ Ha). naive_solver. }
  assert (Hins : ∀ (m : gmap (list Z) Transaction) h x, m !! px_Hash tx = None →
    <[px_Hash tx := tx]> m !! h = Some x ↔ m !! h = Some x ∨ (px_Hash tx = h ∧ x = tx)).
  { intros m h x Hm. rewrite lookup_insert_Some. split; [naive_solver|]. intros [Hx|[-> ->]]; [|by left].
    right. split; [|done]. intros <-. congruence. }
  unfold lk_Add. destruct local; split; cbn [lk_locals lk_remotes lk_slots local_txs remote_txs].
  - intros h x. rewrite <- Hiff, !lk_Get_Some; [|done|by apply map_disjoint_insert_l_2]. cbn [lk_locals lk_remotes].
    rewrite Hins by done. tauto.
  - by apply map_disjoint_insert_l_2.
  - rewrite (ao_slots _ _ Ha). unfold local_txs, remote_txs. cbn [lk_locals lk_remotes]. rewrite slots_insert by done. lia.
  - intros h x. rewrite <- Hiff, !lk_Get_Some; [|done|by apply map_disjoint_insert_r_2]. cbn [lk_locals lk_remotes].
    rewrite Hins by done. tauto.
  - by apply map_disjoint_insert_r_2.
  - rewrite (ao_slots _ _ Ha). unfold local_txs, remote_txs. cbn [lk_locals lk_remotes]. rewrite slots_insert by done. lia.
Qed.

(** Moving transactions from the remote to the local ones changes nothing else. *)
Lemma lk_RemoteToLocals_ok f t S :
  all_ok t S → all_ok (lk_RemoteToLocals f t).2 S ∧
    lk_remotes (lk_RemoteToLocals f t).2 = filter (λ p, f p.2 = false) (lk_remotes t).
Proof.
  intros Ha. pose proof (ao_disj _ _ Ha) as Hd. split; [|done]. unfold lk_RemoteToLocals. cbn [snd].
  set (moved := filter (λ p, f p.2 = true) (lk_remotes t)). set (rest := filter (λ p, f p.2 = false) (lk_remotes t)).
  assert (Hmr : moved ##ₘ rest).
  { apply map_disjoint_spec. intros h x y [Emx Hx]%map_lookup_filter_Some [Emy Hy]%map_lookup_filter_Some. cbn in *.
    assert (x = y) as -> by congruence. congruence. }
  assert (Hsub : ∀ m, m ⊆ lk_remotes t → lk_locals t ##ₘ m) by (intros m Hm; by eapply map_disjoint_weaken_r).
  assert (Hlm : moved ##ₘ lk_locals t) by (symmetry; apply Hsub, map_filter_subseteq).
  assert (Hlr : lk_locals t ##ₘ rest) by apply Hsub, map_filter_subseteq.
  assert (Hd' : moved ∪ lk_locals t ##ₘ rest) by (by apply map_disjoint_union_l).
  assert (Hall : ∀ h x, moved !! h = Some x ∨ rest !! h = Some x ↔ lk_remotes t !! h = Some x).
  { intros h x. unfold moved, rest. rewrite !map_lookup_filter_Some. cbn. destruct (f x); naive_solver. }
  split; cbn [lk_locals lk_remotes lk_slots]; [|done|].
  - intros h x. rewrite <- (ao_get _ _ Ha), !lk_Get_Some by done. cbn [lk_locals lk_remotes].
    rewrite lookup_union_Some by done. rewrite <- (Hall h x). tauto.
  - rewrite (ao_slots _ _ Ha). unfold local_txs, remote_txs. cbn [lk_locals lk_remotes].
    assert (Hu : lk_remotes t = moved ∪ rest).
    { apply map_eq. intros h. apply option_eq. intros x. rewrite <- Hall, lookup_union_Some by done. done. }
    rewrite Hu. unfold slots_of.
    rewrite (sum_Z_perm _ _ (fmap_Permutation _ _ _ (fmap_Permutation _ _ _ (map_to_list_union _ _ Hmr)))),
      (sum_Z_perm _ _ (fmap_Permutation _ _ _ (fmap_Permutation _ _ _ (map_to_list_union _ _ Hlm)))).
    rewrite !fmap_app, !sum_Z_app. lia.
Qed.
End lookup.

(** ** The operations of an account list, with its caps *)

Section lists.
Context `{MapRangeLaws} `{GoHeapLaws Z nonce_less} `{PoolTx}.

Notation tabs := (tl_abs px_Cost).

Definition above (n : Z) (s : list Transaction) := filter (λ tx, n < tx_Nonce tx) s.

Lemma tabs_sub l s m s' : tabs l s → abs m s' → s' ⊆ s → tabs (set_txs m l) s'.
Proof. intros [Ha Hc Hn] Hm Hsub. split; [done|..]; cbn; rewrite Forall_forall in *; auto. Qed.

Lemma tabs_sorted l s : tabs l s → StronglySorted nonce_lt s.
Proof. intros [Ha _ _]. by apply abs_sorted in Ha. Qed.

Lemma tabs_Len l s : tabs l s → tl_Len l = len s.
Proof.
  intros Hl. pose proof (tabs_sorted _ _ Hl) as Hs. destruct Hl as [Ha _ _]. unfold tl_Len, sm_Len.
  apply size_repr; [by apply sorted_NoDup|by apply abs_items].
Qed.

Lemma tabs_Empty l s : tabs l s → tl_Empty l = bool_decide (s = []).
Proof.
  intros Hl. unfold tl_Empty. rewrite (tabs_Len _ _ Hl). destruct s; [done|].
  rewrite bool_decide_false by done. apply Z.eqb_neq. unfold len. cbn. lia.
Qed.

Lemma tabs_new strict : tabs (newTxList strict) [].
Proof. split; [apply abs_empty|constructor..]. Qed.

Lemma tabs_Get l s n tx : tabs l s → sm_items (tl_txs l) !! n = Some tx ↔ tx ∈ s ∧ tx_Nonce tx = n.
Proof. intros [Ha _ _]. apply (abs_items _ _ Ha). Qed.

Lemma tabs_Overlaps l s tx : tabs l s → tl_Overlaps tx l = bool_decide (tx_Nonce tx ∈ nonces s).
Proof.
  intros Hl. unfold tl_Overlaps, sm_Get. apply bool_decide_ext. rewrite list_elem_of_fmap. split.
  - intros [x Hx]. apply (tabs_Get _ _ _ _ Hl) in Hx as [Hin <-]. by exists x.
  - intros (x & E & Hin). exists x. by apply (tabs_Get _ _ _ _ Hl).
Qed.

(** Inserting a nonce that the list does not have always succeeds. *)
Lemma tabs_Add_fresh l s tx bump :
  tabs l s → is_u64 (tx_Nonce tx) → 0 <= bump < 2 ^ 62 → tx_Nonce tx ∉ nonces s →
  ∃ l', tl_Add px_Cost tx bump l = (true, None, l') ∧ tabs l' (put_sorted tx s) ∧ tl_strict l' = tl_strict l.
Proof.
  intros Hl Hu Hb Hn. destruct (txlist_add_replaces px_Cost l s tx bump Hl Hu Hb) as (ok & old & l' & E & Hok & _ & Ht).
  destruct ok.
  - destruct (Ht eq_refl) as (Hl' & Hst & Hold). exists l'. split; [|done]. rewrite E.
    destruct old as [o|]; [|done]. destruct (proj1 (Hold o) eq_refl) as [Hin Eo]. destruct Hn. rewrite <- Eo.
    by apply list_elem_of_fmap_2.
  - exfalso. assert (false = true); [|done]. apply Hok. intros o Hin Eo. destruct Hn. rewrite <- Eo.
    by apply list_elem_of_fmap_2.
Qed.

Lemma tabs_Forward l s t :
  tabs l s → ∃ l', tl_Forward t l = Ok (below t s, l') ∧ tabs l' (from t s) ∧ tl_strict l' = tl_strict l.
Proof.
  intros Hl. destruct (Forward_refines (tl_txs l) s t (ta_abs _ _ _ Hl)) as (m & E & Hm).
  exists (set_txs m l). unfold tl_Forward. rewrite E. split; [done|]. split; [|done].
  eapply tabs_sub; [done..|]. by intros x [_ ?]%list_elem_of_filter.
Qed.

Lemma tabs_Cap l s t :
  tabs l s → 0 <= t → ∃ l', tl_Cap t l = Ok (reverse (drop (Z.to_nat t) s), l') ∧
    tabs l' (take (Z.to_nat t) s) ∧ tl_strict l' = tl_strict l.
Proof.
  intros Hl Ht. destruct (Cap_refines (tl_txs l) s t (ta_abs _ _ _ Hl) Ht) as (m & E & Hm).
  exists (set_txs m l). unfold tl_Cap. rewrite E. split; [done|]. split; [|done].
  eapply tabs_sub; [done..|]. intros x Hx. by eapply subseteq_take.
Qed.

Lemma run_app next l : (run next l).1 ++ (run next l).2 = l.
Proof.
  revert next. induction l as [|tx l IH]; intros next; [done|]. cbn. destruct (_ =? _); [|done].
  specialize (IH (u64 (next + 1))). destruct (run (u64 (next + 1)) l). cbn in *. by rewrite IH.
Qed.

Lemma ready_app start l : (ready_spec start l).1 ++ (ready_spec start l).2 = l.
Proof. unfold ready_spec. destruct l as [|tx l]; [done|]. destruct (_ <? _); [done|]. apply run_app. Qed.

Lemma tabs_Ready l s start :
  tabs l s → ∃ l', tl_Ready start l = Ok ((ready_spec start s).1, l') ∧ tabs l' (ready_spec start s).2 ∧
    tl_strict l' = tl_strict l.
Proof.
  intros Hl. destruct (Ready_refines (tl_txs l) s start (ta_abs _ _ _ Hl)) as (m & E & Hm).
  exists (set_txs m l). unfold tl_Ready. rewrite E. split; [done|]. split; [|done].
  eapply tabs_sub; [done..|]. rewrite <- (ready_app start s) at 2. set_solver.
Qed.

Lemma tabs_Flatten l s :
  tabs l s → ∃ l', tl_Flatten l = (s, l') ∧ tabs l' s ∧ tl_strict l' = tl_strict l.
Proof.
  intros Hl. destruct (Flatten_refines (tl_txs l) s (ta_abs _ _ _ Hl)) as (m & E & Hm).
  exists (set_txs m l). unfold tl_Flatten. rewrite E. split; [done|]. split; [|done]. by eapply tabs_sub.
Qed.

Lemma tabs_LastElement l s tx :
  tabs l (s ++ [tx]) → ∃ l', tl_LastElement l = (Ok tx, l') ∧ tabs l' (s ++ [tx]) ∧ tl_strict l' = tl_strict l.
Proof.
  intros Hl. destruct (Flatten_refines (tl_txs l) _ (ta_abs _ _ _ Hl)) as (m & E & Hm).
  exists (set_txs m l). unfold tl_LastElement, sm_LastElement, sm_Flatten in *. rewrite E.
  rewrite len_app. change (len [tx]) with 1. replace (len s + 1 - 1) with (len s) by lia.
  rewrite index_app_mid. split; [done|]. split; [|done]. by eapply tabs_sub.
Qed.

(** Removing from a strict list invalidates everything above. *)
Lemma tabs_Remove l s tx :
  tabs l s →
  ∃ invalids l', tl_Remove tx l = Ok (bool_decide (tx_Nonce tx ∈ nonces s), invalids, l') ∧
    tl_strict l' = tl_strict l ∧
    (tx_Nonce tx ∉ nonces s → invalids = [] ∧ tabs l' s) ∧
    (tx_Nonce tx ∈ nonces s →
       if tl_strict l then invalids ≡ₚ above (tx_Nonce tx) s ∧ tabs l' (below (tx_Nonce tx) s)
       else invalids = [] ∧ tabs l' (filter (λ x, tx_Nonce x ≠ tx_Nonce tx) s)).
Proof.
  intros Hl. destruct (Remove_refines (tl_txs l) s (tx_Nonce tx) (ta_abs _ _ _ Hl)) as (m & E & Hm).
  unfold tl_Remove. rewrite E. cbn [mbind res_bind]. case_bool_decide as Hin; cbn [negb].
  - destruct (tl_strict l) eqn:Hst.
    + destruct (Filter_refines m _ (λ x, tx_Nonce tx <? tx_Nonce x) Hm) as (inv & m' & -> & Hp & Hm').
      exists inv, (set_txs m' l). split; [done|]. split; [done|]. split; [done|]. intros _.
      rewrite list_filter_filter in Hp, Hm'. split.
      * rewrite Hp. unfold above. erewrite list_filter_iff; [done|]. intros x. rewrite Z.ltb_lt. lia.
      * eapply tabs_sub; [done| |by intros x [_ ?]%list_elem_of_filter]. unfold below.
        erewrite list_filter_iff; [done|]. intros x. cbn. rewrite Z.ltb_ge. lia.
    + exists [], (set_txs m l). split; [done|]. split; [done|]. split; [done|]. intros _. split; [done|].
      eapply tabs_sub; [done..|]. by intros x [_ ?]%list_elem_of_filter.
  - exists [], (set_txs m l). split; [done|]. split; [done|]. split; [|done]. intros _. split; [done|].
    rewrite filter_all in Hm; [by eapply tabs_sub|]. rewrite Forall_forall. intros x Hx E'. destruct Hin.
    rewrite <- E'. by apply list_elem_of_fmap_2.
Qed.

(** ** Enqueueing several transactions *)

Definition enq (txs s : list Transaction) : list Transaction := foldl (flip put_sorted) s txs.

Lemma enq_elem txs s x :
  StronglySorted nonce_lt s → NoDup (nonces txs) → (∀ t, t ∈ txs → tx_Nonce t ∉ nonces s) →
  StronglySorted nonce_lt (enq txs s) ∧ (x ∈ enq txs s ↔ x ∈ txs ∨ x ∈ s).
Proof.
  revert s. induction txs as [|t txs IH]; intros s Hs Hnd Hf; cbn [enq foldl].
  { split; [done|]. set_solver. }
  apply NoDup_cons in Hnd as [Ht Hnd]. pose proof (put_sorted_ok t s Hs) as Hs'.
  destruct (IH (put_sorted t s) Hs' Hnd) as [Hss Hx].
  - intros y Hy. rewrite list_elem_of_fmap. intros (z & E & Hz). apply put_sorted_elem in Hz as [->|[Hz _]]; [| |done].
    + destruct Ht. rewrite <- E. by apply list_elem_of_fmap_2.
    + apply (Hf y ltac:(by right)). rewrite E. by apply list_elem_of_fmap_2.
  - split; [done|]. unfold enq, flip in *. rewrite Hx, put_sorted_elem, elem_of_cons by done.
    assert (x ∈ s → tx_Nonce x ≠ tx_Nonce t).
    { intros Hxs E. apply (Hf t ltac:(by left)). rewrite <- E. by apply list_elem_of_fmap_2. }
    tauto.
Qed.
End lists.

(** ** The invariant *)

Section inv.
Context `{MapRangeLaws} `{GoHeapLaws Z nonce_less} `{GoHeapLaws Transaction price_less} `{PoolTx}.

Notation view := (Address → list Transaction).
Notation tabs := (tl_abs px_Cost).

(** The account lists of a map: absent exactly when they are empty. *)
Definition lists_at (strict : bool) (m : gmap Address txList) (P : view) : Prop :=
  ∀ a, match m !! a with
       | Some l => tabs l (P a) ∧ tl_strict l = strict ∧ P a ≠ []
       | None => P a = []
       end.

Definition in_pool (P Q : view) (tx : Transaction) : Prop := ∃ a, tx ∈ P a ∨ tx ∈ Q a.

Record config_ok (c : TxPoolConfig) : Prop := {
  co_bump : 0 <= PriceBump c < 2 ^ 62;
  co_slots : 1 <= AccountSlots c;
  co_queue : 1 <= AccountQueue c < 2 ^ 63;
  co_gslots : 1 <= GlobalSlots c;
  co_gqueue : 1 <= GlobalQueue c;
  co_sum : GlobalSlots c + GlobalQueue c < 2 ^ 63;
}.

(** The noncer falls back to the state the pool is at. *)
Definition state_ok (p : TxPool) (st : StateView) (n : txNoncer) : Prop :=
  ph_currentState (p_head p) = Some st ∧ p_pendingNonces p = Some n ∧ nc_fallback n = st.

(** The accounts' lists alone: senders, nonces, and no nonce both pending and queued. *)
Record views_ok (P Q : view) : Prop := {
  vo_sender : ∀ a tx, tx ∈ P a ∨ tx ∈ Q a → px_Sender tx = Some a;
  vo_nonce : ∀ a tx, tx ∈ P a ∨ tx ∈ Q a → 0 <= tx_Nonce tx < 2 ^ 64 - 1;
  vo_disj : ∀ a t t', t ∈ P a → t' ∈ Q a → tx_Nonce t ≠ tx_Nonce t';
}.

(** [S] are the transactions in the lookup table and [X] those taken from the heap of
    prices that are still in the table: between operations [S] is what the lists hold,
    and [X] is empty. *)
Record pool_inv (p : TxPool) (P Q : view) (S : Transaction → Prop) (X : list Transaction) : Prop := {
  pi_pending : lists_at true (p_pending p) P;
  pi_queue : lists_at false (p_queue p) Q;
  pi_views : views_ok P Q;
  pi_all : all_ok (p_all p) S;
  pi_heap : is_heap (pl_remotes (p_priced p));
  pi_priced : ∀ h tx, lk_remotes (p_all p) !! h = Some tx → tx ∈ pl_remotes (p_priced p) ∨ tx ∈ X;
  pi_remote : ∀ h tx, lk_remotes (p_all p) !! h = Some tx → as_contains (sender_of tx) (p_locals p) = false;
  pi_state : ∃ st n, state_ok p st n;
  pi_config : config_ok (p_config p);
}.

Definition pool_ok (p : TxPool) (P Q : view) : Prop := pool_inv p P Q (in_pool P Q) [].

Lemma sender_of_eq tx a : px_Sender tx = Some a → sender_of tx = a.
Proof. intros E. unfold sender_of. by rewrite E. Qed.

Lemma pool_inv_iff p P Q S S' X : (∀ x, S x ↔ S' x) → pool_inv p P Q S X → pool_inv p P Q S' X.
Proof. intros HS []. split; try done. by eapply all_ok_iff. Qed.

(** *** Changing the lists *)

Lemma lists_insert strict m P a l s :
  lists_at strict m P → tabs l s → tl_strict l = strict → s ≠ [] → lists_at strict (<[a := l]> m) (<[a := s]> P).
Proof.
  intros Hm Hl Hst Hs b. destruct (decide (a = b)) as [<-|Hne].
  - by rewrite lookup_insert_eq, fn_lookup_insert.
  - rewrite lookup_insert_ne, fn_lookup_insert_ne by done. apply Hm.
Qed.

Lemma lists_delete strict m P a : lists_at strict m P → lists_at strict (delete a m) (<[a := []]> P).
Proof.
  intros Hm b. destruct (decide (a = b)) as [<-|Hne].
  - by rewrite lookup_delete_eq, fn_lookup_insert.
  - rewrite lookup_delete_ne, fn_lookup_insert_ne by done. apply Hm.
Qed.

Lemma lists_settle strict m P a l s :
  lists_at strict m P → tabs l s → tl_strict l = strict →
  lists_at strict (if tl_Empty l then delete a m else <[a := l]> m) (<[a := s]> P).
Proof.
  intros Hm Hl Hst. rewrite (tabs_Empty _ _ Hl). case_bool_decide as Hs.
  - subst s. by apply lists_delete.
  - by apply lists_insert.
Qed.

Lemma lists_ext strict m P P' : (∀ a, P a = P' a) → lists_at strict m P → lists_at strict m P'.
Proof. intros HP Hm a. specialize (Hm a). by rewrite HP in Hm. Qed.

Lemma lists_some strict m P a l :
  lists_at strict m P → m !! a = Some l → tabs l (P a) ∧ tl_strict l = strict ∧ P a ≠ [].
Proof. intros Hm E. specialize (Hm a). by rewrite E in Hm. Qed.

Lemma lists_none strict m P a : lists_at strict m P → m !! a = None → P a = [].
Proof. intros Hm E. specialize (Hm a). by rewrite E in Hm. Qed.

Lemma lists_sorted strict m P a : lists_at strict m P → StronglySorted nonce_lt (P a).
Proof.
  intros Hm. specialize (Hm a). destruct (m !! a) as [l|]; [|rewrite Hm; constructor].
  destruct Hm as [Hl _]. by eapply tabs_sorted.
Qed.

Lemma lists_of strict m P a :
  lists_at strict m P → tabs (default (newTxList strict) (m !! a)) (P a) ∧
    tl_strict (default (newTxList strict) (m !! a)) = strict.
Proof.
  intros Hm. specialize (Hm a). destruct (m !! a) as [l|]; cbn; [naive_solver|]. rewrite Hm.
  split; [apply tabs_new|done].
Qed.

(** A change to one account's lists that brings no new transaction and no conflict. *)
Lemma views_update P Q a s q :
  views_ok P Q →
  (∀ tx, tx ∈ s ∨ tx ∈ q → px_Sender tx = Some a ∧ 0 <= tx_Nonce tx < 2 ^ 64 - 1) →
  (∀ t t', t ∈ s → t' ∈ q → tx_Nonce t ≠ tx_Nonce t') → views_ok (<[a := s]> P) (<[a := q]> Q).
Proof.
  intros [Hs Hn Hd] Hsq Hdis. split.
  - intros b tx. destruct (decide (a = b)) as [<-|Hne]; [rewrite !fn_lookup_insert|rewrite !fn_lookup_insert_ne by done].
    + intros Hin. by apply Hsq.
    + apply Hs.
  - intros b tx. destruct (decide (a = b)) as [<-|Hne]; [rewrite !fn_lookup_insert|rewrite !fn_lookup_insert_ne by done].
    + intros Hin. by apply Hsq.
    + apply Hn.
  - intros b t t'. destruct (decide (a = b)) as [<-|Hne]; [rewrite !fn_lookup_insert|rewrite !fn_lookup_insert_ne by done].
    + apply Hdis.
    + apply Hd.
Qed.

Lemma views_ext P Q P' Q' : (∀ a, P a = P' a) → (∀ a, Q a = Q' a) → views_ok P Q → views_ok P' Q'.
Proof.
  intros HP HQ [Hs Hn Hd]. split; intros a ?.
  - rewrite <- HP, <- HQ. apply Hs.
  - rewrite <- HP, <- HQ. apply Hn.
  - rewrite <- HP, <- HQ. apply Hd.
Qed.

Lemma insert_same (P : view) a b : P b = (<[a := P a]> P) b.
Proof. destruct (decide (a = b)) as [<-|?]; [by rewrite fn_lookup_insert|by rewrite fn_lookup_insert_ne]. Qed.

Lemma pool_inv_ext p P Q P' Q' S X :
  (∀ a, P a = P' a) → (∀ a, Q a = Q' a) → pool_inv p P Q S X → pool_inv p P' Q' S X.
Proof.
  intros HP HQ []. split; try done; [by eapply lists_ext..|by eapply views_ext].
Qed.

(** *** The table and the heap *)

Lemma all_Remove_inv p P Q S X tx :
  pool_inv p P Q S X → S tx → pool_inv (all_Remove (px_Hash tx) p) P Q (λ x, S x ∧ x ≠ tx) X.
Proof.
  intros [? ? ? Ha ? Hp Hr ? ?] Htx. pose proof (lk_Remove_remotes (p_all p) (px_Hash tx)) as Hsub.
  split; try done.
  - by apply lk_Remove_ok.
  - intros h x E. eapply lookup_weaken in E; [|exact Hsub]. by apply (Hp h).
  - intros h x E. eapply lookup_weaken in E; [|exact Hsub]. by apply (Hr h).
Qed.

Lemma all_Removes_inv p P Q S X txs :
  pool_inv p P Q S X → NoDup txs → (∀ x, x ∈ txs → S x) →
  pool_inv (all_Removes txs p) P Q (λ x, S x ∧ x ∉ txs) X.
Proof.
  revert p S. induction txs as [|tx txs IH]; intros p S Hi Hnd HS; cbn [all_Removes foldl].
  { eapply pool_inv_iff; [|exact Hi]. set_solver. }
  apply NoDup_cons in Hnd as [Htx Hnd].
  eapply pool_inv_iff; [|eapply (IH (all_Remove (px_Hash tx) p) (λ x, S x ∧ x ≠ tx))]; [|apply all_Remove_inv; [done|apply HS; by left]|done|].
  - intros x. cbn. rewrite not_elem_of_cons. tauto.
  - intros x Hx. split; [by apply HS; right|]. congruence.
Qed.

Lemma priced_Removed_inv p P Q S X count :
  pool_inv p P Q S X → pool_inv (priced_Removed count p) P Q S X.
Proof.
  intros [? ? ? ? Hh Hp ? ? ?]. split; try done; unfold priced_Removed, pl_Removed; cbn; destruct (_ <=? _); try done.
  - apply heap_Init_spec.
  - intros h tx E. left. cbn. destruct (heap_Init_spec (range_of (lk_remotes (p_all p))).*2) as [_ ->].
    rewrite range_of_perm. apply list_elem_of_fmap. exists (h, tx). split; [done|]. by apply elem_of_map_to_list.
Qed.

Lemma all_Add_inv p P Q S X tx local :
  pool_inv p P Q S X → lk_Get (px_Hash tx) (p_all p) = None →
  (local = false → as_contains (sender_of tx) (p_locals p) = false) →
  pool_inv (all_Add tx local p) P Q (λ x, S x ∨ x = tx) X.
Proof.
  intros [? ? ? Ha Hh Hp Hr ? ?] Hn Hl. split; try done.
  - by apply lk_Add_ok.
  - cbn. unfold pl_Put. destruct local; [done|]. by apply heap_Push_spec.
  - intros h x. cbn. unfold lk_Add, pl_Put. destruct local; cbn [lk_remotes pl_remotes]; [apply Hp|].
    destruct (heap_Push_spec (pl_remotes (p_priced p)) tx Hh) as [_ Hperm].
    rewrite lookup_insert_Some, Hperm, elem_of_cons. intros [[_ ->]|[_ E]]; [by left; left|].
    destruct (Hp _ _ E); tauto.
  - intros h x. cbn. unfold lk_Add. destruct local; cbn [lk_remotes]; [apply Hr|].
    rewrite lookup_insert_Some. intros [[_ <-]|[_ E]]; [by apply Hl|by eapply Hr].
Qed.

(** *** Enqueueing *)

(** What the operations on single transactions leave alone. *)
Record same_env (p p' : TxPool) : Prop := {
  se_config : p_config p' = p_config p;
  se_head : p_head p' = p_head p;
  se_locals : p_locals p' = p_locals p;
  se_events : p_events p' = p_events p;
  se_gasPrice : p_gasPrice p' = p_gasPrice p;
}.

#[global] Instance same_env_preorder : PreOrder same_env.
Proof. split; [done|]. intros p q r [] []. split; congruence. Qed.

(** The insertion into a missing list is one into an empty list. *)
Lemma enqueueTx_queue now hash tx local addAll p :
  enqueueTx now hash tx local addAll p =
  let from := sender_of tx in
  let '(inserted, old, queue) := tl_Add px_Cost tx (PriceBump (p_config p))
    (default (newTxList false) (p_queue p !! from)) in
  let p := set_queue (<[from := queue]> (p_queue p)) p in
  if negb inserted then ((false, Some ErrReplaceUnderpriced), p)
  else
    let p := match old with Some old => priced_Removed 1 (all_Remove (px_Hash old) p) | None => p end in
    let p := if addAll then all_Add tx local p else p in
    let p := match p_beats p !! from with
             | None => set_beats (<[from := now]> (p_beats p)) p
             | Some _ => p
             end in
    ((bool_decide (is_Some old), None), p).
Proof.
  unfold enqueueTx. destruct (p_queue p !! sender_of tx) as [l|] eqn:E.
  - by rewrite E.
  - cbn [p_queue set_queue p_config]. rewrite lookup_insert_eq. cbn [default].
    destruct (tl_Add _ _ _ _) as [[ins old] q]. unfold set_queue at 1 2 3. cbn [p_queue p_config p_gasPrice
      p_lastGasPriceUpdate p_head p_pendingNonces p_locals p_journal p_pending p_beats p_all p_priced p_events].
    by rewrite insert_insert_eq.
Qed.

Lemma beats_inv p P Q S X b : pool_inv p P Q S X → pool_inv (set_beats b p) P Q S X.
Proof. intros []. by split. Qed.

Lemma views_queue P Q a q :
  views_ok P Q → (∀ tx, tx ∈ q → px_Sender tx = Some a ∧ 0 <= tx_Nonce tx < 2 ^ 64 - 1 ∧ tx_Nonce tx ∉ nonces (P a)) →
  views_ok P (<[a := q]> Q).
Proof.
  intros Hv Hq. eapply views_ext; [| |apply (views_update P Q a (P a) q Hv)].
  - intros b. symmetry. apply insert_same.
  - done.
  - intros tx [Hin|Hin]; [|specialize (Hq tx Hin); tauto].
    split; [by eapply vo_sender; eauto|by eapply vo_nonce; eauto].
  - intros t t' Ht Ht' E. destruct (Hq t' Ht') as (_ & _ & Hn). destruct Hn. rewrite <- E. by apply list_elem_of_fmap_2.
Qed.

Lemma views_nonces P Q a t : views_ok P Q → t ∈ Q a → tx_Nonce t ∉ nonces (P a).
Proof. intros Hv Ht. rewrite list_elem_of_fmap. intros (x & E & Hx). by eapply vo_disj. Qed.

Lemma put_sorted_nonempty tx s : put_sorted tx s ≠ [].
Proof. destruct s; cbn; [done|]. repeat destruct (_ <? _); try done. by destruct (_ =? _). Qed.

Lemma enqueue_fresh now p P Q S X a tx hash :
  pool_inv p P Q S X → px_Sender tx = Some a → 0 <= tx_Nonce tx < 2 ^ 64 - 1 →
  tx_Nonce tx ∉ nonces (Q a) → tx_Nonce tx ∉ nonces (P a) →
  ∃ p', enqueueTx now hash tx false false p = ((false, None), p') ∧
    pool_inv p' P (<[a := put_sorted tx (Q a)]> Q) S X ∧ same_env p p' ∧ p_pendingNonces p' = p_pendingNonces p ∧
    p_pending p' = p_pending p.
Proof.
  intros Hi Hs Hn HnQ HnP. pose proof Hi as [Hpe Hqu Hv Ha Hh Hp Hr Hst Hc].
  rewrite enqueueTx_queue, (sender_of_eq _ _ Hs). cbn zeta.
  destruct (lists_of _ _ _ a Hqu) as [Hl Hls].
  destruct (tabs_Add_fresh _ _ tx (PriceBump (p_config p)) Hl) as (l' & -> & Hl' & Hst');
    [unfold is_u64; lia|apply Hc|done|]. cbn [negb].
  rewrite bool_decide_false by (by intros [? ?]). eexists. split; [done|].
  set (p1 := set_queue (<[a := l']> (p_queue p)) p).
  assert (Hi1 : pool_inv p1 P (<[a := put_sorted tx (Q a)]> Q) S X).
  { split; try done.
    - apply lists_insert; [done..|congruence|apply put_sorted_nonempty].
    - apply views_queue; [done|]. intros x Hx.
      apply put_sorted_elem in Hx as [->|[Hx _]]; [done| |by eapply tabs_sorted].
      split; [by eapply vo_sender; eauto|]. split; [by eapply vo_nonce; eauto|]. by eapply views_nonces. }
  destruct (p_beats p1 !! a); [done|]. split; [by apply beats_inv|done].
Qed.

Lemma enqueueTxs_fresh now txs p P Q S X a :
  pool_inv p P Q S X → NoDup (nonces txs) →
  (∀ tx, tx ∈ txs → px_Sender tx = Some a ∧ 0 <= tx_Nonce tx < 2 ^ 64 - 1 ∧
     tx_Nonce tx ∉ nonces (Q a) ∧ tx_Nonce tx ∉ nonces (P a)) →
  pool_inv (enqueueTxs now txs p) P (<[a := enq txs (Q a)]> Q) S X ∧ same_env p (enqueueTxs now txs p) ∧
    p_pendingNonces (enqueueTxs now txs p) = p_pendingNonces p ∧ p_pending (enqueueTxs now txs p) = p_pending p.
Proof.
  revert p Q. induction txs as [|tx txs IH]; intros p Q Hi Hnd Htx; cbn [enqueueTxs enq foldl].
  { split; [|done]. eapply pool_inv_ext; [done| |exact Hi]. intros b. apply insert_same. }
  apply NoDup_cons in Hnd as [Hnin Hnd]. destruct (Htx tx ltac:(by left)) as (Hs & Hn & HnQ & HnP).
  destruct (enqueue_fresh now p P Q S X a tx (px_Hash tx) Hi Hs Hn HnQ HnP) as (p' & -> & Hi' & He & Hno & Hpe).
  cbn [snd]. destruct (IH p' (<[a := put_sorted tx (Q a)]> Q) Hi' Hnd) as (Hi2 & He2 & Hno2 & Hpe2).
  - intros x Hx. destruct (Htx x ltac:(by right)) as (? & ? & HxQ & ?). split; [done|]. split; [done|]. split; [|done].
    rewrite fn_lookup_insert, list_elem_of_fmap. intros (y & E & Hy).
    apply put_sorted_elem in Hy as [->|[Hy _]]; [| |by eapply lists_sorted; apply (pi_queue _ _ _ _ _ Hi)].
    + destruct Hnin. rewrite <- E. by apply list_elem_of_fmap_2.
    + destruct HxQ. rewrite E. by apply list_elem_of_fmap_2.
  - split; [|split; [by etransitivity|split; [by rewrite <- Hno|by rewrite <- Hpe]]].
    eapply pool_inv_ext; [done| |exact Hi2]. intros b. rewrite fn_lookup_insert.
    destruct (decide (a = b)) as [<-|Hne]; [by rewrite !fn_lookup_insert|by rewrite !fn_lookup_insert_ne].
Qed.

(** *** Removing *)

Lemma nonces_inv p P Q S X n n' :
  pool_inv p P Q S X → p_pendingNonces p = Some n → nc_fallback n' = nc_fallback n →
  pool_inv (set_pendingNonces (Some n') p) P Q S X.
Proof.
  intros [? ? ? ? ? ? ? (st & n0 & Hst & En & Ef) ?] E Ef'. split; try done. exists st, n'.
  split; [done|]. split; [done|]. congruence.
Qed.

Lemma drop_extra p P Q S X tx : pool_inv p P Q S (tx :: X) → ¬ S tx → pool_inv p P Q S X.
Proof.
  intros [? ? ? Ha ? Hp ? ? ?] Hn. split; try done. intros h x E. destruct (Hp h x E) as [?|[->|?]%elem_of_cons]; auto.
  destruct Hn. apply (ao_get _ _ Ha h). apply lk_Get_Some; [by apply ao_disj in Ha|]. by right.
Qed.

Lemma removeTx_unknown now p h oob : lk_Get h (p_all p) = None → removeTx now h oob p = Ok p.
Proof. intros E. unfold removeTx. by rewrite E. Qed.

(** The common beginning of [removeTx]. *)
Lemma removeTx_known now p P Q S X tx a oob :
  pool_inv p P Q S X → S tx → px_Sender tx = Some a →
  ∃ p1, removeTx now (px_Hash tx) oob p =
      ('(done, p) ← remove_pending now a tx p1; if done : bool then Ok p else remove_queued a tx p) ∧
    pool_inv p1 P Q (λ x, S x ∧ x ≠ tx) X ∧ same_env p p1 ∧ p_pendingNonces p1 = p_pendingNonces p.
Proof.
  intros Hi HS Hs. unfold removeTx. rewrite (proj2 (ao_get _ _ (pi_all _ _ _ _ _ Hi) _ _)) by done.
  rewrite (sender_of_eq _ _ Hs). eexists. split; [done|].
  pose proof (all_Remove_inv _ _ _ _ _ _ Hi HS) as Hi1.
  destruct oob; [|done]. split; [by apply priced_Removed_inv|done].
Qed.

Lemma sorted_above_NoDup n s : StronglySorted nonce_lt s → NoDup (nonces (above n s)).
Proof. intros Hs. apply sorted_NoDup, sorted_filter, Hs. Qed.

Lemma lists_settle2 strict m P a l s :
  lists_at strict m P → tabs l s → tl_strict l = strict →
  lists_at strict (if tl_Empty l then delete a (<[a := l]> m) else <[a := l]> m) (<[a := s]> P).
Proof.
  intros Hm Hl Hst. pose proof (lists_settle strict m P a l s Hm Hl Hst) as Hs.
  destruct (tl_Empty l); [by rewrite delete_insert_eq|done].
Qed.

Lemma removeTx_pending now p P Q S X tx a oob n :
  pool_inv p P Q S X → S tx → tx ∈ P a → p_pendingNonces p = Some n →
  ∃ p' invalids, removeTx now (px_Hash tx) oob p = Ok p' ∧ invalids ≡ₚ above (tx_Nonce tx) (P a) ∧
    pool_inv p' (<[a := below (tx_Nonce tx) (P a)]> P) (<[a := enq invalids (Q a)]> Q) (λ x, S x ∧ x ≠ tx) X ∧
    same_env p p' ∧ p_pendingNonces p' = Some (noncer_setIfLower a (tx_Nonce tx) n).
Proof.
  intros Hi HS Hin En. pose proof (pi_views _ _ _ _ _ Hi) as Hv.
  assert (Hs : px_Sender tx = Some a) by (eapply vo_sender; eauto).
  destruct (removeTx_known now p P Q S X tx a oob Hi HS Hs) as (p1 & -> & Hi1 & He1 & En1).
  pose proof Hi1 as [Hpe Hqu _ Ha Hh Hp Hr Hst Hc]. unfold remove_pending.
  destruct (p_pending p1 !! a) as [l|] eqn:El.
  2: { rewrite (lists_none _ _ _ _ Hpe El) in Hin. by apply not_elem_of_nil in Hin. }
  destruct (lists_some _ _ _ _ _ Hpe El) as (Hl & Hls & _).
  destruct (tabs_Remove l (P a) tx Hl) as (inv & l' & -> & Hls' & _ & Hrm). cbn [mbind res_bind].
  assert (Hnin : tx_Nonce tx ∈ nonces (P a)) by (by apply list_elem_of_fmap_2).
  rewrite bool_decide_true by done. specialize (Hrm Hnin). rewrite Hls in Hrm. destruct Hrm as [Hperm Hl'].
  cbn [mbind res_bind].
  set (p2 := if tl_Empty l' then _ else _).
  assert (Hi2 : pool_inv p2 (<[a := below (tx_Nonce tx) (P a)]> P) Q (λ x, S x ∧ x ≠ tx) X).
  { assert (Hlist : lists_at true (p_pending p2) (<[a := below (tx_Nonce tx) (P a)]> P)).
    { pose proof (lists_settle2 true (p_pending p1) P a l' _ Hpe Hl' ltac:(congruence)) as Hx.
      unfold p2. by destruct (tl_Empty l'). }
    assert (Hvw : views_ok (<[a := below (tx_Nonce tx) (P a)]> P) Q).
    { eapply views_ext; [done| |apply (views_update P Q a _ (Q a) Hv)].
      - intros b. symmetry. apply insert_same.
      - intros x [[_ Hx]%list_elem_of_filter|Hx]; (split; [by eapply vo_sender; eauto|by eapply vo_nonce; eauto]).
      - intros x y [_ Hx]%list_elem_of_filter Hy. by eapply vo_disj. }
    split; try done; unfold p2; destruct (tl_Empty l'); done. }
  assert (He2 : same_env p1 p2 ∧ p_pendingNonces p2 = p_pendingNonces p1)
    by (unfold p2; destruct (tl_Empty l'); done).
  destruct (enqueueTxs_fresh now inv p2 _ Q _ X a Hi2) as (Hi3 & He3 & En3 & _).
  - rewrite Hperm. by apply sorted_above_NoDup, (tabs_sorted _ _ Hl).
  - intros x Hx. rewrite Hperm in Hx. apply list_elem_of_filter in Hx as [Hlt Hx].
    split; [by eapply vo_sender; eauto|]. split; [by eapply vo_nonce; eauto|]. split.
    + rewrite list_elem_of_fmap. intros (y & E & Hy). by eapply (vo_disj _ _ Hv a x y).
    + rewrite fn_lookup_insert, list_elem_of_fmap. intros (y & E & [Hy _]%list_elem_of_filter). lia.
  - destruct He2 as [He2 En2]. unfold pool_lower_nonce.
    assert (En4 : p_pendingNonces (enqueueTxs now inv p2) = Some n) by (by rewrite En3, En2, En1).
    rewrite En4. cbn [deref mbind res_bind]. eexists _, inv. split; [done|]. split; [done|].
    split; [by eapply nonces_inv|]. split; [|done]. transitivity p1; [done|]. transitivity p2; [done|].
    transitivity (enqueueTxs now inv p2); [done|]. by split.
Qed.

Lemma removeTx_queued now p P Q S X tx a oob :
  pool_inv p P Q S X → S tx → tx ∈ Q a →
  ∃ p', removeTx now (px_Hash tx) oob p = Ok p' ∧
    pool_inv p' P (<[a := filter (λ x, tx_Nonce x ≠ tx_Nonce tx) (Q a)]> Q) (λ x, S x ∧ x ≠ tx) X ∧
    same_env p p' ∧ p_pendingNonces p' = p_pendingNonces p.
Proof.
  intros Hi HS Hin. pose proof (pi_views _ _ _ _ _ Hi) as Hv.
  assert (Hs : px_Sender tx = Some a) by (eapply vo_sender; eauto).
  destruct (removeTx_known now p P Q S X tx a oob Hi HS Hs) as (p1 & -> & Hi1 & He1 & En1).
  pose proof Hi1 as [Hpe Hqu _ Ha Hh Hp Hr Hst Hc].
  assert (Hrp : ∃ p2, remove_pending now a tx p1 = Ok (false, p2) ∧ pool_inv p2 P Q (λ x, S x ∧ x ≠ tx) X ∧
    same_env p1 p2 ∧ p_pendingNonces p2 = p_pendingNonces p1).
  { unfold remove_pending. destruct (p_pending p1 !! a) as [l|] eqn:El; [|by exists p1].
    destruct (lists_some _ _ _ _ _ Hpe El) as (Hl & Hls & Hne).
    destruct (tabs_Remove l (P a) tx Hl) as (inv & l' & -> & Hls' & Hrm & _). cbn [mbind res_bind].
    assert (Hn : tx_Nonce tx ∉ nonces (P a)) by (by eapply views_nonces).
    rewrite bool_decide_false by done. eexists. split; [done|]. split; [|done].
    destruct (Hrm Hn) as [_ Hl']. split; try done. eapply lists_ext; [|apply (lists_insert true _ P a l' (P a) Hpe)];
      [|done|congruence|done]. intros b. symmetry. apply insert_same. }
  destruct Hrp as (p2 & -> & Hi2 & He2 & En2). cbn [mbind res_bind].
  pose proof Hi2 as [Hpe2 Hqu2 _ Ha2 Hh2 Hp2 Hr2 Hst2 Hc2]. unfold remove_queued.
  destruct (p_queue p2 !! a) as [l|] eqn:El.
  2: { rewrite (lists_none _ _ _ _ Hqu2 El) in Hin. by apply not_elem_of_nil in Hin. }
  destruct (lists_some _ _ _ _ _ Hqu2 El) as (Hl & Hls & _).
  destruct (tabs_Remove l (Q a) tx Hl) as (inv & l' & -> & Hls' & _ & Hrm). cbn [mbind res_bind].
  assert (Hnin : tx_Nonce tx ∈ nonces (Q a)) by (by apply list_elem_of_fmap_2).
  specialize (Hrm Hnin). rewrite Hls in Hrm. destruct Hrm as [-> Hl'].
  pose proof (lists_settle2 false (p_queue p2) Q a l' _ Hqu2 Hl' ltac:(congruence)) as Hlist.
  assert (Hvw : views_ok P (<[a := filter (λ x, tx_Nonce x ≠ tx_Nonce tx) (Q a)]> Q)).
  { apply views_queue; [done|]. intros x [_ Hx]%list_elem_of_filter. split; [by eapply vo_sender; eauto|].
    split; [by eapply vo_nonce; eauto|by eapply views_nonces]. }
  destruct (tl_Empty l'); (eexists; split; [done|]); (split; [by split|]);
    (split; [transitivity p1; [done|]; by transitivity p2|]); by rewrite <- En1, <- En2.
Qed.

(** ** The abstract effect of removals *)

(** The nonce the noncer gives for an account. *)
Definition next_nonce (n : txNoncer) (a : Address) : Z :=
  default (GetNonce (nc_fallback n) a) (nc_nonces n !! a).

Lemma next_nonce_setIfLower n a b k :
  next_nonce (noncer_setIfLower a k n) b = if bool_decide (a = b) then Z.min (next_nonce n a) k else next_nonce n b.
Proof.
  unfold next_nonce, noncer_setIfLower, nc_setIfLower. cbn [nc_nonces nc_fallback].
  case_bool_decide as E; [subst b|].
  - destruct (nc_nonces n !! a) as [x|] eqn:Ex; rewrite ?Ex, ?lookup_insert_eq; cbn [from_option].
    + unfold id. destruct (Z.leb_spec x k); rewrite ?lookup_insert_eq, ?Ex; cbn; lia.
    + unfold id. destruct (Z.leb_spec (GetNonce (nc_fallback n) a) k); rewrite !lookup_insert_eq; cbn; lia.
  - destruct (nc_nonces n !! a) as [x|] eqn:Ex; destruct (_ <=? _); by rewrite ?lookup_insert_ne.
Qed.

(** The transactions with hashes in [D] leave the pool; an account's pending list is cut
    at one of its nonces, what was above it moves to the queue, and its next nonce is
    lowered. *)
Record removal (D : list (list Z)) (P Q : view) (n : txNoncer) (P' Q' : view) (n' : txNoncer) : Prop := {
  rm_fallback : nc_fallback n' = nc_fallback n;
  rm_account : ∀ a, (P' a = P a ∧ next_nonce n' a = next_nonce n a) ∨
    (∃ k, k ∈ nonces (P a) ∧ P' a = below k (P a) ∧ next_nonce n' a = Z.min (next_nonce n a) k);
  rm_pool : ∀ x, in_pool P' Q' x ↔ in_pool P Q x ∧ px_Hash x ∉ D;
  rm_other : ∀ a, (∀ x, in_pool P Q x → px_Hash x ∈ D → px_Sender x ≠ Some a) → P' a = P a ∧ Q' a = Q a;
  rm_queued : ∀ a x, x ∈ Q' a → x ∈ P a ∨ x ∈ Q a;
}.

Lemma removal_refl P Q n : removal [] P Q n P Q n.
Proof. split; auto. intros x. split; [|tauto]. intros Hx. split; [done|apply not_elem_of_nil]. Qed.

Lemma below_below j k s : j <= k → below j (below k s) = below j s.
Proof. intros Hjk. unfold below. rewrite list_filter_filter. apply list_filter_iff. intros x. lia. Qed.

Lemma removal_trans D1 D2 P Q n P1 Q1 n1 P2 Q2 n2 :
  removal D1 P Q n P1 Q1 n1 → removal D2 P1 Q1 n1 P2 Q2 n2 → removal (D1 ++ D2) P Q n P2 Q2 n2.
Proof.
  intros [Hf1 Ha1 Hp1 Ho1 Hq1] [Hf2 Ha2 Hp2 Ho2 Hq2]. split.
  - congruence.
  - intros a. destruct (Ha1 a) as [[EP1 En1]|(k1 & Hk1 & EP1 & En1)].
    + destruct (Ha2 a) as [[EP2 En2]|(k2 & Hk2 & EP2 & En2)]; [left; split; congruence|right].
      exists k2. rewrite <- EP1, <- En1. done.
    + right. destruct (Ha2 a) as [[EP2 En2]|(k2 & Hk2 & EP2 & En2)].
      * exists k1. split; [done|]. split; congruence.
      * rewrite EP1 in Hk2. apply list_elem_of_fmap in Hk2 as (x & -> & [Hlt Hx]%list_elem_of_filter).
        exists (tx_Nonce x). split; [by apply list_elem_of_fmap_2|].
        split; [rewrite EP2, EP1; apply below_below; lia|rewrite En2, En1; lia].
  - intros x. rewrite Hp2, Hp1, not_elem_of_app. tauto.
  - intros a Ha. destruct (Ho1 a) as [E1 E2]; [intros x Hp Hx; apply Ha; [done|apply elem_of_app; by left]|].
    destruct (Ho2 a) as [E3 E4]; [|split; congruence].
    intros x Hp Hx; apply Ha; [by apply Hp1 in Hp as [? _]|apply elem_of_app; by right].
  - intros a x Hx. destruct (Hq2 a x Hx) as [Hx'|Hx']; [|by apply Hq1]. left.
    destruct (Ha1 a) as [[<- _]|(k & _ & E & _)]; [done|]. rewrite E in Hx'. by apply list_elem_of_filter in Hx' as [_ ?].
Qed.

Lemma update_in_pool P Q a s q x :
  views_ok P Q →
  (∀ y, y ∈ s ∨ y ∈ q → px_Sender y = Some a) →
  in_pool (<[a := s]> P) (<[a := q]> Q) x ↔ x ∈ s ∨ x ∈ q ∨ (px_Sender x ≠ Some a ∧ in_pool P Q x).
Proof.
  intros Hv Hsq. split.
  - intros (b & Hb). destruct (decide (a = b)) as [<-|Hne].
    + rewrite !fn_lookup_insert in Hb. tauto.
    + rewrite !fn_lookup_insert_ne in Hb by done. right; right. split; [|by exists b].
      rewrite (vo_sender _ _ Hv b x Hb). congruence.
  - intros [Hx|[Hx|(Hs & b & Hb)]].
    + exists a. rewrite fn_lookup_insert. by left.
    + exists a. rewrite !fn_lookup_insert. by right.
    + exists b. rewrite !fn_lookup_insert_ne; [done|..]; intros <-; destruct Hs; by apply (vo_sender _ _ Hv).
Qed.

Lemma in_pool_sender P Q x a : views_ok P Q → px_Sender x = Some a → in_pool P Q x ↔ x ∈ P a ∨ x ∈ Q a.
Proof.
  intros Hv Hs. split; [|by exists a]. intros (b & Hb). rewrite (vo_sender _ _ Hv b x Hb) in Hs.
  by injection Hs as ->.
Qed.

(** A hash of the pool belongs to one transaction: two different ones can only be told
    apart when they are not in the pool together. *)
Definition known (P Q : view) (x : Transaction) : Prop :=
  ∀ y, in_pool P Q y → px_Hash y = px_Hash x → y = x.

Lemma known_in_pool p P Q X x : pool_inv p P Q (in_pool P Q) X → in_pool P Q x → known P Q x.
Proof. intros Hi Hx y Hy E. by eapply all_ok_hash; [apply (pi_all _ _ _ _ _ Hi)|..]. Qed.

Lemma known_hash P Q tx x : known P Q tx → in_pool P Q x ∧ px_Hash x ∉ [px_Hash tx] ↔ in_pool P Q x ∧ x ≠ tx.
Proof.
  intros Hk. rewrite list_elem_of_singleton. split; intros [Hx Hne]; (split; [done|]); [congruence|].
  intros E. by apply Hne, Hk.
Qed.

Lemma removal_known D P Q n P' Q' n' x : removal D P Q n P' Q' n' → known P Q x → known P' Q' x.
Proof. intros Hr Hk y Hy. apply Hk. by apply (rm_pool _ _ _ _ _ _ _ Hr) in Hy as [? _]. Qed.

(** *** One transaction *)

Lemma removal_pending P Q n a tx invalids :
  views_ok P Q → StronglySorted nonce_lt (P a) → StronglySorted nonce_lt (Q a) → tx ∈ P a → known P Q tx →
  invalids ≡ₚ above (tx_Nonce tx) (P a) →
  removal [px_Hash tx] P Q n (<[a := below (tx_Nonce tx) (P a)]> P) (<[a := enq invalids (Q a)]> Q)
    (noncer_setIfLower a (tx_Nonce tx) n).
Proof.
  intros Hv HsP HsQ Hin Hk Hinv.
  assert (Henq : ∀ x, x ∈ enq invalids (Q a) ↔ x ∈ above (tx_Nonce tx) (P a) ∨ x ∈ Q a).
  { intros x. rewrite <- Hinv. apply enq_elem; [done|..].
    - rewrite Hinv. by apply sorted_above_NoDup.
    - intros t Ht. rewrite Hinv in Ht. apply list_elem_of_filter in Ht as [_ Ht]. rewrite list_elem_of_fmap.
      intros (y & E & Hy). by eapply (vo_disj _ _ Hv a t y). }
  assert (Hsnd : px_Sender tx = Some a) by (eapply vo_sender; eauto).
  assert (Hall : ∀ y, y ∈ P a ∨ y ∈ Q a → px_Sender y = Some a) by (intros y Hy; by eapply vo_sender).
  split.
  - done.
  - intros b. rewrite next_nonce_setIfLower. destruct (decide (a = b)) as [<-|Hne].
    + right. exists (tx_Nonce tx). rewrite fn_lookup_insert, bool_decide_true by done.
      split; [by apply list_elem_of_fmap_2|done].
    + left. by rewrite fn_lookup_insert_ne, bool_decide_false.
  - intros x. rewrite known_hash by done. rewrite update_in_pool, Henq; [|done|].
    + unfold above, below. rewrite !list_elem_of_filter. split.
      * intros [[Hlt Hx]|[[[Hlt Hx]|Hx]|[Hs Hx]]].
        -- split; [exists a; auto|]. intros ->. lia.
        -- split; [exists a; auto|]. intros ->. lia.
        -- split; [exists a; auto|]. intros ->. by eapply (vo_disj _ _ Hv a tx tx).
        -- split; [done|]. by intros ->.
      * intros [Hx Hne]. destruct (decide (px_Sender x = Some a)) as [Hs|Hs]; [|tauto].
        apply (in_pool_sender P Q x a Hv Hs) in Hx as [Hx|Hx]; [|tauto].
        assert (tx_Nonce x ≠ tx_Nonce tx) by (intros E; apply Hne; by apply (nonce_inj (P a) x tx (sorted_NoDup _ HsP))).
        destruct (Z.lt_total (tx_Nonce x) (tx_Nonce tx)) as [|[|]]; tauto || lia.
    + intros y. rewrite Henq. unfold above, below. rewrite !list_elem_of_filter. intros Hy. apply Hall. tauto.
  - intros b Hb. assert (a ≠ b) by (intros <-; apply (Hb tx); [exists a; auto|by left|done]).
    by rewrite !fn_lookup_insert_ne.
  - intros b x. destruct (decide (a = b)) as [<-|Hne]; [|rewrite fn_lookup_insert_ne by done; auto].
    rewrite fn_lookup_insert, Henq. intros [[_ ?]%list_elem_of_filter|?]; auto.
Qed.

Lemma removal_queued P Q n a tx :
  views_ok P Q → StronglySorted nonce_lt (Q a) → tx ∈ Q a → known P Q tx →
  removal [px_Hash tx] P Q n P (<[a := filter (λ x, tx_Nonce x ≠ tx_Nonce tx) (Q a)]> Q) n.
Proof.
  intros Hv HsQ Hin Hk. assert (Hsnd : px_Sender tx = Some a) by (eapply vo_sender; eauto).
  split; [done|by left| | |].
  - intros x. assert (Hext : in_pool P (<[a := filter (λ x, tx_Nonce x ≠ tx_Nonce tx) (Q a)]> Q) x ↔
      in_pool (<[a := P a]> P) (<[a := filter (λ x, tx_Nonce x ≠ tx_Nonce tx) (Q a)]> Q) x).
    { unfold in_pool. apply exist_proper. intros b. by rewrite <- insert_same. }
    rewrite known_hash, Hext, update_in_pool by done || (intros y [Hy|[_ Hy]%list_elem_of_filter]; eapply vo_sender; eauto).
    rewrite list_elem_of_filter. split.
    + intros [Hx|[[Hne Hx]|[Hs Hx]]].
      * split; [exists a; auto|]. intros ->. by eapply (vo_disj _ _ Hv a tx tx).
      * split; [exists a; auto|]. congruence.
      * split; [done|]. by intros ->.
    + intros [Hx Hne]. destruct (decide (px_Sender x = Some a)) as [Hs|Hs]; [|tauto].
      apply (in_pool_sender P Q x a Hv Hs) in Hx as [Hx|Hx]; [tauto|]. right; left. split; [|done].
      intros E; apply Hne; by apply (nonce_inj (Q a) x tx (sorted_NoDup _ HsQ)).
  - intros b Hb. assert (a ≠ b) by (intros <-; apply (Hb tx); [exists a; auto|by left|done]).
    by rewrite !fn_lookup_insert_ne.
  - intros b x. destruct (decide (a = b)) as [<-|Hne]; [|rewrite fn_lookup_insert_ne by done; auto].
    rewrite fn_lookup_insert. intros [_ ?]%list_elem_of_filter. auto.
Qed.

(** *** Several transactions *)

(** A pool that represents the views, with the extra transactions [X], and its noncer. *)
Definition pool_at (p : TxPool) (P Q : view) (n : txNoncer) (X : list Transaction) : Prop :=
  pool_inv p P Q (in_pool P Q) X ∧ p_pendingNonces p = Some n.

Lemma removeTx_removal now p P Q n X h oob :
  pool_at p P Q n X →
  ∃ p' P' Q' n', removeTx now h oob p = Ok p' ∧ pool_at p' P' Q' n' X ∧
    removal [h] P Q n P' Q' n' ∧ same_env p p'.
Proof.
  intros [Hi En]. pose proof (pi_views _ _ _ _ _ Hi) as Hv. pose proof (pi_all _ _ _ _ _ Hi) as Ha.
  assert (HsP : ∀ a, StronglySorted nonce_lt (P a)) by (intros a; eapply lists_sorted, (pi_pending _ _ _ _ _ Hi)).
  assert (HsQ : ∀ a, StronglySorted nonce_lt (Q a)) by (intros a; eapply lists_sorted, (pi_queue _ _ _ _ _ Hi)).
  destruct (lk_Get h (p_all p)) as [tx|] eqn:Eg.
  2: { exists p, P, Q, n. split; [by apply removeTx_unknown|]. split; [done|]. split; [|done].
       destruct (removal_refl P Q n) as [? ? Hp ? ?]. split; try done.
       intros x. rewrite list_elem_of_singleton. split; [|tauto]. intros Hx. split; [done|]. intros <-.
       assert (lk_Get (px_Hash x) (p_all p) = Some x) by (by apply (ao_get _ _ Ha)). congruence. }
  apply (ao_get _ _ Ha) in Eg as [<- Hy]. pose proof (known_in_pool _ _ _ _ _ Hi Hy) as Hk.
  pose proof Hy as (a & [Hin|Hin]).
  - destruct (removeTx_pending now p P Q _ X tx a oob n Hi Hy Hin En) as (p' & inv & E & Hinv & Hi' & He & En').
    pose proof (removal_pending P Q n a tx inv Hv (HsP a) (HsQ a) Hin Hk Hinv) as Hrm.
    eexists p', _, _, _. split; [done|]. split; [|by split]. split; [|done].
    eapply pool_inv_iff; [|exact Hi']. intros x. by rewrite (rm_pool _ _ _ _ _ _ _ Hrm), known_hash.
  - destruct (removeTx_queued now p P Q _ X tx a oob Hi Hy Hin) as (p' & E & Hi' & He & En').
    pose proof (removal_queued P Q n a tx Hv (HsQ a) Hin Hk) as Hrm.
    eexists p', _, _, _. split; [done|]. split; [|by split]. split; [|congruence].
    eapply pool_inv_iff; [|exact Hi']. intros x. by rewrite (rm_pool _ _ _ _ _ _ _ Hrm), known_hash.
Qed.

Lemma removeTxs_removal now txs p P Q n X oob :
  pool_at p P Q n X →
  ∃ p' P' Q' n', removeTxs now txs oob p = Ok p' ∧ pool_at p' P' Q' n' X ∧
    removal (px_Hash <$> txs) P Q n P' Q' n' ∧ same_env p p'.
Proof.
  revert p P Q n. induction txs as [|tx txs IH]; intros p P Q n Hp; cbn [removeTxs].
  { exists p, P, Q, n. split; [done|]. split; [done|]. split; [apply removal_refl|done]. }
  destruct (removeTx_removal now p P Q n X (px_Hash tx) oob Hp) as (p1 & P1 & Q1 & n1 & -> & Hp1 & Hr1 & He1).
  cbn [mbind res_bind]. destruct (IH p1 P1 Q1 n1 Hp1) as (p2 & P2 & Q2 & n2 & -> & Hp2 & Hr2 & He2).
  exists p2, P2, Q2, n2. split; [done|]. split; [done|]. split; [|by etransitivity].
  change (px_Hash <$> tx :: txs) with ([px_Hash tx] ++ (px_Hash <$> txs)). by eapply removal_trans.
Qed.

Lemma drop_extras p P Q S D X : pool_inv p P Q S (D ++ X) → (∀ x, x ∈ D → ¬ S x) → pool_inv p P Q S X.
Proof.
  induction D as [|x D IH]; intros Hi HD; [done|]. apply IH; [|intros y Hy; apply HD; by right].
  eapply drop_extra; [exact Hi|]. apply HD. by left.
Qed.

Lemma removal_drop p P Q n D P' Q' n' X :
  pool_at p P' Q' n' (D ++ X) → removal (px_Hash <$> D) P Q n P' Q' n' → pool_at p P' Q' n' X.
Proof.
  intros [Hi En] Hr. split; [|done]. eapply drop_extras; [exact Hi|]. intros x Hx.
  rewrite (rm_pool _ _ _ _ _ _ _ Hr). intros [_ Hn]. destruct Hn. by apply list_elem_of_fmap_2.
Qed.

(** ** Eviction by price *)

(** A transaction that the heap takes for live has a hash of a remote one. *)
Lemma live_remote p P Q S X h x :
  pool_inv p P Q S X → S x → px_Hash x = h → is_Some (lk_remotes (p_all p) !! h) →
  as_contains (sender_of x) (p_locals p) = false.
Proof.
  intros Hi HS Eh [y Ey]. pose proof (pi_all _ _ _ _ _ Hi) as Ha.
  assert (Hg : lk_Get h (p_all p) = Some y) by (apply lk_Get_Some; [by apply ao_disj in Ha|by right]).
  apply (ao_get _ _ Ha) in Hg as [Eh' HS']. rewrite (all_ok_hash _ _ x y Ha HS HS') by congruence. by eapply pi_remote.
Qed.

Lemma stale_remote p tx : is_stale px_Hash (p_all p) tx = false → is_Some (lk_remotes (p_all p) !! px_Hash tx).
Proof. unfold is_stale, lk_GetRemote. by destruct (lk_remotes (p_all p) !! px_Hash tx). Qed.

(** Transactions [D] taken out of the heap, besides stale entries. *)
Record heap_cut (all : txLookup) (l l' : txPricedList) (D : list Transaction) : Prop := {
  hc_heap : is_heap (pl_remotes l');
  hc_keep : ∀ x, x ∈ pl_remotes l → is_stale px_Hash all x = false → x ∈ D ∨ x ∈ pl_remotes l';
  hc_live : ∀ x, x ∈ D → is_stale px_Hash all x = false;
}.

Lemma heap_cut_refl all l : is_heap (pl_remotes l) → heap_cut all l l [].
Proof. intros Hh. split; auto. by intros x ?%not_elem_of_nil. Qed.

(** One pop: the popped entry is stale or is added to the list. *)
Lemma heap_cut_pop all x h h' st st' l' D :
  h' ≡ₚ h → heap_cut all (mkPriced h' st') l' D →
  heap_cut all (mkPriced (x :: h) st) l' (if is_stale px_Hash all x then D else x :: D).
Proof.
  intros Hp [Hh Hk Hl]. cbn [pl_remotes] in *. split; cbn [pl_remotes]; [done|..].
  - intros y [->|Hy]%elem_of_cons Hst; [rewrite Hst; by left; left|].
    destruct (Hk y) as [?|?]; [by rewrite Hp|done| |by right]. left. destruct (is_stale _ _ x); [done|by right].
  - intros y. destruct (is_stale px_Hash all x) eqn:E; [apply Hl|]. intros [->|Hy]%elem_of_cons; [done|by apply Hl].
Qed.

Lemma heap_cut_trans all l l1 l2 D :
  heap_cut all l l1 [] → heap_cut all l1 l2 D → heap_cut all l l2 D.
Proof.
  intros [Hh1 Hk1 _] [Hh2 Hk2 Hl2]. split; [done| |done]. intros x Hx Hst.
  destruct (Hk1 x Hx Hst) as [?%not_elem_of_nil|?]; [done|]. by apply Hk2.
Qed.

Lemma drop_stales_cut fuel all l :
  is_heap (pl_remotes l) → ∃ l', drop_stales px_Hash fuel all l = Ok l' ∧ heap_cut all l l' [].
Proof.
  revert l. induction fuel as [|fuel IH]; intros [h st] Hh; cbn [drop_stales pl_remotes] in *; destruct h as [|x h].
  1-3: eexists; split; [done|by apply heap_cut_refl].
  destruct (is_stale px_Hash all x) eqn:Ex; [|eexists; split; [done|by apply heap_cut_refl]].
  destruct (heap_Pop_spec x h Hh) as (h' & -> & Hh' & Hp). cbn [mbind res_bind pl_stales].
  destruct (IH (mkPriced h' (st - 1)) Hh') as (l' & -> & Hc). exists l'. split; [done|].
  pose proof (heap_cut_pop all x h h' st (st - 1) l' [] Hp Hc) as Hc'. by rewrite Ex in Hc'.
Qed.

Lemma cap_loop_cut fuel all cap l acc :
  (length (pl_remotes l) <= fuel)%nat → is_heap (pl_remotes l) →
  ∃ D l', pl_cap_loop px_Hash fuel all cap l acc = Ok (acc ++ D, l') ∧ heap_cut all l l' D ∧
    Forall (λ x, tx_GasPrice x < cap) D ∧ Forall (λ x, cap <= tx_GasPrice x) (pl_remotes l').
Proof.
  revert l acc. induction fuel as [|fuel IH]; intros [h st] acc Hf Hh; cbn [pl_cap_loop pl_remotes] in *;
    destruct h as [|x h]; cbn [length] in Hf; try lia.
  1,2: exists [], (mkPriced [] st); rewrite app_nil_r; split_and!; try done; by apply heap_cut_refl.
  destruct (heap_Pop_spec x h Hh) as (h' & Ep & Hh' & Hp).
  assert (Hlen : (length h' <= fuel)%nat) by (rewrite Hp; lia).
  destruct (is_stale px_Hash all x) eqn:Ex; [|destruct (Z.leb_spec cap (tx_GasPrice x)) as [Hle|Hlt]].
  - rewrite Ep. cbn [mbind res_bind pl_stales]. destruct (IH (mkPriced h' (st - 1)) acc Hlen Hh') as (D & l' & E & Hc & HD & Hl).
    exists D, l'. split; [done|]. split; [|done].
    pose proof (heap_cut_pop all x h h' st (st - 1) l' D Hp Hc) as Hc'. by rewrite Ex in Hc'.
  - exists [], (mkPriced (x :: h) st). rewrite app_nil_r. split; [done|]. split; [by apply heap_cut_refl|].
    split; [done|]. rewrite Forall_forall. cbn [pl_remotes]. intros y [->|Hy]%elem_of_cons; [done|].
    pose proof (heap_min x h y Hh Hy) as Hm. unfold price_less in Hm.
    destruct (Z.ltb_spec (tx_GasPrice y) (tx_GasPrice x)); [done|lia].
  - rewrite Ep. cbn [mbind res_bind pl_stales]. destruct (IH (mkPriced h' st) (acc ++ [x]) Hlen Hh') as (D & l' & E & Hc & HD & Hl).
    exists (x :: D), l'. rewrite E, <- app_assoc. split; [done|]. split; [|split; [by constructor|done]].
    pose proof (heap_cut_pop all x h h' st st l' D Hp Hc) as Hc'. by rewrite Ex in Hc'.
Qed.

Lemma discard_cut all slots force l :
  (∀ tx, 0 <= px_Size tx) → is_heap (pl_remotes l) →
  ∃ D ok l', pl_Discard px_Hash px_Size all slots force l = Ok (D, ok, l') ∧ heap_cut all l l' D.
Proof.
  intros Hsz Hh. destruct (discard_cheapest px_Hash px_Size all slots force l Hsz Hh) as (D & ok & l' & E & He & _).
  exists D, ok, l'. split; [done|]. destruct He as [Hh' Hlive _ Hd _ _ _]. split; [done|..].
  - intros x Hx Hst. assert (Hin : x ∈ filter (λ tx, is_stale px_Hash all tx = false) (pl_remotes l))
      by (by apply list_elem_of_filter).
    rewrite Hlive in Hin. apply elem_of_app in Hin as [?|[_ ?]%list_elem_of_filter]; auto.
  - by rewrite Forall_forall in Hd.
Qed.

Lemma priced_cut_inv p P Q S l' D :
  pool_inv p P Q S [] → heap_cut (p_all p) (p_priced p) l' D → pool_inv (set_priced l' p) P Q S (D ++ []).
Proof.
  intros [? ? ? Ha ? Hp ? ? ?] [Hh Hk _]. split; try done. intros h tx E.
  destruct (Hp h tx E) as [Hin|?%not_elem_of_nil]; [|done].
  assert (Hst : is_stale px_Hash (p_all p) tx = false).
  { unfold is_stale, lk_GetRemote. assert (px_Hash tx = h) as ->; [|by cbn in E; rewrite E].
    apply (ao_get _ _ Ha h tx). apply lk_Get_Some; [by apply ao_disj in Ha|by right]. }
  destruct (Hk tx Hin Hst); [right; apply elem_of_app|]; by left.
Qed.

(** Evicting transactions taken out of the heap: local accounts lose nothing. *)
Lemma evict_cut now p P Q n l' D :
  pool_at p P Q n [] → heap_cut (p_all p) (p_priced p) l' D →
  ∃ p' P' Q' n', removeTxs now D false (set_priced l' p) = Ok p' ∧ pool_at p' P' Q' n' [] ∧
    removal (px_Hash <$> D) P Q n P' Q' n' ∧ same_env p p' ∧
    (∀ a, as_contains a (p_locals p) = true → P' a = P a ∧ Q' a = Q a).
Proof.
  intros [Hi En] Hc. pose proof (priced_cut_inv p P Q _ l' D Hi Hc) as Hi1.
  destruct (removeTxs_removal now D (set_priced l' p) P Q n (D ++ []) false) as (p' & P' & Q' & n' & E & Hp' & Hr & He).
  { by split. }
  exists p', P', Q', n'. split; [done|]. split; [by eapply removal_drop|]. split; [done|].
  split; [transitivity (set_priced l' p); [by split|done]|]. intros a Ha. apply (rm_other _ _ _ _ _ _ _ Hr).
  intros x Hx (y & Eh & Hy)%list_elem_of_fmap Hs. apply (hc_live _ _ _ _ Hc) in Hy. apply stale_remote in Hy.
  rewrite <- Eh in Hy. pose proof (live_remote p P Q _ _ _ x Hi Hx eq_refl Hy) as Hl.
  rewrite (sender_of_eq _ _ Hs) in Hl. congruence.
Qed.
End inv.
