(* ===== verification/PoolOps.v ===== *)
(** * Admission to and eviction from the transaction pool (evmcore/tx_pool.go)

    The operations of [TxPool] that are not part of a reorganisation keep the invariant of
    [PoolInv]; the lemmas say which transactions enter and leave the pool. *)

From stdpp Require Import sorting functions.
From S2P Require Import Prelude Cser Inter TxSer Pos Heap EvmState EvmChain TxList TxPool PoolInv.

Section ops.
Context `{MapRangeLaws} `{GoHeapLaws Z nonce_less} `{GoHeapLaws Transaction price_less} `{PoolTx} `{GasTable}.
Context `{!PoolTxLaws}.

Notation view := (Address → list Transaction).
Notation tabs := (tl_abs px_Cost).

(** ** Queued events *)

(** Every list of events is a sorted map. *)
Definition events_ok (events : gmap Address txSortedMap) : Prop :=
  ∀ a m, events !! a = Some m → ∃ s, abs m s.

Lemma put_event_ok tx events : events_ok events → events_ok (put_event tx events).
Proof.
  intros Hev a m. unfold put_event. rewrite lookup_insert_Some. intros [[_ <-]|[_ Hb]]; [|by eapply Hev].
  destruct (events !! sender_of tx) as [m|] eqn:E; cbn [default].
  - destruct (Hev _ _ E) as [s Hs]. eexists. by apply Put_refines.
  - eexists. apply Put_refines, abs_empty.
Qed.

(** ** Making room *)

Lemma discard_fails all slots l D l' :
  pl_Discard px_Hash px_Size all slots false l = Ok (D, false, l') → D = [].
Proof.
  unfold pl_Discard. destruct (discard_loop _ _ _ _ _ _ _) as [[[d s] l1]|e|]; cbn [mbind res_bind]; try done.
  destruct (_ && _); congruence.
Qed.

Lemma same_env_priced p l : same_env p (set_priced l p).
Proof. by split. Qed.

(** What an operation that may evict transactions by price does to the pool. *)
Record evicts (p : TxPool) (P Q : view) (n : txNoncer) (p' : TxPool) (P' Q' : view) (n' : txNoncer) : Prop := {
  ec_pool : pool_at p' P' Q' n' [];
  ec_removal : ∃ D, removal D P Q n P' Q' n';
  ec_env : same_env p p';
  ec_locals : ∀ a, as_contains a (p_locals p) = true → P' a = P a ∧ Q' a = Q a;
}.

Lemma evicts_cut now p P Q n l' D :
  pool_at p P Q n [] → heap_cut (p_all p) (p_priced p) l' D →
  ∃ p' P' Q' n', removeTxs now D false (set_priced l' p) = Ok p' ∧ evicts p P Q n p' P' Q' n'.
Proof.
  intros Hp Hc. destruct (evict_cut now p P Q n l' D Hp Hc) as (p' & P' & Q' & n' & E & Hp' & Hr & He & Hl).
  exists p', P', Q', n'. split; [done|]. split; eauto.
Qed.

Lemma evicts_heap p P Q n l' :
  pool_at p P Q n [] → heap_cut (p_all p) (p_priced p) l' [] → evicts p P Q n (set_priced l' p) P Q n.
Proof.
  intros Hp Hc. split; [|exists []; apply removal_refl|apply same_env_priced|done].
  destruct Hp as [Hi En]. split; [|done]. by apply (priced_cut_inv p P Q _ l' [] Hi Hc).
Qed.

Lemma evicts_refl p P Q n : pool_at p P Q n [] → evicts p P Q n p P Q n.
Proof. intros Hp. split; [done|exists []; apply removal_refl|done|done]. Qed.

Lemma make_room_evicts now tx isLocal p P Q n :
  pool_at p P Q n [] →
  ∃ err p' P' Q' n', make_room now tx isLocal p = Ok (err, p') ∧ evicts p P Q n p' P' Q' n' ∧
    (err = None ∨ (P' = P ∧ Q' = Q ∧ n' = n ∧ isLocal = false ∧ (err = Some ErrUnderpriced ∨ err = Some ErrTxPoolOverflow))).
Proof.
  intros Hp. pose proof Hp as [Hi En]. unfold make_room.
  destruct (_ <? _); [|exists None, p, P, Q, n; split; [done|]; split; [by apply evicts_refl|by left]].
  assert (Hu : ∃ under l1, (if isLocal then Ok (false, p)
      else '(under, l) ← pl_Underpriced px_Hash (p_all p) tx (p_priced p); Ok (under, set_priced l p))
      = Ok (under, set_priced l1 p) ∧ heap_cut (p_all p) (p_priced p) l1 [] ∧ (isLocal = true → under = false)).
  { destruct isLocal.
    - exists false, (p_priced p). split; [by destruct p|]. split; [apply heap_cut_refl, (pi_heap _ _ _ _ _ Hi)|done].
    - unfold pl_Underpriced.
      destruct (drop_stales_cut (length (pl_remotes (p_priced p))) (p_all p) (p_priced p)) as (l1 & -> & Hc);
        [apply (pi_heap _ _ _ _ _ Hi)|]. cbn [mbind res_bind].
      destruct (pl_remotes l1); cbn [mbind res_bind]; by eexists _, l1. }
  destruct Hu as (under & l1 & -> & Hc1 & Hloc). cbn [mbind res_bind].
  destruct under.
  { eexists _, _, P, Q, n. split; [done|]. split; [by apply evicts_heap|]. right.
    destruct isLocal; [by specialize (Hloc eq_refl)|]. split_and!; auto. }
  cbn [p_all p_priced set_priced p_config].
  destruct (discard_cut (p_all p) (lk_slots (p_all p) - i64 (u64 (GlobalSlots (p_config p) + GlobalQueue (p_config p))) + numSlots px_Size tx)
    isLocal l1 px_Size_nonneg (hc_heap _ _ _ _ Hc1)) as (D & ok & l2 & E & Hc2).
  rewrite E. cbn [mbind res_bind]. pose proof (heap_cut_trans _ _ _ _ _ Hc1 Hc2) as Hc.
  change (set_priced l2 (set_priced l1 p)) with (set_priced l2 p).
  destruct (negb isLocal && negb ok) eqn:Ef.
  - apply andb_true_iff in Ef as [Hl%negb_true_iff Ho%negb_true_iff]. subst isLocal ok. apply discard_fails in E. subst D.
    eexists _, _, P, Q, n. split; [done|]. split; [by apply evicts_heap|]. right. split_and!; auto.
  - destruct (evicts_cut now p P Q n l2 D Hp Hc) as (p' & P' & Q' & n' & -> & He). cbn [mbind res_bind].
    eexists _, _, P', Q', n'. split; [done|]. split; [done|]. by left.
Qed.

(** ** Admission *)

Lemma fresh_get t S tx : all_ok t S → lk_Get (px_Hash tx) t = None ↔ (∀ y, S y → px_Hash y ≠ px_Hash tx).
Proof.
  intros Ha. split.
  - intros E y Hy Eh. assert (lk_Get (px_Hash tx) t = Some y) by (by apply (ao_get _ _ Ha)). congruence.
  - intros Hf. destruct (lk_Get (px_Hash tx) t) as [y|] eqn:E; [|done]. apply (ao_get _ _ Ha) in E as [Eh Hy].
    by destruct (Hf y Hy).
Qed.

(** The views after a transaction was accepted: it replaces a pending one with its nonce,
    or it is queued, perhaps in place of one with its nonce. *)
Inductive admitted (P Q : view) (tx : Transaction) (a : Address) : view → view → Prop :=
  | admitted_pending : tx_Nonce tx ∈ tx_Nonce <$> P a → admitted P Q tx a (<[a := put_sorted tx (P a)]> P) Q
  | admitted_queued : tx_Nonce tx ∉ tx_Nonce <$> P a → admitted P Q tx a P (<[a := put_sorted tx (Q a)]> Q).

(** The transaction with the nonce of an inserted one, if any, is the one that leaves. *)
Lemma put_old (s : list Transaction) tx (old : option Transaction) x :
  StronglySorted nonce_lt s → (∀ o, old = Some o ↔ o ∈ s ∧ tx_Nonce o = tx_Nonce tx) →
  x ∈ put_sorted tx s ↔ x = tx ∨ (x ∈ s ∧ old ≠ Some x).
Proof. intros Hs Ho. rewrite put_sorted_elem by done. rewrite (Ho x). tauto. Qed.

(** Taking the replaced transaction out of the table and putting the new one in. *)
Lemma exchange_inv p P Q S X tx old local :
  pool_inv p P Q S X → (∀ o, old = Some o → S o) → (∀ y, S y → px_Hash y ≠ px_Hash tx) →
  (local = false → as_contains (sender_of tx) (p_locals p) = false) →
  let p1 := match old with Some old => priced_Removed 1 (all_Remove (px_Hash old) p) | None => p end in
  pool_inv (all_Add tx local p1) P Q (λ x, (S x ∧ old ≠ Some x) ∨ x = tx) X ∧ same_env p p1 ∧
    p_pendingNonces p1 = p_pendingNonces p.
Proof.
  intros Hi Hold Hf Hl p1.
  assert (Hp1 : pool_inv p1 P Q (λ x, S x ∧ old ≠ Some x) X ∧ same_env p p1 ∧ p_pendingNonces p1 = p_pendingNonces p ∧
    p_locals p1 = p_locals p).
  { unfold p1. destruct old as [o|].
    - split; [|done]. apply priced_Removed_inv. eapply pool_inv_iff; [|apply all_Remove_inv; [exact Hi|by apply Hold]].
      intros x. cbn. naive_solver.
    - split; [|done]. eapply pool_inv_iff; [|exact Hi]. naive_solver. }
  destruct Hp1 as (Hi1 & He1 & En1 & El1). split; [|done]. apply all_Add_inv; [done| |by rewrite El1].
  apply (fresh_get _ _ tx (pi_all _ _ _ _ _ Hi1)). intros y [Hy _]. by apply Hf.
Qed.

Lemma views_pending (P Q : view) a s :
  views_ok P Q → (∀ tx, tx ∈ s → px_Sender tx = Some a ∧ 0 <= tx_Nonce tx < 2 ^ 64 - 1 ∧
    tx_Nonce tx ∉ tx_Nonce <$> Q a) → views_ok (<[a := s]> P) Q.
Proof.
  intros Hv Hs. eapply views_ext; [done| |apply (views_update P Q a s (Q a) Hv)].
  - intros b. symmetry. apply insert_same.
  - intros tx [Hin|Hin]; [specialize (Hs tx Hin); tauto|].
    split; [by eapply vo_sender; eauto|by eapply vo_nonce; eauto].
  - intros t t' Ht Ht' E. destruct (Hs t Ht) as (_ & _ & Hn). destruct Hn. rewrite E. by apply list_elem_of_fmap_2.
Qed.

Lemma views_nonces_pending (P Q : view) a t : views_ok P Q → t ∈ P a → tx_Nonce t ∉ tx_Nonce <$> Q a.
Proof. intros Hv Ht. rewrite list_elem_of_fmap. intros (x & E & Hx). by eapply vo_disj. Qed.

(** The pool after an admission holds the new transaction in place of the replaced one. *)
Lemma admitted_pool (P Q : view) tx a P' Q' old s x :
  views_ok P Q → px_Sender tx = Some a → admitted P Q tx a P' Q' →
  s = (if bool_decide (tx_Nonce tx ∈ tx_Nonce <$> P a) then P a else Q a) →
  StronglySorted nonce_lt s → (∀ o, old = Some o ↔ o ∈ s ∧ tx_Nonce o = tx_Nonce tx) →
  in_pool P' Q' x ↔ (in_pool P Q x ∧ old ≠ Some x) ∨ x = tx.
Proof.
  intros Hv Hs Had -> Hso Ho.
  assert (Hupd : ∀ y, in_pool P Q y ↔ y ∈ P a ∨ y ∈ Q a ∨ (px_Sender y ≠ Some a ∧ in_pool P Q y)).
  { intros y. destruct (decide (px_Sender y = Some a)) as [E|E].
    - rewrite (in_pool_sender P Q y a Hv E). tauto.
    - split; [tauto|]. intros [?|[?|[_ ?]]]; [exists a; auto..|done]. }
  assert (Hoa : ∀ y, old = Some y → px_Sender y = Some a).
  { intros y [Hy _]%Ho. destruct (bool_decide _); eapply vo_sender; eauto. }
  assert (HPQ : ∀ y, y ∈ P a → y ∈ Q a → False) by (intros y H1' H2'; by eapply (vo_disj _ _ Hv a y y)).
  destruct Had as [Hn|Hn].
  - rewrite bool_decide_true in Hso, Ho by done.
    assert (Hext : in_pool (<[a := put_sorted tx (P a)]> P) Q x ↔
      in_pool (<[a := put_sorted tx (P a)]> P) (<[a := Q a]> Q) x).
    { unfold in_pool. apply exist_proper. intros b. by rewrite <- insert_same. }
    rewrite Hext, update_in_pool; [|done|].
    + rewrite (put_old _ tx old x Hso Ho), Hupd. split.
      * intros [[->|[Hx Hne]]|[Hx|[Hsx Hx]]]; [tauto|tauto|..].
        -- left. split; [tauto|]. intros [Hp _]%Ho. by eapply HPQ.
        -- left. split; [tauto|]. intros E. by apply Hsx, Hoa.
      * intros [[[Hx|[Hx|Hx]] Hne]| ->]; tauto.
    + intros y [Hy|Hy]; [|eapply vo_sender; eauto]. apply put_sorted_elem in Hy as [->|[Hy _]]; [done| |done].
      eapply vo_sender; eauto.
  - rewrite bool_decide_false in Hso, Ho by done.
    assert (Hext : in_pool P (<[a := put_sorted tx (Q a)]> Q) x ↔
      in_pool (<[a := P a]> P) (<[a := put_sorted tx (Q a)]> Q) x).
    { unfold in_pool. apply exist_proper. intros b. by rewrite <- insert_same. }
    rewrite Hext, update_in_pool; [|done|].
    + rewrite (put_old _ tx old x Hso Ho), Hupd. split.
      * intros [Hx|[[->|[Hx Hne]]|[Hsx Hx]]]; [|tauto|tauto|].
        -- left. split; [tauto|]. intros [Hp _]%Ho. by eapply HPQ.
        -- left. split; [tauto|]. intros E. by apply Hsx, Hoa.
      * intros [[[Hx|[Hx|Hx]] Hne]| ->]; tauto.
    + intros y [Hy|Hy]; [eapply vo_sender; eauto|]. apply put_sorted_elem in Hy as [->|[Hy _]]; [done| |done].
      eapply vo_sender; eauto.
Qed.

(** The journal, the events and the heartbeats are apart from the invariant. *)
Lemma journal_inv p P Q S X a tx :
  pool_inv p P Q S X → pool_inv (journalTx a tx p) P Q S X ∧ same_env p (journalTx a tx p) ∧
    p_pendingNonces (journalTx a tx p) = p_pendingNonces p.
Proof.
  intros Hi. unfold journalTx. destruct (p_journal p) as [j|]; [|done]. destruct (as_contains a (p_locals p)); [|done].
  split; [|by split]. destruct Hi. by split.
Qed.

Lemma events_inv p P Q S X tx b :
  pool_inv p P Q S X → pool_inv (set_beats b (queueTxEvent tx p)) P Q S X.
Proof. intros []. by split. Qed.

(** The configuration and the head stay, local accounts stay local and the events sorted. *)
Record env_grows (p p' : TxPool) : Prop := {
  eg_config : p_config p' = p_config p;
  eg_head : p_head p' = p_head p;
  eg_locals : ∀ b, as_contains b (p_locals p) = true → as_contains b (p_locals p') = true;
  eg_events : events_ok (p_events p) → events_ok (p_events p');
}.

#[global] Instance env_grows_preorder : PreOrder env_grows.
Proof. split; [by split|]. intros p q r [] []. split; [congruence..|auto|auto]. Qed.

Lemma same_env_grows p p' : same_env p p' → env_grows p p'.
Proof. intros [Ec Eh El Ee]. split; [done..| |by rewrite Ee]. intros b. by rewrite El. Qed.

(** The outcome of an insertion into one of the lists. *)
Definition insertion (p : TxPool) (P Q : view) (n : txNoncer) (tx : Transaction) (a : Address)
    (v : bool * option error) (p' : TxPool) : Prop :=
  env_grows p p' ∧
  ((v = (false, Some ErrReplaceUnderpriced) ∧ pool_at p' P Q n []) ∨
   (∃ P' Q', v.2 = None ∧ admitted P Q tx a P' Q' ∧ pool_at p' P' Q' n [])).

Lemma replace_pending_inv now p P Q n tx a l isLocal :
  pool_at p P Q n [] → px_Sender tx = Some a → 0 <= tx_Nonce tx < 2 ^ 64 - 1 →
  (∀ y, in_pool P Q y → px_Hash y ≠ px_Hash tx) → (isLocal = false → as_contains a (p_locals p) = false) →
  p_pending p !! a = Some l → tx_Nonce tx ∈ tx_Nonce <$> P a →
  let '(v, p') := replace_pending now a tx isLocal l p in insertion p P Q n tx a v p'.
Proof.
  intros [Hi En] Hs Hn Hf Hl El Hin. pose proof Hi as [Hpe Hqu Hv Ha Hh Hp Hr Hst Hc].
  destruct (lists_some _ _ _ _ _ Hpe El) as (Htl & Hstr & Hne). unfold replace_pending.
  destruct (txlist_add_replaces px_Cost l (P a) tx (PriceBump (p_config p)) Htl) as (ok & old & l' & -> & _ & Hfalse & Htrue);
    [unfold is_u64; lia|apply Hc|]. destruct ok; cbn [negb].
  2: { destruct (Hfalse eq_refl) as [_ ->]. split; [by split|]. left. split; [done|]. split; [|done]. split; try done.
       cbn. by rewrite insert_id. }
  destruct (Htrue eq_refl) as (Hl' & Hst' & Hold). pose proof (tabs_sorted _ _ Htl) as Hso.
  set (P' := <[a := put_sorted tx (P a)]> P). set (p1 := set_pending (<[a := l']> (p_pending p)) p).
  assert (Hi1 : pool_inv p1 P' Q (in_pool P Q) []).
  { split; try done.
    - apply lists_insert; [done..|congruence|apply put_sorted_nonempty].
    - apply views_pending; [done|]. intros x Hx. apply put_sorted_elem in Hx as [->|[Hx _]]; [| |done].
      + split; [done|]. split; [done|]. rewrite list_elem_of_fmap. apply list_elem_of_fmap in Hin as (z & Ez & Hz).
        intros (y & Ey & Hy). apply (vo_disj _ _ Hv a z y Hz Hy). congruence.
      + split; [by eapply vo_sender; eauto|]. split; [by eapply vo_nonce; eauto|by apply (views_nonces_pending P Q a x Hv)]. }
  destruct (exchange_inv p1 P' Q _ [] tx old isLocal Hi1) as (Hi2 & He2 & En2).
  - intros o Ho. apply Hold in Ho as [Ho _]. exists a. by left.
  - done.
  - rewrite (sender_of_eq _ _ Hs). done.
  - cbn zeta in *. set (p2 := all_Add tx isLocal _) in *.
    assert (He3 : same_env p p2) by (unfold p2; destruct He2 as [? ? ?]; by split).
    assert (En3 : p_pendingNonces p2 = Some n) by (unfold p2; cbn; by rewrite En2).
    assert (Hi3 : pool_inv p2 P' Q (in_pool P' Q) []).
    { eapply pool_inv_iff; [|exact Hi2]. intros x. symmetry.
      apply (admitted_pool P Q tx a P' Q old (P a) x Hv Hs); [by constructor|by rewrite bool_decide_true|done|done]. }
    destruct (journal_inv p2 P' Q _ [] a tx Hi3) as (Hi4 & [Ec4 Eh4 El4 Ee4] & En4). split.
    + transitivity p2; [by apply same_env_grows|]. split; cbn; [done..| |].
      * intros b. by rewrite El4.
      * rewrite Ee4. apply put_event_ok.
    + right. exists P', Q. split; [done|]. split; [by constructor|]. split; [by apply events_inv|].
      cbn. congruence.
Qed.

Lemma enqueue_new now p P Q n tx a isLocal :
  pool_at p P Q n [] → px_Sender tx = Some a → 0 <= tx_Nonce tx < 2 ^ 64 - 1 →
  (∀ y, in_pool P Q y → px_Hash y ≠ px_Hash tx) → (isLocal = false → as_contains a (p_locals p) = false) →
  tx_Nonce tx ∉ tx_Nonce <$> P a →
  let '(v, p') := enqueueTx now (px_Hash tx) tx isLocal true p in insertion p P Q n tx a v p'.
Proof.
  intros [Hi En] Hs Hn Hf Hl Hin. pose proof Hi as [Hpe Hqu Hv Ha Hh Hp Hr Hst Hc].
  rewrite enqueueTx_queue, (sender_of_eq _ _ Hs). cbn zeta. destruct (lists_of _ _ _ a Hqu) as [Htl Hstr].
  destruct (txlist_add_replaces px_Cost _ (Q a) tx (PriceBump (p_config p)) Htl) as (ok & old & l' & Eadd & Hok & Hfalse & Htrue);
    [unfold is_u64; lia|apply Hc|]. rewrite Eadd. destruct ok; cbn [negb].
  2: { destruct (Hfalse eq_refl) as [_ ->]. split; [by split|]. left. split; [done|]. split; [|done]. split; try done.
       cbn. destruct (p_queue p !! a) as [l|] eqn:El; cbn [default]; [by rewrite insert_id|].
       exfalso. assert (false = true); [|done]. apply Hok. rewrite (lists_none _ _ _ _ Hqu El).
       by intros o ?%not_elem_of_nil. }
  destruct (Htrue eq_refl) as (Hl' & Hst' & Hold). pose proof (tabs_sorted _ _ Htl) as Hso.
  set (Q' := <[a := put_sorted tx (Q a)]> Q). set (p1 := set_queue (<[a := l']> (p_queue p)) p).
  assert (Hi1 : pool_inv p1 P Q' (in_pool P Q) []).
  { split; try done.
    - apply lists_insert; [done..|congruence|apply put_sorted_nonempty].
    - apply views_queue; [done|]. intros x Hx. apply put_sorted_elem in Hx as [->|[Hx _]]; [done| |done].
      split; [by eapply vo_sender; eauto|]. split; [by eapply vo_nonce; eauto|by apply (views_nonces P Q a x Hv)]. }
  destruct (exchange_inv p1 P Q' _ [] tx old isLocal Hi1) as (Hi2 & He2 & En2).
  - intros o Ho. apply Hold in Ho as [Ho _]. exists a. by right.
  - done.
  - rewrite (sender_of_eq _ _ Hs). done.
  - cbn zeta in *. set (p2 := all_Add tx isLocal _) in *.
    assert (He3 : same_env p p2) by (unfold p2; destruct He2 as [? ? ?]; by split).
    assert (En3 : p_pendingNonces p2 = Some n) by (unfold p2; cbn; by rewrite En2).
    assert (Hi3 : pool_inv p2 P Q' (in_pool P Q') []).
    { eapply pool_inv_iff; [|exact Hi2]. intros x. symmetry.
      apply (admitted_pool P Q tx a P Q' old (Q a) x Hv Hs); [by constructor|by rewrite bool_decide_false|done|done]. }
    assert (Hfin : ∀ p3, p3 = p2 ∨ (∃ b, p3 = set_beats b p2) → same_env p p3 ∧ pool_at p3 P Q' n []).
    { intros p3 [->|(b & ->)]; [by split; [|split]|]. split; [destruct He3; by split|]. split; [by apply beats_inv|done]. }
    destruct (Hfin (match p_beats p2 !! a with Some _ => p2 | None => set_beats (<[a := now]> (p_beats p2)) p2 end))
      as [He4 Hp4].
    { destruct (p_beats p2 !! a); eauto. }
    split; [by apply same_env_grows|]. right. exists P, Q'. split; [done|]. split; [by constructor|done].
Qed.

Lemma as_contains_add a b s : as_contains b (as_add a s) = bool_decide (a = b) || as_contains b s.
Proof.
  unfold as_contains, as_add. cbn. destruct (decide (a = b)) as [<-|Hne].
  - rewrite lookup_insert_eq, !bool_decide_true by done. done.
  - rewrite lookup_insert_ne by done. by rewrite (bool_decide_false (a = b)).
Qed.

Lemma mark_local_inv p P Q n a :
  pool_at p P Q n [] → pool_at (mark_local a p) P Q n [] ∧
    p_config (mark_local a p) = p_config p ∧ p_head (mark_local a p) = p_head p ∧
    p_events (mark_local a p) = p_events p ∧
    (∀ b, as_contains b (p_locals p) = true → as_contains b (p_locals (mark_local a p)) = true).
Proof.
  intros [Hi En]. unfold mark_local. set (p1 := set_locals (as_add a (p_locals p)) p).
  destruct (lk_RemoteToLocals _ _) as [moved all] eqn:E. split; [|split; [done|split; [done|split; [done|]]]].
  2: { intros b Hb. change (as_contains b (as_add a (p_locals p)) = true). rewrite as_contains_add, Hb. apply orb_true_r. }
  split; [|done]. apply priced_Removed_inv. pose proof Hi as [? ? Hv Ha ? Hp Hr ? ?].
  destruct (lk_RemoteToLocals_ok (λ tx, as_containsTx tx (p_locals p1)) (p_all p1) _ Ha) as [Ha' Hrem].
  change (p_all p1) with (p_all p) in *. rewrite E in Ha', Hrem. cbn [snd] in *.
  assert (Hsub : ∀ h tx, lk_remotes all !! h = Some tx → lk_remotes (p_all p) !! h = Some tx ∧
    as_containsTx tx (p_locals p1) = false).
  { intros h tx. rewrite Hrem, map_lookup_filter_Some. done. }
  split; try done.
  - intros h tx [Etx _]%Hsub. by apply (Hp h).
  - intros h tx [Etx Hc]%Hsub. cbn. unfold as_containsTx in Hc.
    assert (Hg : in_pool P Q tx).
    { apply (ao_get _ _ Ha h tx). apply lk_Get_Some; [by apply ao_disj in Ha|by right]. }
    destruct Hg as (b & Hb). pose proof (vo_sender _ _ Hv b tx Hb) as Hs. rewrite Hs in Hc.
    by rewrite (sender_of_eq _ _ Hs).
Qed.

(** ** The outcome of [add] *)

(** The transaction is in none of the lists but, when [err] is [None], admitted after the
    removals of an eviction. *)
Record add_outcome (p : TxPool) (P Q : view) (n : txNoncer) (tx : Transaction) (err : option error)
    (p' : TxPool) (P' Q' : view) (n' : txNoncer) : Prop := {
  ad_pool : pool_at p' P' Q' n' [];
  ad_env : env_grows p p';
  ad_views : ∃ D P1 Q1, removal D P Q n P1 Q1 n' ∧
    (∀ a, as_contains a (p_locals p) = true → P1 a = P a ∧ Q1 a = Q a) ∧
    match err with
    | None => ∃ a, px_Sender tx = Some a ∧ admitted P1 Q1 tx a P' Q'
    | Some _ => P' = P1 ∧ Q' = Q1
    end;
}.

(** What an accepted transaction satisfies: the consensus rules at the pool's state and the
    limits of the node; a local one may be cheaper than the pool's price, not than the
    chain's. *)
Record valid_tx (ch : stateReader) (p : TxPool) (st : StateView) (tx : Transaction) (local : bool) (a : Address) : Prop := {
  va_type : ph_eip2718 (p_head p) = true ∨ tx_Type tx = LegacyTxType;
  va_size : px_Size tx <= txMaxSize;
  va_value : 0 <= tx_Value tx;
  va_gas : tx_Gas tx <= ph_currentMaxGas (p_head p);
  va_sender : px_Sender tx = Some a;
  va_price : local = true ∨ as_contains a (p_locals p) = true ∨ p_gasPrice p <= tx_GasPrice tx;
  va_nonce : GetNonce st a <= tx_Nonce tx;
  va_cost : px_Cost tx <= GetBalance st a;
  va_intrinsic : ∃ g, IntrinsicGas (tx_Data tx) (tx_AccessList tx) (bool_decide (tx_To tx = None)) = Ok g ∧ g <= tx_Gas tx;
  va_min : sr_MinGasPrice ch <= tx_GasPrice tx;
  va_new : sr_TxExists ch (px_Hash tx) = false;
}.

Lemma guard_err_Ok c e : guard_err c e = Ok tt ↔ c = false.
Proof. unfold guard_err. by destruct c. Qed.

Lemma guard_err_no_panic c e : guard_err c e ≠ Panic.
Proof. unfold guard_err. by destruct c. Qed.

Lemma pool_validateTx_Ok ch p st n tx local :
  state_ok p st n →
  validateTx ch tx local p = Ok tt ↔ ∃ a, valid_tx ch p st tx local a.
Proof.
  intros (Est & _ & _). unfold validateTx. rewrite !res_seq_Ok, !guard_err_Ok, andb_false_iff, !negb_false_iff, Z.eqb_eq, !Z.ltb_ge.
  destruct (px_Sender tx) as [a|] eqn:Es.
  2: { split; [naive_solver|]. intros (a & [? ? ? ? Hs]). congruence. }
  rewrite Est. cbn [deref]. rewrite !res_seq_Ok, !guard_err_Ok.
  assert (Hx : ∀ (k : StateView → res unit), (x ← Ok st; k x) = k st) by done.
  rewrite Hx, !res_seq_Ok, !guard_err_Ok, res_bind_Ok, andb_false_iff, negb_false_iff, orb_true_iff, !Z.ltb_ge.
  repeat setoid_rewrite res_seq_Ok. repeat setoid_rewrite guard_err_Ok. repeat setoid_rewrite Z.ltb_ge. split.
  - intros (? & ? & ? & ? & Hp & ? & ? & g & ? & ? & ? & ?). exists a. split; try done; [tauto|by exists g].
  - intros (b & [? ? ? ? Hs Hp ? ? (g & ? & ?) ? ?]). assert (b = a) as -> by congruence.
    split_and!; try done; [tauto|by exists g].
Qed.

Lemma pool_validateTx_no_panic ch p P Q S X tx local : pool_inv p P Q S X → validateTx ch tx local p ≠ Panic.
Proof.
  intros Hi. destruct (pi_state _ _ _ _ _ Hi) as (st & n & Est & _ & _). unfold validateTx.
  repeat (apply res_bind_no_panic; [apply guard_err_no_panic|intros _ _]).
  destruct (px_Sender tx) as [a|]; [|done]. apply res_bind_no_panic; [apply guard_err_no_panic|intros _ _].
  rewrite Est. apply res_bind_no_panic; [done|]. intros ? _.
  do 2 (apply res_bind_no_panic; [apply guard_err_no_panic|intros _ _]).
  apply res_bind_no_panic; [|intros g _; do 2 (apply res_bind_no_panic; [apply guard_err_no_panic|intros _ _]); apply guard_err_no_panic].
  destruct (IntrinsicGas_cases (tx_Data tx) (tx_AccessList tx) (bool_decide (tx_To tx = None))) as [(g & -> & _)|(e & -> & _)]; done.
Qed.

Lemma add_outcome_same p P Q n tx e : pool_at p P Q n [] → add_outcome p P Q n tx (Some e) p P Q n.
Proof. intros Hp. split; [done..|]. exists [], P, Q. split; [apply removal_refl|done]. Qed.

Lemma removal_fresh D P Q n P' Q' n' tx :
  removal D P Q n P' Q' n' → (∀ y, in_pool P Q y → px_Hash y ≠ px_Hash tx) →
  ∀ y, in_pool P' Q' y → px_Hash y ≠ px_Hash tx.
Proof. intros Hr Hf y Hy. apply Hf. by apply (rm_pool _ _ _ _ _ _ _ Hr) in Hy as [? _]. Qed.

Lemma add_queued_outcome now p P Q n tx a local isLocal :
  pool_at p P Q n [] → px_Sender tx = Some a → 0 <= tx_Nonce tx < 2 ^ 64 - 1 →
  (∀ y, in_pool P Q y → px_Hash y ≠ px_Hash tx) → (isLocal = false → as_contains a (p_locals p) = false) →
  tx_Nonce tx ∉ tx_Nonce <$> P a →
  let '(v, p') := add_queued now tx local isLocal p in
  env_grows p p' ∧
  ((v = (false, Some ErrReplaceUnderpriced) ∧ pool_at p' P Q n []) ∨
   (∃ P' Q', v.2 = None ∧ admitted P Q tx a P' Q' ∧ pool_at p' P' Q' n [])).
Proof.
  intros Hp Hs Hn Hf Hl Hin. pose proof (enqueue_new now p P Q n tx a isLocal Hp Hs Hn Hf Hl Hin) as He.
  unfold add_queued. rewrite (sender_of_eq _ _ Hs). destruct (enqueueTx _ _ _ _ _ _) as [[r e] p1].
  destruct He as [Henv [[Ev Hp1]|(P' & Q' & Ev & Had & Hp1)]].
  - injection Ev as -> ->. split; [done|]. by left.
  - cbn [snd] in Ev. subst e. set (p2 := if local && negb (as_contains a (p_locals p1)) then mark_local a p1 else p1).
    assert (Hp2 : pool_at p2 P' Q' n [] ∧ env_grows p1 p2).
    { unfold p2. destruct (_ && _); [|done]. destruct (mark_local_inv p1 P' Q' n a Hp1) as (? & ? & ? & Ee & ?).
      split; [done|]. split; [done..|by rewrite Ee]. }
    destruct Hp2 as [[Hi2 En2] Hg2]. destruct (journal_inv p2 P' Q' _ [] a tx Hi2) as (Hi3 & He3 & En3). split.
    + transitivity p1; [done|]. transitivity p2; [done|]. by apply same_env_grows.
    + right. exists P', Q'. split; [done|]. split; [done|]. split; [done|congruence].
Qed.

(** Adding a transaction never panics and keeps the invariant. *)
Lemma add_cases ch now tx local p P Q n :
  pool_at p P Q n [] → 0 <= tx_Nonce tx < 2 ^ 64 - 1 →
  ∃ v p' P' Q' n', pool_add ch now tx local p = Ok (v, p') ∧ add_outcome p P Q n tx v.2 p' P' Q' n' ∧
    (v.2 = Some ErrAlreadyKnown ∨ (∀ y, in_pool P Q y → px_Hash y ≠ px_Hash tx)) ∧
    (v.2 = None → ∃ st a, state_ok p st n ∧ valid_tx ch p st tx (local || as_containsTx tx (p_locals p)) a).
Proof.
  intros Hp Hn. pose proof Hp as [Hi En]. unfold pool_add.
  destruct (lk_Get (px_Hash tx) (p_all p)) as [y|] eqn:Eg.
  { eexists _, p, P, Q, n. split; [done|]. split; [by apply add_outcome_same|]. split; [by left|done]. }
  assert (Hf : ∀ y, in_pool P Q y → px_Hash y ≠ px_Hash tx) by (by apply (fresh_get _ _ tx (pi_all _ _ _ _ _ Hi))).
  set (isLocal := local || as_containsTx tx (p_locals p)).
  pose proof (pool_validateTx_no_panic ch p P Q _ _ tx isLocal Hi) as Hnp.
  destruct (validateTx ch tx isLocal p) as [[]|e|] eqn:Ev; [| |done].
  2: { eexists _, p, P, Q, n. split; [done|]. split; [by apply add_outcome_same|]. split; [by right|done]. }
  destruct (pi_state _ _ _ _ _ Hi) as (st & n0 & Hst). assert (n0 = n) as ->.
  { destruct Hst as (_ & E & _). congruence. }
  apply (pool_validateTx_Ok ch p st n tx isLocal Hst) in Ev as (a & Hval). pose proof (va_sender _ _ _ _ _ _ Hval) as Hs.
  destruct (make_room_evicts now tx isLocal p P Q n Hp) as (err & p1 & P1 & Q1 & n1 & -> & [Hp1 (D & Hr1) He1 Hl1] & Herr).
  cbn [mbind res_bind]. destruct err as [e|].
  { destruct Herr as [?|(-> & -> & -> & _)]; [done|]. eexists _, p1, P, Q, n. split; [done|]. split.
    - split; [done|by apply same_env_grows|]. exists [], P, Q. split; [apply removal_refl|done].
    - split; [by right|done]. }
  pose proof (removal_fresh _ _ _ _ _ _ _ tx Hr1 Hf) as Hf1.
  assert (Hloc : isLocal = false → as_contains a (p_locals p1) = false).
  { rewrite (se_locals _ _ He1). unfold isLocal, as_containsTx. rewrite Hs. by intros [_ ?]%orb_false_iff. }
  assert (Hfin : ∀ v p2, env_grows p1 p2 → (v = (false, Some ErrReplaceUnderpriced) ∧ pool_at p2 P1 Q1 n1 []) ∨
     (∃ P' Q', v.2 = None ∧ admitted P1 Q1 tx a P' Q' ∧ pool_at p2 P' Q' n1 []) →
    ∃ P' Q' n', add_outcome p P Q n tx v.2 p2 P' Q' n').
  { intros v p2 Hg Hv. assert (Hg' : env_grows p p2) by (transitivity p1; [by apply same_env_grows|done]).
    destruct Hv as [[-> Hp2]|(P' & Q' & Ev & Had & Hp2)].
    - exists P1, Q1, n1. split; [done..|]. by exists D, P1, Q1.
    - exists P', Q', n1. split; [done..|]. rewrite Ev. exists D, P1, Q1. split; [done|]. split; [done|]. by exists a. }
  assert (Hres : ∃ v p2, match p_pending p1 !! sender_of tx with
      | Some l => if tl_Overlaps tx l then Ok (replace_pending now (sender_of tx) tx isLocal l p1)
                  else Ok (add_queued now tx local isLocal p1)
      | None => Ok (add_queued now tx local isLocal p1) end = Ok (v, p2) ∧ env_grows p1 p2 ∧
      ((v = (false, Some ErrReplaceUnderpriced) ∧ pool_at p2 P1 Q1 n1 []) ∨
       (∃ P' Q', v.2 = None ∧ admitted P1 Q1 tx a P' Q' ∧ pool_at p2 P' Q' n1 []))).
  { rewrite (sender_of_eq _ _ Hs). pose proof (pi_pending _ _ _ _ _ (proj1 Hp1)) as Hpe.
    assert (Hq : tx_Nonce tx ∉ tx_Nonce <$> P1 a → ∃ v p2, Ok (add_queued now tx local isLocal p1) = Ok (v, p2) ∧
      env_grows p1 p2 ∧ ((v = (false, Some ErrReplaceUnderpriced) ∧ pool_at p2 P1 Q1 n1 []) ∨
       (∃ P' Q', v.2 = None ∧ admitted P1 Q1 tx a P' Q' ∧ pool_at p2 P' Q' n1 []))).
    { intros Hni. pose proof (add_queued_outcome now p1 P1 Q1 n1 tx a local isLocal Hp1 Hs Hn Hf1 Hloc Hni) as Ho.
      destruct (add_queued now tx local isLocal p1) as [v p2]. by exists v, p2. }
    destruct (p_pending p1 !! a) as [l|] eqn:El.
    - destruct (lists_some _ _ _ _ _ Hpe El) as (Htl & _). rewrite (tabs_Overlaps _ _ tx Htl).
      case_bool_decide as Hin; [|by apply Hq].
      pose proof (replace_pending_inv now p1 P1 Q1 n1 tx a l isLocal Hp1 Hs Hn Hf1 Hloc El Hin) as Ho.
      destruct (replace_pending now a tx isLocal l p1) as [v p2]. destruct Ho as [He Hor].
      exists v, p2. split; [done|]. by split.
    - apply Hq. rewrite (lists_none _ _ _ _ Hpe El). apply not_elem_of_nil. }
  destruct Hres as (v & p2 & -> & Hg & Hor). destruct (Hfin v p2 Hg Hor) as (P' & Q' & n' & Ho).
  exists v, p2, P', Q', n'. split; [done|]. split; [done|]. split; [by right|]. intros _. by exists st, a.
Qed.

(** ** Pending lists without gaps *)

(** The pending transactions of an account have consecutive nonces from the account's nonce
    in the state; the next nonce lies within or right after them. *)
Definition executable (P : view) (n : txNoncer) : Prop :=
  ∀ a, tx_Nonce <$> P a = seqZ (GetNonce (nc_fallback n) a) (len (P a)) ∧
    GetNonce (nc_fallback n) a <= next_nonce n a <= GetNonce (nc_fallback n) a + len (P a).

(** After a reorganisation the next nonce is the one after them. *)
Definition settled (P : view) (n : txNoncer) : Prop :=
  ∀ a, tx_Nonce <$> P a = seqZ (GetNonce (nc_fallback n) a) (len (P a)) ∧
    next_nonce n a = GetNonce (nc_fallback n) a + len (P a).

Lemma settled_executable P n : settled P n → executable P n.
Proof. intros Hs a. destruct (Hs a) as [E1 E2]. split; [done|]. pose proof (len_nonneg (P a)). lia. Qed.

Lemma seqZ_below s b k :
  tx_Nonce <$> s = seqZ b (len s) → k ∈ tx_Nonce <$> s →
  tx_Nonce <$> below k s = seqZ b (len (below k s)) ∧ len (below k s) = k - b ∧ b <= k.
Proof.
  revert b. induction s as [|x s IH]; intros b E Hk; [by apply not_elem_of_nil in Hk|].
  assert (Hlen : len (x :: s) = 1 + len s) by (unfold len; cbn; lia). pose proof (len_nonneg s).
  rewrite Hlen, (seqZ_cons b (1 + len s)), fmap_cons in E by lia. injection E as Ex E.
  replace (Z.pred (1 + len s)) with (len s) in E by lia. rewrite <- Z.add_1_r in E.
  unfold below. rewrite filter_cons. rewrite fmap_cons in Hk. apply elem_of_cons in Hk as [->|Hk].
  - rewrite decide_False by lia. rewrite filter_none; [split; [done|]; unfold len; cbn; lia|].
    rewrite Forall_forall. intros y Hy. assert (Hin : tx_Nonce y ∈ seqZ (b + 1) (len s)) by (rewrite <- E; by apply list_elem_of_fmap_2).
    apply elem_of_seqZ in Hin. lia.
  - destruct (IH (b + 1) E Hk) as (E1 & E2 & Hle). rewrite decide_True by lia. unfold below in *.
    assert (Hl : len (x :: filter (λ tx, tx_Nonce tx < k) s) = 1 + len (filter (λ tx, tx_Nonce tx < k) s))
      by (unfold len; cbn; lia).
    rewrite Hl, fmap_cons, E1, Ex, (seqZ_cons b) by lia. split; [|lia]. do 2 f_equal; lia.
Qed.

Definition keeps_runs (P : view) (n : txNoncer) (P' : view) (n' : txNoncer) : Prop :=
  nc_fallback n' = nc_fallback n ∧ (executable P n → executable P' n') ∧ (settled P n → settled P' n').

Lemma keeps_runs_refl P n : keeps_runs P n P n.
Proof. done. Qed.

Lemma keeps_runs_trans P1 n1 P2 n2 P3 n3 :
  keeps_runs P1 n1 P2 n2 → keeps_runs P2 n2 P3 n3 → keeps_runs P1 n1 P3 n3.
Proof. intros (? & ? & ?) (? & ? & ?). split; [congruence|auto]. Qed.

Lemma removal_runs D P Q n P' Q' n' : removal D P Q n P' Q' n' → keeps_runs P n P' n'.
Proof.
  intros Hr. split; [by apply rm_fallback in Hr|].
  split; intros He a; rewrite (rm_fallback _ _ _ _ _ _ _ Hr); destruct (He a) as [Es En];
    (destruct (rm_account _ _ _ _ _ _ _ Hr a) as [[-> ->]|(k & Hk & -> & ->)]; [done|]);
    destruct (seqZ_below _ _ k Es Hk) as (E1 & E2 & Hle).
  - split; [done|]. lia.
  - assert (Hkin : k ∈ seqZ (GetNonce (nc_fallback n) a) (len (P a))) by (by rewrite <- Es).
    apply elem_of_seqZ in Hkin. split; [done|]. lia.
Qed.

Lemma put_sorted_same tx s :
  StronglySorted nonce_lt s → tx_Nonce tx ∈ tx_Nonce <$> s →
  tx_Nonce <$> put_sorted tx s = tx_Nonce <$> s.
Proof.
  induction 1 as [|y s Hs IH Hy]; [by intros ?%not_elem_of_nil|]. rewrite fmap_cons. intros Hin. cbn [put_sorted].
  destruct (Z.ltb_spec (tx_Nonce y) (tx_Nonce tx)) as [Hlt|Hge].
  - apply elem_of_cons in Hin as [?|Hin]; [lia|]. by rewrite fmap_cons, IH.
  - destruct (Z.eqb_spec (tx_Nonce y) (tx_Nonce tx)) as [Heq|Hne]; [by rewrite fmap_cons, Heq|].
    exfalso. apply elem_of_cons in Hin as [?|Hin]; [lia|]. apply list_elem_of_fmap in Hin as (z & Ez & Hz).
    rewrite Forall_forall in Hy. specialize (Hy z Hz). unfold nonce_lt in Hy. lia.
Qed.

Lemma admitted_runs P Q tx a P' Q' n :
  StronglySorted nonce_lt (P a) → admitted P Q tx a P' Q' → keeps_runs P n P' n.
Proof.
  intros Hs [Hin|Hin]; [|done].
  assert (Hb : ∀ b, tx_Nonce <$> (<[a := put_sorted tx (P a)]> P) b = tx_Nonce <$> P b).
  { intros b. destruct (decide (a = b)) as [<-|Hne]; [|by rewrite fn_lookup_insert_ne].
    rewrite fn_lookup_insert. by apply put_sorted_same. }
  split; [done|]. split; intros He b; specialize (He b); rewrite <- (len_fmap tx_Nonce) in He |- *; by rewrite Hb.
Qed.

Lemma removal_sorted D P Q n P' Q' n' a :
  removal D P Q n P' Q' n' → StronglySorted nonce_lt (P a) → StronglySorted nonce_lt (P' a).
Proof.
  intros Hr Hs. destruct (rm_account _ _ _ _ _ _ _ Hr a) as [[-> _]|(k & _ & -> & _)]; [done|]. by apply sorted_filter.
Qed.

Lemma pool_at_sorted p P Q n X a :
  pool_at p P Q n X → StronglySorted nonce_lt (P a) ∧ StronglySorted nonce_lt (Q a).
Proof.
  intros [Hi _]. split; eapply lists_sorted; [apply (pi_pending _ _ _ _ _ Hi)|apply (pi_queue _ _ _ _ _ Hi)].
Qed.

Lemma add_runs p P Q n tx err p' P' Q' n' :
  pool_at p P Q n [] → add_outcome p P Q n tx err p' P' Q' n' → keeps_runs P n P' n'.
Proof.
  intros Hp [_ _ (D & P1 & Q1 & Hr & _ & Hv)]. pose proof (removal_runs _ _ _ _ _ _ _ Hr) as Hk.
  destruct err; [by destruct Hv as [-> ->]|]. destruct Hv as (a & Hs & Had). eapply keeps_runs_trans; [done|].
  eapply (admitted_runs P1 Q1 tx a); [|done]. eapply removal_sorted; [done|]. by destruct (pool_at_sorted _ _ _ _ _ a Hp).
Qed.

(** ** Batches *)

(** What every operation between reorganisations keeps. *)
Record op_outcome (p : TxPool) (P : view) (n : txNoncer) (p' : TxPool) (P' Q' : view) (n' : txNoncer) : Prop := {
  oo_pool : pool_at p' P' Q' n' [];
  oo_env : env_grows p p';
  oo_runs : keeps_runs P n P' n';
}.

Lemma op_outcome_refl p P Q n : pool_at p P Q n [] → op_outcome p P n p P Q n.
Proof. intros Hp. by split. Qed.

Lemma op_outcome_trans p P n p1 P1 Q1 n1 p2 P2 Q2 n2 :
  op_outcome p P n p1 P1 Q1 n1 → op_outcome p1 P1 n1 p2 P2 Q2 n2 → op_outcome p P n p2 P2 Q2 n2.
Proof.
  intros [_ He1 Hr1] [Hp2 He2 Hr2]. split; [done|by etransitivity|by eapply keeps_runs_trans].
Qed.

Definition nonce_ok (tx : Transaction) : Prop := 0 <= tx_Nonce tx < 2 ^ 64 - 1.

Lemma add_op ch now tx local p P Q n :
  pool_at p P Q n [] → nonce_ok tx →
  ∃ v p' P' Q' n', pool_add ch now tx local p = Ok (v, p') ∧ op_outcome p P n p' P' Q' n'.
Proof.
  intros Hp Hn. destruct (add_cases ch now tx local p P Q n Hp Hn) as (v & p' & P' & Q' & n' & E & Ho & _).
  exists v, p', P', Q', n'. split; [done|]. pose proof (add_runs _ _ _ _ _ _ _ _ _ _ Hp Ho). by destruct Ho.
Qed.

Lemma addTxsLocked_op ch now txs local dirty p P Q n :
  pool_at p P Q n [] → Forall nonce_ok txs →
  ∃ errs dirty' p' P' Q' n', addTxsLocked ch now txs local dirty p = Ok (errs, dirty', p') ∧
    op_outcome p P n p' P' Q' n' ∧ length errs = length txs.
Proof.
  revert dirty p P Q n. induction txs as [|tx txs IH]; intros dirty p P Q n Hp Hall; cbn [addTxsLocked].
  { eexists _, _, p, P, Q, n. split; [done|]. split; [by apply op_outcome_refl|done]. }
  apply Forall_cons in Hall as [Htx Hall].
  destruct (add_op ch now tx local p P Q n Hp Htx) as ([r e] & p1 & P1 & Q1 & n1 & -> & Ho). cbn [mbind res_bind].
  destruct (IH (if bool_decide (e = None) && negb r then as_addTx tx dirty else dirty) p1 P1 Q1 n1 (oo_pool _ _ _ _ _ _ _ Ho) Hall)
    as (errs & dirty' & p' & P' & Q' & n' & -> & Ho2 & Hlen). cbn [mbind res_bind].
  eexists _, _, p', P', Q', n'. split; [done|]. split; [by eapply op_outcome_trans|cbn; by rewrite Hlen].
Qed.

(** The errors of the new transactions fill the empty slots in order. *)
Lemma merge_errs_ok (errs newErrs : list (option error)) :
  length newErrs = length (filter (λ e, e = None) errs) →
  ∃ out, merge_errs errs newErrs = Ok out ∧ length out = length errs.
Proof.
  revert newErrs. induction errs as [|e errs IH]; intros [|n newErrs] Hl; [by eexists|done|by eexists|].
  rewrite filter_cons in Hl. destruct e as [e|].
  - rewrite decide_False in Hl by done. destruct (IH (n :: newErrs) Hl) as (out & E & Hlo).
    change (merge_errs (Some e :: errs) (n :: newErrs)) with
      (rest ← merge_errs errs (n :: newErrs); Ok (Some e :: rest)).
    rewrite E. cbn [mbind res_bind]. eexists. split; [done|]. cbn. by rewrite Hlo.
  - rewrite decide_True in Hl by done. cbn in Hl. injection Hl as Hl.
    destruct (IH newErrs Hl) as (out & E & Hlo).
    change (merge_errs (None :: errs) (n :: newErrs)) with (rest ← merge_errs errs newErrs; Ok (n :: rest)).
    rewrite E. cbn [mbind res_bind]. eexists. split; [done|]. cbn. by rewrite Hlo.
Qed.

Lemma addTxs_op ch now txs local p P Q n :
  pool_at p P Q n [] → Forall nonce_ok txs →
  ∃ errs dirty p' P' Q' n', pool_addTxs ch now txs local p = Ok (errs, dirty, p') ∧
    op_outcome p P n p' P' Q' n' ∧ length errs = length txs.
Proof.
  intros Hp Hall. unfold pool_addTxs. set (news := filter (λ tx, preset p tx = None) txs).
  assert (Hnew : Forall nonce_ok news).
  { rewrite Forall_forall in *. intros tx [_ Htx]%list_elem_of_filter. by apply Hall. }
  destruct (addTxsLocked_op ch now news local (newAccountSet []) p P Q n Hp Hnew)
    as (nerrs & dirty & p' & P' & Q' & n' & E & Ho & Hlen).
  destruct (merge_errs_ok (preset p <$> txs) nerrs) as (out & Em & Hout).
  { rewrite Hlen. unfold news. clear. induction txs as [|tx txs IH]; [done|]. rewrite fmap_cons, !filter_cons.
    destruct (decide (preset p tx = None)); cbn; by rewrite IH. }
  rewrite length_fmap in Hout. destruct news as [|x news'] eqn:En.
  - eexists _, _, p, P, Q, n. split; [done|]. split; [by apply op_outcome_refl|by rewrite length_fmap].
  - rewrite <- En in *. rewrite E. cbn [mbind res_bind]. rewrite Em. cbn [mbind res_bind].
    eexists _, _, p', P', Q', n'. by split.
Qed.

(** ** Prices and ages *)

Lemma evicts_op p P Q n p' P' Q' n' : evicts p P Q n p' P' Q' n' → op_outcome p P n p' P' Q' n'.
Proof.
  intros [Hp (D & Hr) He _]. split; [done|by apply same_env_grows|by eapply removal_runs].
Qed.

Lemma gasPrice_inv p P Q S X g : pool_inv p P Q S X → pool_inv (set_gasPrice g p) P Q S X.
Proof. intros []. by split. Qed.

Lemma SetGasPrice_evicts now price cap p P Q n :
  pool_at p P Q n [] →
  ∃ D p' P' Q' n', SetGasPriceWithCap now price cap p = Ok p' ∧ evicts (set_gasPrice price p) P Q n p' P' Q' n' ∧
    removal (px_Hash <$> D) P Q n P' Q' n' ∧ Forall (λ x, tx_GasPrice x < cap) D ∧
    (∀ tx, lk_remotes (p_all p) !! px_Hash tx = Some tx → tx_GasPrice tx < cap → ¬ in_pool P' Q' tx).
Proof.
  intros [Hi En]. unfold SetGasPriceWithCap. set (p1 := set_gasPrice price p).
  assert (Hp1 : pool_at p1 P Q n []) by (split; [by apply gasPrice_inv|done]).
  destruct (cap_loop_cut (length (pl_remotes (p_priced p1))) (p_all p1) cap (p_priced p1) []) as (D & l & E & Hc & HD & Hl);
    [done|apply (pi_heap _ _ _ _ _ (proj1 Hp1))|].
  unfold pl_Cap. rewrite E. cbn [mbind res_bind app].
  destruct (evict_cut now p1 P Q n l D Hp1 Hc) as (p' & P' & Q' & n' & E' & Hp' & Hr & He & Hloc).
  exists D, p', P', Q', n'. split; [done|]. split; [by split; eauto|]. split; [done|]. split; [done|].
  intros tx Htx Hlt Hin. apply (rm_pool _ _ _ _ _ _ _ Hr) in Hin as [Hin Hnot].
  destruct (pi_priced _ _ _ _ _ Hi _ _ Htx) as [Hh|?%not_elem_of_nil]; [|done].
  assert (Hst : is_stale px_Hash (p_all p) tx = false) by (unfold is_stale, lk_GetRemote; by rewrite Htx).
  destruct (hc_keep _ _ _ _ Hc tx Hh Hst) as [Hd|Hd].
  - destruct Hnot. by apply list_elem_of_fmap_2.
  - rewrite Forall_forall in Hl. specialize (Hl tx Hd). lia.
Qed.

Lemma SetGasPrice_op now price cap p P Q n :
  pool_at p P Q n [] → ∃ p' P' Q' n', SetGasPriceWithCap now price cap p = Ok p' ∧ op_outcome p P n p' P' Q' n'.
Proof.
  intros Hp. destruct (SetGasPrice_evicts now price cap p P Q n Hp) as (D & p' & P' & Q' & n' & -> & He & _).
  exists p', P', Q', n'. split; [done|]. apply evicts_op in He as [? [? ? ?] ?]. by split.
Qed.

Lemma update_gas_price_op ch now p P Q n :
  pool_at p P Q n [] → ∃ p' P' Q' n', update_gas_price ch now p = Ok p' ∧ op_outcome p P n p' P' Q' n'.
Proof.
  intros Hp. unfold update_gas_price. destruct (_ <? _); [|exists p, P, Q, n; split; [done|by apply op_outcome_refl]].
  assert (Hfin : ∀ m, (∃ p' P' Q' n', m = Ok p' ∧ op_outcome p P n p' P' Q' n') →
    ∃ p' P' Q' n', (p ← m; Ok (set_lastGasPriceUpdate now p)) = Ok p' ∧ op_outcome p P n p' P' Q' n').
  { intros m (p' & P' & Q' & n' & -> & Ho). cbn [mbind res_bind]. eexists _, P', Q', n'. split; [done|].
    destruct Ho as [[Hi En] [? ? ?] ?]. split; [|by split|done]. split; [|done]. destruct Hi. by split. }
  apply Hfin. destruct (sr_RecommendedMinGasPrice ch) as [np|];
    [|exists p, P, Q, n; split; [done|by apply op_outcome_refl]].
  destruct (negb _); [|exists p, P, Q, n; split; [done|by apply op_outcome_refl]].
  by apply (SetGasPrice_op _ _ _ p P Q n).
Qed.

(** Replacing a list by itself with the cache filled. *)
Lemma flatten_queue p P Q S X a l :
  pool_inv p P Q S X → p_queue p !! a = Some l →
  ∃ l', tl_Flatten l = (Q a, l') ∧ pool_inv (set_queue (<[a := l']> (p_queue p)) p) P Q S X.
Proof.
  intros [? Hqu ? ? ? ? ? ? ?] El. destruct (lists_some _ _ _ _ _ Hqu El) as (Hl & Hst & Hne).
  destruct (tabs_Flatten l (Q a) Hl) as (l' & E & Hl' & Hst'). exists l'. split; [done|]. split; try done.
  eapply lists_ext; [|apply (lists_insert false _ Q a l' (Q a) Hqu)]; [|done|congruence|done].
  intros b. symmetry. apply insert_same.
Qed.

Lemma evict_account_op now a p P Q n :
  pool_at p P Q n [] → is_Some (p_queue p !! a) →
  ∃ p' P' Q' n', evict_account now a p = Ok p' ∧ op_outcome p P n p' P' Q' n' ∧
    (∀ b, a ≠ b → P' b = P b ∧ Q' b = Q b).
Proof.
  intros [Hi En] [l El]. unfold evict_account.
  destruct (as_contains a (p_locals p)); [exists p, P, Q, n; split; [done|by split; [apply op_outcome_refl|]]|].
  destruct (_ <? _); [|exists p, P, Q, n; split; [done|by split; [apply op_outcome_refl|]]].
  rewrite El. cbn [deref mbind res_bind]. destruct (flatten_queue p P Q _ [] a l Hi El) as (l' & -> & Hi').
  destruct (removeTxs_removal now (Q a) (set_queue (<[a := l']> (p_queue p)) p) P Q n [] true)
    as (p' & P' & Q' & n' & -> & Hp' & Hr & He); [done|].
  exists p', P', Q', n'. split; [done|]. split.
  - split; [done|destruct He; by apply same_env_grows; split|by eapply removal_runs].
  - intros b Hne. apply (rm_other _ _ _ _ _ _ _ Hr). intros x Hx (y & Eh & Hy)%list_elem_of_fmap.
    assert (x = y) as ->.
    { eapply all_ok_hash; [apply (pi_all _ _ _ _ _ Hi)|done| |done]. exists a. by right. }
    rewrite (vo_sender _ _ (pi_views _ _ _ _ _ Hi) a y) by (by right). congruence.
Qed.

Lemma queue_some p P Q S X a : pool_inv p P Q S X → is_Some (p_queue p !! a) ↔ Q a ≠ [].
Proof.
  intros Hi. pose proof (pi_queue _ _ _ _ _ Hi a) as Ha. destruct (p_queue p !! a) as [l|].
  - destruct Ha as (_ & _ & ?). split; [done|by eexists].
  - split; [by intros [? ?]|done].
Qed.

Lemma evict_accounts_op now addrs p P Q n :
  pool_at p P Q n [] → NoDup addrs → (∀ a, a ∈ addrs → is_Some (p_queue p !! a)) →
  ∃ p' P' Q' n', evict_accounts now addrs p = Ok p' ∧ op_outcome p P n p' P' Q' n'.
Proof.
  revert p P Q n. induction addrs as [|a addrs IH]; intros p P Q n Hp Hnd Hs; cbn [evict_accounts].
  { exists p, P, Q, n. split; [done|by apply op_outcome_refl]. }
  apply NoDup_cons in Hnd as [Ha Hnd].
  destruct (evict_account_op now a p P Q n Hp (Hs a ltac:(by left))) as (p1 & P1 & Q1 & n1 & -> & Ho & Hoth).
  cbn [mbind res_bind]. destruct (IH p1 P1 Q1 n1 (oo_pool _ _ _ _ _ _ _ Ho) Hnd) as (p2 & P2 & Q2 & n2 & -> & Ho2).
  - intros b Hb. apply (queue_some p1 P1 Q1 _ _ b (proj1 (oo_pool _ _ _ _ _ _ _ Ho))).
    destruct (Hoth b) as [_ ->]; [congruence|]. apply (queue_some p P Q _ _ b (proj1 Hp)). apply Hs. by right.
  - exists p2, P2, Q2, n2. split; [done|]. by eapply op_outcome_trans.
Qed.

Lemma range_keys_NoDup {A} (m : gmap Address A) : NoDup (range_of m).*1.
Proof. rewrite range_of_perm. apply NoDup_fst_map_to_list. Qed.

Lemma range_keys_elem {A} (m : gmap Address A) a : a ∈ (range_of m).*1 ↔ is_Some (m !! a).
Proof.
  rewrite range_of_perm, list_elem_of_fmap. split.
  - intros ([b x] & -> & Hx). apply elem_of_map_to_list in Hx. by exists x.
  - intros [x Hx]. exists (a, x). split; [done|]. by apply elem_of_map_to_list.
Qed.

Lemma evict_op now p P Q n :
  pool_at p P Q n [] → ∃ p' P' Q' n', evict now p = Ok p' ∧ op_outcome p P n p' P' Q' n'.
Proof.
  intros Hp. apply (evict_accounts_op now _ p P Q n Hp (range_keys_NoDup _)). intros a. by rewrite range_keys_elem.
Qed.
End ops.
