(* ===== verification/PoolReorg.v ===== *)
(** * Reorganisation of the transaction pool (evmcore/tx_pool.go)

    Promotion, demotion, truncation, the reset to a new head and their composition
    [runReorg]: the invariant of [PoolInv] is kept and nothing panics, the configured limits
    hold afterwards, and along a chain that only grows the pending transactions of every
    account are executable one after the other. *)

From stdpp Require Import sorting functions.
From S2P Require Import Prelude Cser Inter TxSer Pos Heap EvmState EvmChain TxList TxPool PoolInv PoolOps.

Section reorg.
Context `{MapRangeLaws} `{GoHeapLaws Z nonce_less} `{GoHeapLaws Transaction price_less} `{PoolTx} `{GasTable}.
Context `{PrqueLaws} `{SortBeatsLaws}.

Notation view := (Address → list Transaction).
Notation tabs := (tl_abs px_Cost).
Notation state_nonce n := (GetNonce (nc_fallback n)).

(** ** Operations that do not look at a map of lists *)

Lemma all_Removes_queue txs q p : all_Removes txs (set_queue q p) = set_queue q (all_Removes txs p).
Proof. revert p. induction txs as [|tx txs IH]; intros p; [done|]. exact (IH (all_Remove (px_Hash tx) p)). Qed.

Lemma all_Removes_pending txs m p : all_Removes txs (set_pending m p) = set_pending m (all_Removes txs p).
Proof. revert p. induction txs as [|tx txs IH]; intros p; [done|]. exact (IH (all_Remove (px_Hash tx) p)). Qed.

Lemma all_Removes_fields txs p :
  let p' := all_Removes txs p in
  p_config p' = p_config p ∧ p_head p' = p_head p ∧ p_locals p' = p_locals p ∧ p_pendingNonces p' = p_pendingNonces p ∧
  p_queue p' = p_queue p ∧ p_pending p' = p_pending p ∧ p_events p' = p_events p ∧
  p_gasPrice p' = p_gasPrice p ∧ p_beats p' = p_beats p.
Proof.
  cbn zeta. revert p. induction txs as [|tx txs IH]; intros p; cbn [all_Removes foldl]; [done|].
  destruct (IH (all_Remove (px_Hash tx) p)) as (? & ? & ? & ? & ? & ? & ? & ? & ?). done.
Qed.

Definition on_snd {A B C} (f : B → C) (m : res (A * B)) : res (A * C) := '(x, y) ← m; Ok (x, f y).

Lemma promoteTx_queue now a h tx q p :
  promoteTx now a h tx (set_queue q p) = on_snd (set_queue q) (promoteTx now a h tx p).
Proof.
  unfold promoteTx. cbn [p_pending set_queue p_config]. destruct (tl_Add _ _ _ _) as [[[] old] l]; [|done].
  cbn [negb]. unfold pool_set_nonce. destruct old as [o|]; cbn; destruct (p_pendingNonces p); done.
Qed.

Lemma promote_readies_queue now a rs acc q p :
  promote_readies now a rs acc (set_queue q p) = on_snd (set_queue q) (promote_readies now a rs acc p).
Proof.
  revert acc p. induction rs as [|tx rs IH]; intros acc p; cbn [promote_readies]; [done|].
  rewrite promoteTx_queue. unfold on_snd. destruct (promoteTx now a (px_Hash tx) tx p) as [[ok p']| |]; cbn; [|done..].
  rewrite IH. done.
Qed.

(** ** Promotion *)

Lemma next_nonce_set n a b k : next_nonce (noncer_set a k n) b = if bool_decide (a = b) then k else next_nonce n b.
Proof.
  unfold next_nonce, noncer_set, nc_set. cbn. case_bool_decide as E; [subst; by rewrite lookup_insert_eq|by rewrite lookup_insert_ne].
Qed.

Lemma noncer_get_spec n a :
  ∃ n', noncer_get a n = (next_nonce n a, n') ∧ nc_fallback n' = nc_fallback n ∧ ∀ b, next_nonce n' b = next_nonce n b.
Proof.
  unfold noncer_get, nc_get, next_nonce. destruct (nc_nonces n !! a) as [k|] eqn:E.
  - rewrite E. cbn [default]. eexists. split; [done|]. done.
  - rewrite lookup_insert_eq. eexists. split; [done|]. split; [done|]. intros b. cbn.
    destruct (decide (a = b)) as [<-|Hne]; [by rewrite lookup_insert_eq, E|by rewrite lookup_insert_ne].
Qed.

Lemma promote_fresh now p P Q S X n a tx h :
  pool_inv p P Q S X → p_pendingNonces p = Some n → px_Sender tx = Some a → nonce_ok tx →
  tx_Nonce tx ∉ tx_Nonce <$> P a → tx_Nonce tx ∉ tx_Nonce <$> Q a →
  ∃ p', promoteTx now a h tx p = Ok (true, p') ∧ pool_inv p' (<[a := put_sorted tx (P a)]> P) Q S X ∧
    p_pendingNonces p' = Some (noncer_set a (tx_Nonce tx + 1) n) ∧ same_env p p' ∧ p_queue p' = p_queue p.
Proof.
  intros Hi En Hs Hn HnP HnQ. pose proof Hi as [Hpe Hqu Hv Ha Hh Hp Hr Hst Hc]. unfold promoteTx, nonce_ok in *.
  destruct (lists_of _ _ _ a Hpe) as [Htl Hstr].
  destruct (tabs_Add_fresh _ _ tx (PriceBump (p_config p)) Htl) as (l' & -> & Hl' & Hst');
    [unfold is_u64; lia|apply Hc|done|]. cbn [negb].
  unfold pool_set_nonce. cbn [p_pendingNonces set_pending]. rewrite En. cbn [deref mbind res_bind].
  rewrite u64_id by (unfold is_u64; lia). eexists. split; [done|].
  assert (Hi1 : pool_inv (set_pending (<[a := l']> (p_pending p)) p) (<[a := put_sorted tx (P a)]> P) Q S X).
  { split; try done.
    - apply lists_insert; [done..|congruence|apply put_sorted_nonempty].
    - apply views_pending; [done|]. intros x Hx.
      apply put_sorted_elem in Hx as [->|[Hx _]]; [done| |by eapply tabs_sorted].
      split; [by eapply vo_sender; eauto|]. split; [by eapply vo_nonce; eauto|]. by apply (views_nonces_pending P Q a x Hv). }
  split; [|done]. apply beats_inv. by eapply nonces_inv.
Qed.

(** The next nonce after promoting a list. *)
Definition promoted_noncer (a : Address) (rs : list Transaction) (n : txNoncer) : txNoncer :=
  foldl (λ n tx, noncer_set a (tx_Nonce tx + 1) n) n rs.

Lemma promote_readies_spec now a rs acc p P Q S X n :
  pool_inv p P Q S X → p_pendingNonces p = Some n → NoDup (tx_Nonce <$> rs) →
  (∀ tx, tx ∈ rs → px_Sender tx = Some a ∧ nonce_ok tx ∧ tx_Nonce tx ∉ tx_Nonce <$> P a ∧ tx_Nonce tx ∉ tx_Nonce <$> Q a) →
  ∃ p', promote_readies now a rs acc p = Ok (acc ++ rs, p') ∧ pool_inv p' (<[a := enq rs (P a)]> P) Q S X ∧
    p_pendingNonces p' = Some (promoted_noncer a rs n) ∧ same_env p p' ∧ p_queue p' = p_queue p.
Proof.
  revert acc p P n. induction rs as [|tx rs IH]; intros acc p P n Hi En Hnd Hrs; cbn [promote_readies].
  { exists p. rewrite app_nil_r. split; [done|]. split; [|done]. eapply pool_inv_ext; [|done|exact Hi].
    intros b. apply insert_same. }
  rewrite fmap_cons in Hnd. apply NoDup_cons in Hnd as [Hnin Hnd]. destruct (Hrs tx ltac:(by left)) as (Hs & Hn & HnP & HnQ).
  destruct (promote_fresh now p P Q S X n a tx (px_Hash tx) Hi En Hs Hn HnP HnQ) as (p1 & -> & Hi1 & En1 & He1 & Eq1).
  cbn [mbind res_bind]. destruct (IH (acc ++ [tx]) p1 (<[a := put_sorted tx (P a)]> P) _ Hi1 En1 Hnd) as (p' & E & Hi' & En' & He' & Eq').
  - intros x Hx. destruct (Hrs x ltac:(by right)) as (? & ? & HxP & ?). split; [done|]. split; [done|]. split; [|done].
    rewrite fn_lookup_insert, list_elem_of_fmap. intros (y & Ey & Hy).
    apply put_sorted_elem in Hy as [->|[Hy _]]; [| |by eapply lists_sorted, (pi_pending _ _ _ _ _ Hi)].
    + destruct Hnin. rewrite <- Ey. by apply list_elem_of_fmap_2.
    + destruct HxP. rewrite Ey. by apply list_elem_of_fmap_2.
  - exists p'. rewrite <- app_assoc in E. split; [done|].
    split; [|split; [done|split; [by etransitivity|congruence]]]. eapply pool_inv_ext; [|done|exact Hi'].
    intros b. rewrite fn_lookup_insert. cbn [enq foldl].
    destruct (decide (a = b)) as [<-|Hne]; [by rewrite !fn_lookup_insert|by rewrite !fn_lookup_insert_ne].
Qed.

(** The transactions an account can pay for, and those it cannot. *)
Definition payable (st : StateView) (gas : Z) (a : Address) (tx : Transaction) : bool :=
  negb (over_limit px_Cost (GetBalance st a) gas tx).
Definition pays st gas a (s : list Transaction) := filter (λ tx, payable st gas a tx = true) s.
Definition unpaid st gas a (s : list Transaction) := filter (λ tx, payable st gas a tx = false) s.

Lemma sorted_perm_eq s s' :
  StronglySorted nonce_lt s → StronglySorted nonce_lt s' → s ≡ₚ s' → s = s'.
Proof.
  intros Hs Hs'. assert (AntiSymm (=) nonce_lt) by (intros x y; unfold nonce_lt; lia).
  by apply (StronglySorted_unique nonce_lt).
Qed.

Lemma payable_over st gas a tx b :
  payable st gas a tx = b ↔ over_limit px_Cost (GetBalance st a) gas tx = negb b.
Proof. unfold payable. destruct (over_limit _ _ _ _), b; naive_solver. Qed.

Lemma tabs_Filter_loose l s st gas a :
  tabs l s → tl_strict l = false →
  ∃ drops l', tl_Filter px_Cost (GetBalance st a) gas l = (drops, [], l') ∧ drops ≡ₚ unpaid st gas a s ∧
    tabs l' (pays st gas a s) ∧ tl_strict l' = false.
Proof.
  intros Hl Hst. destruct (txlist_filter_exact px_Cost l s (GetBalance st a) gas Hl) as
    (drops & inv & l' & s' & E & Hl' & Hst' & Hd & Hk & Hni & _).
  rewrite (Hni Hst) in E, Hk. cbn [app] in Hk. exists drops, l'. split; [done|]. split.
  - rewrite Hd. unfold unpaid. erewrite list_filter_iff; [done|]. intros x. by rewrite payable_over.
  - split; [|congruence]. assert (pays st gas a s = s') as ->; [|done].
    apply sorted_perm_eq; [apply sorted_filter; by eapply tabs_sorted|by eapply tabs_sorted|]. rewrite Hk.
    unfold pays. erewrite list_filter_iff; [done|]. intros x. by rewrite payable_over.
Qed.

Lemma tabs_Filter_strict l s st gas a :
  tabs l s → tl_strict l = true →
  ∃ drops invalids l' s' rest, tl_Filter px_Cost (GetBalance st a) gas l = (drops, invalids, l') ∧
    tabs l' s' ∧ tl_strict l' = true ∧ s = s' ++ rest ∧ drops ≡ₚ unpaid st gas a s ∧
    invalids ++ s' ≡ₚ pays st gas a s ∧ (Forall (λ tx, payable st gas a tx = true) s → rest = []).
Proof.
  intros Hl Hst. destruct (txlist_filter_exact px_Cost l s (GetBalance st a) gas Hl) as
    (drops & inv & l' & s' & E & Hl' & Hst' & Hd & Hk & _ & Hstr). destruct (Hstr Hst) as (rest & Es & Hrest).
  exists drops, inv, l', s', rest. split; [done|]. split; [done|]. split; [congruence|]. split; [done|]. split.
  - rewrite Hd. unfold unpaid. erewrite list_filter_iff; [done|]. intros x. by rewrite payable_over.
  - split.
    + rewrite Hk. unfold pays. erewrite list_filter_iff; [done|]. intros x. by rewrite payable_over.
    + intros Hall. destruct rest as [|y rest]; [done|]. specialize (Hrest y eq_refl). rewrite Es in Hall.
      apply Forall_app in Hall as [_ Hy%Forall_inv]. apply payable_over in Hy. cbn in Hy. congruence.
Qed.

Lemma set_queue_id q p : set_queue (p_queue p) (set_queue q p) = p.
Proof. by destruct p. Qed.
Lemma set_pending_id m p : set_pending (p_pending p) (set_pending m p) = p.
Proof. by destruct p. Qed.

Lemma pays_unpaid st gas a s : unpaid st gas a s ++ pays st gas a s ≡ₚ s.
Proof.
  unfold unpaid, pays. induction s as [|x s IH]; [done|]. rewrite !filter_cons.
  destruct (payable st gas a x) eqn:E.
  - rewrite decide_False, decide_True by done. by rewrite <- Permutation_middle, IH.
  - rewrite decide_True, decide_False by done. cbn. by rewrite IH.
Qed.

(** The lists of an account after its promotion. *)
Definition queue_limit (p : TxPool) (a : Address) (s : list Transaction) : list Transaction :=
  if as_contains a (p_locals p) then s else take (Z.to_nat (AccountQueue (p_config p))) s.
Definition over_queue (p : TxPool) (a : Address) (s : list Transaction) : list Transaction :=
  if as_contains a (p_locals p) then [] else reverse (drop (Z.to_nat (AccountQueue (p_config p))) s).
Definition promotable (p : TxPool) (Q : view) (st : StateView) (a : Address) : list Transaction :=
  pays st (ph_currentMaxGas (p_head p)) a (from (GetNonce st a) (Q a)).

Lemma queue_limit_app p a s : queue_limit p a s ++ over_queue p a s ≡ₚ s.
Proof.
  unfold queue_limit, over_queue. destruct (as_contains _ _); [by rewrite app_nil_r|].
  by rewrite reverse_Permutation, take_drop.
Qed.

Lemma sorted_sublist_NoDup s : StronglySorted nonce_lt s → NoDup s.
Proof. intros Hs. apply sorted_NoDup in Hs. by apply NoDup_fmap_1 in Hs. Qed.

(** What promotion takes out of the table is exactly what leaves the lists. *)
Lemma promote_pool (P Q : view) a rs keep D x :
  views_ok P Q → StronglySorted nonce_lt (P a) → StronglySorted nonce_lt (Q a) →
  Q a ≡ₚ D ++ rs ++ keep →
  in_pool P Q x ∧ x ∉ D ↔ in_pool (<[a := enq rs (P a)]> P) (<[a := keep]> Q) x.
Proof.
  intros Hv HsP HsQ Hdec. pose proof (sorted_NoDup _ HsQ) as HndQ.
  assert (HinQ : ∀ y, y ∈ Q a ↔ y ∈ D ∨ y ∈ rs ∨ y ∈ keep) by (intros y; rewrite Hdec, !elem_of_app; tauto).
  assert (Hnd : NoDup (D ++ rs ++ keep)) by (rewrite <- Hdec; by apply sorted_sublist_NoDup).
  apply NoDup_app in Hnd as (_ & HnD & _).
  assert (Henq : x ∈ enq rs (P a) ↔ x ∈ rs ∨ x ∈ P a).
  { apply enq_elem; [done|..].
    - rewrite Hdec, !fmap_app in HndQ. by apply NoDup_app in HndQ as (_ & _ & (? & _ & _)%NoDup_app).
    - intros t Ht. apply (views_nonces P Q a t Hv). apply HinQ. tauto. }
  assert (HP : ∀ y, y ∈ P a → y ∉ D).
  { intros y Hy HyD. apply (vo_disj _ _ Hv a y y Hy); [apply HinQ; tauto|done]. }
  rewrite update_in_pool; [|done|].
  - rewrite Henq. split.
    + intros [Hx HxD]. destruct (decide (px_Sender x = Some a)) as [Hs|Hs]; [|tauto].
      apply (in_pool_sender P Q x a Hv Hs) in Hx as [Hx|Hx]; [tauto|]. apply HinQ in Hx. tauto.
    + intros [[Hx|Hx]|[Hx|[Hs Hx]]].
      * split; [exists a; right; apply HinQ; tauto|]. intros HxD. apply (HnD x HxD), elem_of_app. by left.
      * split; [exists a; by left|]. by apply HP.
      * split; [exists a; right; apply HinQ; tauto|]. intros HxD. apply (HnD x HxD), elem_of_app. by right.
      * split; [done|]. intros HxD. apply Hs. eapply vo_sender; [done|]. right. apply HinQ. tauto.
  - intros y [Hy|Hy]; [|eapply vo_sender; [done|]; right; apply HinQ; tauto].
    apply enq_elem in Hy; [|done|..].
    + eapply vo_sender; [done|]. destruct Hy; [right; apply HinQ; tauto|by left].
    + rewrite Hdec, !fmap_app in HndQ. by apply NoDup_app in HndQ as (_ & _ & (? & _ & _)%NoDup_app).
    + intros t Ht. apply (views_nonces P Q a t Hv). apply HinQ. tauto.
Qed.

Lemma promote_account_none now a acc p : p_queue p !! a = None → promote_account now a acc p = Ok (acc, p).
Proof. intros E. unfold promote_account. by rewrite E. Qed.

(** The lists of the account before anything is promoted, cut out of the pool. *)
Lemma cut_queue p P Q S X a :
  pool_inv p P Q S X → pool_inv (set_queue (delete a (p_queue p)) p) P (<[a := []]> Q) S X.
Proof.
  intros [? ? Hv ? ? ? ? ? ?]. split; try done; [by apply lists_delete|]. apply views_queue; [done|].
  by intros tx ?%not_elem_of_nil.
Qed.

Lemma paste_queue p P Q S X a q l s :
  pool_inv (set_queue (delete a q) p) P (<[a := []]> Q) S X → lists_at false q Q → tabs l s → tl_strict l = false →
  (∀ tx, tx ∈ s → px_Sender tx = Some a ∧ nonce_ok tx ∧ tx_Nonce tx ∉ tx_Nonce <$> P a) →
  pool_inv (if tl_Empty l then set_beats (delete a (p_beats p)) (set_queue (delete a q) p)
            else set_queue (<[a := l]> q) p) P (<[a := s]> Q) S X.
Proof.
  intros [? ? Hv ? ? ? ? ? ?] Hq Hl Hst Hs. pose proof (lists_settle false q Q a l s Hq Hl Hst) as Hls.
  assert (Hv' : views_ok P (<[a := s]> Q)).
  { eapply views_ext; [done| |apply (views_queue P (<[a := []]> Q) a s Hv Hs)]. intros b.
    destruct (decide (a = b)) as [<-|Hne]; [by rewrite !fn_lookup_insert|by rewrite !fn_lookup_insert_ne]. }
  destruct (tl_Empty l); by split.
Qed.

Lemma cap_queue p P Q S X a l s :
  pool_inv p P Q S X → tabs l s → tl_strict l = false →
  ∃ l', (if as_contains a (p_locals p) then Ok ([], l) else tl_Cap (i64 (AccountQueue (p_config p))) l)
      = Ok (over_queue p a s, l') ∧ tabs l' (queue_limit p a s) ∧ tl_strict l' = false.
Proof.
  intros Hi Hl Hst. unfold over_queue, queue_limit. destruct (as_contains a (p_locals p)); [by exists l|].
  pose proof (co_queue _ (pi_config _ _ _ _ _ Hi)). rewrite i64_id by (unfold is_i64; lia).
  destruct (tabs_Cap l s (AccountQueue (p_config p)) Hl) as (l' & -> & Hl' & Hst'); [lia|].
  exists l'. split; [done|]. split; [done|congruence].
Qed.

Lemma promote_readies_same_queue now a rs acc p acc' p' :
  promote_readies now a rs acc p = Ok (acc', p') → p_queue p' = p_queue p.
Proof.
  intros E. pose proof (promote_readies_queue now a rs acc (p_queue p) p) as Hq.
  replace (set_queue (p_queue p) p) with p in Hq by (by destruct p). rewrite E in Hq. cbn in Hq. injection Hq as Hq.
  by rewrite Hq.
Qed.

(** The parts into which promotion splits the queue of an account. *)
Record queue_parts (q B D R K O : list Transaction) : Prop := {
  qp_perm : q ≡ₚ B ++ D ++ R ++ K ++ O;
  qp_sorted : StronglySorted nonce_lt q;
}.

Lemma queue_parts_NoDup q B D R K O :
  queue_parts q B D R K O →
  NoDup B ∧ NoDup D ∧ NoDup O ∧ NoDup (tx_Nonce <$> R) ∧ (∀ x, x ∈ D → x ∉ B) ∧ (∀ x, x ∈ O → x ∉ B ∧ x ∉ D).
Proof.
  intros [Hp Hs]. pose proof (sorted_sublist_NoDup _ Hs) as Hnd. pose proof (sorted_NoDup _ Hs) as HndN.
  rewrite Hp in Hnd. rewrite Hp, !fmap_app in HndN.
  apply NoDup_app in HndN as (_ & _ & (_ & _ & (? & _ & _)%NoDup_app)%NoDup_app).
  apply NoDup_app in Hnd as (? & Hb & (? & Hd & (_ & _ & (_ & _ & ?)%NoDup_app)%NoDup_app)%NoDup_app).
  split_and!; try done.
  - intros x Hx Hx'. apply (Hb x Hx'). rewrite elem_of_app. tauto.
  - intros x Hx. split; intros Hx'; [apply (Hb x Hx')|apply (Hd x Hx')]; rewrite !elem_of_app; tauto.
Qed.

Lemma queue_parts_in q B D R K O x : queue_parts q B D R K O → x ∈ q ↔ x ∈ B ∨ x ∈ D ∨ x ∈ R ∨ x ∈ K ∨ x ∈ O.
Proof. intros [Hp _]. rewrite Hp, !elem_of_app. tauto. Qed.

(** Everything after the split, on the pool with the queue of the account cut out. *)
Lemma promote_parts now a acc p P Q n n1 B D R K O l c :
  pool_at p P Q n [] → queue_parts (Q a) B D R K O →
  nc_fallback n1 = nc_fallback n → tabs l K → tl_strict l = false →
  ∃ p2 n2, promote_readies now a R acc (set_pendingNonces (Some n1) (all_Removes D (all_Removes B p))) = Ok (acc ++ R, p2) ∧
    same_env p p2 ∧ p_queue p2 = p_queue p ∧
    let p3 := priced_Removed c (all_Removes O p2) in
    let p4 := if tl_Empty l then set_beats (delete a (p_beats p3)) (set_queue (delete a (p_queue p3)) p3)
              else set_queue (<[a := l]> (p_queue p3)) p3 in
    pool_at p4 (<[a := enq R (P a)]> P) (<[a := K]> Q) n2 [] ∧ same_env p p4 ∧ n2 = promoted_noncer a R n1.
Proof.
  intros [Hi En] Hqp Hfb Hl Hst. pose proof Hi as [Hpe Hqu Hv _ _ _ _ _ _].
  destruct (queue_parts_NoDup _ _ _ _ _ _ Hqp) as (HB & HD & HO & HR & HDB & HOB).
  assert (Hin : ∀ x, x ∈ B ∨ x ∈ D ∨ x ∈ R ∨ x ∈ K ∨ x ∈ O → x ∈ Q a)
    by (intros x Hx; by apply (queue_parts_in _ _ _ _ _ _ x Hqp)).
  set (q0 := delete a (p_queue p)). set (p1 := all_Removes D (all_Removes B p)).
  assert (Hi1 : pool_inv (set_queue q0 p1) P (<[a := []]> Q) (λ x, (in_pool P Q x ∧ x ∉ B) ∧ x ∉ D) []).
  { unfold p1. rewrite <- !all_Removes_queue. apply all_Removes_inv; [apply all_Removes_inv; [by apply cut_queue|done|]|done|].
    - intros x Hx. exists a. right. apply Hin. tauto.
    - intros x Hx. split; [exists a; right; apply Hin; tauto|by apply HDB]. }
  assert (He1 : p_pendingNonces p1 = Some n ∧ same_env p p1 ∧ p_queue p1 = p_queue p).
  { unfold p1. destruct (all_Removes_fields D (all_Removes B p)) as (? & ? & ? & ? & ? & ? & ? & ? & _).
    destruct (all_Removes_fields B p) as (? & ? & ? & ? & ? & ? & ? & ? & _). cbn zeta in *.
    split; [congruence|]. split; [split|]; congruence. }
  destruct He1 as (En1 & He1 & Eq1).
  assert (Hi2 : pool_inv (set_queue q0 (set_pendingNonces (Some n1) p1)) P (<[a := []]> Q)
    (λ x, (in_pool P Q x ∧ x ∉ B) ∧ x ∉ D) []).
  { change (set_queue q0 (set_pendingNonces (Some n1) p1)) with (set_pendingNonces (Some n1) (set_queue q0 p1)).
    by eapply nonces_inv. }
  destruct (promote_readies_spec now a R acc _ P (<[a := []]> Q) _ [] n1 Hi2 eq_refl HR) as (p2' & E2 & Hi3 & En3 & He3 & _).
  { intros x Hx. assert (HxQ : x ∈ Q a) by (apply Hin; tauto). split; [by eapply vo_sender; eauto|].
    split; [by eapply vo_nonce; eauto|]. split; [by apply (views_nonces P Q a x Hv)|].
    rewrite fn_lookup_insert. apply not_elem_of_nil. }
  rewrite promote_readies_queue in E2. unfold on_snd in E2.
  destruct (promote_readies now a R acc (set_pendingNonces (Some n1) p1)) as [[acc' p2]| |] eqn:E; cbn in E2; try done.
  injection E2 as -> <-. exists p2, (promoted_noncer a R n1). split; [done|].
  assert (He2 : same_env p p2) by (destruct He1, He3; split; cbn in *; congruence).
  assert (Eq2 : p_queue p2 = p_queue p) by (apply promote_readies_same_queue in E; cbn in E; congruence).
  split; [done|]. split; [done|]. cbn zeta.
  assert (Hi4 : pool_inv (set_queue q0 (priced_Removed c (all_Removes O p2))) (<[a := enq R (P a)]> P) (<[a := []]> Q)
    (λ x, ((in_pool P Q x ∧ x ∉ B) ∧ x ∉ D) ∧ x ∉ O) []).
  { change (set_queue q0 (priced_Removed c (all_Removes O p2))) with (priced_Removed c (set_queue q0 (all_Removes O p2))).
    apply priced_Removed_inv. rewrite <- all_Removes_queue. apply all_Removes_inv; [done|done|].
    intros x Hx. split; [split; [exists a; right; apply Hin; tauto|]|]; by apply HOB. }
  set (p3 := priced_Removed c (all_Removes O p2)) in *.
  assert (He3' : same_env p p3 ∧ p_queue p3 = p_queue p ∧ p_pendingNonces p3 = Some (promoted_noncer a R n1)).
  { destruct (all_Removes_fields O p2) as (? & ? & ? & ? & ? & ? & ? & ? & _). cbn zeta in *. cbn in En3. destruct He2.
    split; [split; cbn; congruence|]. split; cbn; congruence. }
  destruct He3' as (He4 & Eq3 & En4). rewrite Eq3 in *.
  pose proof (paste_queue p3 _ Q _ [] a (p_queue p) l K Hi4 Hqu Hl Hst) as Hfin.
  split; [|split; [|done]].
  - split; [|by destruct (tl_Empty l)]. eapply pool_inv_iff; [|apply Hfin].
    + intros x. rewrite <- (promote_pool P Q a R K (B ++ D ++ O) x Hv).
      * rewrite !not_elem_of_app. tauto.
      * by eapply lists_sorted.
      * by eapply lists_sorted.
      * rewrite (qp_perm _ _ _ _ _ _ Hqp), <- !app_assoc. do 2 f_equiv. rewrite app_assoc. apply Permutation_app_comm.
    + intros x Hx. assert (HxQ : x ∈ Q a) by (apply Hin; tauto). split; [by eapply vo_sender; eauto|].
      split; [by eapply vo_nonce; eauto|]. rewrite fn_lookup_insert, list_elem_of_fmap. intros (y & Ey & Hy).
      apply enq_elem in Hy; [|by eapply lists_sorted|done|].
      * destruct Hy as [Hy|Hy].
        -- destruct Hqp as [Hp Hs]. pose proof (sorted_NoDup _ Hs) as Hn. rewrite Hp, !fmap_app in Hn.
           apply NoDup_app in Hn as (_ & _ & (_ & _ & (_ & Hn & _)%NoDup_app)%NoDup_app).
           apply (Hn (tx_Nonce y)); [by apply list_elem_of_fmap_2|]. rewrite <- Ey, elem_of_app. left. by apply list_elem_of_fmap_2.
        -- by apply (vo_disj _ _ Hv a y x).
      * intros t Ht. apply (views_nonces P Q a t Hv). apply Hin. tauto.
  - destruct He4. destruct (tl_Empty l); by split.
Qed.

(** Promotion of one account: from its queue, without the nonces the state has passed and
    the transactions it cannot pay for, the run from the next nonce becomes pending; the
    rest is cut to the limit of the queue, unless the account is local. *)
Lemma promote_account_spec now a acc p P Q n st l :
  pool_at p P Q n [] → state_ok p st n → p_queue p !! a = Some l →
  let '(rs, rest) := ready_spec (next_nonce n a) (promotable p Q st a) in
  ∃ p' n', promote_account now a acc p = Ok (acc ++ rs, p') ∧
    pool_at p' (<[a := enq rs (P a)]> P) (<[a := queue_limit p a rest]> Q) n' [] ∧ same_env p p' ∧
    nc_fallback n' = nc_fallback n ∧
    (∀ b, next_nonce n' b = next_nonce (promoted_noncer a rs n) b).
Proof.
  intros Hp (Est & _ & Hfb) El. pose proof Hp as [Hi En]. pose proof Hi as [Hpe Hqu Hv _ _ _ _ _ _].
  destruct (lists_some _ _ _ _ _ Hqu El) as (Hl & Hlst & _). pose proof (tabs_sorted _ _ Hl) as HsQ.
  unfold promotable. set (gas := ph_currentMaxGas (p_head p)). set (k := GetNonce st a). set (s := pays st gas a _).
  unfold promote_account. rewrite El, Est. cbn [deref mbind res_bind]. fold k.
  destruct (tabs_Forward l (Q a) k Hl) as (l1 & -> & Hl1 & Hst1). cbn [mbind res_bind].
  destruct (all_Removes_fields (below k (Q a)) p) as (Ec & Eh & Elo & Eno & _). cbn zeta in *. rewrite Eh. fold gas.
  destruct (tabs_Filter_loose l1 (from k (Q a)) st gas a Hl1 ltac:(congruence)) as (drops & l2 & -> & Hdr & Hl2 & Hst2).
  fold s in Hl2. destruct (noncer_get_spec n a) as (n1 & Eget & Hfb1 & Hnx1).
  set (p1 := all_Removes drops (all_Removes (below k (Q a)) p)).
  assert (Enn : p_pendingNonces p1 = Some n).
  { unfold p1. destruct (all_Removes_fields drops (all_Removes (below k (Q a)) p)) as (_ & _ & _ & E & _).
    cbn zeta in E. congruence. }
  unfold pool_nonce. rewrite Enn. cbn [deref mbind res_bind]. rewrite Eget. cbn [mbind res_bind].
  destruct (tabs_Ready l2 s (next_nonce n a) Hl2) as (l3 & -> & Hl3 & Hst3). cbn [mbind res_bind].
  pose proof (ready_app (next_nonce n a) s) as Hra. destruct (ready_spec (next_nonce n a) s) as [rs rest] eqn:Ers.
  cbn [fst snd] in *. assert (Hl3st : tl_strict l3 = false) by congruence.
  destruct (cap_queue p P Q _ [] a l3 rest Hi Hl3 Hl3st) as (l4 & Ecap & Hl4 & Hst4).
  assert (Hqp : queue_parts (Q a) (below k (Q a)) drops rs (queue_limit p a rest) (over_queue p a rest)).
  { split; [|done]. rewrite queue_limit_app, Hra, Hdr. unfold s. rewrite pays_unpaid. by rewrite below_from. }
  subst p1. destruct (promote_parts now a acc p P Q n n1 _ _ _ _ _ l4 (len (below k (Q a)) + len drops + len (over_queue p a rest))
    Hp Hqp Hfb1 Hl4 Hst4) as (p2 & n2 & -> & He2 & Eq2 & Hfin). cbn [mbind res_bind].
  rewrite (se_locals _ _ He2), (se_config _ _ He2), Ecap. cbn [mbind res_bind]. destruct Hfin as (Hp4 & He4 & ->).
  eexists _, _. split; [done|]. split; [exact Hp4|]. split; [done|].
  assert (Hpn : ∀ m m' b, nc_fallback m' = nc_fallback m → (∀ b, next_nonce m' b = next_nonce m b) →
    nc_fallback (promoted_noncer a rs m') = nc_fallback m ∧
    next_nonce (promoted_noncer a rs m') b = next_nonce (promoted_noncer a rs m) b).
  { clear. induction rs as [|x rs IH]; intros m m' b Hf Hn; [done|]. cbn [promoted_noncer foldl].
    apply (IH (noncer_set a (tx_Nonce x + 1) m)); [done|]. intros c. rewrite !next_nonce_set. by rewrite Hn. }
  split; [by apply (Hpn n n1 a)|]. intros b. by apply Hpn.
Qed.

(** *** Runs *)

Definition live_part (P : view) (n : txNoncer) : view := λ a, from (state_nonce n a) (P a).

(** What is promoted continues the pending run. *)
Lemma promoted_next a rs n b :
  next_nonce (promoted_noncer a rs n) b =
    if bool_decide (a = b) then default (next_nonce n a) ((λ tx, tx_Nonce tx + 1) <$> last rs) else next_nonce n b.
Proof.
  revert n. induction rs as [|x rs IH] using rev_ind; intros n.
  { cbn. case_bool_decide as E; [by subst|done]. }
  unfold promoted_noncer in *. rewrite foldl_app, last_snoc. cbn [foldl fmap option_fmap option_map default].
  rewrite next_nonce_set, IH. by case_bool_decide.
Qed.

Lemma seqZ_lookup_nonces rs b :
  (∀ (i : nat) t, rs !! i = Some t → tx_Nonce t = b + Z.of_nat i) → tx_Nonce <$> rs = seqZ b (len rs).
Proof.
  intros Hi. apply list_eq. intros i. rewrite list_lookup_fmap. destruct (rs !! i) as [t|] eqn:E; cbn.
  - symmetry. apply lookup_seqZ. rewrite (Hi i t E). apply lookup_lt_Some in E. unfold len. lia.
  - symmetry. apply lookup_seqZ_ge. apply lookup_ge_None in E. unfold len. lia.
Qed.

Lemma enq_app rs s :
  StronglySorted nonce_lt rs → (∀ x y, x ∈ s → y ∈ rs → tx_Nonce x < tx_Nonce y) → enq rs s = s ++ rs.
Proof.
  revert s. induction rs as [|r rs IH]; intros s Hs Hlt; cbn [enq foldl]; [by rewrite app_nil_r|].
  assert (Hput : flip put_sorted s r = s ++ [r]).
  { unfold flip. clear IH. assert (Hlt' : ∀ x, x ∈ s → tx_Nonce x < tx_Nonce r) by (intros x Hx; apply Hlt; [done|by left]).
    clear Hlt. induction s as [|y s IHs]; [done|]. cbn [put_sorted].
    rewrite (proj2 (Z.ltb_lt _ _)) by (apply Hlt'; by left). cbn. f_equal. apply IHs. intros x Hx. apply Hlt'. by right. }
  rewrite Hput. apply StronglySorted_inv in Hs as [Hs Hr]. rewrite Forall_forall in Hr.
  change (enq rs (s ++ [r]) = s ++ r :: rs). rewrite IH; [by rewrite <- app_assoc|done|].
  intros x y [Hx| ->%list_elem_of_singleton]%elem_of_app Hy; [apply Hlt; [done|by right]|by apply Hr].
Qed.

Definition pre_executable (P : view) (n : txNoncer) : Prop := executable (live_part P n) n.

Lemma promotable_elem p Q st a x :
  x ∈ promotable p Q st a → x ∈ Q a ∧ GetNonce st a <= tx_Nonce x ∧ payable st (ph_currentMaxGas (p_head p)) a x = true.
Proof. unfold promotable, pays, from. rewrite !list_elem_of_filter. tauto. Qed.

Lemma ready_run start s :
  StronglySorted nonce_lt s → Forall nonce_ok s →
  let '(rs, rest) := ready_spec start s in
  rs = [] ∨ ∃ x, x ∈ s ∧ tx_Nonce x <= start ∧ tx_Nonce <$> rs = seqZ (tx_Nonce x) (len rs) ∧ x ∈ rs ∧
    StronglySorted nonce_lt rs ∧ rs ⊆ s.
Proof.
  intros Hs Hn. unfold ready_spec. destruct s as [|x s]; [by left|]. destruct (Z.ltb_spec start (tx_Nonce x)) as [Hlt|Hge]; [by left|].
  apply Forall_cons in Hn as [Hx Hn].
  destruct (run_spec (tx_Nonce x) (x :: s)) as (Happ & Hi & _).
  - unfold is_u64. unfold nonce_ok in Hx. lia.
  - done.
  - apply StronglySorted_inv in Hs as [_ Hlt]. rewrite Forall_forall in *. unfold nonce_ok in *.
    intros y [->|Hy]%elem_of_cons; [lia|]. specialize (Hn y Hy). specialize (Hlt y Hy). unfold nonce_lt in Hlt. lia.
  - assert (Hhd : x ∈ (run (tx_Nonce x) (x :: s)).1).
    { cbn [run]. rewrite Z.eqb_refl. destruct (run _ s). by left. }
    destruct (run (tx_Nonce x) (x :: s)) as [rs rest]. cbn [fst snd] in *.
    right. exists x. split; [by left|]. split; [done|]. split; [by apply seqZ_lookup_nonces|]. split; [done|].
    rewrite Happ in Hs |- *. split; [by apply StronglySorted_app_1_l in Hs|]. intros y Hy. apply elem_of_app. by left.
Qed.

Lemma promote_runs p P Q n st a :
  pool_at p P Q n [] → state_ok p st n → pre_executable P n →
  let '(rs, rest) := ready_spec (next_nonce n a) (promotable p Q st a) in
  enq rs (P a) = P a ++ rs ∧ from (state_nonce n a) rs = rs ∧
  Forall (λ x, payable st (ph_currentMaxGas (p_head p)) a x = true) rs ∧
  (rs = [] ∨ next_nonce n a = state_nonce n a + len (live_part P n a) ∧ tx_Nonce <$> rs = seqZ (next_nonce n a) (len rs)).
Proof.
  intros Hp (Est & En & Hfb) Hpre. pose proof (pi_views _ _ _ _ _ (proj1 Hp)) as Hv.
  destruct (pool_at_sorted _ _ _ _ _ a Hp) as [HsP HsQ]. destruct (Hpre a) as [Hrun Hnx]. unfold live_part in Hrun, Hnx |- *.
  set (k := state_nonce n a) in *. assert (Ek : GetNonce st a = k) by (unfold k; by rewrite Hfb).
  pose proof (ready_run (next_nonce n a) (promotable p Q st a)) as Hr.
  destruct (ready_spec (next_nonce n a) (promotable p Q st a)) as [rs rest]. destruct Hr as [->|(x & Hx & Hle & Hseq & Hxr & Hsr & Hsub)].
  - apply sorted_filter, sorted_filter, HsQ.
  - rewrite Forall_forall. intros y (Hy & _)%promotable_elem. eapply vo_nonce; eauto.
  - split; [by cbn; rewrite app_nil_r|]. split; [done|]. split; [constructor|by left].
  - destruct (promotable_elem _ _ _ _ _ Hx) as (HxQ & Hge & _). rewrite Ek in Hge.
    assert (Hxn : tx_Nonce x = k + len (from k (P a))).
    { destruct (decide (tx_Nonce x < k + len (from k (P a)))) as [Hlt|]; [|lia]. exfalso.
      assert (Hin : tx_Nonce x ∈ tx_Nonce <$> from k (P a)) by (rewrite Hrun; apply elem_of_seqZ; lia).
      apply list_elem_of_fmap in Hin as (y & Ey & [_ Hy]%list_elem_of_filter). by apply (vo_disj _ _ Hv a y x). }
    assert (Hgt : ∀ y, y ∈ rs → tx_Nonce x <= tx_Nonce y).
    { intros y Hy. assert (Hin : tx_Nonce y ∈ seqZ (tx_Nonce x) (len rs)) by (rewrite <- Hseq; by apply list_elem_of_fmap_2).
      apply elem_of_seqZ in Hin. lia. }
    split; [apply enq_app; [done|]|split; [|split]].
    + intros z y Hz Hy. specialize (Hgt y Hy). destruct (decide (k <= tx_Nonce z)) as [Hk|Hk]; [|pose proof (len_nonneg (from k (P a))); lia].
      assert (Hin : tx_Nonce z ∈ seqZ k (len (from k (P a)))).
      { rewrite <- Hrun. apply list_elem_of_fmap_2, list_elem_of_filter. done. }
      apply elem_of_seqZ in Hin. lia.
    + apply filter_all. rewrite Forall_forall. intros y Hy. specialize (Hgt y Hy). pose proof (len_nonneg (from k (P a))). lia.
    + rewrite Forall_forall. intros y Hy. by apply Hsub, promotable_elem in Hy as (_ & _ & ?).
    + right. assert (next_nonce n a = tx_Nonce x) by lia. split; [lia|]. rewrite Hseq. by f_equal.
Qed.

(** After a reset, before demotion: what is above the account's nonce is a run, and the next
    nonce was moved only by promoting transactions that can be paid. *)
Record resetting (st : StateView) (gas : Z) (P : view) (n : txNoncer) : Prop := {
  rs_run : pre_executable P n;
  rs_paid : ∀ a, next_nonce n a = state_nonce n a ∨
    Forall (λ x, payable st gas a x = true) (live_part P n a);
}.

(** Nothing is pending below the account's nonce. *)
Definition no_stale (P : view) (n : txNoncer) : Prop := ∀ a, live_part P n a = P a.

Lemma executable_iff P n : executable P n ↔ pre_executable P n ∧ no_stale P n.
Proof.
  split.
  - intros He. assert (Hns : no_stale P n).
    { intros a. apply filter_all. rewrite Forall_forall. intros x Hx. destruct (He a) as [Hrun _].
      assert (Hin : tx_Nonce x ∈ seqZ (state_nonce n a) (len (P a))) by (rewrite <- Hrun; by apply list_elem_of_fmap_2).
      apply elem_of_seqZ in Hin. lia. }
    split; [|done]. intros a. rewrite Hns. apply He.
  - intros [Hp Hns] a. specialize (Hp a). by rewrite Hns in Hp.
Qed.

Lemma last_seqZ rs b : tx_Nonce <$> rs = seqZ b (len rs) → rs ≠ [] → ∃ t, last rs = Some t ∧ tx_Nonce t = b + len rs - 1.
Proof.
  intros E Hne. destruct rs as [|t rs _] using rev_ind; [done|]. exists t. rewrite last_snoc. split; [done|].
  rewrite len_app in E |- *. change (len [t]) with 1 in *. assert (Hl : (tx_Nonce <$> rs ++ [t]) !! length rs = Some (tx_Nonce t)).
  { rewrite fmap_app, lookup_app_r by (by rewrite length_fmap). by rewrite length_fmap, Nat.sub_diag. }
  rewrite E in Hl. apply lookup_seqZ in Hl. unfold len. lia.
Qed.

Lemma nil_length_inv' {A} (l : list A) : len l = 0 → l = [].
Proof. intros E. apply nil_length_inv. unfold len in E. lia. Qed.

Record promo_keeps (st : StateView) (gas : Z) (P : view) (n : txNoncer) (P' : view) (n' : txNoncer) : Prop := {
  pk_fallback : nc_fallback n' = nc_fallback n;
  pk_run : pre_executable P n → pre_executable P' n';
  pk_reset : resetting st gas P n → resetting st gas P' n';
  pk_stale : pre_executable P n → no_stale P n → no_stale P' n';
}.

Lemma promo_keeps_trans st gas P n P1 n1 P2 n2 :
  promo_keeps st gas P n P1 n1 → promo_keeps st gas P1 n1 P2 n2 → promo_keeps st gas P n P2 n2.
Proof. intros [? ? ? ?] [? ? ? ?]. split; [congruence|auto..]. Qed.

Lemma promote_keeps p P Q n st a rs n' :
  let gas := ph_currentMaxGas (p_head p) in
  pool_at p P Q n [] → state_ok p st n → rs = (ready_spec (next_nonce n a) (promotable p Q st a)).1 →
  nc_fallback n' = nc_fallback n → (∀ b, next_nonce n' b = next_nonce (promoted_noncer a rs n) b) →
  promo_keeps st gas P n (<[a := enq rs (P a)]> P) n'.
Proof.
  intros gas Hp Hst Ers Hfb Hnx. set (P' := <[a := enq rs (P a)]> P).
  assert (Hpre : pre_executable P n →
    (∀ b, live_part P' n' b = live_part P n b ++ (if bool_decide (a = b) then rs else [])) ∧
    Forall (λ x, payable st gas a x = true) rs ∧
    (rs = [] ∨ next_nonce n a = state_nonce n a + len (live_part P n a) ∧ tx_Nonce <$> rs = seqZ (next_nonce n a) (len rs)) ∧
    P' a = P a ++ rs).
  { intros Hpre. pose proof (promote_runs p P Q n st a Hp Hst Hpre) as Hr.
    destruct (ready_spec (next_nonce n a) (promotable p Q st a)) as [rs' rest]. cbn in Ers. subst rs'.
    destruct Hr as (Henq & Hfrom & Hpay & Hor). split; [|split; [done|split; [done|]]].
    - intros b. unfold live_part, P'. rewrite Hfb. case_bool_decide as E; [subst b|].
      + rewrite fn_lookup_insert, Henq. unfold from in *. rewrite filter_app. by rewrite Hfrom.
      + by rewrite fn_lookup_insert_ne, app_nil_r.
    - unfold P'. by rewrite fn_lookup_insert. }
  assert (Hrun : pre_executable P n → pre_executable P' n').
  { intros Hp0. destruct (Hpre Hp0) as (Hlive & _ & Hor & _). intros b. rewrite Hlive, Hfb, Hnx, promoted_next.
    destruct (Hp0 b) as [Hr Hb]. case_bool_decide as E; [subst b|by rewrite app_nil_r].
    destruct Hor as [-> |[En Hseq]]; [by rewrite app_nil_r|].
    rewrite fmap_app, len_app, Hr, Hseq, En. rewrite (seqZ_app _ (len (live_part P n a)) (len rs)) by apply len_nonneg.
    split; [done|]. destruct (decide (rs = [])) as [->|Hne]; [cbn; unfold id, len in *; cbn [length]; lia|].
    destruct (last_seqZ rs _ Hseq Hne) as (t & -> & Et). cbn. rewrite Et, En.
    pose proof (len_nonneg rs). pose proof (len_nonneg (live_part P n a)). destruct rs; [done|]. unfold len in *. cbn [length] in *. lia. }
  split; [done|done| |].
  - intros [Hp0 Hpaid]. split; [by apply Hrun|]. destruct (Hpre Hp0) as (Hlive & Hpay & Hor & _).
    intros b. rewrite Hlive, Hfb, Hnx, promoted_next. case_bool_decide as E; [subst b|by rewrite app_nil_r].
    destruct Hor as [-> |[En Hseq]]; [rewrite app_nil_r; apply Hpaid|]. right. apply Forall_app. split; [|done].
    destruct (Hpaid a) as [E|?]; [|done]. assert (Hl0 : len (live_part P n a) = 0) by lia.
    apply nil_length_inv' in Hl0. rewrite Hl0. constructor.
  - intros Hp0 Hns. destruct (Hpre Hp0) as (Hlive & _ & _ & EP'). intros b. rewrite Hlive, (Hns b).
    case_bool_decide as E; [by subst b|]. unfold P'. by rewrite fn_lookup_insert_ne, app_nil_r.
Qed.

Lemma state_ok_env p p' st n n' :
  same_env p p' → state_ok p st n → p_pendingNonces p' = Some n' → nc_fallback n' = nc_fallback n → state_ok p' st n'.
Proof. intros [_ Eh _] (Est & _ & Ef) En Ef'. split; [by rewrite Eh|]. split; [done|congruence]. Qed.

Lemma promoteExecutables_spec now addrs acc p P Q n st :
  pool_at p P Q n [] → state_ok p st n →
  ∃ promoted p' P' Q' n', promoteExecutables now addrs acc p = Ok (promoted, p') ∧ pool_at p' P' Q' n' [] ∧
    same_env p p' ∧ promo_keeps st (ph_currentMaxGas (p_head p)) P n P' n'.
Proof.
  revert acc p P Q n. induction addrs as [|a addrs IH]; intros acc p P Q n Hp Hst; cbn [promoteExecutables].
  { exists acc, p, P, Q, n. by split_and!. }
  destruct (p_queue p !! a) as [l|] eqn:El.
  - pose proof (promote_account_spec now a acc p P Q n st l Hp Hst El) as Ha.
    pose proof (λ rs n', promote_keeps p P Q n st a rs n' Hp Hst) as Hk.
    destruct (ready_spec (next_nonce n a) (promotable p Q st a)) as [rs rest].
    destruct Ha as (p1 & n1 & -> & Hp1 & He1 & Hf1 & Hn1). cbn [mbind res_bind].
    specialize (Hk rs n1 eq_refl Hf1 Hn1).
    assert (Hst1 : state_ok p1 st n1) by (by apply (state_ok_env p p1 st n); [| |apply Hp1|]).
    destruct (IH (acc ++ rs) p1 _ _ n1 Hp1 Hst1) as (promoted & p' & P' & Q' & n' & -> & Hp' & He' & Hk').
    exists promoted, p', P', Q', n'. split; [done|]. split; [done|]. split; [by etransitivity|].
    rewrite (se_head _ _ He1) in Hk'. by eapply promo_keeps_trans.
  - rewrite promote_account_none by done. cbn [mbind res_bind]. by apply (IH acc p P Q n).
Qed.

(** ** Demotion *)

Lemma enqueueTx_pending now h tx l b m p :
  enqueueTx now h tx l b (set_pending m p) =
    ((enqueueTx now h tx l b p).1, set_pending m (enqueueTx now h tx l b p).2).
Proof.
  rewrite !enqueueTx_queue. cbn [p_queue set_pending p_config]. cbn zeta.
  destruct (tl_Add _ _ _ _) as [[[] old] q]; [|done]. cbn [negb].
  destruct old as [o|], b; cbn; destruct (p_beats p !! sender_of tx); done.
Qed.

Lemma enqueueTxs_pending now txs m p : enqueueTxs now txs (set_pending m p) = set_pending m (enqueueTxs now txs p).
Proof.
  revert p. induction txs as [|tx txs IH]; intros p; [done|]. cbn [enqueueTxs foldl]. rewrite enqueueTx_pending. apply IH.
Qed.

Lemma enqueueTxs_same_pending now txs p : p_pending (enqueueTxs now txs p) = p_pending p.
Proof.
  pose proof (enqueueTxs_pending now txs (p_pending p) p) as E.
  replace (set_pending (p_pending p) p) with p in E by (by destruct p). by rewrite E.
Qed.

Lemma views_comm P Q : views_ok P Q → views_ok Q P.
Proof.
  intros [Hs Hn Hd]. split.
  - intros a tx [?|?]; eauto.
  - intros a tx [?|?]; eauto.
  - intros a t t' Ht Ht' E. by apply (Hd a t' t).
Qed.

Lemma in_pool_comm P Q x : in_pool P Q x ↔ in_pool Q P x.
Proof. unfold in_pool. apply exist_proper. intros a. tauto. Qed.

Lemma cut_pending p P Q S X a :
  pool_inv p P Q S X → pool_inv (set_pending (delete a (p_pending p)) p) (<[a := []]> P) Q S X.
Proof.
  intros [? ? Hv ? ? ? ? ? ?]. split; try done; [by apply lists_delete|]. apply views_pending; [done|].
  by intros tx ?%not_elem_of_nil.
Qed.

Lemma paste_pending p P Q S X a m l s :
  pool_inv (set_pending (delete a m) p) (<[a := []]> P) Q S X → lists_at true m P → tabs l s → tl_strict l = true →
  (∀ tx, tx ∈ s → px_Sender tx = Some a ∧ nonce_ok tx ∧ tx_Nonce tx ∉ tx_Nonce <$> Q a) →
  pool_inv (if tl_Empty l then set_pending (delete a m) p else set_pending (<[a := l]> m) p) (<[a := s]> P) Q S X.
Proof.
  intros [? ? Hv ? ? ? ? ? ?] Hq Hl Hst Hs. pose proof (lists_settle true m P a l s Hq Hl Hst) as Hls.
  assert (Hv' : views_ok (<[a := s]> P) Q).
  { eapply views_ext; [|done|apply (views_pending (<[a := []]> P) Q a s Hv Hs)]. intros b.
    destruct (decide (a = b)) as [<-|Hne]; [by rewrite !fn_lookup_insert|by rewrite !fn_lookup_insert_ne]. }
  destruct (tl_Empty l); by split.
Qed.

(** The parts of a pending list: dropped ones [O] and [D], kept ones [K] and those that go
    back to the queue [I]. *)
Lemma demote_parts now a p P Q n O D K I l c :
  pool_at p P Q n [] → P a ≡ₚ O ++ D ++ K ++ I → tabs l K → tl_strict l = true →
  let p1 := enqueueTxs now I (priced_Removed c (all_Removes D (all_Removes O p))) in
  let p2 := if tl_Empty l then set_pending (delete a (p_pending p1)) p1 else set_pending (<[a := l]> (p_pending p1)) p1 in
  pool_at p2 (<[a := K]> P) (<[a := enq I (Q a)]> Q) n [] ∧ same_env p p2 ∧ p_pending p1 = p_pending p.
Proof.
  intros [Hi En] Hp Hl Hst p1 p2. pose proof Hi as [Hpe Hqu Hv _ _ _ _ _ _].
  assert (Hin : ∀ x, x ∈ O ∨ x ∈ D ∨ x ∈ K ∨ x ∈ I → x ∈ P a) by (intros x Hx; rewrite Hp, !elem_of_app; tauto).
  assert (Hqp : queue_parts (P a) O D K I []).
  { split; [by rewrite app_nil_r|]. by eapply lists_sorted. }
  destruct (queue_parts_NoDup _ _ _ _ _ _ Hqp) as (HO & HD & _ & _ & HDO & _).
  assert (HsI : NoDup (tx_Nonce <$> K ++ I)).
  { pose proof (sorted_NoDup _ (qp_sorted _ _ _ _ _ _ Hqp)) as Hnd. rewrite Hp, !fmap_app in Hnd. rewrite fmap_app.
    by apply NoDup_app in Hnd as (_ & _ & (_ & _ & ?)%NoDup_app). }
  rewrite fmap_app in HsI. apply NoDup_app in HsI as (_ & HKI & HndI).
  set (m0 := delete a (p_pending p)).
  assert (Hi1 : pool_inv (set_pending m0 (priced_Removed c (all_Removes D (all_Removes O p)))) (<[a := []]> P) Q
    (λ x, (in_pool P Q x ∧ x ∉ O) ∧ x ∉ D) []).
  { change (set_pending m0 (priced_Removed c (all_Removes D (all_Removes O p)))) with
      (priced_Removed c (set_pending m0 (all_Removes D (all_Removes O p)))). apply priced_Removed_inv.
    rewrite <- !all_Removes_pending. apply all_Removes_inv; [apply all_Removes_inv; [by apply cut_pending|done|]|done|].
    - intros x Hx. exists a. left. apply Hin. tauto.
    - intros x Hx. split; [exists a; left; apply Hin; tauto|by apply HDO]. }
  destruct (enqueueTxs_fresh now I _ (<[a := []]> P) Q _ [] a Hi1 HndI) as (Hi2 & He2 & En2 & _).
  { intros x Hx. assert (HxP : x ∈ P a) by (apply Hin; tauto). split; [by eapply vo_sender; eauto|].
    split; [by eapply vo_nonce; eauto|]. split; [by apply (views_nonces_pending P Q a x Hv)|].
    rewrite fn_lookup_insert. apply not_elem_of_nil. }
  rewrite enqueueTxs_pending in Hi2, He2, En2. fold p1 in Hi2, He2, En2.
  destruct (all_Removes_fields D (all_Removes O p)) as (? & ? & ? & ? & ? & Epe1 & ? & ? & _).
  destruct (all_Removes_fields O p) as (? & ? & ? & ? & ? & Epe2 & ? & ? & _). cbn zeta in *.
  assert (Epe : p_pending p1 = p_pending p) by (unfold p1; rewrite enqueueTxs_same_pending; cbn; congruence).
  assert (He1 : same_env p p1 ∧ p_pendingNonces p1 = Some n).
  { destruct He2 as [Ec Eh El Ee Eg]. cbn in Ec, Eh, El, Ee, Eg, En2. split; [split; congruence|congruence]. }
  destruct He1 as [He1 En1]. unfold m0 in Hi2. rewrite <- Epe in Hi2, Hpe.
  pose proof (paste_pending p1 P _ _ [] a (p_pending p1) l K Hi2 Hpe Hl Hst) as Hfin.
  split; [|split; [unfold p2; destruct He1, (tl_Empty l); by split|done]].
  split; [|unfold p2; by destruct (tl_Empty l)]. eapply pool_inv_iff; [|apply Hfin].
  - intros x. rewrite (in_pool_comm (<[a := K]> P)), <- (promote_pool Q P a I K (O ++ D) x (views_comm _ _ Hv)).
    + rewrite not_elem_of_app, (in_pool_comm Q P). tauto.
    + by eapply lists_sorted.
    + by eapply lists_sorted.
    + rewrite Hp, <- !app_assoc. do 2 f_equiv. apply Permutation_app_comm.
  - intros x Hx. assert (HxP : x ∈ P a) by (apply Hin; tauto). split; [by eapply vo_sender; eauto|].
    split; [by eapply vo_nonce; eauto|]. rewrite fn_lookup_insert, list_elem_of_fmap. intros (y & Ey & Hy).
    apply enq_elem in Hy; [|by eapply lists_sorted|done|].
    + destruct Hy as [Hy|Hy]; [|by apply (vo_disj _ _ Hv a x y)].
      apply (HKI (tx_Nonce x)); [by apply list_elem_of_fmap_2|]. rewrite Ey. by apply list_elem_of_fmap_2.
    + intros t Ht. apply (views_nonces_pending P Q a t Hv). apply Hin. tauto.
Qed.

Definition exec_at (P : view) (n : txNoncer) (a : Address) : Prop :=
  tx_Nonce <$> P a = seqZ (state_nonce n a) (len (P a)) ∧
  state_nonce n a <= next_nonce n a <= state_nonce n a + len (P a).

(** The front of a run has its first nonce, or is empty. *)
Lemma run_front s s' rest b :
  s = s' ++ rest → tx_Nonce <$> s = seqZ b (len s) → tx_Nonce <$> s' = seqZ b (len s') ∧ (s' ≠ [] → b ∈ tx_Nonce <$> s').
Proof.
  intros -> E. rewrite fmap_app, len_app, seqZ_app in E by apply len_nonneg.
  apply app_inj_1 in E as [E _]; [|rewrite length_seqZ, length_fmap; unfold len; lia]. split; [done|].
  intros Hne. rewrite E. apply elem_of_seqZ. destruct s'; [done|]. unfold len. cbn. lia.
Qed.

Lemma demote_account_spec now a l p P Q n st :
  pool_at p P Q n [] → state_ok p st n → p_pending p !! a = Some l →
  ∃ p' K Q', demote_account now a l p = Ok p' ∧ pool_at p' (<[a := K]> P) Q' n [] ∧ same_env p p' ∧
    (∀ b, a ≠ b → p_pending p' !! b = p_pending p !! b) ∧
    (resetting st (ph_currentMaxGas (p_head p)) P n → exec_at (<[a := K]> P) n a) ∧
    Forall (λ x, payable st (ph_currentMaxGas (p_head p)) a x = true) K.
Proof.
  intros Hp (Est & _ & Hfb) El. pose proof Hp as [Hi En]. pose proof Hi as [Hpe Hqu Hv _ _ _ _ _ _].
  destruct (lists_some _ _ _ _ _ Hpe El) as (Hl & Hlst & _). pose proof (tabs_sorted _ _ Hl) as HsP.
  set (gas := ph_currentMaxGas (p_head p)). set (k := GetNonce st a).
  unfold demote_account. rewrite Est. cbn [deref mbind res_bind]. fold k.
  destruct (tabs_Forward l (P a) k Hl) as (l1 & -> & Hl1 & Hst1). cbn [mbind res_bind].
  destruct (all_Removes_fields (below k (P a)) p) as (_ & Eh & _). cbn zeta in *. rewrite Eh. fold gas.
  destruct (tabs_Filter_strict l1 (from k (P a)) st gas a Hl1 ltac:(congruence))
    as (drops & inv & l2 & s2 & rest & -> & Hl2 & Hst2 & Es & Hdr & Hinv & Hpay).
  assert (HK2 : Forall (λ x, payable st gas a x = true) s2).
  { rewrite Forall_forall. intros x Hx. assert (Hin : x ∈ pays st gas a (from k (P a))) by (rewrite <- Hinv; set_solver).
    by apply list_elem_of_filter in Hin as [? _]. }
  assert (Hperm : P a ≡ₚ below k (P a) ++ drops ++ inv ++ s2).
  { rewrite Hinv, Hdr, pays_unpaid. by rewrite below_from. }
  set (p0 := priced_Removed (len (below k (P a)) + len drops) (all_Removes drops (all_Removes (below k (P a)) p))).
  assert (Hgap : ∃ l3 K I, ('(list, p) ← (if (0 <? tl_Len l2) && bool_decide (sm_Get (tl_txs l2) k = None) then
        '(gapped, list) ← tl_Cap 0 l2; Ok (list, enqueueTxs now gapped (enqueueTxs now inv p0))
      else Ok (l2, enqueueTxs now inv p0));
      Ok (if tl_Empty list then set_pending (delete a (p_pending p)) p else set_pending (<[a := list]> (p_pending p)) p))
    = Ok (let p1 := enqueueTxs now I p0 in if tl_Empty l3 then set_pending (delete a (p_pending p1)) p1
          else set_pending (<[a := l3]> (p_pending p1)) p1) ∧
    tabs l3 K ∧ tl_strict l3 = true ∧ K ++ I ≡ₚ inv ++ s2 ∧ (K = s2 ∨ (K = [] ∧ s2 ≠ [] ∧ k ∉ tx_Nonce <$> s2))).
  { rewrite (tabs_Len _ _ Hl2). destruct ((0 <? len s2) && bool_decide (sm_Get (tl_txs l2) k = None)) eqn:Eg.
    - apply andb_true_iff in Eg as [Hlen%Z.ltb_lt Hget%bool_decide_eq_true].
      destruct (tabs_Cap l2 s2 0 Hl2) as (l3 & -> & Hl3 & Hst3); [lia|]. cbn [mbind res_bind].
      exists l3, [], (inv ++ reverse s2). unfold enqueueTxs. rewrite foldl_app. cbn [Z.to_nat] in *.
      rewrite drop_0. split; [done|]. rewrite take_0 in Hl3. split; [done|]. split; [congruence|].
      split; [by rewrite reverse_Permutation|]. right. split; [done|]. split; [intros ->; unfold len in Hlen; cbn in Hlen; lia|].
      rewrite list_elem_of_fmap. intros (x & Ex & Hx).
      assert (sm_Get (tl_txs l2) k = Some x) by (apply (tabs_Get _ _ k x Hl2); done). congruence.
    - cbn [mbind res_bind]. exists l2, s2, inv. split; [done|]. split; [done|]. split; [done|].
      split; [apply Permutation_app_comm|by left]. }
  destruct Hgap as (l3 & K & I & -> & Hl3 & Hst3 & HKI & HK).
  assert (HpKI : P a ≡ₚ below k (P a) ++ drops ++ K ++ I) by (by rewrite HKI).
  destruct (demote_parts now a p P Q n _ _ K I l3 (len (below k (P a)) + len drops) Hp HpKI Hl3 Hst3) as (Hp' & He' & Epe).
  fold p0 in Hp', He', Epe. eexists _, K, _. split; [done|]. split; [exact Hp'|]. split; [done|]. split; [|split].
  - intros b Hb. cbn zeta. rewrite <- Epe. destruct (tl_Empty l3); cbn; [by rewrite lookup_delete_ne|by rewrite lookup_insert_ne].
  - intros [Hrun Hpaid]. assert (Ek : k = state_nonce n a) by (unfold k; by rewrite Hfb).
    destruct (Hrun a) as [Hr Hb]. unfold live_part in Hr, Hb. rewrite <- Ek in Hr, Hb.
    destruct (run_front _ _ _ _ Es Hr) as [Hs2 Hfront].
    assert (K = s2) as ->. { destruct HK as [?|(_ & Hne & Hk)]; [done|]. by destruct Hk; apply Hfront. }
    unfold exec_at. rewrite fn_lookup_insert, <- Ek. split; [done|]. pose proof (len_nonneg s2).
    destruct (Hpaid a) as [E|Hall]; [lia|]. unfold live_part in Hall. rewrite <- Ek in Hall.
    rewrite (Hpay Hall), app_nil_r in Es. by rewrite <- Es.
  - destruct HK as [->|(-> & _)]; [done|constructor].
Qed.

Lemma exec_at_live P n a : exec_at P n a → live_part P n a = P a.
Proof.
  intros [Hrun _]. apply filter_all. rewrite Forall_forall. intros x Hx.
  assert (Hin : tx_Nonce x ∈ seqZ (state_nonce n a) (len (P a))) by (rewrite <- Hrun; by apply list_elem_of_fmap_2).
  apply elem_of_seqZ in Hin. lia.
Qed.

Lemma resetting_insert st gas P n a K :
  resetting st gas P n → exec_at (<[a := K]> P) n a → Forall (λ x, payable st gas a x = true) K →
  resetting st gas (<[a := K]> P) n.
Proof.
  intros [Hrun Hpaid] Hex HK. pose proof (exec_at_live _ _ _ Hex) as Hlive.
  assert (Hne : ∀ b, a ≠ b → live_part (<[a := K]> P) n b = live_part P n b)
    by (intros b Hb; unfold live_part; by rewrite fn_lookup_insert_ne).
  split; intros b; (destruct (decide (a = b)) as [<-|Hb]; [rewrite Hlive|rewrite Hne by done]).
  - apply Hex.
  - apply Hrun.
  - rewrite fn_lookup_insert. by right.
  - apply Hpaid.
Qed.

Lemma demote_accounts_spec now lists p P Q n st :
  pool_at p P Q n [] → state_ok p st n → NoDup lists.*1 → (∀ a l, (a, l) ∈ lists → p_pending p !! a = Some l) →
  ∃ p' P' Q', demote_accounts now lists p = Ok p' ∧ pool_at p' P' Q' n [] ∧ same_env p p' ∧
    (∀ a, a ∉ lists.*1 → P' a = P a) ∧
    (∀ a, a ∈ lists.*1 → Forall (λ x, payable st (ph_currentMaxGas (p_head p)) a x = true) (P' a)) ∧
    (resetting st (ph_currentMaxGas (p_head p)) P n → ∀ a, a ∈ lists.*1 → exec_at P' n a).
Proof.
  revert p P Q. induction lists as [|[a l] lists IH]; intros p P Q Hp Hst Hnd Hls; cbn [demote_accounts].
  { exists p, P, Q. split; [done|]. split; [done|]. split; [done|]. split; [done|].
    split; [by intros a ?%not_elem_of_nil|by intros _ a ?%not_elem_of_nil]. }
  rewrite fmap_cons in *. cbn [fst] in *. apply NoDup_cons in Hnd as [Hna Hnd].
  destruct (demote_account_spec now a l p P Q n st Hp Hst (Hls a l ltac:(by left))) as
    (p1 & K & Q1 & -> & Hp1 & He1 & Hoth & Hex & HK). cbn [mbind res_bind].
  assert (Hst1 : state_ok p1 st n) by exact (state_ok_env p p1 st n n He1 Hst (proj2 Hp1) eq_refl).
  destruct (IH p1 _ Q1 Hp1 Hst1 Hnd) as (p' & P' & Q' & -> & Hp' & He' & Hsame & Hpay & Hexec).
  { intros b l' Hb. rewrite Hoth; [apply Hls; by right|]. intros <-. apply Hna. by apply (list_elem_of_fmap_2 fst) in Hb. }
  rewrite (se_head _ _ He1) in Hpay, Hexec.
  assert (EP' : P' a = K) by (rewrite Hsame by done; by rewrite fn_lookup_insert).
  exists p', P', Q'. split; [done|]. split; [done|]. split; [by etransitivity|]. split; [|split].
  - intros b [Hba Hb]%not_elem_of_cons. rewrite Hsame by done. by rewrite fn_lookup_insert_ne.
  - intros b [->|Hb]%elem_of_cons; [by rewrite EP'|by apply Hpay].
  - intros Hr b Hb. pose proof (Hex Hr) as Hexa. apply elem_of_cons in Hb as [->|Hb].
    + unfold exec_at in *. by rewrite fn_lookup_insert in Hexa; rewrite EP'.
    + apply Hexec; [|done]. by apply resetting_insert.
Qed.

Lemma range_elem {A} (m : gmap Address A) a x : (a, x) ∈ range_of m ↔ m !! a = Some x.
Proof. rewrite range_of_perm. apply elem_of_map_to_list. Qed.

Lemma pending_none p P Q S X a : pool_inv p P Q S X → p_pending p !! a = None → P a = [].
Proof. intros Hi E. by eapply lists_none; [apply (pi_pending _ _ _ _ _ Hi)|]. Qed.

Lemma demote_spec now p P Q n st :
  pool_at p P Q n [] → state_ok p st n →
  ∃ p' P' Q', demoteUnexecutables now p = Ok p' ∧ pool_at p' P' Q' n [] ∧ same_env p p' ∧
    (∀ a x, x ∈ P' a → payable st (ph_currentMaxGas (p_head p)) a x = true) ∧
    (resetting st (ph_currentMaxGas (p_head p)) P n → executable P' n).
Proof.
  intros Hp Hst. destruct (demote_accounts_spec now (range_of (p_pending p)) p P Q n st Hp Hst) as
    (p' & P' & Q' & E & Hp' & He & Hsame & Hpay & Hex).
  - apply (range_keys_NoDup (p_pending p)).
  - intros a l. by rewrite range_elem.
  - assert (Hno : ∀ a, a ∉ (range_of (p_pending p)).*1 → P' a = [] ∧ P a = []).
    { intros a Ha. rewrite Hsame by done. assert (P a = []); [|done]. eapply (pending_none p); [apply Hp|].
      destruct (p_pending p !! a) eqn:Ea; [|done]. destruct Ha. apply (range_keys_elem (p_pending p)). by eexists. }
    exists p', P', Q'. split; [done|]. split; [done|]. split; [done|]. split.
    + intros a x Hx. destruct (decide (a ∈ (range_of (p_pending p)).*1)) as [Ha|Ha].
      * specialize (Hpay a Ha). rewrite Forall_forall in Hpay. by apply Hpay.
      * destruct (Hno a Ha) as [E' _]. rewrite E' in Hx. by apply not_elem_of_nil in Hx.
    + intros Hr a. destruct (decide (a ∈ (range_of (p_pending p)).*1)) as [Ha|Ha]; [by apply Hex|].
      destruct (Hno a Ha) as [E1 E2]. destruct Hr as [Hrun _]. specialize (Hrun a). unfold live_part in Hrun.
      rewrite E2 in Hrun. by rewrite E1.
Qed.
End reorg.
