(* ===== verification/PoolLimits.v ===== *)
(** * The limits of the transaction pool (evmcore/tx_pool.go)

    [truncatePending] and [truncateQueue]: they end, they keep the invariant, and afterwards
    the number of pending (queued) transactions is within the configured limit, or no
    account but the local ones is above its guaranteed share. *)

From stdpp Require Import sorting functions.
From S2P Require Import Prelude Cser Inter TxSer Pos Heap EvmState EvmChain TxList TxPool PoolInv PoolOps PoolReorg.

Section limits.
Context `{MapRangeLaws} `{GoHeapLaws Z nonce_less} `{GoHeapLaws Transaction price_less} `{PoolTx} `{GasTable}.
Context `{PrqueLaws} `{SortBeatsLaws}.

Notation view := (Address → list Transaction).
Notation tabs := (tl_abs px_Cost).

(** ** Counting *)

Definition count (m : gmap Address txList) : Z := sum_Z (tl_Len <$> (map_to_list m).*2).

Lemma tl_Len_nonneg l : 0 <= tl_Len l.
Proof. unfold tl_Len, sm_Len. lia. Qed.

Lemma count_nonneg m : 0 <= count m.
Proof. apply sum_Z_nonneg. rewrite Forall_fmap, Forall_forall. intros l _. apply tl_Len_nonneg. Qed.

Lemma count_delete m a l : m !! a = Some l → count m = tl_Len l + count (delete a m).
Proof.
  intros E. unfold count. rewrite (sum_Z_perm _ (tl_Len l :: (tl_Len <$> (map_to_list (delete a m)).*2))); [done|].
  by rewrite <- (map_to_list_delete m a l E).
Qed.

Lemma count_insert m a l l' : m !! a = Some l → count (<[a := l']> m) = count m - tl_Len l + tl_Len l'.
Proof.
  intros E. rewrite (count_delete m a l E), (count_delete (<[a := l']> m) a l') by apply lookup_insert_eq.
  rewrite delete_insert_eq. lia.
Qed.

Lemma list_total_count m : list_total m = count m.
Proof.
  unfold list_total, count.
  assert (Hgen : ∀ (es : list (Address * txList)) acc,
    foldl (λ n (e : Address * txList), n + tl_Len e.2) acc es = acc + sum_Z (tl_Len <$> es.*2)).
  { induction es as [|[a l] es IH]; intros acc; cbn; [lia|]. rewrite IH. unfold sum_Z. cbn. lia. }
  rewrite Hgen, Z.add_0_l. apply sum_Z_perm. by rewrite (range_of_perm m).
Qed.

(** ** One transaction less *)

Lemma removal_ext D P Q n P1 Q1 P2 Q2 n' :
  (∀ a, P1 a = P2 a) → (∀ a, Q1 a = Q2 a) → removal D P Q n P1 Q1 n' → removal D P Q n P2 Q2 n'.
Proof.
  intros HP HQ [Hf Ha Hp Ho Hq]. split; [done|..].
  - intros a. rewrite <- HP. apply Ha.
  - intros x. rewrite <- Hp. unfold in_pool. apply exist_proper. intros a. by rewrite HP, HQ.
  - intros a Hx. rewrite <- HP, <- HQ. by apply Ho.
  - intros a x. rewrite <- HQ. apply Hq.
Qed.

Lemma below_last s t : StronglySorted nonce_lt (s ++ [t]) → below (tx_Nonce t) (s ++ [t]) = s ∧ above (tx_Nonce t) (s ++ [t]) = [].
Proof.
  intros Hs. apply StronglySorted_app in Hs as (Hlt & _ & _). unfold below, above, nonce_lt in *.
  rewrite !filter_app, (filter_cons_False _ t []), (filter_cons_False _ t []), !filter_nil, !app_nil_r by lia. split.
  - apply filter_all. rewrite Forall_forall. intros x Hx. apply Hlt; [done|by left].
  - apply filter_none. rewrite Forall_forall. intros x Hx. specialize (Hlt x t Hx ltac:(by left)). lia.
Qed.

Definition cap_env (p p' : TxPool) : Prop := same_env p p' ∧ p_queue p' = p_queue p ∧ p_beats p' = p_beats p.

(** Dropping the last pending transaction of an account that has more. *)
Lemma cap_one p P Q n a l s t :
  pool_at p P Q n [] → p_pending p !! a = Some l → P a = s ++ [t] → s ≠ [] →
  ∃ l' p1 n', tl_Cap (tl_Len l - 1) l = Ok ([t], l') ∧
    drop_capped a [t] (set_pending (<[a := l']> (p_pending p)) p) = Ok p1 ∧ tl_Len l' = tl_Len l - 1 ∧
    let p' := priced_Removed 1 p1 in
    pool_at p' (<[a := s]> P) Q n' [] ∧ removal [px_Hash t] P Q n (<[a := s]> P) Q n' ∧
    cap_env p p' ∧ p_pending p' = <[a := l']> (p_pending p).
Proof.
  intros [Hi En] El EP Hne. pose proof Hi as [Hpe Hqu Hv _ _ _ _ _ _].
  destruct (lists_some _ _ _ _ _ Hpe El) as (Hl & Hlst & _). rewrite EP in Hl.
  pose proof (tabs_sorted _ _ Hl) as Hs. rewrite (tabs_Len _ _ Hl), len_app. change (len [t]) with 1.
  destruct (tabs_Cap l (s ++ [t]) (len s + 1 - 1) Hl) as (l' & -> & Hl' & Hst'); [pose proof (len_nonneg s); lia|].
  replace (Z.to_nat (len s + 1 - 1)) with (length s) in * by (unfold len; lia).
  rewrite drop_app_length, take_app_length in *. cbn [reverse rev_append] in *.
  exists l', (set_pendingNonces (Some (noncer_setIfLower a (tx_Nonce t) n))
    (all_Remove (px_Hash t) (set_pending (<[a := l']> (p_pending p)) p))), (noncer_setIfLower a (tx_Nonce t) n).
  split; [done|]. split; [cbn [drop_capped]; unfold pool_lower_nonce; cbn; by rewrite En|].
  split; [by rewrite (tabs_Len _ _ Hl'); lia|]. cbn zeta.
  assert (Htin : t ∈ P a) by (rewrite EP; set_solver).
  assert (Hin : in_pool P Q t) by (exists a; by left).
  destruct (below_last s t Hs) as [Hbel Habv]. rewrite <- EP in Hbel, Habv.
  assert (Hrm : removal [px_Hash t] P Q n (<[a := s]> P) Q (noncer_setIfLower a (tx_Nonce t) n)).
  { eapply removal_ext; [| |apply (removal_pending P Q n a t [] Hv)].
    - intros b. by rewrite Hbel.
    - intros b. symmetry. apply insert_same.
    - by rewrite EP.
    - by eapply lists_sorted.
    - done.
    - by eapply known_in_pool.
    - by rewrite Habv. }
  assert (Hi1 : pool_inv (set_pending (<[a := l']> (p_pending p)) p) (<[a := s]> P) Q (in_pool P Q) []).
  { split; try apply Hi.
    - apply lists_insert; [done..|congruence|done].
    - apply views_pending; [done|]. intros x Hx. assert (HxP : x ∈ P a) by (rewrite EP; set_solver).
      split; [by eapply vo_sender; eauto|]. split; [by eapply vo_nonce; eauto|by apply (views_nonces_pending P Q a x Hv)]. }
  split; [|done]. split; [|done]. apply priced_Removed_inv. eapply nonces_inv; [|exact En|done].
  eapply pool_inv_iff; [|apply (all_Remove_inv _ _ _ _ _ t Hi1 Hin)].
  intros x. rewrite (rm_pool _ _ _ _ _ _ _ Hrm), known_hash; [done|]. by eapply known_in_pool.
Qed.

(** ** Rounds *)

(** The effect of rounds: the pending lists of some accounts are cut, nothing else moves. *)
Record capped (p : TxPool) (P Q : view) (n : txNoncer) (p' : TxPool) (P' : view) (n' : txNoncer) : Prop := {
  cp_pool : pool_at p' P' Q n' [];
  cp_env : cap_env p p';
  cp_removal : ∃ D, removal D P Q n P' Q n';
  cp_count : count (p_pending p') <= count (p_pending p);
}.

Lemma capped_refl p P Q n : pool_at p P Q n [] → capped p P Q n p P n.
Proof. intros Hp. split; [done|done|exists []; apply removal_refl|done]. Qed.

Lemma capped_trans p P Q n p1 P1 n1 p2 P2 n2 :
  capped p P Q n p1 P1 n1 → capped p1 P1 Q n1 p2 P2 n2 → capped p P Q n p2 P2 n2.
Proof.
  intros [_ (He1 & Eq1 & Eb1) (D1 & Hr1) Hc1] [Hp2 (He2 & Eq2 & Eb2) (D2 & Hr2) Hc2]. split; [done|..].
  - split; [by etransitivity|]. split; congruence.
  - exists (D1 ++ D2). by eapply removal_trans.
  - lia.
Qed.

Lemma len_pos {A} (s : list A) : 1 <= len s → ∃ s0 t, s = s0 ++ [t].
Proof.
  intros Hl. destruct s as [|t s _] using rev_ind; [unfold len in Hl; cbn in Hl; lia|]. by exists s, t.
Qed.

Lemma pending_list p P Q n X a : pool_at p P Q n X → P a ≠ [] → ∃ l, p_pending p !! a = Some l ∧ tl_Len l = len (P a).
Proof.
  intros [Hi _] Hne. pose proof (pi_pending _ _ _ _ _ Hi a) as Ha. destruct (p_pending p !! a) as [l|]; [|done].
  destruct Ha as (Hl & _). exists l. split; [done|]. by apply tabs_Len.
Qed.

Lemma cap_round_spec addrs p P Q n L :
  pool_at p P Q n [] → NoDup addrs → (∀ a, a ∈ addrs → len (P a) = L) → 2 <= L →
  ∃ p' P' n', cap_round addrs (count (p_pending p)) p = Ok (count (p_pending p'), p') ∧ capped p P Q n p' P' n' ∧
    (∀ a, a ∈ addrs → P' a = take (Z.to_nat (L - 1)) (P a)) ∧ (∀ a, a ∉ addrs → P' a = P a).
Proof.
  revert p P n. induction addrs as [|a addrs IH]; intros p P n Hp Hnd HL HL2; cbn [cap_round].
  { exists p, P, n. split; [done|]. split; [by apply capped_refl|]. split; [by intros a ?%not_elem_of_nil|done]. }
  apply NoDup_cons in Hnd as [Hna Hnd].
  pose proof (HL a ltac:(by left)) as HLa. destruct (len_pos (P a)) as (s & t & EP); [lia|].
  rewrite EP, len_app in HLa. change (len [t]) with 1 in HLa.
  assert (Hs : s ≠ []) by (intros ->; unfold len in HLa; cbn in HLa; lia).
  destruct (pending_list p P Q n [] a Hp) as (l & El & Elen); [rewrite EP; by destruct s|].
  rewrite El. cbn [deref mbind res_bind].
  destruct (cap_one p P Q n a l s t Hp El EP Hs) as (l' & p1 & n1 & -> & Hd & Hl' & Hp1 & Hr1 & He1 & Epe).
  cbn [mbind res_bind]. rewrite Hd. cbn [mbind res_bind]. change (len [t]) with 1.
  set (p2 := priced_Removed 1 p1) in *.
  assert (Hc2 : count (p_pending p2) = count (p_pending p) - 1) by (rewrite Epe, (count_insert _ a l l' El); lia).
  pose proof (count_nonneg (p_pending p2)).
  assert (Hdec : dec64 (count (p_pending p)) = count (p_pending p2)) by (unfold dec64; destruct (Z.eqb_spec (count (p_pending p)) 0); lia).
  rewrite Hdec.
  destruct (IH p2 (<[a := s]> P) n1 Hp1 Hnd) as (p' & P' & n' & E & Hcap & Hin & Hout).
  - intros b Hb. rewrite fn_lookup_insert_ne by (by intros ->). apply HL. by right.
  - done.
  - exists p', P', n'. split; [done|]. split; [|split].
    + eapply capped_trans; [|exact Hcap]. split; [done|done|eauto|lia].
    + intros b [->|Hb]%elem_of_cons.
      * rewrite Hout by done. rewrite fn_lookup_insert, EP. replace (Z.to_nat (L - 1)) with (length s) by (unfold len in *; lia).
        by rewrite take_app_length.
      * rewrite Hin by done. by rewrite fn_lookup_insert_ne by (by intros ->).
    + intros b [Hba Hb]%not_elem_of_cons. rewrite Hout by done. by rewrite fn_lookup_insert_ne.
Qed.

(** The lengths after rounds: all accounts of the round are cut to one length. *)
Definition levelled (addrs : list Address) (P P' : view) (L : Z) : Prop :=
  (∀ a, a ∈ addrs → P' a = take (Z.to_nat L) (P a)) ∧ (∀ a, a ∉ addrs → P' a = P a).

Lemma cap_rounds_spec fuel addrs prev threshold p P Q n L :
  pool_at p P Q n [] → NoDup addrs → prev ∈ addrs → (∀ a, a ∈ addrs → len (P a) = L) → 1 <= threshold → threshold <= L →
  (Z.to_nat L < fuel)%nat →
  ∃ p' P' n' L', cap_rounds fuel addrs prev threshold (count (p_pending p)) p = Ok (count (p_pending p'), p') ∧
    capped p P Q n p' P' n' ∧ levelled addrs P P' L' ∧ threshold <= L' <= L ∧
    (count (p_pending p') <= GlobalSlots (p_config p) ∨ L' = threshold).
Proof.
  revert p P n L. induction fuel as [|fuel IH]; intros p P n L Hp Hnd Hprev HL Ht HtL Hf; [lia|]. cbn [cap_rounds].
  assert (Hstop : levelled addrs P P L).
  { split; [|done]. intros a Ha. rewrite take_ge; [done|]. specialize (HL a Ha). unfold len in HL. lia. }
  destruct (Z.ltb_spec (GlobalSlots (p_config p)) (count (p_pending p))) as [Hgt|Hle].
  2: { exists p, P, n, L. split; [done|]. split; [by apply capped_refl|]. split; [done|]. split; [lia|by left]. }
  pose proof (HL prev Hprev) as HLp. destruct (pending_list p P Q n [] prev Hp) as (l & El & Elen).
  { intros E. rewrite E in HLp. unfold len in HLp. cbn in HLp. lia. }
  unfold pending_Len. rewrite El. cbn [deref mbind res_bind]. rewrite Elen, HLp.
  destruct (Z.ltb_spec threshold L) as [Hlt|Hge].
  2: { exists p, P, n, L. split; [done|]. split; [by apply capped_refl|]. split; [done|]. split; [lia|right; lia]. }
  destruct (cap_round_spec addrs p P Q n L Hp Hnd HL ltac:(lia)) as (p1 & P1 & n1 & -> & Hc1 & Hin1 & Hout1).
  cbn [mbind res_bind]. assert (HL1 : ∀ a, a ∈ addrs → len (P1 a) = L - 1).
  { intros a Ha. rewrite Hin1 by done. specialize (HL a Ha). unfold len in *. rewrite length_take. lia. }
  pose proof (cp_count _ _ _ _ _ _ _ Hc1).
  destruct (IH p1 P1 n1 (L - 1) (cp_pool _ _ _ _ _ _ _ Hc1) Hnd Hprev HL1) as (p' & P' & n' & L' & -> & Hc' & [Hin' Hout'] & HL' & Hend);
    [lia..|].
  exists p', P', n', L'. split; [done|]. split; [by eapply capped_trans|]. split; [split|split; [lia|]].
  - intros a Ha. rewrite Hin', Hin1 by done. rewrite take_take. f_equal. lia.
  - intros a Ha. by rewrite Hout', Hout1.
  - destruct (cp_env _ _ _ _ _ _ _ Hc1) as ([Ec _ _] & _). by rewrite Ec in Hend.
Qed.

(** Lists cut at the end, none of them below a guaranteed length. *)
Definition cut (A : Z) (P P' : view) : Prop :=
  ∀ a, P' a = P a ∨ ∃ k, P' a = take k (P a) ∧ A <= len (P' a).

Lemma cut_trans A P P1 P2 : cut A P P1 → cut A P1 P2 → cut A P P2.
Proof.
  intros H1' H2' a. destruct (H2' a) as [->|(k2 & E2 & Hl2)]; [apply H1'|]. right.
  destruct (H1' a) as [E1|(k1 & E1 & Hl1)]; rewrite E1 in E2.
  - by exists k2.
  - exists (k2 `min` k1)%nat. by rewrite take_take in E2.
Qed.

Lemma levelled_cut A addrs P P' L L0 :
  levelled addrs P P' L → (∀ a, a ∈ addrs → len (P a) = L0) → A <= L <= L0 → 0 <= L →
  cut A P P' ∧ (∀ a, a ∈ addrs → len (P' a) = L).
Proof.
  intros [Hin Hout] HL HA H0'. assert (Hlen : ∀ a, a ∈ addrs → len (P' a) = L).
  { intros a Ha. rewrite Hin by done. specialize (HL a Ha). unfold len in *. rewrite length_take. lia. }
  split; [|done]. intros a. destruct (decide (a ∈ addrs)) as [Ha|Ha]; [|left; by apply Hout].
  right. exists (Z.to_nat L). split; [by apply Hin|]. rewrite Hlen by done. lia.
Qed.

(** The offenders so far have the same length, unless the limit is already kept. *)
Definition level_or_done (p : TxPool) (P : view) (offs sp : list Address) : Prop :=
  count (p_pending p) <= GlobalSlots (p_config p) ∨ offs = [] ∨
  ∃ L, AccountSlots (p_config p) < L ∧ (∀ a, a ∈ offs → len (P a) = L) ∧ (∀ b, b ∈ sp → len (P b) <= L).

Lemma cap_fuel_enough p P Q n a : pool_at p P Q n [] → P a ≠ [] → (Z.to_nat (len (P a)) < cap_fuel a p)%nat.
Proof.
  intros Hp Hne. destruct (pending_list p P Q n [] a Hp Hne) as (l & El & Elen). unfold cap_fuel. rewrite El, Elen. lia.
Qed.

Lemma last_elem {A} (l : list A) x : last l = Some x → x ∈ l.
Proof. intros (l' & ->)%last_Some. set_solver. Qed.

(** Cutting the offenders so far down to the next one. *)
Lemma offender_step o offs sp p P Q n :
  pool_at p P Q n [] → NoDup offs → o ∉ offs → AccountSlots (p_config p) < len (P o) →
  GlobalSlots (p_config p) < count (p_pending p) → level_or_done p P offs (o :: sp) →
  ∃ p1 P1 n1, match last offs with
    | None => Ok (count (p_pending p), p)
    | Some prev => threshold ← pending_Len o p; cap_rounds (cap_fuel prev p) offs prev threshold (count (p_pending p)) p
    end = Ok (count (p_pending p1), p1) ∧ capped p P Q n p1 P1 n1 ∧ cut (AccountSlots (p_config p)) P P1 ∧
    (∀ a, a ∉ offs → P1 a = P a) ∧
    (count (p_pending p1) <= GlobalSlots (p_config p) ∨ (∀ a, a ∈ offs ++ [o] → len (P1 a) = len (P o))).
Proof.
  intros Hp Hnd Hoin Hbo Hgt Hlev. pose proof (co_slots _ (pi_config _ _ _ _ _ (proj1 Hp))) as HA.
  assert (Hne : ∀ a, 1 <= len (P a) → P a ≠ []) by (intros a Ha E; rewrite E in Ha; unfold len in Ha; cbn in Ha; lia).
  destruct (last offs) as [prev|] eqn:Elast.
  - destruct Hlev as [?|[->|(L & HL & HLo & HLsp)]]; [lia|done|].
    pose proof (last_elem _ _ Elast) as Hprev. pose proof (HLsp o ltac:(by left)) as HoL. pose proof (HLo prev Hprev) as HLp.
    destruct (pending_list p P Q n [] o Hp ltac:(apply Hne; lia)) as (l & El & Elen). unfold pending_Len. rewrite El.
    cbn [deref mbind res_bind]. rewrite Elen.
    pose proof (cap_fuel_enough p P Q n prev Hp ltac:(apply Hne; lia)) as Hfuel. rewrite HLp in Hfuel.
    destruct (cap_rounds_spec (cap_fuel prev p) offs prev (len (P o)) p P Q n L) as (p1 & P1 & n1 & L1 & -> & Hc1 & Hl1 & HL1 & Hend1);
      [done..|lia|lia|done|].
    destruct (levelled_cut (AccountSlots (p_config p)) offs P P1 L1 L Hl1 HLo) as [Hcut Hlen1]; [lia|lia|].
    exists p1, P1, n1. split; [done|]. split; [done|]. split; [done|]. split; [apply Hl1|].
    destruct Hend1 as [?| ->]; [by left|right]. intros a [Ha| ->%list_elem_of_singleton]%elem_of_app; [by apply Hlen1|].
    by rewrite (proj2 Hl1).
  - apply last_None in Elast as ->. exists p, P, n. split; [done|]. split; [by apply capped_refl|]. split; [by intros a; left|].
    split; [done|]. right. by intros a ->%list_elem_of_singleton.
Qed.

Lemma offenders_spec sp offs p P Q n :
  pool_at p P Q n [] → NoDup (offs ++ sp) →
  StronglySorted (λ a b, len (P b) <= len (P a)) sp → (∀ a, a ∈ sp → AccountSlots (p_config p) < len (P a)) →
  level_or_done p P offs sp →
  ∃ offs' p' P' n', offenders_loop sp offs (count (p_pending p)) p = Ok (offs', count (p_pending p'), p') ∧
    capped p P Q n p' P' n' ∧ cut (AccountSlots (p_config p)) P P' ∧ (∀ a, a ∉ offs ++ sp → P' a = P a) ∧
    NoDup offs' ∧ offs' ⊆ offs ++ sp ∧
    (count (p_pending p') <= GlobalSlots (p_config p) ∨ (offs' = offs ++ sp ∧ level_or_done p' P' offs' [])).
Proof.
  revert offs p P n. induction sp as [|o sp IH]; intros offs p P n Hp Hnd Hsort Hbig Hlev; cbn [offenders_loop].
  { exists offs, p, P, n. rewrite app_nil_r in *. split; [done|]. split; [by apply capped_refl|]. split; [by intros a; left|].
    split; [done|]. split; [done|]. split; [done|]. right. done. }
  destruct (Z.ltb_spec (GlobalSlots (p_config p)) (count (p_pending p))) as [Hgt|Hle].
  2: { exists offs, p, P, n. split; [done|]. split; [by apply capped_refl|]. split; [by intros a; left|]. split; [done|].
       split; [by apply NoDup_app in Hnd as (? & _)|]. split; [intros x Hx; apply elem_of_app; by left|]. by left. }
  apply StronglySorted_inv in Hsort as [Hsort Ho]. rewrite Forall_forall in Ho. pose proof Hnd as (HndO & HdO & HndS)%NoDup_app.
  assert (Hoin : o ∉ offs) by (intros Hx; apply (HdO o Hx); by left).
  destruct (offender_step o offs sp p P Q n Hp HndO Hoin (Hbig o ltac:(by left)) Hgt Hlev)
    as (p1 & P1 & n1 & -> & Hc1 & Hcut1 & Hsame1 & Hlev1). cbn [mbind res_bind].
  assert (Hsp : ∀ a, a ∈ o :: sp → P1 a = P a) by (intros a Ha; apply Hsame1; intros Hx; by apply (HdO a Hx)).
  destruct (cp_env _ _ _ _ _ _ _ Hc1) as ([Ec _ _] & _). pose proof (cp_count _ _ _ _ _ _ _ Hc1).
  destruct (IH (offs ++ [o]) p1 P1 n1 (cp_pool _ _ _ _ _ _ _ Hc1)) as (offs' & p' & P' & n' & E & Hc' & Hcut' & Hsame' & Hnd' & Hsub & Hend).
  - by rewrite <- app_assoc.
  - clear -Hsort Hsp. induction Hsort as [|x l Hs IH Hx]; constructor.
    + apply IH. intros a Ha. apply Hsp. apply elem_of_cons in Ha as [->|Ha]; [by left|by right; right].
    + rewrite Forall_forall in *. intros y Hy. rewrite (Hsp y), (Hsp x); [by apply Hx|by right; left|by right; right].
  - intros a Ha. rewrite Ec, Hsp by (by right). apply Hbig. by right.
  - unfold level_or_done. rewrite Ec. destruct Hlev1 as [?|Hlev1]; [by left|right; right]. exists (len (P o)).
    split; [apply Hbig; by left|]. split; [done|]. intros b Hb. rewrite Hsp by (by right). by apply Ho.
  - rewrite Ec, <- app_assoc in *. exists offs', p', P', n'. split; [done|]. split; [by eapply capped_trans|].
    split; [by eapply cut_trans|]. split; [|done].
    intros a Ha. rewrite Hsame' by done. apply Hsame1. intros Hx. apply Ha, elem_of_app. by left.
Qed.

(** ** truncatePending *)

Lemma spammers_elem p P Q n a k :
  pool_at p P Q n [] →
  (a, k) ∈ spammers_of p ↔ as_contains a (p_locals p) = false ∧ AccountSlots (p_config p) < len (P a) ∧ k = len (P a).
Proof.
  intros Hp. pose proof (co_slots _ (pi_config _ _ _ _ _ (proj1 Hp))) as HA.
  unfold spammers_of. rewrite list_elem_of_fmap. split.
  - intros ([b l] & [= -> ->] & [[Hl Hlen] Hin]%list_elem_of_filter). apply (range_elem (p_pending p)) in Hin. cbn in *.
    destruct (lists_some _ _ _ _ _ (pi_pending _ _ _ _ _ (proj1 Hp)) Hin) as (Htl & _).
    rewrite (tabs_Len _ _ Htl) in *. done.
  - intros (Hl & Hlen & ->). destruct (pending_list p P Q n [] a Hp) as (l & El & Elen).
    { intros E. rewrite E in Hlen. unfold len in Hlen. cbn in Hlen. lia. }
    exists (a, l). cbn. split; [by rewrite Elen|]. apply list_elem_of_filter. cbn. rewrite Elen.
    split; [done|]. by apply (range_elem (p_pending p)).
Qed.

Lemma spammers_NoDup p : NoDup (spammers_of p).*1.
Proof.
  unfold spammers_of. rewrite <- list_fmap_compose. cbn [compose fst].
  eapply sublist_NoDup; [apply (range_keys_NoDup (p_pending p))|]. apply (fmap_sublist fst), sublist_filter.
Qed.

Lemma sorted_keys (sp : list (Address * Z)) (P : view) :
  StronglySorted (λ a b, b.2 <= a.2) sp → (∀ a k, (a, k) ∈ sp → k = len (P a)) →
  StronglySorted (λ a b, len (P b) <= len (P a)) sp.*1.
Proof.
  induction 1 as [|[a k] sp Hs IH Hx]; intros Hk; [constructor|]. rewrite fmap_cons. constructor.
  - apply IH. intros b j Hb. apply Hk. by right.
  - rewrite Forall_fmap. rewrite Forall_forall in *. intros [b j] Hb. cbn.
    rewrite <- (Hk a k ltac:(by left)), <- (Hk b j ltac:(by right)). by apply (Hx (b, j)).
Qed.

Lemma truncatePending_spec p P Q n :
  pool_at p P Q n [] →
  ∃ p' P' n', truncatePending p = Ok p' ∧ capped p P Q n p' P' n' ∧ cut (AccountSlots (p_config p)) P P' ∧
    (∀ a, as_contains a (p_locals p) = true → P' a = P a) ∧
    (count (p_pending p') <= GlobalSlots (p_config p) ∨
     ∀ a, as_contains a (p_locals p) = false → len (P' a) <= AccountSlots (p_config p)).
Proof.
  intros Hp. pose proof (co_slots _ (pi_config _ _ _ _ _ (proj1 Hp))) as HA.
  unfold truncatePending. rewrite list_total_count.
  destruct (Z.leb_spec (count (p_pending p)) (GlobalSlots (p_config p))) as [Hle|Hgt].
  { exists p, P, n. split; [done|]. split; [by apply capped_refl|]. split; [by intros a; left|]. split; [done|by left]. }
  set (sp := (pq_pops (spammers_of p)).*1).
  assert (Hsp : ∀ a, a ∈ sp ↔ as_contains a (p_locals p) = false ∧ AccountSlots (p_config p) < len (P a)).
  { intros a. unfold sp. rewrite (pq_perm (spammers_of p)), list_elem_of_fmap. split.
    - intros ([b k] & -> & (? & ? & _)%(spammers_elem p P Q n)); done.
    - intros [Hl Hlen]. exists (a, len (P a)). split; [done|]. by apply (spammers_elem p P Q n). }
  destruct (offenders_spec sp [] p P Q n Hp) as (offs & p1 & P1 & n1 & -> & Hc1 & Hcut1 & Hsame1 & Hnd1 & Hsub1 & Hend1).
  - cbn [app]. unfold sp. rewrite (pq_perm (spammers_of p)). apply spammers_NoDup.
  - apply sorted_keys; [apply pq_sorted|]. intros a k. rewrite (pq_perm (spammers_of p)), (spammers_elem p P Q n) by done. tauto.
  - intros a Ha. by apply Hsp in Ha as [_ ?].
  - right. by left.
  - cbn [mbind res_bind]. cbn [app] in *. destruct (cp_env _ _ _ _ _ _ _ Hc1) as ([Ec _ El] & _).
    assert (Hloc : ∀ a, as_contains a (p_locals p) = true → P1 a = P a).
    { intros a Ha. apply Hsame1. rewrite Hsp, Ha. by intros [? _]. }
    assert (Hsmall : ∀ a, as_contains a (p_locals p) = false → a ∉ sp → len (P a) <= AccountSlots (p_config p)).
    { intros a Ha Hn. apply Z.nlt_ge. intros Hlt. apply Hn, Hsp. done. }
    destruct (last offs) as [prev|] eqn:Elast.
    + pose proof (last_elem _ _ Elast) as Hprev.
      assert (Hlv : count (p_pending p1) <= GlobalSlots (p_config p) ∨ offs = sp ∧ ∃ L, AccountSlots (p_config p) < L ∧ ∀ a, a ∈ offs → len (P1 a) = L).
      { destruct Hend1 as [?|[-> Hlv]]; [by left|]. destruct Hlv as [?|[->|(L & ? & ? & _)]]; rewrite ?Ec in *; [by left|by apply not_elem_of_nil in Hprev|].
        right. split; [done|]. by exists L. }
      destruct Hlv as [Hdone|(-> & L & HL & HLo)].
      * unfold cap_fuel. assert (Hstop : ∀ f, cap_rounds (S f) offs prev (AccountSlots (p_config p1)) (count (p_pending p1)) p1 = Ok (count (p_pending p1), p1)).
        { intros f. cbn [cap_rounds]. by rewrite (proj2 (Z.ltb_ge _ _)) by (rewrite Ec; lia). }
        exists p1, P1, n1. split; [destruct (p_pending p1 !! prev); by rewrite Hstop|]. split; [done|]. split; [done|]. split; [done|]. by left.
      * assert (Hpne : P1 prev ≠ []) by (intros E; specialize (HLo prev Hprev); rewrite E in HLo; unfold len in HLo; cbn in HLo; lia).
        pose proof (cap_fuel_enough p1 P1 Q n1 prev (cp_pool _ _ _ _ _ _ _ Hc1) Hpne) as Hfuel. rewrite (HLo prev Hprev) in Hfuel.
        pose proof (cp_count _ _ _ _ _ _ _ Hc1).
        destruct (cap_rounds_spec (cap_fuel prev p1) sp prev (AccountSlots (p_config p1)) p1 P1 Q n1 L (cp_pool _ _ _ _ _ _ _ Hc1) Hnd1 Hprev HLo)
          as (p2 & P2 & n2 & L2 & -> & Hc2 & Hl2 & HL2 & Hend2); [rewrite Ec; lia|rewrite Ec; lia|done|].
        rewrite Ec in *. cbn [mbind res_bind]. destruct (levelled_cut (AccountSlots (p_config p)) sp P1 P2 L2 L Hl2 HLo) as [Hcut2 Hlen2]; [lia|lia|].
        exists p2, P2, n2. split; [done|]. split; [by eapply capped_trans|]. split; [by eapply cut_trans|]. split.
        -- intros a Ha. rewrite (proj2 Hl2), Hloc; [done|done|]. rewrite Hsp, Ha. by intros [? _].
        -- destruct Hend2 as [?| ->]; [by left|right]. intros a Ha. destruct (decide (a ∈ sp)) as [Hin|Hin]; [rewrite Hlen2 by done; lia|].
           rewrite (proj2 Hl2), Hsame1 by done. by apply Hsmall.
    + exists p1, P1, n1. split; [done|]. split; [done|]. split; [done|]. split; [done|].
      destruct Hend1 as [?|[-> _]]; [by left|right]. apply last_None in Elast. intros a Ha.
      rewrite Hsame1 by (rewrite Elast; apply not_elem_of_nil). apply Hsmall; [done|]. rewrite Elast. apply not_elem_of_nil.
Qed.

(** ** truncateQueue *)

Lemma count_fmap m : count m = sum_Z (map_to_list (tl_Len <$> m)).*2.
Proof.
  unfold count. f_equal. rewrite map_to_list_fmap, <- !list_fmap_compose. apply list_fmap_ext. by intros i [a l] _.
Qed.

Lemma sum_insert (m : gmap Address Z) a x :
  sum_Z (map_to_list (<[a := x]> m)).*2 = x + sum_Z (map_to_list (delete a m)).*2.
Proof.
  rewrite <- insert_delete_eq. rewrite (sum_Z_perm _ ((a, x) :: map_to_list (delete a m)).*2); [done|].
  by rewrite map_to_list_insert by apply lookup_delete_eq.
Qed.

Lemma sum_delete (m : gmap Address Z) a :
  sum_Z (map_to_list m).*2 = default 0 (m !! a) + sum_Z (map_to_list (delete a m)).*2.
Proof.
  destruct (m !! a) as [x|] eqn:E; [|by rewrite delete_id].
  rewrite <- (insert_id m a x E) at 1. by rewrite sum_insert.
Qed.

(** The weights of the accounts of a map are the lengths of the lists it stands for. *)
Lemma weights strict m P a : lists_at strict m P → default 0 ((tl_Len <$> m) !! a) = len (P a).
Proof.
  intros Hm. specialize (Hm a). rewrite lookup_fmap. destruct (m !! a) as [l|]; cbn.
  - destruct Hm as (Hl & _). by rewrite (tabs_Len _ _ Hl).
  - by rewrite Hm.
Qed.

Lemma weights_update strict m m' Q a s :
  lists_at strict m Q → lists_at strict m' (<[a := s]> Q) → delete a (tl_Len <$> m') = delete a (tl_Len <$> m).
Proof.
  intros Hm Hm'. apply map_eq. intros b. destruct (decide (a = b)) as [<-|Hne]; [by rewrite !lookup_delete_eq|].
  rewrite !lookup_delete_ne, !lookup_fmap by done. specialize (Hm b). specialize (Hm' b).
  rewrite fn_lookup_insert_ne in Hm' by done. destruct (m !! b) as [l|], (m' !! b) as [l'|]; cbn.
  - destruct Hm as (Hl & _), Hm' as (Hl' & _). by rewrite (tabs_Len _ _ Hl), (tabs_Len _ _ Hl').
  - destruct Hm as (_ & _ & Hne'). by rewrite Hm' in Hne'.
  - destruct Hm' as (_ & _ & Hne'). by rewrite Hm in Hne'.
  - done.
Qed.

Lemma count_update strict m m' Q a s :
  lists_at strict m Q → lists_at strict m' (<[a := s]> Q) → count m' = count m - len (Q a) + len s.
Proof.
  intros Hm Hm'. rewrite !count_fmap, (sum_delete (tl_Len <$> m) a), (sum_delete (tl_Len <$> m') a).
  rewrite (weights_update _ _ _ _ _ _ Hm Hm'), (weights _ _ _ a Hm), (weights _ _ _ a Hm'), fn_lookup_insert. lia.
Qed.

Lemma count_same strict m m' P : lists_at strict m P → lists_at strict m' P → count m' = count m.
Proof.
  intros Hm Hm'. rewrite (count_update strict m m' P [] (P [])); [lia|done|].
  eapply lists_ext; [|exact Hm']. intros b. apply insert_same.
Qed.

(** The effect of removals from the queue: the pending lists and the noncer stay. *)
Record dequeued (p : TxPool) (P Q : view) (n : txNoncer) (a : Address) (s : list Transaction) (p' : TxPool) : Prop := {
  dq_pool : pool_at p' P (<[a := s]> Q) n [];
  dq_env : same_env p p';
  dq_count : count (p_queue p') = count (p_queue p) - len (Q a) + len s;
}.

Lemma insert_insert_view (Q : view) a s s' b : (<[a := s]> (<[a := s']> Q)) b = (<[a := s]> Q) b.
Proof. destruct (decide (a = b)) as [<-|Hne]; [by rewrite !fn_lookup_insert|by rewrite !fn_lookup_insert_ne]. Qed.

Lemma pool_at_ext p P Q Q' n : (∀ a, Q a = Q' a) → pool_at p P Q n [] → pool_at p P Q' n [].
Proof.
  intros HQ [Hi En]. split; [|done]. eapply pool_inv_ext; [done|exact HQ|]. eapply pool_inv_iff; [|exact Hi].
  intros x. unfold in_pool. apply exist_proper. intros a. by rewrite HQ.
Qed.

Lemma dequeued_trans p P Q n a s p1 s2 p2 :
  dequeued p P Q n a s p1 → dequeued p1 P (<[a := s]> Q) n a s2 p2 → dequeued p P Q n a s2 p2.
Proof.
  intros [Hp1 He1 Hc1] [Hp2 He2 Hc2]. split; [|by etransitivity|rewrite fn_lookup_insert in Hc2; lia].
  eapply pool_at_ext; [|exact Hp2]. intros b. apply insert_insert_view.
Qed.

Lemma dequeue_one now p P Q n a tx :
  pool_at p P Q n [] → tx ∈ Q a →
  ∃ p', removeTx now (px_Hash tx) true p = Ok p' ∧
    dequeued p P Q n a (filter (λ x, tx_Nonce x ≠ tx_Nonce tx) (Q a)) p'.
Proof.
  intros [Hi En] Hin. assert (Hpool : in_pool P Q tx) by (exists a; by right).
  destruct (removeTx_queued now p P Q _ [] tx a true Hi Hpool Hin) as (p' & E & Hi' & He & En').
  exists p'. split; [done|]. pose proof (lists_sorted _ _ _ a (pi_queue _ _ _ _ _ Hi)) as HsQ.
  pose proof (removal_queued P Q n a tx (pi_views _ _ _ _ _ Hi) HsQ Hin (known_in_pool _ _ _ _ _ Hi Hpool)) as Hrm.
  split; [split; [|congruence]|done|].
  - eapply pool_inv_iff; [|exact Hi']. intros x. rewrite (rm_pool _ _ _ _ _ _ _ Hrm), known_hash; [done|]. by eapply known_in_pool.
  - apply (count_update false _ _ Q); [apply (pi_queue _ _ _ _ _ Hi)|apply (pi_queue _ _ _ _ _ Hi')].
Qed.

Lemma filter_head x s : StronglySorted nonce_lt (x :: s) → filter (λ y, tx_Nonce y ≠ tx_Nonce x) (x :: s) = s.
Proof.
  intros [_ Hx]%StronglySorted_inv. rewrite filter_cons_False by naive_solver. apply filter_all.
  eapply Forall_impl; [exact Hx|]. unfold nonce_lt. intros; lia.
Qed.

Lemma filter_last s x : StronglySorted nonce_lt (s ++ [x]) → filter (λ y, tx_Nonce y ≠ tx_Nonce x) (s ++ [x]) = s.
Proof.
  intros (Hlt & _ & _)%StronglySorted_app. rewrite filter_app, filter_cons_False, filter_nil, app_nil_r by naive_solver.
  apply filter_all. rewrite Forall_forall. intros y Hy. specialize (Hlt y x Hy ltac:(by left)). unfold nonce_lt in Hlt. lia.
Qed.

Lemma dequeued_refl p P Q n a : pool_at p P Q n [] → dequeued p P Q n a (Q a) p.
Proof. intros Hp. split; [eapply pool_at_ext; [|exact Hp]; apply insert_same|done|lia]. Qed.

(** Removing a whole queue, from the front. *)
Lemma dequeue_all now txs p P Q n a :
  pool_at p P Q n [] → Q a = txs → ∃ p', removeTxs now txs true p = Ok p' ∧ dequeued p P Q n a [] p'.
Proof.
  revert p Q. induction txs as [|tx txs IH]; intros p Q Hp EQ; cbn [removeTxs].
  { exists p. split; [done|]. rewrite <- EQ. by apply dequeued_refl. }
  destruct (dequeue_one now p P Q n a tx Hp) as (p1 & -> & Hd); [rewrite EQ; by left|]. cbn [mbind res_bind].
  destruct (pool_at_sorted _ _ _ _ _ a Hp) as [_ HsQ]. rewrite EQ in HsQ, Hd. rewrite filter_head in Hd by done.
  destruct (IH p1 (<[a := txs]> Q) (dq_pool _ _ _ _ _ _ _ Hd)) as (p' & -> & Hd'); [by rewrite fn_lookup_insert|].
  exists p'. split; [done|]. by eapply dequeued_trans.
Qed.

(** Removing the last ones. *)
Lemma dequeue_last now rtxs drop p P Q n a :
  pool_at p P Q n [] → Q a = reverse rtxs → 0 <= drop <= len (Q a) →
  ∃ p', drop_last now rtxs drop p = Ok (0, p') ∧ dequeued p P Q n a (take (Z.to_nat (len (Q a) - drop)) (Q a)) p'.
Proof.
  revert drop p Q. induction rtxs as [|tx rtxs IH]; intros drop p Q Hp EQ Hd; cbn [drop_last].
  { rewrite EQ in Hd. cbn in Hd. unfold len in Hd. cbn in Hd. assert (drop = 0) as -> by lia. exists p. split; [done|].
    rewrite Z.sub_0_r, take_ge by (unfold len; lia). by apply dequeued_refl. }
  destruct (Z.ltb_spec 0 drop) as [Hpos|Hz].
  2: { assert (drop = 0) as -> by lia. exists p. split; [done|]. rewrite Z.sub_0_r, take_ge by (unfold len; lia).
       by apply dequeued_refl. }
  rewrite reverse_cons in EQ. destruct (dequeue_one now p P Q n a tx Hp) as (p1 & -> & Hdq); [rewrite EQ; set_solver|].
  cbn [mbind res_bind]. destruct (pool_at_sorted _ _ _ _ _ a Hp) as [_ HsQ]. rewrite EQ in HsQ.
  rewrite EQ in Hdq. rewrite filter_last in Hdq by done.
  assert (Hl : len (Q a) = len (reverse rtxs) + 1) by (rewrite EQ, len_app; done).
  destruct (IH (drop - 1) p1 (<[a := reverse rtxs]> Q) (dq_pool _ _ _ _ _ _ _ Hdq)) as (p' & -> & Hdq').
  - by rewrite fn_lookup_insert.
  - rewrite fn_lookup_insert. lia.
  - exists p'. split; [done|]. rewrite fn_lookup_insert in Hdq'.
    replace (take (Z.to_nat (len (Q a) - drop)) (Q a)) with (take (Z.to_nat (len (reverse rtxs) - (drop - 1))) (reverse rtxs));
      [by eapply dequeued_trans|].
    rewrite EQ, len_app, take_app_le by (unfold len in *; cbn; lia). f_equal. unfold len. cbn. lia.
Qed.

Lemma truncate_loop_zero now addrs p : truncate_loop now addrs 0 p = Ok p.
Proof. by destruct addrs. Qed.

(** The queues of some accounts are cut, those of the others stay. *)
Record shortened (p : TxPool) (P Q : view) (n : txNoncer) (addrs : list Address) (p' : TxPool) (Q' : view) : Prop := {
  sh_pool : pool_at p' P Q' n [];
  sh_env : same_env p p';
  sh_other : ∀ a, a ∉ addrs → Q' a = Q a;
  sh_cut : ∀ a, ∃ k, Q' a = take k (Q a);
}.

Lemma shortened_refl p P Q n addrs : pool_at p P Q n [] → shortened p P Q n addrs p Q.
Proof. intros Hp. split; [done..|]. intros a. exists (length (Q a)). by rewrite take_ge. Qed.

Lemma dequeued_shortened p P Q n a k p' addrs :
  a ∈ addrs → dequeued p P Q n a (take k (Q a)) p' → shortened p P Q n addrs p' (<[a := take k (Q a)]> Q).
Proof.
  intros Ha [Hp' He _]. split; [done|done|..].
  - intros b Hb. by rewrite fn_lookup_insert_ne by (by intros ->).
  - intros b. destruct (decide (a = b)) as [<-|Hne]; [exists k; by rewrite fn_lookup_insert|].
    exists (length (Q b)). by rewrite fn_lookup_insert_ne, take_ge.
Qed.

Lemma shortened_trans p P Q n addrs p1 Q1 p2 Q2 :
  shortened p P Q n addrs p1 Q1 → shortened p1 P Q1 n addrs p2 Q2 → shortened p P Q n addrs p2 Q2.
Proof.
  intros [Hp1 He1 Ho1 Hc1] [Hp2 He2 Ho2 Hc2]. split; [done|by etransitivity|..].
  - intros a Ha. by rewrite Ho2, Ho1.
  - intros a. destruct (Hc2 a) as (k2 & ->), (Hc1 a) as (k1 & ->). exists (k2 `min` k1)%nat. by rewrite take_take.
Qed.

Lemma shortened_mono p P Q n addrs addrs' p' Q' :
  addrs ⊆ addrs' → shortened p P Q n addrs p' Q' → shortened p P Q n addrs' p' Q'.
Proof. intros Hs [? ? Ho ?]. split; [done..| |done]. intros a Ha. apply Ho. auto. Qed.

Lemma truncate_loop_spec now addrs drop p P Q n G :
  pool_at p P Q n [] → NoDup addrs → (∀ a, a ∈ addrs → Q a ≠ []) → 0 <= drop → count (p_queue p) = G + drop →
  ∃ p' Q', truncate_loop now addrs drop p = Ok p' ∧ shortened p P Q n addrs p' Q' ∧
    (count (p_queue p') <= G ∨ ∀ a, a ∈ addrs → Q' a = []).
Proof.
  revert drop p Q. induction addrs as [|a addrs IH]; intros drop p Q Hp Hnd Hne Hd Hc; cbn [truncate_loop].
  { exists p, Q. split; [done|]. split; [by apply shortened_refl|right]. by intros a ?%not_elem_of_nil. }
  destruct (Z.ltb_spec 0 drop) as [Hpos|Hz].
  2: { exists p, Q. split; [done|]. split; [by apply shortened_refl|left; lia]. }
  apply NoDup_cons in Hnd as [Hna Hnd]. pose proof Hp as [Hi En].
  destruct (proj2 (queue_some p P Q _ _ a Hi) (Hne a ltac:(by left))) as [l El]. rewrite El. cbn [deref mbind res_bind].
  pose proof (lists_some _ _ _ _ _ (pi_queue _ _ _ _ _ Hi) El) as (Htl & _). rewrite (tabs_Len _ _ Htl).
  destruct (flatten_queue p P Q _ [] a l Hi El) as (l' & -> & Hi1).
  set (p1 := set_queue (<[a := l']> (p_queue p)) p) in *.
  assert (Hp1 : pool_at p1 P Q n []) by done. assert (He1 : same_env p p1) by done.
  assert (Hc1 : count (p_queue p1) = count (p_queue p)) by (eapply count_same; [apply (pi_queue _ _ _ _ _ Hi)|apply (pi_queue _ _ _ _ _ Hi1)]).
  assert (Hsh1 : shortened p P Q n (a :: addrs) p1 Q).
  { destruct (shortened_refl p1 P Q n (a :: addrs) Hp1). by split. }
  pose proof (len_nonneg (Q a)).
  destruct (Z.leb_spec (len (Q a)) drop) as [Hle|Hgt].
  - destruct (dequeue_all now (Q a) p1 P Q n a Hp1 eq_refl) as (p2 & -> & Hdq). cbn [mbind res_bind].
    pose proof (dq_count _ _ _ _ _ _ _ Hdq) as Hc2. change (len (@nil Transaction)) with 0 in Hc2.
    destruct (IH (drop - len (Q a)) p2 (<[a := []]> Q) (dq_pool _ _ _ _ _ _ _ Hdq) Hnd) as (p' & Q' & -> & Hsh & Hend); [|lia|lia|].
    { intros b Hb. rewrite fn_lookup_insert_ne by (by intros ->). apply Hne. by right. }
    exists p', Q'. split; [done|]. split.
    + eapply shortened_trans; [exact Hsh1|]. eapply shortened_trans; [|eapply shortened_mono; [|exact Hsh]; set_solver].
      apply (dequeued_shortened p1 P Q n a 0 p2 (a :: addrs)); [by left|done].
    + destruct Hend as [?|Hall]; [by left|right]. intros b [->|Hb]%elem_of_cons; [|by apply Hall].
      rewrite (sh_other _ _ _ _ _ _ _ Hsh) by done. by rewrite fn_lookup_insert.
  - destruct (dequeue_last now (reverse (Q a)) drop p1 P Q n a Hp1) as (p2 & -> & Hdq); [by rewrite reverse_involutive|lia|].
    cbn [mbind res_bind]. rewrite truncate_loop_zero. eexists p2, _. split; [done|]. split.
    + eapply shortened_trans; [exact Hsh1|]. eapply dequeued_shortened; [by left|exact Hdq].
    + left. pose proof (dq_count _ _ _ _ _ _ _ Hdq) as Hc2. unfold len in Hc2. rewrite length_take in Hc2. unfold len in *. lia.
Qed.

Lemma beats_elem p P Q n a :
  pool_at p P Q n [] → a ∈ (beats_of p).*1 ↔ as_contains a (p_locals p) = false ∧ Q a ≠ [].
Proof.
  intros [Hi _]. unfold beats_of. rewrite <- list_fmap_compose. rewrite list_elem_of_fmap. cbn [compose fst]. split.
  - intros (b & -> & [Hl Hin]%list_elem_of_filter). split; [done|]. apply (queue_some p P Q _ _ b Hi).
    by apply (range_keys_elem (p_queue p)).
  - intros [Hl Hq]. exists a. split; [done|]. apply list_elem_of_filter. split; [done|].
    apply (range_keys_elem (p_queue p)). by apply (queue_some p P Q _ _ a Hi).
Qed.

Lemma truncateQueue_spec now p P Q n :
  pool_at p P Q n [] →
  ∃ p' Q' addrs, truncateQueue now p = Ok p' ∧ shortened p P Q n addrs p' Q' ∧
    (∀ a, as_contains a (p_locals p) = true → Q' a = Q a) ∧
    (count (p_queue p') <= GlobalQueue (p_config p) ∨ ∀ a, as_contains a (p_locals p) = false → Q' a = []).
Proof.
  intros Hp. pose proof (co_gqueue _ (pi_config _ _ _ _ _ (proj1 Hp))) as HG. pose proof (count_nonneg (p_queue p)).
  unfold truncateQueue. rewrite list_total_count.
  destruct (Z.leb_spec (count (p_queue p)) (GlobalQueue (p_config p))) as [Hle|Hgt].
  { exists p, Q, []. split; [done|]. split; [by apply shortened_refl|]. split; [done|by left]. }
  set (addrs := reverse (sort_beats (beats_of p)).*1).
  assert (Hin : ∀ a, a ∈ addrs ↔ as_contains a (p_locals p) = false ∧ Q a ≠ []).
  { intros a. unfold addrs. rewrite elem_of_reverse, (sort_beats_perm (beats_of p)). by apply (beats_elem p P Q n). }
  destruct (truncate_loop_spec now addrs (count (p_queue p) - GlobalQueue (p_config p)) p P Q n (GlobalQueue (p_config p)) Hp)
    as (p' & Q' & -> & Hsh & Hend).
  - unfold addrs. rewrite reverse_Permutation, (sort_beats_perm (beats_of p)). unfold beats_of. rewrite <- list_fmap_compose.
    cbn [compose fst]. rewrite list_fmap_id. eapply sublist_NoDup; [apply (range_keys_NoDup (p_queue p))|]. apply sublist_filter.
  - intros a Ha. by apply Hin in Ha as [_ ?].
  - lia.
  - lia.
  - exists p', Q', addrs. split; [done|]. split; [done|]. split.
    + intros a Ha. apply (sh_other _ _ _ _ _ _ _ Hsh). rewrite Hin, Ha. by intros [? _].
    + destruct Hend as [?|Hall]; [by left|right]. intros a Ha. destruct (decide (a ∈ addrs)) as [Hx|Hx]; [by apply Hall|].
      rewrite (sh_other _ _ _ _ _ _ _ Hsh) by done. destruct (Q a) as [|x s] eqn:E; [done|]. destruct Hx. apply Hin. by rewrite E.
Qed.
End limits.
