(* ===== verification/PoolRun.v ===== *)
(** * Runs of the transaction pool (evmcore/tx_pool.go)

    The reset to a new head, the reorganisation as a whole and sequences of operations of
    the pool, with the theorems about them and concrete pools. *)

From stdpp Require Import sorting functions.
From S2P Require Import Prelude Cser Inter TxSer Pos Heap EvmState EvmChain TxList TxPool PoolInv PoolOps PoolReorg PoolLimits.

Section run.
Context `{MapRangeLaws} `{GoHeapLaws Z nonce_less} `{GoHeapLaws Transaction price_less} `{PoolTx} `{GasTable}.
Context `{PrqueLaws} `{SortBeatsLaws}.

Notation view := (Address → list Transaction).
Notation tabs := (tl_abs px_Cost).
Notation state_nonce n := (GetNonce (nc_fallback n)).

(** ** The last loop of a reorganisation *)

Definition settled_next (P : view) (n : txNoncer) (a : Address) : Z :=
  match last (P a) with Some t => tx_Nonce t + 1 | None => next_nonce n a end.

Lemma settle_nonces_spec lists p P Q n :
  pool_at p P Q n [] → NoDup lists.*1 → (∀ a l, (a, l) ∈ lists → p_pending p !! a = Some l) →
  ∃ p' n', settle_nonces lists p = Ok p' ∧ pool_at p' P Q n' [] ∧ same_env p p' ∧ p_queue p' = p_queue p ∧
    nc_fallback n' = nc_fallback n ∧
    (∀ a, next_nonce n' a = if bool_decide (a ∈ lists.*1) then settled_next P n a else next_nonce n a).
Proof.
  revert p n. induction lists as [|[a l] lists IH]; intros p n Hp Hnd Hls; cbn [settle_nonces].
  { exists p, n. split; [done|]. split; [done|]. split; [done|]. split; [done|]. split; [done|].
    intros a. rewrite bool_decide_false; [done|]. apply not_elem_of_nil. }
  rewrite fmap_cons in *. cbn [fst] in *. apply NoDup_cons in Hnd as [Hna Hnd]. pose proof Hp as [Hi En].
  pose proof (Hls a l ltac:(by left)) as El.
  destruct (lists_some _ _ _ _ _ (pi_pending _ _ _ _ _ Hi) El) as (Htl & Hst & Hne).
  destruct (P a) as [|t s _] eqn:EP using rev_ind; [done|].
  destruct (tabs_LastElement l s t Htl) as (l' & -> & Hl' & Hst'). cbn [mbind res_bind].
  assert (Hn : nonce_ok t) by (eapply vo_nonce; [apply (pi_views _ _ _ _ _ Hi)|left; rewrite EP; set_solver]).
  unfold nonce_ok in Hn. rewrite u64_id by (unfold is_u64; lia).
  unfold pool_set_nonce. cbn [p_pendingNonces set_pending]. rewrite En. cbn [deref mbind res_bind].
  set (n1 := noncer_set a (tx_Nonce t + 1) n).
  set (p1 := set_pendingNonces (Some n1) (set_pending (<[a := l']> (p_pending p)) p)).
  assert (Hp1 : pool_at p1 P Q n1 []).
  { split; [|done]. eapply nonces_inv; [|exact En|done]. destruct Hi. split; try done.
    eapply lists_ext; [|apply (lists_insert true _ P a l' (P a) pi_pending)].
    - intros b. symmetry. apply insert_same.
    - by rewrite EP.
    - congruence.
    - rewrite EP. by destruct s. }
  destruct (IH p1 n1 Hp1 Hnd) as (p' & n' & E & Hp' & He & Eq & Hfb & Hnx).
  { intros b l0 Hb. cbn. rewrite lookup_insert_ne; [apply Hls; by right|]. intros <-. apply Hna.
    by apply (list_elem_of_fmap_2 fst) in Hb. }
  exists p', n'. split; [done|]. split; [done|]. split; [transitivity p1; [by split|done]|]. split; [done|]. split; [done|].
  intros b. rewrite Hnx. unfold settled_next. unfold n1. rewrite next_nonce_set.
  destruct (decide (a = b)) as [<-|Hab].
  - rewrite (bool_decide_false (a ∈ lists.*1)), !bool_decide_true by (done || by left). by rewrite EP, last_snoc.
  - rewrite (bool_decide_false (a = b)) by done.
    assert (Hiff : b ∈ a :: lists.*1 ↔ b ∈ lists.*1) by (rewrite elem_of_cons; naive_solver).
    by rewrite (bool_decide_ext _ _ Hiff).
Qed.

Lemma settle_spec p P Q n :
  pool_at p P Q n [] →
  ∃ p' n', settle_nonces (range_of (p_pending p)) p = Ok p' ∧ pool_at p' P Q n' [] ∧ same_env p p' ∧
    p_queue p' = p_queue p ∧ nc_fallback n' = nc_fallback n ∧ (executable P n → settled P n').
Proof.
  intros Hp. destruct (settle_nonces_spec (range_of (p_pending p)) p P Q n Hp) as (p' & n' & E & Hp' & He & Eq & Hfb & Hnx).
  - apply (range_keys_NoDup (p_pending p)).
  - intros a l. by rewrite (range_elem (p_pending p)).
  - exists p', n'. split; [done|]. split; [done|]. split; [done|]. split; [done|]. split; [done|].
    intros Hex a. destruct (Hex a) as [Hrun Hb]. rewrite Hfb, Hnx. split; [done|].
    destruct (decide (P a = [])) as [E0|Hne].
    + unfold settled_next. rewrite E0 in *. cbn [last]. change (len (@nil Transaction)) with 0 in *. destruct (bool_decide _); lia.
    + rewrite bool_decide_true.
      * destruct (last_seqZ (P a) _ Hrun Hne) as (t & Et & En). unfold settled_next. rewrite Et. lia.
      * apply (range_keys_elem (p_pending p)). destruct (pending_list p P Q n [] a Hp Hne) as (l & El & _). by exists l.
Qed.

(** ** The walk over the chains *)

(** The chain finds a block under its own number, and none under the last one. *)
Definition chain_ok (ch : stateReader) : Prop :=
  ∀ h k b, sr_GetBlock ch h k = Some b → NumberU64 b = k ∧ 0 <= k < 2 ^ 64 - 1.

Lemma parent_number ch b b' :
  chain_ok ch → 0 < NumberU64 b < 2 ^ 64 → parent_of ch b = Some b' → NumberU64 b' = NumberU64 b - 1.
Proof.
  intros Hch Hb E. apply Hch in E as [E _]. rewrite E. apply u64_id. unfold is_u64. lia.
Qed.

Lemma parent_zero ch b : chain_ok ch → NumberU64 b = 0 → parent_of ch b = None.
Proof.
  intros Hch Hb. unfold parent_of. rewrite Hb. destruct (sr_GetBlock _ _ _) as [b'|] eqn:E; [|done].
  apply Hch in E as [_ E]. change (u64 (0 - 1)) with (2 ^ 64 - 1) in E. lia.
Qed.

Lemma descend_ok fuel ch b bound txs :
  chain_ok ch → 0 <= bound → NumberU64 b < 2 ^ 64 → NumberU64 b - bound <= Z.of_nat fuel →
  ∃ o, descend fuel ch b bound txs = Ok o ∧
    (∀ b' txs', o = Some (b', txs') → NumberU64 b' = Z.min (NumberU64 b) bound).
Proof.
  intros Hch H0'. revert b txs. induction fuel as [|fuel IH]; intros b txs Hb Hf; cbn [descend].
  - rewrite (proj2 (Z.ltb_ge bound (NumberU64 b))) by lia. eexists. split; [done|]. intros b' txs' [= <- _]. lia.
  - destruct (Z.ltb_spec bound (NumberU64 b)) as [Hlt|Hge].
    2: { eexists. split; [done|]. intros b' txs' [= <- _]. lia. }
    destruct (parent_of ch b) as [b'|] eqn:E; [|by eexists].
    pose proof (parent_number ch b b' Hch ltac:(lia) E) as En.
    destruct (IH b' (txs ++ eb_Transactions b)) as (o & Eo & Ho); [lia|lia|]. exists o. split; [done|].
    intros c txs' Ec. rewrite (Ho c txs' Ec). lia.
Qed.

Lemma common_ancestor_ok fuel ch rem add d i :
  chain_ok ch → NumberU64 rem = NumberU64 add → 0 <= NumberU64 rem < 2 ^ 64 → NumberU64 rem < Z.of_nat fuel →
  ∃ w, common_ancestor fuel ch rem add d i = Ok w.
Proof.
  intros Hch. revert rem add d i. induction fuel as [|fuel IH]; intros rem add d i Heq Hr Hf; [lia|]. cbn [common_ancestor].
  case_bool_decide; [by eexists|]. destruct (parent_of ch rem) as [rem'|] eqn:Er; [|by eexists].
  destruct (parent_of ch add) as [add'|] eqn:Ea; [|by eexists].
  assert (0 < NumberU64 rem).
  { destruct (Z.eq_dec (NumberU64 rem) 0) as [Hz|]; [|lia]. rewrite (parent_zero ch rem Hch Hz) in Er. done. }
  pose proof (parent_number ch rem rem' Hch ltac:(lia) Er). pose proof (parent_number ch add add' Hch ltac:(lia) Ea).
  apply IH; lia.
Qed.

Lemma walk_chains_ok ch rem add :
  chain_ok ch → 0 <= NumberU64 rem < 2 ^ 64 → 0 <= NumberU64 add < 2 ^ 64 → ∃ w, walk_chains ch rem add = Ok w.
Proof.
  intros Hch Hr Ha. unfold walk_chains.
  destruct (descend_ok (Z.to_nat (NumberU64 rem)) ch rem (NumberU64 add) [] Hch) as (o & -> & Ho); [lia..|].
  cbn [mbind res_bind]. destruct o as [[rem' d]|]; [|by eexists]. specialize (Ho rem' d eq_refl).
  destruct (descend_ok (Z.to_nat (NumberU64 add)) ch add (NumberU64 rem') [] Hch) as (o & -> & Ho'); [lia..|].
  cbn [mbind res_bind]. destruct o as [[add' i]|]; [|by eexists]. specialize (Ho' add' i eq_refl).
  apply common_ancestor_ok; [done|lia..].
Qed.

(** A block of a chain that the other one continues. *)
Inductive extends (ch : stateReader) (b : EvmBlock) : EvmBlock → Prop :=
  | extends_same c : h_Hash (eb_Header b) = h_Hash (eb_Header c) → NumberU64 b = NumberU64 c → extends ch b c
  | extends_parent c d : NumberU64 b < NumberU64 c → parent_of ch c = Some d → extends ch b d → extends ch b c.

Lemma descend_extends fuel ch b c txs :
  chain_ok ch → 0 <= NumberU64 b → extends ch b c → NumberU64 c < 2 ^ 64 → NumberU64 c - NumberU64 b <= Z.of_nat fuel →
  ∃ c' txs', descend fuel ch c (NumberU64 b) txs = Ok (Some (c', txs')) ∧ h_Hash (eb_Header b) = h_Hash (eb_Header c').
Proof.
  intros Hch H0' Hex. revert fuel txs. induction Hex as [c Hh Hn|c d Hlt Hpar Hex IH]; intros fuel txs Hc Hf.
  - destruct fuel; cbn [descend]; rewrite (proj2 (Z.ltb_ge _ _)) by lia; by eexists _, _.
  - destruct fuel as [|fuel]; [lia|]. cbn [descend]. rewrite (proj2 (Z.ltb_lt _ _)) by lia. rewrite Hpar.
    pose proof (parent_number ch c d Hch ltac:(lia) Hpar). apply IH; lia.
Qed.

Lemma extends_number ch b c : chain_ok ch → extends ch b c → NumberU64 c < 2 ^ 64 → 0 <= NumberU64 b → NumberU64 b <= NumberU64 c.
Proof. intros Hch [c' Hh Hn|c' d Hlt _ _] _ _; lia. Qed.

Lemma walk_extends ch b c :
  chain_ok ch → 0 <= NumberU64 b → NumberU64 c < 2 ^ 64 → extends ch b c →
  ∃ included, walk_chains ch b c = Ok (Rooted [] included).
Proof.
  intros Hch H0' Hc Hex. pose proof (extends_number ch b c Hch Hex Hc H0'). unfold walk_chains.
  assert (Hd : descend (Z.to_nat (NumberU64 b)) ch b (NumberU64 c) [] = Ok (Some (b, []))).
  { destruct (Z.to_nat (NumberU64 b)); cbn [descend]; by rewrite (proj2 (Z.ltb_ge _ _)) by lia. }
  rewrite Hd. cbn [mbind res_bind].
  destruct (descend_extends (Z.to_nat (NumberU64 c)) ch b c [] Hch H0' Hex Hc) as (c' & txs & -> & Hh); [lia|].
  cbn [mbind res_bind common_ancestor]. exists txs. by rewrite bool_decide_true.
Qed.

(** ** Following the chain *)

Lemma run_from s b b' :
  tx_Nonce <$> s = seqZ b (len s) → b <= b' → tx_Nonce <$> from b' s = seqZ b' (len (from b' s)).
Proof.
  revert b. induction s as [|x s IH]; intros b Hs Hb; [done|].
  pose proof Hs as Hs'. replace (len (x :: s)) with (1 + len s) in Hs' by (unfold len; cbn; lia). rewrite seqZ_cons in Hs' by (unfold len; lia).
  rewrite fmap_cons in Hs'. apply (inj2 (::)) in Hs' as [Ex Hs']. replace (Z.pred (1 + len s)) with (len s) in Hs' by lia.
  destruct (Z.eq_dec b b') as [<-|Hne].
  - unfold from. rewrite filter_all; [done|]. rewrite Forall_forall. intros y Hy.
    assert (Hin : tx_Nonce y ∈ seqZ b (len (x :: s))) by (rewrite <- Hs; by apply list_elem_of_fmap_2).
    apply elem_of_seqZ in Hin. lia.
  - unfold from. rewrite filter_cons_False by lia. apply (IH (Z.succ b)); [done|lia].
Qed.

Lemma next_nonce_new st a : next_nonce (newTxNoncer st) a = GetNonce st a.
Proof. unfold next_nonce. cbn. by rewrite lookup_empty. Qed.

(** A state in which no account's nonce is lower leaves a run to be promoted and demoted. *)
Lemma resetting_reset st gas P n :
  executable P n → (∀ a, state_nonce n a <= GetNonce st a) → resetting st gas P (newTxNoncer st).
Proof.
  intros He Hst. split; [|intros a; left; apply next_nonce_new]. intros a. destruct (He a) as [Hrun _].
  rewrite next_nonce_new. cbn [newTxNoncer nc_fallback].
  split; [by eapply run_from|]. unfold live_part, len. lia.
Qed.

(** ** Events *)

(** A noncer that was read keeps its answers. *)
Lemma resetting_ext st gas P n n' :
  nc_fallback n' = nc_fallback n → (∀ b, next_nonce n' b = next_nonce n b) → resetting st gas P n → resetting st gas P n'.
Proof.
  intros Hf Hn [Hr Hp]. unfold pre_executable, live_part, executable in *.
  split; intros a; unfold pre_executable, live_part; rewrite !Hf, Hn; auto.
Qed.

Lemma pool_nonce_spec a p P Q n :
  pool_at p P Q n [] →
  ∃ p' n', pool_nonce a p = Ok (next_nonce n a, p') ∧ pool_at p' P Q n' [] ∧ same_env p p' ∧ p_queue p' = p_queue p ∧
    nc_fallback n' = nc_fallback n ∧ ∀ b, next_nonce n' b = next_nonce n b.
Proof.
  intros [Hi En]. destruct (noncer_get_spec n a) as (n' & E & Hf & Hn). unfold pool_nonce. rewrite En. cbn [deref mbind res_bind].
  rewrite E. eexists _, n'. split; [done|]. split; [split; [by eapply nonces_inv|done]|]. by split; [split|].
Qed.

Lemma forward_events_spec evs events p P Q n :
  pool_at p P Q n [] → (∀ a m, (a, m) ∈ evs → ∃ s, abs m s) → events_ok events →
  ∃ events' p' n', forward_events evs events p = Ok (events', p') ∧ events_ok events' ∧ pool_at p' P Q n' [] ∧
    same_env p p' ∧ nc_fallback n' = nc_fallback n ∧ ∀ b, next_nonce n' b = next_nonce n b.
Proof.
  revert events p n. induction evs as [|[a m] evs IH]; intros events p n Hp Hevs Hev; cbn [forward_events].
  { by exists events, p, n. }
  destruct (pool_nonce_spec a p P Q n Hp) as (p1 & n1 & -> & Hp1 & He1 & _ & Hf1 & Hn1). cbn [mbind res_bind].
  destruct (Hevs a m ltac:(by left)) as [s Hs]. destruct (Forward_refines m s (next_nonce n a) Hs) as (m' & -> & Hm').
  cbn [mbind res_bind].
  destruct (IH (if sm_Len m' =? 0 then delete a events else <[a := m']> events) p1 n1 Hp1)
    as (ev' & p' & n' & E & Hev' & Hp' & He' & Hf' & Hn').
  - intros b mb Hb. apply (Hevs b). by right.
  - intros b mb. destruct (_ =? _); [rewrite lookup_delete_Some; naive_solver|].
    rewrite lookup_insert_Some. intros [[_ <-]|[_ Hb]]; [by eexists|by eapply Hev].
  - exists ev', p', n'. split; [done|]. split; [done|]. split; [done|]. split; [by transitivity p1|].
    split; [congruence|]. intros b. by rewrite Hn'.
Qed.

(** ** The reorganisation *)

Definition pending_limited (c : TxPoolConfig) (p : TxPool) (P : view) : Prop :=
  count (p_pending p) <= GlobalSlots c ∨
  ∀ a, as_contains a (p_locals p) = false → len (P a) <= AccountSlots c.

Definition queue_limited (c : TxPoolConfig) (p : TxPool) (Q : view) : Prop :=
  count (p_queue p) <= GlobalQueue c ∨ ∀ a, as_contains a (p_locals p) = false → Q a = [].

(** What the truncations and the last loop leave: the limits hold, an account keeps what it
    is guaranteed and a local one everything. *)
Record limited (p : TxPool) (P Q : view) (n : txNoncer) (p' : TxPool) (P' Q' : view) (n' : txNoncer) : Prop := {
  li_pool : pool_at p' P' Q' n' [];
  li_env : same_env p p';
  li_fallback : nc_fallback n' = nc_fallback n;
  li_pending : pending_limited (p_config p) p' P';
  li_queue : queue_limited (p_config p) p' Q';
  li_locals : ∀ a, as_contains a (p_locals p) = true → P' a = P a ∧ Q' a = Q a;
  li_cut : cut (AccountSlots (p_config p)) P P';
  li_short : ∀ a, ∃ k, Q' a = take k (Q a);
  li_settled : executable P n → settled P' n';
}.

Lemma truncations_spec now p P Q n :
  pool_at p P Q n [] →
  ∃ p1 p2 p' P' Q' n', truncatePending p = Ok p1 ∧ truncateQueue now p1 = Ok p2 ∧
    settle_nonces (range_of (p_pending p2)) p2 = Ok p' ∧ limited p P Q n p' P' Q' n'.
Proof.
  intros Hp. destruct (truncatePending_spec p P Q n Hp) as (p1 & P1 & n1 & E1 & [Hp1 [He1 _] [D Hr] _] & Hcut & Hl1 & Hlim1).
  destruct (truncateQueue_spec now p1 P1 Q n1 Hp1) as (p2 & Q2 & addrs & E2 & [Hp2 He2 _ Hsh] & Hl2 & Hlim2).
  destruct (settle_spec p2 P1 Q2 n1 Hp2) as (p3 & n3 & E3 & Hp3 & He3 & Eq3 & Hf3 & Hset).
  exists p1, p2, p3, P1, Q2, n3. split; [done|]. split; [done|]. split; [done|].
  pose proof (removal_runs _ _ _ _ _ _ _ Hr) as (Hf1 & Hex1 & _).
  assert (Elc : p_locals p3 = p_locals p) by (rewrite (se_locals _ _ He3), (se_locals _ _ He2); apply (se_locals _ _ He1)).
  rewrite (se_locals _ _ He1), (se_config _ _ He1) in *.
  split; [done|by transitivity p2; [transitivity p1|]|congruence|..].
  - unfold pending_limited. rewrite Elc, (count_same true (p_pending p1) (p_pending p3) P1); [done|apply Hp1|apply Hp3].
  - unfold queue_limited. by rewrite Elc, Eq3.
  - intros a Ha. split; auto.
  - done.
  - done.
  - intros Hx. by apply Hset, Hex1.
Qed.

Lemma cut_incl A P P' a x : cut A P P' → x ∈ P' a → x ∈ P a.
Proof. intros Hc Hx. destruct (Hc a) as [E|(k & E & _)]; rewrite E in Hx; [done|]. by eapply subseteq_take. Qed.

(** A run on behalf of dirty accounts. *)
Lemma reorg_dirty_spec ch now dirty events p P Q n :
  pool_at p P Q n [] →
  ∃ promoted p' P' Q' n', reorg ch now None dirty events p = Ok (promoted, events, p') ∧ pool_at p' P' Q' n' [] ∧
    same_env p p' ∧ pending_limited (p_config p) p' P' ∧ queue_limited (p_config p) p' Q' ∧
    (executable P n → settled P' n').
Proof.
  intros Hp. unfold reorg. cbn [mbind res_bind]. destruct (pi_state _ _ _ _ _ (proj1 Hp)) as (st & n0 & Hst).
  assert (n0 = n) as -> by (destruct Hst as (_ & E & _); pose proof (proj2 Hp); congruence).
  destruct (promoteExecutables_spec now (match dirty with Some d => (as_flatten d).1 | None => [] end) [] p P Q n st Hp Hst)
    as (promoted & p1 & P1 & Q1 & n1 & -> & Hp1 & He1 & [Hf1 Hrun1 _ Hns1]). cbn [mbind res_bind].
  destruct (truncations_spec now p1 P1 Q1 n1 Hp1) as (p2 & p3 & p4 & P4 & Q4 & n4 & -> & E3 & E4 & Hlim). cbn [mbind res_bind].
  rewrite E3. cbn [mbind res_bind]. rewrite E4. cbn [mbind res_bind]. exists promoted, p4, P4, Q4, n4. destruct Hlim.
  rewrite (se_config _ _ He1) in *. split; [done|]. split; [done|]. split; [by transitivity p1|]. split; [done|]. split; [done|].
  intros Hex. apply li_settled0, executable_iff. apply executable_iff in Hex as [Hpre Hns]. auto.
Qed.

(** ** Creation *)

(** The numbers of a configuration are far from the bounds of their types. *)
Record config_bounds (c : TxPoolConfig) : Prop := {
  cb_bump : PriceBump c < 2 ^ 62;
  cb_queue : AccountQueue c < 2 ^ 63;
  cb_gslots : GlobalSlots c < 2 ^ 62;
  cb_gqueue : GlobalQueue c < 2 ^ 62;
}.

Lemma sanitize_ok c : config_bounds c → config_ok (sanitize c).
Proof.
  intros [Hb Hq Hs Hg].
  split; cbn; repeat match goal with |- context [?x <? 1] => destruct (Z.ltb_spec x 1) end; cbn; lia.
Qed.

Definition empty_view : view := λ _, [].

Lemma empty_settled st : settled empty_view (newTxNoncer st).
Proof. intros a. rewrite next_nonce_new. cbn. split; [done|]. unfold empty_view, len. cbn. lia. Qed.

Lemma new_pool_at ch now config cfg st :
  config_bounds config → sr_StateAt ch (h_Root (eb_Header (sr_CurrentBlock ch))) = Some st →
  ∃ p, NewTxPool ch now config cfg = Ok p ∧ pool_at p empty_view empty_view (newTxNoncer st) [] ∧
    p_config p = sanitize config ∧ p_events p = ∅ ∧ p_locals p = newAccountSet (Locals config).
Proof.
  intros Hc Hst. unfold NewTxPool, pool_reset. cbn [reinject_of mbind res_bind default]. unfold id. rewrite Hst.
  cbn [addTxsLocked mbind res_bind]. eexists. split; [done|].
  assert (Hp : ∀ h p, p_pending p = ∅ → p_queue p = ∅ → p_all p = newTxLookup → p_priced p = mkPriced [] 0 →
    p_config p = sanitize config → ph_currentState h = Some st → p_pendingNonces p = Some (newTxNoncer st) →
    pool_at (set_head h p) empty_view empty_view (newTxNoncer st) []).
  { intros h p Epe Eq Eal Epr Ec Eh En. split; [|done]. split; cbn.
    - intros a. by rewrite Epe, lookup_empty.
    - intros a. by rewrite Eq, lookup_empty.
    - split; intros a ?; unfold empty_view; set_solver.
    - rewrite Eal. split; [|apply map_disjoint_empty_l|done]. intros h' tx. unfold lk_Get. cbn. rewrite !lookup_empty.
      split; [done|]. intros (_ & a & Ha). unfold empty_view in Ha. set_solver.
    - rewrite Epr. apply heap_nil.
    - intros h' tx. rewrite Eal. cbn. by rewrite lookup_empty.
    - intros h' tx. rewrite Eal. cbn. by rewrite lookup_empty.
    - exists st, (newTxNoncer st). by split_and!.
    - rewrite Ec. by apply sanitize_ok. }
  split; [apply Hp|]; destruct (sr_Config ch); done.
Qed.

(** When the state of the current head cannot be opened the pool starts without a state
    and without a noncer. *)
Lemma new_pool_stateless ch now config cfg :
  sr_StateAt ch (h_Root (eb_Header (sr_CurrentBlock ch))) = None →
  ∃ p, NewTxPool ch now config cfg = Ok p ∧ ph_currentState (p_head p) = None ∧ p_pendingNonces p = None.
Proof.
  intros Hst. unfold NewTxPool, pool_reset. cbn [reinject_of mbind res_bind default]. unfold id. rewrite Hst.
  eexists. split; [done|]. by destruct (sr_Config ch).
Qed.

(** ** Reset *)

(** The transactions of the blocks have proper nonces. *)
Definition blocks_ok (ch : stateReader) : Prop :=
  ∀ h k b, sr_GetBlock ch h k = Some b → Forall nonce_ok (eb_Transactions b).

Lemma descend_nonces fuel ch b bound txs b' txs' :
  blocks_ok ch → Forall nonce_ok (eb_Transactions b) → Forall nonce_ok txs →
  descend fuel ch b bound txs = Ok (Some (b', txs')) → Forall nonce_ok txs' ∧ Forall nonce_ok (eb_Transactions b').
Proof.
  intros Hbl. revert b txs. induction fuel as [|fuel IH]; intros b txs Hb Ht; cbn [descend]; destruct (_ <? _); try done.
  - by intros [= <- <-].
  - destruct (parent_of ch b) as [c|] eqn:Ep; [|done]. apply IH; [by eapply Hbl|by apply Forall_app].
  - by intros [= <- <-].
Qed.

Lemma common_ancestor_nonces fuel ch rem add d i d' i' :
  blocks_ok ch → Forall nonce_ok (eb_Transactions rem) → Forall nonce_ok d →
  common_ancestor fuel ch rem add d i = Ok (Rooted d' i') → Forall nonce_ok d'.
Proof.
  intros Hbl. revert rem add d i. induction fuel as [|fuel IH]; intros rem add d i Hr Hd; cbn [common_ancestor];
    case_bool_decide; try done.
  - by intros [= <- _].
  - by intros [= <- _].
  - destruct (parent_of ch rem) as [rem'|] eqn:Er; [|done]. destruct (parent_of ch add) as [add'|]; [|done].
    apply IH; [by eapply Hbl|by apply Forall_app].
Qed.

Lemma walk_nonces ch rem add d i :
  blocks_ok ch → Forall nonce_ok (eb_Transactions rem) → walk_chains ch rem add = Ok (Rooted d i) → Forall nonce_ok d.
Proof.
  intros Hbl Hr. unfold walk_chains.
  destruct (descend _ ch rem _ []) as [[[rem' d0]|]| |] eqn:Ed; cbn [mbind res_bind]; try done.
  destruct (descend_nonces _ _ _ _ _ _ _ Hbl Hr (Forall_nil_2 _) Ed) as [Hd0 Hr'].
  destruct (descend _ ch add _ []) as [[[add' i0]|]| |]; cbn [mbind res_bind]; try done.
  by apply common_ancestor_nonces.
Qed.

(** A reset compares the two chains when the new head is not on top of the old one, the
    two are at most 64 blocks apart and the chain still has the block of the old one. *)
Definition compared (ch : stateReader) (oldHead newHead : EvmHeader) : Prop :=
  h_Hash oldHead ≠ h_ParentHash newHead ∧ Z.abs (h_Number oldHead - h_Number newHead) <= 64 ∧
  is_Some (sr_GetBlock ch (h_Hash oldHead) (h_Number oldHead)).

(** A request that the chain can serve: the new head is there, and the chain has its block
    when the two chains are compared. *)
Record request_ok (ch : stateReader) (r : resetRequest) : Prop := {
  rq_chain : chain_ok ch;
  rq_blocks : blocks_ok ch;
  rq_new : ∃ newHead, rr_newHead r = Some newHead ∧
    ∀ oldHead, rr_oldHead r = Some oldHead → compared ch oldHead newHead →
      is_Some (sr_GetBlock ch (h_Hash newHead) (h_Number newHead));
}.

Context `{!PoolTxLaws}.

Lemma reinject_ok ch r :
  request_ok ch r → ∃ o, reinject_of ch (rr_oldHead r) (rr_newHead r) = Ok o ∧ (∀ txs, o = Some txs → Forall nonce_ok txs).
Proof.
  intros [Hch Hbl (newHead & En & Hnew)]. unfold reinject_of. rewrite En.
  assert (Hnil : ∀ txs, Some [] = Some txs → Forall nonce_ok txs) by (intros txs [= <-]; constructor).
  destruct (rr_oldHead r) as [oldHead|]; [|by eexists]. cbn [deref mbind res_bind].
  case_bool_decide as Hpar; [by eexists|]. destruct (Z.ltb_spec 64 (Z.abs (h_Number oldHead - h_Number newHead))); [by eexists|].
  destruct (sr_GetBlock ch (h_Hash oldHead) (h_Number oldHead)) as [rem|] eqn:Er; [|destruct (_ <=? _); by eexists].
  destruct (Hnew oldHead eq_refl) as [add Ea]; [by split_and!; [|lia|rewrite Er]|]. rewrite Ea. cbn [deref mbind res_bind].
  pose proof (Hch _ _ _ Er) as [Er1 Er2]. pose proof (Hch _ _ _ Ea) as [Ea1 Ea2].
  destruct (walk_chains_ok ch rem add Hch) as (w & Ew); [lia|lia|]. rewrite Ew. cbn [mbind res_bind].
  destruct w as [|d i]; [by eexists|]. eexists. split; [done|]. intros txs [= <-].
  pose proof (walk_nonces ch rem add d i Hbl (Hbl _ _ _ Er) Ew) as Hd. rewrite Forall_forall in *. intros x Hx. by apply Hd, (px_TxDifference_sub d i).
Qed.

(** Without the block of the new head the comparison dereferences a missing block. *)
Lemma reset_panics ch now oldHead newHead p :
  compared ch oldHead newHead → sr_GetBlock ch (h_Hash newHead) (h_Number newHead) = None →
  pool_reset ch now (Some oldHead) (Some newHead) p = Panic.
Proof.
  intros (Hpar & Hd & [rem Er]) Ea. unfold pool_reset, reinject_of. cbn [deref mbind res_bind].
  rewrite bool_decide_false by done. rewrite (proj2 (Z.ltb_ge 64 _)) by done. by rewrite Er, Ea.
Qed.

(** A new head on top of the old one brings no transaction back. *)
Lemma reinject_extends ch oldHead newHead rem add :
  chain_ok ch → sr_GetBlock ch (h_Hash oldHead) (h_Number oldHead) = Some rem →
  sr_GetBlock ch (h_Hash newHead) (h_Number newHead) = Some add → extends ch rem add →
  reinject_of ch (Some oldHead) (Some newHead) = Ok (Some []).
Proof.
  intros Hch Er Ea Hex. unfold reinject_of. cbn [deref mbind res_bind]. case_bool_decide; [done|].
  destruct (_ <? _); [done|]. rewrite Er, Ea. cbn [deref mbind res_bind].
  pose proof (Hch _ _ _ Er) as [Er1 Er2]. pose proof (Hch _ _ _ Ea) as [Ea1 Ea2].
  destruct (walk_extends ch rem add Hch) as (inc & ->); [lia|lia|done|]. cbn [mbind res_bind]. do 2 f_equal.
  pose proof (px_TxDifference_sub [] inc) as Hd. destruct (px_TxDifference [] inc) as [|x l]; [done|].
  exfalso. eapply not_elem_of_nil, (Hd x). by left.
Qed.

Lemma head_inv p P Q S X h :
  pool_inv p P Q S X → ph_currentState h = ph_currentState (p_head p) → pool_inv (set_head h p) P Q S X.
Proof.
  intros [? ? ? ? ? ? ? (st & n & Est & En & Ef) ?] E. split; try done. exists st, n. split; [by cbn; rewrite E|done].
Qed.

Lemma chainconfig_inv p P Q n cfg :
  pool_at p P Q n [] → pool_at (set_chainconfig cfg p) P Q n [] ∧ env_grows p (set_head (p_head p) (set_chainconfig cfg p)) ∧
    ph_currentState (p_head (set_chainconfig cfg p)) = ph_currentState (p_head p) ∧
    ph_currentMaxGas (p_head (set_chainconfig cfg p)) = ph_currentMaxGas (p_head p).
Proof.
  intros [Hi En]. destruct cfg as [c|]; cbn; (split; [|by split_and!; [split|..]]); [|done].
  split; [by apply head_inv|done].
Qed.

(** The pool after a reset: at a new state with the old pending lists, or, when the reset
    was abandoned, at the old one. *)
Record reset_outcome (ch : stateReader) (r : resetRequest) (p : TxPool) (P Q : view) (n : txNoncer)
    (p' : TxPool) (P' Q' : view) (n' : txNoncer) : Prop := {
  ro_pool : pool_at p' P' Q' n' [];
  ro_config : p_config p' = p_config p;
  ro_locals : ∀ b, as_contains b (p_locals p) = true → as_contains b (p_locals p') = true;
  ro_events : events_ok (p_events p) → events_ok (p_events p');
  ro_follow : ∀ st newHead, rr_newHead r = Some newHead → sr_StateAt ch (h_Root newHead) = Some st →
    reinject_of ch (rr_oldHead r) (rr_newHead r) = Ok (Some []) →
    P' = P ∧ Q' = Q ∧ n' = newTxNoncer st ∧ p_locals p' = p_locals p ∧
    state_ok p' st n' ∧ ph_currentMaxGas (p_head p') = sr_MaxGasLimit ch;
}.

Lemma reset_spec ch now r p P Q n :
  pool_at p P Q n [] → request_ok ch r →
  ∃ p' P' Q' n', pool_reset ch now (rr_oldHead r) (rr_newHead r) p = Ok p' ∧ reset_outcome ch r p P Q n p' P' Q' n'.
Proof.
  intros Hp Hr. destruct (reinject_ok ch r Hr) as (o & Eo & Hnonces). unfold pool_reset. rewrite Eo. cbn [mbind res_bind].
  destruct (chainconfig_inv p P Q n (sr_Config ch) Hp) as (Hp1 & [Ec _ El Ee] & Est & Egas). cbn [p_config p_locals p_events set_head] in Ec, El, Ee.
  set (p1 := set_chainconfig (sr_Config ch) p) in *. destruct (rq_new _ _ Hr) as (newHead & Enew & _). rewrite Enew in *.
  change (default (eb_Header (sr_CurrentBlock ch)) (Some newHead)) with newHead.
  destruct o as [reinject|].
  2: { exists p1, P, Q, n. split; [done|]. split; [done..|]. intros st nh _ _ E. congruence. }
  destruct (sr_StateAt ch (h_Root newHead)) as [st|] eqn:Esa.
  2: { exists p1, P, Q, n. split; [done|]. split; [done..|]. intros st nh E1 E2 _. congruence. }
  cbn [p_head set_head set_pendingNonces].
  set (p2 := set_pendingNonces (Some (newTxNoncer st)) _).
  assert (Hp2 : pool_at p2 P Q (newTxNoncer st) []).
  { split; [|done]. destruct Hp1 as [[] _]. split; try done. exists st, (newTxNoncer st). done. }
  destruct reinject as [|x reinject].
  { cbn [addTxsLocked mbind res_bind]. eexists _, P, Q, (newTxNoncer st). split; [done|]. split; [|done|done|done|].
    - destruct Hp2 as [Hi2 En2]. split; [by apply head_inv|done].
    - intros st' nh E1 E2 _. assert (st' = st) as -> by congruence.
      do 3 (split; [done|]). split; [by cbn; unfold p1; destruct (sr_Config ch)|]. split; [by split|done]. }
  destruct (addTxsLocked_op ch now (x :: reinject) false (newAccountSet []) p2 P Q (newTxNoncer st) Hp2 (Hnonces _ eq_refl))
    as (errs & dirty & p3 & P3 & Q3 & n3 & -> & [Hp3 [Ec3 Eh3 El3 Ee3] Hk3] & _).
  cbn [mbind res_bind]. eexists _, P3, Q3, n3. split; [done|]. split.
  - destruct Hp3 as [Hi3 En3]. split; [by apply head_inv|done].
  - cbn. rewrite Ec3. done.
  - intros b Hb. apply El3. by apply El.
  - intros Hev. apply Ee3. by apply Ee.
  - intros st' nh _ _ Er. congruence.
Qed.

(** A run for a new head. *)
Lemma reorg_reset_spec ch now r dirty events p P Q n :
  pool_at p P Q n [] → request_ok ch r → events_ok events →
  ∃ promoted events' p' P' Q' n', reorg ch now (Some r) dirty events p = Ok (promoted, events', p') ∧
    pool_at p' P' Q' n' [] ∧ events_ok events' ∧ (events_ok (p_events p) → events_ok (p_events p')) ∧
    p_config p' = p_config p ∧
    pending_limited (p_config p) p' P' ∧ queue_limited (p_config p) p' Q' ∧
    (∀ st newHead, rr_newHead r = Some newHead → sr_StateAt ch (h_Root newHead) = Some st →
       reinject_of ch (rr_oldHead r) (rr_newHead r) = Ok (Some []) →
       nc_fallback n' = st ∧ ph_currentMaxGas (p_head p') = sr_MaxGasLimit ch ∧
       (∀ a x, x ∈ P' a → payable st (sr_MaxGasLimit ch) a x = true) ∧
       (executable P n → (∀ a, state_nonce n a <= GetNonce st a) → settled P' n')).
Proof.
  intros Hp Hr Hev. unfold reorg.
  destruct (reset_spec ch now r p P Q n Hp Hr) as (p1 & P1 & Q1 & n1 & -> & [Hp1 Ec1 _ Ee1 Hfo]). cbn [mbind res_bind].
  destruct (forward_events_spec (range_of events) events p1 P1 Q1 n1 Hp1) as (ev' & p2 & n2 & -> & Hev' & Hp2 & He2 & Hf2 & Hn2);
    [|done|]. { intros a m. rewrite (range_elem events). apply Hev. }
  cbn [mbind res_bind]. destruct (pi_state _ _ _ _ _ (proj1 Hp2)) as (st & n0 & Hst).
  assert (n0 = n2) as -> by (destruct Hst as (_ & E & _); pose proof (proj2 Hp2); congruence).
  destruct (promoteExecutables_spec now (range_of (p_queue p2)).*1 [] p2 P1 Q1 n2 st Hp2 Hst)
    as (promoted & p3 & P3 & Q3 & n3 & -> & Hp3 & He3 & [Hf3 _ Hres3 _]). cbn [mbind res_bind].
  destruct (demote_spec now p3 P3 Q3 n3 st Hp3) as (p4 & P4 & Q4 & -> & Hp4 & He4 & Hpay & Hdem).
  { eapply state_ok_env; [done|done|apply Hp3|done]. }
  cbn [mbind res_bind].
  destruct (truncations_spec now p4 P4 Q4 n3 Hp4) as (p5 & p6 & p' & P' & Q' & n' & -> & E6 & E7 & []). cbn [mbind res_bind].
  rewrite E6. cbn [mbind res_bind]. rewrite E7. cbn [mbind res_bind]. exists promoted, ev', p', P', Q', n'.
  assert (He : same_env p1 p4) by (by transitivity p2; [|transitivity p3]).
  rewrite (se_config _ _ He), Ec1 in *.
  split; [done|]. split; [done|]. split; [done|]. split; [by rewrite (se_events _ _ li_env0), (se_events _ _ He)|].
  split; [rewrite (se_config _ _ li_env0), (se_config _ _ He); done|].
  split; [done|]. split; [done|]. intros st' newHead En Esa Ere.
  destruct (Hfo st' newHead En Esa Ere) as (-> & -> & -> & _ & (Est1 & _) & Egas).
  assert (st = st') as ->.
  { destruct Hst as (E & _). rewrite (se_head _ _ He2), Est1 in E. congruence. }
  rewrite (se_head _ _ He3), (se_head _ _ He2), Egas in *.
  split; [by rewrite li_fallback0, Hf3, Hf2|]. split; [by rewrite (se_head _ _ li_env0), (se_head _ _ He), Egas|].
  split; [intros a x Hx; by eapply Hpay, cut_incl|].
  intros Hex Hup. apply li_settled0, Hdem, Hres3. eapply resetting_ext; [exact Hf2|exact Hn2|]. by eapply resetting_reset.
Qed.

End run.
