(* ===== verification/PoolSched.v ===== *)
(** * The goroutines of the transaction pool (evmcore/tx_pool.go)

    [scheduleReorgLoop], the main [loop] and the callers of the pool, as steps on a shared
    state: a step is one case of a [select] or one critical section under the pool's lock,
    so that a sequence of steps is an interleaving of the goroutines.  The theorems are
    about every sequence of steps from a new pool. *)

From stdpp Require Import sorting functions.
From S2P Require Import Prelude Cser Inter TxSer Pos Heap EvmState EvmChain TxList TxPool PoolInv PoolOps PoolReorg PoolLimits PoolRun.

(** ** The scheduler *)

(** The arguments of a launched [runReorg]. *)
Record reorgRun := mkReorgRun {
  rn_reset : option resetRequest;
  rn_dirtyAccounts : option accountSet;
  rn_events : gmap Address txSortedMap;
}.

(** [curDone]: nil, the channel of a run that goes on, or one that its run has closed. *)
Inductive doneCh := NoRun | Running (r : reorgRun) | Closed.

(** The variables of [scheduleReorgLoop] ([queuedEvents] is the pool's [p_events]), the
    [head] of [loop], and the promotion requests of callers that have left their critical
    section.  The log has the resets that were launched and the notifications sent. *)
Record scheduler := mkScheduler {
  sd_pool : TxPool;
  sd_curDone : doneCh;
  sd_launchNextRun : bool;
  sd_reset : option resetRequest;
  sd_dirtyAccounts : option accountSet;
  sd_reqPromote : list accountSet;
  sd_head : EvmBlock;
  sd_resets : list resetRequest;
  sd_feed : list (list Transaction);
}.

Section sched.
Context `{MapRange} `{GoHeap Z nonce_less} `{GoHeap Transaction price_less} `{PoolTx} `{GasTable}.
Context `{Prque} `{SortBeats}.

Definition with_pool (p : TxPool) (s : scheduler) : scheduler :=
  mkScheduler p (sd_curDone s) (sd_launchNextRun s) (sd_reset s) (sd_dirtyAccounts s) (sd_reqPromote s) (sd_head s)
    (sd_resets s) (sd_feed s).

(** The top of the scheduler's loop. *)
Definition launch (s : scheduler) : scheduler :=
  match sd_curDone s with
  | NoRun =>
      if sd_launchNextRun s then
        let p := sd_pool s in
        mkScheduler (set_events ∅ p) (Running (mkReorgRun (sd_reset s) (sd_dirtyAccounts s) (p_events p))) false None None
          (sd_reqPromote s) (sd_head s) (sd_resets s ++ option_list (sd_reset s)) (sd_feed s)
      else s
  | _ => s
  end.

(** [case req := <-pool.reqResetCh] *)
Definition on_reset (req : resetRequest) (s : scheduler) : scheduler :=
  let reset := match sd_reset s with
               | None => req
               | Some r => mkResetRequest (rr_oldHead r) (rr_newHead req)
               end in
  mkScheduler (sd_pool s) (sd_curDone s) true (Some reset) (sd_dirtyAccounts s) (sd_reqPromote s) (sd_head s)
    (sd_resets s) (sd_feed s).

(** [case req := <-pool.reqPromoteCh], of the [i]-th waiting caller. *)
Definition on_promote (i : nat) (s : scheduler) : scheduler :=
  match sd_reqPromote s !! i with
  | None => s
  | Some req =>
      let dirty := match sd_dirtyAccounts s with None => req | Some d => as_merge req d end in
      mkScheduler (sd_pool s) (sd_curDone s) true (sd_reset s) (Some dirty) (delete i (sd_reqPromote s)) (sd_head s)
        (sd_resets s) (sd_feed s)
  end.

(** [case <-curDone] *)
Definition on_done (s : scheduler) : scheduler :=
  match sd_curDone s with
  | Closed => mkScheduler (sd_pool s) NoRun (sd_launchNextRun s) (sd_reset s) (sd_dirtyAccounts s) (sd_reqPromote s)
                (sd_head s) (sd_resets s) (sd_feed s)
  | _ => s
  end.

(** The launched [runReorg], up to the closing of its channel. *)
Definition run_active (ch : stateReader) (now : Z) (s : scheduler) : res scheduler :=
  match sd_curDone s with
  | Running r =>
      '(sent, p) ← runReorg ch now (rn_reset r) (rn_dirtyAccounts r) (rn_events r) (sd_pool s);
      Ok (mkScheduler p Closed (sd_launchNextRun s) (sd_reset s) (sd_dirtyAccounts s) (sd_reqPromote s) (sd_head s)
            (sd_resets s) (sd_feed s ++ option_list sent))
  | _ => Ok s
  end.

(** A caller's [addTxs]: its critical section, then it waits to ask for a promotion. *)
Definition call_add (add : res (list (option error) * option accountSet * TxPool)) (s : scheduler) : res scheduler :=
  '(_, dirty, p) ← add;
  Ok (mkScheduler p (sd_curDone s) (sd_launchNextRun s) (sd_reset s) (sd_dirtyAccounts s)
        (sd_reqPromote s ++ option_list dirty) (sd_head s) (sd_resets s) (sd_feed s)).

(** [case ev := <-pool.chainHeadCh] of [loop]: the scheduler takes the request before
    [loop] goes on. *)
Definition on_head (ev : option EvmBlock) (s : scheduler) : scheduler :=
  match ev with
  | None => s
  | Some b =>
      let s := on_reset (mkResetRequest (Some (eb_Header (sd_head s))) (Some (eb_Header b))) s in
      mkScheduler (sd_pool s) (sd_curDone s) (sd_launchNextRun s) (sd_reset s) (sd_dirtyAccounts s) (sd_reqPromote s) b
        (sd_resets s) (sd_feed s)
  end.

Inductive pool_step :=
  | StepAddLocals (txs : list Transaction)
  | StepAddRemotes (txs : list Transaction)
  | StepSetGasPrice (price : Z)
  | StepUpdateGasPrice
  | StepEvict
  | StepHead (ev : option EvmBlock)
  | StepPromote (i : nat)
  | StepRun
  | StepDone.

Definition do_step (ch : stateReader) (now : Z) (i : pool_step) (s : scheduler) : res scheduler :=
  let on_pool r := p ← r; Ok (with_pool p s) in
  match i with
  | StepAddLocals txs => call_add (AddLocals ch now txs (sd_pool s)) s
  | StepAddRemotes txs => call_add (AddRemotes ch now txs (sd_pool s)) s
  | StepSetGasPrice price => on_pool (SetGasPrice now price (sd_pool s))
  | StepUpdateGasPrice => on_pool (update_gas_price ch now (sd_pool s))
  | StepEvict => on_pool (evict now (sd_pool s))
  | StepHead ev => Ok (launch (on_head ev s))
  | StepPromote i => Ok (launch (on_promote i s))
  | StepRun => run_active ch now s
  | StepDone => Ok (launch (on_done s))
  end.

(** [NewTxPool] with the goroutines it starts. *)
Definition start (ch : stateReader) (now : Z) (config : TxPoolConfig) (cfg : ChainConfig) : res scheduler :=
  p ← NewTxPool ch now config cfg;
  Ok (mkScheduler p NoRun false None None [] (sr_CurrentBlock ch) [] []).
End sched.

(** ** The invariant *)

Section sched_inv.
Context `{MapRangeLaws} `{GoHeapLaws Z nonce_less} `{GoHeapLaws Transaction price_less} `{PoolTx} `{GasTable}.
Context `{PrqueLaws} `{SortBeatsLaws}.
Context `{!PoolTxLaws}.

Notation view := (Address → list Transaction).

(** The pool represents the given lists, and every list of events is sorted. *)
Record sched_at (s : scheduler) (P Q : view) (n : txNoncer) : Prop := {
  sa_pool : pool_at (sd_pool s) P Q n [];
  sa_events : events_ok (p_events (sd_pool s));
  sa_run : ∀ r, sd_curDone s = Running r → events_ok (rn_events r);
  sa_waiting : ∀ q, sd_reset s = Some q → is_Some (rr_newHead q);
  sa_head : ∀ r q, sd_curDone s = Running r → rn_reset r = Some q → is_Some (rr_newHead q);
}.

(** The chain can serve a reset: it finds blocks under their numbers, their transactions
    have proper nonces, and it has the block of the new head when the reset compares it
    with the old one. *)
Record serves (ch : stateReader) (q : resetRequest) : Prop := {
  sv_chain : chain_ok ch;
  sv_blocks : blocks_ok ch;
  sv_new : ∀ oldHead newHead, rr_oldHead q = Some oldHead → rr_newHead q = Some newHead →
    compared ch oldHead newHead → is_Some (sr_GetBlock ch (h_Hash newHead) (h_Number newHead));
}.

Lemma serves_ok ch q : serves ch q → is_Some (rr_newHead q) → request_ok ch q.
Proof. intros [Hc Hb Hn] [h Eh]. split; [done|done|]. exists h. split; [done|]. intros o Eo. by apply Hn. Qed.

(** What the goroutines rely on: transactions have a nonce below the last one, and the
    chain can serve the reset that is carried out. *)
Definition admissible (ch : stateReader) (i : pool_step) (s : scheduler) : Prop :=
  match i with
  | StepAddLocals txs | StepAddRemotes txs => Forall nonce_ok txs
  | StepRun => ∀ r q, sd_curDone s = Running r → rn_reset r = Some q → serves ch q
  | _ => True
  end.

(** A new head that continues the old one, with a state in which no nonce is lower. *)
Definition moves_on (ch : stateReader) (q : resetRequest) (p : TxPool) : Prop :=
  ∃ oldHead newHead rem add st st',
    rr_oldHead q = Some oldHead ∧ rr_newHead q = Some newHead ∧
    sr_GetBlock ch (h_Hash oldHead) (h_Number oldHead) = Some rem ∧
    sr_GetBlock ch (h_Hash newHead) (h_Number newHead) = Some add ∧ extends ch rem add ∧
    ph_currentState (p_head p) = Some st ∧ sr_StateAt ch (h_Root newHead) = Some st' ∧
    ∀ a, GetNonce st a <= GetNonce st' a.

Definition follows (ch : stateReader) (i : pool_step) (s : scheduler) : Prop :=
  match i with
  | StepRun => ∀ r q, sd_curDone s = Running r → rn_reset r = Some q → moves_on ch q (sd_pool s)
  | _ => True
  end.

Lemma events_at p P Q n e : pool_at p P Q n [] → pool_at (set_events e p) P Q n [].
Proof. intros [[] ?]. by split. Qed.

Lemma runReorg_reorg ch now reset dirty events p promoted events' p' :
  reorg ch now reset dirty events p = Ok (promoted, events', p') →
  ∃ sent, runReorg ch now reset dirty events p = Ok (sent, p').
Proof. intros E. unfold runReorg. rewrite E. cbn [mbind res_bind]. by eexists. Qed.

Lemma pool_at_state p P Q n st : pool_at p P Q n [] → ph_currentState (p_head p) = Some st → nc_fallback n = st.
Proof. intros [Hi En] Est. destruct (pi_state _ _ _ _ _ Hi) as (st' & n' & E1 & E2 & <-). congruence. Qed.

(** A launched run: it ends, the limits hold, and pending transactions stay executable. *)
Lemma runReorg_spec ch now r p P Q n :
  pool_at p P Q n [] → events_ok (p_events p) → events_ok (rn_events r) →
  (∀ q, rn_reset r = Some q → request_ok ch q) →
  ∃ sent p' P' Q' n', runReorg ch now (rn_reset r) (rn_dirtyAccounts r) (rn_events r) p = Ok (sent, p') ∧
    pool_at p' P' Q' n' [] ∧ events_ok (p_events p') ∧
    pending_limited (p_config p) p' P' ∧ queue_limited (p_config p) p' Q' ∧
    ((∀ q, rn_reset r = Some q → moves_on ch q p) → executable P n → settled P' n').
Proof.
  intros Hp Hev Hrev Hreq. destruct (rn_reset r) as [q|].
  - destruct (reorg_reset_spec ch now q (rn_dirtyAccounts r) (rn_events r) p P Q n Hp (Hreq q eq_refl) Hrev)
      as (pr & ev' & p' & P' & Q' & n' & E & Hp' & _ & Hev' & _ & Hl1 & Hl2 & Hfo).
    destruct (runReorg_reorg _ _ _ _ _ _ _ _ _ E) as [sent Es]. exists sent, p', P', Q', n'.
    split; [done|]. split; [done|]. split; [by apply Hev'|]. split; [done|]. split; [done|]. intros Hmv Hex.
    destruct (Hmv q eq_refl) as (oldHead & newHead & rem & add & st & st' & Eo & En & Er & Ea & Hx & Est & Est' & Hn).
    rewrite Eo, En in Hfo. pose proof (rq_chain _ _ (Hreq q eq_refl)) as Hch.
    destruct (Hfo st' newHead eq_refl Est') as (_ & _ & _ & Hset);
      [by apply (reinject_extends ch oldHead newHead rem add)|]. apply Hset; [done|].
    intros a. by rewrite (pool_at_state p P Q n st Hp Est).
  - destruct (reorg_dirty_spec ch now (rn_dirtyAccounts r) (rn_events r) p P Q n Hp)
      as (pr & p' & P' & Q' & n' & E & Hp' & He & Hl1 & Hl2 & Hset).
    destruct (runReorg_reorg _ _ _ _ _ _ _ _ _ E) as [sent Es]. exists sent, p', P', Q', n'.
    split; [done|]. split; [done|]. split; [by rewrite (se_events _ _ He)|]. split; [done|]. split; [done|]. auto.
Qed.

(** *** Steps *)

Lemma launch_at s P Q n : sched_at s P Q n → sched_at (launch s) P Q n.
Proof.
  intros Hs. unfold launch. destruct (sd_curDone s) eqn:Ec; try done. destruct (sd_launchNextRun s); [|done].
  destruct Hs as [Hp He Hr Hw Hh]. split; cbn.
  - by apply events_at.
  - intros a m. by rewrite lookup_empty.
  - by intros r [= <-].
  - done.
  - intros r q [= <-]. apply Hw.
Qed.

Lemma on_head_at ev s P Q n : sched_at s P Q n → sched_at (on_head ev s) P Q n.
Proof.
  intros []. destruct ev as [b|]; [|by split]. split; try done. cbn. intros q [= <-].
  by destruct (sd_reset s); eexists.
Qed.

Lemma on_promote_at i s P Q n : sched_at s P Q n → sched_at (on_promote i s) P Q n.
Proof. intros []. unfold on_promote. destruct (sd_reqPromote s !! i); by split. Qed.

Lemma on_done_at s P Q n : sched_at s P Q n → sched_at (on_done s) P Q n.
Proof. intros [? ? Hr ? ?]. unfold on_done. destruct (sd_curDone s) eqn:Ec; by split; cbn; rewrite ?Ec. Qed.

Lemma op_sched s p' P Q n P' Q' n' :
  sched_at s P Q n → op_outcome (sd_pool s) P n p' P' Q' n' →
  sched_at (with_pool p' s) P' Q' n' ∧ (executable P n → executable P' n').
Proof. intros [Hp He Hr Hw Hh] [Hp' [_ _ _ Hev] (_ & Hex & _)]. split; [|done]. split; cbn; auto. Qed.

Lemma call_add_at add s P Q n errs dirty p' P' Q' n' :
  sched_at s P Q n → add = Ok (errs, dirty, p') → op_outcome (sd_pool s) P n p' P' Q' n' →
  ∃ s', call_add add s = Ok s' ∧ sched_at s' P' Q' n' ∧ (executable P n → executable P' n').
Proof.
  intros Hs -> Ho. destruct (op_sched s p' P Q n P' Q' n' Hs Ho) as [[] Hex]. eexists. split; [done|]. by split.
Qed.

(** Every step is carried out, whatever the interleaving. *)
Lemma step_spec ch now i s P Q n :
  sched_at s P Q n → admissible ch i s →
  ∃ s' P' Q' n', do_step ch now i s = Ok s' ∧ sched_at s' P' Q' n' ∧
    (follows ch i s → executable P n → executable P' n').
Proof.
  intros Hs Ha. pose proof Hs as [Hp He Hr Hw Hh].
  assert (Hpool : ∀ r, (∃ p' P' Q' n', r = Ok p' ∧ op_outcome (sd_pool s) P n p' P' Q' n') →
    ∃ s' P' Q' n', (p ← r; Ok (with_pool p s)) = Ok s' ∧ sched_at s' P' Q' n' ∧ (executable P n → executable P' n')).
  { intros r (p' & P' & Q' & n' & -> & Ho). destruct (op_sched s p' P Q n P' Q' n' Hs Ho). by eexists _, P', Q', n'. }
  assert (Hkeep : ∀ s', sched_at s' P Q n → ∃ s'' P' Q' n', Ok (launch s') = Ok s'' ∧ sched_at s'' P' Q' n' ∧
    (True → executable P n → executable P' n')).
  { intros s' Hs'. eexists _, P, Q, n. split; [done|]. by split; [apply launch_at|]. }
  destruct i as [txs|txs|price| | |ev|i| |]; cbn [do_step follows].
  - destruct (addTxs_op ch now txs (negb (NoLocals (p_config (sd_pool s)))) _ P Q n Hp Ha)
      as (errs & dirty & p' & P' & Q' & n' & E & Ho & _).
    destruct (call_add_at _ s P Q n errs dirty p' P' Q' n' Hs E Ho) as (s' & Es & Hs' & Hex). by exists s', P', Q', n'.
  - destruct (addTxs_op ch now txs false _ P Q n Hp Ha) as (errs & dirty & p' & P' & Q' & n' & E & Ho & _).
    destruct (call_add_at _ s P Q n errs dirty p' P' Q' n' Hs E Ho) as (s' & Es & Hs' & Hex). by exists s', P', Q', n'.
  - destruct (Hpool _ (SetGasPrice_op now price price _ P Q n Hp)) as (s' & P' & Q' & n' & ? & ? & ?). by exists s', P', Q', n'.
  - destruct (Hpool _ (update_gas_price_op ch now _ P Q n Hp)) as (s' & P' & Q' & n' & ? & ? & ?). by exists s', P', Q', n'.
  - destruct (Hpool _ (evict_op now _ P Q n Hp)) as (s' & P' & Q' & n' & ? & ? & ?). by exists s', P', Q', n'.
  - by apply Hkeep, on_head_at.
  - by apply Hkeep, on_promote_at.
  - unfold run_active. cbn [admissible] in Ha. destruct (sd_curDone s) as [|r|] eqn:Ec; [by eexists _, P, Q, n| |by eexists _, P, Q, n].
    destruct (runReorg_spec ch now r (sd_pool s) P Q n Hp He (Hr r eq_refl)
      (λ q Eq, serves_ok ch q (Ha r q eq_refl Eq) (Hh r q eq_refl Eq)))
      as (sent & p' & P' & Q' & n' & -> & Hp' & He' & _ & _ & Hset).
    cbn [mbind res_bind]. eexists _, P', Q', n'. split; [done|]. split; [by split|].
    intros Hf Hex. apply settled_executable, Hset; [|done]. intros q. by apply Hf.
  - by apply Hkeep, on_done_at.
Qed.

(** A reset that compares a new head whose block the chain does not have with the old one
    ends in a panic. *)
Lemma unserved_panics ch now s r q oldHead newHead :
  sd_curDone s = Running r → rn_reset r = Some q → rr_oldHead q = Some oldHead → rr_newHead q = Some newHead →
  compared ch oldHead newHead → sr_GetBlock ch (h_Hash newHead) (h_Number newHead) = None →
  do_step ch now StepRun s = Panic.
Proof using Type.
  intros Ec Er Eo En Hc Ea. cbn. unfold run_active, runReorg, reorg. rewrite Ec, Er, Eo, En.
  by rewrite (reset_panics ch now oldHead newHead _ Hc Ea).
Qed.

(** ** Every interleaving *)

(** The states that steps satisfying [good] lead to. *)
Inductive reachable (good : stateReader → pool_step → scheduler → Prop) (s0 : scheduler) : scheduler → Prop :=
  | reachable_start : reachable good s0 s0
  | reachable_step s ch now i s' :
      reachable good s0 s → good ch i s → do_step ch now i s = Ok s' → reachable good s0 s'.

Lemma reachable_at s0 s P Q n :
  sched_at s0 P Q n → reachable admissible s0 s → ∃ P' Q' n', sched_at s P' Q' n'.
Proof.
  intros H0' Hr. induction Hr as [|s ch now i s' _ (P1 & Q1 & n1 & Hs) Ha E]; [by exists P, Q, n|].
  destruct (step_spec ch now i s P1 Q1 n1 Hs Ha) as (s2 & P2 & Q2 & n2 & E2 & Hs2 & _).
  exists P2, Q2, n2. congruence.
Qed.

Lemma start_at ch now config cfg st :
  config_bounds config → sr_StateAt ch (h_Root (eb_Header (sr_CurrentBlock ch))) = Some st →
  ∃ s0, start ch now config cfg = Ok s0 ∧ sched_at s0 empty_view empty_view (newTxNoncer st) ∧
    sd_curDone s0 = NoRun ∧ sd_launchNextRun s0 = false ∧ sd_reset s0 = None ∧ sd_dirtyAccounts s0 = None ∧
    sd_head s0 = sr_CurrentBlock ch ∧ sd_resets s0 = [].
Proof.
  intros Hc Hst. destruct (new_pool_at ch now config cfg st Hc Hst) as (p & E & Hp & _ & Hev & _).
  unfold start. rewrite E. cbn [mbind res_bind]. eexists. split; [done|]. split; [|done]. split; cbn; [done| |done..].
  rewrite Hev. intros a m. by rewrite lookup_empty.
Qed.

(** *** The requests for resets *)

(** Resets one after the other from the head [h] to the head [k]. *)
Inductive linked : EvmHeader → list resetRequest → EvmHeader → Prop :=
  | linked_nil h : linked h [] h
  | linked_cons h h' k r rs : rr_oldHead r = Some h → rr_newHead r = Some h' → linked h' rs k → linked h (r :: rs) k.

Lemma linked_snoc h rs h' r k : linked h rs h' → rr_oldHead r = Some h' → rr_newHead r = Some k → linked h (rs ++ [r]) k.
Proof.
  intros Hl Ho Hn. induction Hl as [h|h h1 k' r' rs Ho' Hn' Hl IH]; cbn.
  - econstructor; [done..|constructor].
  - econstructor; [done..|]. by apply IH.
Qed.

(** The launched resets are linked from the first head; the waiting one, if any, goes on
    from the last of them to the head of [loop]; what is requested is going to be launched. *)
Record requests_pre (h0 : EvmHeader) (s : scheduler) : Prop := {
  rp_linked : ∃ h, linked h0 (sd_resets s) h ∧
    match sd_reset s with
    | None => h = eb_Header (sd_head s)
    | Some r => rr_oldHead r = Some h ∧ rr_newHead r = Some (eb_Header (sd_head s))
    end;
  rp_wanted : (sd_reset s ≠ None ∨ sd_dirtyAccounts s ≠ None) → sd_launchNextRun s = true;
}.

(** Past the top of the scheduler's loop a request waits only while a run is under way. *)
Record requests_ok (h0 : EvmHeader) (s : scheduler) : Prop := {
  re_pre : requests_pre h0 s;
  re_served : sd_launchNextRun s = true → sd_curDone s ≠ NoRun;
}.

Lemma launch_requests h0 s : requests_pre h0 s → requests_ok h0 (launch s).
Proof.
  intros Hs. unfold launch. destruct (sd_curDone s) eqn:Ec; [|split; [done|congruence]..].
  destruct (sd_launchNextRun s) eqn:El; [|split; [done|congruence]].
  destruct Hs as [(h & Hl & Hh) Hw]. split; [|done]. split; cbn; [|by intros [?|?]].
  destruct (sd_reset s) as [r|]; cbn.
  - destruct Hh as [Ho Hn]. exists (eb_Header (sd_head s)). split; [by eapply linked_snoc|done].
  - rewrite app_nil_r. by exists h.
Qed.

Lemma on_head_requests h0 ev s : requests_pre h0 s → requests_pre h0 (on_head ev s).
Proof.
  intros [(h & Hl & Hh) Hw]. destruct ev as [b|]; [|by split; [exists h|]]. split; cbn; [|done].
  destruct (sd_reset s) as [r|]; exists h; (split; [done|]); cbn; [by destruct Hh|by subst].
Qed.

Lemma on_promote_requests h0 i s : requests_pre h0 s → requests_pre h0 (on_promote i s).
Proof. intros [Hl Hw]. unfold on_promote. destruct (sd_reqPromote s !! i); by split. Qed.

Lemma on_done_requests h0 s : requests_pre h0 s → requests_pre h0 (on_done s).
Proof. intros [Hl Hw]. unfold on_done. destruct (sd_curDone s); by split. Qed.

Lemma step_requests h0 ch now i s s' : requests_ok h0 s → do_step ch now i s = Ok s' → requests_ok h0 s'.
Proof.
  intros Hs E. pose proof Hs as [Hpre Hv].
  assert (Hpool : ∀ r, (p ← r; Ok (with_pool p s)) = Ok s' → requests_ok h0 s').
  { intros [p| |]; cbn; [|done|done]. intros [= <-]. destruct Hpre. by split. }
  assert (Hadd : ∀ r, call_add r s = Ok s' → requests_ok h0 s').
  { intros [[[errs d] p]| |]; cbn; [|done|done]. intros [= <-]. destruct Hpre. by split. }
  destruct i; cbn [do_step] in E; eauto.
  - injection E as <-. by apply launch_requests, on_head_requests.
  - injection E as <-. by apply launch_requests, on_promote_requests.
  - unfold run_active in E. destruct (sd_curDone s) as [|r|] eqn:Ec; [by injection E as <-| |by injection E as <-].
    destruct (runReorg _ _ _ _ _ _) as [[sent p]| |]; cbn in E; try done. injection E as <-. destruct Hpre. by split.
  - injection E as <-. by apply launch_requests, on_done_requests.
Qed.
End sched_inv.
