(* ===== verification/PoolProps.v ===== *)
(** * Theorems about the transaction pool (evmcore/tx_pool.go)

    What the pool promises its callers, from the lemmas of the files before: admission,
    reads, eviction by price, limits, the chain walk of a reset and the interleavings of
    its goroutines; with a concrete chain and pool for the witnesses. *)

From stdpp Require Import sorting functions.
From S2P Require Import Prelude Cser Inter TxSer Pos Heap EvmState EvmChain TxList TxPool PoolInv PoolOps PoolReorg PoolLimits PoolRun PoolSched.

Section props.
Context `{MapRangeLaws} `{GoHeapLaws Z nonce_less} `{GoHeapLaws Transaction price_less} `{PoolTx} `{GasTable}.
Context `{PrqueLaws} `{SortBeatsLaws} `{!PoolTxLaws}.

Notation view := (Address → list Transaction).
Notation tabs := (tl_abs px_Cost).

(** ** Reading the pool *)

Definition as_map (s : list Transaction) : option (list Transaction) := if decide (s = []) then None else Some s.

Lemma flatten_lists_spec strict m P :
  lists_at strict m P →
  (∀ a, (flatten_lists m).1 !! a = as_map (P a)) ∧ lists_at strict (flatten_lists m).2 P.
Proof.
  intros Hm. split; intros a; specialize (Hm a); cbn; rewrite lookup_fmap; destruct (m !! a) as [l|]; cbn.
  - destruct Hm as (Hl & _ & Hne). destruct (tabs_Flatten l (P a) Hl) as (l' & E & _). rewrite E. unfold as_map.
    by rewrite decide_False.
  - unfold as_map. by rewrite decide_True.
  - destruct Hm as (Hl & Hs & Hne). destruct (tabs_Flatten l (P a) Hl) as (l' & E & Hl' & Hs'). rewrite E.
    split; [done|]. split; [by cbn; congruence|done].
  - done.
Qed.

Lemma holds_nonce_spec strict m P a k :
  lists_at strict m P → holds_nonce m a k = bool_decide (k ∈ tx_Nonce <$> P a).
Proof.
  intros Hm. specialize (Hm a). unfold holds_nonce. destruct (m !! a) as [l|].
  - destruct Hm as (Hl & _). apply bool_decide_ext. rewrite list_elem_of_fmap. split.
    + intros [x Hx]. apply (tabs_Get _ _ _ _ Hl) in Hx as [Hin <-]. by exists x.
    + intros (x & E & Hin). exists x. by apply (tabs_Get _ _ _ _ Hl).
  - rewrite Hm, bool_decide_false; [done|]. apply not_elem_of_nil.
Qed.

(** What [Status] answers about a transaction of the pool, and about any other hash. *)
Lemma Status_spec p P Q n :
  pool_at p P Q n [] →
  (∀ a tx, tx ∈ P a → Status p (px_Hash tx) = TxStatusPending) ∧
  (∀ a tx, tx ∈ Q a → Status p (px_Hash tx) = TxStatusQueued) ∧
  (∀ h, (∀ tx, in_pool P Q tx → px_Hash tx ≠ h) → Status p h = TxStatusUnknown).
Proof.
  intros [[Hpe Hqu Hv Ha _ _ _ _ _] _].
  assert (Hget : ∀ a tx, tx ∈ P a ∨ tx ∈ Q a → lk_Get (px_Hash tx) (p_all p) = Some tx ∧ sender_of tx = a).
  { intros a tx Hin. split; [apply (ao_get _ _ Ha); split; [done|by exists a]|]. apply sender_of_eq. by eapply vo_sender. }
  unfold Status. split; [|split].
  - intros a tx Hin. destruct (Hget a tx) as [-> ->]; [by left|].
    rewrite (holds_nonce_spec true _ P a), bool_decide_true; [done| |done]. by apply list_elem_of_fmap_2.
  - intros a tx Hin. destruct (Hget a tx) as [-> ->]; [by right|].
    rewrite (holds_nonce_spec true _ P a), bool_decide_false; [|by apply (views_nonces P Q)|done].
    rewrite (holds_nonce_spec false _ Q a), bool_decide_true; [done| |done]. by apply list_elem_of_fmap_2.
  - intros h Hh. destruct (lk_Get h (p_all p)) as [tx|] eqn:E; [|done]. apply (ao_get _ _ Ha) in E as [E Hin].
    by destruct (Hh tx Hin).
Qed.

Lemma stats_count p : stats p = (count (p_pending p), count (p_queue p)).
Proof. unfold stats, count. f_equal; apply sum_Z_perm, fmap_Permutation, fmap_Permutation, range_of_perm. Qed.

(** [Status], [Stats] and [Content] agree: a transaction is reported pending or
    queued exactly when the content lists it there and unknown when it is in neither; the
    content gives every account's transactions sorted by nonce, and reading it changes
    nothing that the pool holds. *)
Theorem pool_reads_agree p P Q n :
  pool_at p P Q n [] →
  (∀ h, (Status p h = TxStatusPending ↔ ∃ a txs tx, (Content p).1.1 !! a = Some txs ∧ tx ∈ txs ∧ px_Hash tx = h) ∧
        (Status p h = TxStatusQueued ↔ ∃ a txs tx, (Content p).1.2 !! a = Some txs ∧ tx ∈ txs ∧ px_Hash tx = h)) ∧
  (∀ a, (Content p).1.1 !! a = as_map (P a) ∧ (Content p).1.2 !! a = as_map (Q a) ∧
        StronglySorted nonce_lt (P a) ∧ StronglySorted nonce_lt (Q a)) ∧
  stats p = (count (p_pending p), count (p_queue p)) ∧
  pool_at (Content p).2 P Q n [].
Proof.
  intros Hp. destruct (Status_spec p P Q n Hp) as (HsP & HsQ & HsU). pose proof Hp as [Hi En].
  destruct (flatten_lists_spec true _ P (pi_pending _ _ _ _ _ Hi)) as [HP HmP].
  destruct (flatten_lists_spec false _ Q (pi_queue _ _ _ _ _ Hi)) as [HQ HmQ].
  assert (Hel : ∀ (V : view) (m : gmap Address (list Transaction)) h, (∀ a, m !! a = as_map (V a)) →
    (∃ a txs tx, m !! a = Some txs ∧ tx ∈ txs ∧ px_Hash tx = h) ↔ ∃ a tx, tx ∈ V a ∧ px_Hash tx = h).
  { intros V m h Hm. split.
    - intros (a & txs & tx & E & Hin & Eh). rewrite Hm in E. unfold as_map in E. destruct (decide (V a = [])); [done|].
      injection E as <-. by exists a, tx.
    - intros (a & tx & Hin & Eh). exists a, (V a), tx. rewrite Hm. unfold as_map. rewrite decide_False; [done|].
      intros E. rewrite E in Hin. by apply not_elem_of_nil in Hin. }
  assert (Hcase : ∀ h, (∃ a tx, tx ∈ P a ∧ px_Hash tx = h) ∨ (∃ a tx, tx ∈ Q a ∧ px_Hash tx = h) ∨
    Status p h = TxStatusUnknown).
  { intros h. destruct (lk_Get h (p_all p)) as [tx|] eqn:E.
    - apply (ao_get _ _ (pi_all _ _ _ _ _ Hi)) in E as [E (a & [Ha|Ha])]; [left|right; left]; by exists a, tx.
    - right; right. unfold Status. by rewrite E. }
  split; [|split; [|split]].
  - intros h. cbn. rewrite (Hel P _ h HP), (Hel Q _ h HQ). split; split.
    + intros E. destruct (Hcase h) as [?|[(a & tx & Ha & <-)|E']]; [done| |congruence]. rewrite (HsQ a tx Ha) in E. done.
    + intros (a & tx & Ha & <-). by apply (HsP a).
    + intros E. destruct (Hcase h) as [(a & tx & Ha & <-)|[?|E']]; [|done|congruence]. rewrite (HsP a tx Ha) in E. done.
    + intros (a & tx & Ha & <-). by apply (HsQ a).
  - intros a. split; [apply HP|]. split; [apply HQ|]. by eapply pool_at_sorted.
  - apply stats_count.
  - destruct Hi. split; [by split|done].
Qed.

(** ** Admission *)

Lemma put_sorted_in tx l : tx ∈ put_sorted tx l.
Proof.
  induction l as [|y l IH]; cbn; [by left|]. destruct (_ <? _); [by right|]. destruct (_ =? _); by left.
Qed.

(** C15: [add] on a well-formed pool never fails unexpectedly.  A hash the pool has is
    refused as known; a transaction is accepted only when it satisfies every rule of
    [validateTx] at the pool's state, and then it is in its sender's pending list, when that
    has its nonce, or in the queue, where it takes the place of the one with its nonce.  A
    refused transaction is not added.  Room is made by removing transactions of accounts that are
    not local, and the pool stays well-formed. *)
Theorem pool_add_outcome ch now tx local p P Q n :
  pool_at p P Q n [] → 0 <= tx_Nonce tx < 2 ^ 64 - 1 →
  ∃ v p' P' Q' n', pool_add ch now tx local p = Ok (v, p') ∧ pool_at p' P' Q' n' [] ∧
    (in_pool P Q tx → v.2 = Some ErrAlreadyKnown) ∧
    (v.2 = None → ∃ st a, state_ok p st n ∧ valid_tx ch p st tx (local || as_containsTx tx (p_locals p)) a ∧
       in_pool P' Q' tx) ∧
    (∃ D P1 Q1, removal D P Q n P1 Q1 n' ∧
       (∀ a, as_contains a (p_locals p) = true → P1 a = P a ∧ Q1 a = Q a) ∧
       match v.2 with
       | None => ∃ a, px_Sender tx = Some a ∧ admitted P1 Q1 tx a P' Q'
       | Some _ => P' = P1 ∧ Q' = Q1
       end).
Proof.
  intros Hp Hn. destruct (add_cases ch now tx local p P Q n Hp Hn) as (v & p' & P' & Q' & n' & E & [Hp' He Hv] & Hk & Hok).
  exists v, p', P', Q', n'. split; [done|]. split; [done|]. split; [|split; [|done]].
  - intros Hin. destruct Hk as [?|Hk]; [done|]. by destruct (Hk tx Hin).
  - intros Hv2. destruct (Hok Hv2) as (st & a & Hst & Hval). exists st, a. split; [done|]. split; [done|].
    destruct Hv as (D & P1 & Q1 & Hr & _ & Hadm). rewrite Hv2 in Hadm. destruct Hadm as (b & _ & Hadm).
    destruct Hadm as [_|_]; exists b; rewrite fn_lookup_insert; [left|right]; apply put_sorted_in.
Qed.

(** ** Eviction by price *)

(** Raising the price of the pool removes exactly the remote transactions below
    the cap and what depends on them: afterwards no remote transaction below the cap is in
    the pool, every removed one was below it, transactions that followed a removed one in a
    pending list wait in the queue, and local accounts keep their lists. *)
Theorem gas_price_evicts now price cap p P Q n :
  pool_at p P Q n [] →
  ∃ D p' P' Q' n', SetGasPriceWithCap now price cap p = Ok p' ∧ pool_at p' P' Q' n' [] ∧
    p_gasPrice p' = price ∧
    Forall (λ x, tx_GasPrice x < cap) D ∧ (∀ x, in_pool P' Q' x ↔ in_pool P Q x ∧ px_Hash x ∉ px_Hash <$> D) ∧
    (∀ tx, lk_remotes (p_all p) !! px_Hash tx = Some tx → tx_GasPrice tx < cap → ¬ in_pool P' Q' tx) ∧
    (∀ a, P' a = P a ∨ ∃ k, k ∈ tx_Nonce <$> P a ∧ P' a = below k (P a)) ∧
    (∀ a, as_contains a (p_locals p) = true → P' a = P a ∧ Q' a = Q a).
Proof.
  intros Hp. destruct (SetGasPrice_evicts now price cap p P Q n Hp) as (D & p' & P' & Q' & n' & E & [Hp' _ He Hl] & Hr & HD & Hrem).
  exists D, p', P', Q', n'. split; [done|]. split; [done|]. split; [apply (se_gasPrice _ _ He)|]. split; [done|].
  split; [apply (rm_pool _ _ _ _ _ _ _ Hr)|]. split; [done|]. split; [|done].
  intros a. destruct (rm_account _ _ _ _ _ _ _ Hr a) as [[-> _]|(k & Hk & -> & _)]; [by left|right; by exists k].
Qed.

(** ** Limits *)

(** The truncations of a reorganisation end and are fair.  They leave at most the
    configured number of pending transactions, unless every account that is not local is
    down to its guaranteed slots, and at most the configured number of queued ones, unless
    only local accounts have any; a pending list is only shortened at its end and keeps the
    slots it is guaranteed, and local accounts lose nothing. *)
Theorem truncation_fair now p P Q n :
  pool_at p P Q n [] →
  ∃ p1 p2 P' Q' n', truncatePending p = Ok p1 ∧ truncateQueue now p1 = Ok p2 ∧ pool_at p2 P' Q' n' [] ∧
    (count (p_pending p2) <= GlobalSlots (p_config p) ∨
     ∀ a, as_contains a (p_locals p) = false → len (P' a) <= AccountSlots (p_config p)) ∧
    (count (p_queue p2) <= GlobalQueue (p_config p) ∨ ∀ a, as_contains a (p_locals p) = false → Q' a = []) ∧
    (∀ a, P' a = P a ∨ ∃ k, P' a = take k (P a) ∧ AccountSlots (p_config p) <= len (P' a)) ∧
    (∀ a, ∃ k, Q' a = take k (Q a)) ∧
    (∀ a, as_contains a (p_locals p) = true → P' a = P a ∧ Q' a = Q a).
Proof.
  intros Hp. destruct (truncatePending_spec p P Q n Hp) as (p1 & P1 & n1 & E1 & [Hp1 [He1 _] _ _] & Hcut & Hl1 & Hlim1).
  destruct (truncateQueue_spec now p1 P1 Q n1 Hp1) as (p2 & Q2 & addrs & E2 & [Hp2 He2 _ Hsh] & Hl2 & Hlim2).
  exists p1, p2, P1, Q2, n1. rewrite (se_locals _ _ He1), (se_config _ _ He1) in *.
  rewrite (count_same true (p_pending p1) (p_pending p2) P1) by (apply Hp1 || apply Hp2).
  do 7 (split; [done|]). auto.
Qed.

(** C14: A launched reorganisation always ends, on any well-formed pool and for any
    reset the chain can serve, and leaves a well-formed pool within its limits.  When the
    pending transactions were executable and the reset, if any, follows the chain, then
    afterwards every account's pending transactions are a run without a gap from the nonce
    of the state, and the pool's next nonce of the account is the one after the run. *)
Theorem reorg_settles ch now r p P Q n :
  pool_at p P Q n [] → events_ok (p_events p) → events_ok (rn_events r) →
  (∀ q, rn_reset r = Some q → request_ok ch q) →
  ∃ sent p' P' Q' n', runReorg ch now (rn_reset r) (rn_dirtyAccounts r) (rn_events r) p = Ok (sent, p') ∧
    pool_at p' P' Q' n' [] ∧
    (count (p_pending p') <= GlobalSlots (p_config p) ∨
     ∀ a, as_contains a (p_locals p') = false → len (P' a) <= AccountSlots (p_config p)) ∧
    (count (p_queue p') <= GlobalQueue (p_config p) ∨ ∀ a, as_contains a (p_locals p') = false → Q' a = []) ∧
    ((∀ q, rn_reset r = Some q → moves_on ch q p) → executable P n →
     ∀ a, tx_Nonce <$> P' a = seqZ (GetNonce (nc_fallback n') a) (len (P' a)) ∧
       next_nonce n' a = GetNonce (nc_fallback n') a + len (P' a)).
Proof.
  intros Hp Hev Hrev Hreq.
  destruct (runReorg_spec ch now r p P Q n Hp Hev Hrev Hreq) as (sent & p' & P' & Q' & n' & E & Hp' & _ & Hl1 & Hl2 & Hset).
  exists sent, p', P', Q', n'. by do 4 (split; [done|]).
Qed.

(** ** Resets *)

(** A reset to a head that continues the old one, over any number of blocks, ends
    and takes the pool to the state of the new head: the walk over the two chains finds the
    old head, no transaction is put back, and the lists are left for the promotion and
    demotion that follow; every transaction pending after those is payable at the new state. *)
Theorem reset_follows_chain ch now r events p P Q n st oldHead newHead rem add :
  pool_at p P Q n [] → events_ok events → request_ok ch r →
  rr_oldHead r = Some oldHead → rr_newHead r = Some newHead →
  sr_GetBlock ch (h_Hash oldHead) (h_Number oldHead) = Some rem →
  sr_GetBlock ch (h_Hash newHead) (h_Number newHead) = Some add → extends ch rem add →
  sr_StateAt ch (h_Root newHead) = Some st →
  reinject_of ch (Some oldHead) (Some newHead) = Ok (Some []) ∧
  (∃ p', pool_reset ch now (Some oldHead) (Some newHead) p = Ok p' ∧ pool_at p' P Q (newTxNoncer st) [] ∧
     ph_currentMaxGas (p_head p') = sr_MaxGasLimit ch) ∧
  ∃ promoted events' p' P' Q' n', reorg ch now (Some r) None events p = Ok (promoted, events', p') ∧
    pool_at p' P' Q' n' [] ∧ nc_fallback n' = st ∧
    ∀ a x, x ∈ P' a → payable st (sr_MaxGasLimit ch) a x = true.
Proof.
  intros Hp Hev Hr Eo En Er Ea Hex Est. pose proof (rq_chain _ _ Hr) as Hch.
  assert (Hre : reinject_of ch (Some oldHead) (Some newHead) = Ok (Some [])) by (by apply (reinject_extends ch _ _ rem add)).
  split; [done|]. split.
  - destruct (reset_spec ch now r p P Q n Hp Hr) as (p' & P' & Q' & n' & E & [Hp' _ _ _ Hfo]). rewrite Eo, En in *.
    destruct (Hfo st newHead eq_refl Est Hre) as (-> & -> & -> & _ & _ & Hgas). by exists p'.
  - destruct (reorg_reset_spec ch now r None events p P Q n Hp Hr Hev)
      as (pr & ev' & p' & P' & Q' & n' & E & Hp' & _ & _ & _ & _ & _ & Hfo).
    rewrite Eo, En in Hfo. destruct (Hfo st newHead eq_refl Est Hre) as (Hf & _ & Hpay & _).
    by exists pr, ev', p', P', Q', n'.
Qed.

(** ** Interleavings *)

(** C12: A new pool always starts.  When the state of the current head cannot be opened
    it starts without a state and a noncer.  Otherwise it is well-formed in every state that
    any interleaving of its goroutines reaches, given transactions, added or in blocks, with
    nonces below 2^64 - 1 and a chain that serves each reset when it is carried out: the chain finds a block under
    its own number and, when a reset compares a new head with an old one that is not its
    parent, is at most 64 blocks away and still in the chain, it has the block of the new
    head.  Under the same conditions the next step is carried out without a panic: no list,
    lookup entry, noncer or head that the code dereferences is missing.  The condition on
    the new head is needed: the reset panics when its block is missing. *)
Theorem pool_interleavings_safe ch now config cfg :
  config_bounds config →
  ∃ s0, start ch now config cfg = Ok s0 ∧
    match sr_StateAt ch (h_Root (eb_Header (sr_CurrentBlock ch))) with
    | None => ph_currentState (p_head (sd_pool s0)) = None ∧ p_pendingNonces (sd_pool s0) = None
    | Some st =>
        ∀ s, reachable admissible s0 s →
          (∃ P Q n, pool_at (sd_pool s) P Q n []) ∧
          (∀ ch' now' i, admissible ch' i s → ∃ s', do_step ch' now' i s = Ok s') ∧
          (∀ ch' now' r q oldHead newHead, sd_curDone s = Running r → rn_reset r = Some q →
             rr_oldHead q = Some oldHead → rr_newHead q = Some newHead → compared ch' oldHead newHead →
             sr_GetBlock ch' (h_Hash newHead) (h_Number newHead) = None →
             do_step ch' now' StepRun s = Panic)
    end.
Proof.
  intros Hc. destruct (sr_StateAt ch _) as [st|] eqn:Hst.
  - destruct (start_at ch now config cfg st Hc Hst) as (s0 & E & Hs0 & _).
    exists s0. split; [done|]. intros s Hr. destruct (reachable_at s0 s _ _ _ Hs0 Hr) as (P & Q & n & Hs).
    split; [exists P, Q, n; apply Hs|]. split.
    + intros ch' now' i Ha. destruct (step_spec ch' now' i s P Q n Hs Ha) as (s' & _ & _ & _ & E' & _). by exists s'.
    + intros ch' now' r q oldHead newHead. apply unserved_panics.
  - destruct (new_pool_stateless ch now config cfg Hst) as (p & E & Hn). unfold start. rewrite E. by eexists.
Qed.

(** C13: As long as the state of the head can be opened at the start, the chain serves the
    resets as for the safety of the interleavings, and only moves on (every new head
    continues the one before, over any number of blocks, its state can be opened and no nonce
    is lower there), the pending transactions of every account
    are executable in every reachable state: a run of nonces without a gap that begins at
    the nonce of the account in the pool's state, and the nonce the pool gives out next is
    neither below that nor beyond the run. *)
Theorem pending_always_executable ch now config cfg st :
  config_bounds config → sr_StateAt ch (h_Root (eb_Header (sr_CurrentBlock ch))) = Some st →
  ∃ s0, start ch now config cfg = Ok s0 ∧
    ∀ s, reachable (λ ch i s, admissible ch i s ∧ follows ch i s) s0 s →
      ∃ P Q n, pool_at (sd_pool s) P Q n [] ∧
        ∀ a, tx_Nonce <$> P a = seqZ (GetNonce (nc_fallback n) a) (len (P a)) ∧
          GetNonce (nc_fallback n) a <= next_nonce n a <= GetNonce (nc_fallback n) a + len (P a).
Proof.
  intros Hc Hst. destruct (start_at ch now config cfg st Hc Hst) as (s0 & E & Hs0 & _).
  exists s0. split; [done|]. intros s Hr.
  assert (Hex : ∃ P Q n, sched_at s P Q n ∧ executable P n).
  { induction Hr as [|s ch' now' i s' _ (P1 & Q1 & n1 & Hs & Hex) [Ha Hf] E'].
    - eexists _, _, _. split; [done|]. apply settled_executable, empty_settled.
    - destruct (step_spec ch' now' i s P1 Q1 n1 Hs Ha) as (s2 & P2 & Q2 & n2 & E2 & Hs2 & Hex2).
      exists P2, Q2, n2. split; [congruence|auto]. }
  destruct Hex as (P & Q & n & [Hp _ _ _ _] & Hex). by exists P, Q, n.
Qed.

(** The scheduler skips no head: in every reachable state the resets it has launched
    lead from the head the pool started at, each from where the one before ended, and the
    waiting one, or the last launched one when none waits, ends at the newest head; and no
    request waits unless a run is under way. *)
Theorem resets_skip_no_head ch now config cfg st :
  config_bounds config → sr_StateAt ch (h_Root (eb_Header (sr_CurrentBlock ch))) = Some st →
  ∃ s0, start ch now config cfg = Ok s0 ∧
    ∀ s, reachable (λ _ _ _, True) s0 s →
      (∃ h, linked (eb_Header (sr_CurrentBlock ch)) (sd_resets s) h ∧
        match sd_reset s with
        | None => h = eb_Header (sd_head s)
        | Some r => rr_oldHead r = Some h ∧ rr_newHead r = Some (eb_Header (sd_head s))
        end) ∧
      (sd_curDone s = NoRun → sd_reset s = None ∧ sd_dirtyAccounts s = None).
Proof.
  intros Hc Hst. destruct (start_at ch now config cfg st Hc Hst) as (s0 & E & _ & Ed & El & Er & Ea & Eh & Es).
  exists s0. split; [done|]. intros s Hr.
  assert (Hok : requests_ok (eb_Header (sr_CurrentBlock ch)) s).
  { induction Hr as [|s ch' now' i s' _ IH _ E']; [|by eapply step_requests].
    split; [|by rewrite El]. split; rewrite ?Er, ?Es, ?Eh, ?Ea; [|naive_solver]. eexists. by split; [constructor|]. }
  destruct Hok as [[Hl Hw] Hs]. split; [done|]. intros En.
  destruct (sd_launchNextRun s); [by destruct (Hs eq_refl)|].
  destruct (sd_reset s); [discriminate Hw; by left|]. destruct (sd_dirtyAccounts s); [discriminate Hw; by right|done].
Qed.
End props.

(** ** A concrete pool *)

(** Transactions signed by the account whose number is their [R]. *)
Definition ptx (acc nonce price : Z) : Transaction :=
  mkTransaction LegacyTxType nonce 21000 price 0 (Some (replicate 20 9)) [] 27 acc 1 0 [].

#[global] Instance demo_pool_tx : PoolTx := {
  px_Cost := demo_Cost;
  px_Hash tx := [tx_R tx; tx_Nonce tx; tx_GasPrice tx];
  px_Size _ := 110;
  px_Sender tx := Some [tx_R tx];
  px_TxDifference txs txs' := filter (λ tx, tx ∉ txs') txs;
}.

#[global] Instance demo_pool_tx_laws : PoolTxLaws.
Proof. split; [done|]. intros txs txs' x. cbn. by intros [_ ?]%list_elem_of_filter. Qed.

(** Insertion sorts by priority and by heartbeat. *)
Definition more_urgent (a b : Address * Z) : bool := b.2 <? a.2.
Definition older (a b : Address * Z) : bool := a.2 <? b.2.

#[global] Instance more_urgent_weak : WeakOrder more_urgent.
Proof. split; unfold more_urgent; intros *; rewrite ?Z.ltb_lt, ?Z.ltb_ge; lia. Qed.
#[global] Instance older_weak : WeakOrder older.
Proof. split; unfold older; intros *; rewrite ?Z.ltb_lt, ?Z.ltb_ge; lia. Qed.

Lemma sorted_impl {A} (R R' : relation A) l : (∀ x y, R x y → R' x y) → StronglySorted R l → StronglySorted R' l.
Proof. intros HR. induction 1 as [|x l Hs IH Hx]; constructor; [done|]. eapply Forall_impl; [exact Hx|auto]. Qed.

#[global] Instance demo_prque : Prque := { pq_pops := insertion_sort more_urgent }.
#[global] Instance demo_prque_laws : PrqueLaws.
Proof.
  split; intros l; destruct (insertion_sort_spec more_urgent l) as [Hs Hp]; [done|].
  eapply sorted_impl; [|exact Hs]. intros a b. unfold not_after, more_urgent. rewrite Z.ltb_ge. lia.
Qed.

#[global] Instance demo_beats : SortBeats := { sort_beats := insertion_sort older }.
#[global] Instance demo_beats_laws : SortBeatsLaws.
Proof.
  split; intros l; destruct (insertion_sort_spec older l) as [Hs Hp]; [done|].
  eapply sorted_impl; [|exact Hs]. intros a b. unfold not_after, older. rewrite Z.ltb_ge. lia.
Qed.

(** Three blocks; in the state of the last one account 2 has sent a transaction. *)
Definition demo_pool_block (k : Z) : EvmBlock := mkEvmBlock (mkEvmHeader k [k] [k - 1] [k] [] k [] 0 0) [].
Definition demo_pool_state (k : Z) : StateView :=
  mkStateView (λ a, if bool_decide (a = [2] ∧ 2 < k) then 1 else 0) (λ _, 10 ^ 9).

Definition demo_chain (head : Z) : stateReader :=
  mkStateReader (demo_pool_block head)
    (λ h k, if bool_decide (h = [k]) && (1 <=? k) && (k <=? 3) then Some (demo_pool_block k) else None)
    (λ r, match r with [k] => Some (demo_pool_state k) | _ => None end)
    1 None 30000000 (λ _, false) None.

(** Room for four pending transactions, one of them guaranteed to each account. *)
Definition demo_pool_config : TxPoolConfig := mkTxPoolConfig [[1]] false "" 0 1 10 1 4 3 2 0.
Definition demo_chain_config : ChainConfig := mkChainConfig (λ _, true) (λ _, true).

Lemma demo_config_bounds : config_bounds demo_pool_config.
Proof. by split. Qed.

Definition demo_locals : list Transaction := [ptx 1 0 5; ptx 1 1 5].
Definition demo_remotes : list Transaction := [ptx 2 0 10; ptx 2 1 11; ptx 3 0 20; ptx 3 2 20].

Definition demo_nonces_ok (txs : list Transaction) :
  forallb (λ tx, (0 <=? tx_Nonce tx) && (tx_Nonce tx <? 100)) txs = true → Forall nonce_ok txs.
Proof.
  intros E. apply Forall_forall. intros x Hx. rewrite forallb_forall in E. apply list_elem_of_In, E in Hx.
  unfold nonce_ok. lia.
Qed.

(** The pool with everything queued, and with what is executable promoted. *)
Definition demo_queued : TxPool :=
  match (p ← NewTxPool (demo_chain 1) 0 demo_pool_config demo_chain_config;
         '(_, _, p) ← AddLocals (demo_chain 1) 0 demo_locals p;
         '(_, _, p) ← AddRemotes (demo_chain 1) 1 demo_remotes p; Ok p) with
  | Ok p => p | _ => newPool demo_pool_config demo_chain_config None
  end.
Definition demo_promoted : TxPool :=
  match promoteExecutables 2 [[1]; [2]; [3]] [] demo_queued with Ok (_, p) => p | _ => demo_queued end.

Lemma demo_queued_at : ∃ P Q n, pool_at demo_queued P Q n [] ∧ executable P n ∧ events_ok (p_events demo_queued).
Proof.
  unfold demo_queued.
  destruct (new_pool_at (demo_chain 1) 0 demo_pool_config demo_chain_config (demo_pool_state 1) demo_config_bounds eq_refl)
    as (p0 & -> & Hp0 & _ & Hev & _). cbn [mbind res_bind].
  destruct (addTxs_op (demo_chain 1) 0 demo_locals (negb (NoLocals (p_config p0))) p0 _ _ _ Hp0)
    as (e1 & d1 & p1 & P1 & Q1 & n1 & E1 & [Hp1 Hg1 (_ & Hx1 & _)] & _); [by apply demo_nonces_ok|].
  unfold AddLocals. rewrite E1. cbn [mbind res_bind].
  destruct (addTxs_op (demo_chain 1) 1 demo_remotes false p1 _ _ _ Hp1)
    as (e2 & d2 & p2 & P2 & Q2 & n2 & E2 & [Hp2 Hg2 (_ & Hx2 & _)] & _); [by apply demo_nonces_ok|].
  unfold AddRemotes. rewrite E2. cbn [mbind res_bind]. exists P2, Q2, n2. split; [done|]. split.
  - apply Hx2, Hx1, settled_executable, empty_settled.
  - apply (eg_events _ _ Hg2), (eg_events _ _ Hg1). rewrite Hev. intros a m. by rewrite lookup_empty.
Qed.

Lemma demo_promoted_at : ∃ P Q n, pool_at demo_promoted P Q n [].
Proof.
  destruct demo_queued_at as (P & Q & n & Hp & _). unfold demo_promoted.
  destruct (pi_state _ _ _ _ _ (proj1 Hp)) as (st & n' & Hst).
  assert (n' = n) as -> by (destruct Hst as (_ & E & _); pose proof (proj2 Hp); congruence).
  destruct (promoteExecutables_spec 2 [[1]; [2]; [3]] [] demo_queued P Q n st Hp Hst)
    as (pr & p' & P' & Q' & n' & -> & Hp' & _). by exists P', Q', n'.
Qed.

#[local] Opaque demo_queued demo_promoted.

Lemma pool_reads_agree_witness :
  Status demo_promoted (px_Hash (ptx 2 1 11)) = TxStatusPending ∧
  Status demo_promoted (px_Hash (ptx 3 2 20)) = TxStatusQueued ∧
  Status demo_promoted (px_Hash (ptx 7 0 1)) = TxStatusUnknown ∧
  stats demo_promoted = (5, 1) ∧
  ∃ P Q n, ∀ a, (Content demo_promoted).1.1 !! a = as_map (P a) ∧ pool_at (Content demo_promoted).2 P Q n [].
Proof.
  do 4 (split; [vm_compute; reflexivity|]). destruct demo_promoted_at as (P & Q & n & Hp). exists P, Q, n. intros a.
  destruct (pool_reads_agree demo_promoted P Q n Hp) as (_ & Hc & _ & Hp'). split; [apply (Hc a)|exact Hp'].
Defined.

(** The pool is full: room is made by dropping the cheapest remote transaction, the one
    before the replaced, which therefore waits in the queue when it is replaced. *)
Lemma pool_add_outcome_witness :
  match pool_add (demo_chain 1) 3 (ptx 2 1 30) false demo_promoted with
  | Ok (v, p) => v = (true, None) ∧ Status p (px_Hash (ptx 2 1 30)) = TxStatusQueued ∧
      Status p (px_Hash (ptx 2 1 11)) = TxStatusUnknown
  | _ => False
  end ∧
  ∃ P Q n v p' P' Q' n', pool_at demo_promoted P Q n [] ∧
    pool_add (demo_chain 1) 3 (ptx 2 1 30) false demo_promoted = Ok (v, p') ∧ pool_at p' P' Q' n' [].
Proof.
  split; [vm_compute; done|]. destruct demo_promoted_at as (P & Q & n & Hp).
  destruct (pool_add_outcome (demo_chain 1) 3 (ptx 2 1 30) false demo_promoted P Q n Hp) as (v & p' & P' & Q' & n' & E & Hp' & _);
    [cbn; lia|]. exists P, Q, n, v, p', P', Q', n'. exact (conj Hp (conj E Hp')).
Defined.

(** At a price of 15 account 2 loses everything; account 1 is local. *)
Lemma gas_price_evicts_witness :
  match SetGasPriceWithCap 3 15 15 demo_promoted with
  | Ok p => stats p = (3, 1) ∧ Status p (px_Hash (ptx 1 0 5)) = TxStatusPending ∧
      Status p (px_Hash (ptx 2 0 10)) = TxStatusUnknown
  | _ => False
  end ∧
  ∃ P Q n D p' P' Q' n', pool_at demo_promoted P Q n [] ∧ SetGasPriceWithCap 3 15 15 demo_promoted = Ok p' ∧
    pool_at p' P' Q' n' [] ∧ Forall (λ x, tx_GasPrice x < 15) D ∧
    (∀ x, in_pool P' Q' x ↔ in_pool P Q x ∧ px_Hash x ∉ px_Hash <$> D).
Proof.
  split; [vm_compute; done|]. destruct demo_promoted_at as (P & Q & n & Hp).
  destruct (gas_price_evicts 3 15 15 demo_promoted P Q n Hp) as (D & p' & P' & Q' & n' & E & Hp' & _ & HD & Hin & _).
  exists P, Q, n, D, p', P', Q', n'. exact (conj Hp (conj E (conj Hp' (conj HD Hin)))).
Defined.

(** Five pending transactions with room for four: one of account 2 or 3 goes. *)
Lemma truncation_fair_witness :
  match truncatePending demo_promoted with Ok p => stats p = (4, 1) | _ => False end ∧
  ∃ P Q n p1 p2 P' Q' n', pool_at demo_promoted P Q n [] ∧ truncatePending demo_promoted = Ok p1 ∧
    truncateQueue 3 p1 = Ok p2 ∧ pool_at p2 P' Q' n' [] ∧
    (∀ a, as_contains a (p_locals demo_promoted) = true → P' a = P a ∧ Q' a = Q a).
Proof.
  split; [vm_compute; done|]. destruct demo_promoted_at as (P & Q & n & Hp).
  destruct (truncation_fair 3 demo_promoted P Q n Hp) as (p1 & p2 & P' & Q' & n' & E1 & E2 & Hp2 & _ & _ & _ & _ & Hl).
  exists P, Q, n, p1, p2, P', Q', n'. exact (conj Hp (conj E1 (conj E2 (conj Hp2 Hl)))).
Defined.

Definition demo_run : reorgRun := mkReorgRun None (Some (newAccountSet [[1]; [2]; [3]])) ∅.

Lemma reorg_settles_witness :
  match runReorg (demo_chain 1) 3 None (rn_dirtyAccounts demo_run) ∅ demo_queued with
  | Ok (Some sent, p) => length sent = 5%nat ∧ stats p = (4, 1)
  | _ => False
  end ∧
  ∃ sent p' P' Q' n', runReorg (demo_chain 1) 3 None (rn_dirtyAccounts demo_run) ∅ demo_queued = Ok (sent, p') ∧
    pool_at p' P' Q' n' [] ∧ ∀ a, tx_Nonce <$> P' a = seqZ (GetNonce (nc_fallback n') a) (len (P' a)).
Proof.
  split; [vm_compute; done|]. destruct demo_queued_at as (P & Q & n & Hp & Hex & Hev).
  destruct (reorg_settles (demo_chain 1) 3 demo_run demo_queued P Q n Hp Hev) as (sent & p' & P' & Q' & n' & E & Hp' & _ & _ & Hset).
  - intros a m E. cbn in E. by rewrite lookup_empty in E.
  - done.
  - exists sent, p', P', Q', n'. split; [exact E|]. split; [exact Hp'|]. intros a. by apply Hset.
Defined.

Lemma demo_chain_ok head : chain_ok (demo_chain head).
Proof.
  intros h k b. cbn. destruct (Z.leb_spec 1 k); [|by rewrite andb_false_r]. destruct (Z.leb_spec k 3); [|by rewrite andb_false_r].
  destruct (bool_decide (h = [k])); [|done]. intros [= <-]. split; [done|lia].
Qed.

Definition demo_request : resetRequest :=
  mkResetRequest (Some (eb_Header (demo_pool_block 1))) (Some (eb_Header (demo_pool_block 3))).

Lemma demo_request_ok : request_ok (demo_chain 3) demo_request.
Proof.
  split; [apply demo_chain_ok| |].
  - intros h k b. cbn. destruct (_ && _); [|done]. intros [= <-]. constructor.
  - eexists. split; [done|]. intros _ _ _. by eexists.
Qed.

(** Two blocks further account 2 has sent its first transaction. *)
Lemma reset_follows_chain_witness :
  match reorg (demo_chain 3) 4 (Some demo_request) None ∅ demo_promoted with
  | Ok (_, _, p) => Status p (px_Hash (ptx 2 0 10)) = TxStatusUnknown ∧
      Status p (px_Hash (ptx 2 1 11)) = TxStatusPending
  | _ => False
  end ∧
  ∃ promoted events' p' P' Q' n', reorg (demo_chain 3) 4 (Some demo_request) None ∅ demo_promoted = Ok (promoted, events', p') ∧
    pool_at p' P' Q' n' [] ∧ ∀ a x, x ∈ P' a → payable (demo_pool_state 3) 30000000 a x = true.
Proof.
  split; [vm_compute; done|]. destruct demo_promoted_at as (P & Q & n & Hp).
  destruct (reset_follows_chain (demo_chain 3) 4 demo_request ∅ demo_promoted P Q n (demo_pool_state 3)
    (eb_Header (demo_pool_block 1)) (eb_Header (demo_pool_block 3)) (demo_pool_block 1) (demo_pool_block 3) Hp)
    as (_ & _ & pr & ev & p' & P' & Q' & n' & E & Hp' & _ & Hpay).
  - intros a m Ea. by rewrite lookup_empty in Ea.
  - apply demo_request_ok.
  - reflexivity.
  - reflexivity.
  - reflexivity.
  - reflexivity.
  - apply extends_parent with (demo_pool_block 2); [done|done|]. apply extends_parent with (demo_pool_block 1); [done|done|].
    by apply extends_same.
  - reflexivity.
  - exists pr, ev, p', P', Q', n'. exact (conj E (conj Hp' Hpay)).
Defined.

(** *** A run of the goroutines *)

Fixpoint run_steps (now : Z) (steps : list (stateReader * pool_step)) (s : scheduler) : res scheduler :=
  match steps with
  | [] => Ok s
  | (ch, i) :: steps' => s ← do_step ch now i s; run_steps (now + 1) steps' s
  end.

(** A caller adds transactions, a head arrives while the promotion runs, and the reset
    follows when the run has ended. *)
Definition demo_steps : list (stateReader * pool_step) :=
  [(demo_chain 1, StepAddRemotes demo_remotes); (demo_chain 1, StepPromote 0);
   (demo_chain 2, StepHead (Some (demo_pool_block 2))); (demo_chain 2, StepRun);
   (demo_chain 3, StepHead (Some (demo_pool_block 3))); (demo_chain 3, StepDone); (demo_chain 3, StepRun);
   (demo_chain 3, StepDone)].

Definition demo_s0 : scheduler :=
  match start (demo_chain 1) 0 demo_pool_config demo_chain_config with
  | Ok s => s
  | _ => mkScheduler (newPool demo_pool_config demo_chain_config None) NoRun false None None [] (demo_pool_block 1) [] []
  end.

Lemma demo_s0_start : start (demo_chain 1) 0 demo_pool_config demo_chain_config = Ok demo_s0.
Proof. vm_compute. reflexivity. Qed.

(** The state after the first [k] steps. *)
Definition demo_s (k : nat) : scheduler := ok_or demo_s0 (run_steps 1 (take k demo_steps) demo_s0).

(** The request of the run under way. *)
Definition running_reset (s : scheduler) : option resetRequest :=
  match sd_curDone s with Running r => rn_reset r | _ => None end.

Lemma running_reset_eq s r q : sd_curDone s = Running r → rn_reset r = Some q → running_reset s = Some q.
Proof. unfold running_reset. by intros ->. Qed.

Lemma demo_first_run : running_reset (demo_s 3) = None.
Proof. vm_compute. reflexivity. Qed.

Lemma demo_second_run : running_reset (demo_s 6) = Some demo_request.
Proof. vm_compute. reflexivity. Qed.

Lemma demo_second_state : ph_currentState (p_head (sd_pool (demo_s 6))) = Some (demo_pool_state 1).
Proof. vm_compute. reflexivity. Qed.

Lemma demo_extends : extends (demo_chain 3) (demo_pool_block 1) (demo_pool_block 3).
Proof.
  apply extends_parent with (demo_pool_block 2); [done|done|]. apply extends_parent with (demo_pool_block 1); [done|done|].
  by apply extends_same.
Qed.

Definition demo_good (ch : stateReader) (i : pool_step) (s : scheduler) : Prop := admissible ch i s ∧ follows ch i s.

Lemma demo_first_good : demo_good (demo_chain 2) StepRun (demo_s 3).
Proof.
  split; intros r q Er Eq; pose proof (running_reset_eq _ _ _ Er Eq) as E; rewrite demo_first_run in E; discriminate E.
Qed.

Lemma demo_second_good : demo_good (demo_chain 3) StepRun (demo_s 6).
Proof.
  split; intros r q Er Eq; pose proof (running_reset_eq _ _ _ Er Eq) as E; rewrite demo_second_run in E; injection E as <-; clear r Er Eq.
  - destruct demo_request_ok as [Hc Hb _]. split; [done|done|]. intros o n _ [= <-] _. by eexists.
  - exists (eb_Header (demo_pool_block 1)), (eb_Header (demo_pool_block 3)), (demo_pool_block 1), (demo_pool_block 3),
      (demo_pool_state 1), (demo_pool_state 3).
    do 4 (split; [done|]). split; [exact demo_extends|]. split; [exact demo_second_state|]. split; [done|].
    intros a. cbn [GetNonce demo_pool_state]. rewrite (bool_decide_false (a = [2] ∧ 2 < 1)) by lia.
    destruct (bool_decide _); lia.
Qed.

Lemma demo_remotes_nonces : Forall nonce_ok demo_remotes.
Proof. unfold demo_remotes, nonce_ok. repeat apply Forall_cons_2; [cbn; lia..|constructor]. Qed.

Lemma demo_reachable : reachable demo_good demo_s0 (demo_s 8).
Proof.
  assert (Hrun : ∀ k ch i, demo_steps !! k = Some (ch, i) → reachable demo_good demo_s0 (demo_s k) →
    demo_good ch i (demo_s k) → do_step ch (1 + Z.of_nat k) i (demo_s k) = Ok (demo_s (S k)) →
    reachable demo_good demo_s0 (demo_s (S k))).
  { intros k ch i _ Hr Hg E. by eapply reachable_step. }
  eapply (Hrun 7%nat); [reflexivity|..|exact (conj I I)|vm_compute; reflexivity].
  eapply (Hrun 6%nat); [reflexivity|..|exact demo_second_good|vm_compute; reflexivity].
  eapply (Hrun 5%nat); [reflexivity|..|exact (conj I I)|vm_compute; reflexivity].
  eapply (Hrun 4%nat); [reflexivity|..|exact (conj I I)|vm_compute; reflexivity].
  eapply (Hrun 3%nat); [reflexivity|..|exact demo_first_good|vm_compute; reflexivity].
  eapply (Hrun 2%nat); [reflexivity|..|exact (conj I I)|vm_compute; reflexivity].
  eapply (Hrun 1%nat); [reflexivity|..|exact (conj I I)|vm_compute; reflexivity].
  eapply (Hrun 0%nat); [reflexivity|..|split; [exact demo_remotes_nonces|exact I]|vm_compute; reflexivity].
  apply reachable_start.
Qed.

Lemma reachable_mono (good good' : stateReader → pool_step → scheduler → Prop) s0 s :
  (∀ ch i s, good ch i s → good' ch i s) → reachable good s0 s → reachable good' s0 s.
Proof. intros Hg. induction 1; [constructor|]. eapply reachable_step; eauto. Qed.

Lemma pool_interleavings_safe_witness :
  stats (sd_pool (demo_s 8)) = (2, 1) ∧ len (sd_feed (demo_s 8)) = 1 ∧
  (∃ P Q n, pool_at (sd_pool (demo_s 8)) P Q n []) ∧
  ∃ s', do_step (demo_chain 3) 20 (StepAddRemotes demo_remotes) (demo_s 8) = Ok s'.
Proof.
  split; [vm_compute; reflexivity|]. split; [vm_compute; reflexivity|].
  destruct (pool_interleavings_safe (demo_chain 1) 0 demo_pool_config demo_chain_config demo_config_bounds)
    as (s0 & E & Hs). assert (s0 = demo_s0) as -> by (pose proof demo_s0_start; congruence).
  change (sr_StateAt (demo_chain 1) _) with (Some (demo_pool_state 1)) in Hs. cbn beta iota in Hs.
  destruct (Hs (demo_s 8)) as (Hp & Hstep & _).
  - apply (reachable_mono demo_good); [by intros ? ? ? []|exact demo_reachable].
  - split; [exact Hp|]. apply Hstep. exact demo_remotes_nonces.
Defined.

Lemma pending_always_executable_witness :
  stats (sd_pool (demo_s 8)) = (2, 1) ∧
  ∃ P Q n, pool_at (sd_pool (demo_s 8)) P Q n [] ∧
    ∀ a, tx_Nonce <$> P a = seqZ (GetNonce (nc_fallback n) a) (len (P a)) ∧
      GetNonce (nc_fallback n) a <= next_nonce n a <= GetNonce (nc_fallback n) a + len (P a).
Proof.
  split; [vm_compute; reflexivity|].
  destruct (pending_always_executable (demo_chain 1) 0 demo_pool_config demo_chain_config (demo_pool_state 1) demo_config_bounds eq_refl)
    as (s0 & E & Hs). assert (s0 = demo_s0) as -> by (pose proof demo_s0_start; congruence).
  apply Hs. exact demo_reachable.
Defined.

Lemma resets_skip_no_head_witness :
  match (s ← start (demo_chain 1) 0 demo_pool_config demo_chain_config; run_steps 1 demo_steps s) with
  | Ok s => sd_resets s = [demo_request] ∧ sd_reset s = None
  | _ => False
  end ∧
  ∃ s0, start (demo_chain 1) 0 demo_pool_config demo_chain_config = Ok s0 ∧
    ∀ s, reachable (λ _ _ _, True) s0 s → sd_curDone s = NoRun → sd_reset s = None ∧ sd_dirtyAccounts s = None.
Proof.
  split; [vm_compute; done|].
  destruct (resets_skip_no_head (demo_chain 1) 0 demo_pool_config demo_chain_config (demo_pool_state 1) demo_config_bounds eq_refl)
    as (s0 & E & Hs). exists s0. split; [exact E|]. intros s Hr. apply (Hs s Hr).
Defined.
