(* ===== verification/Topics.v ===== *)
(** * The index of logs (topicsdb/)

    Every topic of a log, and its address as the topic number zero, is a key of a sorted
    table, followed by the position and the identifier of the log; a search walks the keys
    of the first criterion and looks the others up.  The search is proved against the
    plain filtering of the logs that were pushed. *)

From stdpp Require Import sorting.
From S2P Require Import Prelude Cser Inter Heap Store EvmChain.

(** ** Libraries *)

(** Byte strings in the order of the database. *)
Fixpoint bytes_cmp (a b : list Z) : comparison :=
  match a, b with
  | [], [] => Eq
  | [], _ => Lt
  | _, [] => Gt
  | x :: a', y :: b' => match x ?= y with Eq => bytes_cmp a' b' | c => c end
  end.

(** [bigendian] of the base library: eight bytes, in the order of the numbers. *)
Class BigEndian := { be_Uint64ToBytes : Z → list Z; be_BytesToUint64 : list Z → Z }.
Class BigEndianLaws `{BigEndian} := {
  be_length : ∀ n, length (be_Uint64ToBytes n) = 8%nat;
  be_roundtrip : ∀ n, is_u64 n → be_BytesToUint64 (be_Uint64ToBytes n) = n;
  be_cmp : ∀ n m, is_u64 n → is_u64 m → bytes_cmp (be_Uint64ToBytes n) (be_Uint64ToBytes m) = (n ?= m);
}.

(** [kvdb.Store]: reads, writes and iterators can fail; a missing value is nil.  An
    iterator gives entries until its end or its error. *)
Class Kvdb := {
  kv_Put : list Z → list Z → Table → option error * Table;
  kv_Get : Table → list Z → res (option (list Z));
  kv_NewIterator : Table → list Z → list Z → list (list Z * list Z) * option error;
}.

(** A database without failures: an iterator gives the keys with the prefix from the start
    on, in their order. *)
Class KvdbLaws `{Kvdb} := {
  kv_Put_ok : ∀ k v t, kv_Put k v t = (None, <[k := v]> t);
  kv_Get_ok : ∀ t k, kv_Get t k = Ok (t !! k);
  kv_iter_ok : ∀ t prefix start, (kv_NewIterator t prefix start).2 = None;
  kv_iter_elem : ∀ t prefix start k v, (k, v) ∈ (kv_NewIterator t prefix start).1 ↔
    t !! k = Some v ∧ prefix `prefix_of` k ∧ bytes_cmp (prefix ++ start) k ≠ Gt;
  kv_iter_sorted : ∀ t prefix start,
    StronglySorted (λ a b, bytes_cmp a.1 b.1 = Lt) (kv_NewIterator t prefix start).1;
}.

(** [types.Log] *)
Record evmLog := mkEvmLog {
  lg_Address : list Z;
  lg_Topics : list (list Z);
  lg_Data : list Z;
  lg_BlockNumber : Z;
  lg_TxHash : list Z;
  lg_TxIndex : Z;
  lg_BlockHash : list Z;
  lg_Index : Z;
  lg_Removed : bool;
}.

#[global] Instance evmLog_eq_dec : EqDecision evmLog.
Proof. solve_decision. Defined.

(** [common.BytesToAddress] and [Address.Hash] *)
Definition BytesToAddress (b : list Z) : list Z :=
  let b := drop (length b - 20) b in replicate (20 - length b) 0 ++ b.
Definition Address_Hash (a : list Z) : list Z := BytesToHash a.

(** [b[i:j]] *)
Definition subslice (b : list Z) (i j : Z) : res (list Z) :=
  if (0 <=? i) && (i <=? j) && (j <=? len b) then Ok (take (Z.to_nat (j - i)) (drop (Z.to_nat i) b)) else Panic.

(** ** Keys *)

Definition MaxTopicsCount : Z := 255.
Definition ErrEmptyTopics : error := NewError "topicsdb.ErrEmptyTopics".
Definition hashSize : Z := 32.
Definition uint64Size : Z := 8.
Definition logrecKeySize : Z := uint64Size + hashSize + uint64Size.
Definition topicKeySize : Z := hashSize + 1 + logrecKeySize.

Section topicsdb.
Context `{BigEndian} `{Kvdb}.

Definition NewID (block : Z) (tx : list Z) (logIndex : Z) : list Z :=
  be_Uint64ToBytes block ++ tx ++ be_Uint64ToBytes logIndex.

Definition ID_BlockNumber (id : list Z) : Z := be_BytesToUint64 (take 8 id).
Definition ID_TxHash (id : list Z) : list Z := take 32 (drop 8 id).
Definition ID_Index (id : list Z) : Z := be_BytesToUint64 (take 8 (drop 40 id)).

Definition posToBytes (pos : Z) : list Z := [pos].
Definition bytesToPos (b : list Z) : res Z := index b 0.

Definition topicKey (topic : list Z) (pos : Z) (logrec : list Z) : list Z := topic ++ posToBytes pos ++ logrec.

Definition extractLogrecID (key : list Z) : res (list Z) :=
  if len key =? topicKeySize then Ok (drop 33 key) else Panic.

(** ** Writing *)

Record Index := mkIndex { ix_Topic : Table; ix_Logrec : Table }.

Definition put_topic (key value : list Z) : Eff Index unit := λ tt,
  match kv_Put key value (ix_Topic tt) with
  | (Some e, t) => (Err e, mkIndex t (ix_Logrec tt))
  | (None, t) => (Ok (), mkIndex t (ix_Logrec tt))
  end.
Definition put_logrec (key value : list Z) : Eff Index unit := λ tt,
  match kv_Put key value (ix_Logrec tt) with
  | (Some e, t) => (Err e, mkIndex (ix_Topic tt) t)
  | (None, t) => (Ok (), mkIndex (ix_Topic tt) t)
  end.

(** The loop over the topics: [j] counts them and [pos] is a byte. *)
Fixpoint push_topics (id count : list Z) (topics : list (list Z)) (j pos : Z) : Eff Index unit :=
  match topics with
  | [] => mret ()
  | topic :: topics' =>
      if MaxTopicsCount <=? j then mret ()
      else
        _ ← put_topic (topicKey topic pos id) count;
        push_topics id count topics' (j + 1) (u8 (pos + 1))
  end.

(** The bytes of the record; the loop above stops at the same topic. *)
Definition logrec_bytes (rec : evmLog) : list Z :=
  concat (take (Z.to_nat MaxTopicsCount) (lg_Topics rec)) ++ lg_BlockHash rec ++ lg_Address rec ++ lg_Data rec.

Definition push_one (rec : evmLog) : Eff Index unit :=
  let id := NewID (lg_BlockNumber rec) (lg_TxHash rec) (lg_Index rec) in
  let count := posToBytes (u8 (len (lg_Topics rec))) in
  _ ← put_topic (topicKey (Address_Hash (lg_Address rec)) 0 id) count;
  _ ← push_topics id count (lg_Topics rec) 0 1;
  put_logrec id (logrec_bytes rec).

Fixpoint Push (recs : list evmLog) : Eff Index unit :=
  match recs with
  | [] => mret ()
  | rec :: recs' => _ ← push_one rec; Push recs'
  end.

(** An error is a panic. *)
Definition MustPush (recs : list evmLog) : Eff Index unit := λ tt,
  match Push recs tt with
  | (Err _, tt') => (Panic, tt')
  | r => r
  end.

(** ** Reading a record *)

Record logrec := mkLogrec { lr_ID : list Z; lr_topicsCount : Z }.

Fixpoint read_topics (n : nat) (buf : list Z) (offset : Z) : res (list (list Z) * Z) :=
  match n with
  | O => Ok ([], offset)
  | S n' =>
      b ← subslice buf offset (offset + hashSize);
      '(topics, offset) ← read_topics n' buf (offset + hashSize);
      Ok (BytesToHash b :: topics, offset)
  end.

Definition fetch (rec : logrec) (logrecTable : Table) : res evmLog :=
  o ← kv_Get logrecTable (lr_ID rec);
  let buf := default [] o in
  '(topics, offset) ← read_topics (Z.to_nat (lr_topicsCount rec)) buf 0;
  bh ← subslice buf offset (offset + hashSize);
  let offset := offset + hashSize in
  ad ← subslice buf offset (offset + 20);
  let offset := offset + 20 in
  data ← subslice buf offset (len buf);
  Ok (mkEvmLog (BytesToAddress ad) topics data (ID_BlockNumber (lr_ID rec)) (ID_TxHash (lr_ID rec)) 0
        (BytesToHash bh) (ID_Index (lr_ID rec)) false).

(** ** Searching *)

(** How the body of a loop ends: [continue], [break], or the function returns. *)
Inductive ctl := Next | Break | Return.

Section walk.
Context {S : Type} (ctx_Err : Eff S (option error)) (onMatched : logrec → Eff S bool) (tt : Index).

(** A loop over an iterator: whether the function goes on after it. *)
Fixpoint iterate {A} (l : list A) (body : A → Eff S ctl) : Eff S bool :=
  match l with
  | [] => mret true
  | x :: l' =>
      c ← body x;
      match c with
      | Next => iterate l' body
      | Break => mret true
      | Return => mret false
      end
  end.

Definition check_ctx : Eff S unit :=
  o ← ctx_Err; match o with Some e => eff_err e | None => mret () end.

(** [for _, variant := range pattern[pos]]: an iterator for each. *)
Fixpoint each_variant (variants : list (list Z)) (iterator : list Z → list (list Z * list Z) * option error)
    (body : list Z * list Z → Eff S ctl) : Eff S bool :=
  match variants with
  | [] => mret true
  | variant :: variants' =>
      let '(entries, err) := iterator variant in
      gonext ← iterate entries body;
      if gonext : bool then
        match err with
        | Some e => eff_err e
        | None => each_variant variants' iterator body
        end
      else mret false
  end.

(** [rest] is [pattern[pos:]]. *)
Fixpoint walkNexts (rest : list (list (list Z))) (pos : Z) (rec : logrec) : Eff S bool :=
  match rest with
  | [] => onMatched rec
  | [] :: rest' => walkNexts rest' (u8 (pos + 1)) rec
  | variants :: rest' =>
      each_variant variants
        (λ variant, kv_NewIterator (ix_Topic tt) (variant ++ posToBytes pos ++ lr_ID rec) [])
        (λ _, _ ← check_ctx;
              gonext ← walkNexts rest' (u8 (pos + 1)) rec;
              mret (if gonext : bool then Next else Return))
  end.

(** The body of the loop over the keys of the first criterion. *)
Definition first_body (blockStart : option (list Z)) (blockEnd patternLen : Z) (rest' : list (list (list Z))) (pos : Z)
    (e : list Z * list Z) : Eff S ctl :=
  _ ← check_ctx;
  topicCount ← (λ s, (bytesToPos e.2, s) : res Z * S);
  if topicCount <? u8 (patternLen - 1) then mret Next
  else
    id ← (λ s, (extractLogrecID e.1, s) : res (list Z) * S);
    if bool_decide (is_Some blockStart) && (blockEnd <? ID_BlockNumber id) then mret Break
    else
      gonext ← walkNexts rest' (u8 (pos + 1)) (mkLogrec id topicCount);
      mret (if gonext : bool then Next else Return).

Fixpoint walkFirst (blockStart : option (list Z)) (blockEnd patternLen : Z) (rest : list (list (list Z))) (pos : Z)
  : Eff S bool :=
  match rest with
  | [] => mret true
  | [] :: rest' => walkFirst blockStart blockEnd patternLen rest' (u8 (pos + 1))
  | variants :: rest' =>
      each_variant variants
        (λ variant, kv_NewIterator (ix_Topic tt) (variant ++ posToBytes pos) (default [] blockStart))
        (first_body blockStart blockEnd patternLen rest' pos)
  end.

Definition searchLazy (pattern : list (list (list Z))) (blockStart : option (list Z)) (blockEnd : Z) : Eff S unit :=
  _ ← walkFirst blockStart blockEnd (u8 (len pattern)) pattern 0; mret ().
End walk.

Definition limitPattern (pattern : list (list (list Z))) : res (list (list (list Z))) :=
  let limited := if MaxTopicsCount <? len pattern then take (Z.to_nat MaxTopicsCount) pattern else pattern in
  if existsb (λ variants, 0 <? len variants) limited then Ok limited else Err ErrEmptyTopics.

(** [onMatched] of the searches: the record is fetched and given to the caller. *)
Definition fetch_and {S} (tt : Index) (onLog : evmLog → Eff S bool) (rec : logrec) : Eff S bool :=
  l ← (λ s, (fetch rec (ix_Logrec tt), s) : res evmLog * S); onLog l.

Definition ForEach {S} (ctx_Err : Eff S (option error)) (pattern : list (list (list Z))) (onLog : evmLog → Eff S bool)
    (tt : Index) : Eff S unit :=
  limited ← (λ s, (limitPattern pattern, s) : res _ * S);
  searchLazy ctx_Err (fetch_and tt onLog) tt limited None 0.

Definition ForEachInBlocks {S} (ctx_Err : Eff S (option error)) (from to : Z) (pattern : list (list (list Z)))
    (onLog : evmLog → Eff S bool) (tt : Index) : Eff S unit :=
  if to <? from then mret ()
  else
    limited ← (λ s, (limitPattern pattern, s) : res _ * S);
    searchLazy ctx_Err (fetch_and tt onLog) tt limited (Some (be_Uint64ToBytes from)) to.

(** [ctx_Err] is the context's, on a state [C] of its own; the state of the search has
    the logs found so far. *)
Definition FindInBlocks {C} (ctx_Err : Eff C (option error)) (from to : Z) (pattern : list (list (list Z)))
    (tt : Index) : Eff C (list evmLog) := λ c,
  let ctx' : Eff (C * list evmLog) (option error) := λ s, let '(r, c) := ctx_Err s.1 in (r, (c, s.2)) in
  let onLog l : Eff (C * list evmLog) bool := λ s, (Ok true, (s.1, s.2 ++ [l])) in
  let '(r, (c, logs)) := ForEachInBlocks ctx' from to pattern onLog tt (c, []) in
  (match r with Ok _ => Ok logs | Err e => Err e | Panic => Panic end, c).
End topicsdb.

(** ** The order of byte strings *)

Lemma bytes_cmp_refl a : bytes_cmp a a = Eq.
Proof. induction a as [|x a IH]; cbn; [done|]. by rewrite Z.compare_refl. Qed.

Lemma bytes_cmp_app a b x y :
  length a = length b → bytes_cmp (a ++ x) (b ++ y) = match bytes_cmp a b with Eq => bytes_cmp x y | c => c end.
Proof.
  revert b. induction a as [|u a IH]; intros [|v b] E; cbn in *; try done. injection E as E.
  destruct (u ?= v); [by apply IH|done|done].
Qed.

Lemma bytes_cmp_prefix p x y : bytes_cmp (p ++ x) (p ++ y) = bytes_cmp x y.
Proof. by rewrite bytes_cmp_app, bytes_cmp_refl. Qed.

Section index_spec.
Context `{BigEndianLaws} `{KvdbLaws}.

(** ** Identifiers and keys *)

(** A log as the node stores it; positions in the index are bytes. *)
Record log_ok (l : evmLog) : Prop := {
  lo_address : length (lg_Address l) = 20%nat;
  lo_topics : Forall (λ t, length t = 32%nat) (lg_Topics l);
  lo_count : len (lg_Topics l) <= 255;
  lo_block : is_u64 (lg_BlockNumber l);
  lo_tx : length (lg_TxHash l) = 32%nat;
  lo_bh : length (lg_BlockHash l) = 32%nat;
  lo_index : is_u64 (lg_Index l);
}.

Definition log_id (l : evmLog) : list Z := NewID (lg_BlockNumber l) (lg_TxHash l) (lg_Index l).

Lemma log_id_length l : log_ok l → length (log_id l) = 48%nat.
Proof. intros Hl. unfold log_id, NewID. rewrite !length_app, !be_length, (lo_tx _ Hl). done. Qed.

Lemma log_id_fields l :
  log_ok l → ID_BlockNumber (log_id l) = lg_BlockNumber l ∧ ID_TxHash (log_id l) = lg_TxHash l ∧
    ID_Index (log_id l) = lg_Index l.
Proof.
  intros Hl. unfold log_id, NewID, ID_BlockNumber, ID_TxHash, ID_Index.
  rewrite take_app_length' by (by rewrite be_length). rewrite drop_app_length' by (by rewrite be_length).
  rewrite take_app_length' by (by rewrite (lo_tx _ Hl)).
  rewrite app_assoc, drop_app_length' by (by rewrite length_app, be_length, (lo_tx _ Hl)).
  rewrite take_ge by (by rewrite be_length). rewrite !be_roundtrip; [done|apply Hl..].
Qed.

(** The topic at a position: the padded address, then the topics. *)
Definition at_pos (l : evmLog) (pos : nat) : option (list Z) :=
  match pos with O => Some (Address_Hash (lg_Address l)) | S j => lg_Topics l !! j end.

Lemma Address_Hash_length a : length a = 20%nat → length (Address_Hash a) = 32%nat.
Proof. intros E. unfold Address_Hash, BytesToHash. by rewrite E, length_app, length_replicate, length_drop, E. Qed.

Lemma at_pos_length l pos t : log_ok l → at_pos l pos = Some t → length t = 32%nat.
Proof.
  intros Hl. destruct pos as [|j]; cbn.
  - intros [= <-]. by apply Address_Hash_length, Hl.
  - intros E. pose proof (lo_topics _ Hl) as Ht. rewrite Forall_forall in Ht. apply Ht. by eapply list_elem_of_lookup_2.
Qed.

Lemma at_pos_bound l pos t : log_ok l → at_pos l pos = Some t → (pos <= 255)%nat.
Proof.
  intros Hl. destruct pos as [|j]; cbn; [lia|]. intros E%lookup_lt_Some. pose proof (lo_count _ Hl). unfold len in *. lia.
Qed.

Lemma topicKey_length t pos id : length t = 32%nat → length id = 48%nat → length (topicKey t pos id) = 81%nat.
Proof. intros Ht Hid. unfold topicKey, posToBytes. rewrite !length_app, Ht, Hid. done. Qed.

Lemma topicKey_inj t p id t' p' id' :
  length t = length t' → topicKey t p id = topicKey t' p' id' → t = t' ∧ p = p' ∧ id = id'.
Proof. intros Hl E. apply app_inj_1 in E as [-> E]; [|done]. injection E as -> ->. done. Qed.

(** ** What the tables hold *)

Definition log_key (l : evmLog) (pos : nat) (k : list Z) : Prop :=
  ∃ t, at_pos l pos = Some t ∧ k = topicKey t (Z.of_nat pos) (log_id l).

Record index_ok (tt : Index) (logs : list evmLog) : Prop := {
  io_topic : ∀ k v, ix_Topic tt !! k = Some v ↔
    ∃ l pos, l ∈ logs ∧ log_key l pos k ∧ v = [len (lg_Topics l)];
  io_logrec : ∀ l, l ∈ logs → ix_Logrec tt !! log_id l = Some (logrec_bytes l);
}.

(** The keys of the first positions of a new log are added. *)
Definition topics_upto (t0 t : Table) (l : evmLog) (n : nat) : Prop :=
  ∀ k v, t !! k = Some v ↔ t0 !! k = Some v ∨ ∃ pos, (pos < n)%nat ∧ log_key l pos k ∧ v = [len (lg_Topics l)].

Lemma topics_upto_put t0 t l n tp :
  log_ok l → (∀ k, t0 !! k ≠ None → ∀ pos, ¬ log_key l pos k) → topics_upto t0 t l n → at_pos l n = Some tp →
  topics_upto t0 (<[topicKey tp (Z.of_nat n) (log_id l) := [len (lg_Topics l)]]> t) l (S n).
Proof.
  intros Hl Hfr Ht Htp k v. rewrite lookup_insert_Some, (Ht k v). split.
  - intros [[<- <-]|[Hne [?|(pos & Hpos & Hk)]]]; [right; exists n; split; [lia|]; split; [by exists tp|done]|by left|].
    right. exists pos. split; [lia|done].
  - intros [Hk|(pos & Hpos & (t' & Et & ->) & ->)].
    + right. split; [|by left]. intros <-. apply (Hfr (topicKey tp (Z.of_nat n) (log_id l)) ltac:(congruence) n). by exists tp.
    + destruct (decide (pos = n)) as [->|Hne].
      * left. split; [|done]. congruence.
      * right. split; [|right; exists pos; split; [lia|]; split; [by exists t'|done]].
        intros (_ & E & _)%topicKey_inj; [lia|]. by rewrite (at_pos_length l n tp), (at_pos_length l pos t').
Qed.

Lemma push_topics_spec l topics pre tt t0 :
  log_ok l → lg_Topics l = pre ++ topics → (∀ k, t0 !! k ≠ None → ∀ pos, ¬ log_key l pos k) →
  topics_upto t0 (ix_Topic tt) l (S (length pre)) →
  ∃ t, push_topics (log_id l) (posToBytes (len (lg_Topics l))) topics (len pre) (u8 (1 + len pre)) tt
      = (Ok (), mkIndex t (ix_Logrec tt)) ∧ topics_upto t0 t l (S (length (lg_Topics l))).
Proof.
  intros Hl. revert pre tt. induction topics as [|tp topics IH]; intros pre tt Hpre Hfr Ht; cbn [push_topics].
  { exists (ix_Topic tt). split; [by destruct tt|]. by rewrite Hpre, app_nil_r. }
  pose proof (lo_count _ Hl) as Hc. assert (Hlen : len pre + 1 + len topics <= 255).
  { rewrite Hpre, len_app in Hc. unfold len in *. cbn in Hc. lia. }
  assert (0 <= len topics) by (unfold len; lia). assert (0 <= len pre) by (unfold len; lia).
  unfold MaxTopicsCount. rewrite (proj2 (Z.leb_gt _ _)) by lia.
  assert (Htp : at_pos l (S (length pre)) = Some tp) by (cbn; by rewrite Hpre, list_lookup_middle).
  rewrite (u8_id (1 + len pre)) by (unfold is_u8; lia).
  set (tt' := mkIndex (<[topicKey tp (1 + len pre) (log_id l) := [len (lg_Topics l)]]> (ix_Topic tt)) (ix_Logrec tt)).
  rewrite (Eff_bind_step _ _ _ () tt') by (unfold put_topic; by rewrite kv_Put_ok).
  destruct (IH (pre ++ [tp]) tt') as (t & E & Hup).
  - by rewrite <- app_assoc.
  - done.
  - rewrite length_app. cbn [length]. replace (length pre + 1)%nat with (S (length pre)) by lia. unfold tt'. cbn [ix_Topic].
    replace (1 + len pre) with (Z.of_nat (S (length pre))) by (unfold len; lia). by apply topics_upto_put.
  - exists t. split; [|done]. rewrite len_app in E. change (len [tp]) with 1 in E.
    by rewrite Z.add_assoc in E.
Qed.

Definition logs_ok (logs : list evmLog) : Prop := Forall log_ok logs ∧ NoDup (log_id <$> logs).

Lemma push_one_spec l tt logs :
  index_ok tt logs → log_ok l → Forall log_ok logs → log_id l ∉ log_id <$> logs →
  ∃ tt', push_one l tt = (Ok (), tt') ∧ index_ok tt' (logs ++ [l]).
Proof.
  intros [Ht Hr] Hl Hall Hfr. rewrite Forall_forall in Hall. pose proof (lo_count _ Hl) as Hc.
  assert (Hkey : ∀ k, ix_Topic tt !! k ≠ None → ∀ pos, ¬ log_key l pos k).
  { intros k Hk pos (t & Et & ->). destruct (ix_Topic tt !! _) as [v|] eqn:E; [|done].
    apply Ht in E as (l' & pos' & Hin & (t' & Et' & E) & _). apply topicKey_inj in E as (_ & _ & E).
    - apply Hfr. rewrite E. by apply list_elem_of_fmap_2.
    - rewrite (at_pos_length l pos t Hl Et), (at_pos_length l' pos' t'); auto. }
  unfold push_one. fold (log_id l). rewrite u8_id by (unfold is_u8; pose proof (len_nonneg (lg_Topics l)); lia).
  set (tt0 := mkIndex (<[topicKey (Address_Hash (lg_Address l)) 0 (log_id l) := [len (lg_Topics l)]]> (ix_Topic tt)) (ix_Logrec tt)).
  rewrite (Eff_bind_step _ _ _ () tt0) by (unfold put_topic; by rewrite kv_Put_ok).
  destruct (push_topics_spec l (lg_Topics l) [] tt0 (ix_Topic tt) Hl eq_refl Hkey) as (t & E & Hup).
  { apply (topics_upto_put _ _ l 0); [done|done| |done]. intros k v. split; [auto|]. intros [?|(pos & ? & _)]; [done|lia]. }
  change (len []) with 0 in E. change (u8 (1 + 0)) with 1 in E. rewrite (Eff_bind_step _ _ _ _ _ E).
  unfold put_logrec. rewrite kv_Put_ok. eexists. split; [done|]. split; cbn [ix_Topic ix_Logrec].
  - intros k v. rewrite (Hup k v), (Ht k v). setoid_rewrite elem_of_app. setoid_rewrite list_elem_of_singleton. split.
    + intros [(l' & pos & Hin & Hk)|(pos & _ & Hk)]; [exists l', pos; auto|exists l, pos; auto].
    + intros (l' & pos & [Hin| ->] & Hk & Hv); [left; by exists l', pos|]. right. exists pos. split; [|done].
      destruct Hk as (t' & Et & _). destruct pos as [|j]; [lia|]. cbn in Et. apply lookup_lt_Some in Et. lia.
  - intros l' [Hin| ->%list_elem_of_singleton]%elem_of_app; [|by rewrite lookup_insert_eq].
    rewrite lookup_insert_ne; [by apply Hr|]. intros E'. apply Hfr. rewrite E'. by apply list_elem_of_fmap_2.
Qed.

Lemma Push_spec recs tt logs :
  index_ok tt logs → logs_ok (logs ++ recs) → ∃ tt', Push recs tt = (Ok (), tt') ∧ index_ok tt' (logs ++ recs).
Proof.
  revert tt logs. induction recs as [|l recs IH]; intros tt logs Ht [Hall Hnd]; cbn [Push].
  { exists tt. by rewrite app_nil_r. }
  pose proof Hall as [Hall1 [Hl _]%Forall_cons]%Forall_app. rewrite fmap_app in Hnd.
  pose proof Hnd as (_ & Hdis & _)%NoDup_app.
  destruct (push_one_spec l tt logs Ht Hl Hall1) as (tt1 & E1 & Ht1).
  { intros Hin. apply (Hdis _ Hin). rewrite fmap_cons. by left. }
  rewrite (Eff_bind_step _ _ _ _ _ E1). destruct (IH tt1 (logs ++ [l]) Ht1) as (tt' & E & Ht').
  - rewrite <- app_assoc. split; [done|]. by rewrite fmap_app.
  - exists tt'. rewrite <- app_assoc in Ht'. done.
Qed.

Lemma index_empty : index_ok (mkIndex ∅ ∅) [].
Proof.
  split; [|by intros l ?%not_elem_of_nil]. intros k v. cbn. rewrite lookup_empty. split; [done|].
  intros (l & pos & ?%not_elem_of_nil & _). done.
Qed.

(** ** Fetching *)

(** A log as the index gives it back: the index of the transaction is not stored. *)
Definition indexed (l : evmLog) : evmLog :=
  mkEvmLog (lg_Address l) (lg_Topics l) (lg_Data l) (lg_BlockNumber l) (lg_TxHash l) 0 (lg_BlockHash l) (lg_Index l) false.

Definition rec_of (l : evmLog) : logrec := mkLogrec (log_id l) (len (lg_Topics l)).

Lemma subslice_mid pre b post i j :
  i = len pre → j = len pre + len b → subslice (pre ++ b ++ post) i j = Ok b.
Proof.
  intros -> ->. unfold subslice. pose proof (len_nonneg pre). pose proof (len_nonneg b). pose proof (len_nonneg post).
  rewrite !len_app. rewrite !(proj2 (Z.leb_le _ _)) by lia. cbn [andb]. replace (len pre + len b - len pre) with (len b) by lia.
  unfold len. rewrite !Nat2Z.id, drop_app_length, take_app_length. done.
Qed.

Lemma BytesToHash_id b : length b = 32%nat → BytesToHash b = b.
Proof. intros E. unfold BytesToHash. by rewrite E, Nat.sub_diag, drop_0, E. Qed.

Lemma BytesToAddress_id b : length b = 20%nat → BytesToAddress b = b.
Proof. intros E. unfold BytesToAddress. by rewrite E, Nat.sub_diag, drop_0, E. Qed.

Lemma len_hash (t : list Z) : length t = 32%nat → len t = 32.
Proof. unfold len. lia. Qed.

Lemma read_topics_spec ts pre post :
  Forall (λ t, length t = 32%nat) ts →
  read_topics (length ts) (pre ++ concat ts ++ post) (len pre) = Ok (ts, len pre + len (concat ts)).
Proof.
  revert pre. induction ts as [|t ts IH]; intros pre Hts; cbn [read_topics length concat].
  { by rewrite Z.add_0_r. }
  apply Forall_cons in Hts as [Ht Hts]. unfold hashSize. rewrite <- (app_assoc t).
  rewrite (subslice_mid pre t _) by (rewrite ?(len_hash t Ht); lia). cbn [mbind res_bind].
  specialize (IH (pre ++ t) Hts). rewrite <- app_assoc, len_app, (len_hash t Ht) in IH. rewrite IH. cbn [mbind res_bind].
  rewrite BytesToHash_id by done. rewrite len_app, (len_hash t Ht). by rewrite Z.add_assoc.
Qed.

Lemma fetch_spec tt logs l : index_ok tt logs → log_ok l → l ∈ logs → fetch (rec_of l) (ix_Logrec tt) = Ok (indexed l).
Proof.
  intros [_ Hr] Hl Hin. unfold fetch, rec_of. cbn [lr_ID lr_topicsCount]. rewrite kv_Get_ok, (Hr l Hin). cbn [mbind res_bind default].
  unfold id, logrec_bytes. pose proof (lo_count _ Hl) as Hc. rewrite take_ge by (unfold len, MaxTopicsCount in *; lia).
  replace (Z.to_nat (len (lg_Topics l))) with (length (lg_Topics l)) by (unfold len; lia). pose proof (read_topics_spec (lg_Topics l) [] (lg_BlockHash l ++ lg_Address l ++ lg_Data l) (lo_topics _ Hl)) as E.
  cbn [app] in E. change (len []) with 0 in E. rewrite E. cbn [mbind res_bind]. rewrite Z.add_0_l.
  set (c := concat (lg_Topics l)). unfold hashSize.
  assert (Hb : len (lg_BlockHash l) = 32) by apply len_hash, Hl.
  assert (Ha : len (lg_Address l) = 20) by (unfold len; by rewrite (lo_address _ Hl)).
  rewrite (subslice_mid c (lg_BlockHash l) _ (len c) (len c + 32)) by lia. cbn [mbind res_bind].
  rewrite !(app_assoc c).
  rewrite (subslice_mid (c ++ lg_BlockHash l) (lg_Address l) _ (len c + 32) (len c + 32 + 20)) by (rewrite len_app; lia).
  cbn [mbind res_bind]. rewrite (app_assoc (c ++ _)).
  pose proof (subslice_mid ((c ++ lg_BlockHash l) ++ lg_Address l) (lg_Data l) [] (len c + 32 + 20)
    (len (((c ++ lg_BlockHash l) ++ lg_Address l) ++ lg_Data l))) as E'.
  rewrite app_nil_r in E'. rewrite E' by (rewrite !len_app; lia).
  cbn [mbind res_bind]. destruct (log_id_fields l Hl) as (-> & -> & ->).
  rewrite BytesToHash_id, BytesToAddress_id by apply Hl. done.
Qed.

(** ** Looking up the other criteria *)

(** The criteria from a position on: an empty one allows everything. *)
Fixpoint matches_from (l : evmLog) (pos : nat) (rest : list (list (list Z))) : bool :=
  match rest with
  | [] => true
  | vs :: rest' =>
      (bool_decide (vs = []) || match at_pos l pos with Some t => bool_decide (t ∈ vs) | None => false end)
      && matches_from l (S pos) rest'
  end.

(** Alternatives are hashes, each given once. *)
Definition pattern_ok (pattern : list (list (list Z))) : Prop :=
  Forall (λ vs, NoDup vs ∧ Forall (λ v, length v = 32%nat) vs) pattern.

Lemma sorted_single {A} (R : A → A → Prop) (l : list A) x :
  ¬ R x x → StronglySorted R l → (∀ e, e ∈ l → e = x) → l = if decide (l = []) then [] else [x].
Proof.
  intros Hirr Hs Hx. destruct l as [|a l]; [done|]. assert (a = x) as -> by (apply Hx; by left).
  destruct l as [|b l]; [done|]. exfalso. apply Hirr. apply StronglySorted_inv in Hs as [_ [Hb _]%Forall_cons].
  assert (b = x) as -> by (apply Hx; right; by left). done.
Qed.

Lemma logs_id_inj logs l l' : logs_ok logs → l ∈ logs → l' ∈ logs → log_id l = log_id l' → l = l'.
Proof.
  intros [_ Hnd] [i Hi]%list_elem_of_lookup_1 [j Hj]%list_elem_of_lookup_1 E.
  assert (i = j) as ->; [|congruence]. eapply (NoDup_lookup (log_id <$> logs)); [done|..]; rewrite list_lookup_fmap.
  - by rewrite Hi.
  - rewrite Hj. cbn. by rewrite E.
Qed.

Lemma topic_lookup tt logs l v pos :
  index_ok tt logs → logs_ok logs → l ∈ logs → length v = 32%nat →
  ∀ w, ix_Topic tt !! topicKey v (Z.of_nat pos) (log_id l) = Some w ↔ at_pos l pos = Some v ∧ w = [len (lg_Topics l)].
Proof.
  intros Ht Hlogs Hin Hv w. pose proof (proj1 (Forall_forall _ _) (proj1 Hlogs)) as Hok. rewrite (io_topic _ _ Ht). split.
  - intros (l' & pos' & Hin' & (t & Et & E) & ->). apply topicKey_inj in E as (-> & Ep & Eid).
    2: by rewrite Hv, (at_pos_length l' pos' t) by auto.
    assert (pos' = pos) as -> by lia. by rewrite (logs_id_inj logs l l' Hlogs Hin Hin' Eid).
  - intros [Et ->]. exists l, pos. split; [done|]. split; [by exists v|done].
Qed.

Lemma topic_full_key tt logs k w suf :
  index_ok tt logs → logs_ok logs → length k = 81%nat → ix_Topic tt !! (k ++ suf) = Some w → suf = [].
Proof.
  intros Ht Hlogs Hk E. pose proof (proj1 (Forall_forall _ _) (proj1 Hlogs)) as Hok.
  apply (io_topic _ _ Ht) in E as (l' & pos' & Hin' & (t & Et & E) & _). apply (f_equal length) in E.
  rewrite length_app, Hk, topicKey_length in E; [destruct suf; [done|cbn in E; lia]|..].
  - by eapply at_pos_length; eauto.
  - by apply log_id_length; auto.
Qed.

Lemma exact_entry tt logs l v pos :
  index_ok tt logs → logs_ok logs → l ∈ logs → length v = 32%nat →
  kv_NewIterator (ix_Topic tt) (v ++ posToBytes (Z.of_nat pos) ++ log_id l) [] =
    (if decide (at_pos l pos = Some v) then [(topicKey v (Z.of_nat pos) (log_id l), [len (lg_Topics l)])] else [], None).
Proof.
  intros Ht Hlogs Hin Hv. fold (topicKey v (Z.of_nat pos) (log_id l)). set (K := topicKey v (Z.of_nat pos) (log_id l)).
  pose proof (proj1 (Forall_forall _ _) (proj1 Hlogs)) as Hok.
  assert (HlK : length K = 81%nat) by (apply topicKey_length; [done|apply log_id_length; auto]).
  pose proof (topic_lookup tt logs l v pos Ht Hlogs Hin Hv) as HK. fold K in HK.
  pose proof (kv_iter_ok (ix_Topic tt) K []) as He. pose proof (kv_iter_sorted (ix_Topic tt) K []) as Hs.
  pose proof (kv_iter_elem (ix_Topic tt) K []) as Hel.
  destruct (kv_NewIterator (ix_Topic tt) K []) as [es err]. cbn [fst snd] in *. subst err. f_equal.
  assert (Hall : ∀ e, e ∈ es → e = (K, [len (lg_Topics l)]) ∧ at_pos l pos = Some v).
  { intros [k w] Hkw. destruct (proj1 (Hel k w) Hkw) as (E & [suf ->] & _).
    pose proof (topic_full_key tt logs K w suf Ht Hlogs HlK E) as ->. rewrite app_nil_r in *. by apply HK in E as [? ->]. }
  rewrite (sorted_single (λ a b, bytes_cmp a.1 b.1 = Lt) es (K, [len (lg_Topics l)]));
    [|by cbn; rewrite bytes_cmp_refl|exact Hs|intros e Hin'; by apply Hall].
  destruct (decide (es = [])) as [->|Hne]; destruct (decide (at_pos l pos = Some v)) as [Ea|Ea]; try done.
  - exfalso. eapply not_elem_of_nil, (Hel K [len (lg_Topics l)]). split; [by apply HK|]. split; [done|].
    by rewrite app_nil_r, bytes_cmp_refl.
  - destruct es as [|e es]; [done|]. destruct Ea. apply (Hall e). by left.
Qed.

Section walking.
Context {S : Type} (ctx_Err : Eff S (option error)) (onMatched : logrec → Eff S bool) (tt : Index) (logs : list evmLog).
(** The context is not cancelled. *)
Hypothesis Hctx : ∀ s, ctx_Err s = (Ok None, s).
Hypothesis Htt : index_ok tt logs.
Hypothesis Hlogs : logs_ok logs.

Lemma check_ctx_ok s : check_ctx ctx_Err s = (Ok (), s).
Proof using Hctx. unfold check_ctx. by rewrite (Eff_bind_step _ _ _ _ _ (Hctx s)). Qed.

(** A loop whose body returns when the handler says so. *)
Definition go_on (K : Eff S bool) : Eff S ctl := g ← K; mret (if g : bool then Next else Return).

Lemma iterate_single {A} (x : A) (body : A → Eff S ctl) K s :
  body x s = go_on K s → iterate [x] body s = K s.
Proof.
  intros E. cbn [iterate]. cbv [mbind Eff_bind]. rewrite E. unfold go_on. cbv [mbind Eff_bind mret Eff_ret].
  destruct (K s) as [[[]| |] s']; done.
Qed.

Lemma each_variant_once (t : option (list Z)) (vs : list (list Z)) iterator body (K : Eff S bool) s :
  NoDup vs → (∀ v, v ∈ vs → ∃ e, iterator v = (if decide (t = Some v) then [e] else [], None)) →
  (∀ e s, body e s = go_on K s) →
  each_variant vs iterator body s =
    if match t with Some v => bool_decide (v ∈ vs) | None => false end then K s else (Ok true, s).
Proof.
  intros Hnd Hit Hb. revert s. induction Hnd as [|v vs Hv Hnd IH]; intros s; cbn [each_variant].
  { destruct t; [|done]. rewrite bool_decide_false; [done|]. apply not_elem_of_nil. }
  destruct (Hit v ltac:(by left)) as [e ->]. destruct (decide (t = Some v)) as [->|Hne].
  - rewrite bool_decide_true by (by left). cbv [mbind Eff_bind]. rewrite (iterate_single e body K s) by apply Hb.
    destruct (K s) as [[[]| |] s']; try done. rewrite IH by (intros; apply Hit; by right). by rewrite bool_decide_false.
  - cbn [iterate]. rewrite (Eff_bind_step _ _ s true s) by done. rewrite IH by (intros; apply Hit; by right).
    destruct t as [t|]; [|done]. erewrite bool_decide_ext; [done|]. rewrite elem_of_cons. naive_solver.
Qed.

Lemma walkNexts_spec rest pos l s :
  l ∈ logs → pattern_ok rest → (pos + length rest <= 255)%nat →
  walkNexts ctx_Err onMatched tt rest (Z.of_nat pos) (rec_of l) s =
    if matches_from l pos rest then onMatched (rec_of l) s else (Ok true, s).
Proof using All.
  intros Hin. revert pos s. induction rest as [|vs rest IH]; intros pos s Hp Hpos; [done|].
  apply Forall_cons in Hp as [[Hnd Hlen] Hp]. cbn [length] in Hpos.
  assert (Hu : u8 (Z.of_nat pos + 1) = Z.of_nat (Datatypes.S pos)) by (rewrite u8_id by (unfold is_u8; lia); lia).
  destruct vs as [|v vs]; cbn [walkNexts matches_from].
  { rewrite bool_decide_true by done. cbn [orb andb]. rewrite Hu. apply IH; [done|lia]. }
  rewrite bool_decide_false by done. cbn [orb].
  rewrite (each_variant_once (at_pos l pos) (v :: vs) _ _
    (λ s, if matches_from l (Datatypes.S pos) rest then onMatched (rec_of l) s else (Ok true, s))).
  - destruct (at_pos l pos) as [t|]; [|done]. by destruct (bool_decide (t ∈ v :: vs)).
  - done.
  - intros v' Hv'. eexists. apply (exact_entry tt logs l v' pos Htt Hlogs Hin). rewrite Forall_forall in Hlen. auto.
  - intros e s'. rewrite (Eff_bind_step _ _ _ _ _ (check_ctx_ok s')). unfold go_on. cbv [mbind Eff_bind].
    rewrite Hu, IH by (done || lia). done.
Qed.

(** ** Walking the first criterion *)

(** The handler is called for the records in turn, until it asks to stop. *)
Definition handle (recs : list logrec) : Eff S bool := iterate recs (λ r, go_on (onMatched r)).

Lemma handle_app r1 r2 s : handle (r1 ++ r2) s = (g ← handle r1; if g : bool then handle r2 else mret false) s.
Proof.
  revert s. induction r1 as [|r r1 IH]; intros s; [done|]. unfold handle in *. cbn [iterate app].
  cbv [go_on mbind Eff_bind mret Eff_ret] in *. destruct (onMatched r s) as [[[]| |] s']; [apply IH|done..].
Qed.

(** The entries under a prefix are the logs with that topic, in the order of identifiers. *)
Definition entry_of (v : list Z) (pos : nat) (l : evmLog) : list Z * list Z :=
  (topicKey v (Z.of_nat pos) (log_id l), [len (lg_Topics l)]).
Definition id_lt (a b : evmLog) : Prop := bytes_cmp (log_id a) (log_id b) = Lt.
Definition from_ok (bs : option Z) (l : evmLog) : Prop := match bs with Some from => from <= lg_BlockNumber l | None => True end.

Lemma id_from from l x :
  log_ok l → is_u64 from → bytes_cmp (be_Uint64ToBytes from) (log_id l ++ x) ≠ Gt ↔ from <= lg_BlockNumber l.
Proof.
  intros Hl Hf. unfold log_id, NewID. rewrite <- (app_nil_r (be_Uint64ToBytes from)), <- app_assoc.
  rewrite bytes_cmp_app by (by rewrite !be_length). rewrite be_cmp by (apply Hl || done).
  destruct (Z.compare_spec from (lg_BlockNumber l)) as [->|Hlt|Hgt]; [|split; [lia|done]|split; [done|lia]].
  split; [lia|]. intros _. by destruct ((lg_TxHash l ++ be_Uint64ToBytes (lg_Index l)) ++ x).
Qed.

Lemma entry_elem v pos bs e :
  length v = 32%nat → (∀ from, bs = Some from → is_u64 from) →
  e ∈ (kv_NewIterator (ix_Topic tt) (v ++ posToBytes (Z.of_nat pos)) (default [] (be_Uint64ToBytes <$> bs))).1 ↔
    ∃ l, l ∈ logs ∧ at_pos l pos = Some v ∧ from_ok bs l ∧ e = entry_of v pos l.
Proof.
  intros Hv Hbs. destruct e as [k w]. rewrite kv_iter_elem. pose proof (proj1 (Forall_forall _ _) (proj1 Hlogs)) as Hok.
  assert (Hcmp : ∀ l, l ∈ logs → bytes_cmp ((v ++ posToBytes (Z.of_nat pos)) ++ default [] (be_Uint64ToBytes <$> bs))
    (topicKey v (Z.of_nat pos) (log_id l)) ≠ Gt ↔ from_ok bs l).
  { intros l Hin. unfold topicKey. rewrite (app_assoc v), bytes_cmp_prefix. destruct bs as [from|]; cbn.
    - rewrite <- (app_nil_r (log_id l)). apply id_from; auto.
    - by destruct (log_id l). }
  split.
  - intros (E & [suf ->] & Hc). apply (io_topic _ _ Htt) in E as (l & pos' & Hin & (t & Et & E) & ->).
    unfold topicKey in E. rewrite <- app_assoc in E. apply app_inj_1 in E as [Ev E]; [|by rewrite Hv, (at_pos_length l pos' t) by auto].
    subst t. injection E as Ep ->. assert (pos' = pos) as -> by lia. exists l. split; [done|]. split; [done|].
    split; [apply (Hcmp l Hin)|]; unfold entry_of, topicKey; by rewrite (app_assoc v).
  - intros (l & Hin & Ea & Hf & [= -> ->]). split; [|split; [|by apply Hcmp]].
    + apply (io_topic _ _ Htt). exists l, pos. split; [done|]. split; [by exists v|done].
    + unfold topicKey. rewrite (app_assoc v). by eexists.
Qed.

Lemma entry_of_inj v pos l l' : entry_of v pos l = entry_of v pos l' → log_id l = log_id l'.
Proof. intros [= E _]. by apply topicKey_inj in E as (_ & _ & E). Qed.

Lemma first_entries v pos bs :
  length v = 32%nat → (∀ from, bs = Some from → is_u64 from) →
  ∃ L, kv_NewIterator (ix_Topic tt) (v ++ posToBytes (Z.of_nat pos)) (default [] (be_Uint64ToBytes <$> bs))
      = (entry_of v pos <$> L, None) ∧ StronglySorted id_lt L ∧
    ∀ l, l ∈ L ↔ l ∈ logs ∧ at_pos l pos = Some v ∧ from_ok bs l.
Proof.
  intros Hv Hbs. pose proof (λ e, entry_elem v pos bs e Hv Hbs) as Hel.
  set (it := kv_NewIterator (ix_Topic tt) (v ++ posToBytes (Z.of_nat pos)) (default [] (be_Uint64ToBytes <$> bs))) in *.
  pose proof (kv_iter_ok _ _ _ : it.2 = None) as He. pose proof (kv_iter_sorted _ _ _ : StronglySorted _ it.1) as Hs.
  destruct it as [es err]. cbn [fst snd] in *. subst err.
  assert (HL : ∃ L, es = entry_of v pos <$> L ∧ (∀ l, l ∈ L → l ∈ logs)).
  { assert (Hall : ∀ e, e ∈ es → ∃ l, l ∈ logs ∧ e = entry_of v pos l) by (intros e (l & ? & _ & _ & ?)%Hel; by exists l).
    clear Hel Hs. induction es as [|e es IH]; [by exists []; split; [|intros l ?%not_elem_of_nil]|].
    destruct IH as (L & -> & HL); [intros e' He'; apply Hall; by right|]. destruct (Hall e ltac:(by left)) as (l & Hl & ->).
    exists (l :: L). split; [done|]. intros l' [->|?]%elem_of_cons; auto. }
  destruct HL as (L & -> & HL). exists L. split; [done|]. split.
  - clear Hel HL. induction L as [|l L IH]; [constructor|]. rewrite fmap_cons in Hs. apply StronglySorted_inv in Hs as [Hs Hx].
    constructor; [by apply IH|]. rewrite Forall_fmap in Hx. eapply Forall_impl; [exact Hx|]. intros l' E. cbn in E.
    unfold topicKey in E. rewrite !(app_assoc v), bytes_cmp_prefix in E. done.
  - intros l. split.
    + intros Hin. destruct (proj1 (Hel (entry_of v pos l))) as (l' & Hin' & Ea & Hf & E); [by apply list_elem_of_fmap_2|].
      apply entry_of_inj in E. by rewrite (logs_id_inj logs l l' Hlogs (HL l Hin) Hin' E).
    + intros (Hin & Ea & Hf). assert (He : entry_of v pos l ∈ entry_of v pos <$> L) by (apply Hel; by exists l).
      apply list_elem_of_fmap in He as (l' & E & Hin'). apply entry_of_inj in E.
      by rewrite (logs_id_inj logs l l' Hlogs Hin (HL l' Hin') E).
Qed.

Lemma id_lt_block a b : log_ok a → log_ok b → id_lt a b → lg_BlockNumber a <= lg_BlockNumber b.
Proof.
  intros Ha Hb E. unfold id_lt, log_id, NewID in E. rewrite bytes_cmp_app in E by (by rewrite !be_length).
  rewrite be_cmp in E by (apply Ha || apply Hb). destruct (Z.compare_spec (lg_BlockNumber a) (lg_BlockNumber b)); lia || done.
Qed.

(** A log of the block range with enough topics that satisfies the criteria from [pos] on. *)
Definition selected (bs : option Z) (to plen : Z) (pos : nat) (rest : list (list (list Z))) (l : evmLog) : Prop :=
  from_ok bs l ∧ (bs ≠ None → lg_BlockNumber l <= to) ∧ plen - 1 <= len (lg_Topics l) ∧ matches_from l pos rest = true.

#[global] Instance selected_dec bs to plen pos rest l : Decision (selected bs to plen pos rest l).
Proof. unfold selected, from_ok. destruct bs; apply _. Defined.

Lemma first_body_spec bs to plen rest pos v l s :
  l ∈ logs → pattern_ok rest → (pos + 1 + length rest <= 255)%nat → 1 <= plen <= 255 → length v = 32%nat →
  first_body ctx_Err onMatched tt (be_Uint64ToBytes <$> bs) to plen rest (Z.of_nat pos) (entry_of v pos l) s =
    if len (lg_Topics l) <? plen - 1 then (Ok Next, s)
    else if bool_decide (bs ≠ None) && (to <? lg_BlockNumber l) then (Ok Break, s)
    else go_on (λ s, if matches_from l (Datatypes.S pos) rest then onMatched (rec_of l) s else (Ok true, s)) s.
Proof using Hctx Htt Hlogs H0 H2.
  intros Hin Hp Hpos Hplen Hv. pose proof (proj1 (Forall_forall _ _) (proj1 Hlogs) l Hin) as Hl.
  unfold first_body. rewrite (Eff_bind_step _ _ _ _ _ (check_ctx_ok s)).
  rewrite (Eff_bind_step _ _ s (len (lg_Topics l)) s) by done.
  rewrite u8_id by (unfold is_u8; lia). destruct (_ <? plen - 1); [done|].
  assert (Hx : extractLogrecID (entry_of v pos l).1 = Ok (log_id l)).
  { unfold extractLogrecID, entry_of. cbn [fst]. unfold len. rewrite topicKey_length by (done || by apply log_id_length).
    cbn. unfold topicKey, posToBytes. rewrite (app_assoc v), drop_app_length' by (by rewrite length_app, Hv). done. }
  rewrite (Eff_bind_step _ _ s (log_id l) s) by (by rewrite Hx).
  destruct (log_id_fields l Hl) as (-> & _ & _).
  assert (bool_decide (is_Some (be_Uint64ToBytes <$> bs)) = bool_decide (bs ≠ None)) as ->.
  { by destruct bs. }
  destruct (_ && _); [done|]. rewrite u8_id by (unfold is_u8; lia).
  replace (Z.of_nat pos + 1) with (Z.of_nat (Datatypes.S pos)) by lia. change (mkLogrec (log_id l) (len (lg_Topics l))) with (rec_of l).
  unfold go_on. cbv [mbind Eff_bind]. rewrite walkNexts_spec by (done || lia). done.
Qed.

(** The loop over the entries: once a block is beyond the range, so are the others. *)
Lemma iterate_entries bs to plen rest pos v L s :
  (∀ l, l ∈ L → l ∈ logs ∧ from_ok bs l) → StronglySorted id_lt L →
  pattern_ok rest → (pos + 1 + length rest <= 255)%nat → 1 <= plen <= 255 → length v = 32%nat →
  iterate (entry_of v pos <$> L) (first_body ctx_Err onMatched tt (be_Uint64ToBytes <$> bs) to plen rest (Z.of_nat pos)) s
    = handle (rec_of <$> filter (selected bs to plen (Datatypes.S pos) rest) L) s.
Proof using Hctx Htt Hlogs H0 H2.
  intros Hin Hs Hp Hpos Hplen Hv. pose proof (proj1 (Forall_forall _ _) (proj1 Hlogs)) as Hok.
  revert s. induction Hs as [|l L Hs IH Hl]; intros s; [done|]. rewrite fmap_cons. cbn [iterate].
  destruct (Hin l ltac:(by left)) as [Hll Hf]. cbv [mbind Eff_bind]. rewrite first_body_spec by done.
  assert (IH' : ∀ s, iterate (entry_of v pos <$> L) (first_body ctx_Err onMatched tt (be_Uint64ToBytes <$> bs) to plen rest (Z.of_nat pos)) s
    = handle (rec_of <$> filter (selected bs to plen (Datatypes.S pos) rest) L) s) by (apply IH; intros; apply Hin; by right).
  rewrite filter_cons. destruct (Z.ltb_spec (len (lg_Topics l)) (plen - 1)) as [Hc|Hc].
  { rewrite decide_False; [apply IH'|]. intros (_ & _ & ? & _). lia. }
  destruct (bool_decide (bs ≠ None) && (to <? lg_BlockNumber l)) eqn:Eb.
  { apply andb_true_iff in Eb as [Eb%bool_decide_eq_true Hlt%Z.ltb_lt]. rewrite decide_False; [|intros (_ & Hto & _); specialize (Hto Eb); lia].
    rewrite filter_none; [done|]. apply Forall_forall. intros l' Hl' (_ & Hto & _). specialize (Hto Eb). rewrite Forall_forall in Hl.
    pose proof (id_lt_block l l' (Hok l Hll) (Hok l' (proj1 (Hin l' ltac:(by right)))) (Hl l' Hl')). lia. }
  assert (Hto : bs ≠ None → lg_BlockNumber l <= to).
  { intros Hb. apply andb_false_iff in Eb as [Eb%bool_decide_eq_false|Hge%Z.ltb_ge]; [done|lia]. }
  destruct (matches_from l (Datatypes.S pos) rest) eqn:Em.
  - rewrite decide_True by (by repeat split). rewrite fmap_cons. unfold handle in *. cbn [iterate]. cbv [go_on mbind Eff_bind].
    destruct (onMatched (rec_of l) s) as [[[]| |] s']; try done. apply IH'.
  - rewrite decide_False by (intros (_ & _ & _ & ?); congruence). cbv [go_on mbind Eff_bind]. apply IH'.
Qed.

Lemma each_variant_handle vs bs to plen rest pos :
  NoDup vs → Forall (λ v, length v = 32%nat) vs → (∀ from, bs = Some from → is_u64 from) →
  pattern_ok rest → (pos + 1 + length rest <= 255)%nat → 1 <= plen <= 255 →
  ∃ L, (∀ s, each_variant vs
      (λ v, kv_NewIterator (ix_Topic tt) (v ++ posToBytes (Z.of_nat pos)) (default [] (be_Uint64ToBytes <$> bs)))
      (first_body ctx_Err onMatched tt (be_Uint64ToBytes <$> bs) to plen rest (Z.of_nat pos)) s = handle (rec_of <$> L) s) ∧
    NoDup L ∧
    ∀ l, l ∈ L ↔ l ∈ logs ∧ selected bs to plen (Datatypes.S pos) rest l ∧ ∃ v, at_pos l pos = Some v ∧ v ∈ vs.
Proof using Hctx Htt Hlogs H0 H2.
  intros Hnd Hlen Hbs Hp Hpos Hplen. induction Hnd as [|v vs Hv Hnd IH].
  { exists []. split; [done|]. split; [constructor|]. intros l. split; [by intros ?%not_elem_of_nil|].
    intros (_ & _ & v & _ & ?%not_elem_of_nil). done. }
  apply Forall_cons in Hlen as [Hlv Hlen]. destruct (IH Hlen) as (L2 & E2 & Hnd2 & Hin2).
  destruct (first_entries v pos bs Hlv Hbs) as (L1 & E1 & Hs1 & Hin1).
  exists (filter (selected bs to plen (Datatypes.S pos) rest) L1 ++ L2). split; [|split].
  - intros s. cbn [each_variant]. rewrite E1. rewrite fmap_app, handle_app. cbv [mbind Eff_bind].
    rewrite iterate_entries; [|intros l (? & _ & ?)%Hin1; done|done..].
    destruct (handle _ s) as [[[]| |] s']; [apply E2|done..].
  - apply NoDup_app. split; [|split; [|done]].
    + apply NoDup_filter. clear -Hs1. induction Hs1 as [|l L Hs IH Hx]; constructor; [|done]. intros Hin.
      rewrite Forall_forall in Hx. specialize (Hx l Hin). unfold id_lt in Hx. by rewrite bytes_cmp_refl in Hx.
    + intros l [_ (_ & Ea & _)%Hin1]%list_elem_of_filter (_ & _ & v' & Ea' & Hv')%Hin2. congruence.
  - intros l. rewrite elem_of_app, list_elem_of_filter, Hin1, Hin2. setoid_rewrite elem_of_cons. split.
    + intros [(Hsel & Hl & Ea & _)|(Hl & Hsel & v' & Ea & Hv')]; eauto 10.
    + intros (Hl & Hsel & v' & Ea & [->|Hv']); [left|right; eauto]. split; [done|]. split; [done|]. split; [done|]. by destruct Hsel.
Qed.

(** The walk calls the handler once for each selected log. *)
Lemma walkFirst_spec bs to plen rest pos :
  existsb (λ vs : list (list Z), 0 <? len vs) rest = true → (∀ from, bs = Some from → is_u64 from) →
  pattern_ok rest → (pos + length rest <= 255)%nat → 1 <= plen <= 255 →
  ∃ L, (∀ s, walkFirst ctx_Err onMatched tt (be_Uint64ToBytes <$> bs) to plen rest (Z.of_nat pos) s = handle (rec_of <$> L) s) ∧
    L ≡ₚ filter (selected bs to plen pos rest) logs.
Proof using Hctx Htt Hlogs H0 H2.
  intros Hex Hbs. revert pos. induction rest as [|vs rest IH]; intros pos Hp Hpos Hplen; [done|].
  apply Forall_cons in Hp as [[Hnd Hlen] Hp]. cbn [length] in Hpos. cbn [existsb] in Hex. destruct vs as [|v vs].
  - destruct (IH Hex (Datatypes.S pos) Hp ltac:(lia) Hplen) as (L & E & HL). exists L. split.
    + intros s. cbn [walkFirst]. rewrite u8_id by (unfold is_u8; lia).
      replace (Z.of_nat pos + 1) with (Z.of_nat (Datatypes.S pos)) by lia. apply E.
    + by rewrite HL.
  - destruct (each_variant_handle (v :: vs) bs to plen rest pos Hnd Hlen Hbs Hp ltac:(lia) Hplen) as (L & E & HndL & HL).
    exists L. split; [exact E|]. apply NoDup_Permutation; [done|apply NoDup_filter; by eapply NoDup_fmap_1, Hlogs|].
    intros l. rewrite HL, list_elem_of_filter. unfold selected. cbn [matches_from].
    rewrite bool_decide_false by done. cbn [orb]. rewrite andb_true_iff.
    destruct (at_pos l pos) as [t|]; [rewrite bool_decide_eq_true|]; naive_solver.
Qed.
End walking.
End index_spec.

(** ** The search *)

Section search.
Context `{BigEndianLaws} `{KvdbLaws}.
Context {C : Type} (ctx_Err : Eff C (option error)).

Lemma handle_fetch {S} (tt : Index) (logs : list evmLog) (L : list evmLog) (onLog : evmLog → Eff S bool) s :
  index_ok tt logs → logs_ok logs → L ⊆ logs →
  handle (fetch_and tt onLog) (rec_of <$> L) s = iterate (indexed <$> L) (λ l, go_on (onLog l)) s.
Proof.
  intros Ht [Hok _] Hsub. rewrite Forall_forall in Hok. revert s. induction L as [|l L IH]; intros s; [done|].
  unfold handle in *. rewrite !fmap_cons. cbn [iterate].
  assert (Hin : l ∈ logs) by (apply Hsub; by left). cbv [mbind Eff_bind go_on fetch_and].
  rewrite (fetch_spec tt logs l Ht (Hok l Hin) Hin). destruct (onLog (indexed l) s) as [[[]| |] s']; [|done..].
  apply IH. intros x Hx. apply Hsub. by right.
Qed.

Lemma limitPattern_ok pattern :
  len pattern <= 255 → limitPattern pattern =
    if existsb (λ vs : list (list Z), 0 <? len vs) pattern then Ok pattern else Err ErrEmptyTopics.
Proof. intros Hl. unfold limitPattern, MaxTopicsCount. by rewrite (proj2 (Z.ltb_ge _ _)) by lia. Qed.

Lemma FindInBlocks_spec tt logs from to pattern c :
  (∀ c, ctx_Err c = (Ok None, c)) → index_ok tt logs → logs_ok logs → is_u64 from → from <= to →
  pattern_ok pattern → 1 <= len pattern <= 255 → existsb (λ vs : list (list Z), 0 <? len vs) pattern = true →
  ∃ L, FindInBlocks ctx_Err from to pattern tt c = (Ok (indexed <$> L), c) ∧
    L ≡ₚ filter (selected (Some from) to (len pattern) 0 pattern) logs.
Proof.
  intros Hctx Ht Hlogs Hf Hle Hp Hlen Hex. unfold FindInBlocks.
  set (ctx' := λ s : C * list evmLog, let '(r, c) := ctx_Err s.1 in (r, (c, s.2))).
  set (onLog := λ l (s : C * list evmLog), (Ok true, (s.1, s.2 ++ [l]))).
  assert (Hctx' : ∀ s, ctx' s = (Ok None, s)) by (intros [c' acc]; unfold ctx'; cbn; by rewrite Hctx).
  destruct (walkFirst_spec ctx' (fetch_and tt onLog) tt logs Hctx' Ht Hlogs (Some from) to (len pattern) pattern 0 Hex)
    as (L & E & HL); [by intros ? [= <-]|done|unfold len in *; lia|lia|].
  exists L. split; [|done]. unfold ForEachInBlocks. rewrite (proj2 (Z.ltb_ge _ _)) by lia.
  rewrite (Eff_bind_step _ _ (c, []) pattern (c, [])) by (rewrite limitPattern_ok by lia; by rewrite Hex).
  unfold searchLazy. rewrite u8_id by (unfold is_u8; lia). cbn [fmap option_fmap option_map] in E.
  assert (Hacc : ∀ acc, iterate (indexed <$> L) (λ l, go_on (onLog l)) (c, acc) = (Ok true, (c, acc ++ (indexed <$> L)))).
  { clear. induction L as [|l L IH]; intros acc; cbn; [by rewrite app_nil_r|]. cbv [mbind Eff_bind go_on onLog mret Eff_ret]. cbn.
    rewrite IH. by rewrite <- app_assoc. }
  cbv [mbind Eff_bind]. change 0 with (Z.of_nat 0) at 1. rewrite (E (c, [])), (handle_fetch tt logs L onLog (c, []) Ht Hlogs), Hacc; [done|].
  intros x Hx. rewrite HL in Hx. by apply list_elem_of_filter in Hx as [_ ?].
Qed.

(** C20: A search of the index finds exactly the logs that a scan would.  Whatever logs
    were pushed, with an identifier each, a search for a range of blocks and at most 255
    criteria, each a set of alternatives and not all of them empty, gives every log of the
    range that has as many topics as there are criteria and satisfies each criterion, once,
    with all its fields but the index of the transaction; pushing does not fail. *)
Theorem topics_search_exact logs from to pattern c :
  (∀ c, ctx_Err c = (Ok None, c)) → logs_ok logs → is_u64 from → from <= to →
  pattern_ok pattern → 1 <= len pattern <= 255 → existsb (λ vs : list (list Z), 0 <? len vs) pattern = true →
  ∃ tt found, Push logs (mkIndex ∅ ∅) = (Ok (), tt) ∧ FindInBlocks ctx_Err from to pattern tt c = (Ok found, c) ∧
    found ≡ₚ indexed <$> filter (λ l, from <= lg_BlockNumber l <= to ∧ len pattern - 1 <= len (lg_Topics l) ∧
      matches_from l 0 pattern = true) logs.
Proof.
  intros Hctx Hlogs Hf Hle Hp Hlen Hex. destruct (Push_spec logs (mkIndex ∅ ∅) [] index_empty Hlogs) as (tt & E & Ht).
  destruct (FindInBlocks_spec tt logs from to pattern c Hctx Ht Hlogs Hf Hle Hp Hlen Hex) as (L & Ef & HL).
  exists tt, (indexed <$> L). split; [done|]. split; [done|]. rewrite HL. apply fmap_Permutation.
  erewrite list_filter_iff; [done|]. intros l. unfold selected. cbn. split; [|naive_solver].
  intros (? & Hto & ? & ?). split; [|done]. split; [done|]. by apply Hto.
Qed.

(** An empty range and criteria that are all empty. *)
Lemma search_refused from to pattern tt c :
  len pattern <= 255 →
  (to < from → FindInBlocks ctx_Err from to pattern tt c = (Ok [], c)) ∧
  (from <= to → existsb (λ vs : list (list Z), 0 <? len vs) pattern = false →
   FindInBlocks ctx_Err from to pattern tt c = (Err ErrEmptyTopics, c)).
Proof.
  intros Hl. unfold FindInBlocks, ForEachInBlocks. split.
  - intros Hlt. by rewrite (proj2 (Z.ltb_lt _ _)).
  - intros Hle Hex. rewrite (proj2 (Z.ltb_ge _ _)) by lia. cbv [mbind Eff_bind]. by rewrite limitPattern_ok, Hex.
Qed.
End search.

(** ** A concrete database *)

Fixpoint be_bytes (n : nat) (z : Z) : list Z :=
  match n with O => [] | S n' => (z / 256 ^ Z.of_nat n') mod 256 :: be_bytes n' z end.

#[global] Instance demo_bigendian : BigEndian := {
  be_Uint64ToBytes := be_bytes 8;
  be_BytesToUint64 := foldl (λ acc x, acc * 256 + x) 0;
}.

Lemma be_step n z : z mod 256 ^ Z.of_nat (S n) = (z / 256 ^ Z.of_nat n) mod 256 * 256 ^ Z.of_nat n + z mod 256 ^ Z.of_nat n.
Proof.
  rewrite Nat2Z.inj_succ, Z.pow_succ_r by lia. rewrite (Z.mul_comm 256).
  rewrite Z.rem_mul_r by lia. lia.
Qed.

Lemma be_bytes_read n z acc : foldl (λ acc x, acc * 256 + x) acc (be_bytes n z) = acc * 256 ^ Z.of_nat n + z mod 256 ^ Z.of_nat n.
Proof.
  revert acc. induction n as [|n IH]; intros acc; [by cbn; rewrite Z.mod_1_r; lia|].
  cbn [be_bytes foldl]. rewrite IH, be_step, Nat2Z.inj_succ, Z.pow_succ_r by lia. lia.
Qed.

Lemma be_bytes_cmp n a b : bytes_cmp (be_bytes n a) (be_bytes n b) = (a mod 256 ^ Z.of_nat n ?= b mod 256 ^ Z.of_nat n).
Proof.
  induction n as [|n IH]; [by cbn; rewrite !Z.mod_1_r|]. cbn [be_bytes bytes_cmp]. rewrite IH, !be_step.
  set (m := 256 ^ Z.of_nat n). assert (0 < m) by (unfold m; lia).
  pose proof (Z.mod_pos_bound a m ltac:(lia)). pose proof (Z.mod_pos_bound b m ltac:(lia)).
  set (x := (a / m) mod 256). set (y := (b / m) mod 256). symmetry.
  destruct (Z.compare_spec x y) as [->|Hlt|Hgt].
  - apply Z.add_compare_mono_l.
  - apply Z.compare_lt_iff. nia.
  - apply Z.compare_gt_iff. nia.
Qed.

#[global] Instance demo_bigendian_laws : BigEndianLaws.
Proof.
  split; cbn [be_Uint64ToBytes be_BytesToUint64 demo_bigendian].
  - done.
  - intros n Hn. rewrite be_bytes_read. apply Z.mod_small. exact Hn.
  - intros n m Hn Hm. rewrite be_bytes_cmp, !Z.mod_small by done. done.
Qed.

Lemma bytes_cmp_opp a b : bytes_cmp b a = CompOpp (bytes_cmp a b).
Proof.
  revert b. induction a as [|x a IH]; intros [|y b]; cbn; try done. rewrite Z.compare_antisym. destruct (x ?= y); cbn; auto.
Qed.

Lemma bytes_cmp_eq a b : bytes_cmp a b = Eq → a = b.
Proof.
  revert b. induction a as [|x a IH]; intros [|y b]; cbn; try done. destruct (Z.compare_spec x y) as [->| |]; try done.
  intros E%IH. by rewrite E.
Qed.

Lemma bytes_cmp_trans a b c : bytes_cmp a b ≠ Gt → bytes_cmp b c ≠ Gt → bytes_cmp a c ≠ Gt.
Proof.
  revert b c. induction a as [|x a IH]; intros [|y b] [|z c]; cbn; try done.
  destruct (Z.compare_spec x y), (Z.compare_spec y z), (Z.compare_spec x z); subst; try done || lia. apply IH.
Qed.

Definition key_less (a b : list Z * list Z) : bool := match bytes_cmp a.1 b.1 with Lt => true | _ => false end.

#[global] Instance key_less_weak : WeakOrder key_less.
Proof.
  split; unfold key_less.
  - intros x y. rewrite (bytes_cmp_opp x.1 y.1). by destruct (bytes_cmp x.1 y.1).
  - intros x y z. rewrite (bytes_cmp_opp x.1 y.1), (bytes_cmp_opp y.1 z.1), (bytes_cmp_opp x.1 z.1).
    pose proof (bytes_cmp_trans x.1 y.1 z.1) as Ht.
    destruct (bytes_cmp x.1 y.1), (bytes_cmp y.1 z.1), (bytes_cmp x.1 z.1); cbn in *; try done; intros; exfalso; by apply Ht.
Qed.

Definition in_iterator (prefix start : list Z) (e : list Z * list Z) : Prop :=
  prefix `prefix_of` e.1 ∧ bytes_cmp (prefix ++ start) e.1 ≠ Gt.
#[global] Instance in_iterator_dec prefix start e : Decision (in_iterator prefix start e).
Proof. unfold in_iterator. apply _. Defined.

#[global] Instance demo_kvdb : Kvdb := {
  kv_Put k v t := (None, <[k := v]> t);
  kv_Get t k := Ok (t !! k);
  kv_NewIterator t prefix start := (insertion_sort key_less (filter (in_iterator prefix start) (map_to_list t)), None);
}.

#[global] Instance demo_kvdb_laws : KvdbLaws.
Proof.
  split; cbn [kv_Put kv_Get kv_NewIterator demo_kvdb fst snd]; try done.
  - intros t prefix start k v. destruct (insertion_sort_spec key_less (filter (in_iterator prefix start) (map_to_list t))) as [_ ->].
    rewrite list_elem_of_filter, elem_of_map_to_list. unfold in_iterator. cbn. tauto.
  - intros t prefix start. destruct (insertion_sort_spec key_less (filter (in_iterator prefix start) (map_to_list t))) as [Hs Hp].
    assert (Hnd : NoDup (insertion_sort key_less (filter (in_iterator prefix start) (map_to_list t))).*1).
    { rewrite Hp. eapply sublist_NoDup; [apply (NoDup_fst_map_to_list t)|]. apply fmap_sublist, sublist_filter. }
    clear Hp. induction Hs as [|e l Hs IH He]; [constructor|]. rewrite fmap_cons in Hnd. apply NoDup_cons in Hnd as [Hne Hnd].
    constructor; [by apply IH|]. rewrite Forall_forall in *. intros e' Hin. specialize (He e' Hin). unfold not_after, key_less in He.
    rewrite (bytes_cmp_opp e.1 e'.1) in He. destruct (bytes_cmp e.1 e'.1) eqn:E; [|done|done].
    apply bytes_cmp_eq in E. destruct Hne. rewrite E. by apply list_elem_of_fmap_2.
Qed.

(** Three logs of two blocks, the first two with two topics. *)
Definition demo_hash32 (z : Z) : list Z := replicate 31 0 ++ [z].
Definition demo_log (block idx addr : Z) (topics : list Z) : evmLog :=
  mkEvmLog (replicate 19 0 ++ [addr]) (demo_hash32 <$> topics) [1; 2; 3] block (demo_hash32 (idx + 1)) 7 (demo_hash32 block) idx false.
Definition demo_logs : list evmLog := [demo_log 5 0 1 [10; 20]; demo_log 5 1 2 [10; 21]; demo_log 9 2 1 [11]].
Definition demo_no_ctx : Eff unit (option error) := λ s, (Ok None, s).

Definition log_okb (l : evmLog) : bool :=
  bool_decide (length (lg_Address l) = 20%nat ∧ Forall (λ t, length t = 32%nat) (lg_Topics l) ∧ len (lg_Topics l) <= 255 ∧
    is_u64 (lg_BlockNumber l) ∧ length (lg_TxHash l) = 32%nat ∧ length (lg_BlockHash l) = 32%nat ∧ is_u64 (lg_Index l)).

Lemma log_okb_ok l : log_okb l = true → log_ok l.
Proof. intros (?&?&?&?&?&?&?)%bool_decide_eq_true. by split. Qed.

Lemma demo_logs_ok : logs_ok demo_logs.
Proof.
  split.
  - repeat constructor; apply log_okb_ok; vm_compute; reflexivity.
  - apply (bool_decide_unpack _). vm_compute. exact I.
Qed.

(** Logs with 10 or 11 as their first topic, in the blocks from 5 to 8. *)
Definition demo_pattern : list (list (list Z)) := [[]; [demo_hash32 10; demo_hash32 11]].

Lemma topics_search_exact_witness :
  (∃ tt, Push demo_logs (mkIndex ∅ ∅) = (Ok (), tt) ∧
    FindInBlocks demo_no_ctx 5 8 demo_pattern tt () = (Ok (indexed <$> take 2 demo_logs), ())) ∧
  ∃ tt found, Push demo_logs (mkIndex ∅ ∅) = (Ok (), tt) ∧ FindInBlocks demo_no_ctx 5 8 demo_pattern tt () = (Ok found, ()) ∧
    found ≡ₚ indexed <$> filter (λ l, 5 <= lg_BlockNumber l <= 8 ∧ len demo_pattern - 1 <= len (lg_Topics l) ∧
      matches_from l 0 demo_pattern = true) demo_logs.
Proof.
  split; [eexists; split; vm_compute; reflexivity|].
  apply (topics_search_exact demo_no_ctx demo_logs 5 8 demo_pattern ()).
  - done.
  - apply demo_logs_ok.
  - unfold is_u64. lia.
  - lia.
  - repeat constructor; apply (bool_decide_unpack _); vm_compute; exact I.
  - vm_compute. split; discriminate.
  - reflexivity.
Defined.

(** An alternative that is given twice finds a log twice. *)
Example repeated_alternative_repeats_log :
  let tt := (Push demo_logs (mkIndex ∅ ∅)).2 in
  FindInBlocks demo_no_ctx 5 5 [[]; [demo_hash32 10; demo_hash32 10]; [demo_hash32 20]] tt () =
    (Ok [indexed (demo_log 5 0 1 [10; 20]); indexed (demo_log 5 0 1 [10; 20])], ()).
Proof. vm_compute. reflexivity. Qed.
