(* ===== verification/LogFilter.v ===== *)
(** * Filters over logs (gossip/filters/filter.go)

    A filter asks the index of logs when it has criteria, and scans the blocks when it has
    none.  Both ways are proved to give the logs that [filterLogs] selects. *)

From stdpp Require Import sorting.
From S2P Require Import Prelude Cser Inter Heap Store EvmChain Topics.

Definition zeroHash : list Z := replicate 32 0.
Definition LatestBlockNumber : Z := -1.

Record FilterConfig := mkFilterConfig { IndexedLogsBlockRangeLimit : Z; UnindexedLogsBlockRangeLimit : Z }.

Definition DefaultConfig : FilterConfig := mkFilterConfig 999999999999999999 100.

Record Filter := mkFilter {
  f_config : FilterConfig;
  f_addresses : list (list Z);
  f_topics : list (list (list Z));
  f_block : list Z;
  f_begin : Z;
  f_end : Z;
}.

(** [Backend]: headers come with an error, the logs of a block grouped by transaction. *)
Record Backend := mkBackend {
  bk_HeaderByNumber : Z → option EvmHeader * option error;
  bk_HeaderByHash : list Z → option EvmHeader * option error;
  bk_GetReceipts : list Z → res (list (list evmLog));
  bk_GetLogs : list Z → res (list (list evmLog));
  bk_EvmLogIndex : Index;
}.

Definition newFilter (cfg : FilterConfig) (addresses : list (list Z)) (topics : list (list (list Z))) : Filter :=
  mkFilter cfg addresses topics zeroHash 0 0.

Definition NewRangeFilter (cfg : FilterConfig) (begin end_ : Z) (addresses : list (list Z)) (topics : list (list (list Z)))
  : Filter :=
  let f := newFilter cfg addresses topics in
  mkFilter (f_config f) (f_addresses f) (f_topics f) (f_block f) begin end_.

Definition NewBlockFilter (cfg : FilterConfig) (block : list Z) (addresses : list (list Z)) (topics : list (list (list Z)))
  : Filter :=
  let f := newFilter cfg addresses topics in
  mkFilter (f_config f) (f_addresses f) (f_topics f) block (f_begin f) (f_end f).

Definition ErrUnknownBlock : error := NewError "filters.unknown block".
Definition ErrTooWide : error := NewError "filters.too wide blocks range".

Fixpoint includes (addresses : list (list Z)) (a : list Z) : bool :=
  match addresses with
  | [] => false
  | addr :: addresses' => if bool_decide (addr = a) then true else includes addresses' a
  end.

(** [for _, topic := range sub]: whether one is the log's. *)
Fixpoint one_of (sub : list (list Z)) (topic : list Z) : bool :=
  match sub with
  | [] => false
  | t :: sub' => if bool_decide (topic = t) then true else one_of sub' topic
  end.

(** [for i, sub := range topics] *)
Fixpoint topics_match (topics : list (list (list Z))) (i : Z) (l : evmLog) : res bool :=
  match topics with
  | [] => Ok true
  | sub :: topics' =>
      m ← (if bool_decide (sub = []) then Ok true else t ← index (lg_Topics l) i; Ok (one_of sub t));
      if m : bool then topics_match topics' (i + 1) l else Ok false
  end.

(** The bound of a range, when it is given and not negative. *)
Definition bounded (o : option Z) (f : Z → bool) : bool :=
  match o with Some b => (0 <=? i64 b) && f (u64 b) | None => false end.

Definition keeps_log (fromBlock toBlock : option Z) (addresses : list (list Z)) (topics : list (list (list Z))) (l : evmLog)
  : res bool :=
  if bounded fromBlock (λ b, lg_BlockNumber l <? b) then Ok false
  else if bounded toBlock (λ b, b <? lg_BlockNumber l) then Ok false
  else if (0 <? len addresses) && negb (includes addresses (lg_Address l)) then Ok false
  else if len (lg_Topics l) <? len topics then Ok false
  else topics_match topics 0 l.

Fixpoint filterLogs (logs : list evmLog) (fromBlock toBlock : option Z) (addresses : list (list Z))
    (topics : list (list (list Z))) : res (list evmLog) :=
  match logs with
  | [] => Ok []
  | l :: logs' =>
      k ← keeps_log fromBlock toBlock addresses topics l;
      ret ← filterLogs logs' fromBlock toBlock addresses topics;
      Ok (if k : bool then l :: ret else ret)
  end.

Fixpoint isEmpty (topics : list (list (list Z))) : bool :=
  match topics with
  | [] => true
  | sub :: topics' => if 0 <? len sub then false else isEmpty topics'
  end.

Section filters.
Context `{BigEndian} `{Kvdb} {C : Type} (ctx_Err : Eff C (option error)) (backend : Backend).

Definition lift {A} (r : res A) : Eff C A := λ s, (r, s).

Definition blockLogs (f : Filter) (header : list Z) : res (list evmLog) :=
  logsList ← bk_GetLogs backend header;
  logs ← filterLogs (concat logsList) None None (f_addresses f) (f_topics f);
  match logs with
  | [] => Ok []
  | l :: _ =>
      if bool_decide (lg_TxHash l = zeroHash) then
        receipts ← bk_GetReceipts backend header;
        filterLogs (concat receipts) None None (f_addresses f) (f_topics f)
      else Ok logs
  end.

(** [for n := begin; n <= end; n++]; what was found before an error is lost to the caller,
    who looks at the error first. *)
Fixpoint unindexed_loop (fuel : nat) (f : Filter) (n end_ : Z) (logs : list evmLog) : Eff C (list evmLog) :=
  if end_ <? n then mret logs
  else
    match fuel with
    | O => lift Panic
    | S fuel' =>
        o ← ctx_Err;
        match o with
        | Some e => eff_err e
        | None =>
            match bk_HeaderByNumber backend (i64 n) with
            | (_, Some e) => eff_err e
            | (None, None) => mret logs
            | (Some header, None) =>
                found ← lift (blockLogs f (h_Hash header));
                unindexed_loop fuel' f (u64 (n + 1)) end_ (logs ++ found)
            end
        end
    end.

Definition unindexedLogs (f : Filter) (begin end_ : Z) : Eff C (list evmLog) :=
  if UnindexedLogsBlockRangeLimit (f_config f) <? u64 (end_ - begin) then eff_err ErrTooWide
  else unindexed_loop (Z.to_nat (end_ - begin + 1)) f begin end_ [].

Definition indexedLogs (f : Filter) (begin end_ : Z) : Eff C (list evmLog) :=
  if IndexedLogsBlockRangeLimit (f_config f) <? u64 (end_ - begin) then eff_err ErrTooWide
  else FindInBlocks ctx_Err begin end_ ((Address_Hash <$> f_addresses f) :: f_topics f) (bk_EvmLogIndex backend).

Definition Logs (f : Filter) : Eff C (list evmLog) :=
  if negb (bool_decide (f_block f = zeroHash)) then
    match bk_HeaderByHash backend (f_block f) with
    | (_, Some e) => eff_err e
    | (None, None) => eff_err ErrUnknownBlock
    | (Some header, None) => lift (blockLogs f (h_Hash header))
    end
  else
    match (bk_HeaderByNumber backend LatestBlockNumber).1 with
    | None => mret []
    | Some header =>
        let head := u64 (h_Number header) in
        let begin := if f_begin f <? 0 then head else u64 (f_begin f) in
        let end_ := if f_end f <? 0 then head else u64 (f_end f) in
        if end_ <? begin then mret []
        else if isEmpty (f_topics f) && (len (f_addresses f) =? 0) then unindexedLogs f begin end_
        else indexedLogs f begin end_
    end.
End filters.

(** ** Selecting logs *)

Definition in_range (fromBlock toBlock : option Z) (l : evmLog) : bool :=
  negb (bounded fromBlock (λ b, lg_BlockNumber l <? b)) && negb (bounded toBlock (λ b, b <? lg_BlockNumber l)).

Definition criteria (addresses : list (list Z)) (topics : list (list (list Z))) (l : evmLog) : bool :=
  (bool_decide (addresses = []) || bool_decide (lg_Address l ∈ addresses)) && (len topics <=? len (lg_Topics l)) &&
  matches_from l 1 topics.

Lemma includes_elem addresses a : includes addresses a = bool_decide (a ∈ addresses).
Proof.
  induction addresses as [|x xs IH]; cbn; [done|]. rewrite IH. repeat case_bool_decide; set_solver.
Qed.

Lemma one_of_elem sub t : one_of sub t = bool_decide (t ∈ sub).
Proof.
  induction sub as [|x xs IH]; cbn; [done|]. rewrite IH. repeat case_bool_decide; set_solver.
Qed.

Lemma topics_match_spec topics i l :
  (i + length topics <= length (lg_Topics l))%nat → topics_match topics (Z.of_nat i) l = Ok (matches_from l (S i) topics).
Proof.
  revert i. induction topics as [|sub topics IH]; intros i Hi; [done|]. cbn [length] in Hi. cbn [topics_match matches_from at_pos].
  replace (Z.of_nat i + 1) with (Z.of_nat (S i)) by lia.
  destruct (lookup_lt_is_Some_2 (lg_Topics l) i) as [t Et]; [lia|]. rewrite Et.
  destruct (bool_decide (sub = [])); cbn.
  - rewrite IH by lia. done.
  - unfold index. rewrite (proj2 (Z.ltb_ge _ _)), Nat2Z.id, Et by lia. cbn. rewrite one_of_elem.
    destruct (bool_decide (t ∈ sub)); cbn; [by rewrite IH by lia|done].
Qed.

Lemma keeps_log_spec from to addresses topics l :
  keeps_log from to addresses topics l = Ok (in_range from to l && criteria addresses topics l).
Proof.
  unfold keeps_log, in_range, criteria. destruct (bounded from _); [done|]. destruct (bounded to _); [done|]. cbn [negb andb].
  rewrite includes_elem. destruct addresses as [|a addresses].
  - cbn. destruct (Z.ltb_spec (len (lg_Topics l)) (len topics)) as [Hlt|Hge].
    + by rewrite (proj2 (Z.leb_gt _ _)).
    + rewrite (proj2 (Z.leb_le _ _)) by done. apply (topics_match_spec topics 0). unfold len in Hge. lia.
  - rewrite (proj2 (Z.ltb_lt 0 _)) by (unfold len; cbn [length]; lia).
    rewrite (bool_decide_false (a :: addresses = [])) by done. cbn [andb orb].
    destruct (bool_decide _); [|done]. cbn [negb andb].
    destruct (Z.ltb_spec (len (lg_Topics l)) (len topics)) as [Hlt|Hge].
    + by rewrite (proj2 (Z.leb_gt _ _)).
    + rewrite (proj2 (Z.leb_le _ _)) by done. apply (topics_match_spec topics 0). unfold len in Hge. lia.
Qed.

Lemma filterLogs_spec logs from to addresses topics :
  filterLogs logs from to addresses topics = Ok (filter (λ l, in_range from to l && criteria addresses topics l = true) logs).
Proof.
  induction logs as [|l logs IH]; [done|]. cbn [filterLogs]. rewrite keeps_log_spec. cbn. rewrite IH. cbn.
  by destruct (in_range from to l && criteria addresses topics l).
Qed.

(** ** The criteria of the index *)

Lemma Address_Hash_inj a b : length a = 20%nat → length b = 20%nat → Address_Hash a = Address_Hash b → a = b.
Proof.
  intros Ha Hb. unfold Address_Hash, BytesToHash. rewrite Ha, Hb, !drop_0, Ha, Hb. by intros E%app_inv_head.
Qed.

Lemma criteria_pattern addresses topics l :
  Forall (λ a, length a = 20%nat) addresses → log_ok l → len topics <= len (lg_Topics l) →
  criteria addresses topics l = matches_from l 0 ((Address_Hash <$> addresses) :: topics).
Proof.
  intros Ha Hl Hlen. unfold criteria. cbn [matches_from at_pos]. rewrite (proj2 (Z.leb_le _ _)) by done. rewrite andb_true_r.
  f_equal. f_equal.
  - apply bool_decide_ext. by destruct addresses.
  - apply bool_decide_ext. rewrite list_elem_of_fmap. split; [eauto|]. intros (a & E & Hin).
    rewrite Forall_forall in Ha. by rewrite (Address_Hash_inj _ _ (lo_address _ Hl) (Ha a Hin) E).
Qed.

(** ** Searching blocks *)

Lemma filter_split {A} (P Q R : A → Prop) `{!∀ x, Decision (P x), !∀ x, Decision (Q x), !∀ x, Decision (R x)} (l : list A) :
  (∀ x, x ∈ l → P x ↔ Q x ∨ R x) → (∀ x, Q x → ¬ R x) → filter P l ≡ₚ filter Q l ++ filter R l.
Proof.
  intros HP HQ. induction l as [|x l IH]; [done|]. assert (Hl : ∀ y, y ∈ l → P y ↔ Q y ∨ R y) by (intros y Hy; apply HP; by right).
  specialize (IH Hl). pose proof (HP x (list_elem_of_here _ _)) as Hx. pose proof (HQ x) as Hd. rewrite !filter_cons.
  repeat case_decide; try tauto.
  - cbn. by rewrite IH.
  - rewrite IH. apply Permutation_middle.
Qed.

Lemma filter_ext_elem {A} (P Q : A → Prop) `{!∀ x, Decision (P x), !∀ x, Decision (Q x)} (l : list A) :
  (∀ x, x ∈ l → P x ↔ Q x) → filter P l = filter Q l.
Proof.
  induction l as [|x l IH]; intros HPQ; [done|]. rewrite !filter_cons, IH by (intros y Hy; apply HPQ; by right).
  pose proof (HPQ x (list_elem_of_here _ _)). repeat case_decide; tauto.
Qed.

Section search_logs.
Context `{BigEndianLaws} `{KvdbLaws} {C : Type} (ctx_Err : Eff C (option error)).

(** The node has the logs of its blocks up to the head: by block, and in the index. *)
Record backend_ok (bk : Backend) (head : Z) (logs : list evmLog) : Prop := {
  bo_head : 0 <= head < 2 ^ 63;
  bo_latest : ∃ h, bk_HeaderByNumber bk LatestBlockNumber = (Some h, None) ∧ h_Number h = head;
  bo_block : ∀ n, 0 <= n <= head → ∃ h lls, bk_HeaderByNumber bk n = (Some h, None) ∧
    bk_GetLogs bk (h_Hash h) = Ok lls ∧ concat lls = filter (λ l, lg_BlockNumber l = n) logs;
  bo_beyond : ∀ n, head < n → bk_HeaderByNumber bk n = (None, None);
  bo_logs : ∀ l, l ∈ logs → lg_BlockNumber l <= head ∧ lg_TxHash l ≠ zeroHash;
  bo_ok : logs_ok logs;
  bo_index : index_ok (bk_EvmLogIndex bk) logs;
}.

Lemma blockLogs_spec bk head logs f n :
  backend_ok bk head logs → 0 <= n <= head →
  ∃ h, bk_HeaderByNumber bk n = (Some h, None) ∧ blockLogs bk f (h_Hash h) =
    Ok (filter (λ l, criteria (f_addresses f) (f_topics f) l = true) (filter (λ l, lg_BlockNumber l = n) logs)).
Proof.
  intros Hb Hn. destruct (bo_block _ _ _ Hb n Hn) as (h & lls & Eh & El & Ec). exists h. split; [done|].
  unfold blockLogs. rewrite El. cbn [mbind res_bind]. rewrite filterLogs_spec, Ec. cbn [mbind res_bind in_range bounded negb andb].
  destruct (filter _ (filter _ logs)) as [|l ls] eqn:E; [done|].
  assert (Hin : l ∈ l :: ls) by left. rewrite <- E in Hin. apply list_elem_of_filter in Hin as [_ Hin].
  apply list_elem_of_filter in Hin as [_ Hin].
  rewrite bool_decide_false by (by apply (bo_logs _ _ _ Hb)). done.
Qed.

Lemma unindexed_loop_spec bk head logs f end_ fuel n acc c :
  (∀ c, ctx_Err c = (Ok None, c)) → backend_ok bk head logs → 0 <= n → end_ < 2 ^ 63 → end_ - n + 1 <= Z.of_nat fuel →
  ∃ found, unindexed_loop ctx_Err bk fuel f n end_ acc c = (Ok (acc ++ found), c) ∧
    found ≡ₚ filter (λ l, n <= lg_BlockNumber l <= end_ ∧ criteria (f_addresses f) (f_topics f) l = true) logs.
Proof.
  intros Hctx Hb. revert n acc. induction fuel as [|fuel IH]; intros n acc Hn He Hf; cbn [unindexed_loop].
  - rewrite (proj2 (Z.ltb_lt _ _)) by lia. exists []. rewrite app_nil_r. split; [done|].
    by rewrite filter_none by (apply Forall_forall; intros x _ [? _]; lia).
  - destruct (Z.ltb_spec end_ n) as [Hlt|Hge].
    { exists []. rewrite app_nil_r. split; [done|]. by rewrite filter_none by (apply Forall_forall; intros x _ [? _]; lia). }
    rewrite (Eff_bind_step _ _ c None c) by done. rewrite i64_id by (unfold is_i64; lia).
    destruct (decide (n <= head)) as [Hh|Hh].
    + destruct (blockLogs_spec bk head logs f n Hb) as (h & -> & Eb); [lia|].
      erewrite Eff_bind_step by (unfold lift; by rewrite Eb). rewrite u64_id by (unfold is_u64; lia).
      edestruct (IH (n + 1)) as (found & E & HP); [lia..|]. eexists (_ ++ found).
      rewrite app_assoc. split; [exact E|]. rewrite HP, list_filter_filter. symmetry. apply filter_split; intros x; [intros _|].
      * split; [intros [? ?]|intros [[? ?]|[? ?]]]; [|split; [lia|done]..].
        destruct (decide (lg_BlockNumber x = n)); [by left|right]. split; [lia|done].
      * intros [_ ?] [? _]. lia.
    + rewrite (bo_beyond _ _ _ Hb n) by lia. exists []. rewrite app_nil_r. split; [done|].
      rewrite filter_none; [done|]. apply Forall_forall. intros x Hx [? _]. pose proof (bo_logs _ _ _ Hb x Hx). lia.
Qed.

Lemma isEmpty_existsb addresses topics :
  isEmpty topics && (len addresses =? 0) = false →
  existsb (λ vs : list (list Z), 0 <? len vs) ((Address_Hash <$> addresses) :: topics) = true.
Proof.
  cbn [existsb]. destruct addresses as [|a addresses]; cbn.
  - rewrite andb_true_r. induction topics as [|sub topics IH]; cbn; [done|]. by destruct (0 <? len sub).
  - intros _. apply orb_true_iff. left. apply Z.ltb_lt. unfold len. cbn [length]. lia.
Qed.

Lemma in_range_spec b e l : 0 <= b < 2 ^ 63 → 0 <= e < 2 ^ 63 → in_range (Some b) (Some e) l = true ↔ b <= lg_BlockNumber l <= e.
Proof.
  intros Hb He. unfold in_range, bounded. rewrite !i64_id, !u64_id by (unfold is_i64, is_u64; lia).
  rewrite !(proj2 (Z.leb_le _ _)) by lia. cbn [andb]. rewrite andb_true_iff, !negb_true_iff, !Z.ltb_ge. lia.
Qed.

Lemma indexedLogs_spec bk head logs f b e c :
  (∀ c, ctx_Err c = (Ok None, c)) → backend_ok bk head logs → 0 <= b <= e → e < 2 ^ 63 →
  e - b <= IndexedLogsBlockRangeLimit (f_config f) →
  Forall (λ a, length a = 20%nat) (f_addresses f) → NoDup (f_addresses f) → pattern_ok (f_topics f) → len (f_topics f) <= 254 →
  isEmpty (f_topics f) && (len (f_addresses f) =? 0) = false →
  ∃ found, indexedLogs ctx_Err bk f b e c = (Ok (indexed <$> found), c) ∧
    found ≡ₚ filter (λ l, b <= lg_BlockNumber l <= e ∧ criteria (f_addresses f) (f_topics f) l = true) logs.
Proof.
  intros Hctx Hb Hbe He Hlim Ha Hnd Hp Hlen Hne. unfold indexedLogs.
  rewrite u64_id, (proj2 (Z.ltb_ge _ _)) by (unfold is_u64; lia).
  assert (Hl : len ((Address_Hash <$> f_addresses f) :: f_topics f) = len (f_topics f) + 1) by (unfold len; cbn [length]; lia).
  destruct (FindInBlocks_spec ctx_Err (bk_EvmLogIndex bk) logs b e ((Address_Hash <$> f_addresses f) :: f_topics f) c)
    as (L & E & HL); [done|apply Hb..|unfold is_u64; lia|lia| |rewrite Hl; pose proof (len_nonneg (f_topics f)); lia|by apply isEmpty_existsb|].
  - constructor; [|done]. split; [|apply Forall_fmap; eapply Forall_impl; [exact Ha|]; apply Address_Hash_length].
    rewrite Forall_forall in Ha. clear -Ha Hnd. induction Hnd as [|a l Hin Hnd IH]; [constructor|]. cbn. constructor.
    + rewrite list_elem_of_fmap. intros (a' & Ea & Ha'). apply Hin. rewrite (Address_Hash_inj a a'); [done|..]; auto; apply Ha; set_solver.
    + apply IH. intros x Hx. apply Ha. by right.
  - exists L. split; [exact E|]. rewrite HL. erewrite filter_ext_elem; [reflexivity|].
    intros l Hin. unfold selected. cbn [from_ok]. rewrite Hl.
    assert (Hlo : log_ok l) by (destruct (bo_ok _ _ _ Hb) as [Hf _]; rewrite Forall_forall in Hf; auto).
    assert (Hc : len (f_topics f) <= len (lg_Topics l) → criteria (f_addresses f) (f_topics f) l =
      matches_from l 0 ((Address_Hash <$> f_addresses f) :: f_topics f)) by (intros; by apply criteria_pattern).
    assert (Hcl : criteria (f_addresses f) (f_topics f) l = true → len (f_topics f) <= len (lg_Topics l)).
    { unfold criteria. rewrite !andb_true_iff, Z.leb_le. tauto. }
    split.
    + intros (? & Hto & Hn & Hm). specialize (Hto ltac:(done)). rewrite Hc by lia. done.
    + intros (? & Hm). specialize (Hcl Hm). rewrite <- Hc by lia. split; [lia|]. split; [lia|]. split; [lia|done].
Qed.

(** C16: A filter gives exactly the logs that a scan of the chain selects.  With the logs of
    the blocks in the index and under their blocks, for criteria of distinct addresses and
    of distinct topics per position and a range within the limits (a negative bound is the
    head), [Logs] returns, whether it asks the index or scans the blocks, the logs that
    [filterLogs] keeps of all logs of the chain, each as often, up to order and to the
    fields that the index does not keep. *)
Theorem log_filter_exact bk head logs f c b e :
  (∀ c, ctx_Err c = (Ok None, c)) → backend_ok bk head logs → f_block f = zeroHash →
  is_i64 (f_begin f) → is_i64 (f_end f) →
  b = (if f_begin f <? 0 then head else f_begin f) → e = (if f_end f <? 0 then head else f_end f) → b <= e →
  e - b <= IndexedLogsBlockRangeLimit (f_config f) → e - b <= UnindexedLogsBlockRangeLimit (f_config f) →
  Forall (λ a, length a = 20%nat) (f_addresses f) → NoDup (f_addresses f) → pattern_ok (f_topics f) → len (f_topics f) <= 254 →
  ∃ found ref, Logs ctx_Err bk f c = (Ok found, c) ∧
    filterLogs logs (Some b) (Some e) (f_addresses f) (f_topics f) = Ok ref ∧ indexed <$> found ≡ₚ indexed <$> ref.
Proof.
  intros Hctx Hb Hblk Hfb Hfe Eb Ee Hbe Hi Hu Ha Hnd Hp Hlen. destruct (bo_latest _ _ _ Hb) as (h & Eh & Hh).
  pose proof (bo_head _ _ _ Hb) as Hhead. unfold is_i64 in Hfb, Hfe.
  assert (Hbr : 0 <= b < 2 ^ 63) by (rewrite Eb; destruct (Z.ltb_spec (f_begin f) 0); lia).
  assert (Her : 0 <= e < 2 ^ 63) by (rewrite Ee; destruct (Z.ltb_spec (f_end f) 0); lia).
  assert (Hu1 : (if f_begin f <? 0 then u64 head else u64 (f_begin f)) = b).
  { rewrite Eb. destruct (Z.ltb_spec (f_begin f) 0); apply u64_id; unfold is_u64; lia. }
  assert (Hu2 : (if f_end f <? 0 then u64 head else u64 (f_end f)) = e).
  { rewrite Ee. destruct (Z.ltb_spec (f_end f) 0); apply u64_id; unfold is_u64; lia. }
  assert (Href : filterLogs logs (Some b) (Some e) (f_addresses f) (f_topics f) =
    Ok (filter (λ l, b <= lg_BlockNumber l <= e ∧ criteria (f_addresses f) (f_topics f) l = true) logs)).
  { rewrite filterLogs_spec. f_equal. apply list_filter_iff. intros l. by rewrite andb_true_iff, in_range_spec. }
  unfold Logs. rewrite Hblk, bool_decide_true by done. cbn [negb]. rewrite Eh. cbn [fst]. rewrite Hh, Hu1, Hu2.
  rewrite (proj2 (Z.ltb_ge _ _)) by lia. destruct (isEmpty _ && _) eqn:Hemp.
  - unfold unindexedLogs. rewrite u64_id, (proj2 (Z.ltb_ge _ _)) by (unfold is_u64; lia).
    destruct (unindexed_loop_spec bk head logs f e (Z.to_nat (e - b + 1)) b [] c Hctx Hb) as (found & E & HP); [lia..|].
    exists found. eexists. split; [exact E|]. split; [exact Href|]. by rewrite HP.
  - destruct (indexedLogs_spec bk head logs f b e c) as (found & E & HP); [done|done|lia|lia|done..|].
    eexists _, _. split; [exact E|]. split; [exact Href|]. rewrite <- HP, <- list_fmap_compose. done.
Qed.

(** Ranges that are empty, or too wide for the way they would be searched. *)
Lemma log_filter_refused bk head logs f c b e :
  backend_ok bk head logs → f_block f = zeroHash → 0 <= f_begin f < 2 ^ 63 → 0 <= f_end f < 2 ^ 63 →
  b = f_begin f → e = f_end f →
  (e < b → Logs ctx_Err bk f c = (Ok [], c)) ∧
  (b <= e → (if isEmpty (f_topics f) && (len (f_addresses f) =? 0) then UnindexedLogsBlockRangeLimit (f_config f)
             else IndexedLogsBlockRangeLimit (f_config f)) < e - b → Logs ctx_Err bk f c = (Err ErrTooWide, c)).
Proof.
  intros Hb Hblk Hfb Hfe -> ->. destruct (bo_latest _ _ _ Hb) as (h & Eh & Hh).
  unfold Logs. rewrite Hblk, bool_decide_true by done. cbn [negb]. rewrite Eh. cbn [fst].
  rewrite !(proj2 (Z.ltb_ge _ 0)), !u64_id by (unfold is_u64; lia). split.
  - intros Hlt. by rewrite (proj2 (Z.ltb_lt _ _)).
  - intros Hle. rewrite (proj2 (Z.ltb_ge _ _)) by lia.
    destruct (isEmpty _ && _); intros Hlim; unfold unindexedLogs, indexedLogs;
      by rewrite u64_id, (proj2 (Z.ltb_lt _ _)) by (unfold is_u64; lia).
Qed.
End search_logs.

(** ** A node with three logs *)

Definition demo_header (n : Z) : EvmHeader := mkEvmHeader n [n] [] [] [] 0 [] 0 0.

Definition demo_backend : Backend :=
  mkBackend
    (λ n, (if n =? LatestBlockNumber then Some (demo_header 9) else if 9 <? n then None else Some (demo_header n), None))
    (λ h, (None, None))
    (λ h, Ok [])
    (λ h, Ok [filter (λ l, [lg_BlockNumber l] = h) demo_logs])
    (Push demo_logs (mkIndex ∅ ∅)).2.

Lemma demo_backend_ok : backend_ok demo_backend 9 demo_logs.
Proof.
  split.
  - lia.
  - by exists (demo_header 9).
  - intros n Hn. exists (demo_header n), [filter (λ l, [lg_BlockNumber l] = [n]) demo_logs].
    cbn [demo_backend bk_HeaderByNumber bk_GetLogs demo_header h_Hash]. unfold LatestBlockNumber.
    rewrite (proj2 (Z.eqb_neq _ _)), (proj2 (Z.ltb_ge _ _)) by lia. split; [done|]. split; [done|].
    cbn [concat]. rewrite app_nil_r. apply list_filter_iff. intros l. split; congruence.
  - intros n Hn. cbn [demo_backend bk_HeaderByNumber]. unfold LatestBlockNumber.
    by rewrite (proj2 (Z.eqb_neq _ _)), (proj2 (Z.ltb_lt _ _)) by lia.
  - apply Forall_forall. apply (bool_decide_unpack _). vm_compute. exact I.
  - apply demo_logs_ok.
  - destruct (Push_spec demo_logs (mkIndex ∅ ∅) [] index_empty demo_logs_ok) as (ix & E & Hix).
    cbn [demo_backend bk_EvmLogIndex]. rewrite E. exact Hix.
Qed.

(** From block 5 to the head, the logs with 10 or 11 first; and all logs of blocks 5 to 8. *)
Definition demo_filter : Filter :=
  NewRangeFilter DefaultConfig 5 (-1) [replicate 19 0 ++ [1]] [[demo_hash32 10; demo_hash32 11]].
Definition demo_scan : Filter := NewRangeFilter DefaultConfig 5 8 [] [].

Lemma log_filter_exact_witness :
  Logs demo_no_ctx demo_backend demo_filter () = (Ok (indexed <$> [demo_log 5 0 1 [10; 20]; demo_log 9 2 1 [11]]), ()) ∧
  Logs demo_no_ctx demo_backend demo_scan () = (Ok (take 2 demo_logs), ()) ∧
  ∃ found ref, Logs demo_no_ctx demo_backend demo_filter () = (Ok found, ()) ∧
    filterLogs demo_logs (Some 5) (Some 9) (f_addresses demo_filter) (f_topics demo_filter) = Ok ref ∧
    indexed <$> found ≡ₚ indexed <$> ref.
Proof.
  split; [vm_compute; reflexivity|]. split; [vm_compute; reflexivity|].
  apply (log_filter_exact demo_no_ctx demo_backend 9 demo_logs demo_filter () 5 9).
  - intros []. reflexivity.
  - apply demo_backend_ok.
  - reflexivity.
  - unfold is_i64. cbn. lia.
  - unfold is_i64. cbn. lia.
  - reflexivity.
  - reflexivity.
  - lia.
  - cbn. lia.
  - cbn. lia.
  - repeat constructor.
  - apply (bool_decide_unpack _). vm_compute. exact I.
  - repeat constructor; apply (bool_decide_unpack _); vm_compute; exact I.
  - vm_compute. discriminate.
Defined.
