(* ===== verification/GasPrice.v ===== *)
(** * The gas price oracle (gossip/gasprice/gasprice.go, gossip/gpo_backend.go)

    The oracle suggests a price from the gas power that validators have left: the minimum
    price when all of it is free, a multiple of it when little is left.  [TotalGasPowerLeft]
    adds up the gas power of the validators' last events. *)

From S2P Require Import Prelude Cser Inter Instances TxSer EventSer Heap Store Rules Pos Piecefunc GasPower EventCheck.
From S2P Require Import BlockProc Service.

(** ** Configuration *)

Definition DefaultMaxPrice : Z := 1000000 * 10 ^ 9.

Record GpoConfig := mkGpoConfig {
  MaxPrice : option Z;
  MinPrice : option Z;
  MaxPriceMultiplierRatio : option Z;
  MiddlePriceMultiplierRatio : option Z;
  GasPowerWallRatio : option Z;
}.

(** [Reader] *)
Record GpoReader := mkGpoReader {
  rd_GetLatestBlockIndex : Z;
  rd_TotalGasPowerLeft : Z;
  rd_GetRules : Rules;
  rd_GetPendingRules : Rules;
}.

(** What [sanitizeBigInt] leaves in the configuration is never nil. *)
Record GpoParams := mkGpoParams { gp_MaxPrice : Z; gp_MinPrice : Z; gp_MaxRatio : Z; gp_MiddleRatio : Z; gp_WallRatio : Z }.

Record Oracle := mkOracle { o_lastHead : Z; o_lastPrice : option Z; o_cfg : GpoParams }.

Definition sanitizeBigInt (val min max : option Z) (_default : Z) : Z :=
  match val with
  | None => _default
  | Some v =>
      if v =? 0 then _default
      else
        match min with
        | Some m => if v <? m then m else match max with Some x => if x <? v then x else v | None => v end
        | None => match max with Some x => if x <? v then x else v | None => v end
        end
  end.

Definition NewOracle (params : GpoConfig) : Oracle :=
  let maxPrice := sanitizeBigInt (MaxPrice params) None None DefaultMaxPrice in
  let minPrice := sanitizeBigInt (MinPrice params) None None 0 in
  let wall := sanitizeBigInt (GasPowerWallRatio params) (Some 1) (Some (DecimalUnit - 2)) 1 in
  let maxRatio := sanitizeBigInt (MaxPriceMultiplierRatio params) (Some DecimalUnit) None (10 * DecimalUnit) in
  let middle := sanitizeBigInt (MiddlePriceMultiplierRatio params) (Some DecimalUnit) (Some maxRatio) (2 * DecimalUnit) in
  mkOracle 0 None (mkGpoParams maxPrice minPrice maxRatio middle wall).

(** ** Suggesting a price *)

Definition minGasPrice (rd : GpoReader) (o : Oracle) : Z :=
  let minPrice := MinGasPrice (Economy (rd_GetRules rd)) in
  let pendingMinPrice := MinGasPrice (Economy (rd_GetPendingRules rd)) in
  let minPrice := if minPrice <? pendingMinPrice then pendingMinPrice else minPrice in
  if minPrice <? gp_MinPrice (o_cfg o) then gp_MinPrice (o_cfg o) else minPrice.

Definition maxTotalGasPower (rd : GpoReader) : Z :=
  let rules := rd_GetRules rd in
  AllocPerSec (LongGasPower (Economy rules)) * MaxAllocPeriod (LongGasPower (Economy rules)) / 10 ^ 9.

(** The dots of [multiplierFn]. *)
Definition multiplier_dots (cfg : GpoParams) : list Dot :=
  let maxRatio := u64 (gp_MaxRatio cfg) in
  let wall := u64 (gp_WallRatio cfg) in
  [mkDot 0 maxRatio;
   mkDot wall maxRatio;
   mkDot (u64 (wall + u64 (DecimalUnit - wall) / 2)) (u64 (gp_MiddleRatio cfg));
   mkDot DecimalUnit DecimalUnit].

(** The share of the gas power that is free; the division of [big.Int] panics on zero. *)
Definition free_ratio (rd : GpoReader) : res Z :=
  if maxTotalGasPower rd =? 0 then Panic
  else
    let freeRatio := u64 (rd_TotalGasPowerLeft rd * DecimalUnit / maxTotalGasPower rd) in
    Ok (if DecimalUnit <? freeRatio then DecimalUnit else freeRatio).

Definition suggestPrice (rd : GpoReader) (o : Oracle) : res Z :=
  freeRatio ← free_ratio rd;
  multiplierFn ← NewFunc (multiplier_dots (o_cfg o));
  multiplier ← Get multiplierFn freeRatio;
  Ok (multiplier * minGasPrice rd o / DecimalUnit).

Definition SuggestPrice (rd : GpoReader) (o : Oracle) : res (option Z * Oracle) :=
  let head := rd_GetLatestBlockIndex rd in
  if head =? o_lastHead o then Ok (o_lastPrice o, o)
  else
    price ← suggestPrice rd o;
    let price := if gp_MaxPrice (o_cfg o) <? price then gp_MaxPrice (o_cfg o) else price in
    let minimum := minGasPrice rd o in
    let price := if price <? minimum then minimum else price in
    Ok (Some price, mkOracle head (Some price) (o_cfg o)).

(** ** The gas power that is left *)

Section backend.
Context {EventID : Type} `{EventIDs EventID} `{!Countable EventID} `{!DagEvents EventID} `{!EventBytes EventID}
  `{RlpBytes} `{IdxBytes} `{MapRange}.
Context {V : Type} `{Pos V}.
Context {CE CH : Type} `{!Wlru EventID (EventPayload EventID) CE} `{!Wlru EventID (Event EventID) CH}.
Context {D W M : Type} `{!DagIndexer EventID V D} `{!Engine EventID V W} `{!EmitterHooks EventID V M}.
Variable sha256 : list Z → list Z.
Variable EmptyTxHash : list Z.
Variable deriveChainId : Z → Z.
Notation Sv := (Service (EventID := EventID) (V := V) (CE := CE) (CH := CH) (D := D) (W := W) (M := M)).
Notation getEvent := (svc_GetEvent sha256 EmptyTxHash deriveChainId).

Definition long_gas (e : Event EventID) : res Z := deref (Gas_at (gasPowerLeft (ev_ext e)) LongTermGas).

(** [for _, tip := range set.Val] *)
Fixpoint total_of_tips (tips : list (Z * EventID)) (total : Z) (metValidators : gset Z) : EM Sv (Z * gset Z) :=
  match tips with
  | [] => mret (total, metValidators)
  | (_, tip) :: tips' =>
      o ← getEvent tip;
      e ← em_lift (deref o);
      gas ← em_lift (long_gas e);
      total_of_tips tips' (u64 (total + gas)) ({[Creator (ev_base e)]} ∪ metValidators)
  end.

(** [for i := idx.Validator(0); i < es.Validators.Len(); i++] *)
Fixpoint total_of_others (i : Z) (vids : list Z) (states : list (ValidatorEpochState EventID)) (metValidators : gset Z)
    (total : Z) : EM Sv Z :=
  match vids with
  | [] => mret total
  | vid :: vids' =>
      if bool_decide (vid ∈ metValidators) then total_of_others (i + 1) vids' states metValidators total
      else
        st ← em_lift (index states i);
        prevEvent ← getEvent (ves_PrevEpochEvent st);
        match prevEvent with
        | None => total_of_others (i + 1) vids' states metValidators total
        | Some e =>
            gas ← em_lift (long_gas e);
            total_of_others (i + 1) vids' states metValidators (u64 (total + gas))
        end
  end.

(** The last events are nil for another epoch than that of the store. *)
Definition TotalGasPowerLeft : EM Sv Z :=
  s ← em_get;
  let es := sv_es s in
  set ← (if eps_epoch (sv_epochStore s) =? es_Epoch es then
           '(lasts, eps) ← em_lift (GetLastEvents (sv_epochStore s));
           _ ← em_modify (set_epochStore eps);
           mret lasts
         else mret ∅);
  '(total, metValidators) ← total_of_tips (range_of set) 0 ∅;
  total_of_others 0 (vv_IDs (es_Validators es)) (es_ValidatorStates es) metValidators total.
End backend.

(** ** The multiplier *)

(** Falling ordinates give falling values, up to the rounding of one unit. *)
Lemma interpolate_antitone D y0 y1 r r' :
  0 < D → 0 <= y1 <= y0 → 0 <= r <= r' → r' <= D →
  y0 * (D - r') / D + y1 * r' / D <= y0 * (D - r) / D + y1 * r / D + 1.
Proof.
  intros HD Hy Hr Hr'. pose proof (Z.div_mod (y0 * (D - r)) D). pose proof (Z.div_mod (y1 * r) D).
  pose proof (Z.mod_pos_bound (y0 * (D - r)) D). pose proof (Z.mod_pos_bound (y1 * r) D).
  pose proof (Z.mul_div_le (y0 * (D - r')) D HD). pose proof (Z.mul_div_le (y1 * r') D HD).
  assert (y0 * (D - r') + y1 * r' <= y0 * (D - r) + y1 * r) by nia. nia.
Qed.

Definition falling (dots : list Dot) : Prop := ∀ i a b, dots !! i = Some a → dots !! S i = Some b → Y b <= Y a.

Lemma falling_le dots i j a b : falling dots → dots !! i = Some a → dots !! j = Some b → (i <= j)%nat → Y b <= Y a.
Proof.
  intros Hf Ha Hb Hle. revert b Hb. induction Hle as [|j Hle IH]; intros b Hb; [assert (a = b) by congruence; by subst|].
  destruct (lookup_lt_is_Some_2 dots j) as [c Hc]; [apply lookup_lt_Some in Hb; lia|].
  specialize (IH c Hc). specialize (Hf j c b Hc Hb). lia.
Qed.

(** The value of a piece that contains the argument. *)
Lemma Get_value dots x first lst :
  dots_ok dots → head dots = Some first → last dots = Some lst → X first <= x <= X lst → (x - X first) * DecimalUnit < 2 ^ 64 →
  ∃ i a b, let r := (x - X a) * DecimalUnit / (X b - X a) in
    dots !! i = Some a ∧ dots !! S i = Some b ∧ X a < X b ∧ X a <= x <= X b ∧ 0 <= r <= DecimalUnit ∧ 0 <= Y a ∧ 0 <= Y b ∧
    Get dots x = Ok (Y a * (DecimalUnit - r) / DecimalUnit + Y b * r / DecimalUnit).
Proof.
  intros (Hinc & Hlen & Hall) Hf Hl Hx Hov.
  destruct (Get_piece dots x first lst Hinc Hlen Hf Hl Hx) as (i & a & b & E & Ha & Hb & Hlt & Hxab).
  destruct (proj1 (Forall_lookup _ _) Hall i a Ha) as (HXa & HYa & HYa').
  destruct (proj1 (Forall_lookup _ _) Hall (S i) b Hb) as (HXb & HYb & HYb').
  assert (X first <= X a) by (apply (increasing_le dots 0 i); [done|by rewrite <- head_lookup|done|lia]).
  destruct (piece_value a b x HXa HXb Hlt Hxab ltac:(unfold DecimalUnit in *; lia) HYa HYb HYa' HYb') as [Hr Ev].
  exists i, a, b. cbn zeta. split_and!; try done; try lia.
  unfold Get. rewrite E. rewrite (index_lookup dots i a Ha). cbn [mbind res_bind].
  replace (Z.of_nat i + 1) with (Z.of_nat (S i)) by lia. rewrite (index_lookup dots (S i) b Hb). exact Ev.
Qed.

Lemma Get_antitone dots x x' v v' first lst :
  dots_ok dots → falling dots → head dots = Some first → last dots = Some lst → X first <= x <= x' → x' <= X lst →
  (x' - X first) * DecimalUnit < 2 ^ 64 → Get dots x = Ok v → Get dots x' = Ok v' → v' <= v + 1.
Proof.
  intros Hok Hfall Hf Hl Hx Hx' Hov Ev Ev'. pose proof Hok as (Hinc & _ & _).
  destruct (Get_value dots x first lst Hok Hf Hl) as (i & a & b & Ha & Hb & Hlt & Hab & Hr & Hya & Hyb & E); [lia|unfold DecimalUnit in *; lia|].
  destruct (Get_value dots x' first lst Hok Hf Hl) as (j & c & d & Hc & Hd & Hlt' & Hcd & Hr' & Hyc & Hyd & E'); [lia..|].
  rewrite Ev in E. rewrite Ev' in E'. injection E as ->. injection E' as ->.
  set (r := (x - X a) * DecimalUnit / (X b - X a)) in *. set (r' := (x' - X c) * DecimalUnit / (X d - X c)) in *.
  assert (HD : 0 < DecimalUnit) by done.
  pose proof (interpolate_bounds DecimalUnit (Y a) (Y b) r HD Hya Hyb Hr). pose proof (interpolate_bounds DecimalUnit (Y c) (Y d) r' HD Hyc Hyd Hr').
  pose proof (Hfall i a b Ha Hb). pose proof (Hfall j c d Hc Hd).
  destruct (Nat.lt_trichotomy i j) as [Hij|[->|Hij]].
  - pose proof (falling_le dots (S i) j b c Hfall Hb Hc ltac:(lia)). lia.
  - assert (a = c) as -> by congruence. assert (b = d) as -> by congruence. apply interpolate_antitone; [done|lia| |lia].
    split; [lia|]. unfold r, r'. apply Z.div_le_mono; [lia|]. apply Z.mul_le_mono_nonneg_r; lia.
  - pose proof (increasing_le dots (S j) i d a Hinc Hd Ha ltac:(lia)). assert (x = x') as <- by lia. rewrite Ev in Ev'. injection Ev' as ->. lia.
Qed.

(** ** The oracle *)

Record params_ok (cfg : GpoParams) : Prop := {
  po_wall : 1 <= gp_WallRatio cfg <= DecimalUnit - 2;
  po_middle : DecimalUnit <= gp_MiddleRatio cfg <= gp_MaxRatio cfg;
}.

Lemma sanitize_within v lo hi d : lo <= hi → lo <= d <= hi → lo <= sanitizeBigInt v (Some lo) (Some hi) d <= hi.
Proof. intros ? ?. destruct v as [v|]; cbn; [|lia]. destruct (Z.eqb_spec v 0), (Z.ltb_spec v lo), (Z.ltb_spec hi v); lia. Qed.

Lemma sanitize_above v lo d : lo <= d → lo <= sanitizeBigInt v (Some lo) None d.
Proof. intros ?. destruct v as [v|]; cbn; [|lia]. destruct (Z.eqb_spec v 0), (Z.ltb_spec v lo); lia. Qed.

(** A middle ratio that is given, or a maximum above its default. *)
Definition middle_fits (params : GpoConfig) : Prop :=
  default 0 (MiddlePriceMultiplierRatio params) ≠ 0 ∨ 2 * DecimalUnit <= gp_MaxRatio (o_cfg (NewOracle params)).

Lemma NewOracle_ok params : middle_fits params → params_ok (o_cfg (NewOracle params)).
Proof.
  unfold middle_fits, NewOracle. cbn [o_cfg gp_MaxRatio]. intros Hm.
  set (hi := sanitizeBigInt (MaxPriceMultiplierRatio params) (Some DecimalUnit) None (10 * DecimalUnit)) in *.
  assert (Hhi : DecimalUnit <= hi) by (apply sanitize_above; unfold DecimalUnit; lia).
  split; cbn [gp_WallRatio gp_MiddleRatio gp_MaxRatio].
  - apply sanitize_within; unfold DecimalUnit; lia.
  - fold hi. destruct Hm as [Hm|Hm]; [|apply sanitize_within; unfold DecimalUnit in *; lia].
    destruct (MiddlePriceMultiplierRatio params) as [v|]; cbn in *; [|done].
    rewrite (proj2 (Z.eqb_neq _ _)) by done. destruct (Z.ltb_spec v DecimalUnit), (Z.ltb_spec hi v); lia.
Qed.

Section oracle.
Variable cfg : GpoParams.
Hypothesis (Hcfg : params_ok cfg) (Hmax : gp_MaxRatio cfg * DecimalUnit < 2 ^ 64).

Lemma middle_between : gp_WallRatio cfg < gp_WallRatio cfg + (DecimalUnit - gp_WallRatio cfg) / 2 < DecimalUnit.
Proof using Hcfg.
  destruct Hcfg as [Hw Hm]. pose proof (Z.div_str_pos (DecimalUnit - gp_WallRatio cfg) 2 ltac:(lia)).
  pose proof (Z.div_lt (DecimalUnit - gp_WallRatio cfg) 2 ltac:(lia) ltac:(lia)). lia.
Qed.

Lemma dots_eq :
  multiplier_dots cfg = [mkDot 0 (gp_MaxRatio cfg); mkDot (gp_WallRatio cfg) (gp_MaxRatio cfg);
    mkDot (gp_WallRatio cfg + (DecimalUnit - gp_WallRatio cfg) / 2) (gp_MiddleRatio cfg); mkDot DecimalUnit DecimalUnit].
Proof using Hcfg Hmax.
  pose proof middle_between. destruct Hcfg as [Hw Hm]. unfold multiplier_dots, DecimalUnit in *.
  rewrite (u64_id (gp_MaxRatio cfg)), (u64_id (gp_WallRatio cfg)), (u64_id (gp_MiddleRatio cfg)) by (unfold is_u64; lia).
  rewrite (u64_id (10 ^ 6 - _)) by (unfold is_u64; lia). rewrite (u64_id (_ + _)) by (unfold is_u64; lia). done.
Qed.

Lemma multiplier_dots_ok : dots_ok (multiplier_dots cfg) ∧ falling (multiplier_dots cfg).
Proof using Hcfg Hmax.
  pose proof middle_between as Hb. rewrite dots_eq. destruct Hcfg as [Hw Hm]. split; [split; [|split]|].
  - intros [|[|[|[|i]]]] a b; cbn; intros Ea Eb; simplify_eq; cbn; lia.
  - cbn. lia.
  - repeat constructor; cbn; unfold DecimalUnit in *; lia.
  - intros [|[|[|[|i]]]] a b; cbn; intros Ea Eb; simplify_eq; cbn; lia.
Qed.

Lemma NewFunc_multiplier : NewFunc (multiplier_dots cfg) = Ok (multiplier_dots cfg).
Proof using Hcfg Hmax.
  pose proof middle_between as Hb. destruct Hcfg as [Hw Hm]. rewrite dots_eq. unfold NewFunc. cbn [len length Z.of_nat Z.ltb].
  cbn [check_dots X]. rewrite !(proj2 (Z.leb_gt _ _)) by lia. done.
Qed.

Lemma multiplier_spec x :
  0 <= x <= DecimalUnit → ∃ m, Get (multiplier_dots cfg) x = Ok m ∧ DecimalUnit - 1 <= m <= gp_MaxRatio cfg ∧
    (x <= gp_WallRatio cfg → gp_MaxRatio cfg - 1 <= m) ∧ (x = DecimalUnit → m = DecimalUnit).
Proof using Hcfg Hmax.
  intros Hx. pose proof middle_between as Hmid. destruct multiplier_dots_ok as [Hok Hf].
  destruct (Get_spec (multiplier_dots cfg) x (mkDot 0 (gp_MaxRatio cfg)) (mkDot DecimalUnit DecimalUnit) Hok)
    as (i & a & b & v & Ha & Hb & Hab & E & Hv & Hva & Hvb & _); [by rewrite dots_eq|by rewrite dots_eq|done| |].
  { intros i a b Ha Hb Hab. rewrite dots_eq in Ha. assert (0 <= X a); [|unfold DecimalUnit in *; lia].
    destruct Hcfg as [Hw Hm]. destruct i as [|[|[|[|i]]]]; cbn in Ha; try done; injection Ha as <-; cbn; unfold DecimalUnit in *; lia. }
  exists v. split; [done|]. rewrite dots_eq in Ha, Hb. destruct Hcfg as [Hw Hm].
  destruct i as [|[|[|[|i]]]]; cbn in Ha, Hb; try done; injection Ha as <-; injection Hb as <-; cbn [X Y] in *; split_and!; intros; try lia.
Qed.
End oracle.

(** The network allocates more than a million of gas power, so that the share that is free
    fits 64 bits. *)
Record reader_ok (rd : GpoReader) : Prop := {
  ro_left : is_u64 (rd_TotalGasPowerLeft rd);
  ro_alloc : 10 ^ 6 <= maxTotalGasPower rd;
}.

Lemma free_ratio_spec rd :
  reader_ok rd → free_ratio rd = Ok (Z.min DecimalUnit (rd_TotalGasPowerLeft rd * DecimalUnit / maxTotalGasPower rd)) ∧
    0 <= Z.min DecimalUnit (rd_TotalGasPowerLeft rd * DecimalUnit / maxTotalGasPower rd) <= DecimalUnit.
Proof.
  intros [Hl Ha]. unfold free_ratio. rewrite (proj2 (Z.eqb_neq _ _)) by lia. unfold is_u64 in Hl.
  set (q := rd_TotalGasPowerLeft rd * DecimalUnit / maxTotalGasPower rd).
  assert (Hq : 0 <= q) by (apply Z.div_pos; unfold DecimalUnit; lia).
  assert (Hq' : q < 2 ^ 64).
  { apply Z.div_lt_upper_bound; [lia|]. unfold DecimalUnit.
    apply Z.lt_le_trans with (2 ^ 64 * 10 ^ 6); [lia|]. rewrite (Z.mul_comm (maxTotalGasPower rd)). apply Z.mul_le_mono_nonneg_l; lia. }
  rewrite u64_id by (unfold is_u64; lia). unfold DecimalUnit in *. split; [|lia]. f_equal.
  destruct (Z.ltb_spec (10 ^ 6) q); lia.
Qed.

Definition price_of (rd : GpoReader) (o : Oracle) (m : Z) : Z :=
  Z.max (minGasPrice rd o) (Z.min (gp_MaxPrice (o_cfg o)) (m * minGasPrice rd o / DecimalUnit)).

Lemma SuggestPrice_fresh rd o :
  params_ok (o_cfg o) → gp_MaxRatio (o_cfg o) * DecimalUnit < 2 ^ 64 → reader_ok rd → rd_GetLatestBlockIndex rd ≠ o_lastHead o →
  let free := Z.min DecimalUnit (rd_TotalGasPowerLeft rd * DecimalUnit / maxTotalGasPower rd) in
  ∃ m, Get (multiplier_dots (o_cfg o)) free = Ok m ∧
    SuggestPrice rd o = Ok (Some (price_of rd o m), mkOracle (rd_GetLatestBlockIndex rd) (Some (price_of rd o m)) (o_cfg o)) ∧
    DecimalUnit - 1 <= m <= gp_MaxRatio (o_cfg o) ∧
    (free <= gp_WallRatio (o_cfg o) → gp_MaxRatio (o_cfg o) - 1 <= m) ∧ (free = DecimalUnit → m = DecimalUnit).
Proof.
  intros Hp Hm Hr Hh free. destruct (free_ratio_spec rd Hr) as [Ef Hf]. fold free in Ef, Hf.
  destruct (multiplier_spec (o_cfg o) Hp Hm free Hf) as (m & Eg & Hbnd & Hw & Hfree). exists m. split; [done|]. split; [|done].
  unfold SuggestPrice. rewrite (proj2 (Z.eqb_neq _ _)) by done. unfold suggestPrice. rewrite Ef. cbn [mbind res_bind].
  rewrite (NewFunc_multiplier (o_cfg o) Hp Hm). cbn [mbind res_bind]. rewrite Eg. cbn [mbind res_bind].
  set (raw := m * minGasPrice rd o / DecimalUnit).
  assert (E : (if (if gp_MaxPrice (o_cfg o) <? raw then gp_MaxPrice (o_cfg o) else raw) <? minGasPrice rd o then minGasPrice rd o
    else if gp_MaxPrice (o_cfg o) <? raw then gp_MaxPrice (o_cfg o) else raw) = price_of rd o m); [|by rewrite E].
  unfold price_of. fold raw. destruct (Z.ltb_spec (gp_MaxPrice (o_cfg o)) raw);
    [destruct (Z.ltb_spec (gp_MaxPrice (o_cfg o)) (minGasPrice rd o))|destruct (Z.ltb_spec raw (minGasPrice rd o))]; lia.
Qed.

(** One more unit of the multiplier. *)
Lemma price_of_step rd o m m' :
  0 <= minGasPrice rd o → m' <= m + 1 → price_of rd o m' <= price_of rd o m + minGasPrice rd o / DecimalUnit + 1.
Proof.
  intros H0 Hm. unfold price_of. set (p := minGasPrice rd o) in *.
  assert (m' * p / DecimalUnit <= m * p / DecimalUnit + p / DecimalUnit + 1); [|assert (0 <= p / DecimalUnit) by (apply Z.div_pos; [lia|done]); lia].
  assert (HD : 0 < DecimalUnit) by done.
  transitivity ((m * p + p) / DecimalUnit); [apply Z.div_le_mono; [done|]; nia|].
  pose proof (Z.div_mod (m * p) DecimalUnit). pose proof (Z.mod_pos_bound (m * p) DecimalUnit HD).
  pose proof (Z.div_mod p DecimalUnit). pose proof (Z.mod_pos_bound p DecimalUnit HD).
  apply Z.lt_succ_r, Z.div_lt_upper_bound; [done|]. lia.
Qed.

(** The gas price oracle neither panics nor leaves its bounds.  Whatever the
    configuration, a price suggested for a new head is the minimum price of the rules, the
    pending rules and the configuration times a multiplier between one and the maximum,
    rounded, cut at the maximum price and never below the minimum; the multiplier is the
    maximum while the free share of gas power is below the wall and one when all of it is
    free; more free gas power does not raise the price beyond the rounding; and the price
    is kept for the head. *)
Theorem oracle_price_bounds params rd o :
  o_cfg o = o_cfg (NewOracle params) → middle_fits params → gp_MaxRatio (o_cfg o) * DecimalUnit < 2 ^ 64 →
  reader_ok rd → rd_GetLatestBlockIndex rd ≠ o_lastHead o → 0 <= minGasPrice rd o →
  let low := minGasPrice rd o in
  ∃ price o' m, SuggestPrice rd o = Ok (Some price, o') ∧ o_cfg o' = o_cfg o ∧
    price = Z.max low (Z.min (gp_MaxPrice (o_cfg o)) (m * low / DecimalUnit)) ∧
    DecimalUnit - 1 <= m <= gp_MaxRatio (o_cfg o) ∧
    (rd_TotalGasPowerLeft rd * DecimalUnit / maxTotalGasPower rd <= gp_WallRatio (o_cfg o) → gp_MaxRatio (o_cfg o) - 1 <= m) ∧
    (maxTotalGasPower rd <= rd_TotalGasPowerLeft rd → m = DecimalUnit) ∧
    (∀ rd', rd_GetLatestBlockIndex rd' = rd_GetLatestBlockIndex rd → SuggestPrice rd' o' = Ok (Some price, o')) ∧
    (∀ left', rd_TotalGasPowerLeft rd <= left' → is_u64 left' →
       ∃ price' o'', SuggestPrice (mkGpoReader (rd_GetLatestBlockIndex rd) left' (rd_GetRules rd) (rd_GetPendingRules rd)) o
         = Ok (Some price', o'') ∧ price' <= price + low / DecimalUnit + 1).
Proof.
  intros Ecfg Hmid Hm Hr Hh Hlow low. assert (Hp : params_ok (o_cfg o)) by (rewrite Ecfg; by apply NewOracle_ok).
  destruct (SuggestPrice_fresh rd o Hp Hm Hr Hh) as (m & Eg & Es & Hbnd & Hw & Hfree).
  set (free := Z.min DecimalUnit (rd_TotalGasPowerLeft rd * DecimalUnit / maxTotalGasPower rd)) in *.
  exists (price_of rd o m), (mkOracle (rd_GetLatestBlockIndex rd) (Some (price_of rd o m)) (o_cfg o)), m.
  split; [done|]. split; [done|]. split; [done|]. split; [done|]. split; [intros; apply Hw; lia|]. split; [|split].
  - intros Hle. apply Hfree. destruct Hr as [Hl Ha].
    assert (DecimalUnit <= rd_TotalGasPowerLeft rd * DecimalUnit / maxTotalGasPower rd); [|lia].
    apply Z.div_le_lower_bound; [lia|]. apply Z.mul_le_mono_nonneg_r; [done|lia].
  - intros rd' Hrd. unfold SuggestPrice. rewrite Hrd. cbn [o_lastHead o_lastPrice]. by rewrite Z.eqb_refl.
  - intros left' Hle Hl'. set (rd' := mkGpoReader (rd_GetLatestBlockIndex rd) left' (rd_GetRules rd) (rd_GetPendingRules rd)).
    destruct Hr as [Hl Ha]. assert (Hr' : reader_ok rd') by (by split).
    destruct (SuggestPrice_fresh rd' o Hp Hm Hr' Hh) as (m' & Eg' & Es' & Hbnd' & _).
    eexists _, _. split; [exact Es'|]. change (price_of rd' o m') with (price_of rd o m'). apply price_of_step; [done|].
    destruct (multiplier_dots_ok (o_cfg o) Hp Hm) as [Hok Hfall].
    change (maxTotalGasPower rd') with (maxTotalGasPower rd) in Eg'. change (rd_TotalGasPowerLeft rd') with left' in Eg'.
    assert (Hmono : rd_TotalGasPowerLeft rd * DecimalUnit / maxTotalGasPower rd <= left' * DecimalUnit / maxTotalGasPower rd).
    { apply Z.div_le_mono; [lia|]. apply Z.mul_le_mono_nonneg_r; [done|lia]. }
    assert (0 <= free) by (apply (free_ratio_spec rd); by split).
    eapply (Get_antitone _ free _ m m' (mkDot 0 (gp_MaxRatio (o_cfg o))) (mkDot DecimalUnit DecimalUnit) Hok Hfall);
      [by rewrite dots_eq|by rewrite dots_eq|cbn [X]; split; [done|by apply Z.min_le_compat_l]|apply Z.le_min_l| |exact Eg|exact Eg'].
    cbn [X]. pose proof (Z.le_min_l DecimalUnit (left' * DecimalUnit / maxTotalGasPower rd)) as Hmin. revert Hmin.
    generalize (DecimalUnit `min` (left' * DecimalUnit / maxTotalGasPower rd)). intros z Hz. unfold DecimalUnit in *. lia.
Qed.

(** *** Examples *)

Definition demo_gpo_config : GpoConfig := mkGpoConfig None None (Some (10 * DecimalUnit)) (Some (3 * DecimalUnit)) (Some 50000).
Definition demo_reader (head left : Z) : GpoReader := mkGpoReader head left MainNetRules MainNetRules.

(** A fifth of the gas power is free. *)
Lemma oracle_price_bounds_witness :
  let o := NewOracle demo_gpo_config in let rd := demo_reader 7 2000000000 in
  fst <$> SuggestPrice rd o = Ok (Some 7812878000) ∧
  ∃ price o' m, SuggestPrice rd o = Ok (Some price, o') ∧ o_cfg o' = o_cfg o ∧
    price = Z.max (minGasPrice rd o) (Z.min (gp_MaxPrice (o_cfg o)) (m * minGasPrice rd o / DecimalUnit)) ∧
    DecimalUnit - 1 <= m <= gp_MaxRatio (o_cfg o) ∧
    (rd_TotalGasPowerLeft rd * DecimalUnit / maxTotalGasPower rd <= gp_WallRatio (o_cfg o) → gp_MaxRatio (o_cfg o) - 1 <= m) ∧
    (maxTotalGasPower rd <= rd_TotalGasPowerLeft rd → m = DecimalUnit) ∧
    (∀ rd', rd_GetLatestBlockIndex rd' = rd_GetLatestBlockIndex rd → SuggestPrice rd' o' = Ok (Some price, o')) ∧
    (∀ left', rd_TotalGasPowerLeft rd <= left' → is_u64 left' →
       ∃ price' o'', SuggestPrice (mkGpoReader (rd_GetLatestBlockIndex rd) left' (rd_GetRules rd) (rd_GetPendingRules rd)) o
         = Ok (Some price', o'') ∧ price' <= price + minGasPrice rd o / DecimalUnit + 1).
Proof.
  cbn zeta. split; [vm_compute; reflexivity|].
  apply (oracle_price_bounds demo_gpo_config (demo_reader 7 2000000000) (NewOracle demo_gpo_config)).
  - reflexivity.
  - left. vm_compute. discriminate.
  - vm_compute. reflexivity.
  - split; vm_compute; [split; [discriminate|reflexivity]|discriminate].
  - vm_compute. discriminate.
  - vm_compute. discriminate.
Defined.

(** The empty cache answers for block zero; the genesis leaves block one as the last. *)
Example no_price_at_genesis params left : SuggestPrice (demo_reader 0 left) (NewOracle params) = Ok (None, NewOracle params).
Proof. reflexivity. Qed.

(** A maximum below two and no middle ratio: the default of the middle exceeds the maximum,
    and half of the gas power free costs more than none. *)
Example default_middle_above_max :
  let o := NewOracle (mkGpoConfig None None (Some 1100000) None None) in
  gp_MaxRatio (o_cfg o) < gp_MiddleRatio (o_cfg o) ∧
  fst <$> SuggestPrice (demo_reader 7 0) o = Ok (Some 1100000000) ∧
  fst <$> SuggestPrice (demo_reader 7 (maxTotalGasPower (demo_reader 7 0) / 2)) o = Ok (Some 2000000000).
Proof. vm_compute. done. Qed.

(** ** The total of the gas power that is left *)

Lemma sum_Z_omap {A B} (f : A → option B) (g : B → Z) (l : list A) :
  sum_Z (g <$> omap f l) = sum_Z ((λ x, match f x with Some y => g y | None => 0 end) <$> l).
Proof. induction l as [|x l IH]; [done|]. cbn. destruct (f x); cbn; unfold sum_Z in *; cbn; rewrite IH; lia. Qed.

(** The entries of a map, by the keys of a list that has them all. *)
Lemma map_to_list_keys {A} (m : gmap Z A) (keys : list Z) :
  NoDup keys → (∀ k, is_Some (m !! k) → k ∈ keys) → map_to_list m ≡ₚ omap (λ k, (λ x, (k, x)) <$> m !! k) keys.
Proof.
  intros Hnd Hk. apply NoDup_Permutation; [apply NoDup_map_to_list| |].
  - assert (Hsub : ∀ l, NoDup l → NoDup (omap (λ k, (λ x, (k, x)) <$> m !! k) l)); [|by apply Hsub].
    induction 1 as [|k l Hin Hnd' IH]; [constructor|]. cbn. destruct (m !! k) as [x|]; cbn; [|done]. constructor; [|done].
    rewrite list_elem_of_omap. intros (k' & Hk' & E). destruct (m !! k'); cbn in E; [|done]. injection E as -> ->. done.
  - intros [k x]. rewrite elem_of_map_to_list, list_elem_of_omap. split.
    + intros E. exists k. rewrite E. split; [|done]. apply Hk. by rewrite E.
    + intros (k' & _ & E). destruct (m !! k') eqn:Ek; cbn in E; [|done]. by injection E as <- <-.
Qed.

Section total.
Context {EventID : Type} `{EventIDsLaws EventID} `{!Countable EventID} `{!DagEvents EventID} `{!EventBytes EventID}
  `{!EventBytesLaws EventID} `{RlpBytesLaws} `{IdxBytesLaws} `{MapRangeLaws}.
Context {V : Type} `{PosLaws V}.
Context {CE CH : Type} `{!Wlru EventID (EventPayload EventID) CE} `{!Wlru EventID (Event EventID) CH}.
Context `{!WlruLaws EventID (EventPayload EventID) CE} `{!WlruLaws EventID (Event EventID) CH}.
Context {D W M : Type} `{!DagIndexer EventID V D} `{!DagIndexerLaws EventID V D} `{!Engine EventID V W}
  `{!EngineLaws EventID V W} `{!EmitterHooks EventID V M}.
Variable sha256 : list Z → list Z.
Variable EmptyTxHash : list Z.
Variable deriveChainId : Z → Z.
Notation Ev := (EventPayload EventID).
Notation Sv := (Service (EventID := EventID) (V := V) (CE := CE) (CH := CH) (D := D) (W := W) (M := M)).
Notation holds := (stored sha256 EmptyTxHash deriveChainId).
Notation long_at e := (default 0 (Gas_at (gasPowerLeft (ev_ext (ep_event e))) LongTermGas)).

(** The gas power of an event that may be missing. *)
Definition left_of (o : option Ev) : Z := match o with Some e => long_at e | None => 0 end.

Variable m : gmap EventID Ev.
Hypothesis Hgas : ∀ id e, m !! id = Some e → is_Some (Gas_at (gasPowerLeft (ev_ext (ep_event e))) LongTermGas).

Lemma long_gas_known id e : m !! id = Some e → long_gas (ep_event e) = Ok (long_at e).
Proof using Hgas. intros E. unfold long_gas. destruct (Hgas id e E) as [g ->]. done. Qed.

Lemma total_of_tips_run tips total met (s : Sv) :
  holds m (sv_events s) → is_u64 total →
  (∀ v id, (v, id) ∈ tips → ∃ e, m !! id = Some e ∧ Creator (ev_base (ep_event e)) = v) →
  ∃ st, total_of_tips sha256 EmptyTxHash deriveChainId tips total met s
      = (Ok (u64 (total + sum_Z ((λ t, left_of (m !! t.2)) <$> tips)), list_to_set tips.*1 ∪ met), set_events st s) ∧ holds m st.
Proof using All.
  revert total met s. induction tips as [|[v id] tips IH]; intros total met s Hs Ht Hk; cbn [total_of_tips].
  - exists (sv_events s). split; [|done]. unfold sum_Z. cbn. rewrite Z.add_0_r, u64_id, union_empty_l_L by done. by destruct s.
  - destruct (Hk v id) as (e & Em & Ec); [left|].
    destruct (svc_GetEvent_run sha256 EmptyTxHash deriveChainId m id s Hs) as (st & Eg & Hst).
    rewrite (em_bind_run _ _ s _ _ Eg). rewrite Em. cbn [fmap option_fmap option_map].
    rewrite (em_bind_run _ _ _ (ep_event e) (set_events st s)) by done.
    rewrite (em_bind_run _ _ _ (long_at e) (set_events st s)) by (unfold em_lift; by rewrite (long_gas_known id)).
    destruct (IH (u64 (total + long_at e)) ({[Creator (ev_base (ep_event e))]} ∪ met) (set_events st s)) as (st' & -> & Hst');
      [done|apply u64_range|intros; apply Hk; by right|].
    exists st'. split; [|done]. rewrite !fmap_cons. cbn [snd fst list_to_set]. unfold left_of at 2. rewrite Em. unfold sum_Z. cbn [foldr].
    rewrite u64_add_l, Ec, <- Z.add_assoc. f_equal. f_equal. f_equal. set_solver.
Qed.

Lemma total_of_others_run i vids states met total (s : Sv) :
  holds m (sv_events s) → is_u64 total → (i + length vids <= length states)%nat →
  ∃ st, total_of_others sha256 EmptyTxHash deriveChainId (Z.of_nat i) vids states met total s
      = (Ok (u64 (total + sum_Z (zip_with (λ vid st, if bool_decide (vid ∈ met) then 0 else left_of (m !! ves_PrevEpochEvent st))
           vids (drop i states)))), set_events st s) ∧ holds m st.
Proof using All.
  revert i total s. induction vids as [|vid vids IH]; intros i total s Hs Ht Hl; cbn [total_of_others length] in *.
  - exists (sv_events s). split; [|done]. unfold sum_Z. cbn. rewrite Z.add_0_r, u64_id by done. by destruct s.
  - destruct (lookup_lt_is_Some_2 states i ltac:(lia)) as [vs Evs]. rewrite (drop_S _ _ _ Evs). cbn [zip_with].
    replace (Z.of_nat i + 1) with (Z.of_nat (S i)) by lia. case_bool_decide as Hmet.
    + destruct (IH (S i) total s) as (st & -> & Hst); [done|done|lia|]. exists st. split; [|done]. done.
    + rewrite (em_bind_run _ _ _ vs s) by (unfold em_lift; by rewrite (index_lookup _ _ _ Evs)).
      destruct (svc_GetEvent_run sha256 EmptyTxHash deriveChainId m (ves_PrevEpochEvent vs) s Hs) as (st & Eg & Hst).
      rewrite (em_bind_run _ _ s _ _ Eg). destruct (m !! ves_PrevEpochEvent vs) as [e|] eqn:Em; cbn [fmap option_fmap option_map left_of].
      * rewrite (em_bind_run _ _ _ (long_at e) (set_events st s)) by (unfold em_lift; by rewrite (long_gas_known _ e Em)).
        destruct (IH (S i) (u64 (total + long_at e)) (set_events st s)) as (st' & -> & Hst'); [done|apply u64_range|lia|].
        exists st'. split; [|done]. rewrite u64_add_l, <- Z.add_assoc. done.
      * destruct (IH (S i) total (set_events st s)) as (st' & -> & Hst'); [done|done|lia|]. exists st'. done.
Qed.

(** The last event of a validator in the epoch, or else its last one of an earlier epoch. *)
Definition known_last (evs : list Ev) (vid : Z) (vs : ValidatorEpochState EventID) : option Ev :=
  match last_of evs vid with Some id => m !! id | None => m !! ves_PrevEpochEvent vs end.

(** The tips and the other validators together are all validators. *)
Lemma total_split (lasts : gmap Z EventID) evs vids states (met : gset Z) :
  NoDup vids → length vids = length states → (∀ v, lasts !! v = last_of evs v) → (∀ v, is_Some (lasts !! v) → v ∈ vids) →
  (∀ v, v ∈ met ↔ is_Some (lasts !! v)) →
  sum_Z ((λ t, left_of (m !! t.2)) <$> map_to_list lasts)
    + sum_Z (zip_with (λ vid st, if bool_decide (vid ∈ met) then 0 else left_of (m !! ves_PrevEpochEvent st)) vids states)
  = sum_Z (zip_with (λ vid st, left_of (known_last evs vid st)) vids states).
Proof.
  intros Hnd Hlen Hl Hin Hmet. rewrite (sum_Z_perm _ _ (fmap_Permutation _ _ _ (map_to_list_keys lasts vids Hnd Hin))).
  rewrite sum_Z_omap. clear Hnd Hin. revert states Hlen. induction vids as [|vid vids IH]; intros [|vs states] Hlen; try done.
  injection Hlen as Hlen. specialize (IH states Hlen). cbn [zip_with]. rewrite fmap_cons. unfold sum_Z in *. cbn [foldr].
  rewrite <- IH. unfold known_last at 1. rewrite <- Hl. destruct (lasts !! vid) as [id|] eqn:El; cbn [fmap option_fmap option_map snd].
  - rewrite bool_decide_true by (apply Hmet; by rewrite El). lia.
  - rewrite bool_decide_false; [lia|]. rewrite Hmet, El. by intros [].
Qed.

(** The gas power that the oracle takes as left is the sum, at 64 bits, over the
    validators of the epoch of the gas power of the last event that the node has of each:
    the last connected one of the epoch or, if there is none, the last one of the epochs
    before, or zero; whatever order the map of last events is read in.  Reading it through
    the caches of the store leaves the state of the node as it was. *)
Theorem total_gas_power_exact evs (s : Sv) :
  dag_state sha256 EmptyTxHash deriveChainId evs m s →
  (∀ e, e ∈ evs → Creator (ev_base (ep_event e)) ∈ vv_IDs (es_Validators (sv_es s))) →
  length (es_ValidatorStates (sv_es s)) = length (vv_IDs (es_Validators (sv_es s))) →
  ∃ s', TotalGasPowerLeft sha256 EmptyTxHash deriveChainId s
      = (Ok (u64 (sum_Z (zip_with (λ vid st, left_of (known_last evs vid st))
           (vv_IDs (es_Validators (sv_es s))) (es_ValidatorStates (sv_es s))))), s') ∧
    dag_state sha256 EmptyTxHash deriveChainId evs m s'.
Proof using All.
  intros Hd Hcr Hlen. destruct (dg_lasts _ _ _ _ _ _ Hd) as (lasts & El & Hl).
  assert (Hlast : ∀ v id, lasts !! v = Some id → ∃ e, e ∈ evs ∧ m !! id = Some e ∧ Creator (ev_base (ep_event e)) = v).
  { intros v id E. rewrite Hl in E. unfold last_of in E. destruct (last _) as [e|] eqn:Ee; cbn in E; [|done]. injection E as <-.
    apply last_Some_elem_of, list_elem_of_filter in Ee as [<- Hin]. exists e. split; [done|]. split; [by apply (dg_known _ _ _ _ _ _ Hd)|done]. }
  unfold TotalGasPowerLeft. rewrite em_bind_get, (dg_epoch _ _ _ _ _ _ Hd), Z.eqb_refl. unfold GetLastEvents. rewrite El.
  rewrite (em_bind_run _ _ s lasts s) by (cbv [mbind EM_bind em_lift em_modify]; cbn; by destruct s).
  destruct (total_of_tips_run (range_of lasts) 0 ∅ s) as (st & Et & Hst); [apply Hd|unfold is_u64; lia| |].
  { intros v id Hin. rewrite range_of_perm, elem_of_map_to_list in Hin. destruct (Hlast v id Hin) as (e & _ & ? & ?). by exists e. }
  rewrite (em_bind_run _ _ s _ _ Et), Z.add_0_l, union_empty_r_L.
  destruct (total_of_others_run 0 (vv_IDs (es_Validators (sv_es s))) (es_ValidatorStates (sv_es s)) (list_to_set (range_of lasts).*1)
    (u64 (sum_Z ((λ t, left_of (m !! t.2)) <$> range_of lasts))) (set_events st s)) as (st' & Eo & Hst'); [done|apply u64_range|lia|].
  change (Z.of_nat 0) with 0 in Eo. rewrite Eo, u64_add_l, drop_0. eexists. split.
  - rewrite (sum_Z_perm _ _ (fmap_Permutation _ _ _ (range_of_perm lasts))). rewrite (total_split lasts evs); [reflexivity|apply vv_NoDup|done|done| |].
    + intros v [id Ev]. destruct (Hlast v id Ev) as (e & Hin & _ & <-). by apply Hcr.
    + intros v. rewrite elem_of_list_to_set, list_elem_of_fmap. split.
      * intros ([v' id] & -> & Hin). rewrite range_of_perm, elem_of_map_to_list in Hin. by exists id.
      * intros [id Ev]. exists (v, id). split; [done|]. by rewrite range_of_perm, elem_of_map_to_list.
  - destruct Hd. by split.
Qed.
End total.

(** One validator has an event, with 80000 of gas power; the others have none. *)
Definition demo_left_store : EventStore (gmap Hash (EventPayload Hash)) (gmap Hash (Event Hash)) :=
  match SetEvent demo_EmptyTxHash (demo_sv_event 1) demo_store with Ok st => st | _ => demo_store end.

Definition demo_left_svc : Service (EventID := Hash) (V := Group) (CE := gmap Hash (EventPayload Hash))
    (CH := gmap Hash (Event Hash)) (D := list (Event Hash) * list (Event Hash)) (W := EpochState Group Hash) (M := Z * Z) :=
  mkService false demo_left_store
    (mkEpochStore 3 None None (Some (dag_heads [demo_sv_event 1])) (Some (processLastEvent ∅ (demo_sv_event 1))))
    (highest_lamport [demo_sv_event 1]) ([], []) (demo_sv_es 1003) (0, 3)
    (mkValidationContext 3 demo_configs 1003 demo_group (replicate 3 (mkValidatorState None 40))) (∅, 3) 0 [].

Definition demo_left_events : gmap Hash (EventPayload Hash) := {[ID (ev_base (ep_event (demo_sv_event 1))) := demo_sv_event 1]}.

Lemma demo_left_only id e : demo_left_events !! id = Some e → e = demo_sv_event 1.
Proof. unfold demo_left_events. generalize (demo_sv_event 1). intros x E. by apply lookup_singleton_Some in E as [_ <-]. Qed.

Lemma demo_left_state : dag_state demo_sha256 demo_EmptyTxHash demo_deriveChainId [demo_sv_event 1] demo_left_events demo_left_svc.
Proof.
  split; try reflexivity.
  - destruct (SetEvent_stored demo_sha256 demo_EmptyTxHash demo_deriveChainId ∅ demo_store (demo_sv_event 1)) as (st & E & Hst).
    + apply (dg_stored _ _ _ _ _ _ (demo_svc_state 0)).
    + apply demo_sv_event_ok. by left.
    + cbn [sv_events demo_left_svc]. unfold demo_left_store. rewrite E. exact Hst.
  - exists (processLastEvent ∅ (demo_sv_event 1)). split; [reflexivity|]. intros v. apply (last_of_snoc [] (demo_sv_event 1) v ∅).
    intros w. apply lookup_empty.
  - intros e ->%list_elem_of_singleton. apply lookup_singleton_eq.
  - intros e p ->%list_elem_of_singleton Hp. replace (Parents (ev_base (ep_event (demo_sv_event 1)))) with ([] : list Hash) in Hp
      by (vm_compute; reflexivity). by apply elem_of_nil in Hp.
Qed.

Lemma total_gas_power_exact_witness :
  (TotalGasPowerLeft demo_sha256 demo_EmptyTxHash demo_deriveChainId demo_left_svc).1 = Ok 80000 ∧
  ∃ s', TotalGasPowerLeft demo_sha256 demo_EmptyTxHash demo_deriveChainId demo_left_svc
      = (Ok (u64 (sum_Z (zip_with (λ vid st, left_of (known_last demo_left_events [demo_sv_event 1] vid st))
           (vv_IDs (es_Validators (sv_es demo_left_svc))) (es_ValidatorStates (sv_es demo_left_svc))))), s') ∧
    dag_state demo_sha256 demo_EmptyTxHash demo_deriveChainId [demo_sv_event 1] demo_left_events s'.
Proof.
  split; [vm_compute; reflexivity|].
  apply (total_gas_power_exact demo_sha256 demo_EmptyTxHash demo_deriveChainId demo_left_events).
  - intros id e E. rewrite (demo_left_only id e E). exists 80000. vm_compute. reflexivity.
  - exact demo_left_state.
  - intros e ->%list_elem_of_singleton. apply (bool_decide_unpack _). vm_compute. exact I.
  - vm_compute. reflexivity.
Defined.
