(* ===== verification/Genesis.v ===== *)
(** * Applying the genesis (gossip/apply_genesis.go, evmcore/apply_genesis.go,
    gossip/evmstore/apply_genesis.go, the genesis transactions of drivermodule)

    The genesis writes the blocks of an earlier chain and the accounts of the EVM, then
    executes a block of internal transactions and seals the epoch before the first.  From
    the store it leaves, the block pipeline extends one chain: the invariant [chain] holds
    after the genesis and after every call of the pipeline. *)

From S2P Require Import Prelude Cser Inter Instances TxSer EventSer Heap Rules Pos GasPower EvmState EventCheck Topics EvmChain.
From S2P Require Import BlockProc EvmBlock Driver BlockCallbacks.

(** ** The data of a genesis (zilionixx/genesis.go, zilionixx/genesis) *)

Record Delegation := mkDelegation {
  dl_Stake : Z;
  dl_Rewards : Z;
  dl_LockedStake : Z;
  dl_LockupFromEpoch : Z;
  dl_LockupEndTime : Z;
  dl_LockupDuration : Z;
  dl_EarlyUnlockPenalty : Z;
}.

Record Account := mkAccount { ac_Code : list Z; ac_Balance : Z; ac_Nonce : Z; ac_SelfDestruct : bool }.

(** gpos.Validator *)
Record GValidator := mkGValidator {
  gv_ID : Z;
  gv_Address : list Z;
  gv_PubKey : PubKey;
  gv_CreationTime : Z;
  gv_CreationEpoch : Z;
  gv_DeactivatedTime : Z;
  gv_DeactivatedEpoch : Z;
  gv_Status : Z;
}.

(** genesis.Block; the logs of its receipts have an address, topics and data only. *)
Record GBlock (EventID : Type) := mkGBlock {
  gb_Time : Z;
  gb_Atropos : EventID;
  gb_Txs : list Transaction;
  gb_InternalTxs : list Transaction;
  gb_Root : list Z;
  gb_Receipts : list (Receipt Log);
}.
Arguments mkGBlock {_}. Arguments gb_Time {_}. Arguments gb_Atropos {_}. Arguments gb_Txs {_}.
Arguments gb_InternalTxs {_}. Arguments gb_Root {_}. Arguments gb_Receipts {_}.

(** The iterators of the genesis as the lists that they go through. *)
Record Genesis (EventID : Type) := mkGenesis {
  g_Accounts : list (list Z * Account);
  g_Storage : list (list Z * list Z * list Z);
  g_Delegations : list (list Z * Z * Delegation);
  g_Blocks : list (Z * GBlock EventID);
  g_RawEvmItems : list (list Z * list Z);
  g_Validators : list GValidator;
  g_FirstEpoch : Z;
  g_PrevEpochTime : Z;
  g_Time : Z;
  g_ExtraData : list Z;
  g_TotalSupply : Z;
  g_DriverOwner : list Z;
  g_Rules : Rules;
  g_Hash : list Z;
}.
Arguments mkGenesis {_}. Arguments g_Accounts {_}. Arguments g_Storage {_}. Arguments g_Delegations {_}. Arguments g_Blocks {_}.
Arguments g_RawEvmItems {_}. Arguments g_Validators {_}. Arguments g_FirstEpoch {_}. Arguments g_PrevEpochTime {_}.
Arguments g_Time {_}. Arguments g_ExtraData {_}. Arguments g_TotalSupply {_}. Arguments g_DriverOwner {_}.
Arguments g_Rules {_}. Arguments g_Hash {_}.

(** ** The state of the EVM *)

(** What the genesis uses of the state database besides [Commit]: writing accounts, and
    the trie behind it. *)
Class GenesisDB (W : Type) := {
  SetBalance : list Z → Z → W → W;
  SetCode : list Z → list Z → W → W;
  db_SetState : list Z → list Z → list Z → W → W;
  Suicide : list Z → W → W;
  TrieDB_Cap : Z → W → W;
  TrieDB_Commit : list Z → W → option error * W;
}.

Section evm_genesis.
Context {EventID W : Type} `{StateDB W} `{TxDB W Log} `{GenesisDB W} `{TrieRoots}.
Variable maxMemoryUsage : Z.

(** [capEvm]: the usage since the last commit, and the database. *)
Definition capEvm (usage : Z) (s : Z * W) : Z * W :=
  let '(mem, w) := s in
  let mem := mem + usage in
  if maxMemoryUsage <? mem then (0, TrieDB_Cap (maxMemoryUsage / 8) (Commit (Log := Log) w).2) else (mem, w).

Fixpoint apply_accounts (accounts : list (list Z * Account)) (s : Z * W) : Z * W :=
  match accounts with
  | [] => s
  | (addr, account) :: accounts' =>
      let '(mem, w) := s in
      let w := if ac_SelfDestruct account then (Commit (Log := Log) (Suicide addr w)).2 else w in
      let w := SetNonce addr (ac_Nonce account) (SetCode addr (ac_Code account) (SetBalance addr (ac_Balance account) w)) in
      apply_accounts accounts' (capEvm (1024 + len (ac_Code account)) (mem, w))
  end.

Fixpoint apply_storage (storage : list (list Z * list Z * list Z)) (s : Z * W) : Z * W :=
  match storage with
  | [] => s
  | (addr, key, value) :: storage' =>
      let '(mem, w) := s in apply_storage storage' (capEvm 512 (mem, db_SetState addr key value w))
  end.

Definition flush (w : W) : res (list Z * W) :=
  match Commit (Log := Log) w with
  | (Ok root, w) => match TrieDB_Commit root w with (Some e, _) => Err e | (None, w) => Ok (root, w) end
  | (Err e, _) => Err e
  | (Panic, _) => Panic
  end.

Definition genesisBlock (g : Genesis EventID) (root : list Z) : EvmBlock :=
  mkEvmBlock (mkEvmHeader 0 zeroHash zeroHash root (DeriveSha []) (g_Time g) zeroAddr MaxUint64 0) [].

Definition evmcore_ApplyGenesis (w : W) (g : Genesis EventID) : res EvmBlock :=
  let s := apply_storage (g_Storage g) (apply_accounts (g_Accounts g) (0, w)) in
  '(root, _) ← flush s.2;
  Ok (genesisBlock g root).
End evm_genesis.

(** ** The raw items of the EVM *)

Section raw.
Variable IdealBatchSize : Z.
Variable ValueSize : list (list Z * list Z) → Z.

Definition write_batch (batch : list (list Z * list Z)) (t : gmap (list Z) (list Z)) : gmap (list Z) (list Z) :=
  foldl (λ t kv, <[kv.1 := kv.2]> t) t batch.

Fixpoint applyRawEvmItems (items batch : list (list Z * list Z)) (t : gmap (list Z) (list Z)) : gmap (list Z) (list Z) :=
  match items with
  | [] => write_batch batch t
  | kv :: items' =>
      let batch := batch ++ [kv] in
      if IdealBatchSize <? ValueSize batch then applyRawEvmItems items' [] (write_batch batch t)
      else applyRawEvmItems items' batch t
  end.
End raw.

(** ** The internal transactions of the genesis *)

Section genesis_txs.
Context {EventID V : Type}.
Variable Pack : string → list AbiArg → list Z.
(** The addresses of the contracts. *)
Variables netinit_Address sfc_Address driverauth_Address driver_Address evmwriter_Address : list Z.

Definition netinitcall_InitializeAll (sealedEpoch totalSupply : Z) (sfcAddr driverAuthAddr driverAddr evmWriterAddr owner : list Z)
  : list Z :=
  Pack "initializeAll" [AUint sealedEpoch; AUint totalSupply; AAddress sfcAddr; AAddress driverAuthAddr; AAddress driverAddr;
    AAddress evmWriterAddr; AAddress owner].

Definition drivercall_SetGenesisValidator (v : GValidator) : list Z :=
  Pack "setGenesisValidator" [AAddress (gv_Address v); AUint (gv_ID v); ABytes (PubKey_Bytes (gv_PubKey v)); AUint (gv_Status v);
    AUint (gv_CreationEpoch v); AUint (u64 (Timestamp_Unix (gv_CreationTime v))); AUint (gv_DeactivatedEpoch v);
    AUint (u64 (Timestamp_Unix (gv_DeactivatedTime v)))].

Definition drivercall_SetGenesisDelegation (delegator : list Z) (validatorID : Z) (d : Delegation) : list Z :=
  Pack "setGenesisDelegation" [AAddress delegator; AUint validatorID; AUint (dl_Stake d); AUint (dl_LockedStake d);
    AUint (dl_LockupFromEpoch d); AUint (dl_LockupEndTime d); AUint (dl_LockupDuration d); AUint (dl_EarlyUnlockPenalty d);
    AUint (dl_Rewards d)].

Fixpoint validator_txs (GetNonce0 nonce : Z) (vs : list GValidator) : list Transaction * Z :=
  match vs with
  | [] => ([], nonce)
  | v :: vs' =>
      let '(tx, nonce) := buildTx GetNonce0 nonce (drivercall_SetGenesisValidator v) driver_Address in
      let '(txs, nonce) := validator_txs GetNonce0 nonce vs' in
      (tx :: txs, nonce)
  end.

(** An empty delegation panics. *)
Fixpoint delegation_txs (GetNonce0 nonce : Z) (ds : list (list Z * Z * Delegation)) : res (list Transaction) :=
  match ds with
  | [] => Ok []
  | (addr, toValidatorID, delegation) :: ds' =>
      if dl_Stake delegation =? 0 then Panic
      else
        let '(tx, nonce) := buildTx GetNonce0 nonce (drivercall_SetGenesisDelegation addr toValidatorID delegation) driver_Address in
        txs ← delegation_txs GetNonce0 nonce ds';
        Ok (tx :: txs)
  end.

(** [DriverTxGenesisTransactor.PopInternalTxs] *)
Definition Genesis_PopInternalTxs (g : Genesis EventID) (es : EpochState V EventID) (GetNonce0 : Z) : res (list Transaction) :=
  let calldata := netinitcall_InitializeAll (u32 (es_Epoch es - 1)) (g_TotalSupply g) sfc_Address driverauth_Address driver_Address
                    evmwriter_Address (g_DriverOwner g) in
  let '(init, nonce) := buildTx GetNonce0 MaxUint64 calldata netinit_Address in
  let '(vs, nonce) := validator_txs GetNonce0 nonce (g_Validators g) in
  ds ← delegation_txs GetNonce0 nonce (g_Delegations g);
  Ok (init :: vs ++ ds).
End genesis_txs.

(** ** The store *)

Definition ErrGenesisReverted : error := NewError "genesis transaction reverted".
Definition ErrGenesisSkipped : error := NewError "genesis transaction is skipped".

(** The store of the pipeline with the index of logs and the records of the genesis. *)
Record GStore (V EventID : Type) := mkGStore {
  gs_Store : Store V EventID;
  gs_EvmLogs : Index;
  gs_GenesisBlockIndex : option Z;
  gs_GenesisHash : option (list Z);
}.
Arguments mkGStore {V EventID}. Arguments gs_Store {V EventID}. Arguments gs_EvmLogs {V EventID}.
Arguments gs_GenesisBlockIndex {V EventID}. Arguments gs_GenesisHash {V EventID}.

Section apply.
Context {EventID : Type} `{EventIDs EventID} `{TrieRoots} {V : Type} `{Pos V}.
Context `{GasTable} {W : Type} `{StateDB W} `{EVM W} `{TxDB W Log} `{TxLib} `{GenesisDB W}.
Context `{BigEndian} `{Kvdb}.
Variable sha256 : list Z → list Z.
Variable Pack : string → list AbiArg → list Z.
Variables netinit_Address sfc_Address driverauth_Address ContractAddress evmwriter_Address : list Z.
Variable topics : Driver.Topics.
Variable json_Unmarshal : list Z → Rules → Rules + error.
Variable BigBuilder_Build : gmap Z Z → V.
Variable NoValidators : V.
(** The state database over the raw items of the genesis, and later. *)
Variable OpenGenesisDB : gmap (list Z) (list Z) → list Z → res W.
Variable OpenStateDB : list Z → res W.
Variable IdealBatchSize : Z.
Variable ValueSize : list (list Z * list Z) → Z.
(** The logs of a receipt with the fields that the state database fills in. *)
Variable FullLogs : Receipt Log → list evmLog.
Notation Store := (Store V EventID).
Notation GStore := (GStore V EventID).
Notation onNewLogAll := (OnNewLog ContractAddress topics json_Unmarshal).

(** [IndexLogs]: an error stops the node. *)
Definition IndexLogs (logs : list evmLog) (ix : Index) : res Index :=
  match Push logs ix with (Ok _, ix') => Ok ix' | _ => Panic end.

(** [for i, tx := range append(block.InternalTxs, block.Txs...)] *)
Fixpoint store_txs (blockIdx i : Z) (txs : list Transaction) (st : Store) : Store :=
  match txs with
  | [] => st
  | tx :: txs' =>
      let t := s_Tables st in
      store_txs blockIdx (i + 1) txs'
        (mkStore (s_BlockState st) (s_EpochState st)
           (mkTables (t_Blocks t) (<[tx_Hash tx := tx]> (t_Txs t)) (t_Events t) (t_EvmBlocks t))
           (s_BlockIndex st) (<[tx_Hash tx := mkTxPosition blockIdx zero_ID 0 (u32 i)]> (s_TxPositions st)) (s_Receipts st))
  end.

(** [for _, l := range r.Logs]: the fields that are not stored. *)
Fixpoint fill_logs (blockIdx : Z) (atropos : EventID) (allTxs : list Transaction) (i logIdx : Z) (logs : list Log)
  : res (list evmLog * Z) :=
  match logs with
  | [] => Ok ([], logIdx)
  | l :: logs' =>
      tx ← index allTxs i;
      '(ls, logIdx') ← fill_logs blockIdx atropos allTxs i (u64 (logIdx + 1)) logs';
      Ok (mkEvmLog (l_Address l) (l_Topics l) (l_Data l) blockIdx (tx_Hash tx) i (id_Bytes atropos) logIdx false :: ls, logIdx')
  end.

(** [for i, r := range block.Receipts] *)
Fixpoint index_receipts (blockIdx : Z) (atropos : EventID) (allTxs : list Transaction) (i logIdx : Z)
    (receipts : list (Receipt Log)) (ix : Index) : res Index :=
  match receipts with
  | [] => Ok ix
  | r :: receipts' =>
      '(logs, logIdx) ← fill_logs blockIdx atropos allTxs i logIdx (rc_Logs r);
      ix ← IndexLogs logs ix;
      index_receipts blockIdx atropos allTxs (i + 1) logIdx receipts' ix
  end.

Definition put_block (n : Z) (b : Block EventID) (receipts : option (list (Receipt Log))) (st : Store) : Store :=
  let t := s_Tables st in
  mkStore (s_BlockState st) (s_EpochState st)
    (mkTables (<[n := b]> (t_Blocks t)) (t_Txs t) (t_Events t) (t_EvmBlocks t))
    (<[id_Bytes (bl_Atropos b) := n]> (s_BlockIndex st)) (s_TxPositions st)
    (match receipts with Some rs => <[n := rs]> (s_Receipts st) | None => s_Receipts st end).

(** The body of [g.Blocks.ForEach]; the context of the highest block and its root come
    with the store. *)
Definition genesis_block (blockIdx : Z) (block : GBlock EventID) (s : Store * Index)
  : res (Store * Index) :=
  let '(st, ix) := s in
  let st := store_txs blockIdx 0 (gb_InternalTxs block ++ gb_Txs block) st in
  let gasUsed := match last (gb_Receipts block) with Some r => rc_CumulativeGasUsed r | None => 0 end in
  let receipts := if len (gb_Receipts block) =? 0 then None else Some (gb_Receipts block) in
  let allTxs := if 0 <? len (gb_InternalTxs block) then gb_InternalTxs block ++ gb_Txs block else gb_Txs block in
  ix ← index_receipts blockIdx (gb_Atropos block) allTxs 0 0 (gb_Receipts block) ix;
  Ok (put_block blockIdx
        (mkBlock (gb_Time block) (gb_Atropos block) [] (tx_Hash <$> gb_Txs block) (tx_Hash <$> gb_InternalTxs block) [] gasUsed
           (gb_Root block)) receipts st, ix).

Fixpoint genesis_blocks (blocks : list (Z * GBlock EventID)) (highestBlock : BlockCtx EventID) (startingRoot : list Z)
    (s : Store * Index) : res (BlockCtx EventID * list Z * (Store * Index)) :=
  match blocks with
  | [] => Ok (highestBlock, startingRoot, s)
  | (blockIdx, block) :: blocks' =>
      s ← genesis_block blockIdx block s;
      genesis_blocks blocks' (mkBlockCtx blockIdx (gb_Time block) (gb_Atropos block)) (gb_Root block) s
  end.

Definition evmstore_ApplyGenesis (g : Genesis EventID) (startingRoot : list Z) : res EvmBlock :=
  let t := applyRawEvmItems IdealBatchSize ValueSize (g_RawEvmItems g) [] ∅ in
  w ← OpenGenesisDB t startingRoot;
  evmcore_ApplyGenesis (128 * 2 ^ 20) w g.

Definition applyEpoch0Genesis (g : Genesis EventID) (s : Store * Index) : res (EvmBlock * (Store * Index)) :=
  '(highestBlock, startingRoot, s) ← genesis_blocks (g_Blocks g) (mkBlockCtx 0 0 zero_ID) zeroHash s;
  evmBlock ← evmstore_ApplyGenesis g startingRoot;
  Ok (evmBlock,
      (SetBlockEpochState
         (mkBlockState highestBlock (h_Root (eb_Header evmBlock)) 0 [] [] ∅ (g_Rules g) 0)
         (mkEpochState (u32 (g_FirstEpoch g - 1)) (g_PrevEpochTime g) (u64 (g_PrevEpochTime g - 1)) zeroHash NoValidators [] ∅
            (g_Rules g)) s.1, s.2)).

(** [prettyHash]: the identifier of an event that no validator made. *)
Definition prettyHash (root : list Z) (g : Genesis EventID) : res EventID :=
  e ← MutableEventPayload_Build sha256 (DeriveSha [])
        (mkMutableEventPayload (mkBaseEvent (u32 (g_FirstEpoch g - 1)) 0 0 0 1 [] zero_ID)
           (mkExtEventData (g_Time g) 0 None (replicate 32 0) (mkGasPowerLeft [0; 0]) 0 (root ++ g_ExtraData g))
           (replicate 64 0) []);
  Ok (ID (ev_base (ep_event e))).

Definition index_all (receipts : list (Receipt Log)) (ix : Index) : res Index :=
  foldl (λ r rc, ix ← r; IndexLogs (FullLogs rc) ix) (Ok ix) receipts.

Definition applyEpoch1Genesis (g : Genesis EventID) (s : GStore) : res GStore :=
  '(evmBlock0, (st, ix)) ← applyEpoch0Genesis g (gs_Store s, gs_EvmLogs s);
  statedb ← OpenStateDB (h_Root (eb_Header evmBlock0));
  let bs := s_BlockState st in
  let es := s_EpochState st in
  let blockCtx := mkBlockCtx (u64 (bc_Idx (bs_LastBlock bs) + 1)) (g_Time g) zero_ID in
  evm ← EVM_Start blockCtx statedb (GetHeader (s_Tables st)) bs;
  genesisInternalTxs ← Genesis_PopInternalTxs Pack netinit_Address sfc_Address driverauth_Address ContractAddress evmwriter_Address
                         g es (GetNonce (ep_statedb evm) zeroAddr);
  '(_, evm) ← Execute onNewLogAll evm genesisInternalTxs true;
  '(preInternalTxs, bs) ← Pre_PopInternalTxs Pack ContractAddress blockCtx (ep_listener evm) es true
                            (GetNonce (ep_statedb evm) zeroAddr);
  '(_, evm) ← Execute onNewLogAll (with_listener bs evm) preInternalTxs true;
  '(bs, es) ← SealEpoch BigBuilder_Build blockCtx (ep_listener evm) es;
  let internalTxs := Post_PopInternalTxs Pack ContractAddress es true (GetNonce (ep_statedb evm) zeroAddr) in
  '(_, evm) ← Execute onNewLogAll (with_listener bs evm) internalTxs true;
  '(evmBlock, skippedTxs, receipts, _) ← EVM_Finalize evm;
  if existsb (λ r, negb (rc_Status r)) receipts then Err ErrGenesisReverted
  else if negb (len skippedTxs =? 0) then Err ErrGenesisSkipped
  else
    let bs := set_Final (h_Root (eb_Header evmBlock)) blockCtx (ep_listener evm) in
    let st := SetBlockEpochState bs es st in
    genesisAtropos ← prettyHash (h_Root (eb_Header evmBlock)) g;
    let allTxs := genesisInternalTxs ++ preInternalTxs ++ internalTxs in
    let block := mkBlock (bc_Time blockCtx) genesisAtropos [] [] (tx_Hash <$> allTxs) skippedTxs (h_GasUsed (eb_Header evmBlock))
                   (h_Root (eb_Header evmBlock)) in
    let st := store_txs (bc_Idx blockCtx) 0 allTxs st in
    ix ← index_all receipts ix;
    Ok (mkGStore (put_block (bc_Idx blockCtx) block (if len receipts =? 0 then None else Some receipts) st) ix
          (Some (bc_Idx blockCtx)) (gs_GenesisHash s)).

Definition ApplyGenesis (g : Genesis EventID) (s : GStore) : res GStore :=
  s ← applyEpoch1Genesis g s;
  Ok (mkGStore (gs_Store s) (gs_EvmLogs s) (gs_GenesisBlockIndex s) (Some (g_Hash g))).
End apply.

(** ** Batches *)

(** Writing in batches, whatever their sizes, is writing the items in order. *)
Lemma applyRawEvmItems_spec IdealBatchSize ValueSize items batch t :
  applyRawEvmItems IdealBatchSize ValueSize items batch t = write_batch (batch ++ items) t.
Proof.
  revert batch t. induction items as [|kv items IH]; intros batch t; cbn; [by rewrite app_nil_r|].
  destruct (_ <? _); rewrite IH; unfold write_batch.
  - by rewrite !foldl_app.
  - by rewrite <- app_assoc.
Qed.

(** ** The chain *)

Section chain.
Context {EventID : Type} `{EventIDs EventID} `{TrieRoots} {V : Type} `{Pos V}.
Context `{GasTable} {W : Type} `{StateDB W} `{EVM W} `{TxDB W Log} `{TxLib} `{GenesisDB W}.
Context `{BigEndian} `{Kvdb}.
Variable sha256 : list Z → list Z.
Variable Pack : string → list AbiArg → list Z.
Variables netinit_Address sfc_Address driverauth_Address ContractAddress evmwriter_Address : list Z.
Variable topics : Driver.Topics.
Variable json_Unmarshal : list Z → Rules → Rules + error.
Variable BigBuilder_Build : gmap Z Z → V.
Variable NoValidators : V.
Variable OpenGenesisDB : gmap (list Z) (list Z) → list Z → res W.
Variable OpenStateDB : list Z → res W.
Variable SortEvents : list EventID → list EventID.
Variable txIndex : bool.
Variable IdealBatchSize : Z.
Variable ValueSize : list (list Z * list Z) → Z.
Variable FullLogs : Receipt Log → list evmLog.
Notation Store := (Store V EventID).
Notation GStore := (GStore V EventID).
Notation applyG := (ApplyGenesis sha256 Pack netinit_Address sfc_Address driverauth_Address ContractAddress evmwriter_Address
  topics json_Unmarshal BigBuilder_Build NoValidators OpenGenesisDB OpenStateDB IdealBatchSize ValueSize FullLogs).
Notation apply1 := (applyEpoch1Genesis sha256 Pack netinit_Address sfc_Address driverauth_Address ContractAddress evmwriter_Address
  topics json_Unmarshal BigBuilder_Build NoValidators OpenGenesisDB OpenStateDB IdealBatchSize ValueSize FullLogs).
Notation process := (process_block Pack ContractAddress topics json_Unmarshal BigBuilder_Build OpenStateDB SortEvents txIndex).
Notation blocks st := (t_Blocks (s_Tables st)).
Notation lastBlock st := (bs_LastBlock (s_BlockState st)).

(** The blocks from [first] to the last one are stored and no others, with increasing
    times; the last one has the time and the root of the state; from the genesis block on,
    the Atropos of a block finds the last block with that Atropos. *)
Record chain (first gidx : Z) (st : Store) : Prop := {
  ch_first : 0 <= first <= gidx;
  ch_idx : gidx <= bc_Idx (lastBlock st);
  ch_time : 0 <= bc_Time (lastBlock st);
  ch_blocks : ∀ n, is_Some (blocks st !! n) ↔ first <= n <= bc_Idx (lastBlock st);
  ch_times : ∀ n a b, blocks st !! n = Some a → blocks st !! (n + 1) = Some b → bl_Time a < bl_Time b;
  ch_last : ∃ b, blocks st !! bc_Idx (lastBlock st) = Some b ∧ bl_Time b = bc_Time (lastBlock st) ∧
    bl_Root b = bs_FinalizedStateRoot (s_BlockState st);
  ch_found : ∀ n b, gidx <= n → blocks st !! n = Some b → ∃ m b', n <= m ∧
    s_BlockIndex st !! id_Bytes (bl_Atropos b) = Some m ∧
    blocks st !! m = Some b' ∧ id_Bytes (bl_Atropos b') = id_Bytes (bl_Atropos b);
}.

(** The events, by their IDs, that consensus has confirmed: every Atropos of a block made
    after the genesis is one of them. *)
Definition made_of (gidx : Z) (conf : list (list Z)) (st : Store) : Prop :=
  ∀ n b, gidx < n → blocks st !! n = Some b → id_Bytes (bl_Atropos b) ∈ conf.

(** No two blocks made after the genesis have the same Atropos. *)
Definition atropoi_distinct (gidx : Z) (st : Store) : Prop :=
  ∀ n n' b b', gidx < n → gidx < n' → blocks st !! n = Some b → blocks st !! n' = Some b' →
    id_Bytes (bl_Atropos b) = id_Bytes (bl_Atropos b') → n = n'.

(** A block with the next number. *)
Lemma chain_extend first gidx st st' b :
  chain first gidx st → bc_Idx (lastBlock st') = bc_Idx (lastBlock st) + 1 →
  blocks st' = <[bc_Idx (lastBlock st') := b]> (blocks st) →
  bl_Time b = bc_Time (lastBlock st') → bc_Time (lastBlock st) < bc_Time (lastBlock st') →
  bl_Root b = bs_FinalizedStateRoot (s_BlockState st') →
  s_BlockIndex st' = <[id_Bytes (bl_Atropos b) := bc_Idx (lastBlock st')]> (s_BlockIndex st) →
  chain first gidx st'.
Proof.
  intros C Hidx Hb Ht Hlt Hr Hix. destruct (ch_last _ _ _ C) as (l & El & Htl & _).
  pose proof (ch_first _ _ _ C). pose proof (ch_idx _ _ _ C). pose proof (ch_time _ _ _ C).
  assert (Hne : blocks st !! (bc_Idx (lastBlock st) + 1) = None).
  { destruct (blocks st !! (bc_Idx (lastBlock st) + 1)) eqn:E; [|done].
    assert (first <= bc_Idx (lastBlock st) + 1 <= bc_Idx (lastBlock st)) by (apply (ch_blocks _ _ _ C); by rewrite E). lia. }
  split.
  - lia.
  - lia.
  - lia.
  - intros n. rewrite Hb, Hidx. destruct (decide (n = bc_Idx (lastBlock st) + 1)) as [->|Hn].
    + rewrite lookup_insert_eq. split; [lia|by eexists].
    + rewrite lookup_insert_ne by done. rewrite (ch_blocks _ _ _ C). lia.
  - intros n a a'. rewrite Hb, Hidx. intros Ea Ea'. destruct (decide (n = bc_Idx (lastBlock st) + 1)) as [->|Hn].
    + rewrite lookup_insert_ne in Ea' by lia.
      assert (first <= bc_Idx (lastBlock st) + 1 + 1 <= bc_Idx (lastBlock st)) by (apply (ch_blocks _ _ _ C); by rewrite Ea'). lia.
    + rewrite lookup_insert_ne in Ea by done. destruct (decide (n = bc_Idx (lastBlock st))) as [->|Hn'].
      * rewrite lookup_insert_eq in Ea'. injection Ea' as <-. assert (a = l) as -> by congruence. lia.
      * rewrite lookup_insert_ne in Ea' by lia. by apply (ch_times _ _ _ C n).
  - exists b. rewrite Hb, lookup_insert_eq. done.
  - assert (Hold : ∀ n a, blocks st !! n = Some a → n < bc_Idx (lastBlock st')).
    { intros n a Ea. assert (first <= n <= bc_Idx (lastBlock st)) by (apply (ch_blocks _ _ _ C); by rewrite Ea). lia. }
    intros n a Hn Ea.
    destruct (decide (id_Bytes (bl_Atropos a) = id_Bytes (bl_Atropos b))) as [Heq|Hne'].
    + exists (bc_Idx (lastBlock st')), b. rewrite Hix, Hb, Heq, !lookup_insert_eq. split_and!; try done.
      rewrite Hb in Ea. apply lookup_insert_Some in Ea as [[<- _]|[_ Ea]]; [lia|]. specialize (Hold n a Ea). lia.
    + rewrite Hb in Ea. apply lookup_insert_Some in Ea as [[_ <-]|[_ Ea]]; [done|].
      destruct (ch_found _ _ _ C n a Hn Ea) as (m & b' & Hm & Em & Eb' & Hid). exists m, b'.
      rewrite Hix, lookup_insert_ne by congruence. rewrite Hb, lookup_insert_ne; [done|].
      specialize (Hold m b' Eb'). lia.
Qed.

(** The Atropoi stay distinct while each is confirmed once. *)
Lemma made_extend first gidx conf new st st' b :
  chain first gidx st → bc_Idx (lastBlock st') = bc_Idx (lastBlock st) + 1 →
  blocks st' = <[bc_Idx (lastBlock st') := b]> (blocks st) → id_Bytes (bl_Atropos b) ∈ new →
  made_of gidx conf st → (NoDup conf → atropoi_distinct gidx st) →
  made_of gidx (conf ++ new) st' ∧ (NoDup (conf ++ new) → atropoi_distinct gidx st').
Proof.
  intros C Hidx Hb Hnew Hm Hd. unfold made_of, atropoi_distinct in *. rewrite Hb. split.
  - intros n a Hn [[_ <-]|[_ Ea]]%lookup_insert_Some; apply elem_of_app; [by right|left; by apply (Hm n)].
  - intros (Hnd & Hsep & _)%NoDup_app n n' a a' Hn Hn' Ea Ea' Heq.
    assert (Hclash : ∀ k x, gidx < k → blocks st !! k = Some x → id_Bytes (bl_Atropos x) ≠ id_Bytes (bl_Atropos b)).
    { intros k x Hk Ex Hx. apply (Hsep (id_Bytes (bl_Atropos x))); [by apply (Hm k)|by rewrite Hx]. }
    apply lookup_insert_Some in Ea as [[<- <-]|[_ Ea]]; apply lookup_insert_Some in Ea' as [[<- <-]|[_ Ea']]; [done|..].
    + by destruct (Hclash n' a').
    + by destruct (Hclash n a).
    + by apply (Hd Hnd n n' a a').
Qed.

(** A block whose Atropos no other has is found by it. *)
Lemma found_exactly first gidx st n b :
  chain first gidx st → atropoi_distinct gidx st → gidx < n → blocks st !! n = Some b →
  s_BlockIndex st !! id_Bytes (bl_Atropos b) = Some n.
Proof.
  intros C Hd Hn Eb. destruct (ch_found _ _ _ C n b ltac:(lia) Eb) as (m & b' & Hm & Em & Eb' & Hid).
  by assert (n = m) as <- by (apply (Hd n m b b'); [lia|lia|done..]).
Qed.

(** *** The blocks of the genesis *)

Lemma store_txs_keeps blockIdx i txs (st : Store) :
  blocks (store_txs blockIdx i txs st) = blocks st ∧ s_BlockState (store_txs blockIdx i txs st) = s_BlockState st ∧
  s_EpochState (store_txs blockIdx i txs st) = s_EpochState st ∧ s_BlockIndex (store_txs blockIdx i txs st) = s_BlockIndex st.
Proof.
  revert i st. induction txs as [|tx txs IH]; intros i st; [done|]. cbn [store_txs].
  match goal with |- context [store_txs _ (i + 1) _ ?st1] => destruct (IH (i + 1) st1) as (-> & -> & -> & ->) end. done.
Qed.

Lemma genesis_block_spec n b (st st' : Store) ix ix' :
  genesis_block n b (st, ix) = Ok (st', ix') →
  ∃ blk, blocks st' = <[n := blk]> (blocks st) ∧ bl_Time blk = gb_Time b ∧ bl_Root blk = gb_Root b.
Proof.
  unfold genesis_block. intros (ix1 & _ & [= <- _])%res_bind_Ok. eexists. cbn [put_block s_Tables t_Blocks].
  destruct (store_txs_keeps n 0 (gb_InternalTxs b ++ gb_Txs b) st) as (-> & _). done.
Qed.

(** The blocks of a genesis have consecutive numbers and increasing times. *)
Record genesis_ok (first : Z) (g : Genesis EventID) : Prop := {
  go_some : g_Blocks g ≠ [];
  go_first : 0 <= first;
  go_last : first + len (g_Blocks g) < 2 ^ 64;
  go_idx : ∀ i n b, g_Blocks g !! i = Some (n, b) → n = first + Z.of_nat i;
  go_times : ∀ i n b n' b', g_Blocks g !! i = Some (n, b) → g_Blocks g !! S i = Some (n', b') → gb_Time b < gb_Time b';
  go_time : 0 <= g_Time g;
  go_before : ∀ n b, (n, b) ∈ g_Blocks g → gb_Time b < g_Time g;
  go_epoch : is_u32 (g_FirstEpoch g);
}.

(** The first [k] blocks are written. *)
Definition written (first : Z) (l : list (Z * GBlock EventID)) (k : nat) (st : Store) : Prop :=
  (∀ n, is_Some (blocks st !! n) ↔ first <= n < first + Z.of_nat k) ∧
  (∀ i n b, l !! i = Some (n, b) → (i < k)%nat → ∃ blk, blocks st !! n = Some blk ∧ bl_Time blk = gb_Time b).

Lemma genesis_blocks_written first l k rest hb root (st : Store) ix r :
  (∀ i n b, l !! i = Some (n, b) → n = first + Z.of_nat i) → l = take k l ++ rest → (k <= length l)%nat →
  written first l k st → genesis_blocks rest hb root (st, ix) = Ok r →
  ∃ st' ix', r.2 = (st', ix') ∧ written first l (length l) st' ∧
    (rest ≠ [] → bc_Idx r.1.1 = first + len l - 1 ∧ 0 < len l).
Proof.
  intros Hidx. revert k hb root st ix. induction rest as [|[n b] rest IH]; intros k hb root st ix Hl Hk [Hs Hw] E; cbn in E.
  - injection E as <-. exists st, ix. split; [done|]. split; [|done]. rewrite app_nil_r in Hl.
    assert (k = length l) as <-; [|done]. apply (f_equal length) in Hl. rewrite length_take in Hl. lia.
  - apply res_bind_Ok in E as ([st1 ix1] & E1 & E). destruct (genesis_block_spec _ _ _ _ _ _ E1) as (blk & Hb & Ht & _).
    assert (Hk' : l !! k = Some (n, b)).
    { rewrite Hl. rewrite lookup_app_r by (rewrite length_take; lia). rewrite length_take, Nat.min_l by lia. by rewrite Nat.sub_diag. }
    pose proof (Hidx k n b Hk') as ->. pose proof (lookup_lt_Some _ _ _ Hk') as Hlt.
    edestruct (IH (S k)) as (st' & ix' & Er & Hw' & Hrest); [| |split|exact E|].
    + rewrite (take_S_r _ _ _ Hk'), <- app_assoc. exact Hl.
    + lia.
    + intros m. rewrite Hb. destruct (decide (m = first + Z.of_nat k)) as [->|Hm].
      * rewrite lookup_insert_eq. split; [lia|by eexists].
      * rewrite lookup_insert_ne by done. rewrite Hs. lia.
    + intros i n' b' Hi Hik. rewrite Hb. pose proof (Hidx i n' b' Hi) as ->. destruct (decide (i = k)) as [->|Hne].
      * rewrite lookup_insert_eq. exists blk. split; [done|]. congruence.
      * rewrite lookup_insert_ne by lia. apply (Hw i _ b'); [done|lia].
    + exists st', ix'. split; [done|]. split; [done|]. intros _. destruct rest as [|x rest]; [|by apply Hrest].
      cbn in E. injection E as <-. cbn. apply (f_equal length) in Hl. rewrite length_app, length_take in Hl. cbn in Hl. unfold len. lia.
Qed.

Lemma applyEpoch0Genesis_inv first g (st st' : Store) ix ix' eb :
  genesis_ok first g → blocks st = ∅ →
  applyEpoch0Genesis NoValidators OpenGenesisDB IdealBatchSize ValueSize g (st, ix) = Ok (eb, (st', ix')) →
  written first (g_Blocks g) (length (g_Blocks g)) st' ∧ bc_Idx (lastBlock st') = first + len (g_Blocks g) - 1 ∧
  es_Epoch (s_EpochState st') = u32 (g_FirstEpoch g - 1).
Proof.
  intros Hg Hb. unfold applyEpoch0Genesis. intros ([[hb root] s1] & E1 & E)%res_bind_Ok.
  apply res_bind_Ok in E as (eb1 & _ & [= _ <- _]).
  assert (Hw0 : written first (g_Blocks g) 0 st).
  { split; [|intros; lia]. intros n. rewrite Hb, lookup_empty. split; [by intros []|lia]. }
  destruct (genesis_blocks_written first (g_Blocks g) 0 (g_Blocks g) (mkBlockCtx 0 0 zero_ID) zeroHash st ix _ (go_idx _ _ Hg) eq_refl
    (Nat.le_0_l _) Hw0 E1) as (st1 & ix1 & Es & Hw & Hr).
  cbn [snd fst] in *. subst s1. destruct (Hr (go_some _ _ Hg)) as [Hi _]. cbn. split; [done|]. split; [exact Hi|done].
Qed.

(** What a genesis that was applied leaves. *)
Lemma applyEpoch1Genesis_inv first g (s s' : GStore) :
  genesis_ok first g → blocks (gs_Store s) = ∅ → apply1 g s = Ok s' →
  ∃ (st1 : Store) b, written first (g_Blocks g) (length (g_Blocks g)) st1 ∧
    let n := first + len (g_Blocks g) in
    blocks (gs_Store s') = <[n := b]> (blocks st1) ∧ bl_Time b = g_Time g ∧
    bs_LastBlock (s_BlockState (gs_Store s')) = mkBlockCtx n (g_Time g) zero_ID ∧
    bl_Root b = bs_FinalizedStateRoot (s_BlockState (gs_Store s')) ∧
    s_BlockIndex (gs_Store s') !! id_Bytes (bl_Atropos b) = Some n ∧
    gs_GenesisBlockIndex s' = Some n ∧
    es_Epoch (s_EpochState (gs_Store s')) = g_FirstEpoch g ∧ es_EpochStart (s_EpochState (gs_Store s')) = g_Time g.
Proof.
  intros Hg Hb. unfold applyEpoch1Genesis. intros ([eb0 [st1 ix1]] & E0 & E)%res_bind_Ok.
  destruct (applyEpoch0Genesis_inv _ _ _ _ _ _ _ Hg Hb E0) as (Hw & Hlast & Hep). exists st1.
  pose proof (go_last _ _ Hg) as Hl. pose proof (go_first _ _ Hg) as Hf. pose proof (len_nonneg (g_Blocks g)).
  rewrite Hlast, (u64_id (_ + 1)) in E by (unfold is_u64; destruct (g_Blocks g) eqn:Eg; [by destruct (go_some _ _ Hg)|unfold len in *; cbn [length] in *; lia]).
  replace (first + len (g_Blocks g) - 1 + 1) with (first + len (g_Blocks g)) in E by lia.
  set (n := first + len (g_Blocks g)) in *.
  apply res_bind_Ok in E as (w & _ & E). apply res_bind_Ok in E as (p0 & _ & E). apply res_bind_Ok in E as (gtxs & _ & E).
  apply res_bind_Ok in E as ([rs1 p1] & _ & E). apply res_bind_Ok in E as ([ptxs bs1] & _ & E).
  apply res_bind_Ok in E as ([rs2 p2] & _ & E). apply res_bind_Ok in E as ([bs2 es2] & Eseal & E).
  apply res_bind_Ok in E as ([rs3 p3] & _ & E). apply res_bind_Ok in E as ([[[evmb sk] rcs] w3] & _ & E).
  destruct (existsb _ rcs); [done|]. destruct (negb _); [done|].
  apply res_bind_Ok in E as (atr & _ & E). apply res_bind_Ok in E as (ix2 & _ & [= <-]).
  unfold SealEpoch in Eseal. apply res_bind_Ok in Eseal as (states & _ & [= _ <-]).
  cbn [gs_Store put_block s_Tables t_Blocks s_BlockState s_EpochState s_BlockIndex gs_GenesisBlockIndex bc_Idx bc_Time].
  match goal with |- context [store_txs n 0 ?l ?st2] => destruct (store_txs_keeps n 0 l st2) as (-> & -> & -> & _) end.
  eexists. split; [exact Hw|].
  split; [reflexivity|]. split; [done|]. split; [done|]. split; [done|]. split; [apply lookup_insert_eq|].
  split; [done|]. split; [|done]. cbn [s_EpochState SetBlockEpochState es_Epoch]. rewrite Hep.
  pose proof (go_epoch _ _ Hg) as Hu. clear -Hu. go_lia.
Qed.

Lemma genesis_chain first g (s s' : GStore) :
  genesis_ok first g → blocks (gs_Store s) = ∅ → applyG g s = Ok s' → chain first (first + len (g_Blocks g)) (gs_Store s').
Proof.
  intros Hg Hb. unfold ApplyGenesis. intros (s1 & E & [= <-])%res_bind_Ok. cbn [gs_Store].
  destruct (applyEpoch1Genesis_inv _ _ _ _ Hg Hb E) as (st1 & b & [Hs Hw] & Hbs & Ht & Hlast & Hr & Hix & _).
  set (n := first + len (g_Blocks g)) in *. pose proof (go_first _ _ Hg). pose proof (len_nonneg (g_Blocks g)).
  assert (Hn : n = first + Z.of_nat (length (g_Blocks g))) by done.
  split; rewrite ?Hlast; cbn [bc_Idx bc_Time].
  - lia.
  - lia.
  - apply (go_time _ _ Hg).
  - intros m. rewrite Hbs. destruct (decide (m = n)) as [->|Hm].
    + rewrite lookup_insert_eq. split; [lia|by eexists].
    + rewrite lookup_insert_ne by done. rewrite Hs. lia.
  - assert (Hget : ∀ m, first <= m < n → ∃ i k gb, i = Z.to_nat (m - first) ∧ g_Blocks g !! i = Some (k, gb) ∧
      ∃ blk, blocks st1 !! m = Some blk ∧ bl_Time blk = gb_Time gb).
    { intros m Hm. destruct (lookup_lt_is_Some_2 (g_Blocks g) (Z.to_nat (m - first))) as [[k gb] Ek]; [lia|].
      exists (Z.to_nat (m - first)), k, gb. split; [done|]. split; [done|].
      pose proof (go_idx _ _ Hg _ _ _ Ek) as Hk. rewrite Z2Nat.id in Hk by lia. replace (first + (m - first)) with m in Hk by lia.
      subst k. apply (Hw _ _ _ Ek). lia. }
    intros m a a'. rewrite Hbs. intros Ea Ea'. assert (Hm : m ≠ n).
    { intros ->. rewrite lookup_insert_ne in Ea' by lia. assert (first <= n + 1 < first + Z.of_nat (length (g_Blocks g))) by (apply Hs; by rewrite Ea'). lia. }
    rewrite lookup_insert_ne in Ea by done.
    assert (Hmr : first <= m < n) by (rewrite Hn; apply Hs; by rewrite Ea).
    destruct (Hget m Hmr) as (i & k & gb & Hi & Ek & blk & Eb & Hbt). assert (a = blk) as -> by congruence.
    destruct (decide (m + 1 = n)) as [Heq|Hne].
    + rewrite Heq, lookup_insert_eq in Ea'. injection Ea' as <-. rewrite Ht, Hbt. apply (go_before _ _ Hg k gb). by eapply list_elem_of_lookup_2.
    + rewrite lookup_insert_ne in Ea' by done. destruct (Hget (m + 1)) as (i' & k' & gb' & Hi' & Ek' & blk' & Eb' & Hbt'); [lia|].
      assert (a' = blk') as -> by congruence. rewrite Hbt, Hbt'. apply (go_times _ _ Hg i k gb k' gb' Ek).
      replace (S i) with i' by lia. done.
  - exists b. rewrite Hbs, lookup_insert_eq. done.
  - intros m a Hm. rewrite Hbs. intros [[<- <-]|[Hne Ea]]%lookup_insert_Some;
      [exists n, b; rewrite lookup_insert_eq; done|].
    assert (first <= m < first + Z.of_nat (length (g_Blocks g))) by (apply Hs; by rewrite Ea). lia.
Qed.

(** The stores of a node, with the IDs of the events that consensus has confirmed for it
    so far: the genesis, then blocks of the pipeline with other writes of the tables
    between them.  Any event may be the Atropos of any block, an earlier Atropos too. *)
Inductive reachable (g : Genesis EventID) (s0 : GStore) : list (list Z) → Store → Prop :=
  | reach_genesis s : applyG g s0 = Ok s → reachable g s0 [] (gs_Store s)
  | reach_tables conf st t : reachable g s0 conf st → t_Blocks t = blocks st → reachable g s0 conf (SetTables t st)
  | reach_block conf st cBlock evs nv st' :
      reachable g s0 conf st → bc_Idx (lastBlock st) + 1 < 2 ^ 64 → bc_Time (lastBlock st) + 1 < 2 ^ 64 →
      process cBlock evs st = Ok (nv, st') →
      reachable g s0 (conf ++ ((λ e, id_Bytes (ID (ev_base e))) <$> evs)) st'.

Lemma reachable_chain first g s0 conf st :
  genesis_ok first g → blocks (gs_Store s0) = ∅ → reachable g s0 conf st →
  let gidx := first + len (g_Blocks g) in
  chain first gidx st ∧ made_of gidx conf st ∧ (NoDup conf → atropoi_distinct gidx st).
Proof.
  intros Hg Hb Hr gidx. induction Hr as [s E|conf st t Hr (C & M & D) Ht|conf st cBlock evs nv st' Hr (C & M & D) Hi Ht E].
  - assert (C := genesis_chain _ _ _ _ Hg Hb E). fold gidx in C.
    assert (Hno : ∀ n b, gidx < n → blocks (gs_Store s) !! n ≠ Some b).
    { intros n b Hn Eb. pose proof E as E'. unfold ApplyGenesis in E'. apply res_bind_Ok in E' as (s1 & E1 & [= <-]).
      destruct (applyEpoch1Genesis_inv _ _ _ _ Hg Hb E1) as (_ & _ & _ & _ & _ & Hlast & _).
      assert (first <= n <= bc_Idx (lastBlock (gs_Store s1))) by (apply (ch_blocks _ _ _ C); by rewrite Eb).
      rewrite Hlast in *. cbn in *. lia. }
    split; [done|]. split; [|intros _].
    + intros n b Hn Eb. by destruct (Hno n b).
    + intros n n' b b' Hn _ Eb. by destruct (Hno n b).
  - unfold made_of, atropoi_distinct. cbn [SetTables s_Tables]. rewrite Ht. split_and!; [|done..].
    destruct C. split; cbn [SetTables s_Tables s_BlockState s_BlockIndex]; by rewrite ?Ht.
  - pose proof (ch_first _ _ _ C). pose proof (ch_idx _ _ _ C). pose proof (ch_time _ _ _ C).
    destruct (block_step _ _ _ _ _ _ _ _ _ _ _ _ _ Hi ltac:(lia) ltac:(lia) Ht E)
      as [(Hl & Htb & Hix & _ & _ & _ & Hroot & _)|(Hidx & Hlt & Hatr & (e & He & Hid & _) & _ & (b & Hbs & Hbt & Hba & Hbr) & Hix)].
    + unfold made_of, atropoi_distinct. rewrite Htb. split_and!.
      * destruct C. split; rewrite ?Hl, ?Htb, ?Hix, ?Hroot; done.
      * intros n b Hn Eb. apply elem_of_app. left. by apply (M n).
      * intros (Hnd & _)%NoDup_app. by apply D.
    + split; [by eapply chain_extend; [exact C|exact Hidx|exact Hbs|exact Hbt|exact Hlt|exact Hbr|rewrite Hba]|].
      eapply made_extend; [exact C|exact Hidx|exact Hbs| |done|done].
      rewrite Hba, Hatr, <- Hid. by apply (list_elem_of_fmap_2 (λ e, id_Bytes (ID (ev_base e)))).
Qed.

End chain.

(** ** A concrete genesis: one earlier block, one validator, one delegation *)

#[global] Instance demo_genesis_db : GenesisDB DemoWorld := {
  SetBalance a v w := mkDemo ((a, v) :: dw_balance w) (dw_nonce w);
  SetCode _ _ w := w;
  db_SetState _ _ _ w := w;
  Suicide _ w := w;
  TrieDB_Cap _ w := w;
  TrieDB_Commit _ w := (None, w);
}.

Lemma no_pairs_ok : pairs_ok [].
Proof. split; [constructor|]. split; [constructor|done]. Qed.
Definition no_group : Group := dexist [] no_pairs_ok.

Definition demo_gblock : GBlock Hash := mkGBlock (10 * Second) (demo_atropos 1) [] [] (replicate 32 5) [].

Definition demo_genesis : Genesis Hash :=
  mkGenesis [(replicate 20 3, mkAccount [] 500 0 false)] [] [(replicate 20 3, 1, mkDelegation 100 0 0 0 0 0 0)] [(0, demo_gblock)]
    [([1], [2])] [mkGValidator 1 (replicate 20 3) (mkPubKey 192 (replicate 65 1)) 0 0 0 0 0] 2 (19 * Second) (20 * Second) [7] 600
    (replicate 20 3) MainNetRules (replicate 32 9).

Definition demo_empty : GStore Group Hash :=
  mkGStore (mkStore demo_pbs demo_es (mkTables ∅ ∅ ∅ ∅) ∅ ∅ ∅) (mkIndex ∅ ∅) None None.

Notation demo_apply := (ApplyGenesis demo_sha256 demo_Pack (replicate 20 14) (replicate 20 15) (replicate 20 16) demo_driver (replicate 20 17)
  demo_topics demo_json (λ _, demo_group) no_group (λ _ _, Ok demo_world) (λ _, Ok demo_world) 100 len (λ _, [])).

Definition demo_started : GStore Group Hash := ok_or demo_empty (demo_apply demo_genesis demo_empty).

Lemma demo_started_Ok : demo_apply demo_genesis demo_empty = Ok demo_started.
Proof. apply ok_or_eq. vm_compute. reflexivity. Qed.

(** An event with a transaction arrives, and a block with it. *)
Definition with_event (st : Store Group Hash) : Store Group Hash :=
  let t := s_Tables st in
  SetTables (mkTables (t_Blocks t) (t_Txs t) {[ id_Bytes (demo_bid 9) := demo_e1_payload ]} (t_EvmBlocks t)) st.
Definition demo_ready : Store Group Hash := with_event (gs_Store demo_started).

Lemma with_event_tables st : ∃ t, with_event st = SetTables t st ∧ t_Blocks t = t_Blocks (s_Tables st).
Proof. eexists. split; reflexivity. Qed.

Notation demo_block := (process_block demo_Pack demo_driver demo_topics demo_json (λ _, demo_group) (λ _, Ok demo_world)
  (λ l, l) true demo_cblk [demo_e1; demo_e2] demo_ready).

Definition demo_grown : option Group * Store Group Hash := ok_or (None, demo_ready) demo_block.

Lemma demo_grown_Ok : demo_block = Ok (demo_grown.1, demo_grown.2).
Proof.
  assert (E : is_Ok demo_block = true) by (vm_compute; reflexivity).
  pose proof (ok_or_eq (None, demo_ready) demo_block E) as Hp. fold demo_grown in Hp.
  rewrite (surjective_pairing demo_grown) in Hp. exact Hp.
Qed.

Lemma demo_genesis_ok : genesis_ok 0 demo_genesis.
Proof.
  split; try done.
  - intros [|i] n b; cbn; [by intros [= <- <-]|done].
  - intros n b [[= -> ->]|Hin]%elem_of_cons; [done|by apply elem_of_nil in Hin].
Qed.

(** The same Atropos again: its event was confirmed before and is not delivered. *)
Notation demo_block_again := (process_block demo_Pack demo_driver demo_topics demo_json (λ _, demo_group) (λ _, Ok demo_world)
  (λ l, l) true demo_cblk [] demo_grown.2).

Definition demo_skipped : option Group * Store Group Hash := ok_or (None, demo_ready) demo_block_again.

Lemma demo_skipped_Ok : demo_block_again = Ok (demo_skipped.1, demo_skipped.2).
Proof.
  assert (E : is_Ok demo_block_again = true) by (vm_compute; reflexivity).
  pose proof (ok_or_eq (None, demo_ready) demo_block_again E) as Hp. fold demo_skipped in Hp.
  rewrite (surjective_pairing demo_skipped) in Hp. exact Hp.
Qed.

Lemma demo_ready_tables :
  ∃ t, demo_ready = SetTables t (gs_Store demo_started) ∧ t_Blocks t = t_Blocks (s_Tables (gs_Store demo_started)).
Proof. exact (with_event_tables (gs_Store demo_started)). Qed.

#[local] Opaque demo_started demo_ready demo_grown demo_skipped.

