(* ===== verification/Peer.v ===== *)
(** * Peers (gossip/peer.go)

    A peer keeps what the remote node is known to have, its progress, and a queue of items
    to send that a semaphore bounds.  The queue is also modelled with the goroutines that
    use it, one step per operation on the semaphore or the channel. *)

From S2P Require Import Prelude Cser Inter Instances Heap EvmBlock.

(** ** Libraries *)

(** [mapset.Set.Pop]: some element, none of the empty set. *)
Class SetPop (A : Type) `{Countable A} := { pop_choice : gset A → option A }.
Class SetPopLaws (A : Type) `{SetPop A} := {
  pop_choice_empty : pop_choice ∅ = None;
  pop_choice_elem : ∀ X : gset A, X ≠ ∅ → ∃ x, x ∈ X ∧ pop_choice X = Some x;
}.

(** [dag.Metric] and [datasemaphore.DataSemaphore]: what is being processed, within a
    limit.  An acquisition may time out; after a termination the limit is zero. *)
Record Metric := mkMetric { m_Num : Z; m_Size : Z }.

Class Semaphore (S : Type) := {
  sem_processing : S → Metric;
  sem_limit : S → Metric;
  sem_TryAcquire : Metric → S → bool * S;
  sem_Acquire : Metric → S → bool * S;
  sem_Release : Metric → S → S;
  sem_Terminate : S → S;
}.

(** [dagstream.Request] and [dagstream.Response]. *)
Class DagStream := {
  StreamRequest : Type;
  StreamResponse : Type;
  request_Limit : StreamRequest → Metric;
}.

Definition metric_add (a b : Metric) : Metric := mkMetric (m_Num a + m_Num b) (m_Size a + m_Size b).
Definition metric_sub (a b : Metric) : Metric := mkMetric (m_Num a - m_Num b) (m_Size a - m_Size b).
Definition metric_le (a b : Metric) : Prop := m_Num a <= m_Num b ∧ m_Size a <= m_Size b.

Definition acquired {S} `{Semaphore S} (w : Metric) (s : S) (r : bool * S) : Prop :=
  sem_limit r.2 = sem_limit s ∧
  if r.1 then sem_processing r.2 = metric_add (sem_processing s) w ∧ metric_le (sem_processing r.2) (sem_limit s)
  else sem_processing r.2 = sem_processing s.

Class SemaphoreLaws (S : Type) `{Semaphore S} := {
  sem_TryAcquire_spec : ∀ w s, acquired w s (sem_TryAcquire w s);
  sem_Acquire_spec : ∀ w s, acquired w s (sem_Acquire w s);
  sem_Release_spec : ∀ w s, metric_le w (sem_processing s) →
    sem_limit (sem_Release w s) = sem_limit s ∧ sem_processing (sem_Release w s) = metric_sub (sem_processing s) w;
  sem_Terminate_spec : ∀ s, sem_limit (sem_Terminate s) = mkMetric 0 0 ∧ sem_processing (sem_Terminate s) = sem_processing s;
}.

(** ** Data *)

(** Message codes (protocol.go). *)
Definition HandshakeMsg : Z := 0.
Definition ProgressMsg : Z := 1.
Definition EvmTxsMsg : Z := 2.
Definition NewEvmTxHashesMsg : Z := 3.
Definition GetEvmTxsMsg : Z := 4.
Definition NewEventIDsMsg : Z := 5.
Definition GetEventsMsg : Z := 6.
Definition EventsMsg : Z := 7.
Definition RequestEventsStream : Z := 8.
Definition EventsStreamResponse : Z := 9.
Definition protocolMaxMsgSize : Z := 10 * 1024 * 1024.

Inductive errCode :=
  | ErrMsgTooLarge | ErrDecode | ErrInvalidMsgCode | ErrProtocolVersionMismatch | ErrNetworkIDMismatch
  | ErrGenesisMismatch | ErrNoStatusMsg | ErrExtraStatusMsg | ErrSuspendedPeer | ErrEmptyMessage.

(** [errorToString] *)
Definition errCode_String (c : errCode) : string :=
  match c with
  | ErrMsgTooLarge => "Message too long"
  | ErrDecode => "Invalid message"
  | ErrInvalidMsgCode => "Invalid message code"
  | ErrProtocolVersionMismatch => "Protocol version mismatch"
  | ErrNetworkIDMismatch => "NetworkId mismatch"
  | ErrGenesisMismatch => "Genesis object mismatch"
  | ErrNoStatusMsg => "No status message"
  | ErrExtraStatusMsg => "Extra status message"
  | ErrSuspendedPeer => "Suspended peer"
  | ErrEmptyMessage => "Empty message"
  end.

(** The text after the code is left out. *)
Definition errResp (code : errCode) : error := NewError (errCode_String code).

Definition errClosed : error := NewError "peer set is closed".
Definition errAlreadyRegistered : error := NewError "peer is already registered".
Definition errNotRegistered : error := NewError "peer is not registered".

Definition softResponseLimitSize : Z := 2 * 1024 * 1024.
Definition softLimitItems : Z := 250.
Definition hardLimitItems : Z := softLimitItems * 4.

Record PeerProgress (EventID : Type) := mkPeerProgress {
  pp_Epoch : Z;
  pp_LastBlockIdx : Z;
  pp_LastBlockAtropos : EventID;
  pp_HighestLamport : Z;
}.
Arguments mkPeerProgress {_}. Arguments pp_Epoch {_}. Arguments pp_LastBlockIdx {_}.
Arguments pp_LastBlockAtropos {_}. Arguments pp_HighestLamport {_}.

Definition PeerProgress_Less {EventID} (a b : PeerProgress EventID) : bool :=
  if negb (pp_Epoch a =? pp_Epoch b) then pp_Epoch a <? pp_Epoch b else pp_LastBlockIdx a <? pp_LastBlockIdx b.

Record handshakeData := mkHandshake { hs_ProtocolVersion : Z; hs_NetworkID : Z; hs_Genesis : list Z }.

Record PeerCacheConfig := mkPeerCacheConfig {
  MaxKnownTxs : Z;
  MaxKnownEvents : Z;
  MaxQueuedItems : Z;
  MaxQueuedSize : Z;
}.

Record broadcastItem := mkItem { bi_Code : Z; bi_Raw : list Z }.

Definition memSize (v : list Z) : Metric := mkMetric 1 (u64 (len v + 1024)).

(** What messages carry. *)
Inductive Payload (EventID : Type) `{DagStream} :=
  | PTxs (txs : list Transaction)
  | PTxHashes (txids : list (list Z))
  | PEventIDs (ids : list EventID)
  | PEvents (events : list (EventPayload EventID))
  | PRawEvents (events : list (list Z))
  | PProgress (progress : PeerProgress EventID)
  | PHandshake (h : handshakeData)
  | PRequest (r : StreamRequest)
  | PResponse (r : StreamResponse).
Arguments PTxs {_ _}. Arguments PTxHashes {_ _}. Arguments PEventIDs {_ _}. Arguments PEvents {_ _}. Arguments PRawEvents {_ _}.
Arguments PProgress {_ _}. Arguments PHandshake {_ _}. Arguments PRequest {_ _}. Arguments PResponse {_ _}.

Record epochChunk (EventID : Type) := mkChunk {
  ch_SessionID : Z;
  ch_Done : bool;
  ch_IDs : list EventID;
  ch_Events : list (EventPayload EventID);
}.
Arguments mkChunk {_}. Arguments ch_SessionID {_}. Arguments ch_Done {_}. Arguments ch_IDs {_}. Arguments ch_Events {_}.

(** [p2p.Msg]; [msg.Decode] by the type that is decoded. *)
Record Msg := mkMsg { msg_Code : Z; msg_Size : Z; msg_Payload : list Z }.

Class MsgDecode (EventID : Type) `{DagStream} := {
  decode_handshake : list Z → option handshakeData;
  decode_progress : list Z → option (PeerProgress EventID);
  decode_txs : list Z → option (list Transaction);
  decode_hashes : list Z → option (list (list Z));
  decode_ids : list Z → option (list EventID);
  decode_events : list Z → option (list (EventPayload EventID));
  decode_request : list Z → option StreamRequest;
  decode_chunk : list Z → option (epochChunk EventID);
}.

Record peer (EventID S : Type) `{Countable EventID} := mkPeer {
  p_id : string;
  p_cfg : PeerCacheConfig;
  p_version : Z;
  p_knownTxs : gset (list Z);
  p_knownEvents : gset EventID;
  p_queue : list broadcastItem;
  p_semaphore : S;
  p_term : bool;
  p_progress : PeerProgress EventID;
}.
Arguments mkPeer {EventID S _ _}. Arguments p_id {EventID S _ _}. Arguments p_cfg {EventID S _ _}. Arguments p_version {EventID S _ _}.
Arguments p_knownTxs {EventID S _ _}. Arguments p_knownEvents {EventID S _ _}. Arguments p_queue {EventID S _ _}.
Arguments p_semaphore {EventID S _ _}. Arguments p_term {EventID S _ _}. Arguments p_progress {EventID S _ _}.

(** A reference to a peer. *)
Notation PeerRef := nat (only parsing).

Section peers.
Context {EventID : Type} `{EventIDs EventID} `{!Countable EventID} {S : Type} `{Semaphore S} `{TxLib} `{MapRange} `{MsgDecode EventID}.
Context `{!SetPop (list Z)} `{!SetPop EventID}.
Variable tx_Size : Transaction → Z.
(** [rlp.EncodeToBytes]; it fails on values that have no encoding. *)
Variable rlp_Encode : Payload EventID → option (list Z).
(** Which case a select takes when the queue has room and the peer is closed. *)
Variable select_term : broadcastItem → bool.
(** The errors of the connection. *)
Variable p2p_Send : Z → Payload EventID → option error.
Notation peer := (peer EventID S).

Definition set_knownTxs (x : gset (list Z)) (p : peer) : peer :=
  mkPeer (p_id p) (p_cfg p) (p_version p) x (p_knownEvents p) (p_queue p) (p_semaphore p) (p_term p) (p_progress p).
Definition set_knownEvents (x : gset EventID) (p : peer) : peer :=
  mkPeer (p_id p) (p_cfg p) (p_version p) (p_knownTxs p) x (p_queue p) (p_semaphore p) (p_term p) (p_progress p).
Definition set_queue (x : list broadcastItem) (p : peer) : peer :=
  mkPeer (p_id p) (p_cfg p) (p_version p) (p_knownTxs p) (p_knownEvents p) x (p_semaphore p) (p_term p) (p_progress p).
Definition set_semaphore (x : S) (p : peer) : peer :=
  mkPeer (p_id p) (p_cfg p) (p_version p) (p_knownTxs p) (p_knownEvents p) (p_queue p) x (p_term p) (p_progress p).
Definition SetProgress (x : PeerProgress EventID) (p : peer) : peer :=
  mkPeer (p_id p) (p_cfg p) (p_version p) (p_knownTxs p) (p_knownEvents p) (p_queue p) (p_semaphore p) (p_term p) x.
Definition peer_close (p : peer) : peer :=
  mkPeer (p_id p) (p_cfg p) (p_version p) (p_knownTxs p) (p_knownEvents p) (p_queue p) (sem_Terminate (p_semaphore p)) true
    (p_progress p).

Record PeerInfo := mkPeerInfo { pi_Version : Z; pi_Epoch : Z; pi_NumOfBlocks : Z }.
Definition Info (p : peer) : PeerInfo :=
  mkPeerInfo (p_version p) (pp_Epoch (p_progress p)) (pp_LastBlockIdx (p_progress p)).

Definition NewPeer (version : Z) (id : string) (cfg : PeerCacheConfig) (semaphore : Metric → S) : peer :=
  mkPeer id cfg version ∅ ∅ [] (semaphore (mkMetric (MaxQueuedItems cfg) (MaxQueuedSize cfg))) false
    (mkPeerProgress 0 0 zero_ID 0).

Definition InterestedIn (h : EventID) (p : peer) : bool :=
  let e := id_Epoch h in
  negb (e =? 0) && negb (pp_Epoch (p_progress p) =? 0) &&
  ((e =? pp_Epoch (p_progress p)) || (e =? u32 (pp_Epoch (p_progress p) + 1))) &&
  negb (bool_decide (h ∈ p_knownEvents p)).

(** *** What a peer is known to have *)

(** [for set.Cardinality() >= max { set.Pop() }]; no result when it does not end. *)
Fixpoint pop_to {A} `{SetPop A} (fuel : nat) (max : Z) (X : gset A) : option (gset A) :=
  if Z.of_nat (size X) <? max then Some X
  else
    match fuel with
    | O => None
    | Datatypes.S fuel' => pop_to fuel' max (match pop_choice X with Some x => X ∖ {[x]} | None => X end)
    end.

Definition shrink {A} `{SetPop A} (max : Z) (X : gset A) : option (gset A) := pop_to (size X) max X.

Definition MarkEvent (id : EventID) (p : peer) : option peer :=
  X ← shrink (MaxKnownEvents (p_cfg p)) (p_knownEvents p);
  Some (set_knownEvents ({[id]} ∪ X) p).

Definition MarkTransaction (id : list Z) (p : peer) : option peer :=
  X ← shrink (MaxKnownTxs (p_cfg p)) (p_knownTxs p);
  Some (set_knownTxs ({[id]} ∪ X) p).

(** All are added, then the set is shrunk. *)
Definition mark_txs (ids : list (list Z)) (p : peer) : option peer :=
  X ← shrink (MaxKnownTxs (p_cfg p)) (list_to_set ids ∪ p_knownTxs p);
  Some (set_knownTxs X p).

Definition mark_events (ids : list EventID) (p : peer) : option peer :=
  X ← shrink (MaxKnownEvents (p_cfg p)) (list_to_set ids ∪ p_knownEvents p);
  Some (set_knownEvents X p).

(** The set is shrunk after each. *)
Fixpoint mark_events_each (ids : list EventID) (p : peer) : option peer :=
  match ids with
  | [] => Some p
  | id :: ids' => p ← mark_events [id] p; mark_events_each ids' p
  end.

(** *** The queue *)

Definition room (p : peer) : bool := len (p_queue p) <? MaxQueuedItems (p_cfg p).

(** Whether the item was queued. *)
Definition asyncSendEncodedItem (raw : list Z) (code : Z) (p : peer) : bool * peer :=
  let '(ok, sem) := sem_TryAcquire (memSize raw) (p_semaphore p) in
  let p := set_semaphore sem p in
  if negb ok then (false, p)
  else
    let item := mkItem code raw in
    if room p && negb (p_term p && select_term item) then (true, set_queue (p_queue p ++ [item]) p)
    else (false, set_semaphore (sem_Release (memSize raw) sem) p).

Definition asyncSendNonEncodedItem (value : Payload EventID) (code : Z) (p : peer) : bool * peer :=
  match rlp_Encode value with
  | None => (false, p)
  | Some raw => asyncSendEncodedItem raw code p
  end.

(** No result while it waits for room. *)
Definition enqueueSendEncodedItem (raw : list Z) (code : Z) (p : peer) : option peer :=
  let '(ok, sem) := sem_Acquire (memSize raw) (p_semaphore p) in
  let p := set_semaphore sem p in
  if negb ok then Some p
  else
    let item := mkItem code raw in
    if room p && negb (p_term p && select_term item) then Some (set_queue (p_queue p ++ [item]) p)
    else if p_term p then Some (set_semaphore (sem_Release (memSize raw) sem) p)
    else None.

Definition enqueueSendNonEncodedItem (value : Payload EventID) (code : Z) (p : peer) : option peer :=
  match rlp_Encode value with
  | None => Some p
  | Some raw => enqueueSendEncodedItem raw code p
  end.

(** One round of the [broadcast] goroutine: the item that is sent. *)
Definition broadcast_one (p : peer) : option (broadcastItem * peer) :=
  match p_queue p with
  | [] => None
  | item :: queue =>
      Some (item, set_semaphore (sem_Release (memSize (bi_Raw item)) (p_semaphore p)) (set_queue queue p))
  end.

(** *** Transactions *)

(** How many transactions the inner loop takes. *)
Fixpoint take_batch (i batchSize : Z) (txs : list Transaction) : nat :=
  match txs with
  | [] => 0
  | tx :: txs' =>
      let batchSize := batchSize + tx_Size tx + 1024 in
      if (softResponseLimitSize <=? batchSize) || (softLimitItems <=? i + 1) then 1
      else Datatypes.S (take_batch (i + 1) batchSize txs')
  end.

(** The batches that [fn] is called with, in order. *)
Fixpoint split_loop (fuel : nat) (txs : list Transaction) : list (list Transaction) :=
  match fuel, txs with
  | Datatypes.S fuel', _ :: _ =>
      let n := take_batch 0 0 txs in
      take n txs :: split_loop fuel' (drop n txs)
  | _, _ => []
  end.

Definition SplitTransactions (txs : list Transaction) : list (list Transaction) := split_loop (length txs) txs.

Definition SendTransactions (txs : list Transaction) (p : peer) : option (option error * peer) :=
  p ← mark_txs (tx_Hash <$> txs) p;
  Some (p2p_Send EvmTxsMsg (PTxs txs), p).

Definition SendTransactionHashes (txids : list (list Z)) (p : peer) : option (option error * peer) :=
  p ← mark_txs txids p;
  Some (p2p_Send NewEvmTxHashesMsg (PTxHashes txids), p).

Definition AsyncSendTransactions (txs : list Transaction) (p : peer) : option peer :=
  let '(ok, p) := asyncSendNonEncodedItem (PTxs txs) EvmTxsMsg p in
  if ok : bool then mark_txs (tx_Hash <$> txs) p else Some p.

Definition AsyncSendTransactionHashes (txids : list (list Z)) (p : peer) : option peer :=
  let '(ok, p) := asyncSendNonEncodedItem (PTxHashes txids) NewEvmTxHashesMsg p in
  if ok : bool then mark_txs txids p else Some p.

(** The transactions are marked whether they were queued or not. *)
Definition EnqueueSendTransactions (txs : list Transaction) (p : peer) : option peer :=
  p ← enqueueSendNonEncodedItem (PTxs txs) EvmTxsMsg p;
  mark_txs (tx_Hash <$> txs) p.

(** *** Events *)

Definition SendEventIDs (hashes : list EventID) (p : peer) : option (option error * peer) :=
  p ← mark_events hashes p;
  Some (p2p_Send NewEventIDsMsg (PEventIDs hashes), p).

Definition AsyncSendEventIDs (ids : list EventID) (p : peer) : option peer :=
  let '(ok, p) := asyncSendNonEncodedItem (PEventIDs ids) NewEventIDsMsg p in
  if ok : bool then mark_events ids p else Some p.

Definition event_ids (events : list (EventPayload EventID)) : list EventID := (λ e, ID (ev_base (ep_event e))) <$> events.

Definition SendEvents (events : list (EventPayload EventID)) (p : peer) : option (option error * peer) :=
  p ← mark_events_each (event_ids events) p;
  Some (p2p_Send EventsMsg (PEvents events), p).

Definition SendEventsRLP (events : list (list Z)) (ids : list EventID) (p : peer) : option (option error * peer) :=
  p ← mark_events_each ids p;
  Some (p2p_Send EventsMsg (PRawEvents events), p).

Definition AsyncSendEvents (events : list (EventPayload EventID)) (p : peer) : option (bool * peer) :=
  let '(ok, p) := asyncSendNonEncodedItem (PEvents events) EventsMsg p in
  if ok : bool then p ← mark_events (event_ids events) p; Some (true, p) else Some (false, p).

Definition EnqueueSendEventsRLP (events : list (list Z)) (ids : list EventID) (p : peer) : option peer :=
  p ← enqueueSendNonEncodedItem (PRawEvents events) EventsMsg p;
  mark_events ids p.

(** [SendEventsStream] and [peer.RequestEventsStream] *)
Definition SendEventsStream (r : StreamResponse) (ids : list EventID) (p : peer) : option (option error * peer) :=
  p ← mark_events_each ids p;
  Some (p2p_Send EventsStreamResponse (PResponse r), p).

Definition peer_RequestEventsStream (r : StreamRequest) : option error := p2p_Send RequestEventsStream (PRequest r).

Definition SendProgress (progress : PeerProgress EventID) : option error := p2p_Send ProgressMsg (PProgress progress).

Definition AsyncSendProgress (progress : PeerProgress EventID) (p : peer) : peer :=
  (asyncSendNonEncodedItem (PProgress progress) ProgressMsg p).2.

(** [for start := 0; start < len(ids); start += softLimitItems]: the batches sent until an
    error. *)
Fixpoint request_loop {A} (fuel : nat) (send : list A → option error) (ids : list A) : list (list A) * option error :=
  match fuel, ids with
  | Datatypes.S fuel', _ :: _ =>
      let batch := take (Z.to_nat softLimitItems) ids in
      match send batch with
      | Some e => ([batch], Some e)
      | None =>
          let '(rest, err) := request_loop fuel' send (drop (Z.to_nat softLimitItems) ids) in
          (batch :: rest, err)
      end
  | _, _ => ([], None)
  end.

Definition RequestEvents (ids : list EventID) : list (list EventID) * option error :=
  request_loop (length ids) (λ b, p2p_Send GetEventsMsg (PEventIDs b)) ids.

Definition RequestTransactions (txids : list (list Z)) : list (list (list Z)) * option error :=
  request_loop (length txids) (λ b, p2p_Send GetEvmTxsMsg (PTxHashes b)) txids.

(** *** Handshake *)

Definition readStatus (network : Z) (genesis : list Z) (version : Z) (msg : Msg + error) : option error :=
  match msg with
  | inr err => Some err
  | inl msg =>
      if negb (msg_Code msg =? HandshakeMsg) then Some (errResp ErrNoStatusMsg)
      else if protocolMaxMsgSize <? msg_Size msg then Some (errResp ErrMsgTooLarge)
      else
        match decode_handshake (msg_Payload msg) with
        | None => Some (errResp ErrDecode)
        | Some handshake =>
            if negb (bool_decide (hs_Genesis handshake = genesis)) then Some (errResp ErrGenesisMismatch)
            else if negb (hs_NetworkID handshake =? network) then Some (errResp ErrNetworkIDMismatch)
            else if negb (hs_ProtocolVersion handshake =? version) then Some (errResp ErrProtocolVersionMismatch)
            else None
        end
  end.

(** The values that the sending goroutine gives to [errc]. *)
Definition handshake_sent (network : Z) (progress : PeerProgress EventID) (genesis : list Z) (version : Z) : list (option error) :=
  let last := SendProgress progress in
  match p2p_Send HandshakeMsg (PHandshake (mkHandshake (u32 version) network genesis)) with
  | Some e => [Some e; last]
  | None => [last]
  end.

Definition DiscReadTimeout : error := NewError "p2p.DiscReadTimeout".

(** The loop over what arrives: a value of [errc], or the timeout. *)
Fixpoint handshake_loop (n : nat) (arrivals : list (option error)) : option error :=
  match n, arrivals with
  | O, _ => None
  | Datatypes.S _, [] => Some DiscReadTimeout
  | Datatypes.S n', Some e :: _ => Some e
  | Datatypes.S n', None :: arrivals' => handshake_loop n' arrivals'
  end.

(** [order] interleaves the two goroutines and may end before both are done. *)
Definition Handshake (network : Z) (progress : PeerProgress EventID) (genesis : list Z) (msg : Msg + error)
    (order : list (option error) → list (option error) → list (option error)) (p : peer) : option error :=
  handshake_loop 2 (order (handshake_sent network progress genesis (p_version p))
                      [readStatus network genesis (p_version p) msg]).

(** *** The set of peers *)

(** Peers are shared: the set, the handlers of the connections and the broadcasts hold
    references to the same objects. *)
Notation PeerHeap := (gmap PeerRef peer).

Record peerSet := mkPeerSet { ps_peers : gmap string PeerRef; ps_closed : bool }.

Definition newPeerSet : peerSet := mkPeerSet ∅ false.

Definition Register (r : PeerRef) (p : peer) (ps : peerSet) : option error * peerSet :=
  if ps_closed ps then (Some errClosed, ps)
  else
    match ps_peers ps !! p_id p with
    | Some _ => (Some errAlreadyRegistered, ps)
    | None => (None, mkPeerSet (<[p_id p := r]> (ps_peers ps)) (ps_closed ps))
    end.

(** The peer that was removed is closed. *)
Definition Unregister (id : string) (ps : peerSet) (h : PeerHeap) : option error * peerSet * PeerHeap :=
  match ps_peers ps !! id with
  | None => (Some errNotRegistered, ps, h)
  | Some r => (None, mkPeerSet (delete id (ps_peers ps)) (ps_closed ps), alter peer_close r h)
  end.

Definition peers_Peer (id : string) (ps : peerSet) : option PeerRef := ps_peers ps !! id.
Definition peers_Len (ps : peerSet) : Z := Z.of_nat (size (ps_peers ps)).
Definition peers_List (ps : peerSet) : list PeerRef := (range_of (ps_peers ps)).*2.

Definition holds (f : peer → bool) (h : PeerHeap) (r : PeerRef) : bool := default false (f <$> h !! r).

Definition PeersWithoutEvent (e : EventID) (ps : peerSet) (h : PeerHeap) : list PeerRef :=
  filter (λ r, holds (InterestedIn e) h r = true) (peers_List ps).
Definition PeersWithoutTx (x : list Z) (ps : peerSet) (h : PeerHeap) : list PeerRef :=
  filter (λ r, holds (λ p, negb (bool_decide (x ∈ p_knownTxs p))) h r = true) (peers_List ps).

Fixpoint best_loop (peers : list peer) (bestPeer : option peer) (bestProgress : PeerProgress EventID) : option peer :=
  match peers with
  | [] => bestPeer
  | p :: peers' =>
      if PeerProgress_Less bestProgress (p_progress p) then best_loop peers' (Some p) (p_progress p)
      else best_loop peers' bestPeer bestProgress
  end.

Definition BestPeer (ps : peerSet) (h : PeerHeap) : option peer :=
  best_loop (omap (λ r, h !! r) (peers_List ps)) None (mkPeerProgress 0 0 zero_ID 0).

(** The peers are also disconnected. *)
Definition peers_Close (ps : peerSet) : peerSet := mkPeerSet (ps_peers ps) true.
End peers.

(** ** Sets that forget *)

Section sets.
Context {A : Type} `{SetPopLaws A}.

Lemma pop_choice_size (X : gset A) :
  X ≠ ∅ → ∃ x, pop_choice X = Some x ∧ X ∖ {[x]} ⊆ X ∧ size X = Datatypes.S (size (X ∖ {[x]})).
Proof.
  intros (x & Hx & Hp)%pop_choice_elem. exists x. split; [done|]. split; [set_solver|].
  rewrite size_difference by set_solver. rewrite size_singleton. assert (0 < size X)%nat; [|lia].
  apply Nat.neq_0_lt_0, size_non_empty_iff. set_solver.
Qed.

Lemma pop_to_spec fuel max (X : gset A) :
  1 <= max → (size X <= fuel)%nat → ∃ Y, pop_to fuel max X = Some Y ∧ Y ⊆ X ∧ Z.of_nat (size Y) < max.
Proof.
  revert X. induction fuel as [|fuel IH]; intros X Hmax Hf; simpl; destruct (Z.ltb_spec (Z.of_nat (size X)) max); eauto.
  - lia.
  - destruct (pop_choice_size X) as (x & -> & Hs & Hsz).
    { intros ->. rewrite size_empty in *. lia. }
    destruct (IH (X ∖ {[x]})) as (Y & HY & Hsub & Hlt); [done|lia|]. exists Y. split; [done|]. set_solver.
Qed.

(** A limit of at least one is reached; nothing is forgotten below it. *)
Lemma shrink_spec max (X : gset A) : 1 <= max → ∃ Y, shrink max X = Some Y ∧ Y ⊆ X ∧ Z.of_nat (size Y) < max.
Proof. intros. by apply pop_to_spec. Qed.

Lemma shrink_small max (X : gset A) : Z.of_nat (size X) < max → shrink max X = Some X.
Proof. intros Hlt%Z.ltb_lt. unfold shrink. destruct (size X) eqn:E; simpl; rewrite E; by rewrite Hlt. Qed.

(** No fuel is enough for a limit that is not positive. *)
Lemma pop_to_diverges fuel max (X : gset A) : max <= 0 → pop_to fuel max X = None.
Proof. revert X. induction fuel as [|fuel IH]; intros X Hmax; simpl; destruct (Z.ltb_spec (Z.of_nat (size X)) max); try lia; auto. Qed.
End sets.

(** ** What holds of a peer *)

Fixpoint metric_sum (items : list broadcastItem) : Metric :=
  match items with [] => mkMetric 0 0 | i :: items' => metric_add (memSize (bi_Raw i)) (metric_sum items') end.

Record cache_ok (cfg : PeerCacheConfig) : Prop := {
  co_txs : 1 <= MaxKnownTxs cfg;
  co_events : 1 <= MaxKnownEvents cfg;
  co_items : 0 <= MaxQueuedItems cfg;
  co_size : 0 <= MaxQueuedSize cfg;
}.

Definition queue_limit {EventID S} `{Countable EventID} (p : peer EventID S) : Metric :=
  if p_term p then mkMetric 0 0 else mkMetric (MaxQueuedItems (p_cfg p)) (MaxQueuedSize (p_cfg p)).

(** What is known is within the limits, and the semaphore counts what is queued. *)
Record peer_ok {EventID S} `{Countable EventID} `{Semaphore S} (p : peer EventID S) : Prop := {
  po_cfg : cache_ok (p_cfg p);
  po_txs : Z.of_nat (size (p_knownTxs p)) <= MaxKnownTxs (p_cfg p);
  po_events : Z.of_nat (size (p_knownEvents p)) <= MaxKnownEvents (p_cfg p);
  po_processing : sem_processing (p_semaphore p) = metric_sum (p_queue p);
  po_limit : sem_limit (p_semaphore p) = queue_limit p;
  po_queue : len (p_queue p) <= MaxQueuedItems (p_cfg p);
}.

Lemma metric_sum_Num items : m_Num (metric_sum items) = len items.
Proof. induction items as [|i items IH]; [done|]. unfold len in *. simpl. lia. Qed.

Lemma metric_add_assoc a b c : metric_add a (metric_add b c) = metric_add (metric_add a b) c.
Proof. unfold metric_add; simpl. f_equal; lia. Qed.

Lemma metric_add_comm a b : metric_add a b = metric_add b a.
Proof. unfold metric_add; simpl. f_equal; lia. Qed.

Lemma metric_add_0 a : metric_add a (mkMetric 0 0) = a.
Proof. destruct a. unfold metric_add; simpl. f_equal; lia. Qed.

Lemma metric_add_sub a b : metric_sub (metric_add a b) b = a.
Proof. destruct a. unfold metric_add, metric_sub; simpl. f_equal; lia. Qed.

Lemma metric_sum_app items items' : metric_sum (items ++ items') = metric_add (metric_sum items) (metric_sum items').
Proof.
  induction items as [|i items IH]; simpl.
  - by rewrite metric_add_comm, metric_add_0.
  - by rewrite IH, metric_add_assoc.
Qed.

Lemma memSize_nonneg v : metric_le (mkMetric 1 0) (memSize v).
Proof. split; simpl; [lia|]. apply Z.mod_pos_bound. reflexivity. Qed.

Lemma metric_sum_nonneg items : metric_le (mkMetric 0 0) (metric_sum items).
Proof.
  induction items as [|i items [IH1 IH2]]; [by split|]. pose proof (memSize_nonneg (bi_Raw i)) as [??].
  split; simpl in *; lia.
Qed.

Lemma metric_le_add_r a b : metric_le (mkMetric 0 0) a → metric_le b (metric_add a b).
Proof. intros [??]. split; simpl in *; lia. Qed.

Section peer_facts.
Context {EventID : Type} `{EventIDs EventID} `{!Countable EventID} {S : Type} `{SemaphoreLaws S} `{TxLib} `{MapRangeLaws} `{DagStream}.
Context `{!SetPop (list Z)} `{!SetPopLaws (list Z)} `{!SetPop EventID} `{!SetPopLaws EventID}.
Variable tx_Size : Transaction → Z.
Variable rlp_Encode : Payload EventID → option (list Z).
Variable select_term : broadcastItem → bool.
Variable p2p_Send : Z → Payload EventID → option error.
Notation peer := (peer EventID S).
Implicit Types p q : peer.

(** What no send or mark changes. *)
Record kept p q : Prop := {
  k_id : p_id q = p_id p;
  k_cfg : p_cfg q = p_cfg p;
  k_version : p_version q = p_version p;
  k_term : p_term q = p_term p;
  k_progress : p_progress q = p_progress p;
}.

(** An operation that went well on a peer. *)
Definition went_well p (r : option peer) : Prop := ∃ q, r = Some q ∧ peer_ok q ∧ kept p q.

#[local] Instance kept_preorder : PreOrder kept.
Proof. split; [done|]. intros p q r [] []. constructor; congruence. Qed.

Lemma went_well_bind p r (f : peer → option peer) :
  went_well p r → (∀ q, peer_ok q → kept p q → went_well q (f q)) → went_well p (r ≫= f).
Proof.
  intros (q & -> & Hq & Hk) Hf. destruct (Hf q Hq Hk) as (q' & Hr & ? & Hk'). exists q'. split; [done|]. split; [done|].
  by etrans.
Qed.

Lemma went_well_here p : peer_ok p → went_well p (Some p).
Proof. by exists p. Qed.

Lemma known_txs_ok X p : peer_ok p → Z.of_nat (size X) <= MaxKnownTxs (p_cfg p) → went_well p (Some (set_knownTxs X p)).
Proof. intros [] HX. eexists. split; [done|]. split; [by constructor|done]. Qed.

Lemma known_events_ok X p :
  peer_ok p → Z.of_nat (size X) <= MaxKnownEvents (p_cfg p) → went_well p (Some (set_knownEvents X p)).
Proof. intros [] HX. eexists. split; [done|]. split; [by constructor|done]. Qed.

Lemma size_insert_le {A} `{Countable A} (x : A) (X : gset A) : (size ({[x]} ∪ X) <= Datatypes.S (size X))%nat.
Proof. rewrite size_union_alt, size_singleton. apply le_n_S, subseteq_size. set_solver. Qed.

Lemma MarkEvent_ok id p : peer_ok p → went_well p (MarkEvent id p).
Proof.
  intros Hp. unfold MarkEvent. destruct (shrink_spec (MaxKnownEvents (p_cfg p)) (p_knownEvents p)) as (Y & -> & _ & Hlt).
  { apply Hp. }
  apply known_events_ok; [done|]. pose proof (size_insert_le id Y). lia.
Qed.

Lemma MarkTransaction_ok id p : peer_ok p → went_well p (MarkTransaction id p).
Proof.
  intros Hp. unfold MarkTransaction. destruct (shrink_spec (MaxKnownTxs (p_cfg p)) (p_knownTxs p)) as (Y & -> & _ & Hlt).
  { apply Hp. }
  apply known_txs_ok; [done|]. pose proof (size_insert_le id Y). lia.
Qed.

Lemma mark_txs_ok ids p : peer_ok p → went_well p (mark_txs ids p).
Proof.
  intros Hp. unfold mark_txs. destruct (shrink_spec (MaxKnownTxs (p_cfg p)) (list_to_set ids ∪ p_knownTxs p)) as (Y & -> & _ & Hlt).
  { apply Hp. }
  apply known_txs_ok; [done|lia].
Qed.

Lemma mark_events_ok ids p : peer_ok p → went_well p (mark_events ids p).
Proof.
  intros Hp. unfold mark_events.
  destruct (shrink_spec (MaxKnownEvents (p_cfg p)) (list_to_set ids ∪ p_knownEvents p)) as (Y & -> & _ & Hlt).
  { apply Hp. }
  apply known_events_ok; [done|lia].
Qed.

Lemma mark_events_each_ok ids p : peer_ok p → went_well p (mark_events_each ids p).
Proof.
  revert p. induction ids as [|id ids IH]; intros p Hp; [by apply went_well_here|].
  apply (went_well_bind _ (mark_events [id] p)); [by apply mark_events_ok|]. auto.
Qed.

(** A peer that was just connected. *)
Lemma NewPeer_ok version id cfg (semaphore : Metric → S) :
  cache_ok cfg → (∀ w, sem_processing (semaphore w) = mkMetric 0 0 ∧ sem_limit (semaphore w) = w) →
  peer_ok (NewPeer (EventID := EventID) version id cfg semaphore).
Proof.
  intros Hc Hs. destruct (Hs (mkMetric (MaxQueuedItems cfg) (MaxQueuedSize cfg))). destruct Hc.
  constructor; cbn [NewPeer p_cfg p_knownTxs p_knownEvents p_queue p_semaphore queue_limit p_term]; rewrite ?size_empty; try done; try lia.
Qed.

Lemma peer_close_ok p : peer_ok p → peer_ok (peer_close p).
Proof.
  intros []. destruct (sem_Terminate_spec (p_semaphore p)) as [Hl Hp]. constructor; simpl; try done; congruence.
Qed.

Lemma SetProgress_ok x p : peer_ok p → peer_ok (SetProgress x p).
Proof. intros []. by constructor. Qed.

(** *** The queue *)

Lemma len_app_1 {A} (l : list A) x : len (l ++ [x]) = len l + 1.
Proof. unfold len. rewrite length_app. simpl. lia. Qed.

(** Once the semaphore is acquired the queue has room: an item is refused only by the
    semaphore, and never after the peer was closed. *)
Lemma acquired_room raw code p ok sem :
  peer_ok p → acquired (memSize raw) (p_semaphore p) (ok, sem) → 
  if ok then p_term p = false ∧ room p = true ∧ peer_ok (set_queue (p_queue p ++ [mkItem code raw]) (set_semaphore sem p))
  else peer_ok (set_semaphore sem p).
Proof.
  intros [Hc Ht He Hp Hl Hq] [Hlim Hacq]; simpl in *. destruct ok.
  - destruct Hacq as [Hpr [Hle1 Hle2]]. rewrite Hpr, Hp, Hl in Hle1. unfold queue_limit in *. simpl in Hle1.
    rewrite metric_sum_Num in Hle1. destruct (p_term p) eqn:Eterm; simpl in *; [unfold len in *; lia|].
    split; [done|]. split; [unfold room; lia|]. constructor; simpl; try done.
    + rewrite metric_sum_app. simpl. rewrite metric_add_0. congruence.
    + unfold queue_limit. simpl. rewrite Eterm. congruence.
    + rewrite len_app_1. lia.
  - constructor; simpl; try done; unfold queue_limit in *; simpl; congruence.
Qed.

Definition queued (item : broadcastItem) p : peer := set_queue (p_queue p ++ [item]) p.

(** Queueing never blocks and never finds the queue full: the item is queued when the
    semaphore admits it, and otherwise nothing but the semaphore changes. *)
Lemma asyncSendEncodedItem_ok raw code p :
  peer_ok p →
  let '(ok, q) := asyncSendEncodedItem select_term raw code p in
  ok = (sem_TryAcquire (memSize raw) (p_semaphore p)).1 ∧ peer_ok q ∧ kept p q ∧
  p_knownTxs q = p_knownTxs p ∧ p_knownEvents q = p_knownEvents p ∧
  p_queue q = p_queue p ++ (if ok then [mkItem code raw] else []).
Proof.
  intros Hp. unfold asyncSendEncodedItem. pose proof (sem_TryAcquire_spec (memSize raw) (p_semaphore p)) as Ha.
  destruct (sem_TryAcquire _ _) as [ok sem]. pose proof (acquired_room raw code p ok sem Hp Ha) as Hr.
  destruct ok; simpl.
  - destruct Hr as (Hterm & Hroom & Hq). unfold room in *. simpl. rewrite Hroom, Hterm. simpl. done.
  - rewrite app_nil_r. done.
Qed.

Lemma enqueueSendEncodedItem_ok raw code p :
  peer_ok p →
  ∃ q, enqueueSendEncodedItem select_term raw code p = Some q ∧ peer_ok q ∧ kept p q ∧
    p_knownTxs q = p_knownTxs p ∧ p_knownEvents q = p_knownEvents p ∧
    p_queue q = p_queue p ++ (if (sem_Acquire (memSize raw) (p_semaphore p)).1 then [mkItem code raw] else []).
Proof.
  intros Hp. unfold enqueueSendEncodedItem. pose proof (sem_Acquire_spec (memSize raw) (p_semaphore p)) as Ha.
  destruct (sem_Acquire _ _) as [ok sem]. pose proof (acquired_room raw code p ok sem Hp Ha) as Hr.
  destruct ok; simpl; eexists.
  - destruct Hr as (Hterm & Hroom & Hq). unfold room in *. simpl. rewrite Hroom, Hterm. simpl. done.
  - rewrite app_nil_r. done.
Qed.

(** The same of values that are encoded first. *)
Definition item_of (value : Payload EventID) (code : Z) : option broadcastItem := mkItem code <$> rlp_Encode value.

Definition admitted (acq : Metric → S → bool * S) (value : Payload EventID) (code : Z) p : list broadcastItem :=
  match item_of value code with
  | Some item => if (acq (memSize (bi_Raw item)) (p_semaphore p)).1 then [item] else []
  | None => []
  end.

Lemma asyncSendNonEncodedItem_ok value code p :
  peer_ok p →
  let '(ok, q) := asyncSendNonEncodedItem rlp_Encode select_term value code p in
  ok = negb (len (admitted sem_TryAcquire value code p) =? 0) ∧ peer_ok q ∧ kept p q ∧
  p_knownTxs q = p_knownTxs p ∧ p_knownEvents q = p_knownEvents p ∧
  p_queue q = p_queue p ++ admitted sem_TryAcquire value code p.
Proof.
  intros Hp. unfold asyncSendNonEncodedItem, admitted, item_of. destruct (rlp_Encode value) as [raw|]; simpl.
  - pose proof (asyncSendEncodedItem_ok raw code p Hp) as Hs. destruct (asyncSendEncodedItem _ _ _ _) as [ok q].
    destruct Hs as (-> & Hs). simpl. by destruct (sem_TryAcquire (memSize raw) (p_semaphore p)).1.
  - by rewrite app_nil_r.
Qed.

Lemma enqueueSendNonEncodedItem_ok value code p :
  peer_ok p → went_well p (enqueueSendNonEncodedItem rlp_Encode select_term value code p).
Proof.
  intros Hp. unfold enqueueSendNonEncodedItem. destruct (rlp_Encode value) as [raw|]; [|by apply went_well_here].
  destruct (enqueueSendEncodedItem_ok raw code p Hp) as (q & -> & ? & ? & _). by exists q.
Qed.

(** A send that marks what it has queued. *)
Lemma async_then_mark value code p (mark : peer → option peer) :
  peer_ok p → (∀ q, peer_ok q → went_well q (mark q)) →
  went_well p (let '(ok, q) := asyncSendNonEncodedItem rlp_Encode select_term value code p in if ok then mark q else Some q).
Proof.
  intros Hp Hm. pose proof (asyncSendNonEncodedItem_ok value code p Hp) as Hs. destruct (asyncSendNonEncodedItem _ _ _ _ _) as [ok q].
  destruct Hs as (_ & Hq & Hk & _). apply (went_well_bind p (Some q) (λ q, if ok then mark q else Some q)); [by exists q|].
  intros q' Hq' _. destruct ok; [auto|by apply went_well_here].
Qed.

Lemma AsyncSendTransactions_ok txs p : peer_ok p → went_well p (AsyncSendTransactions rlp_Encode select_term txs p).
Proof. intros Hp. apply async_then_mark; [done|]. intros. by apply mark_txs_ok. Qed.

Lemma AsyncSendTransactionHashes_ok ids p : peer_ok p → went_well p (AsyncSendTransactionHashes rlp_Encode select_term ids p).
Proof. intros Hp. apply async_then_mark; [done|]. intros. by apply mark_txs_ok. Qed.

Lemma AsyncSendEventIDs_ok ids p : peer_ok p → went_well p (AsyncSendEventIDs rlp_Encode select_term ids p).
Proof. intros Hp. apply async_then_mark; [done|]. intros. by apply mark_events_ok. Qed.

Lemma AsyncSendEvents_ok events p : peer_ok p → went_well p (snd <$> AsyncSendEvents rlp_Encode select_term events p).
Proof.
  intros Hp. pose proof (async_then_mark (PEvents events) EventsMsg p (mark_events (event_ids events)) Hp) as Hm.
  unfold AsyncSendEvents. destruct (asyncSendNonEncodedItem _ _ _ _ _) as [[] q].
  - destruct Hm as (q' & -> & ?); [by intros; apply mark_events_ok|]. by exists q'.
  - apply Hm. intros. by apply mark_events_ok.
Qed.

Lemma AsyncSendProgress_ok progress p : peer_ok p → went_well p (Some (AsyncSendProgress rlp_Encode select_term progress p)).
Proof.
  intros Hp. unfold AsyncSendProgress. pose proof (asyncSendNonEncodedItem_ok (PProgress progress) ProgressMsg p Hp) as Hs.
  destruct (asyncSendNonEncodedItem _ _ _ _ _) as [ok q]. destruct Hs as (_ & ? & ? & _). by exists q.
Qed.

Lemma EnqueueSendTransactions_ok txs p : peer_ok p → went_well p (EnqueueSendTransactions rlp_Encode select_term txs p).
Proof.
  intros Hp. apply (went_well_bind _ (enqueueSendNonEncodedItem _ _ _ _ _)); [by apply enqueueSendNonEncodedItem_ok|].
  intros. by apply mark_txs_ok.
Qed.

Lemma EnqueueSendEventsRLP_ok events ids p : peer_ok p → went_well p (EnqueueSendEventsRLP rlp_Encode select_term events ids p).
Proof.
  intros Hp. apply (went_well_bind _ (enqueueSendNonEncodedItem _ _ _ _ _)); [by apply enqueueSendNonEncodedItem_ok|].
  intros. by apply mark_events_ok.
Qed.

Lemma broadcast_one_ok p item q : peer_ok p → broadcast_one p = Some (item, q) → peer_ok q ∧ kept p q ∧ p_queue p = item :: p_queue q.
Proof.
  intros [Hc Ht He Hp Hl Hq] Hb. unfold broadcast_one in Hb. destruct (p_queue p) as [|i queue] eqn:Eq; [done|].
  simplify_eq. simpl in Hp. destruct (sem_Release_spec (memSize (bi_Raw item)) (p_semaphore p)) as [Hlim Hpr].
  { rewrite Hp, metric_add_comm. apply metric_le_add_r, metric_sum_nonneg. }
  split; [|done]. constructor; simpl; try done.
  - rewrite Hpr, Hp, metric_add_comm. apply metric_add_sub.
  - rewrite Hlim, Hl. done.
  - unfold len in *. simpl in Hq. lia.
Qed.
End peer_facts.

(** ** The queue and its goroutines *)

(** The senders that hold the semaphore and did not reach the channel, the item that the
    [broadcast] goroutine took and did not release, what went into the channel and what
    was sent; and whether the goroutine is still there: when the peer is closed it may
    leave with items in the channel. *)
Record queue_state (EventID S : Type) `{Countable EventID} := mkQueueState {
  q_peer : peer EventID S;
  q_acquired : list broadcastItem;
  q_sending : list broadcastItem;
  q_put : list broadcastItem;
  q_sent : list broadcastItem;
  q_writing : bool;
}.
Arguments q_writing {EventID S _ _}.
Arguments mkQueueState {EventID S _ _}. Arguments q_peer {EventID S _ _}. Arguments q_acquired {EventID S _ _}.
Arguments q_sending {EventID S _ _}. Arguments q_put {EventID S _ _}. Arguments q_sent {EventID S _ _}.

Inductive queue_op :=
  | QTry (item : broadcastItem)
  | QWait (item : broadcastItem)
  | QPut (n : nat)
  | QGiveUp (n : nat)
  | QTake
  | QRelease
  | QClose
  | QStop.

Section queue.
Context {EventID : Type} `{EventIDs EventID} `{!Countable EventID} {S : Type} `{Semaphore S}.
Notation peer := (peer EventID S).
Notation queue_state := (queue_state EventID S).

Definition queue_acquire (item : broadcastItem) (r : bool * S) (s : queue_state) : queue_state :=
  mkQueueState (set_semaphore r.2 (q_peer s)) (if r.1 then q_acquired s ++ [item] else q_acquired s)
    (q_sending s) (q_put s) (q_sent s) (q_writing s).

(** No result for a step that cannot be taken. *)
Definition queue_step (op : queue_op) (s : queue_state) : option queue_state :=
  let p := q_peer s in
  match op with
  | QTry item => Some (queue_acquire item (sem_TryAcquire (memSize (bi_Raw item)) (p_semaphore p)) s)
  | QWait item => Some (queue_acquire item (sem_Acquire (memSize (bi_Raw item)) (p_semaphore p)) s)
  | QPut n =>
      item ← q_acquired s !! n;
      if room p then
        Some (mkQueueState (set_queue (p_queue p ++ [item]) p) (delete n (q_acquired s)) (q_sending s) (q_put s ++ [item]) (q_sent s)
                (q_writing s))
      else None
  | QGiveUp n =>
      item ← q_acquired s !! n;
      if p_term p || negb (room p) then
        Some (mkQueueState (set_semaphore (sem_Release (memSize (bi_Raw item)) (p_semaphore p)) p) (delete n (q_acquired s))
                (q_sending s) (q_put s) (q_sent s) (q_writing s))
      else None
  | QTake =>
      match q_writing s, q_sending s, p_queue p with
      | true, [], item :: queue => Some (mkQueueState (set_queue queue p) (q_acquired s) [item] (q_put s) (q_sent s) true)
      | _, _, _ => None
      end
  | QRelease =>
      match q_sending s with
      | item :: sending =>
          Some (mkQueueState (set_semaphore (sem_Release (memSize (bi_Raw item)) (p_semaphore p)) p) (q_acquired s) sending
                  (q_put s) (q_sent s ++ [item]) (q_writing s))
      | [] => None
      end
  | QClose => if p_term p then None else Some (mkQueueState (peer_close p) (q_acquired s) (q_sending s) (q_put s) (q_sent s)
                                             (q_writing s))
  | QStop =>
      match q_sending s with
      | [] => if q_writing s && p_term p
              then Some (mkQueueState p (q_acquired s) [] (q_put s) (q_sent s) false) else None
      | _ => None
      end
  end.

Fixpoint queue_run (ops : list queue_op) (s : queue_state) : option queue_state :=
  match ops with [] => Some s | op :: ops' => queue_step op s ≫= queue_run ops' end.

Definition queue_start (p : peer) : queue_state := mkQueueState p [] [] [] [] true.

(** All that the semaphore counts. *)
Definition q_held (s : queue_state) : list broadcastItem := q_acquired s ++ q_sending s ++ p_queue (q_peer s).

Record queue_ok (s : queue_state) : Prop := {
  qo_processing : sem_processing (p_semaphore (q_peer s)) = metric_sum (q_held s);
  qo_limit : sem_limit (p_semaphore (q_peer s)) = queue_limit (q_peer s);
  qo_bound : metric_le (metric_sum (q_held s))
      (mkMetric (MaxQueuedItems (p_cfg (q_peer s))) (MaxQueuedSize (p_cfg (q_peer s))));
  qo_fifo : q_put s = q_sent s ++ q_sending s ++ p_queue (q_peer s);
  qo_writer : q_writing s = false → p_term (q_peer s) = true ∧ q_sending s = [];
}.

Lemma metric_sum_perm l k : l ≡ₚ k → metric_sum l = metric_sum k.
Proof.
  induction 1; simpl; try congruence. rewrite !metric_add_assoc. f_equal. apply metric_add_comm.
Qed.

Lemma metric_le_trans a b c : metric_le a b → metric_le b c → metric_le a c.
Proof. intros [] []. split; lia. Qed.

(** What is left when one of the items is released. *)
Lemma held_release (held rest : list broadcastItem) (item : broadcastItem) (sem : S) `{!SemaphoreLaws S} :
  held ≡ₚ item :: rest → sem_processing sem = metric_sum held →
  sem_limit (sem_Release (memSize (bi_Raw item)) sem) = sem_limit sem ∧
  sem_processing (sem_Release (memSize (bi_Raw item)) sem) = metric_sum rest ∧
  metric_le (metric_sum rest) (metric_sum held).
Proof.
  intros Hperm Hp. rewrite (metric_sum_perm _ _ Hperm) in *. simpl in *.
  destruct (sem_Release_spec (memSize (bi_Raw item)) sem) as [Hl Hr].
  { rewrite Hp, metric_add_comm. apply metric_le_add_r, metric_sum_nonneg. }
  split; [done|]. split; [rewrite Hr, Hp, metric_add_comm; apply metric_add_sub|].
  apply metric_le_add_r. pose proof (memSize_nonneg (bi_Raw item)) as [??]. split; simpl in *; lia.
Qed.

(** An item that holds the semaphore leaves room in the channel. *)
Lemma held_room s n item : queue_ok s → q_acquired s !! n = Some item → room (q_peer s) = true.
Proof.
  intros [_ _ [Hb _] _ _] Hn. rewrite metric_sum_Num in Hb. apply lookup_lt_Some in Hn. unfold room, q_held, len in *.
  rewrite !length_app in Hb. simpl in Hb. lia.
Qed.

Lemma held_delete (acq rest : list broadcastItem) n item : acq !! n = Some item → acq ++ rest ≡ₚ item :: delete n acq ++ rest.
Proof. intros Hn. rewrite app_comm_cons. f_equiv. by apply delete_Permutation. Qed.

Context `{!SemaphoreLaws S}.

Lemma metric_sum_snoc l item : metric_sum (l ++ [item]) = metric_add (metric_sum l) (memSize (bi_Raw item)).
Proof. rewrite metric_sum_app. simpl. by rewrite metric_add_0. Qed.

Lemma metric_sum_acquire (acq rest : list broadcastItem) item :
  metric_sum ((acq ++ [item]) ++ rest) = metric_add (metric_sum (acq ++ rest)) (memSize (bi_Raw item)).
Proof. rewrite <-metric_sum_snoc. apply metric_sum_perm. by rewrite <-!(assoc (++)), (comm (++) [item]). Qed.

Lemma queue_acquire_ok item r s :
  queue_ok s → acquired (memSize (bi_Raw item)) (p_semaphore (q_peer s)) r → queue_ok (queue_acquire item r s).
Proof.
  intros [Hp Hl Hb Hf Hw] [Hlim Hacq]. destruct r as [ok sem]. simpl in *. unfold q_held, queue_limit in *.
  destruct ok; constructor; simpl; unfold q_held, queue_limit; simpl; try congruence; try done.
  - rewrite metric_sum_acquire. destruct Hacq; congruence.
  - rewrite metric_sum_acquire. destruct Hacq as [Hpr Hle]. rewrite Hpr, Hp, Hl in Hle.
    destruct (p_term (q_peer s)); [|done]. destruct (metric_sum_nonneg (q_acquired s ++ q_sending s ++ p_queue (q_peer s))).
    destruct Hle as [Hle _]. simpl in *. lia.
Qed.

Lemma queue_put_ok s n item :
  queue_ok s → q_acquired s !! n = Some item →
  queue_ok (mkQueueState (set_queue (p_queue (q_peer s) ++ [item]) (q_peer s)) (delete n (q_acquired s)) (q_sending s)
              (q_put s ++ [item]) (q_sent s) (q_writing s)).
Proof.
  intros [Hp Hl Hb Hf Hw] Hn.
  assert (Hperm : q_held s ≡ₚ delete n (q_acquired s) ++ q_sending s ++ p_queue (q_peer s) ++ [item]).
  { unfold q_held. rewrite (held_delete _ _ _ _ Hn), !(assoc (++)), (comm (++) _ [item]). done. }
  pose proof (metric_sum_perm _ _ Hperm) as Hsum.
  constructor; unfold q_held; simpl; rewrite <-?Hsum; try done. rewrite Hf, <-!(assoc (++)). done.
Qed.

(** A release of one of the items, whatever goroutine held it. *)
Lemma queue_release_ok s rest sending sent item acq :
  queue_ok s → q_held s ≡ₚ item :: rest → acq ++ sending ++ p_queue (q_peer s) = rest →
  sent ++ sending ++ p_queue (q_peer s) = q_sent s ++ q_sending s ++ p_queue (q_peer s) →
  (q_sending s = [] → sending = []) →
  queue_ok (mkQueueState (set_semaphore (sem_Release (memSize (bi_Raw item)) (p_semaphore (q_peer s))) (q_peer s)) acq sending
              (q_put s) sent (q_writing s)).
Proof.
  intros [Hp Hl Hb Hf Hw] Hperm <- Hsent Hwr. destruct (held_release _ _ _ _ Hperm Hp) as (? & ? & ?).
  constructor; unfold q_held; simpl; try congruence; unfold queue_limit in *; try done; [simpl; congruence|by eapply metric_le_trans|].
  intros [Ht Hsd]%Hw. auto.
Qed.

Lemma queue_step_ok op s s' : queue_ok s → queue_step op s = Some s' → queue_ok s' ∧ p_cfg (q_peer s') = p_cfg (q_peer s).
Proof.
  intros Hs Hstep. destruct op as [item|item|n|n| | | |]; simpl in Hstep.
  - simplify_eq. split; [apply queue_acquire_ok; [done|apply sem_TryAcquire_spec]|done].
  - simplify_eq. split; [apply queue_acquire_ok; [done|apply sem_Acquire_spec]|done].
  - destruct (q_acquired s !! n) as [item|] eqn:Hn; simpl in Hstep; [|done]. destruct (room _); simplify_eq.
    split; [by apply queue_put_ok|done].
  - destruct (q_acquired s !! n) as [item|] eqn:Hn; simpl in Hstep; [|done]. destruct (_ || _); simplify_eq. split; [|done].
    by apply (queue_release_ok _ _ _ _ _ _ Hs (held_delete _ _ _ _ Hn)).
  - destruct (q_writing s) eqn:E0; [|done]. destruct (q_sending s) eqn:E1; [|done].
    destruct (p_queue (q_peer s)) eqn:E2; simplify_eq. split; [|done].
    destruct Hs. unfold q_held in *. rewrite E1, E2 in *. by constructor.
  - destruct (q_sending s) as [|item sending] eqn:E; simplify_eq. split; [|done]. eapply queue_release_ok; [done| |done| |by rewrite E].
    + unfold q_held. rewrite E. simpl. by rewrite <-Permutation_middle.
    + by rewrite E, <-(assoc (++)).
  - destruct (p_term (q_peer s)); simplify_eq. split; [|done]. destruct (sem_Terminate_spec (p_semaphore (q_peer s))), Hs.
    constructor; unfold q_held in *; simpl in *; congruence || done || naive_solver.
  - destruct (q_sending s) eqn:E1; [|done]. destruct (q_writing s && p_term (q_peer s)) eqn:E2; simplify_eq. split; [|done].
    apply andb_true_iff in E2 as [_ E2]. destruct Hs. unfold q_held in *. rewrite E1 in *. by constructor.
Qed.

Lemma queue_run_ok ops s s' : queue_ok s → queue_run ops s = Some s' → queue_ok s' ∧ p_cfg (q_peer s') = p_cfg (q_peer s).
Proof.
  revert s. induction ops as [|op ops IH]; intros s Hs Hrun; simpl in Hrun; simplify_eq; [done|].
  destruct (queue_step op s) as [s1|] eqn:E; [|done]. destruct (queue_step_ok _ _ _ Hs E) as [Hs1 <-]. eauto.
Qed.

Lemma queue_start_ok p : peer_ok p → p_queue p = [] → p_term p = false → queue_ok (queue_start p).
Proof.
  intros [Hc _ _ Hp Hl _] Hq Ht. constructor; unfold q_held; simpl; rewrite ?Hq in *; try done.
  destruct Hc. split; simpl; lia.
Qed.
(** Every step but an acquisition or a close makes this smaller. *)
Definition q_weight (s : queue_state) : nat :=
  3 * length (q_acquired s) + 2 * length (p_queue (q_peer s)) + length (q_sending s).

Lemma queue_progress s :
  queue_ok s →
  q_held s = [] ∨ (q_writing s = false ∧ q_held s = p_queue (q_peer s)) ∨
  ∃ op s', op ∈ [QPut 0; QTake; QRelease] ∧ queue_step op s = Some s' ∧ (q_weight s' < q_weight s)%nat.
Proof.
  intros Hs. destruct (q_acquired s) as [|item acq] eqn:Ea.
  - destruct (q_sending s) as [|item sending] eqn:Es.
    + destruct (p_queue (q_peer s)) as [|item queue] eqn:Eq; [left; unfold q_held; by rewrite Ea, Es, Eq|].
      right. destruct (q_writing s) eqn:Ew; [right|left; split; [done|]; unfold q_held; by rewrite Ea, Es, Eq].
      eexists QTake, _. split; [set_solver|]. simpl. rewrite Ew, Es, Eq. split; [done|]. unfold q_weight. simpl. rewrite Ea, Es, Eq.
      simpl. lia.
    + right. right. eexists QRelease, _. split; [set_solver|]. simpl. rewrite Es. split; [done|]. unfold q_weight. simpl. rewrite Es. simpl. lia.
  - right. right. eexists (QPut 0), _. split; [set_solver|]. simpl. rewrite Ea. simpl.
    rewrite (held_room s 0 item Hs) by by rewrite Ea. split; [done|]. unfold q_weight. simpl. rewrite Ea, length_app. simpl. lia.
Qed.

(** Sending in one go is a run of these steps. *)
Lemma asyncSend_is_a_run select_term raw code (p : peer) ok q :
  peer_ok p → asyncSendEncodedItem select_term raw code p = (ok, q) →
  queue_run (QTry (mkItem code raw) :: if ok then [QPut 0] else []) (queue_start p)
  = Some (mkQueueState q [] [] (if ok then [mkItem code raw] else []) [] true).
Proof.
  intros Hp Hsend. unfold asyncSendEncodedItem in Hsend. pose proof (sem_TryAcquire_spec (memSize raw) (p_semaphore p)) as Ha.
  simpl. unfold queue_acquire; simpl. destruct (sem_TryAcquire _ _) as [acq sem]. simpl.
  pose proof (acquired_room raw code p acq sem Hp Ha) as Hr. destruct acq; simpl in *.
  - destruct Hr as (Ht & Hroom & _). unfold room in *. simpl in Hsend. rewrite Hroom, Ht in Hsend. simplify_eq/=.
    unfold room. simpl. by rewrite Hroom.
  - by simplify_eq/=.
Qed.

(** C27: under every interleaving of the goroutines that send to a peer, the one that writes
    to it and its closing: what holds the peer's semaphore is within the configured number
    and size of items; what was put into the channel is what was handed to the connection,
    is being sent and is queued, in that order; a sender that holds the semaphore finds room
    at once, so none blocks on the channel and an item is given up only after the peer was
    closed; the writer leaves only after that, with nothing in its hands.  While the writer
    runs, and as long as something is held, some step brings it closer to being sent; after
    the writer has left, senders still get rid of what they hold, and only what was queued
    by then stays in the channel. *)
Theorem peer_queue_safe ops (p : peer) (s : queue_state) :
  peer_ok p → p_queue p = [] → p_term p = false → queue_run ops (queue_start p) = Some s →
  metric_le (metric_sum (q_held s)) (mkMetric (MaxQueuedItems (p_cfg p)) (MaxQueuedSize (p_cfg p))) ∧
  q_put s = q_sent s ++ q_sending s ++ p_queue (q_peer s) ∧
  (∀ n, (n < length (q_acquired s))%nat → is_Some (queue_step (QPut n) s)) ∧
  (∀ n, is_Some (queue_step (QGiveUp n) s) → p_term (q_peer s) = true) ∧
  (q_writing s = false → p_term (q_peer s) = true ∧ q_sending s = []) ∧
  (q_held s = [] ∨ (q_writing s = false ∧ q_held s = p_queue (q_peer s)) ∨
   ∃ op s', op ∈ [QPut 0; QTake; QRelease] ∧ queue_step op s = Some s' ∧ (q_weight s' < q_weight s)%nat).
Proof.
  intros Hp Hq Ht Hrun. destruct (queue_run_ok _ _ _ (queue_start_ok p Hp Hq Ht) Hrun) as [Hs Hcfg]. simpl in Hcfg.
  split; [rewrite <-Hcfg; apply Hs|]. split; [apply Hs|]. split; [|split; [|split; [apply Hs|by apply queue_progress]]].
  - intros n [item Hn]%lookup_lt_is_Some. simpl. rewrite Hn. simpl. rewrite (held_room _ _ _ Hs Hn). eauto.
  - intros n Hg. simpl in Hg. destruct (q_acquired s !! n) eqn:Hn; [|by destruct Hg]. simpl in Hg.
    rewrite (held_room _ _ _ Hs Hn), orb_false_r in Hg. by destruct (p_term (q_peer s)); [|destruct Hg].
Qed.
End queue.

(** ** Batches, requests and the handshake *)

Section batches.
Context {EventID : Type} `{EventIDs EventID} `{!Countable EventID} {S : Type} `{MsgDecode EventID}.
Variable tx_Size : Transaction → Z.
Variable p2p_Send : Z → Payload EventID → option error.

Fixpoint batch_size (txs : list Transaction) : Z :=
  match txs with [] => 0 | tx :: txs' => tx_Size tx + 1024 + batch_size txs' end.

(** A batch stops at the item that reaches one of the limits. *)
Record batch_ok (batch : list Transaction) : Prop := {
  bo_nonempty : batch ≠ [];
  bo_items : len batch <= softLimitItems;
  bo_size : ∀ init last, batch = init ++ [last] → init = [] ∨ batch_size init < softResponseLimitSize;
}.

Lemma take_batch_spec txs i batchSize :
  txs ≠ [] → 0 <= i < softLimitItems → batchSize < softResponseLimitSize →
  let n := take_batch tx_Size i batchSize txs in
  (1 <= n <= length txs)%nat ∧ Z.of_nat n + i <= softLimitItems ∧
  batchSize + batch_size (take (n - 1) txs) < softResponseLimitSize.
Proof.
  revert i batchSize. induction txs as [|tx txs IH]; intros i b Hne Hi Hb; [done|]. simpl.
  destruct (Z.leb_spec softResponseLimitSize (b + tx_Size tx + 1024)); simpl; [lia|].
  destruct (Z.leb_spec softLimitItems (i + 1)); simpl; [lia|].
  destruct txs as [|tx' txs]; [simpl; lia|].
  destruct (IH (i + 1) (b + tx_Size tx + 1024)) as (Hn & Hl & Hs); [done|lia|lia|].
  remember (take_batch tx_Size (i + 1) (b + tx_Size tx + 1024) (tx' :: txs)) as n eqn:En. clear En.
  split; [simpl in *; lia|]. split; [lia|]. rewrite Nat.sub_0_r. destruct n as [|n]; [lia|].
  simpl in Hs |- *. rewrite Nat.sub_0_r in Hs. simpl. lia.
Qed.

Lemma split_loop_spec fuel txs :
  (length txs <= fuel)%nat → concat (split_loop tx_Size fuel txs) = txs ∧ Forall batch_ok (split_loop tx_Size fuel txs).
Proof.
  revert txs. induction fuel as [|fuel IH]; intros [|tx txs] Hf; simpl in Hf; try done; [lia|].
  destruct (take_batch_spec (tx :: txs) 0 0) as (Hn & Hl & Hs); [done|done|done|]. cbn [split_loop].
  remember (take_batch tx_Size 0 0 (tx :: txs)) as n eqn:En. clear En.
  destruct (IH (drop n (tx :: txs))) as [Hc HF]; [rewrite length_drop; simpl in *; lia|].
  split; [cbn [concat]; rewrite Hc; apply take_drop|]. constructor; [|done]. constructor.
  - destruct n; [lia|done].
  - unfold len. rewrite length_take. lia.
  - intros init last Heq. right.
    assert (Hlen : length init = (n - 1)%nat).
    { apply (f_equal length) in Heq. rewrite length_take, length_app in Heq. simpl in *. lia. }
    assert (take (n - 1) (take n (tx :: txs)) = init) as <- by (rewrite Heq, <-Hlen; apply take_app_length).
    rewrite take_take, Nat.min_l; lia.
Qed.

(** The batches are the transactions in order; none is empty, has too many items, or goes
    on after it has reached the size limit. *)
Theorem split_transactions_correct txs :
  concat (SplitTransactions tx_Size txs) = txs ∧ Forall batch_ok (SplitTransactions tx_Size txs).
Proof. by apply split_loop_spec. Qed.

Lemma request_loop_spec {A} (send : list A → option error) fuel ids :
  (length ids <= fuel)%nat →
  let '(sent, err) := request_loop fuel send ids in
  Forall (λ b, b ≠ [] ∧ len b <= softLimitItems) sent ∧
  match err with
  | None => concat sent = ids ∧ Forall (λ b, send b = None) sent
  | Some e => ∃ before b rest, sent = before ++ [b] ∧ concat sent ++ rest = ids ∧ Forall (λ b, send b = None) before ∧ send b = Some e
  end.
Proof.
  revert ids. induction fuel as [|fuel IH]; intros [|id ids] Hf; simpl in Hf; try done; [lia|].
  cbn [request_loop]. remember (take (Z.to_nat softLimitItems) (id :: ids)) as batch eqn:Eb.
  assert (Hb : batch ≠ [] ∧ len batch <= softLimitItems).
  { subst batch. split; [done|]. unfold len. rewrite length_take. unfold softLimitItems. lia. }
  pose proof (take_drop (Z.to_nat softLimitItems) (id :: ids)) as Htd. rewrite <-Eb in Htd.
  destruct (send batch) as [e|] eqn:Es.
  - split; [by constructor|]. exists [], batch, (drop (Z.to_nat softLimitItems) (id :: ids)).
    simpl. by rewrite app_nil_r.
  - specialize (IH (drop (Z.to_nat softLimitItems) (id :: ids))). destruct (request_loop _ _ _) as [sent err].
    destruct IH as [HF Herr]; [rewrite length_drop; simpl; lia|]. split; [by constructor|]. destruct err as [e|].
    + destruct Herr as (before & b & rest & -> & Hc & ? & ?). exists (batch :: before), b, rest. split; [done|].
      split; [cbn [concat]; by rewrite <-(assoc (++)), Hc|]. by split; [constructor|].
    + destruct Herr as [Hc ?]. split; [cbn [concat]; by rewrite Hc|by constructor].
Qed.

(** [arrivals] are the first values of some interleaving of what the goroutines send. *)
Inductive interleaving {A} : list A → list A → list A → Prop :=
  | Inter_stop a b : interleaving a b []
  | Inter_left x a b l : interleaving a b l → interleaving (x :: a) b (x :: l)
  | Inter_right x a b l : interleaving a b l → interleaving a (x :: b) (x :: l).

Lemma handshake_loop_ok sent read arrivals :
  (sent = [None] ∨ ∃ e, sent = [Some e] ∨ ∃ last, sent = [Some e; last]) →
  interleaving sent [read] arrivals → handshake_loop 2 arrivals = None → sent = [None] ∧ read = None.
Proof.
  intros Hsent Hint Hloop. assert (∃ x y l, arrivals = x :: y :: l ∧ x = None ∧ y = None) as (? & ? & l & -> & -> & ->).
  { destruct arrivals as [|[?|] [|[?|] ?]]; simplify_eq/=. eauto 10. }
  destruct Hsent as [->|(e & [->|[last ->]])]; repeat (match goal with H : interleaving _ _ (_ :: _) |- _ => inversion H; clear H end; simplify_eq/=); done.
Qed.

(** A handshake succeeds only if this node's handshake and progress were sent and the
    remote's first message is a handshake for the same genesis, network and version. *)
Theorem handshake_agrees network (progress : PeerProgress EventID) genesis msg order `{Semaphore S} (p : peer EventID S) :
  (∀ a b, interleaving a b (order a b)) →
  Handshake p2p_Send network progress genesis msg order p = None →
  p2p_Send HandshakeMsg (PHandshake (mkHandshake (u32 (p_version p)) network genesis)) = None ∧
  p2p_Send ProgressMsg (PProgress progress) = None ∧
  ∃ size payload, msg = inl (mkMsg HandshakeMsg size payload) ∧ size <= protocolMaxMsgSize ∧
    decode_handshake payload = Some (mkHandshake (p_version p) network genesis).
Proof.
  intros Horder Hh.
  assert (Hcases : ∀ v, let sent := handshake_sent p2p_Send network progress genesis v in
    sent = [None] ∨ ∃ e, sent = [Some e] ∨ ∃ last, sent = [Some e; last]).
  { intros v. unfold handshake_sent, SendProgress. destruct (p2p_Send HandshakeMsg _); [|destruct (p2p_Send ProgressMsg _)]; eauto. }
  destruct (handshake_loop_ok _ _ _ (Hcases _) (Horder _ _) Hh) as [Hsent Hread]. clear Hcases Hh.
  unfold handshake_sent, SendProgress in Hsent. destruct (p2p_Send HandshakeMsg _); simplify_eq.
  split; [done|]. split; [done|]. unfold readStatus in Hread. destruct msg as [[code size payload]|]; [|done]. simpl in Hread.
  destruct (Z.eqb_spec code HandshakeMsg); [|done]. destruct (Z.ltb_spec protocolMaxMsgSize size); [done|]. simpl in Hread.
  destruct (decode_handshake payload) as [[v n g]|] eqn:Ed; [|done]. simpl in Hread. case_bool_decide; [|done]. destruct (Z.eqb_spec n network); [|done].
  destruct (Z.eqb_spec v (p_version p)); [|done]. subst. eauto.
Qed.
End batches.

(** ** Instances *)

(** The first of the elements. *)
#[global] Instance pop_first (A : Type) `{Countable A} : SetPop A := { pop_choice X := head (elements X) }.
#[global] Instance pop_first_laws (A : Type) `{Countable A} : SetPopLaws A.
Proof.
  split; [by simpl; rewrite elements_empty|]. intros X HX. simpl. destruct (elements X) as [|x l] eqn:E.
  - by apply elements_empty_iff, leibniz_equiv in E.
  - exists x. split; [|done]. apply elem_of_elements. rewrite E. set_solver.
Qed.

(** A semaphore that refuses what does not fit. *)
Record CountingSemaphore := mkCountingSemaphore { cs_max : Metric; cs_used : Metric }.

Definition cs_fits (w : Metric) (s : CountingSemaphore) : bool :=
  (m_Num (cs_used s) + m_Num w <=? m_Num (cs_max s)) && (m_Size (cs_used s) + m_Size w <=? m_Size (cs_max s)).

Definition cs_acquire (w : Metric) (s : CountingSemaphore) : bool * CountingSemaphore :=
  if cs_fits w s then (true, mkCountingSemaphore (cs_max s) (metric_add (cs_used s) w)) else (false, s).

#[global] Instance counting_semaphore : Semaphore CountingSemaphore := {
  sem_processing := cs_used;
  sem_limit := cs_max;
  sem_TryAcquire := cs_acquire;
  sem_Acquire := cs_acquire;
  sem_Release w s := mkCountingSemaphore (cs_max s) (metric_sub (cs_used s) w);
  sem_Terminate s := mkCountingSemaphore (mkMetric 0 0) (cs_used s);
}.
#[global] Instance counting_semaphore_laws : SemaphoreLaws CountingSemaphore.
Proof.
  assert (Hacq : ∀ w s, acquired w s (cs_acquire w s)).
  { intros w s. unfold acquired, cs_acquire, cs_fits. case_match eqn:E; simpl; [|done].
    apply andb_true_iff in E as [?%Z.leb_le ?%Z.leb_le]. done. }
  by split.
Qed.

Definition demo_peer_config : PeerCacheConfig := mkPeerCacheConfig 3 3 2 4096.
Definition demo_peer (id : string) : peer Hash CountingSemaphore :=
  NewPeer 62 id demo_peer_config (λ limit, mkCountingSemaphore limit (mkMetric 0 0)).

Lemma demo_peer_ok id : peer_ok (demo_peer id).
Proof. by apply NewPeer_ok. Qed.

Definition demo_items : list broadcastItem := [mkItem ProgressMsg [1]; mkItem EventsMsg [2; 3]; mkItem EventsMsg [4]].
Definition demo_queue_ops : list queue_op :=
  (QTry <$> demo_items) ++ [QPut 1; QTake; QPut 0; QRelease; QWait (mkItem EventsMsg [5]); QClose; QStop].

Definition demo_queue_view (s : queue_state Hash CountingSemaphore) : list broadcastItem * list broadcastItem * list broadcastItem :=
  (q_sent s, p_queue (q_peer s), q_acquired s).

Lemma demo_queue_runs :
  (demo_queue_view <$> queue_run demo_queue_ops (queue_start (demo_peer "a")))
  = Some ([mkItem EventsMsg [2; 3]], [mkItem ProgressMsg [1]], [mkItem EventsMsg [5]]).
Proof. vm_compute. reflexivity. Qed.

Lemma demo_queue_stops : (q_writing <$> queue_run demo_queue_ops (queue_start (demo_peer "a"))) = Some false.
Proof. vm_compute. reflexivity. Qed.

(** The writer left with an item in the channel, and a sender still holds one. *)
Lemma peer_queue_safe_witness :
  ∃ s, queue_run demo_queue_ops (queue_start (demo_peer "a")) = Some s ∧
    demo_queue_view s = ([mkItem EventsMsg [2; 3]], [mkItem ProgressMsg [1]], [mkItem EventsMsg [5]]) ∧
    is_Some (queue_step (QPut 0) s) ∧ q_writing s = false ∧ p_term (q_peer s) = true.
Proof.
  pose proof demo_queue_runs as Hview. pose proof demo_queue_stops as Hstop. destruct (queue_run demo_queue_ops (queue_start (demo_peer "a"))) as [s|] eqn:E; [|done].
  pose proof (peer_queue_safe demo_queue_ops (demo_peer "a") s (demo_peer_ok "a") eq_refl eq_refl E) as (_ & _ & Hput & _ & Hw & _).
  apply (inj Some) in Hview. apply (inj Some) in Hstop. pose proof (f_equal snd Hview : q_acquired s = [mkItem EventsMsg [5]]) as Hacq.
  exists s. split; [reflexivity|]. split; [exact Hview|].
  split; [apply Hput; rewrite Hacq; simpl; lia|]. split; [exact Hstop|exact (proj1 (Hw Hstop))].
Defined.
