(* ===== verification/Handler.v ===== *)
(** * The protocol manager (gossip/handler.go, gossip/sync.go)

    The handler of each connection, the broadcasts and the loops of the node work on one
    set of peers, whose objects they share.  Calls to the fetchers, the event processor, the
    leecher, the seeder and the transaction pool are recorded in order. *)

From S2P Require Import Prelude Cser Inter Instances Heap Rules Pos EvmState GasPower EventCheck EvmBlock Peer.

Definition txChanSize : Z := 4096.

Definition DiscTooManyPeers : error := NewError "p2p.DiscTooManyPeers".

Definition checkLenLimits (size : Z) : option error :=
  if size <=? 0 then Some (errResp ErrEmptyMessage)
  else if hardLimitItems <? size then Some (errResp ErrMsgTooLarge)
  else None.

(** The fields of [Config.Protocol] that the handler reads. *)
Record ProtocolConfig := mkProtocolConfig {
  LatencyImportance : Z;
  ThroughputImportance : Z;
  MaxInitialTxHashesSend : Z;
  MaxRandomTxHashesSend : Z;
  DefaultChunkSize_Num : Z;
  ParallelChunksDownload : Z;
}.

(** What the components beside the handler are asked to do. *)
Inductive Call (EventID : Type) `{DagStream} :=
  | DagNotifyAnnounces (peer : string) (ids : list EventID)
  | DagNotifyReceived (ids : list EventID)
  | TxNotifyAnnounces (peer : string) (txids : list (list Z))
  | TxNotifyReceived (txids : list (list Z))
  | AddRemotes (txs : list Transaction)
  | ProcessorEnqueue (peer : string) (events : list (EventPayload EventID)) (ordered : bool)
  | ProcessorClear
  | LeecherForceSyncing
  | LeecherRegisterPeer (peer : string)
  | LeecherUnregisterPeer (peer : string)
  | LeecherNotifyChunk (session : Z) (last : EventID) (done : bool)
  | LeecherOnNewEpoch (epoch : Z)
  | SeederNotifyRequest (peer : string) (r : StreamRequest)
  | SeederUnregisterPeer (peer : string)
  | Disconnect (peer : string)
  | TxSync (peer : nat) (txids : list (list Z)).
Arguments DagNotifyAnnounces {_ _}. Arguments DagNotifyReceived {_ _}. Arguments TxNotifyAnnounces {_ _}.
Arguments TxNotifyReceived {_ _}. Arguments AddRemotes {_ _}. Arguments ProcessorEnqueue {_ _}. Arguments ProcessorClear {_ _}.
Arguments LeecherForceSyncing {_ _}. Arguments LeecherRegisterPeer {_ _}. Arguments LeecherUnregisterPeer {_ _}.
Arguments LeecherNotifyChunk {_ _}. Arguments LeecherOnNewEpoch {_ _}. Arguments SeederNotifyRequest {_ _}.
Arguments SeederUnregisterPeer {_ _}. Arguments Disconnect {_ _}. Arguments TxSync {_ _}.

(** What the handler reads of the store, the pool and the processor at one time. *)
Record View (EventID : Type) := mkView {
  v_Epoch : Z;
  v_LastBlock : Z;
  v_LastAtropos : EventID;
  v_LatestBlockIndex : Z;
  v_HighestLamport : Z;
  v_Genesis : list Z;
  v_HasEvent : EventID → bool;
  v_GetEventPayloadRLP : EventID → option (list Z);
  v_IsBuffered : EventID → bool;
  v_pool_Get : list Z → option Transaction;
  v_SampleHashes : Z → list (list Z);
}.
Arguments mkView {_}. Arguments v_Epoch {_}. Arguments v_LastBlock {_}. Arguments v_LastAtropos {_}.
Arguments v_LatestBlockIndex {_}. Arguments v_HighestLamport {_}. Arguments v_Genesis {_}. Arguments v_HasEvent {_}.
Arguments v_GetEventPayloadRLP {_}. Arguments v_IsBuffered {_}. Arguments v_pool_Get {_}. Arguments v_SampleHashes {_}.

Record ProtocolManager (EventID S : Type) `{Countable EventID} `{DagStream} := mkPM {
  pm_config : ProtocolConfig;
  pm_net_NetworkID : Z;
  pm_synced : bool;
  pm_maxPeers : Z;
  pm_peers : peerSet;
  pm_heap : gmap nat (peer EventID S);
  pm_msgSemaphore : S;
  pm_calls : list (Call EventID);
}.
Arguments mkPM {EventID S _ _ _}. Arguments pm_config {EventID S _ _ _}. Arguments pm_net_NetworkID {EventID S _ _ _}.
Arguments pm_synced {EventID S _ _ _}. Arguments pm_maxPeers {EventID S _ _ _}. Arguments pm_peers {EventID S _ _ _}.
Arguments pm_heap {EventID S _ _ _}. Arguments pm_msgSemaphore {EventID S _ _ _}. Arguments pm_calls {EventID S _ _ _}.

Fixpoint mfoldl {A B} (f : A → B → option B) (l : list A) (b : B) : option B :=
  match l with [] => Some b | x :: l' => b ← f x b; mfoldl f l' b end.

Section handler.
Context {EventID : Type} `{EventIDs EventID} `{!Countable EventID} {S : Type} `{Semaphore S} `{TxLib} `{MapRange}
  `{MsgDecode EventID}.
Context `{!SetPop (list Z)} `{!SetPop EventID}.
Variable tx_Size : Transaction → Z.
Variable rlp_Encode : Payload EventID → option (list Z).
Variable select_term : broadcastItem → bool.
(** The errors of the connections, of the leecher and of the seeder. *)
Variable p2p_Send : PeerRef → Z → Payload EventID → option error.
Variable leecher_RegisterPeer : string → option error.
Variable seeder_NotifyRequestReceived : string → StreamRequest → option error.
Notation peer := (peer EventID S).
Notation PM := (ProtocolManager EventID S).
Notation View := (View EventID).
Notation Ev := (EventPayload EventID).

Definition set_synced (x : bool) (pm : PM) : PM :=
  mkPM (pm_config pm) (pm_net_NetworkID pm) x (pm_maxPeers pm) (pm_peers pm) (pm_heap pm) (pm_msgSemaphore pm) (pm_calls pm).
Definition set_peers (x : peerSet) (pm : PM) : PM :=
  mkPM (pm_config pm) (pm_net_NetworkID pm) (pm_synced pm) (pm_maxPeers pm) x (pm_heap pm) (pm_msgSemaphore pm) (pm_calls pm).
Definition set_heap (x : gmap nat peer) (pm : PM) : PM :=
  mkPM (pm_config pm) (pm_net_NetworkID pm) (pm_synced pm) (pm_maxPeers pm) (pm_peers pm) x (pm_msgSemaphore pm) (pm_calls pm).
Definition set_msgSemaphore (x : S) (pm : PM) : PM :=
  mkPM (pm_config pm) (pm_net_NetworkID pm) (pm_synced pm) (pm_maxPeers pm) (pm_peers pm) (pm_heap pm) x (pm_calls pm).
Definition call (c : Call EventID) (pm : PM) : PM :=
  mkPM (pm_config pm) (pm_net_NetworkID pm) (pm_synced pm) (pm_maxPeers pm) (pm_peers pm) (pm_heap pm) (pm_msgSemaphore pm)
    (pm_calls pm ++ [c]).

(** The network rules are not set: [pm.net] keeps its zero value. *)
Definition newHandler (config : ProtocolConfig) (maxPeers : Z) (msgSemaphore : S) : PM :=
  mkPM config 0 false maxPeers newPeerSet ∅ msgSemaphore [].

(** A method of the peer [r]. *)
Definition on_peer (r : PeerRef) (f : peer → option peer) (pm : PM) : option PM :=
  p ← pm_heap pm !! r;
  p' ← f p;
  Some (set_heap (<[r := p']> (pm_heap pm)) pm).

Definition peer_id (r : PeerRef) (pm : PM) : string := default "" (p_id <$> pm_heap pm !! r).

(** ** Which events are of interest *)

Definition onlyNotConnectedEvents (v : View) (ids : list EventID) : list EventID :=
  filter (λ id, v_HasEvent v id = false) ids.

Definition isEventInterested (v : View) (id : EventID) (epoch : Z) : bool :=
  if negb (id_Epoch id =? epoch) then false
  else if v_IsBuffered v id || v_HasEvent v id then false
  else true.

Definition onlyInterestedEvents (v : View) (ids : list EventID) : list EventID :=
  filter (λ id, isEventInterested v id (v_Epoch v) = true) ids.

(** ** Peers *)

Definition removePeer (id : string) (pm : PM) : PM :=
  match peers_Peer id (pm_peers pm) with
  | None => pm
  | Some r =>
      let pm := call (LeecherUnregisterPeer id) pm in
      let pm := call (SeederUnregisterPeer id) pm in
      let '(_, ps, h) := Unregister id (pm_peers pm) (pm_heap pm) in
      call (Disconnect id) (set_heap h (set_peers ps pm))
  end.

Definition peerMisbehaviour (id : string) (err : option error) (pm : PM) : bool * PM :=
  if IsBan err then (true, removePeer id pm) else (false, pm).

Definition myProgress (v : View) : PeerProgress EventID := mkPeerProgress (v_Epoch v) (v_LastBlock v) (v_LastAtropos v) 0.

Definition highestPeerProgress (v : View) (pm : PM) : PeerProgress EventID :=
  foldl (λ max r,
      match pm_heap pm !! r with
      | Some p => if pp_LastBlockIdx max <? pp_LastBlockIdx (p_progress p) then p_progress p else max
      | None => max
      end)
    (myProgress v) (peers_List (pm_peers pm)).

Record NodeInfo := mkNodeInfo { ni_Network : Z; ni_Genesis : list Z; ni_Epoch : Z; ni_NumOfBlocks : Z }.
Definition pm_NodeInfo (v : View) (pm : PM) : NodeInfo :=
  mkNodeInfo (pm_net_NetworkID pm) (v_Genesis v) (v_Epoch v) (v_LatestBlockIndex v).

Definition syncTransactions (r : PeerRef) (txids : list (list Z)) (pm : PM) : PM :=
  if len txids =? 0 then pm else call (TxSync r txids) pm.

(** The start of [handle]: the error that it returns, or none when it goes on to the
    messages.  An error of the leecher leaves before the deferred removal is set up. *)
Definition handle_start (v : View) (trusted : bool) (r : PeerRef) (msg : Msg + error)
    (order : list (option error) → list (option error) → list (option error)) (pm : PM) : option (option error * PM) :=
  p ← pm_heap pm !! r;
  if (pm_maxPeers pm <=? peers_Len (pm_peers pm)) && negb trusted then Some (Some DiscTooManyPeers, pm)
  else
    match Handshake (p2p_Send r) (pm_net_NetworkID pm) (myProgress v) (v_Genesis v) msg order p with
    | Some err => Some (Some err, pm)
    | None =>
        let '(err, ps) := Register r p (pm_peers pm) in
        match err with
        | Some err => Some (Some err, pm)
        | None =>
            let pm := call (LeecherRegisterPeer (p_id p)) (set_peers ps pm) in
            match leecher_RegisterPeer (p_id p) with
            | Some err => Some (Some err, pm)
            | None => Some (None, syncTransactions r (v_SampleHashes v (MaxInitialTxHashesSend (pm_config pm))) pm)
            end
        end
    end.

(** ** Messages *)

Definition handleTxHashes (r : PeerRef) (announces : list (list Z)) (pm : PM) : option PM :=
  pm ← on_peer r (mfoldl MarkTransaction announces) pm;
  Some (call (TxNotifyAnnounces (peer_id r pm) announces) pm).

Definition handleTxs (r : PeerRef) (txs : list Transaction) (pm : PM) : option PM :=
  pm ← on_peer r (mfoldl MarkTransaction (tx_Hash <$> txs)) pm;
  Some (call (AddRemotes txs) pm).

Definition maxLamport (v : View) (cfg : ProtocolConfig) : Z :=
  u32 (v_HighestLamport v + u32 (u32 (DefaultChunkSize_Num cfg + 1) * u32 (ParallelChunksDownload cfg))).

Definition handleEventHashes (v : View) (r : PeerRef) (announces : list EventID) (pm : PM) : option PM :=
  pm ← on_peer r (mfoldl MarkEvent announces) pm;
  let notTooHigh := filter (λ id, id_Lamport id <= maxLamport v (pm_config pm)) announces in
  let pm := if negb (len announces =? len notTooHigh) then call LeecherForceSyncing pm else pm in
  if len notTooHigh =? 0 then Some pm
  else Some (call (DagNotifyAnnounces (peer_id r pm) notTooHigh) pm).

Definition handleEvents (v : View) (r : PeerRef) (events : list Ev) (ordered : bool) (pm : PM) : option PM :=
  pm ← on_peer r (mfoldl MarkEvent (event_ids events)) pm;
  let notTooHigh := filter (λ e, Lamport (ev_base (ep_event e)) <= maxLamport v (pm_config pm)) events in
  let pm := if negb (len events =? len notTooHigh) then call LeecherForceSyncing pm else pm in
  if len notTooHigh =? 0 then Some pm
  else Some (call (ProcessorEnqueue (peer_id r pm) notTooHigh ordered) pm).

(** The events that are found, until they reach the size limit. *)
Fixpoint gather_events (v : View) (requests : list EventID) (size : Z) : list (list Z * EventID) :=
  match requests with
  | [] => []
  | id :: requests' =>
      match v_GetEventPayloadRLP v id with
      | Some raw =>
          let size := size + len raw in
          (raw, id) :: if softResponseLimitSize <=? size then [] else gather_events v requests' size
      | None => if softResponseLimitSize <=? size then [] else gather_events v requests' size
      end
  end.

Notation result := (option (option error * PM)).

Definition done (pm : option PM) : result := pm ← pm; Some (None, pm).

(** [msg.Decode], the error of the length, and what follows. *)
Definition decoded {A} (x : option A) (pm : PM) (f : A → result) : result :=
  match x with None => Some (Some (errResp ErrDecode), pm) | Some a => f a end.
Definition limited (size : Z) (pm : PM) (f : result) : result :=
  match checkLenLimits size with Some err => Some (Some err, pm) | None => f end.

Definition on_stream_request (r : PeerRef) (request : StreamRequest) (pm : PM) : result :=
  if hardLimitItems - 1 <? m_Num (request_Limit request) then Some (Some (errResp ErrMsgTooLarge), pm)
  else if Z.quot (protocolMaxMsgSize * 2) 3 <? m_Size (request_Limit request) then Some (Some (errResp ErrMsgTooLarge), pm)
  else
    let pm' := call (SeederNotifyRequest (peer_id r pm) request) pm in
    Some (seeder_NotifyRequestReceived (peer_id r pm) request, pm').

Definition on_chunk (v : View) (r : PeerRef) (chunk : epochChunk EventID) (pm : PM) : result :=
  limited (len (ch_Events chunk) + len (ch_IDs chunk) + 1) pm (
    if negb (len (ch_Events chunk) =? 0) && negb (len (ch_IDs chunk) =? 0)
    then Some (Some (NewError "expected either events or event hashes"), pm)
    else
      pm ← (if negb (len (ch_IDs chunk) =? 0) then handleEventHashes v r (ch_IDs chunk) pm else Some pm);
      let last1 := if negb (len (ch_IDs chunk) =? 0) then default zero_ID (last (ch_IDs chunk)) else zero_ID in
      pm ← (if negb (len (ch_Events chunk) =? 0) then handleEvents v r (ch_Events chunk) true pm else Some pm);
      let last2 := if negb (len (ch_Events chunk) =? 0) then default zero_ID (last (event_ids (ch_Events chunk))) else last1 in
      Some (None, call (LeecherNotifyChunk (ch_SessionID chunk) last2 (ch_Done chunk)) pm)).

(** The switch on the code of the message. *)
Definition dispatch (v : View) (r : PeerRef) (code : Z) (payload : list Z) (pm : PM) : result :=
  if code =? HandshakeMsg then Some (Some (errResp ErrExtraStatusMsg), pm)
  else if code =? ProgressMsg then
    decoded (decode_progress payload) pm (λ progress,
      pm ← on_peer r (λ p, Some (SetProgress progress p)) pm;
      Some (None, if pp_Epoch progress =? v_Epoch v then set_synced true pm else pm))
  else if code =? EvmTxsMsg then
    if negb (pm_synced pm) then Some (None, pm)
    else decoded (decode_txs payload) pm (λ txs, limited (len txs) pm (
      done (handleTxs r txs (call (TxNotifyReceived (tx_Hash <$> txs)) pm))))
  else if code =? NewEvmTxHashesMsg then
    if negb (pm_synced pm) then Some (None, pm)
    else decoded (decode_hashes payload) pm (λ txHashes, limited (len txHashes) pm (done (handleTxHashes r txHashes pm)))
  else if code =? GetEvmTxsMsg then
    decoded (decode_hashes payload) pm (λ requests, limited (len requests) pm (
      let txs := omap (v_pool_Get v) requests in
      done (on_peer r (mfoldl (EnqueueSendTransactions rlp_Encode select_term) (SplitTransactions tx_Size txs)) pm)))
  else if code =? EventsMsg then
    decoded (decode_events payload) pm (λ events, limited (len events) pm (
      done (handleEvents v r events (1 <? len events) (call (DagNotifyReceived (event_ids events)) pm))))
  else if code =? NewEventIDsMsg then
    if negb (pm_synced pm) then Some (None, pm)
    else decoded (decode_ids payload) pm (λ announces, limited (len announces) pm (done (handleEventHashes v r announces pm)))
  else if code =? GetEventsMsg then
    decoded (decode_ids payload) pm (λ requests, limited (len requests) pm (
      let found := gather_events v requests 0 in
      if negb (len found =? 0) then done (on_peer r (EnqueueSendEventsRLP rlp_Encode select_term found.*1 found.*2) pm)
      else Some (None, pm)))
  else if code =? RequestEventsStream then decoded (decode_request payload) pm (λ request, on_stream_request r request pm)
  else if code =? EventsStreamResponse then decoded (decode_chunk payload) pm (λ chunk, on_chunk v r chunk pm)
  else Some (Some (errResp ErrInvalidMsgCode), pm).

Definition handleMsg (v : View) (r : PeerRef) (msg : Msg + error) (pm : PM) : result :=
  match msg with
  | inr err => Some (Some err, pm)
  | inl msg =>
      if protocolMaxMsgSize <? msg_Size msg then Some (Some (errResp ErrMsgTooLarge), pm)
      else
        let eventsSizeEst := mkMetric 1 (msg_Size msg) in
        let '(ok, sem) := sem_Acquire eventsSizeEst (pm_msgSemaphore pm) in
        let pm := set_msgSemaphore sem pm in
        if negb ok then Some (None, pm)
        else
          '(err, pm) ← dispatch v r (msg_Code msg) (msg_Payload msg) pm;
          Some (err, set_msgSemaphore (sem_Release eventsSizeEst (pm_msgSemaphore pm)) pm)
  end.

(** ** Broadcasts *)

(** [math.Sqrt] of a number of peers is exact enough for its whole part. *)
Definition decideBroadcastAggressiveness (cfg : ProtocolConfig) (size passed peersNum : Z) : Z :=
  let percents := 100 in
  let maxPercents := 1000000 * percents in
  let tradeoff :=
    if negb (ThroughputImportance cfg =? 0)
    then i64 (Z.quot (i64 (LatencyImportance cfg * percents)) (ThroughputImportance cfg)) else maxPercents in
  let broadcastCost := Z.quot (i64 (passed * i64 (128 + size))) 128 in
  let broadcastAllCostTarget := Z.quot (i64 (tradeoff * (700 * 1000000))) percents in
  let broadcastSqrtCostTarget := i64 (broadcastAllCostTarget * 10) in
  let fullRecipients :=
    if maxPercents <=? tradeoff then peersNum
    else if tradeoff <=? 0 then 0
    else if broadcastCost <=? broadcastAllCostTarget then peersNum
    else if (broadcastCost <=? broadcastSqrtCostTarget) || (passed =? 0) then Z.max 4 (Z.sqrt peersNum)
    else 0 in
  if peersNum <? fullRecipients then peersNum else fullRecipients.

Variable event_Size : Ev → Z.

Definition BroadcastEvent (event : Ev) (passed : Z) (pm : PM) : option (Z * PM) :=
  let passed := if passed <? 0 then 0 else passed in
  let id := ID (ev_base (ep_event event)) in
  let peers := PeersWithoutEvent id (pm_peers pm) (pm_heap pm) in
  if len peers =? 0 then Some (0, pm)
  else
    let fullRecipients := Z.to_nat (decideBroadcastAggressiveness (pm_config pm) (event_Size event) passed (len peers)) in
    pm ← mfoldl (λ r, on_peer r (λ p, snd <$> AsyncSendEvents rlp_Encode select_term [event] p)) (take fullRecipients peers) pm;
    pm ← mfoldl (λ r, on_peer r (AsyncSendEventIDs rlp_Encode select_term [id])) (drop fullRecipients peers) pm;
    Some (len peers, pm).

(** [txset]: what each peer is to get. *)
Definition txset_add (pm : PM) (txset : gmap PeerRef (list Transaction)) (tx : Transaction) : gmap PeerRef (list Transaction) :=
  foldl (λ m r, <[r := default [] (m !! r) ++ [tx]]> m) txset (PeersWithoutTx (tx_Hash tx) (pm_peers pm) (pm_heap pm)).

Definition make_txset (txs : list Transaction) (pm : PM) : gmap PeerRef (list Transaction) := foldl (txset_add pm) ∅ txs.

Definition send_batch (full : bool) (batch : list Transaction) (p : peer) : option peer :=
  if full then AsyncSendTransactions rlp_Encode select_term batch p
  else AsyncSendTransactionHashes rlp_Encode select_term (tx_Hash <$> batch) p.

Definition send_txset (fullRecipients i : Z) (txset : list (PeerRef * list Transaction)) (pm : PM) : option PM :=
  snd <$> mfoldl (λ '(r, txs) '(i, pm),
      pm ← on_peer r (mfoldl (send_batch (i <? fullRecipients)) (SplitTransactions tx_Size txs)) pm;
      Some (i + 1, pm))
    txset (i, pm).

Definition BroadcastTxs (txs : list Transaction) (pm : PM) : option PM :=
  let txset := make_txset txs pm in
  let totalSize := foldl (λ n tx, n + tx_Size tx) 0 txs in
  let fullRecipients := decideBroadcastAggressiveness (pm_config pm) totalSize 1000000000 (Z.of_nat (size txset)) in
  send_txset fullRecipients 0 (range_of txset) pm.

Definition broadcastProgress (v : View) (pm : PM) : option PM :=
  mfoldl (λ r, on_peer r (λ p, Some (AsyncSendProgress rlp_Encode select_term (myProgress v) p))) (peers_List (pm_peers pm)) pm.

(** One round of [onNewEpochLoop], and of the ticker of [txBroadcastLoop]. *)
Definition onNewEpoch (myEpoch : Z) (pm : PM) : PM :=
  let pm := call ProcessorClear pm in
  let pm :=
    if negb (pm_synced pm) then
      let synced := existsb (holds (λ p, pp_Epoch (p_progress p) =? myEpoch) (pm_heap pm)) (peers_List (pm_peers pm)) in
      if synced then set_synced true pm else pm
    else pm in
  call (LeecherOnNewEpoch myEpoch) pm.

Definition txBroadcastTick (v : View) (rand_Intn : Z → Z) (pm : PM) : PM :=
  if negb (pm_synced pm) then pm
  else
    let peers := peers_List (pm_peers pm) in
    if len peers =? 0 then pm
    else
      match peers !! Z.to_nat (rand_Intn (len peers)) with
      | Some randPeer => syncTransactions randPeer (v_SampleHashes v (MaxRandomTxHashesSend (pm_config pm))) pm
      | None => pm
      end.

(** The callbacks of the event processor: an event that was connected is broadcast by a node
    that is in sync; the peer of an event that was refused may have to go. *)
Definition on_connected (event : Ev) (passed : Z) (pm : PM) : option PM :=
  if pm_synced pm then snd <$> BroadcastEvent event passed pm else Some pm.

Definition on_released (id : string) (err : option error) (pm : PM) : PM := if IsBan err then removePeer id pm else pm.

(** ** The node *)

(** The handlers that are in their message loops, by peer. *)
Record node := mkNode { nd_pm : PM; nd_running : gset PeerRef }.

Inductive node_op :=
  | NConnect (r : PeerRef) (p : peer) (trusted : bool) (msg : Msg + error)
      (order : list (option error) → list (option error) → list (option error))
  | NMsg (r : PeerRef) (msg : Msg + error)
  | NProcessed (event : Ev) (passed : Z)
  | NEmitted (event : Ev)
  | NTxs (txs : list Transaction)
  | NProgress
  | NNewEpoch (epoch : Z)
  | NTick (rand_Intn : Z → Z)
  | NMisbehaviour (id : string) (err : option error)
  | NReleased (id : string) (err : option error)
  | NWrite (r : PeerRef)
  | NClose.

Definition to_running (n : node) (pm : option PM) : option node := (λ pm, mkNode pm (nd_running n)) <$> pm.

(** One step of one of the goroutines.  A new connection's peer is a new object; a handler
    that returns removes its peer. *)
Definition node_step (v : View) (op : node_op) (n : node) : option node :=
  let pm := nd_pm n in
  match op with
  | NConnect r p trusted msg order =>
      match pm_heap pm !! r with
      | Some _ => Some n
      | None =>
          '(err, pm) ← handle_start v trusted r msg order (set_heap (<[r := p]> (pm_heap pm)) pm);
          Some (mkNode pm (if err is Some _ then nd_running n else {[r]} ∪ nd_running n))
      end
  | NMsg r msg =>
      if bool_decide (r ∈ nd_running n) then
        '(err, pm) ← handleMsg v r msg pm;
        if err is Some _ then Some (mkNode (removePeer (peer_id r pm) pm) (nd_running n ∖ {[r]}))
        else Some (mkNode pm (nd_running n))
      else Some n
  | NProcessed event passed => to_running n (on_connected event passed pm)
  | NEmitted event => to_running n (snd <$> BroadcastEvent event 0 pm)
  | NTxs txs => to_running n (BroadcastTxs txs pm)
  | NProgress => to_running n (broadcastProgress v pm)
  | NNewEpoch epoch => to_running n (Some (onNewEpoch epoch pm))
  | NTick rand_Intn => to_running n (Some (txBroadcastTick v rand_Intn pm))
  | NMisbehaviour id err => to_running n (Some (peerMisbehaviour id err pm).2)
  | NReleased id err => to_running n (Some (on_released id err pm))
  | NWrite r =>
      match pm_heap pm !! r ≫= broadcast_one with
      | Some (_, p) => to_running n (Some (set_heap (<[r := p]> (pm_heap pm)) pm))
      | None => Some n
      end
  | NClose => to_running n (Some (set_peers (peers_Close (pm_peers pm)) pm))
  end.

Fixpoint node_run (ops : list (View * node_op)) (n : node) : option node :=
  match ops with [] => Some n | (v, op) :: ops' => node_step v op n ≫= node_run ops' end.
End handler.

(** ** What holds of the node *)

Section handler_facts.
Context {EventID : Type} `{EventIDs EventID} `{!Countable EventID} {S : Type} `{SemaphoreLaws S} `{TxLib} `{MapRangeLaws}
  `{MsgDecode EventID}.
Context `{!SetPop (list Z)} `{!SetPopLaws (list Z)} `{!SetPop EventID} `{!SetPopLaws EventID}.
Variable tx_Size : Transaction → Z.
Variable rlp_Encode : Payload EventID → option (list Z).
Variable select_term : broadcastItem → bool.
Variable p2p_Send : PeerRef → Z → Payload EventID → option error.
Variable leecher_RegisterPeer : string → option error.
Variable seeder_NotifyRequestReceived : string → StreamRequest → option error.
Variable event_Size : EventPayload EventID → Z.
Notation peer := (peer EventID S).
Notation PM := (ProtocolManager EventID S).
Implicit Types p q : peer.
Implicit Types pm : PM.

(** The set refers to open peers under their ids; every peer is within its limits. *)
Record pm_ok pm : Prop := {
  pk_heap : map_Forall (λ _, peer_ok) (pm_heap pm);
  pk_set : ∀ id r, ps_peers (pm_peers pm) !! id = Some r → ∃ p, pm_heap pm !! r = Some p ∧ p_id p = id ∧ p_term p = false;
}.

Section calls.
(** Which calls may be made. *)
Variable allowed : Call EventID → Prop.

(** What the work on the peers keeps. *)
Record pm_kept pm pm' : Prop := {
  pk_peers : pm_peers pm' = pm_peers pm;
  pk_dom : dom (pm_heap pm') = dom (pm_heap pm);
  pk_sem : pm_msgSemaphore pm' = pm_msgSemaphore pm;
  pk_config : pm_config pm' = pm_config pm;
  pk_net : pm_net_NetworkID pm' = pm_net_NetworkID pm;
  pk_synced : pm_synced pm' = pm_synced pm;
  pk_calls : ∃ calls, pm_calls pm' = pm_calls pm ++ calls ∧ Forall allowed calls;
}.

#[global] Instance pm_kept_preorder : PreOrder pm_kept.
Proof.
  split.
  - intros pm. constructor; try done. exists []. by rewrite app_nil_r.
  - intros a b c [] []. constructor; try congruence.
    destruct pk_calls0 as (l & El & ?), pk_calls1 as (k & Ek & ?). exists (l ++ k). rewrite Ek, El, (assoc (++)).
    split; [done|]. by apply Forall_app.
Qed.

Definition went_on pm (r : option PM) : Prop := ∃ pm', r = Some pm' ∧ pm_ok pm' ∧ pm_kept pm pm'.

Lemma went_on_bind pm r (f : PM → option PM) :
  went_on pm r → (∀ pm', pm_ok pm' → pm_kept pm pm' → went_on pm' (f pm')) → went_on pm (r ≫= f).
Proof.
  intros (pm1 & -> & Ho & Hk) Hf. destruct (Hf pm1 Ho Hk) as (pm2 & Hr & ? & Hk2). exists pm2. split; [done|]. split; [done|].
  by etrans.
Qed.

Lemma went_on_here pm : pm_ok pm → went_on pm (Some pm).
Proof. by exists pm. Qed.

Lemma call_ok c pm : pm_ok pm → allowed c → went_on pm (Some (call c pm)).
Proof.
  intros [] Hc. exists (call c pm). split; [done|]. split; constructor; try done. exists [c]. split; [done|by constructor].
Qed.

(** A method that keeps the peer's identity. *)
Definition keeps_peer (f : peer → option peer) : Prop :=
  ∀ p, peer_ok p → ∃ q, f p = Some q ∧ peer_ok q ∧ p_id q = p_id p ∧ p_term q = p_term p.

Lemma went_well_keeps (f : peer → option peer) : (∀ p, peer_ok p → went_well p (f p)) → keeps_peer f.
Proof. intros Hf p Hp. destruct (Hf p Hp) as (q & ? & ? & []). eauto. Qed.

Lemma write_peer_ok r p q pm :
  pm_ok pm → pm_heap pm !! r = Some p → peer_ok q → p_id q = p_id p → p_term q = p_term p →
  went_on pm (Some (set_heap (<[r := q]> (pm_heap pm)) pm)).
Proof.
  clear tx_Size rlp_Encode select_term p2p_Send leecher_RegisterPeer seeder_NotifyRequestReceived event_Size.
  intros [Hh Hs] Hr Hq Hid Hterm. eexists. split; [done|]. split; constructor; simpl; try done.
  - by apply map_Forall_insert_2.
  - intros id r' Hr'. destruct (Hs id r' Hr') as (p' & Hp' & ? & ?). destruct (decide (r = r')) as [<-|].
    + exists q. rewrite lookup_insert_eq. naive_solver congruence.
    + exists p'. by rewrite lookup_insert_ne.
  - rewrite dom_insert_lookup_L; eauto.
  - exists []. by rewrite app_nil_r.
Qed.

Lemma on_peer_ok r f pm : pm_ok pm → r ∈ dom (pm_heap pm) → keeps_peer f → went_on pm (on_peer r f pm).
Proof.
  intros Ho [p Hr]%elem_of_dom Hf. unfold on_peer. rewrite Hr. simpl.
  destruct (Hf p) as (q & -> & ? & ? & ?); [by eapply pk_heap|]. by eapply write_peer_ok.
Qed.

Lemma mfoldl_keeps {A} (f : A → peer → option peer) l : (∀ x, keeps_peer (f x)) → keeps_peer (mfoldl f l).
Proof.
  intros Hf. induction l as [|x l IH]; intros p Hp; simpl; [eauto|].
  destruct (Hf x p Hp) as (q & -> & Hq & Hid & Ht). simpl. destruct (IH q Hq) as (q' & ? & ? & ? & ?).
  exists q'. split_and!; [done|done|congruence|congruence].
Qed.

Lemma mfoldl_on {A} (f : A → PM → option PM) l pm :
  pm_ok pm → (∀ x pm', x ∈ l → pm_ok pm' → pm_kept pm pm' → went_on pm' (f x pm')) → went_on pm (mfoldl f l pm).
Proof.
  revert pm. induction l as [|x l IH]; intros pm Ho Hf; simpl; [by apply went_on_here|].
  apply went_on_bind; [apply Hf; [set_solver|done|done]|]. intros pm' Ho' Hk'. apply IH; [done|].
  intros y pm2 Hy Ho2 Hk2. apply Hf; [set_solver|done|by etrans].
Qed.

(** The calls of a handler that may leave out the second. *)
Lemma two_calls_ok pm (b1 b2 : bool) c1 (c2 : PM → Call EventID) :
  pm_ok pm → allowed c1 → (b2 = false → ∀ pm', allowed (c2 pm')) →
  went_on pm (let pm := if b1 then call c1 pm else pm in if b2 then Some pm else Some (call (c2 pm) pm)).
Proof.
  intros Ho Hc1 Hc2. apply (went_on_bind pm (Some (if b1 then call c1 pm else pm)) (λ pm, if b2 then Some pm else Some (call (c2 pm) pm))).
  - destruct b1; [by apply call_ok|by apply went_on_here].
  - intros pm' Ho' _. destruct b2; [by apply went_on_here|]. apply call_ok; auto.
Qed.

(** A message that was handled, with or without an error. *)
Definition handled pm (res : option (option error * PM)) : Prop :=
  ∃ err pm', res = Some (err, pm') ∧ pm_ok pm' ∧ pm_kept pm pm'.

Lemma handled_here err pm : pm_ok pm → handled pm (Some (err, pm)).
Proof. by exists err, pm. Qed.

Lemma handled_done pm r : went_on pm r → handled pm (done r).
Proof. intros (pm' & -> & ? & ?). by exists None, pm'. Qed.

Lemma handled_decoded {A} (x : option A) pm f : pm_ok pm → (∀ a, x = Some a → handled pm (f a)) → handled pm (decoded x pm f).
Proof. intros Ho Hf. destruct x as [a|]; simpl; [auto|by apply handled_here]. Qed.

Lemma handled_limited n pm f : pm_ok pm → (0 < n <= hardLimitItems → handled pm f) → handled pm (limited n pm f).
Proof.
  intros Ho Hf. unfold limited, checkLenLimits. destruct (Z.leb_spec n 0); [by apply handled_here|].
  destruct (Z.ltb_spec hardLimitItems n); [by apply handled_here|]. auto.
Qed.
End calls.

Lemma MarkEvent_keeps id : keeps_peer (MarkEvent id).
Proof. apply went_well_keeps. intros. by apply MarkEvent_ok. Qed.

Lemma MarkTransaction_keeps id : keeps_peer (MarkTransaction id).
Proof. apply went_well_keeps. intros. by apply MarkTransaction_ok. Qed.

(** Transactions and announcements are passed on only by a node that is in sync; events and
    their ids only up to the highest Lamport time that the node can connect soon, and in
    messages of a bounded length. *)
Definition call_safe (v : View EventID) (cfg : ProtocolConfig) (synced : bool) (c : Call EventID) : Prop :=
  match c with
  | TxNotifyReceived l => synced = true ∧ 0 < len l <= hardLimitItems
  | TxNotifyAnnounces _ l => synced = true ∧ 0 < len l <= hardLimitItems
  | AddRemotes l => synced = true ∧ 0 < len l <= hardLimitItems
  | DagNotifyReceived l => 0 < len l <= hardLimitItems
  | DagNotifyAnnounces _ l => 0 < len l <= hardLimitItems ∧ Forall (λ id, id_Lamport id <= maxLamport v cfg) l
  | ProcessorEnqueue _ l _ =>
      0 < len l <= hardLimitItems ∧ Forall (λ e, Lamport (ev_base (ep_event e)) <= maxLamport v cfg) l
  | SeederNotifyRequest _ r => m_Num (request_Limit r) < hardLimitItems
  | _ => True
  end.

Lemma len_filter_le {A} (P : A → Prop) `{∀ x, Decision (P x)} (l : list A) : len (filter P l) <= len l.
Proof. unfold len. apply inj_le, length_filter. Qed.

Lemma handleEventHashes_ok v synced r announces pm :
  pm_ok pm → r ∈ dom (pm_heap pm) → 0 < len announces <= hardLimitItems →
  went_on (call_safe v (pm_config pm) synced) pm (handleEventHashes v r announces pm).
Proof.
  intros Ho Hr Hlen. unfold handleEventHashes. apply went_on_bind; [apply on_peer_ok; [done|done|apply mfoldl_keeps, MarkEvent_keeps]|].
  intros pm1 Ho1 Hk1. apply (two_calls_ok _ _ _ _ LeecherForceSyncing (λ pm, DagNotifyAnnounces (peer_id r pm) _)); [done|done|]. intros Hne%Z.eqb_neq pm2. simpl. split.
  - pose proof (len_filter_le (λ id, id_Lamport id <= maxLamport v (pm_config pm1)) announces). unfold len in *. lia.
  - rewrite (pk_config _ _ _ Hk1). apply Forall_forall. intros x Hx. by apply list_elem_of_filter in Hx as [? _].
Qed.

Lemma handleEvents_ok v synced r events ordered pm :
  pm_ok pm → r ∈ dom (pm_heap pm) → 0 < len events <= hardLimitItems →
  went_on (call_safe v (pm_config pm) synced) pm (handleEvents v r events ordered pm).
Proof.
  intros Ho Hr Hlen. unfold handleEvents. apply went_on_bind; [apply on_peer_ok; [done|done|apply mfoldl_keeps, MarkEvent_keeps]|].
  intros pm1 Ho1 Hk1. apply (two_calls_ok _ _ _ _ LeecherForceSyncing (λ pm, ProcessorEnqueue (peer_id r pm) _ _)); [done|done|]. intros Hne%Z.eqb_neq pm2. simpl. split.
  - pose proof (len_filter_le (λ e, Lamport (ev_base (ep_event e)) <= maxLamport v (pm_config pm1)) events). unfold len in *. lia.
  - rewrite (pk_config _ _ _ Hk1). apply Forall_forall. intros x Hx. by apply list_elem_of_filter in Hx as [? _].
Qed.
Lemma went_on_call allowed c pm (f : PM → option PM) :
  pm_ok pm → allowed c → (pm_ok (call c pm) → went_on allowed (call c pm) (f (call c pm))) → went_on allowed pm (f (call c pm)).
Proof.
  intros Ho Hc Hf. destruct (call_ok allowed c pm Ho Hc) as (pm' & [= <-] & Ho' & Hk). destruct (Hf Ho') as (pm2 & ? & ? & Hk2).
  exists pm2. split; [done|]. split; [done|]. by etrans.
Qed.

Lemma on_chunk_ok v synced r chunk pm :
  pm_ok pm → r ∈ dom (pm_heap pm) → handled (call_safe v (pm_config pm) synced) pm (on_chunk v r chunk pm).
Proof.
  intros Ho Hr. unfold on_chunk. apply handled_limited; [done|]. intros Hlen. case_match; [by apply handled_here|].
  assert (Hids : went_on (call_safe v (pm_config pm) synced) pm
    (if negb (len (ch_IDs chunk) =? 0) then handleEventHashes v r (ch_IDs chunk) pm else Some pm)).
  { destruct (Z.eqb_spec (len (ch_IDs chunk)) 0); simpl; [by apply went_on_here|]. apply handleEventHashes_ok; [done|done|].
    unfold len in *. lia. }
  destruct Hids as (pm1 & -> & Ho1 & Hk1). simpl.
  assert (Hevs : went_on (call_safe v (pm_config pm1) synced) pm1
    (if negb (len (ch_Events chunk) =? 0) then handleEvents v r (ch_Events chunk) true pm1 else Some pm1)).
  { destruct (Z.eqb_spec (len (ch_Events chunk)) 0); simpl; [by apply went_on_here|]. apply handleEvents_ok; [done| |].
    - by rewrite (pk_dom _ _ _ Hk1).
    - unfold len in *. lia. }
  rewrite (pk_config _ _ _ Hk1) in Hevs. destruct Hevs as (pm2 & -> & Ho2 & Hk2). simpl.
  destruct (call_ok (call_safe v (pm_config pm) synced) (LeecherNotifyChunk (ch_SessionID chunk)
    (if negb (len (ch_Events chunk) =? 0) then default zero_ID (last (event_ids (ch_Events chunk)))
     else if negb (len (ch_IDs chunk) =? 0) then default zero_ID (last (ch_IDs chunk)) else zero_ID) (ch_Done chunk)) pm2 Ho2 I)
    as (pm3 & [= <-] & ? & Hk3).
  eexists None, _. split; [done|]. split; [done|]. by do 2 (etrans; [done|]).
Qed.

Notation dispatch := (dispatch tx_Size rlp_Encode select_term seeder_NotifyRequestReceived).
Notation handleMsg := (handleMsg tx_Size rlp_Encode select_term seeder_NotifyRequestReceived).

Lemma dispatch_other_ok v r code payload pm :
  pm_ok pm → r ∈ dom (pm_heap pm) → code ≠ ProgressMsg →
  handled (call_safe v (pm_config pm) (pm_synced pm)) pm (dispatch v r code payload pm).
Proof.
  intros Ho Hr Hcode%Z.eqb_neq. unfold dispatch. rewrite Hcode. case_match; [by apply handled_here|].
  case_match.
  { destruct (pm_synced pm) eqn:Es; [|by apply handled_here]. simpl. apply handled_decoded; [done|]. intros txs _.
    apply handled_limited; [done|]. intros Hlen. apply handled_done, went_on_call; [done|simpl; by rewrite len_fmap|]. intros Ho1.
    unfold handleTxs. apply went_on_bind; [apply on_peer_ok; [done|done|apply mfoldl_keeps, MarkTransaction_keeps]|].
    intros. by apply call_ok. }
  case_match.
  { destruct (pm_synced pm) eqn:Es; [|by apply handled_here]. simpl. apply handled_decoded; [done|]. intros hashes _.
    apply handled_limited; [done|]. intros Hlen. apply handled_done. unfold handleTxHashes.
    apply went_on_bind; [apply on_peer_ok; [done|done|apply mfoldl_keeps, MarkTransaction_keeps]|]. intros. by apply call_ok. }
  case_match; [apply handled_decoded; [done|]; intros requests _; apply handled_limited; [done|]; intros _|].
  { apply handled_done, on_peer_ok; [done|done|]. apply mfoldl_keeps. intros batch. apply went_well_keeps. intros.
    by apply EnqueueSendTransactions_ok. }
  case_match; [apply handled_decoded; [done|]; intros events _; apply handled_limited; [done|]; intros Hlen|].
  { apply handled_done, went_on_call; [done|unfold event_ids; simpl; by rewrite len_fmap|]. intros Ho1.
    by apply (handleEvents_ok v _ r events _ (call (DagNotifyReceived (event_ids events)) pm)). }
  case_match.
  { destruct (pm_synced pm) eqn:Es; [|by apply handled_here]. simpl. apply handled_decoded; [done|]. intros announces _.
    apply handled_limited; [done|]. intros Hlen. apply handled_done. by apply handleEventHashes_ok. }
  case_match; [apply handled_decoded; [done|]; intros requests _; apply handled_limited; [done|]; intros _|].
  { case_match; [|by apply handled_here]. apply handled_done, on_peer_ok; [done|done|]. apply went_well_keeps. intros.
    by apply EnqueueSendEventsRLP_ok. }
  case_match; [apply handled_decoded; [done|]; intros request _|].
  { unfold on_stream_request. destruct (Z.ltb_spec (hardLimitItems - 1) (m_Num (request_Limit request))); [by apply handled_here|].
    case_match; [by apply handled_here|].
    destruct (call_ok (call_safe v (pm_config pm) (pm_synced pm)) (SeederNotifyRequest (peer_id r pm) request) pm Ho) as (pm1 & [= <-] & ? & ?).
    { simpl. lia. }
    by eexists _, _. }
  case_match; [apply handled_decoded; [done|]; intros chunk _|by apply handled_here]. by apply on_chunk_ok.
Qed.

(** The peer says that it is in the node's epoch. *)
Definition reports_epoch (v : View EventID) (code : Z) (payload : list Z) : Prop :=
  code = ProgressMsg ∧ ∃ progress, decode_progress payload = Some progress ∧ pp_Epoch progress = v_Epoch v.

Lemma set_synced_same pm : set_synced (pm_synced pm) pm = pm.
Proof. by destruct pm. Qed.

Lemma set_synced_ok b pm : pm_ok pm → pm_ok (set_synced b pm).
Proof. intros []. by constructor. Qed.

Lemma dispatch_ok v r code payload pm :
  pm_ok pm → r ∈ dom (pm_heap pm) →
  ∃ err pm', dispatch v r code payload pm = Some (err, pm') ∧ pm_ok pm' ∧
    pm_kept (call_safe v (pm_config pm) (pm_synced pm)) (set_synced (pm_synced pm') pm) pm' ∧
    (pm_synced pm' = pm_synced pm ∨ pm_synced pm' = true ∧ reports_epoch v code payload).
Proof.
  intros Ho Hr. destruct (decide (code = ProgressMsg)) as [->|Hne].
  - cbn -[on_peer]. destruct (decode_progress payload) as [progress|] eqn:Ed; cbn -[on_peer].
    + destruct (on_peer_ok (call_safe v (pm_config pm) (pm_synced pm)) r (λ p, Some (SetProgress progress p)) pm)
        as (pm1 & -> & Ho1 & Hk1); [done|done| |].
      { intros p Hp. eexists. split; [done|]. split; [by apply SetProgress_ok|done]. }
      cbn. destruct (Z.eqb_spec (pp_Epoch progress) (v_Epoch v)).
      * eexists None, _. split; [done|]. split; [by apply set_synced_ok|].
        split; [destruct Hk1; by constructor|]. right. split; [done|]. split; [done|]. eauto.
      * eexists None, _. split; [done|]. split; [done|]. rewrite (pk_synced _ _ _ Hk1), set_synced_same. auto.
    + eexists _, pm. rewrite set_synced_same. split; [done|]. split; [done|]. by split; [|left].
  - destruct (dispatch_other_ok v r code payload pm Ho Hr Hne) as (err & pm' & ? & ? & Hk). exists err, pm'.
    rewrite (pk_synced _ _ _ Hk), set_synced_same. auto.
Qed.

(** What a message that is refused leaves behind. *)
Definition refusal r pm (res : option (option error * PM)) : Prop :=
  ∀ err pm', res = Some (Some err, pm') → pm' = pm ∨ ∃ request, pm' = call (SeederNotifyRequest (peer_id r pm) request) pm.

Lemma refusal_here r pm e : refusal r pm (Some (e, pm)).
Proof. intros ?? [= _ <-]. by left. Qed.

Lemma refusal_done r pm x : refusal r pm (done x).
Proof. intros err pm' Hd. by destruct x. Qed.

Lemma refusal_decoded {A} r pm (x : option A) f : (∀ a, refusal r pm (f a)) → refusal r pm (decoded x pm f).
Proof. intros Hf. destruct x; simpl; [done|apply refusal_here]. Qed.

Lemma refusal_limited r pm n f : refusal r pm f → refusal r pm (limited n pm f).
Proof. intros Hf. unfold limited. case_match; [apply refusal_here|done]. Qed.

Lemma dispatch_refusal v r code payload pm : refusal r pm (dispatch v r code payload pm).
Proof.
  unfold dispatch, on_chunk.
  repeat first [apply refusal_here | apply refusal_done | apply refusal_decoded; intros ? | apply refusal_limited
    | match goal with |- refusal _ _ (if _ then _ else _) => case_match end].
  - intros err pm' Hd. by destruct (on_peer _ _ _).
  - unfold on_stream_request. repeat case_match; try apply refusal_here. intros ? ? [= _ <-]. eauto.
  - intros err pm' Hd. destruct (if negb _ then handleEventHashes _ _ _ _ else _); [simpl in Hd|done].
    by destruct (if negb _ then handleEvents _ _ _ _ _ else _).
Qed.

(** No message is being handled. *)
Definition idle pm : Prop := sem_processing (pm_msgSemaphore pm) = mkMetric 0 0.

Lemma set_msgSemaphore_ok x pm : pm_ok pm → pm_ok (set_msgSemaphore x pm).
Proof. intros []. by constructor. Qed.

(** The network id is never set. *)
Lemma handleMsg_net v r msg pm err pm' :
  pm_ok pm → r ∈ dom (pm_heap pm) → handleMsg v r msg pm = Some (err, pm') → pm_net_NetworkID pm' = pm_net_NetworkID pm.
Proof.
  intros Ho Hr. unfold handleMsg. destruct msg as [m|e]; [|congruence]. case_match; [congruence|].
  destruct (sem_Acquire _ _) as [[] sem]; simpl; [|by intros [= _ <-]].
  destruct (dispatch_ok v r (msg_Code m) (msg_Payload m) (set_msgSemaphore sem pm)) as (e & pm1 & -> & _ & Hk & _);
    [by apply set_msgSemaphore_ok|done|]. simpl. intros [= _ <-]. simpl. by rewrite (pk_net _ _ _ Hk).
Qed.

(** C25: every message of a peer is handled: the handler returns, with the peers, the set and
    the semaphores in order again.  Only a peer's report of the node's own epoch changes
    whether the node is in sync; a node that is not in sync passes on no transactions and
    no announced hashes; events and ids are passed on only up to the highest Lamport time
    that the node accepts, and 1000 at most.  A message that is refused with an error
    changes no peer and asks no other component for anything, but the seeder if the error
    is its own. *)
Theorem message_handled_safely v r msg pm :
  pm_ok pm → idle pm → r ∈ dom (pm_heap pm) →
  ∃ err pm' calls, handleMsg v r msg pm = Some (err, pm') ∧ pm_ok pm' ∧ idle pm' ∧
    pm_peers pm' = pm_peers pm ∧ dom (pm_heap pm') = dom (pm_heap pm) ∧
    pm_calls pm' = pm_calls pm ++ calls ∧ Forall (call_safe v (pm_config pm) (pm_synced pm)) calls ∧
    (pm_synced pm' = pm_synced pm ∨
     pm_synced pm' = true ∧ ∃ m, msg = inl m ∧ reports_epoch v (msg_Code m) (msg_Payload m)) ∧
    (is_Some err → pm_heap pm' = pm_heap pm ∧ pm_synced pm' = pm_synced pm ∧
       Forall (λ c, ∃ request, c = SeederNotifyRequest (peer_id r pm) request) calls).
Proof.
  clear p2p_Send leecher_RegisterPeer event_Size.
  intros Ho Hidle Hr. unfold handleMsg. destruct msg as [m|err].
  2:{ exists (Some err), pm, []. rewrite app_nil_r. split_and!; auto. }
  destruct (protocolMaxMsgSize <? msg_Size m).
  { exists (Some (errResp ErrMsgTooLarge)), pm, []. rewrite app_nil_r. split_and!; auto. }
  destruct (sem_Acquire_spec (mkMetric 1 (msg_Size m)) (pm_msgSemaphore pm)) as [Hlim Hacq].
  destruct (sem_Acquire _ _) as [ok sem]. simpl in *. destruct ok; simpl.
  2:{ eexists None, _, []. rewrite app_nil_r. split_and!; try done; [by apply set_msgSemaphore_ok|unfold idle in *; simpl; congruence|by left]. }
  destruct (dispatch_ok v r (msg_Code m) (msg_Payload m) (set_msgSemaphore sem pm)) as (err & pm' & Hd & Ho' & Hk & Hsync);
    [by apply set_msgSemaphore_ok|done|].
  pose proof (dispatch_refusal v r (msg_Code m) (msg_Payload m) (set_msgSemaphore sem pm)) as Href. rewrite Hd in Href |- *. simpl.
  destruct Hk as [Hpeers Hdom Hsem _ _ _ (calls & Hcalls & Hsafe)]. simpl in *.
  exists err, (set_msgSemaphore (sem_Release (mkMetric 1 (msg_Size m)) (pm_msgSemaphore pm')) pm'), calls. simpl.
  split; [done|]. split; [by apply set_msgSemaphore_ok|]. split.
  { unfold idle in *. simpl. destruct Hacq as [Hacq _]. rewrite Hsem.
    destruct (sem_Release_spec (mkMetric 1 (msg_Size m)) sem) as [_ ->]; rewrite Hacq, Hidle; [|apply metric_add_sub].
    by apply metric_le_add_r. }
  split_and!; try done; [naive_solver|]. intros [e ->]. destruct (Href e pm' eq_refl) as [->|[request ->]]; simpl in *.
  - rewrite <-(app_nil_r (pm_calls pm)) in Hcalls at 1. apply app_inv_head in Hcalls as <-. auto.
  - apply app_inv_head in Hcalls as <-. split_and!; [done|done|]. constructor; [|done]. by exists request.
Qed.

(** *** Broadcasts *)

Lemma decide_bounds cfg size passed n : 0 <= n → 0 <= decideBroadcastAggressiveness cfg size passed n <= n.
Proof.
  intros Hn. unfold decideBroadcastAggressiveness. cbv zeta. pose proof (Z.sqrt_nonneg n).
  repeat match goal with |- context [if ?b then _ else _] => destruct b eqn:? end; lia.
Qed.

Lemma elem_of_peers_List r pm : r ∈ peers_List (pm_peers pm) ↔ ∃ id, ps_peers (pm_peers pm) !! id = Some r.
Proof.
  unfold peers_List. rewrite list_elem_of_fmap. setoid_rewrite range_of_perm. split.
  - intros ([id r'] & -> & Hin%elem_of_map_to_list). eauto.
  - intros [id Hid]. exists (id, r). by rewrite elem_of_map_to_list.
Qed.

Lemma peers_List_dom r pm : pm_ok pm → r ∈ peers_List (pm_peers pm) → r ∈ dom (pm_heap pm).
Proof. intros Ho [id Hid]%elem_of_peers_List. destruct (pk_set pm Ho id r Hid) as (p & Hp & _). by apply elem_of_dom. Qed.

Lemma peers_List_NoDup pm : pm_ok pm → NoDup (peers_List (pm_peers pm)).
Proof.
  intros Ho. unfold peers_List. rewrite range_of_perm. apply NoDup_fmap_2_strong; [|apply NoDup_map_to_list].
  intros [id r] [id' r'] Hx%elem_of_map_to_list Hy%elem_of_map_to_list Heq. simpl in *. subst r'.
  destruct (pk_set pm Ho _ _ Hx) as (p & Hp & <- & _), (pk_set pm Ho _ _ Hy) as (p' & Hp' & <- & _). congruence.
Qed.

(** The same method on each of some peers. *)
Lemma mfoldl_on_peer (f : peer → option peer) l pm :
  NoDup l → (∀ r, r ∈ l → is_Some (pm_heap pm !! r ≫= f)) →
  ∃ h, mfoldl (λ r, on_peer r f) l pm = Some (set_heap h pm) ∧
    ∀ r, h !! r = if decide (r ∈ l) then pm_heap pm !! r ≫= f else pm_heap pm !! r.
Proof.
  clear tx_Size rlp_Encode select_term p2p_Send leecher_RegisterPeer seeder_NotifyRequestReceived event_Size.
  revert pm. induction l as [|r l IH]; intros pm Hnd Hf.
  { exists (pm_heap pm). split; [by destruct pm|]. intros r. by rewrite decide_False by set_solver. }
  apply NoDup_cons in Hnd as [Hr Hnd]. simpl. destruct (Hf r) as [q Hq]; [set_solver|].
  destruct (pm_heap pm !! r) as [p|] eqn:Ep; [|done]. simpl in Hq.
  assert (on_peer r f pm = Some (set_heap (<[r:=q]> (pm_heap pm)) pm)) as -> by (unfold on_peer; by rewrite Ep; simpl; rewrite Hq).
  simpl.
  destruct (IH (set_heap (<[r:=q]> (pm_heap pm)) pm)) as (h & Hh & Hl); [done| |].
  { intros r' Hr'. simpl. rewrite lookup_insert_ne by set_solver. apply Hf. set_solver. }
  exists h. split; [rewrite Hh; by destruct pm|]. intros r'. rewrite Hl. simpl. destruct (decide (r' = r)) as [->|Hne].
  - rewrite decide_False, decide_True by set_solver. rewrite lookup_insert_eq, Ep. done.
  - rewrite lookup_insert_ne by done. by destruct (decide (r' ∈ l)); [rewrite decide_True by set_solver|rewrite decide_False by set_solver].
Qed.

(** One method on some peers, then another on others. *)
Lemma mfoldl_on_peers (f g : peer → option peer) l k pm :
  NoDup (l ++ k) → (∀ r, r ∈ l → is_Some (pm_heap pm !! r ≫= f)) → (∀ r, r ∈ k → is_Some (pm_heap pm !! r ≫= g)) →
  ∃ h, (pm ← mfoldl (λ r, on_peer r f) l pm; mfoldl (λ r, on_peer r g) k pm) = Some (set_heap h pm) ∧
    ∀ r, h !! r = if decide (r ∈ l) then pm_heap pm !! r ≫= f else if decide (r ∈ k) then pm_heap pm !! r ≫= g else pm_heap pm !! r.
Proof.
  clear tx_Size rlp_Encode select_term p2p_Send leecher_RegisterPeer seeder_NotifyRequestReceived event_Size.
  intros (Hl & Hlk & Hk)%NoDup_app Hf Hg. destruct (mfoldl_on_peer f l pm Hl Hf) as (h1 & -> & Hh1). simpl.
  destruct (mfoldl_on_peer g k (set_heap h1 pm) Hk) as (h2 & -> & Hh2); simpl in *.
  { intros r Hr. rewrite Hh1, decide_False by (intros ?; by eapply Hlk). auto. }
  exists h2. split; [by destruct pm|]. intros r. rewrite Hh2, Hh1. destruct (decide (r ∈ k)), (decide (r ∈ l)); try done.
  exfalso. by eapply Hlk.
Qed.

(** What a peer has been told of an event: the message is queued when the semaphore admits
    it, and then the event counts as known, unless the set of known events is full. *)
Record told (id : EventID) (value : Payload EventID) (code : Z) p q : Prop := {
  td_ok : peer_ok q;
  td_kept : kept p q;
  td_queue : p_queue q = p_queue p ++ admitted rlp_Encode sem_TryAcquire value code p;
  td_known : admitted rlp_Encode sem_TryAcquire value code p ≠ [] →
    Z.of_nat (size (p_knownEvents p)) + 1 < MaxKnownEvents (p_cfg p) → InterestedIn id q = false;
}.

Lemma mark_events_known id p :
  Z.of_nat (size (p_knownEvents p)) + 1 < MaxKnownEvents (p_cfg p) → mark_events [id] p = Some (set_knownEvents ({[id]} ∪ p_knownEvents p) p).
Proof.
  intros Hlt. unfold mark_events. rewrite list_to_set_singleton_L, shrink_small; [done|].
  pose proof (size_insert_le id (p_knownEvents p)). lia.
Qed.

Lemma mark_events_queue ids p q : mark_events ids p = Some q → p_queue q = p_queue p.
Proof. unfold mark_events. intros Hm. destruct (shrink _ _); by simplify_eq/=. Qed.

Lemma async_told id value code p :
  peer_ok p →
  ∃ q, (let '(ok, q) := asyncSendNonEncodedItem rlp_Encode select_term value code p in if ok : bool then mark_events [id] q else Some q)
    = Some q ∧ told id value code p q.
Proof.
  intros Hp. pose proof (asyncSendNonEncodedItem_ok rlp_Encode select_term value code p Hp) as Hs.
  destruct (asyncSendNonEncodedItem _ _ _ _ _) as [ok q]. destruct Hs as (Hok & Hq & Hk & _ & Hev & Hqueue). destruct ok.
  - destruct (mark_events_ok [id] q Hq) as (q' & Hm & Hq' & Hk'). exists q'. split; [done|]. constructor; [done| | |].
    + destruct Hk, Hk'. constructor; congruence.
    + by rewrite (mark_events_queue _ _ _ Hm).
    + intros _ Hlt. rewrite mark_events_known in Hm by (rewrite Hev; destruct Hk; congruence). simplify_eq.
      unfold InterestedIn. simpl. rewrite (bool_decide_true (id ∈ _)) by set_solver. apply andb_false_r.
  - exists q. split; [done|]. constructor; try done. intros Hne. destruct (admitted _ _ _ _ _); [done|].
    symmetry in Hok. apply negb_false_iff in Hok. unfold len in Hok. simpl in Hok. lia.
Qed.

Lemma AsyncSendEvents_told event p :
  peer_ok p →
  ∃ q, snd <$> AsyncSendEvents rlp_Encode select_term [event] p = Some q ∧
    told (ID (ev_base (ep_event event))) (PEvents [event]) EventsMsg p q.
Proof.
  intros Hp. destruct (async_told (ID (ev_base (ep_event event))) (PEvents [event]) EventsMsg p Hp) as (q & Hq & Ht). exists q. split; [|done].
  unfold AsyncSendEvents. destruct (asyncSendNonEncodedItem _ _ _ _ _) as [[] q']; [|done].
  change (event_ids [event]) with [ID (ev_base (ep_event event))]. by rewrite Hq.
Qed.

Lemma elem_of_PeersWithoutEvent r id pm :
  r ∈ PeersWithoutEvent id (pm_peers pm) (pm_heap pm) ↔
  r ∈ peers_List (pm_peers pm) ∧ ∃ p, pm_heap pm !! r = Some p ∧ InterestedIn id p = true.
Proof.
  clear tx_Size rlp_Encode select_term p2p_Send leecher_RegisterPeer seeder_NotifyRequestReceived event_Size.
  unfold PeersWithoutEvent, holds. rewrite list_elem_of_filter. destruct (pm_heap pm !! r) as [p|]; simpl; naive_solver.
Qed.

(** Both ways to tell a peer. *)
Definition tell_full event : peer → option peer := λ p, snd <$> AsyncSendEvents rlp_Encode select_term [event] p.
Definition tell_id (id : EventID) : peer → option peer := AsyncSendEventIDs rlp_Encode select_term [id].

Lemma BroadcastEvent_runs event passed pm (id := ID (ev_base (ep_event event)))
    (peers := PeersWithoutEvent id (pm_peers pm) (pm_heap pm))
    (n := Z.to_nat (decideBroadcastAggressiveness (pm_config pm) (event_Size event) (Z.max 0 passed) (len peers))) :
  pm_ok pm →
  NoDup peers ∧ ∃ h, BroadcastEvent rlp_Encode select_term event_Size event passed pm = Some (len peers, set_heap h pm) ∧
    ∀ r, h !! r = if decide (r ∈ take n peers) then pm_heap pm !! r ≫= tell_full event
                  else if decide (r ∈ drop n peers) then pm_heap pm !! r ≫= tell_id id else pm_heap pm !! r.
Proof.
  clear tx_Size p2p_Send leecher_RegisterPeer seeder_NotifyRequestReceived.
  intros Ho. assert (Hnd : NoDup peers) by (apply NoDup_filter; by apply peers_List_NoDup). split; [done|].
  assert (Hpok : ∀ r, r ∈ take n peers ∨ r ∈ drop n peers → ∃ p, pm_heap pm !! r = Some p ∧ peer_ok p).
  { intros r Hr. rewrite <-elem_of_app, take_drop in Hr. apply elem_of_PeersWithoutEvent in Hr as (_ & p & Hp & _).
    exists p. split; [done|by eapply pk_heap]. }
  destruct (mfoldl_on_peers (tell_full event) (tell_id id) (take n peers) (drop n peers) pm) as (h & Hrun & Hh).
  - by rewrite take_drop.
  - intros r Hr. destruct (Hpok r) as (p & -> & Hp); [by left|]. destruct (AsyncSendEvents_told event p Hp) as (q & Hq & _). by exists q.
  - intros r Hr. destruct (Hpok r) as (p & -> & Hp); [by right|].
    destruct (async_told id (PEventIDs [id]) NewEventIDsMsg p Hp) as (q & Hq & _). by exists q.
  - unfold BroadcastEvent. fold id. fold peers. destruct (Z.eqb_spec (len peers) 0) as [Hnil|Hne].
    + assert (Hp : peers = []) by (destruct peers; [done|unfold len in Hnil; simpl in Hnil; lia]).
      exists (pm_heap pm). split; [rewrite Hp; by destruct pm|]. intros r. by rewrite Hp, take_nil, drop_nil, !decide_False by set_solver.
    + exists h. split; [|done]. assert ((if passed <? 0 then 0 else passed) = Z.max 0 passed) as -> by (case_match; lia).
      fold n. destruct (mfoldl _ (take n peers) pm) as [pm1|]; [|done]. simpl in Hrun |- *. unfold tell_id in Hrun. by rewrite Hrun.
Qed.

(** C26: an event that is broadcast goes once to each registered peer that is in the event's
    epoch or the one before and is not known to have it, and to no other: in full to as many
    as the importance of latency and throughput decides, and as an announcement to the rest.
    A peer's queue gets that one message, or nothing if its semaphore refuses it; a peer
    that got it is not interested in the event any more while its set of known events is
    not full. *)
Theorem broadcast_event_exact event passed pm :
  pm_ok pm →
  let id := ID (ev_base (ep_event event)) in
  ∃ full announced h,
    BroadcastEvent rlp_Encode select_term event_Size event passed pm = Some (len (full ++ announced), set_heap h pm) ∧
    len full = decideBroadcastAggressiveness (pm_config pm) (event_Size event) (Z.max 0 passed) (len (full ++ announced)) ∧
    NoDup (full ++ announced) ∧
    (∀ r, r ∈ full ++ announced ↔
       ∃ peer_id p, ps_peers (pm_peers pm) !! peer_id = Some r ∧ pm_heap pm !! r = Some p ∧ InterestedIn id p = true) ∧
    (∀ r p, pm_heap pm !! r = Some p → ∃ q, h !! r = Some q ∧
       (r ∈ full → told id (PEvents [event]) EventsMsg p q) ∧
       (r ∈ announced → told id (PEventIDs [id]) NewEventIDsMsg p q) ∧
       (r ∉ full ++ announced → q = p)).
Proof.
  clear tx_Size p2p_Send leecher_RegisterPeer seeder_NotifyRequestReceived.
  intros Ho id. destruct (BroadcastEvent_runs event passed pm Ho) as (Hnd & h & Hrun & Hh). fold id in Hnd, Hrun, Hh.
  set (peers := PeersWithoutEvent id (pm_peers pm) (pm_heap pm)) in *. set (n := Z.to_nat _) in Hh.
  exists (take n peers), (drop n peers), h. rewrite take_drop. split; [done|]. split.
  { pose proof (decide_bounds (pm_config pm) (event_Size event) (Z.max 0 passed) (len peers)) as Hb. unfold len in *.
    rewrite length_take. subst n. lia. }
  split; [done|]. split.
  { intros r. unfold peers. rewrite elem_of_PeersWithoutEvent, elem_of_peers_List. naive_solver. }
  intros r p Hr. assert (Hp : peer_ok p) by (by eapply pk_heap). rewrite Hh, Hr. clear Hh Hrun.
  pose proof Hnd as Hnd'. rewrite <-(take_drop n peers) in Hnd'. apply NoDup_app in Hnd' as (_ & Hdisj & _).
  assert (Hsub : r ∉ peers ↔ r ∉ take n peers ∧ r ∉ drop n peers) by (rewrite <-(take_drop n peers) at 1; set_solver).
  destruct (decide (r ∈ take n peers)) as [Ht|Ht]; [|destruct (decide (r ∈ drop n peers)) as [Hd|Hd]].
  - destruct (AsyncSendEvents_told event p Hp) as (q & Hq & Htold). exists q. split; [done|]. naive_solver.
  - destruct (async_told id (PEventIDs [id]) NewEventIDsMsg p Hp) as (q & Hq & Htold). exists q. split; [done|]. naive_solver.
  - exists p. naive_solver.
Qed.

(** *** The node *)

Notation BroadcastEvent := (BroadcastEvent rlp_Encode select_term event_Size).
Notation BroadcastTxs := (BroadcastTxs tx_Size rlp_Encode select_term).
Notation broadcastProgress := (broadcastProgress rlp_Encode select_term).
Notation handle_start := (handle_start p2p_Send leecher_RegisterPeer).
Notation node_step := (node_step tx_Size rlp_Encode select_term p2p_Send leecher_RegisterPeer seeder_NotifyRequestReceived event_Size).
Notation node_run := (node_run tx_Size rlp_Encode select_term p2p_Send leecher_RegisterPeer seeder_NotifyRequestReceived event_Size).
Notation node := (node (EventID := EventID) (S := S)).
Notation any_call := (λ _ : Call EventID, True).

Record node_ok (n : node) : Prop := {
  no_pm : pm_ok (nd_pm n);
  no_idle : idle (nd_pm n);
  no_running : nd_running n ⊆ dom (pm_heap (nd_pm n));
  no_net : pm_net_NetworkID (nd_pm n) = 0;
}.

Lemma removePeer_ok id pm :
  pm_ok pm → pm_ok (removePeer id pm) ∧ dom (pm_heap (removePeer id pm)) = dom (pm_heap pm) ∧
    pm_msgSemaphore (removePeer id pm) = pm_msgSemaphore pm ∧ pm_net_NetworkID (removePeer id pm) = pm_net_NetworkID pm.
Proof.
  intros [Hh Hs]. unfold removePeer, peers_Peer, Unregister. simpl. destruct (ps_peers (pm_peers pm) !! id) as [r|] eqn:Er; simpl; [|done].
  split; [|by rewrite dom_alter_L]. constructor; simpl.
  - intros r' p. rewrite lookup_alter_Some. intros [(-> & p' & Hp & ->)|[_ Hp]]; [|by eapply Hh]. eapply peer_close_ok, Hh, Hp.
  - intros id' r' [Hne Hr']%lookup_delete_Some. destruct (Hs id' r' Hr') as (p & Hp & Hid & Ht). exists p. split; [|done].
    rewrite lookup_alter_ne; [done|]. intros ->. destruct (Hs id _ Er) as (p' & Hp' & Hid' & _). congruence.
Qed.

(** A method on peers that exist. *)
Lemma on_peers_ok (f : peer → option peer) l pm :
  pm_ok pm → keeps_peer f → (∀ r, r ∈ l → r ∈ dom (pm_heap pm)) → went_on any_call pm (mfoldl (λ r, on_peer r f) l pm).
Proof.
  intros Ho Hf Hl. apply mfoldl_on; [done|]. intros r pm' Hr Ho' Hk. apply on_peer_ok; [done| |done].
  rewrite (pk_dom _ _ _ Hk). auto.
Qed.

Lemma BroadcastEvent_ok event passed pm : pm_ok pm → went_on any_call pm (snd <$> BroadcastEvent event passed pm).
Proof.
  intros Ho. unfold Handler.BroadcastEvent. set (id := ID _). set (peers := PeersWithoutEvent _ _ _).
  case_match; [by apply went_on_here|]. set (n := Z.to_nat _).
  assert (Hdom : ∀ r, r ∈ peers → r ∈ dom (pm_heap pm)).
  { intros r (_ & p & Hp & _)%elem_of_PeersWithoutEvent. by apply elem_of_dom. }
  assert (Hw : went_on any_call pm (pm ← mfoldl (λ r, on_peer r (tell_full event)) (take n peers) pm;
    mfoldl (λ r, on_peer r (tell_id id)) (drop n peers) pm)).
  { apply went_on_bind.
    - apply on_peers_ok; [done|apply went_well_keeps; intros; by apply AsyncSendEvents_ok|].
      intros r Hr. apply Hdom. by eapply (sublist_subseteq _ _ (sublist_take _ _)).
    - intros pm' Ho' Hk'. apply on_peers_ok; [done|apply went_well_keeps; intros; by apply AsyncSendEventIDs_ok|].
      intros r Hr. rewrite (pk_dom _ _ _ Hk'). apply Hdom. by eapply (sublist_subseteq _ _ (sublist_drop _ _)). }
  unfold tell_full, tell_id in Hw. destruct Hw as (pm' & Hrun & ? & ?). destruct (mfoldl _ (take n peers) pm) as [pm1|]; [|done].
  simpl in Hrun |- *. rewrite Hrun. by exists pm'.
Qed.

Lemma send_batch_keeps full batch : keeps_peer (send_batch rlp_Encode select_term full batch).
Proof.
  apply went_well_keeps. intros p Hp. destruct full; [by apply AsyncSendTransactions_ok|by apply AsyncSendTransactionHashes_ok].
Qed.

Lemma send_txset_ok fullRecipients txset i pm :
  pm_ok pm → (∀ r, r ∈ txset.*1 → r ∈ dom (pm_heap pm)) →
  went_on any_call pm (send_txset tx_Size rlp_Encode select_term fullRecipients i txset pm).
Proof.
  unfold send_txset. revert i pm. induction txset as [|[r txs] txset IH]; intros i pm Ho Hdom; [by apply went_on_here|]. simpl.
  destruct (on_peer_ok any_call r (mfoldl (send_batch rlp_Encode select_term (i <? fullRecipients)) (SplitTransactions tx_Size txs)) pm)
    as (pm1 & -> & Ho1 & Hk1); [done|apply Hdom; set_solver|apply mfoldl_keeps, send_batch_keeps|]. simpl.
  destruct (IH (i + 1) pm1 Ho1) as (pm2 & Hrun & ? & ?); [rewrite (pk_dom _ _ _ Hk1); set_solver|].
  exists pm2. split; [done|]. split; [done|]. by etrans.
Qed.

Lemma txset_add_dom pm m tx r : pm_ok pm → r ∈ dom (txset_add pm m tx) → r ∈ dom m ∨ r ∈ dom (pm_heap pm).
Proof.
  clear tx_Size rlp_Encode select_term p2p_Send leecher_RegisterPeer seeder_NotifyRequestReceived event_Size.
  intros Ho. unfold txset_add. assert (Hl : ∀ x, x ∈ PeersWithoutTx (tx_Hash tx) (pm_peers pm) (pm_heap pm) → x ∈ dom (pm_heap pm)).
  { intros x [_ Hx]%list_elem_of_filter. by apply peers_List_dom. }
  revert m Hl. generalize (PeersWithoutTx (tx_Hash tx) (pm_peers pm) (pm_heap pm)) as l. induction l as [|x l IH]; intros m Hl Hr; [by left|].
  simpl in Hr. apply IH in Hr; [|set_solver]. rewrite dom_insert_L in Hr. set_solver.
Qed.

Lemma make_txset_dom pm txs r : pm_ok pm → r ∈ dom (make_txset txs pm) → r ∈ dom (pm_heap pm).
Proof.
  clear tx_Size rlp_Encode select_term p2p_Send leecher_RegisterPeer seeder_NotifyRequestReceived event_Size.
  intros Ho. unfold make_txset. assert (Hgen : ∀ m, r ∈ dom (foldl (txset_add pm) m txs) → r ∈ dom m ∨ r ∈ dom (pm_heap pm)).
  { induction txs as [|tx txs IH]; intros m Hr; [by left|]. simpl in Hr. destruct (IH _ Hr) as [Hr'|]; [|by right]. by eapply txset_add_dom. }
  intros [Hr|Hr]%Hgen; set_solver.
Qed.

Lemma BroadcastTxs_ok txs pm : pm_ok pm → went_on any_call pm (BroadcastTxs txs pm).
Proof.
  intros Ho. apply send_txset_ok; [done|]. intros r ([r' l] & -> & Hr)%list_elem_of_fmap. rewrite range_of_perm in Hr.
  apply elem_of_map_to_list in Hr. eapply make_txset_dom; [done|]. apply elem_of_dom. eauto.
Qed.

Lemma broadcastProgress_ok v pm : pm_ok pm → went_on any_call pm (broadcastProgress v pm).
Proof.
  intros Ho. apply on_peers_ok; [done|apply went_well_keeps; intros; by apply AsyncSendProgress_ok|]. intros. by apply peers_List_dom.
Qed.

Lemma syncTransactions_ok r txids pm : pm_ok pm → went_on any_call pm (Some (syncTransactions r txids pm)).
Proof. intros Ho. unfold syncTransactions. case_match; [by apply went_on_here|by apply call_ok]. Qed.

(** A node that goes on from one whose peers may have changed. *)
Lemma node_ok_went n (allowed : Call EventID → Prop) r : node_ok n → went_on allowed (nd_pm n) r →
  ∃ n', to_running n r = Some n' ∧ node_ok n'.
Proof.
  intros [Ho Hi Hr Hn] (pm' & -> & Ho' & Hk). eexists. split; [done|]. constructor; simpl; [done| | |].
  - unfold idle in *. by rewrite (pk_sem _ _ _ Hk).
  - by rewrite (pk_dom _ _ _ Hk).
  - by rewrite (pk_net _ _ _ Hk).
Qed.

Lemma new_peer_ok r p pm :
  pm_ok pm → pm_heap pm !! r = None → peer_ok p → pm_ok (set_heap (<[r := p]> (pm_heap pm)) pm).
Proof.
  intros [Hh Hs] Hr Hp. constructor; simpl; [by apply map_Forall_insert_2|]. intros id r' Hr'.
  destruct (Hs id r' Hr') as (p' & Hp' & ?). exists p'. split; [|done]. rewrite lookup_insert_ne; [done|congruence].
Qed.

Lemma register_ok r p pm ps :
  pm_ok pm → pm_heap pm !! r = Some p → p_term p = false → Register r p (pm_peers pm) = (None, ps) → pm_ok (set_peers ps pm).
Proof.
  intros [Hh Hs] Hr Ht Hreg. unfold Register in Hreg. case_match; [done|]. case_match; [done|]. simplify_eq. constructor; simpl; [done|].
  intros id r' [[<- <-]|[_ Hr']]%lookup_insert_Some; [by exists p|by apply Hs].
Qed.

Lemma handle_start_ok v trusted r msg order pm p :
  pm_ok pm → pm_heap pm !! r = Some p → p_term p = false →
  ∃ err pm', handle_start v trusted r msg order pm = Some (err, pm') ∧ pm_ok pm' ∧
    pm_heap pm' = pm_heap pm ∧ pm_msgSemaphore pm' = pm_msgSemaphore pm ∧ pm_net_NetworkID pm' = pm_net_NetworkID pm.
Proof.
  intros Ho Hr Ht. unfold Handler.handle_start. rewrite Hr. simpl. case_match; [by eexists _, _|]. case_match; [by eexists _, _|].
  destruct (Register r p (pm_peers pm)) as [[e|] ps] eqn:Ereg; [by eexists _, _|].
  pose proof (register_ok _ _ _ _ Ho Hr Ht Ereg) as Ho1.
  destruct (call_ok any_call (LeecherRegisterPeer (p_id p)) _ Ho1 I) as (pm2 & [= <-] & Ho2 & _).
  case_match; [by eexists _, _|]. eexists None, _. split; [done|]. unfold syncTransactions. case_match; [done|].
  destruct (call_ok any_call (TxSync r (v_SampleHashes v (MaxInitialTxHashesSend (pm_config pm)))) _ Ho2 I) as (pm3 & [= <-] & ? & _). done.
Qed.

(** A connection's peer is new: nothing is queued and it is open. *)
Definition op_ok (op : node_op (EventID := EventID) (S := S)) : Prop :=
  match op with NConnect _ p _ _ _ => peer_ok p ∧ p_term p = false | _ => True end.

Lemma node_msg_ok v r msg n : node_ok n → ∃ n', node_step v (NMsg r msg) n = Some n' ∧ node_ok n'.
Proof.
  intros [Ho Hi Hrun Hnet]. simpl. case_bool_decide as Hr; [|eexists; by split].
  destruct (message_handled_safely v r msg (nd_pm n)) as (err & pm' & calls & Hh & Ho' & Hi' & Hp' & Hd' & _); [done|done|set_solver|].
  pose proof (handleMsg_net v r msg (nd_pm n) err pm' Ho (Hrun r Hr) Hh) as Hn'.
  rewrite Hh. simpl. destruct err as [e|]; eexists; (split; [done|]).
  - destruct (removePeer_ok (peer_id r pm') pm' Ho') as (Ho2 & Hd2 & Hs2 & Hn2). constructor; simpl; [done| |set_solver|congruence].
    unfold idle in *. by rewrite Hs2.
  - constructor; simpl; [done|done|set_solver|congruence].
Qed.

Lemma node_without_ok id n : node_ok n → node_ok (mkNode (removePeer id (nd_pm n)) (nd_running n)).
Proof.
  intros [Ho Hi Hrun Hnet]. destruct (removePeer_ok id (nd_pm n) Ho) as (Ho2 & Hd2 & Hs2 & Hn2).
  constructor; simpl; [done| |by rewrite Hd2|congruence]. unfold idle in *. by rewrite Hs2.
Qed.

Lemma node_step_ok v op n : node_ok n → op_ok op → ∃ n', node_step v op n = Some n' ∧ node_ok n'.
Proof.
  intros Hn Hop. pose proof Hn as [Ho Hi Hrun Hnet].
  destruct op as [r p trusted msg order|r msg|event passed|event|txs| |epoch|rand|id err|id err|r|]; [|by apply node_msg_ok|..]; simpl.
  - destruct Hop as [Hp Ht]. destruct (pm_heap (nd_pm n) !! r) eqn:Er; [by exists n|].
    destruct (handle_start_ok v trusted r msg order (set_heap (<[r := p]> (pm_heap (nd_pm n))) (nd_pm n)) p) as (err & pm' & -> & Ho' & Hh' & Hs' & Hn');
      [by apply new_peer_ok|apply lookup_insert_eq|done|]. simpl in *. eexists. split; [done|]. constructor; simpl; [done| | |congruence].
    + unfold idle in *. by rewrite Hs'.
    + rewrite Hh', dom_insert_L. destruct err; set_solver.
  - apply (node_ok_went n any_call); [done|]. unfold on_connected. destruct (pm_synced _); [by apply BroadcastEvent_ok|by apply went_on_here].
  - eapply node_ok_went, BroadcastEvent_ok; done.
  - eapply node_ok_went, BroadcastTxs_ok; done.
  - eapply node_ok_went, broadcastProgress_ok; done.
  - eexists. split; [done|]. unfold onNewEpoch. destruct Ho. destruct (negb _); [destruct (existsb _ _)|]; by constructor.
  - apply (node_ok_went n any_call (Some (txBroadcastTick v rand (nd_pm n)))); [done|]. unfold txBroadcastTick.
    destruct (negb _); [by apply went_on_here|]. destruct (_ =? 0); [by apply went_on_here|].
    destruct (_ !! _); [by apply syncTransactions_ok|by apply went_on_here].
  - eexists. split; [done|]. unfold peerMisbehaviour. destruct (IsBan err); simpl; [by apply node_without_ok|done].
  - eexists. split; [done|]. unfold on_released. destruct (IsBan err); simpl; [by apply node_without_ok|done].
  - destruct (pm_heap (nd_pm n) !! r) as [p|] eqn:Er; simpl; [|by exists n]. destruct (broadcast_one p) as [[item q]|] eqn:Eb; [|by exists n].
    destruct (broadcast_one_ok p item q) as (Hq & Hk & _); [by eapply pk_heap|done|].
    apply (node_ok_went n any_call (Some (set_heap (<[r := q]> (pm_heap (nd_pm n))) (nd_pm n)))); [done|].
    eapply write_peer_ok; [done|done|done|apply Hk|apply Hk].
  - eexists. split; [done|]. destruct Ho. by constructor.
Qed.

Lemma node_run_ok ops n : node_ok n → Forall (λ '(_, op), op_ok op) ops → ∃ n', node_run ops n = Some n' ∧ node_ok n'.
Proof.
  intros Hn Hops. revert n Hn. induction Hops as [|[v op] ops Hop _ IH]; intros n Hn; [by exists n|].
  simpl. destruct (node_step_ok v op n Hn Hop) as (n' & -> & Hn'). by apply IH.
Qed.

Lemma newHandler_ok config maxPeers sem :
  sem_processing sem = mkMetric 0 0 → node_ok (mkNode (newHandler config maxPeers sem) ∅).
Proof. intros Hsem. constructor; simpl; [constructor; simpl; [apply map_Forall_empty|done]|done|set_solver|done]. Qed.

(** C24: a node runs whatever its peers send and however its goroutines take turns, as long as
    the limits of the peers are positive: no step blocks or loops for ever, the set refers to
    open peers under their own ids, each peer's sets of known events and transactions are
    within their limits, its semaphore counts what it has queued and its queue is within its
    capacity, and the messages' semaphore is free between messages. *)
Theorem node_keeps_running ops config maxPeers sem :
  sem_processing sem = mkMetric 0 0 → Forall (λ '(_, op), op_ok op) ops →
  ∃ n, node_run ops (mkNode (newHandler config maxPeers sem) ∅) = Some n ∧ node_ok n.
Proof.
  intros Hsem Hops. apply node_run_ok; [by apply newHandler_ok|done].
Qed.
End handler_facts.

(** ** The checks of the event processor *)

Section processor.
Context {EventID : Type} `{EventIDs EventID} `{DagEvents EventID} {V : Type} `{Pos V} `{GasTable}.

(** [lightCheck] and [bufferedCheck] of [makeProcessor]. *)
Definition lightCheck (v : View EventID) (checkers : Checkers (EventID := EventID) (V := V)) (e : EventPayload EventID) : res unit :=
  if v_IsBuffered v (ID (ev_base (ep_event e))) then Err ErrDuplicateEvent
  else if v_HasEvent v (ID (ev_base (ep_event e))) then Err ErrAlreadyConnectedEvent
  else
    _ ← basic_Validate (base_basic checkers) e;
    epoch_Validate (base_epoch checkers) (GetEpochRules checkers) e.

Definition bufferedCheck (checkers : Checkers (EventID := EventID) (V := V)) (e : EventPayload EventID) (parents : list (Event EventID))
    : res unit :=
  selfParent ← (if bool_decide (SelfParent (ev_base (ep_event e)) = None) then Ok None else Some <$> index parents 0);
  _ ← parents_Validate (base_parents checkers) e parents;
  GasPower.Validate (GetValidationContext checkers) (ep_event e) selfParent.

(** The checks that the processor makes in its stages, with the queue's check between them,
    are together the checks of a whole event, for an event that is new. *)
Theorem staged_checks_whole v checkers e parents :
  (lightCheck v checkers e = Ok tt ∧
   heavy_Validate (VerifySignature checkers) (Sender checkers) (DeriveSha checkers) (GetEpochPubKeys checkers) e = Ok tt ∧
   bufferedCheck checkers e parents = Ok tt) ↔
  v_IsBuffered v (ID (ev_base (ep_event e))) = false ∧ v_HasEvent v (ID (ev_base (ep_event e))) = false ∧
  Checkers_Validate checkers e parents = Ok tt.
Proof.
  rewrite Checkers_Validate_Ok. unfold lightCheck, bufferedCheck. rewrite res_bind_Ok.
  destruct (v_IsBuffered v _); [naive_solver|]. destruct (v_HasEvent v _); [naive_solver|]. split.
  - intros ([Hb He]%res_seq_Ok & Hh & sp & Hsp & [Hp Hg]%res_seq_Ok).
    refine (conj eq_refl (conj eq_refl (conj Hb (conj He (conj Hp (conj _ Hh)))))). by exists sp.
  - intros (_ & _ & Hb & He & Hp & (sp & Hsp & Hg) & Hh). split; [by apply res_seq_Ok|]. split; [exact Hh|].
    exists sp. split; [exact Hsp|]. by apply res_seq_Ok.
Qed.
End processor.

(** ** Transactions for new peers (gossip/sync.go) *)

Section txsync.
Context `{MapRange}.
(** The node id of a peer. *)
Variable enode : PeerRef → list Z.

Record txsync := mkTxsync { ts_p : PeerRef; ts_txids : list (list Z) }.

(** The variables of [txsyncLoop], and the packs that were sent. *)
Record txsync_state := mkTxsyncState {
  ts_pending : gmap (list Z) txsync;
  ts_sending : bool;
  ts_pack : txsync;
  ts_sent : list txsync;
}.

(** The pack is [softLimitItems] hashes at most; [s] is an element of [pending]. *)
Definition txsync_send (s : txsync) (st : txsync_state) : txsync_state :=
  let pack := mkTxsync (ts_p s) (take (Z.to_nat softLimitItems) (ts_txids s)) in
  let rest := drop (length (ts_txids pack)) (ts_txids s) in
  let pending :=
    if len rest =? 0 then delete (enode (ts_p s)) (ts_pending st)
    else <[enode (ts_p s) := mkTxsync (ts_p s) rest]> (ts_pending st) in
  mkTxsyncState pending true pack (ts_sent st ++ [pack]).

Definition txsync_pick (rand_Intn : Z → Z) (st : txsync_state) : option txsync :=
  if Z.of_nat (size (ts_pending st)) =? 0 then None
  else (range_of (ts_pending st)).*2 !! Z.to_nat (rand_Intn (Z.of_nat (size (ts_pending st)))).

Definition on_txsync (s : txsync) (st : txsync_state) : txsync_state :=
  let st := mkTxsyncState (<[enode (ts_p s) := s]> (ts_pending st)) (ts_sending st) (ts_pack st) (ts_sent st) in
  if negb (ts_sending st) then txsync_send s st else st.

Definition on_txsync_done (err : option error) (rand_Intn : Z → Z) (st : txsync_state) : txsync_state :=
  let pending := if err is Some _ then delete (enode (ts_p (ts_pack st))) (ts_pending st) else ts_pending st in
  let st := mkTxsyncState pending false (ts_pack st) (ts_sent st) in
  match txsync_pick rand_Intn st with Some s => txsync_send s st | None => st end.

(** A send that is under way ends; syncs are never empty. *)
Inductive txsync_step : txsync_state → txsync_state → Prop :=
  | TS_sync s st : ts_txids s ≠ [] → txsync_step st (on_txsync s st)
  | TS_done err rand_Intn st :
      ts_sending st = true → (∀ n, 0 < n → 0 <= rand_Intn n < n) → txsync_step st (on_txsync_done err rand_Intn st).

Record txsync_ok (st : txsync_state) : Prop := {
  to_pending : ∀ id s, ts_pending st !! id = Some s → enode (ts_p s) = id ∧ ts_txids s ≠ [];
  to_packs : Forall (λ s, 0 < len (ts_txids s) <= softLimitItems) (ts_sent st);
  to_sending : ts_sending st = false → ts_pending st = ∅;
}.

Lemma txsync_send_ok s st :
  (∀ id s, ts_pending st !! id = Some s → enode (ts_p s) = id ∧ ts_txids s ≠ []) →
  Forall (λ s, 0 < len (ts_txids s) <= softLimitItems) (ts_sent st) → ts_txids s ≠ [] → txsync_ok (txsync_send s st).
Proof.
  intros Hpend Hpacks Hne. unfold txsync_send. constructor; simpl; [| |done].
  - intros id s'. destruct (Z.eqb_spec (len (drop (length (take (Z.to_nat softLimitItems) (ts_txids s))) (ts_txids s))) 0) as [|Hr].
    + intros [_ Hs]%lookup_delete_Some. by apply Hpend.
    + intros [[<- <-]|[_ Hs]]%lookup_insert_Some; [|by apply Hpend]. split; [done|]. simpl. intros Hd. by rewrite Hd in Hr.
  - apply Forall_app. split; [done|]. constructor; [|done]. simpl. unfold len. rewrite length_take.
    assert (length (ts_txids s) ≠ 0)%nat by (intros ?%nil_length_inv; done). unfold softLimitItems. lia.
Qed.

(** The loop never stalls: as long as something is pending a pack is being sent; each pack
    has at least one hash and no more than the limit. *)
Theorem txsync_never_stalls `{!MapRangeLaws} st : rtc txsync_step (mkTxsyncState ∅ false (mkTxsync 0 []) []) st → txsync_ok st.
Proof.
  intros Hrun. remember (mkTxsyncState ∅ false (mkTxsync 0 []) []) as st0 eqn:E.
  assert (Hok : txsync_ok st0) by (subst; by constructor). clear E.
  induction Hrun as [|st0 st1 st2 Hstep _ IH]; [done|]. apply IH. destruct Hok as [Hpend Hpacks Hsend]. destruct Hstep as [s st Hne|err rand st Hs Hrand].
  - unfold on_txsync. simpl.
    assert (Hpend' : ∀ id s', <[enode (ts_p s) := s]> (ts_pending st) !! id = Some s' → enode (ts_p s') = id ∧ ts_txids s' ≠ []).
    { intros id s' [[<- <-]|[_ Hs']]%lookup_insert_Some; [done|by apply Hpend]. }
    destruct (ts_sending st) eqn:Es; simpl; [by constructor|by apply txsync_send_ok].
  - unfold on_txsync_done. set (pending := if err is Some _ then _ else _). simpl.
    assert (Hpend' : ∀ id s', pending !! id = Some s' → enode (ts_p s') = id ∧ ts_txids s' ≠ []).
    { intros id s'. unfold pending. destruct err; [intros [_ ?]%lookup_delete_Some|intros]; by apply Hpend. }
    unfold txsync_pick. simpl. destruct (Z.eqb_spec (Z.of_nat (size pending)) 0) as [Hz|Hnz].
    { constructor; [done|done|]. intros _. apply map_size_empty_inv, Nat2Z.inj. exact Hz. }
    destruct ((range_of pending).*2 !! Z.to_nat (rand (Z.of_nat (size pending)))) as [s|] eqn:Epick.
    + apply txsync_send_ok; [done|done|]. apply list_elem_of_lookup_2, list_elem_of_fmap in Epick as ([id s'] & -> & Hin).
      rewrite range_of_perm in Hin. apply elem_of_map_to_list in Hin. by eapply Hpend'.
    + exfalso. apply lookup_ge_None in Epick. rewrite length_fmap, range_of_perm, length_map_to_list in Epick.
      specialize (Hrand (Z.of_nat (size pending))). lia.
Qed.
End txsync.

(** ** A small network *)

#[global] Instance demo_stream : DagStream := { StreamRequest := Metric; StreamResponse := unit; request_Limit r := r }.

Definition demo_event_at (lamport : Z) : EventPayload Hash :=
  mkEventPayload (mkEvent (mkBaseEvent 7 1 1 1 lamport [] (mk_ID 7 lamport (replicate 24 9)))
    (mkExtEventData 0 0 None [] (mkGasPowerLeft [0; 0]) 0 []) []) [] [] 0.

(** Payloads that spell out their contents. *)
#[global] Instance demo_decode : MsgDecode Hash := {
  decode_handshake b := match b with version :: network :: genesis => Some (mkHandshake version network genesis) | _ => None end;
  decode_progress b := match b with [epoch] => Some (mkPeerProgress epoch 0 zero_ID 0) | _ => None end;
  decode_txs b := Some ((λ _, demo_transfer) <$> b);
  decode_hashes b := Some ((λ x, [x]) <$> b);
  decode_ids b := Some ((λ x, mk_ID 7 x (replicate 24 9)) <$> b);
  decode_events b := Some (demo_event_at <$> b);
  decode_request b := match b with [n; size] => Some (mkMetric n size) | _ => None end;
  decode_chunk b := match b with session :: ids => Some (mkChunk session true ((λ x, mk_ID 7 x (replicate 24 9)) <$> ids) []) | _ => None end;
}.

Definition demo_view : View Hash :=
  mkView 7 40 zero_ID 40 100 [8; 8] (λ _, false) (λ _, Some [1; 2]) (λ _, false) (λ _, Some demo_transfer) (λ _, [[3]]).

Definition demo_protocol : ProtocolConfig := mkProtocolConfig 60 40 10 10 5 6.

Definition demo_encode (p : Payload Hash) : option (list Z) := Some [1; 2; 3].
Definition demo_send (r : PeerRef) (code : Z) (p : Payload Hash) : option error := None.
Definition demo_seeder (id : string) (r : Metric) : option error := None.
Definition demo_leecher (id : string) : option error := None.
Definition demo_tx_size (tx : Transaction) : Z := 100.
Definition demo_event_size (e : EventPayload Hash) : Z := 200.

Definition demo_msg (code : Z) (payload : list Z) : Msg + error := inl (mkMsg code (len payload) payload).
Definition demo_connect (r : PeerRef) (id : string) : node_op (EventID := Hash) (S := CountingSemaphore) :=
  NConnect r (demo_peer id) false (demo_msg HandshakeMsg [62; 0; 8; 8]) (λ a b, a ++ b).

(** Two peers and a third with the id of the second; transactions before the node is in
    sync; the epochs of the peers; events of which the last is too high; an event that the
    first peer has and the second one has not. *)
Definition demo_ops : list (View Hash * node_op (EventID := Hash) (S := CountingSemaphore)) :=
  (λ op, (demo_view, op)) <$>
    [demo_connect 0 "a"; demo_connect 1 "b"; demo_connect 2 "b"; NMsg 0 (demo_msg EvmTxsMsg [1]); NMsg 0 (demo_msg ProgressMsg [7]);
     NMsg 1 (demo_msg ProgressMsg [6]); NMsg 0 (demo_msg EventsMsg [100; 136; 137]); NEmitted (demo_event_at 100)].

Definition demo_start : node (EventID := Hash) (S := CountingSemaphore) :=
  mkNode (newHandler demo_protocol 5 (mkCountingSemaphore (mkMetric 10 100000) (mkMetric 0 0))) ∅.

Notation demo_node_run := (node_run demo_tx_size demo_encode (λ _, false) demo_send demo_leecher demo_seeder demo_event_size).
Notation demo_handleMsg := (handleMsg demo_tx_size demo_encode (λ _, false) demo_seeder).

Lemma demo_ops_ok : Forall (λ '(_, op), op_ok op) demo_ops.
Proof. repeat (constructor; [first [exact I|split; [apply demo_peer_ok|reflexivity]]|]). constructor. Qed.

Lemma demo_start_ok : node_ok demo_start.
Proof. by apply newHandler_ok. Qed.

(** The calls by their kind, and the Lamport times that they are about. *)
Definition call_view (c : Call Hash) : string * list Z :=
  match c with
  | LeecherRegisterPeer _ => ("register", [])
  | TxSync r txids => ("sync", [len txids])
  | DagNotifyReceived ids => ("received", id_Lamport <$> ids)
  | ProcessorEnqueue _ events _ => ("process", (λ e, Lamport (ev_base (ep_event e))) <$> events)
  | LeecherForceSyncing => ("force", [])
  | _ => ("other", [])
  end.

Definition node_view (n : node (EventID := Hash) (S := CountingSemaphore)) :=
  (pm_synced (nd_pm n), map_to_list (ps_peers (pm_peers (nd_pm n))), elements (nd_running n), call_view <$> pm_calls (nd_pm n),
   (λ rp, bi_Code <$> p_queue rp.2) <$> map_to_list (pm_heap (nd_pm n))).

Lemma demo_node_runs :
  (node_view <$> demo_node_run demo_ops demo_start)
  = Some (true, [("a", 0%nat); ("b", 1%nat)], [1%nat; 0%nat],
      [("register", []); ("sync", [1]); ("register", []); ("sync", [1]); ("received", [100; 136; 137]); ("force", []);
       ("process", [100; 136])],
      [[]; [EventsMsg]; []]).
Proof. vm_compute. reflexivity. Qed.

Lemma demo_semaphore_free : sem_processing (mkCountingSemaphore (mkMetric 10 100000) (mkMetric 0 0)) = mkMetric 0 0.
Proof. reflexivity. Qed.

Lemma node_keeps_running_witness :
  ∃ n, demo_node_run demo_ops demo_start = Some n ∧ node_ok n ∧ pm_synced (nd_pm n) = true.
Proof.
  destruct (node_keeps_running demo_tx_size demo_encode (λ _, false) demo_send demo_leecher demo_seeder demo_event_size demo_ops
    demo_protocol 5 (mkCountingSemaphore (mkMetric 10 100000) (mkMetric 0 0)) demo_semaphore_free demo_ops_ok) as (n & Hrun & Hn).
  fold demo_start in Hrun. exists n. split; [exact Hrun|]. split; [exact Hn|]. pose proof demo_node_runs as Hview. rewrite Hrun in Hview.
  apply (inj Some) in Hview. exact (f_equal (λ x, x.1.1.1.1) Hview).
Defined.

(** Only events of the first two are in reach. *)
Lemma message_handled_safely_witness :
  ∃ n err pm' calls, demo_node_run demo_ops demo_start = Some n ∧
    demo_handleMsg demo_view 1 (demo_msg EventsMsg [100; 136; 137]) (nd_pm n) = Some (err, pm') ∧
    pm_ok pm' ∧ pm_calls pm' = pm_calls (nd_pm n) ++ calls ∧ Forall (call_safe demo_view (pm_config (nd_pm n)) (pm_synced (nd_pm n))) calls.
Proof.
  destruct (node_run_ok demo_tx_size demo_encode (λ _, false) demo_send demo_leecher demo_seeder demo_event_size demo_ops demo_start
    demo_start_ok demo_ops_ok) as (n & Hrun & Hn).
  pose proof demo_node_runs as Hview. rewrite Hrun in Hview. apply (inj Some) in Hview.
  destruct Hn as [Ho Hi Hr _].
  assert (Hdom : 1%nat ∈ dom (pm_heap (nd_pm n))).
  { apply Hr, elem_of_elements. assert (elements (nd_running n) = [1%nat; 0%nat]) as -> by exact (f_equal (λ x, x.1.1.2) Hview).
    apply list_elem_of_here. }
  destruct (message_handled_safely demo_tx_size demo_encode (λ _, false) demo_seeder demo_view 1 (demo_msg EventsMsg [100; 136; 137])
    (nd_pm n) Ho Hi Hdom) as (err & pm' & calls & Hh & Ho' & _ & _ & _ & Hc & Hs & _).
  exists n, err, pm', calls. split; [exact Hrun|]. split; [exact Hh|]. split; [exact Ho'|]. split; [exact Hc|exact Hs].
Defined.

Lemma broadcast_event_exact_witness :
  ∃ n (full announced : list nat) h, demo_node_run demo_ops demo_start = Some n ∧
    BroadcastEvent demo_encode (λ _, false) demo_event_size (demo_event_at 101) 5 (nd_pm n) = Some (len (full ++ announced), set_heap h (nd_pm n)) ∧
    NoDup (full ++ announced).
Proof.
  destruct (node_run_ok demo_tx_size demo_encode (λ _, false) demo_send demo_leecher demo_seeder demo_event_size demo_ops demo_start
    demo_start_ok demo_ops_ok) as (n & Hrun & Hn).
  destruct (broadcast_event_exact demo_encode (λ _, false) demo_event_size (demo_event_at 101) 5 (nd_pm n) (no_pm n Hn))
    as (full & announced & h & Hb & _ & Hnd & _).
  exists n, full, announced, h. split; [exact Hrun|]. split; [exact Hb|exact Hnd].
Defined.

(** A peer that the leecher refuses stays in the set, open, and no handler will remove it. *)
Example leecher_error_leaves_peer :
  (node_view <$> node_run demo_tx_size demo_encode (λ _, false) demo_send (λ _, Some (NewError "already registered")) demo_seeder
     demo_event_size [(demo_view, demo_connect 0 "a")] demo_start)
  = Some (false, [("a", 0%nat)], [], [("register", [])], [[]]).
Proof. vm_compute. reflexivity. Qed.

(** The cost of a broadcast wraps around: an event of a megabyte that is two and a half hours
    old counts as cheap and goes in full to every peer, as one that is two hours old does
    not. *)
Example broadcast_cost_overflows :
  decideBroadcastAggressiveness demo_protocol (1024 * 1024) (2 * 3600 * 1000000000) 50 = 0 ∧
  decideBroadcastAggressiveness demo_protocol (1024 * 1024) (2 * 3600 * 1000000000 + 1800 * 1000000000) 50 = 50.
Proof. split; reflexivity. Qed.

(** What the queue refuses counts as known to the peer. *)
Example refused_transactions_are_known :
  (λ p, (p_queue p, elements (p_knownTxs p))) <$>
    EnqueueSendTransactions (λ _, Some (replicate 5000 0)) (λ _, false) [demo_transfer] (demo_peer "a")
  = Some ([], [tx_Hash demo_transfer]).
Proof. vm_compute. reflexivity. Qed.
