(* ===== verification/EthApi.v ===== *)
(** * Calls, gas estimates and sent transactions (ethapi/api.go, ethapi/addrlock.go)

    The arguments of a call become a message that runs on a copy of the state; the gas
    estimate is a binary search over such calls.  Sending a transaction fills in what its
    arguments leave out, under a lock on the sender's address. *)

From S2P Require Import Prelude Cser Inter Instances EvmState.

Definition ErrExecutionReverted : error := NewError "vm.ErrExecutionReverted".

(** ** evmcore/state_transition.go: results *)

Definition Failed (r : ExecutionResult) : bool := bool_decide (is_Some (ResErr r)).
Definition Return (r : ExecutionResult) : list Z := if ResErr r is Some _ then [] else ReturnData r.
Definition Revert (r : ExecutionResult) : list Z :=
  if bool_decide (ResErr r = Some ErrExecutionReverted) then ReturnData r else [].

(** ** Arguments *)

Record CallArgs := mkCallArgs {
  ca_From : option Address;
  ca_To : option Address;
  ca_Gas : option Z;
  ca_GasPrice : option Z;
  ca_Value : option Z;
  ca_Data : option (list Z);
  ca_AccessList : option (list AccessTuple);
}.

Definition set_ca_Gas (gas : Z) (a : CallArgs) : CallArgs :=
  mkCallArgs (ca_From a) (ca_To a) (Some gas) (ca_GasPrice a) (ca_Value a) (ca_Data a) (ca_AccessList a).
Definition set_ca_From (from : Address) (a : CallArgs) : CallArgs :=
  mkCallArgs (Some from) (ca_To a) (ca_Gas a) (ca_GasPrice a) (ca_Value a) (ca_Data a) (ca_AccessList a).

Definition ToMessage (args : CallArgs) (globalGasCap : Z) : Message :=
  let addr := default zeroAddr (ca_From args) in
  let gas := if globalGasCap =? 0 then MaxUint64 / 2 else globalGasCap in
  let gas := default gas (ca_Gas args) in
  let gas := if negb (globalGasCap =? 0) && (globalGasCap <? gas) then globalGasCap else gas in
  mkMessage addr (ca_To args) (default 0 (ca_GasPrice args)) gas (default 0 (ca_Value args)) 0 false (default [] (ca_Data args))
    (default [] (ca_AccessList args)).

Record OverrideAccount := mkOverride {
  oa_Nonce : option Z;
  oa_Code : option (list Z);
  oa_Balance : option Z;
  oa_State : option (list (list Z * list Z));
  oa_StateDiff : option (list (list Z * list Z));
}.

(** What [Apply] writes to the state beyond the operations of [StateDB]. *)
Class StateWrites (W : Type) := {
  SetCode : Address → list Z → W → W;
  SetBalance : Address → Z → W → W;
  SetStorage : Address → list (list Z * list Z) → W → W;
  SetState : Address → list Z → list Z → W → W;
}.

Section calls.
Context `{GasTable} {W : Type} `{StateDB W} `{EVM W} `{StateWrites W}.

Definition override_account (addr : Address) (account : OverrideAccount) (w : W) : res W :=
  let w := if oa_Nonce account is Some n then SetNonce addr n w else w in
  let w := if oa_Code account is Some c then SetCode addr c w else w in
  let w := if oa_Balance account is Some b then SetBalance addr b w else w in
  match oa_State account, oa_StateDiff account with
  | Some _, Some _ => Err (NewError "account has both 'state' and 'stateDiff'")
  | Some s, None => Ok (SetStorage addr s w)
  | None, Some diff => Ok (foldl (λ w kv, SetState addr kv.1 kv.2 w) w diff)
  | None, None => Ok w
  end.

(** [Apply], over the accounts in the order in which the map is read. *)
Fixpoint overrides_Apply (diff : list (Address * OverrideAccount)) (w : W) : res W :=
  match diff with
  | [] => Ok w
  | (addr, account) :: diff' => w ← override_account addr account w; overrides_Apply diff' w
  end.

(** What the backend answers: the state of the block (none may come without an error),
    whether the call was cancelled, and the limits. *)
Record Backend := mkBackend {
  b_State : res (option W);
  b_Cancelled : Message → bool;
  b_MaxGasLimit : Z;
  b_RPCGasCap : Z;
  b_SuggestPrice : res Z;
  b_ChainID : Z;
  b_UnprotectedAllowed : bool;
}.

(** The text that is put around an error of the message is left out. *)
Definition DoCall (b : Backend) (args : CallArgs) (overrides : list (Address * OverrideAccount)) (globalGasCap : Z)
    : res (option ExecutionResult) :=
  state ← b_State b;
  match state with
  | None => Ok None
  | Some w =>
      w ← overrides_Apply overrides w;
      let msg := ToMessage args globalGasCap in
      gp ← AddGas 0 MaxUint64;
      let '(result, _) := ApplyMessage msg w gp in
      match result with
      | Panic => Panic
      | _ => if b_Cancelled b msg then Err (NewError "execution aborted") else Some <$> result
      end
  end.

(** [newRevertError]; the reason is in its text. *)
Definition newRevertError (r : ExecutionResult) : error := NewError "execution reverted".

Definition Call (b : Backend) (args : CallArgs) (overrides : list (Address * OverrideAccount)) : res (list Z) :=
  result ← DoCall b args overrides (b_RPCGasCap b);
  match result with
  | None => Panic
  | Some r =>
      if 0 <? len (Revert r) then Err (newRevertError r)
      else match ResErr r with Some e => Err e | None => Ok (Return r) end
  end.

(** ** Gas estimates *)

(** Whether a gas limit is too low: a result that failed, or too little gas to start. *)
Definition executable (b : Backend) (args : CallArgs) (gasCap gas : Z) : res (bool * option ExecutionResult) :=
  match DoCall b (set_ca_Gas gas args) [] gasCap with
  | Panic => Panic
  | Err err => if bool_decide (err = ErrIntrinsicGas) then Ok (true, None) else Err err
  | Ok None => Panic
  | Ok (Some result) => Ok (Failed result, Some result)
  end.

(** [for lo+1 < hi]; no result when the fuel runs out. *)
Fixpoint estimate_loop (exec : Z → res (bool * option ExecutionResult)) (fuel : nat) (lo hi : Z) : option (res Z) :=
  if u64 (lo + 1) <? hi then
    match fuel with
    | O => None
    | S fuel' =>
        let mid := u64 (hi + lo) / 2 in
        match exec mid with
        | Ok (failed, _) => if failed : bool then estimate_loop exec fuel' mid hi else estimate_loop exec fuel' lo mid
        | Err err => Some (Err err)
        | Panic => Some Panic
        end
    end
  else Some (Ok hi).

(** The highest gas limit that the sender can pay for. *)
Definition funds_cap (b : Backend) (args : CallArgs) (from : Address) (hi : Z) : res Z :=
  match ca_GasPrice args with
  | None => Ok hi
  | Some price =>
      if price =? 0 then Ok hi
      else
        state ← b_State b;
        match state with
        | None => Panic
        | Some w =>
            let balance := GetBalance w from in
            available ← (match ca_Value args with
                         | Some value => if balance <=? value then Err (NewError "insufficient funds for transfer") else Ok (balance - value)
                         | None => Ok balance
                         end);
            let allowance := available / price in
            Ok (if bool_decide (is_u64 allowance) && (allowance <? hi) then allowance else hi)
        end
  end.

Definition estimate_cap (b : Backend) (args : CallArgs) (from : Address) (gasCap : Z) : res Z :=
  let hi := match ca_Gas args with
            | Some gas => if TxGas <=? gas then gas else b_MaxGasLimit b
            | None => b_MaxGasLimit b
            end in
  hi ← funds_cap b args from hi;
  Ok (if negb (gasCap =? 0) && (gasCap <? hi) then gasCap else hi).

Definition ErrExceedsAllowance : error := NewError "gas required exceeds allowance".

(** The check at the highest allowance. *)
Definition estimate_end (exec : Z → res (bool * option ExecutionResult)) (cap hi : Z) : res Z :=
  if negb (hi =? cap) then Ok hi
  else
    '(failed, result) ← exec hi;
    if negb failed then Ok hi
    else
      match result with
      | Some r =>
          if negb (bool_decide (ResErr r = Some ErrOutOfGas)) then
            if 0 <? len (Revert r) then Err (newRevertError r)
            else match ResErr r with Some e => Err e | None => Ok 0 end
          else Err ErrExceedsAllowance
      | None => Err ErrExceedsAllowance
      end.

Definition estimate_search (exec : Z → res (bool * option ExecutionResult)) (fuel : nat) (cap : Z) : option (res Z) :=
  r ← estimate_loop exec fuel (u64 (TxGas - 1)) cap;
  Some (hi ← r; estimate_end exec cap hi).

Definition DoEstimateGas (fuel : nat) (b : Backend) (args : CallArgs) (gasCap : Z) : option (res Z) :=
  let from := default zeroAddr (ca_From args) in
  let args := set_ca_From from args in
  match estimate_cap b args from gasCap with
  | Ok cap => estimate_search (executable b args gasCap) fuel cap
  | Err err => Some (Err err)
  | Panic => Some Panic
  end.

Definition EstimateGas (fuel : nat) (b : Backend) (args : CallArgs) : option (res Z) := DoEstimateGas fuel b args (b_RPCGasCap b).
End calls.

(** ** What an estimate means *)

Section estimates.
Variable exec : Z → res (bool * option ExecutionResult).

Definition fails (gas : Z) : Prop := ∃ r, exec gas = Ok (true, r).
Definition runs (gas : Z) : Prop := ∃ r, exec gas = Ok (false, r).

(** What the loop leaves. *)
Definition search_ends (lo hi : Z) (r : res Z) : Prop :=
  match r with
  | Ok h => (hi <= lo ∧ h = hi) ∨ (lo < h <= hi ∧ (h = hi ∨ runs h) ∧ (h - 1 = lo ∨ fails (h - 1)))
  | Err e => ∃ mid, lo < mid < hi ∧ exec mid = Err e
  | Panic => ∃ mid, lo < mid < hi ∧ exec mid = Panic
  end.

Lemma search_ends_now lo hi : hi <= lo + 1 → search_ends lo hi (Ok hi).
Proof.
  intros Hle. destruct (Z.le_gt_cases hi lo); [by left|]. right. replace hi with (lo + 1) by lia.
  split; [lia|]. split; [by left|left; lia].
Qed.

(** The search ends after as many rounds as the interval has bits. *)
Lemma estimate_loop_spec fuel lo hi :
  0 <= lo < 2 ^ 63 → hi <= 2 ^ 63 → hi - lo <= 2 ^ Z.of_nat fuel →
  ∃ r, estimate_loop exec fuel lo hi = Some r ∧ search_ends lo hi r.
Proof.
  revert lo hi. induction fuel as [|fuel IH]; intros lo hi Hlo Hhi Hf; simpl;
    rewrite u64_id by (unfold is_u64; lia); destruct (Z.ltb_spec (lo + 1) hi) as [Hlt|Hge];
    try (eexists; split; [done|]; apply search_ends_now; lia).
  { change (hi - lo <= 1) in Hf. lia. }
  rewrite Nat2Z.inj_succ, Z.pow_succ_r in Hf by lia. rewrite u64_id by (unfold is_u64; lia).
  assert (Hmid : lo < (hi + lo) / 2 < hi ∧ hi - (hi + lo) / 2 <= 2 ^ Z.of_nat fuel ∧ (hi + lo) / 2 - lo <= 2 ^ Z.of_nat fuel).
  { pose proof (Z.div_mod (hi + lo) 2 ltac:(lia)). pose proof (Z.mod_pos_bound (hi + lo) 2 ltac:(lia)). lia. }
  generalize dependent ((hi + lo) / 2). intros mid Hmid. destruct Hmid as (Hmid & Hf1 & Hf2). destruct (exec mid) as [[failed x]|e|] eqn:Ex.
  - destruct failed.
    + destruct (IH mid hi) as (r & -> & Hr); [lia|lia|lia|]. exists r. split; [done|]. destruct r as [h|e|]; simpl in *.
      * right. destruct Hr as [?|(? & ? & Hm)]; [lia|]. split; [lia|]. split; [done|]. right.
        destruct Hm as [->|?]; [by exists x|done].
      * destruct Hr as (m & ? & ?). exists m. split; [lia|done].
      * destruct Hr as (m & ? & ?). exists m. split; [lia|done].
    + destruct (IH lo mid) as (r & -> & Hr); [lia|lia|lia|]. exists r. split; [done|]. destruct r as [h|e|]; simpl in *.
      * right. destruct Hr as [?|(? & Hm & ?)]; [lia|]. split; [lia|]. split; [|done]. right.
        destruct Hm as [->|?]; [by exists x|done].
      * destruct Hr as (m & ? & ?). exists m. split; [lia|done].
      * destruct Hr as (m & ? & ?). exists m. split; [lia|done].
  - eexists. split; [done|]. by exists mid.
  - eexists. split; [done|]. by exists mid.
Qed.

(** With a limit of [2^64 - 1] the middle wraps around: a call that always fails is tried
    for ever. *)
Lemma estimate_loop_diverges fuel lo :
  (∀ gas, fails gas) → 0 <= lo < 2 ^ 63 → estimate_loop exec fuel lo MaxUint64 = None.
Proof.
  intros Hf. revert lo. induction fuel as [|fuel IH]; intros lo Hlo; simpl; rewrite u64_id by (unfold is_u64; lia);
    rewrite (proj2 (Z.ltb_lt _ _)) by (unfold MaxUint64; lia); [done|].
  set (mid := u64 (MaxUint64 + lo) / 2). destruct (Hf mid) as [x ->]. apply IH. subst mid.
  assert (Hu : 0 <= u64 (MaxUint64 + lo) < 2 ^ 64) by apply u64_range.
  split; [apply Z.div_pos; lia|apply Z.div_lt_upper_bound; lia].
Qed.
End estimates.

Section estimate_gas.
Context `{GasTable} {W : Type} `{StateDB W} `{EVM W} `{StateWrites W}.
Notation Backend := (Backend (W := W)).

(** The call runs with this gas and does not fail. *)
Definition call_succeeds (b : Backend) (args : CallArgs) (gasCap gas : Z) : Prop :=
  ∃ result, DoCall b (set_ca_Gas gas args) [] gasCap = Ok (Some result) ∧ Failed result = false.

(** It lacks gas or fails for a reason of its own. *)
Definition call_fails (b : Backend) (args : CallArgs) (gasCap gas : Z) : Prop :=
  DoCall b (set_ca_Gas gas args) [] gasCap = Err ErrIntrinsicGas ∨
  ∃ result, DoCall b (set_ca_Gas gas args) [] gasCap = Ok (Some result) ∧ Failed result = true.

Lemma runs_call b args gasCap gas : runs (executable b args gasCap) gas ↔ call_succeeds b args gasCap gas.
Proof.
  unfold runs, call_succeeds, executable. split.
  - intros [r Hr]. destruct (DoCall _ _ _ _) as [[result|]|e|]; [|done|by case_bool_decide|done]. exists result. by injection Hr.
  - intros (result & -> & ->). eauto.
Qed.

Lemma fails_call b args gasCap gas : fails (executable b args gasCap) gas ↔ call_fails b args gasCap gas.
Proof.
  unfold fails, call_fails, executable. split.
  - intros [r Hr]. destruct (DoCall _ _ _ _) as [[result|]|e|]; [|done| |done].
    + right. exists result. by injection Hr.
    + case_bool_decide as He; [|done]. left. by rewrite He.
  - intros [-> |(result & -> & ->)]; [|eauto]. rewrite bool_decide_true by done. eauto.
Qed.

Lemma estimate_search_spec exec cap :
  0 < TxGas < 2 ^ 63 → cap <= 2 ^ 63 → (∀ gas r, exec gas = Ok (true, Some r) → is_Some (ResErr r)) →
  ∃ r, estimate_search exec 63 cap = Some r ∧
    match r with
    | Ok g => g <= cap ∧ runs exec g ∧ (g = cap ∨ TxGas <= g) ∧ (g <= TxGas ∨ fails exec (g - 1))
    | Err e => (∃ gas, exec gas = Err e) ∨ fails exec cap
    | Panic => ∃ gas, exec gas = Panic
    end.
Proof.
  intros Hgas Hcap Hexec. unfold estimate_search. rewrite u64_id by (unfold is_u64; lia).
  destruct (estimate_loop_spec exec 63 (TxGas - 1) cap) as (r & -> & Hr); [lia|done|change (2 ^ Z.of_nat 63) with (2 ^ 63); lia|].
  simpl. eexists. split; [done|]. destruct r as [h|e|]; simpl in *; [|destruct Hr as (? & _ & ?); eauto..].
  assert (Hh : h <= cap ∧ (h = cap ∨ runs exec h) ∧ (h = cap ∨ TxGas <= h) ∧ (h <= TxGas ∨ fails exec (h - 1))).
  { destruct Hr as [[? ->]|(? & ? & [?|?])]; split_and!; try lia; auto; left; lia. }
  clear Hr. destruct Hh as (Hle & Hrun & Hlow & Hfail). unfold estimate_end. destruct (Z.eqb_spec h cap) as [->|Hne]; simpl.
  - destruct (exec cap) as [[[] result]|e|] eqn:Ex; simpl.
    + assert (fails exec cap) by (by exists result). destruct result as [r|]; [|by right].
      destruct (negb _); [|by right]. destruct (0 <? _); [by right|]. destruct (Hexec _ _ Ex) as [? ->]. by right.
    + split_and!; try done. by exists result.
    + left. eauto.
    + eauto.
  - split_and!; try done. by destruct Hrun.
Qed.

Lemma executable_err b args gasCap gas r : executable b args gasCap gas = Ok (true, Some r) → is_Some (ResErr r).
Proof.
  unfold executable. destruct (DoCall _ _ _ _) as [[result|]|e|]; [|done|by case_bool_decide|done]. intros [= Hf ->].
  unfold Failed in Hf. by apply bool_decide_eq_true in Hf.
Qed.

End estimate_gas.

(** ** Sending transactions *)

Record SendTxArgs := mkSendTxArgs {
  sa_From : Address;
  sa_To : option Address;
  sa_Gas : option Z;
  sa_GasPrice : option Z;
  sa_Value : option Z;
  sa_Nonce : option Z;
  sa_Data : option (list Z);
  sa_Input : option (list Z);
  sa_AccessList : option (list AccessTuple);
  sa_ChainID : option Z;
}.

(** The account manager, the wallets and the signer; [Find] and [SignTx] may fail. *)
Class Signing := {
  am_Find : Address → option error;
  wallet_SignTx : Address → Transaction → Z → res Transaction;
  wallet_SignTxWithPassphrase : Address → string → Transaction → Z → res Transaction;
  signer_Sender : Transaction → res Address;
  signer_Hash : Transaction → list Z;
  tx_hash : Transaction → list Z;
  tx_Protected : Transaction → bool;
  MarshalBinary : Transaction → res (list Z);
  DecodeTx : list Z → res Transaction;
}.

(** What the backend does with the pool. *)
Class TxBackend (P : Type) := {
  GetPoolNonce : Address → P → res Z;
  SendTx : Transaction → P → option error * P;
  GetPoolTransactions : P → res (list Transaction);
}.

(** Whether a fee in the smallest unit is above the cap, as floating point numbers. *)
Record FeeCap := mkFeeCap { cap_is_zero : bool; fee_exceeds : Z → bool }.

Definition checkTxFee (gasPrice gas : Z) (cap : FeeCap) : option error :=
  if cap_is_zero cap then None
  else if fee_exceeds cap (gasPrice * gas) then Some (NewError "tx fee exceeds the configured cap")
  else None.

(** Dereferencing a pointer. *)
Definition must {A} (x : option A) : res A := if x is Some a then Ok a else Panic.

Definition tx_input (args : SendTxArgs) : list Z :=
  match sa_Input args, sa_Data args with Some i, _ => i | None, Some d => d | None, None => [] end.

(** Before [setDefaults] has been called a field may be missing. *)
Definition toTransaction (args : SendTxArgs) : res Transaction :=
  nonce ← must (sa_Nonce args);
  gas ← must (sa_Gas args);
  Ok (match sa_AccessList args with
      | None => mkTransaction LegacyTxType nonce gas (default 0 (sa_GasPrice args)) (default 0 (sa_Value args)) (sa_To args) (tx_input args) 0 0 0 0 []
      | Some al =>
          mkTransaction AccessListTxType nonce gas (default 0 (sa_GasPrice args)) (default 0 (sa_Value args)) (sa_To args) (tx_input args) 0 0 0
            (default 0 (sa_ChainID args)) al
      end).

Section sending.
Context `{GasTable} {W : Type} `{StateDB W} `{EVM W} `{StateWrites W} `{Signing} {P : Type} `{TxBackend P}.
Variable b : Backend (W := W).
Variable cap : FeeCap.
(** The rounds that an estimate may take. *)
Variable fuel : nat.

Definition ErrDataAndInput : error := NewError "both data and input are set and not equal".
Definition ErrNoData : error := NewError "contract creation without any data provided".

(** The checks of the data. *)
Definition check_data (args : SendTxArgs) : res unit :=
  if (if sa_Data args is Some d then if sa_Input args is Some i then negb (bool_decide (d = i)) else false else false)
  then Err ErrDataAndInput
  else if bool_decide (sa_To args = None) &&
          (len (match sa_Data args, sa_Input args with Some d, _ => d | None, Some i => i | None, None => [] end) =? 0)
  then Err ErrNoData
  else Ok tt.

Definition estimate_args (args : SendTxArgs) (price value : Z) : CallArgs :=
  mkCallArgs (Some (sa_From args)) (sa_To args) None (Some price) (Some value)
    (match sa_Input args with Some i => Some i | None => sa_Data args end) (sa_AccessList args).

(** No result while an estimate does not end. *)
Definition setDefaults (args : SendTxArgs) (p : P) : option (res SendTxArgs) :=
  match (price ← (if sa_GasPrice args is Some x then Ok x else b_SuggestPrice b);
         nonce ← (if sa_Nonce args is Some x then Ok x else GetPoolNonce (sa_From args) p);
         _ ← check_data args;
         Ok (price, nonce)) with
  | Panic => Some Panic
  | Err e => Some (Err e)
  | Ok (price, nonce) =>
      let value := default 0 (sa_Value args) in
      gas ← (if sa_Gas args is Some x then Some (Ok x) else DoEstimateGas fuel b (estimate_args args price value) (b_RPCGasCap b));
      Some (gas ← gas;
            Ok (mkSendTxArgs (sa_From args) (sa_To args) (Some gas) (Some price) (Some value) (Some nonce) (sa_Data args) (sa_Input args)
                  (sa_AccessList args) (Some (default (b_ChainID b) (sa_ChainID args)))))
  end.

Definition ErrUnprotected : error := NewError "only replay-protected (EIP-155) transactions allowed over RPC".

(** What becomes of the pool is returned also with an error. *)
Definition SubmitTransaction (tx : Transaction) (p : P) : res (list Z) * P :=
  match checkTxFee (tx_GasPrice tx) (tx_Gas tx) cap with
  | Some e => (Err e, p)
  | None =>
      if negb (b_UnprotectedAllowed b) && negb (tx_Protected tx) then (Err ErrUnprotected, p)
      else
        let '(err, p) := SendTx tx p in
        match err with
        | Some e => (Err e, p)
        | None => (_ ← signer_Sender tx; Ok (tx_hash tx), p)
        end
  end.

Definition sign (addr : Address) (tx : Transaction) : res Transaction :=
  match am_Find addr with Some e => Err e | None => wallet_SignTx addr tx (b_ChainID b) end.

(** The part of [SendTransaction] that runs with the lock on the sender, after its nonce is
    known: the signed transaction. *)
Definition prepare (args : SendTxArgs) : res Transaction :=
  tx ← toTransaction args;
  wallet_SignTx (sa_From args) tx (b_ChainID b).

Definition SendTransaction (args : SendTxArgs) (p : P) : option (res (list Z) * P) :=
  match am_Find (sa_From args) with
  | Some e => Some (Err e, p)
  | None =>
      filled ← setDefaults args p;
      Some (match filled with
            | Ok args => match prepare args with Ok tx => SubmitTransaction tx p | Err e => (Err e, p) | Panic => (Panic, p) end
            | Err e => (Err e, p)
            | Panic => (Panic, p)
            end)
  end.

(** [PrivateAccountAPI]: the key is opened with a password. *)
Definition private_signTransaction (args : SendTxArgs) (passwd : string) (p : P) : option (res Transaction) :=
  match am_Find (sa_From args) with
  | Some e => Some (Err e)
  | None =>
      filled ← setDefaults args p;
      Some (args ← filled; tx ← toTransaction args; wallet_SignTxWithPassphrase (sa_From args) passwd tx (b_ChainID b))
  end.

Definition private_SendTransaction (args : SendTxArgs) (passwd : string) (p : P) : option (res (list Z) * P) :=
  signed ← private_signTransaction args passwd p;
  Some (match signed with Ok tx => SubmitTransaction tx p | Err e => (Err e, p) | Panic => (Panic, p) end).

Definition private_SignTransaction (args : SendTxArgs) (passwd : string) (p : P) : option (res (list Z * Transaction)) :=
  match sa_Gas args, sa_GasPrice args, sa_Nonce args with
  | None, _, _ => Some (Err (NewError "gas not specified"))
  | _, None, _ => Some (Err (NewError "gasPrice not specified"))
  | _, _, None => Some (Err (NewError "nonce not specified"))
  | Some gas, Some price, Some _ =>
      match checkTxFee price gas cap with
      | Some e => Some (Err e)
      | None => signed ← private_signTransaction args passwd p; Some (tx ← signed; data ← MarshalBinary tx; Ok (data, tx))
      end
  end.

Definition FillTransaction (args : SendTxArgs) (p : P) : option (res (list Z * Transaction)) :=
  filled ← setDefaults args p;
  Some (args ← filled; tx ← toTransaction args; data ← MarshalBinary tx; Ok (data, tx)).

Definition SendRawTransaction (encodedTx : list Z) (p : P) : res (list Z) * P :=
  match DecodeTx encodedTx with
  | Ok tx => SubmitTransaction tx p
  | Err e => (Err e, p)
  | Panic => (Panic, p)
  end.

Definition SignTransaction (args : SendTxArgs) (p : P) : option (res (list Z * Transaction)) :=
  match sa_Gas args, sa_GasPrice args, sa_Nonce args with
  | None, _, _ => Some (Err (NewError "gas not specified"))
  | _, None, _ => Some (Err (NewError "gasPrice not specified"))
  | _, _, None => Some (Err (NewError "nonce not specified"))
  | Some _, Some _, Some _ =>
      filled ← setDefaults args p;
      Some (args ← filled;
            price ← must (sa_GasPrice args);
            gas ← must (sa_Gas args);
            _ ← (if checkTxFee price gas cap is Some e then Err e else Ok tt);
            tx ← toTransaction args;
            tx ← sign (sa_From args) tx;
            data ← MarshalBinary tx;
            Ok (data, tx))
  end.

Definition set_price_gas (price gas : option Z) (args : SendTxArgs) : SendTxArgs :=
  mkSendTxArgs (sa_From args) (sa_To args) gas price (sa_Value args) (sa_Nonce args) (sa_Data args) (sa_Input args)
    (sa_AccessList args) (sa_ChainID args).

(** The first pending transaction that is the given one, sent again. *)
Fixpoint resend_loop (pending : list Transaction) (matchTx : Transaction) (args : SendTxArgs) (gasPrice gasLimit : option Z) (p : P)
    : res (list Z) * P :=
  match pending with
  | [] => (Err (NewError "transaction not found"), p)
  | q :: pending' =>
      match signer_Sender q with
      | Ok from =>
          if bool_decide (from = sa_From args) && bool_decide (signer_Hash q = signer_Hash matchTx) then
            let price := if gasPrice is Some x then if negb (x =? 0) then Some x else sa_GasPrice args else sa_GasPrice args in
            let gas := if gasLimit is Some x then if negb (x =? 0) then Some x else sa_Gas args else sa_Gas args in
            match (tx ← toTransaction (set_price_gas price gas args); sign (sa_From args) tx) with
            | Ok tx => let '(err, p) := SendTx tx p in (match err with Some e => Err e | None => Ok (tx_hash tx) end, p)
            | Err e => (Err e, p)
            | Panic => (Panic, p)
            end
          else resend_loop pending' matchTx args gasPrice gasLimit p
      | _ => resend_loop pending' matchTx args gasPrice gasLimit p
      end
  end.

Definition Resend (sendArgs : SendTxArgs) (gasPrice gasLimit : option Z) (p : P) : option (res (list Z) * P) :=
  match sa_Nonce sendArgs with
  | None => Some (Err (NewError "missing transaction nonce in transaction spec"), p)
  | Some _ =>
      filled ← setDefaults sendArgs p;
      Some (match (args ← filled; matchTx ← toTransaction args; Ok (args, matchTx)) with
            | Ok (args, matchTx) =>
                let price := default (tx_GasPrice matchTx) gasPrice in
                let gas := default (tx_Gas matchTx) gasLimit in
                match checkTxFee price gas cap with
                | Some e => (Err e, p)
                | None =>
                    match GetPoolTransactions p with
                    | Ok pending => resend_loop pending matchTx args gasPrice gasLimit p
                    | Err e => (Err e, p)
                    | Panic => (Panic, p)
                    end
                end
            | Err e => (Err e, p)
            | Panic => (Panic, p)
            end)
  end.

(** Filling in what is missing leaves the rest, gives a transaction, and is done once. *)
Lemma setDefaults_complete args p args' :
  setDefaults args p = Some (Ok args') →
  (∃ tx, toTransaction args' = Ok tx ∧ sa_Nonce args' = Some (tx_Nonce tx) ∧ sa_Gas args' = Some (tx_Gas tx) ∧
     sa_GasPrice args' = Some (tx_GasPrice tx) ∧ sa_Value args' = Some (tx_Value tx)) ∧
  sa_From args' = sa_From args ∧ sa_To args' = sa_To args ∧ tx_input args' = tx_input args ∧
  (∀ x, sa_Nonce args = Some x → sa_Nonce args' = Some x) ∧ (∀ x, sa_Gas args = Some x → sa_Gas args' = Some x) ∧
  (∀ x, sa_GasPrice args = Some x → sa_GasPrice args' = Some x) ∧ (∀ x, sa_Value args = Some x → sa_Value args' = Some x) ∧
  ∀ p', setDefaults args' p' = Some (Ok args').
Proof.
  unfold setDefaults. intros Hset.
  destruct (if sa_GasPrice args is Some x then Ok x else b_SuggestPrice b) as [price| |] eqn:Eprice; simpl in Hset; [|done..].
  destruct (if sa_Nonce args is Some x then Ok x else GetPoolNonce (sa_From args) p) as [nonce| |] eqn:Enonce; simpl in Hset; [|done..].
  destruct (check_data args) as [[]| |] eqn:Edata; simpl in Hset; [|done..].
  destruct (if sa_Gas args is Some x then Some (Ok x) else DoEstimateGas _ _ _ _) as [[gas| |]|] eqn:Egas; simpl in Hset; [|done..].
  injection Hset as <-. split; [by unfold toTransaction; simpl; destruct (sa_AccessList args); eexists|].
  do 3 (split; [done|]). simpl. repeat split; try (by intros x Hx; rewrite Hx in *; simplify_eq).
  intros p'. change (check_data _) with (check_data args). by rewrite Edata.
Qed.

(** What is sent through the interface has a reasonable fee and, if required, is protected
    against replay. *)
Lemma SubmitTransaction_sent tx p h p' :
  SubmitTransaction tx p = (Ok h, p') →
  h = tx_hash tx ∧ SendTx tx p = (None, p') ∧ checkTxFee (tx_GasPrice tx) (tx_Gas tx) cap = None ∧
  (b_UnprotectedAllowed b = true ∨ tx_Protected tx = true).
Proof.
  unfold SubmitTransaction. destruct (checkTxFee _ _ _); [done|]. destruct (negb _ && negb _) eqn:Ep; [done|].
  destruct (SendTx tx p) as [[e|] q]; [done|]. intros [= Hs ->]. destruct (signer_Sender tx); [|done..]. injection Hs as <-.
  split_and!; try done. destruct (b_UnprotectedAllowed b); [by left|]. right. by destruct (tx_Protected tx).
Qed.

Theorem SendTransaction_sent args p h p' :
  SendTransaction args p = Some (Ok h, p') →
  ∃ tx, h = tx_hash tx ∧ SendTx tx p = (None, p') ∧ checkTxFee (tx_GasPrice tx) (tx_Gas tx) cap = None ∧
    (b_UnprotectedAllowed b = true ∨ tx_Protected tx = true).
Proof.
  unfold SendTransaction. destruct (am_Find _); [done|]. destruct (setDefaults args p) as [[args'|e|]|]; simpl; try done.
  destruct (prepare args') as [tx|e|]; try done. intros [= Hs]. exists tx. by apply SubmitTransaction_sent.
Qed.
End sending.

(** ** Access lists *)

(** The tracer of the virtual machine: the accounts and slots that it was given and those
    that a run touched; [tracer_run] is the tracer after the message, with its result. *)
Class AccessTracer (W T : Type) := {
  NewAccessListTracer : list AccessTuple → Address → Address → T;
  tracer_AccessList : T → list AccessTuple;
  tracer_Equal : T → T → bool;
  tracer_run : Message → W → T → T * res ExecutionResult;
  CreateAddress : Address → Z → Address;
}.

Section access_lists.
Context `{GasTable} {W : Type} `{StateDB W} `{EVM W} `{StateWrites W} `{Signing} {P : Type} `{TxBackend P} {T : Type} `{AccessTracer W T}.
Variable b : Backend (W := W).
Variable fuel : nat.
(** The error of [GetEVM]. *)
Variable evm_error : option error.

Definition unset_gas (args : SendTxArgs) : SendTxArgs := set_price_gas (sa_GasPrice args) None args.

(** The message of a round; the fields are those that [setDefaults] has filled in. *)
Definition access_msg (args : SendTxArgs) (al : list AccessTuple) : res Message :=
  nonce ← must (sa_Nonce args);
  value ← must (sa_Value args);
  gas ← must (sa_Gas args);
  price ← must (sa_GasPrice args);
  Ok (mkMessage (sa_From args) (sa_To args) price gas value nonce false (tx_input args) al).

Definition access_result := res (list AccessTuple * Z * option error).

(** One round: the message runs with the accesses found so far; done when it finds no
    others, else the next tracer. *)
Definition access_round (to : Address) (w : W) (args : SendTxArgs) (prev : T) : res ((list AccessTuple * Z * option error) + T) :=
  let al := tracer_AccessList prev in
  msg ← access_msg args al;
  _ ← (if evm_error is Some e then Err e else Ok tt);
  let '(tracer, result) := tracer_run msg w (NewAccessListTracer al (sa_From args) to) in
  r ← result;
  Ok (if tracer_Equal tracer prev then inl (al, UsedGas r, ResErr r) else inr tracer).

(** [for]: with no gas given it is estimated again in every round. *)
Fixpoint access_loop (n : nat) (nogas : bool) (to : Address) (w : W) (p : P) (args : SendTxArgs) (prev : T) : option access_result :=
  match n with
  | O => None
  | S n' =>
      filled ← (if nogas then setDefaults b fuel (unset_gas args) p else Some (Ok args));
      match filled with
      | Panic => Some Panic
      | Err e => Some (Err e)
      | Ok args =>
          match access_round to w args prev with
          | Panic => Some Panic
          | Err e => Some (Err e)
          | Ok (inl done) => Some (Ok done)
          | Ok (inr tracer) => access_loop n' nogas to w p args tracer
          end
      end
  end.

Definition AccessList (n : nat) (args : SendTxArgs) (p : P) : option access_result :=
  match b_State b with
  | Panic => Some Panic
  | Err e => Some (Err e)
  | Ok None => Some (Ok ([], 0, None))
  | Ok (Some w) =>
      let nogas := bool_decide (sa_Gas args = None) in
      filled ← setDefaults b fuel args p;
      match filled with
      | Panic => Some Panic
      | Err e => Some (Err e)
      | Ok args =>
          match (match sa_To args with Some a => Ok a | None => nonce ← must (sa_Nonce args); Ok (CreateAddress (sa_From args) nonce) end) with
          | Panic => Some Panic
          | Err e => Some (Err e)
          | Ok to => access_loop n nogas to w p args (NewAccessListTracer (default [] (sa_AccessList args)) (sa_From args) to)
          end
      end
  end.

(** A run only adds to what the tracer was given, of a finite universe of accounts and slots. *)
Definition tracer_bounded (size : T → nat) (bound : nat) (to : Address) (w : W) : Prop :=
  ∀ args prev msg, access_msg args (tracer_AccessList prev) = Ok msg →
    let t := (tracer_run msg w (NewAccessListTracer (tracer_AccessList prev) (sa_From args) to)).1 in
    (size t <= bound)%nat ∧ (tracer_Equal t prev = false → size prev < size t)%nat.

(** The loop ends after as many rounds as there are accounts and slots to find, and what it
    returns is complete: a run that is given the list finds nothing else. *)
Theorem access_loop_ends size bound nogas to w p args prev n :
  tracer_bounded size bound to w → (size prev <= bound < n + size prev)%nat →
  (∀ a, is_Some (setDefaults b fuel a p)) →
  ∃ r, access_loop n nogas to w p args prev = Some r ∧
    ∀ al gas err, r = Ok (al, gas, err) →
      ∃ args' last msg t result, access_msg args' al = Ok msg ∧ tracer_AccessList last = al ∧
        tracer_run msg w (NewAccessListTracer al (sa_From args') to) = (t, Ok result) ∧ tracer_Equal t last = true ∧
        UsedGas result = gas ∧ ResErr result = err.
Proof.
  intros Hb Hn Hset. revert args prev Hn. induction n as [|n IH]; intros args prev Hn; simpl.
  { lia. }
  assert (Hfilled : ∃ x, (if nogas then setDefaults b fuel (unset_gas args) p else Some (Ok args)) = Some x)
    by (destruct nogas; [apply Hset|eauto]).
  destruct Hfilled as [x ->]. simpl. clear args. destruct x as [args|e|]; [|by eexists..].
  unfold access_round. destruct (access_msg args (tracer_AccessList prev)) as [msg|e|] eqn:Em; simpl; [|by eexists..].
  destruct (if evm_error is Some e then Err e else Ok tt) as [[]|e|]; simpl; [|by eexists..].
  destruct (Hb args prev msg Em) as [Hle Hlt].
  destruct (tracer_run msg w _) as [t result] eqn:Erun. simpl in *. destruct result as [result|e|]; simpl; [|by eexists..].
  destruct (tracer_Equal t prev) eqn:Et.
  - eexists. split; [done|]. intros al gas err [= <- <- <-]. by exists args, prev, msg, t, result.
  - specialize (Hlt eq_refl). apply IH. lia.
Qed.
End access_lists.

(** ** The lock on the nonces *)

(** The mutexes by address; one that was not asked for is not there. *)
Record AddrLocker := mkAddrLocker { al_locks : gmap Address bool }.

(** [lock]: the mutex of the address, made if it is new. *)
Definition addr_lock (a : Address) (l : AddrLocker) : bool * AddrLocker :=
  match al_locks l !! a with
  | Some locked => (locked, l)
  | None => (false, mkAddrLocker (<[a := false]> (al_locks l)))
  end.

(** No result while another holds it. *)
Definition LockAddr (a : Address) (l : AddrLocker) : option AddrLocker :=
  let '(locked, l) := addr_lock a l in
  if locked then None else Some (mkAddrLocker (<[a := true]> (al_locks l))).

(** Unlocking a mutex that is not locked is fatal. *)
Definition UnlockAddr (a : Address) (l : AddrLocker) : res AddrLocker :=
  let '(locked, l) := addr_lock a l in
  if locked then Ok (mkAddrLocker (<[a := false]> (al_locks l))) else Panic.

(** A request without a nonce: before the lock, with it, with the nonce, and at its end. *)
Inductive phase := PhWait | PhLocked | PhNonce (n : Z) | PhDone.

Record requests (P : Type) := mkRequests {
  rq_locker : AddrLocker;
  rq_threads : gmap nat (Address * phase);
  rq_pool : P;
  rq_sent : list (Address * Z);
}.
Arguments mkRequests {P}. Arguments rq_locker {P}. Arguments rq_threads {P}. Arguments rq_pool {P}. Arguments rq_sent {P}.

(** A pool counts a transaction that it took in: its sender's next nonce is above its own. *)
Class PoolNonces (P : Type) `{TxBackend P} `{Signing} := {
  pool_nonce : Address → P → Z;
  GetPoolNonce_spec : ∀ a p n, GetPoolNonce a p = Ok n → n = pool_nonce a p;
  SendTx_counts : ∀ tx p p' a,
    SendTx tx p = (None, p') → signer_Sender tx = Ok a → tx_Nonce tx <= pool_nonce a p → tx_Nonce tx < pool_nonce a p';
}.

Section nonces.
Context {P : Type} `{PoolNonces P}.
(** The transaction that a request signs, given its address and its nonce; [None] when
    anything fails between. *)
Variable signed : nat → Address → Z → option Transaction.

Definition set_phase (t : nat) (a : Address) (ph : phase) (r : requests P) : requests P :=
  mkRequests (rq_locker r) (<[t := (a, ph)]> (rq_threads r)) (rq_pool r) (rq_sent r).

(** The deferred unlock. *)
Definition finish (t : nat) (a : Address) (r : requests P) : res (requests P) :=
  l ← UnlockAddr a (rq_locker r);
  Ok (mkRequests l (<[t := (a, PhDone)]> (rq_threads r)) (rq_pool r) (rq_sent r)).

(** A step of one request, or of another that changes the pool; no result for one that has
    to wait. *)
Inductive request_op := RqStart (t : nat) (a : Address) | RqStep (t : nat) | RqPool (p : P).

Definition request_step (op : request_op) (r : requests P) : option (res (requests P)) :=
  match op with
  | RqStart t a => match rq_threads r !! t with Some _ => None | None => Some (Ok (set_phase t a PhWait r)) end
  | RqPool p => Some (Ok (mkRequests (rq_locker r) (rq_threads r) p (rq_sent r)))
  | RqStep t =>
      '(a, ph) ← rq_threads r !! t;
      match ph with
      | PhWait => l ← LockAddr a (rq_locker r); Some (Ok (mkRequests l (<[t := (a, PhLocked)]> (rq_threads r)) (rq_pool r) (rq_sent r)))
      | PhLocked =>
          Some (match GetPoolNonce a (rq_pool r) with Ok n => Ok (set_phase t a (PhNonce n) r) | _ => finish t a r end)
      | PhNonce n =>
          Some (match signed t a n with
                | None => finish t a r
                | Some tx =>
                    let '(err, p) := SendTx tx (rq_pool r) in
                    finish t a (mkRequests (rq_locker r) (rq_threads r) p
                      (rq_sent r ++ match err with None => [(a, n)] | Some _ => [] end))
                end)
      | PhDone => None
      end
  end.

(** No nonce of the pool goes down. *)
Definition nonces_grow (p q : P) : Prop := ∀ a, pool_nonce a p <= pool_nonce a q.

(** Steps in which the pool drops none of the transactions that it counted. *)
Inductive requests_run : requests P → requests P → Prop :=
  | RR_refl r : requests_run r r
  | RR_step r1 r2 r3 op : requests_run r1 r2 → request_step op r2 = Some (Ok r3) → nonces_grow (rq_pool r2) (rq_pool r3) → requests_run r1 r3.

Definition holds_lock (x : Address * phase) : Prop := match x.2 with PhLocked | PhNonce _ => True | _ => False end.

(** One request at a time holds the lock of an address, and the nonce that it was given is
    above those that were sent. *)
Record requests_ok (r : requests P) : Prop := {
  ro_locked : ∀ t x, rq_threads r !! t = Some x → holds_lock x → al_locks (rq_locker r) !! x.1 = Some true;
  ro_one : ∀ t u x y, rq_threads r !! t = Some x → rq_threads r !! u = Some y → holds_lock x → holds_lock y → x.1 = y.1 → t = u;
  ro_holder : ∀ a, al_locks (rq_locker r) !! a = Some true → ∃ t x, rq_threads r !! t = Some x ∧ holds_lock x ∧ x.1 = a;
  ro_sent : ∀ a n, (a, n) ∈ rq_sent r → n < pool_nonce a (rq_pool r);
  ro_nonce : ∀ t a n, rq_threads r !! t = Some (a, PhNonce n) →
    n <= pool_nonce a (rq_pool r) ∧ ∀ m, (a, m) ∈ rq_sent r → m < n;
  ro_distinct : NoDup (rq_sent r);
}.

Lemma LockAddr_spec a l l' : LockAddr a l = Some l' → al_locks l !! a ≠ Some true ∧ al_locks l' = <[a := true]> (al_locks l).
Proof.
  unfold LockAddr, addr_lock. destruct (al_locks l !! a) as [[]|] eqn:E; intros [= <-]; simpl; [done|]. by rewrite insert_insert_eq.
Qed.

Lemma UnlockAddr_locked a l : al_locks l !! a = Some true → UnlockAddr a l = Ok (mkAddrLocker (<[a := false]> (al_locks l))).
Proof. unfold UnlockAddr, addr_lock. by intros ->. Qed.

(** A request that does not hold the lock changes nothing for the others. *)
Lemma start_ok t a r : requests_ok r → rq_threads r !! t = None → requests_ok (set_phase t a PhWait r).
Proof.
  intros [Hl Ho Hh Hs Hn Hd] Ht. constructor; simpl; try done.
  - intros u x [[<- <-]|[_ Hu]]%lookup_insert_Some Hx; [done|eauto].
  - intros u v x y [[<- <-]|[_ Hu]]%lookup_insert_Some [[<- <-]|[_ Hv]]%lookup_insert_Some Hx Hy; try done. by apply Ho.
  - intros b (u & x & Hu & Hx & Hb)%Hh. exists u, x. split; [|done]. rewrite lookup_insert_ne; [done|congruence].
  - intros u b n [[? [=]]|[_ Hu]]%lookup_insert_Some. by apply (Hn u).
Qed.

Lemma pool_ok p r :
  requests_ok r → nonces_grow (rq_pool r) p →
  requests_ok (mkRequests (rq_locker r) (rq_threads r) p (rq_sent r)).
Proof.
  intros [Hl Ho Hh Hs Hn Hd] Hp. constructor; simpl; try done.
  - intros a n ?%Hs. specialize (Hp a). lia.
  - intros t a n Ht. destruct (Hn t a n Ht). specialize (Hp a). split; [lia|done].
Qed.

Lemma lock_ok t a l r :
  requests_ok r → rq_threads r !! t = Some (a, PhWait) → LockAddr a (rq_locker r) = Some l →
  requests_ok (mkRequests l (<[t := (a, PhLocked)]> (rq_threads r)) (rq_pool r) (rq_sent r)).
Proof.
  intros [Hl Ho Hh Hs Hn Hd] Ht [Hfree El]%LockAddr_spec.
  assert (Hnone : ∀ u x, rq_threads r !! u = Some x → holds_lock x → x.1 ≠ a) by (intros u x Hu Hx <-; by apply Hfree, (Hl u)).
  constructor; simpl; rewrite ?El; try done.
  - intros u x [[<- <-]|[_ Hu]]%lookup_insert_Some Hx; [by rewrite lookup_insert_eq|].
    rewrite lookup_insert_ne; [by apply (Hl u)|]. by apply not_eq_sym, (Hnone u).
  - intros u v x y [[<- <-]|[_ Hu]]%lookup_insert_Some [[<- <-]|[_ Hv]]%lookup_insert_Some Hx Hy E; simpl in *; try done.
    + by destruct (Hnone v y Hv Hy).
    + by destruct (Hnone u x Hu Hx).
    + by apply (Ho u v x y).
  - intros c [[<- _]|[Hc (u & x & Hu & Hx & <-)%Hh]]%lookup_insert_Some.
    + exists t, (a, PhLocked). by rewrite lookup_insert_eq.
    + exists u, x. split; [|done]. rewrite lookup_insert_ne; [done|]. intros ->. rewrite Ht in Hu. by injection Hu as <-.
  - intros u c n [[? [=]]|[_ Hu]]%lookup_insert_Some. by apply (Hn u).
Qed.

Lemma nonce_ok t a r :
  requests_ok r → rq_threads r !! t = Some (a, PhLocked) → requests_ok (set_phase t a (PhNonce (pool_nonce a (rq_pool r))) r).
Proof.
  intros [Hl Ho Hh Hs Hn Hd] Ht. constructor; simpl; try done.
  - intros u x [[<- <-]|[_ Hu]]%lookup_insert_Some Hx; [by apply (Hl t (a, PhLocked))|by apply (Hl u)].
  - intros u v x y [[<- <-]|[_ Hu]]%lookup_insert_Some [[<- <-]|[_ Hv]]%lookup_insert_Some Hx Hy E; simpl in *; try done.
    + by apply (Ho t v (a, PhLocked) y).
    + by apply (Ho u t x (a, PhLocked)).
    + by apply (Ho u v x y).
  - intros c (u & x & Hu & Hx & <-)%Hh. destruct (decide (u = t)) as [->|Hne].
    + exists t, (a, PhNonce (pool_nonce a (rq_pool r))). rewrite lookup_insert_eq. rewrite Ht in Hu. by injection Hu as <-.
    + exists u, x. by rewrite lookup_insert_ne.
  - intros u c n [[<- [= <- <-]]|[_ Hu]]%lookup_insert_Some; [|by apply (Hn u)]. split; [lia|]. intros m. apply Hs.
Qed.

(** A holder's unlock never fails, and then nobody holds the address. *)
Lemma finish_ok t a ph r :
  requests_ok r → rq_threads r !! t = Some (a, ph) → holds_lock (a, ph) →
  ∃ r', finish t a r = Ok r' ∧ requests_ok r' ∧ rq_pool r' = rq_pool r ∧ rq_sent r' = rq_sent r ∧
    ∀ u x, rq_threads r' !! u = Some x → holds_lock x → x.1 ≠ a.
Proof.
  intros [Hl Ho Hh Hs Hn Hd] Ht Hp. unfold finish. rewrite (UnlockAddr_locked a); [|by apply (Hl t (a, ph))].
  eexists. split; [done|].
  assert (Hnone : ∀ u x, <[t:=(a, PhDone)]> (rq_threads r) !! u = Some x → holds_lock x → x.1 ≠ a).
  { intros u x [[<- <-]|[Hne Hu]]%lookup_insert_Some Hx; [done|]. intros E. by destruct Hne; apply (Ho t u (a, ph) x). }
  split_and!; try done. constructor; simpl; try done.
  - intros u x Hu Hx. rewrite lookup_insert_ne; [|by apply not_eq_sym, (Hnone u)].
    apply lookup_insert_Some in Hu as [[<- <-]|[_ Hu]]; [done|]. by apply (Hl u).
  - intros u v x y [[<- <-]|[_ Hu]]%lookup_insert_Some [[<- <-]|[_ Hv]]%lookup_insert_Some Hx Hy E; try done. by apply (Ho u v x y).
  - intros c [[? [=]]|[Hc (u & x & Hu & Hx & <-)%Hh]]%lookup_insert_Some. exists u, x. split; [|done].
    rewrite lookup_insert_ne; [done|]. intros ->. rewrite Ht in Hu. by injection Hu as <-.
  - intros u c n [[? [=]]|[_ Hu]]%lookup_insert_Some. by apply (Hn u).
Qed.

Lemma sent_ok a n p r :
  requests_ok r → (∀ u x, rq_threads r !! u = Some x → holds_lock x → x.1 ≠ a) →
  (∀ m, (a, m) ∈ rq_sent r → m < n) → n < pool_nonce a p → nonces_grow (rq_pool r) p →
  requests_ok (mkRequests (rq_locker r) (rq_threads r) p (rq_sent r ++ [(a, n)])).
Proof.
  intros Hr Hnone Hm Hn Hp. pose proof (pool_ok p r Hr Hp) as [Hl Ho Hh Hs Hno Hd]. simpl in *. constructor; simpl; try done.
  - intros c m [?|[= -> ->]%list_elem_of_singleton]%elem_of_app; [by apply Hs|done].
  - intros u c k Hu. destruct (Hno u c k Hu) as [? Hk]. split; [done|].
    intros m [?|[= -> ->]%list_elem_of_singleton]%elem_of_app; [by apply Hk|]. by destruct (Hnone u _ Hu).
  - apply NoDup_app. split_and!; [done| |apply NoDup_singleton]. intros [c m] Hin [= -> ->]%list_elem_of_singleton.
    apply Hm in Hin. lia.
Qed.

Hypothesis signed_spec : ∀ t a n tx, signed t a n = Some tx → signer_Sender tx = Ok a ∧ tx_Nonce tx = n.

Lemma request_step_ok op r x :
  requests_ok r → request_step op r = Some x →
  ∃ r', x = Ok r' ∧ (nonces_grow (rq_pool r) (rq_pool r') → requests_ok r').
Proof.
  intros Hr. destruct op as [t a|t|p]; simpl.
  - destruct (rq_threads r !! t) eqn:Et; [done|]. intros [= <-]. eexists. split; [done|intros _]. by apply start_ok.
  - destruct (rq_threads r !! t) as [[a ph]|] eqn:Et; simpl; [|done]. destruct ph as [| |n|]; [| | |done].
    + destruct (LockAddr a (rq_locker r)) as [l|] eqn:El; simpl; [|done]. intros [= <-]. eexists. split; [done|intros _]. by apply lock_ok.
    + intros [= <-]. destruct (GetPoolNonce a (rq_pool r)) as [n|e|] eqn:En.
      * apply GetPoolNonce_spec in En as ->. eexists. split; [done|intros _]. by apply nonce_ok.
      * destruct (finish_ok t a PhLocked r Hr Et I) as (r' & Hf & Hr' & _). by exists r'.
      * destruct (finish_ok t a PhLocked r Hr Et I) as (r' & Hf & Hr' & _). by exists r'.
    + intros [= <-]. destruct (signed t a n) as [tx|] eqn:Es.
      2: { destruct (finish_ok t a (PhNonce n) r Hr Et I) as (r' & Hf & Hr' & _). by exists r'. }
      destruct (signed_spec _ _ _ _ Es) as [Hsender <-]. pose proof (ro_nonce r Hr t a _ Et) as [Hle Hm].
      destruct (SendTx tx (rq_pool r)) as [err p] eqn:Ep.
      destruct (finish_ok t a _ r Hr Et I) as (r' & Hf & Hr' & Epool & Esent & Hnone).
      unfold finish in *. simpl in *. destruct (UnlockAddr a (rq_locker r)) as [l| |]; simpl in *; [|done..].
      injection Hf as <-. simpl in *. eexists. split; [done|]. intros Hgrow. destruct err as [e|].
      * rewrite app_nil_r. exact (pool_ok p _ Hr' Hgrow).
      * refine (sent_ok a _ p _ Hr' Hnone Hm _ Hgrow). by eapply SendTx_counts.
  - intros [= <-]. eexists. split; [done|]. intros Hgrow. by apply pool_ok.
Qed.

Definition no_requests (p : P) : requests P := mkRequests (mkAddrLocker ∅) ∅ p [].

Lemma no_requests_ok p : requests_ok (no_requests p).
Proof.
  constructor; simpl; try (intros *; rewrite lookup_empty; done); [by intros a n ?%not_elem_of_nil|constructor].
Qed.

Lemma requests_run_ok p r : requests_run (no_requests p) r → requests_ok r.
Proof.
  remember (no_requests p) as r0 eqn:E. intros Hrun. induction Hrun as [r|r1 r2 r3 op _ IH Hstep Hg]; subst; [apply no_requests_ok|].
  destruct (request_step_ok op r2 _ (IH eq_refl) Hstep) as (r' & [= ->] & Hr'). by apply Hr'.
Qed.

(** C29: requests that leave their nonce to the node never send the same nonce twice for the
    same sender, in whatever order their steps and the pool's other changes are taken, as
    long as the pool drops none of the transactions that it counted; no unlock is fatal; and
    a request that is not at its end either can go on itself or waits for another one that
    can. *)
Theorem auto_nonces_distinct p r :
  requests_run (no_requests p) r →
  NoDup (rq_sent r) ∧
  (∀ op x, request_step op r = Some x → x ≠ Panic) ∧
  ∀ t a ph, rq_threads r !! t = Some (a, ph) → ph ≠ PhDone →
    is_Some (request_step (RqStep t) r) ∨
    ∃ u ph', u ≠ t ∧ rq_threads r !! u = Some (a, ph') ∧ is_Some (request_step (RqStep u) r).
Proof.
  intros Hr%requests_run_ok. split_and!.
  - by apply ro_distinct.
  - intros op x Hx. by destruct (request_step_ok op r x Hr Hx) as (r' & -> & _).
  - intros t a ph Ht Hph. simpl. rewrite Ht. simpl. destruct ph as [| |n|]; [|by left..|done].
    destruct (al_locks (rq_locker r) !! a) as [[]|] eqn:El.
    + right. destruct (ro_holder r Hr a El) as (u & [c ph'] & Hu & Hx & Hc). simpl in Hc. subst c. exists u, ph'.
      split_and!; [intros ->; rewrite Ht in Hu; injection Hu as <-; done|done|]. rewrite Hu. simpl.
      by destruct ph' as [| |n|].
    + left. unfold LockAddr, addr_lock. by rewrite El.
    + left. unfold LockAddr, addr_lock. by rewrite El.
Qed.
End nonces.

(** ** A concrete node

    The state of the demonstration machine, a signer that keeps the first byte of the
    address, and a pool that takes transactions in the order of their nonces. *)

#[global] Instance demo_writes : StateWrites DemoWorld := {
  SetCode _ _ w := w;
  SetBalance a v w := mkDemo ((a, v) :: dw_balance w) (dw_nonce w);
  SetStorage _ _ w := w;
  SetState _ _ _ w := w;
}.

Definition demo_account (x : Z) : Address := replicate 20 x.
Definition demo_backend : Backend (W := DemoWorld) := mkBackend (Ok (Some demo_world)) (λ _, false) 1000000 0 (Ok 3) 1 false.
Definition demo_call : CallArgs := mkCallArgs (Some (demo_account 1)) (Some (demo_account 2)) None None None (Some [1; 0; 2]) None.


#[global] Instance demo_signing : Signing := {
  am_Find _ := None;
  wallet_SignTxWithPassphrase _ _ _ _ := Err (NewError "could not decrypt key with given password");
  wallet_SignTx a tx _ := Ok (mkTransaction (tx_Type tx) (tx_Nonce tx) (tx_Gas tx) (tx_GasPrice tx) (tx_Value tx) (tx_To tx) (tx_Data tx)
    (hd 0 a) 1 1 (tx_ChainId tx) (tx_AccessList tx));
  signer_Sender tx := Ok (demo_account (tx_V tx));
  signer_Hash tx := [tx_Nonce tx; tx_Gas tx; tx_GasPrice tx; tx_Value tx];
  tx_hash tx := [tx_Nonce tx; tx_Gas tx; tx_GasPrice tx; tx_Value tx; tx_V tx];
  tx_Protected _ := true;
  MarshalBinary tx := Ok [tx_Nonce tx; tx_Gas tx; tx_GasPrice tx; tx_Value tx; tx_V tx];
  DecodeTx _ := Err (NewError "EOF");
}.

(** The next nonce of a sender. *)
Fixpoint demo_next (a : Address) (p : list Transaction) : Z :=
  match p with
  | [] => 0
  | tx :: p' => if decide (demo_account (tx_V tx) = a) then Z.max (tx_Nonce tx + 1) (demo_next a p') else demo_next a p'
  end.

#[global] Instance demo_txs : TxBackend (list Transaction) := {
  GetPoolNonce a p := Ok (demo_next a p);
  SendTx tx p := (None, p ++ [tx]);
  GetPoolTransactions p := Ok p;
}.

Lemma demo_next_snoc a p tx :
  demo_next a (p ++ [tx]) = if decide (demo_account (tx_V tx) = a) then Z.max (demo_next a p) (Z.max (tx_Nonce tx + 1) 0) else demo_next a p.
Proof. induction p as [|q p IH]; simpl; [destruct (decide _); lia|]. rewrite IH. repeat destruct (decide _); lia. Qed.

#[global] Instance demo_nonces : PoolNonces (list Transaction).
Proof.
  unshelve refine {| pool_nonce := demo_next |}.
  - by intros a p n [= ->].
  - intros tx p p' a [= <-] [= Ha] Hle. rewrite demo_next_snoc, decide_True by done. lia.
Defined.

Definition demo_tx (a : Address) (nonce price : Z) : Transaction :=
  mkTransaction LegacyTxType nonce 21000 price 5 (Some (demo_account 2)) [] (hd 0 a) 1 1 0 [].

Definition demo_signed (t : nat) (a : Address) (n : Z) : option Transaction :=
  if decide (a = demo_account (hd 0 a)) then Some (demo_tx a n 3) else None.

Lemma demo_signed_spec t a n tx : demo_signed t a n = Some tx → signer_Sender tx = Ok a ∧ tx_Nonce tx = n.
Proof. unfold demo_signed. destruct (decide _) as [Ha|]; [|done]. intros [= <-]. split; [|done]. simpl. by rewrite <-Ha. Qed.

Fixpoint run_ops (ops : list request_op) (r : requests (list Transaction)) : requests (list Transaction) :=
  match ops with
  | [] => r
  | op :: ops' => match request_step demo_signed op r with Some (Ok r') => run_ops ops' r' | _ => run_ops ops' r end
  end.

Lemma demo_grows op r r' :
  match op with RqPool _ => False | _ => True end → request_step demo_signed op r = Some (Ok r') → nonces_grow (rq_pool r) (rq_pool r').
Proof.
  intros Hop Hs c. assert (Hfin : ∀ t a q q', finish t a q = Ok q' → rq_pool q' = rq_pool (P := list Transaction) q).
  { intros t a q q'. unfold finish. destruct (UnlockAddr _ _); simpl; [|done..]. by intros [= <-]. }
  destruct op as [t a|t|]; simpl in Hs; [|clear Hop|done].
  - destruct (rq_threads r !! t); [done|]. by injection Hs as <-.
  - destruct (rq_threads r !! t) as [[a ph]|]; simpl in Hs; [|done]. destruct ph as [| |n|]; [| | |done].
    + destruct (LockAddr _ _); simpl in Hs; [|done]. by injection Hs as <-.
    + by injection Hs as <-.
    + destruct (demo_signed t a n) as [tx|].
      * injection Hs as ->%Hfin. unfold pool_nonce; simpl. rewrite demo_next_snoc. destruct (decide _); lia.
      * by injection Hs as ->%Hfin.
Qed.

Lemma run_ops_run r0 ops r :
  Forall (λ op : request_op, match op with RqPool _ => False | _ => True end) ops →
  requests_run demo_signed r0 r → requests_run demo_signed r0 (run_ops ops r).
Proof.
  intros Hops. revert r. induction Hops as [|op ops Hop _ IH]; intros r Hr; simpl; [done|].
  destruct (request_step demo_signed op r) as [[r'|e|]|] eqn:Es; try (by apply IH).
  apply IH. eapply RR_step; [exact Hr|exact Es|]. by apply (demo_grows op).
Qed.

(** Two requests of one account and one of another, interleaved: the second waits. *)
Definition demo_ops : list (request_op (P := list Transaction)) :=
  [RqStart 0 (demo_account 1); RqStart 1 (demo_account 1); RqStart 2 (demo_account 3); RqStep 0; RqStep 1; RqStep 2; RqStep 0; RqStep 1;
   RqStep 2; RqStep 0; RqStep 1; RqStep 1; RqStep 2; RqStep 1].

Lemma auto_nonces_distinct_witness :
  rq_sent (run_ops demo_ops (no_requests [])) = [(demo_account 1, 0); (demo_account 3, 0); (demo_account 1, 1)] ∧
  NoDup (rq_sent (run_ops demo_ops (no_requests []))).
Proof.
  split; [vm_compute; reflexivity|].
  refine (proj1 (auto_nonces_distinct demo_signed demo_signed_spec [] _ _)).
  apply run_ops_run; [repeat constructor|apply RR_refl].
Defined.

Definition demo_cap : FeeCap := mkFeeCap false (λ fee, 10 ^ 9 <? fee).
Definition demo_resend : SendTxArgs :=
  mkSendTxArgs (demo_account 1) (Some (demo_account 2)) (Some 21000) (Some 3) (Some 5) (Some 0) None None None None.

(** A gas limit of 0 passes the check of the fee with any price, and then the old limit is
    sent: the fee is above the cap. *)
Lemma resend_exceeds_cap :
  checkTxFee (10 ^ 9) 21000 demo_cap = Some (NewError "tx fee exceeds the configured cap") ∧
  (fst <$> Resend demo_backend demo_cap 63 demo_resend (Some (10 ^ 9)) (Some 0) [demo_tx (demo_account 1) 0 3]) =
    Some (Ok [0; 21000; 10 ^ 9; 5; 1]).
Proof. split; vm_compute; reflexivity. Qed.
