(* ===== verification/FilterSystem.v ===== *)
(** * Subscriptions and polled filters (gossip/filters/filter_system.go, api.go)

    One goroutine takes the events of the node and sends what matches to the channel of
    every subscription; a goroutine for each of them keeps it for the next poll, or notifies
    its client; another drops the filters that are not polled any more.  The goroutines, the
    mutex of the filters and the unbuffered channels are the steps of one machine: what is
    received is exactly what matched, once and in order, and the sending can always be
    ended, unless the goroutine that drops filters waits with the mutex in its hands. *)

From S2P Require Import Prelude Cser Inter Heap Store EvmChain Topics LogFilter.

(** ** Kinds of subscriptions *)

Definition UnknownSubscription : Z := 0.
Definition LogsSubscription : Z := 1.
Definition PendingLogsSubscription : Z := 2.
Definition MinedAndPendingLogsSubscription : Z := 3.
Definition PendingTransactionsSubscription : Z := 4.
Definition BlocksSubscription : Z := 5.
Definition LastIndexSubscription : Z := 6.

Definition PendingBlockNumber : Z := -2.

Record FilterQuery := mkFilterQuery {
  q_BlockHash : option (list Z);
  q_FromBlock : option Z;
  q_ToBlock : option Z;
  q_Addresses : list (list Z);
  q_Topics : list (list (list Z));
}.

Definition no_query : FilterQuery := mkFilterQuery None None None [] [].

Definition ErrBlockRange : error := NewError "invalid from and to block combination: from > to".

(** The kind of subscription that the criteria ask for. *)
Definition SubscribeLogs (crit : FilterQuery) : res Z :=
  let from := match q_FromBlock crit with None => LatestBlockNumber | Some b => i64 b end in
  let to := match q_ToBlock crit with None => LatestBlockNumber | Some b => i64 b end in
  if (from =? PendingBlockNumber) && (to =? PendingBlockNumber) then Ok PendingLogsSubscription
  else if (from =? LatestBlockNumber) && (to =? LatestBlockNumber) then Ok LogsSubscription
  else if (0 <=? from) && (0 <=? to) && (from <=? to) then Ok LogsSubscription
  else if (LatestBlockNumber <=? from) && (to =? PendingBlockNumber) then Ok MinedAndPendingLogsSubscription
  else if (0 <=? from) && (to =? LatestBlockNumber) then Ok LogsSubscription
  else Err ErrBlockRange.

(** ** Criteria *)

(** The filter over the stored logs that the criteria ask for. *)
Definition crit_filter (cfg : FilterConfig) (crit : FilterQuery) : Filter :=
  match q_BlockHash crit with
  | Some h => NewBlockFilter cfg h (q_Addresses crit) (q_Topics crit)
  | None =>
      let begin := match q_FromBlock crit with Some b => i64 b | None => LatestBlockNumber end in
      let end_ := match q_ToBlock crit with Some b => i64 b | None => LatestBlockNumber end in
      NewRangeFilter cfg begin end_ (q_Addresses crit) (q_Topics crit)
  end.

Definition GetLogs `{BigEndian} `{Kvdb} {C} (ctx_Err : Eff C (option error)) (backend : Backend) (cfg : FilterConfig) (crit : FilterQuery)
  : Eff C (list evmLog) := Logs ctx_Err backend (crit_filter cfg crit).

(** A value of JSON of any type, and the criteria as they are decoded first. *)
Inductive json_any := JNull | JString (s : string) | JArray (l : list json_any) | JOther.

Record rawCriteria := mkRawCriteria {
  rc_BlockHash : option (list Z);
  rc_FromBlock : option Z;
  rc_ToBlock : option Z;
  rc_Addresses : json_any;
  rc_Topics : list json_any;
}.

Section criteria.
(** [hexutil.Decode] *)
Variable hex_Decode : string → res (list Z).

Definition decodeAddress (s : string) : res (list Z) :=
  b ← hex_Decode s;
  if negb (len b =? 20) then Err (NewError "hex has invalid length") else Ok (BytesToAddress b).

Definition decodeTopic (s : string) : res (list Z) :=
  b ← hex_Decode s;
  if negb (len b =? 32) then Err (NewError "hex has invalid length") else Ok (BytesToHash b).

Fixpoint decode_addresses (rawAddr : list json_any) : res (list (list Z)) :=
  match rawAddr with
  | [] => Ok []
  | JString s :: rest => a ← decodeAddress s; l ← decode_addresses rest; Ok (a :: l)
  | _ :: _ => Err (NewError "non-string address")
  end.

(** [for _, rawTopic := range topic]: a null matches everything and ends the loop. *)
Fixpoint decode_alternatives (topic : list json_any) (acc : list (list Z)) : res (list (list Z)) :=
  match topic with
  | [] => Ok acc
  | JNull :: _ => Ok []
  | JString s :: rest => t ← decodeTopic s; decode_alternatives rest (acc ++ [t])
  | _ :: _ => Err (NewError "invalid topic(s)")
  end.

Definition decode_topic (t : json_any) : res (list (list Z)) :=
  match t with
  | JNull => Ok []
  | JString s => top ← decodeTopic s; Ok [top]
  | JArray topic => decode_alternatives topic []
  | JOther => Err (NewError "invalid topic(s)")
  end.

Fixpoint decode_topics (ts : list json_any) : res (list (list (list Z))) :=
  match ts with
  | [] => Ok []
  | t :: rest => x ← decode_topic t; l ← decode_topics rest; Ok (x :: l)
  end.

(** [UnmarshalJSON], after the library has decoded the fields. *)
Definition UnmarshalJSON (raw : rawCriteria) : res FilterQuery :=
  _ ← (if bool_decide (is_Some (rc_BlockHash raw)) && (bool_decide (is_Some (rc_FromBlock raw)) || bool_decide (is_Some (rc_ToBlock raw)))
       then Err (NewError "cannot specify both BlockHash and FromBlock/ToBlock, choose one or the other") else Ok tt);
  addresses ← (match rc_Addresses raw with
               | JNull => Ok []
               | JArray l => decode_addresses l
               | JString s => a ← decodeAddress s; Ok [a]
               | JOther => Err (NewError "invalid addresses in query")
               end);
  topics ← decode_topics (rc_Topics raw);
  Ok (match rc_BlockHash raw with
      | Some h => mkFilterQuery (Some h) None None addresses topics
      | None => mkFilterQuery None (rc_FromBlock raw) (rc_ToBlock raw) addresses topics
      end).

Lemma BytesToAddress_len b : len b =? 20 = true → BytesToAddress b = b.
Proof. intros H%Z.eqb_eq. unfold len in H. unfold BytesToAddress. assert (E : length b = 20%nat) by lia. rewrite E, drop_0. by rewrite E. Qed.

Lemma BytesToHash_len b : len b =? 32 = true → BytesToHash b = b.
Proof. intros H%Z.eqb_eq. unfold len in H. unfold BytesToHash. assert (E : length b = 32%nat) by lia. rewrite E, drop_0. by rewrite E. Qed.

Lemma decodeAddress_spec s a : decodeAddress s = Ok a → hex_Decode s = Ok a ∧ len a = 20.
Proof.
  unfold decodeAddress. destruct (hex_Decode s) as [b| |]; simpl; try done. destruct (len b =? 20) eqn:E; [|done]. intros [= <-].
  rewrite BytesToAddress_len by done. split; [done|lia].
Qed.

Lemma decodeTopic_spec s a : decodeTopic s = Ok a → hex_Decode s = Ok a ∧ len a = 32.
Proof.
  unfold decodeTopic. destruct (hex_Decode s) as [b| |]; simpl; try done. destruct (len b =? 32) eqn:E; [|done]. intros [= <-].
  rewrite BytesToHash_len by done. split; [done|lia].
Qed.

Lemma decode_alternatives_spec topic acc l :
  Forall (λ t, len t = 32) acc → decode_alternatives topic acc = Ok l →
  Forall (λ t, len t = 32) l ∧ (JNull ∈ topic → l = []).
Proof.
  revert acc. induction topic as [|t topic IH]; intros acc Hacc; simpl.
  - intros [= <-]. split; [done|]. by intros ?%not_elem_of_nil.
  - destruct t as [|s|x|]; try done; [by intros [= <-]|]. destruct (decodeTopic s) as [b| |] eqn:E; simpl; try done. intros Hl.
    apply decodeTopic_spec in E as [_ E]. destruct (IH (acc ++ [b])) as [H1 H2]; [by apply Forall_app_2; [|constructor]|done|].
    split; [done|]. intros [?|?]%elem_of_cons; [done|auto].
Qed.

Lemma decode_topic_spec t x : decode_topic t = Ok x → Forall (λ t, len t = 32) x ∧ ∀ k, t = JArray k → JNull ∈ k → x = [].
Proof.
  intros Ex. destruct t as [|s|k|]; simpl in Ex; [by injection Ex as <-| | |done].
  - destruct (decodeTopic s) eqn:E; try done. injection Ex as <-. split; [|done]. constructor; [by destruct (decodeTopic_spec _ _ E)|done].
  - apply decode_alternatives_spec in Ex as [? ?]; [|done]. split; [done|]. by intros k' [= <-].
Qed.

Lemma decode_topics_spec ts topics :
  decode_topics ts = Ok topics →
  Forall (Forall (λ t, len t = 32)) topics ∧ length topics = length ts ∧
  ∀ i l, ts !! i = Some (JArray l) → JNull ∈ l → topics !! i = Some [].
Proof.
  revert topics. induction ts as [|t ts IH]; simpl; intros topics Et; [by injection Et as <-|].
  destruct (decode_topic t) as [x| |] eqn:Ex; try done. simpl in Et. destruct (decode_topics ts) as [xs| |]; try done. injection Et as <-.
  destruct (IH xs eq_refl) as (H1 & H2 & H3). destruct (decode_topic_spec t x Ex) as [Hx1 Hx2].
  split_and!; [by constructor|simpl; lia|]. intros [|i] k Hk Hnull; simpl in *; [|by apply (H3 i k)]. injection Hk as ->. by rewrite (Hx2 k).
Qed.

(** The criteria that are accepted: addresses of 20 bytes, topics of 32, as many positions
    as were given, a position with a null matches everything, and not both a block and a
    range. *)
Theorem criteria_well_formed raw c :
  UnmarshalJSON raw = Ok c →
  Forall (λ a, len a = 20) (q_Addresses c) ∧ Forall (Forall (λ t, len t = 32)) (q_Topics c) ∧
  length (q_Topics c) = length (rc_Topics raw) ∧
  (∀ i l, rc_Topics raw !! i = Some (JArray l) → JNull ∈ l → q_Topics c !! i = Some []) ∧
  (is_Some (q_BlockHash c) → q_FromBlock c = None ∧ q_ToBlock c = None).
Proof.
  unfold UnmarshalJSON. destruct (_ && _); [done|]. simpl.
  destruct (match rc_Addresses raw with JNull => _ | JString _ => _ | JArray _ => _ | JOther => _ end) as [addresses| |] eqn:Ea; simpl; try done.
  destruct (decode_topics (rc_Topics raw)) as [topics| |] eqn:Et; simpl; try done. intros Hc.
  assert (Hc' : q_Addresses c = addresses ∧ q_Topics c = topics ∧ (is_Some (q_BlockHash c) → q_FromBlock c = None ∧ q_ToBlock c = None))
    by (destruct (rc_BlockHash raw); injection Hc as <-; split_and!; try done; by intros []). clear Hc. destruct Hc' as (-> & -> & Hblock).
  assert (Haddr : Forall (λ a, len a = 20) addresses).
  { destruct (rc_Addresses raw) as [|s|l|]; [by injection Ea as <-| | |done].
    - destruct (decodeAddress s) eqn:E; try done. injection Ea as <-. constructor; [by destruct (decodeAddress_spec _ _ E)|done].
    - revert addresses Ea. induction l as [|x l IH]; simpl; intros addresses Ea; [by injection Ea as <-|]. destruct x; try done.
      destruct (decodeAddress s) eqn:E; try done. simpl in Ea. destruct (decode_addresses l); try done. injection Ea as <-.
      constructor; [by destruct (decodeAddress_spec _ _ E)|by apply IH]. }
  destruct (decode_topics_spec _ _ Et) as (? & ? & ?). done.
Qed.
End criteria.

(** ** The events and what is sent for them *)

Inductive Event := EvTxs (txs : list Transaction) | EvLogs (logs : list evmLog) | EvBlock (block : EvmHeader).
Inductive payload := PLogs (logs : list evmLog) | PHashes (hashes : list (list Z)) | PHeader (h : EthHeader).

#[global] Instance EthHeader_eq_dec : EqDecision EthHeader.
Proof. solve_decision. Defined.
#[global] Instance payload_eq_dec : EqDecision payload.
Proof. solve_decision. Defined.

Record subscription := mkSubscription { s_id : Z; s_typ : Z; s_logsCrit : FilterQuery }.

(** [map[Type]map[rpc.ID]*subscription] *)
Notation filterIndex := (gmap Z (gmap Z subscription)).

Definition bucket (t : Z) (filters : filterIndex) : gmap Z subscription := default ∅ (filters !! t).

Definition newIndex : filterIndex :=
  list_to_map ((λ t, (t, ∅)) <$> [UnknownSubscription; LogsSubscription; PendingLogsSubscription; MinedAndPendingLogsSubscription;
                                  PendingTransactionsSubscription; BlocksSubscription]).

(** Writing to a map that was not made is a panic. *)
Definition install (f : subscription) (filters : filterIndex) : res filterIndex :=
  match filters !! s_typ f with
  | Some m => Ok (<[s_typ f := <[s_id f := f]> m]> filters)
  | None => Panic
  end.

Definition uninstall (f : subscription) (filters : filterIndex) : filterIndex :=
  match filters !! s_typ f with Some m => <[s_typ f := delete (s_id f) m]> filters | None => filters end.

Section system.
(** [Transaction.Hash] and [Header.Hash] *)
Variable tx_Hash : Transaction → list Z.
Variable Header_Hash : EthHeader → list Z.

(** What is sent to the subscriptions of a bucket, in the order in which it is read. *)
Fixpoint broadcast_logs (e : list evmLog) (fs : list (Z * subscription)) : res (list (Z * payload)) :=
  match fs with
  | [] => Ok []
  | (id, f) :: fs' =>
      let c := s_logsCrit f in
      matchedLogs ← filterLogs e (q_FromBlock c) (q_ToBlock c) (q_Addresses c) (q_Topics c);
      rest ← broadcast_logs e fs';
      Ok (if 0 <? len matchedLogs then (id, PLogs matchedLogs) :: rest else rest)
  end.

Definition broadcast (filters : filterIndex) (ev : Event) : res (list (Z * payload)) :=
  match ev with
  | EvLogs e => if 0 <? len e then broadcast_logs e (map_to_list (bucket LogsSubscription filters)) else Ok []
  | EvTxs txs =>
      let hashes := tx_Hash <$> txs in
      Ok ((λ f : Z * subscription, (f.1, PHashes hashes)) <$> map_to_list (bucket PendingTransactionsSubscription filters))
  | EvBlock block =>
      let h := EvmHeader_EthHeader block in
      Ok ((λ f : Z * subscription, (f.1, PHeader h)) <$> map_to_list (bucket BlocksSubscription filters))
  end.

(** ** Filters that are polled and clients that are notified *)

Record pfilter := mkPfilter {
  f_typ : Z;
  f_expired : bool;
  f_hashes : list (list Z);
  f_crit : FilterQuery;
  f_logs : list evmLog;
}.

Inductive request :=
  | NewPendingTransactionFilter | NewBlockFilter' | NewFilter (crit : FilterQuery)
  | NewPendingTransactions | NewHeads | NewLogs (crit : FilterQuery).

(** The subscription that a request makes, and the room in its channel. *)
Definition request_sub (id : Z) (r : request) : res subscription :=
  match r with
  | NewPendingTransactionFilter | NewPendingTransactions => Ok (mkSubscription id PendingTransactionsSubscription no_query)
  | NewBlockFilter' | NewHeads => Ok (mkSubscription id BlocksSubscription no_query)
  | NewFilter crit | NewLogs crit => t ← SubscribeLogs crit; Ok (mkSubscription id t crit)
  end.

Definition request_cap (r : request) : nat := match r with NewPendingTransactions => 128 | _ => 0 end.

(** The filter of a request that is polled. *)
Definition request_filter (r : request) : option pfilter :=
  match r with
  | NewPendingTransactionFilter => Some (mkPfilter PendingTransactionsSubscription false [] no_query [])
  | NewBlockFilter' => Some (mkPfilter BlocksSubscription false [] no_query [])
  | NewFilter crit => Some (mkPfilter LogsSubscription false [] crit [])
  | _ => None
  end.

Definition polled (r : request) : bool := if request_filter r is Some _ then true else false.

(** What the goroutine of a filter does with what it received. *)
Definition store_payload (p : payload) (f : pfilter) : pfilter :=
  match p with
  | PLogs l => mkPfilter (f_typ f) (f_expired f) (f_hashes f) (f_crit f) (f_logs f ++ l)
  | PHashes hs => mkPfilter (f_typ f) (f_expired f) (f_hashes f ++ hs) (f_crit f) (f_logs f)
  | PHeader h => mkPfilter (f_typ f) (f_expired f) (f_hashes f ++ [Header_Hash h]) (f_crit f) (f_logs f)
  end.

(** What a client gets: by polling, or one by one. *)
Inductive item := ItLog (l : evmLog) | ItHash (h : list Z) | ItHeader (h : EthHeader).

Definition items (r : request) (p : payload) : list item :=
  match p with
  | PLogs l => ItLog <$> l
  | PHashes hs => ItHash <$> hs
  | PHeader h => if polled r then [ItHash (Header_Hash h)] else [ItHeader h]
  end.

Definition ErrFilterNotFound : error := NewError "filter not found".

(** [GetFilterChanges]: the timer starts again, what was kept is returned and forgotten. *)
Definition GetFilterChanges (id : Z) (filters : gmap Z pfilter) : res (list item) * gmap Z pfilter :=
  match filters !! id with
  | Some f =>
      if (f_typ f =? PendingTransactionsSubscription) || (f_typ f =? BlocksSubscription)
      then (Ok (ItHash <$> f_hashes f), <[id := mkPfilter (f_typ f) false [] (f_crit f) (f_logs f)]> filters)
      else if f_typ f =? LogsSubscription
      then (Ok (ItLog <$> f_logs f), <[id := mkPfilter (f_typ f) false (f_hashes f) (f_crit f) []]> filters)
      else (Err ErrFilterNotFound, <[id := mkPfilter (f_typ f) false (f_hashes f) (f_crit f) (f_logs f)]> filters)
  | None => (Err ErrFilterNotFound, filters)
  end.

(** [GetFilterLogs]: the stored logs for the criteria of a polled filter of logs. *)
Definition GetFilterLogs `{BigEndian} `{Kvdb} {C} (ctx_Err : Eff C (option error)) (backend : Backend) (cfg : FilterConfig) (id : Z)
    (filters : gmap Z pfilter) : Eff C (list evmLog) :=
  match filters !! id with
  | Some f => if negb (f_typ f =? LogsSubscription) then eff_err ErrFilterNotFound else Logs ctx_Err backend (crit_filter cfg (f_crit f))
  | None => eff_err ErrFilterNotFound
  end.

(** ** The machine *)

(** A goroutine of a subscription: before the filter is registered, at its [select], with
    something received, after the subscription ended, unsubscribing itself, and at its end. *)
Inductive thread_phase := ThStart | ThSelect | ThGot (p : payload) | ThEnd | ThUnsub | ThDone.

Record thread := mkThread { th_sub : subscription; th_req : request; th_phase : thread_phase; th_inbox : list payload }.

Definition set_th (ph : thread_phase) (inbox : list payload) (t : thread) : thread := mkThread (th_sub t) (th_req t) ph inbox.

(** [eventLoop]: at its [select], or with the rest of a broadcast to send. *)
Inductive loop_state := LoopSelect | LoopSend (id : Z) (p : payload) (rest : list (Z * payload)) | LoopStopped.

Definition loop_rest (sends : list (Z * payload)) : loop_state :=
  match sends with [] => LoopSelect | (id, p) :: rest => LoopSend id p rest end.

(** [timeoutLoop]: between its ticks, over the rest of the filters, or unsubscribing one;
    except between ticks it holds the mutex of the filters. *)
Inductive timeout_state := TIdle | TScan (ids : list Z) | TUnsub (id : Z) (ids : list Z).

(** The last three fields are no part of the program: the events so far, how many there
    were when a subscription was installed, and what its client got. *)
Record FilterAPI := mkFilterAPI {
  fa_index : filterIndex;
  fa_loop : loop_state;
  fa_filters : gmap Z pfilter;
  fa_threads : gmap Z thread;
  fa_uninstalling : gset Z;
  fa_timeout : timeout_state;
  fa_events : list Event;
  fa_since : gmap Z nat;
  fa_out : gmap Z (list item);
}.

Definition newFilterAPI : FilterAPI := mkFilterAPI newIndex LoopSelect ∅ ∅ ∅ TIdle [] ∅ ∅.

Definition set_loop (l : loop_state) (a : FilterAPI) : FilterAPI :=
  mkFilterAPI (fa_index a) l (fa_filters a) (fa_threads a) (fa_uninstalling a) (fa_timeout a) (fa_events a) (fa_since a) (fa_out a).
Definition set_filters (f : gmap Z pfilter) (a : FilterAPI) : FilterAPI :=
  mkFilterAPI (fa_index a) (fa_loop a) f (fa_threads a) (fa_uninstalling a) (fa_timeout a) (fa_events a) (fa_since a) (fa_out a).
Definition set_thread (id : Z) (t : thread) (a : FilterAPI) : FilterAPI :=
  mkFilterAPI (fa_index a) (fa_loop a) (fa_filters a) (<[id := t]> (fa_threads a)) (fa_uninstalling a) (fa_timeout a) (fa_events a)
    (fa_since a) (fa_out a).
Definition set_uninstalling (u : gset Z) (a : FilterAPI) : FilterAPI :=
  mkFilterAPI (fa_index a) (fa_loop a) (fa_filters a) (fa_threads a) u (fa_timeout a) (fa_events a) (fa_since a) (fa_out a).
Definition set_timeout (t : timeout_state) (a : FilterAPI) : FilterAPI :=
  mkFilterAPI (fa_index a) (fa_loop a) (fa_filters a) (fa_threads a) (fa_uninstalling a) t (fa_events a) (fa_since a) (fa_out a).
Definition set_index (i : filterIndex) (a : FilterAPI) : FilterAPI :=
  mkFilterAPI i (fa_loop a) (fa_filters a) (fa_threads a) (fa_uninstalling a) (fa_timeout a) (fa_events a) (fa_since a) (fa_out a).
Definition give (id : Z) (its : list item) (a : FilterAPI) : FilterAPI :=
  mkFilterAPI (fa_index a) (fa_loop a) (fa_filters a) (fa_threads a) (fa_uninstalling a) (fa_timeout a) (fa_events a) (fa_since a)
    (<[id := default [] (fa_out a !! id) ++ its]> (fa_out a)).

(** [filtersMu] is free: only [timeoutLoop] holds it while it waits. *)
Definition mu_free (a : FilterAPI) : bool := match fa_timeout a with TIdle => true | _ => false end.

Definition installed (id : Z) (a : FilterAPI) : option subscription :=
  t ← fa_threads a !! id;
  bucket (s_typ (th_sub t)) (fa_index a) !! id.

(** Who waits in [Unsubscribe]: a caller of [UninstallFilter], [timeoutLoop], or the
    goroutine of a client that is gone. *)
Inductive unsubscriber := ByCaller | ByTimeout | ByThread.

Definition unsubscribing (w : unsubscriber) (id : Z) (a : FilterAPI) : bool :=
  match w with
  | ByCaller => bool_decide (id ∈ fa_uninstalling a)
  | ByTimeout => match fa_timeout a with TUnsub i _ => i =? id | _ => false end
  | ByThread => match fa_threads a !! id with Some t => match th_phase t with ThUnsub => true | _ => false end | None => false end
  end.

(** After the subscription is uninstalled. *)
Definition unsubscribed (w : unsubscriber) (id : Z) (a : FilterAPI) : FilterAPI :=
  match w with
  | ByCaller => set_uninstalling (fa_uninstalling a ∖ {[id]}) a
  | ByTimeout =>
      match fa_timeout a with
      | TUnsub _ ids => set_timeout (TScan ids) (set_filters (delete id (fa_filters a)) a)
      | _ => a
      end
  | ByThread => match fa_threads a !! id with Some t => set_thread id (set_th ThDone (th_inbox t) t) a | None => a end
  end.

Inductive api_op :=
  | OpSubscribe (id : Z) (r : request)   (* a request, until its subscription is installed *)
  | OpRegister (id : Z)                  (* its filter is put in the map *)
  | OpEvent (ev : Event) (sends : list (Z * payload))   (* the loop takes an event *)
  | OpSend                               (* the loop sends to the next channel *)
  | OpStop                               (* the loop ends *)
  | OpTake (id : Z)                      (* a goroutine takes from its buffered channel *)
  | OpHandle (id : Z)                    (* a goroutine keeps or passes on what it received *)
  | OpErr (id : Z)                       (* a goroutine sees that the subscription ended *)
  | OpEnd (id : Z)                       (* and removes the filter *)
  | OpGone (id : Z)                      (* a client is gone *)
  | OpDrain (w : unsubscriber) (id : Z)      (* [Unsubscribe] consumes what is sent *)
  | OpUninstall (w : unsubscriber) (id : Z)  (* or hands over its request *)
  | OpPoll (id : Z)                      (* GetFilterChanges *)
  | OpUninstallFilter (id : Z)
  | OpExpire (id : Z)                    (* the timer of a filter fires *)
  | OpTick (ids : list Z)                (* timeoutLoop begins *)
  | OpScan.                              (* and looks at the next filter *)

Definition step_thread (id : Z) (a : FilterAPI) (k : thread → option (res FilterAPI)) : option (res FilterAPI) :=
  t ← fa_threads a !! id; k t.

(** The channel takes what is sent if it has room or the goroutine is at its [select]. *)
Definition receive (p : payload) (t : thread) : option thread :=
  if decide (length (th_inbox t) < request_cap (th_req t))%nat then Some (set_th (th_phase t) (th_inbox t ++ [p]) t)
  else match th_phase t, th_inbox t with ThSelect, [] => Some (set_th (ThGot p) [] t) | _, _ => None end.

(** No result for a step that has to wait. *)

(** [subscribe]: the loop installs the subscription; the goroutine follows. *)
Definition step_subscribe (id : Z) (r : request) (a : FilterAPI) : option (res FilterAPI) :=
  match fa_loop a, fa_threads a !! id, request_sub id r with
  | LoopSelect, None, Ok sub =>
      Some (index ← install sub (fa_index a);
            Ok (mkFilterAPI index LoopSelect (fa_filters a)
                  (<[id := mkThread sub r (if polled r then ThStart else ThSelect) []]> (fa_threads a)) (fa_uninstalling a) (fa_timeout a)
                  (fa_events a) (<[id := length (fa_events a)]> (fa_since a)) (<[id := []]> (fa_out a))))
  | _, _, _ => None
  end.

(** The filter is put in the map. *)
Definition step_register (id : Z) (a : FilterAPI) : option (res FilterAPI) :=
  step_thread id a (λ t,
    match th_phase t, request_filter (th_req t) with
    | ThStart, Some f =>
        if mu_free a then Some (Ok (set_thread id (set_th ThSelect (th_inbox t) t) (set_filters (<[id := f]> (fa_filters a)) a))) else None
    | _, _ => None
    end).

(** [eventLoop]: the sends of a broadcast, in the order in which the map is read. *)
Definition step_event (ev : Event) (sends : list (Z * payload)) (a : FilterAPI) : option (res FilterAPI) :=
  match fa_loop a, broadcast (fa_index a) ev with
  | LoopSelect, Ok l =>
      if decide (sends ≡ₚ l) then
        Some (Ok (mkFilterAPI (fa_index a) (loop_rest sends) (fa_filters a) (fa_threads a) (fa_uninstalling a) (fa_timeout a)
                    (fa_events a ++ [ev]) (fa_since a) (fa_out a)))
      else None
  | LoopSelect, Panic => Some Panic
  | _, _ => None
  end.

(** The loop sends to the next channel. *)
Definition step_send (a : FilterAPI) : option (res FilterAPI) :=
  match fa_loop a with
  | LoopSend id p rest => step_thread id a (λ t, t' ← receive p t; Some (Ok (set_loop (loop_rest rest) (set_thread id t' a))))
  | _ => None
  end.

(** A goroutine takes from its buffered channel. *)
Definition step_take (id : Z) (a : FilterAPI) : option (res FilterAPI) :=
  step_thread id a (λ t,
    match th_phase t, th_inbox t with ThSelect, p :: inbox => Some (Ok (set_thread id (set_th (ThGot p) inbox t) a)) | _, _ => None end).

(** A goroutine keeps or passes on what it received. *)
Definition step_handle (id : Z) (a : FilterAPI) : option (res FilterAPI) :=
  step_thread id a (λ t,
    match th_phase t with
    | ThGot p =>
        let a' := set_thread id (set_th ThSelect (th_inbox t) t) a in
        if polled (th_req t) then
          if mu_free a then
            Some (Ok (match fa_filters a !! id with
                      | Some f => set_filters (<[id := store_payload p f]> (fa_filters a)) a'
                      | None => a'
                      end))
          else None
        else Some (Ok (give id (items (th_req t) p) a'))
    | _ => None
    end).

(** It sees that its subscription ended, *)
Definition step_err (id : Z) (a : FilterAPI) : option (res FilterAPI) :=
  step_thread id a (λ t,
    match th_phase t, installed id a with
    | ThSelect, None => if polled (th_req t) then Some (Ok (set_thread id (set_th ThEnd (th_inbox t) t) a)) else None
    | _, _ => None
    end).

(** and removes the filter. *)
Definition step_end (id : Z) (a : FilterAPI) : option (res FilterAPI) :=
  step_thread id a (λ t,
    match th_phase t with
    | ThEnd => if mu_free a then Some (Ok (set_thread id (set_th ThDone (th_inbox t) t) (set_filters (delete id (fa_filters a)) a))) else None
    | _ => None
    end).

(** The client of a goroutine is gone. *)
Definition step_gone (id : Z) (a : FilterAPI) : option (res FilterAPI) :=
  step_thread id a (λ t,
    match th_phase t with
    | ThSelect => if polled (th_req t) then None else Some (Ok (set_thread id (set_th ThUnsub (th_inbox t) t) a))
    | _ => None
    end).

(** [Unsubscribe] consumes what is sent, *)
Definition step_drain (w : unsubscriber) (id : Z) (a : FilterAPI) : option (res FilterAPI) :=
  if unsubscribing w id a then
    step_thread id a (λ t,
      match th_inbox t, fa_loop a with
      | _ :: inbox, _ => Some (Ok (set_thread id (set_th (th_phase t) inbox t) a))
      | [], LoopSend i _ rest => if i =? id then Some (Ok (set_loop (loop_rest rest) a)) else None
      | _, _ => None
      end)
  else None.

(** or hands over its request to the loop. *)
Definition step_uninstall (w : unsubscriber) (id : Z) (a : FilterAPI) : option (res FilterAPI) :=
  if unsubscribing w id a then
    step_thread id a (λ t,
      match fa_loop a with
      | LoopSelect => Some (Ok (unsubscribed w id (set_index (uninstall (th_sub t) (fa_index a)) a)))
      | _ => None
      end)
  else None.

(** [GetFilterChanges] *)
Definition step_poll (id : Z) (a : FilterAPI) : option (res FilterAPI) :=
  if mu_free a then
    let '(r, filters) := GetFilterChanges id (fa_filters a) in
    Some (Ok (let a := set_filters filters a in match r with Ok its => give id its a | _ => a end))
  else None.

(** [UninstallFilter] *)
Definition step_uninstall_filter (id : Z) (a : FilterAPI) : option (res FilterAPI) :=
  if mu_free a then
    Some (Ok (match fa_filters a !! id with
              | Some _ => set_uninstalling ({[id]} ∪ fa_uninstalling a) (set_filters (delete id (fa_filters a)) a)
              | None => a
              end))
  else None.

(** The timer of a filter fires. *)
Definition step_expire (id : Z) (a : FilterAPI) : option (res FilterAPI) :=
  f ← fa_filters a !! id;
  Some (Ok (set_filters (<[id := mkPfilter (f_typ f) true (f_hashes f) (f_crit f) (f_logs f)]> (fa_filters a)) a)).

(** [timeoutLoop] begins, over the filters in the order in which the map is read. *)
Definition step_tick (ids : list Z) (a : FilterAPI) : option (res FilterAPI) :=
  if mu_free a then if decide (ids ≡ₚ (map_to_list (fa_filters a)).*1) then Some (Ok (set_timeout (TScan ids) a)) else None else None.

(** It looks at the next filter. *)
Definition step_scan (a : FilterAPI) : option (res FilterAPI) :=
  match fa_timeout a with
  | TScan [] => Some (Ok (set_timeout TIdle a))
  | TScan (id :: ids) =>
      Some (Ok (set_timeout (match fa_filters a !! id with
                             | Some f => if f_expired f then TUnsub id ids else TScan ids
                             | None => TScan ids
                             end) a))
  | _ => None
  end.

Definition api_step (op : api_op) (a : FilterAPI) : option (res FilterAPI) :=
  match op with
  | OpSubscribe id r => step_subscribe id r a
  | OpRegister id => step_register id a
  | OpEvent ev sends => step_event ev sends a
  | OpSend => step_send a
  | OpStop => match fa_loop a with LoopSelect => Some (Ok (set_loop LoopStopped a)) | _ => None end
  | OpTake id => step_take id a
  | OpHandle id => step_handle id a
  | OpErr id => step_err id a
  | OpEnd id => step_end id a
  | OpGone id => step_gone id a
  | OpDrain w id => step_drain w id a
  | OpUninstall w id => step_uninstall w id a
  | OpPoll id => step_poll id a
  | OpUninstallFilter id => step_uninstall_filter id a
  | OpExpire id => step_expire id a
  | OpTick ids => step_tick ids a
  | OpScan => step_scan a
  end.

Inductive api_run : FilterAPI → Prop :=
  | AR_new : api_run newFilterAPI
  | AR_step a a' op : api_run a → api_step op a = Some (Ok a') → api_run a'.

(** ** What is sent to whom *)

Definition selected (c : FilterQuery) (l : evmLog) : bool :=
  in_range (q_FromBlock c) (q_ToBlock c) l && criteria (q_Addresses c) (q_Topics c) l.

(** What an event has for a subscription. *)
Definition matched (f : subscription) (ev : Event) : list payload :=
  match ev with
  | EvLogs e =>
      let m := filter (λ l, selected (s_logsCrit f) l = true) e in
      if (s_typ f =? LogsSubscription) && (0 <? len m) then [PLogs m] else []
  | EvTxs txs => if s_typ f =? PendingTransactionsSubscription then [PHashes (tx_Hash <$> txs)] else []
  | EvBlock b => if s_typ f =? BlocksSubscription then [PHeader (EvmHeader_EthHeader b)] else []
  end.

(** Subscriptions that include pending logs are sent nothing, not even the logs of blocks. *)
Lemma pending_logs_never_sent f ev :
  s_typ f = PendingLogsSubscription ∨ s_typ f = MinedAndPendingLogsSubscription → matched f ev = [].
Proof. by intros [E|E]; unfold matched; rewrite E; destruct ev. Qed.

Definition ev_type (ev : Event) : Z :=
  match ev with
  | EvLogs _ => LogsSubscription
  | EvTxs _ => PendingTransactionsSubscription
  | EvBlock _ => BlocksSubscription
  end.

Definition sends_to (id : Z) (l : list (Z * payload)) : list payload := (filter (λ s, s.1 = id) l).*2.

Lemma sends_to_app id l k : sends_to id (l ++ k) = sends_to id l ++ sends_to id k.
Proof. unfold sends_to. by rewrite filter_app, fmap_app. Qed.

Lemma sends_to_cons id i p l : sends_to id ((i, p) :: l) = if decide (i = id) then p :: sends_to id l else sends_to id l.
Proof. unfold sends_to. rewrite filter_cons. by destruct (decide _). Qed.

Lemma sends_to_own id i ps : sends_to id ((λ p, (i, p)) <$> ps) = if decide (i = id) then ps else [].
Proof. induction ps as [|p ps IH]; [by destruct (decide _)|]. rewrite fmap_cons, sends_to_cons, IH. by destruct (decide _). Qed.

Lemma sends_to_none id l : id ∉ l.*1 → sends_to id l = [].
Proof.
  intros Hid. induction l as [|[i p] l IH]; [done|]. rewrite fmap_cons in Hid. rewrite sends_to_cons, decide_False by set_solver. set_solver.
Qed.

Lemma Permutation_short {A} (l k : list A) : l ≡ₚ k → (length k <= 1)%nat → l = k.
Proof.
  intros Hp Hk. destruct k as [|x [|y k]]; simpl in Hk; [by apply Permutation_nil_r|by apply Permutation_singleton_r|lia].
Qed.

#[local] Instance sends_to_perm id : Proper ((≡ₚ) ==> (≡ₚ)) (sends_to id).
Proof. intros l k Hlk. unfold sends_to. by rewrite Hlk. Qed.

Lemma matched_short f ev : (length (matched f ev) <= 1)%nat.
Proof. unfold matched. destruct ev; simpl; repeat case_match; simpl; lia. Qed.

(** What goes to a bucket reaches each of its subscriptions. *)
Definition sends_of (ev : Event) (fs : list (Z * subscription)) : list (Z * payload) :=
  fs ≫= λ x, (λ p, (x.1, p)) <$> matched x.2 ev.

#[local] Instance sends_of_perm ev : Proper ((≡ₚ) ==> (≡ₚ)) (sends_of ev).
Proof. intros l k Hlk. unfold sends_of. by rewrite Hlk. Qed.

Lemma sends_to_of ev id (m : gmap Z subscription) :
  sends_to id (sends_of ev (map_to_list m)) = match m !! id with Some f => matched f ev | None => [] end.
Proof.
  revert id. induction m as [|i f m Hi IH] using map_ind; intros id; [by rewrite map_to_list_empty, lookup_empty|].
  apply Permutation_short.
  - rewrite (map_to_list_insert m i f Hi). unfold sends_of at 1. rewrite bind_cons. fold (sends_of ev (map_to_list m)).
    rewrite sends_to_app, sends_to_own, IH. simpl. destruct (decide (i = id)) as [->|Hne].
    + by rewrite lookup_insert_eq, Hi, app_nil_r.
    + by rewrite lookup_insert_ne.
  - destruct (<[i:=f]> m !! id); [apply matched_short|simpl; lia].
Qed.

Lemma broadcast_spec filters ev :
  (∀ t id f, bucket t filters !! id = Some f → s_typ f = t) →
  broadcast filters ev = Ok (sends_of ev (map_to_list (bucket (ev_type ev) filters))).
Proof.
  intros Hidx.
  assert (Hb : Forall (λ x : Z * subscription, s_typ x.2 = ev_type ev) (map_to_list (bucket (ev_type ev) filters))).
  { apply Forall_forall. intros [id f] Hin%elem_of_map_to_list. by apply (Hidx _ id). }
  destruct ev as [txs|e|b]; simpl in *.
  - f_equal. induction Hb as [|[id f] fs Hf _ IH]; [done|]. unfold sends_of in *. cbn in *. by rewrite Hf, IH.
  - assert (Hl : broadcast_logs e (map_to_list (bucket LogsSubscription filters)) =
        Ok (sends_of (EvLogs e) (map_to_list (bucket LogsSubscription filters)))).
    { induction Hb as [|[id f] fs Hf _ IH]; [done|]. cbn [broadcast_logs]. rewrite filterLogs_spec. cbn. rewrite IH. cbn in Hf. cbn.
      unfold matched. rewrite Hf, Z.eqb_refl. cbn [andb]. unfold selected. by destruct (0 <? _). }
    destruct (Z.ltb_spec 0 (len e)) as [Hlt|Hge]; [done|]. destruct e; [|unfold len in Hge; simpl in Hge; lia]. f_equal. clear.
    induction (map_to_list _) as [|x fs IH]; [done|]. unfold sends_of in *. cbn. by rewrite andb_false_r.
  - f_equal. induction Hb as [|[id f] fs Hf _ IH]; [done|]. unfold sends_of in *. cbn in *. by rewrite Hf, IH.
Qed.

(** ** The invariant *)

Definition loop_sends (l : loop_state) : list (Z * payload) := match l with LoopSend id p rest => (id, p) :: rest | _ => [] end.

Lemma loop_sends_rest l : loop_sends (loop_rest l) = l.
Proof. by destruct l as [|[]]. Qed.

(** Someone else than its goroutine ends the subscription. *)
Definition ending (id : Z) (a : FilterAPI) : bool := unsubscribing ByCaller id a || unsubscribing ByTimeout id a.

(** What the state has for one subscription besides its goroutine. *)
Record view := mkView { v_filter : option pfilter; v_ending : bool; v_sends : list payload; v_events : list Event; v_out : list item }.

Definition view_of (id : Z) (a : FilterAPI) : view :=
  mkView (fa_filters a !! id) (ending id a) (sends_to id (loop_sends (fa_loop a))) (drop (default 0%nat (fa_since a !! id)) (fa_events a))
    (default [] (fa_out a !! id)).

Definition stored (f : pfilter) : list item := (ItHash <$> f_hashes f) ++ (ItLog <$> f_logs f).

(** A filter keeps hashes or logs. *)
Definition filter_ok (r : request) (f : pfilter) : Prop :=
  match r with
  | NewFilter _ => f_typ f = LogsSubscription ∧ f_hashes f = []
  | NewPendingTransactionFilter => f_typ f = PendingTransactionsSubscription ∧ f_logs f = []
  | NewBlockFilter' => f_typ f = BlocksSubscription ∧ f_logs f = []
  | _ => False
  end.

Definition payload_for (r : request) (p : payload) : Prop :=
  match r, p with
  | (NewFilter _ | NewLogs _), PLogs _ | (NewPendingTransactionFilter | NewPendingTransactions), PHashes _
  | (NewBlockFilter' | NewHeads), PHeader _ => True
  | _, _ => False
  end.

Definition in_hand (t : thread) : list payload := match th_phase t with ThGot p => [p] | _ => [] end.
Definition on_way (t : thread) (v : view) : list payload := in_hand t ++ th_inbox t ++ v_sends v.

Definition expected (t : thread) (v : view) : list item := (v_events v ≫= matched (th_sub t)) ≫= items (th_req t).
Definition received (t : thread) (v : view) : list item :=
  v_out v ++ default [] (stored <$> v_filter v) ++ (on_way t v ≫= items (th_req t)).

Definition is_unsub (t : thread) : bool := match th_phase t with ThUnsub => true | _ => false end.

Definition phase_ok (t : thread) (inst : option subscription) (v : view) : Prop :=
  match th_phase t with
  | ThStart => polled (th_req t) = true ∧ v_filter v = None
  | ThEnd => inst = None ∧ polled (th_req t) = true
  | ThDone => inst = None
  | ThUnsub => polled (th_req t) = false
  | _ => True
  end.

Record thread_ok (id : Z) (t : thread) (inst : option subscription) (v : view) : Prop := {
  to_sub : request_sub id (th_req t) = Ok (th_sub t);
  to_inst : ∀ f, inst = Some f → f = th_sub t;
  to_phase : phase_ok t inst v;
  to_filter : ∀ f, v_filter v = Some f → filter_ok (th_req t) f;
  to_kept : polled (th_req t) = true → inst ≠ None → v_ending v = false → th_phase t ≠ ThStart → is_Some (v_filter v);
  to_sends : inst = None → v_sends v = [];
  to_way : Forall (payload_for (th_req t)) (on_way t v);
  to_exact : inst ≠ None → v_ending v = false → is_unsub t = false → expected t v = received t v;
}.

Record api_ok (a : FilterAPI) : Prop := {
  ao_made : ∀ t, 0 <= t < LastIndexSubscription → is_Some (fa_index a !! t);
  ao_index : ∀ t id f, bucket t (fa_index a) !! id = Some f → s_typ f = t ∧ ∃ th, fa_threads a !! id = Some th ∧ th_sub th = f;
  ao_threads : ∀ id th, fa_threads a !! id = Some th → thread_ok id th (installed id a) (view_of id a);
  ao_none : ∀ id, fa_threads a !! id = None →
    fa_filters a !! id = None ∧ ending id a = false ∧ sends_to id (loop_sends (fa_loop a)) = [];
  ao_since : ∀ id n, fa_since a !! id = Some n → (n <= length (fa_events a))%nat;
}.

Lemma request_sub_id id r f : request_sub id r = Ok f → s_id f = id ∧ 0 <= s_typ f < LastIndexSubscription.
Proof.
  destruct r; simpl; unfold SubscribeLogs, LastIndexSubscription; repeat (case_match; simpl; try done); intros [= <-]; done.
Qed.

Lemma request_filter_ok r f : request_filter r = Some f → filter_ok r f ∧ stored f = [].
Proof. destruct r; simpl; intros [= <-]; done. Qed.

Lemma new_ok : api_ok newFilterAPI.
Proof.
  constructor; simpl; try done.
  - intros t Ht. unfold LastIndexSubscription in Ht.
    assert (t = 0 ∨ t = 1 ∨ t = 2 ∨ t = 3 ∨ t = 4 ∨ t = 5) as [->|[->|[->|[->|[->| ->]]]]] by lia; by eexists.
  - intros t id f Hf. exfalso. unfold bucket in Hf. destruct (newIndex !! t) as [m|] eqn:Em; [|done].
    assert (m = ∅) as ->; [|done]. unfold newIndex in Em. simpl in Em.
    repeat (apply lookup_insert_Some in Em as [[_ Em]|[_ Em]]; [done|]). done.
Qed.

(** A step that concerns one subscription leaves the others as they are. *)
Lemma update_ok a a' id th th' :
  api_ok a → fa_threads a !! id = Some th → fa_index a' = fa_index a → fa_events a' = fa_events a → fa_since a' = fa_since a →
  fa_threads a' !! id = Some th' → (∀ j, j ≠ id → fa_threads a' !! j = fa_threads a !! j ∧ view_of j a' = view_of j a) →
  th_sub th' = th_sub th → thread_ok id th' (installed id a) (view_of id a') → api_ok a'.
Proof.
  intros [Hm Hi Ht Hn Hs] Hid Ei Ee Es Hid' Hother Esub Hok. constructor; rewrite ?Ei, ?Ee, ?Es; try done.
  - intros t j f Hf. destruct (Hi t j f Hf) as (Htyp & th0 & Hj & Hth0). split; [done|].
    destruct (decide (j = id)) as [->|Hne]; [exists th'; rewrite Hid in Hj; injection Hj as <-; by rewrite Esub|].
    exists th0. by rewrite (proj1 (Hother j Hne)).
  - intros j th0 Hj. destruct (decide (j = id)) as [->|Hne].
    + rewrite Hid' in Hj. injection Hj as <-. unfold installed in *. rewrite Hid', Ei. rewrite Hid in Hok. simpl in *. by rewrite Esub.
    + destruct (Hother j Hne) as [Etj ->]. rewrite Etj in Hj. unfold installed. rewrite Etj, Ei. by apply Ht.
  - intros j Hj. destruct (decide (j = id)) as [->|Hne]; [by rewrite Hid' in Hj|]. destruct (Hother j Hne) as [Etj Ev].
    rewrite Etj in Hj. unfold view_of in Ev. injection Ev as -> -> -> _ _. by apply Hn.
Qed.

(** *** What each step does to one subscription *)

Lemma items_stored r p f : filter_ok r f → payload_for r p → filter_ok r (store_payload p f) ∧ stored (store_payload p f) = stored f ++ items r p.
Proof.
  intros Hf Hp. unfold stored. destruct r, p; simpl in *; try done; destruct Hf as [Ht He]; rewrite He; simpl;
    rewrite ?app_nil_r, fmap_app; done.
Qed.

Lemma register_thread id t inst v f :
  thread_ok id t inst v → th_phase t = ThStart → request_filter (th_req t) = Some f →
  thread_ok id (set_th ThSelect (th_inbox t) t) inst (mkView (Some f) (v_ending v) (v_sends v) (v_events v) (v_out v)).
Proof.
  intros [Hsub Hinst Hph Hf Hk Hs Hw He] Ep Ef. destruct (request_filter_ok _ _ Ef) as [Hok Hst]. unfold phase_ok in Hph. rewrite Ep in Hph.
  destruct Hph as [_ Hnone]. constructor; simpl; try done.
  - intros f' [= <-]. done.
  - unfold on_way, in_hand in *. rewrite Ep in Hw. done.
  - intros Hi Hend _. unfold is_unsub in He. rewrite Ep in He. specialize (He Hi Hend eq_refl). unfold expected, received in *. simpl in *.
    rewrite He, Hnone, Hst. unfold on_way, in_hand. by rewrite Ep.
Qed.

Lemma receive_thread id t t' inst v p rest :
  thread_ok id t inst v → v_sends v = p :: rest → receive p t = Some t' →
  th_sub t' = th_sub t ∧ thread_ok id t' inst (mkView (v_filter v) (v_ending v) rest (v_events v) (v_out v)).
Proof.
  intros [Hsub Hinst Hph Hf Hk Hs Hw He] Ev Hr.
  assert (Hway : th_sub t' = th_sub t ∧ th_req t' = th_req t ∧ is_unsub t' = is_unsub t ∧ (th_phase t' = ThStart ↔ th_phase t = ThStart) ∧
            phase_ok t' inst v ∧ on_way t' (mkView (v_filter v) (v_ending v) rest (v_events v) (v_out v)) = on_way t v).
  { revert Hr. unfold receive, on_way, in_hand, is_unsub, phase_ok in *. rewrite Ev. destruct (decide _).
    - intros [= <-]. simpl. split_and!; try done. by rewrite <-app_assoc.
    - destruct (th_phase t); try done. destruct (th_inbox t) eqn:Ei; [|done]. intros [= <-]. by rewrite ?Ei. }
  destruct Hway as (E1 & E2 & E3 & E4 & Hph' & E5). split; [done|]. constructor; rewrite ?E1, ?E2, ?E5; try done.
  - simpl. intros Hp Hi Hn Hst. apply Hk; try done. by rewrite <-E4.
  - simpl. intros Hi. specialize (Hs Hi). by rewrite Ev in Hs.
  - simpl. intros Hi Hn Hu. rewrite E3 in Hu. specialize (He Hi Hn Hu). unfold expected, received in *. by rewrite E1, E2, E5.
Qed.

(** A goroutine goes on with the same things on their way. *)
Lemma same_way_thread id t t' inst v :
  thread_ok id t inst v → th_sub t' = th_sub t → th_req t' = th_req t → phase_ok t' inst v → th_phase t ≠ ThStart → on_way t' v = on_way t v →
  is_unsub t = false → thread_ok id t' inst v.
Proof.
  intros [Hsub Hinst Hph Hf Hk Hs Hw He] E1 E2 Hph' Hns E5 Hu. constructor; rewrite ?E1, ?E2, ?E5; try done.
  - intros Hp Hi Hn _. by apply Hk.
  - intros Hi Hn _. specialize (He Hi Hn Hu). unfold expected, received in *. by rewrite E1, E2, E5.
Qed.

Lemma handle_poll_thread id t inst v p :
  thread_ok id t inst v → th_phase t = ThGot p → polled (th_req t) = true →
  thread_ok id (set_th ThSelect (th_inbox t) t) inst
    (mkView (store_payload p <$> v_filter v) (v_ending v) (v_sends v) (v_events v) (v_out v)).
Proof.
  intros [Hsub Hinst Hph Hf Hk Hs Hw He] Ep Hpol. unfold on_way, in_hand in *. rewrite Ep in Hw. simpl in Hw. inversion Hw as [|? ? Hp Hw']; subst.
  constructor; simpl; try done.
  - intros f Hx. destruct (v_filter v) as [f0|]; [|done]. injection Hx as <-. exact (proj1 (items_stored _ p f0 (Hf f0 eq_refl) Hp)).
  - intros _ Hi Hn _. destruct (Hk Hpol Hi Hn) as [f ->]; [by rewrite Ep|by eexists].
  - intros Hi Hn _. unfold is_unsub in He. rewrite Ep in He. specialize (He Hi Hn eq_refl). destruct (Hk Hpol Hi Hn) as [f Ef]; [by rewrite Ep|].
    unfold expected, received, on_way, in_hand in *. simpl in *. rewrite He, Ef, Ep. simpl.
    rewrite (proj2 (items_stored _ p f (Hf f Ef) Hp)). by rewrite <-!app_assoc.
Qed.

Lemma handle_push_thread id t inst v p :
  thread_ok id t inst v → th_phase t = ThGot p → polled (th_req t) = false →
  thread_ok id (set_th ThSelect (th_inbox t) t) inst
    (mkView (v_filter v) (v_ending v) (v_sends v) (v_events v) (v_out v ++ items (th_req t) p)).
Proof.
  intros [Hsub Hinst Hph Hf Hk Hs Hw He] Ep Hpol. unfold on_way, in_hand in *. rewrite Ep in Hw. simpl in Hw. inversion Hw as [|? ? Hp Hw']; subst.
  assert (Hnone : v_filter v = None).
  { destruct (v_filter v) as [f|] eqn:Ef; [|done]. specialize (Hf f eq_refl). by destruct (th_req t). }
  constructor; simpl; try done.
  - intros Hx. by rewrite Hpol in Hx.
  - intros Hi Hn _. unfold is_unsub in He. rewrite Ep in He. specialize (He Hi Hn eq_refl).
    unfold expected, received, on_way, in_hand in *. simpl in *. rewrite He, Hnone, Ep. simpl. by rewrite <-!app_assoc.
Qed.

(** Once someone ends a subscription, what it still gets does not matter. *)
Lemma drained_thread id t t' inst v fl en se ou :
  thread_ok id t inst v → th_sub t' = th_sub t → th_req t' = th_req t → th_phase t' = th_phase t →
  (inst = None ∨ en = true ∨ is_unsub t = true) → (inst ≠ None → en = false → v_ending v = false) →
  (th_phase t = ThStart → fl = None) → (∀ f, fl = Some f → filter_ok (th_req t) f) → (inst ≠ None → en = false → fl = v_filter v) →
  (inst = None → se = []) → Forall (payload_for (th_req t)) (th_inbox t' ++ se) →
  thread_ok id t' inst (mkView fl en se (v_events v) ou).
Proof.
  intros [Hsub Hinst Hph Hf Hk Hs Hw He] E1 E2 E3 Hend Hen Hst Hfl Hkeep Hse Hw'. constructor; rewrite ?E1, ?E2, ?E3; simpl; try done.
  - unfold phase_ok in *. rewrite E3, E2. simpl. destruct (th_phase t); try done. split; [apply Hph|by apply Hst].
  - intros Hp Hi Hn Hns. rewrite Hkeep by done. apply Hk; auto.
  - unfold on_way, in_hand. rewrite E3. unfold on_way, in_hand in Hw. apply Forall_app in Hw as [Hw _]. by apply Forall_app.
  - intros Hi Hn Hu. unfold is_unsub in *. rewrite E3 in Hu. destruct Hend as [?|[?|?]]; congruence.
Qed.

(** *** The steps *)

Lemma ending_none a id : ending id a = false → id ∉ fa_uninstalling a ∧ ∀ ids, fa_timeout a ≠ TUnsub id ids.
Proof.
  unfold ending, unsubscribing. intros [Hu Ht]%orb_false_iff. split; [by apply bool_decide_eq_false in Hu|].
  intros ids E. rewrite E, Z.eqb_refl in Ht. done.
Qed.

Lemma bucket_install f filters filters' t :
  install f filters = Ok filters' →
  bucket t filters' = if decide (t = s_typ f) then <[s_id f := f]> (bucket t filters) else bucket t filters.
Proof.
  unfold install, bucket. destruct (filters !! s_typ f) as [m|] eqn:Em; [|done]. intros [= <-]. rewrite lookup_insert.
  destruct (decide (s_typ f = t)) as [<-|Hne].
  - by rewrite decide_True, Em by done.
  - by rewrite decide_False by congruence.
Qed.

Lemma bucket_uninstall f filters t :
  bucket t (uninstall f filters) = if decide (t = s_typ f) then delete (s_id f) (bucket t filters) else bucket t filters.
Proof.
  unfold uninstall, bucket. destruct (filters !! s_typ f) as [m|] eqn:Em.
  - rewrite lookup_insert. destruct (decide (s_typ f = t)) as [<-|Hne]; [by rewrite decide_True, Em by done|by rewrite decide_False by congruence].
  - destruct (decide (t = s_typ f)) as [->|]; [|done]. rewrite Em. simpl. by rewrite delete_empty.
Qed.

Lemma matched_payload id r f ev : request_sub id r = Ok f → Forall (payload_for r) (matched f ev).
Proof.
  intros Hs. unfold matched. destruct r as [| |c| | |c]; simpl in Hs.
  1,2,4,5: injection Hs as <-; destruct ev; simpl; repeat constructor.
  all: assert (Ht : s_typ f = LogsSubscription ∨ s_typ f = PendingLogsSubscription ∨ s_typ f = MinedAndPendingLogsSubscription)
    by (revert Hs; unfold SubscribeLogs; repeat (case_match; simpl; try done); intros [= <-]; simpl; auto).
  all: destruct ev; destruct Ht as [-> |[-> | ->]]; simpl; repeat case_match; repeat constructor.
Qed.

(** Unfolds a step. *)
Ltac open_step H :=
  simpl in H;
  cbv [step_subscribe step_register step_event step_send step_take step_handle step_err step_end step_gone step_drain step_uninstall step_poll
       step_uninstall_filter step_expire step_tick step_scan] in H; simpl in H.
Ltac show_step :=
  simpl;
  cbv [step_subscribe step_register step_event step_send step_take step_handle step_err step_end step_gone step_drain step_uninstall step_poll
       step_uninstall_filter step_expire step_tick step_scan]; simpl.

Lemma subscribe_ok a id r a' : api_ok a → api_step (OpSubscribe id r) a = Some (Ok a') → api_ok a'.
Proof.
  intros [Hm Hi Ht Hn Hs] Hstep. open_step Hstep. destruct (fa_loop a) eqn:El; try done.
  destruct (fa_threads a !! id) eqn:Eid; [done|]. destruct (request_sub id r) as [f| |] eqn:Er; [|done..].
  destruct (install f (fa_index a)) as [idx| |] eqn:Ei; [|done..]. simpl in Hstep. injection Hstep as <-.
  destruct (request_sub_id _ _ _ Er) as [Eid' Htyp]. destruct (Hn id Eid) as (Hnf & Hne & _).
  assert (Hb : ∀ t, bucket t idx = if decide (t = s_typ f) then <[id := f]> (bucket t (fa_index a)) else bucket t (fa_index a))
    by (intros t; rewrite (bucket_install _ _ _ _ Ei), Eid'; done).
  assert (Hno : ∀ j, j ≠ id → ∀ t, bucket t idx !! j = bucket t (fa_index a) !! j)
    by (intros j Hj t; rewrite Hb; destruct (decide _); [by rewrite lookup_insert_ne|done]).
  constructor; simpl.
  - intros t Hlt. unfold install in Ei. destruct (fa_index a !! s_typ f); [|done]. injection Ei as <-.
    destruct (decide (t = s_typ f)) as [->|]; [rewrite lookup_insert_eq; eauto|rewrite lookup_insert_ne by done; by apply Hm].
  - intros t j f'. destruct (decide (j = id)) as [->|Hj].
    + rewrite Hb. destruct (decide (t = s_typ f)) as [->|].
      * rewrite lookup_insert_eq. intros [= <-]. split; [done|]. eexists. by rewrite lookup_insert_eq.
      * intros Hx. destruct (Hi _ _ _ Hx) as (_ & th & Hth & _). congruence.
    + rewrite Hno, lookup_insert_ne by done. apply Hi.
  - intros j th. destruct (decide (j = id)) as [->|Hj].
    + rewrite lookup_insert_eq. intros [= <-]. unfold installed. simpl. rewrite lookup_insert_eq. simpl.
      rewrite Hb, decide_True, lookup_insert_eq by done. unfold view_of. simpl. rewrite !lookup_insert_eq. simpl. rewrite drop_ge by done.
      change (ending id _) with (ending id a). rewrite Hnf, Hne. constructor; simpl; try done.
      * by intros f' [= <-].
      * unfold phase_ok. simpl. by destruct (polled r).
      * intros Hp. rewrite Hp. done.
      * unfold on_way, in_hand. simpl. destruct (polled r); constructor.
      * intros _ _ _. unfold expected, received, on_way, in_hand. simpl. by destruct (polled r).
    + rewrite lookup_insert_ne by done. intros Hth. specialize (Ht j th Hth). unfold installed in *. simpl. rewrite lookup_insert_ne by done.
      rewrite Hth in *. simpl in *. rewrite Hno by done. unfold view_of in *. simpl.
      rewrite !lookup_insert_ne by done. rewrite El in Ht. exact Ht.
  - intros j [Hj ?]%lookup_insert_None. destruct (Hn j Hj) as (? & ? & _). done.
  - intros j n [[<- <-]|[_ Hx]]%lookup_insert_Some; [done|by apply (Hs j)].
Qed.

Lemma event_ok a ev sends a' : api_ok a → api_step (OpEvent ev sends) a = Some (Ok a') → api_ok a'.
Proof.
  intros [Hm Hi Ht Hn Hs] Hstep. open_step Hstep. destruct (fa_loop a) eqn:El; [|done|done].
  rewrite broadcast_spec in Hstep by (intros t id f Hf; by apply (Hi t id f)).
  destruct (decide _) as [Hp|]; [|done]. injection Hstep as <-.
  assert (Hsend : ∀ id th, fa_threads a !! id = Some th →
            sends_to id sends = match installed id a with Some f => matched f ev | None => [] end).
  { intros id th Hth. assert (E : sends_to id sends = match bucket (ev_type ev) (fa_index a) !! id with Some f => matched f ev | None => [] end).
    { rewrite <-sends_to_of. apply Permutation_short; [by rewrite Hp|]. rewrite sends_to_of. case_match; [apply matched_short|simpl; lia]. }
    rewrite E. clear E. unfold installed. rewrite Hth. simpl. destruct (bucket (ev_type ev) (fa_index a) !! id) as [f|] eqn:Ef.
    - destruct (Hi _ _ _ Ef) as (Htyp & th0 & Hth0 & <-). rewrite Hth in Hth0. injection Hth0 as <-. by rewrite Htyp, Ef.
    - destruct (bucket (s_typ (th_sub th)) (fa_index a) !! id) as [f|] eqn:Ef'; [|done].
      destruct (Hi _ _ _ Ef') as [Htyp _]. unfold matched. destruct (s_typ f =? ev_type ev) eqn:Et.
      { apply Z.eqb_eq in Et. rewrite <-Htyp, Et in Ef'. congruence. }
      destruct ev; simpl in Et; by rewrite Et. }
  constructor; simpl; try done.
  - intros id th Hth. specialize (Ht id th Hth). change (installed id _) with (installed id a).
    unfold view_of in *. simpl. rewrite loop_sends_rest, (Hsend id th Hth). rewrite El in Ht. simpl in Ht.
    change (ending id _) with (ending id a).
    assert (Hdrop : drop (default 0%nat (fa_since a !! id)) (fa_events a ++ [ev]) = drop (default 0%nat (fa_since a !! id)) (fa_events a) ++ [ev]).
    { rewrite drop_app_le; [done|]. destruct (fa_since a !! id) as [n|] eqn:En; simpl; [by apply (Hs id)|lia]. }
    rewrite Hdrop. destruct Ht as [Hsub Hinst Hph Hf Hk Hse Hw He]. constructor; try done.
    + by intros ->.
    + unfold on_way in *. simpl in *. rewrite app_nil_r in Hw. rewrite app_assoc. apply Forall_app. split; [done|].
      destruct (installed id a) as [f|]; [|constructor]. rewrite (Hinst f eq_refl). by apply (matched_payload id).
    + intros Hin Hen Hu. specialize (He Hin Hen Hu). unfold expected, received, on_way in *. simpl in *.
      rewrite app_nil_r in He. rewrite bind_app, bind_app, He, <-!app_assoc. do 2 f_equal.
      rewrite !bind_app, <-!app_assoc. do 2 f_equal. destruct (installed id a) as [f|]; [|done].
      rewrite (Hinst f eq_refl). simpl. by rewrite app_nil_r.
  - intros id Hid. destruct (Hn id Hid) as (? & ? & _). split_and!; try done. rewrite loop_sends_rest.
    apply Permutation_short; [|simpl; lia]. rewrite Hp, sends_to_of. destruct (bucket (ev_type ev) (fa_index a) !! id) as [f|] eqn:Ef; [|done].
    destruct (Hi _ _ _ Ef) as (_ & th & Hth & _). congruence.
  - intros id n Hx. rewrite length_app. apply Hs in Hx. lia.
Qed.

Lemma uninstall_index_ok a id th :
  api_ok a → fa_loop a = LoopSelect → fa_threads a !! id = Some th →
  let b := set_index (uninstall (th_sub th) (fa_index a)) a in
  api_ok b ∧ installed id b = None ∧ ∀ j, view_of j b = view_of j a.
Proof.
  intros Ha El Hid b. pose proof Ha as [Hm Hi Ht Hn Hs].
  destruct (request_sub_id _ _ _ (to_sub _ _ _ _ (Ht id th Hid))) as [Eid _].
  assert (Hnone : bucket (s_typ (th_sub th)) (fa_index b) !! id = None).
  { simpl. rewrite bucket_uninstall, decide_True, Eid by done. by rewrite lookup_delete_eq. }
  assert (Hother : ∀ j t, j ≠ id → bucket t (fa_index b) !! j = bucket t (fa_index a) !! j).
  { intros j t Hj. simpl. rewrite bucket_uninstall, Eid. destruct (decide _); [by rewrite lookup_delete_ne|done]. }
  split_and!; [|by unfold installed; simpl; rewrite Hid|done]. constructor; try done.
  - intros t Hlt. simpl. unfold uninstall. destruct (fa_index a !! s_typ (th_sub th)) as [m|]; [|by apply Hm].
    destruct (decide (t = s_typ (th_sub th))) as [->|]; [rewrite lookup_insert_eq; eauto|rewrite lookup_insert_ne by done; by apply Hm].
  - intros t j f. destruct (decide (j = id)) as [->|Hj].
    + intros Hf. simpl in Hf. rewrite bucket_uninstall in Hf. destruct (decide _) as [->|Hne].
      * by rewrite Eid, lookup_delete_eq in Hf.
      * by apply Hi.
    + rewrite Hother by done. apply Hi.
  - intros j th' Hj. change (view_of j b) with (view_of j a). destruct (decide (j = id)) as [->|Hne].
    + simpl in Hj. rewrite Hid in Hj. injection Hj as <-. unfold installed. simpl. rewrite Hid. simpl in *. rewrite Hnone.
      specialize (Ht id th Hid). destruct Ht as [Hsub Hinst Hph Hf Hk Hse Hw He]. constructor; try done.
      * unfold phase_ok in *. destruct (th_phase th); try done. by destruct Hph.
      * intros _. unfold view_of. simpl. by rewrite El.
    + specialize (Ht j th' Hj). unfold installed in *. simpl in *. rewrite Hj in *. simpl in *. by rewrite Hother.
Qed.

Lemma unsubscribed_ok b w id th :
  api_ok b → fa_threads b !! id = Some th → installed id b = None → unsubscribing w id b = true → api_ok (unsubscribed w id b).
Proof.
  intros Hb Hid Hinst Hw. pose proof (ao_threads b Hb id th Hid) as Hok. rewrite Hinst in Hok. pose proof (to_sends _ _ _ _ Hok eq_refl) as Hse.
  pose proof (to_way _ _ _ _ Hok) as Hway. unfold on_way in Hway. apply Forall_app in Hway as [_ Hway].
  destruct w; simpl in *.
  - apply (update_ok b _ id th th); try done.
    + intros j Hj. split; [done|]. unfold view_of, ending, unsubscribing. simpl. do 2 f_equal. apply bool_decide_ext. set_solver.
    + rewrite Hinst. unfold view_of at 1. simpl. apply (drained_thread id th th None _ _ _ _ _ Hok); try done; try (by left).
      * intros Hp. pose proof (to_phase _ _ _ _ Hok) as Hx. unfold phase_ok in Hx. rewrite Hp in Hx. apply Hx.
      * apply (to_filter _ _ _ _ Hok).
  - destruct (fa_timeout b) as [| |i ids] eqn:Et; [done..|]. apply Z.eqb_eq in Hw. subst i.
    apply (update_ok b _ id th th); try done.
    + intros j Hj. split; [done|]. unfold view_of, ending, unsubscribing. simpl. rewrite lookup_delete_ne by done.
      rewrite Et. destruct (Z.eqb_spec id j); [done|]. done.
    + rewrite Hinst. unfold view_of at 1. simpl. rewrite lookup_delete_eq.
      apply (drained_thread id th th None _ _ _ _ _ Hok); try done; by left.
  - rewrite Hid. apply (update_ok b _ id th (set_th ThDone (th_inbox th) th)); try done.
    + simpl. by rewrite lookup_insert_eq.
    + intros j Hj. simpl. by rewrite lookup_insert_ne.
    + rewrite Hinst. change (view_of id (set_thread _ _ b)) with (view_of id b).
      destruct Hok as [Hsub Hi Hph Hf Hk Hs Hwy He]. constructor; try done.
Qed.

Lemma uninstall_ok a w id a' : api_ok a → api_step (OpUninstall w id) a = Some (Ok a') → api_ok a'.
Proof.
  intros Ha Hstep. open_step Hstep. destruct (unsubscribing w id a) eqn:Hw; [|done]. unfold step_thread in Hstep.
  destruct (fa_threads a !! id) as [th|] eqn:Hid; simpl in Hstep; [|done]. destruct (fa_loop a) eqn:El; [|done..]. injection Hstep as <-.
  destruct (uninstall_index_ok a id th Ha El Hid) as (Hb & Hinst & _). by apply (unsubscribed_ok _ _ _ th).
Qed.

(** A step of the goroutine of a subscription: [a1] is the state up to the goroutine. *)
Lemma thread_step_ok a a1 id th th' :
  api_ok a → fa_threads a !! id = Some th → fa_index a1 = fa_index a → fa_events a1 = fa_events a → fa_since a1 = fa_since a →
  fa_threads a1 = fa_threads a → (∀ j, j ≠ id → view_of j a1 = view_of j a) → th_sub th' = th_sub th →
  thread_ok id th' (installed id a) (view_of id a1) → api_ok (set_thread id th' a1).
Proof.
  intros Ha Hid Ei Ee Es Et Hother Esub Hok. apply (update_ok a _ id th th'); try done; simpl; rewrite Et.
  - by rewrite lookup_insert_eq.
  - intros j Hj. rewrite lookup_insert_ne by done. split; [done|]. by apply Hother.
Qed.

Ltac open_thread a id Hstep th Hid :=
  unfold step_thread in Hstep; destruct (fa_threads a !! id) as [th|] eqn:Hid; simpl in Hstep; [|done].

Lemma register_filter_ok a id a' : api_ok a → api_step (OpRegister id) a = Some (Ok a') → api_ok a'.
Proof.
  intros Ha Hstep. open_step Hstep. open_thread a id Hstep th Hid. destruct (th_phase th) eqn:Ep; try done.
  destruct (request_filter (th_req th)) as [f|] eqn:Ef; [|done]. destruct (mu_free a); [|done]. injection Hstep as <-.
  apply (thread_step_ok a _ id th); try done.
  - intros j Hj. unfold view_of. simpl. by rewrite lookup_insert_ne.
  - unfold view_of. simpl. rewrite lookup_insert_eq. by apply (register_thread id th _ (view_of id a)), Ef; [apply ao_threads|].
Qed.

Lemma send_ok a a' : api_ok a → api_step OpSend a = Some (Ok a') → api_ok a'.
Proof.
  intros Ha Hstep. open_step Hstep. destruct (fa_loop a) as [|id p rest|] eqn:El; try done. open_thread a id Hstep th Hid.
  destruct (receive p th) as [th'|] eqn:Er; simpl in Hstep; [|done]. injection Hstep as <-.
  assert (Hs : ∀ j, sends_to j (loop_sends (fa_loop a)) = if decide (id = j) then p :: sends_to j rest else sends_to j rest)
    by (intros j; rewrite El; apply sends_to_cons).
  destruct (receive_thread id th th' (installed id a) (view_of id a) p (sends_to id rest)) as [Esub Hok];
    [by apply ao_threads|simpl; by rewrite Hs, decide_True|done|].
  change (set_loop _ (set_thread id th' a)) with (set_thread id th' (set_loop (loop_rest rest) a)).
  apply (thread_step_ok a _ id th); try done.
  - intros j Hj. unfold view_of. simpl. by rewrite Hs, loop_sends_rest, decide_False by congruence.
  - unfold view_of. simpl. by rewrite loop_sends_rest.
Qed.

Lemma take_ok a id a' : api_ok a → api_step (OpTake id) a = Some (Ok a') → api_ok a'.
Proof.
  intros Ha Hstep. open_step Hstep. open_thread a id Hstep th Hid. destruct (th_phase th) eqn:Ep; try done.
  destruct (th_inbox th) as [|p inbox] eqn:Ei; [done|]. injection Hstep as <-. apply (thread_step_ok a _ id th); try done.
  apply (same_way_thread id th); try done; [by apply ao_threads|by rewrite Ep| |by unfold is_unsub; rewrite Ep].
  unfold on_way, in_hand. by rewrite Ep, Ei.
Qed.

Lemma handle_ok a id a' : api_ok a → api_step (OpHandle id) a = Some (Ok a') → api_ok a'.
Proof.
  intros Ha Hstep. open_step Hstep. open_thread a id Hstep th Hid. destruct (th_phase th) as [| |p| | |] eqn:Ep; try done.
  pose proof (ao_threads a Ha id th Hid) as Hok. destruct (polled (th_req th)) eqn:Epol.
  - destruct (mu_free a); [|done]. injection Hstep as <-. pose proof (handle_poll_thread id th _ _ p Hok Ep Epol) as Hok'. simpl in Hok'.
    destruct (fa_filters a !! id) as [f|] eqn:Ef.
    + change (set_filters ?fs (set_thread id ?t a)) with (set_thread id t (set_filters fs a)). apply (thread_step_ok a _ id th); try done.
      * intros j Hj. unfold view_of. simpl. by rewrite lookup_insert_ne.
      * unfold view_of. simpl. by rewrite lookup_insert_eq.
    + apply (thread_step_ok a _ id th); try done. unfold view_of. by rewrite Ef.
  - injection Hstep as <-. pose proof (handle_push_thread id th _ _ p Hok Ep Epol) as Hok'.
    change (give id ?x (set_thread id ?t a)) with (set_thread id t (give id x a)). apply (thread_step_ok a _ id th); try done.
    + intros j Hj. unfold view_of. simpl. by rewrite lookup_insert_ne.
    + unfold view_of. simpl. by rewrite lookup_insert_eq.
Qed.

Lemma err_ok a id a' : api_ok a → api_step (OpErr id) a = Some (Ok a') → api_ok a'.
Proof.
  intros Ha Hstep. open_step Hstep. open_thread a id Hstep th Hid. destruct (th_phase th) eqn:Ep; try done.
  destruct (installed id a) eqn:Ei; [done|]. destruct (polled (th_req th)) eqn:Epol; [|done]. injection Hstep as <-.
  apply (thread_step_ok a _ id th); try done. rewrite Ei.
  apply (same_way_thread id th); try done; [rewrite <-Ei; by apply ao_threads|by rewrite Ep| |by unfold is_unsub; rewrite Ep].
  unfold on_way, in_hand. by rewrite Ep.
Qed.

Lemma gone_ok a id a' : api_ok a → api_step (OpGone id) a = Some (Ok a') → api_ok a'.
Proof.
  intros Ha Hstep. open_step Hstep. open_thread a id Hstep th Hid. destruct (th_phase th) eqn:Ep; try done.
  destruct (polled (th_req th)) eqn:Epol; [done|]. injection Hstep as <-. apply (thread_step_ok a _ id th); try done.
  apply (same_way_thread id th); try done; [by apply ao_threads|by rewrite Ep| |by unfold is_unsub; rewrite Ep].
  unfold on_way, in_hand. by rewrite Ep.
Qed.

Lemma end_ok a id a' : api_ok a → api_step (OpEnd id) a = Some (Ok a') → api_ok a'.
Proof.
  intros Ha Hstep. open_step Hstep. open_thread a id Hstep th Hid. destruct (th_phase th) eqn:Ep; try done.
  destruct (mu_free a); [|done]. injection Hstep as <-. pose proof (ao_threads a Ha id th Hid) as [Hsub Hinst Hph Hf Hk Hs Hw He].
  unfold phase_ok in Hph. rewrite Ep in Hph. destruct Hph as [Hi Hpol]. apply (thread_step_ok a _ id th); try done.
  - intros j Hj. unfold view_of. simpl. by rewrite lookup_delete_ne.
  - rewrite Hi in *. unfold view_of. simpl. rewrite lookup_delete_eq. constructor; try done.
    unfold on_way, in_hand in *. rewrite Ep in Hw. done.
Qed.

Lemma drain_ok a w id a' : api_ok a → api_step (OpDrain w id) a = Some (Ok a') → api_ok a'.
Proof.
  intros Ha Hstep. open_step Hstep. destruct (unsubscribing w id a) eqn:Hw; [|done]. open_thread a id Hstep th Hid.
  pose proof (ao_threads a Ha id th Hid) as Hok. pose proof (to_way _ _ _ _ Hok) as Hway. unfold on_way in Hway.
  apply Forall_app in Hway as [_ Hway]. simpl in Hway.
  assert (Hend : installed id a = None ∨ ending id a = true ∨ is_unsub th = true).
  { right. unfold ending. destruct w; simpl in *; [left; by rewrite Hw|left; by rewrite Hw, orb_true_r|right].
    rewrite Hid in Hw. unfold is_unsub. by destruct (th_phase th). }
  assert (Hst : th_phase th = ThStart → fa_filters a !! id = None).
  { intros Ep. pose proof (to_phase _ _ _ _ Hok) as Hx. unfold phase_ok in Hx. rewrite Ep in Hx. apply Hx. }
  destruct (th_inbox th) as [|p inbox] eqn:Ei.
  - destruct (fa_loop a) as [|i p rest|] eqn:El; [done| |done]. destruct (Z.eqb_spec i id) as [->|]; [|done]. injection Hstep as <-.
    assert (Hs : ∀ j, sends_to j (loop_sends (fa_loop a)) = if decide (id = j) then p :: sends_to j rest else sends_to j rest)
      by (intros j; rewrite El; apply sends_to_cons).
    apply (update_ok a _ id th th); try done.
    + intros j Hj. split; [done|]. unfold view_of. simpl. by rewrite Hs, loop_sends_rest, decide_False by congruence.
    + unfold view_of at 1. simpl. rewrite loop_sends_rest.
      apply (drained_thread id th th _ _ _ _ _ _ Hok); try done; [apply (to_filter _ _ _ _ Hok)| |].
      * intros Hi. pose proof (to_sends _ _ _ _ Hok Hi) as Hx. simpl in Hx. by rewrite Hs, decide_True in Hx.
      * rewrite Ei. simpl in *. rewrite sends_to_cons, decide_True in Hway by done. by inversion Hway.
  - assert (Hstep' : a' = set_thread id (set_th (th_phase th) inbox th) a) by (by destruct (fa_loop a); injection Hstep as <-). subst a'.
    apply (thread_step_ok a _ id th); try done.
    apply (drained_thread id th _ _ (view_of id a) _ _ _ _ Hok); try done.
    + apply (to_filter _ _ _ _ Hok).
    + apply (to_sends _ _ _ _ Hok).
    + by inversion Hway.
Qed.

Lemma poll_filter r f id fs its fs' :
  filter_ok r f → fs !! id = Some f → GetFilterChanges id fs = (its, fs') →
  ∃ f', its = Ok (stored f) ∧ fs' = <[id := f']> fs ∧ filter_ok r f' ∧ stored f' = [].
Proof.
  intros Hf Hid. unfold GetFilterChanges. rewrite Hid. unfold stored.
  destruct r; simpl in Hf; try done; destruct Hf as [-> He]; rewrite He; simpl; intros [= <- <-]; rewrite ?app_nil_r;
    eexists; split_and!; done.
Qed.

Lemma poll_ok a id a' : api_ok a → api_step (OpPoll id) a = Some (Ok a') → api_ok a'.
Proof.
  intros Ha Hstep. open_step Hstep. destruct (mu_free a); [|done]. destruct (fa_filters a !! id) as [f|] eqn:Ef.
  2: { unfold GetFilterChanges in Hstep. rewrite Ef in Hstep. injection Hstep as <-. by destruct a. }
  destruct (fa_threads a !! id) as [th|] eqn:Hid; [|by destruct (ao_none a Ha id Hid) as [Hx _]; rewrite Ef in Hx].
  pose proof (ao_threads a Ha id th Hid) as Hok. destruct (GetFilterChanges id (fa_filters a)) as [its fs] eqn:Eg.
  destruct (poll_filter (th_req th) f id (fa_filters a) its fs) as (f' & -> & -> & Hf' & Hst); [by apply (to_filter _ _ _ _ Hok)|done|done|].
  injection Hstep as <-. apply (update_ok a _ id th th); try done.
  - intros j Hj. split; [done|]. unfold view_of. simpl. by rewrite !lookup_insert_ne.
  - unfold view_of. simpl. rewrite !lookup_insert_eq. simpl. destruct Hok as [Hsub Hinst Hph Hf Hk Hs Hw He]. constructor; try done.
    + unfold phase_ok in *. destruct (th_phase th); try done. simpl in *. destruct Hph. by rewrite Ef in *.
    + by intros f0 [= <-].
    + intros Hi Hn Hu. specialize (He Hi Hn Hu). unfold expected, received in *. simpl in *. rewrite He, Ef, Hst. simpl. by rewrite <-app_assoc.
Qed.

Lemma uninstall_filter_ok a id a' : api_ok a → api_step (OpUninstallFilter id) a = Some (Ok a') → api_ok a'.
Proof.
  intros Ha Hstep. open_step Hstep. destruct (mu_free a); [|done]. destruct (fa_filters a !! id) as [f|] eqn:Ef; injection Hstep as <-; [|done].
  destruct (fa_threads a !! id) as [th|] eqn:Hid; [|by destruct (ao_none a Ha id Hid) as [Hx _]; rewrite Ef in Hx].
  pose proof (ao_threads a Ha id th Hid) as Hok. apply (update_ok a _ id th th); try done.
  - intros j Hj. split; [done|]. unfold view_of, ending, unsubscribing. simpl. rewrite lookup_delete_ne by done. do 2 f_equal.
    apply bool_decide_ext. set_solver.
  - unfold view_of. simpl. rewrite lookup_delete_eq.
    replace (ending id _) with true by (unfold ending, unsubscribing; simpl; by rewrite bool_decide_true by set_solver).
    apply (drained_thread id th th _ (view_of id a) _ _ _ _ Hok); try done; [by right; left|by apply (to_sends _ _ _ _ Hok)|].
    pose proof (to_way _ _ _ _ Hok) as Hway. unfold on_way in Hway. by apply Forall_app in Hway as [_ Hway].
Qed.

Lemma expire_ok a id a' : api_ok a → api_step (OpExpire id) a = Some (Ok a') → api_ok a'.
Proof.
  intros Ha Hstep. open_step Hstep. destruct (fa_filters a !! id) as [f|] eqn:Ef; simpl in Hstep; [|done]. injection Hstep as <-.
  destruct (fa_threads a !! id) as [th|] eqn:Hid; [|by destruct (ao_none a Ha id Hid) as [Hx _]; rewrite Ef in Hx].
  pose proof (ao_threads a Ha id th Hid) as Hok. apply (update_ok a _ id th th); try done.
  - intros j Hj. split; [done|]. unfold view_of. simpl. by rewrite lookup_insert_ne.
  - unfold view_of. simpl. rewrite lookup_insert_eq. destruct Hok as [Hsub Hinst Hph Hf Hk Hs Hw He]. constructor; try done.
    + unfold phase_ok in *. destruct (th_phase th); try done. simpl in *. destruct Hph. by rewrite Ef in *.
    + intros f0 [= <-]. specialize (Hf f Ef). by destruct (th_req th).
    + intros Hi Hn Hu. specialize (He Hi Hn Hu). unfold expected, received in *. simpl in *. by rewrite He, Ef.
Qed.

(** Steps of [timeoutLoop] that end no subscription. *)
Lemma timeout_ok a t : api_ok a → (∀ j, ending j (set_timeout t a) = ending j a) → api_ok (set_timeout t a).
Proof.
  intros [Hm Hi Ht Hn Hs] He. constructor; try done.
  - intros j th Hj. specialize (Ht j th Hj). unfold view_of in *. by rewrite He.
  - intros j Hj. rewrite He. by apply Hn.
Qed.

Lemma scan_ok a a' : api_ok a → api_step OpScan a = Some (Ok a') → api_ok a'.
Proof.
  intros Ha Hstep. open_step Hstep. destruct (fa_timeout a) as [|[|id ids]|] eqn:Et; try done; injection Hstep as <-.
  { apply timeout_ok; [done|]. intros j. unfold ending, unsubscribing. simpl. by rewrite Et. }
  assert (Hskip : api_ok (set_timeout (TScan ids) a)).
  { apply timeout_ok; [done|]. intros j. unfold ending, unsubscribing. simpl. by rewrite Et. }
  destruct (fa_filters a !! id) as [f|] eqn:Ef; [|done]. destruct (f_expired f); [|done].
  destruct (fa_threads a !! id) as [th|] eqn:Hid; [|by destruct (ao_none a Ha id Hid) as [Hx _]; rewrite Ef in Hx].
  pose proof (ao_threads a Ha id th Hid) as Hok. apply (update_ok a _ id th th); try done.
  - intros j Hj. split; [done|]. unfold view_of, ending, unsubscribing. simpl. rewrite Et. by destruct (Z.eqb_spec id j).
  - unfold view_of. simpl. replace (ending id _) with true by (unfold ending, unsubscribing; simpl; by rewrite Z.eqb_refl, orb_true_r).
    apply (drained_thread id th th _ (view_of id a) _ _ _ _ Hok); try done; [by right; left| | | |].
    + intros Ep. pose proof (to_phase _ _ _ _ Hok) as Hx. unfold phase_ok in Hx. rewrite Ep in Hx. apply Hx.
    + apply (to_filter _ _ _ _ Hok).
    + by apply (to_sends _ _ _ _ Hok).
    + pose proof (to_way _ _ _ _ Hok) as Hway. unfold on_way in Hway. by apply Forall_app in Hway as [_ Hway].
Qed.

Lemma stop_ok a a' : api_ok a → api_step OpStop a = Some (Ok a') → api_ok a'.
Proof.
  intros Ha Hstep. open_step Hstep. destruct (fa_loop a) eqn:El; try done. injection Hstep as <-.
  pose proof Ha as [Hm Hi Ht Hn Hs]. constructor; try done.
  - intros j th Hj. specialize (Ht j th Hj). unfold view_of in *. by rewrite El in Ht.
  - intros j Hj. by destruct (Hn j Hj) as (? & ? & _).
Qed.

Lemma api_step_ok op a a' : api_ok a → api_step op a = Some (Ok a') → api_ok a'.
Proof.
  intros Ha Hs. destruct op as [id r|id|ev sends| | |id|id|id|id|id|w id|w id|id|id|id|ids|].
  - exact (subscribe_ok a id r a' Ha Hs).
  - exact (register_filter_ok a id a' Ha Hs).
  - exact (event_ok a ev sends a' Ha Hs).
  - exact (send_ok a a' Ha Hs).
  - exact (stop_ok a a' Ha Hs).
  - exact (take_ok a id a' Ha Hs).
  - exact (handle_ok a id a' Ha Hs).
  - exact (err_ok a id a' Ha Hs).
  - exact (end_ok a id a' Ha Hs).
  - exact (gone_ok a id a' Ha Hs).
  - exact (drain_ok a w id a' Ha Hs).
  - exact (uninstall_ok a w id a' Ha Hs).
  - exact (poll_ok a id a' Ha Hs).
  - exact (uninstall_filter_ok a id a' Ha Hs).
  - exact (expire_ok a id a' Ha Hs).
  - open_step Hs. destruct (mu_free a) eqn:Em; [|done]. destruct (decide _); [|done]. injection Hs as <-.
    apply timeout_ok; [done|]. intros j. unfold ending, unsubscribing. simpl. unfold mu_free in Em. by destruct (fa_timeout a).
  - exact (scan_ok a a' Ha Hs).
Qed.

Lemma api_run_ok a : api_run a → api_ok a.
Proof. induction 1 as [|a a' op _ IH Hs]; [apply new_ok|by eapply api_step_ok]. Qed.

Lemma api_step_no_panic op a : api_ok a → api_step op a ≠ Some Panic.
Proof.
  intros Ha. destruct op as [id r|id|ev sends| | |id|id|id|id|id|w id|w id|id|id|id|ids|]; show_step; unfold step_thread; cycle 2.
  1: rewrite broadcast_spec by (intros t id f Hf; by apply (ao_index a Ha t id f)).
  all: try (repeat (match goal with |- context [mbind _ ?x] => destruct x | _ => case_match end; simpl; try done); done).
  - destruct (fa_loop a); try done. destruct (fa_threads a !! id); [done|]. destruct (request_sub id r) as [f| |] eqn:Er; try done.
    apply request_sub_id in Er as [_ Ht]. unfold install. destruct (ao_made a Ha _ Ht) as [m ->]. done.
Qed.

(** ** What the clients get *)

(** C17: while a subscription is installed and nobody ends it, what its client got by polling
    or by notifications, what the filter keeps for the next poll and what is on its way are
    together exactly what the events since its installation have for it: every matching log,
    hash or header once, in the order of the events.  No step of the goroutines panics. *)
Theorem subscriptions_exact a id t :
  api_run a → fa_threads a !! id = Some t → is_Some (installed id a) → ending id a = false → is_unsub t = false →
  let since := drop (default 0%nat (fa_since a !! id)) (fa_events a) in
  (since ≫= matched (th_sub t)) ≫= items (th_req t) =
    default [] (fa_out a !! id) ++ default [] (stored <$> fa_filters a !! id) ++ (on_way t (view_of id a) ≫= items (th_req t)) ∧
  (polled (th_req t) = true → th_phase t ≠ ThStart → is_Some (fa_filters a !! id)) ∧
  ∀ op, api_step op a ≠ Some Panic.
Proof.
  intros Ha%api_run_ok Ht [f Hi] He Hu since. pose proof (ao_threads a Ha id t Ht) as Hok.
  assert (Hi' : installed id a ≠ None) by (by rewrite Hi). split_and!.
  - exact (to_exact _ _ _ _ Hok Hi' He Hu).
  - intros Hp Hs. exact (to_kept _ _ _ _ Hok Hp Hi' He Hs).
  - intros op. by apply api_step_no_panic.
Qed.

(** ** The loop and its channels *)

(** Steps of the goroutines that receive, and of the loop that sends. *)
Definition receiving (op : api_op) : bool :=
  match op with OpRegister _ | OpSend | OpTake _ | OpHandle _ | OpDrain _ _ => true | _ => false end.

Inductive api_steps (P : api_op → Prop) : FilterAPI → FilterAPI → Prop :=
  | AS_refl a : api_steps P a a
  | AS_step a b c op : P op → api_step op a = Some (Ok b) → api_steps P b c → api_steps P a c.

Lemma api_steps_trans P a b c : api_steps P a b → api_steps P b c → api_steps P a c.
Proof. induction 1; [done|]. intros. eapply AS_step; eauto. Qed.

Lemma api_steps_ok P a b : api_ok a → api_steps P a b → api_ok b.
Proof. intros Ha Hs. induction Hs as [|a b c op _ Hs _ IH]; [done|]. apply IH. by eapply api_step_ok. Qed.

(** How far a goroutine is from its [select] with an empty channel. *)
Definition weight (t : thread) : nat := 2 * length (th_inbox t) + match th_phase t with ThStart | ThGot _ => 1 | _ => 0 end.

Lemma channel_step a id p rest t :
  api_ok a → fa_timeout a = TIdle → fa_loop a = LoopSend id p rest → fa_threads a !! id = Some t →
  ∃ op b, receiving op = true ∧ api_step op a = Some (Ok b) ∧ fa_timeout b = TIdle ∧
    (fa_loop b = loop_rest rest ∨ fa_loop b = fa_loop a ∧ ∃ t', fa_threads b !! id = Some t' ∧ weight t' < weight t)%nat.
Proof.
  intros Ha Et El Hid. pose proof (ao_threads a Ha id t Hid) as Hok. pose proof (to_phase _ _ _ _ Hok) as Hph.
  assert (Hmu : mu_free a = true) by (unfold mu_free; by rewrite Et).
  assert (Hi : installed id a ≠ None).
  { intros Hx. pose proof (to_sends _ _ _ _ Hok Hx) as Hs. simpl in Hs. rewrite El in Hs. simpl in Hs. by rewrite sends_to_cons, decide_True in Hs. }
  unfold phase_ok in Hph. unfold weight. destruct (th_phase t) as [| |q| | |] eqn:Ep.
  - destruct Hph as [Hp _]. unfold polled in Hp. destruct (request_filter (th_req t)) as [f|] eqn:Ef; [|done].
    exists (OpRegister id). eexists. split_and!; [done|show_step; unfold step_thread; rewrite Hid; simpl; by rewrite Ep, Ef, Hmu|done|].
    right. split; [done|]. eexists. split; [simpl; by rewrite lookup_insert_eq|]. simpl. lia.
  - destruct (th_inbox t) as [|q inbox] eqn:Ei.
    + assert (∃ t', receive p t = Some t') as [t' Er] by (unfold receive; rewrite Ep, Ei; case_decide; eauto).
      exists OpSend. eexists. split_and!; [done|show_step; rewrite El; unfold step_thread; rewrite Hid; simpl; by rewrite Er|done|by left].
    + exists (OpTake id). eexists. split_and!; [done|show_step; unfold step_thread; rewrite Hid; simpl; by rewrite Ep, Ei|done|].
      right. split; [done|]. eexists. split; [simpl; by rewrite lookup_insert_eq|]. simpl. lia.
  - exists (OpHandle id). destruct (polled (th_req t)) eqn:Epol.
    + eexists. split_and!; [done|show_step; unfold step_thread; rewrite Hid; simpl; by rewrite Ep, Epol, Hmu|by case_match|].
      right. split; [by case_match|]. exists (set_th ThSelect (th_inbox t) t).
      split; [case_match; simpl; by rewrite lookup_insert_eq|]. simpl. lia.
    + eexists. split_and!; [done|show_step; unfold step_thread; rewrite Hid; simpl; by rewrite Ep, Epol|done|].
      right. split; [done|]. eexists. split; [simpl; by rewrite lookup_insert_eq|]. simpl. lia.
  - by destruct Hph.
  - exists (OpDrain ByThread id). destruct (th_inbox t) as [|q inbox] eqn:Ei.
    + eexists. split_and!; [done|show_step; rewrite Hid, Ep; unfold step_thread; rewrite Hid; simpl; by rewrite Ei, El, Z.eqb_refl|done|by left].
    + eexists. split_and!; [done|show_step; rewrite Hid, Ep; unfold step_thread; rewrite Hid; simpl; by rewrite Ei|done|].
      right. split; [done|]. eexists. split; [simpl; by rewrite lookup_insert_eq|]. simpl. rewrite Ep. lia.
  - done.
Qed.

Lemma channel_sends w a id p rest t :
  (weight t < w)%nat → api_ok a → fa_timeout a = TIdle → fa_loop a = LoopSend id p rest → fa_threads a !! id = Some t →
  ∃ b, api_steps (λ op, receiving op = true) a b ∧ fa_timeout b = TIdle ∧ fa_loop b = loop_rest rest.
Proof.
  revert a t. induction w as [|w IH]; intros a t Hw Ha Et El Hid; [lia|].
  destruct (channel_step a id p rest t Ha Et El Hid) as (op & b & Hop & Hs & Etb & [Hb|[Hb (t' & Hid' & Hlt)]]).
  - exists b. split_and!; try done. eapply AS_step; [done|done|apply AS_refl].
  - destruct (IH b t') as (c & Hc & ?); [lia|by eapply api_step_ok|done|by rewrite Hb|done|]. exists c. split; [|done]. by eapply AS_step.
Qed.

(** C18: as long as the goroutine that drops filters is between its ticks, the sending of the
    loop can always be ended by the goroutines that receive: whatever they are doing, there
    are steps of theirs after which the loop takes the next event. *)
Theorem event_loop_finishes a :
  api_run a → fa_timeout a = TIdle → fa_loop a ≠ LoopStopped →
  ∃ b, api_steps (λ op, receiving op = true) a b ∧ fa_loop b = LoopSelect.
Proof.
  intros Ha%api_run_ok Et Hl. remember (length (loop_sends (fa_loop a))) as n eqn:En. revert a Ha Et Hl En.
  induction n as [|n IH]; intros a Ha Et Hl En; destruct (fa_loop a) as [|id p rest|] eqn:El; try done.
  - exists a. split; [apply AS_refl|done].
  - destruct (fa_threads a !! id) as [t|] eqn:Hid.
    2: { destruct (ao_none a Ha id Hid) as (_ & _ & Hs). rewrite El in Hs. simpl in Hs. by rewrite sends_to_cons, decide_True in Hs. }
    destruct (channel_sends (S (weight t)) a id p rest t) as (b & Hab & Etb & Elb); [lia|done..|].
    destruct (IH b) as (c & Hbc & Hc); [by apply (api_steps_ok _ _ _ Ha Hab)|done|rewrite Elb; by destruct rest as [|[]]| |].
    { rewrite Elb, loop_sends_rest. simpl in En. lia. }
    exists c. split; [|done]. by eapply api_steps_trans.
Qed.

(** The loop sends to a filter whose goroutine waits for the mutex, which the goroutine
    that drops filters holds while it waits for the loop. *)
Record deadlocked (i : Z) (ids : list Z) (id : Z) (p : payload) (rest : list (Z * payload)) (t : thread) (q : payload)
    (a : FilterAPI) : Prop := {
  dl_timeout : fa_timeout a = TUnsub i ids;
  dl_other : i ≠ id;
  dl_loop : fa_loop a = LoopSend id p rest;
  dl_thread : fa_threads a !! id = Some t;
  dl_polled : polled (th_req t) = true;
  dl_phase : th_phase t = ThGot q;
  dl_inbox : th_inbox t = [];
  dl_caller : id ∉ fa_uninstalling a;
}.

Lemma receive_blocked t q p : polled (th_req t) = true → th_phase t = ThGot q → th_inbox t = [] → receive p t = None.
Proof. intros Hp Ep Ei. unfold receive. rewrite Ep, Ei. simpl. destruct (th_req t); simpl; try done; destruct (decide _); try lia; done. Qed.

(** Nobody takes what the loop sends. *)
Lemma deadlocked_drain i ids id p rest t q a w : deadlocked i ids id p rest t q a → api_step (OpDrain w id) a = None.
Proof.
  intros [Et Hne El Hid Hp Ep Ei Hu]. show_step.
  assert (Hw : unsubscribing w id a = false); [|by rewrite Hw].
  destruct w; simpl.
  - by apply bool_decide_false.
  - rewrite Et. by apply Z.eqb_neq.
  - by rewrite Hid, Ep.
Qed.

Lemma deadlocked_step i ids id p rest t q a op b :
  deadlocked i ids id p rest t q a → api_step op a = Some (Ok b) → deadlocked i ids id p rest t q b.
Proof.
  intros Hd Hs. pose proof Hd as [Et Hne El Hid Hp Ep Ei Hu].
  assert (Hmu : mu_free a = false) by (unfold mu_free; by rewrite Et).
  assert (Hkeep : ∀ c, fa_timeout c = fa_timeout a → fa_loop c = fa_loop a → fa_uninstalling c = fa_uninstalling a →
            fa_threads c !! id = fa_threads a !! id → deadlocked i ids id p rest t q c).
  { intros c E1 E2 E3 E4. constructor; by rewrite ?E1, ?E2, ?E3, ?E4. }
  assert (Hother : ∀ j t', j ≠ id → deadlocked i ids id p rest t q (set_thread j t' a)) by (intros j t' Hj; apply Hkeep; try done; by apply lookup_insert_ne).
  destruct op as [j r|j|ev sends| | |j|j|j|j|j|w j|w j|j|j|j|js|]; open_step Hs; rewrite ?El, ?Hmu in Hs; try done;
    try (open_thread a j Hs tj Hj; destruct (decide (j = id)) as [->|Hji];
         [assert (tj = t) as -> by congruence; rewrite ?Ep, ?Ei, ?Hp, ?Hmu in Hs; simpl in Hs; done|rewrite ?Hmu in Hs]).
  - destruct (th_phase tj), (request_filter (th_req tj)); done.
  - unfold step_thread in Hs. rewrite Hid in Hs. simpl in Hs. by rewrite (receive_blocked t q) in Hs.
  - destruct (th_phase tj), (th_inbox tj); try done. injection Hs as <-. by apply Hother.
  - destruct (th_phase tj); try done. destruct (polled (th_req tj)); [done|]. injection Hs as <-. apply Hkeep; try done. by apply lookup_insert_ne.
  - destruct (th_phase tj), (installed j a); try done. destruct (polled (th_req tj)); [|done]. injection Hs as <-. by apply Hother.
  - by destruct (th_phase tj).
  - destruct (th_phase tj); try done. destruct (polled (th_req tj)); [done|]. injection Hs as <-. by apply Hother.
  - destruct (unsubscribing w j a) eqn:Hw; [|done]. open_thread a j Hs tj Hj. destruct (decide (j = id)) as [->|Hji].
    + exfalso. pose proof (deadlocked_drain _ _ _ _ _ _ _ _ w Hd) as Hn. open_step Hn. rewrite Hw in Hn.
      unfold step_thread in Hn. rewrite Hid in Hn. simpl in Hn. by rewrite Ei, El, Z.eqb_refl in Hn.
    + destruct (th_inbox tj); [by destruct (Z.eqb_spec id j)|]. injection Hs as <-. by apply Hother.
  - destruct (unsubscribing w j a); [|done]. open_thread a j Hs tj Hj. done.
  - destruct (fa_filters a !! j) as [f|]; simpl in Hs; [|done]. injection Hs as <-. by apply Hkeep.
  - by rewrite Et in Hs.
Qed.

Lemma deadlocked_for_ever P i ids id p rest t q a b :
  deadlocked i ids id p rest t q a → api_steps P a b → deadlocked i ids id p rest t q b.
Proof. intros Hd Hs. induction Hs as [|a b c op _ Hs _ IH]; [done|]. apply IH. by eapply deadlocked_step. Qed.

(** Two polled filters of blocks; the first expires, and a block comes while it is dropped. *)
Definition deadlock_header (n : Z) : EvmHeader := mkEvmHeader n [n] [] [] [] 0 [] 0 0.
Definition deadlock_ops : list api_op :=
  let h n := PHeader (EvmHeader_EthHeader (deadlock_header n)) in
  [OpSubscribe 1 NewBlockFilter'; OpRegister 1; OpSubscribe 2 NewBlockFilter'; OpRegister 2; OpExpire 1;
   OpEvent (EvBlock (deadlock_header 1)) [(1, h 1); (2, h 1)]; OpSend; OpSend; OpHandle 1;
   OpEvent (EvBlock (deadlock_header 2)) [(2, h 2); (1, h 2)]; OpTick [1; 2]; OpScan].

Fixpoint run_all (ops : list api_op) (a : FilterAPI) : option FilterAPI :=
  match ops with
  | [] => Some a
  | op :: ops' => match api_step op a with Some (Ok b) => run_all ops' b | _ => None end
  end.

Lemma run_all_run ops a b : api_run a → run_all ops a = Some b → api_run b.
Proof.
  revert a. induction ops as [|op ops IH]; intros a Ha Hr; simpl in Hr; [by injection Hr as <-|].
  destruct (api_step op a) as [[c| |]|] eqn:Es; try done. apply (IH c); [|done]. by eapply AR_step.
Qed.


Lemma deadlock_reached :
  ∃ a p rest t q, run_all deadlock_ops newFilterAPI = Some a ∧ deadlocked 1 [2] 2 p rest t q a.
Proof.
  assert (Hv : (λ a, (fa_timeout a, fa_loop a, (λ t, (polled (th_req t), th_phase t, th_inbox t)) <$> fa_threads a !! 2,
                      bool_decide (2 ∈ fa_uninstalling a))) <$> run_all deadlock_ops newFilterAPI =
    Some (TUnsub 1 [2], LoopSend 2 (PHeader (EvmHeader_EthHeader (deadlock_header 2))) [(1, PHeader (EvmHeader_EthHeader (deadlock_header 2)))],
          Some (true, ThGot (PHeader (EvmHeader_EthHeader (deadlock_header 1))), []), false)) by (vm_compute; reflexivity).
  destruct (run_all deadlock_ops newFilterAPI) as [a|]; [|discriminate]. injection Hv as Et El Eth Eu.
  destruct (fa_threads a !! 2) as [t|] eqn:Hid; [|discriminate]. injection Eth as Hp Ep Ei.
  eexists a, _, _, t, _. split; [reflexivity|]. by constructor; [..|apply bool_decide_eq_false in Eu].
Qed.

(** C19: the goroutine that drops filters can block the whole event system.  There is a run
    to a state in which three goroutines wait for each other: [timeoutLoop] has the mutex of
    the filters and waits in [Unsubscribe] of one filter for the event loop, the event loop
    waits to send to another filter, and the goroutine of that filter, with what it received
    before in hand, waits for the mutex.  From there on, whatever happens, the three stay
    where they are and none of them can take a step: [timeoutLoop] can neither hand over its
    request nor go on, the loop can neither send nor take an event nor end, nobody else takes
    what it sends, and the filter's goroutine cannot store what it has; and no client can
    subscribe, or register, poll or remove a filter. *)
Theorem filters_can_deadlock :
  ∃ a i ids j p rest t q, api_run a ∧ i ≠ j ∧
    fa_timeout a = TUnsub i ids ∧ fa_loop a = LoopSend j p rest ∧
    fa_threads a !! j = Some t ∧ th_phase t = ThGot q ∧ polled (th_req t) = true ∧
    ∀ b, api_steps (λ _, True) a b →
      fa_timeout b = TUnsub i ids ∧ fa_loop b = LoopSend j p rest ∧ fa_threads b !! j = Some t ∧
      (api_step (OpUninstall ByTimeout i) b = None ∧ api_step OpScan b = None) ∧
      (api_step OpSend b = None ∧ api_step OpStop b = None ∧ (∀ ev sends, api_step (OpEvent ev sends) b = None) ∧
       ∀ w, api_step (OpDrain w j) b = None) ∧
      (api_step (OpHandle j) b = None ∧ api_step (OpTake j) b = None ∧ api_step (OpErr j) b = None) ∧
      ∀ id, (∀ r, api_step (OpSubscribe id r) b = None) ∧ api_step (OpRegister id) b = None ∧
        api_step (OpPoll id) b = None ∧ api_step (OpUninstallFilter id) b = None.
Proof.
  destruct deadlock_reached as (a & p & rest & t & q & Hrun & Hd). exists a, 1, [2], 2, p, rest, t, q.
  split; [by apply (run_all_run deadlock_ops newFilterAPI); [apply AR_new|]|]. clear Hrun.
  do 6 (split; [apply Hd|]). intros b Hab. pose proof (deadlocked_for_ever _ _ _ _ _ _ _ _ _ _ Hd Hab) as Hb.
  pose proof Hb as [Et _ El Hid Hp Ep Ei _].
  assert (Hmu : mu_free b = false) by (unfold mu_free; by rewrite Et).
  split_and!; try done.
  - show_step. rewrite Et. unfold step_thread. rewrite El. by destruct (fa_threads b !! 1).
  - show_step. by rewrite Et.
  - show_step. rewrite El. unfold step_thread. rewrite Hid. simpl. by rewrite (receive_blocked t q).
  - show_step. by rewrite El.
  - intros ev sends. show_step. by rewrite El.
  - intros w. by apply (deadlocked_drain _ _ _ _ _ _ _ _ _ Hb).
  - show_step. unfold step_thread. rewrite Hid. simpl. by rewrite Ep, Hp, Hmu.
  - show_step. unfold step_thread. rewrite Hid. simpl. by rewrite Ep.
  - show_step. unfold step_thread. rewrite Hid. simpl. by rewrite Ep.
  - intros id. show_step. rewrite Hmu, El. split; [done|]. split; [|split; reflexivity].
    unfold step_thread. destruct (fa_threads b !! id) as [t'|]; simpl; [|done].
    by destruct (th_phase t'), (request_filter (th_req t')).
Qed.
End system.

(** ** A concrete run *)

Definition demo_log (n : Z) : evmLog := mkEvmLog [7] [] [n] n [] 0 [] 0 false.
Definition demo_th (tx : Transaction) : list Z := [tx_Nonce tx].
Definition demo_hh (h : EthHeader) : list Z := [eth_Number h].

(** A polled filter of logs has polled two of them, the third is in the hands of its
    goroutine, and the loop waits with the fourth. *)
Definition demo_api_ops : list api_op :=
  [OpSubscribe 1 (NewFilter no_query); OpRegister 1; OpEvent (EvLogs [demo_log 1; demo_log 2]) [(1, PLogs [demo_log 1; demo_log 2])];
   OpSend; OpHandle 1; OpPoll 1; OpEvent (EvLogs [demo_log 3]) [(1, PLogs [demo_log 3])]; OpSend;
   OpEvent (EvLogs [demo_log 4]) [(1, PLogs [demo_log 4])]].

Definition demo_api : FilterAPI := default newFilterAPI (run_all demo_th demo_hh demo_api_ops newFilterAPI).
Definition demo_thread : thread :=
  mkThread (mkSubscription 1 LogsSubscription no_query) (NewFilter no_query) (ThGot (PLogs [demo_log 3])) [].

Lemma demo_api_run : api_run demo_th demo_hh demo_api.
Proof.
  apply (run_all_run _ _ demo_api_ops newFilterAPI); [apply AR_new|]. unfold demo_api.
  assert (bool_decide (is_Some (run_all demo_th demo_hh demo_api_ops newFilterAPI)) = true) as Hs by (vm_compute; reflexivity).
  apply bool_decide_eq_true in Hs as [b Hb]. rewrite Hb. reflexivity.
Qed.

Lemma subscriptions_exact_witness :
  default [] (fa_out demo_api !! 1) = [ItLog (demo_log 1); ItLog (demo_log 2)] ∧
  (fa_events demo_api ≫= matched demo_th (th_sub demo_thread)) ≫= items demo_hh (NewFilter no_query) =
    default [] (fa_out demo_api !! 1) ++ default [] (stored <$> fa_filters demo_api !! 1) ++ [ItLog (demo_log 3); ItLog (demo_log 4)].
Proof.
  split; [vm_compute; reflexivity|].
  refine (proj1 (subscriptions_exact demo_th demo_hh demo_api 1 demo_thread demo_api_run _ _ _ _)).
  - vm_compute. reflexivity.
  - vm_compute. eexists. reflexivity.
  - vm_compute. reflexivity.
  - reflexivity.
Defined.

Lemma event_loop_finishes_witness :
  ∃ b, api_steps demo_th demo_hh (λ op, receiving op = true) demo_api b ∧ fa_loop b = LoopSelect.
Proof.
  apply (event_loop_finishes demo_th demo_hh demo_api demo_api_run).
  - vm_compute. reflexivity.
  - vm_compute. discriminate.
Defined.
