(* ===== verification/GenesisStore.v ===== *)
(** * Genesis files (zilionixx/genesisstore, utils/iodb, utils/ioread)

    A genesis is a store of tables in one key-value database.  A genesis file is a header, a
    hash and the compressed list of the database's entries, each with the lengths of its key
    and its value.  Writing and reading the file gives back the same store, for any reader
    that delivers the bytes in pieces; the hash is that of the list. *)

From stdpp Require Import sorting.
From S2P Require Import Prelude Cser Inter Heap Store Rules EvmChain Topics Genesis.

(** ** Readers and writers *)

Definition io_EOF : error := NewError "EOF".

(** [io.Reader]: at most as many bytes as the buffer has, with an error or not. *)
Class IoReader (R : Type) := { io_Read : nat → R → list Z * option error * R }.

(** A reader of a byte string: it gives the next bytes, at least one unless it is at the
    end, and no other error than that. *)
Class IoReaderLaws (R : Type) `{IoReader R} := {
  io_rest : R → list Z;
  io_Read_spec : ∀ n r c e r', io_Read n r = (c, e, r') →
    (length c <= n)%nat ∧ io_rest r = c ++ io_rest r' ∧ (e = None ∨ e = Some io_EOF ∧ io_rest r' = []) ∧
    (n ≠ 0%nat → e = None → c ≠ []);
}.

Class IoWriter (W : Type) := { io_Write : list Z → W → option error * W }.
Class IoWriterLaws (W : Type) `{IoWriter W} := {
  io_out : W → list Z;
  io_Write_spec : ∀ b w w', io_Write b w = (None, w') → io_out w' = io_out w ++ b;
}.

(** [bigendian] of the base library, for 32 bits. *)
Class BigEndian32 := { be_Uint32ToBytes : Z → list Z; be_BytesToUint32 : list Z → Z }.
Class BigEndian32Laws `{BigEndian32} := {
  be32_length : ∀ n, length (be_Uint32ToBytes n) = 4%nat;
  be32_roundtrip : ∀ n, is_u32 n → be_BytesToUint32 (be_Uint32ToBytes n) = n;
  be32_onto : ∀ b, length b = 4%nat → bytes_ok b → is_u32 (be_BytesToUint32 b) ∧ be_Uint32ToBytes (be_BytesToUint32 b) = b;
}.

(** [kvdb.Batch]: a put or the writing may fail. *)
Class Batches := {
  batch_Put : list Z → list Z → option error;
  batch_Write : list (list Z * list Z) → Table → option error;
  ValueSize : list (list Z * list Z) → Z;
  IdealBatchSize : Z;
}.

Section io.
Context {R : Type} `{IoReader R}.

(** [ReadAll]: until the buffer is full or there is an error. *)
Fixpoint ReadAll_loop (fuel : nat) (size : nat) (consumed : list Z) : Eff R (list Z) := λ r,
  match fuel with
  | O => (Panic, r)
  | S fuel' =>
      let '(c, err, r) := io_Read (size - length consumed) r in
      let consumed := consumed ++ c in
      if (length consumed =? size)%nat then (Ok consumed, r)
      else match err with Some e => (Err e, r) | None => ReadAll_loop fuel' size consumed r end
  end.

Definition ReadAll (size : nat) : Eff R (list Z) := ReadAll_loop (S size) size [].

Context `{BigEndian32} `{Batches}.

(** One entry: a key and a value, each after its length; [None] at the end of the file,
    which is only looked for before the length of a key. *)
Definition read_entry : Eff R (option (list Z * list Z)) := λ r,
  match ReadAll 4 r with
  | (Err e, r) => if bool_decide (e = io_EOF) then (Ok None, r) else (Err e, r)
  | (Panic, r) => (Panic, r)
  | (Ok lenB, r) =>
      (key ← ReadAll (Z.to_nat (be_BytesToUint32 lenB));
       lenB ← ReadAll 4;
       value ← ReadAll (Z.to_nat (be_BytesToUint32 lenB));
       mret (Some (key, value))) r
  end.

(** [Read]: what was written to the database stays there also when there is an error. *)
Fixpoint iodb_Read (fuel : nat) (batch : list (list Z * list Z)) (s : R * Table) : res unit * (R * Table) :=
  match fuel with
  | O => (Panic, s)
  | S fuel' =>
      let '(r, t) := s in
      match read_entry r with
      | (Panic, r) => (Panic, (r, t))
      | (Err e, r) => (Err e, (r, t))
      | (Ok None, r) =>
          match batch_Write batch t with
          | Some e => (Err e, (r, t))
          | None => (Ok tt, (r, write_batch batch t))
          end
      | (Ok (Some (key, value)), r) =>
          match batch_Put key value with
          | Some e => (Err e, (r, t))
          | None =>
              let batch := batch ++ [(key, value)] in
              if IdealBatchSize <? ValueSize batch then
                match batch_Write batch t with
                | Some e => (Err e, (r, t))
                | None => iodb_Read fuel' [] (r, write_batch batch t)
                end
              else iodb_Read fuel' batch (r, t)
          end
      end
  end.

Context {W : Type} `{IoWriter W}.

(** The four writes of an entry, up to the first error. *)
Definition write_entry (e : list Z * list Z) (w : W) : option error * W :=
  match io_Write (be_Uint32ToBytes (u32 (len e.1))) w with
  | (Some err, w) => (Some err, w)
  | (None, w) =>
      match io_Write e.1 w with
      | (Some err, w) => (Some err, w)
      | (None, w) =>
          match io_Write (be_Uint32ToBytes (u32 (len e.2))) w with
          | (Some err, w) => (Some err, w)
          | (None, w) => io_Write e.2 w
          end
      end
  end.

Fixpoint write_entries (es : list (list Z * list Z)) (w : W) : option error * W :=
  match es with
  | [] => (None, w)
  | e :: es' => match write_entry e w with (Some err, w) => (Some err, w) | (None, w) => write_entries es' w end
  end.

(** [Write]; the error of the iterator is not asked for. *)
Definition iodb_Write `{Kvdb} (t : Table) (w : W) : option error * W := write_entries (kv_NewIterator t [] []).1 w.
End io.

(** ** The format *)

Section format.
Context `{BigEndian32Laws}.

Definition encode_entry (e : list Z * list Z) : list Z :=
  be_Uint32ToBytes (u32 (len e.1)) ++ e.1 ++ be_Uint32ToBytes (u32 (len e.2)) ++ e.2.
Definition encode_entries (es : list (list Z * list Z)) : list Z := es ≫= encode_entry.

(** The lengths fit in their four bytes. *)
Definition entry_ok (e : list Z * list Z) : Prop := is_u32 (len e.1) ∧ is_u32 (len e.2).

Lemma write_entry_out {W} `{IoWriterLaws W} e (w w' : W) : write_entry e w = (None, w') → io_out w' = io_out w ++ encode_entry e.
Proof.
  unfold write_entry, encode_entry. destruct (io_Write _ w) as [[?|] w1] eqn:E1; [intros Hx; discriminate Hx|].
  destruct (io_Write _ w1) as [[?|] w2] eqn:E2; [intros Hx; discriminate Hx|].
  destruct (io_Write _ w2) as [[?|] w3] eqn:E3; [intros Hx; discriminate Hx|]. intros E4.
  rewrite (io_Write_spec _ _ _ E4), (io_Write_spec _ _ _ E3), (io_Write_spec _ _ _ E2), (io_Write_spec _ _ _ E1). by rewrite <-!app_assoc.
Qed.

Lemma write_entries_out {W} `{IoWriterLaws W} es (w w' : W) :
  write_entries es w = (None, w') → io_out w' = io_out w ++ encode_entries es.
Proof.
  revert w. induction es as [|e es IH]; intros w; simpl; [intros [= <-]; by rewrite app_nil_r|].
  destruct (write_entry e w) as [[?|] w1] eqn:E1; [intros Hx; discriminate Hx|]. intros Hw%IH. rewrite Hw, (write_entry_out _ _ _ E1).
  unfold encode_entries. simpl. by rewrite <-app_assoc.
Qed.

Context {R : Type} `{IoReaderLaws R}.

(** Reading a number of bytes, however they are delivered. *)
Lemma ReadAll_loop_spec fuel size consumed r :
  (length consumed <= size)%nat → (size - length consumed < fuel)%nat →
  ∃ x r', ReadAll_loop fuel size consumed r = (x, r') ∧
    ((size - length consumed <= length (io_rest r))%nat ∧ x = Ok (consumed ++ take (size - length consumed) (io_rest r)) ∧
       io_rest r' = drop (size - length consumed) (io_rest r) ∨
     (length (io_rest r) < size - length consumed)%nat ∧ x = Err io_EOF ∧ io_rest r' = []).
Proof.
  revert consumed r. induction fuel as [|fuel IH]; intros consumed r Hle Hf; [lia|]. simpl.
  destruct (io_Read (size - length consumed) r) as [[c err] r1] eqn:Er.
  destruct (io_Read_spec _ _ _ _ _ Er) as (Hc & Hrest & He & Hp). rewrite length_app.
  destruct (Nat.eqb_spec (length consumed + length c) size) as [Heq|Hne].
  - eexists _, _. split; [done|]. left. replace (size - length consumed)%nat with (length c) by lia.
    rewrite Hrest, length_app, take_app_length, drop_app_length. split_and!; [lia|done|done].
  - destruct He as [->|[-> Hend]].
    + destruct (IH (consumed ++ c) r1) as (x & r' & -> & Hx); [rewrite length_app; lia| |].
      { rewrite length_app. destruct c as [|b c]; [|simpl; lia]. exfalso. simpl in *. by apply Hp; [lia| |]. }
      exists x, r'. split; [done|]. rewrite length_app in Hx. rewrite Hrest, length_app.
      replace (size - length consumed)%nat with (length c + (size - (length consumed + length c)))%nat by lia.
      rewrite take_app_add, drop_app_add, app_assoc. destruct Hx as [(? & -> & ->)|(? & -> & ->)]; [left|right]; split_and!; try done; lia.
    + eexists _, _. split; [done|]. right. rewrite Hrest, Hend, app_nil_r. split_and!; try done. lia.
Qed.

Lemma ReadAll_spec size r :
  ∃ x r', ReadAll size r = (x, r') ∧
    ((size <= length (io_rest r))%nat ∧ x = Ok (take size (io_rest r)) ∧ io_rest r' = drop size (io_rest r) ∨
     (length (io_rest r) < size)%nat ∧ x = Err io_EOF ∧ io_rest r' = []).
Proof.
  destruct (ReadAll_loop_spec (S size) size [] r) as (x & r' & E & Hx); simpl; [lia..|]. exists x, r'. split; [done|].
  simpl in Hx. by rewrite Nat.sub_0_r in Hx.
Qed.

Lemma ReadAll_app b tail n r : length b = n → io_rest r = b ++ tail → ∃ r', ReadAll n r = (Ok b, r') ∧ io_rest r' = tail.
Proof.
  intros <- Hr. destruct (ReadAll_spec (length b) r) as (x & r' & E & Hx). rewrite Hr, length_app, take_app_length, drop_app_length in Hx.
  exists r'. destruct Hx as [(_ & -> & ?)|[? _]]; [done|lia].
Qed.

Lemma ReadAll_Ok n r b r' : ReadAll n r = (Ok b, r') → length b = n ∧ io_rest r = b ++ io_rest r'.
Proof.
  intros E. destruct (ReadAll_spec n r) as (x & r1 & E' & Hx). rewrite E in E'. injection E' as <- <-.
  destruct Hx as [(Hle & [= ->] & Hr)|(_ & ? & _)]; [|done]. rewrite length_take, Hr, take_drop. split; [lia|done].
Qed.

Lemma ReadAll_fails n r x r' : ReadAll n r = (x, r') → (∃ b, x = Ok b) ∨ x = Err io_EOF ∧ (length (io_rest r) < n)%nat ∧ io_rest r' = [].
Proof.
  intros E. destruct (ReadAll_spec n r) as (x1 & r1 & E' & Hx). rewrite E in E'. injection E' as <- <-.
  destruct Hx as [(_ & -> & _)|(? & -> & ?)]; eauto.
Qed.

Lemma len_nat {A} (l : list A) : length l = Z.to_nat (len l).
Proof. unfold len. lia. Qed.

Lemma read_entry_complete e tail r :
  entry_ok e → io_rest r = encode_entry e ++ tail → ∃ r', read_entry r = (Ok (Some e), r') ∧ io_rest r' = tail.
Proof.
  intros [Hk Hv] Hr. unfold encode_entry in Hr. rewrite <-!app_assoc in Hr. unfold read_entry.
  destruct (ReadAll_app _ _ 4 r (be32_length _) Hr) as (r1 & -> & Hr1). cbv [mbind Eff_bind].
  rewrite be32_roundtrip by (by rewrite u32_id). rewrite u32_id by done.
  destruct (ReadAll_app _ _ (Z.to_nat (len e.1)) r1 (len_nat _) Hr1) as (r2 & -> & Hr2).
  destruct (ReadAll_app _ _ 4 r2 (be32_length _) Hr2) as (r3 & -> & Hr3).
  rewrite be32_roundtrip by (by rewrite u32_id). rewrite u32_id by done.
  destruct (ReadAll_app _ _ (Z.to_nat (len e.2)) r3 (len_nat _) Hr3) as (r4 & -> & Hr4). exists r4. split; [|done]. by destruct e.
Qed.

(** A number read from the file is the length that it was written for. *)
Lemma be32_length_of lenB (b : list Z) :
  length lenB = 4%nat → bytes_ok lenB → length b = Z.to_nat (be_BytesToUint32 lenB) → is_u32 (len b) ∧ lenB = be_Uint32ToBytes (u32 (len b)).
Proof.
  intros Hl Hb Hlen. destruct (be32_onto lenB Hl Hb) as [Hu E]. assert (El : len b = be_BytesToUint32 lenB).
  { unfold len, is_u32 in *. lia. }
  rewrite El. split; [done|]. by rewrite u32_id.
Qed.

Lemma read_entry_sound r x r' :
  bytes_ok (io_rest r) → read_entry r = (x, r') →
  match x with
  | Ok None => (length (io_rest r) < 4)%nat ∧ io_rest r' = []
  | Ok (Some e) => entry_ok e ∧ io_rest r = encode_entry e ++ io_rest r'
  | Err err => err = io_EOF ∧ (4 <= length (io_rest r))%nat
  | Panic => False
  end.
Proof.
  intros Hb. unfold read_entry. destruct (ReadAll 4 r) as [x1 r1] eqn:E1.
  destruct (ReadAll_fails _ _ _ _ E1) as [[lenK ->]|(-> & Hlt & Hr1)]; [|rewrite bool_decide_true by done; intros [= <- <-]; done].
  destruct (ReadAll_Ok _ _ _ _ E1) as [Hl1 Hr1]. assert (Hge : (4 <= length (io_rest r))%nat) by (rewrite Hr1, length_app; lia).
  cbv [mbind Eff_bind]. destruct (ReadAll (Z.to_nat (be_BytesToUint32 lenK)) r1) as [x2 r2] eqn:E2.
  destruct (ReadAll_fails _ _ _ _ E2) as [[key ->]|(-> & _)]; [|intros [= <- <-]; done].
  destruct (ReadAll 4 r2) as [x3 r3] eqn:E3. destruct (ReadAll_fails _ _ _ _ E3) as [[lenV ->]|(-> & _)]; [|intros [= <- <-]; done].
  destruct (ReadAll (Z.to_nat (be_BytesToUint32 lenV)) r3) as [x4 r4] eqn:E4.
  destruct (ReadAll_fails _ _ _ _ E4) as [[value ->]|(-> & _)]; [|intros [= <- <-]; done]. intros [= <- <-].
  destruct (ReadAll_Ok _ _ _ _ E2) as [Hl2 Hr2]. destruct (ReadAll_Ok _ _ _ _ E3) as [Hl3 Hr3]. destruct (ReadAll_Ok _ _ _ _ E4) as [Hl4 Hr4].
  unfold bytes_ok in Hb. rewrite Hr1, Hr2, Hr3, Hr4 in Hb. rewrite !Forall_app in Hb. destruct Hb as (HbK & _ & HbV & _).
  destruct (be32_length_of lenK key Hl1 HbK Hl2) as [Hk EK]. destruct (be32_length_of lenV value Hl3 HbV Hl4) as [Hv EV].
  split; [done|]. unfold encode_entry. simpl. rewrite <-EK, <-EV, Hr1, Hr2, Hr3, Hr4. by rewrite <-!app_assoc.
Qed.

Context `{Batches}.
(** A database without failures. *)
Hypothesis put_ok : ∀ k v, batch_Put k v = None.
Hypothesis write_ok : ∀ b t, batch_Write b t = None.

Lemma write_batch_app b c t : write_batch (b ++ c) t = write_batch c (write_batch b t).
Proof. unfold write_batch. by rewrite foldl_app. Qed.

(** Every entry is written, whatever the sizes of the batches. *)
Lemma iodb_Read_complete es tail fuel batch r t :
  Forall entry_ok es → (length tail < 4)%nat → bytes_ok tail → io_rest r = encode_entries es ++ tail → (length es < fuel)%nat →
  ∃ r', iodb_Read fuel batch (r, t) = (Ok tt, (r', write_batch (batch ++ es) t)).
Proof.
  intros Hes Ht Htb. revert fuel batch r t. induction Hes as [|e es He Hes IH]; intros fuel batch r t Hr Hf; (destruct fuel as [|fuel]; [simpl in Hf; lia|]).
  - cbn [iodb_Read]. destruct (read_entry r) as [x r'] eqn:E. simpl in Hr. pose proof (read_entry_sound r x r') as Hs. rewrite Hr in Hs.
    specialize (Hs Htb E). destruct x as [[e|]|err|]; [|exists r'; rewrite write_ok, app_nil_r; done| |done].
    + destruct Hs as [_ Hs]. exfalso. apply (f_equal length) in Hs. unfold encode_entry in Hs. rewrite !length_app, be32_length in Hs. lia.
    + destruct Hs as [_ Hs]. lia.
  - cbn [iodb_Read]. unfold encode_entries in Hr. simpl in Hr. rewrite <-app_assoc in Hr.
    destruct (read_entry_complete e _ r He Hr) as (r1 & -> & Hr1). destruct e as [key value]. rewrite put_ok. simpl in Hf.
    destruct (_ <? _).
    + rewrite write_ok. destruct (IH fuel [] r1 (write_batch (batch ++ [(key, value)]) t)) as [r' ->]; [done|lia|]. exists r'.
      by rewrite <-write_batch_app, <-app_assoc.
    + destruct (IH fuel (batch ++ [(key, value)]) r1 t) as [r' ->]; [done|lia|]. exists r'. by rewrite <-app_assoc.
Qed.

(** What is accepted is a list of entries, and nothing after it but a beginning of a length. *)
Lemma iodb_Read_sound fuel batch r t x r' t' :
  bytes_ok (io_rest r) → (length (io_rest r) < fuel)%nat → iodb_Read fuel batch (r, t) = (x, (r', t')) →
  match x with
  | Ok _ => ∃ es tail, io_rest r = encode_entries es ++ tail ∧ Forall entry_ok es ∧ (length tail < 4)%nat ∧ t' = write_batch (batch ++ es) t
  | Err e => e = io_EOF
  | Panic => False
  end.
Proof.
  revert batch r t. induction fuel as [|fuel IH]; intros batch r t Hb Hf; [lia|]. cbn [iodb_Read].
  destruct (read_entry r) as [y r1] eqn:E. pose proof (read_entry_sound r y r1 Hb E) as Hs. destruct y as [[[key value]|]|err|].
  - destruct Hs as [He Hr]. rewrite put_ok.
    assert (Hb1 : bytes_ok (io_rest r1)) by (unfold bytes_ok in *; rewrite Hr in Hb; by apply Forall_app in Hb as [_ ?]).
    assert (Hf1 : (length (io_rest r1) < fuel)%nat) by (rewrite Hr, length_app in Hf; unfold encode_entry in Hf; rewrite !length_app, be32_length in Hf; lia).
    assert (Hstep : ∀ b t0, iodb_Read fuel b (r1, t0) = (x, (r', t')) → write_batch b t0 = write_batch (batch ++ [(key, value)]) t →
      match x with
      | Ok _ => ∃ es tail, io_rest r = encode_entries es ++ tail ∧ Forall entry_ok es ∧ (length tail < 4)%nat ∧ t' = write_batch (batch ++ es) t
      | Err e => e = io_EOF
      | Panic => False
      end).
    { intros b t0 Hrun Ew. specialize (IH b r1 t0 Hb1 Hf1 Hrun). destruct x as [u|err|]; [|done|done].
      destruct IH as (es & tail & Hr1 & Hes & Htl & ->). exists ((key, value) :: es), tail. split_and!; [|by constructor|done|].
      - rewrite Hr, Hr1. unfold encode_entries. simpl. by rewrite <-app_assoc.
      - rewrite write_batch_app, Ew, <-write_batch_app, <-app_assoc. done. }
    destruct (_ <? _); [rewrite write_ok|]; intros Hrun; by apply (Hstep _ _ Hrun).
  - rewrite write_ok. intros [= <- <- <-]. destruct Hs as [Hlt _]. exists [], (io_rest r). split_and!; try done. by rewrite app_nil_r.
  - intros [= <- <- <-]. by destruct Hs.
  - done.
Qed.
End format.

(** ** The file *)

Definition fileHeader : list Z := [0x64; 0x1b; 0x00; 0xac].
Definition fileVersion : list Z := [0x00; 0x01; 0x00; 0x01].

Definition ErrFileHeader : error := NewError "expected a genesis file, mismatched file header".
Definition ErrFileVersion : error := NewError "wrong version of genesis file".

(** [compress/gzip]: a reader over a reader, and a writer that passes on what is left when it
    is closed. *)
Class Gzip (R W G : Type) := {
  gz_NewReader : R → res R;
  gz_NewWriter : W → G;
  gz_Close : G → option error * W;
}.

Class GzipLaws (R W G : Type) `{Gzip R W G} `{IoReaderLaws R} `{IoWriterLaws W} `{IoWriterLaws G} := {
  gz_compress : list Z → list Z;
  gz_base : G → list Z;
  gz_NewReader_spec : ∀ r b, io_rest r = gz_compress b → ∃ r', gz_NewReader r = Ok r' ∧ io_rest r' = b;
  gz_NewWriter_spec : ∀ w, io_out (gz_NewWriter w) = [] ∧ gz_base (gz_NewWriter w) = io_out w;
  gz_Write_spec : ∀ b g, gz_base (io_Write b g).2 = gz_base g;
  gz_Close_spec : ∀ g w, gz_Close g = (None, w) → io_out w = gz_base g ++ gz_compress (io_out g);
}.

Section file.
Context `{BigEndian32} `{Kvdb} {R W G : Type} `{IoReader R} `{IoWriter W} `{IoWriter G} `{Gzip R W G} `{Batches}.
Variable sha256 : list Z → list Z.

(** [Hash]: the hasher is given the entries piece by piece. *)
Definition Store_Hash (t : Table) : list Z := BytesToHash (sha256 ((kv_NewIterator t [] []).1 ≫= encode_entry)).

Definition Export (t : Table) (g : G) : option error * G := iodb_Write t g.

Definition Import (fuel : nat) (s : R * Table) : res unit * (R * Table) := iodb_Read fuel [] s.

Definition checkFileHeader : Eff R unit :=
  headerAndVersion ← ReadAll (length fileHeader + length fileVersion);
  if negb (bool_decide (take (length fileHeader) headerAndVersion = fileHeader)) then eff_err ErrFileHeader
  else if negb (bool_decide (drop (length fileHeader) headerAndVersion = fileVersion)) then eff_err ErrFileVersion
  else mret tt.

(** The hash in the header of the file; [readGenesisStore] then reads the rest. *)
Definition OpenGenesisStore : Eff R (list Z) := _ ← checkFileHeader; ReadAll 32.

Definition readGenesisStore (fuel : nat) (s : R * Table) : res unit * (R * Table) :=
  match gz_NewReader s.1 with
  | Ok r => Import fuel (r, s.2)
  | Err e => (Err e, s)
  | Panic => (Panic, s)
  end.

(** The error of the deferred [Close] is dropped. *)
Definition WriteGenesisStore (rawWriter : W) (t : Table) : option error * W :=
  match io_Write (fileHeader ++ fileVersion) rawWriter with
  | (Some e, w) => (Some e, w)
  | (None, w) =>
      match io_Write (Store_Hash t) w with
      | (Some e, w) => (Some e, w)
      | (None, w) => let '(err, g) := Export t (gz_NewWriter w) in (err, (gz_Close g).2)
      end
  end.
End file.

(** ** A file holds its store *)

Section roundtrip.
Context `{BigEndian32Laws} `{KvdbLaws} {R W G : Type} `{GzipLaws R W G} `{Batches}.
Variable sha256 : list Z → list Z.
Hypothesis put_ok : ∀ k v, batch_Put k v = None.
Hypothesis write_ok : ∀ b t, batch_Write b t = None.

Definition entries (t : Table) : list (list Z * list Z) := (kv_NewIterator t [] []).1.

Lemma entries_elem t k v : (k, v) ∈ entries t ↔ t !! k = Some v.
Proof.
  unfold entries. rewrite kv_iter_elem. split; [by intros (? & _)|]. intros Hk. split_and!; [done|apply prefix_nil|]. by destruct k.
Qed.

Lemma entries_NoDup t : NoDup (entries t).*1.
Proof.
  assert (Hs : StronglySorted (λ a b, bytes_cmp a.1 b.1 = Lt) (entries t)) by apply kv_iter_sorted.
  induction Hs as [|e l _ IH He]; [constructor|]. rewrite fmap_cons. constructor; [|done].
  intros ([k v] & E & Hin)%list_elem_of_fmap. rewrite Forall_forall in He. specialize (He _ Hin). simpl in *. rewrite E in He.
  assert (Hrefl : ∀ x, bytes_cmp x x = Eq) by (induction x as [|z x IHx]; simpl; [done|by rewrite Z.compare_refl]).
  by rewrite Hrefl in He.
Qed.

Lemma list_to_map_entries t : (list_to_map (entries t) : Table) = t.
Proof.
  apply map_eq. intros k. destruct (t !! k) as [v|] eqn:Ek.
  - apply elem_of_list_to_map_1; [apply entries_NoDup|]. by apply entries_elem.
  - apply not_elem_of_list_to_map_1. intros ([k' v] & -> & Hin)%list_elem_of_fmap. apply entries_elem in Hin. simpl in *. congruence.
Qed.

Lemma write_batch_map es t : NoDup es.*1 → write_batch es t = (list_to_map es : Table) ∪ t.
Proof.
  revert t. induction es as [|[k v] es IH]; intros t Hnd; [simpl; by rewrite (left_id_L ∅ (∪))|].
  rewrite fmap_cons in Hnd. apply NoDup_cons in Hnd as [Hk Hnd]. change (write_batch ((k, v) :: es) t) with (write_batch es (<[k := v]> t)).
  rewrite IH by done. simpl. rewrite <-insert_union_l. apply map_eq. intros j. simpl in Hk.
  destruct (decide (j = k)) as [->|Hne].
  - rewrite lookup_insert_eq. rewrite lookup_union_r by (by apply not_elem_of_list_to_map_1). by rewrite lookup_insert_eq.
  - rewrite (lookup_insert_ne (_ ∪ _)) by done. by rewrite !lookup_union, lookup_insert_ne.
Qed.

Lemma encode_entry_inj e1 e2 t1 t2 :
  entry_ok e1 → entry_ok e2 → encode_entry e1 ++ t1 = encode_entry e2 ++ t2 → e1 = e2 ∧ t1 = t2.
Proof.
  intros [Hk1 Hv1] [Hk2 Hv2]. unfold encode_entry. rewrite <-!app_assoc. intros E.
  assert (Hlen : ∀ a b : list Z, is_u32 (len a) → is_u32 (len b) → be_Uint32ToBytes (u32 (len a)) = be_Uint32ToBytes (u32 (len b)) → length a = length b).
  { intros a b Ha Hb Eb. apply (f_equal be_BytesToUint32) in Eb. rewrite !u32_id, !be32_roundtrip in Eb by done. unfold len in Eb. lia. }
  apply app_inj_1 in E as [E1 E]; [|by rewrite !be32_length]. apply Hlen in E1; [|done..].
  apply app_inj_1 in E as [Ek E]; [|done]. apply app_inj_1 in E as [E2 E]; [|by rewrite !be32_length]. apply Hlen in E2; [|done..].
  apply app_inj_1 in E as [Ev E]; [|done]. destruct e1, e2. simpl in *. by subst.
Qed.

Lemma encode_entries_inj es1 es2 : Forall entry_ok es1 → Forall entry_ok es2 → encode_entries es1 = encode_entries es2 → es1 = es2.
Proof.
  assert (Hne : ∀ e t, [] ≠ encode_entry e ++ t).
  { intros e t E. apply (f_equal length) in E. unfold encode_entry in E. rewrite !length_app, be32_length in E. simpl in E. lia. }
  intros Hes1. revert es2. induction Hes1 as [|e1 es1 He1 _ IH]; intros [|e2 es2] Hes2 E; [done|by destruct (Hne _ _ E)|by destruct (Hne _ _ (eq_sym E))|].
  inversion Hes2 as [|? ? He2 Hes2']; subst. unfold encode_entries in E. simpl in E.
  apply encode_entry_inj in E as [-> E]; [|done..]. f_equal. by apply IH.
Qed.

Definition table_fits (t : Table) : Prop := map_Forall (λ k v, is_u32 (len k) ∧ is_u32 (len v)) t.

Lemma entries_ok t : table_fits t → Forall entry_ok (entries t).
Proof. intros Ht. apply Forall_forall. intros [k v] Hin%entries_elem. by apply (Ht k v). Qed.

(** Different stores have different hashes, unless the hash function collides. *)
Lemma hash_binds_store t1 t2 :
  table_fits t1 → table_fits t2 → Store_Hash sha256 t1 = Store_Hash sha256 t2 →
  t1 = t2 ∨ ∃ x y, x ≠ y ∧ BytesToHash (sha256 x) = BytesToHash (sha256 y).
Proof.
  intros Hes1 Hes2 E. unfold Store_Hash in E. fold (entries t1) in E. fold (entries t2) in E.
  destruct (decide (encode_entries (entries t1) = encode_entries (entries t2))) as [Eq|Hne].
  - left. apply encode_entries_inj in Eq; [|by apply entries_ok..]. by rewrite <-(list_to_map_entries t1), Eq, list_to_map_entries.
  - right. by exists (encode_entries (entries t1)), (encode_entries (entries t2)).
Qed.

Lemma BytesToHash_length b : length (BytesToHash b) = 32%nat.
Proof. unfold BytesToHash. rewrite length_app, length_replicate, length_drop. lia. Qed.

Lemma write_entries_base es (g g' : G) e : write_entries es g = (e, g') → gz_base g' = gz_base g.
Proof.
  assert (Hone : ∀ x (h h' : G) e', write_entry x h = (e', h') → gz_base h' = gz_base h).
  { intros x h h' e'. unfold write_entry.
    pose proof (gz_Write_spec (be_Uint32ToBytes (u32 (len x.1))) h) as E1. destruct (io_Write _ h) as [[?|] h1]; simpl in E1; [intros [= _ <-]; done|].
    pose proof (gz_Write_spec x.1 h1) as E2. destruct (io_Write _ h1) as [[?|] h2]; simpl in E2; [intros [= _ <-]; congruence|].
    pose proof (gz_Write_spec (be_Uint32ToBytes (u32 (len x.2))) h2) as E3. destruct (io_Write _ h2) as [[?|] h3]; simpl in E3; [intros [= _ <-]; congruence|].
    pose proof (gz_Write_spec x.2 h3) as E4. intros E. rewrite E in E4. simpl in E4. congruence. }
  revert g. induction es as [|x es IH]; intros g; simpl; [by intros [= _ <-]|].
  destruct (write_entry x g) as [[?|] g1] eqn:E1; [intros [= _ <-]; by apply (Hone _ _ _ _ E1)|].
  intros Hw. rewrite (IH _ Hw). by apply (Hone _ _ _ _ E1).
Qed.

Lemma WriteGenesisStore_out (w w' : W) t :
  (∀ g : G, (gz_Close g).1 = None) → WriteGenesisStore (G := G) (R := R) sha256 w t = (None, w') →
  io_out w' = io_out w ++ fileHeader ++ fileVersion ++ Store_Hash sha256 t ++ gz_compress (encode_entries (entries t)).
Proof.
  intros Hclose. unfold WriteGenesisStore. destruct (io_Write (fileHeader ++ fileVersion) w) as [[?|] w1] eqn:E1; [intros Hx; discriminate Hx|].
  destruct (io_Write (Store_Hash sha256 t) w1) as [[?|] w2] eqn:E2; [intros Hx; discriminate Hx|].
  destruct (Export t (gz_NewWriter w2)) as [err g] eqn:Eg. intros [= -> <-]. destruct (gz_NewWriter_spec w2) as [Hin Hbase].
  unfold Export, iodb_Write in Eg. fold (entries t) in Eg. pose proof (write_entries_out _ _ _ Eg) as Hout. rewrite Hin in Hout. simpl in Hout.
  pose proof (write_entries_base _ _ _ _ Eg) as Hb. rewrite Hbase in Hb.
  specialize (Hclose g). destruct (gz_Close g) as [e w3] eqn:Ec. simpl in *. subst e. rewrite (gz_Close_spec _ _ Ec), Hb, Hout.
  rewrite (io_Write_spec _ _ _ E2), (io_Write_spec _ _ _ E1). by rewrite <-!app_assoc.
Qed.

Lemma OpenGenesisStore_spec r h tail :
  length h = 32%nat → io_rest r = fileHeader ++ fileVersion ++ h ++ tail → ∃ r', OpenGenesisStore r = (Ok h, r') ∧ io_rest r' = tail.
Proof.
  intros Hh Hr. rewrite app_assoc in Hr. destruct (ReadAll_app (fileHeader ++ fileVersion) (h ++ tail) 8 r eq_refl Hr) as (r1 & E1 & Hr1).
  destruct (ReadAll_app h tail 32 r1 Hh Hr1) as (r2 & E2 & Hr2). exists r2. split; [|done]. unfold OpenGenesisStore, checkFileHeader.
  cbv [mbind Eff_bind]. change (length fileHeader + length fileVersion)%nat with 8%nat. by rewrite E1.
Qed.

(** C5: a genesis file holds its store: what is written to a file and read from it, by any
    reader that delivers its bytes in whatever pieces, is the hash of the store and, read
    into a store, all entries of the written one over those that were there. *)
Theorem genesis_file_roundtrip (w w' : W) t r :
  table_fits t → (∀ g : G, (gz_Close g).1 = None) → io_out w = [] →
  WriteGenesisStore (G := G) (R := R) sha256 w t = (None, w') → io_rest r = io_out w' →
  ∃ r1, OpenGenesisStore r = (Ok (Store_Hash sha256 t), r1) ∧
    ∀ fuel t0, (length (entries t) < fuel)%nat → ∃ r2, readGenesisStore (W := W) (G := G) fuel (r1, t0) = (Ok tt, (r2, t ∪ t0)).
Proof.
  intros Hfit Hclose Hw Hwrite Hr. rewrite (WriteGenesisStore_out _ _ _ Hclose Hwrite), Hw in Hr. simpl app in Hr at 1.
  destruct (OpenGenesisStore_spec r (Store_Hash sha256 t) (gz_compress (encode_entries (entries t)))) as (r1 & E1 & Hr1);
    [apply BytesToHash_length|by rewrite Hr|].
  exists r1. split; [done|]. intros fuel t0 Hf. destruct (gz_NewReader_spec _ _ Hr1) as (r2 & E2 & Hr2).
  destruct (iodb_Read_complete put_ok write_ok (entries t) [] fuel [] r2 t0) as [r3 E3];
    [by apply entries_ok|simpl; lia|constructor|by rewrite app_nil_r|done|].
  exists r3. unfold readGenesisStore, Import. simpl fst. simpl snd. rewrite E2, E3. simpl app. rewrite write_batch_map by apply entries_NoDup.
  by rewrite list_to_map_entries.
Qed.

End roundtrip.

(** ** The tables *)

(** The prefixes of the tables: c, b, a, s, M, d and m. *)
Definition T_Rules : Z := 99.
Definition T_Blocks : Z := 98.
Definition T_EvmAccounts : Z := 97.
Definition T_EvmStorage : Z := 115.
Definition T_RawEvmItems : Z := 77.
Definition T_Delegations : Z := 100.
Definition T_Metadata : Z := 109.

Record Metadata := mkMetadata {
  md_Validators : list GValidator;
  md_FirstEpoch : Z;
  md_Time : Z;
  md_PrevEpochTime : Z;
  md_ExtraData : list Z;
  md_DriverOwner : list Z;
  md_TotalSupply : Z;
}.

(** RLP for the values of the tables. *)
Class GenesisCodec (EventID : Type) := {
  enc_Account : Account → res (list Z); dec_Account : list Z → res Account;
  enc_Delegation : Delegation → res (list Z); dec_Delegation : list Z → res Delegation;
  enc_Block : GBlock EventID → res (list Z); dec_Block : list Z → res (GBlock EventID);
  enc_Metadata : Metadata → res (list Z); dec_Metadata : list Z → res Metadata;
  enc_Rules : Rules → res (list Z); dec_Rules : list Z → res Rules;
}.

Class GenesisCodecLaws (EventID : Type) `{GenesisCodec EventID} := {
  codec_Account : ∀ x b, enc_Account x = Ok b → dec_Account b = Ok x;
  codec_Delegation : ∀ x b, enc_Delegation x = Ok b → dec_Delegation b = Ok x;
  codec_Block : ∀ x b, enc_Block x = Ok b → dec_Block b = Ok x;
}.

(** [idx.ValidatorID] and [idx.Block] as bytes: four and eight. *)
Definition ValidatorID_Bytes `{BigEndian32} (v : Z) : list Z := be_Uint32ToBytes v.
Definition BytesToValidatorID `{BigEndian32} (b : list Z) : Z := be_BytesToUint32 b.

(** Keys in a table of the database. *)
Definition in_table (p : Z) (k : list Z) : list Z := p :: k.

Section tables.
Context {EventID : Type} `{GenesisCodec EventID} `{BigEndian32} `{BigEndian} `{Kvdb}.
Variable sha256 : list Z → list Z.

(** [s.table.X.Put]: an error stops the node. *)
Definition table_Put (p : Z) (k v : list Z) (t : Table) : res Table :=
  match kv_Put (in_table p k) v t with (None, t') => Ok t' | (Some _, _) => Panic end.

Definition table_Get (p : Z) (k : list Z) (t : Table) : res (option (list Z)) := crit (kv_Get t (in_table p k)).

(** The entries of a table, without its prefix; the error of the iterator is not asked for. *)
Definition table_entries (p : Z) (t : Table) : list (list Z * list Z) :=
  (λ e : list Z * list Z, (drop 1 e.1, e.2)) <$> (kv_NewIterator t [p] []).1.

(** [rlp.Set] and [rlp.Get] *)
Definition Set_rlp {V} (enc : V → res (list Z)) (p : Z) (k : list Z) (v : V) (t : Table) : res Table :=
  buf ← crit (enc v); table_Put p k buf t.
Definition Get_rlp {V} (dec : list Z → res V) (p : Z) (k : list Z) (t : Table) : res (option V) :=
  buf ← table_Get p k t;
  match buf with None => Ok None | Some b => v ← crit (dec b); Ok (Some v) end.

Definition SetEvmAccount (addr : list Z) (acc : Account) (t : Table) : res Table := Set_rlp enc_Account T_EvmAccounts addr acc t.
Definition GetEvmAccount (addr : list Z) (t : Table) : res Account :=
  w ← Get_rlp dec_Account T_EvmAccounts addr t; Ok (default (mkAccount [] 0 0 false) w).

Definition SetEvmState (addr key value : list Z) (t : Table) : res Table := table_Put T_EvmStorage (addr ++ key) value t.
Definition GetEvmState (addr key : list Z) (t : Table) : res (list Z) :=
  valBytes ← table_Get T_EvmStorage (addr ++ key) t;
  Ok (match valBytes with None | Some [] => EvmChain.zeroHash | Some b => BytesToHash b end).

Definition SetDelegation (addr : list Z) (toValidatorID : Z) (delegation : Delegation) (t : Table) : res Table :=
  Set_rlp enc_Delegation T_Delegations (addr ++ ValidatorID_Bytes toValidatorID) delegation t.
Definition GetDelegation (addr : list Z) (toValidatorID : Z) (t : Table) : res Delegation :=
  w ← Get_rlp dec_Delegation T_Delegations (addr ++ ValidatorID_Bytes toValidatorID) t; Ok (default (mkDelegation 0 0 0 0 0 0 0) w).

Definition SetBlock (index : Z) (block : GBlock EventID) (t : Table) : res Table :=
  Set_rlp enc_Block T_Blocks (be_Uint64ToBytes index) block t.
Definition SetRawEvmItem (key value : list Z) (t : Table) : res Table := table_Put T_RawEvmItems key value t.

Definition SetMetadata (metadata : Metadata) (t : Table) : res Table := Set_rlp enc_Metadata T_Metadata [109] metadata t.
Definition GetMetadata (t : Table) : res Metadata :=
  m ← Get_rlp dec_Metadata T_Metadata [109] t; match m with Some x => Ok x | None => Panic end.
Definition SetRules (cfg : Rules) (t : Table) : res Table := Set_rlp enc_Rules T_Rules [99] cfg t.
Definition GetRules (t : Table) : res Rules :=
  c ← Get_rlp dec_Rules T_Rules [99] t; match c with Some x => Ok x | None => Panic end.

(** A slice of a key that is too short is a panic. *)
Definition split20 (k : list Z) : res (list Z * list Z) := if (length k <? 20)%nat then Panic else Ok (take 20 k, drop 20 k).

(** The iterators, as the lists of what they call their argument with. *)
Fixpoint accounts_ForEach (es : list (list Z * list Z)) : res (list (list Z * Account)) :=
  match es with
  | [] => Ok []
  | (k, v) :: es' => acc ← crit (dec_Account v); rest ← accounts_ForEach es'; Ok ((BytesToAddress k, acc) :: rest)
  end.

Fixpoint storage_ForEach (es : list (list Z * list Z)) : res (list (list Z * list Z * list Z)) :=
  match es with
  | [] => Ok []
  | (k, v) :: es' =>
      '(addr, key) ← split20 k;
      rest ← storage_ForEach es';
      Ok ((BytesToAddress addr, BytesToHash key, BytesToHash v) :: rest)
  end.

Fixpoint delegations_ForEach (es : list (list Z * list Z)) : res (list (list Z * Z * Delegation)) :=
  match es with
  | [] => Ok []
  | (k, v) :: es' =>
      '(addr, to) ← split20 k;
      delegation ← crit (dec_Delegation v);
      rest ← delegations_ForEach es';
      Ok ((BytesToAddress addr, BytesToValidatorID to, delegation) :: rest)
  end.

Fixpoint blocks_ForEach (es : list (list Z * list Z)) : res (list (Z * GBlock EventID)) :=
  match es with
  | [] => Ok []
  | (k, v) :: es' => block ← crit (dec_Block v); rest ← blocks_ForEach es'; Ok ((be_BytesToUint64 k, block) :: rest)
  end.

(** [GetGenesis], with its iterators run. *)
Definition GetGenesis (t : Table) : res (Genesis EventID) :=
  metadata ← GetMetadata t;
  rules ← GetRules t;
  accounts ← accounts_ForEach (table_entries T_EvmAccounts t);
  storage ← storage_ForEach (table_entries T_EvmStorage t);
  delegations ← delegations_ForEach (table_entries T_Delegations t);
  blocks ← blocks_ForEach (table_entries T_Blocks t);
  Ok (mkGenesis accounts storage delegations blocks (table_entries T_RawEvmItems t) (md_Validators metadata) (md_FirstEpoch metadata)
        (md_PrevEpochTime metadata) (md_Time metadata) (md_ExtraData metadata) (md_TotalSupply metadata) (md_DriverOwner metadata) rules
        (Store_Hash sha256 t)).
End tables.

(** ** The tables are maps *)

Section refinement.
Context `{KvdbLaws}.
Context {K V : Type} (p : Z) (key : K → list Z) (dec : list Z → res V) (valid : K → Prop).
Hypothesis key_inj : ∀ j k, valid j → valid k → key j = key k → j = k.

(** A table holds a map, given as what it has for each valid key, and nothing else. *)
Record table_holds (m : K → option V) (t : Table) : Prop := {
  th_some : ∀ k v, valid k → m k = Some v → ∃ b, t !! in_table p (key k) = Some b ∧ dec b = Ok v;
  th_none : ∀ k, valid k → m k = None → t !! in_table p (key k) = None;
  th_only : ∀ b v, t !! in_table p b = Some v → ∃ k, valid k ∧ b = key k ∧ is_Some (m k);
}.

Lemma table_holds_put m t k v b :
  table_holds m t → (∀ j, Decision (j = k)) → valid k → dec b = Ok v →
  ∀ m', (∀ j, valid j → j ≠ k → m' j = m j) → m' k = Some v →
  ∃ t', table_Put p (key k) b t = Ok t' ∧ table_holds m' t' ∧ ∀ q x, q ≠ p → t' !! in_table q x = t !! in_table q x.
Proof.
  intros [Hs Hn Ho] Hdec Hk Hb m' Hm Hmk. unfold table_Put. rewrite kv_Put_ok. eexists. split; [done|]. split.
  - constructor.
    + intros j w Hj Hw. destruct (Hdec j) as [->|Hne].
      * exists b. rewrite lookup_insert_eq. split; [done|congruence].
      * rewrite lookup_insert_ne by (intros [= ?]; by apply Hne, key_inj). rewrite Hm in Hw by done. by apply Hs.
    + intros j Hj Hw. destruct (Hdec j) as [->|Hne]; [congruence|].
      rewrite lookup_insert_ne by (intros [= ?]; by apply Hne, key_inj). apply Hn; [done|]. by rewrite <-Hm.
    + intros c w [[[= <-] _]|[Hne Hc]]%lookup_insert_Some; [exists k; rewrite Hmk; eauto|].
      destruct (Ho c w Hc) as (j & Hj & -> & Hmj). exists j. split; [done|]. split; [done|]. destruct (Hdec j) as [->|Hjk]; [by rewrite Hmk|].
      by rewrite Hm.
  - intros q x Hq. rewrite lookup_insert_ne; [done|]. intros [= ? _]. congruence.
Qed.

(** Writing to another table leaves it as it is. *)
Lemma table_holds_other m t t' :
  table_holds m t → (∀ x, t' !! in_table p x = t !! in_table p x) → table_holds m t'.
Proof. intros [Hs Hn Ho] E. constructor; [intros k v; rewrite E; apply Hs|intros k; rewrite E; apply Hn|intros b v; rewrite E; apply Ho]. Qed.

Lemma table_get m t k : table_holds m t → valid k → Get_rlp dec p (key k) t = Ok (m k).
Proof.
  intros Ht Hk. unfold Get_rlp, table_Get. rewrite kv_Get_ok. simpl. destruct (m k) as [v|] eqn:E.
  - destruct (th_some m t Ht k v Hk E) as (b & -> & Hb). by rewrite Hb.
  - by rewrite (th_none m t Ht k Hk E).
Qed.

(** Its entries, each once and in the order of the keys, are the map. *)
Lemma table_entries_elem t k v : (k, v) ∈ table_entries p t ↔ t !! in_table p k = Some v.
Proof.
  unfold table_entries. rewrite list_elem_of_fmap. split.
  - intros ([k' v'] & [= -> ->] & Hin). apply kv_iter_elem in Hin as (Hl & [x ->] & _). simpl. by rewrite drop_0.
  - intros Hl. exists (p :: k, v). split; [simpl; by rewrite drop_0|]. apply kv_iter_elem. split_and!; [done|by exists k|].
    simpl. rewrite Z.compare_refl. by destruct k.
Qed.

Lemma table_entries_sorted t : StronglySorted (λ a b, bytes_cmp a.1 b.1 = Lt) (table_entries p t).
Proof.
  unfold table_entries. pose proof (kv_iter_sorted t [p] []) as Hs.
  assert (Hp : Forall (λ e, ∃ k, e.1 = p :: k) (kv_NewIterator t [p] []).1).
  { apply Forall_forall. intros [k v] Hin. apply kv_iter_elem in Hin as (_ & [x Hx] & _). by exists x. }
  induction Hs as [|e l Hs IH He]; [constructor|]. inversion Hp as [|? ? [x Ex] Hp']; subst. simpl. constructor; [by apply IH|].
  apply Forall_fmap. rewrite Forall_forall in *. intros e' Hin. destruct (Hp' e' Hin) as [y Ey]. specialize (He e' Hin). simpl.
  rewrite Ex, Ey in *. simpl in *. by rewrite Z.compare_refl, !drop_0 in *.
Qed.
End refinement.

(** ** The store *)

Section store.
Context {EventID : Type} `{GenesisCodecLaws EventID} `{BigEndian32Laws} `{BigEndianLaws} `{KvdbLaws}.
Variable sha256 : list Z → list Z.

Definition is_addr (a : list Z) : Prop := length a = 20%nat.
Definition is_hash (h : list Z) : Prop := length h = 32%nat.

(** A store holds a genesis: partial functions for its tables. *)
Record GenesisData := mkGenesisData {
  gd_accounts : list Z → option Account;
  gd_storage : list Z * list Z → option (list Z);
  gd_delegations : list Z * Z → option Delegation;
  gd_blocks : Z → option (GBlock EventID);
}.

Definition storage_key (k : list Z * list Z) : list Z := k.1 ++ k.2.
Definition delegation_key (k : list Z * Z) : list Z := k.1 ++ ValidatorID_Bytes k.2.

(** Values of the storage are hashes as they are. *)
Definition dec_hash (b : list Z) : res (list Z) := if (length b =? 32)%nat then Ok b else Err (NewError "hash").

Record store_holds (d : GenesisData) (t : Table) : Prop := {
  sh_accounts : table_holds T_EvmAccounts id dec_Account is_addr (gd_accounts d) t;
  sh_storage : table_holds T_EvmStorage storage_key dec_hash (λ k, is_addr k.1 ∧ is_hash k.2) (gd_storage d) t;
  sh_delegations : table_holds T_Delegations delegation_key dec_Delegation (λ k, is_addr k.1 ∧ is_u32 k.2) (gd_delegations d) t;
  sh_blocks : table_holds T_Blocks be_Uint64ToBytes dec_Block is_u64 (gd_blocks d) t;
}.

Lemma storage_key_inj j k :
  is_addr j.1 ∧ is_hash j.2 → is_addr k.1 ∧ is_hash k.2 → storage_key j = storage_key k → j = k.
Proof.
  intros [Hj _] [Hk _] E. unfold storage_key in E. apply app_inj_1 in E as [E1 E2]; [|by rewrite Hj, Hk]. destruct j, k. simpl in *. by subst.
Qed.

Lemma delegation_key_inj j k :
  is_addr j.1 ∧ is_u32 j.2 → is_addr k.1 ∧ is_u32 k.2 → delegation_key j = delegation_key k → j = k.
Proof.
  intros [Hj Hj2] [Hk Hk2] E. unfold delegation_key in E. apply app_inj_1 in E as [E1 E2]; [|by rewrite Hj, Hk]. destruct j, k. simpl in *.
  unfold ValidatorID_Bytes in E2. apply (f_equal be_BytesToUint32) in E2. rewrite !be32_roundtrip in E2 by done. by subst.
Qed.

Lemma block_key_inj j k : is_u64 j → is_u64 k → be_Uint64ToBytes j = be_Uint64ToBytes k → j = k.
Proof. intros Hj Hk E. apply (f_equal be_BytesToUint64) in E. by rewrite !be_roundtrip in E. Qed.

(** Every iterator gives what its table holds. *)
Definition lists {K V} (valid : K → Prop) (m : K → option V) (l : list (K * V)) : Prop :=
  NoDup l.*1 ∧ ∀ k v, (k, v) ∈ l ↔ valid k ∧ m k = Some v.

(** One call for each entry. *)
Lemma foreach_lists {K V} (p : Z) (key : K → list Z) (dec : list Z → res V) (valid : K → Prop) (m : K → option V) (t : Table)
    (unkey : list Z → K) (l : list (K * V)) :
  (∀ j k, valid j → valid k → key j = key k → j = k) → (∀ k, valid k → unkey (key k) = k) → table_holds p key dec valid m t →
  Forall2 (λ e x, unkey e.1 = x.1 ∧ dec e.2 = Ok x.2) (table_entries p t) l → lists valid m l.
Proof.
  intros Hinj Hun Ht Hl.
  assert (Hents : ∀ b v, (b, v) ∈ table_entries p t → ∃ k w, valid k ∧ b = key k ∧ m k = Some w ∧ dec v = Ok w).
  { intros b v Hin. apply table_entries_elem in Hin. destruct (th_only _ _ _ _ _ _ Ht b v Hin) as (k & Hk & -> & [w Hw]).
    destruct (th_some _ _ _ _ _ _ Ht k w Hk Hw) as (b' & Hb' & Hd). assert (v = b') as -> by congruence. by exists k, w. }
  split.
  - assert (Hfst : l.*1 = (λ e : list Z * list Z, unkey e.1) <$> table_entries p t).
    { clear Hents. induction Hl as [|e x es l [E _] _ IH]; [done|]. rewrite !fmap_cons, E. by f_equal. }
    rewrite Hfst. pose proof (table_entries_sorted p t) as Hs. revert Hents. clear Hl Hfst. induction Hs as [|e es Hs IH He]; intros Hents; [constructor|].
    simpl. constructor; [|apply IH; intros b v Hin; apply Hents; by right]. intros ([b v] & E & Hin)%list_elem_of_fmap. simpl in E.
    destruct e as [b0 v0]. simpl in E. destruct (Hents b0 v0) as (k0 & w0 & Hk0 & -> & _); [by left|].
    destruct (Hents b v) as (k & w & Hk & -> & _); [by right|]. rewrite !Hun in E by done. subst k0.
    rewrite Forall_forall in He. specialize (He _ Hin). simpl in He.
    assert (Hrefl : ∀ x, bytes_cmp x x = Eq) by (induction x as [|z x IHx]; simpl; [done|by rewrite Z.compare_refl]). by rewrite Hrefl in He.
  - intros k v. split.
    + intros Hin. apply (Forall2_flip _ _ _) in Hl. destruct (proj1 (list_elem_of_lookup _ _) Hin) as [i Hi].
      destruct (Forall2_lookup_l _ _ _ _ _ Hl Hi) as ([b w] & Hb & E1 & E2). simpl in *. apply list_elem_of_lookup_2 in Hb.
      destruct (Hents b w Hb) as (k' & w' & Hk' & -> & Hm & Hd). rewrite Hun in E1 by done. subst k'. split; [done|congruence].
    + intros [Hk Hm]. destruct (th_some _ _ _ _ _ _ Ht k v Hk Hm) as (b & Hb & Hd). apply table_entries_elem in Hb.
      destruct (proj1 (list_elem_of_lookup _ _) Hb) as [i Hi]. destruct (Forall2_lookup_l _ _ _ _ _ Hl Hi) as ([k' v'] & Hi' & E1 & E2).
      simpl in *. rewrite Hun in E1 by done. subst k'. rewrite Hd in E2. injection E2 as <-. by apply list_elem_of_lookup_2 in Hi'.
Qed.

(** An entry that the table holds is decoded. *)
Lemma holds_decodes {K V} (p : Z) (key : K → list Z) (dec : list Z → res V) valid m t b v :
  table_holds p key dec valid m t → (b, v) ∈ table_entries p t → ∃ k w, valid k ∧ b = key k ∧ dec v = Ok w.
Proof.
  intros Ht Hin%table_entries_elem. destruct (th_only _ _ _ _ _ _ Ht b v Hin) as (k & Hk & -> & [w Hw]).
  destruct (th_some _ _ _ _ _ _ Ht k w Hk Hw) as (b' & Hb' & Hd). exists k, w. split_and!; try done. congruence.
Qed.

Lemma accounts_spec m t :
  table_holds T_EvmAccounts id dec_Account is_addr m t →
  ∃ l, accounts_ForEach (table_entries T_EvmAccounts t) = Ok l ∧ lists is_addr m l.
Proof.
  intros Ht. assert (Hl : ∃ l, accounts_ForEach (table_entries T_EvmAccounts t) = Ok l ∧
    Forall2 (λ e x, BytesToAddress e.1 = x.1 ∧ dec_Account e.2 = Ok x.2) (table_entries T_EvmAccounts t) l).
  { pose proof (λ b v, holds_decodes _ _ _ _ _ _ b v Ht) as Hd. induction (table_entries T_EvmAccounts t) as [|[b v] es IH]; [by exists []|].
    destruct (Hd b v) as (k & w & _ & _ & Hw); [by left|]. destruct IH as (l & El & Hl); [intros; apply Hd; by right|].
    eexists. simpl. rewrite Hw, El. split; [done|]. by constructor. }
  destruct Hl as (l & El & Hl). exists l. split; [done|]. refine (foreach_lists _ id _ _ _ _ _ _ _ _ Ht Hl); [done|].
  intros k Hk. simpl. unfold BytesToAddress, is_addr in *. by rewrite Hk, drop_0, Hk.
Qed.

Lemma blocks_spec m t :
  table_holds T_Blocks be_Uint64ToBytes dec_Block is_u64 m t →
  ∃ l, blocks_ForEach (table_entries T_Blocks t) = Ok l ∧ lists is_u64 m l.
Proof.
  intros Ht. assert (Hl : ∃ l, blocks_ForEach (table_entries T_Blocks t) = Ok l ∧
    Forall2 (λ e x, be_BytesToUint64 e.1 = x.1 ∧ dec_Block e.2 = Ok x.2) (table_entries T_Blocks t) l).
  { pose proof (λ b v, holds_decodes _ _ _ _ _ _ b v Ht) as Hd. induction (table_entries T_Blocks t) as [|[b v] es IH]; [by exists []|].
    destruct (Hd b v) as (k & w & _ & _ & Hw); [by left|]. destruct IH as (l & El & Hl); [intros; apply Hd; by right|].
    eexists. simpl. rewrite Hw, El. split; [done|]. by constructor. }
  destruct Hl as (l & El & Hl). exists l. split; [done|]. refine (foreach_lists _ _ _ _ _ _ _ _ block_key_inj _ Ht Hl).
  intros k Hk. by apply be_roundtrip.
Qed.

Lemma split20_app a b : is_addr a → split20 (a ++ b) = Ok (a, b).
Proof.
  intros Ha. unfold split20, is_addr in *. rewrite length_app, Ha. simpl. by rewrite take_app_length', drop_app_length'.
Qed.

Lemma addr_bytes a : is_addr a → BytesToAddress a = a.
Proof. intros Ha. unfold BytesToAddress, is_addr in *. by rewrite Ha, drop_0, Ha. Qed.
Lemma hash_bytes h : is_hash h → BytesToHash h = h.
Proof. intros Hh. unfold BytesToHash, is_hash in *. by rewrite Hh, drop_0, Hh. Qed.

Lemma storage_spec m t :
  table_holds T_EvmStorage storage_key dec_hash (λ k, is_addr k.1 ∧ is_hash k.2) m t →
  ∃ l, storage_ForEach (table_entries T_EvmStorage t) = Ok l ∧ lists (λ k, is_addr k.1 ∧ is_hash k.2) m l.
Proof.
  intros Ht. set (unkey := λ k : list Z, (take 20 k, drop 20 k)).
  assert (Hun : ∀ k, is_addr k.1 ∧ is_hash k.2 → unkey (storage_key k) = k).
  { intros [a h] [Ha _]. unfold unkey, storage_key, is_addr in *. simpl in *. by rewrite take_app_length', drop_app_length'. }
  assert (Hl : ∃ l, storage_ForEach (table_entries T_EvmStorage t) = Ok l ∧
    Forall2 (λ e x, unkey e.1 = x.1 ∧ dec_hash e.2 = Ok x.2) (table_entries T_EvmStorage t) l).
  { pose proof (λ b v, holds_decodes _ _ _ _ _ _ b v Ht) as Hd. induction (table_entries T_EvmStorage t) as [|[b v] es IH]; [by exists []|].
    destruct (Hd b v) as ([a h] & w & [Ha Hh] & -> & Hw); [by left|]. destruct IH as (l & El & Hl); [intros; apply Hd; by right|].
    eexists. unfold storage_key. simpl in *. rewrite split20_app, El by done. simpl. split; [done|]. constructor; [|done]. simpl.
    rewrite addr_bytes, hash_bytes by done. split; [by apply (Hun (a, h))|]. unfold dec_hash in *.
    destruct (Nat.eqb_spec (length v) 32); [|done]. by rewrite hash_bytes. }
  destruct Hl as (l & El & Hl). exists l. split; [done|]. exact (foreach_lists _ _ _ _ _ _ _ _ storage_key_inj Hun Ht Hl).
Qed.

Lemma delegations_spec m t :
  table_holds T_Delegations delegation_key dec_Delegation (λ k, is_addr k.1 ∧ is_u32 k.2) m t →
  ∃ l, delegations_ForEach (table_entries T_Delegations t) = Ok l ∧ lists (λ k, is_addr k.1 ∧ is_u32 k.2) m l.
Proof.
  intros Ht. set (unkey := λ k : list Z, (take 20 k, BytesToValidatorID (drop 20 k))).
  assert (Hun : ∀ k, is_addr k.1 ∧ is_u32 k.2 → unkey (delegation_key k) = k).
  { intros [a n] [Ha Hn]. unfold unkey, delegation_key, is_addr, ValidatorID_Bytes, BytesToValidatorID in *. simpl in *.
    by rewrite take_app_length', drop_app_length', be32_roundtrip. }
  assert (Hl : ∃ l, delegations_ForEach (table_entries T_Delegations t) = Ok l ∧
    Forall2 (λ e x, unkey e.1 = x.1 ∧ dec_Delegation e.2 = Ok x.2) (table_entries T_Delegations t) l).
  { pose proof (λ b v, holds_decodes _ _ _ _ _ _ b v Ht) as Hd. induction (table_entries T_Delegations t) as [|[b v] es IH]; [by exists []|].
    destruct (Hd b v) as ([a n] & w & [Ha Hn] & -> & Hw); [by left|]. destruct IH as (l & El & Hl); [intros; apply Hd; by right|].
    eexists. unfold delegation_key. simpl in *. rewrite split20_app by done. simpl. rewrite Hw. simpl. rewrite El. split; [done|]. constructor; [|done].
    simpl. rewrite addr_bytes by done. split; [|done]. pose proof (Hun (a, n) (conj Ha Hn)) as E. unfold unkey, delegation_key in E. simpl in E.
    injection E as E1 E2. unfold unkey. simpl. rewrite E1, E2. unfold BytesToValidatorID, ValidatorID_Bytes in *. by rewrite be32_roundtrip. }
  destruct Hl as (l & El & Hl). exists l. split; [done|]. exact (foreach_lists _ _ _ _ _ _ _ _ delegation_key_inj Hun Ht Hl).
Qed.

Definition upd {K V} `{EqDecision K} (k : K) (v : V) (m : K → option V) : K → option V := λ j, if decide (j = k) then Some v else m j.

(** A table after a value was set in it, and the other tables. *)
Lemma set_table {K V} `{EqDecision K} (p : Z) (key : K → list Z) (enc : V → res (list Z)) (dec : list Z → res V) (valid : K → Prop) m t k v b :
  (∀ j k, valid j → valid k → key j = key k → j = k) → table_holds p key dec valid m t → valid k → enc v = Ok b → dec b = Ok v →
  ∃ t', Set_rlp enc p (key k) v t = Ok t' ∧ table_holds p key dec valid (upd k v m) t' ∧ ∀ q x, q ≠ p → t' !! in_table q x = t !! in_table q x.
Proof.
  intros Hinj Ht Hk He Hd. unfold Set_rlp. rewrite He. simpl.
  destruct (table_holds_put p key dec valid Hinj m t k v b Ht _ Hk Hd (upd k v m)) as (t' & -> & Ht' & Ho); unfold upd.
  - intros j _ Hj. by rewrite decide_False.
  - by rewrite decide_True.
  - by exists t'.
Qed.

(** The store of a genesis is one map for each of its tables.  A set changes the map of
    its table at its key and nothing else, a get answers from the map, with the zero value
    where there is nothing, and the iterators that [GetGenesis] hands out give exactly the
    maps, each key once. *)
Theorem genesis_store_refines d t :
  store_holds d t →
  (∀ a x b, is_addr a → enc_Account x = Ok b →
     ∃ t', SetEvmAccount a x t = Ok t' ∧ store_holds (mkGenesisData (upd a x (gd_accounts d)) (gd_storage d) (gd_delegations d) (gd_blocks d)) t') ∧
  (∀ a k v, is_addr a → is_hash k → is_hash v →
     ∃ t', SetEvmState a k v t = Ok t' ∧ store_holds (mkGenesisData (gd_accounts d) (upd (a, k) v (gd_storage d)) (gd_delegations d) (gd_blocks d)) t') ∧
  (∀ a n x b, is_addr a → is_u32 n → enc_Delegation x = Ok b →
     ∃ t', SetDelegation a n x t = Ok t' ∧ store_holds (mkGenesisData (gd_accounts d) (gd_storage d) (upd (a, n) x (gd_delegations d)) (gd_blocks d)) t') ∧
  (∀ n x b, is_u64 n → enc_Block x = Ok b →
     ∃ t', SetBlock n x t = Ok t' ∧ store_holds (mkGenesisData (gd_accounts d) (gd_storage d) (gd_delegations d) (upd n x (gd_blocks d))) t') ∧
  (∀ a, is_addr a → GetEvmAccount a t = Ok (default (mkAccount [] 0 0 false) (gd_accounts d a))) ∧
  (∀ a k, is_addr a → is_hash k → GetEvmState a k t = Ok (default EvmChain.zeroHash (gd_storage d (a, k)))) ∧
  (∀ a n, is_addr a → is_u32 n → GetDelegation a n t = Ok (default (mkDelegation 0 0 0 0 0 0 0) (gd_delegations d (a, n)))) ∧
  ∀ g, GetGenesis sha256 t = Ok g →
    lists is_addr (gd_accounts d) (g_Accounts g) ∧ lists (λ k, is_addr k.1 ∧ is_hash k.2) (gd_storage d) (g_Storage g) ∧
    lists (λ k, is_addr k.1 ∧ is_u32 k.2) (gd_delegations d) (g_Delegations g) ∧ lists is_u64 (gd_blocks d) (g_Blocks g) ∧
    g_Hash g = Store_Hash sha256 t.
Proof.
  intros [Ha Hs Hd Hb]. split_and!.
  - intros a x b' Hv Ex.
    destruct (set_table _ id enc_Account dec_Account is_addr _ t a x b' (λ j k _ _ E, E) Ha Hv Ex (codec_Account _ _ Ex)) as (t' & Et & Ht & Ho).
    exists t'. split; [done|]. constructor; [done|eapply table_holds_other; [eassumption|intros; by apply Ho]..].
  - intros a k v Hv1 Hv2 Hv3.
    destruct (table_holds_put T_EvmStorage storage_key dec_hash (λ k, is_addr k.1 ∧ is_hash k.2) storage_key_inj (gd_storage d) t (a, k) v v Hs
      (λ j, decide (j = (a, k))) (conj Hv1 Hv2)) with (m' := upd (a, k) v (gd_storage d)) as (t' & Et & Ht & Ho).
    + unfold dec_hash, is_hash in *. by rewrite Hv3.
    + intros j _ Hj. unfold upd. by rewrite decide_False.
    + unfold upd. by rewrite decide_True.
    + exists t'. split; [done|]. constructor; [|done|..]; (eapply table_holds_other; [eassumption|intros; by apply Ho]).
  - intros a n x b' Hv1 Hv2 Ex.
    destruct (set_table T_Delegations delegation_key enc_Delegation dec_Delegation (λ k, is_addr k.1 ∧ is_u32 k.2) _ t (a, n) x b'
      delegation_key_inj Hd (conj Hv1 Hv2) Ex (codec_Delegation _ _ Ex)) as (t' & Et & Ht & Ho).
    exists t'. split; [done|]. constructor; [| |done|]; (eapply table_holds_other; [eassumption|intros; by apply Ho]).
  - intros n x b' Hv Ex.
    destruct (set_table _ _ enc_Block dec_Block is_u64 _ t n x b' block_key_inj Hb Hv Ex (codec_Block _ _ Ex)) as (t' & Et & Ht & Ho).
    exists t'. split; [done|]. constructor; [..|done]; (eapply table_holds_other; [eassumption|intros; by apply Ho]).
  - intros a Hv. unfold GetEvmAccount. change (Get_rlp dec_Account T_EvmAccounts a t) with (Get_rlp dec_Account T_EvmAccounts (id a) t).
    by rewrite (table_get _ _ _ _ _ _ _ Ha Hv).
  - intros a k Hv1 Hv2. unfold GetEvmState, table_Get. rewrite kv_Get_ok. simpl. destruct (gd_storage d (a, k)) as [v|] eqn:E.
    + destruct (th_some _ _ _ _ _ _ Hs (a, k) v (conj Hv1 Hv2) E) as (b & Hb' & Hdec). unfold storage_key in Hb'. simpl in Hb'. rewrite Hb'.
      unfold dec_hash in Hdec. destruct (Nat.eqb_spec (length b) 32) as [Hl|]; [|done]. injection Hdec as <-. destruct b; [done|].
      by rewrite hash_bytes.
    + pose proof (th_none _ _ _ _ _ _ Hs (a, k) (conj Hv1 Hv2) E) as Hn. unfold storage_key in Hn. simpl in Hn. by rewrite Hn.
  - intros a n Hv1 Hv2. unfold GetDelegation. change (a ++ ValidatorID_Bytes n) with (delegation_key (a, n)).
    by rewrite (table_get _ _ _ _ _ _ (a, n) Hd (conj Hv1 Hv2)).
  - intros g Hg. unfold GetGenesis in Hg. destruct (accounts_spec _ _ Ha) as (la & Ea & Hla). destruct (storage_spec _ _ Hs) as (ls & Es & Hls).
    destruct (delegations_spec _ _ Hd) as (ld & Ed & Hld). destruct (blocks_spec _ _ Hb) as (lb & Eb & Hlb).
    destruct (GetMetadata t); simpl in Hg; [|done..]. destruct (GetRules t); simpl in Hg; [|done..].
    rewrite Ea in Hg. simpl in Hg. rewrite Es in Hg. simpl in Hg. rewrite Ed in Hg. simpl in Hg. rewrite Eb in Hg. injection Hg as <-. done.
Qed.
End store.

(** ** Starting a node (integration/assembly.go) *)

Definition ErrGenesisNotAllowed : error := NewError "genesis hash is not allowed for the network".
Definition ErrNoGenesisHash : error := NewError "malformed chainstore: genesis hash is not written".
Definition ErrGenesisMismatch : error := NewError "database contains incompatible gossip genesis".
Definition ErrHeaderMismatch : error := NewError "genesis hash mismatch with genesis file header".

(** The store of the genesis and that of the node; what the rest of the start does may
    fail. *)
Record NodeStores (D : Type) := mkNodeStores { ns_genesis : Table; ns_gossip : D; ns_GenesisHash : option (list Z) }.
Arguments mkNodeStores {D}. Arguments ns_genesis {D}. Arguments ns_gossip {D}. Arguments ns_GenesisHash {D}.

Section start.
Context {EventID : Type} `{GenesisCodec EventID} `{BigEndian32} `{BigEndian} `{Kvdb} {R W G : Type} `{IoReader R} `{Gzip R W G} `{Batches}.
Context {D : Type}.
Variable sha256 : list Z → list Z.
Variable AllowedGenesis : gmap Z (list Z).
(** [applyEpoch1Genesis] of the gossip store, the genesis of the consensus store, and the
    commit. *)
Variable gossip_Apply : Genesis EventID → D → res D.
Variable abft_Apply : D → option error.
Variable gossip_Commit : D → option error.
Variable rawMake : Genesis EventID → D → option error.

(** [Store.ApplyGenesis] and the consensus store. *)
Definition rawApplyGenesis (g : Genesis EventID) (s : NodeStores D) : res (NodeStores D) :=
  d ← gossip_Apply g (ns_gossip s);
  match abft_Apply d with
  | Some e => Err e
  | None => Ok (mkNodeStores (ns_genesis s) d (Some (g_Hash g)))
  end.

(** The hash in the header of the file is compared with the allowed one. *)
Definition applyGenesis (fuel : nat) (hash : list Z) (r : R) (s : NodeStores D) : res (NodeStores D) :=
  match readGenesisStore (W := W) (G := G) fuel (r, ns_genesis s) with
  | (Panic, _) => Panic
  | (Err e, _) => Err e
  | (Ok _, (_, t)) =>
      rules ← GetRules t;
      if (if AllowedGenesis !! NetworkID rules is Some want then negb (bool_decide (want = hash)) else false) then Err ErrGenesisNotAllowed
      else
        g ← GetGenesis sha256 t;
        s ← rawApplyGenesis g (mkNodeStores t (ns_gossip s) (ns_GenesisHash s));
        match gossip_Commit (ns_gossip s) with Some e => Err e | None => Ok s end
  end.

Definition makeEngine (fuel : nat) (emptyStart : bool) (hash : list Z) (r : R) (s : NodeStores D) : res (NodeStores D) :=
  s ← (if emptyStart then applyGenesis fuel hash r s else Ok s);
  _ ← (if emptyStart then Ok tt
       else match ns_GenesisHash s with
            | None => Err ErrNoGenesisHash
            | Some h => if negb (bool_decide (h = hash)) then Err ErrGenesisMismatch else Ok tt
            end);
  g ← GetGenesis sha256 (ns_genesis s);
  _ ← (if rawMake g (ns_gossip s) is Some e then Err e else Ok tt);
  match ns_GenesisHash s with
  | None => Panic
  | Some h =>
      if negb (bool_decide (h = hash)) then Err ErrHeaderMismatch
      else match gossip_Commit (ns_gossip s) with Some e => Err e | None => Ok s end
  end.

Lemma GetGenesis_Hash t g : GetGenesis sha256 t = Ok g → g_Hash g = Store_Hash sha256 t ∧ GetRules t = Ok (g_Rules g).
Proof.
  unfold GetGenesis. destruct (GetMetadata t); simpl; [|done..]. destruct (GetRules t); simpl; [|done..].
  destruct (accounts_ForEach _); simpl; [|done..]. destruct (storage_ForEach _); simpl; [|done..].
  destruct (delegations_ForEach _); simpl; [|done..]. destruct (blocks_ForEach _); simpl; [|done..]. by intros [= <-].
Qed.

(** C7: a node starts only on the genesis that its file announces: the hash in the header is
    the one that its stores were made from.  On the first start the store of the genesis,
    as it was read, has that hash, and a network with an allowed genesis has no other. *)
Theorem node_starts_on_its_genesis fuel emptyStart hash r s s' :
  makeEngine fuel emptyStart hash r s = Ok s' →
  ns_GenesisHash s' = Some hash ∧ (emptyStart = false → s' = s) ∧
  (emptyStart = true → Store_Hash sha256 (ns_genesis s') = hash ∧
     (∃ r', readGenesisStore (W := W) (G := G) fuel (r, ns_genesis s) = (Ok tt, (r', ns_genesis s'))) ∧
     ∃ rules, GetRules (ns_genesis s') = Ok rules ∧ ∀ want, AllowedGenesis !! NetworkID rules = Some want → want = hash).
Proof.
  intros Hmake. unfold makeEngine in Hmake. destruct emptyStart; simpl in Hmake.
  - destruct (applyGenesis fuel hash r s) as [s1| |] eqn:Ea; simpl in Hmake; [|done..].
    destruct (GetGenesis sha256 (ns_genesis s1)) as [g1| |]; simpl in Hmake; [|done..]. destruct (rawMake _ _); simpl in Hmake; [done|].
    destruct (ns_GenesisHash s1) as [h|] eqn:Eh; [|done]. case_bool_decide as Ehash; simpl in Hmake; [|done].
    destruct (gossip_Commit (ns_gossip s1)); [done|]. injection Hmake as <-. subst h. split_and!; [done|done|]. intros _.
    unfold applyGenesis in Ea. destruct (readGenesisStore fuel (r, ns_genesis s)) as [[u| |] [r' t]] eqn:Er; [|done..].
    destruct (GetRules t) as [rules| |] eqn:Erules; simpl in Ea; [|done..].
    destruct (if AllowedGenesis !! NetworkID rules is Some want then negb (bool_decide (want = hash)) else false) eqn:Eallow; [done|].
    destruct (GetGenesis sha256 t) as [g| |] eqn:Eg; simpl in Ea; [|done..]. unfold rawApplyGenesis in Ea. simpl in Ea.
    destruct (gossip_Apply g (ns_gossip s)) as [d| |]; simpl in Ea; [|done..]. destruct (abft_Apply d); simpl in Ea; [done|].
    destruct (gossip_Commit d); [done|]. injection Ea as <-. simpl in *. injection Eh as <-. destruct u.
    split_and!; [by destruct (GetGenesis_Hash t g Eg)|by exists r'|]. exists rules. split; [done|]. intros want Hw. rewrite Hw in Eallow.
    by case_bool_decide.
  - destruct (ns_GenesisHash s) as [h|] eqn:Eh; [|done]. case_bool_decide as Ehash; simpl in Hmake; [|done].
    destruct (GetGenesis sha256 (ns_genesis s)); simpl in Hmake; [|done..]. destruct (rawMake _ _); simpl in Hmake; [done|].
    destruct (gossip_Commit (ns_gossip s)); [done|].
    injection Hmake as <-. subst h. done.
Qed.
End start.

(** ** A concrete file

    A reader that gives at most three bytes at a time, a compression that only marks its
    beginning, and a store with two entries. *)

#[global] Instance demo_be32 : BigEndian32 := {
  be_Uint32ToBytes := be_bytes 4;
  be_BytesToUint32 := foldl (λ acc x, acc * 256 + x) 0;
}.

#[global] Instance demo_be32_laws : BigEndian32Laws.
Proof.
  split; cbn [be_Uint32ToBytes be_BytesToUint32 demo_be32].
  - done.
  - intros n Hn. rewrite be_bytes_read. apply Z.mod_small. exact Hn.
  - intros [|x0 [|x1 [|x2 [|x3 [|]]]]]; try done. intros _ Hb. unfold bytes_ok in Hb. rewrite !Forall_cons in Hb. unfold is_u8 in Hb.
    destruct Hb as (H0 & H1 & H2 & H3 & _). cbn [foldl be_bytes]. split; [unfold is_u32; lia|].
    change (256 ^ Z.of_nat 3) with 16777216. change (256 ^ Z.of_nat 2) with 65536. change (256 ^ Z.of_nat 1) with 256. change (256 ^ Z.of_nat 0) with 1.
    set (n := (((0 * 256 + x0) * 256 + x1) * 256 + x2) * 256 + x3).
    assert (E1 : x0 = n / 16777216) by (apply (Z.div_unique n 16777216 x0 (x1 * 65536 + x2 * 256 + x3)); lia).
    assert (E2 : x0 * 256 + x1 = n / 65536) by (apply (Z.div_unique n 65536 _ (x2 * 256 + x3)); lia).
    assert (E3 : x0 * 65536 + x1 * 256 + x2 = n / 256) by (apply (Z.div_unique n 256 _ x3); lia).
    rewrite Z.div_1_r, <-E1, <-E2, <-E3. rewrite Z.mod_small by lia.
    rewrite <-(Z.mod_unique (x0 * 256 + x1) 256 x0 x1) by lia. rewrite <-(Z.mod_unique (x0 * 65536 + x1 * 256 + x2) 256 (x0 * 256 + x1) x2) by lia.
    rewrite <-(Z.mod_unique n 256 (x0 * 65536 + x1 * 256 + x2) x3) by lia. done.
Qed.

Record DemoReader := mkDemoReader { dr_rest : list Z }.

#[global] Instance demo_reader : IoReader DemoReader := {
  io_Read n r := (take (n `min` 3) (dr_rest r), if bool_decide (dr_rest r = []) && negb (n =? 0)%nat then Some io_EOF else None,
                  mkDemoReader (drop (n `min` 3) (dr_rest r)));
}.

#[global] Instance demo_reader_laws : IoReaderLaws DemoReader.
Proof.
  unshelve refine {| io_rest := dr_rest |}. intros n r c e r' [= <- <- <-]. simpl. split_and!.
  - rewrite length_take. lia.
  - by rewrite take_drop.
  - case_bool_decide as E; simpl; [|by left]. destruct (n =? 0)%nat; [by left|right]. by rewrite E, drop_nil.
  - intros Hn. case_bool_decide as E; [by destruct (Nat.eqb_spec n 0)|]. intros _. destruct (dr_rest r) as [|x l]; [done|]. by destruct n.
Defined.

Record DemoWriter := mkDemoWriter { dw_out : list Z }.
Record DemoGzip := mkDemoGzip { dg_base : list Z; dg_in : list Z }.

#[global] Instance demo_writer : IoWriter DemoWriter := { io_Write b w := (None, mkDemoWriter (dw_out w ++ b)) }.
#[global] Instance demo_writer_laws : IoWriterLaws DemoWriter.
Proof. unshelve refine {| io_out := dw_out |}. by intros b w w' [= <-]. Defined.
#[global] Instance demo_gz_writer : IoWriter DemoGzip := { io_Write b g := (None, mkDemoGzip (dg_base g) (dg_in g ++ b)) }.
#[global] Instance demo_gz_writer_laws : IoWriterLaws DemoGzip.
Proof. unshelve refine {| io_out := dg_in |}. by intros b w w' [= <-]. Defined.

#[global] Instance demo_gzip : Gzip DemoReader DemoWriter DemoGzip := {
  gz_NewReader r := match dr_rest r with 31 :: l => Ok (mkDemoReader l) | _ => Err (NewError "gzip: invalid header") end;
  gz_NewWriter w := mkDemoGzip (dw_out w) [];
  gz_Close g := (None, mkDemoWriter (dg_base g ++ 31 :: dg_in g));
}.

#[global] Instance demo_gzip_laws : GzipLaws DemoReader DemoWriter DemoGzip.
Proof.
  unshelve refine {| gz_compress b := 31 :: b; gz_base := dg_base |}; try done.
  - intros r b Hr. simpl in *. rewrite Hr. by eexists.
  - by intros g w [= <-].
Defined.

#[global] Instance demo_batches : Batches := {
  batch_Put _ _ := None;
  batch_Write _ _ := None;
  ValueSize b := foldr (λ e n, len e.2 + n) 0 b;
  IdealBatchSize := 1;
}.

Lemma demo_put_ok k v : batch_Put k v = None.
Proof. reflexivity. Qed.
Lemma demo_write_ok b t : batch_Write b t = None.
Proof. reflexivity. Qed.

Definition demo_sha (b : list Z) : list Z := [foldr Z.add 0 b mod 256].
Definition demo_table : Table := {[ [97; 1] := [10; 20]; [109; 109] := [30] ]}.
Definition demo_file : list Z := dw_out (WriteGenesisStore (R := DemoReader) (G := DemoGzip) demo_sha (mkDemoWriter []) demo_table).2.

Lemma genesis_file_roundtrip_witness :
  ∃ r1, OpenGenesisStore (mkDemoReader demo_file) = (Ok (Store_Hash demo_sha demo_table), r1) ∧
    ∃ r2, readGenesisStore (W := DemoWriter) (G := DemoGzip) 3 (r1, ∅) = (Ok tt, (r2, demo_table ∪ ∅)).
Proof.
  destruct (genesis_file_roundtrip (R := DemoReader) (W := DemoWriter) (G := DemoGzip) demo_sha demo_put_ok demo_write_ok (mkDemoWriter [])
    (WriteGenesisStore (R := DemoReader) (G := DemoGzip) demo_sha (mkDemoWriter []) demo_table).2 demo_table (mkDemoReader demo_file))
    as (r1 & E1 & E2).
  - apply map_Forall_insert_2; [split; vm_compute; split; discriminate || reflexivity|]. apply map_Forall_singleton. split; vm_compute; split; discriminate || reflexivity.
  - intros g. reflexivity.
  - reflexivity.
  - vm_compute. reflexivity.
  - reflexivity.
  - exists r1. split; [exact E1|]. apply (E2 3%nat ∅). vm_compute. lia.
Defined.

(** A file that ends within the length of a key. *)
Definition demo_truncated : list Z := demo_file ++ [0; 0].


(** Accounts and delegations as lists of numbers. *)
#[global] Instance demo_codec : GenesisCodec (list Z) := {
  enc_Account x := Ok (ac_Nonce x :: ac_Balance x :: (if ac_SelfDestruct x then 1 else 0) :: ac_Code x);
  dec_Account b := match b with n :: bal :: sd :: code => Ok (mkAccount code bal n (sd =? 1)) | _ => Err (NewError "rlp") end;
  enc_Delegation x := Ok [dl_Stake x; dl_Rewards x; dl_LockedStake x; dl_LockupFromEpoch x; dl_LockupEndTime x; dl_LockupDuration x; dl_EarlyUnlockPenalty x];
  dec_Delegation b := match b with [a; b; c; d; e; f; g] => Ok (mkDelegation a b c d e f g) | _ => Err (NewError "rlp") end;
  enc_Block _ := Err (NewError "rlp"); dec_Block _ := Err (NewError "rlp");
  enc_Metadata x := Ok [md_FirstEpoch x; md_Time x; md_PrevEpochTime x; md_TotalSupply x];
  dec_Metadata b := match b with [a; b; c; d] => Ok (mkMetadata [] a b c [] [] d) | _ => Err (NewError "rlp") end;
  enc_Rules x := Ok [NetworkID x]; dec_Rules b := Ok (MainNetRules);
}.

#[global] Instance demo_codec_laws : GenesisCodecLaws (list Z).
Proof.
  split.
  - intros [c b n sd] l [= <-]. simpl. by destruct sd.
  - intros [] l [= <-]. done.
  - done.
Qed.

Definition no_data : GenesisData := mkGenesisData (EventID := list Z) (λ _, None) (λ _, None) (λ _, None) (λ _, None).

Lemma no_data_held : store_holds no_data ∅.
Proof. by split; split. Qed.

Lemma genesis_store_refines_witness :
  ∃ t, SetEvmAccount (replicate 20 1) (mkAccount [] 500 1 false) ∅ = Ok t ∧
    store_holds (mkGenesisData (upd (replicate 20 1) (mkAccount [] 500 1 false) (gd_accounts no_data)) (gd_storage no_data) (gd_delegations no_data)
      (gd_blocks no_data)) t.
Proof.
  destruct (genesis_store_refines demo_sha no_data ∅ no_data_held) as (Hset & _).
  apply (Hset (replicate 20 1) (mkAccount [] 500 1 false) [1; 500; 0]); reflexivity.
Defined.

(** A genesis with metadata and rules only, in a file, and a node that starts on it. *)
Definition demo_genesis : Table := {[ [109; 109] := [1; 2; 3; 4]; [99; 99] := [5] ]}.
Definition demo_genesis_file : list Z := dw_out (WriteGenesisStore (R := DemoReader) (G := DemoGzip) demo_sha (mkDemoWriter []) demo_genesis).2.
Definition demo_start : res (NodeStores Z) :=
  makeEngine (EventID := list Z) (W := DemoWriter) (G := DemoGzip) demo_sha ∅ (λ _ d, Ok (d + 1)) (λ _, None) (λ _, None) (λ _ _, None) 9 true
    (Store_Hash demo_sha demo_genesis) (mkDemoReader (drop 40 demo_genesis_file)) (mkNodeStores ∅ 0 None).

Lemma node_starts_on_its_genesis_witness :
  (λ s, ns_gossip s) <$> demo_start = Ok 1 ∧
  ∃ s, demo_start = Ok s ∧ ns_GenesisHash s = Some (Store_Hash demo_sha demo_genesis) ∧
    Store_Hash demo_sha (ns_genesis s) = Store_Hash demo_sha demo_genesis.
Proof.
  split; [vm_compute; reflexivity|].
  destruct demo_start as [s| |] eqn:E; [|apply (f_equal (λ x, match x with Ok _ => true | _ => false end)) in E; vm_compute in E; discriminate E..].
  exists s. split; [reflexivity|].
  destruct (node_starts_on_its_genesis (EventID := list Z) (W := DemoWriter) (G := DemoGzip) demo_sha ∅ (λ _ d, Ok (d + 1)) (λ _, None) (λ _, None)
    (λ _ _, None) 9 true (Store_Hash demo_sha demo_genesis) (mkDemoReader (drop 40 demo_genesis_file)) (mkNodeStores ∅ 0 None) s E) as (Hh & _ & He).
  split; [exact Hh|]. exact (proj1 (He eq_refl)).
Defined.
