(* ===== verification/SfcApi.v ===== *)
(** * The node's view of the staking contract (gossip/sfcapi/)

    The logs of the SFC contract are followed into tables of stakers, delegations and
    claimed rewards; the rewards claimed before the genesis are taken from the index of
    logs.  The tables are proved to be the sums over the logs, and the totals of a staker
    to be the sums over its delegators. *)

From S2P Require Import Prelude Cser Inter Instances EvmState Heap Store EvmChain Topics Pos Driver.

(** ** types.go *)

Definition ForkBit : Z := 1.
Definition OfflineBit : Z := Z.shiftl 1 8.
Definition CheaterMask : Z := ForkBit.
Definition DelegationIDSize : Z := 20 + 4.

(** The last three fields are not stored; a nil amount is [None]. *)
Record SfcStaker := mkSfcStaker {
  CreatedEpoch : Z;
  CreatedTime : Z;
  DeactivatedEpoch : Z;
  DeactivatedTime : Z;
  sk_Address : list Z;
  sk_Status : Z;
  StakeAmount : option Z;
  DelegatedMe : option Z;
  IsValidator : bool;
}.

Definition SfcStaker_Ok (s : SfcStaker) : bool := (sk_Status s =? 0) && (DeactivatedEpoch s =? 0).
Definition IsCheater (s : SfcStaker) : bool := negb (Z.land (sk_Status s) CheaterMask =? 0).
Definition HasFork (s : SfcStaker) : bool := negb (Z.land (sk_Status s) ForkBit =? 0).
Definition Offline (s : SfcStaker) : bool := negb (Z.land (sk_Status s) OfflineBit =? 0).

(** [big.Int.Add] of a nil pointer panics. *)
Definition CalcTotalStake (s : SfcStaker) : res Z :=
  match StakeAmount s, DelegatedMe s with
  | Some a, Some b => Ok (a + b)
  | _, _ => Panic
  end.

Record SfcStakerAndID := mkStakerAndID { si_StakerID : Z; si_Staker : SfcStaker }.

(** The times of a delegation are not stored. *)
Record SfcDelegation := mkSfcDelegation {
  Amount : Z;
  dg_CreatedEpoch : Z;
  dg_CreatedTime : Z;
  dg_DeactivatedEpoch : Z;
  dg_DeactivatedTime : Z;
}.

Record DelegationID := mkDelegationID { Delegator : list Z; StakerID : Z }.
#[global] Instance DelegationID_eq_dec : EqDecision DelegationID.
Proof. solve_decision. Defined.

Record SfcDelegationAndID := mkDelegationAndID { da_Delegation : SfcDelegation; da_ID : DelegationID }.

Record EpochStats := mkEpochStats { est_Start : Z; est_End : Z; est_TotalFee : Z }.
Definition EpochStats_Duration (s : EpochStats) : Z := u64 (est_End s - est_Start s).

Section sfcapi.
Context `{IdxBytes}.

Definition DelegationID_Bytes (id : DelegationID) : list Z := Delegator id ++ ValidatorID_Bytes (StakerID id).

Definition BytesToDelegationID (bb : list Z) : res DelegationID :=
  if len bb <? DelegationIDSize then Panic
  else
    b ← subslice bb 0 20;
    Ok (mkDelegationID (BytesToAddress b) (BytesToValidatorID (drop 20 bb))).
End sfcapi.

(** [idx.Epoch.Bytes] and [idx.Lamport.Bytes] *)
Class EpochBytes := { idx_Epoch_Bytes : Z → list Z; idx_Lamport_Bytes : Z → list Z }.

(** RLP of the two records *)
Class SfcRLP := {
  enc_SfcStaker : SfcStaker → res (list Z);
  dec_SfcStaker : list Z → res SfcStaker;
  enc_SfcDelegation : SfcDelegation → res (list Z);
  dec_SfcDelegation : list Z → res SfcDelegation;
}.

(** What is left of a record that was stored. *)
Definition stored_staker (s : SfcStaker) : SfcStaker :=
  mkSfcStaker (CreatedEpoch s) (CreatedTime s) (DeactivatedEpoch s) (DeactivatedTime s) (sk_Address s) (sk_Status s)
    None None false.
Definition stored_delegation (d : SfcDelegation) : SfcDelegation := mkSfcDelegation (Amount d) 0 0 0 0.

(** Fields tagged [rlp:"-"] are skipped; a negative amount cannot be encoded. *)
Class SfcRLPLaws `{SfcRLP} := {
  enc_staker_spec : ∀ s, ∃ b, enc_SfcStaker s = Ok b ∧ dec_SfcStaker b = Ok (stored_staker s);
  enc_delegation_spec : ∀ d, 0 <= Amount d →
    ∃ b, enc_SfcDelegation d = Ok b ∧ dec_SfcDelegation b = Ok (stored_delegation d);
}.

(** ** store.go: the tables; those for gas refunds and stakers' old rewards are not used *)

Record SfcStore := mkSfcStore {
  tb_Validators : Table;
  tb_Stakers : Table;
  tb_Delegations : Table;
  tb_DelegationOldRewards : Table;
  tb_StakerDelegationsOldRewards : Table;
}.

Definition set_Validators (t : Table) (s : SfcStore) : SfcStore :=
  mkSfcStore t (tb_Stakers s) (tb_Delegations s) (tb_DelegationOldRewards s) (tb_StakerDelegationsOldRewards s).
Definition set_Stakers (t : Table) (s : SfcStore) : SfcStore :=
  mkSfcStore (tb_Validators s) t (tb_Delegations s) (tb_DelegationOldRewards s) (tb_StakerDelegationsOldRewards s).
Definition set_Delegations (t : Table) (s : SfcStore) : SfcStore :=
  mkSfcStore (tb_Validators s) (tb_Stakers s) t (tb_DelegationOldRewards s) (tb_StakerDelegationsOldRewards s).
Definition set_DelegationRewards (t : Table) (s : SfcStore) : SfcStore :=
  mkSfcStore (tb_Validators s) (tb_Stakers s) (tb_Delegations s) t (tb_StakerDelegationsOldRewards s).
Definition set_StakerRewards (t : Table) (s : SfcStore) : SfcStore :=
  mkSfcStore (tb_Validators s) (tb_Stakers s) (tb_Delegations s) (tb_DelegationOldRewards s) t.

Section store.
Context `{IdxBytes} `{EpochBytes} `{SfcRLP} `{Kvdb}.

(** ** store_sfc_stakers.go *)

Fixpoint SetEpochValidators (epoch : Z) (vv : list SfcStakerAndID) (s : SfcStore) : res SfcStore :=
  match vv with
  | [] => Ok s
  | v :: vv' =>
      let key := idx_Epoch_Bytes epoch ++ ValidatorID_Bytes (si_StakerID v) in
      t ← rlp_Set enc_SfcStaker key (si_Staker v) (tb_Validators s);
      SetEpochValidators epoch vv' (set_Validators t s)
  end.

Definition HasEpochValidator (epoch stakerID : Z) (s : SfcStore) : bool :=
  bool_decide (is_Some (tb_Validators s !! (idx_Epoch_Bytes epoch ++ ValidatorID_Bytes stakerID))).

Definition SetSfcStaker (stakerID : Z) (v : SfcStaker) (s : SfcStore) : res SfcStore :=
  t ← rlp_Set enc_SfcStaker (ValidatorID_Bytes stakerID) v (tb_Stakers s); Ok (set_Stakers t s).

Definition DelSfcStaker (stakerID : Z) (s : SfcStore) : SfcStore :=
  set_Stakers (delete (ValidatorID_Bytes stakerID) (tb_Stakers s)) s.

Definition GetSfcStaker (stakerID : Z) (s : SfcStore) : res (option SfcStaker) :=
  rlp_Get dec_SfcStaker (ValidatorID_Bytes stakerID) (tb_Stakers s).

Definition HasSfcStaker (stakerID : Z) (s : SfcStore) : bool :=
  bool_decide (is_Some (tb_Stakers s !! ValidatorID_Bytes stakerID)).

(** The entries of an iterator; the error of the iterator is not looked at. *)
Fixpoint forEachSfcStaker {A} (entries : list (list Z * list Z)) (do : SfcStakerAndID → A → A) (a : A) : res A :=
  match entries with
  | [] => Ok a
  | (k, v) :: entries' =>
      staker ← crit (dec_SfcStaker v);
      stakerIDBytes ← subslice k (len k - 4) (len k);
      forEachSfcStaker entries' do (do (mkStakerAndID (BytesToValidatorID stakerIDBytes) staker) a)
  end.

Definition ForEachSfcStaker {A} (do : SfcStakerAndID → A → A) (a : A) (s : SfcStore) : res A :=
  forEachSfcStaker (kv_NewIterator (tb_Stakers s) [] []).1 do a.

Definition GetSfcStakers (s : SfcStore) : res (list SfcStakerAndID) :=
  ForEachSfcStaker (λ it stakers, stakers ++ [it]) [] s.

Definition GetEpochValidators (epoch : Z) (s : SfcStore) : res (list SfcStakerAndID) :=
  forEachSfcStaker (kv_NewIterator (tb_Validators s) (idx_Epoch_Bytes epoch) []).1 (λ it validators, validators ++ [it]) [].

(** ** store_sfc_delegators.go *)

Definition SetSfcDelegation (id : DelegationID) (v : SfcDelegation) (s : SfcStore) : res SfcStore :=
  t ← rlp_Set enc_SfcDelegation (DelegationID_Bytes id) v (tb_Delegations s); Ok (set_Delegations t s).

Definition DelSfcDelegation (id : DelegationID) (s : SfcStore) : SfcStore :=
  set_Delegations (delete (DelegationID_Bytes id) (tb_Delegations s)) s.

Definition GetSfcDelegation (id : DelegationID) (s : SfcStore) : res (option SfcDelegation) :=
  rlp_Get dec_SfcDelegation (DelegationID_Bytes id) (tb_Delegations s).

(** [do] says whether to go on. *)
Fixpoint forEachSfcDelegation {A} (entries : list (list Z * list Z)) (do : SfcDelegationAndID → A → bool * A) (a : A) : res A :=
  match entries with
  | [] => Ok a
  | (k, v) :: entries' =>
      delegation ← crit (dec_SfcDelegation v);
      addr ← subslice k (len k - DelegationIDSize) (len k);
      id ← BytesToDelegationID addr;
      let '(continue, a) := do (mkDelegationAndID delegation id) a in
      if continue : bool then forEachSfcDelegation entries' do a else Ok a
  end.

Definition ForEachSfcDelegation {A} (do : SfcDelegationAndID → A → A) (a : A) (s : SfcStore) : res A :=
  forEachSfcDelegation (kv_NewIterator (tb_Delegations s) [] []).1 (λ it a, (true, do it a)) a.

Definition GetSfcDelegationsByAddr (addr : list Z) (limit : Z) (s : SfcStore) : res (list SfcDelegationAndID) :=
  r ← forEachSfcDelegation (kv_NewIterator (tb_Delegations s) addr []).1
    (λ it '(limit, l), if limit =? 0 then (false, (limit, l)) else (true, (limit - 1, l ++ [it]))) (limit, []);
  Ok r.2.

(** ** store_rewards_history.go *)

(** The value of a table as a number; a missing one is zero. *)
Definition amount_at (t : Table) (key : list Z) : Z :=
  match t !! key with None => 0 | Some b => big_SetBytes b end.

Definition GetDelegationClaimedRewards (id : DelegationID) (s : SfcStore) : Z :=
  amount_at (tb_DelegationOldRewards s) (DelegationID_Bytes id).
Definition SetDelegationClaimedRewards (id : DelegationID) (amount : Z) (s : SfcStore) : SfcStore :=
  set_DelegationRewards (<[DelegationID_Bytes id := big_Bytes amount]> (tb_DelegationOldRewards s)) s.
Definition IncDelegationClaimedRewards (id : DelegationID) (diff : Z) (s : SfcStore) : SfcStore :=
  SetDelegationClaimedRewards id (GetDelegationClaimedRewards id s + diff) s.

Definition GetStakerDelegationsClaimedRewards (stakerID : Z) (s : SfcStore) : Z :=
  amount_at (tb_StakerDelegationsOldRewards s) (ValidatorID_Bytes stakerID).
Definition SetStakerDelegationsClaimedRewards (stakerID : Z) (amount : Z) (s : SfcStore) : SfcStore :=
  set_StakerRewards (<[ValidatorID_Bytes stakerID := big_Bytes amount]> (tb_StakerDelegationsOldRewards s)) s.
Definition IncStakerDelegationsClaimedRewards (stakerID : Z) (diff : Z) (s : SfcStore) : SfcStore :=
  SetStakerDelegationsClaimedRewards stakerID (GetStakerDelegationsClaimedRewards stakerID s + diff) s.
End store.

(** ** sfcpos.go: the topics, which are hashes of the events' signatures *)

Record SfcTopics := mkSfcTopics {
  ClaimedRewards : list Z;
  RestakedRewards : list Z;
  ClaimedDelegationReward : list Z;
  ClaimedValidatorReward : list Z;
  CreatedValidator : list Z;
  DeactivatedValidator : list Z;
  ChangedValidatorStatus : list Z;
  Delegated : list Z;
  Undelegated : list Z;
}.

Definition sfc_Topics (Keccak256Hash : string → list Z) : SfcTopics := {|
  ClaimedRewards := Keccak256Hash "ClaimedRewards(address,uint256,uint256,uint256,uint256)";
  RestakedRewards := Keccak256Hash "RestakedRewards(address,uint256,uint256,uint256,uint256)";
  ClaimedDelegationReward := Keccak256Hash "ClaimedDelegationReward(address,uint256,uint256,uint256,uint256)";
  ClaimedValidatorReward := Keccak256Hash "ClaimedValidatorReward(uint256,uint256,uint256,uint256)";
  CreatedValidator := Keccak256Hash "CreatedValidator(uint256,address,uint256,uint256)";
  DeactivatedValidator := Keccak256Hash "DeactivatedValidator(uint256,uint256,uint256)";
  ChangedValidatorStatus := Keccak256Hash "ChangedValidatorStatus(uint256,uint256)";
  Delegated := Keccak256Hash "Delegated(address,uint256,uint256)";
  Undelegated := Keccak256Hash "Undelegated(address,uint256,uint256,uint256)";
|}.

(** ** process.go *)

(** A validator and an address in a topic, and a word of the data. *)
Definition topic_id (topics : list (list Z)) (i : Z) : res Z :=
  t ← index topics i; Ok (u32 (u64 (big_SetBytes t))).
Definition topic_address (topics : list (list Z)) (i : Z) : res (list Z) :=
  t ← index topics i; Ok (BytesToAddress (drop 12 t)).
Definition data_word (data : list Z) (i : Z) : res Z :=
  w ← subslice data i (i + 32); Ok (big_SetBytes w).

Section process.
Context `{IdxBytes} `{SfcRLP} `{Kvdb} `{BigEndian}.
Variable ContractAddress : list Z.
Variable topics : SfcTopics.

(** Both sums that a claimed reward is added to. *)
Definition count_reward (id : DelegationID) (reward : Z) (s : SfcStore) : SfcStore :=
  IncStakerDelegationsClaimedRewards (StakerID id) reward (IncDelegationClaimedRewards id reward s).

Definition genesis_log (l : evmLog) : Eff SfcStore bool := λ s,
  let tps := lg_Topics l in
  let r : res SfcStore :=
    t0 ← index tps 0;
    if bool_decide (t0 = ClaimedValidatorReward topics) && (1 <? len tps) && (32 <=? len (lg_Data l)) then
      stakerID ← topic_id tps 1;
      reward ← data_word (lg_Data l) 0;
      o ← GetSfcStaker stakerID s;
      match o with
      | None => Ok s
      | Some staker => Ok (count_reward (mkDelegationID (sk_Address staker) stakerID) reward s)
      end
    else if bool_decide (t0 = ClaimedDelegationReward topics) && (2 <? len tps) && (32 <=? len (lg_Data l)) then
      address ← topic_address tps 1;
      stakerID ← topic_id tps 2;
      reward ← data_word (lg_Data l) 0;
      Ok (count_reward (mkDelegationID address stakerID) reward s)
    else Ok s in
  match r with
  | Ok s' => (Ok true, s')
  | Err e => (Err e, s)
  | Panic => (Panic, s)
  end.

(** The error of the search is dropped; there is no context to cancel it. *)
Definition ApplyGenesis (ix : Index) (s : SfcStore) : res SfcStore :=
  let '(r, s) := ForEach (λ s, (Ok None, s))
    [[Address_Hash ContractAddress]; [ClaimedValidatorReward topics; ClaimedDelegationReward topics]] genesis_log ix s in
  match r with Panic => Panic | _ => Ok s end.

(** The parts of [OnNewLog], in order; [None] is a return. *)
Definition new_staker (l : Log) (s : SfcStore) : res (option SfcStore) :=
  stakerID ← topic_id (l_Topics l) 1;
  address ← topic_address (l_Topics l) 2;
  createdEpoch ← data_word (l_Data l) 0;
  createdTime ← data_word (l_Data l) 32;
  s ← SetSfcStaker stakerID (mkSfcStaker (u32 (u64 createdEpoch)) (FromUnix (i64 (u64 createdTime))) 0 0 address 0 None None false) s;
  Ok (Some s).

Definition new_delegation (l : Log) (s : SfcStore) : res (option SfcStore) :=
  address ← topic_address (l_Topics l) 1;
  toStakerID ← topic_id (l_Topics l) 2;
  amount ← data_word (l_Data l) 0;
  let id := mkDelegationID address toStakerID in
  prev ← GetSfcDelegation id s;
  let amount := match prev with Some p => amount + Amount p | None => amount end in
  s ← SetSfcDelegation id (mkSfcDelegation amount 0 0 0 0) s;
  Ok (Some s).

Definition deactivate (l : Log) (s : SfcStore) : res (option SfcStore) :=
  stakerID ← topic_id (l_Topics l) 1;
  deactivatedEpoch ← data_word (l_Data l) 0;
  deactivatedTime ← data_word (l_Data l) 32;
  o ← GetSfcStaker stakerID s;
  match o with
  | None => Ok None
  | Some k =>
      s ← SetSfcStaker stakerID
        (mkSfcStaker (CreatedEpoch k) (CreatedTime k) (u32 (u64 deactivatedEpoch)) (FromUnix (i64 (u64 deactivatedTime)))
           (sk_Address k) (sk_Status k) (StakeAmount k) (DelegatedMe k) (IsValidator k)) s;
      Ok (Some s)
  end.

Definition change_status (l : Log) (s : SfcStore) : res (option SfcStore) :=
  stakerID ← topic_id (l_Topics l) 1;
  status ← data_word (l_Data l) 0;
  o ← GetSfcStaker stakerID s;
  match o with
  | None => Ok None
  | Some k =>
      s ← SetSfcStaker stakerID
        (mkSfcStaker (CreatedEpoch k) (CreatedTime k) (DeactivatedEpoch k) (DeactivatedTime k)
           (sk_Address k) (u64 status) (StakeAmount k) (DelegatedMe k) (IsValidator k)) s;
      Ok (Some s)
  end.

Definition undelegate (l : Log) (s : SfcStore) : res (option SfcStore) :=
  address ← topic_address (l_Topics l) 1;
  toStakerID ← topic_id (l_Topics l) 2;
  amount ← data_word (l_Data l) 0;
  let id := mkDelegationID address toStakerID in
  o ← GetSfcDelegation id s;
  match o with
  | None => Ok None
  | Some d =>
      let rest := Amount d - amount in
      if 0 <? Z.sgn rest then
        s ← SetSfcDelegation id
          (mkSfcDelegation rest (dg_CreatedEpoch d) (dg_CreatedTime d) (dg_DeactivatedEpoch d) (dg_DeactivatedTime d)) s;
        Ok (Some s)
      else Ok (Some (DelSfcDelegation id s))
  end.

Definition track_rewards (l : Log) (s : SfcStore) : res (option SfcStore) :=
  address ← topic_address (l_Topics l) 1;
  stakerID ← topic_id (l_Topics l) 2;
  reward0 ← data_word (l_Data l) 0;
  reward1 ← data_word (l_Data l) 32;
  reward2 ← data_word (l_Data l) 64;
  Ok (Some (count_reward (mkDelegationID address stakerID) (reward0 + reward1 + reward2) s)).

(** A part is run when its condition holds. *)
Definition part (cond : bool) (body : Log → SfcStore → res (option SfcStore)) (l : Log) (rest : SfcStore → res SfcStore)
    (s : SfcStore) : res SfcStore :=
  if cond then
    o ← body l s;
    match o with None => Ok s | Some s => rest s end
  else rest s.

Definition OnNewLog (l : Log) (s : SfcStore) : res SfcStore :=
  if negb (bool_decide (l_Address l = ContractAddress)) then Ok s
  else
    t0 ← index (l_Topics l) 0;
    let topic t := bool_decide (t0 = t) in
    let nt := len (l_Topics l) in
    let nd := len (l_Data l) in
    part (topic (CreatedValidator topics) && (2 <? nt) && (32 <=? nd)) new_staker l
      (part (topic (Delegated topics) && (2 <? nt) && (32 <=? nd)) new_delegation l
         (part (topic (DeactivatedValidator topics) && (1 <? nt)) deactivate l
            (part (topic (ChangedValidatorStatus topics) && (1 <? nt)) change_status l
               (part (topic (Undelegated topics) && (2 <? nt) && (32 <=? nd)) undelegate l
                  (part ((topic (ClaimedRewards topics) || topic (RestakedRewards topics)) && (2 <? nt) && (96 <=? nd))
                     track_rewards l (λ s, Ok s)))))) s.

Fixpoint OnNewLogs (logs : list Log) (s : SfcStore) : res SfcStore :=
  match logs with
  | [] => Ok s
  | l :: logs' => s ← OnNewLog l s; OnNewLogs logs' s
  end.
End process.

(** ** What the logs say *)

Inductive sfc_event :=
  | EvCreated (stakerID : Z) (staker : SfcStaker)
  | EvDelegated (id : DelegationID) (amount : Z)
  | EvDeactivated (stakerID epoch time : Z)
  | EvStatus (stakerID status : Z)
  | EvUndelegated (id : DelegationID) (amount : Z)
  | EvRewards (id : DelegationID) (reward : Z)
  | EvOther.

Definition id_of (t : list Z) : Z := u32 (u64 (big_SetBytes t)).
Definition addr_of (t : list Z) : list Z := BytesToAddress (drop 12 t).
Definition word_of (data : list Z) (i : nat) : Z := big_SetBytes (take 32 (drop i data)).

(** The event a log of the contract stands for. *)
Definition event_of (topics : SfcTopics) (l : Log) : sfc_event :=
  let d := l_Data l in
  match l_Topics l with
  | t0 :: t1 :: rest =>
      if decide (t0 = DeactivatedValidator topics) then
        EvDeactivated (id_of t1) (u32 (u64 (word_of d 0))) (FromUnix (i64 (u64 (word_of d 32))))
      else if decide (t0 = ChangedValidatorStatus topics) then EvStatus (id_of t1) (u64 (word_of d 0))
      else
        match rest with
        | t2 :: _ =>
            if decide (t0 = CreatedValidator topics) then
              EvCreated (id_of t1) (mkSfcStaker (u32 (u64 (word_of d 0))) (FromUnix (i64 (u64 (word_of d 32))))
                                      0 0 (addr_of t2) 0 None None false)
            else if decide (t0 = Delegated topics) then EvDelegated (mkDelegationID (addr_of t1) (id_of t2)) (word_of d 0)
            else if decide (t0 = Undelegated topics) then EvUndelegated (mkDelegationID (addr_of t1) (id_of t2)) (word_of d 0)
            else if decide (t0 = ClaimedRewards topics ∨ t0 = RestakedRewards topics) then
              EvRewards (mkDelegationID (addr_of t1) (id_of t2)) (word_of d 0 + word_of d 32 + word_of d 64)
            else EvOther
        | [] => EvOther
        end
  | _ => EvOther
  end.

(** The events of the contract's ABI have so much data. *)
Definition event_size (topics : SfcTopics) (t0 : list Z) : Z :=
  if decide (t0 = CreatedValidator topics ∨ t0 = DeactivatedValidator topics) then 64
  else if decide (t0 = ClaimedRewards topics ∨ t0 = RestakedRewards topics) then 96
  else if decide (t0 = ChangedValidatorStatus topics ∨ t0 = Delegated topics ∨ t0 = Undelegated topics) then 32
  else 0.

(** A log as the contract emits it: it has a first topic, topics are hashes, the data is complete. *)
Record sfc_log (topics : SfcTopics) (l : Log) : Prop := {
  sl_topics : Forall (λ t, length t = 32%nat) (l_Topics l);
  sl_data : bytes_ok (l_Data l);
  sl_first : ∃ t0, l_Topics l !! 0%nat = Some t0 ∧ event_size topics t0 <= len (l_Data l);
}.

(** Signatures have different hashes. *)
Definition topics_distinct (topics : SfcTopics) : Prop :=
  NoDup [ClaimedRewards topics; RestakedRewards topics; ClaimedDelegationReward topics; ClaimedValidatorReward topics;
         CreatedValidator topics; DeactivatedValidator topics; ChangedValidatorStatus topics; Delegated topics;
         Undelegated topics].

(** Amounts are unsigned words. *)
Definition event_nonneg (e : sfc_event) : Prop :=
  match e with EvDelegated _ a | EvUndelegated _ a | EvRewards _ a => 0 <= a | _ => True end.

(** ** The abstract state: what the store's readers see *)

Record SfcView := mkView {
  v_staker : Z → option SfcStaker;
  v_delegation : DelegationID → option Z;
  v_claimed : DelegationID → Z;
  v_total : Z → Z;
}.

Definition fupd {K A} `{EqDecision K} (f : K → A) (k : K) (a : A) : K → A := λ k', if decide (k = k') then a else f k'.

Definition apply_event (e : sfc_event) (v : SfcView) : SfcView :=
  match e with
  | EvCreated i k => mkView (fupd (v_staker v) i (Some k)) (v_delegation v) (v_claimed v) (v_total v)
  | EvDelegated id a =>
      mkView (v_staker v) (fupd (v_delegation v) id (Some (a + default 0 (v_delegation v id)))) (v_claimed v) (v_total v)
  | EvDeactivated i epoch time =>
      match v_staker v i with
      | None => v
      | Some k => mkView (fupd (v_staker v) i (Some (mkSfcStaker (CreatedEpoch k) (CreatedTime k) epoch time
                    (sk_Address k) (sk_Status k) None None false))) (v_delegation v) (v_claimed v) (v_total v)
      end
  | EvStatus i status =>
      match v_staker v i with
      | None => v
      | Some k => mkView (fupd (v_staker v) i (Some (mkSfcStaker (CreatedEpoch k) (CreatedTime k) (DeactivatedEpoch k)
                    (DeactivatedTime k) (sk_Address k) status None None false))) (v_delegation v) (v_claimed v) (v_total v)
      end
  | EvUndelegated id a =>
      match v_delegation v id with
      | None => v
      | Some b => mkView (v_staker v) (fupd (v_delegation v) id (if decide (a < b) then Some (b - a) else None))
                    (v_claimed v) (v_total v)
      end
  | EvRewards id r =>
      mkView (v_staker v) (v_delegation v) (fupd (v_claimed v) id (v_claimed v id + r))
        (fupd (v_total v) (StakerID id) (v_total v (StakerID id) + r))
  | EvOther => v
  end.

Definition empty_view : SfcView := mkView (λ _, None) (λ _, None) (λ _, 0) (λ _, 0).

Definition did_ok (id : DelegationID) : Prop := length (Delegator id) = 20%nat ∧ is_u32 (StakerID id).

Section refinement.
Context `{IdxBytesLaws} `{SfcRLPLaws}.

(** Amounts are never negative, so they can be encoded. *)
Record sees (v : SfcView) (s : SfcStore) : Prop := {
  see_staker : ∀ i, is_u32 i → GetSfcStaker i s = Ok (v_staker v i) ∧ (∀ k, v_staker v i = Some k → stored_staker k = k ∧ length (sk_Address k) = 20%nat);
  see_delegation : ∀ id, did_ok id →
    GetSfcDelegation id s = Ok ((λ a, mkSfcDelegation a 0 0 0 0) <$> v_delegation v id) ∧
    (∀ a, v_delegation v id = Some a → 0 <= a);
  see_claimed : ∀ id, did_ok id → GetDelegationClaimedRewards id s = v_claimed v id ∧ 0 <= v_claimed v id;
  see_total : ∀ i, is_u32 i → GetStakerDelegationsClaimedRewards i s = v_total v i ∧ 0 <= v_total v i;
}.

Lemma ValidatorID_Bytes_inj i j : is_u32 i → is_u32 j → ValidatorID_Bytes i = ValidatorID_Bytes j → i = j.
Proof. intros Hi Hj E. rewrite <- (BytesToValidatorID_Bytes i Hi), E. by apply BytesToValidatorID_Bytes. Qed.

Lemma DelegationID_Bytes_inj a b : did_ok a → did_ok b → DelegationID_Bytes a = DelegationID_Bytes b → a = b.
Proof.
  destruct a as [da ia], b as [db ib]. intros [Ha Hia] [Hb Hib] E. cbn in *. unfold DelegationID_Bytes in E. cbn in E.
  apply app_inj_1 in E as [-> E]; [|by rewrite Ha, Hb]. by rewrite (ValidatorID_Bytes_inj ia ib).
Qed.

(** The keys of a delegation are those of the API's identifiers. *)
Lemma BytesToDelegationID_Bytes id : did_ok id → BytesToDelegationID (DelegationID_Bytes id) = Ok id.
Proof.
  destruct id as [d i]. intros [Hd Hi]. cbn in *. unfold BytesToDelegationID, DelegationID_Bytes, DelegationIDSize. cbn.
  assert (Hl : len (d ++ ValidatorID_Bytes i) = 24) by (unfold len; rewrite length_app, Hd, ValidatorID_Bytes_len; done).
  rewrite Hl. cbn. unfold subslice. rewrite Hl. cbn. rewrite drop_0. rewrite take_app_length' by done.
  rewrite drop_app_length' by done. by rewrite BytesToAddress_id, BytesToValidatorID_Bytes.
Qed.

Lemma SetSfcStaker_sees i k v s :
  sees v s → is_u32 i → stored_staker k = k → length (sk_Address k) = 20%nat →
  ∃ s', SetSfcStaker i k s = Ok s' ∧ sees (mkView (fupd (v_staker v) i (Some k)) (v_delegation v) (v_claimed v) (v_total v)) s'.
Proof.
  intros Hs Hi Hk Hlen. unfold SetSfcStaker, rlp_Set. destruct (enc_staker_spec k) as (b & -> & Hd). cbn.
  eexists. split; [done|]. split; cbn; try apply Hs. intros j Hj. unfold GetSfcStaker, rlp_Get. cbn. unfold fupd.
  destruct (decide (i = j)) as [<-|Hne].
  - rewrite lookup_insert_eq, Hd, Hk. split; [done|]. by intros ? [= <-].
  - rewrite lookup_insert_ne by (by intros E%ValidatorID_Bytes_inj). apply (see_staker _ _ Hs j Hj).
Qed.

Lemma SetSfcDelegation_sees id a v s :
  sees v s → did_ok id → 0 <= a →
  ∃ s', SetSfcDelegation id (mkSfcDelegation a 0 0 0 0) s = Ok s' ∧
    sees (mkView (v_staker v) (fupd (v_delegation v) id (Some a)) (v_claimed v) (v_total v)) s'.
Proof.
  intros Hs Hid Ha. unfold SetSfcDelegation, rlp_Set.
  destruct (enc_delegation_spec (mkSfcDelegation a 0 0 0 0) Ha) as (b & -> & Hd). cbn.
  eexists. split; [done|]. split; cbn; try apply Hs. intros j Hj. unfold GetSfcDelegation, rlp_Get. cbn. unfold fupd.
  destruct (decide (id = j)) as [<-|Hne].
  - rewrite lookup_insert_eq, Hd. split; [done|]. by intros ? [= <-].
  - rewrite lookup_insert_ne by (by intros E%DelegationID_Bytes_inj). apply (see_delegation _ _ Hs j Hj).
Qed.

Lemma DelSfcDelegation_sees id v s :
  sees v s → did_ok id →
  sees (mkView (v_staker v) (fupd (v_delegation v) id None) (v_claimed v) (v_total v)) (DelSfcDelegation id s).
Proof.
  intros Hs Hid. split; cbn; try apply Hs. intros j Hj. unfold GetSfcDelegation, rlp_Get. cbn. unfold fupd.
  destruct (decide (id = j)) as [<-|Hne].
  - by rewrite lookup_delete_eq.
  - rewrite lookup_delete_ne by (by intros E%DelegationID_Bytes_inj). apply (see_delegation _ _ Hs j Hj).
Qed.

Lemma count_reward_sees id r v s :
  sees v s → did_ok id → 0 <= r → sees (apply_event (EvRewards id r) v) (count_reward id r s).
Proof.
  intros Hs Hid Hr. destruct (see_claimed _ _ Hs id Hid) as [Ec Hc], (see_total _ _ Hs _ (proj2 Hid)) as [Et Ht].
  split; cbn; try apply Hs.
  - intros j Hj. unfold GetDelegationClaimedRewards, amount_at. cbn. unfold fupd. destruct (decide (id = j)) as [<-|Hne].
    + rewrite lookup_insert_eq, Ec. split; [apply big_Bytes_spec|]; lia.
    + rewrite lookup_insert_ne by (by intros E%DelegationID_Bytes_inj). apply (see_claimed _ _ Hs j Hj).
  - intros j Hj. unfold GetStakerDelegationsClaimedRewards, amount_at. cbn. unfold fupd.
    destruct (decide (StakerID id = j)) as [<-|Hne].
    + rewrite lookup_insert_eq. unfold GetStakerDelegationsClaimedRewards in *. cbn in *. rewrite Et.
      split; [apply big_Bytes_spec|]; lia.
    + rewrite lookup_insert_ne by (intros E%ValidatorID_Bytes_inj; [done|apply Hid|done]). apply (see_total _ _ Hs j Hj).
Qed.

(** ** Reading the logs *)

Lemma data_word_ok data i : bytes_ok data → 0 <= i → i + 32 <= len data →
  data_word data i = Ok (word_of data (Z.to_nat i)).
Proof.
  intros Hb Hi Hl. unfold data_word, subslice, word_of. rewrite !(proj2 (Z.leb_le _ _)) by lia. cbn [andb mbind res_bind].
  by replace (Z.to_nat (i + 32 - i)) with 32%nat by lia.
Qed.

Lemma word_of_nonneg data i : bytes_ok data → 0 <= word_of data i.
Proof. intros Hb. apply big_SetBytes_nonneg. unfold bytes_ok in *. by apply Forall_take, Forall_drop. Qed.

Lemma id_of_u32 t : is_u32 (id_of t).
Proof. apply u32_range. Qed.

Lemma addr_of_length t : length t = 32%nat → length (addr_of t) = 20%nat.
Proof. intros E. unfold addr_of. rewrite BytesToAddress_id; rewrite length_drop, E; done. Qed.

Variable ContractAddress : list Z.
Variable topics : SfcTopics.
Hypothesis Hdistinct : topics_distinct topics.

Lemma part_skip body l rest s : part false body l rest s = rest s.
Proof. done. Qed.
Lemma part_run body l rest s : part true body l rest s = (o ← body l s; match o with None => Ok s | Some s => rest s end).
Proof. done. Qed.

Notation onNewLog := (OnNewLog ContractAddress topics).
Notation eventOf := (event_of topics).

Lemma topic_id_1 t0 t1 rest : topic_id (t0 :: t1 :: rest) 1 = Ok (id_of t1).
Proof. done. Qed.
Lemma topic_id_2 t0 t1 t2 rest : topic_id (t0 :: t1 :: t2 :: rest) 2 = Ok (id_of t2).
Proof. done. Qed.
Lemma topic_address_1 t0 t1 rest : topic_address (t0 :: t1 :: rest) 1 = Ok (addr_of t1).
Proof. done. Qed.
Lemma topic_address_2 t0 t1 t2 rest : topic_address (t0 :: t1 :: t2 :: rest) 2 = Ok (addr_of t2).
Proof. done. Qed.

(** Each part, on the topics and data it asks for. *)
Section parts.
Context (l : Log) (t0 t1 : list Z) (v : SfcView) (s : SfcStore) (Hb : bytes_ok (l_Data l)) (Hs : sees v s).

Local Ltac read_log Hl :=
  rewrite Hl, ?topic_id_1, ?topic_id_2, ?topic_address_1, ?topic_address_2; rewrite ?data_word_ok by (done || lia);
  cbn [mbind res_bind].

Lemma deactivate_sees rest : l_Topics l = t0 :: t1 :: rest → 64 <= len (l_Data l) →
  let e := EvDeactivated (id_of t1) (u32 (u64 (word_of (l_Data l) 0))) (FromUnix (i64 (u64 (word_of (l_Data l) 32)))) in
  ∃ o, deactivate l s = Ok o ∧ sees (apply_event e v) (default s o).
Proof.
  intros Hl Hd. cbn zeta. unfold deactivate. read_log Hl.
  destruct (see_staker _ _ Hs _ (id_of_u32 t1)) as [-> Hk]. cbn [mbind res_bind]. unfold apply_event.
  destruct (v_staker v (id_of t1)) as [k|]; [|by exists None].
  destruct (Hk k eq_refl) as [Hst Hlen]. unfold stored_staker in Hst. rewrite <- Hst. cbn [CreatedEpoch CreatedTime DeactivatedEpoch DeactivatedTime sk_Address sk_Status StakeAmount DelegatedMe IsValidator].
  edestruct SetSfcStaker_sees as (s' & E & Hs'); [exact Hs|apply (id_of_u32 t1)|..|rewrite E; exists (Some s'); split; [done|exact Hs']]; done.
Qed.

Lemma change_status_sees rest : l_Topics l = t0 :: t1 :: rest → 32 <= len (l_Data l) →
  ∃ o, change_status l s = Ok o ∧ sees (apply_event (EvStatus (id_of t1) (u64 (word_of (l_Data l) 0))) v) (default s o).
Proof.
  intros Hl Hd. unfold change_status. read_log Hl.
  destruct (see_staker _ _ Hs _ (id_of_u32 t1)) as [-> Hk]. cbn [mbind res_bind]. unfold apply_event.
  destruct (v_staker v (id_of t1)) as [k|]; [|by exists None].
  destruct (Hk k eq_refl) as [Hst Hlen]. unfold stored_staker in Hst. rewrite <- Hst. cbn [CreatedEpoch CreatedTime DeactivatedEpoch DeactivatedTime sk_Address sk_Status StakeAmount DelegatedMe IsValidator].
  edestruct SetSfcStaker_sees as (s' & E & Hs'); [exact Hs|apply (id_of_u32 t1)|..|rewrite E; exists (Some s'); split; [done|exact Hs']]; done.
Qed.

Lemma new_staker_sees t2 rest : l_Topics l = t0 :: t1 :: t2 :: rest → length t2 = 32%nat → 64 <= len (l_Data l) →
  let k := mkSfcStaker (u32 (u64 (word_of (l_Data l) 0))) (FromUnix (i64 (u64 (word_of (l_Data l) 32)))) 0 0 (addr_of t2) 0 None None false in
  ∃ o, new_staker l s = Ok o ∧ sees (apply_event (EvCreated (id_of t1) k) v) (default s o).
Proof.
  intros Hl Ht2%addr_of_length Hd. cbn zeta. unfold new_staker. read_log Hl.
  edestruct SetSfcStaker_sees as (s' & E & Hs'); [exact Hs|apply (id_of_u32 t1)|..|rewrite E; exists (Some s'); split; [done|exact Hs']]; done.
Qed.

(** The parts about a delegation. *)
Context (t2 : list Z) (rest : list (list Z)) (Hl : l_Topics l = t0 :: t1 :: t2 :: rest) (Ht : length t1 = 32%nat).
Let id := mkDelegationID (addr_of t1) (id_of t2).

Lemma topic_did : did_ok id.
Proof. split; [by apply addr_of_length|apply id_of_u32]. Qed.

Lemma new_delegation_sees : 32 <= len (l_Data l) →
  ∃ o, new_delegation l s = Ok o ∧ sees (apply_event (EvDelegated id (word_of (l_Data l) 0)) v) (default s o).
Proof.
  intros Hd. unfold new_delegation. read_log Hl. fold id. destruct (see_delegation _ _ Hs _ topic_did) as [-> Ha].
  cbn [mbind res_bind]. pose proof (word_of_nonneg (l_Data l) 0 Hb) as Hw.
  assert (Hsum : 0 <= word_of (l_Data l) 0 + default 0 (v_delegation v id)).
  { destruct (v_delegation v id) as [a|]; cbn; [specialize (Ha a eq_refl)|]; lia. }
  destruct (SetSfcDelegation_sees id _ v s Hs topic_did Hsum) as (s' & E & Hs'). exists (Some s'). split; [|done].
  change (Z.to_nat 0) with 0%nat. destruct (v_delegation v id); cbn in *; rewrite ?Z.add_0_r in E; by rewrite E.
Qed.

Lemma undelegate_sees : 32 <= len (l_Data l) →
  ∃ o, undelegate l s = Ok o ∧ sees (apply_event (EvUndelegated id (word_of (l_Data l) 0)) v) (default s o).
Proof.
  intros Hd. unfold undelegate. read_log Hl. fold id. destruct (see_delegation _ _ Hs _ topic_did) as [-> Ha].
  cbn [mbind res_bind]. change (Z.to_nat 0) with 0%nat. unfold apply_event.
  destruct (v_delegation v id) as [b|]; cbn [fmap option_fmap option_map]; [|by exists None].
  cbn [Amount dg_CreatedEpoch dg_CreatedTime dg_DeactivatedEpoch dg_DeactivatedTime].
  set (w := word_of (l_Data l) 0).
  destruct (Z.ltb_spec 0 (Z.sgn (b - w))) as [Hp%Z.sgn_pos_iff|Hn%Z.sgn_nonpos].
  - rewrite decide_True by lia.
    destruct (SetSfcDelegation_sees id (b - w) v s Hs topic_did ltac:(lia)) as (s' & E & Hs').
    rewrite E. by exists (Some s').
  - rewrite decide_False by lia. eexists. split; [done|]. by apply DelSfcDelegation_sees, topic_did.
Qed.

Lemma track_rewards_sees : 96 <= len (l_Data l) →
  ∃ o, track_rewards l s = Ok o ∧
    sees (apply_event (EvRewards id (word_of (l_Data l) 0 + word_of (l_Data l) 32 + word_of (l_Data l) 64)) v) (default s o).
Proof.
  intros Hd. unfold track_rewards. read_log Hl. eexists. split; [done|].
  pose proof (word_of_nonneg (l_Data l) 0 Hb). pose proof (word_of_nonneg (l_Data l) 32 Hb). pose proof (word_of_nonneg (l_Data l) 64 Hb).
  apply (count_reward_sees id (word_of (l_Data l) 0 + word_of (l_Data l) 32 + word_of (l_Data l) 64) v s Hs topic_did). lia.
Qed.
End parts.

Lemma distinct_topics : 
  let T := topics in
  CreatedValidator T ≠ Delegated T ∧ CreatedValidator T ≠ DeactivatedValidator T ∧ CreatedValidator T ≠ ChangedValidatorStatus T ∧
  CreatedValidator T ≠ Undelegated T ∧ CreatedValidator T ≠ ClaimedRewards T ∧ CreatedValidator T ≠ RestakedRewards T ∧
  Delegated T ≠ DeactivatedValidator T ∧ Delegated T ≠ ChangedValidatorStatus T ∧ Delegated T ≠ Undelegated T ∧
  Delegated T ≠ ClaimedRewards T ∧ Delegated T ≠ RestakedRewards T ∧ DeactivatedValidator T ≠ ChangedValidatorStatus T ∧
  DeactivatedValidator T ≠ Undelegated T ∧ DeactivatedValidator T ≠ ClaimedRewards T ∧ DeactivatedValidator T ≠ RestakedRewards T ∧
  ChangedValidatorStatus T ≠ Undelegated T ∧ ChangedValidatorStatus T ≠ ClaimedRewards T ∧
  ChangedValidatorStatus T ≠ RestakedRewards T ∧ Undelegated T ≠ ClaimedRewards T ∧ Undelegated T ≠ RestakedRewards T.
Proof.
  cbn zeta. unfold topics_distinct in Hdistinct. clear -Hdistinct.
  repeat match goal with
         | H : NoDup (_ :: _) |- _ => apply NoDup_cons in H as [? H]
         | H : _ ∉ _ :: _ |- _ => apply not_elem_of_cons in H as [? H]
         end.
  repeat split; congruence.
Qed.

Local Ltac topic_cases :=
  repeat match goal with
    | |- context [bool_decide (?a = ?b)] =>
        first [rewrite (bool_decide_true (a = b)) by done | rewrite (bool_decide_false (a = b)) by congruence]
    end; cbn [andb orb]; rewrite ?part_skip.

Lemma event_sizes t0 n : event_size topics t0 <= n →
  (t0 = CreatedValidator topics ∨ t0 = DeactivatedValidator topics → 64 <= n) ∧
  (t0 = ClaimedRewards topics ∨ t0 = RestakedRewards topics → 96 <= n) ∧
  (t0 = ChangedValidatorStatus topics ∨ t0 = Delegated topics ∨ t0 = Undelegated topics → 32 <= n).
Proof using Hdistinct.
  destruct distinct_topics as (? & ? & ? & ? & ? & ? & ? & ? & ? & ? & ? & ? & ? & ? & ? & ? & ? & ? & ? & ?).
  unfold event_size. intros E. repeat case_decide; split_and!; intros; try lia; exfalso; naive_solver congruence.
Qed.

(** A part that is the last one to run. *)
Lemma run_last body l s o rest : (∀ s, rest s = Ok s) → body l s = Ok o → part true body l rest s = Ok (default s o).
Proof. intros Hr E. rewrite part_run, E. destruct o; cbn; [apply Hr|done]. Qed.

(** One log of the contract, as the abstract state takes it. *)
Lemma OnNewLog_sees l v s :
  l_Address l = ContractAddress → sfc_log topics l → sees v s →
  ∃ s', onNewLog l s = Ok s' ∧ sees (apply_event (eventOf l) v) s'.
Proof.
  intros Ha Hl Hs. unfold OnNewLog. rewrite bool_decide_true by done. cbn [negb].
  destruct (sl_first _ _ Hl) as (t0 & E0 & Hsize). rewrite (index_0 _ _ E0). cbn [mbind res_bind].
  pose proof (sl_topics _ _ Hl) as Ht. pose proof (sl_data _ _ Hl) as Hb. unfold event_of.
  destruct (event_sizes _ _ Hsize) as (H64 & H96 & H32). clear Hsize.
  destruct (l_Topics l) as [|x [|t1 rest]] eqn:El; [done|..]; injection E0 as ->.
  { change (len [t0]) with 1. cbn [Z.ltb Z.compare Pos.compare Pos.compare_cont]. rewrite ?andb_false_r. cbn [andb]. rewrite !part_skip. by exists s. }
  destruct distinct_topics as (? & ? & ? & ? & ? & ? & ? & ? & ? & ? & ? & ? & ? & ? & ? & ? & ? & ? & ? & ?).
  apply Forall_cons in Ht as [_ [Ht1 Ht]%Forall_cons].
  rewrite (proj2 (Z.ltb_lt 1 (len (t0 :: t1 :: rest)))) by (unfold len; cbn; lia).
  destruct (decide (t0 = DeactivatedValidator topics)) as [->|N1].
  { topic_cases. destruct (deactivate_sees l _ t1 v s Hb Hs rest El) as (o & E & Hs'); [auto|].
    exists (default s o). split; [|done]. by apply run_last. }
  destruct (decide (t0 = ChangedValidatorStatus topics)) as [->|N2].
  { topic_cases. destruct (change_status_sees l _ t1 v s Hb Hs rest El) as (o & E & Hs'); [auto|].
    exists (default s o). split; [|done]. by apply run_last. }
  destruct rest as [|t2 rest].
  { change (len [t0; t1]) with 2. cbn [Z.ltb Z.compare Pos.compare Pos.compare_cont]. rewrite ?andb_false_r.
    topic_cases. rewrite ?andb_false_r, ?part_skip. by exists s. }
  rewrite (proj2 (Z.ltb_lt 2 (len (t0 :: t1 :: t2 :: rest)))) by (unfold len; cbn; lia).
  destruct (decide (t0 = CreatedValidator topics)) as [->|N3].
  { topic_cases. destruct (new_staker_sees l _ t1 v s Hb Hs t2 rest El) as (o & E & Hs'); [by apply Forall_cons in Ht as [? _]|auto|].
    rewrite (proj2 (Z.leb_le 32 _)) by (specialize (H64 ltac:(auto)); lia).
    exists (default s o). split; [|done]. by apply run_last. }
  destruct (decide (t0 = Delegated topics)) as [->|N4].
  { topic_cases. destruct (new_delegation_sees l _ t1 v s Hb Hs t2 rest El Ht1) as (o & E & Hs'); [auto|].
    rewrite (proj2 (Z.leb_le 32 _)) by auto. exists (default s o). split; [|done]. by apply run_last. }
  destruct (decide (t0 = Undelegated topics)) as [->|N5].
  { topic_cases. destruct (undelegate_sees l _ t1 v s Hb Hs t2 rest El Ht1) as (o & E & Hs'); [auto|].
    rewrite (proj2 (Z.leb_le 32 _)) by auto. exists (default s o). split; [|done]. by apply run_last. }
  destruct (decide (t0 = ClaimedRewards topics ∨ t0 = RestakedRewards topics)) as [Hr|N6].
  { destruct (track_rewards_sees l _ t1 v s Hb Hs t2 rest El Ht1) as (o & E & Hs'); [auto|].
    assert (bool_decide (t0 = ClaimedRewards topics) || bool_decide (t0 = RestakedRewards topics) = true) as ->.
    { apply orb_true_iff. rewrite !bool_decide_eq_true. done. }
    topic_cases. rewrite (proj2 (Z.leb_le 96 _)) by auto. exists (default s o). split; [|done]. by apply run_last. }
  apply Decidable.not_or in N6 as [N6 N7]. topic_cases. by exists s.
Qed.

Lemma event_of_nonneg l : sfc_log topics l → event_nonneg (eventOf l).
Proof.
  intros [_ Hb _]. pose proof (λ i, word_of_nonneg (l_Data l) i Hb) as Hw. unfold event_of.
  pose proof (Hw 0%nat). pose proof (Hw 32%nat). pose proof (Hw 64%nat). clear Hw.
  destruct (l_Topics l) as [|t0 [|t1 [|t2 rest]]]; repeat case_decide; cbn; lia || done.
Qed.

(** ** The history of a contract's logs *)

Definition from_contract (l : Log) : Prop := l_Address l = ContractAddress.
#[local] Instance from_contract_dec l : Decision (from_contract l).
Proof. unfold from_contract. apply _. Defined.

Definition contract_events (logs : list Log) : list sfc_event := eventOf <$> filter from_contract logs.

Lemma OnNewLogs_sees logs v s :
  Forall (λ l, from_contract l → sfc_log topics l) logs → sees v s →
  ∃ s', OnNewLogs ContractAddress topics logs s = Ok s' ∧ sees (foldl (λ v e, apply_event e v) v (contract_events logs)) s'.
Proof.
  unfold contract_events. intros Hlogs. revert v s. induction Hlogs as [|l logs Hl _ IH]; intros v s Hs; [by exists s|].
  cbn [OnNewLogs]. rewrite filter_cons. destruct (decide (from_contract l)) as [Hc|Hc].
  - destruct (OnNewLog_sees l v s Hc (Hl Hc) Hs) as (s1 & -> & Hs1). cbn. by apply IH.
  - unfold OnNewLog. rewrite bool_decide_false by done. cbn. by apply IH.
Qed.
End refinement.

(** What an event adds to the rewards and to the stake of a delegation, and to the rewards of a staker. *)
Definition reward_of (id : DelegationID) (e : sfc_event) : Z :=
  match e with EvRewards id' r => if decide (id' = id) then r else 0 | _ => 0 end.
Definition staker_reward (i : Z) (e : sfc_event) : Z :=
  match e with EvRewards id' r => if decide (StakerID id' = i) then r else 0 | _ => 0 end.
Definition stake_of (id : DelegationID) (e : sfc_event) : Z :=
  match e with
  | EvDelegated id' a => if decide (id' = id) then a else 0
  | EvUndelegated id' a => if decide (id' = id) then - a else 0
  | _ => 0
  end.
Definition balance (id : DelegationID) (evs : list sfc_event) : Z := sum_Z (stake_of id <$> evs).
Definition creates (i : Z) (e : sfc_event) : Prop := match e with EvCreated i' _ => i' = i | _ => False end.

(** The addresses that claimed rewards, each once. *)
Definition claimant (e : sfc_event) : list (list Z) := match e with EvRewards id _ => [Delegator id] | _ => [] end.
Definition claimants (evs : list sfc_event) : list (list Z) := remove_dups (evs ≫= claimant).

Notation replay := (foldl (λ v e, apply_event e v)).

Lemma replay_claimed evs v id : v_claimed (replay v evs) id = v_claimed v id + sum_Z (reward_of id <$> evs).
Proof.
  revert v. induction evs as [|e evs IH]; intros v; cbn; [lia|]. rewrite IH. unfold sum_Z.
  destruct e as [| |i ? ?|i ?|id' a|id' r|]; cbn; try lia.
  - destruct (v_staker v i); cbn; lia.
  - destruct (v_staker v i); cbn; lia.
  - destruct (v_delegation v id'); cbn; lia.
  - unfold fupd. destruct (decide (id' = id)) as [->|]; lia.
Qed.

Lemma replay_total evs v i : v_total (replay v evs) i = v_total v i + sum_Z (staker_reward i <$> evs).
Proof.
  revert v. induction evs as [|e evs IH]; intros v; cbn; [lia|]. rewrite IH. unfold sum_Z.
  destruct e as [| |j ? ?|j ?|id' a|id' r|]; cbn; try lia.
  - destruct (v_staker v j); cbn; lia.
  - destruct (v_staker v j); cbn; lia.
  - destruct (v_delegation v id'); cbn; lia.
  - unfold fupd. destruct (decide (StakerID id' = i)) as [->|]; lia.
Qed.

Lemma replay_staker evs v i :
  is_Some (v_staker (replay v evs) i) ↔ is_Some (v_staker v i) ∨ Exists (creates i) evs.
Proof.
  revert v. induction evs as [|e evs IH]; intros v; cbn; [rewrite Exists_nil; tauto|]. rewrite IH, Exists_cons.
  assert (is_Some (v_staker (apply_event e v) i) ↔ is_Some (v_staker v i) ∨ creates i e) as ->; [|tauto].
  destruct e as [j k| |j ? ?|j ?|id' a|id' r|]; cbn; try tauto.
  - unfold fupd. destruct (decide (j = i)) as [->|]; [split; [tauto|by eauto]|tauto].
  - destruct (v_staker v j) eqn:Ej; cbn; [|tauto]. unfold fupd. destruct (decide (j = i)) as [->|]; [|tauto].
    rewrite Ej. split; eauto.
  - destruct (v_staker v j) eqn:Ej; cbn; [|tauto]. unfold fupd. destruct (decide (j = i)) as [->|]; [|tauto].
    rewrite Ej. split; eauto.
  - destruct (v_delegation v id'); cbn; tauto.
Qed.

(** A delegation that is never overdrawn holds what was put in and not yet taken out. *)
Lemma replay_delegation evs v id :
  Forall event_nonneg evs → (∀ pre, pre `prefix_of` evs → 0 <= default 0 (v_delegation v id) + balance id pre) →
  default 0 (v_delegation (replay v evs) id) = default 0 (v_delegation v id) + balance id evs.
Proof.
  intros Hnn. revert v. induction Hnn as [|e evs He _ IH]; intros v Hpre; cbn; [lia|].
  assert (Hstep : default 0 (v_delegation (apply_event e v) id) = default 0 (v_delegation v id) + stake_of id e).
  { specialize (Hpre [e] ltac:(by apply prefix_cons, prefix_nil)). unfold balance, sum_Z in Hpre. cbn in Hpre.
    destruct e as [| id' a|i ? ?|i ?|id' a|id' r|]; cbn in *; try lia.
    - unfold fupd. destruct (decide (id' = id)) as [->|]; cbn; lia.
    - destruct (v_staker v i); cbn; lia.
    - destruct (v_staker v i); cbn; lia.
    - destruct (v_delegation v id') as [b|] eqn:Eb; cbn.
      + unfold fupd. destruct (decide (id' = id)) as [->|]; [|lia]. rewrite Eb in *. cbn in *. case_decide; cbn; lia.
      + destruct (decide (id' = id)) as [->|]; [|lia]. rewrite Eb in *. cbn in *. lia. }
  rewrite IH; [rewrite Hstep; unfold balance, sum_Z; cbn; lia|].
  intros pre Hp. rewrite Hstep. specialize (Hpre (e :: pre) ltac:(by apply prefix_cons)).
  unfold balance, sum_Z in *. cbn in Hpre. lia.
Qed.

(** Summing over the delegators of a staker. *)
Lemma sum_Z_ext {A} (f g : A → Z) l : (∀ x, x ∈ l → f x = g x) → sum_Z (f <$> l) = sum_Z (g <$> l).
Proof.
  induction l as [|x l IH]; intros E; [done|]. cbn. rewrite (E x) by (by left). f_equal. apply IH. intros y Hy. apply E. by right.
Qed.

Lemma sum_Z_add {A} (f g : A → Z) l : sum_Z ((λ x, f x + g x) <$> l) = sum_Z (f <$> l) + sum_Z (g <$> l).
Proof. induction l as [|x l IH]; [done|]. cbn in *. unfold sum_Z in *. lia. Qed.

Lemma sum_Z_zero {A} (l : list A) : sum_Z ((λ _, 0) <$> l) = 0.
Proof. by induction l. Qed.

Lemma sum_Z_once {A} `{EqDecision A} (x : A) r l :
  NoDup l → x ∈ l → sum_Z ((λ y, if decide (x = y) then r else 0) <$> l) = r.
Proof.
  induction 1 as [|y l Hy _ IH]; intros Hin; [by apply not_elem_of_nil in Hin|]. cbn. apply elem_of_cons in Hin as [->|Hin].
  - rewrite decide_True by done. erewrite sum_Z_ext, sum_Z_zero; [lia|]. intros z Hz. cbn. rewrite decide_False; [done|congruence].
  - rewrite decide_False by congruence. unfold sum_Z in *. rewrite IH by done. lia.
Qed.

Lemma reward_by_delegator i e D :
  NoDup D → claimant e ⊆ D → sum_Z ((λ d, reward_of (mkDelegationID d i) e) <$> D) = staker_reward i e.
Proof.
  intros Hnd Hsub. destruct e as [| | | | |[d j] r|]; try apply sum_Z_zero. cbn [staker_reward StakerID].
  destruct (decide (j = i)) as [->|Hne].
  - transitivity (sum_Z ((λ y, if decide (d = y) then r else 0) <$> D)); [|apply sum_Z_once; [done|apply Hsub; by left]].
    apply sum_Z_ext. intros d' _. cbn.
    destruct (decide (d = d')) as [->|]; [by rewrite decide_True|]. rewrite decide_False by congruence. done.
  - rewrite <- (sum_Z_zero D). apply sum_Z_ext. intros d' _. cbn. rewrite decide_False by congruence. done.
Qed.

Lemma rewards_by_delegator i evs D :
  NoDup D → (∀ e, e ∈ evs → claimant e ⊆ D) →
  sum_Z ((λ d, sum_Z (reward_of (mkDelegationID d i) <$> evs)) <$> D) = sum_Z (staker_reward i <$> evs).
Proof.
  intros Hnd. induction evs as [|e evs IH]; intros Hsub; [apply sum_Z_zero|]. rewrite fmap_cons.
  change (sum_Z (staker_reward i e :: (staker_reward i <$> evs))) with (staker_reward i e + sum_Z (staker_reward i <$> evs)).
  rewrite <- IH by (intros e' He'; apply Hsub; by right). rewrite <- (reward_by_delegator i e D) by (done || (apply Hsub; by left)).
  by rewrite <- sum_Z_add.
Qed.

Lemma claimant_length topics l d : sfc_log topics l → d ∈ claimant (event_of topics l) → length d = 20%nat.
Proof.
  intros [Ht _ _]. unfold event_of. destruct (l_Topics l) as [|t0 [|t1 [|t2 rest]]]; repeat case_decide; cbn;
    try by intros ?%not_elem_of_nil. intros ->%list_elem_of_singleton. apply addr_of_length.
  by apply Forall_cons in Ht as [_ [? _]%Forall_cons].
Qed.

Section history.
Context `{IdxBytesLaws} `{SfcRLPLaws} (ContractAddress : list Z) (topics : SfcTopics).

Definition empty_sfc : SfcStore := mkSfcStore ∅ ∅ ∅ ∅ ∅.

Lemma empty_sees : sees empty_view empty_sfc.
Proof. split; cbn; try done. Qed.

(** C31: The staking tables follow the contract.  Take any sequence of logs in which those
    of the staking contract are complete.  The node does not fail on them, and afterwards:
    the rewards claimed by a delegation are the sum of the claims in the logs; those of a
    staker's delegators are the sum of the claims for it and also the sum of what the
    tables say of each delegator; a delegation that is never overdrawn holds what was
    delegated less what was undelegated; the stakers are those that were created. *)
Theorem sfc_history_exact (logs : list Log) :
  topics_distinct topics → Forall (λ l, from_contract ContractAddress l → sfc_log topics l) logs →
  let evs := contract_events ContractAddress topics logs in
  ∃ s, OnNewLogs ContractAddress topics logs empty_sfc = Ok s ∧
    (∀ id, did_ok id → GetDelegationClaimedRewards id s = sum_Z (reward_of id <$> evs)) ∧
    (∀ i, is_u32 i → GetStakerDelegationsClaimedRewards i s = sum_Z (staker_reward i <$> evs) ∧
       GetStakerDelegationsClaimedRewards i s =
         sum_Z ((λ d, GetDelegationClaimedRewards (mkDelegationID d i) s) <$> claimants evs)) ∧
    (∀ id, did_ok id → (∀ pre, pre `prefix_of` evs → 0 <= balance id pre) →
       ∃ o, GetSfcDelegation id s = Ok o ∧ from_option Amount 0 o = balance id evs) ∧
    (∀ i, is_u32 i → ∃ o, GetSfcStaker i s = Ok o ∧ (is_Some o ↔ Exists (creates i) evs)).
Proof.
  intros Hd Hlogs evs. destruct (OnNewLogs_sees ContractAddress topics Hd logs empty_view empty_sfc Hlogs empty_sees) as (s & E & Hs).
  fold evs in Hs. exists s. split; [done|].
  assert (Hc : ∀ id, did_ok id → GetDelegationClaimedRewards id s = sum_Z (reward_of id <$> evs)).
  { intros id Hid. rewrite (proj1 (see_claimed _ _ Hs id Hid)), replay_claimed. done. }
  assert (Ht : ∀ i, is_u32 i → GetStakerDelegationsClaimedRewards i s = sum_Z (staker_reward i <$> evs)).
  { intros i Hi. rewrite (proj1 (see_total _ _ Hs i Hi)), replay_total. done. }
  split; [done|]. split; [|split].
  - intros i Hi. split; [by apply Ht|]. rewrite (Ht i Hi). unfold claimants.
    rewrite <- (rewards_by_delegator i evs (remove_dups (evs ≫= claimant))).
    + apply sum_Z_ext. intros d Hdin. symmetry. apply Hc. split; [|done].
      apply elem_of_remove_dups, list_elem_of_bind in Hdin as (e & Hde & (l & -> & [Hf Hin]%list_elem_of_filter)%list_elem_of_fmap).
      rewrite Forall_forall in Hlogs. by apply (claimant_length topics l d (Hlogs l Hin Hf)).
    + apply NoDup_remove_dups.
    + intros e He d Hde. rewrite elem_of_remove_dups. apply list_elem_of_bind. by exists e.
  - intros id Hid Hpre. destruct (see_delegation _ _ Hs id Hid) as [Eg _]. eexists. split; [exact Eg|].
    assert (Hnn : Forall event_nonneg evs).
    { apply Forall_fmap, Forall_forall. intros l [Hf Hin]%list_elem_of_filter. apply event_of_nonneg.
      rewrite Forall_forall in Hlogs. by apply Hlogs. }
    pose proof (replay_delegation evs empty_view id Hnn Hpre) as Hb. cbn in Hb. rewrite Z.add_0_l in Hb. rewrite <- Hb.
    by destruct (v_delegation _ id).
  - intros i Hi. destruct (see_staker _ _ Hs i Hi) as [Eg _]. eexists. split; [exact Eg|]. rewrite replay_staker. cbn.
    split; [|tauto]. intros [[? ?]|?]; done.
Qed.
End history.

(** ** Rewards claimed before the genesis *)

Section genesis.
Context `{IdxBytesLaws} `{SfcRLPLaws} `{KvdbLaws} `{BigEndianLaws} (ContractAddress : list Z) (topics : SfcTopics).

(** The claim in a log of the index; that of a validator is for its own address. *)
Definition genesis_claim (v : SfcView) (l : evmLog) : option (DelegationID * Z) :=
  if decide (len (lg_Data l) < 32) then None
  else match lg_Topics l with
  | t0 :: t1 :: rest =>
      if decide (t0 = ClaimedValidatorReward topics) then
        k ← v_staker v (id_of t1); Some (mkDelegationID (sk_Address k) (id_of t1), word_of (lg_Data l) 0)
      else
        match rest with
        | t2 :: _ => if decide (t0 = ClaimedDelegationReward topics)
                     then Some (mkDelegationID (addr_of t1) (id_of t2), word_of (lg_Data l) 0) else None
        | [] => None
        end
  | _ => None
  end.

Definition claim_events (v : SfcView) (logs : list evmLog) : list sfc_event :=
  omap (λ l, (λ p, EvRewards p.1 p.2) <$> genesis_claim v l) logs.

Lemma genesis_log_sees l v s :
  topics_distinct topics → Forall (λ t, length t = 32%nat) (lg_Topics l) → bytes_ok (lg_Data l) →
  lg_Topics l ≠ [] → sees v s →
  ∃ s', genesis_log topics l s = (Ok true, s') ∧ sees (replay v (claim_events v [l])) s'.
Proof.
  intros Hd Ht Hb Hne Hs. unfold genesis_log, claim_events, genesis_claim. cbv beta zeta. cbn [omap list_omap].
  pose proof (word_of_nonneg (lg_Data l) 0 Hb) as Hw.
  assert (Hcd : ClaimedValidatorReward topics ≠ ClaimedDelegationReward topics).
  { unfold topics_distinct in Hd. do 2 apply NoDup_cons in Hd as [_ Hd]. apply NoDup_cons in Hd as [Hd _].
    intros E. apply Hd. rewrite E. by left. }
  destruct (decide (len (lg_Data l) < 32)) as [Hlen|Hlen].
  { rewrite !(proj2 (Z.leb_gt 32 _)) by done. destruct (lg_Topics l) as [|t0 rest]; [done|].
    change (index (t0 :: _) 0) with (Ok t0); cbn [mbind res_bind]. rewrite !andb_false_r. by exists s. }
  rewrite !(proj2 (Z.leb_le 32 _)) by lia.
  destruct (lg_Topics l) as [|t0 [|t1 rest]]; [done|..]; change (index (t0 :: _) 0) with (Ok t0); cbn [mbind res_bind]; rewrite ?andb_true_r.
  { change (len [t0]) with 1. cbn. rewrite !andb_false_r. by exists s. }
  apply Forall_cons in Ht as [_ [Ht1 _]%Forall_cons].
  rewrite (proj2 (Z.ltb_lt 1 (len (t0 :: t1 :: rest)))) by (unfold len; cbn; lia). rewrite andb_true_r.
  destruct (decide (t0 = ClaimedValidatorReward topics)) as [->|Hn].
  { rewrite bool_decide_true by done. rewrite topic_id_1, data_word_ok by (done || lia). cbn [mbind res_bind].
    destruct (see_staker _ _ Hs _ (id_of_u32 t1)) as [-> Hk]. cbn [mbind res_bind option_bind].
    destruct (v_staker v (id_of t1)) as [k|]; [|by exists s]. destruct (Hk k eq_refl) as [_ Hlk].
    eexists. split; [done|]. refine (count_reward_sees (mkDelegationID (sk_Address k) (id_of t1)) _ v s Hs _ Hw).
    split; [done|apply id_of_u32]. }
  rewrite (bool_decide_false (t0 = ClaimedValidatorReward topics)) by done. cbn [andb].
  destruct rest as [|t2 rest]; [change (len [t0; t1]) with 2; cbn; rewrite andb_false_r; by exists s|].
  rewrite (proj2 (Z.ltb_lt 2 (len (t0 :: t1 :: t2 :: rest)))) by (unfold len; cbn; lia). rewrite !andb_true_r.
  case_bool_decide as Hcl; [rewrite decide_True by done|rewrite decide_False by done; by exists s].
  rewrite topic_address_1, topic_id_2, data_word_ok by (done || lia). cbn [mbind res_bind].
  eexists. split; [done|]. refine (count_reward_sees (mkDelegationID (addr_of t1) (id_of t2)) _ v s Hs _ Hw).
  split; [by apply addr_of_length|apply id_of_u32].
Qed.

(** Claims do not change the stakers. *)
Lemma claims_keep_stakers v logs v' : v_staker (replay v' (claim_events v logs)) = v_staker v'.
Proof.
  revert v'. unfold claim_events. induction logs as [|l logs IH]; intros v'; [done|]. cbn.
  destruct (genesis_claim v l) as [[id r]|]; cbn; by rewrite IH.
Qed.

Lemma claim_events_stakers v v' logs : v_staker v = v_staker v' → claim_events v logs = claim_events v' logs.
Proof. intros E. unfold claim_events, genesis_claim. by rewrite E. Qed.

Lemma claim_events_cons v l logs : claim_events v (l :: logs) = claim_events v [l] ++ claim_events v logs.
Proof. unfold claim_events. cbn. by destruct (genesis_claim v l). Qed.

Lemma genesis_logs_see L v s :
  topics_distinct topics →
  Forall (λ l, Forall (λ t, length t = 32%nat) (lg_Topics l) ∧ bytes_ok (lg_Data l) ∧ lg_Topics l ≠ []) L →
  sees v s →
  ∃ s', iterate L (λ l, go_on (genesis_log topics l)) s = (Ok true, s') ∧ sees (replay v (claim_events v L)) s'.
Proof.
  intros Hd HL. revert v s. induction HL as [|l L (Ht & Hb & Hne) _ IH]; intros v s Hs; [by exists s|].
  destruct (genesis_log_sees l v s Hd Ht Hb Hne Hs) as (s1 & E1 & Hs1). destruct (IH _ _ Hs1) as (s2 & E2 & Hs2).
  exists s2. rewrite claim_events_cons, foldl_app. split.
  - cbn [iterate]. cbv [go_on mbind Eff_bind mret Eff_ret] in *. rewrite E1. exact E2.
  - by rewrite (claim_events_stakers _ v L) in Hs2 by (by rewrite claims_keep_stakers).
Qed.

Definition claims_pattern : list (list (list Z)) :=
  [[Address_Hash ContractAddress]; [ClaimedValidatorReward topics; ClaimedDelegationReward topics]].

(** A claim of the contract is found by the search. *)
Lemma claim_selected v l :
  length ContractAddress = 20%nat → length (lg_Address l) = 20%nat → is_Some (genesis_claim v l) →
  lg_Address l = ContractAddress ↔ selected None 0 2 0 claims_pattern l.
Proof.
  intros Hca Hla Hs. assert (Ht : ∃ t0 rest, lg_Topics l = t0 :: rest ∧ t0 ∈ [ClaimedValidatorReward topics; ClaimedDelegationReward topics]).
  { unfold genesis_claim in Hs. case_decide; [by destruct Hs|]. destruct (lg_Topics l) as [|t0 [|t1 rest]]; [by destruct Hs..|].
    exists t0, (t1 :: rest). split; [done|].
    rewrite !elem_of_cons. case_decide; [by left|]. destruct rest; [by destruct Hs|].
    case_decide; [right; by left|by destruct Hs]. }
  destruct Ht as (t0 & rest & El & Hin). unfold selected, claims_pattern. cbn [matches_from at_pos from_ok]. rewrite El. cbn [lookup list_lookup].
  rewrite (bool_decide_true (t0 ∈ _)) by done. rewrite orb_true_r, !(bool_decide_false (_ = [])) by done. cbn [orb andb]. rewrite !andb_true_r, bool_decide_eq_true, list_elem_of_singleton.
  split.
  - intros ->. split; [done|]. split; [done|]. split; [unfold len; cbn; lia|done].
  - intros (_ & _ & _ & E). unfold Address_Hash, BytesToHash in E. rewrite !drop_0 in E || idtac.
    assert (∀ a : list Z, length a = 20%nat → drop (length a - 32) a = a) as Hdr by (intros a ->; done).
    rewrite !Hdr in E by done. rewrite Hca, Hla in E. by apply app_inv_head in E.
Qed.

Lemma claims_found v logs :
  length ContractAddress = 20%nat → Forall (λ l, length (lg_Address l) = 20%nat) logs →
  claim_events v (filter (selected None 0 2 0 claims_pattern) logs) = claim_events v (filter (λ l, lg_Address l = ContractAddress) logs).
Proof.
  intros Hca. induction 1 as [|l logs Hla _ IH]; [done|]. rewrite !filter_cons.
  destruct (genesis_claim v l) as [p|] eqn:Eg.
  - pose proof (claim_selected v l Hca Hla ltac:(by rewrite Eg)) as Hiff.
    destruct (decide (selected None 0 2 0 claims_pattern l)), (decide (lg_Address l = ContractAddress)); try tauto.
    by rewrite (claim_events_cons v l), IH, <- claim_events_cons.
  - assert (Hskip : ∀ k, claim_events v (l :: k) = claim_events v k) by (intros k; unfold claim_events; cbn; by rewrite Eg).
    do 2 case_decide; rewrite ?Hskip; done.
Qed.

Lemma claim_events_indexed v L : claim_events v (indexed <$> L) = claim_events v L.
Proof. induction L as [|l L IH]; [done|]. rewrite fmap_cons, claim_events_cons, IH, (claim_events_cons v l). done. Qed.

Lemma claims_pattern_ok :
  topics_distinct topics → length ContractAddress = 20%nat →
  length (ClaimedValidatorReward topics) = 32%nat → length (ClaimedDelegationReward topics) = 32%nat → pattern_ok claims_pattern.
Proof.
  intros Hd Hca Hv Hg. assert (ClaimedValidatorReward topics ≠ ClaimedDelegationReward topics).
  { unfold topics_distinct in Hd. do 2 apply NoDup_cons in Hd as [_ Hd]. apply NoDup_cons in Hd as [Hd _].
    intros E. apply Hd. rewrite E. by left. }
  repeat constructor; try done; rewrite ?elem_of_cons, ?elem_of_nil; try tauto. by apply Address_Hash_length.
Qed.

(** At the genesis the rewards of the logs in the index are added: each claim of a
    validator to its own address and each claim of a delegator, once, whatever the order
    in which the index gives the logs; nothing else of the tables changes. *)
Theorem genesis_rewards_exact (logs : list evmLog) ix v s :
  topics_distinct topics → length ContractAddress = 20%nat →
  length (ClaimedValidatorReward topics) = 32%nat → length (ClaimedDelegationReward topics) = 32%nat →
  index_ok ix logs → logs_ok logs → Forall (λ l, bytes_ok (lg_Data l)) logs → sees v s →
  let claims := claim_events v (filter (λ l, lg_Address l = ContractAddress) logs) in
  ∃ s', ApplyGenesis ContractAddress topics ix s = Ok s' ∧
    (∀ id, did_ok id → GetDelegationClaimedRewards id s' = GetDelegationClaimedRewards id s + sum_Z (reward_of id <$> claims)) ∧
    (∀ i, is_u32 i → GetStakerDelegationsClaimedRewards i s' =
       GetStakerDelegationsClaimedRewards i s + sum_Z (staker_reward i <$> claims)) ∧
    (∀ i, is_u32 i → GetSfcStaker i s' = GetSfcStaker i s).
Proof.
  intros Hd Hca Hv Hg Hix Hlogs Hb Hs claims. pose proof (proj1 Hlogs) as Hok.
  pose proof (claims_pattern_ok Hd Hca Hv Hg) as Hp.
  destruct (walkFirst_spec (λ s : SfcStore, (Ok None, s)) (fetch_and ix (genesis_log topics)) ix logs (λ _, eq_refl) Hix Hlogs
    None 0 2 claims_pattern 0 eq_refl) as (L & E & HL); [done|done|cbn; lia|lia|].
  assert (HLin : ∀ l, l ∈ L → l ∈ logs ∧ selected None 0 2 0 claims_pattern l).
  { intros l Hl. rewrite HL in Hl. by apply list_elem_of_filter in Hl as [? ?]. }
  destruct (genesis_logs_see (indexed <$> L) v s Hd) as (s' & Ei & Hs'); [|done|].
  { apply Forall_fmap, Forall_forall. intros l Hl. destruct (HLin l Hl) as [Hin (_ & _ & Hlen & _)].
    rewrite Forall_forall in Hb, Hok. cbn. split; [apply (Hok l Hin)|]. split; [by apply Hb|].
    destruct (lg_Topics l); [unfold len in Hlen; cbn in Hlen; lia|done]. }
  assert (Hsums : ∀ f : sfc_event → Z, sum_Z (f <$> claim_events v (indexed <$> L)) = sum_Z (f <$> claims)).
  { intros f. subst claims. rewrite claim_events_indexed, <- claims_found; [|done|eapply Forall_impl; [exact Hok|by intros ? []]].
    unfold claim_events. apply sum_Z_perm. by rewrite HL. }
  exists s'. split; [|split; [|split]].
  - unfold ApplyGenesis, ForEach. fold claims_pattern.
    rewrite (Eff_bind_step _ _ s claims_pattern s) by done. unfold searchLazy. change (u8 (len claims_pattern)) with 2.
    cbv [mbind Eff_bind]. cbn [fmap option_fmap option_map] in E. change 0 with (Z.of_nat 0) at 2. rewrite (E s).
    rewrite (handle_fetch ix logs L (genesis_log topics) s Hix Hlogs) by (intros l Hl; by apply HLin). by rewrite Ei.
  - intros id Hid. rewrite (proj1 (see_claimed _ _ Hs' id Hid)), (proj1 (see_claimed _ _ Hs id Hid)), replay_claimed. by rewrite Hsums.
  - intros i Hi. rewrite (proj1 (see_total _ _ Hs' i Hi)), (proj1 (see_total _ _ Hs i Hi)), replay_total. by rewrite Hsums.
  - intros i Hi. rewrite (proj1 (see_staker _ _ Hs' i Hi)), (proj1 (see_staker _ _ Hs i Hi)). by rewrite claims_keep_stakers.
Qed.
End genesis.

(** ** Listing the delegations of an address *)

Section listing.
Context `{IdxBytesLaws} `{SfcRLPLaws} `{KvdbLaws}.

(** The entries of the table are delegations under their identifiers. *)
Definition keyed (s : SfcStore) : Prop :=
  ∀ k b, tb_Delegations s !! k = Some b → ∃ id d, k = DelegationID_Bytes id ∧ did_ok id ∧ dec_SfcDelegation b = Ok d.

Definition is_entry (e : list Z * list Z) (it : SfcDelegationAndID) : Prop :=
  e.1 = DelegationID_Bytes (da_ID it) ∧ did_ok (da_ID it) ∧ dec_SfcDelegation e.2 = Ok (da_Delegation it).

Lemma item_entry es its it : Forall2 is_entry es its → it ∈ its → ∃ e, e ∈ es ∧ is_entry e it.
Proof.
  intros Hf [i Hi]%list_elem_of_lookup_1. destruct (Forall2_lookup_r _ _ _ _ _ Hf Hi) as (e & He & ?). exists e.
  split; [by eapply list_elem_of_lookup_2|done].
Qed.
Lemma entry_item es its e : Forall2 is_entry es its → e ∈ es → ∃ it, it ∈ its ∧ is_entry e it.
Proof.
  intros Hf [i Hi]%list_elem_of_lookup_1. destruct (Forall2_lookup_l _ _ _ _ _ Hf Hi) as (it & Hit & ?). exists it.
  split; [by eapply list_elem_of_lookup_2|done].
Qed.

(** The loop on the decoded entries. *)
Fixpoint visit {A} (do : SfcDelegationAndID → A → bool * A) (its : list SfcDelegationAndID) (a : A) : A :=
  match its with
  | [] => a
  | it :: its' => let '(continue, a) := do it a in if continue : bool then visit do its' a else a
  end.

Lemma visit_limit its limit acc : 0 <= limit →
  (visit (λ it '(limit, l), if limit =? 0 then (false, (limit, l)) else (true, (limit - 1, l ++ [it]))) its (limit, acc)).2
    = acc ++ take (Z.to_nat limit) its.
Proof.
  revert limit acc. induction its as [|it its IH]; intros limit acc Hlim; cbn [visit].
  { by rewrite take_nil, app_nil_r. }
  destruct (Z.eqb_spec limit 0) as [->|Hne]; [by rewrite app_nil_r|]. rewrite IH by lia.
  replace (Z.to_nat limit) with (S (Z.to_nat (limit - 1))) by lia. cbn [take]. by rewrite <- app_assoc.
Qed.

Lemma forEach_delegations {A} entries its (do : SfcDelegationAndID → A → bool * A) a :
  Forall2 is_entry entries its →
  forEachSfcDelegation entries do a = Ok (visit do its a).
Proof.
  intros Hf. revert a. induction Hf as [|[k b] it entries its (Ek & Hid & Ed) _ IH]; intros a; [done|]. cbn in *. subst k.
  rewrite Ed. cbn [mbind res_bind crit]. destruct Hid as [Hl Hu].
  assert (Hlen : len (DelegationID_Bytes (da_ID it)) = 24).
  { unfold DelegationID_Bytes, len. rewrite length_app, Hl, ValidatorID_Bytes_len. done. }
  rewrite Hlen. change (24 - DelegationIDSize) with 0. unfold subslice. rewrite Hlen. cbn [Z.leb Z.compare Pos.compare Pos.compare_cont andb mbind res_bind].
  change (Z.to_nat (24 - 0)) with 24%nat. change (Z.to_nat 0) with 0%nat. rewrite drop_0, take_ge by (unfold len in Hlen; lia).
  rewrite BytesToDelegationID_Bytes by done. cbn [mbind res_bind].
  replace (mkDelegationAndID (da_Delegation it) (da_ID it)) with it by (by destruct it).
  destruct (do it a) as [[] a']; [apply IH|done].
Qed.

(** The listing by address gives the delegations of the address, each once and as stored,
    but no more than the limit. *)
Theorem delegations_by_address addr limit s :
  keyed s → length addr = 20%nat → 0 <= limit →
  ∃ its, GetSfcDelegationsByAddr addr limit s = Ok (take (Z.to_nat limit) its) ∧ NoDup (da_ID <$> its) ∧
    ∀ it, it ∈ its ↔ did_ok (da_ID it) ∧ Delegator (da_ID it) = addr ∧ GetSfcDelegation (da_ID it) s = Ok (Some (da_Delegation it)).
Proof.
  intros Hk Ha Hlim. set (entries := (kv_NewIterator (tb_Delegations s) addr []).1).
  assert (Hin : ∀ k b, (k, b) ∈ entries ↔ tb_Delegations s !! k = Some b ∧ addr `prefix_of` k).
  { intros k b. unfold entries. rewrite kv_iter_elem, app_nil_r. split; [tauto|]. intros [? [x ->]]. split; [done|]. split; [by eexists|].
    rewrite <- (app_nil_r addr) at 1. rewrite bytes_cmp_prefix. by destruct x. }
  assert (Hits : ∃ its, Forall2 is_entry entries its).
  { assert (Hall : Forall (λ e, ∃ it, is_entry e it) entries).
    { apply Forall_forall. intros [k b] [Hkb _]%Hin. destruct (Hk k b Hkb) as (id & d & -> & Hid & Hd).
      exists (mkDelegationAndID d id). done. }
    clear -Hall. induction Hall as [|e es [it He] _ [its IH]]; [exists []; constructor|]. exists (it :: its). by constructor. }
  destruct Hits as [its Hf]. exists its. split; [|split].
  - unfold GetSfcDelegationsByAddr. fold entries. rewrite (forEach_delegations _ _ _ _ Hf). cbn [mbind res_bind]. by rewrite visit_limit.
  - assert (Hnd : NoDup entries.*1).
    { unfold entries. pose proof (kv_iter_sorted (tb_Delegations s) addr []) as Hs. clear -Hs.
      induction Hs as [|e es _ IH He]; [constructor|]. rewrite fmap_cons. constructor; [|done].
      intros (e' & E & Hin')%list_elem_of_fmap. rewrite Forall_forall in He. specialize (He e' Hin'). rewrite E, bytes_cmp_refl in He. done. }
    clear -Hf Hnd. induction Hf as [|e it es its (Ek & _) Hf IH]; [constructor|]. rewrite fmap_cons in *.
    apply NoDup_cons in Hnd as [Hn Hnd]. constructor; [|by apply IH]. intros (it' & E & Hin)%list_elem_of_fmap. apply Hn.
    destruct (item_entry _ _ it' Hf Hin) as (e' & He' & (Ek' & _)). rewrite Ek, E, <- Ek'. by apply list_elem_of_fmap_2.
  - intros it. split.
    + intros Hit. destruct (item_entry _ _ it Hf Hit) as ([k b] & He & (Ek & Hid & Ed)). cbn in *. subst k.
      apply Hin in He as [Hkb [x Ex]]. split; [done|]. split.
      * unfold DelegationID_Bytes in Ex. by apply app_inj_1 in Ex as [? _]; [|rewrite (proj1 Hid), Ha].
      * unfold GetSfcDelegation, rlp_Get. by rewrite Hkb, Ed.
    + intros (Hid & Hda & Eg). unfold GetSfcDelegation, rlp_Get in Eg.
      destruct (tb_Delegations s !! DelegationID_Bytes (da_ID it)) as [b|] eqn:Eb; [|done].
      destruct (dec_SfcDelegation b) as [d| |] eqn:Ed; try done. injection Eg as ->.
      assert (He : (DelegationID_Bytes (da_ID it), b) ∈ entries).
      { apply Hin. split; [done|]. rewrite <- Hda. by eexists. }
      destruct (entry_item _ _ _ Hf He) as (it' & Hit' & (Ek & Hid' & Ed')). cbn in Ek, Ed'.
      apply DelegationID_Bytes_inj in Ek; [|done..]. rewrite Ed in Ed'. injection Ed' as Ed'.
      replace it with it'; [done|]. destruct it, it'. cbn in *. congruence.
Qed.
End listing.

(** ** A concrete contract *)

#[global] Instance demo_EpochBytes : EpochBytes := { idx_Epoch_Bytes := be32; idx_Lamport_Bytes := be32 }.

(** Records as a list of their numbers, the address last. *)
#[global] Instance demo_SfcRLP : SfcRLP := {
  enc_SfcStaker s := Ok ([CreatedEpoch s; CreatedTime s; DeactivatedEpoch s; DeactivatedTime s; sk_Status s] ++ sk_Address s);
  dec_SfcStaker b :=
    match b with
    | ce :: ct :: de :: dt :: st :: a => Ok (mkSfcStaker ce ct de dt a st None None false)
    | _ => Err ErrUnexpectedEOF
    end;
  enc_SfcDelegation d := if Amount d <? 0 then Err (NewError "rlp: cannot encode negative *big.Int") else Ok [Amount d];
  dec_SfcDelegation b := match b with [a] => Ok (mkSfcDelegation a 0 0 0 0) | _ => Err ErrUnexpectedEOF end;
}.
#[global] Instance demo_SfcRLPLaws : SfcRLPLaws.
Proof.
  split.
  - intros s. eexists. split; [done|]. done.
  - intros d Hd. cbn. rewrite (proj2 (Z.ltb_ge _ _)) by lia. eexists. split; done.
Qed.

Definition demo_sfc : list Z := replicate 19 0 ++ [99].
Definition demo_sfc_topics : SfcTopics :=
  mkSfcTopics (demo_hash32 1) (demo_hash32 2) (demo_hash32 3) (demo_hash32 4) (demo_hash32 5) (demo_hash32 6)
    (demo_hash32 7) (demo_hash32 8) (demo_hash32 9).

(** Staker 1 is created, an address delegates 10 to it, takes 4 back and claims 2 + 3 + 4;
    another contract emits a log without topics. *)
Definition demo_sfc_logs : list Log := [
  mkLog demo_sfc [demo_hash32 5; demo_hash32 1; demo_hash32 50] (demo_hash32 7 ++ demo_hash32 100);
  mkLog demo_sfc [demo_hash32 8; demo_hash32 60; demo_hash32 1] (demo_hash32 10);
  mkLog (replicate 20 1) [] [];
  mkLog demo_sfc [demo_hash32 9; demo_hash32 60; demo_hash32 1; demo_hash32 0] (demo_hash32 4);
  mkLog demo_sfc [demo_hash32 1; demo_hash32 60; demo_hash32 1] (demo_hash32 2 ++ demo_hash32 3 ++ demo_hash32 4)].

Definition demo_did : DelegationID := mkDelegationID (replicate 19 0 ++ [60]) 1.

Lemma demo_topics_distinct : topics_distinct demo_sfc_topics.
Proof. unfold topics_distinct. apply (bool_decide_unpack _). vm_compute. exact I. Qed.

Lemma demo_sfc_logs_ok : Forall (λ l, from_contract demo_sfc l → sfc_log demo_sfc_topics l) demo_sfc_logs.
Proof.
  assert (Hgo : ∀ l, bool_decide (Forall (λ t, length t = 32%nat) (l_Topics l)) = true → bool_decide (bytes_ok (l_Data l)) = true →
    match l_Topics l with t0 :: _ => event_size demo_sfc_topics t0 <=? len (l_Data l) | [] => false end = true →
    sfc_log demo_sfc_topics l).
  { intros l E1%bool_decide_eq_true E2%bool_decide_eq_true E3. split; [done|done|].
    destruct (l_Topics l) as [|t0 ts]; [done|]. exists t0. split; [done|]. by apply Z.leb_le. }
  repeat apply Forall_cons_2; try apply Forall_nil_2; intros Hc;
    try (apply Hgo; vm_compute; reflexivity).
  exfalso. vm_compute in Hc. discriminate.
Qed.

Lemma sfc_history_exact_witness :
  ∃ s, OnNewLogs demo_sfc demo_sfc_topics demo_sfc_logs empty_sfc = Ok s ∧
    GetDelegationClaimedRewards demo_did s = 9 ∧ GetStakerDelegationsClaimedRewards 1 s = 9 ∧
    ∃ o, GetSfcDelegation demo_did s = Ok o ∧ from_option Amount 0 o = 6.
Proof.
  destruct (sfc_history_exact demo_sfc demo_sfc_topics demo_sfc_logs demo_topics_distinct demo_sfc_logs_ok)
    as (s & E & Hc & Ht & Hb & Hk).
  assert (Hid : did_ok demo_did) by (split; [reflexivity|split; vm_compute; discriminate || reflexivity]).
  exists s. split; [exact E|]. split; [rewrite (Hc demo_did Hid); vm_compute; reflexivity|].
  split; [rewrite (proj1 (Ht 1 (proj2 Hid))); vm_compute; reflexivity|].
  destruct (Hb demo_did Hid) as (o & Eo & Ho).
  - intros pre [suf Ep]. assert (Hlen : (length pre <= 4)%nat).
    { apply (f_equal length) in Ep. rewrite length_app in Ep. change (length (contract_events demo_sfc demo_sfc_topics demo_sfc_logs)) with 4%nat in Ep. lia. }
    apply (f_equal (take (length pre))) in Ep. rewrite take_app_length in Ep. rewrite <- Ep. clear -Hlen.
    destruct (length pre) as [|[|[|[|[|]]]]]; [vm_compute; discriminate..|lia].
  - exists o. split; [exact Eo|]. rewrite Ho. vm_compute. reflexivity.
Defined.
