(* ===== verification/ApiBackend.v ===== *)
(** * What the node answers to its APIs (gossip/ethapi_backend.go)

    The backend answers from the tables that block processing writes, from the state of
    the last block and from the tables of the staking contract.  After a block its
    transactions, the block itself and the state after it are found by every way of asking
    for them; a short event ID gives an event exactly when it is the only one that fits. *)

From Stdlib Require Import Ascii.
From S2P Require Import Prelude Cser Inter Instances TxSer Heap Store Rules Pos GasPower EvmState EventCheck EvmChain Topics BlockProc EvmBlock Driver SfcApi LogFilter FilterSystem BlockCallbacks.

(** ** Parsing (strings.Split, strconv.ParseUint) *)

Definition is_colon (c : Ascii.ascii) : bool := bool_decide (c = ":"%char).

(** The pieces between the colons; there is always one. *)
Fixpoint split_colon (s : string) : list string :=
  match s with
  | EmptyString => [EmptyString]
  | String.String c s' =>
      if is_colon c then EmptyString :: split_colon s'
      else match split_colon s' with
           | [] => [String.String c EmptyString]
           | p :: ps => String.String c p :: ps
           end
  end.

Definition ErrSyntax : error := NewError "invalid syntax".
Definition ErrRange : error := NewError "value out of range".

Definition digit_of (c : Ascii.ascii) : option Z :=
  let n := Z.of_nat (Ascii.nat_of_ascii c) in
  if (48 <=? n) && (n <=? 57) then Some (n - 48) else None.

Fixpoint parse_digits (s : string) (n : Z) : res Z :=
  match s with
  | EmptyString => Ok n
  | String.String c s' =>
      match digit_of c with
      | None => Err ErrSyntax
      | Some d => if 2 ^ 32 - 1 <? n * 10 + d then Err ErrRange else parse_digits s' (n * 10 + d)
      end
  end.

(** [ParseUint(s, 10, 32)] *)
Definition ParseUint32 (s : string) : res Z :=
  match s with EmptyString => Err ErrSyntax | _ => parse_digits s 0 end.

(** [rpc.BlockNumberOrHash]: either may be missing. *)
Record BlockNumberOrHash := mkNumberOrHash { bnh_Number : option Z; bnh_Hash : option (list Z) }.

Definition ErrHeaderNotFound : error := NewError "header not found".
Definition ErrSelector : error := NewError "unknown header selector".
Definition ErrTxIndex : error := NewError "transactions index is disabled (enable TxIndex and re-process the DAG)".
Definition ErrTxIndexCorrupted : error := NewError "transactions index is corrupted (offset is larger than number of txs in event)".
Definition ErrPendingBlock : error := NewError "pending block request isn't allowed".
Definition ErrShortFormat : error := NewError "incorrect format of short event ID (need Epoch:Lamport:Hash".
Definition ErrShortParse : error := NewError "short hash parsing error (lamport)".
Definition ErrEventNotFound : error := NewError "event not found by short ID".
Definition ErrManyEvents : error := NewError "there're multiple events with the same short ID, please use full ID".
Definition ErrEpochRange : error := NewError "epoch is not in range".
Definition ErrOldHeads : error := NewError "heads for previous epochs are not available".

Section backend.
Context {EventID : Type} `{EventIDs EventID} `{TrieRoots} {V : Type} `{Pos V} `{TxLib}.
Context `{!EventBytes EventID} `{IdxBytes} `{EpochBytes} `{SfcRLP} `{Kvdb}.
Variable txIndex : bool.

Notation Store := (BlockCallbacks.Store V EventID).
Notation Receipt := (Receipt Log).

(** ** Blocks *)

Definition GetLatestBlockIndex (st : Store) : Z := bc_Idx (bs_LastBlock (s_BlockState st)).

(** Reading a block may cache it. *)
Definition state_GetBlock (h : list Z) (n : Z) (st : Store) : res (option EvmBlock * Store) :=
  '(b, t) ← GetBlock (s_Tables st) h n; Ok (b, SetTables t st).

Definition CurrentBlock (st : Store) : res (option EvmBlock * Store) := state_GetBlock zeroHash (GetLatestBlockIndex st) st.

Definition CurrentHeader (st : Store) : res (option EvmHeader) := GetHeader (s_Tables st) zeroHash (GetLatestBlockIndex st).

Definition BlockByNumber (number : Z) (st : Store) : res (option EvmBlock * Store) :=
  let number := if number =? PendingBlockNumber then LatestBlockNumber else number in
  if number =? LatestBlockNumber then CurrentBlock st
  else state_GetBlock zeroHash (u64 number) st.

Definition HeaderByNumber (number : Z) (st : Store) : res (option EvmHeader * Store) :=
  '(blk, st) ← BlockByNumber number st;
  Ok (match blk with None => None | Some b => Some (eb_Header b) end, st).

Definition HeaderByHash (h : list Z) (st : Store) : res (option EvmHeader * Store) :=
  match s_BlockIndex st !! h with
  | None => Ok (None, st)
  | Some index => HeaderByNumber (i64 index) st
  end.

Definition BlockByHash (h : list Z) (st : Store) : res (option EvmBlock * Store) :=
  match s_BlockIndex st !! h with
  | None => Ok (None, st)
  | Some index =>
      if i64 index =? PendingBlockNumber then Err ErrPendingBlock
      else if i64 index =? LatestBlockNumber then CurrentBlock st
      else state_GetBlock zeroHash (u64 index) st
  end.

(** [store.evm.StateDB(root)] *)
Definition StateAndHeaderByNumberOrHash {W} (OpenStateDB : list Z → res W) (sel : BlockNumberOrHash) (st : Store)
  : res (W * EvmHeader * Store) :=
  '(header, st) ←
    match bnh_Number sel with
    | Some number =>
        if (number =? LatestBlockNumber) || (number =? PendingBlockNumber) then
          '(b, st) ← CurrentBlock st;
          b ← deref b;
          Ok (Some (eb_Header b), st)
        else h ← GetHeader (s_Tables st) zeroHash (u64 number); Ok (h, st)
    | None =>
        match bnh_Hash sel with
        | Some h =>
            match s_BlockIndex st !! h with
            | None => Err ErrHeaderNotFound
            | Some index => h ← GetHeader (s_Tables st) zeroHash (u64 index); Ok (h, st)
            end
        | None => Err ErrSelector
        end
    end;
  match header with
  | None => Err ErrHeaderNotFound
  | Some header => w ← OpenStateDB (h_Root header); Ok (w, header, st)
  end.

(** ** Transactions and receipts *)

(** [Receipts.DeriveFields] fills the receipts in. *)
Variable DeriveFields : list Receipt → list Z → Z → list Transaction → res (list Receipt).

Definition GetReceiptsByNumber (number : Z) (st : Store) : res (list Receipt * Store) :=
  if negb txIndex then Err ErrTxIndex
  else
    let number := if number =? PendingBlockNumber then LatestBlockNumber else number in
    number ← (if number =? LatestBlockNumber then
                h ← CurrentHeader st; h ← deref h; Ok (i64 (u64 (h_Number h)))
              else Ok number);
    let receipts := default [] (s_Receipts st !! u64 number) in
    '(block, st) ← state_GetBlock zeroHash (u64 number) st;
    b ← deref block;
    receipts ← DeriveFields receipts (h_Hash (eb_Header b)) (u64 number) (eb_Transactions b);
    Ok (receipts, st).

Definition GetReceipts (h : list Z) (st : Store) : res (option (list Receipt) * Store) :=
  match s_BlockIndex st !! h with
  | None => Ok (None, st)
  | Some number => '(r, st) ← GetReceiptsByNumber (i64 number) st; Ok (Some r, st)
  end.

Definition backend_GetLogs (h : list Z) (st : Store) : res (option (list (list Log)) * Store) :=
  r ← GetReceipts h st;
  Ok (match r.1 with None => None | Some rs => Some (map rc_Logs rs) end, r.2).

Definition IsZero (id : EventID) : bool := bool_decide (id = zero_ID).

(** The transaction, its block and its offset there. *)
Definition GetTransaction (txHash : list Z) (st : Store) : res (option Transaction * Z * Z) :=
  if negb txIndex then Err ErrTxIndex
  else
    match s_TxPositions st !! txHash with
    | None => Ok (None, 0, 0)
    | Some position =>
        tx ← (if IsZero (tp_Event position) then Ok (t_Txs (s_Tables st) !! txHash)
              else
                event ← deref (GetEventPayload (s_Tables st) (tp_Event position));
                if u32 (len (ep_txs event)) <? tp_EventOffset position then Err ErrTxIndexCorrupted
                else tx ← index (ep_txs event) (tp_EventOffset position); Ok (Some tx));
        Ok (tx, u64 (tp_Block position), tp_BlockOffset position)
    end.

(** ** Events *)

(** [common.FromHex] *)
Variable FromHex : string → list Z.

Definition decodeShortEventID (s : list string) : res (Z * Z * list Z) :=
  match s with
  | [a; b; c] =>
      match ParseUint32 a with
      | Ok epoch =>
          match ParseUint32 b with
          | Ok lamport => Ok (epoch, lamport, FromHex c)
          | _ => Err ErrShortParse
          end
      | _ => Err ErrShortParse
      end
  | _ => Err ErrShortFormat
  end.

(** store_event.go; the table of events is keyed by their identifiers. *)
Definition FindEventHashes (epoch lamport : Z) (hashPrefix : list Z) (events : Table) : list EventID :=
  BytesToEvent <$> (kv_NewIterator events (idx_Epoch_Bytes epoch ++ idx_Lamport_Bytes lamport ++ hashPrefix) []).1.*1.

(** [HexToEventHash] is [BytesToEvent] of the decoded string. *)
Definition GetFullEventID (shortEventID : string) (events : Table) : res EventID :=
  let s := split_colon shortEventID in
  if len s =? 1 then Ok (BytesToEvent (FromHex shortEventID))
  else
    '(epoch, lamport, prefix) ← decodeShortEventID s;
    match FindEventHashes epoch lamport prefix events with
    | [] => Err ErrEventNotFound
    | [id] => Ok id
    | _ => Err ErrManyEvents
    end.

(** ** Epochs and validators *)

Definition epochWithDefault (epoch : Z) (st : Store) : res Z :=
  let current := es_Epoch (s_EpochState st) in
  if epoch =? PendingBlockNumber then Ok current
  else if epoch =? LatestBlockNumber then Ok (u32 (current - 1))
  else if (0 <=? epoch) && (u32 epoch <=? current) then Ok (u32 epoch)
  else Err ErrEpochRange.

(** [GetHeadsSlice] is that of the epoch's store. *)
Definition GetHeads (GetHeadsSlice : Z → list EventID) (epoch : Z) (st : Store) : res (list EventID) :=
  let current := es_Epoch (s_EpochState st) in
  requested ← epochWithDefault epoch st;
  if requested =? current then Ok (GetHeadsSlice requested) else Err ErrOldHeads.

Definition GetUptime (stakerID : Z) (st : Store) : res (option Z) :=
  let bs := s_BlockState st in
  let es := s_EpochState st in
  if negb (vv_Exists (es_Validators es) stakerID) then Ok None
  else vs ← BlockState_GetValidatorState bs stakerID (es_Validators es); Ok (Some (u64 (Uptime vs))).

Definition GetOriginatedFee (stakerID : Z) (st : Store) : res (option Z) :=
  let bs := s_BlockState st in
  let es := s_EpochState st in
  if negb (vv_Exists (es_Validators es) stakerID) then Ok None
  else vs ← BlockState_GetValidatorState bs stakerID (es_Validators es); Ok (Some (Originated vs)).

Definition GetRewardWeights (stakerID : Z) (st : Store) : option (Z * Z) :=
  if vv_Get (es_Validators (s_EpochState st)) stakerID =? 0 then None else Some (1, 1).

Definition GetStakerPoI (stakerID : Z) (st : Store) : option Z :=
  if vv_Get (es_Validators (s_EpochState st)) stakerID =? 0 then None else Some 1.

Definition GetDowntime (stakerID : Z) (st : Store) : res (Z * Z) :=
  let bs := s_BlockState st in
  let es := s_EpochState st in
  if negb (vv_Exists (es_Validators es) stakerID) then Ok (0, 0)
  else
    vs ← BlockState_GetValidatorState bs stakerID (es_Validators es);
    let missedBlocks := if LastBlock vs <? bc_Idx (bs_LastBlock bs) then u64 (bc_Idx (bs_LastBlock bs) - LastBlock vs) else 0 in
    let missedTime := if LastOnlineTime vs <? bc_Time (bs_LastBlock bs)
                      then u64 (bc_Time (bs_LastBlock bs) - LastOnlineTime vs) else 0 in
    if missedBlocks <? BlockMissedSlack (Economy (es_Rules es)) then Ok (0, 0)
    else Ok (missedBlocks, missedTime).

Definition SealedEpochTiming (st : Store) : Z * Z :=
  (es_PrevEpochStart (s_EpochState st), es_EpochStart (s_EpochState st)).

(** ** The staking contract *)

Definition with_api (k : SfcStaker) (status : Z) (stake delegated : Z) (isValidator : bool) : SfcStaker :=
  mkSfcStaker (CreatedEpoch k) (CreatedTime k) (DeactivatedEpoch k) (DeactivatedTime k) (sk_Address k) status
    (Some stake) (Some delegated) isValidator.

Definition extendStaker (stakerID : Z) (staker : SfcStaker) (sfc : SfcStore) (st : Store) : res SfcStaker :=
  let bs := s_BlockState st in
  let es := s_EpochState st in
  selfDelegation ← GetSfcDelegation (mkDelegationID (sk_Address staker) stakerID) sfc;
  let stakeAmount := match selfDelegation with Some d => Amount d | None => 0 end in
  let delegatedMe := match bs_NextValidatorProfiles bs !! stakerID with
                     | Some p => Some (Weight p - stakeAmount)
                     | None => DelegatedMe staker
                     end in
  let delegatedMe := match delegatedMe with None => 0 | Some d => if Z.sgn d <? 0 then 0 else d end in
  let status := if sk_Status staker =? 1 then 0 else sk_Status staker in
  let status := if status =? DoublesignBit then ForkBit else status in
  let status := if status =? Z.shiftl 1 3 then OfflineBit else status in
  Ok (with_api staker status stakeAmount delegatedMe (vv_Exists (es_Validators es) stakerID)).

Definition GetStaker (stakerID : Z) (sfc : SfcStore) (st : Store) : res (option SfcStaker) :=
  o ← GetSfcStaker stakerID sfc;
  match o with
  | None => Ok None
  | Some staker => k ← extendStaker stakerID staker sfc st; Ok (Some k)
  end.

(** The last staker with the address. *)
Definition GetStakerID (addr : list Z) (sfc : SfcStore) : res Z :=
  found ← ForEachSfcStaker (λ it found, if bool_decide (sk_Address (si_Staker it) = addr) then Some (si_StakerID it) else found) None sfc;
  Ok (default 0 found).

(** The callback of [ForEachSfcStaker] may panic. *)
Definition GetStakers (sfc : SfcStore) (st : Store) : res (list SfcStakerAndID) :=
  r ← ForEachSfcStaker
    (λ it stakers,
      l ← stakers;
      k ← extendStaker (si_StakerID it) (si_Staker it) sfc st;
      Ok (l ++ [mkStakerAndID (si_StakerID it) k])) (Ok []) sfc;
  r.

Definition GetDelegationsOf (stakerID : Z) (sfc : SfcStore) : res (list SfcDelegationAndID) :=
  ForEachSfcDelegation (λ it l, if StakerID (da_ID it) =? stakerID then l ++ [it] else l) [] sfc.

Definition GetDelegationsByAddress (addr : list Z) (sfc : SfcStore) : res (list SfcDelegationAndID) :=
  GetSfcDelegationsByAddr addr 1000 sfc.

Definition GetStakerClaimedRewards (stakerID : Z) (sfc : SfcStore) : res (option Z) :=
  o ← GetSfcStaker stakerID sfc;
  match o with
  | None => Ok None
  | Some staker => Ok (Some (GetDelegationClaimedRewards (mkDelegationID (sk_Address staker) stakerID) sfc))
  end.
End backend.

(** ** Transactions are found *)

(** The first element with a property. *)
Lemma first_split {A} (P : A → Prop) `{∀ x, Decision (P x)} l :
  Exists P l → ∃ pre x post, l = pre ++ x :: post ∧ P x ∧ Forall (λ y, ¬ P y) pre.
Proof.
  induction l as [|y l IH]; [by intros ?%Exists_nil|]. intros Hex. destruct (decide (P y)) as [Hy|Hy].
  - by exists [], y, l.
  - apply Exists_cons in Hex as [?|Hex]; [done|]. destruct (IH Hex) as (pre & x & post & -> & Hx & Hpre).
    exists (y :: pre), x, post. split; [done|]. split; [done|]. by constructor.
Qed.

Lemma FilterSkippedTxs_subset {A} (txs : list A) sk x : x ∈ FilterSkippedTxs txs sk → x ∈ txs.
Proof.
  unfold FilterSkippedTxs. destruct (len sk =? 0); [done|]. generalize 0 as i. generalize 0%nat as c.
  induction txs as [|tx txs IH]; intros c i; cbn; [done|]. case_match.
  - intros Hin%IH. by right.
  - intros [->|Hin%IH]%elem_of_cons; [by left|by right].
Qed.

(** The last of the transactions with a hash is stored under it. *)
Lemma put_txs_some `{TxLib} (txs : list Transaction) (m : gmap (list Z) Transaction) (tx : Transaction) :
  tx ∈ txs → ∃ tx', put_txs txs m !! tx_Hash tx = Some tx' ∧ tx_Hash tx' = tx_Hash tx.
Proof.
  intros Hin. unfold put_txs. induction txs as [|tx0 l IH] using rev_ind; [by apply not_elem_of_nil in Hin|].
  rewrite foldl_app. cbn. destruct (decide (tx_Hash tx0 = tx_Hash tx)) as [Eh|Hne].
  - exists tx0. rewrite Eh. split; [apply lookup_insert_eq|done].
  - rewrite lookup_insert_ne by done. apply IH. apply elem_of_app in Hin as [?| ->%list_elem_of_singleton]; done.
Qed.

Section served.
Context {EventID : Type} `{EventIDs EventID} `{TrieRoots} {V : Type} `{Pos V}.
Context `{GasTable} {W : Type} `{StateDB W} `{EVM W} `{TxDB W Log} `{TxLib}.
Context (Pack : string → list AbiArg → list Z) (ContractAddress : list Z) (topics : Topics)
  (json_Unmarshal : list Z → Rules → Rules + error) (BigBuilder_Build : gmap Z Z → V)
  (OpenStateDB : list Z → res W) (SortEvents : list EventID → list EventID).

Notation Store := (BlockCallbacks.Store V EventID).
Notation process := (process_block Pack ContractAddress topics json_Unmarshal BigBuilder_Build OpenStateDB SortEvents true).

(** Events are stored under their identifiers, which are not zero. *)
Definition events_stored (st : Store) : Prop :=
  ∀ key e, t_Events (s_Tables st) !! key = Some e →
    id_Bytes (ID (ev_base (ep_event e))) = key ∧ ID (ev_base (ep_event e)) ≠ zero_ID ∧ len (ep_txs e) < 2 ^ 32.

(** No stored transaction has the hash of another one of the block. *)
Definition no_collision (st : Store) (txs : list Transaction) : Prop :=
  ∀ tx tx', tx ∈ txs → tx_Hash tx' = tx_Hash tx →
    (∃ h, t_Txs (s_Tables st) !! h = Some tx') ∨ (∃ key e, t_Events (s_Tables st) !! key = Some e ∧ tx' ∈ ep_txs e) →
    tx' = tx.

(** A position leads back to its transaction. *)
Lemma position_resolves st ids bevs txs tx n k :
  Forall2 (λ id e, t_Events (s_Tables st) !! id_Bytes id = Some e) ids bevs → events_stored st → no_collision st txs → tx ∈ txs →
  (tx ∈ concat (ep_txs <$> bevs) ∨ ∃ tx', t_Txs (s_Tables st) !! tx_Hash tx = Some tx' ∧ tx_Hash tx' = tx_Hash tx) →
  let p := xp_TxPosition (default zero_position (events_positions bevs !! tx_Hash tx)) in
  s_TxPositions st !! tx_Hash tx = Some (mkTxPosition n (tp_Event p) (tp_EventOffset p) k) → is_u64 n →
  GetTransaction true (tx_Hash tx) st = Ok (Some tx, n, k).
Proof.
  intros Hf Hev Hcol Htx Hsrc p Hp Hn. unfold GetTransaction. cbn [negb]. rewrite Hp. cbn [tp_Event tp_EventOffset tp_Block tp_BlockOffset].
  rewrite (u64_id n) by done.
  destruct (decide (Exists (λ e, tx_Hash tx ∈ tx_Hash <$> ep_txs e) bevs)) as [Hex|Hno].
  - destruct (first_split _ _ Hex) as (pre & e & post & Eb & He & Hpre).
    apply list_elem_of_fmap in He as (tx1 & Eh1 & Hin1).
    destruct (first_split (λ t, tx_Hash t = tx_Hash tx) (ep_txs e)) as (a & tx2 & rest & Et & Eh2 & Ha).
    { apply Exists_exists. by exists tx1. }
    assert (Hin : e ∈ bevs) by (rewrite Eb; apply elem_of_app; right; by left).
    apply list_elem_of_lookup_1 in Hin as [i Hi]. destruct (Forall2_lookup_r _ _ _ _ _ Hf Hi) as (eid & _ & Eid).
    destruct (Hev _ _ Eid) as (Ekey & Hz & Hlen).
    assert (Epos : events_positions bevs !! tx_Hash tx =
      Some (mkExtPosition (mkTxPosition 0 (ID (ev_base (ep_event e))) (u32 (len a)) 0) (Creator (ev_base (ep_event e))))).
    { rewrite <- Eh2, Eb. apply (events_positions_first pre e post a tx2 rest); rewrite ?Eh2; [exact Hpre|exact Et|].
      intros (y & Ey & Hy)%list_elem_of_fmap. rewrite Forall_forall in Ha. by apply (Ha y Hy). }
    subst p. rewrite Epos. cbn [default from_option id xp_TxPosition tp_Event tp_EventOffset].
    unfold IsZero. rewrite bool_decide_false by done. unfold GetEventPayload. rewrite Ekey, Eid. cbn [deref mbind res_bind].
    rewrite Et in Hlen |- *. rewrite len_app in *. change (len (tx2 :: rest)) with (Z.of_nat (S (length rest))) in *. pose proof (len_nonneg a). pose proof (len_nonneg rest).
    rewrite !u32_id by (unfold is_u32; lia). rewrite (proj2 (Z.ltb_ge _ _)) by lia. rewrite index_app_mid. cbn [mbind res_bind].
    rewrite (Hcol tx tx2 Htx Eh2); [done|]. right. exists (id_Bytes eid), e. split; [done|]. rewrite Et. apply elem_of_app. right. by left.
  - assert (Hnone : events_positions bevs !! tx_Hash tx = None) by (apply events_positions_none, Forall_Exists_neg; exact Hno).
    subst p. rewrite Hnone. cbn [default from_option zero_position xp_TxPosition tp_Event tp_EventOffset].
    unfold IsZero. rewrite bool_decide_true by done. cbn [mbind res_bind].
    destruct Hsrc as [Hin|(tx' & El & Eh)].
    + exfalso. apply Hno, Exists_exists. apply list_elem_of_In, in_concat in Hin as (l & (e & -> & He)%list_elem_of_In%list_elem_of_fmap & Hin%list_elem_of_In).
      exists e. split; [done|]. by apply list_elem_of_fmap_2.
    + rewrite El. cbn. rewrite (Hcol tx tx' Htx Eh); [done|]. left. by exists (tx_Hash tx).
Qed.

(** C8: Every transaction of a new block can be asked for.  With the transaction index on,
    after a block is processed, looking up the hash of any of the block's transactions,
    internal or from an event, gives that transaction, the number of the block and its
    offset there, provided the hashes do not collide and events are stored under their
    identifiers. *)
Theorem transactions_found cBlock evs st nv st' evmBlock :
  process cBlock evs st = Ok (nv, st') → bs_LastBlock (s_BlockState st') ≠ bs_LastBlock (s_BlockState st) →
  t_EvmBlocks (s_Tables st') !! GetLatestBlockIndex st' = Some evmBlock →
  NoDup (tx_Hash <$> eb_Transactions evmBlock) → len (eb_Transactions evmBlock) < 2 ^ 32 →
  events_stored st → no_collision st' (eb_Transactions evmBlock) →
  ∀ k tx, eb_Transactions evmBlock !! k = Some tx →
    GetTransaction true (tx_Hash tx) st' = Ok (Some tx, GetLatestBlockIndex st', Z.of_nat k).
Proof.
  intros E Hnew Heb Hnd Hlen Hev Hcol k tx Hk. unfold GetLatestBlockIndex in *.
  destruct (process_block_inv _ _ _ _ _ _ _ _ _ _ _ _ _ E) as (c & bs & R & Hcase).
  destruct (rd_keeps _ _ _ _ _ R) as (states & _ & Hbs).
  destruct (skipBlock c) eqn:Hs.
  { destruct Hcase as [-> ->]. destruct Hnew. cbn. by rewrite Hbs, (rd_bs _ _ _ _ _ R). }
  destruct Hcase as (pd & st1 & E1 & E2).
  destruct (EndBlock_inv _ _ _ _ _ _ _ _ _ _ _ (rd_final _ _ _ _ _ R) Hs E1)
    as (_ & _ & _ & _ & _ & _ & _ & Hctx & _ & _ & Ht1 & _).
  destruct (blockFn_inv _ _ _ _ _ _ _ _ _ E2) as (evm & internal & events & bevs & eb & sk & rcs & b & bsf & F).
  edestruct finished_ctx as (Hinc & _ & _ & _ & _); [exact (rd_final _ _ _ _ _ R)|exact Hs|exact E1|exact F|].
  destruct F as [_ _ Fspill Ffin _ _ Fbs _ _ Ftxs Fevs Fevm _ Fpos].
  rewrite Fbs in Heb |- *. cbn [bs_LastBlock set_Final] in *.
  rewrite Fevm, lookup_insert_eq in Heb. injection Heb as ->.
  assert (Hin : tx ∈ eb_Transactions evmBlock) by (by eapply list_elem_of_lookup_2).
  pose proof Fevs as Hev'. rewrite Ht1 in Hev'.
  apply (position_resolves st' events bevs (eb_Transactions evmBlock) tx).
  - rewrite Hev', <- Ht1. apply (spillBlockEvents_found _ _ _ _ _ Fspill).
  - unfold events_stored. by rewrite Hev'.
  - done.
  - done.
  - destruct Ffin as [w Hf]. unfold EVM_Finalize in Hf.
    destruct (Commit _) as [[root| |] w']; try done. injection Hf as <- _ _ _. cbn in Hin.
    apply FilterSkippedTxs_subset in Hin. rewrite Hinc in Hin. apply elem_of_app in Hin as [Hin|Hin]; [right|by left].
    rewrite Ftxs. by apply put_txs_some.
  - rewrite (Fpos eq_refl).
    rewrite put_positions_lookup by done. rewrite (block_positions_lookup _ _ _ _ k tx Hnd Hk). cbn [default from_option id xp_TxPosition].
    rewrite Z.add_0_l, u32_id; [done|]. apply lookup_lt_Some in Hk. unfold is_u32, len in *. lia.
  - rewrite Hctx. apply u64_range.
Qed.

(** ** The last block *)

Lemma SetTables_id (st : Store) : SetTables (s_Tables st) st = st.
Proof. by destruct st. Qed.

Lemma state_GetBlock_cached (st : Store) n b eb :
  t_Blocks (s_Tables st) !! n = Some b → t_EvmBlocks (s_Tables st) !! n = Some eb →
  state_GetBlock zeroHash n st = Ok (Some eb, st).
Proof.
  intros Hb He. unfold state_GetBlock, GetBlock, getBlock. rewrite Hb, He, (bool_decide_true (zeroHash = zeroHash)) by done.
  cbn [negb andb mbind res_bind]. by rewrite SetTables_id.
Qed.

Lemma GetHeader_built (st : Store) n b prev :
  t_Blocks (s_Tables st) !! n = Some b → n ≠ 0 → t_Blocks (s_Tables st) !! (n - 1) = Some prev →
  GetHeader (s_Tables st) zeroHash n = Ok (Some (ToEvmHeader b n (id_Bytes (bl_Atropos prev)))).
Proof.
  intros Hb Hn Hp. unfold GetHeader, getBlock. rewrite Hb, (bool_decide_true (zeroHash = zeroHash)) by done.
  cbn [negb andb mbind res_bind]. rewrite (proj2 (Z.eqb_neq n 0)) by done. cbn [negb]. by rewrite Hp.
Qed.

(** The ways to ask for the last block and its state. *)
Definition last_selectors (st : Store) : list BlockNumberOrHash :=
  let last := bs_LastBlock (s_BlockState st) in
  [mkNumberOrHash (Some LatestBlockNumber) None; mkNumberOrHash (Some PendingBlockNumber) None;
   mkNumberOrHash (Some (bc_Idx last)) None; mkNumberOrHash None (Some (id_Bytes (bc_Atropos last)))].

(** What the tables say of a new block. *)
Lemma new_block_tables cBlock evs st nv st' :
  0 <= bc_Idx (bs_LastBlock (s_BlockState st)) → bc_Idx (bs_LastBlock (s_BlockState st)) + 1 < 2 ^ 63 →
  process cBlock evs st = Ok (nv, st') → bs_LastBlock (s_BlockState st') ≠ bs_LastBlock (s_BlockState st) →
  let last := bs_LastBlock (s_BlockState st') in
  ∃ b eb prev, 0 < bc_Idx last < 2 ^ 63 ∧
    t_Blocks (s_Tables st') !! bc_Idx last = Some b ∧ t_EvmBlocks (s_Tables st') !! bc_Idx last = Some eb ∧
    t_Blocks (s_Tables st') !! (bc_Idx last - 1) = Some prev ∧
    s_BlockIndex st' !! id_Bytes (bc_Atropos last) = Some (bc_Idx last) ∧
    h_Number (eb_Header eb) = bc_Idx last ∧ h_Hash (eb_Header eb) = id_Bytes (bc_Atropos last) ∧
    h_Time (eb_Header eb) = bc_Time last ∧ h_Root (eb_Header eb) = bs_FinalizedStateRoot (s_BlockState st') ∧
    bl_Root b = h_Root (eb_Header eb).
Proof.
  intros Hi0 Hi E Hnew. cbv zeta.
  destruct (process_block_inv _ _ _ _ _ _ _ _ _ _ _ _ _ E) as (c & bs & R & Hcase).
  destruct (rd_keeps _ _ _ _ _ R) as (states & _ & Hbs).
  destruct (skipBlock c) eqn:Hs.
  { destruct Hcase as [-> ->]. destruct Hnew. cbn. by rewrite Hbs, (rd_bs _ _ _ _ _ R). }
  destruct Hcase as (pd & st1 & E1 & E2).
  destruct (EndBlock_inv _ _ _ _ _ _ _ _ _ _ _ (rd_final _ _ _ _ _ R) Hs E1)
    as (_ & _ & _ & _ & _ & _ & _ & Hctx & _ & _ & Ht1 & _).
  destruct (blockFn_inv _ _ _ _ _ _ _ _ _ E2) as (evm & internal & events & bevs & eb & sk & rcs & b & bsf & F).
  edestruct finished_ctx as (_ & Hblk & Hbidx & _ & Hprev); [exact (rd_final _ _ _ _ _ R)|exact Hs|exact E1|exact F|].
  destruct F as [_ _ _ Ffin Fblock _ Fbs _ Fblocks _ _ Fevm Fidx _].
  assert (Hidx : bc_Idx (blockCtx_of c) = bc_Idx (bs_LastBlock (s_BlockState st)) + 1).
  { cbn. rewrite (rd_bs _ _ _ _ _ R). cbn. apply u64_id. unfold is_u64. lia. }
  destruct (Hprev ltac:(lia)) as (prev & Ep & _). rewrite u64_id in Ep by (unfold is_u64; lia).
  exists b, eb, prev. rewrite Fbs. cbn [bs_LastBlock set_Final bs_FinalizedStateRoot].
  rewrite Fblocks, Fevm, Fidx, !lookup_insert_eq, lookup_insert_ne by lia. rewrite Ht1, Hctx, Fblock.
  split; [lia|]. split; [done|]. split; [done|]. split; [done|]. split; [done|].
  destruct Ffin as [w Hf]. unfold EVM_Finalize in Hf. destruct (Commit _) as [[root| |] w']; try done. injection Hf as <- _ _ _.
  cbn. rewrite Hblk, Hbidx. done.
Qed.

(** C30: The new block is served, whichever way it is asked for.  After a block is processed,
    the latest block, the pending one, the block with its number and the block with its
    Atropos as the hash are all this block, whose number, hash, time and state root are
    those of the node's state; and the state opened for calls, by any of these, is the one
    the node finalized. *)
Theorem last_block_served cBlock evs st nv st' :
  0 <= bc_Idx (bs_LastBlock (s_BlockState st)) → bc_Idx (bs_LastBlock (s_BlockState st)) + 1 < 2 ^ 63 →
  process cBlock evs st = Ok (nv, st') → bs_LastBlock (s_BlockState st') ≠ bs_LastBlock (s_BlockState st) →
  let last := bs_LastBlock (s_BlockState st') in
  ∃ eb, h_Number (eb_Header eb) = bc_Idx last ∧ h_Hash (eb_Header eb) = id_Bytes (bc_Atropos last) ∧
    h_Time (eb_Header eb) = bc_Time last ∧ h_Root (eb_Header eb) = bs_FinalizedStateRoot (s_BlockState st') ∧
    (∀ number, number ∈ [LatestBlockNumber; PendingBlockNumber; bc_Idx last] → BlockByNumber number st' = Ok (Some eb, st')) ∧
    BlockByHash (id_Bytes (bc_Atropos last)) st' = Ok (Some eb, st') ∧
    (∀ sel, sel ∈ last_selectors st' → ∃ header, h_Number header = bc_Idx last ∧
       StateAndHeaderByNumberOrHash OpenStateDB sel st' =
         (w ← OpenStateDB (bs_FinalizedStateRoot (s_BlockState st')); Ok (w, header, st'))).
Proof.
  intros Hi0 Hi E Hnew last.
  destruct (new_block_tables _ _ _ _ _ Hi0 Hi E Hnew) as (b & eb & prev & Hn & Hb & He & Hp & Hix & Hnum & Hh & Ht & Hr & Hbr).
  fold last in Hn, Hb, He, Hp, Hix, Hnum, Hh, Ht. set (n := bc_Idx last) in *.
  pose proof (state_GetBlock_cached st' n b eb Hb He) as Hget.
  assert (Hcur : CurrentBlock st' = Ok (Some eb, st')) by exact Hget.
  exists eb. split; [done|]. split; [done|]. split; [done|]. split; [done|]. split; [|split].
  - intros number Hin. unfold BlockByNumber. rewrite !elem_of_cons, elem_of_nil in Hin. destruct Hin as [->|[->|[->|[]]]].
    + exact Hcur.
    + exact Hcur.
    + unfold PendingBlockNumber, LatestBlockNumber. rewrite (proj2 (Z.eqb_neq n (-2))), (proj2 (Z.eqb_neq n (-1))) by lia.
      rewrite u64_id by (unfold is_u64; lia). exact Hget.
  - unfold BlockByHash. rewrite Hix. unfold PendingBlockNumber, LatestBlockNumber. rewrite i64_id by (unfold is_i64; lia).
    rewrite (proj2 (Z.eqb_neq n (-2))), (proj2 (Z.eqb_neq n (-1))) by lia. rewrite u64_id by (unfold is_u64; lia). exact Hget.
  - pose proof (GetHeader_built st' n b prev Hb ltac:(lia) Hp) as Hgh.
    set (hd := ToEvmHeader b n (id_Bytes (bl_Atropos prev))) in *.
    assert (Hhd : h_Number hd = n ∧ h_Root hd = bs_FinalizedStateRoot (s_BlockState st')).
    { split; [cbn; apply i64_id; unfold is_i64; lia|]. cbn. congruence. }
    intros sel Hin. unfold last_selectors in Hin. fold last in Hin. cbv zeta in Hin. fold n in Hin.
    rewrite !elem_of_cons, elem_of_nil in Hin. unfold StateAndHeaderByNumberOrHash.
    destruct Hin as [->|[->|[->|[->|[]]]]]; cbn [bnh_Number bnh_Hash].
    + exists (eb_Header eb). split; [done|]. rewrite Hcur. unfold LatestBlockNumber, PendingBlockNumber.
      cbn [Z.eqb Pos.eqb orb mbind res_bind deref]. by rewrite Hr.
    + exists (eb_Header eb). split; [done|]. rewrite Hcur. unfold LatestBlockNumber, PendingBlockNumber.
      cbn [Z.eqb Pos.eqb orb mbind res_bind deref]. by rewrite Hr.
    + exists hd. split; [apply Hhd|]. unfold PendingBlockNumber, LatestBlockNumber.
      rewrite (proj2 (Z.eqb_neq n (-2))), (proj2 (Z.eqb_neq n (-1))) by lia. cbn [orb].
      rewrite u64_id by (unfold is_u64; lia). rewrite Hgh. cbn [mbind res_bind]. by rewrite (proj2 Hhd).
    + exists hd. split; [apply Hhd|]. rewrite Hix. rewrite u64_id by (unfold is_u64; lia). rewrite Hgh. cbn [mbind res_bind]. by rewrite (proj2 Hhd).
Qed.
End served.

(** ** Short event IDs *)

(** An identifier is the bytes of its epoch, of its Lamport time and of its hash. *)
Class EventKeyLaws (EventID : Type) `{EventIDs EventID} `{EpochBytes} := {
  id_Bytes_split : ∀ id, id_Bytes id = idx_Epoch_Bytes (id_Epoch id) ++ idx_Lamport_Bytes (id_Lamport id) ++ drop 8 (id_Bytes id);
  idx_Bytes_length : ∀ n, length (idx_Epoch_Bytes n) = 4%nat ∧ length (idx_Lamport_Bytes n) = 4%nat;
  idx_Bytes_inj : ∀ n m, is_u32 n → is_u32 m →
    (idx_Epoch_Bytes n = idx_Epoch_Bytes m → n = m) ∧ (idx_Lamport_Bytes n = idx_Lamport_Bytes m → n = m);
}.

Fixpoint no_colon (s : string) : bool :=
  match s with EmptyString => true | String.String c s' => negb (is_colon c) && no_colon s' end.

Lemma split_colon_piece a s : no_colon a = true → split_colon (a +:+ String.String ":"%char s) = a :: split_colon s.
Proof.
  induction a as [|c a IH]; intros E; [done|]. cbn [no_colon split_colon String.append] in *. apply andb_true_iff in E as [Ec%negb_true_iff E].
  change (String.String c a +:+ String.String ":"%char s) with (String.String c (a +:+ String.String ":"%char s)).
  cbn [split_colon]. rewrite Ec. by rewrite (IH E).
Qed.

Lemma split_colon_last a : no_colon a = true → split_colon a = [a].
Proof.
  induction a as [|c a IH]; intros E; [done|]. cbn [no_colon split_colon String.append] in *. apply andb_true_iff in E as [Ec%negb_true_iff E].
  rewrite Ec. by rewrite (IH E).
Qed.

Lemma parse_digits_range s n r : 0 <= n < 2 ^ 32 → parse_digits s n = Ok r → is_u32 r.
Proof.
  revert n. induction s as [|c s IH]; intros n Hn E; cbn in E; [injection E as <-; unfold is_u32; lia|].
  unfold digit_of in E. destruct ((48 <=? _) && _) eqn:Ed; [|done]. apply andb_true_iff in Ed as [Ed%Z.leb_le _].
  destruct (Z.ltb_spec (2 ^ 32 - 1) (n * 10 + (Z.of_nat (nat_of_ascii c) - 48))); [done|]. eapply IH; [|exact E]. lia.
Qed.

Lemma ParseUint32_range s r : ParseUint32 s = Ok r → is_u32 r.
Proof. destruct s; [done|]. apply parse_digits_range. lia. Qed.

(** An iterator gives each key once. *)
Lemma kv_keys_NoDup `{KvdbLaws} t prefix start : NoDup (kv_NewIterator t prefix start).1.*1.
Proof.
  induction (kv_iter_sorted t prefix start) as [|e es _ IH He]; [constructor|]. rewrite fmap_cons. constructor; [|done].
  intros (e' & E & Hin')%list_elem_of_fmap. rewrite Forall_forall in He. specialize (He e' Hin'). by rewrite E, bytes_cmp_refl in He.
Qed.

Section short_ids.
Context {EventID : Type} `{EventIDsLaws EventID} `{!EventBytes EventID} `{!EventBytesLaws EventID}.
Context `{EpochBytes} `{!EventKeyLaws EventID} `{KvdbLaws} (FromHex : string → list Z).

(** The events a short ID may stand for. *)
Definition fits (events : Table) (epoch lamport : Z) (prefix : list Z) (id : EventID) : Prop :=
  is_Some (events !! id_Bytes id) ∧ id_Epoch id = epoch ∧ id_Lamport id = lamport ∧ prefix `prefix_of` drop 8 (id_Bytes id).

(** The keys of the table are identifiers. *)
Definition keyed_by_ids (events : Table) : Prop := ∀ k b, events !! k = Some b → ∃ id : EventID, k = id_Bytes id.

Lemma FindEventHashes_spec events epoch lamport prefix :
  keyed_by_ids events → is_u32 epoch → is_u32 lamport →
  NoDup (FindEventHashes epoch lamport prefix events) ∧
  ∀ id : EventID, id ∈ FindEventHashes epoch lamport prefix events ↔ fits events epoch lamport prefix id.
Proof.
  intros Hk He Hl. unfold FindEventHashes.
  set (pre := idx_Epoch_Bytes epoch ++ idx_Lamport_Bytes lamport ++ prefix). set (es := (kv_NewIterator events pre []).1).
  assert (Hin : ∀ k, k ∈ es.*1 ↔ is_Some (events !! k) ∧ pre `prefix_of` k).
  { intros k. unfold es. rewrite list_elem_of_fmap. split.
    - intros ([k' b] & -> & (Hkb & Hp & _)%kv_iter_elem). cbn. rewrite Hkb. split; [by eexists|done].
    - intros [[b Hkb] [x ->]]. exists (pre ++ x, b). split; [done|]. apply kv_iter_elem. split; [done|]. split; [by eexists|].
      rewrite bytes_cmp_prefix. by destruct x. }
  assert (Hfit : ∀ id : EventID, pre `prefix_of` id_Bytes id ↔ id_Epoch id = epoch ∧ id_Lamport id = lamport ∧ prefix `prefix_of` drop 8 (id_Bytes id)).
  { intros id. rewrite (id_Bytes_split id) at 1. unfold pre. split.
    - intros [x Ex]. rewrite <- !app_assoc in Ex. destruct (idx_Bytes_length epoch) as [L1 L2].
      destruct (idx_Bytes_length (id_Epoch id)) as [L3 _]. destruct (idx_Bytes_length (id_Lamport id)) as [_ L4].
      destruct (idx_Bytes_length lamport) as [_ L5].
      apply app_inj_1 in Ex as [Ee Ex]; [|by rewrite L1, L3]. apply app_inj_1 in Ex as [El Ex]; [|by rewrite L4, L5].
      split; [by apply (proj1 (idx_Bytes_inj _ _ (id_Epoch_range id) He))|].
      split; [by apply (proj2 (idx_Bytes_inj _ _ (id_Lamport_range id) Hl))|]. by exists x.
    - intros (-> & -> & [x Ex]). exists x. rewrite Ex. by rewrite <- !app_assoc. }
  split.
  - apply (NoDup_fmap_2_strong _).
    + intros k1 k2 [[b1 Hb1] _]%Hin [[b2 Hb2] _]%Hin E. destruct (Hk _ _ Hb1) as [i1 ->], (Hk _ _ Hb2) as [i2 ->].
      rewrite !BytesToEvent_Bytes in E. by rewrite E.
    + apply kv_keys_NoDup.
  - intros id. rewrite list_elem_of_fmap. unfold fits. split.
    + intros (k & -> & [Hs Hp]%Hin). destruct Hs as [b Hb]. destruct (Hk _ _ Hb) as [i ->]. rewrite BytesToEvent_Bytes.
      split; [by eexists|]. by apply Hfit.
    + intros (Hs & Hf). exists (id_Bytes id). split; [by rewrite BytesToEvent_Bytes|]. apply Hin. split; [done|]. by apply Hfit.
Qed.

(** A short event ID names an event exactly when it is unambiguous.  For an ID of three
    parts whose epoch and Lamport time are decimal numbers of 32 bits, the answer is an
    event if and only if this is the only stored event of that epoch and Lamport time whose
    hash begins with the given bytes; without such an event it is not found, and with
    several the full ID is asked for. *)
Theorem short_event_id_exact (events : Table) a b c epoch lamport :
  keyed_by_ids events → no_colon a = true → no_colon b = true → no_colon c = true →
  ParseUint32 a = Ok epoch → ParseUint32 b = Ok lamport →
  let s := (a +:+ String.String ":"%char (b +:+ String.String ":"%char c)) in
  let candidate := fits events epoch lamport (FromHex c) in
  (∀ id, GetFullEventID FromHex s events = Ok id ↔ candidate id ∧ ∀ id', candidate id' → id' = id) ∧
  (GetFullEventID FromHex s events = Err ErrEventNotFound ↔ ∀ id, ¬ candidate id) ∧
  (GetFullEventID FromHex s events = Err ErrManyEvents ↔ ∃ id id', candidate id ∧ candidate id' ∧ id ≠ id').
Proof.
  intros Hk Ha Hb Hc Ea Eb s candidate.
  assert (Hs : split_colon s = [a; b; c]) by (unfold s; rewrite !split_colon_piece, split_colon_last by done; done).
  destruct (FindEventHashes_spec events epoch lamport (FromHex c) Hk) as [Hnd Hin]; [by eapply ParseUint32_range..|].
  unfold GetFullEventID. rewrite Hs. change (len [a; b; c] =? 1) with false. cbn [decodeShortEventID]. rewrite Ea, Eb. cbn [mbind res_bind].
  fold candidate in Hin. destruct (FindEventHashes epoch lamport (FromHex c) events) as [|x [|y l]].
  - assert (Hno : ∀ id, ¬ candidate id) by (intros id Hf%Hin; by apply not_elem_of_nil in Hf).
    split; [|split]; [intros id; split; [done|intros [Hf _]; by destruct (Hno id)]|done|].
    split; [done|]. intros (id & _ & Hf & _). by destruct (Hno id).
  - assert (Hx : ∀ id, candidate id ↔ id = x) by (intros id; by rewrite <- Hin, list_elem_of_singleton).
    split; [|split].
    + intros id. split; [intros [= ->]|intros [->%Hx _]; done]. split; [by apply Hx|]. intros id' ->%Hx. done.
    + split; [done|]. intros Hno. destruct (Hno x). by apply Hx.
    + split; [done|]. intros (id & id' & ->%Hx & ->%Hx & Hne). done.
  - assert (Hx : candidate x) by (apply Hin; by left). assert (Hy : candidate y) by (apply Hin; right; by left).
    assert (Hxy : x ≠ y) by (apply NoDup_cons in Hnd as [Hnd _]; intros ->; apply Hnd; by left).
    split; [|split].
    + intros id. split; [done|]. intros [_ Hu]. destruct Hxy. by rewrite (Hu x Hx), (Hu y Hy).
    + split; [done|]. intros Hno. by destruct (Hno x).
    + split; [|done]. intros _. by exists x, y.
Qed.
End short_ids.

(** ** Epochs, offsets and stakes *)

Section answers.
Context {EventID : Type} `{EventIDs EventID} `{TrieRoots} {V : Type} `{Pos V} `{TxLib}.
Context `{IdxBytes} `{SfcRLP}.
Notation Store := (BlockCallbacks.Store V EventID).

(** An epoch number of 32 bits is accepted when it is not in the future. *)
Theorem epoch_request_exact (st : Store) epoch r :
  0 <= epoch < 2 ^ 32 → epochWithDefault epoch st = Ok r ↔ r = epoch ∧ epoch <= es_Epoch (s_EpochState st).
Proof.
  intros He. unfold epochWithDefault, PendingBlockNumber, LatestBlockNumber.
  rewrite (proj2 (Z.eqb_neq epoch (-2))), (proj2 (Z.eqb_neq epoch (-1))), (proj2 (Z.leb_le 0 epoch)) by lia. cbn [andb].
  rewrite u32_id by (unfold is_u32; lia). destruct (Z.leb_spec epoch (es_Epoch (s_EpochState st))).
  - split; [intros [= <-]; done|]. by intros [-> _].
  - split; [done|]. lia.
Qed.

(** A longer number is cut to 32 bits before it is compared: it is answered as another
    epoch and not refused. *)
Theorem epoch_request_wraps (st : Store) e :
  0 <= e <= es_Epoch (s_EpochState st) → es_Epoch (s_EpochState st) < 2 ^ 32 → epochWithDefault (2 ^ 32 + e) st = Ok e.
Proof.
  intros He Hc. unfold epochWithDefault, PendingBlockNumber, LatestBlockNumber.
  rewrite (proj2 (Z.eqb_neq _ (-2))), (proj2 (Z.eqb_neq _ (-1))), (proj2 (Z.leb_le 0 _)) by lia. cbn [andb].
  assert (u32 (2 ^ 32 + e) = e) as -> by (unfold u32; rewrite Z.add_comm; rewrite <- (Z.mul_1_l (2 ^ 32)), Z.mod_add by lia; apply Z.mod_small; lia).
  by rewrite (proj2 (Z.leb_le _ _)) by lia.
Qed.

(** A position just past the transactions of its event is not reported as a corruption of
    the index: reading it panics. *)
Theorem offset_check_short (st : Store) h p e :
  s_TxPositions st !! h = Some p → tp_Event p ≠ zero_ID → GetEventPayload (s_Tables st) (tp_Event p) = Some e →
  tp_EventOffset p = len (ep_txs e) → len (ep_txs e) < 2 ^ 32 → GetTransaction true h st = Panic.
Proof.
  intros Hp Hz He Ho Hl. unfold GetTransaction. cbn [negb]. rewrite Hp. unfold IsZero. rewrite bool_decide_false by done.
  rewrite He. cbn [deref mbind res_bind]. pose proof (len_nonneg (ep_txs e)). rewrite Ho, u32_id by (unfold is_u32; lia).
  rewrite Z.ltb_irrefl. unfold index. rewrite (proj2 (Z.ltb_ge _ _)) by lia. rewrite lookup_ge_None_2; [done|]. unfold len. lia.
Qed.

(** The total stake of a staker is its weight in the next epoch, or its own delegation when
    that is larger or it has no weight. *)
Theorem staker_total_stake (st : Store) sfc v i k k' :
  sees v sfc → is_u32 i → GetStaker i sfc st = Ok (Some k') → v_staker v i = Some k →
  let self := default 0 (v_delegation v (mkDelegationID (sk_Address k) i)) in
  CalcTotalStake k' = Ok (match bs_NextValidatorProfiles (s_BlockState st) !! i with
                          | Some p => Z.max (Weight p) self
                          | None => self
                          end) ∧
  IsValidator k' = vv_Exists (es_Validators (s_EpochState st)) i.
Proof.
  intros Hs Hid E Hk. cbv zeta. unfold GetStaker in E. destruct (see_staker _ _ Hs i Hid) as [Eg Hst].
  destruct (Hst k Hk) as [Hsk Hlen]. rewrite Eg, Hk in E. cbn [mbind res_bind] in E. unfold extendStaker in E.
  assert (Hd : did_ok (mkDelegationID (sk_Address k) i)) by done.
  destruct (see_delegation _ _ Hs _ Hd) as [Ed Ha]. rewrite Ed in E. cbn [mbind res_bind] in E. injection E as <-.
  split; [|done]. unfold CalcTotalStake. cbn [StakeAmount DelegatedMe with_api]. f_equal.
  unfold stored_staker in Hsk. assert (Hdm : DelegatedMe k = None) by (by rewrite <- Hsk). rewrite Hdm.
  destruct (v_delegation v _) as [a|]; cbn [fmap option_fmap option_map default from_option Amount id];
    destruct (bs_NextValidatorProfiles _ !! _) as [p|]; try lia.
  - destruct (Z.ltb_spec (Z.sgn (Weight p - a)) 0) as [Hn%Z.sgn_neg_iff|Hn%Z.sgn_nonneg]; lia.
  - destruct (Z.ltb_spec (Z.sgn (Weight p - 0)) 0) as [Hn%Z.sgn_neg_iff|Hn%Z.sgn_nonneg]; lia.
Qed.
End answers.

(** ** On a concrete chain *)

#[global] Instance demo_EventKeyLaws : EventKeyLaws Hash.
Proof.
  split.
  - intros h. cbn [id_Bytes id_Epoch id_Lamport Hash_IDs idx_Epoch_Bytes idx_Lamport_Bytes demo_EpochBytes].
    destruct (proj2_dsig h) as [Hb Hl]. destruct (`h) as [|a [|b [|c [|d [|e [|f [|g [|i t]]]]]]]]; try discriminate.
    repeat (apply Forall_cons in Hb as [? Hb]). cbn [take drop]. rewrite take_0, drop_0.
    by rewrite (proj2 (be32_val a b c d ltac:(done) ltac:(done) ltac:(done) ltac:(done))),
      (proj2 (be32_val e f g i ltac:(done) ltac:(done) ltac:(done) ltac:(done))).
  - done.
  - intros n m Hn Hm. assert (Hinj : be32 n = be32 m → n = m); [|split; exact Hinj].
    intros E. rewrite <- (BytesToValidatorID_Bytes n Hn), <- (BytesToValidatorID_Bytes m Hm). exact (f_equal BytesToValidatorID E).
Qed.

Lemma demo_events_stored : events_stored demo_store.
Proof.
  intros key e. cbn [s_Tables demo_store t_Events]. intros [<- <-]%lookup_singleton_Some.
  split; [reflexivity|]. split; [|vm_compute; reflexivity]. intros E. apply (f_equal id_Bytes) in E. vm_compute in E. discriminate.
Qed.

Definition same_tx (tx tx' : Transaction) : Prop := tx_Hash tx' = tx_Hash tx → tx' = tx.
#[global] Instance same_tx_dec tx tx' : Decision (same_tx tx tx').
Proof. unfold same_tx. apply _. Defined.

Lemma demo_no_collision : no_collision demo_after.2 demo_evm_txs.
Proof.
  assert (Ht : bool_decide (map_Forall (λ _ tx', Forall (λ tx, same_tx tx tx') demo_evm_txs) (t_Txs (s_Tables demo_after.2))) = true)
    by (vm_compute; reflexivity).
  assert (He : bool_decide (map_Forall (λ _ e, Forall (λ tx', Forall (λ tx, same_tx tx tx') demo_evm_txs) (ep_txs e))
    (t_Events (s_Tables demo_after.2))) = true) by (vm_compute; reflexivity).
  apply bool_decide_eq_true in Ht. apply bool_decide_eq_true in He.
  intros tx tx' Hin Hh [[h Hl]|(key & e & Hl & Hin')].
  - exact (proj1 (Forall_forall _ _) (Ht h tx' Hl) tx Hin Hh).
  - exact (proj1 (Forall_forall _ _) (proj1 (Forall_forall _ _) (He key e Hl) tx' Hin') tx Hin Hh).
Qed.

Lemma demo_latest : GetLatestBlockIndex demo_after.2 = 4.
Proof. vm_compute. reflexivity. Qed.

(** The transaction of the event and the first internal one. *)
Lemma transactions_found_witness :
  GetTransaction true (tx_Hash (demo_btx 7)) demo_after.2 = Ok (Some (demo_btx 7), GetLatestBlockIndex demo_after.2, 3).
Proof.
  destruct demo_evm_txs_eq as (Hnd & Hlen & Hk). pose proof demo_no_collision as Hc.
  destruct (t_EvmBlocks (s_Tables demo_after.2) !! 4) as [eb|] eqn:Eb; [|vm_compute in Eb; discriminate].
  unfold demo_evm_txs in Hnd, Hlen, Hk, Hc. rewrite Eb in Hnd, Hlen, Hk, Hc. cbn [from_option] in Hnd, Hlen, Hk, Hc.
  apply (transactions_found demo_Pack demo_driver demo_topics demo_json (λ _, demo_group) (λ _, Ok demo_world) (λ l, l)
    demo_cblk [demo_e1; demo_e2] demo_store demo_after.1 demo_after.2 eb demo_process_Ok demo_after_new) with (k := 3%nat).
  - rewrite demo_latest. exact Eb.
  - exact Hnd.
  - rewrite Hlen. reflexivity.
  - exact demo_events_stored.
  - exact Hc.
  - exact Hk.
Defined.

Lemma last_block_served_witness :
  ∃ eb, h_Number (eb_Header eb) = 4 ∧ BlockByNumber LatestBlockNumber demo_after.2 = Ok (Some eb, demo_after.2) ∧
    BlockByHash (id_Bytes (demo_atropos 4)) demo_after.2 = Ok (Some eb, demo_after.2).
Proof.
  destruct (last_block_served demo_Pack demo_driver demo_topics demo_json (λ _, demo_group) (λ _, Ok demo_world) (λ l, l)
    demo_cblk [demo_e1; demo_e2] demo_store demo_after.1 demo_after.2) as (eb & Hn & _ & _ & _ & Hnum & Hhash & _).
  - done.
  - done.
  - exact demo_process_Ok.
  - exact demo_after_new.
  - assert (Ha : bc_Atropos (bs_LastBlock (s_BlockState demo_after.2)) = demo_atropos 4) by (vm_compute; reflexivity).
    pose proof demo_latest as Hl. unfold GetLatestBlockIndex in Hl. rewrite Hl in Hn. rewrite Ha in Hhash.
    exists eb. split; [exact Hn|]. split; [apply Hnum; left|exact Hhash].
Defined.

(** Two events of one epoch and Lamport time, told apart by the first byte of the hash. *)
Definition demo_short (b : Z) : Hash := mk_ID 5 26 (b :: replicate 23 0).
Definition demo_short_events : Table := {[ id_Bytes (demo_short 1) := []; id_Bytes (demo_short 2) := [] ]}.
Definition demo_FromHex (s : string) : list Z := if bool_decide (s = "0x01"%string) then [1] else [].

Lemma demo_short_keyed : keyed_by_ids (EventID := Hash) demo_short_events.
Proof.
  intros k b Hk. unfold demo_short_events in Hk. apply lookup_insert_Some in Hk as [[<- _]|[_ Hk]]; [by exists (demo_short 1)|].
  apply lookup_singleton_Some in Hk as [<- _]. by exists (demo_short 2).
Qed.

Lemma short_event_id_exact_witness :
  GetFullEventID demo_FromHex "5:26:0x01" demo_short_events = Ok (demo_short 1) ∧
  GetFullEventID (EventID := Hash) demo_FromHex "5:26:0x" demo_short_events = Err ErrManyEvents.
Proof.
  destruct (short_event_id_exact (EventID := Hash) demo_FromHex demo_short_events "5" "26" "0x01" 5 26 demo_short_keyed
    eq_refl eq_refl eq_refl eq_refl eq_refl) as (Hone & _ & _).
  destruct (short_event_id_exact (EventID := Hash) demo_FromHex demo_short_events "5" "26" "0x" 5 26 demo_short_keyed
    eq_refl eq_refl eq_refl eq_refl eq_refl) as (_ & _ & Hmany).
  split.
  - apply Hone. split.
    + split; [eexists; vm_compute; reflexivity|]. split; [vm_compute; reflexivity|]. split; [vm_compute; reflexivity|].
      exists (replicate 23 0). vm_compute. reflexivity.
    + intros id ([b Hb] & _ & _ & [x Hx]). unfold demo_short_events in Hb.
      apply lookup_insert_Some in Hb as [[E _]|[_ Hb]]; [symmetry; exact (id_Bytes_inj _ _ E)|].
      apply lookup_singleton_Some in Hb as [E _]. rewrite <- E in Hx. vm_compute in Hx. discriminate.
  - apply Hmany. exists (demo_short 1), (demo_short 2). split; [|split].
    + split; [eexists; vm_compute; reflexivity|]. split; [vm_compute; reflexivity|]. split; [vm_compute; reflexivity|].
      exists (1 :: replicate 23 0). vm_compute. reflexivity.
    + split; [eexists; vm_compute; reflexivity|]. split; [vm_compute; reflexivity|]. split; [vm_compute; reflexivity|].
      exists (2 :: replicate 23 0). vm_compute. reflexivity.
    + intros E. apply (f_equal id_Bytes) in E. vm_compute in E. discriminate.
Defined.
